(* ===== verification/_CoqProject ===== *)
-Q . S2P
Prelude.v
Text.v
Bits.v
WsFrame.v
Base64.v
WsHandler.v
WsUtf8.v
WsConnection.v
Codec.v
BlockStream.v
Poly1305.v
Sha2.v
Simd.v
Sha256.v
Sha512.v
ChaCha20.v
Hmac.v
Kdf.v
PasswordHash.v
Jwt.v
Aead.v
TimerWheel.v
AsyncChannel.v
ChannelQueue.v
ChannelWakeup.v
Spsc.v
PipelineGraph.v
Window.v
Resilience.v
HttpParser.v
HttpViews.v
HttpMessage.v
Router.v
Url.v
Response.v
Fetch.v
HttpClient.v
Server.v
ServerSession.v
HttpFetch.v
Aes.v
AesGcm.v
GridScan.v
Grid.v
Grid2D.v
HashMap.v
GenerationPool.v
Rudp.v
Gf256.v
Erasure.v
GaussJordan.v
ErasureRecovery.v
Hpack.v
Http2.v
Http2Limits.v
Http2Requests.v
