(* ===== verification/Prelude.v ===== *)
(** * qbuem-stack: a verification library

    qbuem-stack is a C++ server library: an HTTP/1.1 and HTTP/2 server with routing and
    WebSockets, an HTTP client, the codecs and cryptography under them, channels and timers
    for its coroutines, and some free-standing data structures.  This library models parts of
    it as Rocq functions and proves theorems about them.  Paths below are relative to
    [include/qbuem/] unless they start with [src/].

    ** Conventions

    A w-bit integer is a [Z] followed by [wrap w] wherever the code may leave the range; bytes
    are such integers, and strings and buffers are lists of them.  A function that can fail
    returns [result] with the [errc] of the code.  A method returns the new object; what it
    does to the outside (writes, callbacks, timers, log entries) is a list of events, and what
    the outside does to it (reads, kernel answers, random bytes, clocks, handlers of the
    application, the order in which an [unordered_map] is walked) is an argument.  Code that
    several threads run is a step relation whose steps are the accesses to shared memory,
    interleaved in one order; the weaker orders of the C++ memory model are not modelled.

    A loop is a structural recursion over its data where there is one.  Otherwise it takes
    fuel, and the callers give it an upper bound of its turns: the length of the input (every
    turn of a parser consumes a byte), the width of a word (digits, powers of two), the number
    of slots or of steps the environment offers.  The theorems are about the functions with
    that fuel, so they also say that the code returns.

    ** Files and what their theorems show

    - [Prelude], [Text]: machine integers, results, byte lists; strings, [find], [substr],
      decimal numbers.  [Bits]: counting bits.  [Simd]: vectors of four words.  [BlockStream]:
      the buffering shared by the hashes and Poly1305.

    - WebSockets.  [WsFrame] ([server/websocket_handler.hpp]): the frame codec; decoding inverts
      encoding, and the vector forms of the mask agree with the portable one.  [WsHandler]: the
      blocking loop and the handshake key of the same header.  [WsUtf8], [WsConnection]
      ([server/ws_server.hpp]): one connection of the reactor-driven server, as a state with the
      calls it makes.  A message, fragmented and interleaved with control frames and cut into
      reads in any way, is delivered whole; everything written is a sequence of well-formed
      frames; the limits hold; violations close with the right code; teardown happens once, and
      the timers the reactor holds for the connection are then gone, except the one a second
      ping leaves behind.

    - Codecs.  [Base64] ([crypto/base64.hpp]), [Codec] ([codec/length_prefix_codec.hpp],
      [codec/line_codec.hpp]), [Url] ([url.hpp] and the accessors of [http/request.hpp]): round
      trips, also over split input.

    - HTTP/1.1.  [HttpParser] is the parser ([http/parser.hpp], [src/http/parser.cpp]),
      [HttpMessage] shows that it reads back well-formed requests with a plain or a chunked body
      and stays inside its input.  [HttpViews]: the places in the receive buffer that the fields
      of a request are views of, and what they show after the server has erased the request from
      the buffer with a [std::string] that does so in place, as libstdc++'s: the request itself
      when the buffer held nothing else, the bytes of the next one otherwise.  [Router] ([http/router.hpp], [src/http/router.cpp]): the radix
      tree returns the first route in the order the header documents, with the parameters bound
      to the names of the registered pattern.  [Response]
      ([http/response.hpp], [src/http/response.cpp]): the response and its bytes.  [Fetch]
      ([http/fetch.hpp]): the client; [HttpClient] shows that it reads back what the server
      writes, with a fixed length or streamed in chunks that do not contain the mark by which it
      recognises the end.  [Server] ([App::listen] of
      [src/qbuem_stack.cpp]): one connection, with its buffer, timers, counters and the calls on
      its socket.  [ServerSession]: a keep-alive session implements its specification however
      the requests are cut into reads, with the erase in place of [HttpViews]; the timers,
      whatever the views show; the write loops.  [HttpFetch]: client and server together, end to
      end, with the same erase.

    - HTTP/2.  [Hpack], [Http2] ([server/http2_handler.hpp]): header compression and the
      connection's state machine.  [Http2Limits]: the invariant of a connection on any input,
      flow-control credit; every access to a payload is partial in the model, and none but the
      known one is outside.  [Http2Requests]: requests on several
      streams, interleaved, are served.

    - Cryptography ([crypto/]).  [ChaCha20], [Poly1305], [Aead], [Sha2], [Sha256], [Sha512],
      [Hmac], [Kdf], [PasswordHash]: the code with its machine words, limbs, unrolled rounds and
      vector forms equals the definitions of the RFCs and FIPS 180-4, which are written out
      beside it; authenticated decryption accepts exactly what encryption produced.  [Aes],
      [AesGcm] ([crypto/aes_gcm.hpp]): the x86 and ARM backends over their instructions against
      FIPS 197 and SP 800-38D; the x86 schedule of 256-bit keys is shown not to be FIPS 197's.
      [Jwt]: the HS256 verifier accepts exactly the tokens signed with the key, and the claims are
      those of the payload.

    - Core.  [TimerWheel] ([core/timer_wheel.hpp]): the hierarchical wheel refines a table of
      deadlines.  [AsyncChannel] ([pipeline/async_channel.hpp]): the ring, its waiters and its
      close, as steps of several tasks; [ChannelQueue]: every interleaving refines a bounded
      queue and a lone operation returns, with two more steps per spurious failure of a weak
      exchange; [ChannelWakeup]: no wake-up is lost.

    - Erasure coding.  [Gf256], [Erasure] ([buf/simd_erasure.hpp]): the field and the coder;
      [GaussJordan], [ErasureRecovery]: the inversion is right, and reconstruction restores the
      data shards.

    - Containers.  [HashMap] ([buf/lock_free_hash_map.hpp]): the operations, one at a time,
      refine a finite map of bounded size.  [GenerationPool] ([buf/generation_pool.hpp]): under
      any interleaving in which no two threads release one handle at the same time, no slot is
      handed out twice and a handle resolves exactly while it is live.  [GridScan], [Grid], [Grid2D] ([buf/grid_bitset.hpp]): the bit grids refine sets of
      cells, their vector scans and queries agree with the definitions, and a ray visits the
      cells of the line; the 32-bit arithmetic of a ray is partial, defined for directions up to
      [max_side].

    - Transport.  [Rudp] ([net/rudp_socket.hpp]): over a network that loses, repeats and
      reorders datagrams the receiver returns a prefix of what was sent, in order and once, at
      least up to the first piece lost, within bounded buffers.

    - Pipelines ([pipeline/]).  [Spsc] ([spsc_channel.hpp]): under any interleaving the ring is a
      bounded queue; runs of its coroutines show what can go wrong with its one waiter.
      [PipelineGraph] ([pipeline_graph.hpp]): the topological sort is right, the coroutines of a
      started graph deliver only what its nodes and edges make of the input, and runs show where
      items are lost.  [Window] ([windowed_action.hpp]): tumbling and sliding windows account
      for every item once.  [Resilience] ([idempotency.hpp], [circuit_breaker.hpp],
      [retry_policy.hpp], [saga.hpp]): the filter of duplicates is exact while its keys fit; the
      state of the breaker, the result of the retries and the order of compensations are those
      documented, up to the exceptions the theorems name.

    The numbered theorems are the properties of the library; the other theorems of a file are
    further facts about its code, or show where it departs from its comments.

    ** Not modelled

    - The reactors (epoll, io_uring, kqueue), sockets, files, shared memory, DNS and the
      coroutine machinery: wrappers of system calls and compiler transformations.  The modelled
      components take the events they deliver as inputs.
    - In [App::listen]: asynchronous middlewares and what a coroutine handler does after it was
      started; [App::listen_unix]; the file transfer of [sendfile] is one recorded call.
    - RSA and its big integers, the middlewares, the database and tracing interfaces.
    - Of [pipeline/]: the operators that only spawn workers over [AsyncChannel] (the pipelines,
      batches, streams, the message bus, canaries, checkpoints), the arena channel and the
      priority channel.
    - The arena and the remaining containers of [buf/]; the interleavings of operations on the
      hash map and of the lock-free paths of the circuit breaker.
    - In [PipelineGraph] the channels are bounded queues, which is what [ChannelQueue] shows of
      [AsyncChannel]; the actions of nodes are functions.  In [Window] and [Resilience] sums of
      times are taken to fit in 64 bits, where a hypothesis does not say so; delays of retries
      are computed at their width.
    - Time: a timer fires when an event says so.  Allocation failures and exceptions other than
      those of handlers. *)

From Stdlib Require Export ZArith Lia.
From stdpp Require Export base tactics numbers list option strings.

#[global] Open Scope Z_scope.
#[global] Set Default Goal Selector "!".

(** ** Machine integers *)

(** A w-bit unsigned value is a [Z] in [[0, 2^w)]; an operation that may leave
    the range is followed by the wrap-around of its width. *)
Definition wrap (w z : Z) : Z := z mod 2 ^ w.

Declare Scope word_scope.
Delimit Scope word_scope with word.
Notation "'u8' z" := (wrap 8 z) (at level 10, z at level 9, only parsing) : word_scope.
Notation "'u16' z" := (wrap 16 z) (at level 10, z at level 9, only parsing) : word_scope.
Notation "'u32' z" := (wrap 32 z) (at level 10, z at level 9, only parsing) : word_scope.
Notation "'u64' z" := (wrap 64 z) (at level 10, z at level 9, only parsing) : word_scope.
#[global] Open Scope word_scope.

Notation "a .& b" := (Z.land a b) (at level 40, left associativity) : word_scope.
Notation "a .| b" := (Z.lor a b) (at level 50, left associativity) : word_scope.
Notation "a .^ b" := (Z.lxor a b) (at level 50, left associativity) : word_scope.
Notation "a << n" := (Z.shiftl a n) (at level 35, no associativity) : word_scope.
Notation "a >> n" := (Z.shiftr a n) (at level 35, no associativity) : word_scope.

Definition UINT32_MAX : Z := 2 ^ 32 - 1.
Definition UINT64_MAX : Z := 2 ^ 64 - 1.

Definition in_range (w z : Z) : Prop := 0 <= z < 2 ^ w.
Abbreviation is_byte := (in_range 8).

#[global] Instance in_range_dec w z : Decision (in_range w z).
Proof. unfold in_range. apply _. Defined.

(** [lia] over [in_range] and constant powers of two. *)
Ltac rlia := unfold in_range in *; change (2 ^ 8) with 256 in *;
  change (2 ^ 16) with 65536 in *; change (2 ^ 32) with 4294967296 in *;
  change (2 ^ 64) with 18446744073709551616 in *; lia.

Lemma wrap_range w z : 0 <= w -> in_range w (wrap w z).
Proof. intros. apply Z.mod_pos_bound. lia. Qed.

Lemma wrap_small w z : in_range w z -> wrap w z = z.
Proof. apply Z.mod_small. Qed.

(** Inner wrap-arounds of a sum are absorbed by the outer one. *)
Lemma wrap_add_l w a b : wrap w (wrap w a + b) = wrap w (a + b).
Proof.
  unfold wrap. destruct (decide (2 ^ w = 0)) as [->|]; [by rewrite !Zmod_0_r|]. by apply Z.add_mod_idemp_l.
Qed.

Lemma wrap_add_r w a b : wrap w (a + wrap w b) = wrap w (a + b).
Proof. rewrite Z.add_comm, wrap_add_l. f_equal. lia. Qed.

Lemma wrap_testbit w z i : 0 <= w ->
  Z.testbit (wrap w z) i = bool_decide (i < w) && Z.testbit z i.
Proof.
  intros Hw. unfold wrap. destruct (decide (i < 0)) as [Hi|Hi].
  { rewrite !Z.testbit_neg_r by lia. by rewrite andb_false_r. }
  case_bool_decide.
  - by rewrite Z.mod_pow2_bits_low by lia.
  - by rewrite Z.mod_pow2_bits_high by lia.
Qed.

Lemma range_testbit w z i : in_range w z -> w <= i -> Z.testbit z i = false.
Proof.
  intros Hz Hi. rewrite <- (wrap_small w z) by done. unfold wrap.
  destruct (decide (0 <= w)); [by rewrite Z.mod_pow2_bits_high by lia|].
  unfold in_range in Hz. rewrite Z.pow_neg_r in Hz by lia. lia.
Qed.

Lemma testbit_range w z : 0 <= w -> 0 <= z ->
  (forall i, w <= i -> Z.testbit z i = false) -> in_range w z.
Proof.
  intros Hw Hz Hb. split; [done|].
  destruct (decide (z = 0)) as [->|]; [apply Z.pow_pos_nonneg; lia|].
  apply Z.log2_lt_pow2; [lia|]. destruct (decide (Z.log2 z < w)); [done|].
  exfalso. specialize (Hb (Z.log2 z) ltac:(lia)). rewrite Z.bit_log2 in Hb by lia. done.
Qed.

(** Bit operations stay within the width of their arguments. *)
Lemma land_range w a b : 0 <= w -> in_range w a -> 0 <= b -> in_range w (a .& b).
Proof.
  intros Hw Ha Hb. apply testbit_range; [done|rewrite Z.land_nonneg; rlia|].
  intros i Hi. rewrite Z.land_spec, (range_testbit w a); done.
Qed.

Lemma lor_range w a b : 0 <= w -> in_range w a -> in_range w b -> in_range w (a .| b).
Proof.
  intros Hw Ha Hb. apply testbit_range; [done|rewrite Z.lor_nonneg; rlia|].
  intros i Hi. by rewrite Z.lor_spec, (range_testbit w a), (range_testbit w b).
Qed.

Lemma lxor_range w a b : 0 <= w -> in_range w a -> in_range w b -> in_range w (a .^ b).
Proof.
  intros Hw Ha Hb. apply testbit_range; [done|rewrite Z.lxor_nonneg; rlia|].
  intros i Hi. by rewrite Z.lxor_spec, (range_testbit w a), (range_testbit w b).
Qed.

(** Masking with an all-ones constant is the remainder. *)
Lemma land_mask n z : 0 <= n -> z .& (2 ^ n - 1) = z mod 2 ^ n.
Proof. intros. by rewrite <- Z.land_ones, Z.ones_equiv, Z.sub_1_r by done. Qed.

Lemma land_255 z : z .& 255 = z mod 256.
Proof. exact (land_mask 8 z ltac:(lia)). Qed.

(** A disjunction of a value shifted past a small one is a sum. *)
Lemma lor_shiftl_add n a b : 0 <= n -> in_range n b -> (a << n) .| b = a * 2 ^ n + b.
Proof.
  intros Hn Hb.
  assert ((a << n) .& b = 0) as Hd.
  { apply Z.bits_inj'. intros i Hi. rewrite Z.land_spec, Z.bits_0.
    destruct (decide (i < n)); [by rewrite Z.shiftl_spec_low|].
    rewrite (range_testbit n b) by (done || lia). apply andb_false_r. }
  rewrite <- Z.shiftl_mul_pow2, <- Z.lxor_lor by done.
  symmetry. by apply Z.add_nocarry_lxor.
Qed.

(** ** Results *)

(** [Result<T>] is [std::expected<T, std::error_code>]; the [std::errc] values
    the modelled code produces, and a raw [errno]. *)
Inductive errc :=
  | resource_unavailable_try_again
  | message_size
  | invalid_argument
  | illegal_byte_sequence
  | value_too_large
  | no_buffer_space
  | timed_out
  | no_such_file_or_directory
  | protocol_error
  | bad_message
  | connection_aborted
  | connection_refused
  | broken_pipe
  | no_such_process
  | operation_not_permitted
  | operation_would_block
  | not_enough_memory
  | operation_canceled
  | protocol_not_supported
  | function_not_supported
  | errno_ (e : Z).

Inductive result (A : Type) :=
  | Ok (a : A)
  | Err (e : errc).
Arguments Ok {A} a.
Arguments Err {A} e.

#[global] Instance errc_eq_dec : EqDecision errc.
Proof. solve_decision. Defined.

Definition has_value {A} (r : result A) : bool :=
  match r with Ok _ => true | Err _ => false end.

(** ** Byte sequences *)

Abbreviation bytes := (list Z).
Abbreviation all_bytes := (Forall is_byte).

(** [size()] of a container, at the width of the arithmetic around it. *)
Definition zlen {A} (l : list A) : Z := Z.of_nat (length l).

(** [data[i]] for an index the code has checked. *)
Definition at_ (l : list Z) (i : Z) : Z := nth (Z.to_nat i) l 0.

Definition ztake {A} (n : Z) (l : list A) : list A := take (Z.to_nat n) l.
Definition zdrop {A} (n : Z) (l : list A) : list A := drop (Z.to_nat n) l.

(** [n] bytes of [z], most significant first. *)
Fixpoint be_bytes (n : nat) (z : Z) : bytes :=
  match n with
  | O => []
  | S n => ((z >> (8 * Z.of_nat n)) .& 0xFF) :: be_bytes n z
  end.

(** The value of a big-endian byte string. *)
Definition be_val (bs : bytes) : Z := foldl (fun acc b => acc * 256 + b) 0 bs.

Lemma length_be_bytes n z : length (be_bytes n z) = n.
Proof. induction n; simpl; congruence. Qed.

Lemma be_bytes_range n z : all_bytes (be_bytes n z).
Proof.
  induction n; simpl; constructor; [|done].
  rewrite land_255. apply (wrap_range 8). lia.
Qed.

Lemma foldl_be acc bs :
  foldl (fun acc b => acc * 256 + b) acc bs = acc * 256 ^ zlen bs + be_val bs.
Proof.
  unfold be_val, zlen. revert acc. induction bs as [|b bs IH]; intros acc; cbn [foldl].
  { simpl. lia. }
  rewrite IH, (IH (0 * 256 + b)), length_cons, Nat2Z.inj_succ, Z.pow_succ_r by lia. lia.
Qed.

Lemma be_val_cons b bs : be_val (b :: bs) = b * 256 ^ zlen bs + be_val bs.
Proof. exact (foldl_be (0 * 256 + b) bs). Qed.

Lemma be_val_app xs ys : be_val (xs ++ ys) = be_val xs * 256 ^ zlen ys + be_val ys.
Proof. unfold be_val at 1. rewrite foldl_app. apply foldl_be. Qed.

Lemma be_val_range bs : all_bytes bs -> 0 <= be_val bs < 256 ^ zlen bs.
Proof.
  unfold zlen. induction 1 as [|b bs Hb Hbs IH]; [done|].
  rewrite be_val_cons. unfold zlen. rewrite length_cons, Nat2Z.inj_succ, Z.pow_succ_r by lia.
  rlia || (unfold in_range in *; change (2 ^ 8) with 256 in *; nia).
Qed.

Lemma be_val_be_bytes n z : be_val (be_bytes n z) = z mod 256 ^ Z.of_nat n.
Proof.
  induction n as [|n IH]; [by rewrite Z.mod_1_r|].
  cbn [be_bytes]. rewrite be_val_cons, IH. unfold zlen. rewrite length_be_bytes.
  rewrite land_255, Z.shiftr_div_pow2 by lia.
  rewrite Z.pow_mul_r, Nat2Z.inj_succ, Z.pow_succ_r by lia. change (2 ^ 8) with 256.
  rewrite (Z.mul_comm 256), Z.rem_mul_r by lia. lia.
Qed.

Lemma be_bytes_mod n z w : Z.of_nat n <= w -> be_bytes n (z mod 256 ^ w) = be_bytes n z.
Proof.
  intros Hw. induction n as [|n IH]; [done|]. cbn [be_bytes]. rewrite IH by lia. f_equal.
  change 256 with (2 ^ 8). rewrite <- Z.pow_mul_r by lia.
  apply Z.bits_inj'. intros i Hi. rewrite !Z.land_spec.
  destruct (decide (i < 8)).
  - rewrite !Z.shiftr_spec, Z.mod_pow2_bits_low by lia. done.
  - change 255 with (Z.ones 8). by rewrite Z.ones_spec_high, !andb_false_r by lia.
Qed.

Lemma be_bytes_be_val bs : all_bytes bs -> be_bytes (length bs) (be_val bs) = bs.
Proof.
  induction 1 as [|b bs Hb Hbs IH]; [done|].
  pose proof (be_val_range bs Hbs) as Hr. unfold zlen in Hr.
  cbn [length be_bytes]. rewrite be_val_cons. unfold zlen. f_equal.
  - rewrite Z.shiftr_div_pow2, Z.pow_mul_r by lia. change (2 ^ 8) with 256.
    rewrite Z.div_add_l, Z.div_small by lia.
    rewrite land_255, Z.add_0_r. by apply (wrap_small 8).
  - rewrite <- (be_bytes_mod _ _ (Z.of_nat (length bs))) by lia.
    rewrite Z.add_comm, Z.mod_add, Z.mod_small by lia. done.
Qed.

(** The shift-and-or accumulation loop of the decoders computes [be_val]. *)
Lemma foldl_shift_or w bs acc :
  all_bytes bs -> 0 <= acc -> (acc + 1) * 256 ^ zlen bs <= 2 ^ w ->
  foldl (fun acc b => wrap w (acc << 8) .| b) acc bs = acc * 256 ^ zlen bs + be_val bs.
Proof.
  intros Hbs. revert acc. induction Hbs as [|b bs Hb Hbs IH]; intros acc Ha Hw; simpl.
  - change (zlen []) with 0. unfold be_val. simpl. lia.
  - assert (zlen (b :: bs) = zlen bs + 1) as Hl by (unfold zlen; simpl; lia).
    assert (0 <= zlen bs) by (unfold zlen; lia).
    rewrite Hl, Z.pow_add_r in * by lia.
    assert (0 < 256 ^ zlen bs) by (apply Z.pow_pos_nonneg; lia).
    change (256 ^ 1) with 256 in *.
    rewrite Z.shiftl_mul_pow2 by lia. change (2 ^ 8) with 256.
    rewrite wrap_small by (unfold in_range; nia).
    pose proof (lor_shiftl_add 8 acc b ltac:(lia) Hb) as E.
    rewrite Z.shiftl_mul_pow2 in E by lia. change (2 ^ 8) with 256 in E. rewrite E.
    unfold in_range in Hb. change (2 ^ 8) with 256 in Hb.
    rewrite IH by nia. rewrite be_val_cons. lia.
Qed.

(** ** Lists indexed by [Z] *)

Create Rewrite HintDb zlist.

Lemma zlen_nil A : zlen (@nil A) = 0.
Proof. done. Qed.

Lemma zlen_cons {A} (x : A) l : zlen (x :: l) = zlen l + 1.
Proof. unfold zlen. simpl. lia. Qed.

Lemma zlen_app {A} (l k : list A) : zlen (l ++ k) = zlen l + zlen k.
Proof. unfold zlen. rewrite length_app. lia. Qed.

Lemma zlen_map {A B} (f : A -> B) l : zlen (map f l) = zlen l.
Proof. unfold zlen. by rewrite length_map. Qed.

Lemma zlen_nonneg {A} (l : list A) : 0 <= zlen l.
Proof. unfold zlen. lia. Qed.

Lemma zlen_0 {A} (l : list A) : zlen l = 0 -> l = [].
Proof. unfold zlen. destruct l; simpl; [done|lia]. Qed.

Lemma zlen_be_bytes n z : zlen (be_bytes n z) = Z.of_nat n.
Proof. unfold zlen. by rewrite length_be_bytes. Qed.

Lemma zlen_replicate {A} n (x : A) : zlen (replicate n x) = Z.of_nat n.
Proof. unfold zlen. by rewrite length_replicate. Qed.

#[export] Hint Rewrite @zlen_replicate : zlist.
#[export] Hint Rewrite @zlen_nil @zlen_cons @zlen_app @zlen_map zlen_be_bytes : zlist.

(** [lia] knowing the lengths of list constructors. *)
Ltac zlia :=
  autorewrite with zlist in *;
  repeat match goal with
    | |- context [zlen ?l] => lazymatch goal with
        | _ : 0 <= zlen l |- _ => fail | _ => pose proof (zlen_nonneg l) end
    | _ : context [zlen ?l] |- _ => lazymatch goal with
        | _ : 0 <= zlen l |- _ => fail | _ => pose proof (zlen_nonneg l) end
    end; lia.

Lemma at_app_l l k i : 0 <= i < zlen l -> at_ (l ++ k) i = at_ l i.
Proof. unfold at_, zlen. intros. apply app_nth1. lia. Qed.

Lemma at_cons_S x l i : 0 < i -> at_ (x :: l) i = at_ l (i - 1).
Proof.
  unfold at_. intros. replace (Z.to_nat i) with (S (Z.to_nat (i - 1))) by lia. done.
Qed.

Lemma at_range w l i : 0 <= w -> Forall (in_range w) l -> in_range w (at_ l i).
Proof.
  intros Hw Hl. unfold at_. destruct (nth_in_or_default (Z.to_nat i) l 0) as [H| ->].
  - exact (proj1 (Forall_forall _ _) Hl _ (proj2 (list_elem_of_In _ _) H)).
  - split; [lia|]. apply Z.pow_pos_nonneg; lia.
Qed.

Lemma ztake_app_le {A} n (l k : list A) : n <= zlen l -> ztake n (l ++ k) = ztake n l.
Proof. unfold ztake, zlen. intros. rewrite take_app_le by lia. done. Qed.

Lemma zdrop_app_le {A} n (l k : list A) : n <= zlen l -> zdrop n (l ++ k) = zdrop n l ++ k.
Proof. unfold zdrop, zlen. intros. rewrite drop_app_le by lia. done. Qed.

Lemma ztake_app {A} n (l k : list A) : n = zlen l -> ztake n (l ++ k) = l.
Proof. unfold ztake, zlen. intros ->. rewrite Nat2Z.id. apply take_app_length. Qed.

Lemma zdrop_app_ge {A} n (l k : list A) :
  zlen l <= n -> zdrop n (l ++ k) = zdrop (n - zlen l) k.
Proof. unfold zdrop, zlen. intros. rewrite drop_app_ge by lia. f_equal. lia. Qed.

Lemma zdrop_app {A} n (l k : list A) : n = zlen l -> zdrop n (l ++ k) = k.
Proof. unfold zdrop, zlen. intros ->. rewrite Nat2Z.id. apply drop_app_length. Qed.

Lemma ztake_all {A} n (l : list A) : zlen l <= n -> ztake n l = l.
Proof. unfold ztake, zlen. intros. apply take_ge. lia. Qed.

Lemma zdrop_all {A} n (l : list A) : zlen l <= n -> zdrop n l = [].
Proof. unfold zdrop, zlen. intros. apply drop_ge. lia. Qed.

Lemma zlen_nil_inv {A} (l : list A) : zlen l = 0 -> l = [].
Proof. destruct l; [done|]. unfold zlen. simpl. lia. Qed.

Lemma zdrop_0 {A} (l : list A) : zdrop 0 l = l.
Proof. done. Qed.

Lemma zlen_ztake {A} n (l : list A) : 0 <= n <= zlen l -> zlen (ztake n l) = n.
Proof. unfold ztake, zlen. rewrite length_take. lia. Qed.

Lemma zlen_zdrop {A} n (l : list A) : 0 <= n <= zlen l -> zlen (zdrop n l) = zlen l - n.
Proof. unfold zdrop, zlen. rewrite length_drop. lia. Qed.

Lemma ztake_zdrop {A} n (l : list A) : ztake n l ++ zdrop n l = l.
Proof. apply take_drop. Qed.

Lemma zdrop_zdrop {A} n m (l : list A) :
  0 <= n -> 0 <= m -> zdrop n (zdrop m l) = zdrop (m + n) l.
Proof. intros. unfold zdrop. rewrite drop_drop. f_equal. lia. Qed.

(** Reading a range of indices. *)
Lemma map_at_seqZ l o n : 0 <= o -> 0 <= n -> o + n <= zlen l -> map (at_ l) (seqZ o n) = ztake n (zdrop o l).
Proof.
  intros Ho Hn. rewrite <- (Z2Nat.id n) by done. generalize (Z.to_nat n) as k. clear n Hn.
  intros k. revert o Ho. induction k as [|k IH]; intros o Ho Hl; [done|].
  rewrite seqZ_cons by lia. replace (Z.pred (Z.of_nat (S k))) with (Z.of_nat k) by lia.
  cbn [map]. rewrite IH by lia. unfold ztake, zdrop, at_. rewrite !Nat2Z.id.
  rewrite (drop_S l (nth (Z.to_nat o) l 0) (Z.to_nat o)).
  - by replace (S (Z.to_nat o)) with (Z.to_nat (Z.succ o)) by lia.
  - unfold zlen in Hl. destruct (nth_lookup_or_length l (Z.to_nat o) 0); [done|lia].
Qed.

Lemma foldl_ext {A B} (f g : A -> B -> A) a l : (forall x y, f x y = g x y) -> foldl f a l = foldl g a l.
Proof. intros H. revert a. induction l as [|x l IH]; intros a; [done|]. cbn [foldl]. by rewrite H, IH. Qed.

(** A loop over the common indices of two arrays. *)
Lemma foldl_index {A} (f : A -> Z -> Z -> A) l k a : length k = length l ->
  foldl (fun s i => f s (at_ l i) (at_ k i)) a (seqZ 0 (zlen l)) = foldl (fun s p => f s (fst p) (snd p)) a (zip l k).
Proof.
  intros Hl. assert (zip l k = map (fun i => (at_ l i, at_ k i)) (seqZ 0 (zlen l))) as ->.
  { assert (map (at_ l) (seqZ 0 (zlen l)) = l) as El.
    { rewrite map_at_seqZ by zlia. by apply ztake_all. }
    assert (map (at_ k) (seqZ 0 (zlen l)) = k) as Ek.
    { rewrite map_at_seqZ by (zlia || unfold zlen; lia). apply ztake_all. unfold zlen. change (zdrop 0 k) with k. lia. }
    rewrite <- El at 1. rewrite <- Ek at 1. generalize (seqZ 0 (zlen l)) as js.
    induction js as [|i js IH]; [done|]. cbn [map zip zip_with]. by rewrite <- IH. }
  generalize (seqZ 0 (zlen l)) as js. intros js. revert a.
  induction js as [|i js IH]; intros a; [done|]. cbn [map foldl fst snd]. apply IH.
Qed.

(** A decidable fact of every value below a literal bound is checked by
    evaluation. *)
Lemma forall_range (P : Z -> Prop) `{forall z, Decision (P z)} n v :
  forallb (fun z => bool_decide (P z)) (seqZ 0 n) = true -> 0 <= v < n -> P v.
Proof.
  intros Hf Hv. rewrite forallb_forall in Hf.
  eapply bool_decide_eq_true, Hf, list_elem_of_In, elem_of_seqZ. lia.
Qed.

(** Proves a goal about [v] from [Hv : 0 <= v < n], [n] a literal. *)
Ltac by_range v Hv :=
  cbv zeta; revert Hv; pattern v;
  match goal with |- (fun x => _ <= _ < ?n -> @?P x) v =>
    refine (@forall_range P ltac:(intros ?; cbv beta; apply _) n v _); vm_compute; reflexivity end.

(** Evaluates the boolean comparisons of the goal that the context decides. *)
Ltac zbool :=
  repeat match goal with
    | |- context [?a <? ?b] => first
        [ rewrite (proj2 (Z.ltb_lt a b)) by zlia | rewrite (proj2 (Z.ltb_ge a b)) by zlia ]
    | |- context [?a <=? ?b] => first
        [ rewrite (proj2 (Z.leb_le a b)) by zlia | rewrite (proj2 (Z.leb_gt a b)) by zlia ]
    | |- context [?a =? ?b] => first
        [ rewrite (proj2 (Z.eqb_eq a b)) by zlia | rewrite (proj2 (Z.eqb_neq a b)) by zlia ]
    end.

Lemma Forall_ztake {A} (P : A -> Prop) n l : Forall P l -> Forall P (ztake n l).
Proof. apply Forall_take. Qed.

Lemma Forall_zdrop {A} (P : A -> Prop) n l : Forall P l -> Forall P (zdrop n l).
Proof. apply Forall_drop. Qed.

#[export] Hint Resolve Forall_ztake Forall_zdrop : core.

(** ** Little-endian values *)

(** The value of a little-endian byte string. *)
Fixpoint le_val (bs : bytes) : Z :=
  match bs with
  | [] => 0
  | b :: bs => b + 256 * le_val bs
  end.

(** [n] bytes of [z], least significant first. *)
Fixpoint le_bytes (n : nat) (z : Z) : bytes :=
  match n with
  | O => []
  | S n => (z .& 0xFF) :: le_bytes n (z >> 8)
  end.

Lemma zlen_le_bytes n z : zlen (le_bytes n z) = Z.of_nat n.
Proof. unfold zlen. f_equal. revert z. induction n; intros z; simpl; [done|by rewrite IHn]. Qed.

Lemma le_bytes_range n z : all_bytes (le_bytes n z).
Proof.
  revert z. induction n; intros z; simpl; constructor; [|done].
  rewrite land_255. apply (wrap_range 8). lia.
Qed.

Lemma le_val_app xs ys : le_val (xs ++ ys) = le_val xs + 256 ^ zlen xs * le_val ys.
Proof.
  induction xs as [|x xs IH]; cbn [app le_val]; [unfold zlen; simpl; lia|].
  rewrite zlen_cons, Z.pow_add_r, IH by zlia. lia.
Qed.

Lemma le_val_range bs : all_bytes bs -> 0 <= le_val bs < 256 ^ zlen bs.
Proof.
  induction 1 as [|b bs Hb Hbs IH]; [done|]. cbn [le_val].
  rewrite zlen_cons, Z.pow_add_r by zlia. change (256 ^ 1) with 256. rlia.
Qed.

Lemma le_val_le_bytes n z : le_val (le_bytes n z) = z mod 256 ^ Z.of_nat n.
Proof.
  revert z. induction n as [|n IH]; intros z; [by rewrite Z.mod_1_r|].
  cbn [le_bytes le_val]. rewrite IH, land_255, Z.shiftr_div_pow2 by lia. change (2 ^ 8) with 256.
  rewrite Nat2Z.inj_succ, Z.pow_succ_r, Z.rem_mul_r by lia. lia.
Qed.

Lemma le_bytes_le_val bs : all_bytes bs -> le_bytes (length bs) (le_val bs) = bs.
Proof.
  induction 1 as [|b bs Hb Hbs IH]; [done|]. cbn [length le_bytes le_val].
  rewrite land_255, Z.shiftr_div_pow2 by lia. change (2 ^ 8) with 256.
  rewrite Z.mul_comm, Z.mod_add, Z.div_add, Z.mod_small, Z.div_small, Z.add_0_l by rlia. by rewrite IH.
Qed.

Lemma le_bytes_mod n z : le_bytes n (z mod 256 ^ Z.of_nat n) = le_bytes n z.
Proof.
  rewrite <- le_val_le_bytes.
  rewrite <- (le_bytes_le_val (le_bytes n z)) at 2 by apply le_bytes_range. f_equal.
  pose proof (zlen_le_bytes n z). unfold zlen in *. lia.
Qed.

Lemma le_bytes_app n m z : le_bytes (n + m) z = le_bytes n z ++ le_bytes m (z >> (8 * Z.of_nat n)).
Proof.
  revert z. induction n as [|n IH]; intros z; [by rewrite Z.shiftr_0_r|]. cbn [Nat.add le_bytes app].
  rewrite IH, Z.shiftr_shiftr by lia. do 4 f_equal. lia.
Qed.

(** The value of a slice. *)
Lemma le_val_slice bs o n : all_bytes bs -> 0 <= o -> 0 <= n -> o + n <= zlen bs ->
  le_val (ztake n (zdrop o bs)) = (le_val bs / 256 ^ o) mod 256 ^ n.
Proof.
  intros Hb Ho Hn Hl.
  assert (forall k l, all_bytes l -> 0 <= k <= zlen l ->
    le_val (ztake k l) = le_val l mod 256 ^ k /\ le_val (zdrop k l) = le_val l / 256 ^ k) as H.
  { intros k l Hbl Hk. rewrite <- (ztake_zdrop k l) at 2 4. rewrite le_val_app, zlen_ztake by lia.
    pose proof (le_val_range (ztake k l) ltac:(auto)) as Hr. rewrite zlen_ztake in Hr by lia.
    rewrite Z.mul_comm, Z.mod_add, Z.div_add, Z.mod_small, Z.div_small by lia. lia. }
  rewrite (proj1 (H n (zdrop o bs) ltac:(auto) ltac:(rewrite zlen_zdrop by lia; lia))).
  by rewrite (proj2 (H o bs Hb ltac:(lia))).
Qed.

(** A 32-bit little-endian word of a buffer, and its bytes. *)
Definition load_le32 (p : bytes) (o : Z) : Z := le_val (ztake 4 (zdrop o p)).

Definition store_le32 (v : Z) : bytes := le_bytes 4 v.

Lemma load_le32_range p o : all_bytes p -> in_range 32 (load_le32 p o).
Proof.
  intros Hp. pose proof (le_val_range (ztake 4 (zdrop o p)) ltac:(auto)) as Hr. split; [apply Hr|].
  eapply Z.lt_le_trans; [apply Hr|]. change (2 ^ 32) with (256 ^ 4).
  apply Z.pow_le_mono_r; [lia|]. unfold zlen, ztake. rewrite length_take. lia.
Qed.

(** ** Comparison in constant time *)

(** [diff |= a[i] ^ b[i]] over two arrays. *)
Definition ct_diff (a b : bytes) : Z := foldl (fun diff p => diff .| (fst p .^ snd p)) 0 (zip a b).

Lemma ct_diff_eq a b : length a = length b -> (ct_diff a b =? 0) = bool_decide (a = b).
Proof.
  intros Hl. apply eq_bool_prop_intro. rewrite bool_decide_spec, Is_true_true, Z.eqb_eq.
  unfold ct_diff. assert (forall d, foldl (fun diff p => diff .| (fst p .^ snd p)) d (zip a b) = 0 <-> d = 0 /\ a = b) as H.
  { revert b Hl. induction a as [|x a IH]; intros [|y b] Hl d; simpl in Hl; try lia; [by split; [|intros []]|].
    cbn [zip zip_with foldl fst snd]. rewrite IH, Z.lor_eq_0_iff, Z.lxor_eq_0_iff by lia. naive_solver. }
  rewrite H. naive_solver.
Qed.

(** ** Buffers *)

(** Writes [bs] at offset [o] of a buffer. *)
Definition store (dst : bytes) (o : Z) (bs : bytes) : bytes :=
  ztake o dst ++ bs ++ zdrop (o + zlen bs) dst.

Lemma store_0 dst bs : store dst 0 bs = bs ++ zdrop (zlen bs) dst.
Proof. done. Qed.

Lemma store_at pre rest o bs :
  o = zlen pre -> store (pre ++ rest) o bs = pre ++ bs ++ zdrop (zlen bs) rest.
Proof.
  intros ->. unfold store. rewrite ztake_app by done. do 2 f_equal.
  rewrite <- zdrop_zdrop by apply zlen_nonneg. by rewrite zdrop_app.
Qed.

Lemma zlen_store dst o bs : 0 <= o -> o + zlen bs <= zlen dst -> zlen (store dst o bs) = zlen dst.
Proof.
  intros. pose proof (zlen_nonneg bs). unfold store. rewrite !zlen_app, zlen_ztake, zlen_zdrop by lia. lia.
Qed.

(** What a write appends to the part of the buffer in use. *)
Lemma ztake_store dst o bs :
  0 <= o <= zlen dst -> ztake (o + zlen bs) (store dst o bs) = ztake o dst ++ bs.
Proof.
  intros. unfold store. rewrite app_assoc. apply ztake_app. by rewrite zlen_app, zlen_ztake by lia.
Qed.

Lemma zlen_concat_map {A} (f : A -> bytes) k l :
  (forall x, zlen (f x) = k) -> zlen (concat (map f l)) = zlen l * k.
Proof. intros H. induction l; simpl; [done|]. rewrite zlen_app, zlen_cons, H, IHl. lia. Qed.

Lemma bytes_concat_map {A} (f : A -> bytes) l : (forall x, all_bytes (f x)) -> all_bytes (concat (map f l)).
Proof. intros H. induction l; simpl; [constructor|]. by apply Forall_app. Qed.

Lemma bytes_zip_xor a b : all_bytes a -> all_bytes b -> all_bytes (zip_with Z.lxor a b).
Proof.
  intros Ha. revert b. induction Ha as [|x a Hx Ha IH]; intros b Hb; [constructor|].
  destruct Hb; [constructor|]. constructor; [by apply lxor_range|by apply IH].
Qed.

Lemma foldl_shift_or_nonneg w bs acc :
  0 <= w -> all_bytes bs -> 0 <= acc ->
  0 <= foldl (fun acc b => wrap w (acc << 8) .| b) acc bs.
Proof.
  intros Hw Hbs. revert acc. induction Hbs as [|b bs Hb Hbs IH]; intros acc Ha; simpl; [done|].
  apply IH. rewrite Z.lor_nonneg. pose proof (wrap_range w (acc << 8) Hw). rlia.
Qed.

(** ** Text *)

(** The bytes of a string literal. *)
Definition chars (s : string) : bytes :=
  map (fun c => Z.of_N (Ascii.N_of_ascii c)) (String.list_ascii_of_string s).

Example chars_ex : chars "Az=" = [65; 122; 61].
Proof. reflexivity. Qed.

(** Induction for code that consumes its input in groups. *)
Lemma list_ind3 {A} (P : list A -> Prop) :
  P [] -> (forall a, P [a]) -> (forall a b, P [a; b]) ->
  (forall a b c l, P l -> P (a :: b :: c :: l)) -> forall l, P l.
Proof.
  intros H0 H1 H2 H3. fix IH 1. intros [|a [|b [|c l]]]; [done|apply H1|apply H2|].
  apply H3, IH.
Qed.

Lemma list_length_ind {A} (P : list A -> Prop) :
  (forall l, (forall k, (length k < length l)%nat -> P k) -> P l) -> forall l, P l.
Proof.
  intros H l. assert (forall n k, (length k < n)%nat -> P k) as Hn; [|eauto].
  induction n as [|n IH]; intros k Hk; [lia|]. apply H. intros. apply IH. lia.
Qed.

(** Splits [all_bytes] of an explicit list in the context, proves it of one in the goal. *)
Ltac split_bytes :=
  repeat match goal with H : Forall _ (_ :: _) |- _ =>
    apply Forall_cons in H; destruct H end.

Ltac solve_bytes := repeat (apply Forall_cons; split); try apply Forall_nil; try done; auto.
