(* ===== verification/Text.v ===== *)
(** * Strings: what the code uses of [std::string], [std::string_view] and [<charconv>]

    A string is the list of its bytes.  [substr], [find], splitting at a separator,
    [std::from_chars] and [std::to_string] on unsigned integers, with the round trip of
    the last two. *)

From S2P Require Import Prelude.

(** [substr(pos, n)]: clipped at the end of the string. *)
Definition substr (s : bytes) (pos n : Z) : bytes := ztake (Z.min n (zlen s - pos)) (zdrop pos s).

Fixpoint starts_with (s pat : bytes) {struct pat} : bool :=
  match pat, s with
  | [], _ => true
  | p :: pat, c :: s => (c =? p) && starts_with s pat
  | _ :: _, [] => false
  end.

(** The first occurrence of [pat] in [s], counted from [i]. *)
Fixpoint find_at (pat s : bytes) (i : Z) : option Z :=
  if starts_with s pat then Some i
  else match s with
       | [] => None
       | _ :: s => find_at pat s (i + 1)
       end.

(** [s.find(pat, pos)]; [None] is [npos]. *)
Definition find (s pat : bytes) (pos : Z) : option Z :=
  if zlen s <? pos then None else find_at pat (zdrop pos s) pos.

(** [std::from_chars] on an unsigned type with maximum [max], with the check that all
    was consumed. *)
Fixpoint digits (max : Z) (s : bytes) (acc : Z) : option Z :=
  match s with
  | [] => Some acc
  | c :: s =>
      if (0x30 <=? c) && (c <=? 0x39) then
        let acc := acc * 10 + (c - 0x30) in
        if max <? acc then None else digits max s acc
      else None
  end.

Definition from_chars (max : Z) (s : bytes) : option Z :=
  match s with
  | [] => None
  | _ => digits max s 0
  end.

(** [std::to_string] of an unsigned integer: the last digit first, in front of [acc]. *)
Fixpoint print_digits (fuel : nat) (z : Z) (acc : bytes) : bytes :=
  match fuel with
  | O => acc
  | S fuel =>
      let acc := (0x30 + z mod 10) :: acc in
      if z <? 10 then acc else print_digits fuel (z / 10) acc
  end.

(** Twenty digits are enough for 64 bits. *)
Definition to_string (z : Z) : bytes := print_digits 20 z [].

(** The fields between the occurrences of [sep]. *)
Fixpoint split_on (sep : Z) (s : bytes) : list bytes :=
  match s with
  | [] => [[]]
  | c :: s =>
      if c =? sep then [] :: split_on sep s
      else match split_on sep s with
           | f :: fs => (c :: f) :: fs
           | [] => [[c]]
           end
  end.

(** ** Facts *)

Definition is_digit (c : Z) : Prop := 0x30 <= c <= 0x39.

Lemma from_chars_nonneg max s n : from_chars max s = Some n -> 0 <= n.
Proof.
  assert (forall l acc, 0 <= acc -> digits max l acc = Some n -> 0 <= n) as H.
  { induction l as [|c l IH]; intros acc Ha; cbn; [by intros [= <-]|].
    destruct ((0x30 <=? c) && (c <=? 0x39)) eqn:E; [|done].
    apply andb_true_iff in E as [E _]. apply Z.leb_le in E.
    destruct (_ <? _); [done|]. apply IH. lia. }
  destruct s as [|c l]; [done|]. by apply H.
Qed.

Lemma digits_cons max c s acc : is_digit c -> acc * 10 + (c - 0x30) <= max ->
  digits max (c :: s) acc = digits max s (acc * 10 + (c - 0x30)).
Proof.
  intros [H1 H2] Hm. cbn [digits]. apply Z.leb_le in H1 as ->. apply Z.leb_le in H2 as ->.
  cbn [andb]. by apply Z.ltb_ge in Hm as ->.
Qed.

Lemma print_digits_app fuel z acc : print_digits fuel z acc = print_digits fuel z [] ++ acc.
Proof.
  revert z acc. induction fuel as [|fuel IH]; intros z acc; cbn [print_digits]; [done|].
  destruct (z <? 10); [done|]. rewrite (IH _ (_ :: acc)), (IH _ [_]), <- app_assoc. done.
Qed.

Lemma print_digits_are_digits fuel z : Forall is_digit (print_digits fuel z []).
Proof.
  revert z. induction fuel as [|fuel IH]; intros z; cbn [print_digits]; [constructor|].
  assert (is_digit (48 + z mod 10)) by (pose proof (Z.mod_pos_bound z 10); unfold is_digit; lia).
  destruct (z <? 10); [by apply Forall_singleton|].
  rewrite print_digits_app. apply Forall_app. split; [apply IH|by apply Forall_singleton].
Qed.

Lemma digits_print max fuel z s : 0 <= z <= max -> z < 10 ^ Z.of_nat fuel ->
  digits max (print_digits fuel z s) 0 = digits max s z.
Proof.
  revert z s. induction fuel as [|fuel IH]; intros z s Hz Hf.
  { assert (z = 0) as -> by (change (10 ^ Z.of_nat 0) with 1 in Hf; lia). done. }
  pose proof (Z.div_mod z 10 ltac:(done)). pose proof (Z.mod_pos_bound z 10 ltac:(done)).
  cbn [print_digits]. destruct (Z.ltb_spec z 10).
  - rewrite Z.mod_small by lia. rewrite digits_cons; [f_equal|unfold is_digit|]; lia.
  - rewrite Nat2Z.inj_succ, Z.pow_succ_r in Hf by lia.
    rewrite IH; [|lia|apply Z.div_lt_upper_bound; lia].
    rewrite digits_cons; [f_equal|unfold is_digit|]; lia.
Qed.

Lemma from_chars_to_string max z : 0 <= z <= max -> z < 2 ^ 64 -> from_chars max (to_string z) = Some z.
Proof.
  intros Hz Hw. assert (digits max (to_string z) 0 = Some z) as H.
  { unfold to_string. rewrite digits_print; [done|done|]. change (10 ^ Z.of_nat 20) with 100000000000000000000. lia. }
  unfold from_chars. destruct (to_string z) as [|c s] eqn:E; [|done].
  injection H as <-. discriminate E.
Qed.

Lemma split_on_none sep s : sep ∉ s -> split_on sep s = [s].
Proof.
  induction s as [|c s IH]; [done|]. intros [H1 H2]%not_elem_of_cons. cbn [split_on].
  destruct (Z.eqb_spec c sep); [congruence|]. by rewrite IH.
Qed.

Lemma split_on_app sep f s : sep ∉ f -> split_on sep (f ++ sep :: s) = f :: split_on sep s.
Proof.
  induction f as [|c f IH]; cbn [app split_on]; intros Hf; [by rewrite Z.eqb_refl|].
  apply not_elem_of_cons in Hf as [H1 H2]. destruct (Z.eqb_spec c sep); [congruence|]. by rewrite IH.
Qed.

Lemma not_elem_of_Forall {P : Z -> Prop} x l : Forall P l -> ~ P x -> x ∉ l.
Proof. intros H Hx Hin. rewrite Forall_forall in H. eauto. Qed.

(** ** Occurrences *)

Lemma starts_with_app s pat : starts_with s pat = true <-> exists t, s = pat ++ t.
Proof.
  revert s. induction pat as [|c pat IH]; intros s; cbn [starts_with app].
  { split; [by exists s|done]. }
  destruct s as [|x s]; [split; [done|by intros [t [=]]]|].
  rewrite andb_true_iff, Z.eqb_eq, IH. split.
  - by intros [-> [t ->]]; exists t.
  - intros [t [= -> ->]]. by split; [|exists t].
Qed.

(** [find] returns the first occurrence. *)
Lemma find_at_spec pat s i :
  match find_at pat s i with
  | Some k => exists a b, s = a ++ pat ++ b /\ k = i + zlen a /\ forall a' b', s = a' ++ pat ++ b' -> zlen a <= zlen a'
  | None => forall a b, s <> a ++ pat ++ b
  end.
Proof.
  revert i. induction s as [|c s IH]; intros i; cbn [find_at];
    destruct (starts_with _ pat) eqn:E.
  1,3: apply starts_with_app in E as [t ->]; exists [], t; rewrite zlen_nil; split_and!; [done|lia|intros; apply zlen_nonneg].
  - intros a b Hs. assert (starts_with [] pat = true); [|congruence]. apply starts_with_app.
    destruct a as [|x a]; [by exists b|]. discriminate Hs.
  - assert (forall b, c :: s <> pat ++ b) as Hno.
    { intros b Hs. assert (starts_with (c :: s) pat = true); [|congruence]. apply starts_with_app. eauto. }
    specialize (IH (i + 1)). destruct (find_at pat s (i + 1)) as [k|].
    + destruct IH as (a & b & -> & -> & Hmin). exists (c :: a), b. rewrite zlen_cons. split_and!; [done|lia|].
      intros [|x a'] b' Hs; [by apply Hno in Hs|]. injection Hs as -> Hs. rewrite zlen_cons. specialize (Hmin a' b' Hs). lia.
    + intros [|x a] b Hs; [by apply Hno in Hs|]. injection Hs as -> Hs. by apply IH in Hs.
Qed.

Lemma find_0 s pat : find s pat 0 = find_at pat s 0.
Proof. unfold find. by rewrite (proj2 (Z.ltb_ge _ _)) by apply zlen_nonneg. Qed.

Lemma find_first s pat a b : s = a ++ pat ++ b ->
  (forall a' b', s = a' ++ pat ++ b' -> zlen a <= zlen a') -> find s pat 0 = Some (zlen a).
Proof.
  intros Hs Hmin. rewrite find_0. pose proof (find_at_spec pat s 0) as H. destruct (find_at pat s 0) as [k|].
  - destruct H as (a' & b' & Hs' & -> & Hmin'). f_equal. specialize (Hmin _ _ Hs'). specialize (Hmin' _ _ Hs). lia.
  - by apply H in Hs.
Qed.

Lemma find_none s pat : find s pat 0 = None <-> forall a b, s <> a ++ pat ++ b.
Proof.
  rewrite find_0. pose proof (find_at_spec pat s 0) as H. destruct (find_at pat s 0) as [k|]; [|done].
  destruct H as (a & b & -> & _). split; [done|]. intros Hn. by destruct (Hn a b).
Qed.

Lemma find_min s pat k a b : find s pat 0 = Some k -> s = a ++ pat ++ b -> k <= zlen a.
Proof.
  rewrite find_0. pose proof (find_at_spec pat s 0) as H. intros E. rewrite E in H. destruct H as (a' & b' & _ & -> & Hmin).
  intros Es. apply Hmin in Es. lia.
Qed.

(** More input does not change the first occurrence. *)
Lemma find_app s t pat k : find s pat 0 = Some k -> find (s ++ t) pat 0 = Some k.
Proof.
  rewrite find_0. pose proof (find_at_spec pat s 0) as H. intros E. rewrite E in H.
  destruct H as (a & b & Hs & Hk & Hmin). rewrite (find_first (s ++ t) pat a (b ++ t)); [f_equal; lia|..].
  - rewrite Hs. by rewrite <- !app_assoc.
  - intros a' b' E'. destruct (decide (zlen a <= zlen a')) as [|Hlt]; [done|]. exfalso.
    assert (exists b'', b' = b'' ++ t) as [b'' ->].
    { exists (zdrop (zlen (a' ++ pat)) s). rewrite app_assoc in E'. rewrite <- zdrop_app_le.
      - by rewrite E', zdrop_app.
      - rewrite Hs. rewrite !zlen_app. pose proof (zlen_nonneg b). lia. }
    rewrite !app_assoc in E'. apply app_inv_tail in E'. rewrite <- app_assoc in E'. specialize (Hmin _ _ E'). lia.
Qed.

(** Searching one character. *)
Lemma find_char_spec c s i :
  match find_at [c] s i with
  | Some k => exists a b, s = a ++ c :: b /\ c ∉ a /\ k = i + zlen a
  | None => c ∉ s
  end.
Proof.
  revert i. induction s as [|x s IH]; intros i; [apply not_elem_of_nil|]. cbn [find_at starts_with].
  rewrite andb_true_r. destruct (Z.eqb_spec x c) as [->|Hx].
  - exists [], s. split_and!; [done|apply not_elem_of_nil|rewrite zlen_nil; lia].
  - specialize (IH (i + 1)). destruct (find_at [c] s (i + 1)) as [k|].
    + destruct IH as (a & b & -> & Ha & ->). exists (x :: a), b. rewrite not_elem_of_cons, zlen_cons. split_and!; [done|done|done|lia].
    + rewrite not_elem_of_cons. done.
Qed.

Lemma find_char_app c a b i : c ∉ a -> find_at [c] (a ++ c :: b) i = Some (i + zlen a).
Proof.
  intros Ha. revert i. induction a as [|x a IH]; intros i; cbn [app find_at starts_with]; rewrite andb_true_r.
  - rewrite Z.eqb_refl, zlen_nil. f_equal. lia.
  - apply not_elem_of_cons in Ha as [Hx Ha]. rewrite (proj2 (Z.eqb_neq x c)) by done. rewrite IH, zlen_cons by done. f_equal. lia.
Qed.

Lemma find_char_none c s i : c ∉ s -> find_at [c] s i = None.
Proof.
  intros Hs. pose proof (find_char_spec c s i) as H. destruct (find_at [c] s i) as [k|]; [|done].
  destruct H as (a & b & -> & _). destruct Hs. apply elem_of_app. right. by left.
Qed.

(** A search that starts after a prefix. *)
Lemma find_from a b pat pos : pos = zlen a -> find (a ++ b) pat pos = find_at pat b pos.
Proof. intros ->. unfold find. rewrite zlen_app, (proj2 (Z.ltb_ge _ _)) by zlia. by rewrite zdrop_app. Qed.
