(* ===== verification/Bits.v ===== *)
(** * Bits of machine words

    Comparison masks of vector registers, [ctz], [popcount] and the loop
    [mask &= mask - 1] that visits the bits of a word; shared by the scanners of
    [HttpParser] and [Jwt] and by the grids. *)

From S2P Require Import Prelude.

(** [__builtin_ctz] or [std::countr_zero] of a non-zero [uint32_t] or [uint64_t]. *)
Fixpoint ctz (fuel : nat) (mask : Z) : Z :=
  match fuel with
  | O => 0
  | S fuel => if Z.odd mask then 0 else 1 + ctz fuel (mask >> 1)
  end.

(** The bits of a mask, lowest first. *)
Fixpoint bits_val (l : list bool) : Z :=
  match l with
  | [] => 0
  | b :: l => (if b then 1 else 0) + 2 * bits_val l
  end.

Lemma bits_val_nonneg l : 0 <= bits_val l.
Proof. induction l as [|[] l IH]; cbn -[Z.mul]; lia. Qed.

Lemma land_even_odd a b : Z.land (2 * a) (2 * b + 1) = 2 * Z.land a b.
Proof.
  apply Z.bits_inj'. intros n Hn. rewrite Z.land_spec. destruct (Z.eq_dec n 0) as [->|].
  - by rewrite !Z.testbit_even_0.
  - replace n with (Z.succ (n - 1)) by lia.
    rewrite !Z.testbit_even_succ, Z.testbit_odd_succ, Z.land_spec by lia. done.
Qed.

Lemma land_odd_even a : Z.land (2 * a + 1) (2 * a) = 2 * a.
Proof.
  apply Z.bits_inj'. intros n Hn. rewrite Z.land_spec. destruct (Z.eq_dec n 0) as [->|].
  - by rewrite !Z.testbit_even_0, andb_false_r.
  - replace n with (Z.succ (n - 1)) by lia.
    rewrite !Z.testbit_even_succ, Z.testbit_odd_succ by lia. apply andb_diag.
Qed.

(** [mask &= mask - 1] clears the lowest bit set. *)
Lemma clear_lowest (k : nat) v :
  let mask := 2 ^ Z.of_nat k * (1 + 2 * v) in
  mask .& (mask - 1) = 2 ^ Z.of_nat (S k) * v.
Proof.
  cbn zeta. rewrite Nat2Z.inj_succ, Z.pow_succ_r by lia. induction k as [|k IH].
  - change (2 ^ Z.of_nat 0) with 1. rewrite Z.mul_1_l, Z.mul_1_r.
    replace (1 + 2 * v - 1) with (2 * v) by lia. rewrite Z.add_comm. apply land_odd_even.
  - rewrite Nat2Z.inj_succ, Z.pow_succ_r by lia. set (m := 2 ^ Z.of_nat k) in *.
    replace (2 * m * (1 + 2 * v)) with (2 * (m * (1 + 2 * v))) by lia.
    replace (2 * (m * (1 + 2 * v)) - 1) with (2 * (m * (1 + 2 * v) - 1) + 1) by lia.
    rewrite land_even_odd, IH. lia.
Qed.

Lemma ctz_spec fuel (k : nat) v :
  (k < fuel)%nat -> ctz fuel (2 ^ Z.of_nat k * (1 + 2 * v)) = Z.of_nat k.
Proof.
  revert fuel. induction k as [|k IH]; intros [|fuel] Hk; try lia; cbn [ctz].
  - change (2 ^ Z.of_nat 0) with 1. rewrite Z.mul_1_l.
    by replace (Z.odd (1 + 2 * v)) with true by (by rewrite Z.odd_add_mul_2).
  - rewrite Nat2Z.inj_succ, Z.pow_succ_r by lia. set (m := 2 ^ Z.of_nat k) in *.
    replace (2 * m * (1 + 2 * v)) with (2 * (m * (1 + 2 * v))) by lia.
    rewrite Z.odd_mul. cbn [Z.odd andb]. rewrite Z.shiftr_div_pow2 by lia. change (2 ^ 1) with 2.
    rewrite Z.mul_comm, Z.div_mul, IH by lia. lia.
Qed.

Lemma mask_split (k : nat) b l :
  2 ^ Z.of_nat k * bits_val (b :: l) =
  if b then 2 ^ Z.of_nat k * (1 + 2 * bits_val l) else 2 ^ Z.of_nat (S k) * bits_val l.
Proof.
  rewrite Nat2Z.inj_succ, Z.pow_succ_r by lia. destruct b; cbn -[Z.mul]; lia.
Qed.

(** [ctz] is the lowest bit set. *)
Lemma ctz_lowest fuel m : 0 < m < 2 ^ Z.of_nat fuel ->
  0 <= ctz fuel m < Z.of_nat fuel /\ Z.testbit m (ctz fuel m) = true /\ forall k, k < ctz fuel m -> Z.testbit m k = false.
Proof.
  revert m. induction fuel as [|fuel IH]; intros m Hm; [cbn in Hm; lia|]. cbn [ctz]. rewrite Nat2Z.inj_succ in *. rewrite Z.pow_succ_r in Hm by lia.
  destruct (Z.odd m) eqn:Ho.
  - split; [lia|]. split; [by rewrite Z.bit0_odd|]. intros k Hk. by apply Z.testbit_neg_r.
  - assert (Z.even m = true) as He by (by rewrite <- Z.negb_odd, Ho). apply Z.even_spec in He as [v ->].
    assert ((2 * v) >> 1 = v) as -> by (rewrite Z.shiftr_div_pow2 by lia; change (2 ^ 1) with 2; rewrite Z.mul_comm, Z.div_mul; lia).
    destruct (IH v) as (Hr & Hb & Hlow); [lia|]. split; [lia|]. split.
    + replace (1 + ctz fuel v) with (Z.succ (ctz fuel v)) by lia. by rewrite Z.testbit_even_succ by lia.
    + intros k Hk. destruct (decide (k <= 0)) as [Hk0|Hk0].
      * destruct (decide (k = 0)) as [->|]; [apply Z.testbit_even_0|]. apply Z.testbit_neg_r. lia.
      * replace k with (Z.succ (k - 1)) by lia. rewrite Z.testbit_even_succ by lia. apply Hlow. lia.
Qed.
