(* ===== verification/WsFrame.v ===== *)
(** * The RFC 6455 frame codec of [server/websocket_handler.hpp]

    [WsFrame], [xor_mask] with its AVX2, SSE2, NEON and scalar bodies,
    [encode_frame], [encode_header] and [decode_frame].  Buffers are byte lists;
    the [consumed] out-parameter of [decode_frame] is the second component of
    its result. *)

From S2P Require Import Prelude.

(** ** Data *)

(** [WsFrame::Opcode]; an [enum class] over [uint8_t] can hold any value of the
    underlying type, which [unnamed] stands for. *)
Inductive Opcode :=
  | Continuation
  | Text
  | Binary
  | Close
  | Ping
  | Pong
  | unnamed (v : Z).

#[global] Instance Opcode_eq_dec : EqDecision Opcode.
Proof. solve_decision. Defined.

Definition to_underlying (op : Opcode) : Z :=
  match op with
  | Continuation => 0x0
  | Text => 0x1
  | Binary => 0x2
  | Close => 0x8
  | Ping => 0x9
  | Pong => 0xA
  | unnamed v => v
  end.

(** [static_cast<WsFrame::Opcode>]. *)
Definition opcode_cast (v : Z) : Opcode :=
  if v =? 0x0 then Continuation else
  if v =? 0x1 then Text else
  if v =? 0x2 then Binary else
  if v =? 0x8 then Close else
  if v =? 0x9 then Ping else
  if v =? 0xA then Pong else unnamed v.

Record WsFrame := mkWsFrame {
  opcode : Opcode;
  fin : bool;
  rsv1 : bool;
  rsv2 : bool;
  rsv3 : bool;
  masked : bool;
  payload : bytes;
}.

(** ** Masking *)

(** [for (; i < len; ++i) dst[i] = src[i] ^ key[i & 3]], from index [i]. *)
Fixpoint xor_tail (key : bytes) (i : Z) (src : bytes) : bytes :=
  match src with
  | [] => []
  | b :: src => (b .^ at_ key (i .& 3)) :: xor_tail key (i + 1) src
  end.

(** The portable body: [dst[i] = src[i] ^ key[i % 4]]. *)
Fixpoint xor_scalar (key : bytes) (i : Z) (src : bytes) : bytes :=
  match src with
  | [] => []
  | b :: src => (b .^ at_ key (i mod 4)) :: xor_scalar key (i + 1) src
  end.

Definition xor_mask (src key : bytes) : bytes := xor_scalar key 0 src.

(** A vector register is the list of its byte lanes, low lane first. *)
Definition vxor (a b : bytes) : bytes := zip_with Z.lxor a b.

(** [_mm_set1_epi32] / [_mm256_set1_epi32]: [lanes] copies of a 32-bit value,
    each stored little-endian. *)
Definition set1_epi32 (lanes : nat) (v : Z) : bytes :=
  concat (replicate lanes (rev (be_bytes 4 v))).

Definition key32 (key : bytes) : Z :=
  at_ key 0 .| (at_ key 1 << 8) .| (at_ key 2 << 16) .| (at_ key 3 << 24).

(** [for (; i + n <= len; i += n)]: whole vectors of [n] bytes are loaded,
    xored and stored.  The result is the bytes written, the index reached and the
    source left; [fuel] bounds the iterations and [length src] is enough. *)
Fixpoint xor_vectors (fuel n : nat) (vkey : bytes) (i : Z) (src : bytes) : bytes * Z * bytes :=
  match fuel with
  | O => ([], i, src)
  | S fuel =>
      if (n <=? length src)%nat then
        let '(out, j, rest) := xor_vectors fuel n vkey (i + Z.of_nat n) (drop n src) in
        (vxor (take n src) vkey ++ out, j, rest)
      else ([], i, src)
  end.

Definition xor_mask_avx2 (src key : bytes) : bytes :=
  let vkey256 := set1_epi32 8 (key32 key) in
  let '(o1, i1, r1) := xor_vectors (length src) 32 vkey256 0 src in
  let vkey128 := take 16 vkey256 in
  let '(o2, i2, r2) := xor_vectors (length r1) 16 vkey128 i1 r1 in
  o1 ++ o2 ++ xor_tail key i2 r2.

Definition xor_mask_sse2 (src key : bytes) : bytes :=
  let vkey := set1_epi32 4 (key32 key) in
  let '(o1, i1, r1) := xor_vectors (length src) 16 vkey 0 src in
  o1 ++ xor_tail key i1 r1.

Definition xor_mask_neon (src key : bytes) : bytes :=
  let vkey := map (fun i => at_ key (i .& 3)) (seqZ 0 16) in
  let '(o1, i1, r1) := xor_vectors (length src) 16 vkey 0 src in
  o1 ++ xor_tail key i1 r1.

(** ** Encoding *)

Definition masking_key : bytes := [0x37; 0xfa; 0x21; 0x3d].

Definition encode_frame (frame : WsFrame) (mask : bool) : bytes :=
  let b0 := (if fin frame then 0x80 else 0x00) .| (to_underlying (opcode frame) .& 0x0F) in
  let payload_len := zlen (payload frame) in
  let mask_bit := if mask then 0x80 else 0x00 in
  let out := [b0] in
  let out :=
    if payload_len <? 126 then out ++ [mask_bit .| u8 payload_len]
    else if payload_len <=? 0xFFFF then
      out ++ [mask_bit .| 126; u8 (payload_len >> 8); u8 (payload_len .& 0xFF)]
    else
      out ++ [mask_bit .| 127]
          ++ map (fun i => u8 ((payload_len >> (i * 8)) .& 0xFF)) [7; 6; 5; 4; 3; 2; 1; 0] in
  if mask then out ++ masking_key ++ xor_mask (payload frame) masking_key
  else out ++ payload frame.

Abbreviation kMaxHeaderBytes := (14)%Z (only parsing).

(** The header bytes written to [out]; the returned count is their number. *)
Definition encode_header (op : Opcode) (payload_len : Z) (fin mask : bool) (key : bytes) : bytes :=
  let out := [u8 ((if fin then 0x80 else 0x00) .| (to_underlying op .& 0x0F))] in
  let mask_bit := if mask then 0x80 else 0x00 in
  let out :=
    if payload_len <? 126 then out ++ [u8 (mask_bit .| payload_len)]
    else if payload_len <=? 0xFFFF then
      out ++ [u8 (mask_bit .| 126); u8 (payload_len >> 8); u8 (payload_len .& 0xFF)]
    else
      out ++ [u8 (mask_bit .| 127)]
          ++ map (fun i => u8 ((payload_len >> (i * 8)) .& 0xFF)) [7; 6; 5; 4; 3; 2; 1; 0] in
  if mask then out ++ [at_ key 0; at_ key 1; at_ key 2; at_ key 3] else out.

(** ** Decoding *)

Abbreviation kMaxFramePayload := (16 * 1024 * 1024)%Z (only parsing).

(** The extended length: its value and the position after it, or [None] when
    the bytes are not there yet. *)
Definition decode_length (data : bytes) (pos len7 : Z) : option (Z * Z) :=
  if len7 =? 126 then
    if zlen data <? pos + 2 then None
    else Some ((at_ data pos << 8) .| at_ data (pos + 1), pos + 2)
  else if len7 =? 127 then
    if zlen data <? pos + 8 then None
    else Some (foldl (fun acc b => u64 (acc << 8) .| b) 0 (ztake 8 (zdrop pos data)), pos + 8)
  else Some (len7, pos).

Definition decode_frame (data : bytes) : result WsFrame * Z :=
  if zlen data <? 2 then (Err resource_unavailable_try_again, 0) else
  let b0 := at_ data 0 in
  let b1 := at_ data 1 in
  let masked := negb ((b1 .& 0x80) =? 0) in
  match decode_length data 2 (b1 .& 0x7F) with
  | None => (Err resource_unavailable_try_again, 0)
  | Some (payload_len, pos) =>
      if kMaxFramePayload <? payload_len then (Err message_size, 0) else
      if masked && (zlen data <? pos + 4) then (Err resource_unavailable_try_again, 0) else
      let masking_key := if masked then ztake 4 (zdrop pos data) else [0; 0; 0; 0] in
      let pos := if masked then pos + 4 else pos in
      if zlen data <? pos + payload_len then (Err resource_unavailable_try_again, 0) else
      let raw := ztake payload_len (zdrop pos data) in
      (Ok {| opcode := opcode_cast (b0 .& 0x0F);
             fin := negb ((b0 .& 0x80) =? 0);
             rsv1 := negb ((b0 .& 0x40) =? 0);
             rsv2 := negb ((b0 .& 0x20) =? 0);
             rsv3 := negb ((b0 .& 0x10) =? 0);
             masked := masked;
             payload := if masked then xor_mask raw masking_key else raw |},
       pos + payload_len)
  end.

(** RFC 6455, section 5.7: a masked text frame carrying "Hello". *)
Example decode_rfc :
  decode_frame [0x81; 0x85; 0x37; 0xfa; 0x21; 0x3d; 0x7f; 0x9f; 0x4d; 0x51; 0x58]
  = (Ok (mkWsFrame Text true false false false true [0x48; 0x65; 0x6c; 0x6c; 0x6f]), 11).
Proof. reflexivity. Qed.

(** ** Masking: the vector bodies compute the portable one *)

Lemma xor_tail_scalar key i src : xor_tail key i src = xor_scalar key i src.
Proof.
  revert i. induction src as [|b src IH]; intros i; simpl; [done|].
  change 3 with (2 ^ 2 - 1). by rewrite land_mask, IH by lia.
Qed.

Lemma zlen_xor_scalar key i src : zlen (xor_scalar key i src) = zlen src.
Proof. revert i. induction src; intros i; simpl; autorewrite with zlist; congruence. Qed.
#[local] Hint Rewrite zlen_xor_scalar : zlist.

Lemma xor_scalar_involutive key i src : xor_scalar key i (xor_scalar key i src) = src.
Proof.
  revert i. induction src as [|b src IH]; intros i; simpl; [done|].
  by rewrite Z.lxor_assoc, Z.lxor_nilpotent, Z.lxor_0_r, IH.
Qed.

Lemma xor_scalar_range key i src :
  all_bytes key -> all_bytes src -> all_bytes (xor_scalar key i src).
Proof.
  intros Hk Hs. revert i. induction Hs; intros i; simpl; constructor; [|done].
  apply lxor_range; [lia|done|]. by apply at_range.
Qed.

(** One period of the key. *)
Lemma xor_scalar_4 k0 k1 k2 k3 i b0 b1 b2 b3 src :
  0 <= i -> i mod 4 = 0 ->
  xor_scalar [k0; k1; k2; k3] i (b0 :: b1 :: b2 :: b3 :: src) =
  [b0 .^ k0; b1 .^ k1; b2 .^ k2; b3 .^ k3] ++ xor_scalar [k0; k1; k2; k3] (i + 4) src.
Proof.
  intros Hi Hm. cbn [xor_scalar app].
  assert ((i + 1) mod 4 = 1 /\ (i + 1 + 1) mod 4 = 2 /\ (i + 1 + 1 + 1) mod 4 = 3)
    as (-> & -> & ->) by (Z.div_mod_to_equations; lia).
  rewrite Hm. replace (i + 1 + 1 + 1 + 1) with (i + 4) by lia. done.
Qed.

(** [m] periods are one vector operation. *)
Lemma vxor_periods m k0 k1 k2 k3 i src :
  let key := [k0; k1; k2; k3] in
  0 <= i -> i mod 4 = 0 -> (4 * m <= length src)%nat ->
  vxor (take (4 * m) src) (concat (replicate m key))
    ++ xor_scalar key (i + 4 * Z.of_nat m) (drop (4 * m) src) = xor_scalar key i src.
Proof.
  intros key. revert i src. induction m as [|m IH]; intros i src Hi Hm Hl.
  { simpl. by rewrite Z.add_0_r. }
  replace (4 * S m)%nat with (S (S (S (S (4 * m))))) in * by lia.
  destruct src as [|b0 [|b1 [|b2 [|b3 src]]]]; simpl in Hl; try lia.
  rewrite (xor_scalar_4 k0 k1 k2 k3 i b0 b1 b2 b3) by done.
  cbn [take drop replicate concat key app]. unfold vxor. cbn [zip_with app].
  do 4 f_equal. fold key. rewrite <- (IH (i + 4) src); [|lia| |lia].
  - unfold vxor. do 2 f_equal. lia.
  - rewrite <- Z.add_mod_idemp_l, Hm by done. done.
Qed.

Lemma xor_vectors_spec m k0 k1 k2 k3 fuel i src out j rest :
  let key := [k0; k1; k2; k3] in
  (0 < m)%nat -> (length src <= fuel)%nat -> 0 <= i -> i mod 4 = 0 ->
  xor_vectors fuel (4 * m) (concat (replicate m key)) i src = (out, j, rest) ->
  out ++ xor_scalar key j rest = xor_scalar key i src /\ 0 <= j /\ j mod 4 = 0.
Proof.
  intros key Hm. revert i src out j rest.
  induction fuel as [|fuel IH]; intros i src out j rest Hf Hi Hi4 Hx; simpl in Hx.
  { by simplify_eq. }
  destruct (Nat.leb_spec (m + (m + (m + (m + 0)))) (length src)) as [Hle|]; [|by simplify_eq].
  change (m + (m + (m + (m + 0))))%nat with (4 * m)%nat in *.
  destruct (xor_vectors fuel (4 * m) _ _ _) as [[out' j'] rest'] eqn:Hv. simplify_eq.
  apply IH in Hv as (Hv & ? & ?); [|rewrite length_drop; lia|lia|].
  - split; [|done]. rewrite <- app_assoc, Hv, Nat2Z.inj_mul. by apply vxor_periods.
  - rewrite Nat2Z.inj_mul. change (Z.of_nat 4) with 4.
    by rewrite Z.mul_comm, Z.mod_add by done.
Qed.

Lemma key32_bytes k0 k1 k2 k3 :
  all_bytes [k0; k1; k2; k3] -> rev (be_bytes 4 (key32 [k0; k1; k2; k3])) = [k0; k1; k2; k3].
Proof.
  intros Hk. repeat match goal with H : Forall _ (_ :: _) |- _ => inversion_clear H end.
  assert (key32 [k0; k1; k2; k3] = be_val [k3; k2; k1; k0]) as ->.
  { unfold key32. change (at_ _ 0) with k0. change (at_ _ 1) with k1.
    change (at_ _ 2) with k2. change (at_ _ 3) with k3.
    rewrite (Z.lor_comm k0), lor_shiftl_add by (done || lia).
    rewrite (Z.lor_comm _ (k2 << 16)), lor_shiftl_add by rlia.
    rewrite (Z.lor_comm _ (k3 << 24)), lor_shiftl_add by rlia.
    unfold be_val. simpl foldl. lia. }
  change 4%nat with (length [k3; k2; k1; k0]).
  rewrite be_bytes_be_val; [done|]. repeat (constructor; [done|]). constructor.
Qed.

(** The AVX2, SSE2 and NEON bodies of [xor_mask] write exactly the bytes of
    the portable body, for every source and every 4-byte key. *)
Theorem xor_mask_simd_equiv key src :
  length key = 4%nat -> all_bytes key ->
  xor_mask_avx2 src key = xor_mask src key /\
  xor_mask_sse2 src key = xor_mask src key /\
  xor_mask_neon src key = xor_mask src key.
Proof.
  intros Hl Hk. destruct key as [|k0 [|k1 [|k2 [|k3 [|]]]]]; try done.
  unfold xor_mask_avx2, xor_mask_sse2, xor_mask_neon, xor_mask, set1_epi32.
  rewrite (key32_bytes k0 k1 k2 k3) by done.
  change (map _ (seqZ 0 16)) with (concat (replicate 4 [k0; k1; k2; k3])).
  change (take 16 _) with (concat (replicate 4 [k0; k1; k2; k3])).
  destruct (xor_vectors _ 16 _ 0 src) as [[o i] r] eqn:E16.
  pose proof (xor_vectors_spec 4 k0 k1 k2 k3 _ 0 _ _ _ _ ltac:(lia) ltac:(done) ltac:(done)
    eq_refl E16) as (Hs & _ & _).
  destruct (xor_vectors _ 32 _ 0 src) as [[o1 i1] r1] eqn:E32.
  pose proof (xor_vectors_spec 8 k0 k1 k2 k3 _ 0 _ _ _ _ ltac:(lia) ltac:(done) ltac:(done)
    eq_refl E32) as (Hs1 & Hi1 & Hm1).
  destruct (xor_vectors _ 16 _ i1 r1) as [[o2 i2] r2] eqn:E2.
  pose proof (xor_vectors_spec 4 k0 k1 k2 k3 _ i1 _ _ _ _ ltac:(lia) ltac:(done) Hi1 Hm1 E2)
    as (Hs2 & _ & _).
  rewrite !xor_tail_scalar. by rewrite Hs2, Hs1, Hs.
Qed.

(** ** Decoding is stable under more input *)

Lemma decode_length_app data k pos l n p :
  0 <= pos -> decode_length data pos l = Some (n, p) ->
  decode_length (data ++ k) pos l = Some (n, p) /\ pos <= p /\ (p <= zlen data \/ p = pos).
Proof.
  intros Hpos. unfold decode_length. rewrite zlen_app. pose proof (zlen_nonneg k).
  destruct (l =? 126); [|destruct (l =? 127)].
  - destruct (Z.ltb_spec (zlen data) (pos + 2)); intros; simplify_eq.
    destruct (Z.ltb_spec (zlen data + zlen k) (pos + 2)); [lia|].
    rewrite !at_app_l by lia. auto with lia.
  - destruct (Z.ltb_spec (zlen data) (pos + 8)); intros; simplify_eq.
    destruct (Z.ltb_spec (zlen data + zlen k) (pos + 8)); [lia|].
    rewrite zdrop_app_le, ztake_app_le by (rewrite ?zlen_zdrop; lia). auto with lia.
  - intros; simplify_eq. auto with lia.
Qed.

Lemma decode_length_nonneg data pos b n p :
  all_bytes data -> decode_length data pos (b .& 0x7F) = Some (n, p) -> 0 <= n.
Proof.
  intros Hd. unfold decode_length. repeat case_match; intros; simplify_eq.
  - rewrite Z.lor_nonneg, Z.shiftl_nonneg.
    pose proof (at_range 8 data pos ltac:(lia) Hd).
    pose proof (at_range 8 data (pos + 1) ltac:(lia) Hd). rlia.
  - apply foldl_shift_or_nonneg; auto with lia.
  - rewrite Z.land_nonneg. lia.
Qed.

Lemma decode_frame_cases data :
  (exists f n, decode_frame data = (Ok f, n)) \/ decode_frame data = (Err message_size, 0) \/
  decode_frame data = (Err resource_unavailable_try_again, 0).
Proof. unfold decode_frame. repeat case_match; eauto. Qed.

(** A decoded frame does not change when more bytes arrive behind it. *)
Lemma decode_frame_app data k f n :
  all_bytes data -> decode_frame data = (Ok f, n) ->
  decode_frame (data ++ k) = (Ok f, n) /\ 2 <= n <= zlen data.
Proof.
  intros Hd. unfold decode_frame. rewrite zlen_app. pose proof (zlen_nonneg k).
  destruct (Z.ltb_spec (zlen data) 2); [done|].
  destruct (Z.ltb_spec (zlen data + zlen k) 2); [lia|].
  rewrite !at_app_l by lia. set (b0 := at_ data 0). set (b1 := at_ data 1).
  destruct (decode_length data 2 (b1 .& 127)) as [[len p]|] eqn:Hl; [|done].
  pose proof (decode_length_nonneg _ _ _ _ _ Hd Hl).
  apply (decode_length_app _ k) in Hl as (-> & ? & Hp); [|lia].
  destruct (_ <? len); [done|].
  destruct (negb (_ =? 0)) eqn:Hmask; cbn [andb].
  - destruct (Z.ltb_spec (zlen data) (p + 4)); [done|].
    destruct (Z.ltb_spec (zlen data + zlen k) (p + 4)); [lia|].
    destruct (Z.ltb_spec (zlen data) (p + 4 + len)); [done|].
    destruct (Z.ltb_spec (zlen data + zlen k) (p + 4 + len)); [lia|].
    rewrite !zdrop_app_le, !ztake_app_le by (rewrite ?zlen_zdrop; lia).
    intros; simplify_eq. split; [done|lia].
  - destruct (Z.ltb_spec (zlen data) (p + len)); [done|].
    destruct (Z.ltb_spec (zlen data + zlen k) (p + len)); [lia|].
    rewrite !zdrop_app_le, !ztake_app_le by (rewrite ?zlen_zdrop; lia).
    intros; simplify_eq. split; [done|lia].
Qed.

Lemma decode_frame_app_size data k :
  decode_frame data = (Err message_size, 0) ->
  decode_frame (data ++ k) = (Err message_size, 0).
Proof.
  unfold decode_frame. rewrite zlen_app. pose proof (zlen_nonneg k).
  destruct (Z.ltb_spec (zlen data) 2); [done|].
  destruct (Z.ltb_spec (zlen data + zlen k) 2); [lia|].
  rewrite !at_app_l by lia.
  destruct (decode_length data 2 _) as [[len p]|] eqn:Hl; [|done].
  apply (decode_length_app _ k) in Hl as (-> & _); [|lia].
  destruct (_ <? len); [done|]. repeat case_match; done.
Qed.

(** ** Encoding then decoding *)

(** A frame the encoder can represent: a 4-bit opcode, byte payload, no reserved
    bits (the encoder never sets them). *)
Record encodable (f : WsFrame) : Prop := {
  enc_opcode : 0 <= to_underlying (opcode f) < 16;
  enc_named : opcode_cast (to_underlying (opcode f)) = opcode f;
  enc_payload : all_bytes (payload f);
  enc_rsv : rsv1 f = false /\ rsv2 f = false /\ rsv3 f = false;
  enc_size : zlen (payload f) <= kMaxFramePayload;
}.

(** The length byte and its extension, as [encode_frame] lays them out. *)
Definition length_field (mask : bool) (n : Z) : bytes :=
  let mask_bit := if mask then 0x80 else 0x00 in
  if n <? 126 then [mask_bit .| n]
  else if n <=? 0xFFFF then (mask_bit .| 126) :: be_bytes 2 n
  else (mask_bit .| 127) :: be_bytes 8 n.

Lemma u8_land_255 z : u8 (z .& 255) = z .& 255.
Proof. rewrite land_255. apply wrap_small, wrap_range. lia. Qed.

Lemma encode_frame_eq f mask :
  encode_frame f mask =
  ((if fin f then 0x80 else 0x00) .| (to_underlying (opcode f) .& 0x0F))
    :: length_field mask (zlen (payload f))
    ++ (if mask then masking_key ++ xor_mask (payload f) masking_key else payload f).
Proof.
  unfold encode_frame, length_field. pose proof (zlen_nonneg (payload f)).
  destruct (Z.ltb_spec (zlen (payload f)) 126); [|destruct (Z.leb_spec (zlen (payload f)) 65535)].
  - rewrite wrap_small by rlia. by destruct mask.
  - cbn [be_bytes]. change (8 * Z.of_nat 1) with 8. change (8 * Z.of_nat 0) with 0.
    rewrite Z.shiftr_0_r, u8_land_255, !land_255. unfold wrap. by destruct mask.
  - cbn [map be_bytes]. rewrite !u8_land_255. by destruct mask.
Qed.

Lemma length_byte_bits (mask : bool) l :
  0 <= l < 128 ->
  let b := (if mask then 0x80 else 0x00) .| l in
  b .& 0x7F = l /\ negb ((b .& 0x80) =? 0) = mask.
Proof. intros Hl. destruct mask; by_range l Hl. Qed.

Lemma first_byte_bits (fin : bool) v :
  0 <= v < 16 ->
  let b := (if fin then 0x80 else 0x00) .| (v .& 0x0F) in
  b .& 0x0F = v /\ negb ((b .& 0x80) =? 0) = fin /\ b .& 0x40 = 0 /\ b .& 0x20 = 0 /\
  b .& 0x10 = 0 /\ in_range 8 b.
Proof. intros Hv. destruct fin; by_range v Hv. Qed.

Lemma at_1 a b l : at_ (a :: b :: l) 1 = b.
Proof. done. Qed.

Lemma length_field_decode mask n b0 tl :
  0 <= n <= kMaxFramePayload ->
  let d := b0 :: length_field mask n ++ tl in
  negb ((at_ d 1 .& 0x80) =? 0) = mask /\
  decode_length d 2 (at_ d 1 .& 0x7F) = Some (n, 1 + zlen (length_field mask n)).
Proof.
  unfold length_field. intros Hn. cbv zeta.
  destruct (Z.ltb_spec n 126); [|destruct (Z.leb_spec n 65535)];
    rewrite <- !app_comm_cons, at_1;
    match goal with |- context [(if mask then _ else _) .| ?l] =>
      destruct (length_byte_bits mask l ltac:(lia)) as [-> ->] end;
    (split; [done|]); unfold decode_length; autorewrite with zlist.
  - zbool. done.
  - zbool. do 2 f_equal. change (at_ _ 2) with ((n >> 8) .& 255).
    change (at_ _ (2 + 1)) with ((n >> 0) .& 255). rewrite !land_255, Z.shiftr_0_r.
    rewrite lor_shiftl_add by (lia || apply (wrap_range 8); lia).
    rewrite Z.shiftr_div_pow2 by lia. change (2 ^ 8) with 256.
    Z.div_mod_to_equations. lia.
  - zbool. change (zdrop 2 _) with (be_bytes 8 n ++ tl). rewrite ztake_app by done.
    rewrite foldl_shift_or by (apply be_bytes_range || done).
    rewrite be_val_be_bytes, Z.mod_small by (split; [lia|simpl; lia]). done.
Qed.

Lemma encode_frame_bytes f mask : encodable f -> all_bytes (encode_frame f mask).
Proof.
  intros [Hop _ Hp _ Hsz]. rewrite encode_frame_eq.
  destruct (first_byte_bits (fin f) _ Hop) as (_ & _ & _ & _ & _ & Hb).
  constructor; [done|]. apply Forall_app. split.
  - unfold length_field. pose proof (zlen_nonneg (payload f)).
    assert (forall l, 0 <= l < 128 -> is_byte ((if mask then 0x80 else 0x00) .| l)) as Hl.
    { intros l ?. apply lor_range; [lia|by destruct mask|rlia]. }
    destruct (Z.ltb_spec (zlen (payload f)) 126); [|destruct (_ <=? _)];
      (constructor; [apply Hl; lia|]); first [apply be_bytes_range | constructor].
  - destruct mask; [|done]. apply Forall_app. split; [by vm_compute; repeat constructor|].
    apply xor_scalar_range; [by vm_compute; repeat constructor|done].
Qed.

(** The decoder reads back what the encoder wrote. *)
Lemma decode_encode f mask rest :
  encodable f ->
  decode_frame (encode_frame f mask ++ rest) =
  (Ok (mkWsFrame (opcode f) (fin f) false false false mask (payload f)),
   zlen (encode_frame f mask)).
Proof.
  intros [Hop Hnamed Hp _ Hsz]. rewrite encode_frame_eq. pose proof (zlen_nonneg (payload f)).
  rewrite <- app_comm_cons, <- app_assoc.
  destruct (first_byte_bits (fin f) _ Hop) as (Hv & Hf & H1 & H2 & H3 & _).
  set (b0 := _ .| _) in *. set (n := zlen (payload f)) in *.
  destruct (length_field_decode mask n b0
    ((if mask then masking_key ++ xor_mask (payload f) masking_key else payload f) ++ rest))
    as [Hm Hl]; [lia|].
  unfold decode_frame. rewrite Hm, Hl. change (at_ (b0 :: _) 0) with b0.
  rewrite Hv, Hf, H1, H2, H3, Hnamed. clear Hm Hl.
  assert (1 <= zlen (length_field mask n)).
  { unfold length_field. repeat case_match; zlia. }
  assert (zlen masking_key = 4) by done.
  set (lf := length_field mask n) in *. unfold xor_mask, n in *.
  destruct mask; rewrite ?(app_comm_cons lf _ b0), <- ?app_assoc; cbn [andb]; zbool;
    [rewrite !(zdrop_app (1 + zlen lf) (b0 :: lf)), ztake_app by zlia;
     rewrite !app_assoc, <- (app_assoc _ _ rest), zdrop_app by zlia
    |rewrite zdrop_app by zlia];
    rewrite ztake_app by zlia; rewrite ?xor_scalar_involutive;
    f_equal; zlia.
Qed.

(** Decoding what the encoder produced gives the frame back, with [masked]
    set as asked for, consumes exactly the encoded bytes and ignores whatever
    follows them; the encoding consists of bytes. *)
Theorem decode_encode_frame f mask rest :
  encodable f ->
  all_bytes (encode_frame f mask) /\
  decode_frame (encode_frame f mask ++ rest) =
  (Ok (mkWsFrame (opcode f) (fin f) false false false mask (payload f)),
   zlen (encode_frame f mask)).
Proof. intros Hf. split; [by apply encode_frame_bytes|by apply decode_encode]. Qed.

(** A frame cut short is never mistaken for another one: on every strict
    prefix of an encoded frame the decoder consumes nothing and asks for more. *)
Theorem decode_frame_prefix f mask p q :
  encodable f -> encode_frame f mask = p ++ q -> q <> [] ->
  decode_frame p = (Err resource_unavailable_try_again, 0).
Proof.
  intros Hf Heq Hq. pose proof (decode_encode f mask [] Hf) as Hd.
  rewrite app_nil_r in Hd.
  assert (all_bytes p) as Hp.
  { apply (Forall_app _ p q). rewrite <- Heq. by apply encode_frame_bytes. }
  destruct (decode_frame_cases p) as [(f' & n & H)|[H|H]]; [| |done]; exfalso.
  - apply (decode_frame_app _ q) in H as [H ?]; [|done]. rewrite <- Heq, Hd in H.
    simplify_eq. rewrite Heq, zlen_app in *. apply Hq, zlen_0. zlia.
  - apply (decode_frame_app_size _ q) in H. by rewrite <- Heq, Hd in H.
Qed.

(** A frame as a peer puts it on the wire. *)
Definition wire (f : WsFrame) : bytes := encode_frame f (masked f).

Lemma decode_wire f rest : encodable f -> decode_frame (wire f ++ rest) = (Ok f, zlen (wire f)).
Proof.
  intros Hf. unfold wire. rewrite decode_encode by done.
  destruct Hf as [_ _ _ (R1 & R2 & R3) _]. destruct f; simpl in *. by subst.
Qed.

Lemma wire_bytes f : encodable f -> all_bytes (wire f).
Proof. apply encode_frame_bytes. Qed.

Lemma encode_header_eq op n fin mask key :
  0 <= to_underlying op < 16 -> 0 <= n ->
  encode_header op n fin mask key =
  ((if fin then 0x80 else 0x00) .| (to_underlying op .& 0x0F))
    :: length_field mask n
    ++ (if mask then [at_ key 0; at_ key 1; at_ key 2; at_ key 3] else []).
Proof.
  intros Hop Hn. unfold encode_header, length_field.
  destruct (first_byte_bits fin _ Hop) as (_ & _ & _ & _ & _ & Hb). rewrite (wrap_small 8) by done.
  assert (forall l, 0 <= l < 128 -> u8 ((if mask then 0x80 else 0x00) .| l)
    = (if mask then 0x80 else 0x00) .| l) as Hl.
  { intros l ?. apply wrap_small, lor_range; [lia|by destruct mask|rlia]. }
  destruct (Z.ltb_spec n 126); [|destruct (Z.leb_spec n 65535)]; rewrite Hl by lia.
  - by destruct mask.
  - cbn [be_bytes]. change (8 * Z.of_nat 1) with 8. change (8 * Z.of_nat 0) with 0.
    rewrite Z.shiftr_0_r, u8_land_255, !land_255. unfold wrap. by destruct mask.
  - cbn [map be_bytes]. rewrite !u8_land_255. by destruct mask.
Qed.

Lemma zlen_length_field mask n : 1 <= zlen (length_field mask n) <= 9.
Proof. unfold length_field. repeat case_match; zlia. Qed.

(** The scatter-gather send path agrees with the one-buffer encoder: the
    header [encode_header] writes, followed by the payload (masked with the same
    key when masking), is [encode_frame]; the header fits its 14-byte buffer. *)
Theorem encode_header_frame f mask :
  0 <= to_underlying (opcode f) < 16 ->
  let hdr := encode_header (opcode f) (zlen (payload f)) (fin f) mask masking_key in
  hdr ++ (if mask then xor_mask (payload f) masking_key else payload f) = encode_frame f mask /\
  2 <= zlen hdr <= kMaxHeaderBytes.
Proof.
  intros Hop hdr. subst hdr. rewrite encode_header_eq, encode_frame_eq by auto using zlen_nonneg.
  pose proof (zlen_length_field mask (zlen (payload f))).
  split; [|destruct mask; zlia].
  rewrite <- app_comm_cons, <- app_assoc. by destruct mask.
Qed.

(** ** Witnesses *)

Definition hello : WsFrame := mkWsFrame Text true false false false true [0x48; 0x65; 0x6c].

Lemma hello_encodable : encodable hello.
Proof. split; vm_compute; repeat constructor; discriminate. Qed.

Lemma xor_mask_simd_equiv_witness :
  xor_mask_avx2 (seqZ 0 53) [1; 2; 3; 4] = xor_mask (seqZ 0 53) [1; 2; 3; 4].
Proof.
  refine (proj1 (xor_mask_simd_equiv [1; 2; 3; 4] (seqZ 0 53) eq_refl _)).
  repeat constructor; discriminate.
Defined.

Lemma decode_encode_frame_witness :
  decode_frame (encode_frame hello true ++ [7]) = (Ok hello, 9).
Proof. exact (proj2 (decode_encode_frame hello true [7] hello_encodable)). Defined.

Lemma decode_frame_prefix_witness :
  decode_frame [0x81; 0x83; 0x37] = (Err resource_unavailable_try_again, 0).
Proof.
  refine (decode_frame_prefix hello true [0x81; 0x83; 0x37] [0xfa; 0x21; 0x3d; 0x7f; 0x9f; 0x4d]
    hello_encodable eq_refl _). discriminate.
Defined.

Lemma encode_header_frame_witness :
  encode_header Text 3 true false masking_key ++ [0x48; 0x65; 0x6c] = encode_frame hello false.
Proof. refine (proj1 (encode_header_frame hello false _)). vm_compute; split; congruence. Defined.
