(* ===== verification/Base64.v ===== *)
(** * Base64 and Base64url: [crypto/base64.hpp]

    The encoder in its scalar and NEON forms, the shared driver [encode_impl], the
    decoder [decode_impl] and the public functions.  Characters are their byte
    codes.  A destination buffer is the list of its bytes and is overwritten in
    place by [store]. *)

From S2P Require Import Prelude.

(** ** Sizes and tables *)

Definition base64_encoded_size_nopad (input_bytes : Z) : Z := (input_bytes * 4 + 2) / 3.
Definition base64_encoded_size (input_bytes : Z) : Z := ((input_bytes + 2) / 3) * 4.
Definition base64_decoded_max (base64_len : Z) : Z := ((base64_len + 3) / 4) * 3.

Definition kStdAlpha : bytes :=
  chars "ABCDEFGHIJKLMNOPQRSTUVWXYZabcdefghijklmnopqrstuvwxyz0123456789+/".
Definition kUrlAlpha : bytes :=
  chars "ABCDEFGHIJKLMNOPQRSTUVWXYZabcdefghijklmnopqrstuvwxyz0123456789-_".

Definition pad_char : Z := 61.

(** 0xFF marks a character outside the alphabet, 0xFE the padding sign. *)
Definition make_decode_table (alpha : bytes) : bytes :=
  let t := replicate 256 0xFF in
  let t := foldl (fun t i => <[Z.to_nat (at_ alpha i) := i]> t) t (seqZ 0 64) in
  <[Z.to_nat pad_char := 0xFE]> t.

Definition kStdDecodeTable : bytes := Eval vm_compute in make_decode_table kStdAlpha.
Definition kUrlDecodeTable : bytes := Eval vm_compute in make_decode_table kUrlAlpha.

(** ** Encoding *)

Fixpoint encode_scalar (src alpha : bytes) : bytes :=
  match src with
  | s0 :: s1 :: s2 :: rest =>
      let b := (s0 << 16) .| (s1 << 8) .| s2 in
      [at_ alpha ((b >> 18) .& 0x3F); at_ alpha ((b >> 12) .& 0x3F);
       at_ alpha ((b >> 6) .& 0x3F); at_ alpha (b .& 0x3F)] ++ encode_scalar rest alpha
  | [s0; s1] =>
      let b := (s0 << 16) .| (s1 << 8) in
      [at_ alpha ((b >> 18) .& 0x3F); at_ alpha ((b >> 12) .& 0x3F);
       at_ alpha ((b >> 6) .& 0x3F)]
  | [s0] =>
      let b := s0 << 16 in
      [at_ alpha ((b >> 18) .& 0x3F); at_ alpha ((b >> 12) .& 0x3F)]
  | [] => []
  end.

(** [vqtbl1q_u8] on one lane: 0 for an index past the 16-byte table. *)
Definition vqtbl1q (tbl : bytes) (i : Z) : Z := if i <? 16 then at_ tbl i else 0.

(** One lane of the register arithmetic; a comparison yields all ones or zero. *)
Definition neon_lane (alpha : bytes) (v : Z) : Z :=
  let vtbl q := ztake 16 (zdrop (16 * q) alpha) in
  let ones (b : bool) := if b then 0xFF else 0 in
  let lo := v .& 0x0F in
  let in0 := ones (v <=? 15) in
  let in1 := ones (15 <? v) .& ones (v <=? 31) in
  let in2 := ones (31 <? v) .& ones (v <=? 47) in
  let in3 := ones (47 <? v) in
  let r0 := vqtbl1q (vtbl 0) lo .& in0 in
  let r1 := vqtbl1q (vtbl 1) (u8 (v - 16) .& 0x0F) .& in1 in
  let r2 := vqtbl1q (vtbl 2) (u8 (v - 32) .& 0x0F) .& in2 in
  let r3 := vqtbl1q (vtbl 3) (u8 (v - 48) .& 0x0F) .& in3 in
  (r0 .| r1) .| (r2 .| r3).

(** The four 6-bit indices of a 3-byte group. *)
Definition neon_indices (b0 b1 b2 : Z) : bytes :=
  [(b0 >> 2) .& 0x3F; u8 (((b0 .& 3) << 4) .| (b1 >> 4));
   u8 (((b1 .& 0xF) << 2) .| (b2 >> 6)); b2 .& 0x3F].

(** [for (; i + 12 <= len; i += 12, o += 16)]: the characters stored and the
    number of input bytes processed. *)
Fixpoint encode_neon (src alpha : bytes) : bytes * Z :=
  match src with
  | s0 :: s1 :: s2 :: s3 :: s4 :: s5 :: s6 :: s7 :: s8 :: s9 :: s10 :: s11 :: rest =>
      let idx := neon_indices s0 s1 s2 ++ neon_indices s3 s4 s5 ++
                 neon_indices s6 s7 s8 ++ neon_indices s9 s10 s11 in
      let '(out, i) := encode_neon rest alpha in
      (map (neon_lane alpha) idx ++ out, i + 12)
  | _ => ([], 0)
  end.

(** [while (o < padded) dst[o++] = '='], and the position reached. *)
Definition pad_to (dst : bytes) (o padded : Z) : bytes * Z :=
  let n := Z.to_nat (padded - o) in
  (store dst o (replicate n pad_char), o + Z.of_nat n).

Definition encode_impl (neon : bool) (src dst alpha : bytes) (pad : bool) : bytes * Z :=
  let len := zlen src in
  let '(dst, o) :=
    if neon then
      let '(out, done) := encode_neon src alpha in
      let dst := store dst 0 out in
      let dst := store dst ((done / 3) * 4) (encode_scalar (zdrop done src) alpha) in
      let o_neon := (done / 3) * 4 in
      let dst := store dst o_neon (encode_scalar (zdrop done src) alpha) in
      let tail_in := len - done in
      let tail_out := (tail_in * 4 + 2) / 3 in
      (dst, o_neon + tail_out)
    else
      (store dst 0 (encode_scalar src alpha), base64_encoded_size_nopad len) in
  if pad then
    let total_groups := (len + 2) / 3 in
    pad_to dst o (total_groups * 4)
  else (dst, o).

Definition base64_encode (neon : bool) (data : bytes) : bytes :=
  let enc_len := base64_encoded_size (zlen data) in
  fst (encode_impl neon data (replicate (Z.to_nat enc_len) 0) kStdAlpha true).

Definition base64url_encode (neon : bool) (data : bytes) (padding : bool) : bytes :=
  let enc_len := if padding then base64_encoded_size (zlen data)
                 else base64_encoded_size_nopad (zlen data) in
  let '(out, written) :=
    encode_impl neon data (replicate (Z.to_nat (enc_len + 4)) 0) kUrlAlpha padding in
  ztake written out.

(** ** Decoding *)

(** [while (len > 0 && src[len - 1] == '=') --len], on the reversed text. *)
Fixpoint drop_pad (l : bytes) : bytes :=
  match l with
  | c :: l' => if c =? pad_char then drop_pad l' else l
  | [] => []
  end.

Definition strip_pad (src : bytes) : bytes := rev (drop_pad (rev src)).

Fixpoint decode_quads (src table : bytes) : result bytes :=
  match src with
  | s0 :: s1 :: s2 :: s3 :: rest =>
      let a := at_ table s0 in
      let b := at_ table s1 in
      let c := at_ table s2 in
      let d := at_ table s3 in
      if (a .| b .| c .| d) =? 0xFF then Err illegal_byte_sequence else
      match decode_quads rest table with
      | Err e => Err e
      | Ok out => Ok ([u8 ((a << 2) .| (b >> 4)); u8 ((b << 4) .| (c >> 2));
                       u8 ((c << 6) .| d)] ++ out)
      end
  | [s0; s1; s2] =>
      let a := at_ table s0 in
      let b := at_ table s1 in
      let c := at_ table s2 in
      if (a .| b .| c) =? 0xFF then Err illegal_byte_sequence else
      Ok [u8 ((a << 2) .| (b >> 4)); u8 ((b << 4) .| (c >> 2))]
  | [s0; s1] =>
      let a := at_ table s0 in
      let b := at_ table s1 in
      if (a .| b) =? 0xFF then Err illegal_byte_sequence else
      Ok [u8 ((a << 2) .| (b >> 4))]
  | [_] => Err illegal_byte_sequence
  | [] => Ok []
  end.

(** The bytes written to [dst]; the returned count is their number. *)
Definition decode_impl (src : bytes) (dst_size : Z) (table : bytes) : result bytes :=
  let src := strip_pad src in
  let len := zlen src in
  let tail_chars := len mod 4 in
  if tail_chars =? 1 then Err illegal_byte_sequence else
  let out_len := (len / 4) * 3 +
    (if tail_chars =? 2 then 1 else if tail_chars =? 3 then 2 else 0) in
  if dst_size <? out_len then Err value_too_large else
  decode_quads src table.

Definition base64_decode (encoded : bytes) : result bytes :=
  decode_impl encoded (base64_decoded_max (zlen encoded) + 3) kStdDecodeTable.

Definition base64url_decode (encoded : bytes) : result bytes :=
  decode_impl encoded (base64_decoded_max (zlen encoded) + 3) kUrlDecodeTable.

(** RFC 4648, section 10. *)
Example encode_foobar : base64_encode false (chars "foobar") = chars "Zm9vYmFy".
Proof. reflexivity. Qed.

Example encode_fooba : base64_encode true (chars "fooba") = chars "Zm9vYmE=".
Proof. reflexivity. Qed.

Example decode_fo : base64_decode (chars "Zm8=") = Ok (chars "fo").
Proof. reflexivity. Qed.

(** ** An alphabet and its decode table *)

(** What the codec needs of an alphabet: the table inverts it, it does not
    contain the padding sign, and the register lookup reads it. *)
Class Alphabet (alpha table : bytes) : Prop := {
  table_alpha v : 0 <= v < 64 -> at_ table (at_ alpha v) = v;
  alpha_not_pad v : 0 <= v < 64 -> at_ alpha v <> pad_char;
  neon_lane_alpha v : 0 <= v < 64 -> neon_lane alpha v = at_ alpha v;
}.

#[global] Instance std_alphabet : Alphabet kStdAlpha kStdDecodeTable.
Proof. split; intros v Hv; by_range v Hv. Qed.

#[global] Instance url_alphabet : Alphabet kUrlAlpha kUrlDecodeTable.
Proof. split; intros v Hv; by_range v Hv. Qed.

(** ** Groups of three bytes as four sextets *)

Definition sextets (s0 s1 s2 : Z) : bytes :=
  [s0 / 4; (s0 mod 4) * 16 + s1 / 16; (s1 mod 16) * 4 + s2 / 64; s2 mod 64].

Lemma list4_eq (a a' b b' c c' d d' : Z) :
  a = a' -> b = b' -> c = c' -> d = d' -> [a; b; c; d] = [a'; b'; c'; d'].
Proof. congruence. Qed.

Lemma land_63 z : z .& 0x3F = z mod 64.
Proof. exact (land_mask 6 z ltac:(lia)). Qed.

Lemma group_value s0 s1 s2 : is_byte s0 -> is_byte s1 -> is_byte s2 ->
  (s0 << 16) .| (s1 << 8) .| s2 = s0 * 65536 + s1 * 256 + s2.
Proof.
  intros H0 H1 H2. rewrite <- Z.lor_assoc, (lor_shiftl_add 8 s1 s2) by (done || lia).
  rewrite lor_shiftl_add by rlia. rlia.
Qed.

Lemma group_sextets s0 s1 s2 : is_byte s0 -> is_byte s1 -> is_byte s2 ->
  let b := (s0 << 16) .| (s1 << 8) .| s2 in
  [(b >> 18) .& 0x3F; (b >> 12) .& 0x3F; (b >> 6) .& 0x3F; b .& 0x3F] = sextets s0 s1 s2.
Proof.
  intros H0 H1 H2 b. unfold b, sextets. rewrite group_value, !land_63 by done.
  rewrite !Z.shiftr_div_pow2 by lia.
  change (2 ^ 18) with 262144. change (2 ^ 12) with 4096. change (2 ^ 6) with 64.
  unfold in_range in *. change (2 ^ 8) with 256 in *.
  apply list4_eq; Z.div_mod_to_equations; lia.
Qed.

Lemma neon_indices_sextets s0 s1 s2 : is_byte s0 -> is_byte s1 -> is_byte s2 ->
  neon_indices s0 s1 s2 = sextets s0 s1 s2.
Proof.
  intros H0 H1 H2. unfold neon_indices, sextets.
  change (s0 .& 3) with (s0 .& (2 ^ 2 - 1)). change (s1 .& 15) with (s1 .& (2 ^ 4 - 1)).
  rewrite !land_63, !land_mask, !Z.shiftr_div_pow2 by lia.
  change (2 ^ 2) with 4. change (2 ^ 4) with 16. change (2 ^ 6) with 64.
  unfold in_range in *. change (2 ^ 8) with 256 in *.
  rewrite !lor_shiftl_add by
    (try lia; unfold in_range; simpl; Z.div_mod_to_equations; lia).
  change (2 ^ 4) with 16. change (2 ^ 2) with 4. unfold wrap. change (2 ^ 8) with 256.
  apply list4_eq; Z.div_mod_to_equations; lia.
Qed.

Lemma sextets_range s0 s1 s2 : is_byte s0 -> is_byte s1 -> is_byte s2 ->
  Forall (fun v => 0 <= v < 64) (sextets s0 s1 s2).
Proof.
  unfold in_range. change (2 ^ 8) with 256. intros.
  repeat constructor; Z.div_mod_to_equations; lia.
Qed.

(** Reassembling three bytes from their sextets. *)
Lemma join_sextets s0 s1 s2 a b c d : is_byte s0 -> is_byte s1 -> is_byte s2 ->
  sextets s0 s1 s2 = [a; b; c; d] ->
  u8 ((a << 2) .| (b >> 4)) = s0 /\ u8 ((b << 4) .| (c >> 2)) = s1 /\ u8 ((c << 6) .| d) = s2.
Proof.
  unfold in_range. change (2 ^ 8) with 256. intros H0 H1 H2 [= <- <- <- <-].
  rewrite !Z.shiftr_div_pow2 by lia. change (2 ^ 4) with 16. change (2 ^ 2) with 4.
  rewrite !lor_shiftl_add by
    (try lia; unfold in_range; simpl; Z.div_mod_to_equations; lia).
  change (2 ^ 4) with 16. change (2 ^ 2) with 4. change (2 ^ 6) with 64.
  unfold wrap. change (2 ^ 8) with 256.
  repeat split; Z.div_mod_to_equations; lia.
Qed.

(** The sextets of a whole input; a short last group is padded with zero bits. *)
Fixpoint sextet_seq (src : bytes) : bytes :=
  match src with
  | s0 :: s1 :: s2 :: rest => sextets s0 s1 s2 ++ sextet_seq rest
  | [s0; s1] => take 3 (sextets s0 s1 0)
  | [s0] => take 2 (sextets s0 0 0)
  | [] => []
  end.

Lemma byte_0 : is_byte 0.
Proof. rlia. Qed.

Lemma encode_scalar_eq src alpha :
  all_bytes src -> encode_scalar src alpha = map (at_ alpha) (sextet_seq src).
Proof.
  induction src as [|s0|s0 s1|s0 s1 s2 rest IH] using list_ind3; intros Hs; split_bytes.
  - done.
  - pose proof (group_sextets s0 0 0 ltac:(done) byte_0 byte_0) as E.
    rewrite Z.shiftl_0_l, !Z.lor_0_r in E. cbn [sextet_seq]. rewrite <- E. done.
  - pose proof (group_sextets s0 s1 0 ltac:(done) ltac:(done) byte_0) as E.
    rewrite Z.lor_0_r in E. cbn [sextet_seq]. rewrite <- E. done.
  - cbn [encode_scalar sextet_seq]. rewrite IH, map_app, <- group_sextets by done. done.
Qed.

Lemma sextet_seq_range src : all_bytes src -> Forall (fun v => 0 <= v < 64) (sextet_seq src).
Proof.
  induction src as [|s0|s0 s1|s0 s1 s2 rest IH] using list_ind3; intros Hs; split_bytes.
  - constructor.
  - apply Forall_take, sextets_range; auto using byte_0.
  - apply Forall_take, sextets_range; auto using byte_0.
  - apply Forall_app. auto using sextets_range.
Qed.

Lemma zlen_sextet_seq src : zlen (sextet_seq src) = base64_encoded_size_nopad (zlen src).
Proof.
  unfold base64_encoded_size_nopad.
  induction src as [|s0|s0 s1|s0 s1 s2 rest IH] using list_ind3; try done.
  cbn [sextet_seq]. rewrite zlen_app, IH. autorewrite with zlist.
  change (zlen (sextets s0 s1 s2)) with 4. Z.div_mod_to_equations. lia.
Qed.

Lemma decode_quads_sextet_seq alpha table src :
  Alphabet alpha table -> all_bytes src ->
  decode_quads (map (at_ alpha) (sextet_seq src)) table = Ok src.
Proof.
  intros HA.
  assert (forall a b c d, 0 <= a < 64 -> 0 <= b < 64 -> 0 <= c < 64 -> 0 <= d < 64 ->
    ((a .| b .| c .| d) =? 0xFF) = false) as Hor.
  { intros. apply Z.eqb_neq. assert (in_range 6 (a .| b .| c .| d)); [|unfold in_range in *; lia].
    repeat apply lor_range; unfold in_range; lia. }
  assert (forall a b c, 0 <= a < 64 -> 0 <= b < 64 -> 0 <= c < 64 ->
    ((a .| b .| c) =? 0xFF) = false) as Hor3.
  { intros a b c ? ? ?. specialize (Hor a b c 0). rewrite Z.lor_0_r in Hor. apply Hor; lia. }
  assert (forall a b, 0 <= a < 64 -> 0 <= b < 64 -> ((a .| b) =? 0xFF) = false) as Hor2.
  { intros a b ? ?. specialize (Hor3 a b 0). rewrite Z.lor_0_r in Hor3. apply Hor3; lia. }
  induction src as [|s0|s0 s1|s0 s1 s2 rest IH] using list_ind3; intros Hs; split_bytes.
  - done.
  - pose proof (sextets_range s0 0 0 ltac:(done) byte_0 byte_0) as Hr.
    destruct (sextets s0 0 0) as [|a [|b [|c [|d [|]]]]] eqn:E; try done.
    destruct (join_sextets s0 0 0 a b c d ltac:(done) byte_0 byte_0 E) as (J0 & _). split_bytes.
    cbn [sextet_seq]. rewrite E. cbn [take map decode_quads].
    by rewrite !table_alpha, Hor2, J0 by done.
  - pose proof (sextets_range s0 s1 0 ltac:(done) ltac:(done) byte_0) as Hr.
    destruct (sextets s0 s1 0) as [|a [|b [|c [|d [|]]]]] eqn:E; try done.
    destruct (join_sextets s0 s1 0 a b c d ltac:(done) ltac:(done) byte_0 E) as (J0 & J1 & _).
    split_bytes. cbn [sextet_seq]. rewrite E. cbn [take map decode_quads].
    by rewrite !table_alpha, Hor3, J0, J1 by done.
  - pose proof (sextets_range s0 s1 s2 ltac:(done) ltac:(done) ltac:(done)) as Hr.
    destruct (sextets s0 s1 s2) as [|a [|b [|c [|d [|]]]]] eqn:E; try done.
    destruct (join_sextets s0 s1 s2 a b c d ltac:(done) ltac:(done) ltac:(done) E)
      as (J0 & J1 & J2).
    split_bytes. cbn [sextet_seq]. rewrite E. cbn [app map decode_quads].
    by rewrite !table_alpha, Hor, IH, J0, J1, J2 by done.
Qed.

(** ** The driver *)

Lemma encode_neon_eq alpha table src out i :
  Alphabet alpha table -> all_bytes src -> encode_neon src alpha = (out, i) ->
  0 <= i <= zlen src /\ i mod 12 = 0 /\ zlen out = i / 3 * 4 /\
  out ++ encode_scalar (zdrop i src) alpha = encode_scalar src alpha.
Proof.
  intros HA. revert out i. induction src as [src IH] using list_length_ind. intros out i Hs E.
  destruct src as [|s0 [|s1 [|s2 [|s3 [|s4 [|s5 [|s6 [|s7 [|s8 [|s9 [|s10 [|s11 rest]]]]]]]]]]]];
    try (simpl in E; simplify_eq; rewrite zdrop_0; split; [split; [lia|apply zlen_nonneg]|];
         done).
  cbn [encode_neon] in E. destruct (encode_neon rest alpha) as [out' i'] eqn:E'. simplify_eq.
  split_bytes. apply IH in E' as (Hi & Hm & Hl & Heq); [|simpl; lia|done].
  assert (forall s0 s1 s2, is_byte s0 -> is_byte s1 -> is_byte s2 ->
    map (neon_lane alpha) (neon_indices s0 s1 s2) = map (at_ alpha) (sextets s0 s1 s2)) as Hg.
  { intros t0 t1 t2 ? ? ?. rewrite neon_indices_sextets by done. apply map_ext_Forall.
    eapply Forall_impl; [by apply sextets_range|]. intros v Hv. by apply neon_lane_alpha. }
  split_and!.
  - lia.
  - autorewrite with zlist. lia.
  - Z.div_mod_to_equations. lia.
  - autorewrite with zlist. change (zlen (neon_indices _ _ _)) with 4. rewrite Hl.
    Z.div_mod_to_equations. lia.
  - replace (zdrop (i' + 12) _) with (zdrop i' rest)
      by (rewrite Z.add_comm, <- zdrop_zdrop by lia; done).
    rewrite <- app_assoc, Heq, !map_app, !Hg by done.
    rewrite !encode_scalar_eq by solve_bytes.
    cbn [sextet_seq]. by rewrite !map_app, <- !app_assoc.
Qed.

(** The text an input encodes to. *)
Definition encoded (alpha src : bytes) (pad : bool) : bytes :=
  map (at_ alpha) (sextet_seq src) ++
  if pad then replicate (Z.to_nat (base64_encoded_size (zlen src)
                                   - base64_encoded_size_nopad (zlen src))) pad_char
  else [].

Lemma zlen_encoded alpha src pad :
  zlen (encoded alpha src pad) =
  if pad then base64_encoded_size (zlen src) else base64_encoded_size_nopad (zlen src).
Proof.
  unfold encoded. rewrite zlen_app, zlen_map, zlen_sextet_seq. pose proof (zlen_nonneg src).
  unfold base64_encoded_size, base64_encoded_size_nopad.
  destruct pad; [|unfold zlen; simpl; lia].
  unfold zlen at 2. rewrite length_replicate. Z.div_mod_to_equations. lia.
Qed.

(** Both forms of the driver fill the buffer with the scalar text first. *)
Lemma encode_body_eq (neon : bool) alpha table src dst :
  Alphabet alpha table -> all_bytes src ->
  (if neon then
     let '(out, done) := encode_neon src alpha in
     let dst := store dst 0 out in
     let dst := store dst (done / 3 * 4) (encode_scalar (zdrop done src) alpha) in
     let dst := store dst (done / 3 * 4) (encode_scalar (zdrop done src) alpha) in
     (dst, done / 3 * 4 + ((zlen src - done) * 4 + 2) / 3)
   else (store dst 0 (encode_scalar src alpha), base64_encoded_size_nopad (zlen src)))
  = (encode_scalar src alpha ++ zdrop (base64_encoded_size_nopad (zlen src)) dst,
     base64_encoded_size_nopad (zlen src)).
Proof.
  intros HA Hs. destruct neon.
  - destruct (encode_neon src alpha) as [out i] eqn:E.
    destruct (encode_neon_eq _ _ _ _ _ HA Hs E) as (Hi & Hm & Hl & <-). cbv zeta.
    rewrite store_0, store_at, store_at, app_assoc by done.
    rewrite zdrop_app by done.
    assert (zlen (encode_scalar (zdrop i src) alpha) = ((zlen src - i) * 4 + 2) / 3) as Hz.
    { rewrite encode_scalar_eq, zlen_map, zlen_sextet_seq, zlen_zdrop by auto. done. }
    assert (i / 3 * 4 + ((zlen src - i) * 4 + 2) / 3 = base64_encoded_size_nopad (zlen src)) as ->.
    { unfold base64_encoded_size_nopad. Z.div_mod_to_equations. lia. }
    rewrite zdrop_zdrop by apply zlen_nonneg. do 3 f_equal.
    rewrite Hz, Hl. unfold base64_encoded_size_nopad. Z.div_mod_to_equations. lia.
  - rewrite store_0. do 3 f_equal. by rewrite encode_scalar_eq, zlen_map, zlen_sextet_seq.
Qed.

Lemma encode_impl_eq neon alpha table src dst pad :
  Alphabet alpha table -> all_bytes src ->
  encode_impl neon src dst alpha pad =
  (encoded alpha src pad ++ zdrop (zlen (encoded alpha src pad)) dst, zlen (encoded alpha src pad)).
Proof.
  intros HA Hs. rewrite zlen_encoded. unfold encode_impl. cbv zeta.
  rewrite (encode_body_eq neon alpha table) by done. unfold encoded.
  rewrite <- encode_scalar_eq by done.
  destruct pad; [|by rewrite app_nil_r]. unfold pad_to.
  fold (base64_encoded_size (zlen src)). pose proof (zlen_nonneg src).
  assert (0 <= base64_encoded_size_nopad (zlen src) <= base64_encoded_size (zlen src)).
  { unfold base64_encoded_size, base64_encoded_size_nopad. Z.div_mod_to_equations. lia. }
  rewrite store_at by (by rewrite encode_scalar_eq, zlen_map, zlen_sextet_seq).
  rewrite Z2Nat.id, <- app_assoc, zdrop_zdrop by (apply zlen_nonneg || lia).
  rewrite zlen_replicate, Z2Nat.id by lia. repeat f_equal; lia.
Qed.

Lemma rev_replicate {A} n (x : A) : rev (replicate n x) = replicate n x.
Proof.
  induction n as [|n IH]; [done|].
  cbn [replicate rev]. rewrite IH. symmetry. apply replicate_S_end.
Qed.

Lemma drop_pad_replicate n l : drop_pad (replicate n pad_char ++ l) = drop_pad l.
Proof. by induction n. Qed.

Lemma drop_pad_id l : Forall (fun c => c <> pad_char) l -> drop_pad l = l.
Proof. destruct 1; simpl; [done|]. by rewrite (proj2 (Z.eqb_neq _ _)). Qed.

Lemma strip_pad_encoded alpha table src pad :
  Alphabet alpha table -> all_bytes src ->
  strip_pad (encoded alpha src pad) = map (at_ alpha) (sextet_seq src).
Proof.
  intros HA Hs. unfold strip_pad, encoded.
  assert (Forall (fun c => c <> pad_char) (rev (map (at_ alpha) (sextet_seq src)))) as Hn.
  { apply Forall_rev, Forall_map. eapply Forall_impl; [by apply sextet_seq_range|].
    intros v Hv. by eapply alpha_not_pad. }
  destruct pad; rewrite ?app_nil_r, ?rev_app_distr, ?rev_replicate, ?drop_pad_replicate;
    by rewrite drop_pad_id, rev_involutive.
Qed.

Lemma decode_impl_encoded alpha table src pad n :
  Alphabet alpha table -> all_bytes src -> zlen src <= n ->
  decode_impl (encoded alpha src pad) n table = Ok src.
Proof.
  intros HA Hs Hn. unfold decode_impl. rewrite (strip_pad_encoded _ table) by done.
  rewrite zlen_map, zlen_sextet_seq, (decode_quads_sextet_seq _ _ _ HA Hs).
  pose proof (zlen_nonneg src). unfold base64_encoded_size_nopad.
  rewrite (proj2 (Z.eqb_neq _ _)) by (Z.div_mod_to_equations; lia).
  rewrite (proj2 (Z.ltb_ge _ _)); [done|]. etrans; [|exact Hn].
  repeat case_match; rewrite ?Z.eqb_eq, ?Z.eqb_neq in *; Z.div_mod_to_equations; lia.
Qed.

Lemma base64_encode_eq neon data :
  all_bytes data -> base64_encode neon data = encoded kStdAlpha data true.
Proof.
  intros Hd. unfold base64_encode. rewrite (encode_impl_eq neon _ _ _ _ _ std_alphabet Hd).
  cbn [fst]. rewrite zlen_encoded. unfold zdrop. rewrite drop_ge; [apply app_nil_r|].
  by rewrite length_replicate.
Qed.

Lemma base64url_encode_eq neon data padding :
  all_bytes data -> base64url_encode neon data padding = encoded kUrlAlpha data padding.
Proof.
  intros Hd. unfold base64url_encode. rewrite (encode_impl_eq neon _ _ _ _ _ url_alphabet Hd).
  by apply ztake_app.
Qed.

Lemma base64_decoded_max_ge n m :
  base64_encoded_size_nopad n <= m -> 0 <= n -> n <= base64_decoded_max m + 3.
Proof.
  unfold base64_encoded_size_nopad, base64_decoded_max. intros. Z.div_mod_to_equations. lia.
Qed.

Lemma encoded_size_le n : 0 <= n -> base64_encoded_size_nopad n <= base64_encoded_size n.
Proof.
  unfold base64_encoded_size_nopad, base64_encoded_size. intros. Z.div_mod_to_equations. lia.
Qed.

Lemma base64_decode_encode neon data :
  all_bytes data -> base64_decode (base64_encode neon data) = Ok data.
Proof.
  intros Hd. rewrite base64_encode_eq by done. unfold base64_decode. rewrite zlen_encoded.
  apply decode_impl_encoded; [apply _|done|].
  apply base64_decoded_max_ge; auto using zlen_nonneg, encoded_size_le.
Qed.

Lemma zlen_base64_encode neon data :
  all_bytes data -> zlen (base64_encode neon data) = base64_encoded_size (zlen data).
Proof. intros Hd. by rewrite base64_encode_eq, zlen_encoded. Qed.

Lemma base64url_decode_encode neon data padding : all_bytes data ->
  base64url_decode (base64url_encode neon data padding) = Ok data.
Proof.
  intros Hd. rewrite base64url_encode_eq by done. unfold base64url_decode. rewrite zlen_encoded.
  apply decode_impl_encoded; [apply _|done|].
  destruct padding; apply base64_decoded_max_ge; auto using zlen_nonneg, encoded_size_le, Z.le_refl.
Qed.

(** The text is over the URL-safe alphabet: nothing a URL or a [$]-separated record gives a meaning. *)
Lemma base64url_chars neon data : all_bytes data ->
  Forall (fun c => c ∈ kUrlAlpha) (base64url_encode neon data false).
Proof.
  intros Hd. rewrite base64url_encode_eq by done. unfold encoded. rewrite app_nil_r.
  apply Forall_map. eapply Forall_impl; [by apply sextet_seq_range|]. intros v Hv. cbn beta in *.
  unfold at_. apply list_elem_of_In, nth_In. change (length kUrlAlpha) with 64%nat. lia.
Qed.

(** Encoding then decoding is the identity, for the standard and the URL-safe
    alphabet, with and without padding, through the NEON or the scalar encoder;
    the text has the advertised length. *)
Theorem base64_roundtrip neon data padding :
  all_bytes data ->
  base64_decode (base64_encode neon data) = Ok data /\
  base64url_decode (base64url_encode neon data padding) = Ok data /\
  zlen (base64_encode neon data) = base64_encoded_size (zlen data).
Proof.
  intros Hd. split_and!; [by apply base64_decode_encode|by apply base64url_decode_encode|by apply zlen_base64_encode].
Qed.

(** The NEON driver leaves the same buffer and returns the same count as the
    portable one, whatever the buffer held before. *)
Theorem encode_impl_neon_equiv alpha table src dst pad :
  Alphabet alpha table -> all_bytes src ->
  encode_impl true src dst alpha pad = encode_impl false src dst alpha pad.
Proof. intros HA Hs. by rewrite !(encode_impl_eq _ _ _ _ _ _ HA Hs). Qed.

(** ** What the decoder accepts *)

Lemma list_ind4 {A} (P : list A -> Prop) :
  P [] -> (forall a, P [a]) -> (forall a b, P [a; b]) -> (forall a b c, P [a; b; c]) ->
  (forall a b c d l, P l -> P (a :: b :: c :: d :: l)) -> forall l, P l.
Proof.
  intros H0 H1 H2 H3 H4. fix IH 1.
  intros [|a [|b [|c [|d l]]]]; [done|apply H1|apply H2|apply H3|apply H4, IH].
Qed.

Lemma zlen_decode_quads table src out :
  decode_quads src table = Ok out ->
  zlen out = zlen src / 4 * 3 +
    (if zlen src mod 4 =? 2 then 1 else if zlen src mod 4 =? 3 then 2 else 0).
Proof.
  revert out. induction src as [|a|a b|a b c|a b c d l IH] using list_ind4;
    intros out H; cbn [decode_quads] in H;
    try (repeat case_match; simplify_eq; done).
  destruct (_ =? 255); [done|]. destruct (decode_quads l table) as [o|] eqn:E; [|done].
  simplify_eq. specialize (IH _ eq_refl). autorewrite with zlist.
  replace (zlen l + 1 + 1 + 1 + 1) with (zlen l + 1 * 4) by lia.
  rewrite Z.div_add, Z.mod_add, IH by lia. lia.
Qed.

(** A character outside the alphabet anywhere before the padding. *)
Lemma decode_quads_illegal table src c :
  all_bytes table -> c ∈ src -> at_ table c = 0xFF ->
  decode_quads src table = Err illegal_byte_sequence.
Proof.
  intros Ht Hc Hff.
  assert (forall x, is_byte x -> x .| 0xFF = 0xFF) as Hor.
  { intros x Hx. assert (0 <= x < 256) as Hr by rlia. clear Hx. by_range x Hr. }
  assert (forall x, 0xFF .| at_ table x = 0xFF) as Hl.
  { intros x. rewrite Z.lor_comm. by apply Hor, at_range. }
  assert (forall x y, is_byte x -> is_byte y -> is_byte (x .| y)) as Hb.
  { intros. by apply lor_range. }
  assert (forall x, is_byte (at_ table x)) as Ha by (intros; by apply at_range).
  revert Hc. induction src as [|x0|x0 x1|x0 x1 x2|x0 x1 x2 x3 l IH] using list_ind4;
    rewrite ?elem_of_cons; intros Hc; cbn [decode_quads].
  - by apply elem_of_nil in Hc.
  - done.
  - destruct Hc as [<-|[<-|Hc]]; [| |by apply elem_of_nil in Hc]; rewrite Hff, ?Hl, ?Hor by auto;
      done.
  - destruct Hc as [<-|[<-|[<-|Hc]]]; [| | |by apply elem_of_nil in Hc];
      rewrite Hff, ?Hor, ?Hl, ?Hor, ?Hl by auto; done.
  - destruct (_ =? _) eqn:E; [done|]. rewrite IH; [done|].
    destruct Hc as [<-|[<-|[<-|[<-|Hc]]]]; [| | | |done]; exfalso; apply Z.eqb_neq in E;
      apply E; rewrite Hff, ?Hor, ?Hl, ?Hor, ?Hl, ?Hor, ?Hl by auto; done.
Qed.

(** The decoder never writes past its buffer, never more than the advertised
    bound, and reports a character that is outside the alphabet. *)
Theorem decode_impl_safe table src dst_size :
  all_bytes table ->
  (forall out, decode_impl src dst_size table = Ok out ->
     zlen out <= dst_size /\ zlen out <= base64_decoded_max (zlen src)) /\
  (forall c, c ∈ strip_pad src -> at_ table c = 0xFF -> zlen src <= dst_size ->
     decode_impl src dst_size table = Err illegal_byte_sequence).
Proof.
  intros Ht.
  assert (zlen (strip_pad src) <= zlen src) as Hs.
  { unfold strip_pad, zlen. rewrite length_rev, <- (length_rev src).
    generalize (rev src) as l. induction l as [|c l IH]; simpl; [done|].
    case_match; simpl; lia. }
  pose proof (zlen_nonneg (strip_pad src)).
  split.
  - intros out. unfold decode_impl. destruct (_ mod 4 =? 1); [done|].
    destruct (Z.ltb_spec dst_size (zlen (strip_pad src) / 4 * 3 +
      (if zlen (strip_pad src) mod 4 =? 2 then 1
       else if zlen (strip_pad src) mod 4 =? 3 then 2 else 0))); [done|].
    intros Hd. apply zlen_decode_quads in Hd. unfold base64_decoded_max.
    split; [lia|]. rewrite Hd.
    repeat case_match; rewrite ?Z.eqb_eq, ?Z.eqb_neq in *; Z.div_mod_to_equations; lia.
  - intros c Hc Hff Hsz. unfold decode_impl. destruct (_ mod 4 =? 1); [done|].
    rewrite (proj2 (Z.ltb_ge _ _)); [by eapply decode_quads_illegal|].
    repeat case_match; rewrite ?Z.eqb_eq, ?Z.eqb_neq in *; Z.div_mod_to_equations; lia.
Qed.

(** The padding sign is only caught by accident inside the text: its table
    entry 0xFE passes the [== 0xFF] test whenever the other sextets of the quad are
    even, so malformed text decodes to bytes. *)
Theorem interior_padding_accepted :
  base64_decode (chars "A=AA") = Ok [15; 224; 0] /\
  base64_decode (chars "A=AB") = Err illegal_byte_sequence.
Proof. split; reflexivity. Qed.

(** ** Witnesses *)

Lemma base64_roundtrip_witness :
  base64_decode (base64_encode true (chars "hello, world!")) = Ok (chars "hello, world!").
Proof.
  refine (proj1 (base64_roundtrip true (chars "hello, world!") true _)).
  vm_compute; repeat constructor; discriminate.
Defined.

Lemma encode_impl_neon_equiv_witness :
  encode_impl true (seqZ 0 26) (replicate 36 0) kUrlAlpha true
  = encode_impl false (seqZ 0 26) (replicate 36 0) kUrlAlpha true.
Proof.
  refine (encode_impl_neon_equiv _ _ _ _ _ url_alphabet _).
  vm_compute; repeat constructor; discriminate.
Defined.

Lemma decode_impl_safe_witness :
  decode_impl (chars "ab!d") 6 kStdDecodeTable = Err illegal_byte_sequence.
Proof.
  refine (proj2 (decode_impl_safe kStdDecodeTable (chars "ab!d") 6 _) 33 _ _ _).
  - vm_compute; repeat constructor; discriminate.
  - vm_compute. right. right. left.
  - reflexivity.
  - vm_compute. discriminate.
Defined.
