(* ===== verification/WsHandler.v ===== *)
(** * The blocking WebSocket handler of [server/websocket_handler.hpp]

    [WebSocketHandler::run], the receive loop over a socket, and
    [compute_accept_key], the handshake digest (SHA-1 and Base64).  The socket is
    the sequence of byte chunks its [read] calls return; an empty chunk is
    end-of-file or an error.  What the loop does is the list of its effects:
    application callbacks and [write_all] calls, whose result [run] ignores. *)

From S2P Require Import Prelude WsFrame Base64.

(** ** The receive loop *)

Inductive event :=
  | OnMessage (frame : WsFrame)
  | WriteAll (data : bytes).

Definition pong_frame : WsFrame := mkWsFrame Pong true false false false false [].
Definition close_frame (p : bytes) : WsFrame := mkWsFrame Close true false false false false p.

(** The inner [for (;;)] over the frames of [buf]: the effects, and the
    [consumed] count it leaves with, or [None] when it returned from [run].
    [has_handler] is the test of the [on_message_] function object. *)
Fixpoint extract (has_handler : bool) (fuel : nat) (buf : bytes) (consumed : Z)
    : list event * option Z :=
  match fuel with
  | O => ([], Some consumed)
  | S fuel =>
      match decode_frame (zdrop consumed buf) with
      | (Err _, _) => ([], Some consumed)
      | (Ok frame, frame_consumed) =>
          let consumed := consumed + frame_consumed in
          match opcode frame with
          | Ping =>
              let '(ev, r) := extract has_handler fuel buf consumed in
              (WriteAll (encode_frame pong_frame false) :: ev, r)
          | Close => ([WriteAll (encode_frame (close_frame (payload frame)) false)], None)
          | _ =>
              let '(ev, r) := extract has_handler fuel buf consumed in
              ((if has_handler then [OnMessage frame] else []) ++ ev, r)
          end
      end
  end.

(** The outer loop.  Every decoded frame takes at least two bytes, so
    [length buf + 1] turns of the inner loop are enough. *)
Fixpoint run (has_handler : bool) (reads : list bytes) (buf : bytes) : list event :=
  match reads with
  | [] => []
  | tmp :: reads =>
      if bool_decide (tmp = []) then [] else
      let buf := buf ++ tmp in
      let '(ev, r) := extract has_handler (S (length buf)) buf 0 in
      match r with
      | None => ev
      | Some consumed =>
          ev ++ run has_handler reads (if 0 <? consumed then zdrop consumed buf else buf)
      end
  end.

(** ** SHA-1 *)

Definition rotl32 (v n : Z) : Z := u32 (v << n) .| (v >> (32 - n)).

Definition sha1_init : list Z :=
  [0x67452301; 0xEFCDAB89; 0x98BADCFE; 0x10325476; 0xC3D2E1F0].

(** [while (msg.size() % 64 != 56) msg.push_back(0x00)]. *)
Fixpoint pad_zeros (fuel : nat) (msg : bytes) : bytes :=
  match fuel with
  | O => msg
  | S fuel => if zlen msg mod 64 =? 56 then msg else pad_zeros fuel (msg ++ [0])
  end.

Definition sha1_pad (input : bytes) : bytes :=
  let bit_len := u64 (zlen input * 8) in
  let msg := input ++ [0x80] in
  let msg := pad_zeros 64 msg in
  msg ++ map (fun i => u8 ((bit_len >> (i * 8)) .& 0xFF)) [7; 6; 5; 4; 3; 2; 1; 0].

Definition sha1_schedule (block : bytes) : list Z :=
  let w := map (fun i => (at_ block (i * 4) << 24) .| (at_ block (i * 4 + 1) << 16)
                         .| (at_ block (i * 4 + 2) << 8) .| at_ block (i * 4 + 3)) (seqZ 0 16) in
  foldl (fun w i =>
    w ++ [rotl32 (at_ w (i - 3) .^ at_ w (i - 8) .^ at_ w (i - 14) .^ at_ w (i - 16)) 1])
    w (seqZ 16 64).

Definition sha1_f (i b c d : Z) : Z * Z :=
  if i <? 20 then ((b .& c) .| ((b .^ 0xFFFFFFFF) .& d), 0x5A827999)
  else if i <? 40 then (b .^ c .^ d, 0x6ED9EBA1)
  else if i <? 60 then ((b .& c) .| (b .& d) .| (c .& d), 0x8F1BBCDC)
  else (b .^ c .^ d, 0xCA62C1D6).

Definition sha1_round (w : list Z) (st : Z * Z * Z * Z * Z) (i : Z) : Z * Z * Z * Z * Z :=
  let '(a, b, c, d, e) := st in
  let '(f, k) := sha1_f i b c d in
  let temp := u32 (rotl32 a 5 + f + e + k + at_ w i) in
  (temp, a, rotl32 b 30, c, d).

Definition sha1_block (h : list Z) (block : bytes) : list Z :=
  let w := sha1_schedule block in
  let '(a, b, c, d, e) :=
    foldl (sha1_round w) (at_ h 0, at_ h 1, at_ h 2, at_ h 3, at_ h 4) (seqZ 0 80) in
  [u32 (at_ h 0 + a); u32 (at_ h 1 + b); u32 (at_ h 2 + c); u32 (at_ h 3 + d); u32 (at_ h 4 + e)].

(** [for (offset = 0; offset < msg.size(); offset += 64)]. *)
Fixpoint sha1_blocks (fuel : nat) (h : list Z) (msg : bytes) (offset : Z) : list Z :=
  match fuel with
  | O => h
  | S fuel =>
      if offset <? zlen msg
      then sha1_blocks fuel (sha1_block h (ztake 64 (zdrop offset msg))) msg (offset + 64)
      else h
  end.

Definition sha1 (input : bytes) : bytes :=
  let msg := sha1_pad input in
  let h := sha1_blocks (length msg) sha1_init msg 0 in
  concat (map (fun i => [u8 (at_ h i >> 24); u8 (at_ h i >> 16); u8 (at_ h i >> 8); u8 (at_ h i)])
              [0; 1; 2; 3; 4]).

(** ** The accept key *)

Definition kMagic : bytes := chars "258EAFA5-E914-47DA-95CA-C5AB0DC85B11".
Definition kBase64Chars : bytes :=
  chars "ABCDEFGHIJKLMNOPQRSTUVWXYZabcdefghijklmnopqrstuvwxyz0123456789+/".

(** One turn of [for (i = 0; i < 20; i += 3)]. *)
Definition accept_group (digest : bytes) (i : Z) : bytes :=
  let triple := at_ digest i << 16 in
  let triple := if i + 1 <? 20 then triple .| (at_ digest (i + 1) << 8) else triple in
  let triple := if i + 2 <? 20 then triple .| at_ digest (i + 2) else triple in
  [at_ kBase64Chars ((triple >> 18) .& 0x3F);
   at_ kBase64Chars ((triple >> 12) .& 0x3F);
   if i + 1 <? 20 then at_ kBase64Chars ((triple >> 6) .& 0x3F) else 61;
   if i + 2 <? 20 then at_ kBase64Chars (triple .& 0x3F) else 61].

Definition compute_accept_key (key : bytes) : bytes :=
  let digest := sha1 (key ++ kMagic) in
  concat (map (accept_group digest) [0; 3; 6; 9; 12; 15; 18]).

(** RFC 6455, section 1.3. *)
Example accept_rfc :
  compute_accept_key (chars "dGhlIHNhbXBsZSBub25jZQ==") = chars "s3pPLMBiTxaQ9kYGzzhZRbK+xOo=".
Proof. vm_compute. reflexivity. Qed.

(** ** The loop as a function of the byte stream *)

(** What a frame makes the loop do; [None] ends it. *)
Definition reply (h : bool) (f : WsFrame) : list event :=
  match opcode f with
  | Ping => [WriteAll (encode_frame pong_frame false)]
  | Close => [WriteAll (encode_frame (close_frame (payload f)) false)]
  | _ => if h then [OnMessage f] else []
  end.

(** The frames of a buffer taken off its front one by one, and the bytes left. *)
Fixpoint drain (h : bool) (fuel : nat) (buf : bytes) : list event * option bytes :=
  match fuel with
  | O => ([], Some buf)
  | S fuel =>
      match decode_frame buf with
      | (Err _, _) => ([], Some buf)
      | (Ok f, n) =>
          if bool_decide (opcode f = Close) then (reply h f, None)
          else let '(ev, r) := drain h fuel (zdrop n buf) in (reply h f ++ ev, r)
      end
  end.

Lemma decode_frame_consumes buf f n :
  all_bytes buf -> decode_frame buf = (Ok f, n) ->
  2 <= n <= zlen buf /\ (length (zdrop n buf) < length buf)%nat.
Proof.
  intros Hb H. apply (decode_frame_app _ []) in H as [_ H]; [|done]. split; [done|].
  pose proof (zlen_zdrop n buf ltac:(lia)). unfold zlen in *. lia.
Qed.

Lemma drain_fuel h n1 n2 buf :
  all_bytes buf -> (length buf < n1)%nat -> (length buf < n2)%nat ->
  drain h n1 buf = drain h n2 buf.
Proof.
  revert n2 buf. induction n1 as [|n1 IH]; intros [|n2] buf Hb H1 H2; try lia. cbn [drain].
  destruct (decode_frame buf) as [[f|e] n] eqn:E; [|done].
  apply decode_frame_consumes in E as [_ E]; [|done].
  by rewrite (IH n2) by (auto || lia).
Qed.

Definition stream (h : bool) (buf : bytes) : list event * option bytes :=
  drain h (S (length buf)) buf.

Lemma stream_ok h buf f n :
  all_bytes buf -> decode_frame buf = (Ok f, n) ->
  stream h buf =
  if bool_decide (opcode f = Close) then (reply h f, None)
  else let '(ev, r) := stream h (zdrop n buf) in (reply h f ++ ev, r).
Proof.
  intros Hb E. unfold stream at 1. cbn [drain]. rewrite E. case_bool_decide; [done|].
  apply decode_frame_consumes in E as [_ E]; [|done]. unfold stream.
  by rewrite (drain_fuel h _ (S (length (zdrop n buf)))) by (auto || lia).
Qed.

Lemma stream_err h buf e n : decode_frame buf = (Err e, n) -> stream h buf = ([], Some buf).
Proof. intros E. unfold stream. cbn [drain]. by rewrite E. Qed.

(** Draining what has arrived, then the rest, is draining everything. *)
Lemma stream_app h b1 b2 :
  all_bytes b1 -> all_bytes b2 ->
  stream h (b1 ++ b2) =
  match stream h b1 with
  | (ev, None) => (ev, None)
  | (ev, Some r) => let '(ev', r') := stream h (r ++ b2) in (ev ++ ev', r')
  end.
Proof.
  intros H1 H2. induction b1 as [b1 IH] using list_length_ind.
  destruct (decode_frame b1) as [[f|e] n] eqn:E.
  - pose proof (decode_frame_consumes _ _ _ H1 E) as [Hn Hlt].
    rewrite (stream_ok h b1 f n) by done.
    apply (decode_frame_app _ b2) in E as [E _]; [|done].
    rewrite (stream_ok h (b1 ++ b2) f n) by (rewrite ?Forall_app; auto).
    rewrite zdrop_app_le, IH by (auto || lia). case_bool_decide; [done|].
    destruct (stream h (zdrop n b1)) as [ev [r|]]; [|done].
    destruct (stream h (r ++ b2)). by rewrite app_assoc.
  - rewrite (stream_err h b1 e n E). by destruct (stream h (b1 ++ b2)).
Qed.

(** What is left over holds no complete frame. *)
Lemma stream_residue h b ev r :
  all_bytes b -> stream h b = (ev, Some r) -> all_bytes r /\ stream h r = ([], Some r).
Proof.
  revert ev r. induction b as [b IH] using list_length_ind. intros ev r Hb Hs.
  destruct (decode_frame b) as [[f|e] n] eqn:E.
  - rewrite (stream_ok h b f n) in Hs by done. case_bool_decide; [done|].
    apply decode_frame_consumes in E as [_ E]; [|done].
    destruct (stream h (zdrop n b)) as [ev' r'] eqn:Hs'. simplify_eq.
    eapply IH; [done| |done]. auto.
  - pose proof (stream_err h b e n E) as Hs'. rewrite Hs in Hs'. by simplify_eq.
Qed.

Lemma extract_drain h fuel buf c :
  all_bytes buf -> 0 <= c <= zlen buf ->
  exists ev r, drain h fuel (zdrop c buf) = (ev, r) /\
    match r with
    | None => extract h fuel buf c = (ev, None)
    | Some rest => exists c', extract h fuel buf c = (ev, Some c') /\ 0 <= c' /\ rest = zdrop c' buf
    end.
Proof.
  intros Hb. revert c. induction fuel as [|fuel IH]; intros c Hc; cbn [drain extract].
  { do 2 eexists. split; [done|]. exists c. auto with lia. }
  destruct (decode_frame (zdrop c buf)) as [[f|e] n] eqn:E.
  2:{ do 2 eexists. split; [done|]. exists c. auto with lia. }
  apply decode_frame_consumes in E as [Hn _]; [|by apply Forall_zdrop].
  rewrite zlen_zdrop in Hn by lia.
  destruct (IH (c + n) ltac:(lia)) as (ev & r & Hd & Hx). unfold reply.
  rewrite zdrop_zdrop, Hd by lia.
  destruct (opcode f) eqn:Ho; simpl; try (by eexists _, None).
  all: do 2 eexists; split; [done|]; destruct r as [rest|];
    [destruct Hx as (c' & -> & Hx); eauto | by rewrite Hx].
Qed.

(** Started on a residue, the loop computes [stream] of everything received. *)
Lemma run_stream h reads buf :
  Forall (fun c => c <> []) reads -> Forall all_bytes reads -> all_bytes buf ->
  stream h buf = ([], Some buf) ->
  run h reads buf = fst (stream h (buf ++ concat reads)).
Proof.
  intros Hne Hr. revert buf. induction Hr as [|tmp reads Ht Hr IH]; intros buf Hb Hs; cbn [run concat].
  { by rewrite app_nil_r, Hs. }
  apply Forall_cons in Hne as [Hne1 Hne]. rewrite bool_decide_eq_false_2 by done.
  assert (all_bytes (buf ++ tmp)) as Hbt by (apply Forall_app; auto).
  assert (all_bytes (concat reads)) as Hc by (by apply Forall_concat).
  rewrite app_assoc, stream_app by done.
  destruct (extract_drain h (S (length (buf ++ tmp))) (buf ++ tmp) 0)
    as (ev & r & Hd & Hx); [done|split; [lia|apply zlen_nonneg]|].
  rewrite zdrop_0 in Hd. fold (stream h (buf ++ tmp)) in Hd. rewrite Hd.
  destruct r as [rest|]; [|by rewrite Hx]. destruct Hx as (c' & -> & Hc' & ->).
  apply stream_residue in Hd as [Hrb Hrs]; [|done].
  replace (if 0 <? c' then zdrop c' (buf ++ tmp) else buf ++ tmp) with (zdrop c' (buf ++ tmp)).
  2:{ destruct (Z.ltb_spec 0 c'); [done|]. by replace c' with 0 by lia. }
  rewrite IH by done. by destruct (stream h (zdrop c' (buf ++ tmp) ++ concat reads)).
Qed.

(** How the kernel cuts the byte stream into reads does not matter: two
    sequences of reads with the same concatenation cause the same callbacks and
    writes, in the same order. *)
Theorem run_segmentation h reads1 reads2 :
  Forall (fun c => c <> []) reads1 -> Forall (fun c => c <> []) reads2 ->
  Forall all_bytes reads1 -> Forall all_bytes reads2 ->
  concat reads1 = concat reads2 ->
  run h reads1 [] = run h reads2 [].
Proof. intros H1 H2 B1 B2 Heq. rewrite !run_stream by (done || constructor). by rewrite Heq. Qed.

Lemma stream_wire h f rest :
  encodable f -> all_bytes rest ->
  stream h (wire f ++ rest) =
  if bool_decide (opcode f = Close) then (reply h f, None)
  else let '(ev, r) := stream h rest in (reply h f ++ ev, r).
Proof.
  intros Hf Hr. pose proof (wire_bytes f Hf).
  rewrite (stream_ok h _ f (zlen (wire f))) by (by apply decode_wire || by apply Forall_app).
  by rewrite zdrop_app.
Qed.

Lemma stream_wires h fs rest :
  Forall encodable fs -> Forall (fun f => opcode f <> Close) fs -> all_bytes rest ->
  stream h (concat (map wire fs) ++ rest) =
  let '(ev, r) := stream h rest in (concat (map (reply h) fs) ++ ev, r).
Proof.
  intros Hf Hc Hr. induction Hf as [|f fs Hf Hfs IH]; simpl.
  { by destruct (stream h rest). }
  apply Forall_cons in Hc as [Hc Hcs].
  assert (all_bytes (concat (map wire fs) ++ rest)).
  { apply Forall_app. split; [|done]. apply Forall_concat, Forall_map.
    eapply Forall_impl; [exact Hfs|]. apply wire_bytes. }
  rewrite <- app_assoc, stream_wire, IH by done. rewrite bool_decide_eq_false_2 by done.
  destruct (stream h rest). by rewrite app_assoc.
Qed.

(** The loop answers exactly the frames the peer sent, in order: each Ping
    with a Pong, each data frame with one callback carrying that frame, and the
    first Close with its echo, after which nothing more happens. *)
Theorem run_frames h fs c junk reads :
  Forall encodable fs -> Forall (fun f => opcode f <> Close) fs ->
  encodable c -> opcode c = Close -> all_bytes junk ->
  Forall (fun c => c <> []) reads -> Forall all_bytes reads ->
  (concat reads = concat (map wire fs) -> run h reads [] = concat (map (reply h) fs)) /\
  (concat reads = concat (map wire fs) ++ wire c ++ junk ->
   run h reads [] = concat (map (reply h) fs) ++ reply h c).
Proof.
  intros Hfs Hnc Hc Hcl Hj Hne Hb.
  assert (stream h [] = ([], Some [])) as Hnil by done.
  split; intros Heq; rewrite run_stream, Heq by done; cbn [app].
  - rewrite <- (app_nil_r (concat (map wire fs))), stream_wires, Hnil by done.
    cbn. apply app_nil_r.
  - rewrite stream_wires, stream_wire by
      (first [done | apply Forall_app; split; [by apply wire_bytes|done]]).
    by rewrite bool_decide_eq_true_2.
Qed.

(** A frame announcing more than 16 MiB is refused by [decode_frame], but the
    loop takes the refusal for an incomplete frame: it neither answers nor closes,
    whatever arrives next. *)
Theorem run_oversized_silent h b reads rest :
  decode_frame b = (Err message_size, 0) -> all_bytes b ->
  Forall (fun c => c <> []) reads -> Forall all_bytes reads ->
  concat reads = b ++ rest -> run h reads [] = [].
Proof.
  intros Hd Hb Hne Hr Heq. rewrite run_stream, Heq by done. cbn [app].
  by rewrite (stream_err h _ message_size 0) by by apply decode_frame_app_size.
Qed.

(** ** The handshake digest *)

Lemma zlen_sha1 input : zlen (sha1 input) = 20.
Proof. unfold sha1. by rewrite (zlen_concat_map _ 4). Qed.

Lemma sha1_bytes input : all_bytes (sha1 input).
Proof.
  apply Forall_concat, Forall_map, Forall_forall. intros i _.
  solve_bytes; by apply wrap_range.
Qed.

(** The padding loop stops within its bound at a multiple of the block size. *)
Lemma pad_zeros_spec fuel msg :
  (56 - zlen msg) mod 64 < Z.of_nat fuel ->
  zlen (pad_zeros fuel msg) mod 64 = 56 /\ exists n, pad_zeros fuel msg = msg ++ replicate n 0.
Proof.
  revert msg. induction fuel as [|fuel IH]; intros msg Hf; cbn [pad_zeros].
  { Z.div_mod_to_equations. lia. }
  destruct (Z.eqb_spec (zlen msg mod 64) 56) as [E|E].
  { split; [done|]. exists 0%nat. by rewrite app_nil_r. }
  destruct (IH (msg ++ [0])) as [H1 [n H2]].
  - autorewrite with zlist. Z.div_mod_to_equations. lia.
  - split; [done|]. exists (S n). by rewrite H2, <- app_assoc.
Qed.

Lemma sha1_pad_spec input :
  zlen (sha1_pad input) mod 64 = 0 /\
  exists n, sha1_pad input = input ++ 0x80 :: replicate n 0 ++ be_bytes 8 (u64 (zlen input * 8)).
Proof.
  unfold sha1_pad. destruct (pad_zeros_spec 64 (input ++ [128])) as [H1 [n H2]].
  { Z.div_mod_to_equations. lia. }
  split.
  - rewrite zlen_app, zlen_map. change (zlen [7; 6; 5; 4; 3; 2; 1; 0]) with 8.
    Z.div_mod_to_equations. lia.
  - exists n. rewrite H2, <- !app_assoc. do 3 f_equal. cbn [map be_bytes]. by rewrite !u8_land_255.
Qed.

Lemma bytes_20 (d : bytes) : zlen d = 20 -> exists x0 x1 x2 x3 x4 x5 x6 x7 x8 x9 x10 x11 x12 x13
  x14 x15 x16 x17 x18 x19, d = [x0; x1; x2; x3; x4; x5; x6; x7; x8; x9; x10; x11; x12; x13;
  x14; x15; x16; x17; x18; x19].
Proof.
  unfold zlen. intros. do 20 (destruct d as [|? d]; [simpl in *; lia|]).
  destruct d; [|simpl in *; lia]. by repeat eexists.
Qed.

(** The handshake key is the Base64 text, as the crypto module would encode
    and decode it, of the SHA-1 digest of the client key and the RFC 6455 GUID; it
    is 28 characters, and the message hashed is padded to whole 64-byte blocks. *)
Theorem compute_accept_key_spec key :
  let digest := sha1 (key ++ kMagic) in
  compute_accept_key key = base64_encode false digest /\
  base64_decode (compute_accept_key key) = Ok digest /\
  zlen (compute_accept_key key) = 28 /\
  zlen (sha1_pad (key ++ kMagic)) mod 64 = 0.
Proof.
  intros digest. pose proof (sha1_bytes (key ++ kMagic)) as Hb.
  pose proof (zlen_sha1 (key ++ kMagic)) as Hz. fold digest in Hb, Hz.
  assert (compute_accept_key key = base64_encode false digest) as Heq.
  { rewrite base64_encode_eq by done. unfold encoded.
    rewrite <- encode_scalar_eq, Hz by done.
    unfold compute_accept_key. fold digest.
    clearbody digest. clear Hb. destruct (bytes_20 digest Hz) as (x0 & x1 & x2 & x3 & x4 & x5 & x6 & x7 & x8 & x9
      & x10 & x11 & x12 & x13 & x14 & x15 & x16 & x17 & x18 & x19 & ->).
    reflexivity. }
  rewrite Heq. split_and!; [reflexivity| | |exact (proj1 (sha1_pad_spec _))].
  - by apply base64_decode_encode.
  - by rewrite zlen_base64_encode, Hz.
Qed.

(** ** Witnesses *)

Definition ping_ex : WsFrame := mkWsFrame Ping true false false false true [].
Definition close_ex : WsFrame := mkWsFrame Close true false false false true [3; 232].

Lemma run_segmentation_witness :
  run true [wire hello; wire ping_ex] [] = run true [wire hello ++ [0x89]; zdrop 1 (wire ping_ex)] [].
Proof.
  refine (run_segmentation true _ _ _ _ _ _ eq_refl); vm_compute; repeat constructor; discriminate.
Defined.

Lemma run_frames_witness :
  run true [wire hello; wire ping_ex ++ wire close_ex ++ [1; 2; 3]] [] =
  [OnMessage hello; WriteAll [0x8A; 0]; WriteAll [0x88; 2; 3; 232]].
Proof.
  refine (proj2 (run_frames true [hello; ping_ex] close_ex [1; 2; 3]
    [wire hello; wire ping_ex ++ wire close_ex ++ [1; 2; 3]] _ _ _ eq_refl _ _ _) eq_refl).
  all: vm_compute; repeat constructor; discriminate.
Defined.

Lemma run_oversized_silent_witness :
  run true [[0x82; 0x7F; 0; 0; 0; 0; 1; 0; 0; 1]; [0x89; 0]] [] = [].
Proof.
  refine (run_oversized_silent true [0x82; 0x7F; 0; 0; 0; 0; 1; 0; 0; 1]
    [[0x82; 0x7F; 0; 0; 0; 0; 1; 0; 0; 1]; [0x89; 0]] [0x89; 0] eq_refl _ _ _ eq_refl);
    vm_compute; repeat constructor; discriminate.
Defined.
