(* ===== verification/WsUtf8.v ===== *)
(** * UTF-8 validation: [ws_is_valid_utf8] of [server/ws_server.hpp]

    The validator and its specification: a byte string is accepted exactly when it
    is the concatenation of the RFC 3629 encodings of Unicode scalar values. *)

From S2P Require Import Prelude.

(** ** The validator *)

(** [for (k = 1; k <= extra; ++k)]: the code point accumulated over the
    continuation bytes and the bytes after them. *)
Fixpoint continuation (extra : nat) (cp : Z) (s : bytes) : option (Z * bytes) :=
  match extra with
  | O => Some (cp, s)
  | S extra =>
      match s with
      | [] => None
      | cc :: s =>
          if negb ((cc .& 0xC0) =? 0x80) then None
          else continuation extra (u32 (cp << 6) .| (cc .& 0x3F)) s
      end
  end.

(** The lead byte: the number of continuation bytes and the first bits. *)
Definition lead_byte (c : Z) : option (nat * Z) :=
  if (c .& 0xE0) =? 0xC0 then
    if c <? 0xC2 then None else Some (1%nat, c .& 0x1F)
  else if (c .& 0xF0) =? 0xE0 then Some (2%nat, c .& 0x0F)
  else if (c .& 0xF8) =? 0xF0 then
    if 0xF4 <? c then None else Some (3%nat, c .& 0x07)
  else None.

(** The loop, on the bytes from index [i] on; each turn consumes at least one
    byte, so [length s] turns are enough. *)
Fixpoint utf8_loop (fuel : nat) (s : bytes) : bool :=
  match fuel, s with
  | _, [] => true
  | O, _ => false
  | S fuel, c :: rest =>
      if c <? 0x80 then utf8_loop fuel rest else
      match lead_byte c with
      | None => false
      | Some (extra, cp) =>
          if (length rest <? extra)%nat then false else
          match continuation extra cp rest with
          | None => false
          | Some (cp, rest) =>
              if (extra =? 2)%nat && (cp <? 0x800) then false else
              if (extra =? 3)%nat && (cp <? 0x10000) then false else
              if (0xD800 <=? cp) && (cp <=? 0xDFFF) then false else
              if 0x10FFFF <? cp then false else
              utf8_loop fuel rest
          end
      end
  end.

Definition ws_is_valid_utf8 (s : bytes) : bool := utf8_loop (length s) s.

(** ** RFC 3629 *)

Definition scalar_value (cp : Z) : Prop :=
  0 <= cp <= 0x10FFFF /\ ~ (0xD800 <= cp <= 0xDFFF).

Definition utf8_encode (cp : Z) : bytes :=
  if cp <? 0x80 then [cp]
  else if cp <? 0x800 then [0xC0 + cp / 64; 0x80 + cp mod 64]
  else if cp <? 0x10000 then [0xE0 + cp / 4096; 0x80 + cp / 64 mod 64; 0x80 + cp mod 64]
  else [0xF0 + cp / 262144; 0x80 + cp / 4096 mod 64; 0x80 + cp / 64 mod 64; 0x80 + cp mod 64].

(** ** Byte classes *)

Lemma lead_byte_spec c :
  0 <= c < 256 ->
  lead_byte c =
  if (194 <=? c) && (c <? 224) then Some (1%nat, c - 192)
  else if (224 <=? c) && (c <? 240) then Some (2%nat, c - 224)
  else if (240 <=? c) && (c <? 245) then Some (3%nat, c - 240)
  else None.
Proof. intros Hc. by_range c Hc. Qed.

Lemma continuation_byte c :
  0 <= c < 256 ->
  ((c .& 0xC0) =? 0x80) = (128 <=? c) && (c <? 192) /\ c .& 0x3F = c mod 64.
Proof. intros Hc. by_range c Hc. Qed.

Lemma continuation_step cp cc :
  0 <= cp < 2 ^ 26 -> u32 (cp << 6) .| (cc mod 64) = cp * 64 + cc mod 64.
Proof.
  intros Hcp. rewrite Z.shiftl_mul_pow2 by lia. change (2 ^ 26) with 67108864 in *.
  change (2 ^ 6) with 64. rewrite wrap_small by rlia.
  pose proof (lor_shiftl_add 6 cp (cc mod 64) ltac:(lia)) as E.
  rewrite Z.shiftl_mul_pow2 in E by lia. apply E. unfold in_range. simpl. Z.div_mod_to_equations. lia.
Qed.

Lemma continuation_cons extra cp cc s :
  0 <= cp < 2 ^ 26 -> is_byte cc ->
  continuation (S extra) cp (cc :: s) =
  if (128 <=? cc) && (cc <? 192) then continuation extra (cp * 64 + (cc - 128)) s else None.
Proof.
  intros Hcp Hc. cbn [continuation].
  destruct (continuation_byte cc) as [-> ->]; [rlia|].
  destruct (Z.leb_spec 128 cc); [|done]. destruct (Z.ltb_spec cc 192); [|done].
  cbn [andb negb]. rewrite continuation_step by done. do 2 f_equal. Z.div_mod_to_equations. lia.
Qed.

(** ** One turn of the loop is one code point *)

Lemma loop_encode fuel cp rest :
  scalar_value cp -> all_bytes rest ->
  utf8_loop (S fuel) (utf8_encode cp ++ rest) = utf8_loop fuel rest.
Proof.
  intros [Hcp Hsur] Hr. unfold utf8_encode.
  destruct (Z.ltb_spec cp 0x80); [|destruct (Z.ltb_spec cp 0x800);
    [|destruct (Z.ltb_spec cp 0x10000)]]; cbn [app utf8_loop].
  - zbool. done.
  - assert (2 <= cp / 64 < 32) by (Z.div_mod_to_equations; lia).
    assert (0 <= cp mod 64 < 64) by (Z.div_mod_to_equations; lia).
    zbool. rewrite lead_byte_spec by lia. zbool. cbn [andb length Nat.ltb Nat.leb].
    rewrite continuation_cons by rlia. zbool. cbn [andb continuation Nat.eqb].
    replace ((192 + cp / 64 - 192) * 64 + (128 + cp mod 64 - 128)) with cp
      by (Z.div_mod_to_equations; lia).
    destruct (Z.leb_spec 0xD800 cp); [lia|]. zbool. done.
  - assert (0 <= cp / 4096 < 16) by (Z.div_mod_to_equations; lia).
    assert (0 <= cp mod 64 < 64) by (Z.div_mod_to_equations; lia).
    assert (0 <= cp / 64 mod 64 < 64) by (Z.div_mod_to_equations; lia).
    zbool. rewrite lead_byte_spec by lia. zbool. cbn [andb length Nat.ltb Nat.leb].
    rewrite !continuation_cons by rlia. zbool. cbn [andb continuation Nat.eqb].
    replace (_ * 64 + _) with cp by (Z.div_mod_to_equations; lia).
    zbool. destruct (Z.leb_spec 0xD800 cp); destruct (Z.leb_spec cp 0xDFFF); try lia; done.
  - assert (0 <= cp / 262144 < 5) by (Z.div_mod_to_equations; lia).
    assert (0 <= cp mod 64 < 64) by (Z.div_mod_to_equations; lia).
    assert (0 <= cp / 64 mod 64 < 64) by (Z.div_mod_to_equations; lia).
    assert (0 <= cp / 4096 mod 64 < 64) by (Z.div_mod_to_equations; lia).
    zbool. rewrite lead_byte_spec by lia. zbool. cbn [andb length Nat.ltb Nat.leb].
    rewrite !continuation_cons by rlia. zbool. cbn [andb continuation Nat.eqb].
    replace (_ * 64 + _) with cp by (Z.div_mod_to_equations; lia).
    zbool. done.
Qed.

Lemma continuation_inv extra cp s cp' rest :
  (extra <= 3)%nat -> 0 <= cp < 32 -> all_bytes s ->
  continuation extra cp s = Some (cp', rest) ->
  match extra with
  | 0%nat => cp' = cp /\ rest = s
  | 1%nat => exists a, s = a :: rest /\ 128 <= a < 192 /\ cp' = cp * 64 + (a - 128)
  | 2%nat => exists a b, s = a :: b :: rest /\ 128 <= a < 192 /\ 128 <= b < 192 /\
      cp' = (cp * 64 + (a - 128)) * 64 + (b - 128)
  | _ => exists a b c, s = a :: b :: c :: rest /\ 128 <= a < 192 /\ 128 <= b < 192 /\
      128 <= c < 192 /\ cp' = ((cp * 64 + (a - 128)) * 64 + (b - 128)) * 64 + (c - 128)
  end.
Proof.
  assert (forall extra cp s cp' rest, 0 <= cp < 2 ^ 26 -> all_bytes s ->
    continuation (S extra) cp s = Some (cp', rest) ->
    exists a s', s = a :: s' /\ all_bytes s' /\ 128 <= a < 192 /\
      continuation extra (cp * 64 + (a - 128)) s' = Some (cp', rest)) as Hstep.
  { clear. intros extra cp [|a s] cp' rest Hcp Hs H; [done|]. split_bytes.
    rewrite continuation_cons in H by done.
    destruct (Z.leb_spec 128 a); [|done]. destruct (Z.ltb_spec a 192); [|done].
    exists a, s. auto. }
  change (2 ^ 26) with 67108864 in Hstep.
  intros He Hcp Hs H. destruct extra as [|[|[|[|]]]]; [simpl in H; by simplify_eq| | | |lia].
  - apply Hstep in H as (a & s' & -> & ? & ? & H); [|lia|done]. simpl in H. simplify_eq. eauto.
  - apply Hstep in H as (a & s' & -> & ? & ? & H); [|lia|done].
    apply Hstep in H as (b & s'' & -> & ? & ? & H); [|lia|done]. simpl in H. simplify_eq. eauto 8.
  - apply Hstep in H as (a & s' & -> & ? & ? & H); [|lia|done].
    apply Hstep in H as (b & s'' & -> & ? & ? & H); [|lia|done].
    apply Hstep in H as (c & s3 & -> & ? & ? & H); [|lia|done]. simpl in H. simplify_eq. eauto 10.
Qed.

Lemma loop_inv fuel c s :
  all_bytes (c :: s) -> utf8_loop (S fuel) (c :: s) = true ->
  exists cp rest, scalar_value cp /\ c :: s = utf8_encode cp ++ rest /\ utf8_loop fuel rest = true.
Proof.
  intros Hb H. split_bytes. cbn [utf8_loop] in H. unfold scalar_value, utf8_encode.
  destruct (Z.ltb_spec c 0x80).
  { exists c, s. zbool. split; [rlia|done]. }
  rewrite lead_byte_spec in H by rlia.
  destruct ((194 <=? c) && (c <? 224)) eqn:E1; [|destruct ((224 <=? c) && (c <? 240)) eqn:E2;
    [|destruct ((240 <=? c) && (c <? 245)) eqn:E3; [|done]]];
    (destruct (_ <? _)%nat; [done|]);
    (destruct (continuation _ _ _) as [[cp rest]|] eqn:Hc; [|done]);
    (apply continuation_inv in Hc; [|lia|lia|done]); cbn [Nat.eqb andb] in H.
  - destruct Hc as (a & -> & ? & ->). exists ((c - 192) * 64 + (a - 128)), rest.
    repeat (case_match; [done|]).
    zbool. split; [lia|]. split; [|done]. cbn [app]. do 2 f_equal; Z.div_mod_to_equations; lia.
  - destruct Hc as (a & b & -> & ? & ? & ->). set (cp := _ * 64 + _) in *. exists cp, rest.
    repeat (case_match; [done|]). unfold cp in *.
    zbool. split; [lia|]. split; [|done]. cbn [app]. do 3 f_equal; Z.div_mod_to_equations; lia.
  - destruct Hc as (a & b & d & -> & ? & ? & ? & ->). set (cp := _ * 64 + _) in *. exists cp, rest.
    repeat (case_match; [done|]). unfold cp in *.
    zbool. split; [lia|]. split; [|done]. cbn [app]. do 4 f_equal; Z.div_mod_to_equations; lia.
Qed.

Lemma utf8_encode_length cp : (1 <= length (utf8_encode cp))%nat.
Proof. unfold utf8_encode. repeat case_match; simpl; lia. Qed.

Lemma utf8_encode_bytes cp : scalar_value cp -> all_bytes (utf8_encode cp).
Proof.
  intros [Hcp _]. unfold utf8_encode.
  repeat (case_match; rewrite ?Z.ltb_lt, ?Z.ltb_ge in *);
    repeat (apply Forall_cons; split); try apply Forall_nil; try done;
    unfold in_range; change (2 ^ 8) with 256; Z.div_mod_to_equations; lia.
Qed.

(** An accepted string stays accepted with any sufficient number of turns. *)
Lemma loop_fuel n m s :
  all_bytes s -> utf8_loop n s = true -> (length s <= m)%nat -> utf8_loop m s = true.
Proof.
  revert m s. induction n as [|n IH]; intros m s Hs H Hm.
  { destruct s; [by destruct m|done]. }
  destruct s as [|c s]; [by destruct m|].
  apply loop_inv in H as (cp & rest & Hcp & Heq & H); [|done].
  rewrite Heq in Hs, Hm |- *. apply Forall_app in Hs as [_ Hr].
  rewrite length_app in Hm. pose proof (utf8_encode_length cp).
  destruct m as [|m]; [lia|]. rewrite loop_encode by done. apply IH; [done..|lia].
Qed.

(** [ws_is_valid_utf8] accepts exactly the well-formed UTF-8 strings: those
    that concatenate the RFC 3629 encodings of Unicode scalar values.  Overlong
    forms, surrogates, values above U+10FFFF and truncated sequences have no such
    decomposition. *)
Theorem ws_is_valid_utf8_correct s :
  all_bytes s ->
  ws_is_valid_utf8 s = true <->
  exists cps, Forall scalar_value cps /\ s = concat (map utf8_encode cps).
Proof.
  intros Hs. unfold ws_is_valid_utf8. split.
  - generalize (length s) as n. intros n. revert s Hs.
    induction n as [|n IH]; intros [|c s] Hs H; try (by exists []); try done.
    apply loop_inv in H as (cp & rest & Hcp & Heq & H); [|done].
    rewrite Heq in Hs |- *. apply Forall_app in Hs as [_ Hr].
    destruct (IH rest Hr H) as (cps & Hcps & ->). exists (cp :: cps). auto.
  - intros (cps & Hcps & ->). apply (loop_fuel (length cps)); [done| |done]. clear Hs.
    induction Hcps as [|cp cps Hcp Hcps IH]; [done|]. cbn [map concat length].
    rewrite loop_encode; [done|done|]. apply Forall_concat, Forall_map.
    eapply Forall_impl; [exact Hcps|]. apply utf8_encode_bytes.
Qed.

Lemma ws_is_valid_utf8_correct_witness :
  ws_is_valid_utf8 [0xE2; 0x82; 0xAC; 0x24] = true.
Proof.
  apply (ws_is_valid_utf8_correct [0xE2; 0x82; 0xAC; 0x24]).
  - vm_compute; repeat constructor; discriminate.
  - exists [0x20AC; 0x24]. split; [|reflexivity].
    repeat constructor; (discriminate || (intros [? ?]; lia)).
Defined.
