(* ===== verification/WsConnection.v ===== *)
(** * One live WebSocket connection: [WsConnection] of [server/ws_server.hpp]

    The reactor-driven state machine of a connection: the read path (frame
    decoding, protocol checks, fragment reassembly, UTF-8 validation, delivery),
    the buffered write path with back-pressure, the heartbeat and the close
    handshake.

    A [world] is the connection object, the outcomes the kernel and the reactor
    will give to the calls to come, the timers the reactor holds for the connection,
    and the log of what the connection did.  Each
    method is a function on worlds.  The application's [on_message] callback is a
    parameter: the list of calls it makes on the connection it was given; the
    [on_error] and [on_close] callbacks are taken to make none. *)

From S2P Require Import Prelude WsFrame WsUtf8.

(** ** Data *)

(** [WsCloseCode], by value. *)
Abbreviation Normal := (1000)%Z (only parsing).
Abbreviation GoingAway := (1001)%Z (only parsing).
Abbreviation ProtocolError := (1002)%Z (only parsing).
Abbreviation InvalidPayload := (1007)%Z (only parsing).
Abbreviation MessageTooBig := (1009)%Z (only parsing).
Abbreviation TryAgainLater := (1013)%Z (only parsing).
Abbreviation kWsAbnormalClosure := (1006)%Z (only parsing).

Record WsServerConfig := {
  max_message_size : Z;
  max_send_queue : Z;
  ping_interval_ms : Z;
  pong_timeout_ms : Z;
  validate_utf8 : bool;
}.

(** What a call into the kernel returns.  [Accept k]: as much as possible up to
    [k] bytes was taken, so [write] returns [min k len].  The [errno] reported for
    an end of file, or for a [write] that took nothing, is 0. *)
Inductive write_result :=
  | Accept (k : nat)
  | WouldBlock
  | WriteError (e : Z).

Inductive read_result :=
  | ReadBytes (bs : bytes)
  | ReadEof
  | ReadAgain
  | ReadError (e : Z).

(** What the connection does.  [Accepted] and [Handshake] are ghost marks: the
    frame or response was taken over for sending. *)
Inductive effect :=
  | Handshake (bs : bytes)
  | Accepted (op : Opcode) (payload : bytes)
  | Sent (bs : bytes)
  | Deliver (is_text : bool) (data : bytes)
  | DispatchError (e : errc)
  | DispatchClose (code : Z)
  | Deregister.

(** The two timers a connection registers with the reactor. *)
Inductive timer := PingTimer | PongTimer.

Record world := mkWorld {
  open_ : bool;
  closing_ : bool;
  finished_ : bool;
  read_armed_ : bool;
  write_armed_ : bool;
  awaiting_pong_ : bool;
  close_code_ : Z;
  ping_timer_id_ : Z;
  pong_timer_id_ : Z;
  rbuf_ : bytes;
  assembly_ : bytes;
  frag_opcode_ : Z;
  sbuf_ : bytes;
  ssent_ : Z;
  writes : list write_result;
  timers : list (option Z);
  registered : list (Z * timer);
  log : list effect;
}.

(** Field updates. *)
Definition set_open b w := mkWorld b (closing_ w) (finished_ w) (read_armed_ w) (write_armed_ w) (awaiting_pong_ w) (close_code_ w) (ping_timer_id_ w) (pong_timer_id_ w) (rbuf_ w) (assembly_ w) (frag_opcode_ w) (sbuf_ w) (ssent_ w) (writes w) (timers w) (registered w) (log w).
Definition set_closing b w := mkWorld (open_ w) b (finished_ w) (read_armed_ w) (write_armed_ w) (awaiting_pong_ w) (close_code_ w) (ping_timer_id_ w) (pong_timer_id_ w) (rbuf_ w) (assembly_ w) (frag_opcode_ w) (sbuf_ w) (ssent_ w) (writes w) (timers w) (registered w) (log w).
Definition set_finished b w := mkWorld (open_ w) (closing_ w) b (read_armed_ w) (write_armed_ w) (awaiting_pong_ w) (close_code_ w) (ping_timer_id_ w) (pong_timer_id_ w) (rbuf_ w) (assembly_ w) (frag_opcode_ w) (sbuf_ w) (ssent_ w) (writes w) (timers w) (registered w) (log w).
Definition set_read_armed b w := mkWorld (open_ w) (closing_ w) (finished_ w) b (write_armed_ w) (awaiting_pong_ w) (close_code_ w) (ping_timer_id_ w) (pong_timer_id_ w) (rbuf_ w) (assembly_ w) (frag_opcode_ w) (sbuf_ w) (ssent_ w) (writes w) (timers w) (registered w) (log w).
Definition set_write_armed b w := mkWorld (open_ w) (closing_ w) (finished_ w) (read_armed_ w) b (awaiting_pong_ w) (close_code_ w) (ping_timer_id_ w) (pong_timer_id_ w) (rbuf_ w) (assembly_ w) (frag_opcode_ w) (sbuf_ w) (ssent_ w) (writes w) (timers w) (registered w) (log w).
Definition set_awaiting_pong b w := mkWorld (open_ w) (closing_ w) (finished_ w) (read_armed_ w) (write_armed_ w) b (close_code_ w) (ping_timer_id_ w) (pong_timer_id_ w) (rbuf_ w) (assembly_ w) (frag_opcode_ w) (sbuf_ w) (ssent_ w) (writes w) (timers w) (registered w) (log w).
Definition set_close_code z w := mkWorld (open_ w) (closing_ w) (finished_ w) (read_armed_ w) (write_armed_ w) (awaiting_pong_ w) z (ping_timer_id_ w) (pong_timer_id_ w) (rbuf_ w) (assembly_ w) (frag_opcode_ w) (sbuf_ w) (ssent_ w) (writes w) (timers w) (registered w) (log w).
Definition set_ping_timer z w := mkWorld (open_ w) (closing_ w) (finished_ w) (read_armed_ w) (write_armed_ w) (awaiting_pong_ w) (close_code_ w) z (pong_timer_id_ w) (rbuf_ w) (assembly_ w) (frag_opcode_ w) (sbuf_ w) (ssent_ w) (writes w) (timers w) (registered w) (log w).
Definition set_pong_timer z w := mkWorld (open_ w) (closing_ w) (finished_ w) (read_armed_ w) (write_armed_ w) (awaiting_pong_ w) (close_code_ w) (ping_timer_id_ w) z (rbuf_ w) (assembly_ w) (frag_opcode_ w) (sbuf_ w) (ssent_ w) (writes w) (timers w) (registered w) (log w).
Definition set_rbuf l w := mkWorld (open_ w) (closing_ w) (finished_ w) (read_armed_ w) (write_armed_ w) (awaiting_pong_ w) (close_code_ w) (ping_timer_id_ w) (pong_timer_id_ w) l (assembly_ w) (frag_opcode_ w) (sbuf_ w) (ssent_ w) (writes w) (timers w) (registered w) (log w).
Definition set_assembly l z w := mkWorld (open_ w) (closing_ w) (finished_ w) (read_armed_ w) (write_armed_ w) (awaiting_pong_ w) (close_code_ w) (ping_timer_id_ w) (pong_timer_id_ w) (rbuf_ w) l z (sbuf_ w) (ssent_ w) (writes w) (timers w) (registered w) (log w).
Definition set_sbuf l z w := mkWorld (open_ w) (closing_ w) (finished_ w) (read_armed_ w) (write_armed_ w) (awaiting_pong_ w) (close_code_ w) (ping_timer_id_ w) (pong_timer_id_ w) (rbuf_ w) (assembly_ w) (frag_opcode_ w) l z (writes w) (timers w) (registered w) (log w).
Definition set_writes l w := mkWorld (open_ w) (closing_ w) (finished_ w) (read_armed_ w) (write_armed_ w) (awaiting_pong_ w) (close_code_ w) (ping_timer_id_ w) (pong_timer_id_ w) (rbuf_ w) (assembly_ w) (frag_opcode_ w) (sbuf_ w) (ssent_ w) l (timers w) (registered w) (log w).
Definition set_timers l w := mkWorld (open_ w) (closing_ w) (finished_ w) (read_armed_ w) (write_armed_ w) (awaiting_pong_ w) (close_code_ w) (ping_timer_id_ w) (pong_timer_id_ w) (rbuf_ w) (assembly_ w) (frag_opcode_ w) (sbuf_ w) (ssent_ w) (writes w) l (registered w) (log w).
Definition set_registered l w := mkWorld (open_ w) (closing_ w) (finished_ w) (read_armed_ w) (write_armed_ w) (awaiting_pong_ w) (close_code_ w) (ping_timer_id_ w) (pong_timer_id_ w) (rbuf_ w) (assembly_ w) (frag_opcode_ w) (sbuf_ w) (ssent_ w) (writes w) (timers w) l (log w).
Definition emit e w := mkWorld (open_ w) (closing_ w) (finished_ w) (read_armed_ w) (write_armed_ w) (awaiting_pong_ w) (close_code_ w) (ping_timer_id_ w) (pong_timer_id_ w) (rbuf_ w) (assembly_ w) (frag_opcode_ w) (sbuf_ w) (ssent_ w) (writes w) (timers w) (registered w) (log w ++ [e]).

(** The next outcome of [write]/[writev]. *)
Definition next_write (w : world) : write_result * world :=
  match writes w with
  | r :: rs => (r, set_writes rs w)
  | [] => (WouldBlock, w)
  end.

(** The reactor's timers: the next outcome of [register_timer]; [unregister_timer] of an
    identifier other than -1; and a timer that fires, which is unregistered before its
    callback runs. *)
Definition register_timer (k : timer) (w : world) : option Z * world :=
  match timers w with
  | Some id :: rs => (Some id, set_registered ((id, k) :: registered w) (set_timers rs w))
  | None :: rs => (None, set_timers rs w)
  | [] => (None, w)
  end.

Definition drop_timer (id : Z) (l : list (Z * timer)) : list (Z * timer) := List.filter (fun t => negb (fst t =? id)) l.

Definition unregister_timer (id : Z) (w : world) : world :=
  set_registered (if id =? -1 then registered w else drop_timer id (registered w)) w.

Definition fired (id : Z) (w : world) : world := set_registered (drop_timer id (registered w)) w.

(** What the application asks of a connection. *)
Inductive command :=
  | CmdSendText (text : bytes)
  | CmdSendBinary (data : bytes)
  | CmdClose (code : Z) (reason : bytes).

#[local] Arguments encode_header : simpl never.
#[local] Arguments decode_frame : simpl never.

Section Connection.
Context (cfg : WsServerConfig).
Context (on_message : bool -> bytes -> list command).

(** ** Teardown and the write path *)

(** Terminal; every registration is dropped, [on_close] fires. *)
Definition finish_close (code : Z) (w : world) : world :=
  if finished_ w then w else
  let w := set_open false (set_closing true (set_finished true w)) in
  let w := set_write_armed false (set_read_armed false w) in
  let w := set_ping_timer (-1) (unregister_timer (ping_timer_id_ w) w) in
  let w := set_pong_timer (-1) (unregister_timer (pong_timer_id_ w) w) in
  emit Deregister (emit (DispatchClose code) w).

Definition report_error (e : errc) (w : world) : world := emit (DispatchError e) w.

Definition raw_append (p : bytes) (w : world) : world :=
  if zlen p =? 0 then w else set_sbuf (sbuf_ w ++ p) (ssent_ w) w.

Definition arm_write (w : world) : world :=
  if write_armed_ w || finished_ w then w else set_write_armed true w.

Definition buffer_tail (hdr payload : bytes) (sent : Z) (w : world) : world :=
  if sent <? zlen hdr then raw_append payload (raw_append (zdrop sent hdr) w)
  else raw_append (zdrop (sent - zlen hdr) payload) w.

Definition send_frame (op : Opcode) (payload : bytes) (w : world) : bool * world :=
  if finished_ w then (false, w) else
  let hdr := encode_header op (zlen payload) true false [] in
  let pending := zlen (sbuf_ w) - ssent_ w in
  let need := zlen hdr + zlen payload in
  if max_send_queue cfg <? pending + need then
    (false, finish_close TryAgainLater (report_error no_buffer_space w))
  else if (pending =? 0) && negb (write_armed_ w) then
    match next_write w with
    | (Accept k, w) =>
        let n := Z.min (Z.of_nat k) need in
        let w := emit (Sent (ztake n (hdr ++ payload))) (emit (Accepted op payload) w) in
        if n =? need then (true, w)
        else (true, arm_write (buffer_tail hdr payload n w))
    | (WouldBlock, w) =>
        let w := emit (Accepted op payload) w in
        (true, arm_write (raw_append payload (raw_append hdr w)))
    | (WriteError e, w) =>
        (false, finish_close kWsAbnormalClosure (report_error (errno_ e) w))
    end
  else
    let w := emit (Accepted op payload) w in
    let w := raw_append payload (raw_append hdr w) in
    (true, if write_armed_ w then w else arm_write w).

(** Graceful close: queue a Close frame, stop reading, finish once flushed. *)
Definition begin_close (code : Z) (reason : bytes) (w : world) : world :=
  if closing_ w || finished_ w then w else
  let w := set_close_code code (set_closing true w) in
  let w := set_read_armed false w in
  let payload := [(code >> 8) .& 0xFF; code .& 0xFF] ++ ztake 123 reason in
  let '(_, w) := send_frame Close payload w in
  if negb (finished_ w) && (zlen (sbuf_ w) =? ssent_ w) && negb (write_armed_ w)
  then finish_close code w else w.

(** [while (ssent_ < sbuf_.size())]: true when the buffer was drained.  Every
    turn that goes on advances [ssent_], so [length sbuf_] turns are enough. *)
Fixpoint flush (fuel : nat) (w : world) : bool * world :=
  match fuel with
  | O => (true, w)
  | S fuel =>
      if ssent_ w <? zlen (sbuf_ w) then
        match next_write w with
        | (Accept k, w) =>
            let n := Z.min (Z.of_nat k) (zlen (sbuf_ w) - ssent_ w) in
            if 0 <? n then
              let w := emit (Sent (ztake n (zdrop (ssent_ w) (sbuf_ w)))) w in
              flush fuel (set_sbuf (sbuf_ w) (ssent_ w + n) w)
            else (false, finish_close kWsAbnormalClosure (report_error (errno_ 0) w))
        | (WouldBlock, w) => (false, w)
        | (WriteError e, w) =>
            (false, finish_close kWsAbnormalClosure (report_error (errno_ e) w))
        end
      else (true, w)
  end.

Definition on_writable (w : world) : world :=
  if finished_ w then w else
  match flush (length (sbuf_ w)) w with
  | (false, w) => w
  | (true, w) =>
      let w := set_write_armed false (set_sbuf [] 0 w) in
      if closing_ w then finish_close (close_code_ w) w else w
  end.

(** ** The application's calls *)

Definition send_user (op : Opcode) (payload : bytes) (w : world) : bool * world :=
  if finished_ w || closing_ w then (false, w) else send_frame op payload w.

Definition exec (c : command) (w : world) : world :=
  match c with
  | CmdSendText text => snd (send_user Text text w)
  | CmdSendBinary data => snd (send_user Binary data w)
  | CmdClose code reason => begin_close code reason w
  end.

(** ** The read path *)

Definition deliver (data : bytes) (is_text : bool) (w : world) : bool * world :=
  if is_text && validate_utf8 cfg && negb (ws_is_valid_utf8 data) then
    (false, begin_close InvalidPayload [] w)
  else
    let w := emit (Deliver is_text data) w in
    let w := foldl (fun w c => exec c w) w (on_message is_text data) in
    (negb (closing_ w) && negb (finished_ w), w).

(** Fragmentation reassembly and message delivery. *)
Definition handle_data (frame : WsFrame) (w : world) : bool * world :=
  if bool_decide (opcode frame = Continuation) then
    if frag_opcode_ w =? 0 then (false, begin_close ProtocolError [] w) else
    if max_message_size cfg <? zlen (assembly_ w) + zlen (payload frame)
    then (false, begin_close MessageTooBig [] w) else
    let assembly := assembly_ w ++ payload frame in
    if fin frame then
      let is_text := frag_opcode_ w =? to_underlying Text in
      let '(ok, w) := deliver assembly is_text (set_assembly assembly 0 w) in
      (ok, set_assembly [] (frag_opcode_ w) w)
    else (true, set_assembly assembly (frag_opcode_ w) w)
  else if negb (frag_opcode_ w =? 0) then (false, begin_close ProtocolError [] w)
  else if max_message_size cfg <? zlen (payload frame)
  then (false, begin_close MessageTooBig [] w)
  else
    let is_text := bool_decide (opcode frame = Text) in
    if fin frame then deliver (payload frame) is_text w
    else (true, set_assembly (payload frame) (to_underlying (opcode frame)) w).

Definition on_pong (w : world) : world :=
  let w := set_awaiting_pong false w in
  if pong_timer_id_ w =? -1 then w else set_pong_timer (-1) (unregister_timer (pong_timer_id_ w) w).

(** Validate and act on one frame; false when teardown started. *)
Definition handle_frame (frame : WsFrame) (w : world) : bool * world :=
  if rsv1 frame || rsv2 frame || rsv3 frame then (false, begin_close ProtocolError [] w) else
  if negb (masked frame) then (false, begin_close ProtocolError [] w) else
  let op := opcode frame in
  let is_control := bool_decide (op = Close) || bool_decide (op = Ping) || bool_decide (op = Pong) in
  let is_data :=
    bool_decide (op = Continuation) || bool_decide (op = Text) || bool_decide (op = Binary) in
  if negb is_control && negb is_data then (false, begin_close ProtocolError [] w) else
  if is_control && (negb (fin frame) || (125 <? zlen (payload frame)))
  then (false, begin_close ProtocolError [] w) else
  match op with
  | Ping => let '(_, w) := send_frame Pong (payload frame) w in (negb (finished_ w), w)
  | Pong => (true, on_pong w)
  | Close =>
      let code := if 2 <=? zlen (payload frame)
                  then (at_ (payload frame) 0 << 8) .| at_ (payload frame) 1 else Normal in
      (false, begin_close code [] w)
  | _ => handle_data frame w
  end.

(** Decode and dispatch every complete frame of [rbuf_] from position [pos]; the
    buffer is compacted only when the loop ends for lack of bytes. *)
Fixpoint drain_frames (fuel : nat) (pos : Z) (w : world) : world :=
  match fuel with
  | O => w
  | S fuel =>
      match decode_frame (zdrop pos (rbuf_ w)) with
      | (Err e, _) =>
          if bool_decide (e = message_size) then begin_close MessageTooBig [] w
          else if 0 <? pos then set_rbuf (zdrop pos (rbuf_ w)) w else w
      | (Ok frame, consumed) =>
          let '(ok, w) := handle_frame frame w in
          if negb ok then w
          else if closing_ w || finished_ w then w
          else drain_frames fuel (pos + consumed) w
      end
  end.

Definition on_readable (r : read_result) (w : world) : world :=
  if closing_ w || finished_ w then w else
  match r with
  | ReadAgain => w
  | ReadEof => finish_close kWsAbnormalClosure (report_error (errno_ 0) w)
  | ReadError e => finish_close kWsAbnormalClosure (report_error (errno_ e) w)
  | ReadBytes bs =>
      let w := set_rbuf (rbuf_ w ++ bs) w in
      drain_frames (S (length (rbuf_ w))) 0 w
  end.

(** ** Heartbeat *)

Definition arm_ping (w : world) : world :=
  if finished_ w || closing_ w then w else
  if ping_interval_ms cfg <=? 0 then w else
  match register_timer PingTimer w with
  | (Some id, w) => set_ping_timer id w
  | (None, w) => w
  end.

Definition on_ping_tick (w : world) : world :=
  let w := set_ping_timer (-1) w in
  if finished_ w || closing_ w then w else
  let '(_, w) := send_frame Ping [] w in
  if finished_ w || closing_ w then w else
  let w := set_awaiting_pong true w in
  let w := match register_timer PongTimer w with
           | (Some id, w) => set_pong_timer id w
           | (None, w) => w
           end in
  arm_ping w.

Definition on_pong_timeout (w : world) : world :=
  let w := set_pong_timer (-1) w in
  if awaiting_pong_ w && negb (finished_ w) && negb (closing_ w)
  then finish_close GoingAway (report_error timed_out w) else w.

(** ** Setup *)

Definition arm_read (w : world) : world :=
  if read_armed_ w || finished_ w then w else set_read_armed true w.

Definition queue_handshake (response : bytes) (w : world) : world :=
  arm_write (raw_append response (emit (Handshake response) w)).

Definition start (w : world) : world := arm_ping (arm_read (set_open true w)).

(** A new connection object. *)
Definition fresh (ws : list write_result) (ts : list (option Z)) : world :=
  mkWorld false false false false false false Normal (-1) (-1) [] [] 0 [] 0 ws ts [] [].

(** ** Runs *)

(** What can happen to a connection: a reactor callback, that of a timer with its identifier,
    or an application call. *)
Inductive input :=
  | Readable (r : read_result)
  | Writable
  | PingTick (id : Z)
  | PongTimeout (id : Z)
  | Command (c : command).

Definition step (i : input) (w : world) : world :=
  match i with
  | Readable r => on_readable r w
  | Writable => on_writable w
  | PingTick id => on_ping_tick (fired id w)
  | PongTimeout id => on_pong_timeout (fired id w)
  | Command c => exec c w
  end.

(** The server hands the socket over: handshake queued, then started. *)
Definition serve (response : bytes) (ws : list write_result) (ts : list (option Z)) : world :=
  start (queue_handshake response (fresh ws ts)).

Definition history (response : bytes) (ws : list write_result) (ts : list (option Z))
    (is_ : list input) : world :=
  foldl (fun w i => step i w) (serve response ws ts) is_.

(** ** What a log says *)

(** The unmasked final frame a server sends, by the codec's [encode_frame]. *)
Definition frame_bytes (op : Opcode) (p : bytes) : bytes :=
  encode_frame (mkWsFrame op true false false false false p) false.

(** The bytes the kernel took, in order. *)
Definition sent_bytes (l : list effect) : bytes :=
  concat (omap (fun e => match e with Sent bs => Some bs | _ => None end) l).

(** The stream the peer is owed: the handshake and every accepted frame. *)
Definition owed_bytes (l : list effect) : bytes :=
  concat (omap (fun e => match e with
                         | Handshake bs => Some bs
                         | Accepted op p => Some (frame_bytes op p)
                         | _ => None
                         end) l).

Definition accepted (l : list effect) : list (Opcode * bytes) :=
  omap (fun e => match e with Accepted op p => Some (op, p) | _ => None end) l.

Definition closes (l : list effect) : list Z :=
  omap (fun e => match e with DispatchClose c => Some c | _ => None end) l.

(** A delivered message is within the size limit, and valid UTF-8 if text. *)
Definition delivery_ok (e : effect) : Prop :=
  match e with
  | Deliver is_text data =>
      zlen data <= max_message_size cfg /\
      (is_text = true -> validate_utf8 cfg = true -> ws_is_valid_utf8 data = true)
  | _ => True
  end.

Definition pending (w : world) : bytes := zdrop (ssent_ w) (sbuf_ w).

Definition no_close (l : list effect) : Prop := Forall (fun f => fst f <> Close) (accepted l).

(** ** The invariant *)

Section Invariant.
Context (limit : Z) (Hlimit : max_send_queue cfg <= limit).
Context (Hmax : 0 <= max_message_size cfg).

Record Inv (w : world) : Prop := {
  inv_ssent : 0 <= ssent_ w <= zlen (sbuf_ w);
  inv_idle : finished_ w = false -> write_armed_ w = false -> sbuf_ w = [] /\ ssent_ w = 0;
  inv_finished : finished_ w = true ->
    open_ w = false /\ closing_ w = true /\ read_armed_ w = false /\
    write_armed_ w = false /\ ping_timer_id_ w = -1 /\ pong_timer_id_ w = -1;
  inv_closing : closing_ w = true -> read_armed_ w = false;
  inv_closes : length (closes (log w)) = if finished_ w then 1%nat else 0%nat;
  inv_wire : if finished_ w then sent_bytes (log w) `prefix_of` owed_bytes (log w)
             else sent_bytes (log w) ++ pending w = owed_bytes (log w);
  inv_open : closing_ w = false -> no_close (log w);
  inv_last : forall a p b, accepted (log w) = a ++ (Close, p) :: b -> b = [];
  inv_queue : zlen (pending w) <= limit;
  inv_assembly : zlen (assembly_ w) <= max_message_size cfg;
  inv_deliver : Forall delivery_ok (log w);
}.

#[local] Arguments frame_bytes : simpl never.

(** *** Helper lemmas *)

Ltac log_simpl :=
  unfold no_close, closes, accepted, sent_bytes, owed_bytes in *; cbn;
  rewrite ?omap_app, ?concat_app; cbn; rewrite ?app_nil_r.

Lemma log_app l k :
  sent_bytes (l ++ k) = sent_bytes l ++ sent_bytes k /\
  owed_bytes (l ++ k) = owed_bytes l ++ owed_bytes k /\
  accepted (l ++ k) = accepted l ++ accepted k /\ closes (l ++ k) = closes l ++ closes k.
Proof. log_simpl. done. Qed.

Lemma frame_bytes_eq op p :
  0 <= to_underlying op < 16 ->
  encode_header op (zlen p) true false [] ++ p = frame_bytes op p.
Proof.
  intros Hop. unfold frame_bytes.
  rewrite encode_header_eq, encode_frame_eq by auto using zlen_nonneg.
  cbn. by rewrite app_nil_r.
Qed.

Lemma raw_append_eq p w : raw_append p w = set_sbuf (sbuf_ w ++ p) (ssent_ w) w.
Proof.
  unfold raw_append. destruct (Z.eqb_spec (zlen p) 0) as [H|]; [|done].
  destruct p; [|unfold zlen in H; simpl in H; lia].
  rewrite app_nil_r. by destruct w.
Qed.

Lemma buffer_tail_eq hdr p n w :
  0 <= n -> buffer_tail hdr p n w = set_sbuf (sbuf_ w ++ zdrop n (hdr ++ p)) (ssent_ w) w.
Proof.
  intros. unfold buffer_tail. rewrite !raw_append_eq. destruct (Z.ltb_spec n (zlen hdr)).
  - rewrite zdrop_app_le by lia. destruct w. cbn. by rewrite app_assoc.
  - rewrite <- (zdrop_app_ge n hdr p) by lia. done.
Qed.

Lemma Inv_quiet w w' :
  Inv w ->
  open_ w' = open_ w -> closing_ w' = closing_ w -> finished_ w' = finished_ w ->
  read_armed_ w' = read_armed_ w -> write_armed_ w' = write_armed_ w ->
  sbuf_ w' = sbuf_ w -> ssent_ w' = ssent_ w -> assembly_ w' = assembly_ w ->
  (finished_ w = true -> ping_timer_id_ w' = -1 /\ pong_timer_id_ w' = -1) ->
  log w' = log w -> Inv w'.
Proof.
  intros [] Ho Hc Hf Hr Hw Hs Hn Ha Ht Hl.
  constructor; unfold pending in *; rewrite ?Ho, ?Hc, ?Hf, ?Hr, ?Hw, ?Hs, ?Hn, ?Ha, ?Hl; auto.
  intros Hfin. specialize (inv_finished0 Hfin). specialize (Ht Hfin). tauto.
Qed.

Lemma Inv_writes l w : Inv w -> Inv (set_writes l w).
Proof.
  intros I. apply (Inv_quiet w); try done. intros Hf. apply (inv_finished _ I) in Hf. tauto.
Qed.

Lemma Inv_emit e w :
  match e with Deliver _ _ => delivery_ok e | DispatchError _ | Deregister => True | _ => False end ->
  Inv w -> Inv (emit e w).
Proof.
  intros He []. constructor; cbn; auto.
  - by destruct e; log_simpl.
  - unfold pending in *. cbn. by destruct e; log_simpl.
  - unfold no_close. by destruct e; log_simpl.
  - by destruct e; log_simpl.
  - apply Forall_app. split; [done|]. constructor; [|done]. by destruct e.
Qed.

Lemma Inv_finish_close code w : Inv w -> Inv (finish_close code w).
Proof.
  intros I. unfold finish_close. destruct (finished_ w) eqn:Hf; [done|].
  apply Inv_emit; [done|]. destruct I. rewrite Hf in *.
  constructor; cbn; log_simpl; try done; auto.
  - rewrite length_app. by rewrite inv_closes0.
  - by exists (pending w).
  - apply Forall_app. split; [done|]. by constructor.
Qed.

Lemma zlen_pending w : Inv w -> zlen (pending w) = zlen (sbuf_ w) - ssent_ w.
Proof. intros I. unfold pending. apply zlen_zdrop, (inv_ssent _ I). Qed.

Lemma last_close_snoc l f :
  Forall (fun g : Opcode * bytes => fst g <> Close) l ->
  forall a p b, l ++ [f] = a ++ (Close, p) :: b -> b = [].
Proof.
  intros Hl a p b E. destruct b as [|x b _] using rev_ind; [done|].
  rewrite app_comm_cons, app_assoc in E. apply app_inj_tail in E as [-> _].
  apply Forall_app in Hl as [_ Hl]. apply Forall_cons in Hl as [Hl _]. done.
Qed.

(** A frame is taken over: [n] of its bytes went out, the rest is queued. *)
Lemma Inv_accept op p n ss w w' :
  Inv w -> finished_ w = false -> no_close (log w) -> (closing_ w = false -> op <> Close) ->
  0 <= n <= zlen (frame_bytes op p) -> n = 0 \/ pending w = [] ->
  zlen (pending w) + zlen (frame_bytes op p) <= max_send_queue cfg ->
  log w' = log w ++ Accepted op p :: ss ->
  ss = [Sent (ztake n (frame_bytes op p))] \/ ss = [] /\ n = 0 ->
  sbuf_ w' = sbuf_ w ++ zdrop n (frame_bytes op p) -> ssent_ w' = ssent_ w ->
  write_armed_ w' = true \/ n = zlen (frame_bytes op p) /\ write_armed_ w' = write_armed_ w ->
  open_ w' = open_ w -> closing_ w' = closing_ w -> finished_ w' = finished_ w ->
  read_armed_ w' = read_armed_ w -> assembly_ w' = assembly_ w -> Inv w'.
Proof.
  intros I Hf Hnc Hop Hn Hp Hq Hl Hss Hs Hse Hwa Ho Hc Hf' Hr Ha.
  pose proof (zlen_pending _ I) as Hzp. destruct I.
  assert (pending w' = pending w ++ zdrop n (frame_bytes op p)) as Hpw.
  { unfold pending. rewrite Hs, Hse, zdrop_app_le by lia. done. }
  assert (sent_bytes ss = ztake n (frame_bytes op p)) as Hsent.
  { destruct Hss as [->|[-> ->]]; log_simpl; done. }
  assert (owed_bytes ss = [] /\ accepted ss = [] /\ closes ss = [] /\ Forall delivery_ok ss)
    as (Hs1 & Hs2 & Hs3 & Hs4).
  { destruct Hss as [->|[-> _]]; repeat constructor. }
  destruct (log_app (log w) ([Accepted op p] ++ ss)) as (A1 & A2 & A3 & A4).
  destruct (log_app [Accepted op p] ss) as (B1 & B2 & B3 & B4).
  change (Accepted op p :: ss) with ([Accepted op p] ++ ss) in *.
  rewrite Hsent in B1. rewrite Hs1 in B2. rewrite Hs2 in B3. rewrite Hs3 in B4.
  constructor; unfold no_close in *;
    rewrite ?Hf', ?Hf, ?Hc, ?Hr, ?Ha, ?Hl, ?Hpw, ?A1, ?A2, ?A3, ?A4, ?B1, ?B2, ?B3, ?B4; try done.
  - rewrite Hs, Hse, zlen_app. pose proof (zlen_nonneg (zdrop n (frame_bytes op p))). lia.
  - intros _ Hwf. destruct Hwa as [Hwa|[-> Hwa]]; [congruence|].
    destruct (inv_idle0 Hf) as [E0 E]; [congruence|].
    by rewrite Hs, Hse, E0, E, zdrop_all by lia.
  - cbn. by rewrite app_nil_r, inv_closes0, Hf.
  - rewrite Hf in inv_wire0. rewrite <- inv_wire0. unfold owed_bytes. cbn. rewrite !app_nil_r.
    destruct Hp as [->| ->]; rewrite <- ?app_assoc; [by rewrite zdrop_0|].
    cbn. by rewrite ztake_zdrop.
  - intros E. apply Forall_app. split; [done|]. constructor; [by apply Hop|done].
  - by apply last_close_snoc.
  - rewrite zlen_app, zlen_zdrop by lia. lia.
  - apply Forall_app. split; [done|]. by constructor.
Qed.

Lemma Inv_enqueue op p ws w :
  Inv w -> finished_ w = false -> no_close (log w) -> (closing_ w = false -> op <> Close) ->
  0 <= to_underlying op < 16 ->
  zlen (pending w) + zlen (frame_bytes op p) <= max_send_queue cfg ->
  Inv (arm_write (raw_append p (raw_append (encode_header op (zlen p) true false [])
    (emit (Accepted op p) (set_writes ws w))))).
Proof.
  intros I Hf Hnc Hop Hu Hq. pose proof (zlen_nonneg (frame_bytes op p)).
  rewrite !raw_append_eq. unfold arm_write. cbn. rewrite Hf, orb_false_r.
  apply (Inv_accept op p 0 [] w); try (destruct (write_armed_ w) eqn:?; cbn; by auto with lia).
  destruct (write_armed_ w); cbn; by rewrite zdrop_0, <- frame_bytes_eq, app_assoc.
Qed.

Lemma Inv_send_frame op p w :
  Inv w -> no_close (log w) -> (closing_ w = false -> op <> Close) -> 0 <= to_underlying op < 16 ->
  Inv (snd (send_frame op p w)).
Proof.
  intros I Hnc Hop Hu. unfold send_frame. destruct (finished_ w) eqn:Hf; [done|].
  pose proof (frame_bytes_eq op p Hu) as Hfb.
  assert (zlen (encode_header op (zlen p) true false []) + zlen p = zlen (frame_bytes op p)) as ->
    by (rewrite <- Hfb, zlen_app; done).
  pose proof (zlen_nonneg (frame_bytes op p)). rewrite <- (zlen_pending w I).
  destruct (Z.ltb_spec (max_send_queue cfg) (zlen (pending w) + zlen (frame_bytes op p))).
  { by apply Inv_finish_close, Inv_emit. }
  assert (forall w, (if write_armed_ w then w else arm_write w) = arm_write w) as Harm.
  { intros v. unfold arm_write. by destruct (write_armed_ v). }
  rewrite Harm.
  destruct ((zlen (pending w) =? 0) && negb (write_armed_ w)) eqn:Hfast; cbn.
  2: { replace (emit (Accepted op p) w) with (emit (Accepted op p) (set_writes (writes w) w)) by done.
       by apply Inv_enqueue. }
  apply andb_true_iff in Hfast as [Hz Hwa]. apply Z.eqb_eq, zlen_nil_inv in Hz.
  unfold next_write. destruct (writes w) as [|[k| |e] ws] eqn:Hws; cbn.
  - replace (emit (Accepted op p) w) with (emit (Accepted op p) (set_writes [] w)) by (by destruct w; cbn in *; subst).
    by apply Inv_enqueue.
  - rewrite buffer_tail_eq by lia. unfold arm_write. cbn. rewrite Hf, orb_false_r, Hfb.
    set (n := Z.min (Z.of_nat k) (zlen (frame_bytes op p))).
    destruct (Z.eqb_spec n (zlen (frame_bytes op p))) as [E|E]; cbn;
      apply (Inv_accept op p n [Sent (ztake n (frame_bytes op p))] w);
      destruct (write_armed_ w) eqn:?; cbn; auto with lia;
      rewrite <- ?app_assoc, ?E, ?zdrop_all, ?app_nil_r by lia; done.
  - by apply Inv_enqueue.
  - by apply Inv_finish_close, Inv_emit, Inv_writes.
Qed.

Lemma Inv_begin_close code reason w : Inv w -> Inv (begin_close code reason w).
Proof.
  intros I. unfold begin_close. destruct (closing_ w) eqn:Hc, (finished_ w) eqn:Hf; try done. cbn [orb].
  destruct (send_frame _ _ _) as [b w'] eqn:E.
  assert (Inv w') as I'.
  { change w' with (snd (b, w')). rewrite <- E. apply Inv_send_frame; cbn; try done.
    - destruct I. constructor; cbn; auto; by rewrite ?Hf.
    - by apply (inv_open _ I). }
  destruct (_ && _ && _); [by apply Inv_finish_close|done].
Qed.

Lemma Inv_advance n w :
  Inv w -> finished_ w = false -> 0 < n <= zlen (sbuf_ w) - ssent_ w ->
  Inv (set_sbuf (sbuf_ w) (ssent_ w + n) (emit (Sent (ztake n (zdrop (ssent_ w) (sbuf_ w)))) w)).
Proof.
  intros I Hf Hn. pose proof (zlen_pending w I). destruct I. rewrite Hf in *.
  assert (zdrop (ssent_ w + n) (sbuf_ w) = zdrop n (pending w)) as Hd
    by (unfold pending; rewrite zdrop_zdrop; lia || done).
  constructor; unfold pending in *; cbn; rewrite ?Hd, ?Hf; log_simpl; auto with lia; try done.
  - intros _ Hwa. destruct (inv_idle0 eq_refl Hwa) as [E0 E]. rewrite E0, E in Hn. zlia.
  - rewrite <- app_assoc. by rewrite ztake_zdrop.
  - rewrite zlen_zdrop; lia.
  - apply Forall_app. split; [done|]. by constructor.
Qed.

Lemma Inv_flush fuel w :
  Inv w -> finished_ w = false -> zlen (sbuf_ w) - ssent_ w <= Z.of_nat fuel ->
  let '(b, w') := flush fuel w in
  Inv w' /\ (b = true -> finished_ w' = false /\ pending w' = []).
Proof.
  revert w. induction fuel as [|fuel IH]; intros w I Hf Hn; cbn.
  { split; [done|]. intros _. split; [done|]. apply zlen_nil_inv. rewrite zlen_pending by done.
    pose proof (inv_ssent _ I). lia. }
  destruct (Z.ltb_spec (ssent_ w) (zlen (sbuf_ w))).
  2: { split; [done|]. intros _. split; [done|]. apply zlen_nil_inv. rewrite zlen_pending by done.
       pose proof (inv_ssent _ I). lia. }
  unfold next_write. destruct (writes w) as [|[k| |e] ws]; cbn.
  - done.
  - destruct (Z.ltb_spec 0 (Z.min (Z.of_nat k) (zlen (sbuf_ w) - ssent_ w))).
    + apply IH; cbn; [|done|lia]. apply (Inv_advance _ (set_writes ws w)); cbn; [|done|lia].
      by apply Inv_writes.
    + split; [by apply Inv_finish_close, Inv_emit, Inv_writes|done].
  - split; [by apply Inv_writes|done].
  - split; [by apply Inv_finish_close, Inv_emit, Inv_writes|done].
Qed.

Lemma Inv_on_writable w : Inv w -> Inv (on_writable w).
Proof.
  intros I. unfold on_writable. destruct (finished_ w) eqn:Hf; [done|].
  pose proof (Inv_flush (length (sbuf_ w)) w I Hf) as Hfl.
  destruct (flush _ w) as [[] w'].
  2: { apply Hfl. pose proof (inv_ssent _ I). unfold zlen. lia. }
  destruct Hfl as (I' & Hfl); [pose proof (inv_ssent _ I); unfold zlen; lia|].
  destruct (Hfl eq_refl) as [Hf' Hp]. clear Hfl.
  assert (Inv (set_write_armed false (set_sbuf [] 0 w'))).
  { destruct I'. constructor; cbn; auto; rewrite ?Hf' in *; unfold pending in *; cbn; try done.
    - by rewrite Hp in inv_wire0.
    - zlia. }
  destruct (closing_ _); [by apply Inv_finish_close|done].
Qed.

Lemma Inv_send_user op p w :
  Inv w -> 0 <= to_underlying op < 16 -> op <> Close -> Inv (snd (send_user op p w)).
Proof.
  intros I Hu Hop. unfold send_user. destruct (finished_ w) eqn:Hf, (closing_ w) eqn:Hc; try done.
  apply Inv_send_frame; auto. by apply (inv_open _ I).
Qed.

Lemma Inv_exec c w : Inv w -> Inv (exec c w).
Proof.
  intros I. destruct c; cbn; [apply Inv_send_user..|by apply Inv_begin_close]; cbn; done.
Qed.

Lemma Inv_exec_all cs w : Inv w -> Inv (foldl (fun w c => exec c w) w cs).
Proof. revert w. induction cs; intros; cbn; auto using Inv_exec. Qed.

Lemma Inv_deliver data is_text w :
  Inv w -> zlen data <= max_message_size cfg -> Inv (snd (deliver data is_text w)).
Proof.
  intros I Hd. unfold deliver.
  destruct (is_text && validate_utf8 cfg && negb (ws_is_valid_utf8 data)) eqn:E; cbn.
  { by apply Inv_begin_close. }
  apply Inv_exec_all, Inv_emit; [|done]. cbn. split; [done|]. intros -> Hv. rewrite Hv in E.
  by destruct (ws_is_valid_utf8 data).
Qed.

Lemma Inv_set_assembly l z w :
  Inv w -> zlen l <= max_message_size cfg -> Inv (set_assembly l z w).
Proof. intros [] ?. constructor; cbn; auto. Qed.

Lemma Inv_handle_data f w : Inv w -> Inv (snd (handle_data f w)).
Proof.
  intros I. unfold handle_data. repeat case_match; cbn; try by apply Inv_begin_close.
  all: repeat match goal with H : (_ <? _) = false |- _ => apply Z.ltb_ge in H end.
  - apply Inv_set_assembly; [|zlia].
    match goal with H : deliver _ ?t ?v = (_, ?x) |- _ =>
      change x with (snd (b, x)); rewrite <- H end.
    apply Inv_deliver; [apply Inv_set_assembly|]; zlia || done.
  - apply Inv_set_assembly; [done|zlia].
  - by apply Inv_deliver.
  - by apply Inv_set_assembly.
Qed.

Lemma Inv_on_pong w : Inv w -> Inv (on_pong w).
Proof.
  intros I. unfold on_pong. destruct (_ =? _) eqn:E; apply (Inv_quiet w); try done; cbn;
    intros Hf; apply (inv_finished _ I) in Hf; tauto.
Qed.

Lemma Inv_handle_frame f w :
  Inv w -> closing_ w = false -> Inv (snd (handle_frame f w)).
Proof.
  intros I Hc. unfold handle_frame. repeat case_match; cbn; try by apply Inv_begin_close.
  all: try by apply Inv_handle_data.
  - match goal with H : send_frame ?o ?p ?v = (?b, ?x) |- _ =>
      change x with (snd (b, x)); rewrite <- H end.
    apply Inv_send_frame; try done. by apply (inv_open _ I).
  - by apply Inv_on_pong.
Qed.

Lemma Inv_set_rbuf l w : Inv w -> Inv (set_rbuf l w).
Proof. intros []. by constructor. Qed.

Lemma Inv_drain_frames fuel pos w :
  Inv w -> closing_ w = false -> Inv (drain_frames fuel pos w).
Proof.
  revert pos w. induction fuel as [|fuel IH]; intros pos w I Hc; cbn; [done|].
  destruct (decode_frame _) as [[f|e] n].
  - pose proof (Inv_handle_frame f w I Hc). destruct (handle_frame f w) as [[] w']; cbn in *; [|done].
    destruct (closing_ w') eqn:Hc'; [done|]. destruct (finished_ w') eqn:Hf'; [done|].
    by apply IH.
  - repeat case_match; auto using Inv_begin_close, Inv_set_rbuf.
Qed.

Lemma Inv_on_readable r w : Inv w -> Inv (on_readable r w).
Proof.
  intros I. unfold on_readable. destruct (closing_ w) eqn:Hc; [done|].
  destruct (finished_ w); [done|]. cbn [orb].
  destruct r; try done; [|by apply Inv_finish_close, Inv_emit..].
  by apply Inv_drain_frames; [apply Inv_set_rbuf|].
Qed.

Lemma Inv_timer id w (f : Z -> world -> world) :
  f = set_ping_timer \/ f = set_pong_timer ->
  Inv w -> finished_ w = false \/ id = -1 -> Inv (f id w).
Proof.
  intros Hf I Hid. destruct Hf as [-> | ->]; apply (Inv_quiet w); try done; cbn; intros Hf;
    pose proof (inv_finished _ I Hf); destruct Hid; [congruence|tauto|congruence|tauto].
Qed.

Lemma Inv_register k w : Inv w -> Inv (snd (register_timer k w)).
Proof.
  intros I. unfold register_timer. destruct (timers w) as [|[id|] rs]; [done|..]; apply (Inv_quiet w); try done;
    cbn; intros Hf; apply (inv_finished _ I) in Hf; tauto.
Qed.

Lemma Inv_registered l w : Inv w -> Inv (set_registered l w).
Proof. intros I. apply (Inv_quiet w); try done. cbn. intros Hf. apply (inv_finished _ I) in Hf. tauto. Qed.

Lemma register_finished k w : finished_ (snd (register_timer k w)) = finished_ w.
Proof. unfold register_timer. by destruct (timers w) as [|[]]. Qed.

Lemma Inv_arm_ping w : Inv w -> Inv (arm_ping w).
Proof.
  intros I. unfold arm_ping. destruct (finished_ w) eqn:Hf; [done|]. cbn [orb].
  destruct (closing_ w); [done|]. destruct (_ <=? _); [done|].
  pose proof (Inv_register PingTimer w I). pose proof (register_finished PingTimer w).
  destruct (register_timer PingTimer w) as [[id|] w']; cbn in *; [|done].
  apply (Inv_timer id w'); auto. left. congruence.
Qed.

Lemma Inv_on_ping_tick w : Inv w -> Inv (on_ping_tick w).
Proof.
  intros I. unfold on_ping_tick. 
  assert (Inv (set_ping_timer (-1) w)) as I1 by (apply Inv_timer; auto).
  set (w1 := set_ping_timer (-1) w) in *. clearbody w1.
  destruct (finished_ w1) eqn:Hf, (closing_ w1) eqn:Hc; try done. cbn [orb].
  pose proof (Inv_send_frame Ping [] w1 I1 (inv_open _ I1 Hc)) as I2.
  destruct (send_frame Ping [] w1) as [b w2]. cbn in I2.
  destruct (finished_ w2) eqn:Hf2, (closing_ w2) eqn:Hc2; cbn [orb]; try by apply I2.
  set (w3 := set_awaiting_pong true w2).
  assert (Inv w3) as I3.
  { apply (Inv_quiet w2); try done; [by apply I2|]. by rewrite Hf2. }
  pose proof (Inv_register PongTimer w3 I3). pose proof (register_finished PongTimer w3) as E.
  destruct (register_timer PongTimer w3) as [[id|] w4]; cbn in *; apply Inv_arm_ping; [|done].
  apply (Inv_timer id w4); auto. left. congruence.
Qed.

Lemma Inv_on_pong_timeout w : Inv w -> Inv (on_pong_timeout w).
Proof.
  intros I. unfold on_pong_timeout.
  assert (Inv (set_pong_timer (-1) w)) as I1 by (apply Inv_timer; auto).
  destruct (_ && _ && _); [|done]. by apply Inv_finish_close, Inv_emit.
Qed.

Lemma Inv_step i w : Inv w -> Inv (step i w).
Proof.
  destruct i; cbn -[fired]; unfold fired; auto using Inv_on_readable, Inv_on_writable, Inv_on_ping_tick,
    Inv_on_pong_timeout, Inv_exec, Inv_registered.
Qed.

Lemma Inv_serve response ws ts : zlen response <= limit -> Inv (serve response ws ts).
Proof.
  intros Hr. unfold serve, start. apply Inv_arm_ping. unfold queue_handshake.
  rewrite raw_append_eq. cbn. constructor; unfold pending; cbn; rewrite ?zdrop_0; try done; try zlia.
  - by unfold owed_bytes; cbn; rewrite app_nil_r.
  - intros _. constructor.
  - by destruct a.
  - repeat constructor.
Qed.

Lemma Inv_history response ws ts is_ : zlen response <= limit -> Inv (history response ws ts is_).
Proof.
  intros Hr. unfold history. pose proof (Inv_serve response ws ts Hr) as I. revert I.
  generalize (serve response ws ts). induction is_ as [|i is_ IH]; intros w I; cbn; auto using Inv_step.
Qed.

End Invariant.

(** *** The timers *)

Definition timer_id (k : timer) (w : world) : Z := match k with PingTimer => ping_timer_id_ w | PongTimer => pong_timer_id_ w end.

(** The registered timers are the ones the connection names; there are none once it is
    finished. *)
Record timers_ok (w : world) : Prop := {
  named : forall id k, (id, k) ∈ registered w -> id = timer_id k w /\ id <> -1;
  none_left : finished_ w = true -> registered w = [];
  ids_ok : Some (-1) ∉ timers w;
}.

Definition same_timers (w w' : world) : Prop :=
  registered w' = registered w /\ ping_timer_id_ w' = ping_timer_id_ w /\ pong_timer_id_ w' = pong_timer_id_ w /\
  finished_ w' = finished_ w /\ timers w' = timers w.

Lemma ok_same w w' : same_timers w w' -> timers_ok w -> timers_ok w'.
Proof.
  intros (Er & E1 & E2 & Ef & Et) [Hn Hl Hi]. split; [|by rewrite Er, Ef|by rewrite Et]. intros id k. rewrite Er. intros H. apply Hn in H. by destruct k; cbn in *; rewrite ?E1, ?E2.
Qed.

Lemma drop_timer_in id l t : t ∈ drop_timer id l <-> t ∈ l /\ fst t <> id.
Proof. unfold drop_timer. rewrite list_elem_of_In, filter_In, <- list_elem_of_In, negb_true_iff, Z.eqb_neq. done. Qed.

Lemma ok_finish_close code w : timers_ok w -> timers_ok (finish_close code w).
Proof.
  intros [Hn Hl Hi]. unfold finish_close. destruct (finished_ w) eqn:Hf; [by split; [|rewrite Hf|]|]. cbn.
  assert (forall t, t ∉ (if pong_timer_id_ w =? -1 then if ping_timer_id_ w =? -1 then registered w else drop_timer (ping_timer_id_ w) (registered w)
    else drop_timer (pong_timer_id_ w) (if ping_timer_id_ w =? -1 then registered w else drop_timer (ping_timer_id_ w) (registered w)))) as Hno.
  { intros [id k] Hin. assert ((id, k) ∈ registered w) as H0.
    { revert Hin. destruct (_ =? -1), (_ =? -1); rewrite ?drop_timer_in; tauto. }
    destruct (Hn _ _ H0) as [Hid Hne]. destruct k; cbn [timer_id] in Hid; subst id.
    - apply Z.eqb_neq in Hne. rewrite Hne in Hin. destruct (pong_timer_id_ w =? -1); rewrite !drop_timer_in in Hin; cbn in Hin; tauto.
    - apply Z.eqb_neq in Hne. rewrite Hne, drop_timer_in in Hin. cbn in Hin. tauto. }
  split; cbn; [by intros id k ?%Hno| |done]. intros _. set (l := if _ =? -1 then _ else _) in *. destruct l as [|t l]; [done|]. by destruct (Hno t); left.
Qed.

#[local] Hint Resolve ok_finish_close : core.

Lemma same_raw_append p w : same_timers w (raw_append p w).
Proof. rewrite raw_append_eq. done. Qed.

Lemma same_arm_write w : same_timers w (arm_write w).
Proof. unfold arm_write. by destruct (_ || _). Qed.

Lemma same_buffer_tail hdr p n w : same_timers w (buffer_tail hdr p n w).
Proof. unfold buffer_tail, raw_append. by repeat case_match. Qed.

Lemma ok_arm_write w : timers_ok w -> timers_ok (arm_write w).
Proof. apply ok_same, same_arm_write. Qed.

Lemma ok_raw_append p w : timers_ok w -> timers_ok (raw_append p w).
Proof. apply ok_same, same_raw_append. Qed.

Lemma ok_buffer_tail hdr p n w : timers_ok w -> timers_ok (buffer_tail hdr p n w).
Proof. apply ok_same, same_buffer_tail. Qed.

#[local] Hint Resolve ok_arm_write ok_raw_append ok_buffer_tail : core.
#[local] Hint Extern 4 (timers_ok (emit _ ?w)) => (apply (ok_same w); [done|]) : core.
#[local] Hint Extern 4 (timers_ok (set_sbuf _ _ ?w)) => (apply (ok_same w); [done|]) : core.
#[local] Hint Extern 4 (timers_ok (set_writes _ ?w)) => (apply (ok_same w); [done|]) : core.
#[local] Hint Extern 4 (timers_ok (set_write_armed _ ?w)) => (apply (ok_same w); [done|]) : core.
#[local] Hint Extern 4 (timers_ok (set_read_armed _ ?w)) => (apply (ok_same w); [done|]) : core.
#[local] Hint Extern 4 (timers_ok (set_assembly _ _ ?w)) => (apply (ok_same w); [done|]) : core.
#[local] Hint Extern 4 (timers_ok (set_rbuf _ ?w)) => (apply (ok_same w); [done|]) : core.
#[local] Hint Extern 4 (timers_ok (set_awaiting_pong _ ?w)) => (apply (ok_same w); [done|]) : core.
#[local] Hint Extern 4 (timers_ok (set_close_code _ (set_closing _ ?w))) => (apply (ok_same w); [done|]) : core.
#[local] Hint Extern 4 (timers_ok (report_error _ ?w)) => (apply (ok_same w); [done|]) : core.

Lemma ok_next_write w : timers_ok w -> timers_ok (snd (next_write w)).
Proof. intros H. unfold next_write. destruct (writes w); [done|]. by apply (ok_same w). Qed.

Lemma ok_send_frame op p w : timers_ok w -> timers_ok (snd (send_frame op p w)).
Proof.
  intros H. unfold send_frame. pose proof (ok_next_write w H). cbv zeta. destruct (next_write w) as [[k| |e] w'];
    repeat case_match; cbn [snd] in *; auto 7.
Qed.

(** Nothing but a timer registers one. *)
Lemma send_frame_registered op p w : registered w = [] -> registered (snd (send_frame op p w)) = [].
Proof.
  intros E. assert (forall code v, registered v = [] -> registered (finish_close code v) = []) as Hfc
    by (intros code v Ev; unfold finish_close; destruct (finished_ v); [done|]; cbn; rewrite Ev; by repeat destruct (_ =? -1)).
  assert (registered (snd (next_write w)) = []) as En by (unfold next_write; by destruct (writes w)).
  unfold send_frame, arm_write, buffer_tail, raw_append. cbv zeta. destruct (next_write w) as [[k| |e] w'] eqn:Ew; repeat case_match; cbn in *; auto.
Qed.

Lemma ok_begin_close code reason w : timers_ok w -> timers_ok (begin_close code reason w).
Proof.
  intros H. unfold begin_close. destruct (_ || _); [done|]. cbv zeta.
  set (w1 := set_read_armed false _). assert (timers_ok w1) as H1 by by apply (ok_same w).
  pose proof (ok_send_frame Close ([(code >> 8) .& 0xFF; code .& 0xFF] ++ ztake 123 reason) w1 H1) as H2.
  destruct (send_frame _ _ w1) as [b w2]. cbn [snd] in H2. case_match; auto.
Qed.

Lemma ok_flush fuel : forall w, timers_ok w -> timers_ok (snd (flush fuel w)).
Proof.
  induction fuel as [|fuel IH]; intros w H; cbn [flush]; [done|]. case_match; [|done]. pose proof (ok_next_write w H).
  destruct (next_write w) as [[k| |e] w']; cbn [snd] in *; [|done|auto 7]. cbv zeta. case_match; cbn [snd]; [apply IH; by apply (ok_same w')|auto 7].
Qed.

Lemma ok_on_writable w : timers_ok w -> timers_ok (on_writable w).
Proof.
  intros H. unfold on_writable. destruct (finished_ w); [done|]. pose proof (ok_flush (length (sbuf_ w)) w H).
  destruct (flush _ w) as [[] w']; cbn [snd] in *; [|done]. cbv zeta. case_match; auto 7.
Qed.

Lemma ok_exec c w : timers_ok w -> timers_ok (exec c w).
Proof. intros H. destruct c; cbn; [| |by apply ok_begin_close]; unfold send_user; (case_match; [done|by apply ok_send_frame]). Qed.

Lemma ok_exec_all cs : forall w, timers_ok w -> timers_ok (foldl (fun w c => exec c w) w cs).
Proof. induction cs as [|c cs IH]; intros w H; [done|]. cbn [foldl]. by apply IH, ok_exec. Qed.

Lemma ok_deliver data t w : timers_ok w -> timers_ok (snd (deliver data t w)).
Proof. intros H. unfold deliver. case_match; [by apply ok_begin_close|]. cbn [snd]. apply ok_exec_all. auto. Qed.

Lemma ok_handle_data f w : timers_ok w -> timers_ok (snd (handle_data f w)).
Proof.
  intros H. unfold handle_data. cbv zeta. repeat (case_match; cbn [snd]; try (by apply ok_begin_close); try (by apply ok_deliver); auto).
  all: match goal with E : deliver ?d ?t ?v = (_, ?w') |- _ => assert (timers_ok w') by
    (change w' with (snd (b, w')); rewrite <- E; apply ok_deliver; auto) end; auto.
Qed.

Lemma ok_on_pong w : timers_ok w -> timers_ok (on_pong w).
Proof.
  intros H. unfold on_pong. cbn [set_awaiting_pong pong_timer_id_]. destruct (Z.eqb_spec (pong_timer_id_ w) (-1)) as [|Hne]; [auto|].
  destruct H as [Hn Hl Hi]. unfold unregister_timer. cbn. apply Z.eqb_neq in Hne. rewrite Hne. split; cbn; [| |done].
  - intros id k [Hin Hid]%drop_timer_in. cbn in Hid. destruct (Hn _ _ Hin) as [E ?]. destruct k; cbn in *; [done|]. congruence.
  - intros Hf. by rewrite (Hl Hf).
Qed.

Lemma ok_handle_frame f w : timers_ok w -> timers_ok (snd (handle_frame f w)).
Proof.
  intros H. unfold handle_frame. cbv zeta. pose proof (ok_send_frame Pong (payload f) w H). destruct (send_frame Pong (payload f) w) as [b w'] eqn:E.
  repeat (case_match; cbn [snd] in *; try (by apply ok_begin_close); try (by apply ok_handle_data); try (by apply ok_on_pong); try done).
Qed.

Lemma ok_drain fuel : forall pos w, timers_ok w -> timers_ok (drain_frames fuel pos w).
Proof.
  induction fuel as [|fuel IH]; intros pos w H; cbn [drain_frames]; [done|]. destruct (decode_frame _) as [[f|e] n].
  - pose proof (ok_handle_frame f w H). destruct (handle_frame f w) as [b w']. cbn [snd] in *. repeat case_match; auto.
  - case_match; [by apply ok_begin_close|]. case_match; auto.
Qed.

Lemma ok_on_readable r w : timers_ok w -> timers_ok (on_readable r w).
Proof. intros H. unfold on_readable. case_match; [done|]. destruct r; auto. apply ok_drain. auto. Qed.

(** A timer is registered when no other of its kind is. *)
Lemma ok_register k w id w' : timers_ok w -> finished_ w = false -> (forall id', (id', k) ∉ registered w) -> register_timer k w = (Some id, w') ->
  timers_ok (match k with PingTimer => set_ping_timer id w' | PongTimer => set_pong_timer id w' end) /\
  forall id' k', k' <> k -> (id', k') ∈ registered w' -> (id', k') ∈ registered w.
Proof.
  intros [Hn Hl Hi] Hf Hno. unfold register_timer. destruct (timers w) as [|[i|] rs] eqn:Et; intros [= <- <-]. apply not_elem_of_cons in Hi as [Hi Hrs].
  split; [|cbn; intros id' k' Hk [[=]|?]%elem_of_cons; congruence || done].
  assert (forall id' k', (id', k') ∈ registered w -> k' <> k) as Hk by (intros id' k' Hin ->; by apply (Hno id')).
  destruct k; split; cbn; try done; try congruence; intros id' k' [[= -> ->]|Hin]%elem_of_cons; cbn; try (split; [done|congruence]);
    pose proof (Hk _ _ Hin); destruct (Hn _ _ Hin) as [E ?]; by destruct k'.
Qed.

Lemma ok_register_none k w w' : timers_ok w -> register_timer k w = (None, w') -> timers_ok w'.
Proof.
  intros [Hn Hl Hi]. unfold register_timer. destruct (timers w) as [|[i|] rs] eqn:Et; intros [= <-]; [by split; rewrite ?Et|].
  apply not_elem_of_cons in Hi as [_ Hi]. by split.
Qed.

Lemma ok_arm_ping w : timers_ok w -> (forall id, (id, PingTimer) ∉ registered w) -> timers_ok (arm_ping w).
Proof.
  intros H Hno. unfold arm_ping. destruct (finished_ w) eqn:Hf; [done|]. cbn [orb]. case_match; [done|]. case_match; [done|].
  destruct (register_timer PingTimer w) as [[id|] w'] eqn:E; [|by eapply ok_register_none]. by apply (ok_register PingTimer w id w') in E as [? _].
Qed.

(** A tick of a registered ping timer, when no pong timer is registered. *)
Lemma ok_on_ping_tick id w : timers_ok w -> (id, PingTimer) ∈ registered w -> (forall id', (id', PongTimer) ∉ registered w) ->
  timers_ok (on_ping_tick (fired id w)).
Proof.
  intros H Hid Hno. unfold on_ping_tick. set (w1 := set_ping_timer (-1) (fired id w)).
  assert (registered w1 = []) as E1.
  { cbn. destruct (drop_timer id (registered w)) as [|[i k] l] eqn:E; [done|]. assert ((i, k) ∈ drop_timer id (registered w)) as [Hin Hne]%drop_timer_in by (rewrite E; by left).
    destruct k; [|by apply Hno in Hin]. destruct H as [Hn _ _]. destruct (Hn _ _ Hin) as [-> _], (Hn _ _ Hid) as [E2 _]. cbn in *. congruence. }
  assert (timers_ok w1) as H1 by (split; [rewrite E1; by intros ? ? ?%not_elem_of_nil|done|apply H]).
  clearbody w1. case_match; [done|]. pose proof (ok_send_frame Ping [] w1 H1) as H2. pose proof (send_frame_registered Ping [] w1 E1) as E2.
  destruct (send_frame Ping [] w1) as [b w2]. cbn [snd] in *. destruct (finished_ w2) eqn:Hf2; [done|]. cbn [orb]. case_match; [done|].
  set (w3 := set_awaiting_pong true w2). assert (timers_ok w3) as Hok3 by by apply (ok_same w2). assert (registered w3 = []) as E3 by done.
  destruct (register_timer PongTimer w3) as [[id'|] w4] eqn:E4.
  - apply (ok_register PongTimer w3 id' w4) in E4 as [Hok4 Hr]; [|done|done|rewrite E3; intros ? ?%not_elem_of_nil; done]. apply ok_arm_ping; [done|].
    intros i Hin. apply (Hr i PingTimer) in Hin; [|done]. rewrite E3 in Hin. by apply not_elem_of_nil in Hin.
  - apply ok_arm_ping; [by eapply ok_register_none|]. unfold register_timer in E4. destruct (timers w3) as [|[]]; simplify_eq; cbn; rewrite E2; intros ? ?%not_elem_of_nil; done.
Qed.

Lemma ok_on_pong_timeout id w : timers_ok w -> (id, PongTimer) ∈ registered w -> timers_ok (on_pong_timeout (fired id w)).
Proof.
  intros [Hn Hl Hi] Hid. unfold on_pong_timeout. destruct (Hn _ _ Hid) as [E _]. cbn in E. subst id.
  assert (timers_ok (set_pong_timer (-1) (fired (pong_timer_id_ w) w))) as H1.
  { split; cbn; [|intros Hf; by rewrite (Hl Hf)|done]. intros id k [Hin Hne]%drop_timer_in. cbn in Hne. destruct (Hn _ _ Hin) as [E ?]. by destruct k. }
  case_match; auto 7.
Qed.

(** Timers fire while they are registered, and no ping before the pong timer of the last one is
    gone. *)
Definition timely (i : input) (w : world) : Prop :=
  match i with
  | PingTick id => (id, PingTimer) ∈ registered w /\ forall id', (id', PongTimer) ∉ registered w
  | PongTimeout id => (id, PongTimer) ∈ registered w
  | _ => True
  end.

Fixpoint all_timely (is_ : list input) (w : world) : Prop :=
  match is_ with
  | [] => True
  | i :: is_ => timely i w /\ all_timely is_ (step i w)
  end.

Lemma ok_history response ws ts is_ : Some (-1) ∉ ts -> all_timely is_ (serve response ws ts) -> timers_ok (history response ws ts is_).
Proof.
  intros Hts. assert (timers_ok (serve response ws ts)) as H.
  { unfold serve, start, queue_handshake, fresh. rewrite raw_append_eq. cbn -[arm_ping]. apply ok_arm_ping; [|by intros ? ?%not_elem_of_nil].
    split; [by intros ? ? ?%not_elem_of_nil|done|done]. }
  unfold history. revert H. generalize (serve response ws ts). induction is_ as [|i is_ IH]; intros w H Ht; [done|]. destruct Ht as [Ht Hts'].
  cbn [foldl]. apply IH; [|done]. destruct i; cbn [step timely] in *; [by apply ok_on_readable|by apply ok_on_writable| | |by apply ok_exec].
  - destruct Ht. by apply ok_on_ping_tick.
  - by apply ok_on_pong_timeout.
Qed.

(** *** The write path does not look at the read side *)

(** The updates of the state only the read path uses. *)
Inductive inert : (world -> world) -> Prop :=
  | inert_rbuf l : inert (set_rbuf l)
  | inert_assembly a z : inert (set_assembly a z).

Section Inert.
Context (f : world -> world) (Hf : inert f).

Lemma inert_fields w :
  finished_ (f w) = finished_ w /\ closing_ (f w) = closing_ w /\ sbuf_ (f w) = sbuf_ w /\
  ssent_ (f w) = ssent_ w /\ write_armed_ (f w) = write_armed_ w /\ writes (f w) = writes w.
Proof. by destruct Hf. Qed.

Lemma finish_close_inert code w : finish_close code (f w) = f (finish_close code w).
Proof. unfold finish_close. destruct Hf; cbn; by destruct (finished_ w). Qed.

Lemma raw_append_inert p w : raw_append p (f w) = f (raw_append p w).
Proof. rewrite !raw_append_eq. by destruct Hf. Qed.

Lemma buffer_tail_inert hdr p n w : buffer_tail hdr p n (f w) = f (buffer_tail hdr p n w).
Proof. unfold buffer_tail. destruct (_ <? _); by rewrite !raw_append_inert. Qed.

Lemma arm_write_inert w : arm_write (f w) = f (arm_write w).
Proof. unfold arm_write. destruct Hf; cbn; by destruct (_ || _). Qed.

Lemma emit_inert e w : emit e (f w) = f (emit e w).
Proof. by destruct Hf. Qed.

Lemma set_writes_inert ws w : set_writes ws (f w) = f (set_writes ws w).
Proof. by destruct Hf. Qed.

Lemma send_frame_inert op p w :
  send_frame op p (f w) = (fst (send_frame op p w), f (snd (send_frame op p w))).
Proof.
  unfold send_frame. destruct (inert_fields w) as (-> & _ & -> & -> & -> & Hw).
  destruct (finished_ w); [done|].
  destruct (_ <? _); [cbn [fst snd]; by rewrite <- finish_close_inert; unfold report_error; rewrite emit_inert|].
  destruct (_ && _).
  - unfold next_write. rewrite Hw, ?set_writes_inert.
    destruct (writes w) as [|[k| |e] ws]; rewrite ?set_writes_inert; cbn [fst snd].
    + by rewrite emit_inert, !raw_append_inert, arm_write_inert.
    + rewrite !emit_inert, buffer_tail_inert, arm_write_inert. by destruct (_ =? _).
    + by rewrite emit_inert, !raw_append_inert, arm_write_inert.
    + unfold report_error. by rewrite emit_inert, <- finish_close_inert.
  - rewrite emit_inert, !raw_append_inert, arm_write_inert. cbn [fst snd].
    match goal with |- context [f (raw_append ?a ?b)] =>
      destruct (inert_fields (raw_append a b)) as (_ & _ & _ & _ & -> & _) end.
    by destruct (write_armed_ _).
Qed.

Lemma begin_close_inert code reason w :
  begin_close code reason (f w) = f (begin_close code reason w).
Proof.
  unfold begin_close. destruct (inert_fields w) as (-> & -> & _). destruct (_ || _); [done|].
  replace (set_read_armed false (set_close_code code (set_closing true (f w))))
    with (f (set_read_armed false (set_close_code code (set_closing true w)))) by (by destruct Hf).
  rewrite send_frame_inert. destruct (send_frame _ _ _) as [b w']. cbn [fst snd].
  destruct (inert_fields w') as (-> & _ & -> & -> & -> & _).
  destruct (_ && _); [by rewrite finish_close_inert|done].
Qed.

Lemma exec_inert c w : exec c (f w) = f (exec c w).
Proof.
  destruct c; cbn; [| |apply begin_close_inert];
    unfold send_user; destruct (inert_fields w) as (-> & -> & _); destruct (_ || _); try done;
    by rewrite send_frame_inert.
Qed.

Lemma exec_all_inert cs w :
  foldl (fun w c => exec c w) (f w) cs = f (foldl (fun w c => exec c w) w cs).
Proof. revert w. induction cs as [|c cs IH]; intros w; cbn -[exec]; by rewrite ?exec_inert, ?IH. Qed.

Lemma deliver_inert data t w :
  deliver data t (f w) = (fst (deliver data t w), f (snd (deliver data t w))).
Proof.
  unfold deliver. destruct (_ && _ && _); cbn [fst snd]; [by rewrite begin_close_inert|].
  rewrite emit_inert, exec_all_inert. by destruct (inert_fields
    (foldl (fun w c => exec c w) (emit (Deliver t data) w) (on_message t data))) as (-> & -> & _).
Qed.

End Inert.

#[local] Hint Constructors inert : core.

(** *** The read buffer is invisible to frame handling *)

Lemma handle_data_rbuf l f w :
  handle_data f (set_rbuf l w) = (fst (handle_data f w), set_rbuf l (snd (handle_data f w))).
Proof.
  unfold handle_data. cbn -[deliver begin_close]. rewrite !begin_close_inert by done.
  destruct (bool_decide _).
  - destruct (_ =? 0); [done|]. destruct (_ <? _); [done|]. destruct (fin f); [|done].
    change (set_assembly ?a 0 (set_rbuf l w)) with (set_rbuf l (set_assembly a 0 w)).
    rewrite deliver_inert by done. by destruct (deliver _ _ _).
  - destruct (negb _); [done|]. destruct (_ <? _); [done|]. destruct (fin f); [|done].
    by rewrite deliver_inert by done.
Qed.

Lemma handle_frame_rbuf l f w :
  handle_frame f (set_rbuf l w) = (fst (handle_frame f w), set_rbuf l (snd (handle_frame f w))).
Proof.
  unfold handle_frame. rewrite !begin_close_inert, handle_data_rbuf, send_frame_inert by done.
  destruct (_ || _ || _); [done|]. destruct (negb (masked f)); [done|].
  destruct (_ && _); [done|]. destruct (_ && _); [done|].
  destruct (opcode f); try done; cbn -[handle_data send_frame begin_close on_pong].
  - by destruct (send_frame _ _ _).
  - unfold on_pong. cbn. by destruct (_ =? _).
Qed.

Lemma handle_frame_keeps_rbuf f w : rbuf_ (snd (handle_frame f w)) = rbuf_ w.
Proof.
  pose proof (handle_frame_rbuf (rbuf_ w) f w) as E.
  replace (set_rbuf (rbuf_ w) w) with w in E by (by destruct w). by rewrite E.
Qed.

(** *** The byte stream *)

(** What a connection makes of a byte string: the bytes left over, [None] when it
    stopped reading. *)
Fixpoint consume (fuel : nat) (data : bytes) (w : world) : option bytes * world :=
  match fuel with
  | O => (None, w)
  | S fuel =>
      match decode_frame data with
      | (Err e, _) =>
          if bool_decide (e = message_size) then (None, begin_close MessageTooBig [] w)
          else (Some data, w)
      | (Ok frame, n) =>
          let '(ok, w) := handle_frame frame w in
          if negb ok then (None, w)
          else if closing_ w || finished_ w then (None, w)
          else consume fuel (zdrop n data) w
      end
  end.

Definition stopped (w : world) : bool := closing_ w || finished_ w.

Definition incomplete (data : bytes) : Prop :=
  decode_frame data = (Err resource_unavailable_try_again, 0).

Lemma drain_frames_consume fuel pos w :
  0 <= pos -> all_bytes (rbuf_ w) ->
  drain_frames fuel pos w =
  match consume fuel (zdrop pos (rbuf_ w)) w with
  | (Some r, w') => set_rbuf r w'
  | (None, w') => w'
  end.
Proof.
  revert pos w. induction fuel as [|fuel IH]; intros pos w Hpos Hb; cbn; [done|].
  destruct (decode_frame _) as [[f|e] n] eqn:E.
  - pose proof (handle_frame_keeps_rbuf f w) as Hr.
    destruct (handle_frame f w) as [[] w']; cbn in *; [|done].
    apply (decode_frame_app _ []) in E as [_ E]; [|by apply Forall_zdrop].
    destruct (_ || _); [done|]. rewrite IH by (lia || by rewrite Hr).
    by rewrite Hr, zdrop_zdrop by lia.
  - destruct (bool_decide _); [done|]. destruct (Z.ltb_spec 0 pos); [done|].
    replace pos with 0 by lia. rewrite zdrop_0. by destruct w.
Qed.

Lemma finish_close_stopped code w : stopped (finish_close code w) = true.
Proof. unfold finish_close, stopped. destruct (finished_ w) eqn:E; cbn; by rewrite ?E, ?orb_true_r. Qed.

Lemma send_frame_stopped op p w : stopped w = true -> stopped (snd (send_frame op p w)) = true.
Proof.
  intros Hs. unfold send_frame. destruct (finished_ w) eqn:Hf; [done|].
  assert (closing_ w = true) as Hc by (unfold stopped in Hs; rewrite Hf, orb_false_r in Hs; done).
  unfold next_write, buffer_tail, raw_append, arm_write.
  repeat case_match; cbn; rewrite ?finish_close_stopped; simplify_eq; try done.
  all: unfold stopped; cbn; by rewrite Hc.
Qed.

Lemma begin_close_stopped code reason w : stopped (begin_close code reason w) = true.
Proof.
  unfold begin_close. destruct (_ || _) eqn:E; [done|].
  match goal with |- context [send_frame ?o ?p ?v] =>
    pose proof (send_frame_stopped o p v eq_refl) as Hs; destruct (send_frame o p v) as [b w'] end.
  destruct (_ && _); [apply finish_close_stopped|done].
Qed.

Lemma deliver_false data t w :
  fst (deliver data t w) = false -> stopped (snd (deliver data t w)) = true.
Proof.
  unfold deliver. destruct (_ && _ && _); cbn; [intros _; apply begin_close_stopped|].
  unfold stopped. by destruct (closing_ _), (finished_ _).
Qed.

Lemma handle_data_false f w :
  fst (handle_data f w) = false -> stopped (snd (handle_data f w)) = true.
Proof.
  unfold handle_data. repeat (case_match; cbn [fst snd]; try (by intros; apply begin_close_stopped)).
  - intros ->. match goal with H : deliver ?d ?t ?v = _ |- _ => pose proof (deliver_false d t v) as Hd end.
    rewrite H3 in Hd. by apply Hd.
  - done.
  - apply deliver_false.
  - done.
Qed.

(** [handle_frame] answers false only when teardown started. *)
Lemma handle_frame_false f w :
  fst (handle_frame f w) = false -> stopped (snd (handle_frame f w)) = true.
Proof.
  unfold handle_frame. repeat (case_match; cbn [fst snd]; try (by intros; apply begin_close_stopped)).
  all: try apply handle_data_false; try done.
  unfold stopped. intros E%negb_false_iff. by rewrite E, orb_true_r.
Qed.

Lemma consume_none fuel d w :
  (length d < fuel)%nat -> all_bytes d ->
  match consume fuel d w with
  | (None, w') => stopped w' = true
  | (Some r, w') => all_bytes r /\ incomplete r /\ (stopped w = false -> stopped w' = false)
  end.
Proof.
  revert d w. induction fuel as [|fuel IH]; intros d w Hl Hb; [lia|]. cbn.
  destruct (decode_frame_cases d) as [(f & n & E)|[E|E]]; rewrite E; cbn.
  - pose proof (handle_frame_false f w) as Hh. destruct (handle_frame f w) as [[] w']; cbn in *; [|auto].
    apply (decode_frame_app _ []) in E as [_ E]; [|done].
    destruct (closing_ w' || finished_ w') eqn:Hs; [done|].
    assert (length (zdrop n d) < fuel)%nat as Hl'.
    { unfold zdrop. rewrite length_drop. unfold zlen in E. lia. }
    specialize (IH (zdrop n d) w' Hl' ltac:(auto)).
    destruct (consume fuel (zdrop n d) w') as [[r|] w'']; [|done].
    destruct IH as (? & ? & IH). auto.
  - apply begin_close_stopped.
  - done.
Qed.

Lemma consume_rbuf fuel l d w :
  consume fuel d (set_rbuf l w) = (fst (consume fuel d w), set_rbuf l (snd (consume fuel d w))).
Proof.
  revert d w. induction fuel as [|fuel IH]; intros d w; cbn -[handle_frame]; [done|].
  destruct (decode_frame d) as [[f|e] n].
  - rewrite handle_frame_rbuf. destruct (handle_frame f w) as [[] w']; cbn; [|done].
    destruct (_ || _); [done|]. apply IH.
  - destruct (bool_decide _); cbn; by rewrite ?begin_close_inert by done.
Qed.

Lemma consume_fuel n m d w :
  (length d < n)%nat -> (length d < m)%nat -> all_bytes d -> consume n d w = consume m d w.
Proof.
  revert m d w. induction n as [|n IH]; intros m d w Hn Hm Hb; [lia|]. destruct m as [|m]; [lia|].
  cbn. destruct (decode_frame d) as [[f|e] k] eqn:E; [|done].
  apply (decode_frame_app _ []) in E as [_ E]; [|done].
  destruct (handle_frame f w) as [[] w']; cbn; [|done]. destruct (_ || _); [done|].
  apply IH; auto; unfold zdrop; rewrite length_drop; unfold zlen in E; lia.
Qed.

Lemma consume_app n m d k w :
  (length d < n)%nat -> (length (d ++ k) < m)%nat -> all_bytes d -> all_bytes k ->
  consume m (d ++ k) w =
  match consume n d w with
  | (None, w') => (None, w')
  | (Some r, w') => consume (S (length (r ++ k))) (r ++ k) w'
  end.
Proof.
  revert m d w. induction n as [|n IH]; intros m d w Hn Hm Hb Hk; [lia|].
  destruct (decode_frame_cases d) as [(f & j & E)|[E|E]].
  - destruct m as [|m]; [lia|]. cbn. rewrite E. apply (decode_frame_app _ k) in E as [E ?]; [|done].
    rewrite E. destruct (handle_frame f w) as [[] w']; cbn; [|done]. destruct (_ || _); [done|].
    rewrite zdrop_app_le by lia. apply IH; auto; rewrite ?length_app in *;
      unfold zdrop; rewrite length_drop; unfold zlen in *; lia.
  - destruct m as [|m]; [lia|]. cbn. rewrite E. apply (decode_frame_app_size _ k) in E. by rewrite E.
  - assert (consume (S n) d w = (Some d, w)) as -> by (cbn; by rewrite E).
    apply consume_fuel; [done|lia|by apply Forall_app].
Qed.

(** Successive reads. *)
Definition reads (rs : list bytes) (w : world) : world :=
  foldl (fun w bs => on_readable (ReadBytes bs) w) w rs.

Lemma reads_stopped rs w : stopped w = true -> reads rs w = w.
Proof.
  intros Hs. induction rs as [|r rs IH]; [done|]. unfold reads in *. cbn.
  unfold on_readable at 2. unfold stopped in Hs. by rewrite Hs.
Qed.

Lemma reads_consume rs w :
  stopped w = false -> all_bytes (rbuf_ w) -> incomplete (rbuf_ w) -> Forall all_bytes rs ->
  let d := rbuf_ w ++ concat rs in
  set_rbuf [] (reads rs w) = set_rbuf [] (snd (consume (S (length d)) d w)) /\
  forall r, fst (consume (S (length d)) d w) = Some r -> rbuf_ (reads rs w) = r.
Proof.
  intros Hs Hb Hi Hrs. revert w Hs Hb Hi.
  induction rs as [|bs rs IH]; intros w Hs Hb Hi; cbn [concat].
  { rewrite app_nil_r. cbn. rewrite Hi. cbn. split; [done|]. by intros r [= ->]. }
  apply Forall_cons in Hrs as [Hbs Hrs]. specialize (IH Hrs).
  assert (all_bytes (rbuf_ w ++ bs)) as Hd by (by apply Forall_app).
  assert (all_bytes (concat rs)) as Hc by (by apply Forall_concat).
  unfold reads. cbn [foldl]. fold (reads rs (on_readable (ReadBytes bs) w)).
  rewrite app_assoc, (consume_app (S (length (rbuf_ w ++ bs))) _ (rbuf_ w ++ bs)) by (done || lia).
  pose proof (consume_none (S (length (rbuf_ w ++ bs))) (rbuf_ w ++ bs) w ltac:(lia) Hd) as Hcn.
  unfold on_readable. unfold stopped in Hs. rewrite Hs.
  rewrite drain_frames_consume by done. cbn [rbuf_ set_rbuf]. rewrite zdrop_0, consume_rbuf.
  destruct (consume (S (length (rbuf_ w ++ bs))) (rbuf_ w ++ bs) w) as [[r|] w'] eqn:E; cbn [fst snd].
  - destruct Hcn as (H1 & H2 & H3). destruct (IH (set_rbuf r w')) as [IH1 IH2]; [by apply H3|done..|].
    change (set_rbuf r (set_rbuf (rbuf_ w ++ bs) w')) with (set_rbuf r w').
    cbn [rbuf_ set_rbuf] in IH1, IH2. rewrite consume_rbuf in IH1, IH2. cbn [fst snd] in IH2.
    split; [by rewrite IH1|done].
  - by rewrite reads_stopped.
Qed.

(** *** Messages *)

(** A complete message reaches the application, which then acts on the connection. *)
Definition delivered (t : bool) (data : bytes) (w : world) : world :=
  foldl (fun w c => exec c w) (emit (Deliver t data) w) (on_message t data).

Definition is_nil {A} (l : list A) : bool := match l with [] => true | _ => false end.

(** The frames a client sends for a message cut into pieces. *)
Fixpoint cont_frames (ps : list bytes) : list WsFrame :=
  match ps with
  | [] => []
  | p :: ps => mkWsFrame Continuation (is_nil ps) false false false true p :: cont_frames ps
  end.

Definition message_frames (op : Opcode) (ps : list bytes) : list WsFrame :=
  match ps with
  | [] => []
  | p :: ps => mkWsFrame op (is_nil ps) false false false true p :: cont_frames ps
  end.

Definition text_ok (t : bool) (data : bytes) : Prop :=
  t = true -> validate_utf8 cfg = true -> ws_is_valid_utf8 data = true.

Lemma deliver_ok data t w :
  text_ok t data ->
  deliver data t w = (negb (stopped (delivered t data w)), delivered t data w).
Proof.
  intros Ht. unfold deliver, delivered, stopped. rewrite negb_orb.
  destruct t, (validate_utf8 cfg) eqn:Hv; cbn; try done. by rewrite Ht.
Qed.

Lemma consume_wire fuel f rest w :
  encodable f -> all_bytes rest -> (length (wire f ++ rest) < fuel)%nat ->
  consume fuel (wire f ++ rest) w =
  let '(ok, w') := handle_frame f w in
  if negb ok then (None, w') else if stopped w' then (None, w')
  else consume (S (length rest)) rest w'.
Proof.
  intros Hf Hr Hl. destruct fuel as [|fuel]; [lia|]. cbn. rewrite decode_wire by done.
  destruct (handle_frame f w) as [[] w']; cbn; [|done]. fold (stopped w').
  destruct (stopped w'); [done|]. rewrite zdrop_app by done.
  rewrite length_app in Hl. pose proof (decode_wire f [] Hf) as E.
  apply (decode_frame_app _ []) in E as [_ E]; [|apply Forall_app; split; [by apply wire_bytes|done]].
  unfold zlen in E. apply (consume_fuel fuel (S (length rest))); [lia|lia|done].
Qed.

Lemma handle_cont fin_ p w :
  frag_opcode_ w <> 0 -> zlen (assembly_ w ++ p) <= max_message_size cfg ->
  handle_frame (mkWsFrame Continuation fin_ false false false true p) w =
  if fin_ then
    let '(ok, w') := deliver (assembly_ w ++ p) (frag_opcode_ w =? 1) (set_assembly (assembly_ w ++ p) 0 w) in
    (ok, set_assembly [] (frag_opcode_ w') w')
  else (true, set_assembly (assembly_ w ++ p) (frag_opcode_ w) w).
Proof.
  intros Hz Hs. rewrite zlen_app in Hs. unfold handle_frame. cbn. unfold handle_data. cbn.
  rewrite (proj2 (Z.eqb_neq _ 0)) by done.
  rewrite (proj2 (Z.ltb_ge (max_message_size cfg) (zlen (assembly_ w) + _))) by lia. done.
Qed.

(** Equal but for the read side. *)
Definition same_output (w w' : world) : Prop :=
  set_rbuf [] (set_assembly [] 0 w) = set_rbuf [] (set_assembly [] 0 w').

Lemma same_output_inert f w w' : inert f -> same_output w w' -> same_output (f w) w'.
Proof. intros [] ?; done. Qed.

Lemma delivered_inert f t data w : inert f -> delivered t data (f w) = f (delivered t data w).
Proof. intros Hf. unfold delivered. by rewrite emit_inert, exec_all_inert. Qed.

Lemma encodable_cont p fin_ :
  all_bytes p -> zlen p <= kMaxFramePayload ->
  encodable (mkWsFrame Continuation fin_ false false false true p).
Proof. intros. by constructor. Qed.

Lemma wires_bytes fs : Forall encodable fs -> all_bytes (concat (map wire fs)).
Proof.
  intros Hfs. apply Forall_concat, Forall_fmap. eapply Forall_impl; [exact Hfs|]. apply wire_bytes.
Qed.

Lemma encodable_conts ps :
  Forall all_bytes ps -> Forall (fun p => zlen p <= kMaxFramePayload) ps ->
  Forall encodable (cont_frames ps).
Proof.
  induction ps as [|p ps IH]; intros Hb Hk; cbn; [done|].
  apply Forall_cons in Hb as [], Hk as []. constructor; auto using encodable_cont.
Qed.

(** The continuation frames complete the message. *)
Lemma consume_conts ps w :
  ps <> [] -> Forall all_bytes ps -> Forall (fun p => zlen p <= kMaxFramePayload) ps ->
  stopped w = false -> frag_opcode_ w <> 0 ->
  zlen (assembly_ w ++ concat ps) <= max_message_size cfg ->
  text_ok (frag_opcode_ w =? 1) (assembly_ w ++ concat ps) ->
  let d := concat (map wire (cont_frames ps)) in
  same_output (snd (consume (S (length d)) d w))
    (delivered (frag_opcode_ w =? 1) (assembly_ w ++ concat ps) w).
Proof.
  revert w. induction ps as [|p ps IH]; intros w Hne Hb Hk Hs Hz Hsz Ht; [done|].
  pose proof (encodable_conts (p :: ps) Hb Hk) as He. cbn in He. apply Forall_cons in He as [He Hes].
  apply Forall_cons in Hb as [Hb Hbs], Hk as [Hk Hks].
  cbn [cont_frames map concat] in *. cbn zeta.
  rewrite consume_wire by (done || lia || by apply wires_bytes).
  pose proof (zlen_nonneg (concat ps)). rewrite app_assoc in Hsz, Ht |- *.
  rewrite handle_cont by (done || (rewrite zlen_app in Hsz; lia)).
  destruct ps as [|q ps]; cbn [is_nil].
  - cbn [cont_frames map concat] in *. rewrite app_nil_r in Ht, Hsz |- *.
    rewrite deliver_ok by done. rewrite delivered_inert by done.
    match goal with |- context [stopped ?x] => destruct (stopped x) eqn:E end; cbn; [done|].
    change (stopped (set_assembly ?a ?z ?v)) with (stopped v). 
    by match goal with |- context [stopped ?x] => destruct (stopped x) end.
  - cbn [negb]. change (stopped (set_assembly ?a ?z w)) with (stopped w). rewrite Hs.
    specialize (IH (set_assembly (assembly_ w ++ p) (frag_opcode_ w) w)).
    unfold same_output in *. rewrite IH by done. cbn [frag_opcode_ assembly_ set_assembly].
    by rewrite delivered_inert by done.
Qed.

Lemma consume_message op ps w :
  op = Text \/ op = Binary -> ps <> [] -> Forall all_bytes ps ->
  Forall (fun p => zlen p <= kMaxFramePayload) ps ->
  stopped w = false -> frag_opcode_ w = 0 -> zlen (concat ps) <= max_message_size cfg ->
  text_ok (bool_decide (op = Text)) (concat ps) ->
  let d := concat (map wire (message_frames op ps)) in
  all_bytes d /\
  same_output (snd (consume (S (length d)) d w)) (delivered (bool_decide (op = Text)) (concat ps) w).
Proof.
  intros Hop Hne Hb Hk Hs Hz Hsz Ht. destruct ps as [|p ps]; [done|].
  apply Forall_cons in Hb as [Hb Hbs], Hk as [Hk Hks].
  pose proof (encodable_conts ps Hbs Hks) as Hes.
  cbn [message_frames map concat] in *. cbn zeta.
  set (f := mkWsFrame op (is_nil ps) false false false true p).
  assert (encodable f) as He by (by destruct Hop; subst; constructor).
  split; [apply Forall_app; split; [by apply wire_bytes|by apply wires_bytes]|].
  rewrite consume_wire by (done || lia || by apply wires_bytes).
  pose proof (zlen_nonneg (concat ps)). rewrite zlen_app in Hsz.
  assert (handle_frame f w =
    if is_nil ps then deliver p (bool_decide (op = Text)) w
    else (true, set_assembly p (to_underlying op) w)) as ->.
  { unfold handle_frame, handle_data. cbn. rewrite Hz. cbn.
    rewrite (proj2 (Z.ltb_ge (max_message_size cfg) (zlen p))) by lia. by destruct Hop; subst. }
  destruct ps as [|q ps]; cbn [is_nil].
  - cbn [cont_frames map concat] in *. rewrite app_nil_r in Ht |- *. rewrite deliver_ok by done.
    match goal with |- context [stopped ?x] => destruct (stopped x) end; done.
  - cbn [negb]. change (stopped (set_assembly ?a ?z w)) with (stopped w). rewrite Hs.
    pose proof (consume_conts (q :: ps) (set_assembly p (to_underlying op) w)) as E.
    cbn [frag_opcode_ assembly_ set_assembly] in E.
    assert ((to_underlying op =? 1) = bool_decide (op = Text)) as Et by (by destruct Hop; subst).
    rewrite Et in E. unfold same_output in *.
    rewrite E, delivered_inert; try done; [by destruct Hop; subst|by rewrite zlen_app].
Qed.

(** *** Violations *)

Definition deliveries (l : list effect) : list (bool * bytes) :=
  omap (fun e => match e with Deliver t d => Some (t, d) | _ => None end) l.

Definition control (op : Opcode) : bool := match op with Close | Ping | Pong => true | _ => false end.

Definition defined (op : Opcode) : bool := match op with unnamed _ => false | _ => true end.

(** The close code RFC 6455 asks for when frame [f] may not follow, [None] when it
    may; [open_frag] tells that a fragmented text or binary message is in progress. *)
Definition violation (open_frag : option bool) (assembled : bytes) (f : WsFrame) : option Z :=
  let cont := match opcode f with Continuation => true | _ => false end in
  let text := match open_frag, opcode f with
              | Some t, _ => t | None, Text => true | None, _ => false end in
  let whole := if cont then assembled ++ payload f else payload f in
  if rsv1 f || rsv2 f || rsv3 f || negb (masked f) || negb (defined (opcode f)) then Some 1002
  else if control (opcode f) then
    if fin f && (zlen (payload f) <=? 125) then None else Some 1002
  else if negb (Bool.eqb cont (bool_decide (is_Some open_frag))) then Some 1002
  else if max_message_size cfg <? zlen whole then Some 1009
  else if fin f && text && validate_utf8 cfg && negb (ws_is_valid_utf8 whole) then Some 1007
  else None.

Definition frag_of (w : world) : option bool :=
  if frag_opcode_ w =? 0 then None else Some (frag_opcode_ w =? 1).

Lemma send_frame_log op p w :
  let w' := snd (send_frame op p w) in
  deliveries (log w') = deliveries (log w) /\
  (finished_ w' = true \/ accepted (log w') = accepted (log w) ++ [(op, p)]).
Proof.
  unfold send_frame, finish_close, next_write, buffer_tail, raw_append, arm_write.
  destruct (finished_ w) eqn:Hf; [by auto|].
  repeat (case_match; cbn in *; simplify_eq); unfold deliveries, accepted; cbn;
    rewrite ?omap_app; cbn; rewrite ?app_nil_r; auto.
Qed.

Lemma begin_close_log code reason w :
  stopped w = false ->
  let w' := begin_close code reason w in
  deliveries (log w') = deliveries (log w) /\ stopped w' = true /\
  (finished_ w' = true \/
   accepted (log w') = accepted (log w) ++ [(Close, [(code >> 8) .& 0xFF; code .& 0xFF] ++ ztake 123 reason)]).
Proof.
  intros Hs. cbn zeta. rewrite begin_close_stopped. unfold begin_close. unfold stopped in Hs. rewrite Hs.
  match goal with |- context [send_frame ?o ?p ?v] =>
    destruct (send_frame_log o p v) as [Hd Ha]; destruct (send_frame o p v) as [b w'] end.
  cbn in Hd, Ha. unfold finish_close. destruct (finished_ w') eqn:Hf; [cbn; by auto|].
  destruct (_ && _); [|by destruct Ha; [|auto]]. split_and!; [|done|by left].
  unfold deliveries in *. cbn. rewrite !omap_app. cbn. by rewrite !app_nil_r.
Qed.

Lemma handle_frame_data f w :
  rsv1 f || rsv2 f || rsv3 f = false -> masked f = true -> defined (opcode f) = true ->
  control (opcode f) = false -> handle_frame f w = handle_data f w.
Proof.
  intros Hr Hm Hd Hc. unfold handle_frame. rewrite Hr, Hm. by destruct (opcode f).
Qed.

Lemma handle_frame_control f w :
  rsv1 f || rsv2 f || rsv3 f = false -> masked f = true -> control (opcode f) = true ->
  negb (fin f) || (125 <? zlen (payload f)) = true ->
  handle_frame f w = (false, begin_close ProtocolError [] w).
Proof.
  intros Hr Hm Hd Hc. unfold handle_frame. rewrite Hr, Hm, Hc. by destruct (opcode f).
Qed.

Lemma deliver_bad data w :
  validate_utf8 cfg && negb (ws_is_valid_utf8 data) = true ->
  deliver data true w = (false, begin_close InvalidPayload [] w).
Proof. intros H. unfold deliver. cbn [andb]. by rewrite H. Qed.

Lemma handle_data_violation f w code :
  rsv1 f || rsv2 f || rsv3 f = false -> masked f = true -> defined (opcode f) = true ->
  control (opcode f) = false -> violation (frag_of w) (assembly_ w) f = Some code ->
  same_output (snd (handle_data f w)) (begin_close code [] w).
Proof.
  intros Hr Hm Hd Hc. unfold violation, handle_data, frag_of. rewrite Hr, Hm, Hd, Hc. cbn [negb orb].
  destruct (Z.eqb_spec (frag_opcode_ w) 0) as [E|E], (opcode f) eqn:Ho; try done.
  all: rewrite ?bool_decide_eq_true_2, ?bool_decide_eq_false_2 by (done || by intros []).
  all: cbn -[zlen deliver begin_close]; try (by intros [= <-]).
  all: rewrite <- ?zlen_app; destruct (_ <? _); try (by intros [= <-]).
  all: destruct (fin f); [|done]; cbn [andb]; try done.
  - change (bool_decide (Text = Text)) with true.
    destruct (_ && _) eqn:Ev; [|done]. intros [= <-]. by rewrite deliver_bad.
  - destruct (frag_opcode_ w =? 1); [|done]. cbn [andb].
    destruct (_ && _) eqn:Ev; [|done]. intros [= <-].
    by rewrite deliver_bad, begin_close_inert by done.
Qed.

Lemma handle_violation f w code :
  violation (frag_of w) (assembly_ w) f = Some code ->
  same_output (snd (handle_frame f w)) (begin_close code [] w).
Proof.
  intros Hv. pose proof Hv as Hv'. unfold violation in Hv.
  destruct (rsv1 f || rsv2 f || rsv3 f) eqn:Hr; cbn [orb] in Hv.
  { unfold handle_frame. rewrite Hr. by simplify_eq. }
  destruct (masked f) eqn:Hm; cbn [negb orb] in Hv.
  2: { unfold handle_frame. rewrite Hr, Hm. by simplify_eq. }
  destruct (defined (opcode f)) eqn:Hd; cbn [negb] in Hv.
  2: { unfold handle_frame. rewrite Hr, Hm. destruct (opcode f); try done. by simplify_eq. }
  destruct (control (opcode f)) eqn:Hc.
  2: { rewrite handle_frame_data by done. by apply handle_data_violation. }
  destruct (fin f && (zlen (payload f) <=? 125)) eqn:Hf; [done|].
  rewrite handle_frame_control; try done; [by simplify_eq|].
  rewrite Z.leb_antisym in Hf. by destruct (fin f), (125 <? zlen (payload f)).
Qed.

End Connection.

(** C35.  However the kernel cuts the client's byte stream into reads, the
    connection ends in the same state with the same messages delivered and the same
    frames sent, apart from the unread bytes a stopped connection leaves behind. *)
Theorem connection_segmentation cfg h rs1 rs2 w :
  stopped w = false -> rbuf_ w = [] -> Forall all_bytes rs1 -> Forall all_bytes rs2 ->
  concat rs1 = concat rs2 ->
  set_rbuf [] (reads cfg h rs1 w) = set_rbuf [] (reads cfg h rs2 w) /\
  (stopped (reads cfg h rs1 w) = false -> reads cfg h rs1 w = reads cfg h rs2 w).
Proof.
  intros Hs Hr H1 H2 E.
  assert (incomplete (rbuf_ w)) as Hi by (by rewrite Hr).
  assert (all_bytes (rbuf_ w)) as Hb by (by rewrite Hr).
  destruct (reads_consume cfg h rs1 w) as [A1 A2]; try done.
  destruct (reads_consume cfg h rs2 w) as [B1 B2]; try done.
  rewrite Hr, E in *. cbn [app] in *. rewrite A1, B1. split; [done|]. intros Hst.
  pose proof (consume_none cfg h (S (length (concat rs2))) (concat rs2) w ltac:(lia)
    ltac:(by apply Forall_concat)) as Hcn.
  destruct (consume _ _ _ _ _) as [[r|] w'].
  - specialize (A2 r eq_refl). specialize (B2 r eq_refl). cbn in A1, B1.
    destruct (reads cfg h rs1 w), (reads cfg h rs2 w). cbn in *. by simplify_eq.
  - apply (f_equal stopped) in A1. change (stopped (reads cfg h rs1 w) = stopped w') in A1. congruence.
Qed.

(** C15.  Every run of a connection: what the kernel took plus what is still
    buffered is exactly the handshake response followed by the accepted frames, each
    encoded whole and in order; a finished connection has sent a prefix of that; and
    nothing is accepted after a Close frame. *)
Theorem connection_wire cfg h response ws ts is_ :
  0 <= max_message_size cfg ->
  let w := history cfg h response ws ts is_ in
  sent_bytes (log w) `prefix_of` owed_bytes (log w) /\
  (finished_ w = false -> sent_bytes (log w) ++ pending w = owed_bytes (log w)) /\
  (forall a p b, accepted (log w) = a ++ (Close, p) :: b -> b = [] /\ closing_ w = true).
Proof.
  intros Hm w.
  assert (Inv cfg (Z.max (max_send_queue cfg) (zlen response)) w) as [] by (by apply Inv_history; lia).
  clearbody w.
  destruct (finished_ w) eqn:Hf; split_and?; try done.
  - intros a p b E. split; [by eapply inv_last0|]. by apply inv_finished0.
  - rewrite <- inv_wire0. by exists (pending w).
  - intros a p b E. split; [by eapply inv_last0|]. destruct (closing_ w); [done|].
    specialize (inv_open0 eq_refl). unfold no_close in inv_open0. rewrite E in inv_open0.
    apply Forall_app in inv_open0 as [_ F]. by apply Forall_cons in F as [F _].
Qed.

(** C37.  Teardown: [on_close] fires at most once, exactly when the connection is
    finished; then its event registrations and timer identifiers are gone, and nothing that
    happens later has any effect on it, but that a timer still registered with the reactor is
    not once it fires.  None is left if timers fire only while they are registered and no ping
    is sent while the pong timer of the last one is, as when [pong_timeout_ms] is less than
    [ping_interval_ms], and the reactor gives no timer the number -1; [pong_timer_left] shows
    one that is left otherwise. *)
Theorem connection_teardown cfg h response ws ts is_ :
  0 <= max_message_size cfg ->
  let w := history cfg h response ws ts is_ in
  length (closes (log w)) = (if finished_ w then 1 else 0)%nat /\
  (finished_ w = true ->
   read_armed_ w = false /\ write_armed_ w = false /\ ping_timer_id_ w = -1 /\ pong_timer_id_ w = -1 /\
   (forall i, step cfg h i w = match i with PingTick id | PongTimeout id => fired id w | _ => w end) /\
   (Some (-1) ∉ ts -> all_timely cfg h is_ (serve cfg response ws ts) -> registered w = [])).
Proof.
  intros Hm w.
  assert (Inv cfg (Z.max (max_send_queue cfg) (zlen response)) w) as [] by (by apply Inv_history; lia).
  split; [done|]. intros Hf. destruct (inv_finished0 Hf) as (_ & Hc & Hr & Hw & H1 & H2).
  split_and!; try done.
  - clearbody w. destruct w as [????? awaiting]; cbn in *; subst. destruct awaiting; by intros [| | | |[]].
  - intros Hts Ht. by apply (ok_history cfg h response ws ts is_ Hts Ht).
Qed.

(** Resource and content guarantees: the send queue never exceeds its limit
    (or the handshake response), a partial message never exceeds the message limit,
    and every delivered message is within it and, if text is validated, valid UTF-8. *)
Theorem connection_limits cfg h response ws ts is_ :
  0 <= max_message_size cfg ->
  let w := history cfg h response ws ts is_ in
  zlen (pending w) <= Z.max (max_send_queue cfg) (zlen response) /\
  zlen (assembly_ w) <= max_message_size cfg /\
  forall t data, Deliver t data ∈ log w ->
    zlen data <= max_message_size cfg /\
    (t = true -> validate_utf8 cfg = true -> ws_is_valid_utf8 data = true).
Proof.
  intros Hm w.
  assert (Inv cfg (Z.max (max_send_queue cfg) (zlen response)) w) as [] by (by apply Inv_history; lia).
  clearbody w.
  split_and!; try done. intros t data Hd. rewrite Forall_forall in inv_deliver0.
  exact (inv_deliver0 _ Hd).
Qed.

(** C3.  A text or binary message, whole or cut into fragments, sent by the client
    as masked frames over any segmentation of the stream, is delivered once, whole:
    the connection behaves as if the application had been handed the concatenation. *)
Theorem connection_message cfg h op ps rs w :
  op = Text \/ op = Binary -> ps <> [] -> Forall all_bytes ps ->
  Forall (fun p => zlen p <= kMaxFramePayload) ps ->
  stopped w = false -> frag_opcode_ w = 0 -> rbuf_ w = [] ->
  zlen (concat ps) <= max_message_size cfg ->
  text_ok cfg (bool_decide (op = Text)) (concat ps) ->
  Forall all_bytes rs -> concat rs = concat (map wire (message_frames op ps)) ->
  same_output (reads cfg h rs w) (delivered cfg h (bool_decide (op = Text)) (concat ps) w).
Proof.
  intros Hop Hne Hb Hk Hs Hz Hr Hsz Ht Hrs E.
  destruct (consume_message cfg h op ps w) as [Hd Hc]; try done.
  destruct (reads_consume cfg h rs w) as [A _]; try done; [by rewrite Hr..|].
  rewrite Hr, E in A. cbn [app] in A. unfold same_output in *. rewrite <- Hc.
  apply (f_equal (set_assembly [] 0)) in A. exact A.
Qed.

(** A frame that breaks the protocol (reserved bits, no mask, unknown opcode, a
    fragmented or long control frame, a misplaced continuation or data frame, an
    oversized message, invalid text) delivers nothing, stops the connection, and the
    last frame sent is a Close with the code RFC 6455 prescribes for it, unless the
    socket failed. *)
Theorem connection_violation cfg h f w code :
  stopped w = false -> violation cfg (frag_of w) (assembly_ w) f = Some code ->
  let w' := snd (handle_frame cfg h f w) in
  deliveries (log w') = deliveries (log w) /\ stopped w' = true /\
  (finished_ w' = true \/
   accepted (log w') = accepted (log w) ++ [(Close, [(code >> 8) .& 0xFF; code .& 0xFF])]).
Proof.
  intros Hs Hv w'.
  pose proof (handle_violation cfg h f w code Hv) as E. fold w' in E.
  destruct (begin_close_log cfg code [] w Hs) as (A & B & C).
  assert (log w' = log (begin_close cfg code [] w) /\ stopped w' = stopped (begin_close cfg code [] w) /\
          finished_ w' = finished_ (begin_close cfg code [] w)) as (-> & -> & ->).
  { clearbody w'. split_and!; [apply (f_equal log) in E|apply (f_equal stopped) in E|
      apply (f_equal finished_) in E]; exact E. }
  done.
Qed.

(** ** Witnesses *)

Definition test_cfg : WsServerConfig :=
  {| max_message_size := 1024; max_send_queue := 64; ping_interval_ms := 30000;
     pong_timeout_ms := 10000; validate_utf8 := true |}.

(** An application that echoes text. *)
Definition echo (t : bool) (data : bytes) : list command := if t then [CmdSendText data] else [].

Definition idle : world := serve test_cfg (chars "HTTP/1.1 101") [Accept 100; Accept 3] [Some 7].

Lemma connection_segmentation_witness :
  set_rbuf [] (reads test_cfg echo [[0x81; 0x81]; [1; 2; 3; 4; 0x40]] idle) =
  set_rbuf [] (reads test_cfg echo [[0x81; 0x81; 1; 2; 3]; [4; 0x40]] idle).
Proof.
  refine (proj1 (connection_segmentation test_cfg echo
    [[0x81; 0x81]; [1; 2; 3; 4; 0x40]] [[0x81; 0x81; 1; 2; 3]; [4; 0x40]] idle eq_refl eq_refl _ _ eq_refl)).
  all: vm_compute; repeat constructor; discriminate.
Defined.

Lemma connection_wire_witness :
  let w := history test_cfg echo (chars "HTTP/1.1 101") [Accept 100; Accept 3] [Some 7]
    [Writable; Readable (ReadBytes [0x81; 0x81; 1; 2; 3; 4; 0x40])] in
  sent_bytes (log w) ++ pending w = owed_bytes (log w).
Proof.
  refine (proj1 (proj2 (connection_wire test_cfg echo (chars "HTTP/1.1 101") [Accept 100; Accept 3]
    [Some 7] [Writable; Readable (ReadBytes [0x81; 0x81; 1; 2; 3; 4; 0x40])] _)) _);
    [done|reflexivity].
Defined.

Lemma connection_teardown_witness :
  let w := history test_cfg echo (chars "HTTP/1.1 101") [Accept 100; Accept 100] [Some 7; Some 8; Some 9] [Writable; PingTick 7; PongTimeout 8] in
  write_armed_ w = false /\ step test_cfg echo (Command (CmdSendText [1])) w = w /\ registered w = [].
Proof.
  pose proof (connection_teardown test_cfg echo (chars "HTTP/1.1 101") [Accept 100; Accept 100] [Some 7; Some 8; Some 9]
    [Writable; PingTick 7; PongTimeout 8] ltac:(done)) as [_ H].
  specialize (H eq_refl). destruct H as (_ & Hw & _ & _ & Hs & Hr). split; [exact Hw|]. split; [apply (Hs (Command (CmdSendText [1])))|].
  apply Hr.
  - apply (bool_decide_unpack _). exact I.
  - split; [exact I|]. split.
    + split; [vm_compute; left|]. intros id. vm_compute. intros Hin. apply elem_of_cons in Hin as [Hin|Hin]; [discriminate Hin|]. by apply not_elem_of_nil in Hin.
    + split; [|exact I]. vm_compute. right. left.
Defined.

(** A ping that is sent before the pong timer of the last one is gone overwrites its
    identifier: the timer stays registered, with the connection it holds, after the end. *)
Theorem pong_timer_left :
  let w := history test_cfg echo (chars "HTTP/1.1 101") [Accept 100; Accept 100; Accept 100] [Some 7; Some 8; Some 9; Some 10; Some 11]
    [Writable; PingTick 7; PingTick 9; Readable ReadEof] in
  finished_ w = true /\ registered w = [(8, PongTimer)].
Proof. vm_compute. split; reflexivity. Qed.

Lemma connection_limits_witness :
  let w := history test_cfg echo (chars "HTTP/1.1 101") [] [] [Command (CmdSendText [0x41])] in
  zlen (pending w) <= 64.
Proof.
  exact (proj1 (connection_limits test_cfg echo (chars "HTTP/1.1 101") [] []
    [Command (CmdSendText [0x41])] ltac:(done))).
Defined.

Lemma connection_message_witness :
  same_output
    (reads test_cfg echo
      [concat (map wire (message_frames Text [[0x41; 0xC3]; [0xA9]]))] idle)
    (delivered test_cfg echo true [0x41; 0xC3; 0xA9] idle).
Proof.
  refine (connection_message test_cfg echo Text [[0x41; 0xC3]; [0xA9]]
    [concat (map wire (message_frames Text [[0x41; 0xC3]; [0xA9]]))] idle
    (or_introl eq_refl) _ _ _ eq_refl eq_refl eq_refl _ (fun _ _ => eq_refl) _ eq_refl).
  3: repeat (constructor; [by vm_compute|]); constructor.
  all: vm_compute; repeat constructor; discriminate.
Defined.

Lemma connection_violation_witness :
  let w' := snd (handle_frame test_cfg echo (mkWsFrame Text true false false false false [1]) idle) in
  deliveries (log w') = [] /\ stopped w' = true.
Proof.
  pose proof (connection_violation test_cfg echo (mkWsFrame Text true false false false false [1]) idle
    1002 eq_refl eq_refl) as (H & H' & _).
  split; [exact H|exact H'].
Defined.
