(* ===== verification/Codec.v ===== *)
(** * The stream codecs of [codec/]: [IFrameCodec], [LengthPrefixedCodec], [LineCodec]

    The interface is a type class whose laws are what a reader of a byte stream needs;
    the stream theorem is proved once against the laws, and the two codecs are
    instances.  A codec's [decode] advances the view it is given: the result carries
    the status, the remaining view and the new codec state. *)

From S2P Require Import Prelude.

(** ** The interface *)

(** [DecodeStatus], with the frame [out] holds on completion. *)
Inductive DecodeStatus (F : Type) :=
  | Complete (out : F)
  | Incomplete
  | Error.
Arguments Complete {F} out.
Arguments Incomplete {F}.
Arguments Error {F}.

(** [IFrameCodec<Frame>]: an [encode] result is the list of iovec entries. *)
Class IFrameCodec (F S : Type) := {
  decode : S -> bytes -> DecodeStatus F * bytes * S;
  encode : S -> F -> Z -> list bytes;
  reset : S -> S;
}.

(** The read loop of the interface's documentation: decode, hand the frame over,
    [reset], until the buffer holds no further frame; an error closes the connection
    and the buffer is dropped. *)
Fixpoint drain {F S} `{IFrameCodec F S} (fuel : nat) (s : S) (buf : bytes) : list F * bool * bytes * S :=
  match fuel with
  | O => ([], true, buf, s)
  | Datatypes.S fuel =>
      match decode s buf with
      | (Complete f, buf, s) =>
          let '(fs, ok, buf, s) := drain fuel (reset s) buf in (f :: fs, ok, buf, s)
      | (Incomplete, buf, s) => ([], true, buf, s)
      | (Error, _, s) => ([], false, [], s)
      end
  end.

(** Reading chunk after chunk: what [decode] left is put before the next chunk. *)
Fixpoint read_chunks {F S} `{IFrameCodec F S} (s : S) (buf : bytes) (chunks : list bytes)
    : list F * bool :=
  match chunks with
  | [] => ([], true)
  | c :: chunks =>
      let '(fs, ok, buf, s) := drain (Datatypes.S (length (buf ++ c))) s (buf ++ c) in
      if ok then let '(gs, ok) := read_chunks s buf chunks in (fs ++ gs, ok) else (fs, false)
  end.

(** Equal results; after an error the view does not matter. *)
Definition same_result {F S} (x y : DecodeStatus F * bytes * S) : Prop :=
  match x, y with
  | (Error, _, s), (Error, _, t) => s = t
  | _, _ => x = y
  end.

(** What a codec promises: [inv] are its states, [ready] the ones that expect a new
    frame, [valid] the frames its wire format can carry. *)
Class LawfulCodec F S `{IFrameCodec F S} := {
  inv : S -> Prop;
  ready : S -> Prop;
  valid : F -> Prop;
  ready_inv s : ready s -> inv s;
  ready_waits s : ready s -> decode s [] = (Incomplete, [], s);
  (** Decoding does not disturb encoding. *)
  encode_decode s a d a' s' f : decode s a = (d, a', s') -> encode (reset s') f 2 = encode s f 2;
  (** A decoded frame is gone from the view, and more input does not change it. *)
  decode_complete s a b f a' s' :
    inv s -> decode s a = (Complete f, a', s') ->
    decode s (a ++ b) = (Complete f, a' ++ b, s') /\ (length a' < length a)%nat /\ ready (reset s');
  (** Input may stop anywhere and be continued. *)
  decode_incomplete s a b a' s' :
    inv s -> decode s a = (Incomplete, a', s') ->
    same_result (decode s (a ++ b)) (decode s' (a' ++ b)) /\ inv s' /\ decode s' a' = (Incomplete, a', s');
  decode_error s a b a' s' :
    inv s -> decode s a = (Error, a', s') -> exists b', decode s (a ++ b) = (Error, b', s');
  (** An encoded frame decodes, whatever follows it. *)
  decode_encode s f rest :
    ready s -> valid f ->
    exists s', decode s (concat (encode s f 2) ++ rest) = (Complete f, rest, s');
}.

(** ** [LengthPrefixedCodec] *)

Module LengthPrefix.

Record LengthPrefixedFrame := mkFrame { frame_length : Z; frame_payload : bytes }.

Inductive ParseState := Header | Body.

Record LengthPrefixedCodec := mkCodec {
  state_ : ParseState;
  header_buf_ : bytes;
  header_received_ : Z;
  pending_length_ : Z;
  body_buf_ : bytes;
}.

Definition kHeaderSize : Z := 4.
Definition kMaxFrameSize : Z := 64 * 1024 * 1024.

(** [while (header_received_ < kHeaderSize && consumed < buf.size())]: the header
    buffer, the count and the bytes not consumed. *)
Fixpoint fill_header (hdr : bytes) (received : Z) (buf : bytes) : bytes * Z * bytes :=
  match buf with
  | [] => (hdr, received, [])
  | b :: rest =>
      if received <? kHeaderSize
      then fill_header (<[Z.to_nat received := b]> hdr) (received + 1) rest
      else (hdr, received, buf)
  end.

(** The body stage.  [std::move] leaves [body_buf_] empty. *)
Definition decode_body (hdr : bytes) (received pending : Z) (body buf : bytes)
    : DecodeStatus LengthPrefixedFrame * bytes * LengthPrefixedCodec :=
  let remaining := pending - zlen body in
  let to_copy := Z.min remaining (zlen buf) in
  let body := body ++ ztake to_copy buf in
  let buf := zdrop to_copy buf in
  if zlen body <? pending then (Incomplete, buf, mkCodec Body hdr received pending body)
  else (Complete (mkFrame pending body), buf, mkCodec Body hdr received pending []).

Definition decode (s : LengthPrefixedCodec) (buf : bytes)
    : DecodeStatus LengthPrefixedFrame * bytes * LengthPrefixedCodec :=
  match state_ s with
  | Header =>
      let '(hdr, received, rest) := fill_header (header_buf_ s) (header_received_ s) buf in
      if received <? kHeaderSize then
        (Incomplete, rest, mkCodec Header hdr received (pending_length_ s) (body_buf_ s))
      else
        let pending := u32 (be_val hdr) in
        if kMaxFrameSize <? pending then
          (Error, buf, mkCodec Header hdr received pending (body_buf_ s))
        else decode_body hdr received pending [] rest
  | Body => decode_body (header_buf_ s) (header_received_ s) (pending_length_ s) (body_buf_ s) buf
  end.

Definition encode (s : LengthPrefixedCodec) (f : LengthPrefixedFrame) (max_vecs : Z) : list bytes :=
  if max_vecs <? 2 then [] else [be_bytes 4 (frame_length f); frame_payload f].

Definition reset (s : LengthPrefixedCodec) : LengthPrefixedCodec :=
  mkCodec Header (header_buf_ s) 0 0 [].

(** A new codec. *)
Definition init : LengthPrefixedCodec := mkCodec Header [0; 0; 0; 0] 0 0 [].

End LengthPrefix.

#[export] Instance LengthPrefix_codec :
    IFrameCodec LengthPrefix.LengthPrefixedFrame LengthPrefix.LengthPrefixedCodec :=
  {| decode := LengthPrefix.decode; encode := LengthPrefix.encode; reset := LengthPrefix.reset |}.

(** ** [LineCodec] *)

Module Lines.

(** [std::memchr]: the index of the first byte equal to [c]. *)
Fixpoint memchr (c : Z) (data : bytes) : option Z :=
  match data with
  | [] => None
  | b :: data => if b =? c then Some 0 else option_map (Z.add 1) (memchr c data)
  end.

Record LineCodec := mkLineCodec { crlf_ : bool }.

Definition decode (s : LineCodec) (buf : bytes) : DecodeStatus bytes * bytes * LineCodec :=
  match memchr 0x0A buf with
  | None => (Incomplete, buf, s)
  | Some lf_pos =>
      let line_end :=
        if crlf_ s && (0 <? lf_pos) && (at_ buf (lf_pos - 1) =? 0x0D) then lf_pos - 1 else lf_pos in
      (Complete (ztake line_end buf), zdrop (lf_pos + 1) buf, s)
  end.

Definition encode (s : LineCodec) (line : bytes) (max_vecs : Z) : list bytes :=
  if max_vecs <? 2 then [] else [line; if crlf_ s then [0x0D; 0x0A] else [0x0A]].

Definition reset (s : LineCodec) : LineCodec := s.

End Lines.

#[export] Instance Lines_codec : IFrameCodec bytes Lines.LineCodec :=
  {| decode := Lines.decode; encode := Lines.encode; reset := Lines.reset |}.

(** ** The stream theorem *)

Lemma same_result_refl {F S} (x : DecodeStatus F * bytes * S) : same_result x x.
Proof. by destruct x as [[[]]]. Qed.

Section Stream.
Context {F S : Type} `{LawfulCodec F S}.

Lemma drain_complete n (s : S) buf f buf' s' :
  decode s buf = (Complete f, buf', s') ->
  drain (Datatypes.S n) s buf =
  let '(fs, ok, r, t) := drain n (reset s') buf' in (f :: fs, ok, r, t).
Proof. intros E. cbn. by rewrite E. Qed.

Lemma drain_incomplete n (s : S) buf buf' s' :
  decode s buf = (Incomplete, buf', s') -> drain (Datatypes.S n) s buf = ([], true, buf', s').
Proof. intros E. cbn. by rewrite E. Qed.

Lemma drain_enough n m (s : S) buf :
  inv s -> (length buf < n)%nat -> (length buf < m)%nat -> drain n s buf = drain m s buf.
Proof.
  revert m s buf. induction n as [|n IH]; intros m s buf Hi Hn Hm; [lia|].
  destruct m as [|m]; [lia|]. cbn. destruct (decode s buf) as [[[f| |] buf'] s'] eqn:E; [|done..].
  destruct (decode_complete s buf [] f buf' s' Hi E) as (_ & Hl & Hr).
  rewrite (IH m) by (auto using ready_inv || lia). done.
Qed.

Lemma drain_app n m (s : S) a b :
  inv s -> (length a < n)%nat -> (length (a ++ b) < m)%nat ->
  match drain n s a with
  | (fs, true, a', s') =>
      inv s' /\ decode s' a' = (Incomplete, a', s') /\
      drain m s (a ++ b) =
      let '(gs, ok, r, t) := drain (Datatypes.S (length (a' ++ b))) s' (a' ++ b) in (fs ++ gs, ok, r, t)
  | (fs, false, _, _) => exists r t, drain m s (a ++ b) = (fs, false, r, t)
  end.
Proof.
  revert m s a. induction n as [|n IH]; intros m s a Hi Hn Hm; [lia|].
  destruct (decode s a) as [[[f| |] a'] s'] eqn:E.
  - rewrite (drain_complete _ _ _ _ _ _ E). destruct (decode_complete s a b f a' s' Hi E) as (E' & Hl & Hr).
    destruct m as [|m]; [lia|]. rewrite (drain_complete _ _ _ _ _ _ E').
    specialize (IH m (reset s') a' (ready_inv _ Hr) ltac:(lia)).
    specialize (IH ltac:(rewrite !length_app in *; lia)).
    destruct (drain n (reset s') a') as [[[fs ok] r] t]. destruct ok.
    + destruct IH as (Hi' & Hd' & IH). split_and!; [done..|]. rewrite IH.
      destruct (drain _ t (r ++ b)) as [[[gs ok] r'] t']. done.
    + destruct IH as (r' & t' & ->). eauto.
  - rewrite (drain_incomplete _ _ _ _ _ E). destruct (decode_incomplete s a b a' s' Hi E) as (E' & Hi' & Hd'). split_and!; [done..|].
    rewrite (drain_enough _ (Datatypes.S (Nat.max (length (a ++ b)) (length (a' ++ b)))) s) by (done || lia).
    rewrite (drain_enough _ (Datatypes.S (Nat.max (length (a ++ b)) (length (a' ++ b)))) s') by (done || lia).
    cbn [drain]. unfold same_result in E'.
    destruct (decode s (a ++ b)) as [[[f| |] r] t], (decode s' (a' ++ b)) as [[[f'| |] r'] t'];
      simplify_eq; try done.
    by destruct (drain _ (reset t') r') as [[[gs ok] r] t].
  - cbn [drain]. rewrite E. destruct (decode_error s a b a' s' Hi E) as (b' & E'). destruct m as [|m]; [lia|].
    cbn. rewrite E'. eauto.
Qed.

(** Reading in chunks is reading all at once. *)
Lemma read_chunks_drain (s : S) buf chunks :
  inv s -> decode s buf = (Incomplete, buf, s) ->
  read_chunks s buf chunks = fst (fst (drain (Datatypes.S (length (buf ++ concat chunks))) s (buf ++ concat chunks))).
Proof.
  revert s buf. induction chunks as [|c chunks IH]; intros s buf Hi Hd; cbn [concat read_chunks].
  { rewrite app_nil_r. cbn. by rewrite Hd. }
  rewrite app_assoc.
  pose proof (drain_app (Datatypes.S (length (buf ++ c))) (Datatypes.S (length ((buf ++ c) ++ concat chunks)))
    s (buf ++ c) (concat chunks) Hi ltac:(lia) ltac:(lia)) as Hda.
  destruct (drain (Datatypes.S (length (buf ++ c))) s (buf ++ c)) as [[[fs ok] r] t] eqn:Ed. destruct ok.
  - destruct Hda as (Hi' & Hd' & Hda). rewrite Hda, IH by done.
    by destruct (drain _ t (r ++ concat chunks)) as [[[gs ok] r'] t'].
  - by destruct Hda as (r' & t' & ->).
Qed.

Definition wire (s : S) (f : F) : bytes := concat (encode s f 2).

Lemma drain_wires n (s : S) fs rest :
  ready s -> Forall valid fs ->
  (length (concat (map (wire s) fs) ++ rest) < n)%nat ->
  exists s', ready s' /\
  drain n s (concat (map (wire s) fs) ++ rest) =
  let '(gs, ok, r, t) := drain (Datatypes.S (length rest)) s' rest in (fs ++ gs, ok, r, t).
Proof.
  intros Hr Hv Hn. revert n s Hr Hn. induction fs as [|f fs IH]; intros n s Hr Hn; cbn [map concat].
  { exists s. split; [done|]. rewrite (drain_enough n (Datatypes.S (length rest))) by
      (auto using ready_inv || lia). cbn [app]. by destruct (drain _ s rest) as [[[gs ok] r] t]. }
  apply Forall_cons in Hv as [Hf Hv]. cbn [map concat] in Hn. rewrite <- app_assoc in *.
  destruct (decode_encode s f (concat (map (wire s) fs) ++ rest) Hr Hf) as (s' & E).
  fold (wire s f) in E. destruct (decode_complete _ _ [] _ _ _ (ready_inv _ Hr) E) as (_ & Hl & Hr').
  assert (map (wire s) fs = map (wire (reset s')) fs) as Hw.
  { apply map_ext. intros g. unfold wire. by rewrite (encode_decode _ _ _ _ _ _ E). }
  destruct n as [|n]; [lia|]. rewrite (drain_complete _ _ _ _ _ _ E), Hw in *.
  destruct (IH Hv n (reset s') Hr') as (t & Ht & ->); [lia|]. exists t. split; [done|].
  by destruct (drain _ t rest) as [[[gs ok] r] u].
Qed.

Lemma read_chunks_wires (s : S) fs chunks :
  ready s -> Forall valid fs -> concat chunks = concat (map (wire s) fs) ->
  read_chunks s [] chunks = (fs, true).
Proof.
  intros Hr Hv E. rewrite read_chunks_drain, E by (by apply ready_inv || by apply ready_waits).
  cbn [app].
  destruct (drain_wires (Datatypes.S (length (concat (map (wire s) fs)))) s fs [] Hr Hv) as (s' & Hr' & Hd).
  { rewrite app_nil_r. lia. }
  rewrite app_nil_r in Hd. rewrite Hd, (drain_incomplete _ _ _ _ _ (ready_waits _ Hr')).
  by rewrite app_nil_r.
Qed.

End Stream.

(** ** The length-prefixed codec is lawful *)

Module LengthPrefixLaws.
Import LengthPrefix.

Lemma fill_header_4 hdr buf : fill_header hdr 4 buf = (hdr, 4, buf).
Proof. by destruct buf. Qed.

Lemma fill_header_app hdr r a b :
  length hdr = 4%nat -> 0 <= r <= 4 ->
  let '(h, r', rest) := fill_header hdr r a in
  fill_header hdr r (a ++ b) = fill_header h r' (rest ++ b) /\ length h = 4%nat /\
  r <= r' <= 4 /\ (r' < 4 -> rest = []) /\
  (r < 4 -> r' = 4 -> (length rest < length a)%nat).
Proof.
  revert hdr r. induction a as [|x a IH]; intros hdr r Hh Hr; cbn.
  { split_and!; done || lia. }
  unfold kHeaderSize. destruct (Z.ltb_spec r 4).
  - assert (length (<[Z.to_nat r:=x]> hdr) = 4%nat) as Hh' by (rewrite length_insert; done).
    specialize (IH _ (r + 1) Hh' ltac:(lia)).
    destruct (fill_header _ (r + 1) a) as [[h r'] rest] eqn:E.
    destruct IH as (IH1 & IH2 & IH3 & IH4 & IH5). split_and!; try done; try lia.
    intros _ Hr4. destruct (decide (r + 1 < 4)); [specialize (IH5 ltac:(lia) Hr4); lia|].
    replace (r + 1) with 4 in E by lia. rewrite fill_header_4 in E. simplify_eq. lia.
  - replace r with 4 by lia. rewrite fill_header_4. split_and!; done || lia.
Qed.

Lemma decode_body_app h r p body a b :
  zlen body <= p ->
  match decode_body h r p body a with
  | (Complete f, a', s') => decode_body h r p body (a ++ b) = (Complete f, a' ++ b, s') /\
      s' = mkCodec Body h r p [] /\ zlen a' = zlen a - (p - zlen body)
  | (Incomplete, a', s') => a' = [] /\ s' = mkCodec Body h r p (body ++ a) /\ zlen (body ++ a) < p /\
      decode_body h r p body (a ++ b) = decode_body h r p (body ++ a) b
  | (Error, _, _) => False
  end.
Proof.
  intros Hb. unfold decode_body. pose proof (zlen_nonneg a). pose proof (zlen_nonneg b).
  destruct (Z.le_gt_cases (p - zlen body) (zlen a)).
  - rewrite !Z.min_l by zlia. rewrite ztake_app_le, zdrop_app_le by lia.
    rewrite zlen_app, zlen_ztake by lia. destruct (Z.ltb_spec (zlen body + (p - zlen body)) p); [lia|].
    split_and!; try done. rewrite zlen_zdrop by lia. lia.
  - rewrite (Z.min_r _ (zlen a)) by lia. rewrite ztake_all, zdrop_all by lia.
    rewrite (proj2 (Z.ltb_lt _ _)) by zlia. split_and!; try done; [zlia|].
    rewrite (zlen_app a b), (zlen_app body a).
    assert (ztake (Z.min (p - zlen body) (zlen a + zlen b)) (a ++ b) =
      a ++ ztake (Z.min (p - (zlen body + zlen a)) (zlen b)) b) as ->.
    { unfold ztake, zlen in *. rewrite take_app_ge by lia. do 2 f_equal. lia. }
    assert (zdrop (Z.min (p - zlen body) (zlen a + zlen b)) (a ++ b) =
      zdrop (Z.min (p - (zlen body + zlen a)) (zlen b)) b) as ->.
    { rewrite zdrop_app_ge by lia. f_equal. lia. }
    by rewrite app_assoc.
Qed.

Lemma decode_body_nil h r p body :
  zlen body < p -> decode_body h r p body [] = (Incomplete, [], mkCodec Body h r p body).
Proof.
  intros. unfold decode_body. rewrite Z.min_r by zlia. cbn. rewrite app_nil_r.
  by rewrite (proj2 (Z.ltb_lt _ _)) by done.
Qed.

Definition codec_inv (s : LengthPrefixedCodec) : Prop :=
  length (header_buf_ s) = 4%nat /\
  match state_ s with
  | Header => 0 <= header_received_ s < 4
  | Body => zlen (body_buf_ s) < pending_length_ s
  end.

Definition codec_ready (s : LengthPrefixedCodec) : Prop :=
  length (header_buf_ s) = 4%nat /\ state_ s = Header /\ header_received_ s = 0.

Definition frame_valid (f : LengthPrefixedFrame) : Prop :=
  frame_length f = zlen (frame_payload f) /\ frame_length f <= kMaxFrameSize.

Lemma codec_complete s a b f a' s' :
  codec_inv s -> decode s a = (Complete f, a', s') ->
  decode s (a ++ b) = (Complete f, a' ++ b, s') /\ (length a' < length a)%nat /\ codec_ready (reset s').
Proof.
  intros [Hh Hs]. unfold decode. destruct (state_ s).
  - pose proof (fill_header_app (header_buf_ s) (header_received_ s) a b Hh ltac:(lia)) as Hf.
    destruct (fill_header _ _ a) as [[h r] rest]. destruct Hf as (-> & Hh' & Hr & _ & Hl).
    unfold kHeaderSize. destruct (Z.ltb_spec r 4); [done|]. replace r with 4 in * by lia.
    rewrite fill_header_4. cbn -[wrap decode_body]. pose proof (wrap_range 32 (be_val h) ltac:(lia)) as [Hv _].
    destruct (_ <? u32 (be_val h)) eqn:Hk; [done|]. intros E.
    pose proof (decode_body_app h 4 (u32 (be_val h)) [] rest b Hv) as Hd. rewrite E in Hd.
    destruct Hd as (Hd & -> & Hz). rewrite Hd. split_and!; try done.
    rewrite zlen_nil in Hz. unfold zlen in *. lia.
  - intros E. pose proof (decode_body_app (header_buf_ s) (header_received_ s) (pending_length_ s) (body_buf_ s) a b) as Hd.
    rewrite E in Hd. destruct Hd as (Hd & -> & Hz); [lia|]. rewrite Hd. split_and!; try done.
    unfold zlen in *. lia.
Qed.

Lemma codec_incomplete s a b a' s' :
  codec_inv s -> decode s a = (Incomplete, a', s') ->
  same_result (decode s (a ++ b)) (decode s' (a' ++ b)) /\ codec_inv s' /\ decode s' a' = (Incomplete, a', s').
Proof.
  intros [Hh Hs]. unfold decode. destruct (state_ s) eqn:Est.
  - pose proof (fill_header_app (header_buf_ s) (header_received_ s) a b Hh ltac:(lia)) as Hf.
    destruct (fill_header _ _ a) as [[h r] rest]. destruct Hf as (-> & Hh' & Hr & Hn & Hl).
    unfold kHeaderSize. destruct (Z.ltb_spec r 4).
    + intros [= <- <-]. rewrite (Hn H). cbn. rewrite (proj2 (Z.ltb_lt r 4)) by done.
      split_and!; try done; [|split; cbn; done || lia].
      destruct (fill_header h r b) as [[h' r'] rest'].
      destruct (r' <? 4); [done|]. destruct (kMaxFrameSize <? _); [done|].
      apply same_result_refl.
    + replace r with 4 in * by lia. rewrite fill_header_4. cbn -[wrap decode_body].
      pose proof (wrap_range 32 (be_val h) ltac:(lia)) as [Hv _].
      destruct (_ <? u32 (be_val h)); [done|]. intros E.
      pose proof (decode_body_app h 4 (u32 (be_val h)) [] rest b Hv) as Hd. rewrite E in Hd.
      destruct Hd as (-> & -> & Hz & ->). cbn -[wrap decode_body same_result].
      split_and!; [apply same_result_refl|by split|by apply decode_body_nil].
  - intros E. pose proof (decode_body_app (header_buf_ s) (header_received_ s) (pending_length_ s) (body_buf_ s) a b) as Hd.
    rewrite E in Hd. destruct Hd as (-> & -> & Hz & ->); [lia|]. cbn -[decode_body same_result].
    split_and!; [apply same_result_refl|by split|by apply decode_body_nil].
Qed.

Lemma codec_error s a b a' s' :
  codec_inv s -> decode s a = (Error, a', s') -> exists b', decode s (a ++ b) = (Error, b', s').
Proof.
  intros [Hh Hs]. unfold decode. destruct (state_ s).
  - pose proof (fill_header_app (header_buf_ s) (header_received_ s) a b Hh ltac:(lia)) as Hf.
    destruct (fill_header _ _ a) as [[h r] rest]. destruct Hf as (-> & Hh' & Hr & Hn & Hl).
    unfold kHeaderSize. destruct (Z.ltb_spec r 4); [done|]. replace r with 4 in * by lia.
    rewrite fill_header_4. cbn -[wrap decode_body].
    destruct (_ <? u32 (be_val h)); [intros [= _ <-]; eauto|].
    unfold decode_body. by destruct (_ <? _).
  - unfold decode_body. by destruct (_ <? _).
Qed.

Lemma fill_header_word hdr word rest :
  length hdr = 4%nat -> length word = 4%nat -> fill_header hdr 0 (word ++ rest) = (word, 4, rest).
Proof.
  intros Hh Hw. destruct word as [|b0 [|b1 [|b2 [|b3 [|]]]]]; try done.
  destruct hdr as [|h0 [|h1 [|h2 [|h3 [|]]]]]; try done. cbn. apply fill_header_4.
Qed.

Lemma codec_decode_encode s f rest :
  codec_ready s -> frame_valid f ->
  exists s', decode s (concat (encode s f 2) ++ rest) = (Complete f, rest, s').
Proof.
  intros (Hh & Hst & Hr) [Hl Hm]. pose proof (zlen_nonneg (frame_payload f)).
  pose proof (zlen_nonneg rest). unfold kMaxFrameSize in *. destruct f as [n payload].
  cbn [frame_length frame_payload] in *. subst n. unfold decode. rewrite Hst, Hr.
  cbn [encode frame_length frame_payload concat Z.ltb Z.compare Pos.compare Pos.compare_cont].
  rewrite app_nil_r, <- app_assoc, fill_header_word by (done || apply length_be_bytes).
  rewrite be_val_be_bytes. change (256 ^ Z.of_nat 4) with (2 ^ 32). rewrite Z.mod_small, wrap_small by rlia.
  change (4 <? kHeaderSize) with false. rewrite (proj2 (Z.ltb_ge _ (zlen payload))) by (done || lia).
  unfold decode_body. rewrite zlen_nil, Z.sub_0_r, (zlen_app payload rest), Z.min_l by lia.
  rewrite ztake_app, zdrop_app by done. cbn [app]. rewrite Z.ltb_irrefl. eauto.
Qed.

#[global] Instance LengthPrefix_lawful : LawfulCodec LengthPrefixedFrame LengthPrefixedCodec.
Proof.
  refine {| inv := codec_inv; ready := codec_ready; valid := frame_valid |}; cbn.
  - intros s (Hh & Hs & Hr). unfold codec_inv. rewrite Hs. split; [done|lia].
  - intros [st hdr r p body] (Hh & Hs & Hr). cbn in *. by subst.
  - done.
  - exact codec_complete.
  - exact codec_incomplete.
  - exact codec_error.
  - exact codec_decode_encode.
Defined.

End LengthPrefixLaws.

(** ** The line codec is lawful *)

Module LinesLaws.
Import Lines.

Lemma memchr_app c a b :
  match memchr c a with
  | Some i => memchr c (a ++ b) = Some i /\ 0 <= i < zlen a
  | None => memchr c (a ++ b) = option_map (Z.add (zlen a)) (memchr c b)
  end.
Proof.
  induction a as [|x a IH]; cbn.
  { by destruct (memchr c b). }
  rewrite zlen_cons. pose proof (zlen_nonneg a). destruct (x =? c); [split; [done|lia]|].
  destruct (memchr c a) as [i|]; cbn.
  - destruct IH as [-> ?]. cbn. split; [done|lia].
  - rewrite IH. destruct (memchr c b); cbn; [f_equal; lia|done].
Qed.

Lemma memchr_none c a : Forall (fun b => b <> c) a -> memchr c a = None.
Proof.
  induction 1 as [|x a Hx _ IH]; [done|]. cbn. by rewrite (proj2 (Z.eqb_neq x c)), IH.
Qed.

Lemma line_complete s a b f a' s' :
  decode s a = (Complete f, a', s') ->
  decode s (a ++ b) = (Complete f, a' ++ b, s') /\ (length a' < length a)%nat.
Proof.
  unfold decode. pose proof (memchr_app 0x0A a b) as Hm. destruct (memchr 0x0A a) as [i|]; [|done].
  destruct Hm as [-> Hi]. intros [= <- <- <-].
  rewrite zdrop_app_le by lia. split.
  - f_equal. f_equal. f_equal. destruct (Z.ltb_spec 0 i); [|rewrite andb_false_r; apply ztake_app_le; case_match; lia].
    rewrite at_app_l by lia. rewrite ztake_app_le; [done|]. case_match; lia.
  - unfold zdrop, zlen in *. rewrite length_drop. lia.
Qed.

Lemma line_decode_encode s line rest :
  Forall (fun b => b <> 0x0A) line ->
  exists s', decode s (concat (encode s line 2) ++ rest) = (Complete line, rest, s').
Proof.
  intros Hl. exists s. pose proof (zlen_nonneg line). apply memchr_none in Hl.
  destruct s as [[]]; unfold decode, encode; cbn [crlf_ concat Z.ltb Z.compare Pos.compare Pos.compare_cont].
  - pose proof (memchr_app 0x0A line ([0x0D; 0x0A] ++ rest)) as Hm. rewrite Hl in Hm.
    rewrite app_nil_r, <- app_assoc, Hm. cbn [memchr app Z.eqb Pos.eqb option_map].
    rewrite (proj2 (Z.ltb_lt 0 _)) by lia. cbn [andb].
    replace (zlen line + (1 + 0) - 1) with (zlen line) by lia.
    assert (at_ (line ++ 0x0D :: 0x0A :: rest) (zlen line) = 0x0D) as ->.
    { unfold at_, zlen. rewrite Nat2Z.id, app_nth2, Nat.sub_diag by lia. done. }
    cbn [Z.eqb Pos.eqb]. rewrite ztake_app by done.
    rewrite zdrop_app_ge by lia. do 3 f_equal.
    replace (zlen line + (1 + 0) + 1 - zlen line) with 2 by lia. done.
  - pose proof (memchr_app 0x0A line ([0x0A] ++ rest)) as Hm. rewrite Hl in Hm.
    rewrite app_nil_r, <- app_assoc, Hm. cbn [memchr app Z.eqb Pos.eqb option_map andb].
    rewrite ztake_app, zdrop_app_ge by lia. do 3 f_equal.
    replace (zlen line + 0 + 1 - zlen line) with 1 by lia. done.
Qed.

#[global] Instance Lines_lawful : LawfulCodec bytes LineCodec.
Proof.
  refine {| inv := fun _ => True; ready := fun _ => True;
            valid := Forall (fun b => b <> 0x0A) |}; cbn; try done.
  - intros s a d a' s' f. unfold decode. by destruct (memchr _ _); intros [= _ _ <-].
  - intros s a b f a' s' _ E. destruct (line_complete s a b f a' s' E) as [? ?]. done.
  - intros s a b a' s' _. unfold decode at 1. destruct (memchr _ _) eqn:Hm; [done|]. intros [= <- <-].
    split_and!; [apply same_result_refl|done|]. unfold decode. by rewrite Hm.
  - intros s a b a' s' _. unfold decode. by destruct (memchr _ _).
  - intros s f rest _. apply line_decode_encode.
Defined.

End LinesLaws.

(** ** Properties *)

(** Length-prefixed frames of at most 64 MiB, encoded one after the other and
    received in chunks cut anywhere, even inside a length prefix, are decoded to
    exactly those frames in order. *)
Theorem length_prefix_stream (s : LengthPrefix.LengthPrefixedCodec) fs chunks :
  LengthPrefixLaws.codec_ready s -> Forall LengthPrefixLaws.frame_valid fs ->
  concat chunks = concat (map (wire s) fs) ->
  read_chunks s [] chunks = (fs, true).
Proof. exact (read_chunks_wires s fs chunks). Qed.

(** Lines without a line feed, encoded with either delimiter and received in
    chunks cut anywhere, are decoded to exactly those lines in order. *)
Theorem line_stream (s : Lines.LineCodec) (ls : list bytes) chunks :
  Forall (Forall (fun b => b <> 0x0A)) ls -> concat chunks = concat (map (wire s) ls) ->
  read_chunks s [] chunks = (ls, true).
Proof. intros Hl. exact (read_chunks_wires s ls chunks I Hl). Qed.

(** A prefix announcing more than 64 MiB is refused as soon as its fourth byte
    is there, without taking any of the body; the codec then refuses everything until
    it is reset, after which it expects a new frame. *)
Theorem length_prefix_oversized (s : LengthPrefix.LengthPrefixedCodec) n rest :
  LengthPrefixLaws.codec_ready s -> 64 * 1024 * 1024 < n < 2 ^ 32 ->
  exists s', LengthPrefix.decode s (be_bytes 4 n ++ rest) = (Error, be_bytes 4 n ++ rest, s') /\
  (forall more, fst (fst (LengthPrefix.decode s' more)) = Error) /\
  LengthPrefixLaws.codec_ready (LengthPrefix.reset s').
Proof.
  intros (Hh & Hst & Hr) Hn. unfold LengthPrefix.decode at 1. rewrite Hst, Hr.
  rewrite LengthPrefixLaws.fill_header_word by (done || apply length_be_bytes).
  change (4 <? LengthPrefix.kHeaderSize) with false.
  rewrite be_val_be_bytes. change (256 ^ Z.of_nat 4) with (2 ^ 32).
  rewrite Z.mod_small, wrap_small by rlia. unfold LengthPrefix.kMaxFrameSize.
  rewrite (proj2 (Z.ltb_lt _ n)) by lia. eexists. split_and!; [done| |].
  - intros more. unfold LengthPrefix.decode.
    cbn -[LengthPrefix.fill_header be_bytes be_val wrap Z.ltb].
    rewrite LengthPrefixLaws.fill_header_4. change (4 <? LengthPrefix.kHeaderSize) with false.
    rewrite be_val_be_bytes. change (256 ^ Z.of_nat 4) with (2 ^ 32).
    rewrite Z.mod_small, wrap_small by rlia. unfold LengthPrefix.kMaxFrameSize.
    by rewrite (proj2 (Z.ltb_lt _ n)) by lia.
  - split_and!; done || apply length_be_bytes.
Qed.

(** ** Witnesses *)

Lemma length_prefix_stream_witness :
  read_chunks LengthPrefix.init [] [[0; 0]; [0; 2; 7]; [8; 0; 0; 0; 0]] =
  ([LengthPrefix.mkFrame 2 [7; 8]; LengthPrefix.mkFrame 0 []], true).
Proof.
  apply (length_prefix_stream LengthPrefix.init
    [LengthPrefix.mkFrame 2 [7; 8]; LengthPrefix.mkFrame 0 []] [[0; 0]; [0; 2; 7]; [8; 0; 0; 0; 0]]).
  - by vm_compute.
  - repeat (constructor; [split; vm_compute; congruence|]). constructor.
  - by vm_compute.
Defined.

Lemma line_stream_witness :
  read_chunks (Lines.mkLineCodec true) [] [chars "GET a"; [0x0D]; [0x0A; 0x0D]; [0x0A]] =
  ([chars "GET a"; []], true).
Proof.
  apply (line_stream (Lines.mkLineCodec true) [chars "GET a"; []]
    [chars "GET a"; [0x0D]; [0x0A; 0x0D]; [0x0A]]); [|by vm_compute].
  vm_compute. repeat constructor; discriminate.
Defined.

Lemma length_prefix_oversized_witness :
  exists s', LengthPrefix.decode LengthPrefix.init ([0xFF; 0xFF; 0xFF; 0xFF] ++ [1]) =
             (Error, [0xFF; 0xFF; 0xFF; 0xFF] ++ [1], s') /\
             fst (fst (LengthPrefix.decode s' [2])) = Error.
Proof.
  destruct (length_prefix_oversized LengthPrefix.init (2 ^ 32 - 1) [1]) as (s' & H & H' & _);
    [by vm_compute|lia|].
  exists s'. split; [exact H|apply H'].
Defined.
