(* ===== verification/BlockStream.v ===== *)
(** * Streaming a message through a block function

    [Poly1305::update], [Sha256Context::update] and [Sha512Context::update] are the same
    code over a different block size and block function: a partial block is kept in
    a buffer, whole blocks are absorbed straight from the input.  The section models
    that code once; its lemma says that the context depends on the concatenation of
    the pieces alone: the whole blocks have been absorbed in order and the rest is in
    the buffer. *)

From S2P Require Import Prelude.

(** The whole [n]-byte blocks of a message, and what is left. *)
Fixpoint chop_from (fuel : nat) (n : Z) (msg : bytes) : list bytes * bytes :=
  match fuel with
  | O => ([], msg)
  | S fuel =>
      if n <=? zlen msg then
        let '(bs, rest) := chop_from fuel n (zdrop n msg) in (ztake n msg :: bs, rest)
      else ([], msg)
  end.

Definition chop (n : Z) (msg : bytes) : list bytes * bytes := chop_from (length msg) n msg.

Lemma chop_from_fuel n f g msg : 0 < n -> (length msg <= f)%nat -> (length msg <= g)%nat ->
  chop_from f n msg = chop_from g n msg.
Proof.
  intros Hn. revert g msg. induction f as [|f IH]; intros g msg Hf Hg.
  - destruct msg; [|simpl in Hf; lia]. destruct g; [done|]. cbn [chop_from].
    by rewrite (proj2 (Z.leb_gt _ _)) by (unfold zlen; simpl; lia).
  - destruct g as [|g].
    { destruct msg; [|simpl in Hg; lia]. cbn [chop_from].
      by rewrite (proj2 (Z.leb_gt _ _)) by (unfold zlen; simpl; lia). }
    cbn [chop_from]. destruct (Z.leb_spec n (zlen msg)); [|done].
    rewrite (IH g); [done|..]; unfold zdrop, zlen in *; rewrite length_drop; lia.
Qed.

Lemma chop_small n msg : zlen msg < n -> chop n msg = ([], msg).
Proof.
  unfold chop. destruct msg; intros; [done|]. cbn [length chop_from].
  by rewrite (proj2 (Z.leb_gt _ _)) by done.
Qed.

Lemma chop_cons n block msg : 0 < n -> zlen block = n ->
  chop n (block ++ msg) = (block :: fst (chop n msg), snd (chop n msg)).
Proof.
  intros Hn Hb. unfold chop.
  assert (length (block ++ msg) = S (Nat.pred (length (block ++ msg)))) as E.
  { rewrite length_app. unfold zlen in Hb. lia. }
  rewrite E. cbn [chop_from].
  rewrite (proj2 (Z.leb_le _ _)), zdrop_app, ztake_app by (done || zlia).
  rewrite (chop_from_fuel n _ (length msg) msg) by (done || rewrite length_app; unfold zlen in Hb; lia).
  by destruct (chop_from _ _ _).
Qed.

Lemma chop_rest n msg : 0 < n -> zlen (snd (chop n msg)) < n.
Proof.
  intros Hn. induction msg as [msg IH] using list_length_ind.
  destruct (Z.lt_ge_cases (zlen msg) n); [by rewrite chop_small|].
  rewrite <- (ztake_zdrop n msg), chop_cons by (done || rewrite zlen_ztake; lia). apply IH.
  unfold zdrop, zlen in *. rewrite length_drop. lia.
Qed.

(** Chopping a concatenation continues from the rest of the first part. *)
Lemma chop_app n a b : 0 < n ->
  chop n (a ++ b) = (fst (chop n a) ++ fst (chop n (snd (chop n a) ++ b)), snd (chop n (snd (chop n a) ++ b))).
Proof.
  intros Hn. induction a as [a IH] using list_length_ind.
  destruct (Z.lt_ge_cases (zlen a) n).
  { rewrite (chop_small n a) by done. apply surjective_pairing. }
  assert (zlen (ztake n a) = n) as Hl by (rewrite zlen_ztake; lia).
  rewrite <- (ztake_zdrop n a), <- app_assoc, !(chop_cons n (ztake n a)) by done. cbn [fst snd].
  rewrite (IH (zdrop n a)); [done|]. unfold zdrop, zlen in *. rewrite length_drop. lia.
Qed.

Lemma chop_bytes n msg : 0 < n -> all_bytes msg ->
  Forall (fun b => all_bytes b /\ zlen b = n) (fst (chop n msg)) /\ all_bytes (snd (chop n msg)).
Proof.
  intros Hn. induction msg as [msg IH] using list_length_ind. intros Hm.
  destruct (Z.lt_ge_cases (zlen msg) n); [by rewrite chop_small|].
  assert (zlen (ztake n msg) = n) as Hl by (rewrite zlen_ztake; lia).
  rewrite <- (ztake_zdrop n msg), chop_cons by done. cbn [fst snd].
  destruct (IH (zdrop n msg)) as [H1 H2]; [unfold zdrop, zlen in *; rewrite length_drop; lia|auto|].
  split; [|done]. constructor; [auto|done].
Qed.

Lemma zlen_chop n msg : 0 < n ->
  zlen msg = n * zlen (fst (chop n msg)) + zlen (snd (chop n msg)).
Proof.
  intros Hn. induction msg as [msg IH] using list_length_ind.
  destruct (Z.lt_ge_cases (zlen msg) n); [rewrite chop_small by done; cbn [fst snd]; zlia|].
  assert (zlen (ztake n msg) = n) as Hl by (rewrite zlen_ztake; lia).
  rewrite <- (ztake_zdrop n msg), zlen_app, chop_cons by done. cbn [fst snd].
  rewrite zlen_cons, Hl, (IH (zdrop n msg)) at 1; [lia|]. unfold zdrop, zlen in *. rewrite length_drop. lia.
Qed.

(** ** The context *)

Record stream (S : Type) := mkStream {
  state_ : S;
  buf_ : bytes;
  buf_len_ : Z;
}.
Arguments mkStream {S}.
Arguments state_ {S}.
Arguments buf_ {S}.
Arguments buf_len_ {S}.

Section stream.
Context {S : Type} (n : Z) (absorb : S -> bytes -> S).

(** A new context with a zeroed buffer. *)
Definition stream_init (st : S) : stream S := mkStream st (replicate (Z.to_nat n) 0) 0.

(** [while (len >= n)]. *)
Fixpoint absorb_blocks (fuel : nat) (st : S) (src : bytes) : S * bytes :=
  match fuel with
  | O => (st, src)
  | Datatypes.S fuel =>
      if n <=? zlen src then absorb_blocks fuel (absorb st (ztake n src)) (zdrop n src)
      else (st, src)
  end.

(** The block being filled: the context and what is left of the input. *)
Definition fill_partial (c : stream S) (src : bytes) : stream S * bytes :=
  if 0 <? buf_len_ c then
    let space := n - buf_len_ c in
    let take := if zlen src <? space then zlen src else space in
    let buf := store (buf_ c) (buf_len_ c) (ztake take src) in
    let buf_len := buf_len_ c + take in
    (if buf_len =? n then mkStream (absorb (state_ c) buf) buf 0
     else mkStream (state_ c) buf buf_len, zdrop take src)
  else (c, src).

Definition stream_update (c : stream S) (data : bytes) : stream S :=
  if zlen data =? 0 then c else
  let '(c, src) := fill_partial c data in
  let '(st, rest) := absorb_blocks (length src) (state_ c) src in
  if 0 <? zlen rest then mkStream st (store (buf_ c) 0 rest) (zlen rest)
  else mkStream st (buf_ c) (buf_len_ c).

(** The part of the buffer in use. *)
Definition pending (c : stream S) : bytes := ztake (buf_len_ c) (buf_ c).

(** The context after [msg], from the state [st]. *)
Record streamed (st : S) (msg : bytes) (c : stream S) : Prop := {
  streamed_state : state_ c = foldl absorb st (fst (chop n msg));
  streamed_pending : pending c = snd (chop n msg);
  streamed_len : buf_len_ c = zlen (snd (chop n msg));
  streamed_buf : zlen (buf_ c) = n;
}.

Hypothesis n_pos : 0 < n.

Lemma streamed_init st : streamed st [] (stream_init st).
Proof.
  assert (chop n [] = ([], [])) as E by (apply chop_small; zlia).
  constructor; rewrite ?E; try done. unfold stream_init, buf_. rewrite zlen_replicate. lia.
Qed.

Lemma absorb_blocks_chop fuel st src : (length src <= fuel)%nat ->
  absorb_blocks fuel st src = (foldl absorb st (fst (chop n src)), snd (chop n src)).
Proof.
  intros Hf. unfold chop. rewrite (chop_from_fuel n _ fuel src) by (done || lia). clear Hf.
  revert st src. induction fuel as [|fuel IH]; intros st src; [done|]. cbn [absorb_blocks chop_from].
  destruct (n <=? zlen src); [|done]. rewrite IH. by destruct (chop_from _ _ _).
Qed.

(** Filling the partial block leaves either nothing to do or no partial block. *)
Lemma fill_partial_streamed st msg c src : streamed st msg c ->
  exists a b, src = a ++ b /\ snd (fill_partial c src) = b /\
  streamed st (msg ++ a) (fst (fill_partial c src)) /\
  (b = [] \/ buf_len_ (fst (fill_partial c src)) = 0).
Proof.
  intros [Hs Hp Hl Hb]. pose proof (chop_rest n msg n_pos) as Hr.
  unfold fill_partial. destruct (Z.ltb_spec 0 (buf_len_ c)) as [H0|H0].
  2: { exists [], src. rewrite app_nil_r. split_and!; try done. right. cbn [fst]. zlia. }
  set (take := if zlen src <? n - buf_len_ c then zlen src else n - buf_len_ c).
  assert (0 <= take <= zlen src /\ buf_len_ c + take <= n /\
    (take < n - buf_len_ c -> take = zlen src)) as (Ht1 & Ht2 & Ht3).
  { unfold take. destruct (Z.ltb_spec (zlen src) (n - buf_len_ c)); zlia. }
  assert (zlen (ztake take src) = take) as Hlt by (rewrite zlen_ztake; lia).
  pose proof (ztake_store (buf_ c) (buf_len_ c) (ztake take src) ltac:(lia)) as Hst.
  unfold pending in Hp. rewrite Hlt, Hp in Hst.
  assert (zlen (store (buf_ c) (buf_len_ c) (ztake take src)) = n) as Hsl
    by (rewrite zlen_store by lia; done).
  exists (ztake take src), (zdrop take src). rewrite ztake_zdrop.
  split; [done|]. split; [done|]. cbn [fst].
  destruct (Z.eqb_spec (buf_len_ c + take) n) as [E|E].
  - rewrite E, ztake_all in Hst by lia. split; [|by right].
    assert (chop n (msg ++ ztake take src) = (fst (chop n msg) ++ [snd (chop n msg) ++ ztake take src], [])) as Hc.
    { rewrite chop_app by done. rewrite <- (app_nil_r (snd (chop n msg) ++ _)) at 1 2.
      rewrite chop_cons, (chop_small n []) by (done || zlia). done. }
    constructor; rewrite ?Hc; cbn [fst snd state_ buf_ buf_len_]; try done.
    rewrite foldl_app. cbn [foldl]. by rewrite <- Hs, Hst.
  - split; [|left; apply zdrop_all; lia].
    assert (chop n (msg ++ ztake take src) = (fst (chop n msg), snd (chop n msg) ++ ztake take src)) as Hc.
    { rewrite chop_app, (chop_small n (_ ++ _)) by (done || zlia). by rewrite app_nil_r. }
    constructor; rewrite ?Hc; cbn [fst snd state_ buf_ buf_len_]; try done. zlia.
Qed.

(** A context depends on the concatenation of the pieces it was given. *)
Lemma streamed_update st msg c data : streamed st msg c -> streamed st (msg ++ data) (stream_update c data).
Proof.
  intros Hc. unfold stream_update. destruct (Z.eqb_spec (zlen data) 0) as [E|E].
  { apply zlen_0 in E as ->. by rewrite app_nil_r. }
  destruct (fill_partial_streamed st msg c data Hc) as (a & b & -> & Hb & Hs & Hor).
  destruct (fill_partial c (a ++ b)) as [c' src] eqn:Hf. cbn [fst snd] in *. subst src.
  rewrite absorb_blocks_chop by done. rewrite app_assoc.
  destruct Hor as [->|H0].
  { rewrite app_nil_r, chop_small by zlia. cbn [fst snd foldl]. by destruct c'. }
  destruct Hs as [Hs Hp Hl Hbuf]. rewrite H0 in Hl. symmetry in Hl. apply zlen_0 in Hl as Hnil.
  pose proof (chop_app n (msg ++ a) b n_pos) as Happ. rewrite Hnil in Happ. cbn [app] in Happ.
  pose proof (chop_rest n b n_pos).
  destruct (Z.ltb_spec 0 (zlen (snd (chop n b)))) as [Hr|Hr].
  - constructor; rewrite ?Happ; cbn [fst snd state_ buf_ buf_len_]; try done.
    + by rewrite foldl_app, <- Hs.
    + unfold pending. cbn [buf_ buf_len_]. by apply (ztake_store (buf_ c') 0 _ ltac:(lia)).
    + rewrite zlen_store by zlia. done.
  - assert (snd (chop n b) = []) as Hb0 by (apply zlen_0; zlia).
    constructor; rewrite ?Happ, ?Hb0; cbn [fst snd state_ buf_ buf_len_]; try done.
    + by rewrite foldl_app, <- Hs.
    + unfold pending. cbn [buf_ buf_len_]. rewrite H0. done.
Qed.

(** A sequence of updates. *)
Definition stream_updates (c : stream S) (pieces : list bytes) : stream S := foldl stream_update c pieces.

Lemma streamed_updates st msg c pieces :
  streamed st msg c -> streamed st (msg ++ concat pieces) (stream_updates c pieces).
Proof.
  revert msg c. induction pieces as [|p pieces IH]; intros msg c Hc; cbn [concat foldl stream_updates].
  { by rewrite app_nil_r. }
  rewrite app_assoc. apply IH. by apply streamed_update.
Qed.

End stream.
