(* ===== verification/Poly1305.v ===== *)
(** * The Poly1305 authenticator of [crypto/poly1305.hpp]

    The code computes modulo [2^130 - 5] on five 26-bit limbs held in 64-bit words,
    with every carry written out.  The definitions follow it operation by operation,
    wrap-around included; the theorem is that the tag is the one of RFC 8439, section
    2.5, for every key and message, in however many pieces the message is given. *)

From S2P Require Import Prelude BlockStream.

(** ** The limbs *)

Record limbs := mkLimbs { l0 : Z; l1 : Z; l2 : Z; l3 : Z; l4 : Z }.

Record State := mkState {
  h_ : limbs;
  r_ : limbs;
  s_ : list Z;
}.

(** [p[i] &= m]. *)
Definition and_at (i : nat) (m : Z) (p : bytes) : bytes := <[i := nth i p 0 .& m]> p.

Definition clamp_r (r16 : bytes) : bytes :=
  and_at 12 252 $ and_at 8 252 $ and_at 4 252 $
  and_at 15 15 $ and_at 11 15 $ and_at 7 15 $ and_at 3 15 r16.

(** The five limbs of sixteen bytes. *)
Definition load_limbs (p : bytes) : limbs :=
  mkLimbs (load_le32 p 0 .& 0x3FFFFFF) ((load_le32 p 3 >> 2) .& 0x3FFFFFF)
    ((load_le32 p 6 >> 4) .& 0x3FFFFFF) ((load_le32 p 9 >> 6) .& 0x3FFFFFF)
    ((load_le32 p 12 >> 8) .& 0x3FFFFFF).

Definition init_state (key : bytes) : State :=
  mkState (mkLimbs 0 0 0 0 0) (load_limbs (clamp_r (ztake 16 key)))
    [load_le32 key 16; load_le32 key 20; load_le32 key 24; load_le32 key 28].

(** [h += m]. *)
Definition add_limbs (a b : limbs) : limbs :=
  mkLimbs (u64 (l0 a + l0 b)) (u64 (l1 a + l1 b)) (u64 (l2 a + l2 b)) (u64 (l3 a + l3 b)) (u64 (l4 a + l4 b)).

(** [h *= r], without carries. *)
Definition mul_limbs (h r : limbs) : limbs :=
  let r1_5 := u64 (l1 r * 5) in
  let r2_5 := u64 (l2 r * 5) in
  let r3_5 := u64 (l3 r * 5) in
  let r4_5 := u64 (l4 r * 5) in
  mkLimbs
    (u64 (l0 h * l0 r + l1 h * r4_5 + l2 h * r3_5 + l3 h * r2_5 + l4 h * r1_5))
    (u64 (l0 h * l1 r + l1 h * l0 r + l2 h * r4_5 + l3 h * r3_5 + l4 h * r2_5))
    (u64 (l0 h * l2 r + l1 h * l1 r + l2 h * l0 r + l3 h * r4_5 + l4 h * r3_5))
    (u64 (l0 h * l3 r + l1 h * l2 r + l2 h * l1 r + l3 h * l0 r + l4 h * r4_5))
    (u64 (l0 h * l4 r + l1 h * l3 r + l2 h * l2 r + l3 h * l1 r + l4 h * l0 r)).

(** Propagate carries and reduce. *)
Definition carry_limbs (d : limbs) : limbs :=
  let c0 := l0 d >> 26 in let d0 := l0 d .& 0x3FFFFFF in
  let d1 := u64 (l1 d + c0) in
  let c1 := d1 >> 26 in let d1 := d1 .& 0x3FFFFFF in
  let d2 := u64 (l2 d + c1) in
  let c2 := d2 >> 26 in let d2 := d2 .& 0x3FFFFFF in
  let d3 := u64 (l3 d + c2) in
  let c3 := d3 >> 26 in let d3 := d3 .& 0x3FFFFFF in
  let d4 := u64 (l4 d + c3) in
  let c4 := d4 >> 26 in let d4 := d4 .& 0x3FFFFFF in
  let d0 := u64 (d0 + u64 (c4 * 5)) in
  let c5 := d0 >> 26 in let d0 := d0 .& 0x3FFFFFF in
  let d1 := u64 (d1 + c5) in
  mkLimbs d0 d1 d2 d3 d4.

(** The block copied into a zeroed buffer, with the message bit of a short block. *)
Definition block_buf (block : bytes) : bytes :=
  let len := zlen block in
  let buf := store (replicate 16 0) 0 block in
  if len <? 16 then <[Z.to_nat len := 1]> buf else buf.

Definition process_block (st : State) (block : bytes) : State :=
  let m := load_limbs (block_buf block) in
  let m := mkLimbs (l0 m) (l1 m) (l2 m) (l3 m)
             (u64 (l4 m + if zlen block =? 16 then 1 << 24 else 0)) in
  mkState (carry_limbs (mul_limbs (add_limbs (h_ st) m) (r_ st))) (r_ st) (s_ st).

(** The carries at the start of [finalize]. *)
Definition final_carry (h : limbs) : limbs :=
  let c := l1 h >> 26 in let h1 := l1 h .& 0x3FFFFFF in let h2 := u64 (l2 h + c) in
  let c := h2 >> 26 in let h2 := h2 .& 0x3FFFFFF in let h3 := u64 (l3 h + c) in
  let c := h3 >> 26 in let h3 := h3 .& 0x3FFFFFF in let h4 := u64 (l4 h + c) in
  let c := h4 >> 26 in let h4 := h4 .& 0x3FFFFFF in let h0 := u64 (l0 h + u64 (c * 5)) in
  let c := h0 >> 26 in let h0 := h0 .& 0x3FFFFFF in let h1 := u64 (h1 + c) in
  mkLimbs h0 h1 h2 h3 h4.

(** [h - p] with a borrow in the top limb when [h < p]. *)
Definition minus_p (h : limbs) : limbs :=
  let g0 := u64 (l0 h + 5) in
  let c := g0 >> 26 in let g0 := g0 .& 0x3FFFFFF in
  let g1 := u64 (l1 h + c) in
  let c := g1 >> 26 in let g1 := g1 .& 0x3FFFFFF in
  let g2 := u64 (l2 h + c) in
  let c := g2 >> 26 in let g2 := g2 .& 0x3FFFFFF in
  let g3 := u64 (l3 h + c) in
  let c := g3 >> 26 in let g3 := g3 .& 0x3FFFFFF in
  let g4 := u64 (l4 h + c - (1 << 26)) in
  mkLimbs g0 g1 g2 g3 g4.

(** [h - p] if that is not negative, else [h], by masks. *)
Definition select_limbs (h g : limbs) : limbs :=
  let mask := u64 ((l4 g >> 63) - 1) in
  let nmask := u64 (Z.lnot mask) in
  let pick a b := (a .& nmask) .| (b .& mask) in
  mkLimbs (pick (l0 h) (l0 g)) (pick (l1 h) (l1 g)) (pick (l2 h) (l2 g)) (pick (l3 h) (l3 g)) (pick (l4 h) (l4 g)).

Definition pack_words (h : limbs) : list Z :=
  [u32 (l0 h .| u64 (l1 h << 26)); u32 ((l1 h >> 6) .| u64 (l2 h << 20));
   u32 ((l2 h >> 12) .| u64 (l3 h << 14)); u32 ((l3 h >> 18) .| u64 (l4 h << 8))].

(** [tag = (h + s) mod 2^128], carry propagated across the words. *)
Fixpoint add_words (carry : Z) (w s : list Z) : list Z :=
  match w, s with
  | a :: w, b :: s => let f := u64 (a + b + carry) in u32 f :: add_words (f >> 32) w s
  | _, _ => []
  end.

Definition finalize (st : State) : bytes :=
  let h := final_carry (h_ st) in
  let h := select_limbs h (minus_p h) in
  concat (map store_le32 (add_words 0 (pack_words h) (s_ st))).

(** ** The class [Poly1305] *)

Abbreviation Poly1305 := (stream State).

Definition init (key : bytes) : Poly1305 := stream_init 16 (init_state key).

(** The constructor from a span: a shorter key is zero-padded. *)
Definition from_span (key : bytes) : Poly1305 :=
  init (store (replicate 32 0) 0 (ztake (Z.min (zlen key) 32) key)).

Definition update : Poly1305 -> bytes -> Poly1305 := stream_update 16 process_block.

Definition finish (c : Poly1305) : bytes :=
  finalize (if 0 <? buf_len_ c then process_block (state_ c) (ztake (buf_len_ c) (buf_ c)) else state_ c).

Definition poly1305 (key message : bytes) : bytes := finish (update (init key) message).

Definition poly1305_verify (key message expected : bytes) : bool :=
  ct_diff (poly1305 key message) expected =? 0.

(** The test vector of RFC 8439, section 2.5.2. *)
Example poly1305_rfc :
  poly1305 [0x85; 0xd6; 0xbe; 0x78; 0x57; 0x55; 0x6d; 0x33; 0x7f; 0x44; 0x52; 0xfe; 0x42; 0xd5; 0x06; 0xa8;
            0x01; 0x03; 0x80; 0x8a; 0xfb; 0x0d; 0xb2; 0xfd; 0x4a; 0xbf; 0xf6; 0xaf; 0x41; 0x49; 0xf5; 0x1b]
    (chars "Cryptographic Forum Research Group") =
  [0xa8; 0x06; 0x1d; 0xc1; 0x30; 0x51; 0x36; 0xc6; 0xc2; 0x2b; 0x8b; 0xaf; 0x0c; 0x01; 0x27; 0xa9].
Proof. by vm_compute. Qed.

(** ** RFC 8439, section 2.5 *)

Definition P1305 : Z := 2 ^ 130 - 5.

Definition rfc_clamp (r : Z) : Z := r .& 0x0ffffffc0ffffffc0ffffffc0fffffff.

(** One block: add it with its message bit, multiply, reduce. *)
Definition rfc_block (r acc : Z) (block : bytes) : Z :=
  ((acc + le_val (block ++ [1])) * r) mod P1305.

Definition rfc_poly1305 (key msg : bytes) : bytes :=
  let r := rfc_clamp (le_val (ztake 16 key)) in
  let s := le_val (zdrop 16 key) in
  let '(blocks, rest) := chop 16 msg in
  let acc := foldl (rfc_block r) 0 blocks in
  let acc := match rest with [] => acc | _ => rfc_block r acc rest end in
  le_bytes 16 ((acc + s) mod 2 ^ 128).

(** ** Values *)

Definition val (l : limbs) : Z :=
  l0 l + l1 l * 2 ^ 26 + l2 l * 2 ^ 52 + l3 l * 2 ^ 78 + l4 l * 2 ^ 104.

(** Limbs below the given bounds. *)
Definition below (b : limbs) (l : limbs) : Prop :=
  (0 <= l0 l < l0 b) /\ (0 <= l1 l < l1 b) /\ (0 <= l2 l < l2 b) /\ (0 <= l3 l < l3 b) /\ (0 <= l4 l < l4 b).

Definition reduced : limbs := mkLimbs (2 ^ 26) (2 ^ 26) (2 ^ 26) (2 ^ 26) (2 ^ 26).

(** What holds of the accumulator between blocks: the second limb may exceed 26 bits. *)
Definition acc_bound : limbs := mkLimbs (2 ^ 26) (2 ^ 26 + 2 ^ 13) (2 ^ 26) (2 ^ 26) (2 ^ 26).

(** [lia] with the powers of two evaluated. *)
Ltac pow2 :=
  repeat match goal with
    | |- context [2 ^ ?n] => let v := eval vm_compute in (2 ^ n) in change (2 ^ n) with v
    | H : context [2 ^ ?n] |- _ => let v := eval vm_compute in (2 ^ n) in change (2 ^ n) with v in H
    end.

Lemma mask26 z : z .& 0x3FFFFFF = z mod 2 ^ 26.
Proof. exact (land_mask 26 z ltac:(lia)). Qed.

Lemma shr z n : 0 <= n -> z >> n = z / 2 ^ n.
Proof. by apply Z.shiftr_div_pow2. Qed.

(** A word of the buffer, shifted, holds the bits of the value from there on. *)
Lemma load_limb p o k : all_bytes p -> 0 <= o -> o + 4 <= zlen p -> 0 <= k <= 6 ->
  (load_le32 p o >> k) .& 0x3FFFFFF = (le_val p / 2 ^ (8 * o + k)) mod 2 ^ 26.
Proof.
  intros Hp Ho Hl Hk. unfold load_le32. rewrite le_val_slice by (done || lia).
  rewrite mask26, shr by lia. change (256 ^ 4) with (2 ^ 32).
  rewrite Z.pow_add_r, Z.pow_mul_r by lia. change (2 ^ 8) with 256.
  assert (0 < 256 ^ o) by (apply Z.pow_pos_nonneg; lia).
  rewrite <- Z.div_div by (try apply Z.pow_pos_nonneg; lia). set (v := le_val p / 256 ^ o).
  apply Z.bits_inj'. intros i Hi. destruct (decide (i < 26)).
  - rewrite !Z.mod_pow2_bits_low, !Z.div_pow2_bits by lia. by rewrite Z.mod_pow2_bits_low by lia.
  - by rewrite !Z.mod_pow2_bits_high by lia.
Qed.

Lemma load_top p : all_bytes p -> zlen p = 16 ->
  (load_le32 p 12 >> 8) .& 0x3FFFFFF = le_val p / 2 ^ 104.
Proof.
  intros Hp Hl. unfold load_le32. rewrite le_val_slice by (done || lia).
  rewrite mask26, shr by lia. pose proof (le_val_range p Hp) as Hr. rewrite Hl in Hr.
  change (256 ^ 16) with (2 ^ 128) in Hr. change (256 ^ 4) with (2 ^ 32). change (256 ^ 12) with (2 ^ 96).
  assert (0 <= le_val p / 2 ^ 96 < 2 ^ 32) as H96.
  { split; [apply Z.div_pos; lia|apply Z.div_lt_upper_bound; lia]. }
  rewrite (Z.mod_small (le_val p / 2 ^ 96)), Z.div_div by lia. change (2 ^ 96 * 2 ^ 8) with (2 ^ 104). apply Z.mod_small.
  split; [apply Z.div_pos; lia|apply Z.div_lt_upper_bound; lia].
Qed.

(** The limbs are the base-2^26 digits of the buffer. *)
Lemma load_limbs_val p : all_bytes p -> zlen p = 16 ->
  val (load_limbs p) = le_val p /\ below (mkLimbs (2 ^ 26) (2 ^ 26) (2 ^ 26) (2 ^ 26) (2 ^ 24)) (load_limbs p).
Proof.
  intros Hp Hl. pose proof (le_val_range p Hp) as Hr. rewrite Hl in Hr.
  change (256 ^ 16) with (2 ^ 128) in Hr. unfold load_limbs, val, below. cbn [l0 l1 l2 l3 l4].
  rewrite <- (Z.shiftr_0_r (load_le32 p 0)), !load_limb, load_top by (done || lia).
  set (v := le_val p) in *. change (2 ^ (8 * 0 + 0)) with 1. rewrite Z.div_1_r.
  change (2 ^ (8 * 3 + 2)) with (2 ^ 26). change (2 ^ (8 * 6 + 4)) with (2 ^ 26 * 2 ^ 26).
  change (2 ^ (8 * 9 + 6)) with (2 ^ 26 * 2 ^ 26 * 2 ^ 26).
  change (v / 2 ^ 104) with (v / (2 ^ 26 * 2 ^ 26 * 2 ^ 26 * 2 ^ 26)).
  rewrite <- !Z.div_div by lia. pow2. Z.to_euclidean_division_equations. lia.
Qed.

(** ** The clamp *)

Lemma le_val_land xs ys : all_bytes xs -> all_bytes ys -> length xs = length ys ->
  le_val (zip_with Z.land xs ys) = le_val xs .& le_val ys.
Proof.
  intros Hxs. revert ys. induction Hxs as [|x xs Hx Hxs IH]; intros [|y ys] Hys Hl; try done.
  apply Forall_cons in Hys as [Hy Hys]. cbn [zip_with le_val].
  rewrite IH by (done || simpl in Hl; lia).
  pose proof (fun v b => lor_shiftl_add 8 v b ltac:(lia)) as E.
  assert (forall v b, in_range 8 b -> b + 256 * v = (v << 8) .| b) as E'.
  { intros v b Hb. rewrite E by done. change (2 ^ 8) with 256. lia. }
  rewrite !E' by (done || apply land_range; done || rlia).
  apply Z.bits_inj'. intros i Hi. rewrite !Z.lor_spec, !Z.land_spec, !Z.lor_spec, !Z.shiftl_spec, !Z.land_spec by lia.
  destruct (decide (i < 8)).
  - rewrite !(Z.testbit_neg_r _ (i - 8)) by lia. done.
  - rewrite (range_testbit 8 x), (range_testbit 8 y) by (done || lia). by rewrite !orb_false_r.
Qed.

Definition clamp_mask : bytes := [255; 255; 255; 15; 252; 255; 255; 15; 252; 255; 255; 15; 252; 255; 255; 15].

Lemma clamp_r_spec r16 : all_bytes r16 -> zlen r16 = 16 ->
  all_bytes (clamp_r r16) /\ zlen (clamp_r r16) = 16 /\ le_val (clamp_r r16) = rfc_clamp (le_val r16).
Proof.
  intros Hr Hl. assert (clamp_r r16 = zip_with Z.land r16 clamp_mask) as ->.
  { do 16 (destruct r16 as [|? r16]; [discriminate Hl|]). destruct r16; [|unfold zlen in Hl; simpl in Hl; lia].
    split_bytes. unfold clamp_r, and_at, clamp_mask. cbn.
    repeat f_equal; symmetry; rewrite land_255; apply (wrap_small 8); done. }
  assert (all_bytes clamp_mask) as Hm by (unfold clamp_mask; solve_bytes).
  split_and!.
  - clear Hl. revert r16 Hr Hm. generalize clamp_mask as ms. induction ms as [|m ms IH]; intros r16 Hr Hm.
    { by destruct r16. }
    destruct Hr as [|b r16 Hb Hr]; [constructor|]. apply Forall_cons in Hm as [Hm' Hm].
    constructor; [|by apply IH]. apply land_range; [lia|done|rlia].
  - unfold zlen in *. rewrite length_zip_with. simpl. lia.
  - apply le_val_land; [done..|]. unfold zlen in Hl. simpl. lia.
Qed.

(** ** One block *)

Definition all_below (b : Z) : limbs := mkLimbs b b b b b.

Lemma dot5 a0 a1 a2 a3 a4 b0 b1 b2 b3 b4 :
  0 <= a0 < 2 ^ 28 -> 0 <= a1 < 2 ^ 28 -> 0 <= a2 < 2 ^ 28 -> 0 <= a3 < 2 ^ 28 -> 0 <= a4 < 2 ^ 28 ->
  0 <= b0 < 2 ^ 29 -> 0 <= b1 < 2 ^ 29 -> 0 <= b2 < 2 ^ 29 -> 0 <= b3 < 2 ^ 29 -> 0 <= b4 < 2 ^ 29 ->
  0 <= a0 * b0 + a1 * b1 + a2 * b2 + a3 * b3 + a4 * b4 < 2 ^ 60.
Proof.
  assert (forall a b, 0 <= a < 2 ^ 28 -> 0 <= b < 2 ^ 29 -> 0 <= a * b <= 2 ^ 57) as H by (intros; nia).
  intros. pose proof (H a0 b0). pose proof (H a1 b1). pose proof (H a2 b2).
  pose proof (H a3 b3). pose proof (H a4 b4). lia.
Qed.

Ltac limb_goal := unfold below, in_range, all_below in *; cbn [l0 l1 l2 l3 l4] in *.

Lemma mul_limbs_val h r : below (all_below (2 ^ 28)) h -> below reduced r ->
  (exists k, val h * val r = val (mul_limbs h r) + k * P1305) /\ below (all_below (2 ^ 60)) (mul_limbs h r).
Proof.
  destruct h as [h0 h1 h2 h3 h4], r as [r0 r1 r2 r3 r4]. unfold mul_limbs, reduced. limb_goal.
  intros (? & ? & ? & ? & ?) (? & ? & ? & ? & ?).
  rewrite !(wrap_small 64 (_ * 5)) by (unfold in_range; lia).
  rewrite !wrap_small by (unfold in_range; match goal with |- 0 <= ?e < _ =>
    enough (0 <= e < 2 ^ 60) by lia; apply dot5; lia end).
  split; [|split_and!; apply dot5; lia].
  exists ((h1 * r4 + h2 * r3 + h3 * r2 + h4 * r1) + (h2 * r4 + h3 * r3 + h4 * r2) * 2 ^ 26 +
    (h3 * r4 + h4 * r3) * 2 ^ 52 + h4 * r4 * 2 ^ 78).
  unfold val, P1305. cbn [l0 l1 l2 l3 l4]. pow2. ring.
Qed.

(** Each division of a carry chain, as a quotient and a remainder. *)
Ltac carry_step :=
  match goal with
  | |- context [?a mod 2 ^ 26] => lazymatch a with context [wrap _ _] => fail | context [_ mod _] => fail | context [_ / _] => fail | _ => idtac end;
      let q := fresh "q" in let m := fresh "m" in
      pose proof (Z.div_mod a (2 ^ 26) ltac:(lia)); pose proof (Z.mod_pos_bound a (2 ^ 26) ltac:(lia));
      set (q := a / 2 ^ 26) in *; set (m := a mod 2 ^ 26) in *; clearbody q m
  | |- context [wrap 64 ?a] => lazymatch a with context [wrap _ _] => fail | context [_ mod _] => fail | context [_ / _] => fail | _ => idtac end;
      rewrite !(wrap_small 64 a) by (unfold in_range; pow2; lia)
  end.

Lemma carry_limbs_val d : below (all_below (2 ^ 60)) d ->
  (exists k, val d = val (carry_limbs d) + k * P1305) /\ below acc_bound (carry_limbs d).
Proof.
  destruct d as [d0 d1 d2 d3 d4]. unfold carry_limbs, acc_bound. limb_goal. intros (? & ? & ? & ? & ?).
  rewrite !mask26, !shr by lia. repeat carry_step.
  unfold val, P1305. cbn [l0 l1 l2 l3 l4]. pow2. split; [exists q3|]; lia.
Qed.

Lemma le_val_zeros n : le_val (replicate n 0) = 0.
Proof. induction n as [|n IH]; [done|]. cbn [replicate le_val]. lia. Qed.

Lemma zeros_bytes n : all_bytes (replicate n 0).
Proof. apply Forall_replicate. rlia. Qed.

Lemma block_buf_spec block : all_bytes block -> zlen block <= 16 ->
  all_bytes (block_buf block) /\ zlen (block_buf block) = 16 /\
  le_val (block_buf block) + (if zlen block =? 16 then 2 ^ 128 else 0) = le_val (block ++ [1]).
Proof.
  intros Hb Hl. unfold block_buf. rewrite store_0, le_val_app. cbn [le_val].
  destruct (Z.ltb_spec (zlen block) 16) as [H|H].
  - rewrite (proj2 (Z.eqb_neq _ _)) by lia.
    assert (zdrop (zlen block) (replicate 16 0) = 0 :: replicate (15 - length block) 0) as ->.
    { unfold zdrop, zlen in *. rewrite Nat2Z.id, drop_replicate.
      by replace (16 - length block)%nat with (S (15 - length block)) by lia. }
    assert (forall l, <[Z.to_nat (zlen block) := 1]> (block ++ 0 :: l) = block ++ 1 :: l) as ->.
    { intros l. unfold zlen. rewrite Nat2Z.id, insert_app_r_alt, Nat.sub_diag by lia. done. }
    split_and!.
    + apply Forall_app; split; [done|]. constructor; [rlia|apply zeros_bytes].
    + autorewrite with zlist. unfold zlen in *. lia.
    + rewrite le_val_app. cbn [le_val]. rewrite le_val_zeros. lia.
  - assert (zlen block = 16) as E by lia. rewrite zdrop_all, app_nil_r, E by (rewrite ?zlen_replicate; lia).
    rewrite Z.eqb_refl. change (256 ^ 16) with (2 ^ 128). split_and!; [done|done|lia].
Qed.

Lemma process_block_val st block :
  below acc_bound (h_ st) -> below reduced (r_ st) -> all_bytes block -> zlen block <= 16 ->
  below acc_bound (h_ (process_block st block)) /\
  val (h_ (process_block st block)) mod P1305 = rfc_block (val (r_ st)) (val (h_ st) mod P1305) block.
Proof.
  intros Hh Hr Hb Hl. destruct (block_buf_spec block Hb Hl) as (Hbb & Hbl & Hbv).
  destruct (load_limbs_val _ Hbb Hbl) as [Hmv Hmb].
  unfold process_block. cbn [h_ r_ s_]. set (m := mkLimbs _ _ _ _ _).
  assert (below (all_below (2 ^ 28)) (add_limbs (h_ st) m) /\
    val (add_limbs (h_ st) m) = val (h_ st) + le_val (block ++ [1])) as [Hab Hav].
  { rewrite <- Hbv, <- Hmv. unfold add_limbs, val, m, acc_bound in *. limb_goal.
    change (1 << 24) with (2 ^ 24).
    rewrite (wrap_small 64 (l4 (load_limbs _) + _)) by (unfold in_range; destruct (_ =? _); lia).
    rewrite !wrap_small by (unfold in_range; destruct (_ =? _); lia).
    destruct (_ =? _); pow2; lia. }
  destruct (mul_limbs_val _ _ Hab Hr) as [[k Hk] Hmul].
  destruct (carry_limbs_val _ Hmul) as [[k' Hk'] Hc]. split; [done|].
  unfold rfc_block. rewrite <- (Z.mul_mod_idemp_l (_ + _)), Z.add_mod_idemp_l, Z.mul_mod_idemp_l by (unfold P1305; lia).
  rewrite <- Hav, Hk, Hk', !Z.mod_add by (unfold P1305; lia). done.
Qed.

(** ** The final reduction *)

(** A carry out of the top limb needs one out of every limb, which leaves the second
    limb small: the last addition cannot overflow it. *)
Lemma final_carry_val h : below acc_bound h ->
  (exists k, val h = val (final_carry h) + k * P1305) /\ below reduced (final_carry h).
Proof.
  destruct h as [h0 h1 h2 h3 h4]. unfold final_carry, acc_bound, reduced. limb_goal. intros (? & ? & ? & ? & ?).
  rewrite !mask26, !shr by lia. repeat carry_step.
  unfold val, P1305. cbn [l0 l1 l2 l3 l4]. pow2. split; [exists q2|]; lia.
Qed.

Lemma land_ones64 z : in_range 64 z -> z .& UINT64_MAX = z.
Proof. intros Hz. unfold UINT64_MAX. rewrite land_mask by lia. by apply (wrap_small 64). Qed.

Lemma select_limbs_cases h g :
  below reduced h -> below (all_below (2 ^ 64)) g ->
  select_limbs h g = if 2 ^ 63 <=? l4 g then h else g.
Proof.
  destruct h as [h0 h1 h2 h3 h4], g as [g0 g1 g2 g3 g4]. unfold reduced, select_limbs. limb_goal.
  intros (? & ? & ? & ? & ?) (? & ? & ? & ? & ?). rewrite shr by lia.
  destruct (Z.leb_spec (2 ^ 63) g4) as [H9|H9].
  - replace (g4 / 2 ^ 63) with 1 by (pow2; Z.to_euclidean_division_equations; lia).
    change (wrap 64 (1 - 1)) with 0. change (wrap 64 (Z.lnot 0)) with UINT64_MAX.
    rewrite !Z.land_0_r, !Z.lor_0_r, !land_ones64 by (unfold in_range; lia). done.
  - rewrite Z.div_small by lia.
    change (wrap 64 (0 - 1)) with UINT64_MAX. change (wrap 64 (Z.lnot UINT64_MAX)) with 0.
    rewrite !Z.land_0_r, !Z.lor_0_l, !land_ones64 by (unfold in_range; lia). done.
Qed.

Lemma select_val h : below reduced h ->
  below reduced (select_limbs h (minus_p h)) /\ val (select_limbs h (minus_p h)) = val h mod P1305.
Proof.
  intros Hh. assert (exists c,
    (c = 0 \/ c = 1) /\ l4 (minus_p h) = wrap 64 (l4 h + c - 2 ^ 26) /\
    val (minus_p h) - l4 (minus_p h) * 2 ^ 104 + (l4 h + c) * 2 ^ 104 = val h + 5 /\
    below (mkLimbs (2 ^ 26) (2 ^ 26) (2 ^ 26) (2 ^ 26) (2 ^ 64)) (minus_p h)) as (c & Hc & H4 & Hv & Hb).
  { destruct h as [h0 h1 h2 h3 h4]. unfold minus_p, reduced, val in *. limb_goal.
    rewrite !mask26, !shr by lia. change (1 << 26) with (2 ^ 26).
    repeat carry_step. exists q2. pose proof (wrap_range 64 (h4 + q2 - 2 ^ 26) ltac:(lia)) as Hw.
    unfold in_range in Hw. pow2. lia. }
  rewrite select_limbs_cases by (done || unfold all_below; limb_goal; lia).
  assert (0 <= val h < 2 ^ 130) as Hr by (unfold val, reduced in *; limb_goal; pow2; lia).
  unfold reduced, all_below in *. limb_goal. rewrite H4 in *. unfold P1305.
  destruct (decide (l4 h + c < 2 ^ 26)) as [Hlt|Hge].
  - assert (wrap 64 (l4 h + c - 2 ^ 26) = l4 h + c - 2 ^ 26 + 2 ^ 64) as E.
    { symmetry. apply Z.mod_unique_pos with (q := -1); lia. }
    rewrite E in *. rewrite (proj2 (Z.leb_le _ _)) by lia. split; [done|].
    rewrite Z.mod_small; [done|]. unfold val in *. pow2. lia.
  - rewrite wrap_small in * by (unfold in_range; lia). rewrite (proj2 (Z.leb_gt _ _)) by lia.
    rewrite H4. split; [lia|]. apply Z.mod_unique_pos with (q := 1); unfold val in *; rewrite ?H4 in *; pow2; lia.
Qed.

(** ** The tag *)

Fixpoint words_val (ws : list Z) : Z :=
  match ws with
  | [] => 0
  | w :: ws => w + 2 ^ 32 * words_val ws
  end.

Lemma pack_words_val h : below reduced h ->
  words_val (pack_words h) = val h mod 2 ^ 128 /\ Forall (in_range 32) (pack_words h).
Proof.
  destruct h as [h0 h1 h2 h3 h4]. unfold pack_words, reduced. limb_goal. intros (? & ? & ? & ? & ?).
  split; [|repeat constructor; apply Z.mod_pos_bound; lia]. cbn [words_val].
  assert (forall a b n, 0 <= n <= 32 -> 0 <= b < 2 ^ n -> 0 <= a < 2 ^ 26 ->
    wrap 32 (b .| wrap 64 (a << n)) = (a mod 2 ^ (32 - n)) * 2 ^ n + b) as Hw.
  { intros a b n Hn Hb Ha. rewrite Z.shiftl_mul_pow2 by lia.
    assert (0 < 2 ^ n <= 2 ^ 32) by (split; [|apply Z.pow_le_mono_r]; lia).
    rewrite (wrap_small 64) by (unfold in_range; change (2 ^ 64) with (2 ^ 32 * 2 ^ 32); nia).
    rewrite <- Z.shiftl_mul_pow2, Z.lor_comm, lor_shiftl_add by (done || lia).
    unfold wrap. replace 32 with ((32 - n) + n) at 1 by lia. rewrite Z.pow_add_r by lia.
    assert (0 < 2 ^ (32 - n)) as Hp by (apply Z.pow_pos_nonneg; lia).
    pose proof (Z.div_mod a _ (Z.neq_sym _ _ (Z.lt_neq _ _ Hp))). pose proof (Z.mod_pos_bound a _ Hp).
    symmetry. apply Z.mod_unique_pos with (q := a / 2 ^ (32 - n)); nia. }
  rewrite !shr by lia.
  rewrite (Hw h1 h0 26), (Hw h2 (h1 / _) 20), (Hw h3 (h2 / _) 14), (Hw h4 (h3 / _) 8)
    by (try apply Z.div_pos; try apply Z.div_lt_upper_bound; pow2; lia || (pow2; Z.to_euclidean_division_equations; lia)).
  cbn [Z.sub Z.pos_sub Z.opp Z.add]. unfold val. cbn [l0 l1 l2 l3 l4].
  apply Z.mod_unique_pos with (q := h4 / 2 ^ 24); pow2; Z.to_euclidean_division_equations; lia.
Qed.

Lemma add_words_val w s c : Forall (in_range 32) w -> Forall (in_range 32) s -> length w = length s ->
  0 <= c <= 1 ->
  words_val (add_words c w s) = (c + words_val w + words_val s) mod 2 ^ (32 * zlen w) /\
  Forall (in_range 32) (add_words c w s) /\ length (add_words c w s) = length w.
Proof.
  intros Hw. revert s c. induction Hw as [|a w Ha Hw IH]; intros [|b s] c Hs Hl Hc; try done.
  { by rewrite Z.mod_1_r. }
  apply Forall_cons in Hs as [Hb Hs]. cbn [add_words words_val length]. rewrite zlen_cons.
  pose proof (zlen_nonneg w). rewrite Z.mul_add_distr_l, Z.pow_add_r, (Z.mul_comm (2 ^ (32 * zlen w))) by lia.
  change (2 ^ (32 * 1)) with (2 ^ 32).
  rewrite (wrap_small 64) by rlia. rewrite shr by lia.
  assert (0 <= (a + b + c) / 2 ^ 32 <= 1) as Hc'.
  { unfold in_range in *. pow2. Z.to_euclidean_division_equations. lia. }
  destruct (IH s ((a + b + c) / 2 ^ 32) Hs ltac:(simpl in Hl; lia) Hc') as (IH1 & IH2 & IH3).
  split_and!; [|constructor; [apply Z.mod_pos_bound; lia|done]|lia].
  rewrite IH1, Z.rem_mul_r by (try apply Z.pow_nonzero; lia).
  replace (c + (a + 2 ^ 32 * words_val w) + (b + 2 ^ 32 * words_val s))
    with ((a + b + c) + (words_val w + words_val s) * 2 ^ 32) by lia.
  rewrite Z.mod_add, Z.div_add by lia. unfold wrap. by rewrite Z.add_assoc.
Qed.

Lemma store_words ws : Forall (in_range 32) ws ->
  concat (map store_le32 ws) = le_bytes (4 * length ws) (words_val ws).
Proof.
  induction 1 as [|w ws Hw Hws IH]; [done|]. cbn [map concat length words_val].
  replace (4 * S (length ws))%nat with (4 + 4 * length ws)%nat by lia.
  rewrite le_bytes_app, IH, shr by lia. change (2 ^ (8 * Z.of_nat 4)) with (2 ^ 32).
  rewrite <- (le_bytes_mod 4 (w + _)). change (256 ^ Z.of_nat 4) with (2 ^ 32).
  rewrite (Z.mul_comm (2 ^ 32)), Z.mod_add, Z.div_add, Z.mod_small, Z.div_small by (done || lia). done.
Qed.

Lemma finalize_val st : below acc_bound (h_ st) -> Forall (in_range 32) (s_ st) -> length (s_ st) = 4%nat ->
  finalize st = le_bytes 16 ((val (h_ st) mod P1305 + words_val (s_ st)) mod 2 ^ 128).
Proof.
  intros Hh Hs Hl. unfold finalize.
  destruct (final_carry_val _ Hh) as [[k Hk] Hr]. destruct (select_val _ Hr) as [Hb Hv].
  destruct (pack_words_val _ Hb) as [Hp Hpw].
  destruct (add_words_val _ _ 0 Hpw Hs ltac:(by rewrite Hl) ltac:(lia)) as (Ha & Haw & Hal).
  rewrite store_words, Hal, Ha, Hp, Hv by done.
  rewrite Hk, Z.mod_add by (unfold P1305; lia). change (4 * length (pack_words _))%nat with 16%nat.
  change (32 * zlen (pack_words _)) with 128. rewrite Z.add_0_l, Z.add_mod_idemp_l by lia. done.
Qed.

Lemma init_state_spec key : all_bytes key -> zlen key = 32 ->
  h_ (init_state key) = mkLimbs 0 0 0 0 0 /\
  below reduced (r_ (init_state key)) /\ val (r_ (init_state key)) = rfc_clamp (le_val (ztake 16 key)) /\
  Forall (in_range 32) (s_ (init_state key)) /\ words_val (s_ (init_state key)) = le_val (zdrop 16 key).
Proof.
  intros Hk Hl. destruct (clamp_r_spec (ztake 16 key)) as (Hc1 & Hc2 & Hc3); [auto|rewrite zlen_ztake; lia|].
  destruct (load_limbs_val _ Hc1 Hc2) as [Hv Hb]. cbn [init_state h_ r_ s_]. split; [done|].
  split; [unfold reduced; limb_goal; lia|]. split; [congruence|].
  unfold load_le32. rewrite <- (zdrop_zdrop 4 16), <- (zdrop_zdrop 8 16), <- (zdrop_zdrop 12 16) by lia.
  assert (zlen (zdrop 16 key) = 16) as Hd by (rewrite zlen_zdrop; lia).
  assert (all_bytes (zdrop 16 key)) as Hdb by auto. set (k := zdrop 16 key) in *. rewrite <- (zdrop_0 k) at 1 5.
  pose proof (le_val_range k Hdb) as Hr. rewrite Hd in Hr. rewrite !le_val_slice by (done || lia). cbn [words_val].
  split; [repeat constructor; apply Z.mod_pos_bound; lia|].
  change (256 ^ 0) with 1. change (256 ^ 4) with (2 ^ 32). change (256 ^ 8) with (2 ^ 32 * 2 ^ 32).
  change (256 ^ 12) with (2 ^ 32 * 2 ^ 32 * 2 ^ 32). change (256 ^ 16) with (2 ^ 128) in Hr.
  rewrite <- !Z.div_div, Z.div_1_r by lia. pow2. Z.to_euclidean_division_equations. lia.
Qed.

(** Whole blocks. *)
Lemma process_blocks_val st blocks :
  below acc_bound (h_ st) -> below reduced (r_ st) -> Forall (fun b => all_bytes b /\ zlen b = 16) blocks ->
  let st' := foldl process_block st blocks in
  below acc_bound (h_ st') /\ r_ st' = r_ st /\ s_ st' = s_ st /\
  val (h_ st') mod P1305 = foldl (rfc_block (val (r_ st))) (val (h_ st) mod P1305) blocks.
Proof.
  intros Hh Hr Hb. revert st Hh Hr. induction Hb as [|b blocks [Hb Hl] _ IH]; intros st Hh Hr; [done|].
  destruct (process_block_val st b Hh Hr Hb ltac:(lia)) as [Hh' Hv]. cbn [foldl].
  destruct (IH (process_block st b) Hh' Hr) as (H1 & H2 & H3 & H4). split_and!; [done..|].
  rewrite H4, Hv. done.
Qed.

(** The tag of a message given in any number of pieces. *)
Lemma finish_streamed key msg c : all_bytes key -> zlen key = 32 -> all_bytes msg ->
  streamed 16 process_block (init_state key) msg c -> finish c = rfc_poly1305 key msg.
Proof.
  intros Hk Hkl Hm [Hs Hp Hl _]. destruct (init_state_spec key Hk Hkl) as (Hh & Hr & Hrv & Hsw & Hsv).
  destruct (chop_bytes 16 msg ltac:(lia) Hm) as [Hfull Hrest]. pose proof (chop_rest 16 msg ltac:(lia)) as Hlt.
  unfold finish, rfc_poly1305. rewrite Hl, Hs. fold (pending c).
  replace (ztake (zlen (snd (chop 16 msg))) (buf_ c)) with (pending c) by (unfold pending; by rewrite Hl). rewrite Hp.
  destruct (chop 16 msg) as [blocks rest]. cbn [fst snd] in *.
  assert (below acc_bound (h_ (init_state key))) as Hb0 by (rewrite Hh; unfold acc_bound; limb_goal; lia).
  destruct (process_blocks_val (init_state key) blocks Hb0 Hr Hfull) as (H1 & H2 & H3 & H4).
  rewrite Hrv, Hh in H4. change (val (mkLimbs 0 0 0 0 0) mod P1305) with 0 in H4.
  destruct rest as [|x rest].
  - change (0 <? zlen []) with false. cbn iota. by rewrite finalize_val, H3, Hsv, H4 by (rewrite ?H3; done).
  - rewrite (proj2 (Z.ltb_lt _ _)) by zlia.
    destruct (process_block_val _ (x :: rest) H1 ltac:(by rewrite H2) Hrest ltac:(lia)) as [Hh' Hv].
    rewrite finalize_val by (done || cbn [process_block s_]; by rewrite H3).
    cbn [process_block s_]. fold (process_block (foldl process_block (init_state key) blocks) (x :: rest)).
    by rewrite H3, Hsv, Hv, H2, Hrv, H4.
Qed.

Lemma length_rfc_poly1305 key msg : length (rfc_poly1305 key msg) = 16%nat.
Proof.
  unfold rfc_poly1305. destruct (chop 16 msg) as [blocks rest].
  match goal with |- length (le_bytes 16 ?z) = _ => pose proof (zlen_le_bytes 16 z) as Hz end. unfold zlen in Hz. lia.
Qed.

Lemma poly1305_verify_correct key message expected :
  zlen expected = 16 -> all_bytes key -> zlen key = 32 -> all_bytes message ->
  poly1305_verify key message expected = bool_decide (rfc_poly1305 key message = expected).
Proof.
  intros He Hk Hl Hm. unfold poly1305_verify, poly1305.
  rewrite (finish_streamed key message) by (done || (rewrite <- (app_nil_l message); apply streamed_update; [lia|by apply streamed_init])).
  apply ct_diff_eq. rewrite length_rfc_poly1305. unfold zlen in He. lia.
Qed.

(** C11.  For every 32-byte key and every message, cut into pieces anywhere, the tag is
    the one RFC 8439 defines with arithmetic modulo [2^130 - 5], and [poly1305_verify] accepts
    that tag and no other. *)
Theorem poly1305_rfc8439 key pieces :
  all_bytes key -> zlen key = 32 -> all_bytes (concat pieces) ->
  finish (foldl update (init key) pieces) = rfc_poly1305 key (concat pieces) /\
  forall tag, zlen tag = 16 ->
    poly1305_verify key (concat pieces) tag = bool_decide (rfc_poly1305 key (concat pieces) = tag).
Proof.
  intros Hk Hl Hm. split; [|intros tag Ht; by apply poly1305_verify_correct]. apply finish_streamed; [done..|].
  apply (streamed_updates 16 process_block ltac:(lia) _ []). by apply streamed_init.
Qed.

(** ** Witnesses *)

Lemma poly1305_rfc8439_witness :
  finish (foldl update (init (seqZ 0 32)) [[1; 2; 3]; []; seqZ 7 30]) =
  rfc_poly1305 (seqZ 0 32) ([1; 2; 3] ++ [] ++ seqZ 7 30).
Proof.
  refine (proj1 (poly1305_rfc8439 (seqZ 0 32) [[1; 2; 3]; []; seqZ 7 30] _ eq_refl _));
    vm_compute; repeat constructor; discriminate.
Defined.
