(* ===== verification/Sha2.v ===== *)
(** * The SHA-2 family, by word size

    [crypto/sha256.hpp] and [crypto/sha512.hpp] contain the same code over 32-bit and
    64-bit words.  This file models it once, over the word size, the constants and the
    rotations; [Sha256.v] and [Sha512.v] instantiate it.  The module [Fips] is the
    compression function of FIPS 180-4, written from the standard: its constants from the
    roots of primes, its schedule as a recurrence over the words.  The code's rounds,
    schedule and compression compute it, and padding a streamed message block by block
    gives the hash of the padded message. *)

From S2P Require Import Prelude BlockStream.

(** ** The compression function *)

(** [std::rotr] on [w] bits. *)
Definition rotr (w x n : Z) : Z := (x >> n) .| wrap w (x << (w - n)).

Record hash8 := H8 { ha : Z; hb : Z; hc : Z; hd : Z; he : Z; hf : Z; hg : Z; hh : Z }.

Definition words8 (s : hash8) : list Z := [ha s; hb s; hc s; hd s; he s; hf s; hg s; hh s].

Section compress.
Context (w : Z) (Sigma0 Sigma1 sigma0 sigma1 : Z -> Z) (K : list Z).

Definition Ch (e f g : Z) : Z := (e .& f) .^ (wrap w (Z.lnot e) .& g).

Definition Maj (a b c : Z) : Z := (a .& b) .^ (a .& c) .^ (b .& c).

(** [load_be32] or [load_be64] of word [i]. *)
Definition load_be (block : bytes) (i : Z) : Z := be_val (ztake (w / 8) (zdrop (i * (w / 8)) block)).

(** [W[i]] from the words before it. *)
Definition next_word (W : list Z) (i : Z) : Z :=
  wrap w (sigma1 (at_ W (i - 2)) + at_ W (i - 7) + sigma0 (at_ W (i - 15)) + at_ W (i - 16)).

Definition schedule (block : bytes) : list Z :=
  foldl (fun W i => W ++ [next_word W i]) (map (load_be block) (seqZ 0 16)) (seqZ 16 (zlen K - 16)).

Definition round (s : hash8) (k wi : Z) : hash8 :=
  let T1 := wrap w (hh s + Sigma1 (he s) + Ch (he s) (hf s) (hg s) + k + wi) in
  let T2 := wrap w (Sigma0 (ha s) + Maj (ha s) (hb s) (hc s)) in
  H8 (wrap w (T1 + T2)) (ha s) (hb s) (hc s) (wrap w (hd s + T1)) (he s) (hf s) (hg s).

Definition add_hash (s t : hash8) : hash8 :=
  H8 (wrap w (ha s + ha t)) (wrap w (hb s + hb t)) (wrap w (hc s + hc t)) (wrap w (hd s + hd t))
     (wrap w (he s + he t)) (wrap w (hf s + hf t)) (wrap w (hg s + hg t)) (wrap w (hh s + hh t)).

Definition compress_scalar (state : hash8) (block : bytes) : hash8 :=
  let W := schedule block in
  add_hash state (foldl (fun s i => round s (at_ K i) (at_ W i)) state (seqZ 0 (zlen K))).

(** ** The schedule as a sliding window *)

(** The word after a window of sixteen. *)
Definition next16 (win : list Z) : Z :=
  wrap w (sigma1 (at_ win 14) + at_ win 9 + sigma0 (at_ win 1) + at_ win 0).

Fixpoint window (n : nat) (win : list Z) : list Z :=
  match n with
  | O => []
  | S n => next16 win :: window n (tail win ++ [next16 win])
  end.

Lemma next_word_window pre win : zlen win = 16 -> next_word (pre ++ win) (zlen pre + 16) = next16 win.
Proof.
  intros Hl. unfold next_word, next16.
  assert (forall i, 0 <= i -> at_ (pre ++ win) (zlen pre + i) = at_ win i) as E.
  { intros i Hi. unfold at_, zlen. rewrite app_nth2 by lia. f_equal. lia. }
  rewrite <- !(E _) by lia. do 4 f_equal; try (f_equal; lia). f_equal. f_equal. lia.
Qed.

Lemma schedule_window n pre win : zlen win = 16 ->
  foldl (fun W i => W ++ [next_word W i]) (pre ++ win) (seqZ (zlen pre + 16) (Z.of_nat n)) =
  pre ++ win ++ window n win.
Proof.
  revert pre win. induction n as [|n IH]; intros pre win Hl; [by rewrite app_nil_r|].
  rewrite seqZ_cons by lia. cbn [foldl window]. rewrite next_word_window by done.
  destruct win as [|x win]; [done|]. cbn [tail].
  replace (Z.succ (zlen pre + 16)) with (zlen (pre ++ [x]) + 16) by zlia.
  replace (Z.pred (Z.of_nat (S n))) with (Z.of_nat n) by lia.
  replace ((pre ++ x :: win) ++ [next16 (x :: win)]) with ((pre ++ [x]) ++ (win ++ [next16 (x :: win)]))
    by (rewrite <- !app_assoc; reflexivity).
  rewrite IH by zlia. rewrite <- !app_assoc. reflexivity.
Qed.

(** The compression function as a fold over constants and words. *)
Lemma compress_fold state block : (16 <= length K)%nat ->
  compress_scalar state block =
  let win := map (load_be block) (seqZ 0 16) in
  add_hash state (foldl (fun s p => round s (fst p) (snd p)) state (zip K (win ++ window (length K - 16) win))).
Proof.
  intros HK. unfold compress_scalar, schedule. set (win := map _ _).
  pose proof (schedule_window (length K - 16) [] win eq_refl) as E. cbn [app] in E.
  replace (zlen K - 16) with (Z.of_nat (length K - 16)) by (unfold zlen; lia).
  change (zlen [] + 16) with 16 in E. rewrite E. set (W := win ++ _).
  assert (length W = length K) as HW.
  { unfold W. rewrite length_app. change (length win) with 16%nat.
    assert (forall n v, length (window n v) = n) as -> by (induction n; intros; simpl; congruence). lia. }
  cbv zeta. f_equal. fold W.
  by rewrite (foldl_index _ K W state) by done.
Qed.

End compress.

(** ** FIPS 180-4 *)

(** The compression functions of the standard, written out from its text: sections 3.2 and 4.1
    for the operations, 4.2 and 5.3 for the constants, 6.2.2 and 6.4.2 for the schedule and the
    rounds.  Nothing of the code above is used. *)
Module Fips.

(** The word size, the amounts of the four functions, the number of rounds. *)
Record variant := mkVariant { word : Z; S0 : Z * Z * Z; S1 : Z * Z * Z; s0 : Z * Z * Z; s1 : Z * Z * Z; rounds : nat }.

Definition sha256_family : variant := mkVariant 32 (2, 13, 22) (6, 11, 25) (7, 18, 3) (17, 19, 10) 64.
Definition sha512_family : variant := mkVariant 64 (28, 34, 39) (14, 18, 41) (1, 8, 7) (19, 61, 6) 80.

(** The constants are the first bits of the fractional parts of roots of primes. *)
Definition is_prime (p : Z) : bool := forallb (fun d => negb (p mod d =? 0)) (seqZ 2 (p - 2)).
Definition primes (n : nat) : list Z := take n (filter (fun p => is_prime p = true) (seqZ 2 500)).

(** The integer cube root below [r + 2 ^ k], bit by bit. *)
Fixpoint cbrt (k : nat) (n r : Z) : Z :=
  match k with
  | O => r
  | S k => let r' := r + (1 << Z.of_nat k) in cbrt k n (if r' * r' * r' <=? n then r' else r)
  end.

Definition frac_cbrt (w p : Z) : Z := cbrt (Z.to_nat (w + 4)) (p * 2 ^ (3 * w)) 0 mod 2 ^ w.
Definition frac_sqrt (w p : Z) : Z := Z.sqrt (p * 2 ^ (2 * w)) mod 2 ^ w.

Section family.
Context (v : variant).

Definition K : list Z := map (frac_cbrt (word v)) (primes (rounds v)).

Definition ROTR (n x : Z) : Z := (x >> n) .| ((x << (word v - n)) mod 2 ^ word v).
Definition Sigma (a : Z * Z * Z) (x : Z) : Z := let '(i, j, k) := a in ROTR i x .^ ROTR j x .^ ROTR k x.
Definition sigma (a : Z * Z * Z) (x : Z) : Z := let '(i, j, k) := a in ROTR i x .^ ROTR j x .^ (x >> k).
Definition Ch (x y z : Z) : Z := (x .& y) .^ (Z.lnot x mod 2 ^ word v .& z).
Definition Maj (x y z : Z) : Z := (x .& y) .^ (x .& z) .^ (y .& z).

(** The words [W_t], the newest first, from those of the message block. *)
Fixpoint words (n : nat) (M : list Z) : list Z :=
  match n with
  | O => rev M
  | S n => let W := words n M in
      (sigma (s1 v) (nth 1 W 0) + nth 6 W 0 + sigma (s0 v) (nth 14 W 0) + nth 15 W 0) mod 2 ^ word v :: W
  end.

Definition round (h : hash8) (k w : Z) : hash8 :=
  let '(H8 a b c d e f g h) := h in
  let T1 := (h + Sigma (S1 v) e + Ch e f g + k + w) mod 2 ^ word v in
  let T2 := (Sigma (S0 v) a + Maj a b c) mod 2 ^ word v in
  H8 ((T1 + T2) mod 2 ^ word v) a b c ((d + T1) mod 2 ^ word v) e f g.

(** The [i]-th big-endian word of a block. *)
Definition message_word (block : bytes) (i : nat) : Z :=
  let m := Z.to_nat (word v / 8) in foldl (fun x b => x * 256 + b) 0 (take m (drop (i * m) block)).

Definition plus (s t : hash8) : hash8 :=
  let add x y := (x + y) mod 2 ^ word v in
  let '(H8 a b c d e f g h) := s in let '(H8 a' b' c' d' e' f' g' h') := t in
  H8 (add a a') (add b b') (add c c') (add d d') (add e e') (add f f') (add g g') (add h h').

Definition compress (h : hash8) (block : bytes) : hash8 :=
  let W := rev (words (rounds v - 16) (map (message_word block) (seq 0 16))) in
  plus h (foldl (fun s p => round s (fst p) (snd p)) h (zip K W)).
End family.

(** The initial hash values of section 5.3, from the square roots of primes. *)
Definition hash_of (l : list Z) : hash8 :=
  match l with [a; b; c; d; e; f; g; h] => H8 a b c d e f g h | _ => H8 0 0 0 0 0 0 0 0 end.
Definition H_256 : hash8 := hash_of (map (frac_sqrt 32) (primes 8)).
Definition H_512 : hash8 := hash_of (map (frac_sqrt 64) (primes 8)).
Definition H_384 : hash8 := hash_of (map (frac_sqrt 64) (drop 8 (primes 16))).
(** The second thirty-two bits of those of SHA-384. *)
Definition H_224 : hash8 := hash_of (map (fun p => frac_sqrt 64 p mod 2 ^ 32) (drop 8 (primes 16))).
End Fips.

Section fips.
Context (v : Fips.variant) (Sigma0 Sigma1 sigma0 sigma1 : Z -> Z) (K : list Z).
Abbreviation w := (Fips.word v).
Hypothesis ESigma0 : forall x, Sigma0 x = Fips.Sigma v (Fips.S0 v) x.
Hypothesis ESigma1 : forall x, Sigma1 x = Fips.Sigma v (Fips.S1 v) x.
Hypothesis Esigma0 : forall x, sigma0 x = Fips.sigma v (Fips.s0 v) x.
Hypothesis Esigma1 : forall x, sigma1 x = Fips.sigma v (Fips.s1 v) x.
Hypothesis EK : K = Fips.K v.
Hypothesis Hrounds : length K = Fips.rounds v.
Hypothesis Hlong : (16 <= Fips.rounds v)%nat.
Hypothesis Hw : 0 <= w.

Lemma round_fips s k x : round w Sigma0 Sigma1 s k x = Fips.round v s k x.
Proof. destruct s. unfold round, Fips.round. cbn [ha hb hc hd he hf hg hh]. by rewrite ESigma0, ESigma1. Qed.

Lemma plus_fips s t : add_hash w s t = Fips.plus v s t.
Proof. by destruct s, t. Qed.

Lemma load_fips block i : load_be w block (Z.of_nat i) = Fips.message_word v block i.
Proof.
  unfold load_be, Fips.message_word, be_val, ztake, zdrop. replace (Z.to_nat (Z.of_nat i * (w / 8))) with (i * Z.to_nat (w / 8))%nat; [done|].
  assert (0 <= w / 8) by (apply Z.div_pos; lia). nia.
Qed.

Lemma nth_rev (l : list Z) k : (k < length l)%nat -> nth k (rev l) 0 = at_ l (zlen l - 1 - Z.of_nat k).
Proof. intros Hk. rewrite rev_nth by done. unfold at_, zlen. f_equal. lia. Qed.

Lemma words_fips n M : length M = 16%nat ->
  rev (Fips.words v n M) = foldl (fun W i => W ++ [next_word w sigma0 sigma1 W i]) M (seqZ 16 (Z.of_nat n)) /\ length (Fips.words v n M) = (16 + n)%nat.
Proof.
  intros HM. induction n as [|n [IH Hl]]; [cbn; by rewrite rev_involutive, length_rev|]. split; [|cbn [Fips.words length]; lia].
  replace (Z.of_nat (S n)) with (Z.of_nat n + 1) by lia. rewrite seqZ_app, foldl_app, <- IH by lia. rewrite (seqZ_cons (16 + Z.of_nat n)), seqZ_nil by lia. cbn [foldl Fips.words rev]. f_equal. f_equal.
  set (W := Fips.words v n M) in *. unfold next_word. rewrite Esigma0, Esigma1.
  assert (forall k i, (k < 16)%nat -> i = 16 + Z.of_nat n - 1 - Z.of_nat k -> nth k W 0 = at_ (rev W) i) as E.
  { intros k i Hk ->. rewrite <- (rev_involutive W) at 1. rewrite nth_rev by (rewrite length_rev; lia). f_equal. unfold zlen. rewrite length_rev. lia. }
  by rewrite (E 1%nat (16 + Z.of_nat n - 2)), (E 6%nat (16 + Z.of_nat n - 7)), (E 14%nat (16 + Z.of_nat n - 15)), (E 15%nat (16 + Z.of_nat n - 16)) by lia.
Qed.

Lemma compress_fips state block : compress_scalar w Sigma0 Sigma1 sigma0 sigma1 K state block = Fips.compress v state block.
Proof.
  unfold compress_scalar, Fips.compress. assert (map (load_be w block) (seqZ 0 16) = map (Fips.message_word v block) (seq 0 16)) as EM.
  { unfold seqZ. change (Z.to_nat 16) with 16%nat. rewrite map_map. apply map_ext. intros i. rewrite <- load_fips. f_equal. lia. }
  unfold schedule. rewrite EM. set (M := map _ (seq 0 16)). destruct (words_fips (Fips.rounds v - 16) M eq_refl) as [EW HW].
  replace (zlen K - 16) with (Z.of_nat (Fips.rounds v - 16)) by (unfold zlen; lia). rewrite <- EW. set (W := rev _).
  rewrite foldl_index by (unfold W; rewrite length_rev; lia). rewrite <- EK.
  assert (forall l s, foldl (fun s p => round w Sigma0 Sigma1 s (fst p) (snd p)) s l = foldl (fun s p => Fips.round v s (fst p) (snd p)) s l) as ->.
  { induction l as [|p l IH]; intros s; [done|]. cbn [foldl]. by rewrite round_fips, IH. }
  apply plus_fips.
Qed.
End fips.

(** ** Streaming and padding *)

Section context.
Context (n off unit : Z) (compress : hash8 -> bytes -> hash8) (len_field : Z -> Z -> bytes).

(** The hash state and the count of what was compressed, [unit] per block. *)
Abbreviation counted := (hash8 * Z)%type.

Definition absorb (s : counted) (block : bytes) : counted :=
  (compress (fst s) block, u64 (snd s + unit)).

Abbreviation context := (stream counted).

Definition reset (h0 : hash8) : context := stream_init n (h0, 0).

Definition sha_update : context -> bytes -> context := stream_update n absorb.

Definition pad_and_compress (c : context) : hash8 :=
  let '(st, count) := state_ c in
  let field := len_field count (buf_len_ c) in
  let buf := store (buf_ c) (buf_len_ c) [0x80] in
  let buf_len := buf_len_ c + 1 in
  let '(st, buf, buf_len) :=
    if off <? buf_len then
      let buf := store buf buf_len (replicate (Z.to_nat (n - buf_len)) 0) in (compress st buf, buf, 0)
    else (st, buf, buf_len) in
  let buf := store buf buf_len (replicate (Z.to_nat (off - buf_len)) 0) in
  let buf := store buf off field in
  compress st buf.

(** The padding of FIPS 180-4, section 5.1: a one bit, the least number of zeros, the
    length. *)
Definition padding (msg field : bytes) : bytes :=
  0x80 :: replicate (Z.to_nat ((off - 1 - zlen msg) mod n)) 0 ++ field.

Definition fips_blocks (msg field : bytes) : list bytes := fst (chop n (msg ++ padding msg field)).

Hypothesis off_range : 0 < off < n.
Hypothesis len_field_size : forall count len, zlen (len_field count len) = n - off.

(** What the count says after whole blocks. *)
Lemma absorb_all s blocks : in_range 64 (snd s) ->
  foldl absorb s blocks = (foldl compress (fst s) blocks, u64 (snd s + unit * zlen blocks)).
Proof.
  revert s. induction blocks as [|b blocks IH]; intros s Hs; cbn [foldl].
  - rewrite Z.mul_0_r, Z.add_0_r, wrap_small by done. by destruct s.
  - rewrite IH by (apply wrap_range; lia). cbn [absorb fst snd]. f_equal.
    unfold wrap. rewrite Z.add_mod_idemp_l by lia. f_equal. zlia.
Qed.

Lemma padded_blocks msg field : zlen field = n - off ->
  fips_blocks msg field = fst (chop n msg) ++
  let rest := snd (chop n msg) in
  if off <? zlen rest + 1
  then [rest ++ 0x80 :: replicate (Z.to_nat (n - zlen rest - 1)) 0; replicate (Z.to_nat off) 0 ++ field]
  else [rest ++ 0x80 :: replicate (Z.to_nat (off - zlen rest - 1)) 0 ++ field].
Proof.
  intros Hf. unfold fips_blocks, padding. rewrite chop_app by lia. cbn [fst]. f_equal.
  pose proof (chop_rest n msg ltac:(lia)) as Hr. pose proof (zlen_chop n msg ltac:(lia)) as Hlen.
  set (rest := snd (chop n msg)) in *. set (q := zlen (fst (chop n msg))) in *. pose proof (zlen_nonneg rest) as Hr0.
  cbv zeta. destruct (Z.ltb_spec off (zlen rest + 1)) as [H|H].
  - assert ((off - 1 - zlen msg) mod n = off - 1 - zlen rest + n) as ->.
    { symmetry. apply Z.mod_unique_pos with (q := - q - 1); nia. }
    replace (Z.to_nat (off - 1 - zlen rest + n)) with (Z.to_nat (n - zlen rest - 1) + Z.to_nat off)%nat by lia.
    rewrite replicate_add, <- !app_assoc.
    replace (rest ++ 0x80 :: replicate (Z.to_nat (n - zlen rest - 1)) 0 ++ replicate (Z.to_nat off) 0 ++ field)
      with ((rest ++ 0x80 :: replicate (Z.to_nat (n - zlen rest - 1)) 0) ++ (replicate (Z.to_nat off) 0 ++ field) ++ [])
      by (rewrite app_nil_r, <- !app_assoc; reflexivity).
    rewrite chop_cons by zlia. cbn [fst snd]. rewrite chop_cons by zlia. cbn [fst snd].
    by rewrite (chop_small n []) by zlia.
  - assert ((off - 1 - zlen msg) mod n = off - 1 - zlen rest) as ->.
    { symmetry. apply Z.mod_unique_pos with (q := - q); nia. }
    replace (off - 1 - zlen rest) with (off - zlen rest - 1) by lia.
    rewrite <- (app_nil_r (rest ++ _)), chop_cons by zlia. cbn [fst snd]. by rewrite (chop_small n []), app_nil_r by zlia.
Qed.

(** A buffer of [n] bytes whose first part is [rest]. *)
Lemma buf_split (buf rest : bytes) : ztake (zlen rest) buf = rest -> buf = rest ++ zdrop (zlen rest) buf.
Proof. intros E. rewrite <- E at 1. by rewrite ztake_zdrop. Qed.

(** The padded blocks are what [pad_and_compress] feeds to the compression function. *)
Lemma pad_streamed h0 msg c : streamed n absorb (h0, 0) msg c ->
  pad_and_compress c =
  foldl compress h0 (fips_blocks msg (len_field (u64 (unit * zlen (fst (chop n msg)))) (zlen (snd (chop n msg))))).
Proof.
  intros [Hs Hp Hl Hb]. rewrite absorb_all in Hs by (by vm_compute). cbn [fst snd] in Hs.
  pose proof (chop_rest n msg ltac:(lia)) as Hr. rewrite padded_blocks by apply len_field_size.
  set (rest := snd (chop n msg)) in *. pose proof (zlen_nonneg rest) as Hr0. cbv zeta.
  unfold pad_and_compress. rewrite Hs, Hl, Z.add_0_l, foldl_app. set (st := foldl compress h0 _).
  set (field := len_field _ _). assert (zlen field = n - off) as Hfl by apply len_field_size. clearbody field st.
  unfold pending in Hp. rewrite Hl in Hp. apply buf_split in Hp. set (tl := zdrop (zlen rest) (buf_ c)) in *. clearbody tl.
  rewrite Hp in *. assert (zlen tl = n - zlen rest) as Htl by zlia.
  rewrite store_at by done. change (zlen [128]) with 1.
  assert (zlen (zdrop 1 tl) = n - zlen rest - 1) as Htl1 by (rewrite zlen_zdrop; lia). set (tl1 := zdrop 1 tl) in *. clearbody tl1.
  destruct (Z.ltb_spec off (zlen rest + 1)) as [H|H]; cbn [foldl]; cbv iota zeta.
  - rewrite (app_assoc rest [128]), store_at, zdrop_all, app_nil_r by zlia.
    replace (Z.to_nat (n - (zlen rest + 1))) with (Z.to_nat (n - zlen rest - 1)) by lia.
    rewrite <- (app_assoc rest [128]). cbn [app]. set (block1 := rest ++ _).
    assert (zlen block1 = n) as Hb1 by (unfold block1; zlia). clearbody block1.
    rewrite Z.sub_0_r, store_0, store_at, zdrop_all, app_nil_r; [reflexivity| |zlia].
    rewrite zlen_zdrop; zlia.
  - rewrite (app_assoc rest [128]), store_at by zlia.
    replace (Z.to_nat (off - (zlen rest + 1))) with (Z.to_nat (off - zlen rest - 1)) by lia.
    rewrite app_assoc, store_at, zdrop_all, app_nil_r by (rewrite ?zlen_zdrop; zlia).
    rewrite <- !app_assoc. reflexivity.
Qed.

End context.
