(* ===== verification/Simd.v ===== *)
(** * Vectors of four 32-bit words

    The NEON and SSE values [uint32x4_t] and [__m128i], as the operations of
    [crypto/chacha20.hpp] and [crypto/sha256.hpp] use them: lane 0 is the least
    significant.  The instructions are those of the processor manuals. *)

From S2P Require Import Prelude.

(** [uint32x4_t]. *)
Record vec4 := V4 { x0 : Z; x1 : Z; x2 : Z; x3 : Z }.

Definition lanes1 (f : Z -> Z) (a : vec4) : vec4 := V4 (f (x0 a)) (f (x1 a)) (f (x2 a)) (f (x3 a)).

Definition lanes2 (f : Z -> Z -> Z) (a b : vec4) : vec4 :=
  V4 (f (x0 a) (x0 b)) (f (x1 a) (x1 b)) (f (x2 a) (x2 b)) (f (x3 a) (x3 b)).

Definition vdupq_n_u32 (v : Z) : vec4 := V4 v v v v.
Definition vaddq_u32 : vec4 -> vec4 -> vec4 := lanes2 (fun a b => u32 (a + b)).
Definition veorq_u32 : vec4 -> vec4 -> vec4 := lanes2 Z.lxor.
Definition vorrq_u32 : vec4 -> vec4 -> vec4 := lanes2 Z.lor.
Definition vshlq_n_u32 (a : vec4) (n : Z) : vec4 := lanes1 (fun v => u32 (v << n)) a.
Definition vshrq_n_u32 (a : vec4) (n : Z) : vec4 := lanes1 (fun v => v >> n) a.

(** [_mm_shuffle_epi32(a, imm)]: lane [i] is the lane of [a] that bits [2i] and [2i + 1] of
    [imm] name. *)
Definition lane (a : vec4) (i : Z) : Z :=
  if i =? 0 then x0 a else if i =? 1 then x1 a else if i =? 2 then x2 a else x3 a.

Definition shuffle_epi32 (a : vec4) (imm : Z) : vec4 :=
  V4 (lane a (imm .& 3)) (lane a ((imm >> 2) .& 3)) (lane a ((imm >> 4) .& 3)) (lane a ((imm >> 6) .& 3)).

(** [_mm_alignr_epi8(a, b, n)] for whole words: [a] above [b], shifted right. *)
Definition alignr_epi8_4 (a b : vec4) : vec4 := V4 (x1 b) (x2 b) (x3 b) (x0 a).

Definition alignr_epi8_8 (a b : vec4) : vec4 := V4 (x2 b) (x3 b) (x0 a) (x1 a).

(** [_mm_blend_epi16(a, b, 0xF0)]. *)
Definition blend_epi16_F0 (a b : vec4) : vec4 := V4 (x0 a) (x1 a) (x2 b) (x3 b).
