(* ===== verification/Sha256.v ===== *)
(** * SHA-256 and SHA-224 of [crypto/sha256.hpp]

    The three implementations of the compression function, chosen when the code is
    compiled: scalar, ARM SHA2 instructions, Intel SHA-NI instructions; and the class
    [Sha256Context].  The ARM code computes what the scalar code computes, and the
    digest of a message given in any pieces is the one of FIPS 180-4.  The Intel code
    computes something else. *)

From S2P Require Import Prelude BlockStream Sha2 Simd.

Module detail256.

(** The table, in the rows of four the source prints. *)
Definition K : list Z :=
  concat
    [[0x428a2f98; 0x71374491; 0xb5c0fbcf; 0xe9b5dba5];
     [0x3956c25b; 0x59f111f1; 0x923f82a4; 0xab1c5ed5];
     [0xd807aa98; 0x12835b01; 0x243185be; 0x550c7dc3];
     [0x72be5d74; 0x80deb1fe; 0x9bdc06a7; 0xc19bf174];
     [0xe49b69c1; 0xefbe4786; 0x0fc19dc6; 0x240ca1cc];
     [0x2de92c6f; 0x4a7484aa; 0x5cb0a9dc; 0x76f988da];
     [0x983e5152; 0xa831c66d; 0xb00327c8; 0xbf597fc7];
     [0xc6e00bf3; 0xd5a79147; 0x06ca6351; 0x14292967];
     [0x27b70a85; 0x2e1b2138; 0x4d2c6dfc; 0x53380d13];
     [0x650a7354; 0x766a0abb; 0x81c2c92e; 0x92722c85];
     [0xa2bfe8a1; 0xa81a664b; 0xc24b8b70; 0xc76c51a3];
     [0xd192e819; 0xd6990624; 0xf40e3585; 0x106aa070];
     [0x19a4c116; 0x1e376c08; 0x2748774c; 0x34b0bcb5];
     [0x391c0cb3; 0x4ed8aa4a; 0x5b9cca4f; 0x682e6ff3];
     [0x748f82ee; 0x78a5636f; 0x84c87814; 0x8cc70208];
     [0x90befffa; 0xa4506ceb; 0xbef9a3f7; 0xc67178f2]].

Definition H0_256 : hash8 :=
  H8 0x6a09e667 0xbb67ae85 0x3c6ef372 0xa54ff53a 0x510e527f 0x9b05688c 0x1f83d9ab 0x5be0cd19.

Definition H0_224 : hash8 :=
  H8 0xc1059ed8 0x367cd507 0x3070dd17 0xf70e5939 0xffc00b31 0x68581511 0x64f98fa7 0xbefa4fa4.

Definition Sigma0 (x : Z) : Z := rotr 32 x 2 .^ rotr 32 x 13 .^ rotr 32 x 22.
Definition Sigma1 (x : Z) : Z := rotr 32 x 6 .^ rotr 32 x 11 .^ rotr 32 x 25.
Definition sigma0 (x : Z) : Z := rotr 32 x 7 .^ rotr 32 x 18 .^ (x >> 3).
Definition sigma1 (x : Z) : Z := rotr 32 x 17 .^ rotr 32 x 19 .^ (x >> 10).

Definition load_be32 (block : bytes) (i : Z) : Z := load_be 32 block i.

Definition compress_scalar : hash8 -> bytes -> hash8 := Sha2.compress_scalar 32 Sigma0 Sigma1 sigma0 sigma1 K.

Definition round256 : hash8 -> Z -> Z -> hash8 := Sha2.round 32 Sigma0 Sigma1.

(** ** ARM SHA2 *)

(** The instructions, which are defined by the functions of the standard.  [SHA256H] and
    [SHA256H2] run four rounds on the two halves of the hash and return one half each. *)
Definition fips_round : hash8 -> Z -> Z -> hash8 := Fips.round Fips.sha256_family.
Definition fips_sigma0 : Z -> Z := Fips.sigma Fips.sha256_family (Fips.s0 Fips.sha256_family).
Definition fips_sigma1 : Z -> Z := Fips.sigma Fips.sha256_family (Fips.s1 Fips.sha256_family).

Definition four_rounds (abcd efgh wk : vec4) : hash8 :=
  let step s kw := fips_round s 0 kw in
  step (step (step (step
    (H8 (x0 abcd) (x1 abcd) (x2 abcd) (x3 abcd) (x0 efgh) (x1 efgh) (x2 efgh) (x3 efgh))
    (x0 wk)) (x1 wk)) (x2 wk)) (x3 wk).

Definition vsha256hq_u32 (abcd efgh wk : vec4) : vec4 :=
  let s := four_rounds abcd efgh wk in V4 (ha s) (hb s) (hc s) (hd s).

Definition vsha256h2q_u32 (efgh abcd wk : vec4) : vec4 :=
  let s := four_rounds abcd efgh wk in V4 (he s) (hf s) (hg s) (hh s).

Definition vsha256su0q_u32 (w0 w4 : vec4) : vec4 :=
  V4 (u32 (x0 w0 + fips_sigma0 (x1 w0))) (u32 (x1 w0 + fips_sigma0 (x2 w0)))
     (u32 (x2 w0 + fips_sigma0 (x3 w0))) (u32 (x3 w0 + fips_sigma0 (x0 w4))).

Definition vsha256su1q_u32 (tw w8 w12 : vec4) : vec4 :=
  let r0 := u32 (fips_sigma1 (x2 w12) + x0 tw + x1 w8) in
  let r1 := u32 (fips_sigma1 (x3 w12) + x1 tw + x2 w8) in
  let r2 := u32 (fips_sigma1 r0 + x2 tw + x3 w8) in
  let r3 := u32 (fips_sigma1 r1 + x3 tw + x0 w12) in
  V4 r0 r1 r2 r3.

(** Four words of the block, or of a table. *)
Definition load4 (f : Z -> Z) (i : Z) : vec4 := V4 (f i) (f (i + 1)) (f (i + 2)) (f (i + 3)).

Definition arm_rounds (abcd efgh w k : vec4) : vec4 * vec4 :=
  let wk := vaddq_u32 w k in
  (vsha256hq_u32 abcd efgh wk, vsha256h2q_u32 efgh abcd wk).

(** [SHA256_ARM_ROUNDS4] for the constants from [4 * i] on: each use replaces the oldest of
    the four message registers. *)
Fixpoint arm_schedule (n : nat) (i : Z) (abcd efgh wa wb wc wd : vec4) : vec4 * vec4 :=
  match n with
  | O => (abcd, efgh)
  | S n =>
      let w_new := vsha256su1q_u32 (vsha256su0q_u32 wa wb) wc wd in
      let '(abcd, efgh) := arm_rounds abcd efgh w_new (load4 (at_ K) (4 * i)) in
      arm_schedule n (i + 1) abcd efgh wb wc wd w_new
  end.

Definition compress_arm_sha2 (state : hash8) (block : bytes) : hash8 :=
  let abcd0 := V4 (ha state) (hb state) (hc state) (hd state) in
  let efgh0 := V4 (he state) (hf state) (hg state) (hh state) in
  let w0 := load4 (load_be32 block) 0 in
  let w1 := load4 (load_be32 block) 4 in
  let w2 := load4 (load_be32 block) 8 in
  let w3 := load4 (load_be32 block) 12 in
  let '(abcd, efgh) := arm_rounds abcd0 efgh0 w0 (load4 (at_ K) 0) in
  let '(abcd, efgh) := arm_rounds abcd efgh w1 (load4 (at_ K) 4) in
  let '(abcd, efgh) := arm_rounds abcd efgh w2 (load4 (at_ K) 8) in
  let '(abcd, efgh) := arm_rounds abcd efgh w3 (load4 (at_ K) 12) in
  let '(abcd, efgh) := arm_schedule 12 4 abcd efgh w0 w1 w2 w3 in
  let abcd := vaddq_u32 abcd abcd0 in
  let efgh := vaddq_u32 efgh efgh0 in
  H8 (x0 abcd) (x1 abcd) (x2 abcd) (x3 abcd) (x0 efgh) (x1 efgh) (x2 efgh) (x3 efgh).

(** ** Intel SHA-NI *)

(** [_mm_sha256rnds2_epu32]: two rounds; the halves hold [f, e, b, a] and [h, g, d, c]. *)
Definition sha256rnds2 (cdgh abef wk : vec4) : vec4 :=
  let s := H8 (x3 abef) (x2 abef) (x3 cdgh) (x2 cdgh) (x1 abef) (x0 abef) (x1 cdgh) (x0 cdgh) in
  let s := fips_round (fips_round s 0 (x0 wk)) 0 (x1 wk) in
  V4 (hf s) (he s) (hb s) (ha s).

Definition sha256msg1 (a b : vec4) : vec4 := vsha256su0q_u32 a b.

Definition sha256msg2 (a b : vec4) : vec4 :=
  let w16 := u32 (x0 a + fips_sigma1 (x2 b)) in
  let w17 := u32 (x1 a + fips_sigma1 (x3 b)) in
  let w18 := u32 (x2 a + fips_sigma1 w16) in
  let w19 := u32 (x3 a + fips_sigma1 w17) in
  V4 w16 w17 w18 w19.

Definition ni_rounds (abef cdgh msg : vec4) (ki : Z) : vec4 * vec4 :=
  let wk := vaddq_u32 msg (load4 (at_ K) ki) in
  let cdgh := sha256rnds2 cdgh abef wk in
  let abef := sha256rnds2 abef cdgh (shuffle_epi32 wk 0xEE) in
  (abef, cdgh).

(** [SHA256_NI_ROUND(msg_cur, msg_a, msg_b, msg_c, ki)]: the rounds and the new [msg_cur]. *)
Definition ni_round (abef cdgh msg_cur msg_a msg_b msg_c : vec4) (ki : Z) : vec4 * vec4 * vec4 :=
  let '(abef, cdgh) := ni_rounds abef cdgh msg_cur ki in
  (abef, cdgh,
   sha256msg2 (vaddq_u32 (sha256msg1 msg_cur msg_a) (alignr_epi8_4 msg_b msg_a)) msg_c).

(** Rounds 16 to 63: the registers [msg1, msg2, msg3, msg0] in turn. *)
Fixpoint ni_schedule (n : nat) (ki : Z) (abef cdgh cur a b c : vec4) : vec4 * vec4 :=
  match n with
  | O => (abef, cdgh)
  | S n =>
      let '(abef, cdgh, cur) := ni_round abef cdgh cur a b c ki in
      ni_schedule n (ki + 4) abef cdgh a b c cur
  end.

Definition compress_sha_ni (state : hash8) (block : bytes) : hash8 :=
  let abef := V4 (ha state) (hb state) (hc state) (hd state) in
  let cdgh := V4 (he state) (hf state) (hg state) (hh state) in
  let tmp := shuffle_epi32 abef 0xB1 in
  let cdgh := shuffle_epi32 cdgh 0x1B in
  let abef := alignr_epi8_8 tmp cdgh in
  let cdgh := blend_epi16_F0 cdgh tmp in
  let abef0 := abef in
  let cdgh0 := cdgh in
  let msg0 := load4 (load_be32 block) 0 in
  let msg1 := load4 (load_be32 block) 4 in
  let msg2 := load4 (load_be32 block) 8 in
  let msg3 := load4 (load_be32 block) 12 in
  let '(abef, cdgh) := ni_rounds abef cdgh msg0 0 in
  let msg0 := sha256msg1 msg0 msg1 in
  let '(abef, cdgh) := ni_rounds abef cdgh msg1 4 in
  let msg1 := sha256msg1 msg1 msg2 in
  let '(abef, cdgh) := ni_rounds abef cdgh msg2 8 in
  let msg2 := sha256msg1 msg2 msg3 in
  let '(abef, cdgh) := ni_rounds abef cdgh msg3 12 in
  let msg0 := sha256msg2 (vaddq_u32 msg0 (alignr_epi8_4 msg3 msg2)) msg3 in
  let '(abef, cdgh) := ni_schedule 12 16 abef cdgh msg1 msg2 msg3 msg0 in
  let abef := vaddq_u32 abef abef0 in
  let cdgh := vaddq_u32 cdgh cdgh0 in
  let tmp := shuffle_epi32 abef 0x1B in
  let abef := shuffle_epi32 cdgh 0xB1 in
  let cdgh := blend_epi16_F0 tmp abef in
  let abef := alignr_epi8_8 abef tmp in
  H8 (x0 cdgh) (x1 cdgh) (x2 cdgh) (x3 cdgh) (x0 abef) (x1 abef) (x2 abef) (x3 abef).

(** The compiled implementation. *)
Inductive target := Scalar | ArmSha2 | ShaNi.

Definition compress_block (t : target) : hash8 -> bytes -> hash8 :=
  match t with
  | ShaNi => compress_sha_ni
  | ArmSha2 => compress_arm_sha2
  | Scalar => compress_scalar
  end.

(** ** The ARM code computes the scalar compression *)

Definition lo (s : hash8) : vec4 := V4 (ha s) (hb s) (hc s) (hd s).
Definition hi (s : hash8) : vec4 := V4 (he s) (hf s) (hg s) (hh s).
Definition vlist (v : vec4) : list Z := [x0 v; x1 v; x2 v; x3 v].

Abbreviation rounds_fold := (foldl (fun s p => round256 s (fst p) (snd p))).

Lemma round256_fips s k w : round256 s k w = fips_round s k w.
Proof. exact (round_fips Fips.sha256_family Sigma0 Sigma1 (fun _ => eq_refl) (fun _ => eq_refl) s k w). Qed.

Lemma K_fips : K = Fips.K Fips.sha256_family.
Proof. vm_compute. reflexivity. Qed.

Lemma compress_scalar_fips state block : compress_scalar state block = Fips.compress Fips.sha256_family state block.
Proof. apply (compress_fips Fips.sha256_family Sigma0 Sigma1 sigma0 sigma1 K (fun _ => eq_refl) (fun _ => eq_refl) (fun _ => eq_refl) (fun _ => eq_refl) K_fips eq_refl); cbn; lia. Qed.

Lemma round_sum s k w : round256 s 0 (u32 (w + k)) = round256 s k w.
Proof.
  unfold round256, Sha2.round. rewrite !wrap_add_r.
  replace (hh s + Sigma1 (he s) + Ch 32 (he s) (hf s) (hg s) + 0 + (w + k))
    with (hh s + Sigma1 (he s) + Ch 32 (he s) (hf s) (hg s) + k + w) by lia. reflexivity.
Qed.

Lemma arm_rounds_spec s w k :
  arm_rounds (lo s) (hi s) w k =
  let s' := rounds_fold s (zip (vlist k) (vlist w)) in (lo s', hi s').
Proof.
  unfold arm_rounds, vsha256hq_u32, vsha256h2q_u32, four_rounds, vaddq_u32, lanes2. rewrite <- !round256_fips.
  cbn [x0 x1 x2 x3]. rewrite !round_sum. by destruct s.
Qed.

Lemma fips_sigma0_eq : fips_sigma0 = sigma0.
Proof. reflexivity. Qed.

Lemma fips_sigma1_eq : fips_sigma1 = sigma1.
Proof. reflexivity. Qed.

Lemma window_vectors m wa wb wc wd :
  let w := vsha256su1q_u32 (vsha256su0q_u32 wa wb) wc wd in
  window 32 sigma0 sigma1 (4 + m) (vlist wa ++ vlist wb ++ vlist wc ++ vlist wd) =
  vlist w ++ window 32 sigma0 sigma1 m (vlist wb ++ vlist wc ++ vlist wd ++ vlist w).
Proof.
  assert (forall a b c d, u32 (a + u32 (d + c) + b) = u32 (a + b + c + d)) as E.
  { intros. rewrite (Z.add_comm a), <- Z.add_assoc, wrap_add_l. f_equal. lia. }
  destruct wa as [a0 a1 a2 a3], wb as [b0 b1 b2 b3], wc as [c0 c1 c2 c3], wd as [d0 d1 d2 d3].
  cbv zeta. unfold vsha256su1q_u32, vsha256su0q_u32. cbn [x0 x1 x2 x3].
  rewrite fips_sigma0_eq, fips_sigma1_eq, !E.
  unfold vlist. cbn [x0 x1 x2 x3 app]. reflexivity.
Qed.

Lemma load4_drop l i : 0 <= i -> 4 * i + 4 <= zlen l ->
  zdrop (4 * i) l = vlist (load4 (at_ l) (4 * i)) ++ zdrop (4 * (i + 1)) l.
Proof.
  intros Hi Hl. assert (vlist (load4 (at_ l) (4 * i)) = map (at_ l) (seqZ (4 * i) 4)) as ->.
  { rewrite !seqZ_cons, seqZ_nil by lia. unfold vlist, load4. cbn [map x0 x1 x2 x3].
    unfold Z.succ. rewrite <- !Z.add_assoc. reflexivity. }
  rewrite map_at_seqZ by lia. rewrite Z.mul_add_distr_l, <- (zdrop_zdrop (4 * 1) (4 * i)) by lia.
  symmetry. apply ztake_zdrop.
Qed.

Lemma zip_vlist v w l k : zip (vlist v ++ l) (vlist w ++ k) = zip (vlist v) (vlist w) ++ zip l k.
Proof. reflexivity. Qed.

Lemma arm_schedule_spec n i s wa wb wc wd : 0 <= i -> i + Z.of_nat n = 16 ->
  arm_schedule n i (lo s) (hi s) wa wb wc wd =
  let s' := rounds_fold s (zip (zdrop (4 * i) K)
    (window 32 sigma0 sigma1 (4 * n) (vlist wa ++ vlist wb ++ vlist wc ++ vlist wd))) in (lo s', hi s').
Proof.
  revert i s wa wb wc wd. induction n as [|n IH]; intros i s wa wb wc wd Hi Hn.
  { change (4 * 0)%nat with 0%nat. cbn [arm_schedule window]. by rewrite zip_with_nil_r. }
  replace (4 * S n)%nat with (4 + 4 * n)%nat by lia. rewrite window_vectors. cbv zeta. cbn [arm_schedule].
  rewrite (load4_drop K i) by (change (zlen K) with 64; lia). rewrite arm_rounds_spec. cbv beta iota zeta.
  rewrite IH by lia. cbv zeta. by rewrite zip_vlist, foldl_app.
Qed.

Lemma compress_arm_equiv state block : compress_arm_sha2 state block = compress_scalar state block.
Proof.
  unfold compress_scalar. rewrite compress_fold by (simpl; lia). cbv zeta.
  assert (map (load_be 32 block) (seqZ 0 16) = vlist (load4 (load_be32 block) 0) ++
    vlist (load4 (load_be32 block) 4) ++ vlist (load4 (load_be32 block) 8) ++ vlist (load4 (load_be32 block) 12)) as ->
    by reflexivity.
  unfold compress_arm_sha2. fold (lo state) (hi state).
  set (w0 := load4 (load_be32 block) 0). set (w1 := load4 (load_be32 block) 4). set (w2 := load4 (load_be32 block) 8). set (w3 := load4 (load_be32 block) 12).
  change (length K - 16)%nat with (4 * 12)%nat.
  set (win := window _ _ _ _ _).
  assert (zip K ((vlist w0 ++ vlist w1 ++ vlist w2 ++ vlist w3) ++ win) =
    zip (vlist (load4 (at_ K) 0)) (vlist w0) ++ zip (vlist (load4 (at_ K) 4)) (vlist w1) ++
    zip (vlist (load4 (at_ K) 8)) (vlist w2) ++ zip (vlist (load4 (at_ K) 12)) (vlist w3) ++ zip (zdrop 16 K) win) as ->.
  { change K with (vlist (load4 (at_ K) 0) ++ vlist (load4 (at_ K) 4) ++ vlist (load4 (at_ K) 8) ++
      vlist (load4 (at_ K) 12) ++ zdrop 16 K) at 1.
    by rewrite <- !app_assoc, !zip_vlist. }
  rewrite !foldl_app. do 4 (rewrite arm_rounds_spec; cbv beta iota zeta). rewrite arm_schedule_spec by lia.
  cbv beta iota zeta. change (4 * 4) with 16. fold win. unfold round256. set (s' := foldl _ _ (zip (zdrop 16 K) win)).
  unfold add_hash, vaddq_u32, lanes2, lo, hi. cbn [x0 x1 x2 x3].
  f_equal; f_equal; apply Z.add_comm.
Qed.

End detail256.


Import detail256.

(** ** [Sha256Context] *)

Inductive Variant := SHA256 | SHA224.

Abbreviation Sha256Context := (stream (hash8 * Z)).

Definition reset_256 : Sha256Context := reset 64 H0_256.
Definition reset_224 : Sha256Context := reset 64 H0_224.

Definition new_context (v : Variant) : Sha256Context :=
  match v with SHA224 => reset_224 | SHA256 => reset_256 end.

Definition sha256_update (t : target) : Sha256Context -> bytes -> Sha256Context :=
  sha_update 64 512 (compress_block t).

(** [msg_bits = total_bits_ + buf_len_ * 8], in big-endian order. *)
Definition length_field256 (total_bits buf_len : Z) : bytes := be_bytes 8 (u64 (total_bits + buf_len * 8)).

Definition pad256 (t : target) : Sha256Context -> hash8 := pad_and_compress 64 56 (compress_block t) length_field256.

Definition sha256_finalize (t : target) (c : Sha256Context) : bytes :=
  concat (map (be_bytes 4) (words8 (pad256 t c))).

Definition sha256_finalize_224 (t : target) (c : Sha256Context) : bytes :=
  concat (map (be_bytes 4) (ztake 7 (words8 (pad256 t c)))).

Definition sha256 (t : target) (data : bytes) : bytes :=
  sha256_finalize t (sha256_update t (new_context SHA256) data).

Definition sha224 (t : target) (data : bytes) : bytes :=
  sha256_finalize_224 t (sha256_update t (new_context SHA224) data).

(** The examples of FIPS 180-4 for the message "abc". *)
Definition abc : bytes := chars "abc".

Definition hex_words (n : nat) (ws : list Z) : bytes := concat (map (be_bytes n) ws).

Example sha256_abc : sha256 Scalar abc =
  hex_words 4 [0xba7816bf; 0x8f01cfea; 0x414140de; 0x5dae2223; 0xb00361a3; 0x96177a9c; 0xb410ff61; 0xf20015ad].
Proof. by vm_compute. Qed.

Example sha224_abc : sha224 Scalar abc =
  hex_words 4 [0x23097d22; 0x3405d822; 0x8642a477; 0xbda255b3; 0x2aadbce4; 0xbda0b3f7; 0xe36c9da7].
Proof. by vm_compute. Qed.

(** ** FIPS 180-4 *)

Definition fips_hash256 (h0 : hash8) (msg : bytes) : hash8 :=
  foldl (Fips.compress Fips.sha256_family) h0 (fips_blocks 64 56 msg (be_bytes 8 (8 * zlen msg))).

Definition fips_sha256 (msg : bytes) : bytes := concat (map (be_bytes 4) (words8 (fips_hash256 Fips.H_256 msg))).
Definition fips_sha224 (msg : bytes) : bytes := concat (map (be_bytes 4) (ztake 7 (words8 (fips_hash256 Fips.H_224 msg)))).

Lemma compress_block_fips t : t <> ShaNi -> forall s b, compress_block t s b = Fips.compress Fips.sha256_family s b.
Proof. destruct t; intros Ht s b; [apply compress_scalar_fips|rewrite <- compress_scalar_fips; apply compress_arm_equiv|done]. Qed.

Lemma H0_256_fips : H0_256 = Fips.H_256.
Proof. vm_compute. reflexivity. Qed.

Lemma H0_224_fips : H0_224 = Fips.H_224.
Proof. vm_compute. reflexivity. Qed.

Lemma length_field_spec256 msg :
  length_field256 (u64 (512 * zlen (fst (chop 64 msg)))) (zlen (snd (chop 64 msg))) = be_bytes 8 (8 * zlen msg).
Proof.
  unfold length_field256. rewrite wrap_add_l. unfold wrap. change (2 ^ 64) with (256 ^ 8).
  rewrite be_bytes_mod by lia. f_equal. rewrite (zlen_chop 64 msg) by lia. lia.
Qed.

Lemma pad256_streamed t h0 msg c : t <> ShaNi ->
  streamed 64 (absorb 512 (compress_block t)) (h0, 0) msg c -> pad256 t c = fips_hash256 h0 msg.
Proof.
  intros Ht Hc. unfold pad256.
  rewrite (pad_streamed 64 56 512 (compress_block t) length_field256 ltac:(lia) ltac:(intros; apply zlen_be_bytes) h0 msg c Hc).
  rewrite length_field_spec256. apply foldl_ext. by apply compress_block_fips.
Qed.

(** C14.  On the scalar and the ARM targets the SHA-256 and SHA-224 digests of a message
    given in any pieces are those of FIPS 180-4 for their concatenation: its padding, its
    constants as fractional parts of roots of primes, its schedule and its rounds. *)
Theorem sha256_fips t pieces :
  t <> ShaNi ->
  sha256_finalize t (foldl (sha256_update t) (new_context SHA256) pieces) = fips_sha256 (concat pieces) /\
  sha256_finalize_224 t (foldl (sha256_update t) (new_context SHA224) pieces) = fips_sha224 (concat pieces).
Proof.
  intros Ht. unfold sha256_finalize, sha256_finalize_224, fips_sha256, fips_sha224. rewrite <- H0_256_fips, <- H0_224_fips.
  rewrite (pad256_streamed t H0_256 (concat pieces)), (pad256_streamed t H0_224 (concat pieces)) by
    (done || apply (streamed_updates 64 _ ltac:(lia) _ []); by apply streamed_init). done.
Qed.

(** On an Intel target with the SHA extensions the digest of "abc" is not its SHA-256:
    rounds 16 to 19 use a register whose schedule is not finished. *)
Theorem sha_ni_digest_wrong : sha256 ShaNi abc <> sha256 Scalar abc.
Proof. by vm_compute. Qed.

(** ** Witnesses *)

Lemma sha256_fips_witness :
  sha256_finalize ArmSha2 (foldl (sha256_update ArmSha2) (new_context SHA256) [[97]; [98; 99]]) = fips_sha256 [97; 98; 99].
Proof. exact (proj1 (sha256_fips ArmSha2 [[97]; [98; 99]] ltac:(discriminate))). Defined.
