(* ===== verification/Sha512.v ===== *)
(** * SHA-512 and its variants, of [crypto/sha512.hpp]

    The 64-bit instance of the family of [Sha2.v]: the compression function and the class
    [Sha512Context] with its four variants.  The digest of a message given in any pieces
    is the one of FIPS 180-4 while the length in bits fits in 64 bits. *)

From S2P Require Import Prelude BlockStream Sha2.

Module detail512.

Definition K : list Z :=
  [0x428a2f98d728ae22; 0x7137449123ef65cd; 0xb5c0fbcfec4d3b2f; 0xe9b5dba58189dbbc;
   0x3956c25bf348b538; 0x59f111f1b605d019; 0x923f82a4af194f9b; 0xab1c5ed5da6d8118;
   0xd807aa98a3030242; 0x12835b0145706fbe; 0x243185be4ee4b28c; 0x550c7dc3d5ffb4e2;
   0x72be5d74f27b896f; 0x80deb1fe3b1696b1; 0x9bdc06a725c71235; 0xc19bf174cf692694;
   0xe49b69c19ef14ad2; 0xefbe4786384f25e3; 0x0fc19dc68b8cd5b5; 0x240ca1cc77ac9c65;
   0x2de92c6f592b0275; 0x4a7484aa6ea6e483; 0x5cb0a9dcbd41fbd4; 0x76f988da831153b5;
   0x983e5152ee66dfab; 0xa831c66d2db43210; 0xb00327c898fb213f; 0xbf597fc7beef0ee4;
   0xc6e00bf33da88fc2; 0xd5a79147930aa725; 0x06ca6351e003826f; 0x142929670a0e6e70;
   0x27b70a8546d22ffc; 0x2e1b21385c26c926; 0x4d2c6dfc5ac42aed; 0x53380d139d95b3df;
   0x650a73548baf63de; 0x766a0abb3c77b2a8; 0x81c2c92e47edaee6; 0x92722c851482353b;
   0xa2bfe8a14cf10364; 0xa81a664bbc423001; 0xc24b8b70d0f89791; 0xc76c51a30654be30;
   0xd192e819d6ef5218; 0xd69906245565a910; 0xf40e35855771202a; 0x106aa07032bbd1b8;
   0x19a4c116b8d2d0c8; 0x1e376c085141ab53; 0x2748774cdf8eeb99; 0x34b0bcb5e19b48a8;
   0x391c0cb3c5c95a63; 0x4ed8aa4ae3418acb; 0x5b9cca4f7763e373; 0x682e6ff3d6b2b8a3;
   0x748f82ee5defb2fc; 0x78a5636f43172f60; 0x84c87814a1f0ab72; 0x8cc702081a6439ec;
   0x90befffa23631e28; 0xa4506cebde82bde9; 0xbef9a3f7b2c67915; 0xc67178f2e372532b;
   0xca273eceea26619c; 0xd186b8c721c0c207; 0xeada7dd6cde0eb1e; 0xf57d4f7fee6ed178;
   0x06f067aa72176fba; 0x0a637dc5a2c898a6; 0x113f9804bef90dae; 0x1b710b35131c471b;
   0x28db77f523047d84; 0x32caab7b40c72493; 0x3c9ebe0a15c9bebc; 0x431d67c49c100d4c;
   0x4cc5d4becb3e42b6; 0x597f299cfc657e2a; 0x5fcb6fab3ad6faec; 0x6c44198c4a475817].

Definition H0_512 : hash8 :=
  H8 0x6a09e667f3bcc908 0xbb67ae8584caa73b 0x3c6ef372fe94f82b 0xa54ff53a5f1d36f1
     0x510e527fade682d1 0x9b05688c2b3e6c1f 0x1f83d9abfb41bd6b 0x5be0cd19137e2179.

Definition H0_384 : hash8 :=
  H8 0xcbbb9d5dc1059ed8 0x629a292a367cd507 0x9159015a3070dd17 0x152fecd8f70e5939
     0x67332667ffc00b31 0x8eb44a8768581511 0xdb0c2e0d64f98fa7 0x47b5481dbefa4fa4.

Definition H0_512_256 : hash8 :=
  H8 0x22312194fc2bf72c 0x9f555fa3c84c64c2 0x2393b86b6f53b151 0x963877195940eabd
     0x96283ee2a88effe3 0xbe5e1e2553863992 0x2b0199fc2c85b8aa 0x0eb72ddc81c52ca2.

Definition H0_512_224 : hash8 :=
  H8 0x8c3d37c819544da2 0x73e1996689dcd4d6 0x1dfab7ae32ff9c82 0x679dd514582f9fcf
     0x0f6d2b697bd44da8 0x77e36f7304c48942 0x3f9d85a86a1d36c8 0x1112e6ad91d692a1.

Definition Sigma0 (x : Z) : Z := rotr 64 x 28 .^ rotr 64 x 34 .^ rotr 64 x 39.
Definition Sigma1 (x : Z) : Z := rotr 64 x 14 .^ rotr 64 x 18 .^ rotr 64 x 41.
Definition sigma0 (x : Z) : Z := rotr 64 x 1 .^ rotr 64 x 8 .^ (x >> 7).
Definition sigma1 (x : Z) : Z := rotr 64 x 19 .^ rotr 64 x 61 .^ (x >> 6).

Definition compress_block : hash8 -> bytes -> hash8 := Sha2.compress_scalar 64 Sigma0 Sigma1 sigma0 sigma1 K.

End detail512.

Import detail512.

(** ** [Sha512Context] *)

Inductive Variant := SHA512 | SHA384 | SHA512_256 | SHA512_224.

Abbreviation Sha512Context := (stream (hash8 * Z)).

Definition initial (v : Variant) : hash8 :=
  match v with
  | SHA512 => H0_512
  | SHA384 => H0_384
  | SHA512_256 => H0_512_256
  | SHA512_224 => H0_512_224
  end.

Definition reset_state (v : Variant) : Sha512Context := reset 128 (initial v).

Definition sha512_update : Sha512Context -> bytes -> Sha512Context := sha_update 128 128 compress_block.

(** The high half of the length is zero. *)
Definition length_field512 (total_bytes buf_len : Z) : bytes :=
  let msg_bytes := u64 (total_bytes + buf_len) in
  let msg_bits_lo := u64 (msg_bytes * 8) in
  be_bytes 8 0 ++ be_bytes 8 msg_bits_lo.

Definition pad512 : Sha512Context -> hash8 := pad_and_compress 128 112 compress_block length_field512.

(** The digest of each variant. *)
Definition digest_of (v : Variant) (h : hash8) : bytes :=
  match v with
  | SHA512 => concat (map (be_bytes 8) (words8 h))
  | SHA384 => concat (map (be_bytes 8) (ztake 6 (words8 h)))
  | SHA512_256 => concat (map (be_bytes 8) (ztake 4 (words8 h)))
  | SHA512_224 =>
      concat (map (be_bytes 8) (ztake 3 (words8 h))) ++
      [u8 (hd h >> 56); u8 (hd h >> 48); u8 (hd h >> 40); u8 (hd h >> 32)]
  end.

Definition sha512_finalize (v : Variant) (c : Sha512Context) : bytes := digest_of v (pad512 c).

Definition sha512_variant (v : Variant) (data : bytes) : bytes :=
  sha512_finalize v (sha512_update (reset_state v) data).

Definition sha512 (data : bytes) : bytes := sha512_variant SHA512 data.

(** The examples of FIPS 180-4 for the message "abc". *)
Definition hex_words8 (ws : list Z) : bytes := concat (map (be_bytes 8) ws).

Example sha512_abc : sha512 (chars "abc") =
  hex_words8 [0xddaf35a193617aba; 0xcc417349ae204131; 0x12e6fa4e89a97ea2; 0x0a9eeee64b55d39a;
              0x2192992a274fc1a8; 0x36ba3c23a3feebbd; 0x454d4423643ce80e; 0x2a9ac94fa54ca49f].
Proof. by vm_compute. Qed.

Example sha384_abc : sha512_variant SHA384 (chars "abc") =
  hex_words8 [0xcb00753f45a35e8b; 0xb5a03d699ac65007; 0x272c32ab0eded163; 0x1a8b605a43ff5bed;
              0x8086072ba1e7cc23; 0x58baeca134c825a7].
Proof. by vm_compute. Qed.

(** ** FIPS 180-4 *)

Definition fips_hash512 (h0 : hash8) (msg : bytes) : hash8 :=
  foldl (Fips.compress Fips.sha512_family) h0 (fips_blocks 128 112 msg (be_bytes 16 (8 * zlen msg))).

(** Section 5.3.6: the initial values of SHA-512/t are the hash of its name, from those of
    SHA-512 with every byte masked. *)
Definition fips_generate (name : bytes) : hash8 :=
  fips_hash512 (Fips.hash_of (map (fun x => x .^ 0xa5a5a5a5a5a5a5a5) (words8 Fips.H_512))) name.

Definition fips_initial (v : Variant) : hash8 :=
  match v with
  | SHA512 => Fips.H_512
  | SHA384 => Fips.H_384
  | SHA512_256 => fips_generate (chars "SHA-512/256")
  | SHA512_224 => fips_generate (chars "SHA-512/224")
  end.

(** The leftmost bits of the hash. *)
Definition fips_length (v : Variant) : Z := match v with SHA512 => 64 | SHA384 => 48 | SHA512_256 => 32 | SHA512_224 => 28 end.

Definition fips_sha512 (v : Variant) (msg : bytes) : bytes :=
  ztake (fips_length v) (concat (map (be_bytes 8) (words8 (fips_hash512 (fips_initial v) msg)))).

Lemma K_fips512 : K = Fips.K Fips.sha512_family.
Proof. vm_compute. reflexivity. Qed.

Lemma compress_block_fips512 state block : compress_block state block = Fips.compress Fips.sha512_family state block.
Proof.
  apply (compress_fips Fips.sha512_family Sigma0 Sigma1 sigma0 sigma1 K (fun _ => eq_refl) (fun _ => eq_refl) (fun _ => eq_refl) (fun _ => eq_refl) K_fips512 eq_refl); cbn; lia.
Qed.

Lemma H0_512_fips : H0_512 = Fips.H_512.
Proof. vm_compute. reflexivity. Qed.

Lemma H0_384_fips : H0_384 = Fips.H_384.
Proof. vm_compute. reflexivity. Qed.

Lemma fips_generate_code name : fips_generate name =
  foldl compress_block (Fips.hash_of (map (fun x => x .^ 0xa5a5a5a5a5a5a5a5) (words8 H0_512)))
    (fips_blocks 128 112 name (be_bytes 16 (8 * zlen name))).
Proof. unfold fips_generate, fips_hash512. rewrite <- H0_512_fips. symmetry. apply foldl_ext. apply compress_block_fips512. Qed.

Lemma initial_fips v : initial v = fips_initial v.
Proof.
  destruct v; unfold initial, fips_initial; [apply H0_512_fips | apply H0_384_fips | |];
    rewrite fips_generate_code; vm_compute; reflexivity.
Qed.

Lemma digest_fips v h : digest_of v h = ztake (fips_length v) (concat (map (be_bytes 8) (words8 h))).
Proof.
  destruct v, h as [a b c d e f g h]; [reflexivity..|]. unfold digest_of, words8.
  change (ztake 3 [_; _; _; _; _; _; _; _]) with [a; b; c]. unfold ztake.
  change (Z.to_nat (fips_length SHA512_224)) with 28%nat.
  cbn [ha hb hc hd he hf hg hh map concat be_bytes app take]. by rewrite !land_255.
Qed.

Lemma length_field_spec512 msg : 8 * zlen msg < 2 ^ 64 ->
  length_field512 (u64 (128 * zlen (fst (chop 128 msg)))) (zlen (snd (chop 128 msg))) = be_bytes 16 (8 * zlen msg).
Proof.
  intros Hl. unfold length_field512. rewrite wrap_add_l, <- (zlen_chop 128 msg) by lia.
  pose proof (zlen_nonneg msg). rewrite !(wrap_small 64) by (unfold in_range; rewrite ?wrap_small; unfold in_range; lia).
  rewrite (Z.mul_comm (zlen msg)). set (b := 8 * zlen msg) in *.
  assert (be_bytes 16 b = be_bytes 8 (b >> 64) ++ be_bytes 8 b) as ->.
  { cbn [be_bytes app]. rewrite !Z.shiftr_shiftr by lia. reflexivity. }
  rewrite Z.shiftr_div_pow2, Z.div_small by lia. reflexivity.
Qed.

(** The digest of a streamed message. *)
Lemma sha512_streamed v msg c : 8 * zlen msg < 2 ^ 64 ->
  streamed 128 (absorb 128 compress_block) (initial v, 0) msg c -> sha512_finalize v c = fips_sha512 v msg.
Proof.
  intros Hl Hc. unfold sha512_finalize, pad512, fips_sha512, fips_hash512. rewrite digest_fips, <- initial_fips.
  rewrite (pad_streamed 128 112 128 compress_block length_field512 ltac:(lia)
    ltac:(intros; unfold length_field512; rewrite zlen_app, !zlen_be_bytes; done) (initial v) msg c Hc).
  rewrite length_field_spec512 by done. do 4 f_equal. apply foldl_ext. apply compress_block_fips512.
Qed.
