(* ===== verification/ChaCha20.v ===== *)
(** * The ChaCha20 stream cipher of [crypto/chacha20.hpp]

    The rounds are written once over a class of words: 32-bit words give
    [block_scalar], vectors of four words give [block4_neon].  A lane of a vector is a
    homomorphism, so the vector code computes four scalar blocks.  The cipher is
    then the exclusive or with one keystream, whichever path produces it and however
    the message is cut into [xor_into] calls. *)

From S2P Require Import Prelude Simd.

(** ** Words *)

Class Word (W : Type) := {
  wzero : W;
  wadd : W -> W -> W;
  wxor : W -> W -> W;
  wrotl : W -> Z -> W;
}.

(** [std::rotl] on 32 bits. *)
Definition rotl (v n : Z) : Z := u32 (v << n) .| (v >> (32 - n)).

#[global] Instance word32 : Word Z := {
  wzero := 0;
  wadd a b := u32 (a + b);
  wxor a b := a .^ b;
  wrotl := rotl;
}.

#[global] Instance word32x4 : Word vec4 := {
  wzero := vdupq_n_u32 0;
  wadd := vaddq_u32;
  wxor := veorq_u32;
  wrotl v n := vorrq_u32 (vshlq_n_u32 v n) (vshrq_n_u32 v (32 - n));
}.

(** ** The rounds *)

Section rounds.
Context {W : Type} `{Word W}.

Definition qr_words (a b c d : W) : W * W * W * W :=
  let a := wadd a b in let d := wrotl (wxor d a) 16 in
  let c := wadd c d in let b := wrotl (wxor b c) 12 in
  let a := wadd a b in let d := wrotl (wxor d a) 8 in
  let c := wadd c d in let b := wrotl (wxor b c) 7 in
  (a, b, c, d).

(** [qr(s[i], s[j], s[k], s[l])]. *)
Definition qr (i j k l : nat) (s : list W) : list W :=
  let '(a, b, c, d) := qr_words (nth i s wzero) (nth j s wzero) (nth k s wzero) (nth l s wzero) in
  <[i := a]> (<[j := b]> (<[k := c]> (<[l := d]> s))).

Definition double_round (s : list W) : list W :=
  let s := qr 0 4 8 12 s in
  let s := qr 1 5 9 13 s in
  let s := qr 2 6 10 14 s in
  let s := qr 3 7 11 15 s in
  let s := qr 0 5 10 15 s in
  let s := qr 1 6 11 12 s in
  let s := qr 2 7 8 13 s in
  qr 3 4 9 14 s.

(** The twenty rounds and the final addition of the initial state. *)
Definition rounds (x : list W) : list W := zip_with wadd (Nat.iter 10 double_round x) x.

End rounds.

(** ** Blocks *)

Definition kChaChaConst : list Z := [0x61707865; 0x3320646e; 0x79622d32; 0x6b206574].

Definition key_words (key : bytes) : list Z := map (fun i => load_le32 key (4 * i)) (seqZ 0 8).

Definition nonce_words (nonce : bytes) : list Z := map (fun i => load_le32 nonce (4 * i)) (seqZ 0 3).

Definition block_scalar (key nonce : bytes) (counter : Z) : bytes :=
  concat (map store_le32 (rounds (kChaChaConst ++ key_words key ++ [counter] ++ nonce_words nonce))).

Definition block4_neon (key nonce : bytes) (counter : Z) : bytes :=
  let s := map vdupq_n_u32 kChaChaConst ++ map vdupq_n_u32 (key_words key) ++
    [V4 counter (u32 (counter + 1)) (u32 (counter + 2)) (u32 (counter + 3))] ++
    map vdupq_n_u32 (nonce_words nonce) in
  let t := rounds s in
  let out lane := concat (map store_le32 (map lane t)) in
  out x0 ++ out x1 ++ out x2 ++ out x3.

(** ** The stream *)

Definition xor_bytes (src ks : bytes) : bytes := zip_with Z.lxor src ks.

(** [for (; done + 64 * n <= len; done += 64 * n, counter += n)], [gen] producing [n]
    blocks: the output, the counter and the input left. *)
Fixpoint block_loop (fuel : nat) (n : Z) (gen : Z -> bytes) (counter : Z) (src : bytes) : bytes * Z * bytes :=
  match fuel with
  | O => ([], counter, src)
  | S fuel =>
      if 64 * n <=? zlen src then
        let '(out, c, rest) := block_loop fuel n gen (u32 (counter + n)) (zdrop (64 * n) src) in
        (xor_bytes (ztake (64 * n) src) (gen counter) ++ out, c, rest)
      else ([], counter, src)
  end.

Definition xor_stream (neon : bool) (key nonce : bytes) (counter : Z) (src : bytes) : bytes :=
  let '(out1, counter, src) :=
    if neon then block_loop (length src) 4 (block4_neon key nonce) counter src else ([], counter, src) in
  let '(out2, counter, src) := block_loop (length src) 1 (block_scalar key nonce) counter src in
  out1 ++ out2 ++
  (if 0 <? zlen src then xor_bytes src (block_scalar key nonce counter) else []).

Definition chacha20_xor (neon : bool) (key nonce : bytes) (counter : Z) (data : bytes) : bytes :=
  xor_stream neon key nonce counter data.

(** ** The class [ChaCha20] *)

Record ChaCha20 := mkChaCha20 {
  key_ : bytes;
  nonce_ : bytes;
  counter_ : Z;
  keystream_ : bytes;
  keystream_pos_ : Z;
}.

Definition new_cipher (key nonce : bytes) (ctr : Z) : ChaCha20 :=
  mkChaCha20 key nonce ctr (replicate 64 0) 64.

Definition seek (c : ChaCha20) (block_counter : Z) : ChaCha20 :=
  mkChaCha20 (key_ c) (nonce_ c) block_counter (keystream_ c) 64.

(** [wipe()]: the key and the buffered keystream become zero. *)
Definition wipe (c : ChaCha20) : ChaCha20 :=
  mkChaCha20 (replicate 32 0) (nonce_ c) (counter_ c) (replicate 64 0) (keystream_pos_ c).

(** The bytes taken from the buffered keystream, and the position reached. *)
Fixpoint drain_keystream (ks : bytes) (pos : Z) (src : bytes) : bytes * Z * bytes :=
  match src with
  | b :: src' =>
      if pos <? 64 then
        let '(out, pos', rest) := drain_keystream ks (pos + 1) src' in
        ((b .^ at_ ks pos) :: out, pos', rest)
      else ([], pos, src)
  | [] => ([], pos, [])
  end.

Definition xor_into (neon : bool) (c : ChaCha20) (src : bytes) : bytes * ChaCha20 :=
  let '(out, pos, rest) := drain_keystream (keystream_ c) (keystream_pos_ c) src in
  if 0 <? zlen rest then
    let out2 := xor_stream neon (key_ c) (nonce_ c) (counter_ c) rest in
    let blocks := (zlen rest + 63) / 64 in
    let counter := u32 (counter_ c + blocks) in
    let partial := zlen rest mod 64 in
    if partial =? 0 then (out ++ out2, mkChaCha20 (key_ c) (nonce_ c) counter (keystream_ c) 64)
    else
      let counter := u32 (counter - 1) in
      (out ++ out2,
       mkChaCha20 (key_ c) (nonce_ c) (u32 (counter + 1)) (block_scalar (key_ c) (nonce_ c) counter) partial)
  else (out, mkChaCha20 (key_ c) (nonce_ c) (counter_ c) (keystream_ c) pos).

Definition keystream_block (c : ChaCha20) (block_counter : Z) : bytes :=
  block_scalar (key_ c) (nonce_ c) block_counter.

(** The test vector of RFC 8439, section 2.3.2. *)
Example block_rfc :
  block_scalar (seqZ 0 32) [0; 0; 0; 9; 0; 0; 0; 0x4a; 0; 0; 0; 0] 1 =
  [0x10; 0xf1; 0xe7; 0xe4; 0xd1; 0x3b; 0x59; 0x15; 0x50; 0x0f; 0xdd; 0x1f; 0xa3; 0x20; 0x71; 0xc4;
   0xc7; 0xd1; 0xf4; 0xc7; 0x33; 0xc0; 0x68; 0x03; 0x04; 0x22; 0xaa; 0x9a; 0xc3; 0xd4; 0x6c; 0x4e;
   0xd2; 0x82; 0x64; 0x46; 0x07; 0x9f; 0xaa; 0x09; 0x14; 0xc2; 0xd7; 0x05; 0xd9; 0x8b; 0x02; 0xa2;
   0xb5; 0x12; 0x9c; 0xd1; 0xde; 0x16; 0x4e; 0xb9; 0xcb; 0xd0; 0x83; 0xe8; 0xa2; 0x50; 0x3c; 0x4e].
Proof. by vm_compute. Qed.

(** ** Lanes *)

(** A map between words that respects their operations. *)
Class WordMorphism {V W : Type} `{Word V, Word W} (f : V -> W) : Prop := {
  morph_zero : f wzero = wzero;
  morph_add a b : f (wadd a b) = wadd (f a) (f b);
  morph_xor a b : f (wxor a b) = wxor (f a) (f b);
  morph_rotl a n : f (wrotl a n) = wrotl (f a) n;
}.

#[global] Instance lane0 : WordMorphism x0.
Proof. by constructor. Qed.
#[global] Instance lane1 : WordMorphism x1.
Proof. by constructor. Qed.
#[global] Instance lane2 : WordMorphism x2.
Proof. by constructor. Qed.
#[global] Instance lane3 : WordMorphism x3.
Proof. by constructor. Qed.

Section morphism.
Context {V W : Type} `{WordMorphism V W f}.

Lemma map_insert i (x : V) s : map f (<[i := x]> s) = <[i := f x]> (map f s).
Proof. apply list_fmap_insert. Qed.

Lemma map_qr i j k l s : map f (qr i j k l s) = qr i j k l (map f s).
Proof.
  unfold qr, qr_words. rewrite !map_insert, <- (morph_zero (f := f)), !map_nth.
  by rewrite ?(morph_rotl (f := f)), ?(morph_xor (f := f)), ?(morph_add (f := f)),
    ?(morph_rotl (f := f)), ?(morph_xor (f := f)), ?(morph_add (f := f)),
    ?(morph_rotl (f := f)), ?(morph_xor (f := f)), ?(morph_add (f := f)),
    ?(morph_rotl (f := f)), ?(morph_xor (f := f)), ?(morph_add (f := f)).
Qed.

Lemma map_double_round s : map f (double_round s) = double_round (map f s).
Proof. unfold double_round. by rewrite !map_qr. Qed.

Lemma map_rounds s : map f (rounds s) = rounds (map f s).
Proof.
  unfold rounds.
  assert (forall n, map f (Nat.iter n double_round s) = Nat.iter n double_round (map f s)) as Hi.
  { induction n as [|n IH]; [done|]. by rewrite !Nat.iter_succ, map_double_round, IH. }
  rewrite <- Hi. generalize (Nat.iter 10 double_round s) as t. clear Hi.
  induction s as [|x s IH]; intros [|y t]; try done. cbn [zip_with map]. by rewrite IH, (morph_add (f := f)).
Qed.

End morphism.

(** ** Block sizes *)

Lemma length_qr {W} `{Word W} i j k l (s : list W) : length (qr i j k l s) = length s.
Proof. unfold qr. destruct (qr_words _ _ _ _) as [[[a b] c] d]. by rewrite !length_insert. Qed.

Lemma length_double_round {W} `{Word W} (s : list W) : length (double_round s) = length s.
Proof. unfold double_round. cbv zeta. do 8 rewrite length_qr. reflexivity. Qed.

Lemma zlen_block key nonce counter : zlen (block_scalar key nonce counter) = 64.
Proof.
  unfold block_scalar, rounds. rewrite (zlen_concat_map store_le32 4) by (intros; apply zlen_le_bytes).
  set (x := kChaChaConst ++ _).
  assert (forall n, length (Nat.iter n double_round x) = 16%nat) as Hl.
  { induction n as [|n IH]; [done|]. rewrite Nat.iter_succ, length_double_round. exact IH. }
  unfold zlen. rewrite length_zip_with, Hl. done.
Qed.

Lemma block_bytes key nonce counter : all_bytes (block_scalar key nonce counter).
Proof. apply Forall_concat, Forall_map, Forall_forall. intros w _. apply le_bytes_range. Qed.

#[local] Opaque rounds.

(** A vector block is four scalar blocks. *)
Lemma block4_neon_blocks key nonce counter :
  block4_neon key nonce counter =
  block_scalar key nonce counter ++ block_scalar key nonce (u32 (counter + 1)) ++
  block_scalar key nonce (u32 (counter + 2)) ++ block_scalar key nonce (u32 (counter + 3)).
Proof.
  assert (forall lane : vec4 -> Z, (forall v, lane (vdupq_n_u32 v) = v) ->
    forall l, map lane (map vdupq_n_u32 l) = l) as Hdup.
  { intros lane Hl l. rewrite map_map, (map_ext _ id) by done. apply map_id. }
  unfold block4_neon, block_scalar. cbv zeta.
  rewrite (map_rounds (f := x0)), (map_rounds (f := x1)), (map_rounds (f := x2)), (map_rounds (f := x3)).
  rewrite !map_app, !Hdup by done. reflexivity.
Qed.

(** ** The keystream *)

#[local] Opaque block_scalar.

Section keystream.
Context (key nonce : bytes).

(** Byte [i] of the keystream that starts at block [c]. *)
Definition keystream_byte (c i : Z) : Z := at_ (block_scalar key nonce (u32 (c + i / 64))) (i mod 64).

(** The exclusive or with the keystream from byte [t] on. *)
Definition encrypt_at (c t : Z) (src : bytes) : bytes :=
  xor_bytes src (map (keystream_byte c) (seqZ t (zlen src))).

Lemma zlen_encrypt_at c t src : zlen (encrypt_at c t src) = zlen src.
Proof.
  unfold encrypt_at, xor_bytes, zlen. rewrite length_zip_with, length_map, length_seqZ. lia.
Qed.

Lemma encrypt_at_cons c t b src :
  encrypt_at c t (b :: src) = (b .^ keystream_byte c t) :: encrypt_at c (t + 1) src.
Proof.
  unfold encrypt_at. rewrite zlen_cons, seqZ_cons by zlia.
  by replace (Z.pred (zlen src + 1)) with (zlen src) by lia.
Qed.

Lemma encrypt_at_app c t a b :
  encrypt_at c t (a ++ b) = encrypt_at c t a ++ encrypt_at c (t + zlen a) b.
Proof.
  revert t. induction a as [|x a IH]; intros t; cbn [app]; [by rewrite Z.add_0_r|].
  rewrite !encrypt_at_cons, IH, zlen_cons. cbn [app]. do 3 f_equal. lia.
Qed.

Lemma keystream_shift c k i : 0 <= i -> keystream_byte (u32 (c + k)) i = keystream_byte c (64 * k + i).
Proof.
  intros Hi. unfold keystream_byte. rewrite (Z.mul_comm 64), Z.div_add_l, (Z.add_comm (k * 64)), Z.mod_add by lia.
  unfold wrap. rewrite Z.add_mod_idemp_l, Z.add_assoc by lia. reflexivity.
Qed.

Lemma encrypt_shift c k t src : 0 <= t -> encrypt_at (u32 (c + k)) t src = encrypt_at c (64 * k + t) src.
Proof.
  intros Ht. revert t Ht. induction src as [|b src IH]; intros t Ht; [done|].
  rewrite !encrypt_at_cons, keystream_shift, IH by lia. do 2 f_equal. lia.
Qed.

(** Within one block. *)
Lemma keystream_in_block c k i : 0 <= i < 64 ->
  keystream_byte c (64 * k + i) = at_ (block_scalar key nonce (u32 (c + k))) i.
Proof.
  intros Hi. unfold keystream_byte. rewrite (Z.mul_comm 64), Z.div_add_l, Z.div_small, Z.add_0_r by lia.
  by rewrite (Z.add_comm (k * 64)), Z.mod_add, Z.mod_small by lia.
Qed.

Lemma encrypt_in_block c k o src : 0 <= o -> o + zlen src <= 64 ->
  xor_bytes src (map (at_ (block_scalar key nonce (u32 (c + k)))) (seqZ o (zlen src))) = encrypt_at c (64 * k + o) src.
Proof.
  revert o. induction src as [|b src IH]; intros o Ho Hl; [done|]. rewrite zlen_cons in *.
  pose proof (zlen_nonneg src). rewrite seqZ_cons by lia. replace (Z.pred (zlen src + 1)) with (zlen src) by lia.
  change (Z.succ o) with (o + 1). rewrite encrypt_at_cons, keystream_in_block by lia.
  rewrite <- Z.add_assoc, <- IH by lia. reflexivity.
Qed.

Lemma encrypt_whole c k src : zlen src <= 64 ->
  xor_bytes src (block_scalar key nonce (u32 (c + k))) = encrypt_at c (64 * k) src.
Proof.
  intros Hl. rewrite <- (Z.add_0_r (64 * k)), <- encrypt_in_block by lia.
  rewrite map_at_seqZ, zdrop_0 by (rewrite ?zlen_block; zlia). unfold xor_bytes, ztake, zlen.
  by rewrite Nat2Z.id, zip_with_take_r.
Qed.

Lemma xor_bytes_app a b ka kb : zlen a = zlen ka -> xor_bytes (a ++ b) (ka ++ kb) = xor_bytes a ka ++ xor_bytes b kb.
Proof. intros Hl. apply zip_with_app. unfold zlen in Hl. lia. Qed.

Lemma encrypt_first c src : zlen src <= 64 -> in_range 32 c ->
  xor_bytes src (block_scalar key nonce c) = encrypt_at c 0 src.
Proof.
  intros Hl Hc. pose proof (encrypt_whole c 0 src Hl) as E.
  rewrite Z.add_0_r, wrap_small in E by done. exact E.
Qed.

(** [gen] produces [n] blocks of the keystream. *)
Definition generates (n : Z) (gen : Z -> bytes) : Prop :=
  forall c src, in_range 32 c -> zlen src = 64 * n -> xor_bytes src (gen c) = encrypt_at c 0 src.

Lemma scalar_generates : generates 1 (block_scalar key nonce).
Proof. intros c src Hc Hl. apply encrypt_first; [lia|done]. Qed.

Lemma neon_generates : generates 4 (block4_neon key nonce).
Proof.
  intros c src Hc Hl. rewrite block4_neon_blocks.
  rewrite <- (ztake_zdrop 64 src). set (a := ztake 64 src). set (r := zdrop 64 src).
  rewrite <- (ztake_zdrop 64 r). set (b := ztake 64 r). set (r' := zdrop 64 r).
  rewrite <- (ztake_zdrop 64 r'). set (d := ztake 64 r'). set (e := zdrop 64 r').
  assert (zlen a = 64) as Ha by (apply zlen_ztake; lia).
  assert (zlen r = 192) as Hr by (unfold r; rewrite zlen_zdrop; lia).
  assert (zlen b = 64) as Hb by (apply zlen_ztake; lia).
  assert (zlen r' = 128) as Hr' by (unfold r'; rewrite zlen_zdrop; lia).
  assert (zlen d = 64) as Hd by (apply zlen_ztake; lia).
  assert (zlen e = 64) as He by (unfold e; rewrite zlen_zdrop; lia).
  rewrite !xor_bytes_app, !encrypt_at_app, encrypt_first by (rewrite ?zlen_block; lia || done).
  rewrite !encrypt_whole, Ha, Hb, Hd by lia. reflexivity.
Qed.

Lemma block_loop_spec fuel n gen c src : 0 < n -> generates n gen -> in_range 32 c -> (length src <= fuel)%nat ->
  exists a rest k, src = a ++ rest /\ zlen a = 64 * k /\ zlen rest < 64 * n /\
  block_loop fuel n gen c src = (encrypt_at c 0 a, u32 (c + k), rest).
Proof.
  intros Hn Hg. revert c src. induction fuel as [|fuel IH]; intros c src Hc Hf.
  - destruct src; [|simpl in Hf; lia]. exists [], [], 0. rewrite Z.add_0_r, wrap_small by done.
    split_and!; [done|done|zlia|done].
  - cbn [block_loop]. destruct (Z.leb_spec (64 * n) (zlen src)) as [Hl|Hl].
    2: { exists [], src, 0. rewrite Z.add_0_r, wrap_small by done. split_and!; [done|done|lia|done]. }
    assert (zlen (ztake (64 * n) src) = 64 * n) as Ht by (rewrite zlen_ztake; lia).
    destruct (IH (u32 (c + n)) (zdrop (64 * n) src)) as (a & rest & k & Hs & Ha & Hr & ->);
      [apply wrap_range; lia|unfold zdrop, zlen in *; rewrite length_drop; lia|].
    exists (ztake (64 * n) src ++ a), rest, (n + k). rewrite <- app_assoc, <- Hs, ztake_zdrop.
    split_and!; [done|zlia|done|].
    rewrite encrypt_at_app, Hg, encrypt_shift, Ht, Z.add_0_r by (done || lia). do 2 f_equal.
    unfold wrap. rewrite Z.add_mod_idemp_l by lia. f_equal. lia.
Qed.

#[local] Opaque encrypt_at block4_neon.

(** Whatever the path, the message is combined with the keystream from its first byte. *)
Lemma xor_stream_spec neon c src : in_range 32 c -> xor_stream neon key nonce c src = encrypt_at c 0 src.
Proof.
  intros Hc. unfold xor_stream.
  assert (exists a rest k, src = a ++ rest /\ zlen a = 64 * k /\
    (if neon then block_loop (length src) 4 (block4_neon key nonce) c src else ([], c, src)) =
    (encrypt_at c 0 a, u32 (c + k), rest)) as (a & rest & k & -> & Ha & ->).
  { destruct neon.
    - destruct (block_loop_spec (length src) 4 _ c src ltac:(lia) neon_generates Hc ltac:(lia))
        as (a & rest & k & ? & ? & _ & ?). eauto 10.
    - exists [], src, 0. by rewrite Z.add_0_r, wrap_small. }
  destruct (block_loop_spec (length rest) 1 _ (u32 (c + k)) rest ltac:(lia) scalar_generates
    (wrap_range 32 _ ltac:(lia)) ltac:(lia)) as (b & rest' & k' & -> & Hb & Hr & ->).
  rewrite !encrypt_at_app, encrypt_shift, !Z.add_0_l, Z.add_0_r, Ha, Hb by lia. f_equal. f_equal.
  destruct (Z.ltb_spec 0 (zlen rest')) as [H|H].
  2: { assert (rest' = []) as -> by (apply zlen_0; zlia). done. }
  replace (wrap 32 (wrap 32 (c + k) + k')) with (u32 (c + (k + k'))).
  2: { unfold wrap. rewrite Z.add_mod_idemp_l by lia. f_equal. lia. }
  rewrite encrypt_whole, Z.mul_add_distr_l by lia. reflexivity.
Qed.

End keystream.

(** ** The cipher as a stream *)

Lemma drain_spec ks pos src : 0 <= pos <= 64 ->
  exists a rest, src = a ++ rest /\ zlen a <= 64 - pos /\ (rest = [] \/ zlen a = 64 - pos) /\
  drain_keystream ks pos src = (zip_with Z.lxor a (map (at_ ks) (seqZ pos (zlen a))), pos + zlen a, rest).
Proof.
  revert pos. induction src as [|b src IH]; intros pos Hp.
  { exists [], []. rewrite Z.add_0_r. split_and!; [done|zlia|by left|done]. }
  cbn [drain_keystream]. destruct (Z.ltb_spec pos 64).
  - destruct (IH (pos + 1) ltac:(lia)) as (a & rest & -> & Ha & Hor & ->).
    exists (b :: a), rest. rewrite zlen_cons, (seqZ_cons pos) by zlia.
    replace (Z.pred (zlen a + 1)) with (zlen a) by lia. change (Z.succ pos) with (pos + 1).
    split_and!; [done|lia|destruct Hor; [by left|right; lia]|]. cbn [map zip_with]. do 2 f_equal. lia.
  - exists [], (b :: src). rewrite Z.add_0_r. split_and!; [done|zlia|right; zlia|done].
Qed.

(** The context after [t] bytes, for a cipher started at block [c0]. *)
Record position (key nonce : bytes) (c0 t : Z) (c : ChaCha20) : Prop := {
  pos_key : key_ c = key;
  pos_nonce : nonce_ c = nonce;
  pos_counter : counter_ c = u32 (c0 + (t + 63) / 64);
  pos_pos : keystream_pos_ c = if t mod 64 =? 0 then 64 else t mod 64;
  pos_buffer : t mod 64 <> 0 -> keystream_ c = block_scalar key nonce (u32 (c0 + t / 64));
}.

Lemma position_new key nonce c0 : in_range 32 c0 -> position key nonce c0 0 (new_cipher key nonce c0).
Proof. intros Hc. constructor; try done. cbn. rewrite Z.add_0_r. by rewrite wrap_small. Qed.

(** Draining the buffered block continues the keystream. *)
Lemma drain_position key nonce c0 t c src : 0 <= t -> position key nonce c0 t c ->
  exists a rest, src = a ++ rest /\ (rest = [] \/ (t + zlen a) mod 64 = 0) /\
  drain_keystream (keystream_ c) (keystream_pos_ c) src =
    (encrypt_at key nonce c0 t a, keystream_pos_ c + zlen a, rest) /\
  (t + zlen a + 63) / 64 = (t + 63) / 64 /\
  keystream_pos_ c + zlen a = (if (t + zlen a) mod 64 =? 0 then 64 else (t + zlen a) mod 64) /\
  ((t + zlen a) mod 64 <> 0 -> t mod 64 <> 0 /\ (t + zlen a) / 64 = t / 64).
Proof.
  intros Ht [Hk Hn Hc Hp Hb].
  pose proof (Z.mod_pos_bound t 64 ltac:(lia)) as Hm. pose proof (Z.div_mod t 64 ltac:(lia)) as Hd.
  set (q := t / 64) in *. set (m := t mod 64) in *. clearbody q m.
  destruct (drain_spec (keystream_ c) (keystream_pos_ c) src) as (a & rest & -> & Ha & Hor & ->).
  { rewrite Hp. destruct (Z.eqb_spec m 0); lia. }
  pose proof (zlen_nonneg a) as Ha0. exists a, rest. split; [done|].
  destruct (Z.eqb_spec m 0) as [Em|Hm0].
  { rewrite Hp in *. assert (a = []) as -> by (apply zlen_0; lia). rewrite zlen_nil, !Z.add_0_r.
    assert (t mod 64 = 0) as -> by (symmetry; apply Z.mod_unique with (q := q); lia).
    split_and!; [right; reflexivity|reflexivity|reflexivity|reflexivity|lia]. }
  specialize (Hb Hm0).
  assert (forall x, 0 <= x -> m + x <= 64 -> (t + x + 63) / 64 = q + 1) as Hceil.
  { intros x Hx1 Hx2. symmetry. apply Z.div_unique with (r := m + x - 1); lia. }
  assert (m + zlen a < 64 -> (t + zlen a) mod 64 = m + zlen a /\ (t + zlen a) / 64 = q) as Hlt.
  { intros H. split; symmetry; [apply Z.mod_unique with (q := q)|apply Z.div_unique with (r := m + zlen a)]; lia. }
  assert (m + zlen a = 64 -> (t + zlen a) mod 64 = 0) as Heq.
  { intros H. symmetry. apply Z.mod_unique with (q := q + 1); lia. }
  rewrite Hp in *. rewrite Hceil by lia. pose proof (Hceil 0 ltac:(lia) ltac:(lia)) as H0. rewrite Z.add_0_r in H0.
  rewrite H0. split_and!.
  - destruct Hor as [|H]; [by left|right; apply Heq; lia].
  - do 2 f_equal. replace t with (64 * q + m) at 1 by lia. rewrite <- encrypt_in_block by lia. by rewrite Hb.
  - reflexivity.
  - destruct (decide (m + zlen a < 64)) as [H|H].
    + destruct (Hlt H) as [-> _]. rewrite (proj2 (Z.eqb_neq _ _)) by lia. reflexivity.
    + rewrite (Heq ltac:(lia)). cbn. lia.
  - intros H. split; [done|]. apply Hlt. destruct (decide (m + zlen a < 64)); [done|].
    rewrite Heq in H by lia. exfalso. apply H. reflexivity.
Qed.

Lemma div_ceil x q m : x = 64 * q + m -> 0 <= m < 64 -> (x + 63) / 64 = if m =? 0 then q else q + 1.
Proof.
  intros Hx Hm. symmetry.
  destruct (Z.eqb_spec m 0); [apply Z.div_unique with (r := 63)|apply Z.div_unique with (r := m - 1)]; lia.
Qed.

Lemma xor_into_spec neon key nonce c0 t c src : 0 <= t -> position key nonce c0 t c ->
  fst (xor_into neon c src) = encrypt_at key nonce c0 t src /\
  position key nonce c0 (t + zlen src) (snd (xor_into neon c src)).
Proof.
  intros Ht Hc. destruct (drain_position key nonce c0 t c src Ht Hc) as (a & rest & -> & Hor & Hd & Hceil & Hpos & Hin).
  destruct Hc as [Hk Hn Hcnt Hp Hb]. unfold xor_into. rewrite Hd, Hk, Hn. rewrite <- Hceil in Hcnt.
  pose proof (zlen_nonneg a). set (t' := t + zlen a) in *.
  destruct (Z.ltb_spec 0 (zlen rest)) as [Hr|Hr].
  2: { assert (rest = []) as -> by (apply zlen_0; zlia). rewrite app_nil_r. fold t'. cbn [fst snd]. split; [reflexivity|].
       constructor; cbn [key_ nonce_ counter_ keystream_ keystream_pos_]; try reflexivity; try assumption.
       intros H'. destruct (Hin H') as [Hm Hq]. rewrite (Hb Hm), Hq. reflexivity. }
  destruct Hor as [->|Hz]; [done|].
  rewrite xor_stream_spec by (rewrite Hcnt; apply wrap_range; lia).
  assert (t' = 64 * (t' / 64)) as Ht' by (pose proof (Z.div_mod t' 64); lia).
  set (k := t' / 64) in *.
  assert ((t' + 63) / 64 = k) as Hk'.
  { symmetry. apply Z.div_unique with (r := 63); lia. }
  rewrite Hk' in Hcnt. rewrite Hcnt, encrypt_shift, Z.add_0_r, <- Ht' by lia.
  pose proof (Z.div_mod (zlen rest) 64 ltac:(lia)) as Hdm. pose proof (Z.mod_pos_bound (zlen rest) 64 ltac:(lia)) as Hm.
  set (m := zlen rest mod 64) in *. set (q := zlen rest / 64) in *.
  assert ((t + zlen (a ++ rest)) mod 64 = m) as Hmod.
  { rewrite zlen_app. symmetry. apply Z.mod_unique with (q := k + q); lia. }
  assert ((t + zlen (a ++ rest)) / 64 = k + q) as Hdiv.
  { rewrite zlen_app. symmetry. apply Z.div_unique with (r := m); lia. }
  rewrite encrypt_at_app. fold t'.
  destruct (Z.eqb_spec m 0) as [Em|Em]; cbn [fst snd]; (split; [reflexivity|]).
  - constructor; cbn [key_ nonce_ counter_ keystream_ keystream_pos_]; rewrite ?Hmod, ?Em; try reflexivity; [|lia].
    rewrite wrap_add_l, <- Z.add_assoc. do 2 f_equal.
    rewrite (div_ceil (zlen rest) q m), (div_ceil (t + zlen (a ++ rest)) (k + q) m), Em by (rewrite ?zlen_app; lia).
    cbn [Z.eqb]. lia.
  - assert (u32 (u32 (u32 (c0 + k) + (zlen rest + 63) / 64) - 1) = u32 (c0 + (k + q))) as E.
    { rewrite wrap_add_l, <- Z.add_opp_r, wrap_add_l, (div_ceil (zlen rest) q m), (proj2 (Z.eqb_neq m 0)) by lia.
      f_equal. lia. }
    rewrite E. constructor; cbn [key_ nonce_ counter_ keystream_ keystream_pos_]; rewrite ?Hmod, ?Hdiv; try reflexivity.
    + rewrite wrap_add_l, (div_ceil (t + zlen (a ++ rest)) (k + q) m), (proj2 (Z.eqb_neq m 0)) by (rewrite ?zlen_app; lia).
      f_equal. lia.
    + rewrite (proj2 (Z.eqb_neq m 0)) by lia. reflexivity.
Qed.

(** Successive [xor_into] calls on one context. *)
Fixpoint xor_pieces (neon : bool) (c : ChaCha20) (pieces : list bytes) : bytes :=
  match pieces with
  | [] => []
  | p :: pieces => let '(out, c) := xor_into neon c p in out ++ xor_pieces neon c pieces
  end.

Lemma xor_pieces_spec neon key nonce c0 pieces : forall t c, 0 <= t -> position key nonce c0 t c ->
  xor_pieces neon c pieces = encrypt_at key nonce c0 t (concat pieces).
Proof.
  induction pieces as [|p pieces IH]; intros t c Ht Hc; [reflexivity|]. cbn [xor_pieces concat].
  destruct (xor_into_spec neon key nonce c0 t c p Ht Hc) as [Ho Hs]. destruct (xor_into neon c p) as [out c'].
  cbn [fst snd] in *. rewrite (IH (t + zlen p)) by (zlia || done). by rewrite encrypt_at_app, Ho.
Qed.

Lemma encrypt_at_involutive key nonce c t src : encrypt_at key nonce c t (encrypt_at key nonce c t src) = src.
Proof.
  revert t. induction src as [|b src IH]; intros t; [reflexivity|].
  by rewrite !encrypt_at_cons, IH, Z.lxor_assoc, Z.lxor_nilpotent, Z.lxor_0_r.
Qed.

Lemma encrypt_at_bytes key nonce c t src : all_bytes src -> all_bytes (encrypt_at key nonce c t src).
Proof.
  intros Hs. revert t. induction Hs as [|b src Hb Hs IH]; intros t; [constructor|].
  rewrite encrypt_at_cons. constructor; [|apply IH]. apply lxor_range; [lia|done|].
  unfold keystream_byte. apply at_range; [lia|]. apply block_bytes.
Qed.

(** However a message is cut into [xor_into] calls, and with or without the
    vector code on either side, the output is the one-shot encryption; that is the
    exclusive or of each byte with the keystream, and a second pass restores the
    message. *)
Theorem chacha20_stream neon neon' key nonce c0 pieces :
  in_range 32 c0 ->
  xor_pieces neon (new_cipher key nonce c0) pieces = xor_stream neon' key nonce c0 (concat pieces) /\
  xor_stream neon' key nonce c0 (concat pieces) =
    zip_with Z.lxor (concat pieces) (map (keystream_byte key nonce c0) (seqZ 0 (zlen (concat pieces)))) /\
  chacha20_xor neon key nonce c0 (chacha20_xor neon' key nonce c0 (concat pieces)) = concat pieces.
Proof.
  intros Hc. unfold chacha20_xor. rewrite !xor_stream_spec, encrypt_at_involutive by done.
  rewrite (xor_pieces_spec _ key nonce c0 pieces 0) by (lia || by apply position_new). split_and!; reflexivity.
Qed.

(** ** Witnesses *)

Lemma chacha20_stream_witness :
  xor_pieces true (new_cipher (seqZ 0 32) (replicate 12 0) 1) [[1; 2]; seqZ 0 70] =
  xor_stream false (seqZ 0 32) (replicate 12 0) 1 ([1; 2] ++ seqZ 0 70).
Proof.
  exact (proj1 (chacha20_stream true false (seqZ 0 32) (replicate 12 0) 1 [[1; 2]; seqZ 0 70]
    (conj (Z.le_0_1) (eq_refl : 1 < 2 ^ 32)))).
Defined.
