(* ===== verification/Hmac.v ===== *)
(** * HMAC, PBKDF2 and HKDF

    [crypto/hmac.hpp], [crypto/pbkdf2.hpp] and [crypto/hkdf.hpp] are templates over a hash.
    The concept [HashContext] is a class, with the law the templates rely on: the digest
    of a message given in pieces is the hash of their concatenation.  The theorems are
    proved against the class, for SHA-256 (on each target) and SHA-512 alike: the
    contexts compute RFC 2104, RFC 2898 and RFC 5869. *)

From S2P Require Import Prelude BlockStream Sha2 Simd Sha256 Sha512.

(** ** [HashContext] *)

Class HashContext (H : Type) := {
  kBlockSize : Z;
  kDigestSize : Z;
  h_reset : H;
  h_update : H -> bytes -> H;
  h_finalize : H -> bytes;
  h_hash : bytes -> bytes;
}.

Arguments kBlockSize H {_}.
Arguments kDigestSize H {_}.
Arguments h_reset H {_}.
Arguments h_hash H {_}.

Class LawfulHash (H : Type) `{HashContext H} : Prop := {
  hash_sizes : 0 < kDigestSize H <= kBlockSize H;
  hash_stream pieces : h_finalize (foldl h_update (h_reset H) pieces) = h_hash H (concat pieces);
  hash_size msg : zlen (h_hash H msg) = kDigestSize H;
  hash_bytes msg : all_bytes (h_hash H msg);
}.
#[global] Hint Mode LawfulHash ! - : typeclass_instances.

Record Sha256Wrapper (t : detail256.target) := Wrap256 { ctx256 : Sha256Context }.
Arguments Wrap256 {t}.
Arguments ctx256 {t}.

#[global] Instance sha256_hash t : HashContext (Sha256Wrapper t) := {
  kBlockSize := 64;
  kDigestSize := 32;
  h_reset := Wrap256 reset_256;
  h_update c d := Wrap256 (sha256_update t (ctx256 c) d);
  h_finalize c := sha256_finalize t (ctx256 c);
  h_hash d := sha256 t d;
}.

Record Sha512Wrapper := Wrap512 { ctx512 : Sha512Context }.

#[global] Instance sha512_hash : HashContext Sha512Wrapper := {
  kBlockSize := 128;
  kDigestSize := 64;
  h_reset := Wrap512 (reset_state SHA512);
  h_update c d := Wrap512 (sha512_update (ctx512 c) d);
  h_finalize c := sha512_finalize SHA512 (ctx512 c);
  h_hash d := sha512 d;
}.

(** Contexts that have streamed the same message have the same digest. *)
Lemma streamed_pieces {S} n (absorb : S -> bytes -> S) st pieces : 0 < n ->
  streamed n absorb st (concat pieces) (foldl (stream_update n absorb) (stream_init n st) pieces) /\
  streamed n absorb st (concat pieces) (stream_update n absorb (stream_init n st) (concat pieces)).
Proof.
  intros Hn. split.
  - apply (streamed_updates n absorb Hn st []). by apply streamed_init.
  - apply (streamed_update n absorb Hn st []). by apply streamed_init.
Qed.

#[global] Instance sha256_lawful t : LawfulHash (Sha256Wrapper t).
Proof.
  constructor; [by vm_compute| | |].
  - intros pieces. cbn.
    assert (forall c, ctx256 (foldl (fun (c : Sha256Wrapper t) d => Wrap256 (sha256_update t (ctx256 c) d)) c pieces) =
      foldl (sha256_update t) (ctx256 c) pieces) as ->.
    { induction pieces as [|p pieces IH]; intros c; [done|]. cbn [foldl]. by rewrite IH. }
    destruct (streamed_pieces 64 (absorb 512 (detail256.compress_block t)) (detail256.H0_256, 0) pieces ltac:(lia)) as [H1 H2].
    pose proof (pad_streamed 64 56 512 (detail256.compress_block t) length_field256 ltac:(lia) ltac:(intros; apply zlen_be_bytes)) as Hp.
    unfold sha256, sha256_finalize.
    apply (f_equal (fun h => concat (map (be_bytes 4) (words8 h)))). exact (eq_trans (Hp _ _ _ H1) (eq_sym (Hp _ _ _ H2))).
  - intros msg. change (zlen (concat (map (be_bytes 4) (words8 (pad256 t (sha256_update t reset_256 msg))))) = 32).
    by rewrite (zlen_concat_map (be_bytes 4) 4) by (intros; apply zlen_be_bytes).
  - intros msg. apply (bytes_concat_map (be_bytes 4)), be_bytes_range.
Qed.

#[global] Instance sha512_lawful : LawfulHash Sha512Wrapper.
Proof.
  assert (forall a b, zlen (length_field512 a b) = 128 - 112) as Hf
    by (intros; unfold length_field512; rewrite zlen_app, !zlen_be_bytes; done).
  constructor; [by vm_compute| | |].
  - intros pieces. cbn.
    assert (forall c, ctx512 (foldl (fun (c : Sha512Wrapper) d => Wrap512 (sha512_update (ctx512 c) d)) c pieces) =
      foldl sha512_update (ctx512 c) pieces) as ->.
    { induction pieces as [|p pieces IH]; intros c; [done|]. cbn [foldl]. by rewrite IH. }
    destruct (streamed_pieces 128 (absorb 128 detail512.compress_block) (detail512.H0_512, 0) pieces ltac:(lia)) as [H1 H2].
    pose proof (pad_streamed 128 112 128 detail512.compress_block length_field512 ltac:(lia) Hf) as Hp.
    unfold sha512, sha512_variant, sha512_finalize.
    apply (f_equal (digest_of SHA512)). exact (eq_trans (Hp _ _ _ H1) (eq_sym (Hp _ _ _ H2))).
  - intros msg. change (zlen (concat (map (be_bytes 8) (words8 (pad512 (sha512_update (reset_state SHA512) msg))))) = 64).
    by rewrite (zlen_concat_map (be_bytes 8) 8) by (intros; apply zlen_be_bytes).
  - intros msg. apply (bytes_concat_map (be_bytes 8)), be_bytes_range.
Qed.

(** ** [HmacContext] *)

Section hmac.
Context {H : Type} `{HashContext H}.

Record HmacContext := mkHmac {
  inner_ : H;
  ipad_ : bytes;
  opad_ : bytes;
}.

(** The key zero-padded to the block size, hashed first if it is longer. *)
Definition kprime (key : bytes) : bytes :=
  store (replicate (Z.to_nat (kBlockSize H)) 0) 0 (if kBlockSize H <? zlen key then h_hash H key else key).

Definition hmac_init (key : bytes) : HmacContext :=
  let kp := kprime key in
  let ipad := map (fun b => b .^ 0x36) kp in
  let opad := map (fun b => b .^ 0x5C) kp in
  mkHmac (h_update (h_reset H) ipad) ipad opad.

Definition hmac_reset (c : HmacContext) : HmacContext :=
  mkHmac (h_update (h_reset H) (ipad_ c)) (ipad_ c) (opad_ c).

Definition hmac_wipe (c : HmacContext) : HmacContext :=
  mkHmac (inner_ c) (replicate (length (ipad_ c)) 0) (replicate (length (opad_ c)) 0).

Definition hmac_update (c : HmacContext) (data : bytes) : HmacContext :=
  mkHmac (h_update (inner_ c) data) (ipad_ c) (opad_ c).

Definition hmac_finalize (c : HmacContext) : bytes :=
  let inner_digest := h_finalize (inner_ c) in
  let outer := h_reset H in
  let outer := h_update outer (opad_ c) in
  let outer := h_update outer inner_digest in
  h_finalize outer.

Definition hmac_compute (c : HmacContext) (msg : bytes) : bytes * HmacContext :=
  let c := hmac_update (hmac_reset c) msg in (hmac_finalize c, c).

Definition hmac (key message : bytes) : bytes := hmac_finalize (hmac_update (hmac_init key) message).

Definition verify_hmac (key message expected : bytes) : bool := ct_diff (hmac key message) expected =? 0.

(** RFC 2104. *)
Definition rfc_hmac (key msg : bytes) : bytes :=
  let k := kprime key in
  h_hash H (map (fun b => b .^ 0x5C) k ++ h_hash H (map (fun b => b .^ 0x36) k ++ msg)).

(** The context of [key] after [msg]. *)
Record keyed (key msg : bytes) (c : HmacContext) : Prop := {
  keyed_inner : exists pieces, inner_ c = foldl h_update (h_reset H) pieces /\ concat pieces = ipad_ c ++ msg;
  keyed_ipad : ipad_ c = map (fun b => b .^ 0x36) (kprime key);
  keyed_opad : opad_ c = map (fun b => b .^ 0x5C) (kprime key);
}.

Lemma keyed_init key : keyed key [] (hmac_init key).
Proof. constructor; [|done|done]. exists [ipad_ (hmac_init key)]. by cbn. Qed.

Lemma keyed_reset key msg c : keyed key msg c -> keyed key [] (hmac_reset c).
Proof. intros [_ Hi Ho]. constructor; [|done|done]. exists [ipad_ c]. by cbn. Qed.

Lemma keyed_update key msg c data : keyed key msg c -> keyed key (msg ++ data) (hmac_update c data).
Proof.
  intros [(ps & Hi & Hc) H1 H2]. constructor; [|done|done]. exists (ps ++ [data]). cbn.
  rewrite foldl_app, concat_app, Hi, Hc. cbn. by rewrite app_nil_r, app_assoc.
Qed.

Lemma keyed_updates key msg c pieces : keyed key msg c -> keyed key (msg ++ concat pieces) (foldl hmac_update c pieces).
Proof.
  revert msg c. induction pieces as [|p pieces IH]; intros msg c Hc; cbn [concat foldl]; [by rewrite app_nil_r|].
  rewrite app_assoc. by apply IH, keyed_update.
Qed.

Lemma keyed_finalize `{!LawfulHash H} key msg c : keyed key msg c -> hmac_finalize c = rfc_hmac key msg.
Proof.
  intros [(ps & Hi & Hc) H1 H2]. unfold hmac_finalize, rfc_hmac. rewrite Hi, hash_stream, Hc, H1, H2.
  set (d := h_hash H _). pose proof (hash_stream [map (fun b => b .^ 92) (kprime key); d]) as E. cbn in E.
  by rewrite E, app_nil_r.
Qed.

Lemma zlen_rfc_hmac `{!LawfulHash H} key msg : zlen (rfc_hmac key msg) = kDigestSize H.
Proof. apply hash_size. Qed.

Lemma rfc_hmac_bytes `{!LawfulHash H} key msg : all_bytes (rfc_hmac key msg).
Proof. apply hash_bytes. Qed.

End hmac.

Arguments HmacContext H : clear implicits.
Arguments kprime H {_}.
Arguments hmac_init H {_}.
Arguments hmac H {_}.
Arguments verify_hmac H {_}.
Arguments rfc_hmac H {_}.

(** For a lawful hash, an HMAC context gives the RFC 2104 code of what it was fed
    since it was keyed or last reset, whatever the pieces and whatever came before the
    reset. *)
Theorem hmac_rfc2104 {H} `{LawfulHash H} key before pieces :
  let c := foldl hmac_update (hmac_init H key) before in
  hmac_finalize c = rfc_hmac H key (concat before) /\
  hmac_finalize (foldl hmac_update (hmac_reset c) pieces) = rfc_hmac H key (concat pieces).
Proof.
  intros c. pose proof (keyed_updates key [] _ before (keyed_init key)) as Hc. split.
  - by apply keyed_finalize.
  - eapply keyed_finalize. by apply (keyed_updates key []), keyed_reset with (msg := [] ++ concat before).
Qed.

(** RFC 4231, test case 2. *)
Example hmac_sha256_rfc4231 :
  hmac (Sha256Wrapper detail256.Scalar) (chars "Jefe") (chars "what do ya want for nothing?") =
  hex_words 4 [0x5bdcc146; 0xbf60754e; 0x6a042426; 0x089575c7; 0x5a003f08; 0x9d273983; 0x9dec58b9; 0x64ec3843].
Proof. by vm_compute. Qed.

(** ** Witnesses *)

Lemma hmac_rfc2104_witness :
  hmac_finalize (foldl hmac_update (hmac_reset (foldl hmac_update (hmac_init Sha512Wrapper [1]) [[2]])) [[3]; [4]]) =
  rfc_hmac Sha512Wrapper [1] [3; 4].
Proof. exact (proj2 (hmac_rfc2104 (H := Sha512Wrapper) [1] [[2]] [[3]; [4]])). Defined.
