(* ===== verification/Kdf.v ===== *)
(** * Key derivation: PBKDF2 and HKDF

    [crypto/pbkdf2.hpp] and [crypto/hkdf.hpp] over the interface of [Hmac.v].  The output
    span is a number of bytes; what is written to it is the result. *)

From S2P Require Import Prelude BlockStream Sha2 Simd Sha256 Sha512 Hmac.

Section kdf.
Context {H : Type} `{HashContext H}.

(** ** PBKDF2 *)

(** [for (j = 1; j < iters; ++j)]: [n] more iterations from the digest [u]. *)
Fixpoint pbkdf2_iterate (n : nat) (c : HmacContext H) (u out : bytes) : bytes * HmacContext H :=
  match n with
  | O => (out, c)
  | S n =>
      let c := hmac_update (hmac_reset c) u in
      let u := hmac_finalize c in
      pbkdf2_iterate n c u (zip_with Z.lxor out u)
  end.

Definition compute_block (c : HmacContext H) (salt : bytes) (counter iters : Z) : bytes * HmacContext H :=
  let c := hmac_update (hmac_reset c) salt in
  let cnt := [u8 (counter >> 24); u8 (counter >> 16); u8 (counter >> 8); u8 counter] in
  let c := hmac_update c cnt in
  let u := hmac_finalize c in
  pbkdf2_iterate (Z.to_nat (iters - 1)) c u u.

Definition kMaxPbkdf2Iterations : Z := 100000000.

(** The full blocks: their bytes, the context and the next counter. *)
Fixpoint pbkdf2_blocks (n : nat) (c : HmacContext H) (salt : bytes) (counter iters : Z) : bytes * HmacContext H * Z :=
  match n with
  | O => ([], c, counter)
  | S n =>
      let '(block, c) := compute_block c salt counter iters in
      let '(out, c, counter) := pbkdf2_blocks n c salt (u32 (counter + 1)) iters in
      (block ++ out, c, counter)
  end.

Definition pbkdf2_hmac (password salt : bytes) (iterations size : Z) : bytes :=
  let iterations := if kMaxPbkdf2Iterations <? iterations then kMaxPbkdf2Iterations else iterations in
  let c := hmac_init H password in
  let full_blocks := size / (kDigestSize H) in
  let remainder := size mod (kDigestSize H) in
  let '(out, c, counter) := pbkdf2_blocks (Z.to_nat full_blocks) c salt 1 iterations in
  if 0 <? remainder then
    let '(block, c) := compute_block c salt counter iterations in out ++ ztake remainder block
  else out.

(** RFC 2898, section 5.2. *)
Fixpoint rfc_chain (n : nat) (p u : bytes) : bytes :=
  match n with
  | O => u
  | S n => zip_with Z.lxor (rfc_chain n p u) (Nat.iter (S n) (rfc_hmac H p) u)
  end.

Definition rfc_F (p s : bytes) (c i : Z) : bytes := rfc_chain (Z.to_nat (c - 1)) p (rfc_hmac H p (s ++ be_bytes 4 i)).

Definition rfc_pbkdf2 (p s : bytes) (c size : Z) : bytes :=
  ztake size (concat (map (rfc_F p s c) (seqZ 1 ((size + (kDigestSize H) - 1) / (kDigestSize H))))).

(** ** HKDF *)

Definition hkdf_extract (salt ikm : bytes) : bytes :=
  if zlen salt =? 0 then hmac H (replicate (Z.to_nat (kDigestSize H)) 0) ikm else hmac H salt ikm.

(** [while (offset < out.size())]; [left] is [out.size() - offset]. *)
Fixpoint expand_loop (fuel : nat) (c : HmacContext H) (t : bytes) (has_prev : bool) (info : bytes) (counter left : Z) : bytes :=
  match fuel with
  | O => []
  | S fuel =>
      if 0 <? left then
        let c := hmac_reset c in
        let c := if has_prev then hmac_update c t else c in
        let c := hmac_update c info in
        let c := hmac_update c [counter] in
        let t := hmac_finalize c in
        let copy := Z.min (kDigestSize H) left in
        ztake copy t ++ expand_loop fuel c t true info (u8 (counter + 1)) (left - copy)
      else []
  end.

(** Each turn writes at least one byte. *)
Definition hkdf_expand (prk info : bytes) (size : Z) : bytes :=
  expand_loop (Z.to_nat size) (hmac_init H prk) (replicate (Z.to_nat (kDigestSize H)) 0) false info 1 size.

Definition hkdf (ikm salt info : bytes) (size : Z) : bytes := hkdf_expand (hkdf_extract salt ikm) info size.

(** RFC 5869. *)
Fixpoint rfc_T (prk info : bytes) (n : nat) : bytes :=
  match n with
  | O => []
  | S m => rfc_hmac H prk (rfc_T prk info m ++ info ++ [Z.of_nat n])
  end.

Definition rfc_hkdf (ikm salt info : bytes) (size : Z) : bytes :=
  let prk := rfc_hmac H (if decide (salt = []) then replicate (Z.to_nat (kDigestSize H)) 0 else salt) ikm in
  ztake size (concat (map (fun i => rfc_T prk info (Z.to_nat i)) (seqZ 1 ((size + (kDigestSize H) - 1) / (kDigestSize H))))).

(** ** Correctness *)

Context `{!LawfulHash H}.

Lemma hmac_eq key msg : hmac H key msg = rfc_hmac H key msg.
Proof. apply keyed_finalize. apply (keyed_update key []), keyed_init. Qed.

(** A pseudo-random function call on a keyed context. *)
Lemma keyed_call key msg c data :
  keyed key msg c -> keyed key data (hmac_update (hmac_reset c) data) /\
  hmac_finalize (hmac_update (hmac_reset c) data) = rfc_hmac H key data.
Proof.
  intros Hc. assert (keyed key data (hmac_update (hmac_reset c) data)) as Hd.
  { by apply (keyed_update key []), keyed_reset with (msg := msg). }
  split; [done|by apply keyed_finalize].
Qed.

Lemma pbkdf2_iterate_spec n k p u msg c : keyed p msg c ->
  let u' := Nat.iter k (rfc_hmac H p) u in
  exists msg' c', pbkdf2_iterate n c u' (rfc_chain k p u) = (rfc_chain (k + n) p u, c') /\ keyed p msg' c'.
Proof.
  revert k msg c. induction n as [|n IH]; intros k msg c Hc u'.
  { exists msg, c. by rewrite Nat.add_0_r. }
  cbn [pbkdf2_iterate]. destruct (keyed_call p msg c u' Hc) as [Hk Hf]. rewrite Hf.
  destruct (IH (S k) _ _ Hk) as (msg' & c' & E & Hc'). exists msg', c'. split; [|done].
  rewrite <- Nat.add_succ_comm. exact E.
Qed.

Lemma counter_bytes i : [u8 (i >> 24); u8 (i >> 16); u8 (i >> 8); u8 i] = be_bytes 4 i.
Proof. cbn [be_bytes]. rewrite !land_255. rewrite Z.shiftr_0_r || idtac. reflexivity. Qed.

Lemma compute_block_spec p msg c salt i iters : keyed p msg c ->
  exists msg' c', compute_block c salt i iters = (rfc_F p salt iters i, c') /\ keyed p msg' c'.
Proof.
  intros Hc. unfold compute_block. rewrite counter_bytes.
  assert (keyed p (salt ++ be_bytes 4 i) (hmac_update (hmac_update (hmac_reset c) salt) (be_bytes 4 i))) as Hk.
  { by apply keyed_update, (keyed_call p msg c salt). }
  rewrite (keyed_finalize p _ _ Hk).
  destruct (pbkdf2_iterate_spec (Z.to_nat (iters - 1)) 0 p (rfc_hmac H p (salt ++ be_bytes 4 i)) _ _ Hk) as (m & c' & E & Hc').
  eauto.
Qed.

Lemma pbkdf2_blocks_spec n p msg c salt i iters : keyed p msg c -> 0 <= i -> i + Z.of_nat n < 2 ^ 32 ->
  exists msg' c', pbkdf2_blocks n c salt i iters =
    (concat (map (rfc_F p salt iters) (seqZ i (Z.of_nat n))), c', i + Z.of_nat n) /\ keyed p msg' c'.
Proof.
  revert msg c i. induction n as [|n IH]; intros msg c i Hc Hi Hn.
  { exists msg, c. by rewrite Z.add_0_r. }
  cbn [pbkdf2_blocks]. destruct (compute_block_spec p msg c salt i iters Hc) as (m & c1 & -> & Hc1).
  rewrite wrap_small by (unfold in_range; lia).
  destruct (IH m c1 (i + 1) Hc1 ltac:(lia) ltac:(lia)) as (m2 & c2 & -> & Hc2). exists m2, c2. split; [|done].
  rewrite (seqZ_cons i) by lia. replace (Z.pred (Z.of_nat (S n))) with (Z.of_nat n) by lia. cbn [map concat].
  change (Z.succ i) with (i + 1). replace (i + Z.of_nat (S n)) with (i + 1 + Z.of_nat n) by lia. reflexivity.
Qed.

Lemma zlen_rfc_F p s c i : zlen (rfc_F p s c i) = (kDigestSize H).
Proof.
  unfold rfc_F. set (u := rfc_hmac H p _). assert (forall n, length (Nat.iter n (rfc_hmac H p) u) = Z.to_nat (kDigestSize H)) as Hu.
  { intros n. assert (zlen (Nat.iter n (rfc_hmac H p) u) = (kDigestSize H)); [|unfold zlen in *; lia].
    destruct n; [apply zlen_rfc_hmac|]. rewrite Nat.iter_succ. apply zlen_rfc_hmac. }
  assert (forall n, length (rfc_chain n p u) = Z.to_nat (kDigestSize H)) as Hc.
  { induction n as [|n IH]; [apply (Hu 0%nat)|]. cbn [rfc_chain]. rewrite length_zip_with, IH, Hu. lia. }
  unfold zlen. rewrite Hc. pose proof (hash_sizes (H := H)). lia.
Qed.

(** Equal pieces and the front of one more make a prefix of the stream of pieces. *)
Lemma ztake_pieces (f : Z -> bytes) (d q r i : Z) : 0 < d -> 0 <= q -> 0 <= r < d -> (forall i, zlen (f i) = d) ->
  ztake (d * q + r) (concat (map f (seqZ i (if r =? 0 then q else q + 1)))) =
  concat (map f (seqZ i q)) ++ (if r =? 0 then [] else ztake r (f (i + q))).
Proof.
  intros Hd Hq Hr Hf. assert (zlen (concat (map f (seqZ i q))) = d * q) as Hl.
  { rewrite (zlen_concat_map f d) by done. unfold zlen. rewrite length_seqZ. lia. }
  destruct (Z.eqb_spec r 0) as [->|Hr0].
  - rewrite Z.add_0_r, app_nil_r. apply ztake_all. lia.
  - rewrite seqZ_app, map_app, concat_app by lia. rewrite (seqZ_cons _ 1), (seqZ_nil _ (Z.pred 1)) by lia. cbn [map concat].
    rewrite app_nil_r. unfold ztake at 1. rewrite take_app_ge by (unfold zlen in Hl; lia). f_equal.
    unfold ztake. f_equal. unfold zlen in Hl. lia.
Qed.

Lemma ceil_div size d : 0 < d -> 0 <= size ->
  (size + d - 1) / d = if size mod d =? 0 then size / d else size / d + 1.
Proof.
  intros Hd Hs. pose proof (Z.div_mod size d ltac:(lia)). pose proof (Z.mod_pos_bound size d Hd). symmetry.
  destruct (Z.eqb_spec (size mod d) 0);
    [apply Z.div_unique with (r := d - 1)|apply Z.div_unique with (r := size mod d - 1)]; lia.
Qed.

Lemma pbkdf2_spec p s iters size : 0 <= size -> size / (kDigestSize H) + 1 < 2 ^ 32 ->
  pbkdf2_hmac p s iters size = rfc_pbkdf2 p s (Z.min iters kMaxPbkdf2Iterations) size.
Proof.
  intros Hs Hn. pose proof (hash_sizes (H := H)) as [Hd _]. unfold pbkdf2_hmac, rfc_pbkdf2.
  assert ((if kMaxPbkdf2Iterations <? iters then kMaxPbkdf2Iterations else iters) = Z.min iters kMaxPbkdf2Iterations) as ->
    by (destruct (Z.ltb_spec kMaxPbkdf2Iterations iters); lia).
  set (n := Z.min _ _). clearbody n.
  assert (kDigestSize H <> 0) as Hd0 by lia. pose proof (Z.div_mod size _ Hd0) as Hdm.
  pose proof (Z.mod_pos_bound size (kDigestSize H) Hd) as Hm. rewrite ceil_div by done.
  set (q := size / (kDigestSize H)) in *. set (r := size mod (kDigestSize H)) in *.
  assert (0 <= q) as Hq by (apply Z.div_pos; lia). clearbody q r.
  rewrite Hdm at 1. rewrite ztake_pieces by (done || apply zlen_rfc_F).
  destruct (pbkdf2_blocks_spec (Z.to_nat q) p [] (hmac_init H p) s 1 n (keyed_init p) ltac:(lia) ltac:(lia)) as (m & c & E & Hc).
  rewrite E. rewrite Z2Nat.id by done.
  destruct (Z.ltb_spec 0 r) as [Hr|Hr].
  - rewrite (proj2 (Z.eqb_neq r 0)) by lia.
    destruct (compute_block_spec p m c s (1 + q) n Hc) as (m' & c' & -> & _). reflexivity.
  - assert (r = 0) as -> by lia. by rewrite app_nil_r.
Qed.

Lemma rfc_F_bytes p s c i : all_bytes (rfc_F p s c i).
Proof.
  unfold rfc_F. induction (Z.to_nat (c - 1)) as [|n IH]; cbn [rfc_chain]; [apply rfc_hmac_bytes|].
  apply bytes_zip_xor; [done|]. rewrite Nat.iter_succ. apply rfc_hmac_bytes.
Qed.

(** The derived key has the length asked for and is made of bytes. *)
Lemma pbkdf2_key p s iters size : 0 <= size -> size / (kDigestSize H) + 1 < 2 ^ 32 ->
  zlen (pbkdf2_hmac p s iters size) = size /\ all_bytes (pbkdf2_hmac p s iters size).
Proof.
  intros Hs Hn. rewrite pbkdf2_spec by done. unfold rfc_pbkdf2. split.
  - pose proof (hash_sizes (H := H)) as [Hd _]. apply zlen_ztake. split; [done|].
    rewrite (zlen_concat_map _ (kDigestSize H)) by apply zlen_rfc_F.
    unfold zlen. rewrite length_seqZ.
    pose proof (Z.div_mod (size + kDigestSize H - 1) (kDigestSize H)).
    pose proof (Z.mod_pos_bound (size + kDigestSize H - 1) (kDigestSize H)).
    assert (0 <= (size + kDigestSize H - 1) / kDigestSize H) by (apply Z.div_pos; lia). nia.
  - apply Forall_ztake, bytes_concat_map. apply rfc_F_bytes.
Qed.

Lemma zlen_rfc_T prk info n : (0 < n)%nat -> zlen (rfc_T prk info n) = kDigestSize H.
Proof. intros Hn. destruct n; [lia|]. apply zlen_rfc_hmac. Qed.

(** The previous block at turn [k], counted from zero. *)
Definition previous (prk info t : bytes) (has_prev : bool) (k : nat) : Prop :=
  (k = 0%nat /\ has_prev = false) \/ (has_prev = true /\ t = rfc_T prk info k).

Lemma expand_turn prk info msg c t has_prev k : keyed prk msg c -> previous prk info t has_prev k ->
  let c := hmac_reset c in
  let c := if has_prev then hmac_update c t else c in
  let c := hmac_update (hmac_update c info) [Z.of_nat (S k)] in
  (exists msg', keyed prk msg' c) /\ hmac_finalize c = rfc_T prk info (S k).
Proof.
  intros Hc Hp. cbv zeta. set (c' := hmac_update _ [_]).
  assert (keyed prk (rfc_T prk info k ++ info ++ [Z.of_nat (S k)]) c') as Hc'.
  { rewrite app_assoc. apply keyed_update, keyed_update.
    destruct Hp as [[-> ->]|[-> ->]]; [|apply (keyed_update prk [])]; apply (keyed_reset _ _ _ Hc). }
  split; [eauto|]. apply (keyed_finalize _ _ _ Hc').
Qed.

Lemma expand_loop_spec fuel prk info msg c t has_prev k left :
  keyed prk msg c -> previous prk info t has_prev k -> 0 <= left -> left <= Z.of_nat fuel ->
  Z.of_nat k * kDigestSize H + left <= 255 * kDigestSize H ->
  expand_loop fuel c t has_prev info (Z.of_nat (S k)) left =
  ztake left (concat (map (fun i => rfc_T prk info (Z.to_nat i))
    (seqZ (Z.of_nat (S k)) ((left + kDigestSize H - 1) / kDigestSize H)))).
Proof.
  pose proof (hash_sizes (H := H)) as [Hd _]. revert msg c t has_prev k left.
  induction fuel as [|fuel IH]; intros msg c t has_prev k left Hc Ht Hl Hf Hk.
  { assert (left = 0) as -> by lia. reflexivity. }
  cbn [expand_loop]. destruct (Z.ltb_spec 0 left) as [Hp|Hp].
  2: { assert (left = 0) as -> by lia. reflexivity. }
  destruct (expand_turn prk info msg c t has_prev k Hc Ht) as [[msg' Hc'] ->].
  set (c' := hmac_update _ [_]) in *. clearbody c'. set (d := kDigestSize H) in *.
  assert (zlen (rfc_T prk info (S k)) = d) as Hlen by (apply zlen_rfc_T; lia).
  assert (0 < (left + d - 1) / d) as Hpos by (apply Z.div_str_pos; lia).
  rewrite (seqZ_cons (Z.of_nat (S k))) by lia. cbn [map concat]. rewrite Nat2Z.id.
  destruct (Z.min_spec d left) as [[Hlt ->]|[Hge ->]].
  - rewrite ztake_all by lia. rewrite wrap_small by (unfold in_range; nia).
    replace (Z.of_nat (S k) + 1) with (Z.of_nat (S (S k))) by lia.
    rewrite (IH msg') by (done || (right; done) || lia).
    change (Z.succ (Z.of_nat (S k))) with (Z.of_nat (S k) + 1).
    replace (Z.of_nat (S k) + 1) with (Z.of_nat (S (S k))) by lia. fold d.
    replace (Z.pred ((left + d - 1) / d)) with ((left - d + d - 1) / d).
    2: { replace (left + d - 1) with (left - d + d - 1 + 1 * d) by lia. rewrite Z.div_add by lia. lia. }
    set (rest := concat _). unfold ztake. rewrite take_app_ge by (unfold zlen in Hlen; lia). f_equal. f_equal.
    unfold zlen in Hlen. lia.
  - rewrite Z.sub_diag. rewrite ztake_app_le by lia. destruct fuel; apply app_nil_r.
Qed.

Lemma hkdf_spec ikm salt info size : 0 <= size <= 255 * kDigestSize H -> hkdf ikm salt info size = rfc_hkdf ikm salt info size.
Proof.
  intros Hs. unfold hkdf, hkdf_expand, rfc_hkdf.
  assert (hkdf_extract salt ikm = rfc_hmac H (if decide (salt = []) then replicate (Z.to_nat (kDigestSize H)) 0 else salt) ikm) as ->.
  { unfold hkdf_extract. destruct salt as [|z salt]; [apply hmac_eq|]. rewrite (proj2 (Z.eqb_neq _ _)) by zlia. apply hmac_eq. }
  set (prk := rfc_hmac H _ _).
  apply (expand_loop_spec (Z.to_nat size) prk info [] _ _ false 0 size (keyed_init prk)); [by left|lia..].
Qed.

End kdf.

(** The derivations take the hash as an argument. *)
Arguments compute_block {H _}.
Arguments pbkdf2_hmac H {_}.
Arguments rfc_pbkdf2 H {_}.
Arguments hkdf_extract H {_}.
Arguments hkdf_expand H {_}.
Arguments hkdf H {_}.
Arguments rfc_hkdf H {_}.

(** For a lawful hash, [pbkdf2_hmac] derives the RFC 2898 key for the iteration count
    capped at its limit, and [hkdf] derives the RFC 5869 key for up to 255 digests. *)
Theorem kdf_rfc {H} `{LawfulHash H} p s iters size ikm salt info len :
  0 <= size -> size / kDigestSize H + 1 < 2 ^ 32 -> 0 <= len <= 255 * kDigestSize H ->
  pbkdf2_hmac H p s iters size = rfc_pbkdf2 H p s (Z.min iters kMaxPbkdf2Iterations) size /\
  hkdf H ikm salt info len = rfc_hkdf H ikm salt info len.
Proof. intros. split; [by apply pbkdf2_spec|by apply hkdf_spec]. Qed.

(** ** Witnesses *)

Lemma kdf_rfc_witness :
  pbkdf2_hmac (Sha256Wrapper detail256.Scalar) [1] [2] 2 40 = rfc_pbkdf2 (Sha256Wrapper detail256.Scalar) [1] [2] 2 40 /\
  hkdf Sha512Wrapper [1] [] [3] 10 = rfc_hkdf Sha512Wrapper [1] [] [3] 10.
Proof.
  split.
  - refine (proj1 (kdf_rfc (H := Sha256Wrapper detail256.Scalar) [1] [2] 2 40 [] [] [] 0 _ _ _)); by vm_compute.
  - refine (proj2 (kdf_rfc (H := Sha512Wrapper) [] [] 1 0 [1] [] [3] 10 _ _ _)); by vm_compute.
Defined.
