(* ===== verification/PasswordHash.v ===== *)
(** * Password hashing: [password_hash] and [verify_password] of [crypto/secretbox.hpp]

    The record [pbkdf2_sha256$<iterations>$<salt>$<hash>], written and checked over
    PBKDF2 of [Kdf], base64url of [Base64] and the decimal numbers of [Text].  The random
    salt is an argument: what [random_bytes<16>()] returned. *)

From S2P Require Import Prelude Text Base64 BlockStream Sha256 Hmac Kdf.

Abbreviation kPasswordHashIterations := (600000)%Z (only parsing).

Abbreviation DOLLAR := 0x24.

Definition phc_prefix : bytes := chars "pbkdf2_sha256".

Section password.

(** How the build compiles base64 and SHA-256. *)
Context (neon : bool) (t : detail256.target).

Definition pbkdf2_hmac_sha256 : bytes -> bytes -> Z -> Z -> bytes := pbkdf2_hmac (Sha256Wrapper t).

Definition password_hash (salt_r : result bytes) (password : bytes) (iterations : Z) : result bytes :=
  match salt_r with
  | Err e => Err e
  | Ok salt =>
      let hash := pbkdf2_hmac_sha256 password salt iterations 32 in
      Ok (phc_prefix ++ [DOLLAR] ++ to_string iterations ++ [DOLLAR] ++
          base64url_encode neon salt false ++ [DOLLAR] ++ base64url_encode neon hash false)
  end.

Definition verify_password (password phc : bytes) : bool :=
  match split_on DOLLAR phc with
  | [f0; f1; f2; f3] =>
      if negb (bool_decide (f0 = phc_prefix)) then false else
      match from_chars UINT32_MAX f1 with
      | None => false
      | Some iters =>
          if iters =? 0 then false else
          match base64url_decode f2, base64url_decode f3 with
          | Ok salt, Ok hash =>
              if negb (zlen hash =? 32) then false
              else ct_diff (pbkdf2_hmac_sha256 password salt iters 32) hash =? 0
          | _, _ => false
          end
      end
  | _ => false
  end.

End password.

(** ** The fields of a record *)

Lemma prefix_no_dollar : DOLLAR ∉ phc_prefix.
Proof. rewrite list_elem_of_In. vm_compute. intuition discriminate. Qed.

Lemma number_no_dollar n : DOLLAR ∉ to_string n.
Proof. eapply not_elem_of_Forall; [apply print_digits_are_digits|]. unfold is_digit. lia. Qed.

Lemma base64url_no_dollar neon data : all_bytes data -> DOLLAR ∉ base64url_encode neon data false.
Proof.
  intros Hd. eapply not_elem_of_Forall; [by apply base64url_chars|].
  rewrite list_elem_of_In. vm_compute. intuition discriminate.
Qed.

Lemma split_record neon salt hash iters : all_bytes salt -> all_bytes hash ->
  split_on DOLLAR (phc_prefix ++ [DOLLAR] ++ to_string iters ++ [DOLLAR] ++
                   base64url_encode neon salt false ++ [DOLLAR] ++ base64url_encode neon hash false) =
  [phc_prefix; to_string iters; base64url_encode neon salt false; base64url_encode neon hash false].
Proof.
  intros Hs Hh. cbn [app].
  rewrite split_on_app by apply prefix_no_dollar. rewrite split_on_app by apply number_no_dollar.
  rewrite split_on_app by by apply base64url_no_dollar. by rewrite split_on_none by by apply base64url_no_dollar.
Qed.

#[local] Opaque to_string phc_prefix pbkdf2_hmac.

Lemma verify_record neon t salt key p iters : all_bytes salt -> all_bytes key -> zlen key = 32 -> 0 <= iters <= UINT32_MAX ->
  verify_password t p (phc_prefix ++ [DOLLAR] ++ to_string iters ++ [DOLLAR] ++
                       base64url_encode neon salt false ++ [DOLLAR] ++ base64url_encode neon key false) =
  negb (iters =? 0) && bool_decide (pbkdf2_hmac_sha256 t p salt iters 32 = key).
Proof.
  intros Hs Hb Hk Hi. unfold verify_password. rewrite split_record by done.
  rewrite bool_decide_eq_true_2 by done. cbn [negb].
  rewrite from_chars_to_string by (unfold UINT32_MAX in *; lia).
  destruct (iters =? 0); [done|]. rewrite !base64url_decode_encode by done. rewrite Hk, Z.eqb_refl. cbn [negb andb].
  apply ct_diff_eq. destruct (pbkdf2_key (H := Sha256Wrapper t) p salt iters 32) as [Hl _]; [done..|].
  unfold zlen, pbkdf2_hmac_sha256 in *. lia.
Qed.

(** A record written by [password_hash] is accepted by [verify_password] for
    exactly the passwords that derive the same key, whatever builds of base64 wrote it:
    for the password itself always.  A record of 0 iterations is never accepted. *)
Theorem password_roundtrip neon t salt password iters :
  all_bytes salt -> 0 <= iters <= UINT32_MAX ->
  exists phc, password_hash neon t (Ok salt) password iters = Ok phc /\
    (forall password', verify_password t password' phc =
      negb (iters =? 0) && bool_decide (pbkdf2_hmac_sha256 t password' salt iters 32 = pbkdf2_hmac_sha256 t password salt iters 32)) /\
    (iters <> 0 -> verify_password t password phc = true).
Proof.
  intros Hs Hi. destruct (pbkdf2_key (H := Sha256Wrapper t) password salt iters 32) as [Hl Hb]; [done..|].
  eexists. split; [reflexivity|]. split; [intros p'; by apply verify_record|].
  intros Hn. rewrite verify_record by done. rewrite bool_decide_eq_true_2 by done. by apply Z.eqb_neq in Hn as ->.
Qed.

(** ** Witnesses *)

Lemma password_roundtrip_witness :
  exists phc, password_hash true detail256.Scalar (Ok (seqZ 1 16)) (chars "secret") 2 = Ok phc /\
    verify_password detail256.Scalar (chars "secret") phc = true.
Proof.
  assert (all_bytes (seqZ 1 16)) as Hs by (vm_compute; repeat constructor; discriminate).
  destruct (password_roundtrip true detail256.Scalar (seqZ 1 16) (chars "secret") 2 Hs) as (phc & E & _ & H).
  { by vm_compute. }
  exists phc. split; [exact E|]. apply H. discriminate.
Defined.
