(* ===== verification/Jwt.v ===== *)
(** * JSON web tokens: [crypto/jwt.hpp] and [security/simd_jwt.hpp]

    Signing and verification with HMAC-SHA-256, and the parser of the middlewares with its
    vector scans, its own base64url decoder and its search for claims.  The payload is the
    list of its bytes. *)

From S2P Require Import Prelude Text Bits Base64 BlockStream Sha256 Hmac.

Abbreviation DOT := 0x2E.
Abbreviation QUOTE := 0x22.
Abbreviation COLON := 0x3A.
Abbreviation INT64_MAX := (2 ^ 63 - 1).
Abbreviation INT64_MIN := (- 2 ^ 63).

(** A JSON string without escapes. *)
Abbreviation quoted s := (QUOTE :: s ++ [QUOTE]).

(** ** [crypto/jwt.hpp] *)

(** [{"alg":"HS256","typ":"JWT"}] *)
Abbreviation kHeader :=
  ([0x7B] ++ quoted (chars "alg") ++ [COLON] ++ quoted (chars "HS256") ++ [0x2C] ++
   quoted (chars "typ") ++ [COLON] ++ quoted (chars "JWT") ++ [0x7D]).

Section hs256.

(** How the build compiles base64 and SHA-256. *)
Context (neon : bool) (t : detail256.target).

Definition encode_jwt_hs256 (payload_json key : bytes) : bytes :=
  let signing_input := base64url_encode neon kHeader false ++ [DOT] ++ base64url_encode neon payload_json false in
  let mac := hmac (Sha256Wrapper t) key signing_input in
  signing_input ++ [DOT] ++ base64url_encode neon mac false.

Definition verify_jwt_hs256 (token key : bytes) : result bytes :=
  match find token [DOT] 0 with
  | None => Err bad_message
  | Some d1 =>
  match find token [DOT] (d1 + 1) with
  | None => Err bad_message
  | Some d2 =>
  match find token [DOT] (d2 + 1) with
  | Some _ => Err bad_message
  | None =>
      let header_b64 := substr token 0 d1 in
      let payload_b64 := substr token (d1 + 1) (d2 - d1 - 1) in
      let sig_b64 := zdrop (d2 + 1) token in
      let signing_input := substr token 0 d2 in
      match base64url_decode header_b64 with
      | Err _ => Err bad_message
      | Ok header =>
          if bool_decide (find header (quoted (chars "HS256")) 0 = None) then Err bad_message else
          if bool_decide (find header (quoted (chars "alg")) 0 = None) then Err bad_message else
          match base64url_decode sig_b64 with
          | Err _ => Err bad_message
          | Ok sig =>
              if negb (zlen sig =? 32) then Err bad_message else
              let mac := hmac (Sha256Wrapper t) key signing_input in
              if negb (ct_diff mac sig =? 0) then Err bad_message else
              base64url_decode payload_b64
          end
      end
  end end end.

End hs256.

(** ** [security/simd_jwt.hpp] *)

(** What the parser is compiled for. *)
Inductive target := Avx2 | Sse42 | Neon | Scalar.

(** [_mm256_movemask_epi8(_mm256_cmpeq_epi8(chunk, dot_vec))] *)
Definition dot_mask (chunk : bytes) : Z := bits_val (map (fun c => c =? DOT) chunk).

(** The loop over single bytes, on those from index [i] on. *)
Fixpoint dot_scalar (data : bytes) (i : Z) : option Z :=
  match data with
  | [] => None
  | c :: data => if c =? DOT then Some i else dot_scalar data (i + 1)
  end.

Definition chunk_size (tgt : target) : Z := match tgt with Avx2 => 32 | _ => 16 end.

(** One turn of a vector loop: the position of the first dot of the chunk. *)
Definition dot_chunk (tgt : target) (chunk : bytes) (i : Z) : option Z :=
  match tgt with
  | Neon => if existsb (fun c => c =? DOT) chunk then dot_scalar chunk i else None
  | _ => let mask := dot_mask chunk in if mask =? 0 then None else Some (i + ctz 32 mask)
  end.

Fixpoint dot_from (fuel : nat) (tgt : target) (data : bytes) (i : Z) : Z :=
  let rest := default (zlen data) (dot_scalar (zdrop i data) i) in
  match tgt, fuel with
  | Scalar, _ | _, O => rest
  | _, S fuel =>
      if i + chunk_size tgt <=? zlen data then
        match dot_chunk tgt (substr data i (chunk_size tgt)) i with
        | Some p => p
        | None => dot_from fuel tgt data (i + chunk_size tgt)
        end
      else rest
  end.

Definition find_dots (tgt : target) (token : bytes) : option (Z * Z) :=
  let len := zlen token in
  let first := dot_from (length token) tgt token 0 in
  let second := dot_from (length token) tgt token (first + 1) in
  if (len <=? first) || (len <=? second) || (second <=? first) then None else Some (first, second).

Definition is_base64url (s : bytes) : bool :=
  forallb (fun c => ((0x41 <=? c) && (c <=? 0x5A)) || ((0x61 <=? c) && (c <=? 0x7A)) ||
                    ((0x30 <=? c) && (c <=? 0x39)) || (c =? 0x2D) || (c =? 0x5F)) s.

Abbreviation kMaxTokenLen := 8192.

Record JwtView := mkView { header : bytes; payload : bytes; signature : bytes }.

Definition parse (tgt : target) (token : bytes) : option JwtView :=
  if (zlen token =? 0) || (kMaxTokenLen <? zlen token) then None else
  match find_dots tgt token with
  | None => None
  | Some (first, second) =>
      let header := substr token 0 first in
      let payload := substr token (first + 1) (second - first - 1) in
      let signature := zdrop (second + 1) token in
      if (zlen header =? 0) || (zlen payload =? 0) then None else
      if negb (is_base64url header) then None else
      if negb (is_base64url payload) then None else
      Some (mkView header payload signature)
  end.

(** *** Claims *)

(** The literal table: -1 outside the alphabet. *)
Definition kDecTable : list Z :=
  replicate 32 (-1) ++
  [-1;-1;-1;-1;-1;-1;-1;-1;-1;-1;-1;-1;-1;62;-1;-1;
   52;53;54;55;56;57;58;59;60;61;-1;-1;-1;-1;-1;-1;
   -1; 0; 1; 2; 3; 4; 5; 6; 7; 8; 9;10;11;12;13;14;
   15;16;17;18;19;20;21;22;23;24;25;-1;-1;-1;-1;63;
   -1;26;27;28;29;30;31;32;33;34;35;36;37;38;39;40;
   41;42;43;44;45;46;47;48;49;50;51;-1;-1;-1;-1;-1] ++
  replicate 128 (-1).

(** The loop over the characters: [acc] and [bits], and the bytes written so far. [None]
    is a return of 0. *)
Fixpoint decode_bits (b64 : bytes) (out_len acc bits : Z) (out : bytes) : option bytes :=
  match b64 with
  | [] => Some out
  | c :: b64 =>
      let v := at_ kDecTable c in
      if v <? 0 then None else
      let acc := u32 (acc << 6) .| v in
      let bits := bits + 6 in
      if 8 <=? bits then
        if out_len <=? zlen out then None
        else decode_bits b64 out_len acc (bits - 8) (out ++ [(acc >> (bits - 8)) .& 0xFF])
      else decode_bits b64 out_len acc bits out
  end.

(** The bytes of the buffer up to the returned count. *)
Definition claim_decode (b64 : bytes) (out_len : Z) : bytes := default [] (decode_bits b64 out_len 0 0 []).

(** The search both kinds of claims make: [value] is what the code does at the character
    after the colon, [None] where it goes on. *)
Fixpoint json_find {A} (value : Z -> option (option A)) (fuel : nat) (json key : bytes) (pos : Z) : option A :=
  match fuel with
  | O => None
  | S fuel =>
      if zlen json <=? pos then None else
      match find json [QUOTE] pos with
      | None => None
      | Some qpos =>
          if zlen json <=? qpos + zlen key + 2 then None else
          if bool_decide (substr json (qpos + 1) (zlen key) = key) && (at_ json (qpos + zlen key + 1) =? QUOTE) then
            let colon := qpos + zlen key + 2 in
            if (zlen json <=? colon) || negb (at_ json colon =? COLON) then json_find value fuel json key (qpos + 1) else
            if zlen json <=? colon + 1 then None else
            match value (colon + 1) with
            | Some r => r
            | None => json_find value fuel json key (qpos + 1)
            end
          else json_find value fuel json key (qpos + 1)
      end
  end.

Definition json_find_string (json key : bytes) : option bytes :=
  if (zlen json =? 0) || (zlen key =? 0) then None else
  json_find (fun colon =>
    if at_ json colon =? QUOTE then
      let vstart := colon + 1 in
      Some match find json [QUOTE] vstart with
           | None => None
           | Some vend => Some (substr json vstart (vend - vstart))
           end
    else None) (S (length json)) json key 0.

(** The digits of a number, saturating. *)
Fixpoint int_digits (s : bytes) (val : Z) : Z :=
  match s with
  | [] => val
  | c :: s =>
      if (0x30 <=? c) && (c <=? 0x39) then
        let digit := c - 0x30 in
        if (INT64_MAX - digit) / 10 <? val then INT64_MAX else int_digits s (val * 10 + digit)
      else val
  end.

Definition json_find_int (json key : bytes) : option Z :=
  if (zlen json =? 0) || (zlen key =? 0) then None else
  json_find (fun colon =>
    let c := at_ json colon in
    if (0x30 <=? c) && (c <=? 0x39) then Some (Some (int_digits (zdrop colon json) 0)) else None)
    (S (length json)) json key 0.

Definition claim (v : JwtView) (key : bytes) : option bytes :=
  let json := claim_decode (payload v) 8192 in
  if zlen json =? 0 then None else json_find_string json key.

Definition claim_int (v : JwtView) (key : bytes) : option Z :=
  let json := claim_decode (payload v) 8192 in
  if zlen json =? 0 then None else json_find_int json key.

Definition is_expired (v : JwtView) (now_unix leeway_sec : Z) : bool :=
  match claim_int v (chars "exp") with
  | None => false
  | Some exp =>
      let deadline := exp + leeway_sec in
      let deadline := if (deadline <? INT64_MIN) || (INT64_MAX <? deadline)
                      then (if 0 <? leeway_sec then INT64_MAX else INT64_MIN) else deadline in
      deadline <? now_unix
  end.

(** ** Signed tokens *)

(** The three fields of a compact token. *)
Definition fields (token h p s : bytes) : Prop := token = h ++ DOT :: p ++ DOT :: s /\ (DOT ∉ h) /\ (DOT ∉ p) /\ (DOT ∉ s).

Definition occurs (pat s : bytes) : Prop := exists a b, s = a ++ pat ++ b.

Lemma occurs_find pat s : bool_decide (find s pat 0 = None) = false <-> occurs pat s.
Proof.
  rewrite bool_decide_eq_false, find_none. unfold occurs. split.
  - intros Hn. destruct (find s pat 0) as [k|] eqn:E.
    + rewrite find_0 in E. pose proof (find_at_spec pat s 0) as H. rewrite E in H. destruct H as (a & b & -> & _). eauto.
    + destruct Hn. by apply find_none.
  - intros (a & b & ->) Hn. by destruct (Hn a b).
Qed.

Lemma hmac_is_rfc `{LawfulHash H} key msg : hmac H key msg = rfc_hmac H key msg.
Proof. unfold hmac. apply keyed_finalize. change msg with ([] ++ msg) at 1. by apply keyed_update, keyed_init. Qed.

Lemma substr_prefix (a b : bytes) n : n = zlen a -> substr (a ++ b) 0 n = a.
Proof. intros ->. unfold substr. rewrite zdrop_0, zlen_app. apply ztake_app. zlia. Qed.

Lemma substr_middle (a b c : bytes) o n : o = zlen a -> n = zlen b -> substr (a ++ b ++ c) o n = b.
Proof. intros -> ->. unfold substr. rewrite zdrop_app by done. apply ztake_app. rewrite !zlen_app. zlia. Qed.

Lemma fields_find token h p s : fields token h p s ->
  find token [DOT] 0 = Some (zlen h) /\ find token [DOT] (zlen h + 1) = Some (zlen h + 1 + zlen p) /\
  find token [DOT] (zlen h + 1 + zlen p + 1) = None.
Proof.
  intros (-> & Hh & Hp & Hs). split_and!.
  - by rewrite find_0, find_char_app.
  - rewrite (cons_middle DOT h), app_assoc. rewrite find_from by (rewrite zlen_app; done). by rewrite find_char_app.
  - replace (h ++ DOT :: p ++ DOT :: s) with ((h ++ [DOT] ++ p ++ [DOT]) ++ s) by (rewrite <- !app_assoc; done).
    rewrite find_from by (rewrite !zlen_app; change (zlen [DOT]) with 1; lia). by apply find_char_none.
Qed.

Lemma find_fields token d1 d2 : find token [DOT] 0 = Some d1 -> find token [DOT] (d1 + 1) = Some d2 -> find token [DOT] (d2 + 1) = None ->
  exists h p s, fields token h p s.
Proof.
  rewrite find_0. intros E1. pose proof (find_char_spec DOT token 0) as H. rewrite E1 in H. destruct H as (h & r & -> & Hh & ->).
  rewrite (cons_middle DOT h), app_assoc. rewrite find_from by (rewrite zlen_app; done).
  intros E2. pose proof (find_char_spec DOT r (0 + zlen h + 1)) as H. rewrite E2 in H. destruct H as (p & s & -> & Hp & ->).
  replace ((h ++ [DOT]) ++ p ++ DOT :: s) with ((h ++ [DOT] ++ p ++ [DOT]) ++ s) by (rewrite <- !app_assoc; done).
  rewrite find_from by (rewrite !zlen_app; change (zlen [DOT]) with 1; lia).
  intros E3. pose proof (find_char_spec DOT s (0 + zlen h + 1 + zlen p + 1)) as H. rewrite E3 in H.
  exists h, p, s. split_and!; [by rewrite <- !app_assoc|done..].
Qed.

(** What [verify_jwt_hs256] computes on a token of three fields. *)
Definition verified (t : detail256.target) (key h p s : bytes) : result bytes :=
  match base64url_decode h, base64url_decode s with
  | Ok hd, Ok sig =>
      if bool_decide (find hd (quoted (chars "HS256")) 0 = None) || bool_decide (find hd (quoted (chars "alg")) 0 = None) ||
         negb (bool_decide (sig = rfc_hmac (Sha256Wrapper t) key (h ++ [DOT] ++ p)))
      then Err bad_message else base64url_decode p
  | _, _ => Err bad_message
  end.

Lemma sig_check t key msg sig :
  negb (zlen sig =? 32) || negb (ct_diff (rfc_hmac (Sha256Wrapper t) key msg) sig =? 0) =
  negb (bool_decide (sig = rfc_hmac (Sha256Wrapper t) key msg)).
Proof.
  pose proof (zlen_rfc_hmac (H := Sha256Wrapper t) key msg) as Hl. change (kDigestSize (Sha256Wrapper t)) with 32 in Hl.
  destruct (Z.eqb_spec (zlen sig) 32) as [Hs|Hs]; cbn [negb orb].
  - rewrite ct_diff_eq by (unfold zlen in *; lia). f_equal. apply bool_decide_ext. split; congruence.
  - rewrite bool_decide_eq_false_2; [done|congruence].
Qed.

Lemma verify_fields t token key h p s : fields token h p s -> verify_jwt_hs256 t token key = verified t key h p s.
Proof.
  intros Hf. unfold verify_jwt_hs256. destruct (fields_find _ _ _ _ Hf) as (-> & -> & ->). destruct Hf as (-> & _).
  rewrite (substr_prefix h) by done.
  replace (h ++ DOT :: p ++ DOT :: s) with ((h ++ [DOT]) ++ p ++ DOT :: s) by (rewrite <- !app_assoc; done).
  rewrite (substr_middle (h ++ [DOT]) p (DOT :: s) (zlen h + 1)) by (rewrite ?zlen_app; change (zlen [DOT]) with 1; lia).
  replace ((h ++ [DOT]) ++ p ++ DOT :: s) with ((h ++ [DOT] ++ p) ++ DOT :: s) by (rewrite <- !app_assoc; done).
  rewrite (substr_prefix (h ++ [DOT] ++ p)) by (rewrite !zlen_app; change (zlen [DOT]) with 1; lia).
  replace ((h ++ [DOT] ++ p) ++ DOT :: s) with ((h ++ [DOT] ++ p ++ [DOT]) ++ s) by (rewrite <- !app_assoc; done).
  rewrite zdrop_app by (rewrite !zlen_app; change (zlen [DOT]) with 1; lia).
  rewrite hmac_is_rfc. unfold verified. pose proof (sig_check t key (h ++ [DOT] ++ p)) as Hc.
  destruct (base64url_decode h) as [hd|]; [|done]. destruct (bool_decide (find hd _ 0 = None)); [by destruct (base64url_decode s)|].
  destruct (bool_decide (find hd _ 0 = None)); [by destruct (base64url_decode s)|]. destruct (base64url_decode s) as [sig|]; [|done].
  cbn [orb]. rewrite <- Hc. by destruct (negb (zlen sig =? 32)).
Qed.

Lemma alpha_no_dot : DOT ∉ kUrlAlpha.
Proof. rewrite list_elem_of_In. vm_compute. intuition discriminate. Qed.

Lemma base64url_no_dot neon data : all_bytes data -> DOT ∉ base64url_encode neon data false.
Proof. intros Hd Hin. pose proof (base64url_chars neon data Hd) as H. rewrite Forall_forall in H. by apply alpha_no_dot, H. Qed.

Lemma encode_fields neon t payload key : all_bytes payload ->
  fields (encode_jwt_hs256 neon t payload key) (base64url_encode neon kHeader false) (base64url_encode neon payload false)
    (base64url_encode neon (rfc_hmac (Sha256Wrapper t) key (base64url_encode neon kHeader false ++ [DOT] ++ base64url_encode neon payload false)) false).
Proof.
  intros Hp. unfold encode_jwt_hs256. rewrite hmac_is_rfc. split; [by rewrite <- !app_assoc|]. split_and!; apply base64url_no_dot.
  - vm_compute. repeat constructor; discriminate.
  - done.
  - apply rfc_hmac_bytes.
Qed.

Lemma verify_split t token key :
  (exists h p s, fields token h p s) \/ verify_jwt_hs256 t token key = Err bad_message.
Proof.
  unfold verify_jwt_hs256. destruct (find token [DOT] 0) as [d1|] eqn:E1; [|by right].
  destruct (find token [DOT] (d1 + 1)) as [d2|] eqn:E2; [|by right]. destruct (find token [DOT] (d2 + 1)) eqn:E3; [by right|].
  left. by apply (find_fields token d1 d2).
Qed.

Lemma verified_ok t key h p s pl : verified t key h p s = Ok pl <->
  exists hd, base64url_decode h = Ok hd /\ occurs (quoted (chars "HS256")) hd /\ occurs (quoted (chars "alg")) hd /\
    base64url_decode s = Ok (rfc_hmac (Sha256Wrapper t) key (h ++ [DOT] ++ p)) /\ base64url_decode p = Ok pl.
Proof.
  unfold verified. setoid_rewrite <- occurs_find. split.
  - destruct (base64url_decode h) as [hd|]; [|done]. destruct (base64url_decode s) as [sig|]; [|done]. intros Hv. exists hd.
    destruct (bool_decide (find hd (quoted (chars "HS256")) 0 = None)); [done|].
    destruct (bool_decide (find hd (quoted (chars "alg")) 0 = None)); [done|]. case_bool_decide as Hs; [|done]. by subst sig.
  - intros (hd & -> & -> & -> & -> & ->). by rewrite bool_decide_eq_true_2.
Qed.

(** C25.  A token is accepted exactly when it has three fields, its header is base64url text
    that mentions [HS256] and [alg], and its last field is base64url of the RFC 2104 code of
    the first two under the key, and its second field is base64url text, which is returned
    decoded.  A refusal is [bad_message], except that the error of decoding a signed second
    field is passed on.  A token that was signed is accepted under
    its key and returns its payload, and under another key only if the codes agree. *)
Theorem jwt_exact neon t token key :
  (forall pl, verify_jwt_hs256 t token key = Ok pl <->
    exists h p s hd, fields token h p s /\ base64url_decode h = Ok hd /\ occurs (quoted (chars "HS256")) hd /\ occurs (quoted (chars "alg")) hd /\
      base64url_decode s = Ok (rfc_hmac (Sha256Wrapper t) key (h ++ [DOT] ++ p)) /\ base64url_decode p = Ok pl) /\
  (forall e, verify_jwt_hs256 t token key = Err e -> e = bad_message \/ exists h p s, fields token h p s /\ base64url_decode p = Err e) /\
  (forall payload key', all_bytes payload -> token = encode_jwt_hs256 neon t payload key' ->
    let input := base64url_encode neon kHeader false ++ [DOT] ++ base64url_encode neon payload false in
    verify_jwt_hs256 t token key =
      if bool_decide (rfc_hmac (Sha256Wrapper t) key' input = rfc_hmac (Sha256Wrapper t) key input) then Ok payload else Err bad_message).
Proof.
  split; [|split].
  - intros pl. split.
    + intros Hv. destruct (verify_split t token key) as [(h & p & s & Hf)|E]; [|congruence].
      rewrite (verify_fields _ _ _ _ _ _ Hf) in Hv. apply verified_ok in Hv as (hd & Hv). by exists h, p, s, hd.
    + intros (h & p & s & hd & Hf & Hv). rewrite (verify_fields _ _ _ _ _ _ Hf). apply verified_ok. by exists hd.
  - intros e. destruct (verify_split t token key) as [(h & p & s & Hf)|E]; [|rewrite E; intros [= <-]; by left].
    rewrite (verify_fields _ _ _ _ _ _ Hf). unfold verified. intros He.
    destruct (base64url_decode h), (base64url_decode s); try (injection He as <-; by left).
    destruct (_ || _); [injection He as <-; by left|]. right. by exists h, p, s.
  - intros payload key' Hp -> input. rewrite (verify_fields _ _ _ _ _ _ (encode_fields neon t payload key' Hp)). unfold verified.
    rewrite !base64url_decode_encode by first [done|apply rfc_hmac_bytes|vm_compute; repeat constructor; discriminate].
    fold input. change (bool_decide (find kHeader (quoted (chars "HS256")) 0 = None)) with false.
    change (bool_decide (find kHeader (quoted (chars "alg")) 0 = None)) with false. cbn [orb]. by case_bool_decide.
Qed.

(** The header only has to contain the two words somewhere. *)
Theorem alg_none_accepted :
  let h := base64url_encode false ([0x7B] ++ quoted (chars "alg") ++ [COLON] ++ quoted (chars "none") ++ [0x2C] ++
                                   quoted (chars "kid") ++ [COLON] ++ quoted (chars "HS256") ++ [0x7D]) false in
  let p := base64url_encode false (chars "{}") false in
  let mac := hmac (Sha256Wrapper detail256.Scalar) (chars "key") (h ++ [DOT] ++ p) in
  verify_jwt_hs256 detail256.Scalar (h ++ [DOT] ++ p ++ [DOT] ++ base64url_encode false mac false) (chars "key") = Ok (chars "{}").
Proof. vm_compute. reflexivity. Qed.

(** ** The dots *)

Lemma dot_scalar_find data i : dot_scalar data i = find_at [DOT] data i.
Proof.
  revert i. induction data as [|c data IH]; intros i; [done|]. cbn [dot_scalar find_at starts_with]. rewrite andb_true_r.
  by destruct (c =? DOT).
Qed.

Lemma dot_mask_find chunk i : (length chunk <= 32)%nat ->
  (if dot_mask chunk =? 0 then None else Some (i + ctz 32 (dot_mask chunk))) = find_at [DOT] chunk i.
Proof.
  intros Hl. unfold dot_mask. pose proof (find_char_spec DOT chunk i) as H. destruct (find_at [DOT] chunk i) as [k|].
  - destruct H as (a & b & -> & Ha & ->). rewrite length_app in Hl. cbn [length] in Hl. rewrite map_app. cbn [map]. rewrite Z.eqb_refl.
    assert (forall l, bits_val (map (fun c => c =? DOT) a ++ l) = 2 ^ Z.of_nat (length a) * bits_val l) as E.
    { intros l. clear Hl. induction a as [|x a IH]; [cbn [map app length]; change (2 ^ Z.of_nat 0) with 1; lia|].
      apply not_elem_of_cons in Ha as [Hx Ha]. cbn [map app bits_val length]. rewrite (proj2 (Z.eqb_neq x DOT)) by done.
      rewrite IH, Nat2Z.inj_succ, Z.pow_succ_r by (done || lia). lia. }
    rewrite E. cbn [bits_val]. pose proof (bits_val_nonneg (map (fun c => c =? DOT) b)). pose proof (Z.pow_pos_nonneg 2 (Z.of_nat (length a))).
    rewrite (proj2 (Z.eqb_neq _ 0)) by lia. rewrite ctz_spec by lia. done.
  - assert (bits_val (map (fun c => c =? DOT) chunk) = 0) as ->; [|done]. clear Hl. induction chunk as [|x l IH]; [done|].
    apply not_elem_of_cons in H as [Hx H]. cbn [map bits_val]. rewrite (proj2 (Z.eqb_neq x DOT)), IH by done. lia.
Qed.

Lemma existsb_dot chunk : existsb (fun c => c =? DOT) chunk = true <-> DOT ∈ chunk.
Proof.
  rewrite existsb_exists. setoid_rewrite Z.eqb_eq. setoid_rewrite <- list_elem_of_In. split; [by intros (x & Hx & ->)|eauto].
Qed.

Lemma dot_chunk_find tgt chunk i : (length chunk <= 32)%nat -> dot_chunk tgt chunk i = find_at [DOT] chunk i.
Proof.
  intros Hl. destruct tgt; cbn [dot_chunk]; cbn zeta; try by apply dot_mask_find.
  destruct (existsb _ chunk) eqn:E; [apply dot_scalar_find|]. symmetry. apply find_char_none. rewrite <- existsb_dot. congruence.
Qed.

Lemma find_at_app_l c a b i : find_at [c] (a ++ b) i = match find_at [c] a i with Some k => Some k | None => find_at [c] b (i + zlen a) end.
Proof.
  revert i. induction a as [|x a IH]; intros i; cbn [app find_at starts_with]; [rewrite zlen_nil; f_equal; lia|].
  rewrite andb_true_r. destruct (x =? c); [done|]. rewrite IH, zlen_cons. by replace (i + 1 + zlen a) with (i + (zlen a + 1)) by lia.
Qed.

Lemma dot_from_find fuel tgt data i : 0 <= i <= zlen data + 1 -> dot_from fuel tgt data i = default (zlen data) (find_at [DOT] (zdrop i data) i).
Proof.
  revert i. induction fuel as [|fuel IH]; intros i Hi; [by destruct tgt; cbn [dot_from]; rewrite dot_scalar_find|].
  assert (tgt = Scalar \/ tgt <> Scalar) as [->|Ht] by (destruct tgt; auto); [cbn [dot_from]; by rewrite dot_scalar_find|].
  assert (dot_from (S fuel) tgt data i =
    if i + chunk_size tgt <=? zlen data then
      match dot_chunk tgt (substr data i (chunk_size tgt)) i with Some p => p | None => dot_from fuel tgt data (i + chunk_size tgt) end
    else default (zlen data) (dot_scalar (zdrop i data) i)) as -> by (by destruct tgt).
  assert (0 < chunk_size tgt <= 32) as Hc by (by destruct tgt). rewrite dot_scalar_find.
  destruct (Z.leb_spec (i + chunk_size tgt) (zlen data)) as [Hle|]; [|done].
  assert (substr data i (chunk_size tgt) = ztake (chunk_size tgt) (zdrop i data)) as -> by (unfold substr; f_equal; lia).
  assert (zlen (ztake (chunk_size tgt) (zdrop i data)) = chunk_size tgt) as Hz by (apply zlen_ztake; rewrite zlen_zdrop; lia).
  rewrite dot_chunk_find by (unfold zlen in Hz; lia).
  rewrite <- (ztake_zdrop (chunk_size tgt) (zdrop i data)) at 2. rewrite find_at_app_l, Hz, zdrop_zdrop by lia.
  destruct (find_at [DOT] (ztake _ _) i); [done|]. rewrite IH by lia. done.
Qed.

(** ** The decoder of the claims *)

Lemma dec_table_alpha v : 0 <= v < 64 -> at_ kDecTable (at_ kUrlAlpha v) = v.
Proof. intros Hv. by_range v Hv. Qed.

Lemma acc_step acc v : 0 <= v < 64 -> u32 (acc << 6) .| v = acc mod 67108864 * 64 + v.
Proof.
  intros Hv. unfold wrap. rewrite Z.shiftl_mul_pow2 by lia. change (2 ^ 32) with (67108864 * 2 ^ 6).
  rewrite Z.mul_mod_distr_r by lia. rewrite <- Z.shiftl_mul_pow2 by lia. rewrite lor_shiftl_add by rlia. done.
Qed.

Lemma out_byte acc n : 0 <= n -> (acc >> n) .& 0xFF = acc / 2 ^ n mod 256.
Proof. intros Hn. by rewrite land_255, Z.shiftr_div_pow2. Qed.

(** One character, by the number of bits that wait. *)
Lemma jwt_decode_char v b64 out_len acc bits out : 0 <= v < 64 -> 0 <= bits < 8 ->
  decode_bits (at_ kUrlAlpha v :: b64) out_len acc bits out =
  let acc := acc mod 67108864 * 64 + v in
  if bits <? 2 then decode_bits b64 out_len acc (bits + 6) out
  else if out_len <=? zlen out then None
  else decode_bits b64 out_len acc (bits - 2) (out ++ [acc / 2 ^ (bits - 2) mod 256]).
Proof.
  intros Hv Hb. cbn [decode_bits]. rewrite dec_table_alpha, (proj2 (Z.ltb_ge v 0)), acc_step by lia. cbn zeta.
  destruct (Z.ltb_spec bits 2); [by rewrite (proj2 (Z.leb_gt _ _)) by lia|]. rewrite (proj2 (Z.leb_le _ _)) by lia.
  replace (bits + 6 - 8) with (bits - 2) by lia. by rewrite out_byte by lia.
Qed.

Ltac byte_eq := unfold in_range in *; change (2 ^ 8) with 256 in *; change (2 ^ (6 - 2)) with 16; change (2 ^ (4 - 2)) with 4;
  change (2 ^ (2 - 2)) with 1; Z.div_mod_to_equations; lia.

Lemma decode_two a b rest out_len acc out s0 s1 : is_byte s0 -> is_byte s1 -> a = s0 / 4 -> b = s0 mod 4 * 16 + s1 / 16 -> zlen out < out_len ->
  exists acc', decode_bits (at_ kUrlAlpha a :: at_ kUrlAlpha b :: rest) out_len acc 0 out = decode_bits rest out_len acc' 4 (out ++ [s0]) /\
    acc' mod 16 = s1 / 16.
Proof.
  intros H0 H1 -> -> Hl. rewrite jwt_decode_char by (try lia; byte_eq). cbn zeta. change (0 <? 2) with true. cbn iota.
  rewrite jwt_decode_char by (try lia; byte_eq). cbn zeta. change (0 + 6 <? 2) with false. cbn iota. rewrite (proj2 (Z.leb_gt _ _)) by lia.
  eexists. split.
  - change (0 + 6 - 2) with 4. f_equal. f_equal. f_equal. change (2 ^ 4) with 16. byte_eq.
  - byte_eq.
Qed.

Lemma decode_third c rest out_len acc out s1 s2 : is_byte s1 -> is_byte s2 -> acc mod 16 = s1 / 16 -> c = s1 mod 16 * 4 + s2 / 64 -> zlen out < out_len ->
  exists acc', decode_bits (at_ kUrlAlpha c :: rest) out_len acc 4 out = decode_bits rest out_len acc' 2 (out ++ [s1]) /\ acc' mod 4 = s2 / 64.
Proof.
  intros H1 H2 Ha -> Hl. rewrite jwt_decode_char by (try lia; byte_eq). cbn zeta. change (4 <? 2) with false. cbn iota. rewrite (proj2 (Z.leb_gt _ _)) by lia.
  eexists. split.
  - change (4 - 2) with 2. f_equal. f_equal. f_equal. change (2 ^ 2) with 4. byte_eq.
  - byte_eq.
Qed.

Lemma decode_fourth d rest out_len acc out s2 : is_byte s2 -> acc mod 4 = s2 / 64 -> d = s2 mod 64 -> zlen out < out_len ->
  exists acc', decode_bits (at_ kUrlAlpha d :: rest) out_len acc 2 out = decode_bits rest out_len acc' 0 (out ++ [s2]).
Proof.
  intros H2 Ha -> Hl. rewrite jwt_decode_char by (try lia; byte_eq). cbn zeta. change (2 <? 2) with false. cbn iota. rewrite (proj2 (Z.leb_gt _ _)) by lia.
  eexists. change (2 - 2) with 0. f_equal. f_equal. f_equal. change (2 ^ 0) with 1. byte_eq.
Qed.

Lemma decode_bits_encoded data out_len acc out : all_bytes data -> zlen out + zlen data <= out_len ->
  decode_bits (map (at_ kUrlAlpha) (sextet_seq data)) out_len acc 0 out = Some (out ++ data).
Proof.
  revert acc out. induction data as [|s0|s0 s1|s0 s1 s2 rest IH] using list_ind3; intros acc out Hd Hl; split_bytes; autorewrite with zlist in Hl.
  - cbn. by rewrite app_nil_r.
  - cbn [sextet_seq sextets take map]. destruct (decode_two _ _ [] out_len acc out s0 0 ltac:(done) byte_0 eq_refl eq_refl ltac:(lia)) as (acc' & -> & _).
    done.
  - cbn [sextet_seq sextets take map].
    destruct (decode_two _ _ [at_ kUrlAlpha (s1 mod 16 * 4 + 0 / 64)] out_len acc out s0 s1 ltac:(done) ltac:(done) eq_refl eq_refl ltac:(lia)) as (acc' & -> & Ha).
    destruct (decode_third _ [] out_len acc' (out ++ [s0]) s1 0 ltac:(done) byte_0 Ha eq_refl) as (acc'' & -> & _); [zlia|].
    cbn [decode_bits]. by rewrite <- app_assoc.
  - cbn [sextet_seq sextets app map]. set (c := at_ kUrlAlpha (s1 mod 16 * 4 + s2 / 64)). set (d := at_ kUrlAlpha (s2 mod 64)).
    set (r := map _ (sextet_seq rest)).
    destruct (decode_two (s0 / 4) (s0 mod 4 * 16 + s1 / 16) (c :: d :: r) out_len acc out s0 s1) as (a1 & -> & Ha); [done|done|done|done|zlia|].
    unfold c. destruct (decode_third (s1 mod 16 * 4 + s2 / 64) (d :: r) out_len a1 (out ++ [s0]) s1 s2) as (a2 & -> & Hb); [done|done|exact Ha|done|zlia|].
    unfold d. destruct (decode_fourth (s2 mod 64) r out_len a2 ((out ++ [s0]) ++ [s1]) s2) as (a3 & ->); [done|exact Hb|done|zlia|].
    unfold r. rewrite IH; [|done|zlia]. by rewrite <- !app_assoc.
Qed.

Lemma claim_decode_encode neon data n : all_bytes data -> zlen data <= n -> claim_decode (base64url_encode neon data false) n = data.
Proof.
  intros Hd Hn. unfold claim_decode. rewrite base64url_encode_eq by done. unfold encoded. rewrite app_nil_r.
  by rewrite decode_bits_encoded by (rewrite ?zlen_nil; done).
Qed.

(** ** The search for claims *)

(** The first place of [s] where [pat] stands, with what comes before and after. *)
Definition first_at (s pat a b : bytes) : Prop := s = a ++ pat ++ b /\ forall a' b', s = a' ++ pat ++ b' -> zlen a <= zlen a'.

Lemma zdrop_at l i : 0 <= i < zlen l -> zdrop i l = at_ l i :: zdrop (i + 1) l.
Proof.
  intros Hi. unfold zdrop, at_. replace (Z.to_nat (i + 1)) with (S (Z.to_nat i)) by lia. unfold zlen in Hi.
  destruct (lookup_lt_is_Some_2 l (Z.to_nat i)) as [x Hx]; [lia|]. rewrite (drop_S l x) by done. by rewrite (nth_lookup_Some _ _ _ _ Hx).
Qed.

Lemma at_middle a c b i : i = zlen a -> at_ (a ++ c :: b) i = c.
Proof. intros ->. unfold at_, zlen. rewrite Nat2Z.id. apply nth_middle. Qed.

(** The tests on the characters around a key. *)
Lemma key_matches json key q : 0 <= q -> q + zlen key + 2 < zlen json -> at_ json q = QUOTE -> substr json (q + 1) (zlen key) = key ->
  at_ json (q + zlen key + 1) = QUOTE -> at_ json (q + zlen key + 2) = COLON ->
  exists a b, zlen a = q /\ json = a ++ (quoted key ++ [COLON]) ++ b.
Proof.
  intros H0 Hl Hq Hk Hq2 Hc. pose proof (zlen_nonneg key). exists (ztake q json), (zdrop (q + zlen key + 3) json).
  split; [apply zlen_ztake; lia|]. rewrite <- (ztake_zdrop q json) at 1. f_equal. rewrite zdrop_at, Hq by lia. cbn [app]. f_equal.
  unfold substr in Hk. rewrite Z.min_l in Hk by lia. rewrite <- (ztake_zdrop (zlen key) (zdrop (q + 1) json)), Hk. rewrite <- !app_assoc. f_equal.
  rewrite zdrop_zdrop by lia. replace (q + 1 + zlen key) with (q + zlen key + 1) by lia. rewrite zdrop_at, Hq2 by lia. cbn [app]. f_equal.
  replace (q + zlen key + 1 + 1) with (q + zlen key + 2) by lia. rewrite zdrop_at, Hc by lia. f_equal. f_equal. lia.
Qed.

Section search.
Context {A : Type} (value : Z -> option (option A)) (json key : bytes).

(** One turn that stops at a quote where the pattern does not stand goes on. *)
Lemma json_find_skip fuel pos q : 0 <= pos < zlen json -> find json [QUOTE] pos = Some q -> 0 <= q -> q + zlen key + 2 < zlen json -> at_ json q = QUOTE ->
  (forall a b, json = a ++ (quoted key ++ [COLON]) ++ b -> zlen a <> q) -> json_find value (S fuel) json key pos = json_find value fuel json key (q + 1).
Proof.
  intros Hpos Hf H0 Hl Hq Hno. cbn [json_find]. rewrite (proj2 (Z.leb_gt (zlen json) pos)) by lia. rewrite Hf, (proj2 (Z.leb_gt (zlen json) _)) by lia.
  case_bool_decide as Hk; [|done]. destruct (Z.eqb_spec (at_ json (q + zlen key + 1)) QUOTE) as [Hq2|]; [|done]. cbn [andb].
  cbn [orb]. destruct (Z.eqb_spec (at_ json (q + zlen key + 2)) COLON) as [Hc|]; [|done].
  destruct (key_matches json key q) as (a & b & Ha & E); [done..|]. by destruct (Hno a b).
Qed.

Lemma find_quote pos : 0 <= pos < zlen json ->
  match find json [QUOTE] pos with
  | None => QUOTE ∉ zdrop pos json
  | Some q => pos <= q < zlen json /\ at_ json q = QUOTE
  end.
Proof.
  intros Hp. unfold find. rewrite (proj2 (Z.ltb_ge _ _)) by lia. pose proof (find_char_spec QUOTE (zdrop pos json) pos) as H.
  destruct (find_at [QUOTE] (zdrop pos json) pos) as [q|]; [|done]. destruct H as (a & b & E & Ha & ->).
  assert (zlen json - pos = zlen a + (zlen b + 1)) as Hl by (rewrite <- zlen_zdrop, E by lia; zlia). pose proof (zlen_nonneg a). pose proof (zlen_nonneg b).
  split; [lia|]. rewrite <- (ztake_zdrop pos json), E, app_assoc. apply at_middle. rewrite zlen_app, zlen_ztake; lia.
Qed.

Lemma find_quote_before pos a b : json = a ++ QUOTE :: b -> 0 <= pos <= zlen a ->
  exists q, find json [QUOTE] pos = Some q /\ pos <= q <= zlen a /\ at_ json q = QUOTE.
Proof.
  intros E Hp. pose proof (find_quote pos) as Hq. destruct (find json [QUOTE] pos) as [q|] eqn:Ef.
  - destruct Hq as [Hq Hat]; [rewrite E; zlia|]. exists q. split; [done|]. split; [|done]. split; [lia|].
    revert Ef. unfold find. rewrite (proj2 (Z.ltb_ge _ _)) by (rewrite E; zlia). rewrite E, zdrop_app_le, find_at_app_l by lia.
    pose proof (find_char_spec QUOTE (zdrop pos a) pos) as H. pose proof (zlen_zdrop pos a Hp) as Hz. destruct (find_at [QUOTE] (zdrop pos a) pos) as [k|].
    + intros [= <-]. destruct H as (c & d & Hd & _ & ->). rewrite Hd in Hz. revert Hz. zlia.
    + cbn [find_at starts_with]. rewrite Z.eqb_refl. cbn [andb]. intros [= <-]. lia.
  - destruct Hq; [rewrite E; zlia|]. rewrite E, zdrop_app_le by lia. apply elem_of_app. right. by left.
Qed.

Lemma json_find_first fuel pos a b res : first_at json (quoted key ++ [COLON]) a b -> b <> [] -> value (zlen a + zlen key + 3) = Some res ->
  0 <= pos <= zlen a -> zlen a - pos < Z.of_nat fuel -> json_find value fuel json key pos = res.
Proof.
  intros [E Hfirst] Hb Hv. revert pos. induction fuel as [|fuel IH]; intros pos Hpos Hf; [lia|].
  assert (0 < zlen b) by (destruct b; [done|zlia]). pose proof (zlen_nonneg key).
  assert (zlen json = zlen a + zlen key + 3 + zlen b) as Hl by (rewrite E; zlia).
  assert (json = a ++ QUOTE :: (key ++ [QUOTE] ++ [COLON] ++ b)) as E' by (rewrite E; cbn [app]; by rewrite <- !app_assoc).
  destruct (find_quote_before pos a _ E' Hpos) as (q & Ef & Hq & Hat).
  destruct (decide (q = zlen a)) as [->|Hne].
  - cbn [json_find]. rewrite (proj2 (Z.leb_gt (zlen json) pos)) by lia. rewrite Ef. rewrite (proj2 (Z.leb_gt (zlen json) _)) by lia.
    assert (json = (a ++ [QUOTE]) ++ key ++ QUOTE :: COLON :: b) as E1 by (rewrite E', <- app_assoc; done).
    rewrite bool_decide_eq_true_2 by (rewrite E1; apply substr_middle; zlia).
    assert (at_ json (zlen a + zlen key + 1) = QUOTE) as -> by (rewrite E1, app_assoc; apply at_middle; zlia).
    assert (at_ json (zlen a + zlen key + 2) = COLON) as ->.
    { replace json with (((a ++ [QUOTE]) ++ key ++ [QUOTE]) ++ COLON :: b) by (rewrite E1, <- !app_assoc; done). apply at_middle. zlia. }
    rewrite !Z.eqb_refl. cbn [andb negb orb]. rewrite (proj2 (Z.leb_gt (zlen json) _)) by lia.
    replace (zlen a + zlen key + 2 + 1) with (zlen a + zlen key + 3) by lia. by rewrite Hv.
  - rewrite (json_find_skip fuel pos q) by (try done; try lia; intros a' b' Ea; specialize (Hfirst a' b' Ea); lia). apply IH; lia.
Qed.

Lemma json_find_none fuel pos : ~ occurs (quoted key ++ [COLON]) json -> 0 <= pos -> json_find value fuel json key pos = None.
Proof.
  intros Hno. revert pos. induction fuel as [|fuel IH]; intros pos Hpos; [done|].
  destruct (decide (zlen json <= pos)) as [Hle|Hlt]; [cbn [json_find]; by apply Z.leb_le in Hle as ->|].
  pose proof (find_quote pos ltac:(lia)) as Hq. destruct (find json [QUOTE] pos) as [q|] eqn:Ef.
  2: { cbn [json_find]. rewrite Ef. by destruct (zlen json <=? pos). }
  destruct (decide (q + zlen key + 2 < zlen json)) as [Hl|Hl].
  - rewrite (json_find_skip fuel pos q); [apply IH; lia|lia|done|lia|done|apply Hq|]. intros a b Ea. destruct Hno. by exists a, b.
  - cbn [json_find]. rewrite Ef. rewrite (proj2 (Z.leb_le (zlen json) (q + _ + _))) by lia. by destruct (zlen json <=? pos).
Qed.
End search.

(** The value of a decimal number. *)
Definition decimal (ds : bytes) : Z := foldl (fun acc c => acc * 10 + (c - 0x30)) 0 ds.

Definition no_digit_next (s : bytes) : Prop := match s with [] => True | c :: _ => ~ is_digit c end.

Lemma digit_test c : (0x30 <=? c) && (c <=? 0x39) = bool_decide (is_digit c).
Proof.
  unfold is_digit. destruct (Z.leb_spec 0x30 c), (Z.leb_spec c 0x39); cbn [andb]; symmetry;
    first [apply bool_decide_eq_true_2; lia|apply bool_decide_eq_false_2; lia].
Qed.

Lemma decimal_grows acc ds : Forall is_digit ds -> 0 <= acc -> acc <= foldl (fun acc c => acc * 10 + (c - 0x30)) acc ds.
Proof.
  intros Hd. revert acc. induction Hd as [|c ds Hc Hd IH]; intros acc Ha; [done|]. cbn [foldl]. unfold is_digit in Hc.
  transitivity (acc * 10 + (c - 0x30)); [lia|]. apply IH. lia.
Qed.

Lemma int_digits_decimal ds b acc : Forall is_digit ds -> no_digit_next b -> 0 <= acc <= INT64_MAX ->
  int_digits (ds ++ b) acc = Z.min INT64_MAX (foldl (fun acc c => acc * 10 + (c - 0x30)) acc ds).
Proof.
  intros Hd Hb. revert acc. induction Hd as [|c ds Hc Hd IH]; intros acc Ha; cbn [app foldl].
  - destruct b as [|c b]; cbn [int_digits]; [lia|]. rewrite digit_test, bool_decide_eq_false_2 by done. lia.
  - cbn [int_digits]. rewrite digit_test, bool_decide_eq_true_2 by done. unfold is_digit in Hc. cbn zeta.
    destruct (Z.ltb_spec ((INT64_MAX - (c - 0x30)) / 10) acc) as [Ho|Ho].
    + pose proof (decimal_grows (acc * 10 + (c - 0x30)) ds Hd ltac:(lia)). Z.div_mod_to_equations. lia.
    + apply IH. Z.div_mod_to_equations. lia.
Qed.

(** Equal concatenations, up to associativity. *)
Ltac app_eq := repeat (progress (rewrite <- ?app_assoc; cbn [app])); reflexivity.

Lemma first_at_len s pat a b : first_at s pat a b -> zlen s = zlen a + zlen pat + zlen b.
Proof. intros [-> _]. zlia. Qed.

Lemma first_at_json json k a b : k <> [] -> first_at json (quoted k ++ [COLON]) a b ->
  (zlen json =? 0) || (zlen k =? 0) = false /\ 0 <= zlen a < Z.of_nat (S (length json)) /\ zdrop (zlen a + zlen k + 3) json = b.
Proof.
  intros Hk Hf. pose proof (first_at_len _ _ _ _ Hf) as Hl. assert (0 < zlen k) by (destruct k; [done|zlia]).
  pose proof (zlen_nonneg a). pose proof (zlen_nonneg b). autorewrite with zlist in Hl. split_and!.
  - rewrite !(proj2 (Z.eqb_neq _ 0)) by lia. done.
  - lia.
  - unfold zlen in *. lia.
  - destruct Hf as [-> _]. rewrite app_assoc. apply zdrop_app. zlia.
Qed.

Lemma json_string json k s a b : k <> [] -> QUOTE ∉ s -> first_at json (quoted k ++ [COLON]) a (quoted s ++ b) -> json_find_string json k = Some s.
Proof.
  intros Hk Hs Hf. destruct (first_at_json _ _ _ _ Hk Hf) as (Hz & Ha & Hd). unfold json_find_string. rewrite Hz.
  apply (json_find_first _ json k _ 0 a (quoted s ++ b)); [done|done| |lia|lia].
  assert (json = (a ++ quoted k ++ [COLON]) ++ QUOTE :: s ++ QUOTE :: b) as E by (destruct Hf as [-> _]; app_eq).
  rewrite E at 1. rewrite at_middle by zlia. rewrite Z.eqb_refl. cbn zeta. f_equal.
  assert (json = ((a ++ quoted k ++ [COLON]) ++ [QUOTE]) ++ s ++ QUOTE :: b) as E1 by (rewrite E; app_eq).
  rewrite E1, find_from by zlia. rewrite find_char_app by done. f_equal. apply substr_middle; zlia.
Qed.

Lemma json_int json k ds a b : k <> [] -> ds <> [] -> Forall is_digit ds -> no_digit_next b -> first_at json (quoted k ++ [COLON]) a (ds ++ b) ->
  json_find_int json k = Some (Z.min INT64_MAX (decimal ds)).
Proof.
  intros Hk Hn Hds Hb Hf. destruct (first_at_json _ _ _ _ Hk Hf) as (Hz & Ha & Hd). unfold json_find_int. rewrite Hz.
  apply (json_find_first _ json k _ 0 a (ds ++ b)); [done|by destruct ds| |lia|lia]. cbn zeta.
  destruct Hds as [|c ds Hc Hds]; [done|].
  assert (at_ json (zlen a + zlen k + 3) = c) as ->.
  { replace json with ((a ++ quoted k ++ [COLON]) ++ c :: ds ++ b) by (destruct Hf as [-> _]; app_eq). apply at_middle. zlia. }
  rewrite digit_test, bool_decide_eq_true_2 by done. rewrite Hd. do 2 f_equal. apply int_digits_decimal; [by constructor|done|lia].
Qed.

Lemma json_find_all {A} (P : A -> Prop) value fuel json k pos r : (forall c x, value c = Some (Some x) -> P x) ->
  json_find value fuel json k pos = Some r -> P r.
Proof.
  intros HP. revert pos. induction fuel as [|fuel IH]; intros pos; cbn [json_find]; [done|]. destruct (_ <=? _); [done|].
  destruct (find json [QUOTE] pos) as [q|]; [|done]. destruct (_ <=? _); [done|]. destruct (_ && _); [|apply IH].
  cbn zeta. destruct (_ || _); [apply IH|]. destruct (_ <=? _); [done|]. destruct (value _) as [o|] eqn:E; [|apply IH]. intros ->. by eapply HP.
Qed.

Lemma int_digits_range s acc : 0 <= acc <= INT64_MAX -> 0 <= int_digits s acc <= INT64_MAX.
Proof.
  revert acc. induction s as [|c s IH]; intros acc Ha; cbn [int_digits]; [done|]. rewrite digit_test. case_bool_decide as Hc; [|done].
  unfold is_digit in Hc. cbn zeta. destruct (Z.ltb_spec ((INT64_MAX - (c - 0x30)) / 10) acc); [lia|]. apply IH. Z.div_mod_to_equations. lia.
Qed.

Lemma json_int_range json k n : json_find_int json k = Some n -> 0 <= n <= INT64_MAX.
Proof.
  unfold json_find_int. destruct (_ || _); [done|]. apply (json_find_all (fun n => 0 <= n <= INT64_MAX)). intros c x. cbn zeta. destruct (_ && _); [|done].
  intros [= <-]. apply int_digits_range. lia.
Qed.

Lemma json_absent json k : ~ occurs (quoted k ++ [COLON]) json -> json_find_string json k = None /\ json_find_int json k = None.
Proof. intros Hno. unfold json_find_string, json_find_int. destruct (_ || _); [done|]. split; by apply json_find_none. Qed.

(** ** Parsing a signed token *)

Lemma find_dots_fields tgt token h p s : fields token h p s -> find_dots tgt token = Some (zlen h, zlen h + 1 + zlen p).
Proof.
  intros Hf. pose proof (fields_find _ _ _ _ Hf) as (E1 & E2 & _). destruct Hf as (E & _). pose proof (zlen_nonneg h). pose proof (zlen_nonneg p). pose proof (zlen_nonneg s).
  assert (zlen token = zlen h + (zlen p + (zlen s + 1) + 1)) as Hl by (rewrite E; zlia).
  assert (forall i q, 0 <= i <= zlen token -> find token [DOT] i = Some q -> dot_from (length token) tgt token i = q) as Hd.
  { intros i q Hi. unfold find. rewrite (proj2 (Z.ltb_ge _ _)) by lia. intros Ei. rewrite dot_from_find by lia. by rewrite Ei. }
  unfold find_dots. cbn zeta. rewrite (Hd 0 (zlen h)), (Hd (zlen h + 1) (zlen h + 1 + zlen p)) by (done || lia).
  rewrite !(proj2 (Z.leb_gt _ _)) by lia. done.
Qed.

Lemma alpha_is_base64url s : Forall (fun c => c ∈ kUrlAlpha) s -> is_base64url s = true.
Proof.
  intros Hs. apply forallb_forall. intros c Hc. rewrite Forall_forall in Hs. apply list_elem_of_In in Hc. specialize (Hs c Hc).
  revert c Hs Hc. assert (Forall (fun c => is_base64url [c] = true) kUrlAlpha) as H by (vm_compute; repeat constructor).
  intros c Hs _. rewrite Forall_forall in H. specialize (H c Hs). cbn [is_base64url forallb] in H. by rewrite andb_true_r in H.
Qed.

Lemma zlen_base64url neon data : all_bytes data -> zlen (base64url_encode neon data false) = base64_encoded_size_nopad (zlen data).
Proof. intros Hd. rewrite base64url_encode_eq by done. apply zlen_encoded. Qed.

Lemma header_bytes : all_bytes kHeader.
Proof. vm_compute. repeat constructor; discriminate. Qed.

Lemma parse_signed neon t tgt pl key : all_bytes pl -> pl <> [] -> zlen (encode_jwt_hs256 neon t pl key) <= kMaxTokenLen ->
  exists sig, parse tgt (encode_jwt_hs256 neon t pl key) = Some (mkView (base64url_encode neon kHeader false) (base64url_encode neon pl false) sig) /\ zlen pl <= 8192.
Proof.
  intros Hb Hp Hl. pose proof (encode_fields neon t pl key Hb) as Hf. set (token := encode_jwt_hs256 neon t pl key) in *.
  set (h := base64url_encode neon kHeader false) in *. set (p := base64url_encode neon pl false) in *. set (s := base64url_encode neon (rfc_hmac _ _ _) false) in *.
  assert (zlen h = 36) as Hh by (unfold h; rewrite zlen_base64url by apply header_bytes; by vm_compute).
  assert (0 < zlen pl) by (destruct pl; [done|zlia]).
  assert (zlen p = base64_encoded_size_nopad (zlen pl)) as Hpl by by apply zlen_base64url. unfold base64_encoded_size_nopad in Hpl.
  exists s. unfold parse. rewrite (find_dots_fields _ _ _ _ _ Hf). destruct Hf as (E & _). pose proof (zlen_nonneg s).
  assert (zlen token = 36 + (zlen p + (zlen s + 1) + 1)) as Hz by (rewrite E, <- Hh; zlia).
  assert (zlen pl <= zlen p /\ 0 < zlen p) as [Hle Hpos] by (Z.div_mod_to_equations; lia).
  split; [|lia]. rewrite (proj2 (Z.eqb_neq _ 0)), (proj2 (Z.ltb_ge _ _)) by lia. cbn [orb].
  assert (substr token 0 (zlen h) = h) as -> by (rewrite E; by apply substr_prefix).
  assert (substr token (zlen h + 1) (zlen h + 1 + zlen p - zlen h - 1) = p) as ->.
  { replace token with ((h ++ [DOT]) ++ p ++ DOT :: s) by (rewrite E, <- app_assoc; done). apply substr_middle; zlia. }
  assert (zdrop (zlen h + 1 + zlen p + 1) token = s) as ->.
  { replace token with ((h ++ [DOT] ++ p ++ [DOT]) ++ s) by (rewrite E, <- !app_assoc; done). apply zdrop_app. zlia. }
  rewrite !(proj2 (Z.eqb_neq _ 0)) by lia. cbn [orb].
  assert (is_base64url h = true) as -> by apply alpha_is_base64url, base64url_chars, header_bytes.
  assert (is_base64url p = true) as -> by by apply alpha_is_base64url, base64url_chars. done.
Qed.

(** The parser of the middlewares, with any of its vector scans, accepts every signed
    token of a non-empty payload within its length limit, and its claims are those of the
    payload: a string claim is the text after the first quoted key and colon, an integer
    claim the decimal number there, saturated at 2^63 - 1, and a claim that does not occur
    is absent.  A token is expired when the current time is past the [exp] claim plus the
    leeway, saturated as 64-bit numbers. *)
Theorem jwt_claims neon t tgt pl key :
  all_bytes pl -> pl <> [] -> zlen (encode_jwt_hs256 neon t pl key) <= kMaxTokenLen ->
  exists v, parse tgt (encode_jwt_hs256 neon t pl key) = Some v /\
    (forall k s a b, k <> [] -> QUOTE ∉ s -> first_at pl (quoted k ++ [COLON]) a (quoted s ++ b) -> claim v k = Some s) /\
    (forall k ds a b, k <> [] -> ds <> [] -> Forall is_digit ds -> no_digit_next b -> first_at pl (quoted k ++ [COLON]) a (ds ++ b) ->
      claim_int v k = Some (Z.min INT64_MAX (decimal ds))) /\
    (forall k, ~ occurs (quoted k ++ [COLON]) pl -> claim v k = None /\ claim_int v k = None) /\
    (forall now leeway, INT64_MIN <= leeway <= INT64_MAX ->
      is_expired v now leeway = match claim_int v (chars "exp") with
                                | Some exp => Z.max INT64_MIN (Z.min INT64_MAX (exp + leeway)) <? now
                                | None => false
                                end).
Proof.
  intros Hb Hp Hl. destruct (parse_signed neon t tgt pl key Hb Hp Hl) as (sig & E & Hlen). eexists. split; [exact E|].
  assert (0 < zlen pl) by (destruct pl; [done|zlia]).
  assert (claim_decode (base64url_encode neon pl false) 8192 = pl) as Hdec by by apply claim_decode_encode.
  unfold claim, claim_int. cbn [payload]. rewrite Hdec, (proj2 (Z.eqb_neq _ 0)) by lia. split_and!.
  - intros k s a b. apply json_string.
  - intros k ds a b. apply json_int.
  - intros k. apply json_absent.
  - intros now leeway Hle. unfold is_expired, claim_int. cbn [payload]. rewrite Hdec, (proj2 (Z.eqb_neq _ 0)) by lia.
    destruct (json_find_int pl (chars "exp")) as [exp|] eqn:Ee; [|done]. cbn zeta. f_equal. apply json_int_range in Ee.
    rewrite (proj2 (Z.ltb_ge _ _)) by lia. cbn [orb]. destruct (Z.ltb_spec INT64_MAX (exp + leeway)); [|lia].
    rewrite (proj2 (Z.ltb_lt 0 leeway)) by lia. lia.
Qed.

(** A space after the colon hides a claim: the token never expires. *)
Theorem spaced_claim_ignored :
  let pl := [0x7B] ++ quoted (chars "exp") ++ [COLON] ++ chars " 1" ++ [0x7D] in
  match parse Scalar (encode_jwt_hs256 false detail256.Scalar pl (chars "key")) with
  | Some v => claim_int v (chars "exp") = None /\ is_expired v (2 ^ 62) 0 = false
  | None => False
  end.
Proof. vm_compute. split; reflexivity. Qed.

(** ** Witnesses *)

Lemma jwt_claims_witness :
  let pl := [0x7B] ++ quoted (chars "sub") ++ [COLON] ++ quoted (chars "u1") ++ [0x2C] ++ quoted (chars "exp") ++ [COLON] ++ chars "99" ++ [0x7D] in
  let token := encode_jwt_hs256 true detail256.Scalar pl (chars "key") in
  verify_jwt_hs256 detail256.Scalar token (chars "key") = Ok pl /\
  exists v, parse Avx2 token = Some v /\ claim v (chars "sub") = Some (chars "u1") /\ claim_int v (chars "exp") = Some 99 /\ is_expired v 100 0 = true.
Proof.
  cbn zeta. set (pl := [0x7B] ++ _). assert (all_bytes pl) as Hb by (vm_compute; repeat constructor; discriminate).
  split; [vm_compute; reflexivity|].
  destruct (jwt_claims true detail256.Scalar Avx2 pl (chars "key") Hb) as (v & E & _ & _ & _ & He); [discriminate|by vm_compute|].
  exists v. split; [exact E|]. specialize (He 100 0 ltac:(split; discriminate)). vm_compute in E. injection E as <-.
  split_and!; [vm_compute; reflexivity..|]. rewrite He. vm_compute. reflexivity.
Defined.
