(* ===== verification/Aead.v ===== *)
(** * ChaCha20-Poly1305 and the sealed box

    [crypto/chacha20_poly1305.hpp] and the encryption half of [crypto/secretbox.hpp].
    The output spans are buffers the caller provides: an operation returns its result
    together with the buffer as it leaves it.  The theorems: the tag is the one of RFC
    8439, section 2.8; [open] decrypts exactly when the tag is that one and writes
    nothing otherwise; a sealed box opens to its content. *)

From S2P Require Import Prelude BlockStream Poly1305 ChaCha20.

(** ** The construction *)

Definition poly_otk (key nonce : bytes) : bytes :=
  ztake 32 (keystream_block (new_cipher key nonce 0) 0).

Definition pad_to_16 (mac : Poly1305) (len : Z) : Poly1305 :=
  let rem := len mod 16 in
  if rem =? 0 then mac else update mac (replicate (Z.to_nat (16 - rem)) 0).

Definition build_tag (otk aad ciphertext : bytes) : bytes :=
  let mac := init otk in
  let mac := update mac aad in
  let mac := pad_to_16 mac (zlen aad) in
  let mac := update mac ciphertext in
  let mac := pad_to_16 mac (zlen ciphertext) in
  let lens := le_bytes 8 (zlen aad) ++ le_bytes 8 (zlen ciphertext) in
  finish (update mac lens).

(** [chacha20_poly1305_seal] into a separate buffer: the result, the buffer and the tag. *)
Definition seal (neon : bool) (key nonce aad plaintext ciphertext tag : bytes) : result unit * bytes * bytes :=
  if zlen ciphertext <? zlen plaintext then (Err invalid_argument, ciphertext, tag) else
  let otk := poly_otk key nonce in
  let ciphertext := store ciphertext 0 (xor_stream neon key nonce 1 plaintext) in
  (Ok tt, ciphertext, build_tag otk aad (ztake (zlen plaintext) ciphertext)).

(** The variant in place: the data and the tag. *)
Definition seal_in_place (neon : bool) (key nonce aad data : bytes) : bytes * bytes :=
  let otk := poly_otk key nonce in
  let data := xor_stream neon key nonce 1 data in
  (data, build_tag otk aad data).

Definition open (neon : bool) (key nonce aad ciphertext tag plaintext : bytes) : result unit * bytes :=
  if zlen plaintext <? zlen ciphertext then (Err invalid_argument, plaintext) else
  let otk := poly_otk key nonce in
  let expected := build_tag otk aad ciphertext in
  if negb (ct_diff expected tag =? 0) then (Err bad_message, plaintext) else
  (Ok tt, store plaintext 0 (xor_stream neon key nonce 1 ciphertext)).

Definition open_in_place (neon : bool) (key nonce aad data tag : bytes) : result unit * bytes :=
  let otk := poly_otk key nonce in
  let expected := build_tag otk aad data in
  if negb (ct_diff expected tag =? 0) then (Err bad_message, data) else
  (Ok tt, xor_stream neon key nonce 1 data).

(** ** [seal_easy] and [open_easy] *)

Definition kSecretboxOverhead : Z := 12 + 16.

(** [nonce_r] is what [random_bytes<12>()] returned. *)
Definition seal_easy (neon : bool) (nonce_r : result bytes) (key plaintext aad : bytes) : result bytes :=
  match nonce_r with
  | Err e => Err e
  | Ok nonce =>
      let out := replicate (Z.to_nat (kSecretboxOverhead + zlen plaintext)) 0 in
      let out := store out 0 nonce in
      let tag := replicate 16 0 in
      match seal neon key nonce aad plaintext (ztake (zlen plaintext) (zdrop 12 out)) tag with
      | (Err e, _, _) => Err e
      | (Ok _, body, tag) => Ok (store (store out 12 body) (12 + zlen plaintext) tag)
      end
  end.

Definition open_easy (neon : bool) (key sealed aad : bytes) : result bytes :=
  if zlen sealed <? kSecretboxOverhead then Err bad_message else
  let nonce := ztake 12 sealed in
  let ct_len := zlen sealed - kSecretboxOverhead in
  let tag := ztake 16 (zdrop (12 + ct_len) sealed) in
  let pt := replicate (Z.to_nat ct_len) 0 in
  match open neon key nonce aad (ztake ct_len (zdrop 12 sealed)) tag pt with
  | (Err e, _) => Err e
  | (Ok _, pt) => Ok pt
  end.

(** ** RFC 8439, section 2.8 *)

Definition pad16 (x : bytes) : bytes := replicate (Z.to_nat (- zlen x mod 16)) 0.

Definition mac_data (aad ciphertext : bytes) : bytes :=
  aad ++ pad16 aad ++ ciphertext ++ pad16 ciphertext ++
  le_bytes 8 (zlen aad) ++ le_bytes 8 (zlen ciphertext).

Definition rfc_tag (key nonce aad ciphertext : bytes) : bytes :=
  rfc_poly1305 (ztake 32 (block_scalar key nonce 0)) (mac_data aad ciphertext).

#[local] Opaque block_scalar xor_stream encrypt_at rfc_poly1305.

Lemma pad_to_16_streamed st msg c x :
  streamed 16 process_block st msg c -> streamed 16 process_block st (msg ++ pad16 x) (pad_to_16 c (zlen x)).
Proof.
  intros Hc. unfold pad_to_16, pad16. destruct (Z.eqb_spec (zlen x mod 16) 0) as [E|E].
  - rewrite Z.mod_opp_l_z by lia. by rewrite app_nil_r.
  - rewrite Z.mod_opp_l_nz by lia. apply streamed_update; [lia|done].
Qed.

(** The tag is the one of the RFC. *)
Lemma build_tag_rfc key nonce aad ct : all_bytes aad -> all_bytes ct ->
  build_tag (poly_otk key nonce) aad ct = rfc_tag key nonce aad ct.
Proof.
  intros Ha Hc. unfold build_tag, rfc_tag, poly_otk, keystream_block, new_cipher. cbn [key_ nonce_].
  set (otk := ztake 32 _). unfold update. apply finish_streamed.
  - apply Forall_ztake, block_bytes.
  - unfold otk. rewrite zlen_ztake; [done|]. rewrite zlen_block. lia.
  - unfold mac_data, pad16. repeat (apply Forall_app; split); auto using zeros_bytes, le_bytes_range.
  - assert (mac_data aad ct = (((([] ++ aad) ++ pad16 aad) ++ ct) ++ pad16 ct) ++
      (le_bytes 8 (zlen aad) ++ le_bytes 8 (zlen ct))) as ->
      by (unfold mac_data; rewrite <- !app_assoc; reflexivity).
    apply streamed_update; [lia|]. apply pad_to_16_streamed. apply streamed_update; [lia|].
    apply pad_to_16_streamed. apply streamed_update; [lia|]. apply streamed_init. lia.
Qed.

Lemma zlen_build_tag key nonce aad ct : all_bytes aad -> all_bytes ct ->
  length (build_tag (poly_otk key nonce) aad ct) = 16%nat.
Proof.
  intros Ha Hc. rewrite build_tag_rfc by done. unfold rfc_tag. apply length_rfc_poly1305.
Qed.

Lemma zlen_xor_stream neon key nonce c src : in_range 32 c -> zlen (xor_stream neon key nonce c src) = zlen src.
Proof. intros Hc. by rewrite xor_stream_spec, zlen_encrypt_at. Qed.

Lemma block1 : in_range 32 1.
Proof. by vm_compute. Qed.

(** What [seal] leaves in the caller's buffers. *)
Lemma seal_ok neon key nonce aad pt buf tag : zlen pt <= zlen buf ->
  seal neon key nonce aad pt buf tag =
  (Ok tt, encrypt_at key nonce 1 0 pt ++ zdrop (zlen pt) buf,
   build_tag (poly_otk key nonce) aad (encrypt_at key nonce 1 0 pt)).
Proof.
  intros Hl. unfold seal. rewrite (proj2 (Z.ltb_ge _ _)) by lia.
  rewrite store_0, xor_stream_spec, zlen_encrypt_at by apply block1.
  by rewrite ztake_app by (by rewrite zlen_encrypt_at).
Qed.

(** C13.  [open] refuses a short output buffer; otherwise it compares the tag with the
    one RFC 8439 defines, and only if they are equal writes the decryption, with the
    keystream from block 1, to the start of the buffer.  A refused call leaves the
    buffer as it was.  [open_in_place] does the same on the ciphertext itself. *)
Theorem aead_open_exact neon key nonce aad ct tag buf :
  all_bytes aad -> all_bytes ct -> zlen tag = 16 ->
  open neon key nonce aad ct tag buf =
    (if zlen buf <? zlen ct then (Err invalid_argument, buf) else
     if bool_decide (tag = rfc_tag key nonce aad ct)
     then (Ok tt, encrypt_at key nonce 1 0 ct ++ zdrop (zlen ct) buf)
     else (Err bad_message, buf)) /\
  open_in_place neon key nonce aad ct tag =
    (if bool_decide (tag = rfc_tag key nonce aad ct) then (Ok tt, encrypt_at key nonce 1 0 ct) else (Err bad_message, ct)).
Proof.
  intros Ha Hc Ht. unfold open, open_in_place.
  rewrite ct_diff_eq by (rewrite zlen_build_tag by done; unfold zlen in Ht; lia).
  rewrite build_tag_rfc by done.
  rewrite (bool_decide_ext (rfc_tag key nonce aad ct = tag) (tag = rfc_tag key nonce aad ct)) by (split; congruence).
  rewrite store_0, xor_stream_spec, zlen_encrypt_at by apply block1.
  destruct (zlen buf <? zlen ct); case_bool_decide; split; reflexivity.
Qed.

(** Opening what was sealed, with any tag buffer and with room for the plaintext. *)
Lemma open_seal neon neon' key nonce aad pt out :
  zlen pt <= zlen out ->
  let ct := encrypt_at key nonce 1 0 pt in
  open neon' key nonce aad ct (build_tag (poly_otk key nonce) aad ct) out = (Ok tt, pt ++ zdrop (zlen pt) out) /\
  seal_in_place neon key nonce aad pt = (ct, build_tag (poly_otk key nonce) aad ct) /\
  open_in_place neon' key nonce aad ct (build_tag (poly_otk key nonce) aad ct) = (Ok tt, pt).
Proof.
  intros Hl ct. unfold open, seal_in_place, open_in_place, ct.
  rewrite ct_diff_eq, bool_decide_eq_true_2, zlen_encrypt_at by reflexivity. cbn [negb].
  rewrite (proj2 (Z.ltb_ge _ _)) by lia.
  rewrite !xor_stream_spec, encrypt_at_involutive by apply block1. rewrite store_0. split_and!; reflexivity.
Qed.

Lemma zlen_rfc_tag key nonce aad ct : zlen (rfc_tag key nonce aad ct) = 16.
Proof. unfold rfc_tag, zlen. by rewrite length_rfc_poly1305. Qed.

(** A box sealed under the nonce the generator returned is the nonce, the
    ciphertext and the tag of the RFC, and opens to the plaintext with the same key and
    associated data; a box shorter than nonce and tag is refused. *)
Theorem secretbox_roundtrip neon neon' nonce key pt aad :
  zlen nonce = 12 -> all_bytes pt -> all_bytes aad ->
  (exists box, seal_easy neon (Ok nonce) key pt aad = Ok box /\
    box = nonce ++ encrypt_at key nonce 1 0 pt ++ rfc_tag key nonce aad (encrypt_at key nonce 1 0 pt) /\
    open_easy neon' key box aad = Ok pt) /\
  forall short, zlen short < 28 -> open_easy neon' key short aad = Err bad_message.
Proof.
  intros Hn Hp Ha. split.
  2: { intros short Hs. unfold open_easy. rewrite (proj2 (Z.ltb_lt _ _)) by exact Hs. reflexivity. }
  pose proof (build_tag_rfc key nonce aad _ Ha (encrypt_at_bytes key nonce 1 0 pt Hp)) as Htag.
  pose proof (open_seal neon neon' key nonce aad pt (replicate (length pt) 0) ltac:(zlia || unfold zlen; rewrite length_replicate; lia)) as [Hopen _].
  rewrite Htag in Hopen. set (ct := encrypt_at key nonce 1 0 pt) in *. set (tag := rfc_tag key nonce aad ct) in *.
  assert (zlen ct = zlen pt) as Hct by apply zlen_encrypt_at. assert (zlen tag = 16) as Htl by apply zlen_rfc_tag.
  pose proof (zlen_nonneg pt).
  exists (nonce ++ ct ++ tag). split; [|split; [reflexivity|]].
  - unfold seal_easy. rewrite store_0, Hn. set (z := zdrop 12 (replicate _ _)).
    assert (zlen z = zlen pt + 16) as Hz by (unfold z, kSecretboxOverhead; rewrite zlen_zdrop; rewrite zlen_replicate; lia).
    rewrite zdrop_app, seal_ok by (rewrite ?zlen_ztake; lia). fold ct. rewrite Htag.
    rewrite zdrop_all, app_nil_r by (rewrite zlen_ztake; lia).
    rewrite (store_at nonce) by lia. rewrite app_assoc, (store_at (nonce ++ ct)), zdrop_all, app_nil_r by (rewrite ?zlen_app, ?zlen_zdrop; lia).
    by rewrite app_assoc.
  - unfold open_easy. rewrite !zlen_app, Hn, Hct, Htl. rewrite (proj2 (Z.ltb_ge _ _)) by (unfold kSecretboxOverhead; lia).
    replace (12 + (zlen pt + 16) - kSecretboxOverhead) with (zlen pt) by (unfold kSecretboxOverhead; lia).
    rewrite ztake_app, zdrop_app, ztake_app by lia.
    rewrite app_assoc, zdrop_app, ztake_all by (rewrite ?zlen_app; lia).
    unfold zlen at 1. rewrite Nat2Z.id, Hopen, zdrop_all, app_nil_r by (rewrite zlen_replicate; unfold zlen; lia). reflexivity.
Qed.

(** ** Witnesses *)

Lemma aead_open_exact_witness :
  open true (seqZ 0 32) (replicate 12 0) [] [1; 2] (replicate 16 0) [9; 9; 9] = (Err bad_message, [9; 9; 9]).
Proof.
  rewrite (proj1 (aead_open_exact true (seqZ 0 32) (replicate 12 0) [] [1; 2] (replicate 16 0) [9; 9; 9]
    (Forall_nil_2 _) ltac:(vm_compute; repeat constructor; discriminate) eq_refl)).
  vm_compute. reflexivity.
Defined.

Lemma secretbox_roundtrip_witness :
  exists box, seal_easy true (Ok (replicate 12 7)) (seqZ 0 32) [1; 2; 3] [] = Ok box /\
  open_easy false (seqZ 0 32) box [] = Ok [1; 2; 3].
Proof.
  destruct (secretbox_roundtrip true false (replicate 12 7) (seqZ 0 32) [1; 2; 3] [] eq_refl) as [(box & H1 & _ & H2) _];
    [vm_compute; repeat constructor; discriminate|constructor|].
  exists box. split; [exact H1|exact H2].
Defined.
