(* ===== verification/TimerWheel.v ===== *)
(** * The hierarchical timing wheel: [core/timer_wheel.hpp]

    Four levels of 256 slots over a virtual millisecond clock.  An [Entry] is kept
    under its timer id, which stands for its address; a slot's intrusive list is the
    list of the ids linked into it, head first.  Callbacks are taken not to call back
    into the wheel: firing a timer adds its id to the list of fired timers.  The pool
    is its number of free entries.

    The wheel is shown to implement a flat table of timers that fires each timer at a
    due time fixed when it is scheduled; the due time is the expiry, except for the
    two boundary cases that [due_at] names. *)

From stdpp Require Import gmap.
From S2P Require Import Prelude.
#[local] Open Scope Z_scope.
#[local] Open Scope word_scope.

(** ** The wheel *)

Definition LEVELS : Z := 4.
Definition SLOTS_PER_LEVEL : Z := 256.
Definition kInvalid : Z := 0.

Definition kSlotMs (lv : Z) : Z :=
  if lv =? 0 then 1 else if lv =? 1 then 256 else if lv =? 2 then 65536 else 16777216.

Record Entry := mkEntry { expiry_ms : Z; level_ : Z; slot_ : Z }.

Record TimerWheel := mkWheel {
  pool_free : Z;
  slots_ : gmap (Z * Z) (list Z);
  index_ : gmap Z Entry;
  current_ms_ : Z;
  next_id_ : Z;
  count_ : Z;
  cached_min_expiry_ : Z;
  min_valid_ : bool;
}.

(** [TimerWheel(pool_capacity)]. *)
Definition new (pool_capacity : Z) : TimerWheel :=
  mkWheel pool_capacity ∅ ∅ 0 1 0 UINT64_MAX false.

(** The list a slot heads; a slot never written is [nullptr]. *)
Definition slot_list (w : TimerWheel) (lv sl : Z) : list Z := default [] (slots_ w !! (lv, sl)).

Definition set_slot (lv sl : Z) (l : list Z) (w : TimerWheel) : TimerWheel :=
  mkWheel (pool_free w) (<[(lv, sl) := l]> (slots_ w)) (index_ w) (current_ms_ w) (next_id_ w)
    (count_ w) (cached_min_expiry_ w) (min_valid_ w).

Definition set_index (m : gmap Z Entry) (w : TimerWheel) : TimerWheel :=
  mkWheel (pool_free w) (slots_ w) m (current_ms_ w) (next_id_ w) (count_ w)
    (cached_min_expiry_ w) (min_valid_ w).

Definition set_min (z : Z) (b : bool) (w : TimerWheel) : TimerWheel :=
  mkWheel (pool_free w) (slots_ w) (index_ w) (current_ms_ w) (next_id_ w) (count_ w) z b.

(** The level whose resolution fits the remaining time. *)
Definition level_of (delta : Z) : Z :=
  if kSlotMs 3 <=? delta then 3 else
  if kSlotMs 2 <=? delta then 2 else
  if kSlotMs 1 <=? delta then 1 else 0.

(** Link an entry at the head of its slot. *)
Definition insert (id expiry : Z) (w : TimerWheel) : TimerWheel :=
  let delta := if current_ms_ w <? expiry then expiry - current_ms_ w else 0 in
  let lv := level_of delta in
  let sl := if lv =? 0 then expiry .& (SLOTS_PER_LEVEL - 1)
            else (expiry / kSlotMs lv) .& (SLOTS_PER_LEVEL - 1) in
  let w := set_index (<[id := mkEntry expiry lv sl]> (index_ w)) w in
  set_slot lv sl (id :: slot_list w lv sl) w.

Definition unlink (lv sl id : Z) (w : TimerWheel) : TimerWheel :=
  set_slot lv sl (filter (fun i => i <> id) (slot_list w lv sl)) w.

Definition schedule (delay_ms : Z) (w : TimerWheel) : Z * TimerWheel :=
  if pool_free w =? 0 then (kInvalid, w) else
  let id := if next_id_ w =? kInvalid then 1 else next_id_ w in
  let expiry := u64 (current_ms_ w + delay_ms) in
  let w := mkWheel (pool_free w - 1) (slots_ w) (index_ w) (current_ms_ w) (u64 (id + 1))
             (count_ w) (cached_min_expiry_ w) (min_valid_ w) in
  let w := insert id expiry w in
  let w := mkWheel (pool_free w) (slots_ w) (index_ w) (current_ms_ w) (next_id_ w)
             (count_ w + 1) (cached_min_expiry_ w) (min_valid_ w) in
  (id, if min_valid_ w && (expiry <? cached_min_expiry_ w) then set_min expiry (min_valid_ w) w else w).

(** Give an entry back to the pool and forget it. *)
Definition release (id : Z) (e : Entry) (w : TimerWheel) : TimerWheel :=
  mkWheel (pool_free w + 1) (slots_ w) (delete id (index_ w)) (current_ms_ w) (next_id_ w)
    (count_ w - 1) (cached_min_expiry_ w)
    (if min_valid_ w && (expiry_ms e <=? cached_min_expiry_ w) then false else min_valid_ w).

Definition cancel (id : Z) (w : TimerWheel) : bool * TimerWheel :=
  if id =? kInvalid then (false, w) else
  match index_ w !! id with
  | None => (false, w)
  | Some e => (true, release id e (unlink (level_ e) (slot_ e) id w))
  end.

(** The loop of [fire_slot] over the detached list; every linked id is in the index. *)
Fixpoint fire_list (ids : list Z) (w : TimerWheel) : list Z * TimerWheel :=
  match ids with
  | [] => ([], w)
  | id :: ids =>
      match index_ w !! id with
      | None => fire_list ids w
      | Some e =>
          if expiry_ms e <=? current_ms_ w then
            let '(fired, w) := fire_list ids (release id e w) in (id :: fired, w)
          else fire_list ids (insert id (expiry_ms e) w)
      end
  end.

Definition fire_slot (lv sl : Z) (w : TimerWheel) : list Z * TimerWheel :=
  fire_list (slot_list w lv sl) (set_slot lv sl [] w).

Fixpoint reinsert (ids : list Z) (w : TimerWheel) : TimerWheel :=
  match ids with
  | [] => w
  | id :: ids =>
      match index_ w !! id with
      | None => reinsert ids w
      | Some e => reinsert ids (insert id (expiry_ms e) w)
      end
  end.

Definition cascade (lv sl : Z) (w : TimerWheel) : TimerWheel :=
  reinsert (slot_list w lv sl) (set_slot lv sl [] w).

(** [for (lv = 1; lv < LEVELS; ++lv)] from level [lv] on, [n] levels left. *)
Fixpoint cascades (n : nat) (lv : Z) (w : TimerWheel) : TimerWheel :=
  match n with
  | O => w
  | S n =>
      if current_ms_ w mod kSlotMs lv =? 0
      then cascades n (lv + 1)
             (cascade lv ((current_ms_ w / kSlotMs lv) .& (SLOTS_PER_LEVEL - 1)) w)
      else w
  end.

(** One turn of the loop of [tick]. *)
Definition tick1 (w : TimerWheel) : list Z * TimerWheel :=
  let w := mkWheel (pool_free w) (slots_ w) (index_ w) (current_ms_ w + 1) (next_id_ w)
             (count_ w) (cached_min_expiry_ w) (min_valid_ w) in
  let '(fired, w) := fire_slot 0 (current_ms_ w .& (SLOTS_PER_LEVEL - 1)) w in
  (fired, cascades 3 1 w).

(** [while (current_ms_ < target)]; each turn advances the clock by one. *)
Fixpoint ticks (n : nat) (w : TimerWheel) : list Z * TimerWheel :=
  match n with
  | O => ([], w)
  | S n =>
      let '(fired, w) := tick1 w in
      let '(fired', w) := ticks n w in (fired ++ fired', w)
  end.

Definition tick (elapsed_ms : Z) (w : TimerWheel) : list Z * TimerWheel :=
  let target := u64 (current_ms_ w + elapsed_ms) in
  ticks (Z.to_nat (target - current_ms_ w)) w.

(** The earliest expiry of the index. *)
Definition earliest (m : gmap Z Entry) : Z :=
  map_fold (fun _ e acc => if expiry_ms e <? acc then expiry_ms e else acc) UINT64_MAX m.

Definition next_expiry_ms (w : TimerWheel) : Z * TimerWheel :=
  if count_ w =? 0 then (UINT64_MAX, w) else
  let w := if min_valid_ w then w else set_min (earliest (index_ w)) true w in
  (if cached_min_expiry_ w <=? current_ms_ w then 0 else cached_min_expiry_ w - current_ms_ w, w).

(** ** The table the wheel implements *)

(** When a timer scheduled at [now] fires.  A timer whose expiry is a multiple of
    256 ms at least 256 ms away is cascaded into level 0 after that tick's slot was
    served, and a timer with delay 0 is put into the slot just served: both wait for
    a full turn of level 0. *)
Definition due_at (now delay : Z) : Z :=
  let expiry := now + delay in
  if (delay =? 0) || ((256 <=? delay) && (expiry mod 256 =? 0)) then expiry + 256 else expiry.

Record table := mkTable {
  now : Z;
  next : Z;
  free : Z;
  timers : gmap Z (Z * Z);  (* id to expiry and due time *)
}.

Inductive op :=
  | Schedule (delay : Z)
  | Cancel (id : Z)
  | Tick (elapsed : Z)
  | NextExpiry.

Inductive res :=
  | Id (id : Z)
  | Found (b : bool)
  | Fired (ids : list Z)
  | Remaining (ms : Z).

Definition wheel_step (o : op) (w : TimerWheel) : res * TimerWheel :=
  match o with
  | Schedule d => let '(id, w) := schedule d w in (Id id, w)
  | Cancel id => let '(b, w) := cancel id w in (Found b, w)
  | Tick n => let '(ids, w) := tick n w in (Fired ids, w)
  | NextExpiry => let '(z, w) := next_expiry_ms w in (Remaining z, w)
  end.

Definition table_tick1 (t : table) : list Z * table :=
  let due := filter (fun p => snd (snd p) = now t + 1) (timers t) in
  (fst <$> map_to_list due,
   mkTable (now t + 1) (next t) (free t + Z.of_nat (size due)) (timers t ∖ due)).

Fixpoint table_ticks (n : nat) (t : table) : list Z * table :=
  match n with
  | O => ([], t)
  | S n =>
      let '(fired, t) := table_tick1 t in
      let '(fired', t) := table_ticks n t in (fired ++ fired', t)
  end.

Definition min_expiry (m : gmap Z (Z * Z)) : Z :=
  map_fold (fun _ p acc => Z.min (fst p) acc) UINT64_MAX m.

Definition table_step (o : op) (t : table) : res * table :=
  match o with
  | Schedule d =>
      if free t =? 0 then (Id kInvalid, t)
      else (Id (next t), mkTable (now t) (next t + 1) (free t - 1)
              (<[next t := (now t + d, due_at (now t) d)]> (timers t)))
  | Cancel id =>
      if bool_decide (is_Some (timers t !! id))
      then (Found true, mkTable (now t) (next t) (free t + 1) (delete id (timers t)))
      else (Found false, t)
  | Tick n => let '(ids, t) := table_ticks (Z.to_nat n) t in (Fired ids, t)
  | NextExpiry =>
      (Remaining (if bool_decide (timers t = ∅) then UINT64_MAX
                  else Z.max 0 (min_expiry (timers t) - now t)), t)
  end.

Fixpoint run {S} (step : op -> S -> res * S) (ops : list op) (s : S) : list res :=
  match ops with
  | [] => []
  | o :: ops => let '(r, s) := step o s in r :: run step ops s
  end.

(** Equal answers; the timers fired by one call may come in any order. *)
Definition same_res (x y : res) : Prop :=
  match x, y with
  | Fired a, Fired b => a ≡ₚ b
  | _, _ => x = y
  end.

(** No clock value, expiry or id reaches 2^64. *)
Definition op_fits (o : op) (t : table) : Prop :=
  match o with
  | Schedule d => 0 <= d /\ now t + d < UINT64_MAX /\ next t + 1 < 2 ^ 64
  | Tick n => 0 <= n /\ now t + n < 2 ^ 64
  | _ => True
  end.

Fixpoint fits (ops : list op) (t : table) : Prop :=
  match ops with
  | [] => True
  | o :: ops => op_fits o t /\ fits ops (snd (table_step o t))
  end.

(** ** The invariant *)

(** Where an entry may be at time [t]: a level-0 entry is within a turn of its slot;
    a higher entry waits for the tick that cascades it, which is still to come, or
    is this one when level [k] and above have not been cascaded yet. *)
Definition placed (k t : Z) (e : Entry) : Prop :=
  let s := kSlotMs (level_ e) in
  let c := s * (expiry_ms e / s) in
  if level_ e =? 0 then slot_ e = expiry_ms e mod 256 /\ t - 256 < expiry_ms e < t + 256
  else 0 < level_ e < 4 /\ slot_ e = (expiry_ms e / s) mod 256 /\
       (if level_ e <? k then t < c else t <= c).

Definition due (t : Z) (e : Entry) : Z :=
  if level_ e =? 0 then if t <? expiry_ms e then expiry_ms e else expiry_ms e + 256
  else if expiry_ms e mod 256 =? 0 then expiry_ms e + 256 else expiry_ms e.

Definition abs (w : TimerWheel) : gmap Z (Z * Z) :=
  (fun e => (expiry_ms e, due (current_ms_ w) e)) <$> index_ w.

(** The links: every linked id is an entry of that slot, every entry is linked where it
    says, once.  [D] are the ids that a loop has detached and not yet handled. *)
Record links (k t : Z) (D : list Z) (slots : Z -> Z -> list Z) (m : gmap Z Entry) : Prop := {
  links_linked : forall lv sl id, id ∈ slots lv sl ->
    exists e, m !! id = Some e /\ level_ e = lv /\ slot_ e = sl /\ id ∉ D;
  links_entry : forall id e, m !! id = Some e ->
    id ∈ D \/ id ∈ slots (level_ e) (slot_ e) /\ placed k t e;
  links_nodup : forall lv sl, NoDup (slots lv sl);
}.

Record wf (k : Z) (D : list Z) (w : TimerWheel) : Prop := {
  wf_links : links k (current_ms_ w) D (slot_list w) (index_ w);
  wf_count : count_ w = Z.of_nat (size (index_ w));
  wf_ids : forall id e, index_ w !! id = Some e -> 0 < id < next_id_ w /\ 0 <= expiry_ms e < UINT64_MAX;
  wf_min : min_valid_ w = true ->
    (exists id e, index_ w !! id = Some e /\ expiry_ms e = cached_min_expiry_ w) /\
    forall id e, index_ w !! id = Some e -> cached_min_expiry_ w <= expiry_ms e;
  wf_next : 0 < next_id_ w < 2 ^ 64;
  wf_now : 0 <= current_ms_ w;
}.

Definition R (w : TimerWheel) (t : table) : Prop :=
  wf 4 [] w /\ current_ms_ w = now t /\ next_id_ w = next t /\ pool_free w = free t /\ abs w = timers t.

(** ** Lemmas *)

Lemma slot_list_set lv sl l w lv' sl' :
  slot_list (set_slot lv sl l w) lv' sl' =
  if decide ((lv, sl) = (lv', sl')) then l else slot_list w lv' sl'.
Proof.
  unfold slot_list. cbn. case_decide as E; [rewrite E; by rewrite lookup_insert_eq|].
  by rewrite lookup_insert_ne.
Qed.

Lemma kSlotMs_cases lv : 0 <= lv < 4 ->
  lv = 0 /\ kSlotMs lv = 1 \/ lv = 1 /\ kSlotMs lv = 256 \/ lv = 2 /\ kSlotMs lv = 65536 \/
  lv = 3 /\ kSlotMs lv = 16777216.
Proof.
  intros. assert (lv = 0 \/ lv = 1 \/ lv = 2 \/ lv = 3) as [-> | [-> | [-> | ->]]] by lia; auto.
Qed.

Lemma kSlotMs_256 lv : 0 < lv < 4 -> exists q, 0 < q /\ kSlotMs lv = q * 256.
Proof.
  intros. destruct (kSlotMs_cases lv) as [[]|[[_ E]|[[_ E]|[_ E]]]]; [lia|lia|..]; rewrite E;
    [exists 1|exists 256|exists 65536]; lia.
Qed.

Lemma kSlotMs_divide l l' : 0 <= l <= l' -> l' < 4 -> (kSlotMs l | kSlotMs l').
Proof.
  intros. destruct (kSlotMs_cases l) as [[-> ->]|[[-> ->]|[[-> ->]|[-> ->]]]]; [lia|..];
  destruct (kSlotMs_cases l') as [[-> ->]|[[-> ->]|[[-> ->]|[-> ->]]]]; try lia;
  [exists 1|exists 256|exists 65536|exists 16777216|exists 1|exists 256|exists 65536|exists 1|exists 256|exists 1];
  reflexivity.
Qed.

Lemma level_of_spec d : 0 <= d ->
  0 <= level_of d < 4 /\ (level_of d = 0 -> d < 256) /\ (0 < level_of d -> 256 <= kSlotMs (level_of d) <= d).
Proof.
  intros. unfold level_of, kSlotMs. cbn.
  destruct (Z.leb_spec 16777216 d), (Z.leb_spec 65536 d), (Z.leb_spec 256 d); cbn; lia.
Qed.

(** The entry [insert] makes. *)
Definition entry_at (t expiry : Z) : Entry :=
  let delta := if t <? expiry then expiry - t else 0 in
  let lv := level_of delta in
  mkEntry expiry lv (if lv =? 0 then expiry mod 256 else (expiry / kSlotMs lv) mod 256).

Lemma insert_eq id expiry w :
  insert id expiry w =
  let e := entry_at (current_ms_ w) expiry in
  set_slot (level_ e) (slot_ e) (id :: slot_list w (level_ e) (slot_ e))
    (set_index (<[id := e]> (index_ w)) w).
Proof.
  unfold insert, entry_at, SLOTS_PER_LEVEL. change (256 - 1) with (2 ^ 8 - 1).
  rewrite !land_mask by lia. done.
Qed.

Lemma entry_at_placed k t expiry : t - 256 < expiry -> placed k t (entry_at t expiry).
Proof.
  intros Ht. unfold placed, entry_at. cbn.
  set (d := if t <? expiry then expiry - t else 0).
  assert (0 <= d) as Hd by (subst d; destruct (Z.ltb_spec t expiry); lia).
  destruct (level_of_spec d Hd) as (Hl & H0 & Hs).
  destruct (Z.eqb_spec (level_of d) 0) as [E|E].
  - split; [done|]. subst d. destruct (Z.ltb_spec t expiry); lia.
  - specialize (Hs ltac:(lia)).
    assert (t < kSlotMs (level_of d) * (expiry / kSlotMs (level_of d))) as Hc.
    { pose proof (Z.div_mod expiry (kSlotMs (level_of d))).
      pose proof (Z.mod_pos_bound expiry (kSlotMs (level_of d))).
      subst d. destruct (Z.ltb_spec t expiry); lia. }
    split_and!; [lia..|]. destruct (_ <? k); lia.
Qed.

Lemma entry_at_due t expiry :
  due t (entry_at t expiry) =
  if (expiry <=? t) || ((256 <=? expiry - t) && (expiry mod 256 =? 0)) then expiry + 256 else expiry.
Proof.
  unfold due, entry_at. cbn.
  set (d := if t <? expiry then expiry - t else 0).
  assert (0 <= d) as Hd by (subst d; destruct (Z.ltb_spec t expiry); lia).
  destruct (level_of_spec d Hd) as (Hl & H0 & Hs). subst d.
  destruct (Z.ltb_spec t expiry), (Z.leb_spec expiry t); try lia; cbn -[level_of] in *.
  - destruct (Z.eqb_spec (level_of (expiry - t)) 0), (Z.leb_spec 256 (expiry - t)); cbn; lia || done.
  - done.
Qed.

Lemma links_insert k t D slots slots' m id e :
  links k t (id :: D) slots m -> id ∉ D -> placed k t e ->
  (forall lv sl, slots' lv sl =
     if decide ((level_ e, slot_ e) = (lv, sl)) then id :: slots lv sl else slots lv sl) ->
  links k t D slots' (<[id := e]> m).
Proof.
  intros [HL HE HN] Hid Hp Hs.
  assert (forall lv sl, id ∉ slots lv sl) as Hfree.
  { intros lv sl Hin. destruct (HL _ _ _ Hin) as (e' & _ & _ & _ & Hn). apply Hn. left. }
  constructor.
  - intros lv sl i Hin. rewrite Hs in Hin.
    assert (i = id /\ (level_ e, slot_ e) = (lv, sl) \/ i ∈ slots lv sl) as [[-> [= <- <-]]|Hi].
    { case_decide as E; [|by right]. rewrite elem_of_cons in Hin. naive_solver. }
    + exists e. rewrite lookup_insert_eq. done.
    + destruct (HL _ _ _ Hi) as (e' & He & H1 & H2 & Hn). exists e'.
      rewrite lookup_insert_ne by (intros ->; by apply (Hfree lv sl)). set_solver.
  - intros i e' He. destruct (decide (i = id)) as [->|Hne].
    + rewrite lookup_insert_eq in He. simplify_eq. right. split; [|done].
      rewrite Hs, decide_True by done. left.
    + rewrite lookup_insert_ne in He by done. destruct (HE _ _ He) as [Hd|[Hi Hpl]]; [set_solver|].
      right. split; [|done]. rewrite Hs. case_decide; [by right|done].
  - intros lv sl. rewrite Hs. case_decide; [|done]. constructor; auto.
Qed.

Lemma links_detach k k' t t' lv0 sl0 slots slots' m :
  links k t [] slots m ->
  (forall lv sl, slots' lv sl = if decide ((lv0, sl0) = (lv, sl)) then [] else slots lv sl) ->
  (forall id e, m !! id = Some e -> (level_ e, slot_ e) <> (lv0, sl0) -> placed k t e -> placed k' t' e) ->
  links k' t' (slots lv0 sl0) slots' m.
Proof.
  intros [HL HE HN] Hs Hp. constructor.
  - intros lv sl i Hin. rewrite Hs in Hin. case_decide as E; [set_solver|].
    destruct (HL _ _ _ Hin) as (e & He & H1 & H2 & _). exists e. split_and!; try done.
    intros Hi. destruct (HL _ _ _ Hi) as (e' & He' & H3 & H4 & _). simplify_eq.
  - intros i e He. destruct (HE _ _ He) as [?|[Hi Hpl]]; [set_solver|].
    destruct (decide ((level_ e, slot_ e) = (lv0, sl0))) as [[= H1 H2]|Hne].
    + left. by rewrite <- H1, <- H2.
    + right. split; [rewrite Hs, decide_False by done; done|]. by eapply Hp.
  - intros lv sl. rewrite Hs. case_decide; [constructor|done].
Qed.

Lemma links_delete k t D slots m id :
  links k t (id :: D) slots m -> id ∉ D -> links k t D slots (delete id m).
Proof.
  intros [HL HE HN] Hid. constructor; [| |done].
  - intros lv sl i Hin. destruct (HL _ _ _ Hin) as (e & He & H1 & H2 & Hn). exists e.
    rewrite lookup_delete_ne by set_solver. set_solver.
  - intros i e He. apply lookup_delete_Some in He as [Hne He].
    destruct (HE _ _ He) as [Hd|?]; [set_solver|by right].
Qed.

Lemma links_fresh k t slots m id : links k t [] slots m -> m !! id = None -> links k t [id] slots m.
Proof.
  intros [HL HE HN] Hid. constructor; [| |done].
  - intros lv sl i Hin. destruct (HL _ _ _ Hin) as (e & He & H1 & H2 & _). exists e.
    split_and!; try done. intros Hi%list_elem_of_singleton. congruence.
  - intros i e He. destruct (HE _ _ He) as [?|?]; [set_solver|by right].
Qed.

(** *** Insertion *)

Lemma reinsert_wf k D id e w :
  wf k (id :: D) w -> id ∉ D -> index_ w !! id = Some e -> current_ms_ w - 256 < expiry_ms e ->
  due (current_ms_ w) (entry_at (current_ms_ w) (expiry_ms e)) = due (current_ms_ w) e ->
  let w' := insert id (expiry_ms e) w in
  wf k D w' /\ abs w' = abs w /\ current_ms_ w' = current_ms_ w /\ next_id_ w' = next_id_ w /\
  pool_free w' = pool_free w.
Proof.
  intros [HL Hc Hi Hm Hn Ht] Hid He Hx Hd. rewrite insert_eq.
  set (e' := entry_at (current_ms_ w) (expiry_ms e)) in *. cbn zeta.
  assert (expiry_ms e' = expiry_ms e) as Hee by done.
  split_and!; try done.
  - constructor; cbn; try done.
    + eapply links_insert; [done|done|by apply entry_at_placed|].
      intros lv sl. rewrite slot_list_set. cbn. case_decide as E; [|done]. by injection E as -> ->.
    + by rewrite map_size_insert_Some by done.
    + intros i f Hf. destruct (decide (i = id)) as [->|]; [|rewrite lookup_insert_ne in Hf by done; eauto].
      rewrite lookup_insert_eq in Hf. simplify_eq. rewrite Hee. eauto.
    + intros Hv. destruct (Hm Hv) as [(i & f & Hf & Hfe) Hlb]. split.
      * destruct (decide (i = id)) as [->|]; [exists id, e'; rewrite lookup_insert_eq; naive_solver|].
        exists i, f. by rewrite lookup_insert_ne.
      * intros j g Hg. destruct (decide (j = id)) as [->|]; [|rewrite lookup_insert_ne in Hg by done; eauto].
        rewrite lookup_insert_eq in Hg. simplify_eq. rewrite Hee. eauto.
  - unfold abs. cbn. rewrite fmap_insert, Hd, Hee. apply insert_id. by rewrite lookup_fmap, He.
Qed.

(** What an entry waiting above level 0 is at a time its slot is visited. *)
Definition waiting (t : Z) (e : Entry) : Prop := 0 < level_ e /\ t <= expiry_ms e.

Lemma waiting_due t e :
  waiting t e -> t mod 256 = 0 -> due t (entry_at t (expiry_ms e)) = due t e.
Proof.
  intros [Hl Hw] Ht. rewrite entry_at_due. unfold due. rewrite (proj2 (Z.eqb_neq (level_ e) 0)) by lia.
  destruct (Z.leb_spec (expiry_ms e) t) as [H|H]; cbn.
  - replace (expiry_ms e) with t by lia. by rewrite Ht.
  - destruct (Z.leb_spec 256 (expiry_ms e - t)); [done|]. cbn.
    destruct (Z.eqb_spec (expiry_ms e mod 256) 0); [|done].
    pose proof (Z.div_mod (expiry_ms e) 256). pose proof (Z.div_mod t 256). lia.
Qed.

Lemma reinsert_all k ids w :
  wf k ids w -> NoDup ids -> current_ms_ w mod 256 = 0 ->
  (forall id, id ∈ ids -> exists e, index_ w !! id = Some e /\ waiting (current_ms_ w) e) ->
  let w' := reinsert ids w in
  wf k [] w' /\ abs w' = abs w /\ current_ms_ w' = current_ms_ w /\ next_id_ w' = next_id_ w /\
  pool_free w' = pool_free w.
Proof.
  revert w. induction ids as [|id ids IH]; intros w Hw Hnd Ht He; cbn; [done|].
  apply NoDup_cons in Hnd as [Hid Hnd].
  destruct (He id) as (e & Hi & Hwa); [left|]. rewrite Hi.
  destruct (reinsert_wf k ids id e w) as (Hw' & Ha & Hc & Hn & Hf); try done.
  { destruct Hwa. lia. }
  { by apply waiting_due. }
  destruct (IH (insert id (expiry_ms e) w)) as (H1 & H2 & H3 & H4 & H5).
  - done.
  - done.
  - by rewrite Hc.
  - intros i Hin. rewrite Hc, insert_eq. cbn. rewrite lookup_insert_ne by (intros ->; done).
    apply He. by right.
  - split_and!; [done|congruence..].
Qed.

Lemma placed_above k t e s :
  placed k t e -> s = kSlotMs (level_ e) -> 0 < level_ e ->
  slot_ e = (expiry_ms e / s) mod 256 /\ t <= s * (expiry_ms e / s) <= expiry_ms e /\
  256 <= s /\ s mod 256 = 0.
Proof.
  intros Hp -> Hl. unfold placed in Hp. rewrite (proj2 (Z.eqb_neq (level_ e) 0)) in Hp by lia.
  destruct Hp as (Hl4 & Hs & Hc). destruct (kSlotMs_cases (level_ e)) as [[]|[[_ E]|[[_ E]|[_ E]]]]; [lia|lia|..];
    rewrite E in *; pose proof (Z.mul_div_le (expiry_ms e) (kSlotMs (level_ e)));
    rewrite E in *; destruct (_ <? k); split_and!; done || lia.
Qed.

Lemma cascade_wf lv w :
  0 < lv < 4 -> wf lv [] w -> current_ms_ w mod kSlotMs lv = 0 ->
  let w' := cascade lv ((current_ms_ w / kSlotMs lv) .& (SLOTS_PER_LEVEL - 1)) w in
  wf (lv + 1) [] w' /\ abs w' = abs w /\ current_ms_ w' = current_ms_ w /\ next_id_ w' = next_id_ w /\
  pool_free w' = pool_free w.
Proof.
  intros Hlv Hw Hm. unfold cascade, SLOTS_PER_LEVEL. change (256 - 1) with (2 ^ 8 - 1).
  rewrite land_mask by lia. change (2 ^ 8) with 256.
  set (t := current_ms_ w) in *. set (sl := (t / kSlotMs lv) mod 256).
  assert (t mod 256 = 0) as Ht.
  { destruct (kSlotMs_256 lv Hlv) as (q & Hq & E). rewrite E in Hm.
    apply Z.mod_divide in Hm as [j Hj]; [|lia]. rewrite Hj.
    replace (j * (q * 256)) with (j * q * 256) by lia. by rewrite Z.mod_mul. }
  destruct Hw as [HL Hc Hi Hmin Hn Hnow].
  assert (forall id, id ∈ slot_list w lv sl ->
    exists e, index_ w !! id = Some e /\ waiting t e) as Hwait.
  { intros id Hin. destruct (links_linked _ _ _ _ _ HL _ _ _ Hin) as (e & He & Hle & Hse & _).
    exists e. split; [done|]. destruct (links_entry _ _ _ _ _ HL _ _ He) as [?|[_ Hp]]; [set_solver|].
    destruct (placed_above _ _ _ _ Hp eq_refl) as (_ & ? & _); [lia|]. split; lia. }
  apply (reinsert_all (lv + 1) (slot_list w lv sl) (set_slot lv sl [] w)); try done.
  2: { apply (links_nodup _ _ _ _ _ HL). }
  constructor; try done. cbn.
  apply (links_detach lv _ t _ lv sl (slot_list w)); [done| |].
  - intros l s'. by rewrite slot_list_set.
  - intros id e He Hne Hp. unfold placed in *. destruct (level_ e =? 0); [done|].
    destruct Hp as (Hl4 & Hs & Hcas). split_and!; [lia..|done|].
    destruct (Z.ltb_spec (level_ e) lv), (Z.ltb_spec (level_ e) (lv + 1)); try lia; try done.
    assert (level_ e = lv) as El by lia. rewrite El in *.
    assert (t <> kSlotMs lv * (expiry_ms e / kSlotMs lv)); [|lia]. intros Et. apply Hne.
    f_equal. rewrite Hs. unfold sl. f_equal. rewrite Et, Z.mul_comm, Z.div_mul; [done|].
    destruct (kSlotMs_256 lv Hlv) as (q & ? & ->). lia.
Qed.

Lemma cascades_wf n lv w :
  0 < lv -> lv + Z.of_nat n = 4 -> wf lv [] w ->
  let w' := cascades n lv w in
  wf 4 [] w' /\ abs w' = abs w /\ current_ms_ w' = current_ms_ w /\ next_id_ w' = next_id_ w /\
  pool_free w' = pool_free w.
Proof.
  revert lv w. induction n as [|n IH]; intros lv w Hl Hn Hw; cbn -[Z.modulo].
  { replace lv with 4 in Hw by lia. done. }
  destruct (Z.eqb_spec (current_ms_ w mod kSlotMs lv) 0) as [E|E].
  - destruct (cascade_wf lv w ltac:(lia) Hw E) as (H1 & H2 & H3 & H4 & H5).
    destruct (IH (lv + 1) _ ltac:(lia) ltac:(lia) H1) as (G1 & G2 & G3 & G4 & G5).
    split_and!; [done|congruence..].
  - split_and!; try done. destruct Hw as [[HL HE HN] ?????]. constructor; try done.
    constructor; try done. intros id e He. destruct (HE _ _ He) as [?|[Hi Hp]]; [by left|].
    right. split; [done|]. unfold placed in *. destruct (level_ e =? 0); [done|].
    destruct Hp as (Hl4 & Hs & Hc). split_and!; [lia..|done|].
    destruct (Z.ltb_spec (level_ e) 4); [|lia]. destruct (Z.ltb_spec (level_ e) lv); [done|].
    assert (current_ms_ w <> kSlotMs (level_ e) * (expiry_ms e / kSlotMs (level_ e))); [|lia].
    intros Et. apply E. apply Z.mod_divide; [by destruct (kSlotMs_256 lv) as (q & ? & ->); lia|].
    rewrite Et. apply Z.divide_mul_l, kSlotMs_divide; lia.
Qed.

(** *** Firing *)

Lemma release_wf k D id e w :
  wf k (id :: D) w -> id ∉ D -> index_ w !! id = Some e ->
  wf k D (release id e w) /\ abs (release id e w) = delete id (abs w).
Proof.
  intros [HL Hc Hi Hm Hn Ht] Hid He. split.
  - constructor; cbn; try done.
    + by apply links_delete.
    + rewrite Hc. erewrite map_size_delete_Some by done.
      assert (size (index_ w) <> 0)%nat; [|lia].
      intros Hz%map_size_empty_inv. by rewrite Hz in He.
    + intros i f Hf. apply lookup_delete_Some in Hf as [_ Hf]. eauto.
    + intros Hv. destruct (min_valid_ w) eqn:Hmv; [|done]. cbn in Hv.
      destruct (Z.leb_spec (expiry_ms e) (cached_min_expiry_ w)) as [|Hgt]; [done|].
      destruct (Hm eq_refl) as [(i & f & Hf & Hfe) Hlb]. split.
      * exists i, f. rewrite lookup_delete_ne; [done|]. intros ->. rewrite He in Hf. simplify_eq. lia.
      * intros j g Hg. apply lookup_delete_Some in Hg as [_ Hg]. eauto.
  - unfold abs. cbn. by rewrite fmap_delete.
Qed.

Lemma fire_list_wf k ids w :
  wf k ids w -> NoDup ids ->
  (forall id, id ∈ ids -> exists e, index_ w !! id = Some e /\ expiry_ms e <= current_ms_ w) ->
  let '(fired, w') := fire_list ids w in
  fired = ids /\ wf k [] w' /\ abs w' = foldr delete (abs w) ids /\
  current_ms_ w' = current_ms_ w /\ next_id_ w' = next_id_ w /\
  pool_free w' = pool_free w + zlen ids.
Proof.
  revert w. induction ids as [|id ids IH]; intros w Hw Hnd He; cbn.
  { rewrite zlen_nil, Z.add_0_r. done. }
  apply NoDup_cons in Hnd as [Hid Hnd].
  destruct (He id) as (e & Hi & Hx); [left|]. rewrite Hi, (proj2 (Z.leb_le _ _)) by done.
  destruct (release_wf k ids id e w Hw Hid Hi) as [Hw' Ha].
  specialize (IH (release id e w) Hw' Hnd).
  destruct (fire_list ids (release id e w)) as [fired w'].
  destruct IH as (-> & H1 & H2 & H3 & H4 & H5).
  { intros i Hin. cbn. rewrite lookup_delete_ne by (intros ->; done). apply He. by right. }
  rewrite zlen_cons. split_and!; try done; [|cbn in H5; lia].
  rewrite H2, Ha. clear. induction ids as [|i ids IH]; cbn; [done|]. rewrite IH. apply delete_delete.
Qed.

(** *** One millisecond *)

Lemma advance_in t e :
  placed 4 t e -> (level_ e, slot_ e) = (0, (t + 1) mod 256) ->
  expiry_ms e <= t + 1 /\ due t e = t + 1.
Proof.
  intros Hp [= Hl Hs]. unfold placed, due in *. rewrite Hl in *. cbn in *. destruct Hp as [Hsl Hr].
  rewrite Hs in Hsl. pose proof (Z.div_mod (expiry_ms e) 256). pose proof (Z.div_mod (t + 1) 256).
  destruct (Z.ltb_spec t (expiry_ms e)); lia.
Qed.

Lemma advance_out t e :
  0 <= t -> placed 4 t e -> (level_ e, slot_ e) <> (0, (t + 1) mod 256) ->
  placed 1 (t + 1) e /\ due (t + 1) e = due t e /\ due t e <> t + 1.
Proof.
  intros Ht Hp Hne. destruct (Z.eq_dec (level_ e) 0) as [Hl|Hl].
  - unfold placed, due in *. rewrite Hl in *. cbn in *. destruct Hp as [Hsl Hr].
    assert (expiry_ms e mod 256 <> (t + 1) mod 256) as Hm by congruence.
    assert (expiry_ms e <> t + 1) by congruence.
    assert (expiry_ms e + 256 <> t + 1).
    { intros Heq. apply Hm. rewrite <- Heq. replace (expiry_ms e + 256) with (expiry_ms e + 1 * 256) by lia.
      by rewrite Z.mod_add. }
    destruct (Z.ltb_spec t (expiry_ms e)), (Z.ltb_spec (t + 1) (expiry_ms e)); lia.
  - assert (0 < level_ e) as Hl'.
    { unfold placed in Hp. rewrite (proj2 (Z.eqb_neq (level_ e) 0)) in Hp by done. lia. }
    destruct (placed_above _ _ _ _ Hp eq_refl Hl') as (Hs & Hc & H256 & Hm).
    unfold placed, due in *. rewrite (proj2 (Z.eqb_neq (level_ e) 0)) in * by done.
    destruct Hp as (Hl4 & _ & Hp). rewrite (proj2 (Z.ltb_lt (level_ e) 4)) in Hp by lia.
    rewrite (proj2 (Z.ltb_ge (level_ e) 1)) by lia. split_and!; [lia..|done| |done|].
    { lia. }
    destruct (Z.eqb_spec (expiry_ms e mod 256) 0) as [E|E]; [lia|]. intros Ex. apply E.
    assert (expiry_ms e = kSlotMs (level_ e) * (expiry_ms e / kSlotMs (level_ e))) as -> by lia.
    rewrite Z.mul_mod, Hm by lia. done.
Qed.

Lemma foldr_delete_lookup {A} (m : gmap Z A) ids i :
  foldr delete m ids !! i = if decide (i ∈ ids) then None else m !! i.
Proof.
  induction ids as [|j ids IH]; cbn; [by rewrite decide_False by set_solver|].
  destruct (decide (i = j)) as [->|Hne].
  - rewrite lookup_delete_eq, decide_True by set_solver. done.
  - rewrite lookup_delete_ne, IH by done. destruct (decide (i ∈ ids)), (decide (i ∈ j :: ids)); set_solver.
Qed.

(** The level-0 slot served next holds exactly the timers due then. *)
Lemma next_slot_dues w :
  wf 4 [] w ->
  let c := current_ms_ w in
  let ids := slot_list w 0 ((c + 1) mod 256) in
  let dues := filter (fun p => snd (snd p) = c + 1) (abs w) in
  (forall id e, index_ w !! id = Some e -> id ∉ ids ->
     placed 1 (c + 1) e /\ due (c + 1) e = due c e /\ dues !! id = None) /\
  (forall id, id ∈ ids -> exists e, index_ w !! id = Some e /\ expiry_ms e <= c + 1 /\ is_Some (dues !! id)) /\
  ids ≡ₚ (map_to_list dues).*1.
Proof.
  intros [HL Hc Hi Hm Hn H0] c ids dues.
  assert (forall id p, dues !! id = Some p <->
    exists e, index_ w !! id = Some e /\ p = (expiry_ms e, due c e) /\ due c e = c + 1) as Hdues.
  { intros id p. unfold dues, abs. rewrite map_lookup_filter_Some, lookup_fmap, fmap_Some. naive_solver. }
  assert (forall id e, index_ w !! id = Some e -> id ∉ ids ->
     placed 1 (c + 1) e /\ due (c + 1) e = due c e /\ due c e <> c + 1) as Hout.
  { intros id e He Hid. destruct (links_entry _ _ _ _ _ HL _ _ He) as [?|[Hin Hp]]; [set_solver|].
    apply advance_out; [done..|]. intros [= H1 H2]. by rewrite H1, H2 in Hin. }
  assert (forall id, id ∈ ids -> exists e, index_ w !! id = Some e /\ expiry_ms e <= c + 1 /\ due c e = c + 1) as Hin.
  { intros id Hid. destruct (links_linked _ _ _ _ _ HL _ _ _ Hid) as (e & He & H1 & H2 & _).
    exists e. split; [done|]. destruct (links_entry _ _ _ _ _ HL _ _ He) as [?|[_ Hp]]; [set_solver|].
    apply advance_in; [done|]. by rewrite H1, H2. }
  split_and!.
  - intros id e He Hid. destruct (Hout id e He Hid) as (? & ? & Hd). split_and!; try done.
    destruct (dues !! id) as [p|] eqn:E; [|done]. apply Hdues in E as (e' & ? & _ & ?). congruence.
  - intros id Hid. destruct (Hin id Hid) as (e & He & Hx & Hd). exists e. split_and!; try done.
    exists (expiry_ms e, due c e). apply Hdues. eauto.
  - apply NoDup_Permutation; [apply (links_nodup _ _ _ _ _ HL)|apply NoDup_fst_map_to_list|].
    intros id. rewrite list_elem_of_fmap. split.
    + intros Hid. destruct (Hin id Hid) as (e & He & _ & Hd). exists (id, (expiry_ms e, due c e)).
      split; [done|]. rewrite elem_of_map_to_list, Hdues. eauto.
    + intros ([i p] & -> & Hp). rewrite elem_of_map_to_list, Hdues in Hp. destruct Hp as (e & He & _ & Hd).
      cbn. destruct (decide (i ∈ ids)) as [|Hid]; [done|]. by destruct (Hout i e He Hid) as (_ & _ & ?).
Qed.

Lemma tick1_refines w t :
  R w t ->
  let '(fired, w') := tick1 w in
  let '(fired', t') := table_tick1 t in
  fired ≡ₚ fired' /\ R w' t'.
Proof.
  intros (Hw & Hnow & Hnext & Hfree & Habs). unfold tick1, table_tick1, fire_slot, SLOTS_PER_LEVEL.
  change (256 - 1) with (2 ^ 8 - 1). rewrite land_mask by lia. change (2 ^ 8) with 256. cbn [current_ms_].
  destruct (next_slot_dues w Hw) as (Hout & Hin & Hperm). rewrite <- Habs, <- Hnow.
  set (dues := filter _ (abs w)) in *. set (c := current_ms_ w) in *. set (sl := (c + 1) mod 256) in *.
  set (w1 := mkWheel (pool_free w) (slots_ w) (index_ w) (c + 1) (next_id_ w) (count_ w)
               (cached_min_expiry_ w) (min_valid_ w)).
  change (slot_list w1 0 sl) with (slot_list w 0 sl). set (ids := slot_list w 0 sl) in *.
  destruct Hw as [HL Hc Hi Hm Hn H0].
  assert (wf 1 ids (set_slot 0 sl [] w1)) as Hw1.
  { constructor; try done; [|cbn; lia]. cbn. apply (links_detach 4 _ c _ 0 sl (slot_list w)); [done| |].
    - intros lv s'. by rewrite slot_list_set.
    - intros id e He Hne Hp. apply (Hout id e He). intros Hid.
      destruct (links_linked _ _ _ _ _ HL _ _ _ Hid) as (e' & He' & ? & ? & _). congruence. }
  pose proof (fire_list_wf 1 ids (set_slot 0 sl [] w1) Hw1 (links_nodup _ _ _ _ _ HL 0 sl)) as Hfl.
  destruct (fire_list ids (set_slot 0 sl [] w1)) as [fired w2].
  destruct Hfl as (-> & Hw2 & Ha2 & Hc2 & Hn2 & Hf2).
  { intros id Hid. destruct (Hin id Hid) as (e & He & Hx & _). by exists e. }
  destruct (cascades_wf 3 1 w2 ltac:(lia) ltac:(lia) Hw2) as (Hw3 & Ha3 & Hc3 & Hn3 & Hf3).
  split; [done|]. unfold R. cbn [now next free timers].
  split_and!; [done|by rewrite Hc3, Hc2|by rewrite Hn3, Hn2| |].
  - rewrite Hf3, Hf2. cbn. rewrite Hfree. f_equal. unfold zlen. f_equal. rewrite Hperm.
    by rewrite length_fmap, length_map_to_list.
  - rewrite Ha3, Ha2. apply map_eq. intros id. rewrite foldr_delete_lookup, lookup_difference.
    unfold abs. cbn. rewrite !lookup_fmap. case_decide as Hid.
    + destruct (Hin id Hid) as (e & He & _ & [p ->]). done.
    + destruct (index_ w !! id) as [e|] eqn:He; cbn; [|by destruct (dues !! id)].
      destruct (Hout id e He Hid) as (_ & -> & ->). done.
Qed.

Lemma ticks_refines n w t :
  R w t ->
  let '(fired, w') := ticks n w in
  let '(fired', t') := table_ticks n t in
  fired ≡ₚ fired' /\ R w' t'.
Proof.
  revert w t. induction n as [|n IH]; intros w t HR; cbn -[tick1 table_tick1]; [done|].
  pose proof (tick1_refines w t HR) as H1.
  destruct (tick1 w) as [f w'], (table_tick1 t) as [f' t']. destruct H1 as [Hf HR'].
  specialize (IH w' t' HR'). destruct (ticks n w') as [g w''], (table_ticks n t') as [g' t''].
  destruct IH as [Hg HR'']. by rewrite Hf, Hg.
Qed.

#[local] Arguments entry_at : simpl never.

(** *** Scheduling, cancelling, the next expiry *)

Lemma schedule_refines d w t :
  R w t -> op_fits (Schedule d) t ->
  let '(id, w') := schedule d w in
  let '(r, t') := table_step (Schedule d) t in
  Id id = r /\ R w' t'.
Proof.
  intros (Hw & Hnow & Hnext & Hfree & Habs) (Hd & Hx & Hid). unfold schedule. cbn [table_step].
  rewrite Hfree. destruct (free t =? 0); [by split|].
  destruct Hw as [HL Hc Hi Hm Hn H0].
  rewrite (proj2 (Z.eqb_neq (next_id_ w) kInvalid)) by (unfold kInvalid; lia).
  unfold UINT64_MAX in *. rewrite !wrap_small, insert_eq by rlia. cbn -[slot_list].
  set (e := entry_at (current_ms_ w) (current_ms_ w + d)).
  assert (index_ w !! next_id_ w = None) as Hfresh.
  { destruct (index_ w !! next_id_ w) eqn:E; [|done]. apply Hi in E. lia. }
  pose proof (entry_at_placed 4 (current_ms_ w) (current_ms_ w + d) ltac:(lia)) as Hpl.
  pose proof (entry_at_due (current_ms_ w) (current_ms_ w + d)) as Hdue.
  assert (expiry_ms e = current_ms_ w + d) as Hxe by done. fold e in Hpl, Hdue. clearbody e.
  split; [congruence|].
  set (w' := set_slot (level_ e) (slot_ e) (next_id_ w :: slot_list w (level_ e) (slot_ e)) w).
  assert (links 4 (current_ms_ w) [] (slot_list w') (<[next_id_ w := e]> (index_ w))) as HL'.
  { eapply links_insert; [by apply links_fresh|set_solver|done|].
    intros lv sl. unfold w'. rewrite slot_list_set. case_decide as E; [|done]. by injection E as -> ->. }
  assert (forall i f, <[next_id_ w := e]> (index_ w) !! i = Some f ->
    i = next_id_ w /\ f = e \/ index_ w !! i = Some f) as Hins.
  { intros i f. rewrite lookup_insert_Some. naive_solver. }
  split_and!.
  - assert (size (<[next_id_ w := e]> (index_ w)) = S (size (index_ w))) as Hsz
      by (by apply map_size_insert_None).
    destruct (min_valid_ w && _) eqn:Hmv; constructor; cbn; try done; try lia.
    + intros i f [[-> ->]|Hf]%Hins; [unfold UINT64_MAX; lia|]. apply Hi in Hf. unfold UINT64_MAX. lia.
    + intros Hv. apply andb_true_iff in Hmv as [_ Hlt%Z.ltb_lt]. destruct (Hm Hv) as [_ Hlb]. split.
      * exists (next_id_ w), e. by rewrite lookup_insert_eq.
      * intros i f [[-> ->]|Hf]%Hins; [lia|]. apply Hlb in Hf. lia.
    + intros i f [[-> ->]|Hf]%Hins; [unfold UINT64_MAX; lia|]. apply Hi in Hf. unfold UINT64_MAX. lia.
    + intros Hv. rewrite Hv in Hmv. apply Z.ltb_ge in Hmv. destruct (Hm Hv) as [(i & f & Hf & Hfe) Hlb]. split.
      * exists i, f. rewrite lookup_insert_ne by congruence. done.
      * intros j g [[-> ->]|Hg]%Hins; [lia|eauto].
  - destruct (min_valid_ w && _); cbn; lia.
  - destruct (min_valid_ w && _); cbn; lia.
  - destruct (min_valid_ w && _); cbn; lia.
  - transitivity (<[next_id_ w := (current_ms_ w + d, due (current_ms_ w) e)]> (abs w)).
    + unfold abs. destruct (min_valid_ w && _); cbn; by rewrite fmap_insert, Hxe.
    + rewrite Hdue, Habs, Hnow, Hnext. unfold due_at.
      replace (now t + d <=? now t) with (d =? 0) by
        (destruct (Z.eqb_spec d 0), (Z.leb_spec (now t + d) (now t)); lia).
      by replace (now t + d - now t) with d by lia.
Qed.

Lemma cancel_refines id w t :
  R w t ->
  let '(b, w') := cancel id w in
  let '(r, t') := table_step (Cancel id) t in
  Found b = r /\ R w' t'.
Proof.
  intros (Hw & Hnow & Hnext & Hfree & Habs). unfold cancel. cbn.
  assert (timers t !! id = (fun e => (expiry_ms e, due (current_ms_ w) e)) <$> index_ w !! id) as Ht
    by (rewrite <- Habs; apply lookup_fmap).
  destruct (index_ w !! id) as [e|] eqn:He; cbn in Ht; rewrite Ht.
  2: { rewrite bool_decide_eq_false_2 by (by intros []). destruct (id =? kInvalid); by split. }
  destruct Hw as [HL Hc Hi Hm Hn H0]. destruct (Hi _ _ He) as [Hid _].
  rewrite (proj2 (Z.eqb_neq id kInvalid)) by (unfold kInvalid; lia).
  rewrite bool_decide_eq_true_2 by eauto. split; [done|].
  assert (wf 4 [id] (unlink (level_ e) (slot_ e) id w)) as Hw.
  { constructor; try done. cbn. destruct HL as [HL HE HN]. unfold unlink. constructor.
    - intros lv sl i Hin. rewrite slot_list_set in Hin. case_decide as E.
      + apply list_elem_of_filter in Hin as [Hne Hin]. injection E as <- <-.
        destruct (HL _ _ _ Hin) as (f & ? & ? & ? & _). exists f. set_solver.
      + destruct (HL _ _ _ Hin) as (f & ? & ? & ? & _). exists f. split_and!; try done.
        apply not_elem_of_cons. split; [|set_solver]. intros ->. congruence.
    - intros i f Hf. destruct (HE _ _ Hf) as [?|[Hin Hp]]; [set_solver|].
      destruct (decide (i = id)) as [->|Hne]; [left; set_solver|]. right. split; [|done].
      rewrite slot_list_set. case_decide as E; [|done]. injection E as E1 E2. rewrite E1, E2.
      by apply list_elem_of_filter.
    - intros lv sl. rewrite slot_list_set. case_decide; [by apply NoDup_filter|done]. }
  destruct (release_wf 4 [] id e _ Hw ltac:(set_solver) He) as [Hw' Ha]. unfold R.
  cbn [now next free timers]. split_and!; try done; [cbn; lia|]. rewrite Ha. by rewrite <- Habs.
Qed.

(** [r] is the least value of [f] on [m]. *)
Definition least {A} (f : A -> Z) (m : gmap Z A) (r : Z) : Prop :=
  (exists i x, m !! i = Some x /\ f x = r) /\ forall i x, m !! i = Some x -> r <= f x.

Lemma least_unique {A} (f : A -> Z) m r s : least f m r -> least f m s -> r = s.
Proof.
  intros [(i & x & Hi & <-) Hr] [(j & y & Hj & <-) Hs].
  specialize (Hr _ _ Hj). specialize (Hs _ _ Hi). lia.
Qed.

Lemma min_fold_least {A} (f : A -> Z) M (m : gmap Z A) :
  (forall i x, m !! i = Some x -> f x < M) ->
  let r := map_fold (fun _ x acc => Z.min (f x) acc) M m in
  (m = ∅ /\ r = M) \/ least f m r.
Proof.
  cbn zeta. apply (map_fold_weak_ind (fun r m => (forall i x, m !! i = Some x -> f x < M) ->
    (m = ∅ /\ r = M) \/ least f m r) (fun _ x acc => Z.min (f x) acc)).
  { intros _. by left. }
  clear m. intros i x m r Hi IH Hb. right.
  assert (f x < M) as Hx by (eapply (Hb i); by rewrite lookup_insert_eq).
  destruct IH as [[-> ->]|[(j & y & Hj & <-) Hl]].
  { intros j y Hj. apply (Hb j). rewrite lookup_insert_ne by congruence. done. }
  - split; [exists i, x; rewrite lookup_insert_eq; split; [done|lia]|].
    intros j y. rewrite lookup_insert_Some. intros [[_ ->]|[_ H]]; [lia|]. by rewrite lookup_empty in H.
  - split.
    + destruct (Z.le_gt_cases (f x) (f y)).
      * exists i, x. rewrite lookup_insert_eq. split; [done|lia].
      * exists j, y. rewrite lookup_insert_ne by congruence. split; [done|lia].
    + intros k z. rewrite lookup_insert_Some. intros [[_ ->]|[_ H]]; [lia|]. apply Hl in H. lia.
Qed.

Lemma earliest_eq m :
  earliest m = map_fold (fun _ e acc => Z.min (expiry_ms e) acc) UINT64_MAX m.
Proof.
  unfold earliest. rewrite !map_fold_foldr. induction (map_to_list m) as [|[i e] l IH]; cbn; [done|].
  rewrite IH. destruct (Z.ltb_spec (expiry_ms e) (foldr (uncurry (fun _ e acc => Z.min (expiry_ms e) acc)) UINT64_MAX l)); lia.
Qed.

Lemma next_expiry_refines w t :
  R w t ->
  let '(z, w') := next_expiry_ms w in
  let '(r, t') := table_step NextExpiry t in
  Remaining z = r /\ R w' t'.
Proof.
  intros HR. pose proof HR as (Hw & Hnow & Hnext & Hfree & Habs). unfold next_expiry_ms. cbn [table_step].
  destruct Hw as [HL Hc Hi Hm Hn H0]. rewrite Hc, <- Habs.
  destruct (Z.eqb_spec (Z.of_nat (size (index_ w))) 0) as [E|E].
  { rewrite bool_decide_eq_true_2; [done|]. unfold abs. apply fmap_empty_iff, map_size_empty_iff. lia. }
  assert (index_ w <> ∅) as Hne by (intros He; rewrite He, map_size_empty in E; done).
  rewrite bool_decide_eq_false_2 by (unfold abs; by rewrite fmap_empty_iff).
  destruct (min_fold_least expiry_ms UINT64_MAX (index_ w)) as [[? _]|He]; [by intros; apply (Hi i)|done|].
  rewrite <- earliest_eq in He.
  destruct (min_fold_least fst UINT64_MAX (abs w)) as [[Hz _]|Ha].
  { intros i [x y]. unfold abs. rewrite lookup_fmap, fmap_Some. intros (e & H & [= -> ->]).
    by apply (Hi i). }
  { by apply fmap_empty_iff in Hz. }
  assert (least expiry_ms (index_ w) (min_expiry (abs w))) as Ha'.
  { destruct Ha as [(i & p & Hp & Hr) Hl]. unfold abs in Hp. apply lookup_fmap_Some in Hp as (e & <- & Hx).
    split; [by exists i, e|]. intros j f Hf. apply (Hl j (expiry_ms f, due (current_ms_ w) f)).
    unfold abs. by rewrite lookup_fmap, Hf. }
  set (w' := if min_valid_ w then w else _).
  assert (least expiry_ms (index_ w) (cached_min_expiry_ w') /\ current_ms_ w' = current_ms_ w /\ R w' t)
    as (Hl & Hcur & HR').
  { subst w'. destruct (min_valid_ w) eqn:Hv.
    - split_and!; [by apply Hm|done..].
    - split_and!; [done..|]. unfold R. by split_and!. }
  rewrite (least_unique _ _ _ _ Ha' Hl), Hcur, <- Hnow. split; [|done]. f_equal.
  destruct (Z.leb_spec (cached_min_expiry_ w') (current_ms_ w)); lia.
Qed.

Lemma step_refines o w t :
  R w t -> op_fits o t ->
  let '(r, w') := wheel_step o w in
  let '(r', t') := table_step o t in
  same_res r r' /\ R w' t'.
Proof.
  intros HR Hf. destruct o as [d|id|n|].
  - pose proof (schedule_refines d w t HR Hf) as H. cbn [wheel_step].
    destruct (schedule d w) as [id w'], (table_step (Schedule d) t) as [r t']. by destruct H as [<- H].
  - pose proof (cancel_refines id w t HR) as H. cbn [wheel_step].
    destruct (cancel id w) as [b w'], (table_step (Cancel id) t) as [r t']. by destruct H as [<- H].
  - cbn -[tick]. unfold tick. destruct Hf as [Hn Hb]. pose proof HR as (Hw & Hnow & _).
    pose proof (wf_now _ _ _ Hw). rewrite wrap_small by rlia.
    replace (current_ms_ w + n - current_ms_ w) with n by lia.
    pose proof (ticks_refines (Z.to_nat n) w t HR) as H'.
    destruct (ticks _ w) as [f w'], (table_ticks _ t) as [f' t']. done.
  - pose proof (next_expiry_refines w t HR) as H. cbn [wheel_step].
    destruct (next_expiry_ms w) as [z w'], (table_step NextExpiry t) as [r t']. by destruct H as [<- H].
Qed.

Lemma R_new capacity : R (new capacity) (mkTable 0 1 capacity ∅).
Proof.
  unfold R. split_and!; try done. constructor; cbn; try done; try lia.
  - constructor.
    + intros lv sl id. unfold slot_list. cbn. rewrite lookup_empty. set_solver.
    + intros id e. by rewrite lookup_empty.
    + intros lv sl. unfold slot_list. cbn. rewrite lookup_empty. constructor.
Qed.

(** ** Properties *)

(** C5.  The timing wheel answers every sequence of [schedule], [cancel], [tick] and
    [next_expiry_ms] calls as the flat table does: the same ids, the same cancel
    results, the same timers fired by each [tick] (each at the millisecond [due_at]
    fixed when it was scheduled), and the exact time to the earliest expiry. *)
Theorem wheel_refines_table capacity ops :
  fits ops (mkTable 0 1 capacity ∅) ->
  Forall2 same_res (run wheel_step ops (new capacity)) (run table_step ops (mkTable 0 1 capacity ∅)).
Proof.
  pose proof (R_new capacity) as HR. revert HR.
  generalize (new capacity) (mkTable 0 1 capacity ∅).
  induction ops as [|o ops IH]; intros w t HR Hf; cbn [run]; [constructor|].
  destruct Hf as [Hf Hfs]. pose proof (step_refines o w t HR Hf) as H.
  destruct (wheel_step o w) as [r w'], (table_step o t) as [r' t']. destruct H as [Hr HR'].
  constructor; auto.
Qed.

Lemma table_ticks_quiet n t id p :
  timers t = {[id := p]} -> now t + Z.of_nat n < snd p ->
  table_ticks n t = ([], mkTable (now t + Z.of_nat n) (next t) (free t) {[id := p]}).
Proof.
  revert t. induction n as [|n IH]; intros t Ht Hn; cbn -[table_tick1 Z.of_nat].
  { destruct t; cbn in *. subst. by rewrite Z.add_0_r. }
  assert (table_tick1 t = ([], mkTable (now t + 1) (next t) (free t) {[id := p]})) as ->.
  { unfold table_tick1. rewrite Ht, map_filter_singleton_False by (cbn; lia).
    rewrite map_to_list_empty, map_size_empty, map_difference_empty, Z.add_0_r. done. }
  rewrite IH by (cbn; done || lia). cbn. do 2 f_equal. lia.
Qed.

Lemma table_tick1_fires t id p :
  timers t = {[id := p]} -> snd p = now t + 1 -> fst (table_tick1 t) = [id].
Proof.
  intros Ht Hp. unfold table_tick1. rewrite Ht, map_filter_singleton_True by done.
  cbn. by rewrite map_to_list_singleton.
Qed.

(** A single timer on a fresh wheel fires at its expiry [d], unless [d] is 0 or a
    multiple of 256 ms: then it fires 256 ms late. *)
Theorem single_timer_due d :
  0 <= d < 2 ^ 60 ->
  let due := if d mod 256 =? 0 then d + 256 else d in
  run wheel_step [Schedule d; Tick (due - 1); Tick 1] (new 1) = [Id 1; Fired []; Fired [1]].
Proof.
  intros Hd due.
  assert (due_at 0 d = due) as Hdue.
  { unfold due_at, due. rewrite Z.add_0_l. destruct (Z.eqb_spec d 0) as [->|]; [done|]. cbn [orb].
    destruct (Z.leb_spec 256 d); [done|]. by rewrite Z.mod_small, (proj2 (Z.eqb_neq d 0)) by lia. }
  assert (0 < due <= 2 ^ 60 + 256) as Hr.
  { unfold due. destruct (Z.eqb_spec (d mod 256) 0); [lia|]. destruct (Z.eq_dec d 0); [by subst|lia]. }
  set (t0 := mkTable 0 1 1 ∅). set (t1 := mkTable 0 2 0 {[1 := (d, due)]}).
  assert (table_step (Schedule d) t0 = (Id 1, t1)) as E1.
  { cbn -[due_at]. by rewrite Hdue, Z.add_0_l, insert_empty. }
  pose proof (step_refines (Schedule d) (new 1) t0 (R_new 1)) as S1.
  cbn [run]. destruct (wheel_step (Schedule d) (new 1)) as [r1 w1]. rewrite E1 in S1.
  destruct S1 as [S1 R1]; [cbn; unfold UINT64_MAX; lia|].
  pose proof (step_refines (Tick (due - 1)) w1 t1 R1) as S2.
  destruct (wheel_step (Tick (due - 1)) w1) as [r2 w2]. cbn -[table_ticks] in S2.
  rewrite (table_ticks_quiet _ t1 1 (d, due)) in S2 by (done || (cbn; lia)).
  destruct S2 as [S2 R2]; [cbn; lia|].
  set (t2 := mkTable _ _ _ _) in R2.
  pose proof (step_refines (Tick 1) w2 t2 R2) as S3.
  destruct (wheel_step (Tick 1) w2) as [r3 w3].
  pose proof (table_tick1_fires t2 1 (d, due) eq_refl ltac:(cbn; lia)) as Hf.
  cbn -[table_tick1 Z.to_nat] in S3. change (Z.to_nat 1) with 1%nat in S3. cbn -[table_tick1] in S3.
  destruct (table_tick1 t2) as [f t3]. cbn in Hf. subst f.
  destruct S3 as [S3 _]; [cbn; lia|]. destruct r1, r2, r3; try done. cbn in S1, S2, S3.
  rewrite Permutation_nil_r in S2. apply Permutation_singleton_r in S3. by simplify_eq.
Qed.

(** ** Witnesses *)

Lemma wheel_refines_table_witness :
  Forall2 same_res
    (run wheel_step [Schedule 100; Schedule 300; Tick 100; Cancel 2; NextExpiry] (new 4))
    [Id 1; Id 2; Fired [1]; Found true; Remaining UINT64_MAX].
Proof.
  refine (wheel_refines_table 4 [Schedule 100; Schedule 300; Tick 100; Cancel 2; NextExpiry] _).
  vm_compute. repeat split; discriminate.
Defined.

Lemma single_timer_due_witness :
  run wheel_step [Schedule 256; Tick 511; Tick 1] (new 1) = [Id 1; Fired []; Fired [1]].
Proof. exact (single_timer_due 256 ltac:(lia)). Defined.
