(* ===== verification/ChannelQueue.v ===== *)
(** * The channel is an atomic bounded queue

    The specification is a queue with a flag: a send takes effect at one step, a receive
    at one step, each between its call and its return.  Every execution of the machine
    of [AsyncChannel] is an execution of the specification with the same calls, effects
    and returns, for up to 2^62 steps (the positions are 64-bit counters); and a
    non-blocking operation that runs alone returns within a fixed number of steps. *)

From stdpp Require Import list.
From S2P Require Import Prelude AsyncChannel.
#[local] Open Scope Z_scope.
#[local] Open Scope word_scope.

Section spec.
Context {T : Type}.

(** ** The specification *)

(** A task has called nothing, has a send or a receive before or after its effect, or a
    close before or after its effect. *)
Inductive task :=
  | TIdle | TSend (m : mode) (v : T) | TSent (m : mode)
  | TRecv (m : mode) | TGot (m : mode) (x : option T) | TClose | TClosed.

Record queue := mkQueue { items : list T; shut : bool; tasks : list task }.

Definition called (o : op T) : task :=
  match o with OpSend m v => TSend m v | OpRecv m => TRecv m | OpClose => TClose end.

(** When a task may return [r]. *)
Definition may_return (cap : Z) (q : queue) (t : task) (r : ret T) : Prop :=
  match r, t with
  | Sent, TSent _ => True
  | Refused, TSend Try _ =>
      shut q = true \/ cap <= zlen (items q) \/ exists j m x, tasks q !! j = Some (TGot m x)
  | BrokenPipe, TSend Async _ => shut q = true
  | Received x, TGot _ y => x = y /\ x <> None
  | NoItem, TRecv Try => items q = [] \/ exists j m, tasks q !! j = Some (TSent m)
  | Eos, TRecv Async => shut q = true
  | Closed, TClosed => True
  | _, _ => False
  end.

Inductive spec_step (cap : Z) : queue -> label T -> queue -> Prop :=
  | spec_tau q : spec_step cap q Tau q
  | spec_call q i o : tasks q !! i = Some TIdle ->
      spec_step cap q (Call i o) (mkQueue (items q) (shut q) (<[i := called o]> (tasks q)))
  | spec_enq q i m v : tasks q !! i = Some (TSend m v) -> zlen (items q) < cap ->
      spec_step cap q (Took i (Enq v)) (mkQueue (items q ++ [v]) (shut q) (<[i := TSent m]> (tasks q)))
  | spec_deq q i m x l : tasks q !! i = Some (TRecv m) -> items q = x :: l ->
      spec_step cap q (Took i (Deq (Some x))) (mkQueue l (shut q) (<[i := TGot m (Some x)]> (tasks q)))
  | spec_shut q i : tasks q !! i = Some TClose ->
      spec_step cap q (Took i Shut) (mkQueue (items q) true (<[i := TClosed]> (tasks q)))
  | spec_ret q i t r : tasks q !! i = Some t -> may_return cap q t r ->
      spec_step cap q (Ret i r) (mkQueue (items q) (shut q) (<[i := TIdle]> (tasks q))).

Inductive spec_run (cap : Z) : queue -> list (label T) -> queue -> Prop :=
  | run_nil q : spec_run cap q [] q
  | run_cons q l q' tr q'' : spec_step cap q l q' -> spec_run cap q' tr q'' -> spec_run cap q (l :: tr) q''.

(** The values sent and received, in the order of the effects. *)
Definition enq_of (l : label T) : list T := match l with Took _ (Enq v) => [v] | _ => [] end.
Definition deq_of (l : label T) : list T := match l with Took _ (Deq (Some x)) => [x] | _ => [] end.
Definition enqs (tr : list (label T)) : list T := concat (map enq_of tr).
Definition deqs (tr : list (label T)) : list T := concat (map deq_of tr).

Lemma spec_fifo cap q tr q' : spec_run cap q tr q' -> items q ++ enqs tr = deqs tr ++ items q'.
Proof.
  induction 1 as [q|q l q' tr q'' Hs _ IH]; [apply app_nil_r|].
  unfold enqs, deqs in *. cbn [map concat]. rewrite <- app_assoc, <- IH.
  destruct Hs; cbn in *; try done; rewrite <- ?app_assoc; try done.
  match goal with H : items _ = _ |- _ => rewrite H end. done.
Qed.

Lemma spec_bounded cap q tr q' : spec_run cap q tr q' -> zlen (items q) <= cap -> zlen (items q') <= cap.
Proof.
  induction 1 as [|q l q' tr q'' Hs _ IH]; [done|]. intros Hq. apply IH.
  destruct Hs; cbn; try done; try zlia.
  match goal with H : items _ = _ |- _ => rewrite H in Hq end. zlia.
Qed.

End spec.

(** ** The ring *)

Lemma mod_window m a b : 0 < m -> a mod m = b mod m -> - m < a - b < m -> a = b.
Proof.
  intros Hm E H. assert ((a - b) mod m = 0) as Hd by (rewrite Zminus_mod, E, Z.sub_diag; apply Z.mod_0_l; lia).
  apply Z.mod_divide in Hd as [k Hk]; [|lia]. assert (k = 0) by nia. nia.
Qed.

Section ring.
Context {T : Type}.
Implicit Types (c : chan T) (ps : list (pc T)) (log : list T).

Definition seq_at c (p : Z) : Z := sequence (slot c p).
Definition sto_at c (p : Z) : option T := storage (slot c p).

(** The position a task has claimed and not yet published or released. *)
Definition owns (x : pc T) : option Z :=
  match x with
  | PSend _ _ (SWrite p) | PSend _ _ (SPub p) | PRecv _ (RRead p) | PRecv _ (RPub p _) => Some p
  | _ => None
  end.

(** What a task knows; [log] lists the values of all claimed positions. *)
Definition task_ok c log (x : pc T) : Prop :=
  match x with
  | PSend _ _ (SSeq p) => 0 <= p <= tail_ c
  | PSend _ _ (SCas p) => 0 <= p <= tail_ c /\ (p = tail_ c -> seq_at c p = p)
  | PSend _ v (SWrite p) => head_ c <= p < tail_ c /\ seq_at c p = p /\ log !! Z.to_nat p = Some v
  | PSend _ v (SPub p) =>
      head_ c <= p < tail_ c /\ seq_at c p = p /\ log !! Z.to_nat p = Some v /\ sto_at c p = Some v
  | PRecv _ (RSeq p) => 0 <= p <= head_ c
  | PRecv _ (RCas p) => 0 <= p <= head_ c /\ (p = head_ c -> p < tail_ c /\ seq_at c p = p + 1)
  | PRecv _ (RRead p) =>
      0 <= p /\ tail_ c - capacity_ c <= p < head_ c /\ seq_at c p = p + 1 /\ sto_at c p = log !! Z.to_nat p
  | PRecv _ (RPub p x) => 0 <= p /\ tail_ c - capacity_ c <= p < head_ c /\ seq_at c p = p + 1 /\ x = log !! Z.to_nat p
  | PRecv _ (RCount x) | PRecv _ (RWake x) => x <> None
  | PSend m _ (SReadyTail | SReadyHead _ | SReadyClosed | SAdd | SCheckTail | SCheckHead _ | SCheckClosed | SRemove | SSuspended)
  | PRecv m (RClosed | RReadyTail | RReadyHead _ | RReadyClosed | RAdd | RCheckTail | RCheckHead _ | RCheckClosed | RRemove | RSuspended) =>
      m = Async
  | _ => True
  end.

Definition owned ps (p : Z) : Prop := exists i x, ps !! i = Some x /\ owns x = Some p.

(** Position [p] of the last turn: written and not taken, or taken; the sequence number
    says whether the writer or the reader is still at it. *)
Definition cell_ok c ps log (p : Z) : Prop :=
  if head_ c <=? p then
    (seq_at c p = p /\ owned ps p) \/ (seq_at c p = p + 1 /\ sto_at c p = log !! Z.to_nat p)
  else
    (0 <= p /\ seq_at c p = p + 1 /\ owned ps p) \/ seq_at c p = p + capacity_ c.

Record ring_ok c ps log (n : Z) : Prop := {
  ok_cap : exists k, 1 <= k <= 62 /\ capacity_ c = 2 ^ k;
  ok_slots : zlen (slots_ c) = capacity_ c;
  ok_pos : 0 <= head_ c <= tail_ c /\ tail_ c <= head_ c + capacity_ c;
  ok_log : tail_ c = zlen log;
  ok_bound : tail_ c <= n;
  ok_cells p : tail_ c - capacity_ c <= p < tail_ c -> cell_ok c ps log p;
  ok_tasks i x : ps !! i = Some x -> task_ok c log x;
  ok_owner i j x y p : ps !! i = Some x -> ps !! j = Some y -> owns x = Some p -> owns y = Some p -> i = j;
}.

Lemma ok_cap_ge c ps log n : ring_ok c ps log n -> 2 <= capacity_ c <= 2 ^ 62.
Proof.
  intros [(k & Hk & ->) _ _ _ _ _ _ _]. split.
  - change 2 with (2 ^ 1) at 1. apply Z.pow_le_mono_r; lia.
  - apply Z.pow_le_mono_r; lia.
Qed.

Lemma slot_index_mod c p : (exists k, 1 <= k <= 62 /\ capacity_ c = 2 ^ k) -> slot_index c p = Z.to_nat (p mod capacity_ c).
Proof. intros (k & Hk & E). unfold slot_index. rewrite E, land_mask; [done|lia]. Qed.

(** Positions a whole number of turns apart share a slot. *)
Lemma slot_turn c p q : (exists k, 1 <= k <= 62 /\ capacity_ c = 2 ^ k) -> p mod capacity_ c = q mod capacity_ c -> slot c p = slot c q.
Proof. intros Hk E. unfold slot. by rewrite !slot_index_mod, E. Qed.

Lemma slot_set c pos s p : (exists k, 1 <= k <= 62 /\ capacity_ c = 2 ^ k) -> zlen (slots_ c) = capacity_ c ->
  slot (set_slot c pos s) p = if bool_decide (p mod capacity_ c = pos mod capacity_ c) then s else slot c p.
Proof.
  intros Hk Hl. assert (0 < capacity_ c) as Hc by (destruct Hk as (k & ? & ->); apply Z.pow_pos_nonneg; lia).
  assert (forall q, 0 <= q mod capacity_ c < capacity_ c) as Hm by (intros; apply Z.mod_pos_bound; lia).
  unfold slot. change (slot_index (set_slot c pos s) p) with (slot_index c p). cbn [slots_ set_slot].
  rewrite !slot_index_mod by done. pose proof (Hm p). pose proof (Hm pos). unfold zlen in Hl.
  rewrite !nth_lookup. case_bool_decide as E.
  - rewrite E, list_lookup_insert_eq by lia. done.
  - by rewrite list_lookup_insert_ne by lia.
Qed.

(** The rest of the invariant after a step of task [i] from [x] to [x']. *)
Lemma ring_step c c' ps log log' n i x x' :
  ring_ok c ps log n -> ps !! i = Some x ->
  capacity_ c' = capacity_ c -> zlen (slots_ c') = zlen (slots_ c) ->
  (0 <= head_ c' <= tail_ c' /\ tail_ c' <= head_ c' + capacity_ c) -> tail_ c' = zlen log' -> tail_ c' <= tail_ c + 1 ->
  (forall p, tail_ c' - capacity_ c <= p < tail_ c' -> cell_ok c' (<[i := x']> ps) log' p) ->
  task_ok c' log' x' ->
  (forall j y, j <> i -> ps !! j = Some y -> task_ok c' log' y) ->
  (forall p, owns x' = Some p -> forall j y, j <> i -> ps !! j = Some y -> owns y <> Some p) ->
  ring_ok c' (<[i := x']> ps) log' (n + 1).
Proof.
  intros H Hx Ec El Hp Hlog Hb Hcells Hx' Hy Ho. destruct H as [Hcap Hsl _ _ Hn _ Hts How].
  constructor; rewrite ?Ec; try done; try lia.
  - intros j y [(<- & <- & _)|[Hj Hl]]%list_lookup_insert_Some; [done|]. by apply (Hy j).
  - intros j k y z p [(<- & <- & _)|[Hj Hl]]%list_lookup_insert_Some [(<- & <- & _)|[Hk Hm]]%list_lookup_insert_Some Hoy Hoz; try done.
    + exfalso. by apply (Ho p Hoy k z).
    + exfalso. by apply (Ho p Hoz j y).
    + eauto.
Qed.

Lemma owned_insert ps i x x' p : ps !! i = Some x -> owned ps p -> (owns x = Some p -> owns x' = Some p) ->
  owned (<[i := x']> ps) p.
Proof.
  intros Hx (j & y & Hy & Ho) H. destruct (decide (j = i)) as [->|Hj].
  - exists i, x'. rewrite list_lookup_insert_eq by (by eapply lookup_lt_Some). simplify_eq. eauto.
  - exists j, y. by rewrite list_lookup_insert_ne by done.
Qed.

Lemma owned_new ps i x x' p : ps !! i = Some x -> owns x' = Some p -> owned (<[i := x']> ps) p.
Proof. intros Hx Ho. exists i, x'. by rewrite list_lookup_insert_eq by (by eapply lookup_lt_Some). Qed.

Definition same_ring c c' : Prop :=
  capacity_ c' = capacity_ c /\ slots_ c' = slots_ c /\ tail_ c' = tail_ c /\ head_ c' = head_ c.

Lemma slot_same c c' p : same_ring c c' -> slot c' p = slot c p.
Proof. intros (E1 & E2 & _). unfold slot, slot_index. by rewrite E1, E2. Qed.

Lemma task_ok_same c c' log x : same_ring c c' -> task_ok c log x -> task_ok c' log x.
Proof.
  intros H. pose proof H as (E1 & _ & E3 & E4). unfold task_ok, seq_at, sto_at.
  destruct x as [|m v []|m []|]; rewrite ?E1, ?E3, ?E4, ?(slot_same c c') by done; done.
Qed.

(** A step that leaves the ring alone. *)
Lemma ring_local c c' ps log n i x x' :
  ring_ok c ps log n -> same_ring c c' -> ps !! i = Some x -> owns x = None -> owns x' = None -> task_ok c log x' ->
  ring_ok c' (<[i := x']> ps) log (n + 1).
Proof.
  intros H Hs Hx Ho Ho' Ht. pose proof Hs as (E1 & E2 & E3 & E4).
  apply (ring_step c c' ps log log n i x x'); rewrite ?E2, ?E3, ?E4; try apply H; try done; try lia.
  - intros p Hp. pose proof (ok_cells c ps log n H p Hp) as Hc. unfold cell_ok, seq_at, sto_at in *.
    rewrite E1, E4, (slot_same c c') by done. destruct (_ <=? _).
    + destruct Hc as [[? ?]|?]; [left|by right]. split; [done|]. apply (owned_insert ps i x); naive_solver.
    + destruct Hc as [(? & ? & ?)|?]; [left|by right]. split_and!; try done. apply (owned_insert ps i x); naive_solver.
  - by apply (task_ok_same c).
  - intros j y _ Hy. apply (task_ok_same c); [done|]. by eapply ok_tasks.
  - by rewrite Ho'.
Qed.

Lemma log_snoc log v p : 0 <= p < zlen log -> (log ++ [v]) !! Z.to_nat p = log !! Z.to_nat p.
Proof. intros Hp. apply lookup_app_l. unfold zlen in Hp. lia. Qed.

(** The slot the next send wants was released by its last reader. *)
Lemma tail_slot_free c ps log n : ring_ok c ps log n -> seq_at c (tail_ c) = tail_ c ->
  tail_ c < head_ c + capacity_ c /\ seq_at c (tail_ c - capacity_ c) = tail_ c.
Proof.
  intros H Hs. pose proof (ok_cap_ge _ _ _ _ H) as Hc.
  assert (seq_at c (tail_ c - capacity_ c) = tail_ c) as E.
  { rewrite <- Hs at 2. unfold seq_at. f_equal. apply slot_turn; [apply H|].
    rewrite <- (Z_mod_plus_full (tail_ c) (-1)). f_equal; lia. }
  split; [|done]. pose proof (ok_cells _ _ _ _ H (tail_ c - capacity_ c) ltac:(lia)) as Hcell.
  unfold cell_ok in Hcell. rewrite E in Hcell. destruct (Z.leb_spec (head_ c) (tail_ c - capacity_ c)); [|lia].
  destruct Hcell as [[? _]|[? _]]; lia.
Qed.

Lemma ring_claim_tail c ps log n i m v :
  ring_ok c ps log n -> n < 2 ^ 62 -> ps !! i = Some (PSend m v (SCas (tail_ c))) ->
  tail_ c < head_ c + capacity_ c /\
  ring_ok (set_tail c (u64 (tail_ c + 1))) (<[i := PSend m v (SWrite (tail_ c))]> ps) (log ++ [v]) (n + 1).
Proof.
  intros H Hn Hx. pose proof (ok_cap_ge _ _ _ _ H) as Hc. pose proof (ok_pos _ _ _ _ H) as Hpos.
  pose proof (ok_bound _ _ _ _ H). pose proof (ok_log _ _ _ _ H) as Hlog.
  destruct (ok_tasks _ _ _ _ H _ _ Hx) as [_ Hs]. specialize (Hs eq_refl).
  destruct (tail_slot_free _ _ _ _ H Hs) as [Hlt Hold]. split; [done|].
  rewrite wrap_small by (unfold in_range; lia).
  eapply (ring_step c _ _ _ _ _ _ _ _ H Hx); cbn [set_tail tail_ head_ capacity_ slots_]; try done; try lia; try zlia.
  - intros p Hp. unfold cell_ok. cbn [set_tail head_ capacity_].
    change (seq_at (set_tail c (tail_ c + 1)) p) with (seq_at c p). change (sto_at (set_tail c (tail_ c + 1)) p) with (sto_at c p).
    destruct (decide (p = tail_ c)) as [->|Hne].
    + destruct (Z.leb_spec (head_ c) (tail_ c)); [|lia]. left. split; [done|]. by eapply owned_new.
    + pose proof (ok_cells _ _ _ _ H p ltac:(lia)) as Hcell. unfold cell_ok in Hcell.
      destruct (Z.leb_spec (head_ c) p); [rewrite log_snoc by lia|];
        (destruct Hcell as [Hcell|?]; [left|by right]); destruct_and! Hcell; split_and!; try done;
        (eapply owned_insert; [done..|]; discriminate).
  - cbn. split_and!; try done; try lia. rewrite Hlog, lookup_app_r by (unfold zlen; lia).
    by replace (Z.to_nat (zlen log) - length log)%nat with 0%nat by (unfold zlen; lia).
  - intros j y Hj Hy. pose proof (ok_tasks _ _ _ _ H _ _ Hy) as Ht.
    assert (forall q, tail_ c - capacity_ c <= q -> seq_at c q = q + 1 -> tail_ c + 1 - capacity_ c <= q) as Hw.
    { intros q Hq Hsq. destruct (decide (q = tail_ c - capacity_ c)) as [->|]; lia. }
    destruct y as [|? ? []|? []|]; cbn in *; try done; try lia;
      change (seq_at (set_tail c (tail_ c + 1)) ?q) with (seq_at c q); rewrite ?log_snoc by lia;
      destruct_and?; split_and?; try done; try lia; by apply Hw.
  - intros p [= <-] j y Hj Hy Ho. pose proof (ok_tasks _ _ _ _ H _ _ Hy) as Ht.
    destruct y as [|? ? []|? []|]; cbn in *; simplify_eq; lia.
Qed.

(** An owner's position is in the last turn, and its sequence number is the owner's. *)
Lemma owner_cell c ps log n i x p : ring_ok c ps log n -> ps !! i = Some x -> owns x = Some p ->
  0 <= p /\ tail_ c - capacity_ c <= p < tail_ c /\
  (head_ c <= p /\ seq_at c p = p \/ p < head_ c /\ seq_at c p = p + 1).
Proof.
  intros H Hx Ho. pose proof (ok_tasks _ _ _ _ H _ _ Hx) as Ht. pose proof (ok_pos _ _ _ _ H).
  destruct x as [|? ? []|? []|]; cbn in *; simplify_eq; intuition lia.
Qed.

(** The head of a non-empty queue is published when a receiver has seen it so. *)
Lemma ring_claim_head c ps log n i m :
  ring_ok c ps log n -> n < 2 ^ 62 -> ps !! i = Some (PRecv m (RCas (head_ c))) ->
  head_ c < tail_ c /\ sto_at c (head_ c) = log !! Z.to_nat (head_ c) /\
  ring_ok (set_head c (u64 (head_ c + 1))) (<[i := PRecv m (RRead (head_ c))]> ps) log (n + 1).
Proof.
  intros H Hn Hx. pose proof (ok_cap_ge _ _ _ _ H) as Hc. pose proof (ok_pos _ _ _ _ H) as Hpos.
  pose proof (ok_bound _ _ _ _ H). pose proof (ok_log _ _ _ _ H) as Hlog.
  destruct (ok_tasks _ _ _ _ H _ _ Hx) as [_ Hs]. destruct (Hs eq_refl) as [Hlt Hseq]. split; [done|].
  assert (sto_at c (head_ c) = log !! Z.to_nat (head_ c)) as Hsto.
  { pose proof (ok_cells _ _ _ _ H (head_ c) ltac:(lia)) as Hcell. unfold cell_ok in Hcell.
    rewrite Z.leb_refl in Hcell. destruct Hcell as [[? _]|[_ ?]]; [lia|done]. }
  split; [done|]. rewrite wrap_small by (unfold in_range; lia).
  eapply (ring_step c _ _ _ _ _ _ _ _ H Hx); cbn [set_head tail_ head_ capacity_ slots_]; try done; try lia.
  - intros p Hp. unfold cell_ok. cbn [set_head head_ capacity_].
    change (seq_at (set_head c (head_ c + 1)) p) with (seq_at c p). change (sto_at (set_head c (head_ c + 1)) p) with (sto_at c p).
    pose proof (ok_cells _ _ _ _ H p ltac:(lia)) as Hcell. unfold cell_ok in Hcell.
    destruct (decide (p = head_ c)) as [->|Hne].
    { destruct (Z.leb_spec (head_ c + 1) (head_ c)); [lia|]. left. split_and!; [lia|done|]. by eapply owned_new. }
    destruct (Z.leb_spec (head_ c) p), (Z.leb_spec (head_ c + 1) p); try lia;
      (destruct Hcell as [Hcell|?]; [left|by right]); destruct_and! Hcell; split_and!; try done;
      (eapply owned_insert; [done..|]; discriminate).
  - cbn. split_and!; done || lia.
  - intros j y Hj Hy. pose proof (ok_tasks _ _ _ _ H _ _ Hy) as Ht.
    assert (forall q, head_ c <= q -> seq_at c q = q -> head_ c + 1 <= q) as Hw.
    { intros q Hq Hsq. destruct (decide (q = head_ c)) as [->|]; lia. }
    destruct y as [|? ? []|? []|]; cbn in *; try done; try lia;
      change (seq_at (set_head c (head_ c + 1)) ?q) with (seq_at c q);
      destruct_and?; split_and?; try done; try lia; by apply Hw.
  - intros p [= <-] j y Hj Hy Ho. destruct (owner_cell _ _ _ _ _ _ _ H Hy Ho) as (_ & _ & [[? ?]|[? ?]]); lia.
Qed.

Lemma slot_frame c ps log n p q s : ring_ok c ps log n -> tail_ c - capacity_ c <= p < tail_ c ->
  tail_ c - capacity_ c <= q <= tail_ c -> q <> p -> q <> p + capacity_ c -> slot (set_slot c p s) q = slot c q.
Proof.
  intros H Hp Hq H1 H2. pose proof (ok_cap_ge _ _ _ _ H). rewrite slot_set by apply H.
  rewrite bool_decide_eq_false_2; [done|]. intros E. apply H1. apply (mod_window (capacity_ c)); lia || done.
Qed.

Lemma slot_set_eq c ps log n p s : ring_ok c ps log n -> slot (set_slot c p s) p = s.
Proof. intros H. rewrite slot_set by apply H. by rewrite bool_decide_eq_true_2. Qed.

(** An owner writes its slot. *)
Lemma ring_slot c ps log n i x x' p s :
  ring_ok c ps log n -> ps !! i = Some x -> owns x = Some p -> owns x' = Some p \/ owns x' = None ->
  cell_ok (set_slot c p s) (<[i := x']> ps) log p -> task_ok (set_slot c p s) log x' ->
  ring_ok (set_slot c p s) (<[i := x']> ps) log (n + 1).
Proof.
  intros H Hx Ho Ho' Hp Hx'. pose proof (ok_cap_ge _ _ _ _ H) as Hc. pose proof (ok_pos _ _ _ _ H) as Hpos.
  pose proof (ok_log _ _ _ _ H) as Hlog.
  destruct (owner_cell _ _ _ _ _ _ _ H Hx Ho) as (Hp0 & Hpw & Hps).
  assert (forall q, tail_ c - capacity_ c <= q < tail_ c -> q <> p -> slot (set_slot c p s) q = slot c q) as Hf
    by (intros; eapply slot_frame; eauto; lia).
  assert (seq_at c (tail_ c) = tail_ c -> slot (set_slot c p s) (tail_ c) = slot c (tail_ c)) as Hft.
  { intros Hst. eapply slot_frame; eauto; [lia..|]. intros Et.
    destruct (tail_slot_free _ _ _ _ H Hst) as [_ E]. replace (tail_ c - capacity_ c) with p in E by lia. lia. }
  eapply (ring_step c _ _ _ _ _ _ _ _ H Hx); cbn [set_slot tail_ head_ capacity_ slots_]; try done; try lia.
  - unfold zlen. by rewrite length_insert.
  - intros q Hq. destruct (decide (q = p)) as [->|Hne]; [done|].
    pose proof (ok_cells _ _ _ _ H q Hq) as Hcell. unfold cell_ok, seq_at, sto_at in *. cbn [set_slot head_ capacity_].
    rewrite Hf by done. destruct (head_ c <=? q);
      (destruct Hcell as [Hcell|?]; [left|by right]); destruct_and! Hcell; split_and!; try done;
      (eapply owned_insert; [done..|]; congruence).
  - intros j y Hj Hy. pose proof (ok_tasks _ _ _ _ H _ _ Hy) as Ht.
    assert (forall q, owns y = Some q -> slot (set_slot c p s) q = slot c q) as Hfy.
    { intros q Hq. destruct (owner_cell _ _ _ _ _ _ _ H Hy Hq) as (_ & ? & _). apply Hf; [done|]. intros ->.
      apply Hj. by eapply (ok_owner _ _ _ _ H). }
    destruct y as [|? ? []|? []|]; cbn [task_ok] in Ht |- *; try done; unfold seq_at, sto_at in *; rewrite ?Hfy by done; try done;
      change (tail_ (set_slot c p s)) with (tail_ c) in *; change (head_ (set_slot c p s)) with (head_ c) in *.
    + destruct Ht as [? Ht]. split; [done|]. intros ->. rewrite Hft; by apply Ht.
    + destruct Ht as [? Ht]. split; [done|]. intros ->. destruct (Ht eq_refl). rewrite Hf; [done|lia|]. intros <-. lia.
  - intros q Hq j y Hj Hy Hoy. destruct Ho' as [E|E]; rewrite E in Hq; simplify_eq.
    apply Hj. by eapply (ok_owner _ _ _ _ H).
Qed.

(** ** Reading a sequence number *)

Lemma turn_of c ps log n pos : ring_ok c ps log n ->
  exists q, tail_ c - capacity_ c <= q < tail_ c /\ q mod capacity_ c = pos mod capacity_ c /\ slot c pos = slot c q.
Proof.
  intros H. pose proof (ok_cap_ge _ _ _ _ H) as Hc. set (m := capacity_ c) in *.
  exists (tail_ c - m + (pos - (tail_ c - m)) mod m).
  pose proof (Z.mod_pos_bound (pos - (tail_ c - m)) m ltac:(lia)).
  assert ((tail_ c - m + (pos - (tail_ c - m)) mod m) mod m = pos mod m) as E.
  { rewrite Zplus_mod_idemp_r. f_equal. lia. }
  split_and!; [lia|lia|done|]. symmetry. by apply slot_turn; [apply H|].
Qed.

(** The sequence number at [pos] is that of the last turn [q] of its slot. *)
Lemma seq_cases c ps log n pos : ring_ok c ps log n -> 0 <= pos <= tail_ c ->
  exists q, tail_ c - capacity_ c <= q < tail_ c /\ seq_at c pos = seq_at c q /\ cell_ok c ps log q /\
    (q = pos \/ pos = tail_ c /\ q = tail_ c - capacity_ c \/ pos < q /\ pos < tail_ c - capacity_ c).
Proof.
  intros H Hp. pose proof (ok_cap_ge _ _ _ _ H) as Hc. destruct (turn_of c ps log n pos H) as (q & Hq & Em & Es).
  exists q. split_and!; try lia; [unfold seq_at; by rewrite Es|by apply (ok_cells _ _ _ _ H)|].
  destruct (Z.lt_ge_cases pos (tail_ c - capacity_ c)) as [?|Hle]; [right; right; lia|].
  destruct (decide (pos = tail_ c)) as [->|Hne].
  - destruct (decide (q = tail_ c - capacity_ c)); [by right; left|left].
    apply (mod_window (capacity_ c)); lia || done.
  - left. apply (mod_window (capacity_ c)); lia || done.
Qed.

Lemma seq_range c ps log n pos : ring_ok c ps log n -> n < 2 ^ 62 -> 0 <= pos <= tail_ c -> 0 <= seq_at c pos < 2 ^ 63.
Proof.
  intros H Hn Hp. pose proof (ok_cap_ge _ _ _ _ H) as Hc. pose proof (ok_bound _ _ _ _ H). pose proof (ok_pos _ _ _ _ H).
  destruct (seq_cases c ps log n pos H Hp) as (q & Hq & -> & Hcell & _). unfold cell_ok in Hcell.
  change (2 ^ 63) with (2 ^ 62 + 2 ^ 62).
  destruct (Z.leb_spec (head_ c) q); intuition lia.
Qed.

Lemma intptr_small z : 0 <= z < 2 ^ 63 -> intptr z = z.
Proof. intros Hz. unfold intptr. by destruct (Z.ltb_spec z (2 ^ 63)); [|lia]. Qed.

(** A send that reads a smaller number: the ring is full, or a receive has not released its slot. *)
Lemma seq_behind_send c ps log n pos : ring_ok c ps log n -> 0 <= pos <= tail_ c -> seq_at c pos < pos ->
  capacity_ c <= tail_ c - head_ c \/ exists q, q < head_ c /\ owned ps q.
Proof.
  intros H Hp Hs. pose proof (ok_cap_ge _ _ _ _ H) as Hc.
  destruct (seq_cases c ps log n pos H Hp) as (q & Hq & E & Hcell & Hpq). rewrite E in Hs. unfold cell_ok in Hcell.
  destruct (Z.leb_spec (head_ c) q).
  - left. lia.
  - right. exists q. destruct Hcell as [(_ & ? & ?)|?]; [done|lia].
Qed.

(** A receive that reads a smaller number: the queue is empty, or a send has not published its item. *)
Lemma seq_behind_recv c ps log n pos : ring_ok c ps log n -> 0 <= pos <= head_ c -> seq_at c pos < pos + 1 ->
  head_ c = tail_ c \/ exists q, head_ c <= q /\ owned ps q.
Proof.
  intros H Hp Hs. pose proof (ok_cap_ge _ _ _ _ H) as Hc. pose proof (ok_pos _ _ _ _ H).
  destruct (seq_cases c ps log n pos H ltac:(lia)) as (q & Hq & E & Hcell & Hpq). rewrite E in Hs. unfold cell_ok in Hcell.
  destruct (Z.leb_spec (head_ c) q).
  - destruct Hcell as [[? ?]|[? ?]]; [right; eauto|lia].
  - left. destruct Hcell as [(? & ? & ?)|?]; lia.
Qed.

(** A receive that reads its number at the head has found an item. *)
Lemma seq_match_recv c ps log n : ring_ok c ps log n -> seq_at c (head_ c) = head_ c + 1 -> head_ c < tail_ c.
Proof.
  intros H Hs. pose proof (ok_cap_ge _ _ _ _ H) as Hc. pose proof (ok_pos _ _ _ _ H).
  destruct (seq_cases c ps log n (head_ c) H ltac:(lia)) as (q & Hq & E & Hcell & Hpq). rewrite E in Hs. unfold cell_ok in Hcell.
  destruct (decide (head_ c = tail_ c)) as [Eh|]; [|lia]. exfalso.
  destruct (Z.leb_spec (head_ c) q); [lia|]. destruct Hcell as [(? & ? & ?)|?]; lia.
Qed.

Lemma act_capacity s a s' (l : label T) : act s a = Some (s', l) -> capacity_ (ch s') = capacity_ (ch s).
Proof.
  destruct a as [i o|i weak]; cbn; destruct (pcs s !! i) as [x|]; try done.
  { by destruct x; intros [= <- <-]. }
  destruct x as [|m v []|m []|[]]; cbn; repeat case_match; intros; simplify_eq; try done;
    unfold remove_send_waiter, remove_recv_waiter, wake_one_receiver_slow, wake_one_sender_slow, take_receivers, take_senders in *;
    repeat case_match; simplify_eq; done.
Qed.

(** ** The simulation *)

Definition task_of log (x : pc T) : task :=
  match x with
  | Idle => TIdle
  | PSend m _ (SWrite _) | PSend m _ (SPub _) | PSend m _ SCount | PSend m _ SWake => TSent m
  | PSend m v _ => TSend m v
  | PRecv m (RRead p) => TGot m (log !! Z.to_nat p)
  | PRecv m (RPub _ x) | PRecv m (RCount x) | PRecv m (RWake x) => TGot m x
  | PRecv m _ => TRecv m
  | PClose CStore => TClose
  | PClose _ => TClosed
  end.

Definition abs c ps log : queue := mkQueue (zdrop (head_ c) log) (closed_ c) (task_of log <$> ps).

(** A step of task [i] to [x'] that shows [l] is a step of the specification. *)
Definition simulated c ps log n i c' (x' : pc T) (l : label T) : Prop :=
  exists log', ring_ok c' (<[i := x']> ps) log' (n + 1) /\
    spec_step (capacity_ c) (abs c ps log) l (abs c' (<[i := x']> ps) log').

Lemma abs_insert c c' ps log i x' : same_ring c c' -> closed_ c' = closed_ c ->
  abs c' (<[i := x']> ps) log = mkQueue (items (abs c ps log)) (shut (abs c ps log)) (<[i := task_of log x']> (tasks (abs c ps log))).
Proof. intros (_ & _ & _ & E) Ec. unfold abs. cbn. by rewrite E, Ec, list_fmap_insert. Qed.

Lemma sim_tau c c' ps log n i x x' :
  ring_ok c ps log n -> ps !! i = Some x -> same_ring c c' -> closed_ c' = closed_ c ->
  owns x = None -> owns x' = None -> task_ok c log x' -> task_of log x' = task_of log x ->
  simulated c ps log n i c' x' Tau.
Proof.
  intros H Hx Hs Hcl Ho Ho' Ht Et. exists log. split; [by eapply ring_local|].
  rewrite (abs_insert c) by done. rewrite Et, list_insert_id by (cbn; by rewrite list_lookup_fmap, Hx). destruct (abs c ps log). constructor.
Qed.

Lemma sim_ret c c' ps log n i x r :
  ring_ok c ps log n -> ps !! i = Some x -> same_ring c c' -> closed_ c' = closed_ c ->
  owns x = None -> may_return (capacity_ c) (abs c ps log) (task_of log x) r ->
  simulated c ps log n i c' Idle (Ret i r).
Proof.
  intros H Hx Hs Hcl Ho Hr. exists log. split; [by eapply ring_local|].
  rewrite (abs_insert c) by done. econstructor; [|done]. cbn. by rewrite list_lookup_fmap, Hx.
Qed.

Lemma same_ring_refl c : same_ring c c.
Proof. done. Qed.

Lemma zlen_items c ps log n : ring_ok c ps log n -> zlen (items (abs c ps log)) = tail_ c - head_ c.
Proof.
  intros H. pose proof (ok_pos _ _ _ _ H). pose proof (ok_log _ _ _ _ H). cbn. rewrite zlen_zdrop by lia. lia.
Qed.

Lemma owner_got c ps log n q : ring_ok c ps log n -> owned ps q -> q < head_ c ->
  exists j m x, tasks (abs c ps log) !! j = Some (TGot m x).
Proof.
  intros H (j & y & Hy & Ho) Hq. pose proof (ok_tasks _ _ _ _ H _ _ Hy) as Ht. exists j.
  cbn. rewrite list_lookup_fmap, Hy. destruct y as [|? ? []|? []|]; cbn in *; simplify_eq; try lia; eauto.
Qed.

Lemma owner_sent c ps log n q : ring_ok c ps log n -> owned ps q -> head_ c <= q ->
  exists j m, tasks (abs c ps log) !! j = Some (TSent m).
Proof.
  intros H (j & y & Hy & Ho) Hq. pose proof (ok_tasks _ _ _ _ H _ _ Hy) as Ht. exists j.
  cbn. rewrite list_lookup_fmap, Hy. destruct y as [|? ? []|? []|]; cbn in *; simplify_eq; try lia; eauto.
Qed.

(** Waiter lists are not part of the ring. *)
Lemma wake_receiver_ring c : same_ring c (fst (wake_one_receiver_slow c)) /\ closed_ (fst (wake_one_receiver_slow c)) = closed_ c.
Proof. unfold wake_one_receiver_slow. by destruct (recv_waiters_ c). Qed.

Lemma wake_sender_ring c : same_ring c (fst (wake_one_sender_slow c)) /\ closed_ (fst (wake_one_sender_slow c)) = closed_ c.
Proof. unfold wake_one_sender_slow. by destruct (send_waiters_ c). Qed.

Lemma remove_send_ring c i : same_ring c (snd (remove_send_waiter c i)) /\ closed_ (snd (remove_send_waiter c i)) = closed_ c.
Proof. unfold remove_send_waiter. by destruct (unlink i (send_waiters_ c)). Qed.

Lemma remove_recv_ring c i : same_ring c (snd (remove_recv_waiter c i)) /\ closed_ (snd (remove_recv_waiter c i)) = closed_ c.
Proof. unfold remove_recv_waiter. by destruct (unlink i (recv_waiters_ c)). Qed.

Lemma sim_claim_tail c ps log n i m v :
  ring_ok c ps log n -> n < 2 ^ 62 -> ps !! i = Some (PSend m v (SCas (tail_ c))) ->
  simulated c ps log n i (set_tail c (u64 (tail_ c + 1))) (PSend m v (SWrite (tail_ c))) (Took i (Enq v)).
Proof.
  intros H Hn Hx. destruct (ring_claim_tail c ps log n i m v H Hn Hx) as [Hlt H']. exists (log ++ [v]). split; [done|].
  pose proof (ok_pos _ _ _ _ H). pose proof (ok_log _ _ _ _ H).
  assert (task_of (log ++ [v]) <$> ps = task_of log <$> ps) as E.
  { apply list_fmap_ext. intros j y Hy. pose proof (ok_tasks _ _ _ _ H _ _ Hy) as Ht.
    destruct y as [|? ? []|? []|]; cbn in *; try done. by rewrite log_snoc by lia. }
  assert (abs (set_tail c (u64 (tail_ c + 1))) (<[i := PSend m v (SWrite (tail_ c))]> ps) (log ++ [v]) =
    mkQueue (items (abs c ps log) ++ [v]) (shut (abs c ps log)) (<[i := TSent m]> (tasks (abs c ps log)))) as ->.
  { unfold abs. cbn. rewrite zdrop_app_le by lia. by rewrite list_fmap_insert, E. }
  constructor.
  - cbn. by rewrite list_lookup_fmap, Hx.
  - rewrite (zlen_items _ _ _ _ H). lia.
Qed.

Lemma sim_claim_head c ps log n i m :
  ring_ok c ps log n -> n < 2 ^ 62 -> ps !! i = Some (PRecv m (RCas (head_ c))) ->
  simulated c ps log n i (set_head c (u64 (head_ c + 1))) (PRecv m (RRead (head_ c))) (Took i (Deq (storage (slot c (head_ c))))).
Proof.
  intros H Hn Hx. destruct (ring_claim_head c ps log n i m H Hn Hx) as (Hlt & Hsto & H'). exists log. split; [done|].
  pose proof (ok_pos _ _ _ _ H). pose proof (ok_log _ _ _ _ H). pose proof (ok_bound _ _ _ _ H). pose proof (ok_cap_ge _ _ _ _ H).
  unfold sto_at in Hsto. rewrite Hsto.
  destruct (lookup_lt_is_Some_2 log (Z.to_nat (head_ c))) as [x Ex]; [unfold zlen in *; lia|]. rewrite Ex.
  assert (abs (set_head c (u64 (head_ c + 1))) (<[i := PRecv m (RRead (head_ c))]> ps) log =
    mkQueue (zdrop (head_ c + 1) log) (shut (abs c ps log)) (<[i := TGot m (Some x)]> (tasks (abs c ps log)))) as ->.
  { unfold abs. cbn. rewrite wrap_small by (unfold in_range; lia). by rewrite list_fmap_insert; cbn; rewrite Ex. }
  constructor; cbn.
  - by rewrite list_lookup_fmap, Hx.
  - unfold zdrop. replace (Z.to_nat (head_ c + 1)) with (S (Z.to_nat (head_ c))) by lia. by apply drop_S.
Qed.

(** An owner's step on its slot shows nothing. *)
Lemma sim_slot c ps log n i x x' p s' :
  ring_ok c ps log n -> ps !! i = Some x -> owns x = Some p -> owns x' = Some p \/ owns x' = None ->
  cell_ok (set_slot c p s') (<[i := x']> ps) log p -> task_ok (set_slot c p s') log x' -> task_of log x' = task_of log x ->
  simulated c ps log n i (set_slot c p s') x' Tau.
Proof.
  intros H Hx Ho Ho' Hc Ht Et. exists log. split; [by eapply ring_slot|].
  assert (abs (set_slot c p s') (<[i := x']> ps) log = abs c ps log) as ->; [|constructor].
  unfold abs. cbn. rewrite list_fmap_insert, Et, list_insert_id; [done|]. by rewrite list_lookup_fmap, Hx.
Qed.

Lemma sim_send_slot c ps log n i m v p :
  ring_ok c ps log n -> n < 2 ^ 62 ->
  (ps !! i = Some (PSend m v (SWrite p)) ->
     simulated c ps log n i (set_slot c p (mkSlot (sequence (slot c p)) (Some v))) (PSend m v (SPub p)) Tau) /\
  (ps !! i = Some (PSend m v (SPub p)) ->
     simulated c ps log n i (set_slot c p (mkSlot (u64 (p + 1)) (storage (slot c p)))) (PSend m v SCount) Tau).
Proof.
  intros H Hn. pose proof (ok_pos _ _ _ _ H). pose proof (ok_bound _ _ _ _ H). pose proof (ok_cap_ge _ _ _ _ H).
  split; intros Hx; pose proof (ok_tasks _ _ _ _ H _ _ Hx) as Ht; cbn in Ht.
  - eapply sim_slot; eauto; [cbn; eauto|..].
    + unfold cell_ok, seq_at. rewrite (slot_set_eq _ _ _ _ _ _ H). cbn [set_slot head_].
      destruct (Z.leb_spec (head_ c) p); [|lia]. left. split; [apply Ht|]. by eapply owned_new.
    + cbn. unfold seq_at, sto_at. rewrite (slot_set_eq _ _ _ _ _ _ H). cbn. by destruct_and! Ht.
  - eapply sim_slot; eauto; [cbn; eauto|..].
    + unfold cell_ok, seq_at, sto_at. rewrite (slot_set_eq _ _ _ _ _ _ H). cbn [set_slot head_ sequence storage].
      destruct (Z.leb_spec (head_ c) p); [|lia]. right. destruct_and! Ht. split; [apply wrap_small; unfold in_range; lia|].
      unfold sto_at in *. congruence.
    + done.
Qed.

Lemma sim_recv_slot c ps log n i m p x :
  ring_ok c ps log n -> n < 2 ^ 62 ->
  (ps !! i = Some (PRecv m (RRead p)) ->
     simulated c ps log n i (set_slot c p (mkSlot (sequence (slot c p)) None)) (PRecv m (RPub p (storage (slot c p)))) Tau) /\
  (ps !! i = Some (PRecv m (RPub p x)) ->
     simulated c ps log n i (set_slot c p (mkSlot (u64 (p + capacity_ c)) (storage (slot c p)))) (PRecv m (RCount x)) Tau).
Proof.
  intros H Hn. pose proof (ok_pos _ _ _ _ H). pose proof (ok_bound _ _ _ _ H). pose proof (ok_cap_ge _ _ _ _ H).
  pose proof (ok_log _ _ _ _ H).
  split; intros Hx; pose proof (ok_tasks _ _ _ _ H _ _ Hx) as Ht; cbn in Ht.
  - eapply sim_slot; eauto; [cbn; eauto|..].
    + unfold cell_ok, seq_at. rewrite (slot_set_eq _ _ _ _ _ _ H). cbn [set_slot head_].
      destruct (Z.leb_spec (head_ c) p); [lia|]. left. split; [lia|]. split; [apply Ht|]. by eapply owned_new.
    + cbn. unfold seq_at. rewrite (slot_set_eq _ _ _ _ _ _ H). cbn. by destruct_and! Ht.
    + cbn. unfold sto_at in Ht. destruct_and! Ht. congruence.
  - eapply sim_slot; eauto; [cbn; eauto|..].
    + unfold cell_ok, seq_at. rewrite (slot_set_eq _ _ _ _ _ _ H). cbn [set_slot head_ sequence capacity_].
      destruct (Z.leb_spec (head_ c) p); [lia|]. right. apply wrap_small. unfold in_range.
      change (2 ^ 64) with (2 ^ 62 + 2 ^ 62 + 2 ^ 62 + 2 ^ 62). lia.
    + cbn. destruct_and! Ht. subst x. apply not_eq_None_Some, lookup_lt_is_Some_2. unfold zlen in *. lia.
Qed.

Ltac quiet H Hx := eapply sim_tau; [exact H|exact Hx|try done..].

Lemma send_sim c ps log n i m v weak posted p c' ws nx :
  ring_ok c ps log n -> n < 2 ^ 62 -> ps !! i = Some (PSend m v p) ->
  send_step c posted i m v weak p = Some (c', ws, nx) ->
  let '(x', l) := finish i (PSend m v) nx in simulated c ps log n i c' x' l.
Proof.
  intros H Hn Hx E. pose proof (ok_pos _ _ _ _ H). pose proof (ok_bound _ _ _ _ H). pose proof (ok_cap_ge _ _ _ _ H).
  pose proof (ok_tasks _ _ _ _ H _ _ Hx) as Ht.
  destruct p; cbn in E, Ht; try (injection E as <- <- <-); try (quiet H Hx; fail).
  - (* SClosed *) destruct (closed_ c) eqn:Ec; [|quiet H Hx]. destruct m; (eapply sim_ret; [done..|]); cbn; auto.
  - (* STail *) quiet H Hx. cbn. lia.
  - (* SSeq *) pose proof (seq_range _ _ _ _ _ H Hn Ht) as Hr. unfold seq_at in Hr.
    rewrite !intptr_small by (change (2 ^ 63) with (2 ^ 62 + 2 ^ 62) in *; lia).
    destruct (Z.eqb_spec (sequence (slot c pos) - pos) 0).
    { quiet H Hx. cbn. split; [done|]. intros _. unfold seq_at. lia. }
    destruct (Z.ltb_spec (sequence (slot c pos) - pos) 0); [|quiet H Hx]. destruct m; [|quiet H Hx].
    eapply sim_ret; [done..|]. cbn [may_return task_of]. right.
    destruct (seq_behind_send _ _ _ _ pos H Ht) as [?|(q & Hq & Hw)]; [unfold seq_at; lia|left|right].
    + rewrite (zlen_items _ _ _ _ H). lia.
    + by eapply owner_got.
  - (* SCas *) destruct (Z.eqb_spec (tail_ c) pos) as [<-|]; cbn in E.
    + destruct weak; cbn in E; simplify_eq; [quiet H Hx; cbn; lia|]. by apply sim_claim_tail.
    + simplify_eq. quiet H Hx. cbn. lia.
  - (* SWrite *) by apply (sim_send_slot c ps log n i m v pos H Hn).
  - (* SPub *) by apply (sim_send_slot c ps log n i m v pos H Hn).
  - (* SCount *) destruct (_ =? 0); [eapply sim_ret; done|quiet H Hx].
  - (* SWake *) pose proof (wake_receiver_ring c) as [? ?]. destruct (wake_one_receiver_slow c). simplify_eq.
    eapply sim_ret; done.
  - destruct (is_full _ _ _); quiet H Hx.
  - destruct (closed_ c) eqn:?; quiet H Hx.
  - destruct (is_full _ _ _); quiet H Hx.
  - destruct (closed_ c) eqn:?; quiet H Hx.
  - pose proof (remove_send_ring c i) as [? ?]. destruct (remove_send_waiter c i) as [[] ?]; simplify_eq; quiet H Hx.
  - destruct (unlink i posted); simplify_eq. quiet H Hx.
Qed.

Lemma recv_sim c ps log n i m weak posted p c' ws nx :
  ring_ok c ps log n -> n < 2 ^ 62 -> ps !! i = Some (PRecv m p) ->
  recv_step c posted i m weak p = Some (c', ws, nx) ->
  let '(x', l) := finish i (PRecv m) nx in simulated c ps log n i c' x' l.
Proof.
  intros H Hn Hx E. pose proof (ok_pos _ _ _ _ H). pose proof (ok_bound _ _ _ _ H). pose proof (ok_cap_ge _ _ _ _ H).
  pose proof (ok_tasks _ _ _ _ H _ _ Hx) as Ht.
  destruct p; cbn in E, Ht; try (injection E as <- <- <-); try (quiet H Hx; fail).
  - (* RHead *) quiet H Hx. cbn. lia.
  - (* RSeq *) pose proof (seq_range _ _ _ _ pos H Hn ltac:(lia)) as Hr. unfold seq_at in Hr.
    rewrite wrap_small by (unfold in_range; lia).
    rewrite !intptr_small by (change (2 ^ 63) with (2 ^ 62 + 2 ^ 62) in *; lia).
    destruct (Z.eqb_spec (sequence (slot c pos) - (pos + 1)) 0).
    { quiet H Hx. cbn. split; [done|]. intros ->. split; [apply (seq_match_recv _ _ _ _ H)|]; unfold seq_at; lia. }
    destruct (Z.ltb_spec (sequence (slot c pos) - (pos + 1)) 0); [|quiet H Hx]. destruct m; [|quiet H Hx].
    eapply sim_ret; [done..|]. cbn [may_return task_of].
    destruct (seq_behind_recv _ _ _ _ pos H Ht) as [?|(q & Hq & Hw)]; [unfold seq_at; lia|left|right].
    + apply zlen_nil_inv. rewrite (zlen_items _ _ _ _ H). lia.
    + by eapply owner_sent.
  - (* RCas *) destruct (Z.eqb_spec (head_ c) pos) as [<-|]; cbn in E.
    + destruct weak; cbn in E; simplify_eq; [quiet H Hx; cbn; lia|]. by apply sim_claim_head.
    + simplify_eq. quiet H Hx. cbn. lia.
  - (* RRead *) by apply (sim_recv_slot c ps log n i m pos None H Hn).
  - (* RPub *) by apply (sim_recv_slot c ps log n i m pos x H Hn).
  - (* RCount *) destruct (_ =? 0); [eapply sim_ret; done|quiet H Hx].
  - (* RWake *) pose proof (wake_sender_ring c) as [? ?]. destruct (wake_one_sender_slow c). simplify_eq.
    eapply sim_ret; done.
  - (* RClosed *) destruct (closed_ c) eqn:Ec; [|quiet H Hx]. subst m. eapply sim_ret; done.
  - destruct (is_empty _ _); quiet H Hx.
  - destruct (closed_ c) eqn:?; quiet H Hx.
  - destruct (is_empty _ _); quiet H Hx.
  - destruct (closed_ c) eqn:?; quiet H Hx.
  - pose proof (remove_recv_ring c i) as [? ?]. destruct (remove_recv_waiter c i) as [[] ?]; simplify_eq; quiet H Hx.
  - destruct (unlink i posted); simplify_eq. quiet H Hx.
Qed.

Lemma close_sim c ps log n i posted p c' ws nx :
  ring_ok c ps log n -> ps !! i = Some (PClose p) -> close_step c posted p = Some (c', ws, nx) ->
  let '(x', l) := finish i PClose nx in simulated c ps log n i c' x' l.
Proof.
  intros H Hx E. destruct p; cbn in E; injection E as <- <- <-.
  - exists log. split; [by eapply ring_local|].
    assert (abs (set_closed c) (<[i := PClose CRecvCount]> ps) log =
      mkQueue (items (abs c ps log)) true (<[i := TClosed]> (tasks (abs c ps log)))) as -> by (unfold abs; cbn; by rewrite list_fmap_insert).
    constructor. cbn. by rewrite list_lookup_fmap, Hx.
  - destruct (_ =? 0); quiet H Hx.
  - quiet H Hx.
  - destruct (_ =? 0); [eapply sim_ret; done|quiet H Hx].
  - eapply sim_ret; done.
Qed.

Lemma act_sim s log n a s' l :
  ring_ok (ch s) (pcs s) log n -> n < 2 ^ 62 -> act s a = Some (s', l) ->
  capacity_ (ch s') = capacity_ (ch s) /\
  exists log', ring_ok (ch s') (pcs s') log' (n + 1) /\
    spec_step (capacity_ (ch s)) (abs (ch s) (pcs s) log) l (abs (ch s') (pcs s') log').
Proof.
  intros H Hn E.
  assert (exists log', ring_ok (ch s') (pcs s') log' (n + 1) /\
    spec_step (capacity_ (ch s)) (abs (ch s) (pcs s) log) l (abs (ch s') (pcs s') log')) as Hs.
  { destruct a as [i o|i weak]; cbn in E.
    - destruct (pcs s !! i) as [[]|] eqn:Hx; simplify_eq. cbn. exists log. split.
      + eapply ring_local; eauto using same_ring_refl; by destruct o.
      + rewrite (abs_insert (ch s)) by done. replace (task_of log (start o)) with (called o) by by destruct o.
        constructor. cbn. by rewrite list_lookup_fmap, Hx.
    - destruct (pcs s !! i) as [x|] eqn:Hx; [|done]. destruct x as [|m v p|m p|p]; cbn in E; [done| | |].
      + destruct (send_step _ _ _ _ _ _ _) as [[[c ws] nx]|] eqn:Es; [|done].
        pose proof (send_sim _ _ _ _ _ _ _ _ _ _ _ _ _ H Hn Hx Es) as Hs. destruct (finish i _ nx). by simplify_eq.
      + destruct (recv_step _ _ _ _ _ _) as [[[c ws] nx]|] eqn:Es; [|done].
        pose proof (recv_sim _ _ _ _ _ _ _ _ _ _ _ _ H Hn Hx Es) as Hs. destruct (finish i _ nx). by simplify_eq.
      + destruct (close_step _ _ _) as [[[c ws] nx]|] eqn:Es; [|done].
        pose proof (close_sim _ _ _ _ _ _ _ _ _ _ H Hx Es) as Hs. destruct (finish i _ nx). by simplify_eq. }
  split; [|done]. by apply act_capacity in E.
Qed.

Lemma exec_sim s log n acts s' tr :
  ring_ok (ch s) (pcs s) log n -> n + zlen acts <= 2 ^ 62 -> exec s acts = Some (s', tr) ->
  exists log', ring_ok (ch s') (pcs s') log' (n + zlen acts) /\
    spec_run (capacity_ (ch s)) (abs (ch s) (pcs s) log) tr (abs (ch s') (pcs s') log').
Proof.
  revert s log n tr. induction acts as [|a acts IH]; cbn [exec]; intros s log n tr H Hn E.
  { simplify_eq. exists log. rewrite zlen_nil, Z.add_0_r. split; [done|constructor]. }
  destruct (act s a) as [[s1 l]|] eqn:Ea; [|done]. destruct (exec s1 acts) as [[s2 tr2]|] eqn:Ee; simplify_eq.
  rewrite zlen_cons in *. pose proof (zlen_nonneg acts).
  destruct (act_sim _ _ _ _ _ _ H ltac:(lia) Ea) as (Ec & log1 & H1 & Hs).
  destruct (IH s1 log1 (n + 1) tr2 H1 ltac:(lia) Ee) as (log2 & H2 & Hr). exists log2.
  split; [by replace (n + (zlen acts + 1)) with (n + 1 + zlen acts) by lia|]. rewrite Ec in Hr. by econstructor.
Qed.

End ring.

(** ** The initial channel *)

Lemma pow2_from_spec fuel k n : 0 <= k -> 2 ^ k < 2 * n -> n <= 2 ^ (k + Z.of_nat fuel) -> n <= 2 ^ 62 ->
  exists j, k <= j /\ pow2_from fuel (2 ^ k) n = 2 ^ j /\ n <= 2 ^ j < 2 * n.
Proof.
  revert k. induction fuel as [|fuel IH]; intros k Hk Hlt Hf Hn; cbn [pow2_from].
  { rewrite Z.add_0_r in Hf. exists k. lia. }
  destruct (Z.ltb_spec (2 ^ k) n); [|exists k; lia].
  assert (2 ^ k << 1 = 2 ^ (k + 1)) as E by (rewrite Z.shiftl_mul_pow2, Z.pow_add_r by lia; lia).
  assert (2 ^ (k + 1) = 2 * 2 ^ k) as E2 by (rewrite Z.pow_add_r by lia; lia).
  rewrite E, wrap_small by (unfold in_range; lia).
  destruct (IH (k + 1)) as (j & Hj & -> & Hb); [lia|lia|by replace (k + 1 + Z.of_nat fuel) with (k + Z.of_nat (S fuel)) by lia|done|].
  exists j. split; [lia|done].
Qed.

Lemma next_pow2_spec n : 2 <= n <= 2 ^ 62 -> exists k, 1 <= k <= 62 /\ next_pow2 n = 2 ^ k /\ n <= 2 ^ k < 2 * n.
Proof.
  intros Hn. unfold next_pow2. destruct (Z.eqb_spec n 0); [lia|]. change (pow2_from 64 1 n) with (pow2_from 64 (2 ^ 0) n).
  destruct (pow2_from_spec 64 0 n) as (k & Hk & -> & Hb); [lia|change (2 ^ 0) with 1; lia| |lia|].
  { change (2 ^ (0 + Z.of_nat 64)) with (2 ^ 62 * 4). lia. }
  exists k. split; [|done]. assert (2 ^ k < 2 ^ 63) as Hp by lia. apply Z.pow_lt_mono_r_iff in Hp; [|lia..].
  split; [|lia]. destruct (decide (k = 0)) as [->|]; [change (2 ^ 0) with 1 in Hb|]; lia.
Qed.

Lemma init_ok {T : Type} capacity tasks : capacity <= 2 ^ 62 ->
  ring_ok (ch (@init T capacity tasks)) (pcs (@init T capacity tasks)) [] 0.
Proof.
  intros Hcap. destruct (next_pow2_spec (Z.max capacity 2) ltac:(lia)) as (k & Hk & E & Hb).
  cbn [init ch pcs]. set (c := @new_channel T capacity). assert (capacity_ c = 2 ^ k) as Ec by exact E.
  assert (slots_ c = map (fun i => mkSlot i None) (seqZ 0 (2 ^ k))) as Es by (unfold c, new_channel; cbn; by rewrite E).
  assert (zlen (slots_ c) = capacity_ c) as El by (rewrite Es, zlen_map, Ec; unfold zlen; rewrite length_seqZ; lia).
  constructor; cbn [c new_channel head_ tail_]; try done; try lia.
  - exists k. by rewrite Ec.
  - intros p Hp. change (tail_ c) with 0 in Hp. change (capacity_ (new_channel capacity)) with (capacity_ c) in Hp.
    unfold cell_ok. change (head_ c) with 0.
    destruct (Z.leb_spec 0 p); [lia|]. right. unfold seq_at, slot. rewrite slot_index_mod by (exists k; by rewrite Ec).
    rewrite nth_lookup, Es, list_lookup_fmap.
    assert (p mod capacity_ c = p + capacity_ c) as -> by (symmetry; apply (Z.mod_unique p _ (-1)); lia).
    rewrite (lookup_seqZ_lt 0 (2 ^ k)) by lia. cbn. lia.
  - intros i x Hx. apply lookup_replicate in Hx as [-> _]. done.
  - intros i j x y p Hx _ Ho. apply lookup_replicate in Hx as [-> _]. done.
Qed.

Lemma abs_init {T : Type} capacity tasks :
  abs (ch (@init T capacity tasks)) (pcs (@init T capacity tasks)) [] = mkQueue [] false (replicate tasks TIdle).
Proof. unfold abs. cbn. by rewrite fmap_replicate. Qed.

(** ** An operation that runs alone *)

Section solo.
Context {T : Type} (i : nat).
Implicit Types (s : st T).

(** The spurious failures in a sequence of steps. *)
Definition fails (ws : list bool) : nat := length (filter (fun w => w = true) ws).

Lemma fails_take k ws : (fails (take k ws) <= fails ws)%nat.
Proof. unfold fails. rewrite <- (take_drop k ws) at 2. rewrite filter_app, length_app. lia. Qed.

(** Task [i] returns after some of the steps of its own. *)
Definition returns s (ws : list bool) : Prop :=
  exists k s' tr r, (k <= length ws)%nat /\ exec s (map (ARun i) (take k ws)) = Some (s', tr ++ [Ret i r]).

Lemma returns_now s w ws : (exists s' r, act s (ARun i w) = Some (s', Ret i r)) -> returns s (w :: ws).
Proof. intros (s' & r & E). exists 1%nat, s', [], r. split; [cbn; lia|]. cbn -[act]. by rewrite E. Qed.

Lemma returns_next s s1 l w ws : act s (ARun i w) = Some (s1, l) -> returns s1 ws -> returns s (w :: ws).
Proof.
  intros E (k & s' & tr & r & Hk & Ee). exists (S k), s', (l :: tr), r. split; [cbn; lia|]. cbn [take map exec]. by rewrite E, Ee.
Qed.

(** [K] steps are enough, and two more for each spurious failure, in sequences of at most [n]. *)
Definition within (n K : nat) s : Prop := forall ws, (length ws <= n)%nat -> (K + 2 * fails ws <= length ws)%nat -> returns s ws.

Lemma within_0 K s : within 0 (S K) s.
Proof. intros ws Hn Hw. lia. Qed.

Lemma within_le n K K' s : (K <= K')%nat -> within n K s -> within n K' s.
Proof. intros H Hk ws Hn Hw. apply Hk; lia. Qed.

Lemma within_now n K s x r : pcs s !! i = Some x ->
  (forall w, exists c ws, run_pc (ch s) (posted_ s) i w x = Some (c, ws, (Idle, Ret i r))) -> within n (S K) s.
Proof.
  intros Hx E [|w ws] Hn Hw; [cbn in Hw; lia|]. destruct (E w) as (c & p & Er). apply returns_now. unfold act. rewrite Hx, Er. eauto.
Qed.

(** A step that a spurious failure may send another way. *)
Lemma within_step n K s x : pcs s !! i = Some x ->
  (forall w : bool, exists c ws x' l, run_pc (ch s) (posted_ s) i w x = Some (c, ws, (x', l)) /\
    forall s', ch s' = c -> pcs s' !! i = Some x' -> within (pred n) (if w then K + 2 else K) s') -> within n (S K) s.
Proof.
  intros Hx E [|w ws] Hn Hw; [cbn in Hw; lia|]. destruct (E w) as (c & p & x' & l & Er & H).
  eapply (returns_next _ (mkSt c (<[i := x']> (pcs s)) p)); [unfold act; by rewrite Hx, Er|]. apply H; [done| |cbn in Hn; lia|].
  - cbn. apply list_lookup_insert_eq. by eapply lookup_lt_Some.
  - unfold fails in *. rewrite filter_cons in Hw. destruct w; [rewrite decide_True in Hw by done|rewrite decide_False in Hw by done]; cbn [length] in Hw; lia.
Qed.

Lemma within_next n K s x c ws x' l : pcs s !! i = Some x -> (forall w, run_pc (ch s) (posted_ s) i w x = Some (c, ws, (x', l))) ->
  (forall s', ch s' = c -> pcs s' !! i = Some x' -> within (pred n) K s') -> within n (S K) s.
Proof.
  intros Hx E H. apply (within_step _ _ _ x Hx). intros w. eexists _, _, _, _. split; [apply E|]. intros s' Hc Hx'.
  eapply within_le; [|by apply H]. destruct w; lia.
Qed.

Lemma solo_send_count n s m v : pcs s !! i = Some (PSend m v SCount) -> within n 2 s.
Proof.
  intros Hx. destruct (recv_waiter_count_ (ch s) =? 0) eqn:E.
  - eapply (within_now _ _ _ _ Sent Hx). intros w. eexists _, _. cbn. by rewrite E.
  - eapply (within_next _ _ _ _ _ _ _ _ Hx); [intros w; cbn; by rewrite E|]. intros s' _ Hx'.
    eapply (within_now _ _ _ _ Sent Hx'). intros w. cbn. destruct (wake_one_receiver_slow _). eauto.
Qed.

Lemma solo_send_write n s m v p : pcs s !! i = Some (PSend m v (SWrite p)) -> within n 4 s.
Proof.
  intros Hx. eapply (within_next _ _ _ _ _ _ _ _ Hx); [intros w; reflexivity|]. intros s1 _ Hx1.
  eapply (within_next _ _ _ _ _ _ _ _ Hx1); [intros w; reflexivity|]. intros s2 _ Hx2. by eapply solo_send_count.
Qed.

Lemma solo_recv_count n s m x : pcs s !! i = Some (PRecv m (RCount x)) -> within n 2 s.
Proof.
  intros Hx. destruct (send_waiter_count_ (ch s) =? 0) eqn:E.
  - eapply (within_now _ _ _ _ (Received x) Hx). intros w. eexists _, _. cbn. by rewrite E.
  - eapply (within_next _ _ _ _ _ _ _ _ Hx); [intros w; cbn; by rewrite E|]. intros s' _ Hx'.
    eapply (within_now _ _ _ _ (Received x) Hx'). intros w. cbn. destruct (wake_one_sender_slow _). eauto.
Qed.

Lemma solo_recv_read n s m p : pcs s !! i = Some (PRecv m (RRead p)) -> within n 4 s.
Proof.
  intros Hx. eapply (within_next _ _ _ _ _ _ _ _ Hx); [intros w; reflexivity|]. intros s1 _ Hx1.
  eapply (within_next _ _ _ _ _ _ _ _ Hx1); [intros w; reflexivity|]. intros s2 _ Hx2. by eapply solo_recv_count.
Qed.

(** The number at the tail is never ahead of the tail, that at the head never ahead of [head + 1]. *)
Definition current (c : chan T) : Prop :=
  intptr (sequence (slot c (tail_ c))) <= intptr (tail_ c) /\
  intptr (sequence (slot c (head_ c))) <= intptr (u64 (head_ c + 1)).

Lemma solo_send_tail n : forall s v, current (ch s) -> pcs s !! i = Some (PSend Try v (SSeq (tail_ (ch s)))) -> within n 6 s.
Proof.
  induction n as [n IH] using lt_wf_ind. intros s v Hcur Hx. destruct n as [|n]; [apply within_0|]. pose proof Hcur as [Hc _]. set (c := ch s) in *.
  destruct (Z.eqb_spec (intptr (sequence (slot c (tail_ c))) - intptr (tail_ c)) 0) as [E|E].
  - eapply (within_next _ _ _ _ _ _ _ _ Hx); [intros w; cbn; fold c; by rewrite E|]. intros s1 Hc1 Hx1.
    eapply (within_step _ _ _ _ Hx1). intros [|]; eexists _, _, _, _; (split; [cbn; rewrite Hc1, Z.eqb_refl; reflexivity|]); intros s2 Hc2 Hx2.
    + apply (IH (pred n) ltac:(lia) s2 v); [by rewrite Hc2|]. by rewrite Hc2.
    + by eapply solo_send_write.
  - eapply (within_now _ _ _ _ Refused Hx). intros w. eexists _, _. cbn. fold c. apply Z.eqb_neq in E as E'. rewrite E'.
    destruct (Z.ltb_spec (intptr (sequence (slot c (tail_ c))) - intptr (tail_ c)) 0); [done|lia].
Qed.

Lemma solo_recv_head n : forall s, current (ch s) -> pcs s !! i = Some (PRecv Try (RSeq (head_ (ch s)))) -> within n 6 s.
Proof.
  induction n as [n IH] using lt_wf_ind. intros s Hcur Hx. destruct n as [|n]; [apply within_0|]. pose proof Hcur as [_ Hc]. set (c := ch s) in *.
  destruct (Z.eqb_spec (intptr (sequence (slot c (head_ c))) - intptr (u64 (head_ c + 1))) 0) as [E|E].
  - eapply (within_next _ _ _ _ _ _ _ _ Hx); [intros w; cbn; fold c; by rewrite E|]. intros s1 Hc1 Hx1.
    eapply (within_step _ _ _ _ Hx1). intros [|]; eexists _, _, _, _; (split; [cbn; rewrite Hc1, Z.eqb_refl; reflexivity|]); intros s2 Hc2 Hx2.
    + apply (IH (pred n) ltac:(lia) s2); [by rewrite Hc2|]. by rewrite Hc2.
    + by eapply solo_recv_read.
  - eapply (within_now _ _ _ _ NoItem Hx). intros w. eexists _, _. cbn. fold c. apply Z.eqb_neq in E as E'. rewrite E'.
    destruct (Z.ltb_spec (intptr (sequence (slot c (head_ c))) - intptr (u64 (head_ c + 1))) 0); [done|lia].
Qed.

Lemma ring_current (c : chan T) ps log n : ring_ok c ps log n -> n < 2 ^ 62 -> current c.
Proof.
  intros H Hn. pose proof (ok_cap_ge _ _ _ _ H). pose proof (ok_pos _ _ _ _ H). pose proof (ok_bound _ _ _ _ H).
  change (current c) with (intptr (seq_at c (tail_ c)) <= intptr (tail_ c) /\ intptr (seq_at c (head_ c)) <= intptr (u64 (head_ c + 1))).
  rewrite wrap_small by (unfold in_range; lia).
  split; (rewrite !intptr_small; [|change (2 ^ 63) with (2 ^ 62 + 2 ^ 62); lia|eapply seq_range; eauto; lia]).
  - destruct (seq_cases c ps log n (tail_ c) H ltac:(lia)) as (q & Hq & -> & Hcell & Hpq). unfold cell_ok in Hcell.
    destruct (Z.leb_spec (head_ c) q); intuition lia.
  - destruct (seq_cases c ps log n (head_ c) H ltac:(lia)) as (q & Hq & -> & Hcell & Hpq). unfold cell_ok in Hcell.
    destruct (Z.leb_spec (head_ c) q); intuition lia.
Qed.

Lemma solo_send_start n s v : current (ch s) -> pcs s !! i = Some (PSend Try v STail) -> within n 7 s.
Proof.
  intros Hc Hx. eapply (within_next _ _ _ _ _ _ _ _ Hx); [intros w; reflexivity|]. intros s1 Hc1 Hx1.
  eapply solo_send_tail; [by rewrite Hc1|]. rewrite Hc1. exact Hx1.
Qed.

Lemma solo_send_cas n s v p : current (ch s) -> pcs s !! i = Some (PSend Try v (SCas p)) -> within n 7 s.
Proof.
  intros Hc Hx. eapply (within_step _ _ _ _ Hx). intros w.
  destruct ((tail_ (ch s) =? p) && negb w) eqn:E; eexists _, _, _, _; (split; [cbn; rewrite E; reflexivity|]); intros s1 Hc1 Hx1.
  - eapply within_le; [|by eapply solo_send_write]. destruct w; lia.
  - eapply within_le; [|eapply solo_send_tail; [by rewrite Hc1|rewrite Hc1; exact Hx1]]. destruct w; lia.
Qed.

Lemma solo_recv_start n s : current (ch s) -> pcs s !! i = Some (PRecv Try RHead) -> within n 7 s.
Proof.
  intros Hc Hx. eapply (within_next _ _ _ _ _ _ _ _ Hx); [intros w; reflexivity|]. intros s1 Hc1 Hx1.
  eapply solo_recv_head; [by rewrite Hc1|]. rewrite Hc1. exact Hx1.
Qed.

Lemma solo_recv_cas n s p : current (ch s) -> pcs s !! i = Some (PRecv Try (RCas p)) -> within n 7 s.
Proof.
  intros Hc Hx. eapply (within_step _ _ _ _ Hx). intros w.
  destruct ((head_ (ch s) =? p) && negb w) eqn:E; eexists _, _, _, _; (split; [cbn; rewrite E; reflexivity|]); intros s1 Hc1 Hx1.
  - eapply within_le; [|by eapply solo_recv_read]. destruct w; lia.
  - eapply within_le; [|eapply solo_recv_head; [by rewrite Hc1|rewrite Hc1; exact Hx1]]. destruct w; lia.
Qed.

Lemma solo_send n s log v p : current (ch s) -> task_ok (ch s) log (PSend Try v p) -> pcs s !! i = Some (PSend Try v p) -> within n 8 s.
Proof.
  intros Hc Ht Hx. destruct p; cbn in Ht; try done.
  - destruct (closed_ (ch s)) eqn:E.
    + eapply (within_now _ _ _ _ Refused Hx). intros w. eexists _, _. cbn. by rewrite E.
    + eapply (within_next _ _ _ _ _ _ _ _ Hx); [intros w; cbn; by rewrite E|]. intros s1 Hc1 Hx1.
      eapply solo_send_start; [by rewrite Hc1|done].
  - eapply within_le; [|by eapply solo_send_start]. lia.
  - destruct (intptr (sequence (slot (ch s) pos)) - intptr pos =? 0) eqn:E.
    + eapply (within_next _ _ _ _ _ _ _ _ Hx); [intros w; cbn; by rewrite E|]. intros s1 Hc1 Hx1.
      eapply solo_send_cas; [by rewrite Hc1|done].
    + destruct (intptr (sequence (slot (ch s) pos)) - intptr pos <? 0) eqn:E'.
      * eapply (within_now _ _ _ _ Refused Hx). intros w. eexists _, _. cbn. by rewrite E, E'.
      * eapply (within_next _ _ _ _ _ _ _ _ Hx); [intros w; cbn; by rewrite E, E'|]. intros s1 Hc1 Hx1.
        eapply solo_send_start; [by rewrite Hc1|done].
  - eapply within_le; [|by eapply solo_send_cas]. lia.
  - eapply within_le; [|by eapply solo_send_write]. lia.
  - eapply (within_next _ _ _ _ _ _ _ _ Hx); [intros w; reflexivity|]. intros s1 _ Hx1. eapply within_le; [|by eapply solo_send_count]. lia.
  - eapply within_le; [|by eapply solo_send_count]. lia.
  - eapply (within_now _ _ _ _ Sent Hx). intros w. cbn. destruct (wake_one_receiver_slow _). eauto.
Qed.

Lemma solo_recv n s log p : current (ch s) -> task_ok (ch s) log (PRecv Try p) -> pcs s !! i = Some (PRecv Try p) -> within n 8 s.
Proof.
  intros Hc Ht Hx. destruct p; cbn in Ht; try done.
  - eapply within_le; [|by eapply solo_recv_start]. lia.
  - destruct (intptr (sequence (slot (ch s) pos)) - intptr (u64 (pos + 1)) =? 0) eqn:E.
    + eapply (within_next _ _ _ _ _ _ _ _ Hx); [intros w; cbn; by rewrite E|]. intros s1 Hc1 Hx1.
      eapply solo_recv_cas; [by rewrite Hc1|done].
    + destruct (intptr (sequence (slot (ch s) pos)) - intptr (u64 (pos + 1)) <? 0) eqn:E'.
      * eapply (within_now _ _ _ _ NoItem Hx). intros w. eexists _, _. cbn. by rewrite E, E'.
      * eapply (within_next _ _ _ _ _ _ _ _ Hx); [intros w; cbn; by rewrite E, E'|]. intros s1 Hc1 Hx1.
        eapply solo_recv_start; [by rewrite Hc1|done].
  - eapply within_le; [|by eapply solo_recv_cas]. lia.
  - eapply within_le; [|by eapply solo_recv_read]. lia.
  - eapply (within_next _ _ _ _ _ _ _ _ Hx); [intros w; reflexivity|]. intros s1 _ Hx1. eapply within_le; [|by eapply solo_recv_count]. lia.
  - eapply within_le; [|by eapply solo_recv_count]. lia.
  - eapply (within_now _ _ _ _ (Received x) Hx). intros w. cbn. destruct (wake_one_sender_slow _). eauto.
Qed.

End solo.

(** ** The theorems *)

Lemma reachable_ok {T} capacity tasks (acts : list (action T)) s tr :
  capacity <= 2 ^ 62 -> zlen acts <= 2 ^ 62 -> exec (init capacity tasks) acts = Some (s, tr) ->
  exists log, ring_ok (ch s) (pcs s) log (zlen acts) /\
    spec_run (next_pow2 (Z.max capacity 2)) (mkQueue [] false (replicate tasks TIdle)) tr (abs (ch s) (pcs s) log).
Proof.
  intros Hc Hn E. destruct (exec_sim _ _ _ _ _ _ (init_ok capacity tasks Hc) Hn E) as (log & H & Hr).
  rewrite abs_init in Hr. eauto.
Qed.

(** C4.  Any interleaving of the sends, receives and closes of any number of tasks is an
    execution of an atomic queue of the rounded-up capacity with the same calls, effects
    and returns: items come out once each, in the order they went in, never more than
    the capacity are inside; [try_send] fails only when the channel is closed, full or a
    receive is releasing its slot, [try_recv] only when it is empty or a send is
    publishing its item. *)
Theorem channel_refines_queue {T} capacity tasks (acts : list (action T)) s tr :
  capacity <= 2 ^ 62 -> zlen acts <= 2 ^ 62 -> exec (init capacity tasks) acts = Some (s, tr) ->
  let cap := next_pow2 (Z.max capacity 2) in
  Z.max capacity 2 <= cap < 2 * Z.max capacity 2 /\
  exists q, spec_run cap (mkQueue [] false (replicate tasks TIdle)) tr q /\
    enqs tr = deqs tr ++ items q /\ zlen (items q) <= cap /\ zlen (items q) = tail_ (ch s) - head_ (ch s).
Proof.
  intros Hc Hn E cap. destruct (reachable_ok _ _ _ _ _ Hc Hn E) as (log & H & Hr).
  destruct (next_pow2_spec (Z.max capacity 2) ltac:(lia)) as (k & _ & Ek & Hb). split; [unfold cap; lia|].
  eexists. split; [exact Hr|]. split_and!.
  - exact (spec_fifo _ _ _ _ Hr).
  - apply (spec_bounded _ _ _ _ Hr). cbn. unfold cap. rewrite zlen_nil. lia.
  - exact (zlen_items _ _ _ _ H).
Qed.

(** C39.  In every reachable state a [try_send] or [try_recv], wherever it is, returns if the
    other tasks do not run: within eight steps of its own, and two more for each time its
    [compare_exchange_weak] fails without reason.  [ws] tells at which of its steps that
    happens.  The capacity is at most 2^62 and fewer steps have been made. *)
Theorem try_ops_return {T} capacity tasks (acts : list (action T)) s tr i (ws : list bool) :
  capacity <= 2 ^ 62 -> zlen acts < 2 ^ 62 -> exec (init capacity tasks) acts = Some (s, tr) ->
  (exists v p, pcs s !! i = Some (PSend Try v p)) \/ (exists p, pcs s !! i = Some (PRecv Try p)) ->
  (8 + 2 * fails ws <= length ws)%nat ->
  exists k s' tr' r, (k <= 8 + 2 * fails ws)%nat /\ exec s (map (ARun i) (take k ws)) = Some (s', tr' ++ [Ret i r]).
Proof.
  intros Hc Hn E Hi Hws. destruct (reachable_ok _ _ _ _ _ Hc (Z.lt_le_incl _ _ Hn) E) as (log & H & _).
  pose proof (ring_current _ _ _ _ H Hn) as Hcur. set (K := (8 + 2 * fails ws)%nat) in *.
  assert (within i K 8 s) as Hin.
  { destruct Hi as [(v & p & Hx)|(p & Hx)]; pose proof (ok_tasks _ _ _ _ H _ _ Hx); [by eapply solo_send|by eapply solo_recv]. }
  destruct (Hin (take K ws)) as (k & s' & tr' & r & Hk & Er); [rewrite length_take; lia|rewrite length_take; pose proof (fails_take K ws); lia|].
  rewrite length_take in Hk. exists k, s', tr', r. split; [lia|]. rewrite take_take in Er. by replace (k `min` K)%nat with k in Er by lia.
Qed.

(** ** Witnesses *)

(** Two senders race for a slot: the second one's exchange fails and it takes the next. *)
Definition race : list (action Z) :=
  [ACall 0 (OpSend Try 10); ACall 1 (OpSend Async 11)] ++ replicate 3 (ARun 0 false) ++ replicate 3 (ARun 1 false) ++
  [ARun 0 false] ++ replicate 6 (ARun 1 false) ++ [ACall 2 (OpRecv Try)].

Lemma channel_refines_queue_witness : exists s tr, exec (init 3 3) race = Some (s, tr) /\
  exists q, spec_run 4 (mkQueue [] false (replicate 3 TIdle)) tr q /\ enqs tr = [10; 11] /\ enqs tr = deqs tr ++ items q.
Proof.
  eexists _, _. split; [vm_compute; reflexivity|].
  edestruct (channel_refines_queue 3 3 race) as (_ & q & Hr & Hf & _ & _); [by vm_compute..|vm_compute; reflexivity|].
  exists q. split; [exact Hr|]. split; [reflexivity|exact Hf].
Defined.

Lemma try_ops_return_witness : exists s tr, exec (init 3 3) race = Some (s, tr) /\
  exists k s' tr' r, (k <= 10)%nat /\ exec s (map (ARun 2) (take k (replicate 2 false ++ [true] ++ replicate 9 false))) = Some (s', tr' ++ [Ret 2 r]).
Proof.
  eexists _, _. split; [vm_compute; reflexivity|].
  eapply (try_ops_return 3 3 race _ _ 2 (replicate 2 false ++ [true] ++ replicate 9 false)); [by vm_compute..|vm_compute; reflexivity| |vm_compute; lia].
  right. exists RHead. reflexivity.
Defined.
