(* ===== verification/ChannelWakeup.v ===== *)
(** * Waking the receivers of a channel

    With one consumer task, which only receives, no wake-up is lost: a receiver stays
    suspended only while the channel is empty and open, or while another task still has
    the wake-up to deliver.  With two consumers there is an interleaving that leaves a
    receiver suspended beside an item; and there is one in which [recv] reports the end
    of the stream although an item sent before the close is still inside. *)

From stdpp Require Import list.
From S2P Require Import Prelude AsyncChannel.
#[local] Open Scope Z_scope.
#[local] Open Scope word_scope.

Section wakeup.
Context {T : Type} (r : nat).
Implicit Types (c : chan T) (ps : list (pc T)) (x y : pc T).

(** The receiver has put itself into the list and has not gone on since. *)
Definition waiting x : bool :=
  match x with
  | PRecv _ (RCheckTail | RCheckHead _ | RCheckClosed | RRemove | RSuspended) => true
  | _ => false
  end.

(** A send that has claimed its slot and not yet looked for a receiver to wake. *)
Definition waking x : bool :=
  match x with PSend _ _ (SWrite _ | SPub _ | SCount | SWake) => true | _ => false end.

(** A close that has set the flag and not yet taken the list of receivers. *)
Definition closing x : bool :=
  match x with PClose (CRecvCount | CRecv) => true | _ => false end.

Definition receiving x : bool := match x with PRecv _ _ => true | _ => false end.

Definition some_task (f : pc T -> bool) ps : Prop := exists j y, ps !! j = Some y /\ f y = true.

(** How often the receiver's resumption has been posted. *)
Definition times (l : list nat) : nat := count_occ Nat.eq_dec l r.

(** The list holds at most the receiver, and the counter says so. *)
Definition listed c : Prop :=
  (recv_waiters_ c = [] /\ recv_waiter_count_ c = 0) \/ (recv_waiters_ c = [r] /\ recv_waiter_count_ c = 1).

Record wake_ok c ps (posted : list nat) x : Prop := {
  wk_self : ps !! r = Some x;
  wk_kind : receiving x = true \/ x = Idle;
  wk_sole j y : j <> r -> ps !! j = Some y -> receiving y = false;
  wk_list : listed c;
  wk_senders : r ∉ send_waiters_ c;
  wk_place : (length (recv_waiters_ c) + times posted = if waiting x then 1 else 0)%nat;
  wk_queue : recv_waiters_ c = [r] ->
    match x with
    | PRecv _ (RCheckHead t) => t = tail_ c \/ some_task waking ps
    | PRecv _ (RCheckClosed | RSuspended) => head_ c = tail_ c \/ some_task waking ps
    | _ => True
    end;
  wk_closed : recv_waiters_ c = [r] ->
    match x with
    | PRecv _ RSuspended => closed_ c = false \/ some_task closing ps
    | _ => True
    end;
}.

Lemma times_app a b : times (a ++ b) = (times a + times b)%nat.
Proof. apply count_occ_app. Qed.

Lemma times_none l : r ∉ l -> times l = 0%nat.
Proof. rewrite list_elem_of_In. apply count_occ_not_In. Qed.

Lemma times_self : times [r] = 1%nat.
Proof. unfold times. cbn. by destruct (Nat.eq_dec r r). Qed.

Lemma unlink_elem w l l' : unlink w l = Some l' -> forall z, z ∈ l' -> z ∈ l.
Proof.
  revert l'. induction l as [|a l IH]; intros l'; cbn; [done|]. destruct (Nat.eqb a w).
  - intros [= <-] z Hz. by right.
  - destruct (unlink w l) as [k|]; [|done]. intros [= <-] z [->|Hz]%elem_of_cons; [left|right; eauto].
Qed.

Lemma times_unlink w l l' : unlink w l = Some l' -> times l = ((if Nat.eqb w r then 1 else 0) + times l')%nat.
Proof.
  revert l'. induction l as [|a l IH]; intros l'; cbn; [done|]. destruct (Nat.eqb_spec a w) as [->|Ha].
  - intros [= <-]. unfold times. cbn. destruct (Nat.eq_dec w r), (Nat.eqb_spec w r); congruence || lia.
  - destruct (unlink w l) as [k|]; [|done]. intros [= <-]. specialize (IH k eq_refl). unfold times in *. cbn.
    destruct (Nat.eq_dec a r); lia.
Qed.

Lemma unlink_none w l : unlink w l = None -> w ∉ l.
Proof.
  induction l as [|a l IH]; cbn; [intros; apply not_elem_of_nil|]. destruct (Nat.eqb_spec a w) as [->|Ha]; [done|].
  destruct (unlink w l); [done|]. intros _. apply not_elem_of_cons. auto.
Qed.

(** What a step of another task does to the receiver. *)
Definition respects c posted x c' posted' x' : Prop :=
  head_ c' = head_ c /\ listed c' /\ (r ∉ send_waiters_ c') /\ receiving x' = false /\
  (length (recv_waiters_ c') + times posted' = length (recv_waiters_ c) + times posted)%nat /\
  (recv_waiters_ c' = [r] -> recv_waiters_ c = [r] /\
     (tail_ c' = tail_ c \/ waking x' = true) /\ (waking x = true -> waking x' = true) /\
     (closed_ c' = closed_ c \/ closing x' = true) /\ (closing x = true -> closing x' = true)).

Lemma respects_ring c c' posted posted' x x' :
  head_ c' = head_ c -> recv_waiters_ c' = recv_waiters_ c -> recv_waiter_count_ c' = recv_waiter_count_ c -> closed_ c' = closed_ c ->
  listed c -> r ∉ send_waiters_ c' -> receiving x' = false -> times posted' = times posted ->
  (tail_ c' = tail_ c \/ waking x' = true) -> (waking x = true -> waking x' = true) -> (closing x = true -> closing x' = true) ->
  respects c posted x c' posted' x'.
Proof. intros E1 E2 E3 E4 Hl Hs Hr Ht Hw Hk Hc. unfold respects, listed in *. rewrite E1, E2, E3, E4, Ht. naive_solver. Qed.

Lemma wake_one_listed c : listed c ->
  let '(c', ws) := wake_one_receiver_slow c in
  recv_waiters_ c' = [] /\ recv_waiter_count_ c' = 0 /\ ws = recv_waiters_ c /\
  head_ c' = head_ c /\ send_waiters_ c' = send_waiters_ c.
Proof. intros [[E1 E2]|[E1 E2]]; unfold wake_one_receiver_slow; rewrite E1; cbn; rewrite ?E1, ?E2; split_and!; done. Qed.

Lemma listed_times c : listed c -> times (recv_waiters_ c) = length (recv_waiters_ c).
Proof. intros [[-> _]|[-> _]]; [done|apply times_self]. Qed.

Lemma send_respects c posted i m v weak p c' posted' nx x' l :
  i <> r -> listed c -> r ∉ send_waiters_ c ->
  send_step c posted i m v weak p = Some (c', posted', nx) -> finish i (PSend m v) nx = (x', l) ->
  respects c posted (PSend m v p) c' posted' x'.
Proof.
  intros Hi Hl Hs E Ef.
  assert (forall b, closing (PSend m v p) = true -> b) as Hcl by done.
  destruct p; cbn in E; try (injection E as <- <- <-);
    try (repeat case_match; simplify_eq; cbn in Ef; simplify_eq; apply respects_ring; cbn; auto; fail).
  - (* SCount *) destruct (Z.eqb_spec (recv_waiter_count_ c) 0) as [E0|E0]; cbn in Ef; simplify_eq; [|apply respects_ring; cbn; auto].
    unfold respects. split_and!; try done. intros Hr. destruct Hl as [[? ?]|[? ?]]; congruence.
  - (* SWake *) pose proof (wake_one_listed c Hl) as Hw. destruct (wake_one_receiver_slow c) as [c1 ws].
    injection E as <- <- <-. cbn in Ef. simplify_eq. destruct Hw as (E1 & E2 & -> & E3 & E4).
    unfold respects, listed. rewrite E1, E3, E4, times_app, listed_times by done. split_and!; try done; [by left|cbn; lia].
  - (* SAdd *) cbn in Ef. simplify_eq. apply respects_ring; cbn; auto. by apply not_elem_of_cons.
  - (* SRemove *) unfold remove_send_waiter in E. destruct (unlink i (send_waiters_ c)) as [ws|] eqn:Eu;
      injection E as <- <- <-; cbn in Ef; simplify_eq; apply respects_ring; cbn; auto.
    intros Hin. by apply Hs, (unlink_elem i _ ws).
  - (* SSuspended *) destruct (unlink i posted) as [posted1|] eqn:Eu; [|done]. injection E as <- <- <-. cbn in Ef. simplify_eq.
    apply respects_ring; cbn; auto. apply times_unlink in Eu. destruct (Nat.eqb_spec i r); [done|]. cbn in Eu. lia.
Qed.

Lemma close_respects c posted i p c' posted' nx x' l :
  listed c -> r ∉ send_waiters_ c ->
  close_step c posted p = Some (c', posted', nx) -> finish i PClose nx = (x', l) ->
  respects c posted (PClose p) c' posted' x'.
Proof.
  intros Hl Hs E Ef. destruct p; cbn in E; injection E as <- <- <-.
  - cbn in Ef. simplify_eq. unfold respects. cbn. split_and!; try done. naive_solver.
  - destruct (Z.eqb_spec (recv_waiter_count_ c) 0) as [E0|E0]; cbn in Ef; simplify_eq; [|apply respects_ring; cbn; auto].
    unfold respects. split_and!; try done. intros Hr. destruct Hl as [[? ?]|[? ?]]; congruence.
  - cbn in Ef. simplify_eq. unfold respects, listed. cbn. rewrite times_app, listed_times by done.
    split_and!; try done; [by left|lia].
  - destruct (_ =? 0); cbn in Ef; simplify_eq; apply respects_ring; cbn; auto.
  - cbn in Ef. simplify_eq. apply respects_ring; cbn; auto.
    + apply not_elem_of_nil.
    + rewrite times_app, (times_none (send_waiters_ c)) by done. lia.
Qed.

(** A step that respects the receiver keeps the invariant. *)
Lemma wake_other c ps posted x i y c' posted' y' :
  wake_ok c ps posted x -> i <> r -> ps !! i = Some y -> respects c posted y c' posted' y' ->
  wake_ok c' (<[i := y']> ps) posted' x.
Proof.
  intros [H1 H2 H3 H4 H5 H6 H7 H8] Hi Hy (E1 & Hl & Hs & Hr & Ht & Hw).
  assert (forall f, (f y = true -> f y' = true) -> some_task f ps -> some_task f (<[i := y']> ps)) as Hsome.
  { intros f Hf (j & z & Hz & Hfz). destruct (decide (j = i)) as [->|Hj].
    - exists i, y'. rewrite list_lookup_insert_eq by (by eapply lookup_lt_Some). simplify_eq. auto.
    - exists j, z. by rewrite list_lookup_insert_ne by done. }
  assert (forall f, f y' = true -> some_task f (<[i := y']> ps)) as Hnew.
  { intros f Hf. exists i, y'. by rewrite list_lookup_insert_eq by (by eapply lookup_lt_Some). }
  constructor; try done.
  - by rewrite list_lookup_insert_ne by done.
  - intros j z Hj [(<- & <- & _)|[Hne Hz]]%list_lookup_insert_Some; [done|by eapply H3].
  - by rewrite Ht.
  - intros E. destruct (Hw E) as (E' & Htail & Hwk & _ & _). specialize (H7 E'). rewrite E1.
    destruct x as [| |m []|]; try done; destruct Htail as [Et|Et]; rewrite ?Et; auto; destruct H7; eauto.
  - intros E. destruct (Hw E) as (E' & _ & _ & Hc & Hck). specialize (H8 E').
    destruct x as [| |m []|]; try done; destruct Hc as [Ec|Ec]; rewrite ?Ec; auto; destruct H8; eauto.
Qed.

Lemma some_task_self f ps x x' : ps !! r = Some x -> f x = false -> some_task f ps -> some_task f (<[r := x']> ps).
Proof.
  intros Hx Hf (j & y & Hy & Hfy). exists j, y. rewrite list_lookup_insert_ne; [done|]. intros <-. congruence.
Qed.

(** The receiver moves on without touching its place in the lists. *)
Lemma wake_self c ps posted x c' posted' x' :
  wake_ok c ps posted x -> receiving x' = true \/ x' = Idle -> listed c' -> r ∉ send_waiters_ c' ->
  (length (recv_waiters_ c') + times posted' = if waiting x' then 1 else 0)%nat ->
  (recv_waiters_ c' = [r] ->
    match x' with
    | PRecv _ (RCheckHead t) => t = tail_ c' \/ some_task waking (<[r := x']> ps)
    | PRecv _ (RCheckClosed | RSuspended) => head_ c' = tail_ c' \/ some_task waking (<[r := x']> ps)
    | _ => True
    end) ->
  (recv_waiters_ c' = [r] ->
    match x' with
    | PRecv _ RSuspended => closed_ c' = false \/ some_task closing (<[r := x']> ps)
    | _ => True
    end) ->
  wake_ok c' (<[r := x']> ps) posted' x'.
Proof.
  intros [H1 H2 H3 H4 H5 H6 H7 H8] Hk Hl Hs Hp Hq Hc. constructor; try done.
  - apply list_lookup_insert_eq. by eapply lookup_lt_Some.
  - intros j y Hj. rewrite list_lookup_insert_ne by done. by apply H3.
Qed.

Lemma waiters_nil c : listed c -> length (recv_waiters_ c) = 0%nat -> recv_waiters_ c = [] /\ recv_waiter_count_ c = 0.
Proof. intros [H|[H _]]; [done|]. rewrite H. done. Qed.

Lemma recv_wake c ps posted m weak p c' posted' nx x' l :
  wake_ok c ps posted (PRecv m p) -> recv_step c posted r m weak p = Some (c', posted', nx) ->
  finish r (PRecv m) nx = (x', l) -> wake_ok c' (<[r := x']> ps) posted' x'.
Proof.
  intros H E Ef. pose proof H as [H1 _ _ H4 H5 H6 H7 H8].
  destruct p; cbn in E; cbn [waiting] in H6; try (injection E as <- <- <-);
    try (repeat case_match; simplify_eq; cbn in Ef; simplify_eq; apply (wake_self _ _ _ _ _ _ _ H); cbn; auto;
         intros Hr; rewrite Hr in H6; cbn in H6; lia).
  - (* RWake *) unfold wake_one_sender_slow in E. destruct (send_waiters_ c) as [|w ws] eqn:Ew; injection E as <- <- <-; cbn in Ef; simplify_eq;
      apply (wake_self _ _ _ _ _ _ _ H); cbn; auto.
    + by rewrite Ew.
    + by rewrite app_nil_r.
    + intros Hin. apply H5. by right.
    + rewrite times_app, (times_none [w]); [lia|]. intros Hin. apply H5. apply list_elem_of_singleton in Hin as ->. by left.
  - (* RAdd *) cbn in Ef. simplify_eq. destruct (waiters_nil c H4 ltac:(lia)) as [Ew Ec].
    apply (wake_self _ _ _ _ _ _ _ H); [by left|right; cbn; by rewrite Ew, Ec|done| |done|done].
    cbn. rewrite Ew in *. cbn in *. lia.
  - (* RCheckHead *) destruct (is_empty t (head_ c)) eqn:Ee; cbn in Ef; simplify_eq; apply (wake_self _ _ _ _ _ _ _ H); cbn; auto.
    intros Hr. apply Z.eqb_eq in Ee as ->. destruct (H7 Hr); [by left|right]. by eapply some_task_self.
  - (* RCheckClosed *) destruct (closed_ c) eqn:Ec; cbn in Ef; simplify_eq; apply (wake_self _ _ _ _ _ _ _ H); cbn; auto.
    intros Hr. destruct (H7 Hr); [by left|right]. by eapply some_task_self.
  - (* RRemove *) unfold remove_recv_waiter in E. destruct H4 as [[Ew Ec]|[Ew Ec]]; rewrite Ew in E, H6; cbn in E, H6.
    + injection E as <- <- <-. cbn in Ef. simplify_eq. apply (wake_self _ _ _ _ _ _ _ H); cbn; rewrite ?Ew; auto; [by left|done..].
    + rewrite Nat.eqb_refl in E. injection E as <- <- <-. cbn in Ef. simplify_eq.
      apply (wake_self _ _ _ _ _ _ _ H); [by left|left; cbn; by rewrite Ec|done|cbn; lia|done|done].
  - (* RSuspended *) destruct (unlink r posted) as [posted1|] eqn:Eu; [|done]. simplify_eq. cbn in Ef. simplify_eq.
    apply times_unlink in Eu. rewrite Nat.eqb_refl in Eu.
    apply (wake_self _ _ _ _ _ _ _ H); cbn; auto. lia.
Qed.

End wakeup.

(** ** Executions with one consumer *)

Definition one_consumer {T} (r : nat) (acts : list (action T)) : Prop :=
  Forall (fun a => match a with
                   | ACall i (OpRecv _) => i = r
                   | ACall i _ => i <> r
                   | ARun _ _ => True
                   end) acts.

Lemma act_wake {T} r (s : st T) a s' l x :
  one_consumer r [a] -> wake_ok r (ch s) (pcs s) (posted_ s) x -> act s a = Some (s', l) ->
  exists x', wake_ok r (ch s') (pcs s') (posted_ s') x'.
Proof.
  intros Ha H E. unfold one_consumer in Ha. rewrite Forall_singleton in Ha. pose proof H as [H1 H2 H3 H4 H5 H6 H7 H8]. destruct a as [i o|i weak]; cbn in E.
  - destruct (pcs s !! i) as [[]|] eqn:Hi; simplify_eq. cbn. destruct (decide (i = r)) as [->|Hr].
    + destruct o; cbn in Ha; try congruence. eexists. simplify_eq. by apply (wake_self _ _ _ _ _ _ _ _ H); [left|..].
    + exists x. eapply wake_other; [done..|]. destruct o; cbn in Ha; try congruence; apply respects_ring; cbn; auto.
  - destruct (pcs s !! i) as [y|] eqn:Hi; [|done].
    destruct (run_pc (ch s) (posted_ s) i weak y) as [[[c ws] [y' l']]|] eqn:Er; simplify_eq. cbn.
    destruct (decide (i = r)) as [->|Hr].
    + simplify_eq. destruct y as [|m v p|m p|p]; cbn in Er; try done; try (by destruct H2).
      destruct (recv_step _ _ _ _ _ _) as [[[c1 ws1] nx]|] eqn:Es; simplify_eq. eexists. by eapply recv_wake.
    + pose proof (H3 _ _ Hr Hi) as Hnr. exists x. eapply wake_other; [done..|].
      destruct y as [|m v p|m p|p]; cbn in Er; try done.
      * destruct (send_step _ _ _ _ _ _ _) as [[[c1 ws1] nx]|] eqn:Es; simplify_eq. by eapply send_respects.
      * destruct (close_step _ _ _) as [[[c1 ws1] nx]|] eqn:Es; simplify_eq. by eapply close_respects.
Qed.

Lemma exec_wake {T} r (s : st T) acts s' tr x :
  one_consumer r acts -> wake_ok r (ch s) (pcs s) (posted_ s) x -> exec s acts = Some (s', tr) ->
  exists x', wake_ok r (ch s') (pcs s') (posted_ s') x'.
Proof.
  revert s x tr. induction acts as [|a acts IH]; cbn; intros s x tr Ha H E; [simplify_eq; eauto|].
  apply Forall_cons in Ha as [Ha Hr]. destruct (act s a) as [[s1 l]|] eqn:Ea; [|done].
  destruct (exec s1 acts) as [[s2 tr2]|] eqn:Ee; simplify_eq.
  destruct (act_wake r s a s1 l x) as [x1 H1]; [by apply Forall_singleton|done..|]. by eapply IH.
Qed.

Lemma init_wake {T} r capacity tasks : (r < tasks)%nat ->
  wake_ok r (ch (@init T capacity tasks)) (pcs (@init T capacity tasks)) [] Idle.
Proof.
  intros Hr. constructor; cbn; try done.
  - by apply lookup_replicate.
  - by right.
  - intros j y _ [-> _]%lookup_replicate. done.
  - by left.
  - apply not_elem_of_nil.
Qed.

(** C16.  With one consumer task that only receives, no wake-up is lost: in every
    reachable state in which the consumer is suspended, either its resumption has been
    posted and it can run, or the channel is empty or a send still has to look for
    waiters, and the channel is open or the close still has to wake them.  When no other
    task is inside an operation, a suspended consumer that cannot run means an empty
    open channel. *)
Theorem no_lost_wakeup {T} r capacity tasks (acts : list (action T)) s tr m :
  (r < tasks)%nat -> one_consumer r acts -> exec (init capacity tasks) acts = Some (s, tr) ->
  pcs s !! r = Some (PRecv m RSuspended) ->
  (exists s' l, act s (ARun r false) = Some (s', l)) \/
  ((head_ (ch s) = tail_ (ch s) \/ some_task waking (pcs s)) /\ (closed_ (ch s) = false \/ some_task closing (pcs s))) /\
  ((forall j y, j <> r -> pcs s !! j = Some y -> y = Idle) -> head_ (ch s) = tail_ (ch s) /\ closed_ (ch s) = false).
Proof.
  intros Hr Ha E Hx. destruct (exec_wake r _ _ _ _ _ Ha (init_wake r capacity tasks Hr) E) as (x & [H1 _ _ H4 _ H6 H7 H8]).
  simplify_eq. destruct (unlink r (posted_ s)) as [posted'|] eqn:Eu.
  { left. cbn. rewrite Hx. cbn. rewrite Eu. eauto. }
  right. cbn [waiting] in H6. rewrite (times_none r) in H6 by by apply unlink_none.
  destruct H4 as [[Ew _]|[Ew _]]; [rewrite Ew in H6; cbn in H6; lia|]. specialize (H7 Ew). specialize (H8 Ew).
  split; [done|]. intros Hidle.
  assert (forall f, f (PRecv m RSuspended) = false -> f Idle = false -> ~ some_task f (pcs s)) as Hn.
  { intros f Hf Hf' (j & y & Hy & Hfy). destruct (decide (j = r)) as [->|Hj]; [congruence|].
    rewrite (Hidle j y Hj Hy) in Hfy. congruence. }
  split; [destruct H7 as [|H7]|destruct H8 as [|H8]]; try done; exfalso; [by apply (Hn waking)|by apply (Hn closing)].
Qed.

(** ** Two interleavings *)

Definition steps (i n : nat) : list (action Z) := replicate n (ARun i false).

(** Two receivers find the channel empty.  An item is sent while neither is in the list;
    the first enters the list and loads the tail; the second enters, a second item is
    sent and wakes it, and it takes the first item; now the first loads the head. *)
Definition late_look : list (action Z) :=
  [ACall 0 (OpRecv Async); ACall 1 (OpRecv Async)] ++ steps 0 6 ++ steps 1 6 ++
  [ACall 2 (OpSend Async 11)] ++ steps 2 7 ++ steps 0 2 ++ steps 1 1 ++
  [ACall 2 (OpSend Async 22)] ++ steps 2 8 ++ steps 1 10 ++ steps 0 2.

(** A receiver finds the channel empty; an item is sent and the channel closed; the
    receiver loads the flag. *)
Definition late_flag : list (action Z) :=
  [ACall 0 (OpRecv Async)] ++ steps 0 2 ++ [ACall 1 (OpSend Async 11)] ++ steps 1 7 ++ [ACall 1 OpClose] ++ steps 1 3 ++ steps 0 1.

(** [recv] does not do all it says.  With two consumers a receiver can stay
    suspended, with no resumption posted and every other task idle, beside an item in the
    open channel: [is_empty] loads the tail before the head.  And a receiver can report
    the end of the stream while an item whose send had returned before the close is
    inside: [recv] loads [closed_] after an empty [try_recv] and does not look again. *)
Theorem recv_races :
  (exists s tr, exec (init 2 3) late_look = Some (s, tr) /\
     pcs s = [PRecv Async RSuspended; Idle; Idle] /\ act s (ARun 0 false) = None /\
     tail_ (ch s) - head_ (ch s) = 1 /\ storage (slot (ch s) (head_ (ch s))) = Some 22 /\ closed_ (ch s) = false) /\
  (exists s tr, exec (init 2 2) late_flag = Some (s, tr) /\
     last tr = Some (Ret 0 Eos) /\ In (Ret 1 Sent) tr /\ pcs s = [Idle; Idle] /\
     tail_ (ch s) - head_ (ch s) = 1 /\ storage (slot (ch s) (head_ (ch s))) = Some 11).
Proof.
  split; (eexists _, _; split; [vm_compute; reflexivity|]); split_and!; try (vm_compute; reflexivity).
  vm_compute. do 10 right. by left.
Qed.

(** ** Witnesses *)

Lemma no_lost_wakeup_witness : exists s tr, exec (init 2 2) (ACall 0 (OpRecv Async) :: steps 0 10 ++ ACall 1 (OpSend Try 5) :: steps 1 8) = Some (s, tr) /\
  exists s' l, act s (ARun 0 false) = Some (s', l).
Proof.
  eexists _, _. split; [vm_compute; reflexivity|].
  edestruct (no_lost_wakeup (T := Z) 0 2 2 (ACall 0 (OpRecv Async) :: steps 0 10 ++ ACall 1 (OpSend Try 5) :: steps 1 8))
    as [H|[_ H]]; [lia|repeat (apply Forall_cons; split; [done || discriminate|]); apply Forall_nil; done|vm_compute; reflexivity|reflexivity|exact H|].
  exfalso. destruct H as [H _]; [|discriminate H].
  intros [|[|j]] y Hj Hy; [done|by injection Hy as <-|discriminate Hy].
Defined.
