(* ===== verification/Spsc.v ===== *)
(** * The single-producer channel: [pipeline/spsc_channel.hpp]

    The ring of [SpscChannel] as steps of its two threads, one access to shared memory at a
    time, with 64-bit positions that wrap around; then the registration of waiting coroutines
    and their wake-up, which both sides share. *)

From stdpp Require Import list relations.
From S2P Require Import Prelude.
#[local] Open Scope Z_scope.

(** The point after a step, or what the call returned. *)
Inductive outcome (P R : Type) := At (p : P) | Returned (r : R).
Arguments At {P R} p.
Arguments Returned {P R} r.

Section channel.
Context {T : Type} (none : T).

(** ** The ring *)

Record SpscChannel := mkChannel { mask_ : Z; buffer_ : list T; head_ : Z; tail_ : Z; closed_ : bool }.

(** [while (p < n) p <<= 1] *)
Fixpoint pow2_loop (fuel : nat) (p n : Z) : Z :=
  match fuel with
  | O => p
  | S fuel => if p <? n then pow2_loop fuel (u64 (p << 1)) n else p
  end.

Definition next_pow2 (n : Z) : Z := if n =? 0 then 1 else pow2_loop 64 1 n.

Definition new_channel (capacity : Z) : SpscChannel :=
  let cap := next_pow2 (Z.max capacity 2) in
  mkChannel (cap - 1) (replicate (Z.to_nat cap) none) 0 0 false.

Definition capacity (c : SpscChannel) : Z := mask_ c + 1.

Definition slot (c : SpscChannel) (pos : Z) : nat := Z.to_nat (pos .& mask_ c).

Definition set_head (h : Z) (c : SpscChannel) := mkChannel (mask_ c) (buffer_ c) h (tail_ c) (closed_ c).
Definition set_tail (t : Z) (c : SpscChannel) := mkChannel (mask_ c) (buffer_ c) (head_ c) t (closed_ c).
Definition set_closed (c : SpscChannel) := mkChannel (mask_ c) (buffer_ c) (head_ c) (tail_ c) true.
Definition write (pos : Z) (x : T) (c : SpscChannel) := mkChannel (mask_ c) (<[slot c pos := x]> (buffer_ c)) (head_ c) (tail_ c) (closed_ c).

(** Where the producer is in [try_send_impl], and the consumer in [try_recv]. *)
Inductive ppc := PIdle | PCall (item : T) | POpen (item : T) | PTail (item : T) (tail : Z) | PHead (item : T) (tail head : Z) | PWritten (item : T) (tail : Z).
Inductive cpc := CIdle | CHead (head : Z) | CTail (head tail : Z) | CTaken (head : Z) (item : T).

Definition try_send_step (c : SpscChannel) (p : ppc) : SpscChannel * outcome ppc bool :=
  match p with
  | PIdle => (c, At PIdle)
  | PCall item => if closed_ c then (c, Returned false) else (c, At (POpen item))
  | POpen item => (c, At (PTail item (tail_ c)))
  | PTail item tail => (c, At (PHead item tail (head_ c)))
  | PHead item tail head => if capacity c <=? u64 (tail - head) then (c, Returned false) else (write tail item c, At (PWritten item tail))
  | PWritten item tail => (set_tail (u64 (tail + 1)) c, Returned true)
  end.

Definition try_recv_step (c : SpscChannel) (p : cpc) : SpscChannel * outcome cpc (option T) :=
  match p with
  | CIdle => (c, At (CHead (head_ c)))
  | CHead head => (c, At (CTail head (tail_ c)))
  | CTail head tail => if head =? tail then (c, Returned None) else (c, At (CTaken head (nth (slot c head) (buffer_ c) none)))
  | CTaken head item => (set_head (u64 (head + 1)) c, Returned (Some item))
  end.

Definition size_approx (c : SpscChannel) : Z := if head_ c <=? tail_ c then tail_ c - head_ c else 0.

(** ** The two threads *)

(** The channel, the threads, and what went in and came out. *)
Record system := mkSystem { chan : SpscChannel; producer : ppc; consumer : cpc; sent : list T; received : list T }.

Inductive step (s : system) : system -> Prop :=
  | step_call item : producer s = PIdle -> step s (mkSystem (chan s) (PCall item) (consumer s) (sent s) (received s))
  | step_send c p : producer s <> PIdle -> try_send_step (chan s) (producer s) = (c, At p) -> step s (mkSystem c p (consumer s) (sent s) (received s))
  | step_refused c : try_send_step (chan s) (producer s) = (c, Returned false) -> step s (mkSystem c PIdle (consumer s) (sent s) (received s))
  | step_sent c item tail : producer s = PWritten item tail -> try_send_step (chan s) (producer s) = (c, Returned true) ->
      step s (mkSystem c PIdle (consumer s) (sent s ++ [item]) (received s))
  | step_recv c p : try_recv_step (chan s) (consumer s) = (c, At p) -> step s (mkSystem c (producer s) p (sent s) (received s))
  | step_empty c : try_recv_step (chan s) (consumer s) = (c, Returned None) -> step s (mkSystem c (producer s) CIdle (sent s) (received s))
  | step_received c item : try_recv_step (chan s) (consumer s) = (c, Returned (Some item)) ->
      step s (mkSystem c (producer s) CIdle (sent s) (received s ++ [item]))
  | step_close : step s (mkSystem (set_closed (chan s)) (producer s) (consumer s) (sent s) (received s)).

Definition start (cap : Z) : system := mkSystem (new_channel cap) PIdle CIdle [] [].

(** ** The invariant *)

Definition ppc_ok (c : SpscChannel) (s r : list T) (p : ppc) : Prop :=
  match p with
  | PIdle | PCall _ | POpen _ => True
  | PTail _ t => t = u64 (zlen s)
  | PHead _ t h => t = u64 (zlen s) /\ exists k, h = u64 k /\ 0 <= k <= zlen r /\ zlen s - k <= capacity c
  | PWritten x t => t = u64 (zlen s) /\ zlen s < zlen r + capacity c /\ buffer_ c !! Z.to_nat (zlen s mod capacity c) = Some x
  end.

Definition cpc_ok (s r : list T) (p : cpc) : Prop :=
  match p with
  | CIdle => True
  | CHead h => h = u64 (zlen r)
  | CTail h t => h = u64 (zlen r) /\ exists k, t = u64 k /\ zlen r <= k <= zlen s
  | CTaken h x => h = u64 (zlen r) /\ s !! length r = Some x
  end.

Record inv (cap : Z) (y : system) : Prop := {
  inv_cap : exists k, 0 <= k < 64 /\ cap = 2 ^ k;
  inv_mask : mask_ (chan y) = cap - 1;
  inv_len : zlen (buffer_ (chan y)) = cap;
  inv_head : head_ (chan y) = u64 (zlen (received y));
  inv_tail : tail_ (chan y) = u64 (zlen (sent y));
  inv_prefix : received y `prefix_of` sent y;
  inv_full : zlen (sent y) <= zlen (received y) + cap;
  inv_ring i x : zlen (received y) <= Z.of_nat i -> sent y !! i = Some x -> buffer_ (chan y) !! Z.to_nat (Z.of_nat i mod cap) = Some x;
  inv_producer : ppc_ok (chan y) (sent y) (received y) (producer y);
  inv_consumer : cpc_ok (sent y) (received y) (consumer y);
}.

Lemma u64_diff a b : 0 <= a - b < 2 ^ 64 -> u64 (u64 a - u64 b) = a - b.
Proof. intros H. unfold wrap. rewrite <- Zminus_mod. by apply Z.mod_small. Qed.

Lemma u64_eqb a b : 0 <= a - b < 2 ^ 64 -> (u64 b =? u64 a) = (b =? a).
Proof.
  intros H. apply eq_true_iff_eq. rewrite !Z.eqb_eq. split; [|by intros ->]. intros E. pose proof (u64_diff a b H) as Hd. rewrite E, Z.sub_diag in Hd.
  change (u64 0) with 0 in Hd. lia.
Qed.

Lemma slot_u64 c cap k n : 0 <= k < 64 -> cap = 2 ^ k -> mask_ c = cap - 1 -> slot c (u64 n) = Z.to_nat (n mod cap).
Proof.
  intros Hk -> Hm. unfold slot. rewrite Hm, land_mask by lia. unfold wrap. f_equal. apply Z.mod_mod_divide.
  exists (2 ^ (64 - k)). rewrite <- Z.pow_add_r by lia. f_equal. lia.
Qed.

Lemma mod_distinct a b cap : 0 < cap -> 0 < b - a < cap -> a mod cap <> b mod cap.
Proof.
  intros Hc Hd E. assert ((b - a) mod cap = 0) as H by (rewrite Zminus_mod, E, Z.sub_diag; by apply Z.mod_0_l; lia). rewrite Z.mod_small in H by lia. lia.
Qed.

Section preservation.
Context (cap : Z) (y : system) (Hinv : inv cap y).

Lemma cap_bounds : 0 < cap < 2 ^ 64.
Proof. destruct (inv_cap _ _ Hinv) as (k & Hk & ->). split; [apply Z.pow_pos_nonneg; lia|]. apply Z.pow_lt_mono_r; lia. Qed.

Lemma counts_order : zlen (received y) <= zlen (sent y).
Proof. pose proof (prefix_length _ _ (inv_prefix _ _ Hinv)). unfold zlen. lia. Qed.

(** Writing the item into the free slot after the last one. *)
Lemma inv_write item t h : producer y = PHead item t h -> u64 (t - h) < capacity (chan y) ->
  inv cap (mkSystem (write t item (chan y)) (PWritten item t) (consumer y) (sent y) (received y)).
Proof.
  intros Hp Hroom. pose proof (inv_producer _ _ Hinv) as Hok. rewrite Hp in Hok. destruct Hok as [-> (k & -> & Hk & Hcap)]. pose proof cap_bounds. pose proof counts_order.
  unfold capacity in *. rewrite (inv_mask _ _ Hinv) in *. rewrite u64_diff in Hroom by lia. destruct (inv_cap _ _ Hinv) as (e & He & Ecap).
  pose proof (inv_len _ _ Hinv) as Hlen. assert (0 <= zlen (sent y) mod cap < cap) as Hr by (apply Z.mod_pos_bound; lia).
  destruct Hinv as [I1 I2 I3 I4 I5 I6 I7 I8 I9 I10]. unfold write. split; try done; cbn [chan producer consumer sent received mask_ buffer_ head_ tail_].
  - unfold zlen in *. by rewrite length_insert.
  - intros i x Hi Hx. rewrite (slot_u64 _ cap e) by done. pose proof (lookup_lt_Some _ _ _ Hx) as Hlt. rewrite list_lookup_insert_ne; [by apply I8|].
    intros E. apply (mod_distinct (Z.of_nat i) (zlen (sent y)) cap); [lia|unfold zlen in *; lia|]. assert (0 <= Z.of_nat i mod cap < cap) by (apply Z.mod_pos_bound; lia). lia.
  - cbn [ppc_ok]. unfold capacity. cbn [mask_ buffer_]. rewrite I2. replace (cap - 1 + 1) with cap by lia. split; [done|]. split; [lia|].
    rewrite (slot_u64 _ cap e) by done. apply list_lookup_insert_eq. unfold zlen in Hlen. lia.
Qed.

Lemma inv_sent item t : producer y = PWritten item t ->
  inv cap (mkSystem (set_tail (u64 (t + 1)) (chan y)) PIdle (consumer y) (sent y ++ [item]) (received y)).
Proof.
  intros Hp. pose proof (inv_producer _ _ Hinv) as Hok. rewrite Hp in Hok. destruct Hok as (-> & Hroom & Hbuf). unfold capacity in *. rewrite (inv_mask _ _ Hinv) in *. replace (cap - 1 + 1) with cap in * by lia.
  destruct Hinv as [I1 I2 I3 I4 I5 I6 I7 I8 I9 I10]. unfold set_tail. split; try done; cbn [chan producer consumer sent received mask_ buffer_ head_ tail_].
  - rewrite zlen_app. change (zlen [item]) with 1. apply wrap_add_l.
  - etransitivity; [exact I6|]. by apply prefix_app_r.
  - rewrite zlen_app. change (zlen [item]) with 1. lia.
  - intros i x Hi Hx. destruct (decide (i < length (sent y))%nat) as [Hlt|Hge]; [rewrite lookup_app_l in Hx by done; by apply I8|].
    rewrite lookup_app_r in Hx by lia. assert (i = length (sent y)) as -> by (apply lookup_lt_Some in Hx; cbn in Hx; lia). rewrite Nat.sub_diag in Hx. injection Hx as ->. exact Hbuf.
  - destruct (consumer y) as [|h|h t'|h x]; cbn [cpc_ok] in *; try done.
    + destruct I10 as [-> (k & -> & Hk)]. split; [done|]. exists k. rewrite zlen_app. change (zlen [item]) with 1. split; [done|lia].
    + destruct I10 as [-> Hx]. split; [done|]. rewrite lookup_app_l; [done|]. by apply lookup_lt_Some in Hx.
Qed.

(** Reading the oldest item. *)
Lemma inv_take h t : consumer y = CTail h t -> h <> t ->
  inv cap (mkSystem (chan y) (producer y) (CTaken h (nth (slot (chan y) h) (buffer_ (chan y)) none)) (sent y) (received y)).
Proof.
  intros Hc Hne. pose proof (inv_consumer _ _ Hinv) as Hok. rewrite Hc in Hok. destruct Hok as [-> (k & -> & Hk)]. destruct (inv_cap _ _ Hinv) as (e & He & Ecap).
  assert (zlen (received y) <> k) as Hrk by (intros E; apply Hne; by rewrite E). destruct (lookup_lt_is_Some_2 (sent y) (length (received y))) as [x Hx]; [unfold zlen in *; lia|].
  assert (nth (slot (chan y) (u64 (zlen (received y)))) (buffer_ (chan y)) none = x) as ->.
  { rewrite (slot_u64 _ cap e) by (done || apply Hinv). apply nth_lookup_Some. by apply (inv_ring _ _ Hinv (length (received y)) x). }
  destruct Hinv. by split.
Qed.

Lemma inv_received h x : consumer y = CTaken h x ->
  inv cap (mkSystem (set_head (u64 (h + 1)) (chan y)) (producer y) CIdle (sent y) (received y ++ [x])).
Proof.
  intros Hc. pose proof (inv_consumer _ _ Hinv) as Hok. rewrite Hc in Hok. destruct Hok as [-> Hx].
  destruct Hinv as [I1 I2 I3 I4 I5 I6 I7 I8 I9 I10]. unfold set_head. split; try done; cbn [chan producer consumer sent received mask_ buffer_ head_ tail_].
  - rewrite zlen_app. change (zlen [x]) with 1. apply wrap_add_l.
  - destruct I6 as [rest Erest]. rewrite Erest in Hx |- *. rewrite lookup_app_r, Nat.sub_diag in Hx by lia. destruct rest as [|z rest]; [done|]. injection Hx as ->.
    exists rest. by rewrite <- app_assoc.
  - rewrite zlen_app. change (zlen [x]) with 1. lia.
  - intros i z Hi. apply I8. rewrite zlen_app in Hi. change (zlen [x]) with 1 in Hi. lia.
  - destruct (producer y) as [|it|it|it t|it t h|it t]; cbn [ppc_ok] in *; try done; unfold capacity in *; cbn [mask_ buffer_]; rewrite zlen_app; change (zlen [x]) with 1.
    + destruct I9 as [-> (k & -> & Hk & Hle)]. split; [done|]. exists k. split; [done|]. lia.
    + destruct I9 as (-> & Hlt & Hb). split; [done|]. split; [lia|done].
Qed.
End preservation.

(** A state that differs only in where a thread is. *)
Lemma inv_producer_at cap y p : inv cap y -> ppc_ok (chan y) (sent y) (received y) p -> inv cap (mkSystem (chan y) p (consumer y) (sent y) (received y)).
Proof. intros [] Hp. by split. Qed.

Lemma inv_consumer_at cap y p : inv cap y -> cpc_ok (sent y) (received y) p -> inv cap (mkSystem (chan y) (producer y) p (sent y) (received y)).
Proof. intros [] Hp. by split. Qed.

Lemma inv_closed cap y : inv cap y -> inv cap (mkSystem (set_closed (chan y)) (producer y) (consumer y) (sent y) (received y)).
Proof. intros []. by split. Qed.

Lemma spsc_step_inv cap y y' : inv cap y -> step y y' -> inv cap y'.
Proof.
  intros Hinv Hstep. pose proof (inv_producer _ _ Hinv) as Hp. pose proof (inv_consumer _ _ Hinv) as Hc. pose proof (counts_order cap y Hinv) as Hle. pose proof (zlen_nonneg (received y)) as H0.
  assert (capacity (chan y) = cap) as Ecap by (unfold capacity; rewrite (inv_mask _ _ Hinv); lia).
  destruct Hstep as [item E|c p Hne E|c E|c item tail Ep E|c p E|c E|c item E|].
  - by apply inv_producer_at.
  - destruct (producer y) as [|item|item|item t|item t h|item t] eqn:Ep; cbn [try_send_step] in E; try done.
    + destruct (closed_ (chan y)); [done|]. injection E as <- <-. by apply inv_producer_at.
    + injection E as <- <-. apply inv_producer_at; [done|]. apply Hinv.
    + injection E as <- <-. apply inv_producer_at; [done|]. split; [done|]. exists (zlen (received y)). split; [apply Hinv|]. pose proof (inv_full _ _ Hinv). lia.
    + destruct (Z.leb_spec (capacity (chan y)) (u64 (t - h))); [done|]. injection E as <- <-. by eapply inv_write.
  - assert (c = chan y) as ->; [|by apply inv_producer_at]. destruct (producer y); cbn [try_send_step] in E; try done.
    + destruct (closed_ (chan y)); [by injection E|done].
    + destruct (capacity (chan y) <=? u64 (tail - head)); [by injection E|done].
  - rewrite Ep in E. cbn [try_send_step] in E. injection E as <-. by apply inv_sent.
  - destruct (consumer y) as [|h|h t|h x] eqn:Ec; cbn [try_recv_step] in E; try done.
    + injection E as <- <-. apply inv_consumer_at; [done|]. apply Hinv.
    + injection E as <- <-. apply inv_consumer_at; [done|]. split; [done|]. exists (zlen (sent y)). split; [apply Hinv|lia].
    + destruct (Z.eqb_spec h t); [done|]. injection E as <- <-. by eapply inv_take.
  - assert (c = chan y) as ->; [|by apply inv_consumer_at]. destruct (consumer y) as [|h|h t|h x]; cbn [try_recv_step] in E; try done. destruct (h =? t); [by injection E|done].
  - destruct (consumer y) as [|h|h t|h x] eqn:Ec; cbn [try_recv_step] in E; try done; [by destruct (h =? t)|]. injection E as <- <-. by apply inv_received.
  - by apply inv_closed.
Qed.

Lemma pow2_loop_spec fuel k n : 0 <= k -> k + Z.of_nat fuel = 64 -> 2 ^ k < 2 * n -> n <= 2 ^ 63 -> exists e, k <= e < 64 /\ pow2_loop fuel (2 ^ k) n = 2 ^ e /\ n <= 2 ^ e < 2 * n.
Proof.
  revert k. induction fuel as [|fuel IH]; intros k Hk Hf Hlo Hn; cbn [pow2_loop].
  - assert (2 ^ 63 < 2 ^ k) by (apply Z.pow_lt_mono_r; lia). replace k with 64 in * by lia. lia.
  - destruct (Z.ltb_spec (2 ^ k) n) as [Hlt|Hge].
    + assert (k < 63) as Hk63 by (apply (Z.pow_lt_mono_r_iff 2); lia). rewrite Z.shiftl_mul_pow2 by lia.
      replace (2 ^ k * 2 ^ 1) with (2 ^ (k + 1)) by (rewrite Z.pow_add_r by lia; lia).
      rewrite wrap_small by (split; [apply Z.pow_nonneg; lia|apply Z.pow_lt_mono_r; lia]).
      destruct (IH (k + 1)) as (e & He & E & Hb); [lia|lia|rewrite Z.pow_add_r by lia; lia|done|]. exists e. split; [lia|done].
    + exists k. split; [|done]. split; [lia|]. apply (Z.pow_lt_mono_r_iff 2); [lia|lia|]. change (2 ^ 64) with (2 * 2 ^ 63). lia.
Qed.

Lemma spsc_next_pow2_spec n : 2 <= n <= 2 ^ 63 -> exists e, 0 <= e < 64 /\ next_pow2 n = 2 ^ e /\ n <= 2 ^ e < 2 * n.
Proof.
  intros Hn. unfold next_pow2. rewrite (proj2 (Z.eqb_neq n 0)) by lia. destruct (pow2_loop_spec 64 0 n) as (e & He & H); [lia|lia|lia|lia|]. exists e. split; [lia|done].
Qed.

Lemma reachable_inv_spsc cap y : 0 <= cap <= 2 ^ 63 -> rtc step (start cap) y -> inv (next_pow2 (Z.max cap 2)) y.
Proof.
  intros Hcap Hr. destruct (spsc_next_pow2_spec (Z.max cap 2)) as (e & He & E & Hb); [lia|].
  assert (inv (next_pow2 (Z.max cap 2)) (start cap)) as H0.
  { split; cbn [start chan sent received producer consumer new_channel mask_ buffer_ head_ tail_]; try done.
    - by exists e.
    - rewrite zlen_replicate, Z2Nat.id by lia. done.
    - change (zlen (@nil T)) with 0. lia. }
  induction Hr as [|y1 y2 y3 Hst _ IH]; [done|]. apply IH. by eapply spsc_step_inv.
Qed.

(** A call that is not interrupted. *)
Definition try_send (c : SpscChannel) (item : T) : SpscChannel * bool :=
  if closed_ c then (c, false) else
  let tail := tail_ c in
  let head := head_ c in
  if capacity c <=? u64 (tail - head) then (c, false) else (set_tail (u64 (tail + 1)) (write tail item c), true).

Definition try_recv (c : SpscChannel) : SpscChannel * option T :=
  let head := head_ c in
  let tail := tail_ c in
  if head =? tail then (c, None) else (set_head (u64 (head + 1)) c, Some (nth (slot c head) (buffer_ c) none)).

Lemma try_send_steps y item : producer y = PIdle -> let '(c, ok) := try_send (chan y) item in
  rtc step y (mkSystem c PIdle (consumer y) (if ok then sent y ++ [item] else sent y) (received y)).
Proof.
  intros Hp. unfold try_send. cbn zeta. set (at_ p := mkSystem (chan y) p (consumer y) (sent y) (received y)).
  assert (rtc step y (at_ (PCall item))) as H1 by (by apply rtc_once, step_call).
  destruct (closed_ (chan y)) eqn:Ecl; [etransitivity; [exact H1|]; apply rtc_once; apply (step_refused (at_ _)); cbn; by rewrite Ecl|].
  assert (rtc step y (at_ (PHead item (tail_ (chan y)) (head_ (chan y))))) as H2.
  { etransitivity; [exact H1|]. eapply rtc_l; [apply (step_send (at_ _) (chan y) (POpen item)); [done|cbn; by rewrite Ecl]|].
    eapply rtc_l; [by apply (step_send (at_ _) (chan y) (PTail item (tail_ (chan y))))|]. by apply rtc_once, (step_send (at_ _)). }
  destruct (capacity (chan y) <=? u64 (tail_ (chan y) - head_ (chan y))) eqn:Ef; (etransitivity; [exact H2|]).
  - apply rtc_once, (step_refused (at_ _)). cbn. by rewrite Ef.
  - eapply rtc_l; [eapply (step_send (at_ _)); [done|cbn; by rewrite Ef]|]. apply rtc_once. by eapply (step_sent (mkSystem _ _ _ _ _)).
Qed.

Lemma try_recv_steps y : consumer y = CIdle -> let '(c, r) := try_recv (chan y) in
  rtc step y (mkSystem c (producer y) CIdle (sent y) (received y ++ match r with Some x => [x] | None => [] end)).
Proof.
  intros Hc. unfold try_recv. cbn zeta. assert (rtc step y (mkSystem (chan y) (producer y) (CTail (head_ (chan y)) (tail_ (chan y))) (sent y) (received y))) as H2.
  { eapply rtc_l; [eapply step_recv; rewrite Hc; done|]. apply rtc_once. by eapply (step_recv (mkSystem _ _ _ _ _)). }
  destruct (head_ (chan y) =? tail_ (chan y)) eqn:E; (etransitivity; [exact H2|]).
  - rewrite app_nil_r. apply rtc_once, (step_empty (mkSystem _ _ _ _ _)). cbn. by rewrite E.
  - eapply rtc_l; [eapply (step_recv (mkSystem _ _ _ _ _)); cbn; by rewrite E|]. by apply rtc_once, (step_received (mkSystem _ _ _ _ _)).
Qed.
End channel.

(** ** Waiting coroutines *)

(** The two coroutines that may wait, and the one slot both register in: [waiter_], its
    reactor, and the resumptions posted so far. *)
Inductive who := Producer | Consumer.

Record waiting := mkWaiting { waiter_ : option who; waiter_reactor_ : option who; posted : list who }.

Definition set_waiter (x : option who) (w : waiting) := mkWaiting x (waiter_reactor_ w) (posted w).
Definition set_reactor (x : option who) (w : waiting) := mkWaiting (waiter_ w) x (posted w).
Definition post (h : who) (w : waiting) := mkWaiting (waiter_ w) (waiter_reactor_ w) (posted w ++ [h]).

(** [wake_waiter]; each thread runs a reactor of its own, named like the thread.  When the
    registration of the reactor is not there yet, the handle is resumed on the spot. *)
Inductive wpc := WLoad | WTake | WReactor (h : who).
Inductive woke := WAt (p : wpc) | WDone | WInline (h : who).

Definition wake_waiter_step (w : waiting) (p : wpc) : waiting * woke :=
  match p with
  | WLoad => (w, match waiter_ w with Some _ => WAt WTake | None => WDone end)
  | WTake => (set_waiter None w, match waiter_ w with Some h => WAt (WReactor h) | None => WDone end)
  | WReactor h => match waiter_reactor_ w with Some _ => (post h (set_reactor None w), WDone) | None => (w, WInline h) end
  end.

(** [await_ready] and [await_suspend] of [SendAwaiter] and [RecvAwaiter]: the side's own
    position is loaded first, then the other's; [await_suspend] registers before and may cancel
    after. *)
Inductive apc := AReadyClosed | AReadyOwn | AReadyOther (own : Z) | AStore | AStoreReactor | AOwn | AOther (own : Z) | AClosed | ACancel | ACancelReactor.
Inductive awaited := AAt (p : apc) | AContinue | ASuspend.

(** Where a coroutine that calls [send], or [recv], is: before the first or after the last
    load of [closed_], inside the call of the ring, inside [wake_waiter] with the result it
    will return, waiting, suspended, or done.  [send] returns whether it succeeded, [recv] the
    item or the end of the stream. *)
Inductive kpc (R : Type) := KClosed | KTry | KWake (r : R) (p : wpc) | KEnd | KAwait (p : apc) | KSuspended | KAgain | KDone (r : R).
Arguments KClosed {R}.
Arguments KTry {R}.
Arguments KWake {R} r p.
Arguments KEnd {R}.
Arguments KAwait {R} p.
Arguments KSuspended {R}.
Arguments KAgain {R}.
Arguments KDone {R} r.

Section coroutines.
Context {T : Type} (none : T).

Definition own (me : who) (c : SpscChannel) : Z := match me with Producer => tail_ c | Consumer => @head_ T c end.
Definition other (me : who) (c : SpscChannel) : Z := match me with Producer => head_ c | Consumer => @tail_ T c end.
Definition may_go (me : who) (c : SpscChannel) (own other : Z) : bool :=
  match me with Producer => u64 (own - other) <? @capacity T c | Consumer => negb (own =? other) end.

Definition await_step (me : who) (c : @SpscChannel T) (w : waiting) (p : apc) : waiting * awaited :=
  match p with
  | AReadyClosed => (w, if closed_ c then AContinue else AAt AReadyOwn)
  | AReadyOwn => (w, AAt (AReadyOther (own me c)))
  | AReadyOther o => (w, if may_go me c o (other me c) then AContinue else AAt AStore)
  | AStore => (set_waiter (Some me) w, AAt AStoreReactor)
  | AStoreReactor => (set_reactor (Some me) w, AAt AOwn)
  | AOwn => (w, AAt (AOther (own me c)))
  | AOther o => (w, if may_go me c o (other me c) then AAt ACancel else AAt AClosed)
  | AClosed => (w, if closed_ c then AAt ACancel else ASuspend)
  | ACancel => (set_waiter None w, AAt ACancelReactor)
  | ACancelReactor => (set_reactor None w, AContinue)
  end.

(** The ring with its two threads, the slot, the item the producer is sending, the places of
    the two coroutines, and whether a handle was resumed that was not suspended. *)
Record async := mkAsync { ring : @system T; slot_ : waiting; sending : T; scc : kpc bool; rcc : kpc (option T); fault : bool }.

Definition send_at (s : async) (y : system) (w : waiting) (k : kpc bool) : async := mkAsync y w (sending s) k (rcc s) (fault s).
Definition recv_at (s : async) (y : system) (w : waiting) (k : kpc (option T)) : async := mkAsync y w (sending s) (scc s) k (fault s).

(** Resuming a handle: the coroutine goes on where it was suspended. *)
Definition resume (h : who) (s : async) : async :=
  match h with
  | Producer => match scc s with KSuspended => send_at s (ring s) (slot_ s) KAgain | _ => mkAsync (ring s) (slot_ s) (sending s) (scc s) (rcc s) true end
  | Consumer => match rcc s with KSuspended => recv_at s (ring s) (slot_ s) KTry | _ => mkAsync (ring s) (slot_ s) (sending s) (scc s) (rcc s) true end
  end.

(** One step of [try_send_impl], or of [try_recv], in the ring. *)
Definition ring_send (item : T) (y : system) : system * option bool :=
  match producer y with
  | PIdle => (mkSystem (chan y) (PCall item) (consumer y) (sent y) (received y), None)
  | p =>
    let '(c, o) := try_send_step (chan y) p in
    match o with
    | At p => (mkSystem c p (consumer y) (sent y) (received y), None)
    | Returned ok => (mkSystem c PIdle (consumer y) (match p with PWritten x _ => sent y ++ [x] | _ => sent y end) (received y), Some ok)
    end
  end.

Definition ring_recv (y : system) : system * option (option T) :=
  let '(c, o) := try_recv_step none (chan y) (consumer y) in
  match o with
  | At p => (mkSystem c (producer y) p (sent y) (received y), None)
  | Returned r => (mkSystem c (producer y) CIdle (sent y) (received y ++ match r with Some x => [x] | None => [] end), Some r)
  end.

Definition send_step (s : async) : async :=
  let y := ring s in
  let w := slot_ s in
  match scc s with
  | KClosed => send_at s y w (if closed_ (chan y) then KDone false else KTry)
  | KTry => let '(y', r) := ring_send (sending s) y in
      send_at s y' w (match r with None => KTry | Some true => KWake true WLoad | Some false => KAwait AReadyClosed end)
  | KWake r p => let '(w', k) := wake_waiter_step w p in
      match k with WAt p => send_at s y w' (KWake r p) | WDone => send_at s y w' (KDone r) | WInline h => resume h (send_at s y w' (KDone r)) end
  | KEnd | KSuspended => s
  | KAwait p => let '(w', a) := await_step Producer (chan y) w p in
      send_at s y w' (match a with AAt p => KAwait p | AContinue => KAgain | ASuspend => KSuspended end)
  | KAgain => send_at s y w (if closed_ (chan y) then KDone false else KClosed)
  | KDone _ => s
  end.

Definition recv_step (s : async) : async :=
  let y := ring s in
  let w := slot_ s in
  match rcc s with
  | KTry => let '(y', r) := ring_recv y in
      recv_at s y' w (match r with None => KTry | Some (Some x) => KWake (Some x) WLoad | Some None => KEnd end)
  | KWake r p => let '(w', k) := wake_waiter_step w p in
      match k with WAt p => recv_at s y w' (KWake r p) | WDone => recv_at s y w' (KDone r) | WInline h => resume h (recv_at s y w' (KDone r)) end
  | KEnd => recv_at s y w (if closed_ (chan y) then KDone None else KAwait AReadyClosed)
  | KAwait p => let '(w', a) := await_step Consumer (chan y) w p in
      recv_at s y w' (match a with AAt p => KAwait p | AContinue => KTry | ASuspend => KSuspended end)
  | KClosed | KAgain | KSuspended | KDone _ => s
  end.

(** What can happen next: a thread runs, a posted resumption runs, a finished call is followed
    by another, or the producer's thread closes the channel. *)
Inductive event := Run (h : who) | Deliver | Send (item : T) | Recv | Close.

Definition async_step (s : async) (e : event) : async :=
  match e with
  | Run Producer => send_step s
  | Run Consumer => recv_step s
  | Deliver => match posted (slot_ s) with
      | h :: rest => resume h (mkAsync (ring s) (mkWaiting (waiter_ (slot_ s)) (waiter_reactor_ (slot_ s)) rest) (sending s) (scc s) (rcc s) (fault s))
      | [] => s
      end
  | Send item => match scc s with KDone _ => mkAsync (ring s) (slot_ s) item KClosed (rcc s) (fault s) | _ => s end
  | Recv => match rcc s with KDone _ => recv_at s (ring s) (slot_ s) KTry | _ => s end
  | Close => match scc s with
      | KDone _ => mkAsync (mkSystem (set_closed (chan (ring s))) (producer (ring s)) (consumer (ring s)) (sent (ring s)) (received (ring s)))
                     (slot_ s) (sending s) (KWake true WLoad) (rcc s) (fault s)
      | _ => s
      end
  end.

Definition run_async (es : list event) (s : async) : async := fold_left async_step es s.

Definition idle (cap : Z) : async := mkAsync (start none cap) (mkWaiting None None []) none (KDone true) (KDone None) false.

Lemma ring_send_step item y : rtc (step none) y (fst (ring_send item y)).
Proof.
  unfold ring_send. destruct (producer y) as [|x|x|x t|x t h|x t] eqn:Ep; [by apply rtc_once, step_call|..]; cbn [try_send_step].
  - destruct (closed_ (chan y)) eqn:E; apply rtc_once; [apply step_refused|apply step_send]; rewrite Ep; cbn [try_send_step]; by rewrite ?E.
  - apply rtc_once, step_send; by rewrite Ep.
  - apply rtc_once, step_send; by rewrite Ep.
  - destruct (capacity (chan y) <=? u64 (t - h)) eqn:E; apply rtc_once; [apply step_refused|apply step_send]; rewrite Ep; cbn [try_send_step]; by rewrite ?E.
  - apply rtc_once. eapply step_sent; [done|by rewrite Ep].
Qed.

Lemma ring_recv_step y : rtc (step none) y (fst (ring_recv y)).
Proof.
  unfold ring_recv. destruct (try_recv_step none (chan y) (consumer y)) as [c [p|[x|]]] eqn:E; apply rtc_once; [by apply step_recv|by apply step_received|].
  rewrite app_nil_r. by apply step_empty.
Qed.

Lemma resume_ring h s : ring (resume h s) = ring s.
Proof. destruct h; cbn [resume]; by case_match. Qed.

Lemma async_ring s e : rtc (step none) (ring s) (ring (async_step s e)).
Proof.
  destruct e as [[]| | | |]; cbn [async_step].
  - unfold send_step. cbn zeta. destruct (scc s); try done.
    + pose proof (ring_send_step (sending s) (ring s)) as H. by destruct (ring_send (sending s) (ring s)).
    + destruct (wake_waiter_step (slot_ s) p) as [w []]; rewrite ?resume_ring; done.
    + by destruct (await_step Producer (chan (ring s)) (slot_ s) p).
  - unfold recv_step. cbn zeta. destruct (rcc s); try done.
    + pose proof (ring_recv_step (ring s)) as H. by destruct (ring_recv (ring s)).
    + destruct (wake_waiter_step (slot_ s) p) as [w []]; rewrite ?resume_ring; done.
    + by destruct (await_step Consumer (chan (ring s)) (slot_ s) p).
  - destruct (posted (slot_ s)); [done|]. by rewrite resume_ring.
  - by destruct (scc s).
  - by destruct (rcc s).
  - destruct (scc s); try done. apply rtc_once, step_close.
Qed.

(** The coroutines only make steps of the two threads, so what holds of the ring holds under
    them, whatever happens to the waiters. *)
Lemma run_async_ring es s : rtc (step none) (ring s) (ring (run_async es s)).
Proof. revert s. induction es as [|e es IH]; intros s; [done|]. cbn [run_async fold_left]. etransitivity; [apply (async_ring s e)|apply IH]. Qed.
End coroutines.

(** C18.  Whatever the interleaving of the two threads, at any capacity and across the wrap-around
    of the 64-bit positions, the items received are the items sent, each once and in order,
    and never more than the capacity are on the way; the capacity is the power of two at least
    as large as asked for, and less than twice that.  A call of [try_send] that is not
    interrupted succeeds exactly when the channel is open and not full, and [try_recv] returns
    the oldest item exactly when there is one; so after a close the consumer gets all the rest. *)
Theorem spsc_refines_queue {T} (none : T) cap y : 0 <= cap <= 2 ^ 63 -> rtc (step none) (start none cap) y ->
  let C := capacity (chan y) in
  Z.max cap 2 <= C < 2 * Z.max cap 2 /\
  exists queue, sent y = received y ++ queue /\ zlen queue <= C /\
    (producer y = PIdle -> forall item, let '(c, ok) := try_send (chan y) item in
       ok = negb (closed_ (chan y)) && (zlen queue <? C) /\
       rtc (step none) y (mkSystem c PIdle (consumer y) (if ok then sent y ++ [item] else sent y) (received y))) /\
    (consumer y = CIdle -> let '(c, r) := try_recv none (chan y) in
       r = head queue /\ rtc (step none) y (mkSystem c (producer y) CIdle (sent y) (received y ++ match r with Some x => [x] | None => [] end))).
Proof.
  intros Hcap Hr. cbn zeta. pose proof (reachable_inv_spsc none cap y Hcap Hr) as Hinv. destruct (spsc_next_pow2_spec (Z.max cap 2)) as (e & He & E & Hb); [lia|].
  pose proof (cap_bounds _ _ Hinv) as Hcb. pose proof (counts_order _ _ Hinv) as Hco. destruct (inv_prefix _ _ Hinv) as [queue Eq].
  assert (capacity (chan y) = next_pow2 (Z.max cap 2)) as Ec by (unfold capacity; rewrite (inv_mask _ _ Hinv); lia). pose proof (inv_full _ _ Hinv) as Hfull.
  assert (zlen (sent y) = zlen (received y) + zlen queue) as Hq by (rewrite Eq; apply zlen_app). pose proof (zlen_nonneg queue) as Hq0.
  split; [rewrite Ec, E; lia|]. exists queue. split; [done|]. split; [lia|]. split.
  - intros Hp item. pose proof (try_send_steps none y item Hp) as Hs. unfold try_send in *. cbn zeta in *. destruct (closed_ (chan y)); [done|].
    rewrite (inv_tail _ _ Hinv), (inv_head _ _ Hinv), u64_diff in * by lia.
    destruct (Z.leb_spec (capacity (chan y)) (zlen (sent y) - zlen (received y))); (split; [|exact Hs]); cbn [negb andb]; symmetry; [apply Z.ltb_ge|apply Z.ltb_lt]; lia.
  - intros Hc. pose proof (try_recv_steps none y Hc) as Hs. unfold try_recv in *. cbn zeta in *.
    assert ((head_ (chan y) =? tail_ (chan y)) = (zlen (received y) =? zlen (sent y))) as Ee by (rewrite (inv_tail _ _ Hinv), (inv_head _ _ Hinv); apply u64_eqb; lia).
    rewrite Ee in *. destruct (Z.eqb_spec (zlen (received y)) (zlen (sent y))) as [Hz|Hnz].
    + split; [|exact Hs]. assert (queue = []) as -> by (apply zlen_0; lia). done.
    + split; [|exact Hs]. destruct queue as [|x queue]; [rewrite zlen_nil in *; lia|]. cbn [head]. f_equal.
      rewrite (inv_head _ _ Hinv), (slot_u64 _ (next_pow2 (Z.max cap 2)) e) by (done || apply Hinv). apply nth_lookup_Some.
      apply (inv_ring _ _ Hinv (length (received y)) x); [done|]. rewrite Eq, lookup_app_r, Nat.sub_diag by lia. done.
Qed.

(** A run that fills the ring of two, takes one item out and then closes. *)
Definition spsc_run : list (@event Z) :=
  [Send 1] ++ replicate 8 (Run Producer) ++ [Send 2] ++ replicate 8 (Run Producer) ++ [Recv] ++ replicate 5 (Run Consumer) ++ [Close].

Lemma spsc_refines_queue_witness : let y := ring (run_async 0 spsc_run (idle 0 2)) in
  sent y = [1; 2] /\ received y = [1] /\ closed_ (chan y) = true /\ exists queue, sent y = received y ++ queue /\ zlen queue <= capacity (chan y).
Proof.
  cbn zeta. split; [vm_compute; reflexivity|]. split; [vm_compute; reflexivity|]. split; [vm_compute; reflexivity|].
  destruct (spsc_refines_queue 0 2 _ ltac:(lia) (run_async_ring 0 spsc_run (idle 0 2))) as (_ & queue & E & Hq & _). exists queue. split; [exact E|exact Hq].
Defined.

(** ** What the coroutines can run into *)

(** [recv] finds the ring empty; the producer sends an item and closes; then [recv] looks at
    [closed_] and reports the end of the stream with the item still in the ring. *)
Theorem spsc_end_before_last_item : exists es, let s := run_async 0 es (idle 0 2) in
  rcc s = KDone None /\ sent (ring s) = [7] /\ received (ring s) = [] /\ closed_ (chan (ring s)) = true.
Proof.
  exists ([Recv] ++ replicate 3 (Run Consumer) ++ [Send 7] ++ replicate 8 (Run Producer) ++ [Close; Run Consumer]). by vm_compute.
Qed.

(** The consumer registers, the producer sends, takes the registration and posts the
    resumption; the consumer's second look finds the item and it goes on without suspending.
    The posted resumption is then run on a coroutine that is not suspended. *)
Theorem spsc_resumed_twice : exists es, let s := run_async 0 es (idle 0 2) in
  rcc s = KDone (Some 7) /\ sent (ring s) = [7] /\ received (ring s) = [7] /\ posted (slot_ s) = [Consumer] /\ fault (async_step 0 s Deliver) = true.
Proof.
  exists ([Recv] ++ replicate 9 (Run Consumer) ++ [Send 7] ++ replicate 11 (Run Producer) ++ replicate 20 (Run Consumer)). by vm_compute.
Qed.

(** The slot is shared.  While the consumer decides that it need not wait, the producer finds
    the ring full and registers; the consumer's cancellation erases the registration.  The
    consumer drains the ring and waits: both are suspended, nobody is registered to be woken
    but the consumer, and the producer's item is never sent. *)
Theorem spsc_lost_wakeup : exists es, let s := run_async 0 es (idle 0 2) in
  scc s = KSuspended /\ rcc s = KSuspended /\ sending s = 3 /\ received (ring s) = [1; 2] /\ sent (ring s) = [1; 2] /\
  posted (slot_ s) = [] /\ waiter_ (slot_ s) = Some Consumer /\ fault s = false.
Proof.
  exists ([Recv] ++ replicate 7 (Run Consumer) ++ [Send 1] ++ replicate 8 (Run Producer) ++ [Send 2] ++ replicate 8 (Run Producer) ++
    [Run Consumer; Run Consumer; Send 3] ++ replicate 30 (Run Producer) ++ replicate 20 (Run Consumer) ++ [Recv] ++ replicate 20 (Run Consumer) ++ [Recv] ++ replicate 30 (Run Consumer)).
  by vm_compute.
Qed.
