(* ===== verification/PipelineGraph.v ===== *)
(** * The graph of a pipeline: [pipeline/pipeline_graph.hpp]

    The builder, its validation, Kahn's topological sort and what [start] spawns; then the
    coroutines that move items between the channels of the nodes, as steps on queues. *)

From stdpp Require Import gmap relations sorting.
From S2P Require Import Prelude AsyncChannel.
#[local] Open Scope Z_scope.

(** ** Data *)

Abbreviation name := bytes (only parsing).
Abbreviation degrees := (gmap name Z) (only parsing).

(** An [AsyncChannel]: a bounded queue that can be closed. *)
Record channel (T : Type) := mkChannel { cap : Z; items : list T; closed : bool }.
Arguments mkChannel {T} cap items closed.
Arguments cap {T} c.
Arguments items {T} c.
Arguments closed {T} c.

Section graph.
Context {T C : Type}.

(** [ContextualItem]: a value and the metadata that travels with it. *)
Definition item : Type := T * C.

(** [fn] is the action of the application on a value and its context, which may fail; a
    predicate is absent when the item is always routed; [successor_channels] are the input
    channels of the nodes of that name. *)
Record NodeImpl := mkNode {
  workers : Z; fn : T -> C -> option T; in_channel : channel item; out_channel : channel item;
  successors : list name; predicates : list (option (T -> bool)); predecessors : list name;
  worker_count : Z; is_source : bool; is_sink : bool; successor_channels : list (option name) }.

Record PipelineGraph := mkGraph {
  nodes_ : gmap name NodeImpl; sources_ : list name; sinks_ : list name;
  output_channel_ : channel item; default_chan_cap_ : Z; started_ : bool }.

Definition new_channel (c : Z) : channel item := mkChannel (capacity_ (@AsyncChannel.new_channel item c)) [] false.

Definition new_graph (default_chan_cap : Z) : PipelineGraph :=
  mkGraph ∅ [] [] (new_channel default_chan_cap) default_chan_cap false.

Definition set_nodes (ns : gmap name NodeImpl) (g : PipelineGraph) : PipelineGraph :=
  mkGraph ns (sources_ g) (sinks_ g) (output_channel_ g) (default_chan_cap_ g) (started_ g).

(** ** The builder *)

Definition node (nm : name) (f : T -> C -> option T) (nworkers chan_cap : Z) (g : PipelineGraph) : PipelineGraph :=
  let c := if chan_cap =? 0 then default_chan_cap_ g else chan_cap in
  set_nodes (<[nm := mkNode nworkers f (new_channel c) (new_channel c) [] [] [] 0 false false []]> (nodes_ g)) g.

Definition add_successor (to : name) (p : option (T -> bool)) (n : NodeImpl) : NodeImpl :=
  mkNode (workers n) (fn n) (in_channel n) (out_channel n) (successors n ++ [to]) (predicates n ++ [p]) (predecessors n)
    (worker_count n) (is_source n) (is_sink n) (successor_channels n).

Definition add_predecessor (from : name) (n : NodeImpl) : NodeImpl :=
  mkNode (workers n) (fn n) (in_channel n) (out_channel n) (successors n) (predicates n) (predecessors n ++ [from])
    (worker_count n) (is_source n) (is_sink n) (successor_channels n).

Definition edge (from to : name) (g : PipelineGraph) : PipelineGraph :=
  set_nodes (alter (add_predecessor from) to (alter (add_successor to None) from (nodes_ g))) g.

Definition edge_if (from to : name) (p : T -> bool) (g : PipelineGraph) : PipelineGraph :=
  set_nodes (alter (add_predecessor from) to (alter (add_successor to (Some p)) from (nodes_ g))) g.

Definition mark_source (n : NodeImpl) : NodeImpl :=
  mkNode (workers n) (fn n) (in_channel n) (out_channel n) (successors n) (predicates n) (predecessors n)
    (worker_count n) true (is_sink n) (successor_channels n).

Definition mark_sink (n : NodeImpl) : NodeImpl :=
  mkNode (workers n) (fn n) (in_channel n) (out_channel n) (successors n) (predicates n) (predecessors n)
    (worker_count n) (is_source n) true (successor_channels n).

(** [std::find] and [push_back] *)
Definition push_new (nm : name) (l : list name) : list name := if decide (nm ∈ l) then l else l ++ [nm].

Definition source (nm : name) (g : PipelineGraph) : PipelineGraph :=
  mkGraph (alter mark_source nm (nodes_ g)) (push_new nm (sources_ g)) (sinks_ g) (output_channel_ g) (default_chan_cap_ g) (started_ g).

Definition sink (nm : name) (g : PipelineGraph) : PipelineGraph :=
  mkGraph (alter mark_sink nm (nodes_ g)) (sources_ g) (push_new nm (sinks_ g)) (output_channel_ g) (default_chan_cap_ g) (started_ g).

Definition is_node (g : PipelineGraph) (nm : name) : bool := bool_decide (is_Some (nodes_ g !! nm)).

(** [walk] is the order in which the hash map [nodes_] is walked. *)
Definition successors_of (g : PipelineGraph) (nm : name) : list name :=
  match nodes_ g !! nm with Some n => successors n | None => [] end.

Definition validate (walk : list name) (g : PipelineGraph) : bool :=
  if bool_decide (nodes_ g = ∅) then false else
  if match sources_ g, sinks_ g with [], _ | _, [] => true | _, _ => false end then false else
  if negb (forallb (is_node g) (sources_ g)) then false else
  if negb (forallb (is_node g) (sinks_ g)) then false else
  forallb (fun nm => forallb (is_node g) (successors_of g nm)) walk.

(** ** Kahn's topological sort *)

Definition count_edge (d : degrees) (succ : name) : degrees :=
  match d !! succ with Some k => <[succ := k + 1]> d | None => d end.

Definition in_degrees (walk : list name) (g : PipelineGraph) : degrees :=
  fold_left (fun d nm => fold_left count_edge (successors_of g nm) d) walk
    (fold_left (fun d nm => <[nm := 0]> d) walk ∅).

(** [auto& deg = in_degree[succ]; if (--deg == 0) q.push(succ);] *)
Definition relax (dq : degrees * list name) (succ : name) : degrees * list name :=
  let '(d, q) := dq in
  let deg := default 0 (d !! succ) - 1 in
  (<[succ := deg]> d, if deg =? 0 then q ++ [succ] else q).

Fixpoint kahn (fuel : nat) (g : PipelineGraph) (d : degrees) (q order : list name) : list name :=
  match fuel, q with
  | S fuel, nm :: q =>
    let order := order ++ [nm] in
    match nodes_ g !! nm with
    | None => kahn fuel g d q order
    | Some n => let '(d, q) := fold_left relax (successors n) (d, q) in kahn fuel g d q order
    end
  | _, _ => order
  end.

(** [walk_d] is the order in which the hash map of the degrees is walked.  A node enters the
    queue at most once, so the number of nodes bounds the turns. *)
Definition topo_sort (walk walk_d : list name) (g : PipelineGraph) : option (list name) :=
  let d := in_degrees walk g in
  let q := filter (fun nm => d !! nm = Some 0) walk_d in
  let order := kahn (S (size (nodes_ g))) g d q [] in
  if Nat.eqb (length order) (size (nodes_ g)) then Some order else None.

(** ** Running *)

Definition send (x : item) (c : channel item) : option (channel item) :=
  if closed c then Some c else if cap c <=? zlen (items c) then None else Some (mkChannel (cap c) (items c ++ [x]) false).

(** An item, the end of the stream, or nothing yet. *)
Definition recv (c : channel item) : option (option item * channel item) :=
  match items c with
  | x :: rest => Some (Some x, mkChannel (cap c) rest (closed c))
  | [] => if closed c then Some (None, c) else None
  end.

Definition close (c : channel item) : channel item := mkChannel (cap c) (items c) true.

Definition set_in (c : channel item) (n : NodeImpl) : NodeImpl :=
  mkNode (workers n) (fn n) c (out_channel n) (successors n) (predicates n) (predecessors n) (worker_count n) (is_source n) (is_sink n) (successor_channels n).
Definition set_out (c : channel item) (n : NodeImpl) : NodeImpl :=
  mkNode (workers n) (fn n) (in_channel n) c (successors n) (predicates n) (predecessors n) (worker_count n) (is_source n) (is_sink n) (successor_channels n).
Definition set_count (k : Z) (n : NodeImpl) : NodeImpl :=
  mkNode (workers n) (fn n) (in_channel n) (out_channel n) (successors n) (predicates n) (predecessors n) k (is_source n) (is_sink n) (successor_channels n).
Definition set_successors (l : list (option name)) (n : NodeImpl) : NodeImpl :=
  mkNode (workers n) (fn n) (in_channel n) (out_channel n) (successors n) (predicates n) (predecessors n) (worker_count n) (is_source n) (is_sink n) l.
Definition set_output (c : channel item) (g : PipelineGraph) : PipelineGraph :=
  mkGraph (nodes_ g) (sources_ g) (sinks_ g) c (default_chan_cap_ g) (started_ g).
Definition set_started (g : PipelineGraph) : PipelineGraph :=
  mkGraph (nodes_ g) (sources_ g) (sinks_ g) (output_channel_ g) (default_chan_cap_ g) true.

Definition update (nm : name) (f : NodeImpl -> NodeImpl) (g : PipelineGraph) : PipelineGraph := set_nodes (alter f nm (nodes_ g)) g.

(** Where the coroutines [node_worker], [fanout_worker] and [merge_to_output] of a node are:
    before [recv], with an item in hand, or done. *)
Inductive task :=
  | Worker (nm : name) | Acting (nm : name) (x : item) | Sending (nm : name) (x : item) | Ending (nm : name)
  | Fanout (nm : name) | Routing (nm : name) (x : item) (i : nat) | Closing (nm : name) (i : nat)
  | Merge (nm : name) | Merging (nm : name) (x : item) | Done.

(** One step of a coroutine, up to its next access to a channel; [None] when it has to wait. *)
Definition task_step (g : PipelineGraph) (t : task) : option (PipelineGraph * task) :=
  match t with
  | Worker nm => n ← nodes_ g !! nm; '(r, c) ← recv (in_channel n);
      match r with
      | Some x => Some (update nm (set_in c) g, Acting nm x)
      | None => let remaining := worker_count n - 1 in Some (update nm (set_count remaining) g, if remaining =? 0 then Ending nm else Done)
      end
  | Acting nm (v, ctx) => n ← nodes_ g !! nm; Some (g, match fn n v ctx with Some r => Sending nm (r, ctx) | None => Worker nm end)
  | Sending nm x => n ← nodes_ g !! nm; c ← send x (out_channel n); Some (update nm (set_out c) g, Worker nm)
  | Ending nm => n ← nodes_ g !! nm; Some (update nm (set_out (close (out_channel n))) g, Done)
  | Fanout nm => n ← nodes_ g !! nm; '(r, c) ← recv (out_channel n);
      Some (match r with Some x => (update nm (set_out c) g, Routing nm x 0) | None => (g, Closing nm 0) end)
  | Closing nm i => n ← nodes_ g !! nm;
      Some (match successor_channels n !! i with
            | Some (Some s) => (update s (fun m => set_in (close (in_channel m)) m) g, Closing nm (S i))
            | Some None => (g, Closing nm (S i))
            | None => (g, Done)
            end)
  | Routing nm x i => n ← nodes_ g !! nm;
      match successor_channels n !! i with
      | None => Some (g, Fanout nm)
      | Some s =>
        if match predicates n !! i with Some (Some p) => negb (p (fst x)) | _ => false end then Some (g, Routing nm x (S i)) else
        match s with
        | None => Some (g, Routing nm x (S i))
        | Some s => m ← nodes_ g !! s; c ← send x (in_channel m); Some (update s (set_in c) g, Routing nm x (S i))
        end
      end
  | Merge nm => n ← nodes_ g !! nm; '(r, c) ← recv (out_channel n);
      Some (match r with Some x => (update nm (set_out c) g, Merging nm x) | None => (g, Done) end)
  | Merging nm x => c ← send x (output_channel_ g); Some (set_output c g, Merge nm)
  | Done => None
  end.

(** [start]: the snapshots, then the coroutines of the nodes in the order of the sort, then
    those of the sinks. *)
Definition resolve (g : PipelineGraph) : PipelineGraph :=
  set_nodes ((fun n => set_successors (map (fun s => if is_node g s then Some s else None) (successors n)) n) <$> nodes_ g) g.

Definition spawn_node (gt : PipelineGraph * list task) (nm : name) : PipelineGraph * list task :=
  let '(g, ts) := gt in
  match nodes_ g !! nm with
  | None => (g, ts)
  | Some n =>
    (update nm (set_count (worker_count n + workers n)) g,
     ts ++ replicate (Z.to_nat (workers n)) (Worker nm) ++ match successors n with [] => [] | _ => [Fanout nm] end)
  end.

Definition start (walk walk_d : list name) (g : PipelineGraph) : PipelineGraph * list task * bool :=
  match topo_sort walk walk_d g with
  | None => (g, [], false)
  | Some order =>
    let '(g', ts) := fold_left spawn_node order (set_started (resolve g), []) in
    (g', ts ++ map Merge (filter (fun nm => is_node g nm = true) (sinks_ g)), true)
  end.

(** [push]: the sources that are nodes get a copy each, in turn, until a channel is closed; a
    full channel makes it wait.  The result is what is left to send, and the error if any. *)
Fixpoint push_from (srcs : list name) (x : item) (g : PipelineGraph) : PipelineGraph * list name * result unit :=
  match srcs with
  | [] => (g, [], Ok tt)
  | s :: rest =>
    match nodes_ g !! s with
    | None => push_from rest x g
    | Some n =>
      if closed (in_channel n) then (g, [], Err broken_pipe) else
      match send x (in_channel n) with
      | Some c => push_from rest x (update s (set_in c) g)
      | None => (g, srcs, Ok tt)
      end
    end
  end.

Definition push (x : item) (g : PipelineGraph) : PipelineGraph * list name * result unit :=
  match sources_ g with [] => (g, [], Err no_such_process) | srcs => push_from srcs x g end.

Definition try_send (x : item) (c : channel item) : channel item * bool :=
  if closed c then (c, false) else match send x c with Some c' => (c', true) | None => (c, false) end.

Definition try_push (x : item) (g : PipelineGraph) : PipelineGraph * bool :=
  match sources_ g with
  | [] => (g, false)
  | srcs => fold_left (fun ga s => let '(g, ok) := ga in
      match nodes_ g !! s with
      | None => (g, ok)
      | Some n => let '(c, sent) := try_send x (in_channel n) in (update s (set_in c) g, ok && sent)
      end) srcs (g, true)
  end.

Definition close_in (g : PipelineGraph) (nm : name) : PipelineGraph := update nm (fun n => set_in (close (in_channel n)) n) g.

(** [drain] closes the sources, waits until no worker is left, then closes the output. *)
Definition drain_close (g : PipelineGraph) : PipelineGraph := fold_left close_in (sources_ g) g.

Definition drain_end (walk : list name) (g : PipelineGraph) : option PipelineGraph :=
  if forallb (fun nm => match nodes_ g !! nm with Some n => worker_count n <=? 0 | None => true end) walk
  then Some (set_output (close (output_channel_ g)) g) else None.

Definition stop (walk : list name) (g : PipelineGraph) : PipelineGraph :=
  let g := fold_left close_in walk g in set_output (close (output_channel_ g)) g.

(** ** The running graph and its surroundings *)

(** The graph, its coroutines, what was put into the sources and what was taken out. *)
Record net := mkNet { net_graph : PipelineGraph; net_tasks : list task; pushed : list (name * item); delivered : list item }.

Inductive net_step (s : net) : net -> Prop :=
  | net_task i t g' t' : net_tasks s !! i = Some t -> task_step (net_graph s) t = Some (g', t') ->
      net_step s (mkNet g' (<[i := t']> (net_tasks s)) (pushed s) (delivered s))
  | net_push src x n c : src ∈ sources_ (net_graph s) -> nodes_ (net_graph s) !! src = Some n -> closed (in_channel n) = false -> send x (in_channel n) = Some c ->
      net_step s (mkNet (update src (set_in c) (net_graph s)) (net_tasks s) (pushed s ++ [(src, x)]) (delivered s))
  | net_close src : src ∈ sources_ (net_graph s) -> net_step s (mkNet (close_in (net_graph s) src) (net_tasks s) (pushed s) (delivered s))
  | net_drained walk g' : drain_end walk (net_graph s) = Some g' -> net_step s (mkNet g' (net_tasks s) (pushed s) (delivered s))
  | net_stopped walk : net_step s (mkNet (stop walk (net_graph s)) (net_tasks s) (pushed s) (delivered s))
  | net_take x c : recv (output_channel_ (net_graph s)) = Some (Some x, c) ->
      net_step s (mkNet (set_output c (net_graph s)) (net_tasks s) (pushed s) (delivered s ++ [x])).

(** What the graph means: the items that arrive at a node are those put into it and the
    results its predecessors route to it. *)
Definition routed (n : NodeImpl) (i : nat) (v : T) : bool := match predicates n !! i with Some (Some p) => p v | _ => true end.

Inductive arrives (g : PipelineGraph) (P : list (name * item)) : name -> item -> Prop :=
  | arrives_pushed nm x : (nm, x) ∈ P -> arrives g P nm x
  | arrives_routed u n v ctx r i w : arrives g P u (v, ctx) -> nodes_ g !! u = Some n -> fn n v ctx = Some r ->
      successors n !! i = Some w -> routed n i r = true -> arrives g P w (r, ctx).

Definition leaves (g : PipelineGraph) (P : list (name * item)) (nm : name) (y : item) : Prop :=
  exists n v, nodes_ g !! nm = Some n /\ arrives g P nm (v, snd y) /\ fn n v (snd y) = Some (fst y).

(** A program that builds a graph. *)
Inductive builder := Node (nm : name) (f : T -> C -> option T) (nworkers chan_cap : Z) | Edge (from to : name) | EdgeIf (from to : name) (p : T -> bool) | Source (nm : name) | Sink (nm : name).

Definition build_step (g : PipelineGraph) (b : builder) : PipelineGraph :=
  match b with
  | Node nm f w c => node nm f w c g
  | Edge from to => edge from to g
  | EdgeIf from to p => edge_if from to p g
  | Source nm => source nm g
  | Sink nm => sink nm g
  end.

Definition build (default_chan_cap : Z) (l : list builder) : PipelineGraph := fold_left build_step l (new_graph default_chan_cap).

(** The steps as a function, to run a schedule. *)
Inductive event := ERun (i : nat) | EPush (src : name) (x : item) | EClose (src : name) | EDrained (walk : list name) | ETake.

Definition net_act (s : net) (e : event) : option net :=
  let g := net_graph s in
  match e with
  | ERun i => t ← net_tasks s !! i; '(g', t') ← task_step g t; Some (mkNet g' (<[i := t']> (net_tasks s)) (pushed s) (delivered s))
  | EPush src x => n ← nodes_ g !! src;
      if bool_decide (src ∈ sources_ g) then if closed (in_channel n) then None else
        c ← send x (in_channel n); Some (mkNet (update src (set_in c) g) (net_tasks s) (pushed s ++ [(src, x)]) (delivered s))
      else None
  | EClose src => if bool_decide (src ∈ sources_ g) then Some (mkNet (close_in g src) (net_tasks s) (pushed s) (delivered s)) else None
  | EDrained walk => g' ← drain_end walk g; Some (mkNet g' (net_tasks s) (pushed s) (delivered s))
  | ETake => '(r, c) ← recv (output_channel_ g);
      match r with Some x => Some (mkNet (set_output c g) (net_tasks s) (pushed s) (delivered s ++ [x])) | None => None end
  end.

(** An event that is not possible yet is passed over. *)
Definition net_run (es : list event) (s : net) : net := fold_left (fun s e => default s (net_act s e)) es s.

Lemma net_act_step s e s' : net_act s e = Some s' -> net_step s s'.
Proof.
  destruct e as [i|src x|src|walk|]; cbn [net_act]; intros E.
  - apply bind_Some in E as (t & Et & E). apply bind_Some in E as ([g' t'] & Es & E). injection E as <-. by eapply net_task.
  - apply bind_Some in E as (n & En & E). case_bool_decide as Hs; [|done]. destruct (closed (in_channel n)) eqn:Ec; [done|]. apply bind_Some in E as (c & Es & E). injection E as <-. by eapply net_push.
  - case_bool_decide; [|done]. injection E as <-. by apply net_close.
  - apply bind_Some in E as (g' & Eg & E). injection E as <-. by eapply net_drained.
  - apply bind_Some in E as ([[x|] c] & Er & E); [|done]. injection E as <-. by apply net_take.
Qed.

Lemma net_run_steps es s : rtc net_step s (net_run es s).
Proof.
  revert s. induction es as [|e es IH]; intros s; [done|]. unfold net_run. cbn [fold_left]. destruct (net_act s e) as [s'|] eqn:E; [|apply IH].
  eapply rtc_l; [by apply (net_act_step s e)|apply IH].
Qed.

(** *** The calls of the application are such steps *)

(** Putting an item into the sources, from left to right. *)
Lemma push_from_steps srcs x g ts P D : incl srcs (sources_ g) -> let '(g', _, _) := push_from srcs x g in
  exists P', rtc net_step (mkNet g ts P D) (mkNet g' ts (P ++ P') D) /\ Forall (fun e => e.2 = x) P'.
Proof.
  revert g P. induction srcs as [|src srcs IH]; intros g P Hin; cbn [push_from]; [exists []; by rewrite app_nil_r|].
  assert (incl srcs (sources_ g)) as Hrest by (intros z Hz; apply Hin; by right). destruct (nodes_ g !! src) as [n|] eqn:En; [|by apply IH].
  destruct (closed (in_channel n)) eqn:Ecl; [exists []; by rewrite app_nil_r|]. destruct (send x (in_channel n)) as [c|] eqn:Es; [|exists []; by rewrite app_nil_r].
  specialize (IH (update src (set_in c) g) (P ++ [(src, x)]) Hrest). destruct (push_from srcs x (update src (set_in c) g)) as [[g' left_] r]. destruct IH as (P' & Hr & HP).
  exists ((src, x) :: P'). split; [|by constructor]. rewrite <- app_assoc in Hr. eapply rtc_l; [|exact Hr]. eapply (net_push (mkNet g ts P D)); [|done..].
  apply list_elem_of_In, Hin. by left.
Qed.

Lemma push_steps x g ts P D : let '(g', _, _) := push x g in
  exists P', rtc net_step (mkNet g ts P D) (mkNet g' ts (P ++ P') D) /\ Forall (fun e => e.2 = x) P'.
Proof.
  unfold push. destruct (sources_ g) as [|src srcs] eqn:E; [exists []; by rewrite app_nil_r|]. rewrite <- E. apply push_from_steps. apply incl_refl.
Qed.

Lemma update_same nm n (g : PipelineGraph) : nodes_ g !! nm = Some n -> update nm (set_in (in_channel n)) g = g.
Proof.
  intros En. destruct g as [ns srcs sks out dc st]. unfold update, set_nodes. cbn in *. f_equal. apply map_eq. intros k. destruct (decide (nm = k)) as [->|Hne]; [|by apply lookup_alter_ne].
  rewrite lookup_alter_eq, En. cbn. by destruct n.
Qed.

Lemma try_push_steps x g ts P D : let '(g', _) := try_push x g in
  exists P', rtc net_step (mkNet g ts P D) (mkNet g' ts (P ++ P') D) /\ Forall (fun e => e.2 = x) P'.
Proof.
  unfold try_push. set (f := fun (ga : PipelineGraph * bool) (s : name) => _). assert (forall srcs ga P, incl srcs (sources_ ga.1) ->
    exists P', rtc net_step (mkNet ga.1 ts P D) (mkNet (fold_left f srcs ga).1 ts (P ++ P') D) /\ Forall (fun e => e.2 = x) P') as Hloop.
  { clear. induction srcs as [|src srcs IH]; intros [g ok] P Hin; cbn [fold_left fst] in *; [exists []; by rewrite app_nil_r|].
    assert (incl srcs (sources_ g)) as Hrest by (intros z Hz; apply Hin; by right). unfold f at 2. destruct (nodes_ g !! src) as [n|] eqn:En; [|by apply (IH (g, ok))].
    unfold try_send. destruct (closed (in_channel n)) eqn:Ecl; [rewrite (update_same src n g En); by apply (IH (g, _))|].
    destruct (send x (in_channel n)) as [c|] eqn:Es; [|rewrite (update_same src n g En); by apply (IH (g, _))].
    destruct (IH (update src (set_in c) g, ok && true) (P ++ [(src, x)])) as (P' & Hr & HP); [done|]. exists ((src, x) :: P'). split; [|by constructor]. rewrite <- app_assoc in Hr.
    eapply rtc_l; [|exact Hr]. eapply (net_push (mkNet g ts P D)); [|done..]. apply list_elem_of_In, Hin. by left. }
  destruct (sources_ g) as [|src srcs] eqn:E; [exists []; by rewrite app_nil_r|]. specialize (Hloop (src :: srcs) (g, true) P). rewrite <- E in Hloop |- *.
  destruct (fold_left f (sources_ g) (g, true)) as [g' ok]. apply Hloop, incl_refl.
Qed.

Lemma drain_close_steps g ts P D : rtc net_step (mkNet g ts P D) (mkNet (drain_close g) ts P D).
Proof.
  unfold drain_close. assert (forall srcs g, incl srcs (sources_ g) -> rtc net_step (mkNet g ts P D) (mkNet (fold_left close_in srcs g) ts P D)) as Hloop; [|apply Hloop, incl_refl].
  clear. induction srcs as [|src srcs IH]; intros g Hin; [done|]. cbn [fold_left]. eapply rtc_l; [apply (net_close (mkNet g ts P D) src), list_elem_of_In, Hin; by left|].
  apply IH. intros z Hz. apply Hin. by right.
Qed.
End graph.

(** ** The sort is right *)

Section topological.
Context {T C : Type} (g : @PipelineGraph T C) (walk walk_d : list name).
Hypothesis walk_nodes : walk ≡ₚ elements (dom (nodes_ g)).
Hypothesis walk_degrees : walk_d ≡ₚ elements (dom (nodes_ g)).

(** An edge of the graph, between two of its nodes. *)
Definition arrow (u v : name) : Prop := v ∈ successors_of g u /\ is_Some (nodes_ g !! v).

(** The targets of the edges that leave the nodes of a list. *)
Definition targets (us : list name) : list name := us ≫= successors_of g.

Definition occurrences (v : name) (l : list name) : Z := zlen (filter (fun w => w = v) l).

Lemma occurrences_cons v w l : occurrences v (w :: l) = (if decide (w = v) then 1 else 0) + occurrences v l.
Proof. unfold occurrences. rewrite filter_cons. destruct (decide (w = v)); [rewrite zlen_cons|]; lia. Qed.

Lemma occurrences_app v l1 l2 : occurrences v (l1 ++ l2) = occurrences v l1 + occurrences v l2.
Proof. unfold occurrences. rewrite filter_app. apply zlen_app. Qed.

Lemma occurrences_nonneg v l : 0 <= occurrences v l.
Proof. apply zlen_nonneg. Qed.

Lemma occurrences_zero v l : occurrences v l = 0 <-> v ∉ l.
Proof.
  induction l as [|w l IH]; [split; [intros _; apply not_elem_of_nil|done]|]. rewrite occurrences_cons, elem_of_cons.
  pose proof (occurrences_nonneg v l). destruct (decide (w = v)) as [->|Hne]; split; intros E; try lia; [tauto| |].
  - intros [->|Hin]; [done|]. apply IH in Hin; [done|lia].
  - rewrite (proj2 IH); [lia|tauto].
Qed.

Lemma targets_elem v us : v ∈ targets us <-> exists u, u ∈ us /\ v ∈ successors_of g u.
Proof. unfold targets. rewrite list_elem_of_bind. naive_solver. Qed.

Lemma walk_elem v : v ∈ walk <-> is_Some (nodes_ g !! v).
Proof. by rewrite walk_nodes, elem_of_elements, elem_of_dom. Qed.

(** *** The degrees *)

Lemma zero_degrees l d v : fold_left (fun (d : degrees) nm => <[nm := 0]> d) l d !! v = if decide (v ∈ l) then Some 0 else d !! v.
Proof.
  revert d. induction l as [|w l IH]; intros d; cbn [fold_left]; [by rewrite decide_False by apply not_elem_of_nil|]. rewrite IH.
  destruct (decide (v ∈ l)) as [Hin|Hni]; [by rewrite decide_True by (by apply list_elem_of_further)|].
  destruct (decide (v = w)) as [->|Hne]; [rewrite decide_True by apply list_elem_of_here; apply lookup_insert_eq|].
  rewrite decide_False by (rewrite elem_of_cons; tauto). by apply lookup_insert_ne.
Qed.

Lemma count_edges l d v : fold_left count_edge l d !! v = (fun k => k + occurrences v l) <$> d !! v.
Proof.
  revert d. induction l as [|w l IH]; intros d; cbn [fold_left]; [destruct (d !! v) as [k|]; [|done]; apply (f_equal Some); change (k = k + 0); lia|].
  rewrite IH, occurrences_cons. unfold count_edge. destruct (d !! w) as [k|] eqn:Ek.
  - destruct (decide (w = v)) as [->|Hne]; [rewrite lookup_insert_eq, Ek; cbn; f_equal; lia|]. by rewrite lookup_insert_ne.
  - destruct (decide (w = v)) as [->|Hne]; [by rewrite Ek|done].
Qed.

Lemma count_nodes l d v : fold_left (fun d nm => fold_left count_edge (successors_of g nm) d) l d !! v = (fun k => k + occurrences v (targets l)) <$> d !! v.
Proof.
  revert d. induction l as [|u l IH]; intros d; cbn [fold_left]; [destruct (d !! v) as [k|]; [|done]; apply (f_equal Some); change (k = k + 0); lia|].
  rewrite IH, count_edges. destruct (d !! v) as [k|]; [|done]. apply (f_equal Some). change (targets (u :: l)) with (successors_of g u ++ targets l). rewrite occurrences_app. lia.
Qed.

Lemma in_degrees_spec v : in_degrees walk g !! v = if decide (is_Some (nodes_ g !! v)) then Some (occurrences v (targets walk)) else None.
Proof.
  unfold in_degrees. rewrite count_nodes, zero_degrees. destruct (decide (is_Some (nodes_ g !! v))) as [Hs|Hs]; rewrite <- walk_elem in Hs.
  - by rewrite decide_True.
  - rewrite decide_False by done. by rewrite lookup_empty.
Qed.
(** *** The loop *)

Definition undone (order : list name) : list name := filter (fun v => v ∉ order) walk.

(** What holds before a successor is relaxed: [pend] are those of the current node that are
    still to come.  [order ++ q] is the sequence of the nodes in the order they became free. *)
Record kahn_inv (d : degrees) (q order pend : list name) : Prop := {
  kahn_nodup : NoDup (order ++ q);
  kahn_nodes v : v ∈ order ++ q -> is_Some (nodes_ g !! v);
  kahn_degree v : is_Some (nodes_ g !! v) -> d !! v = Some (occurrences v (pend ++ targets (undone order)));
  kahn_free v : is_Some (nodes_ g !! v) -> v ∈ order ++ q <-> occurrences v (pend ++ targets (undone order)) = 0;
  kahn_missing v : ~ is_Some (nodes_ g !! v) -> default 0 (d !! v) <= 0;
  kahn_forward l1 v l2 : order ++ q = l1 ++ v :: l2 -> forall u, arrow u v -> u ∈ l1;
}.

(** A node none of whose incoming edges is left comes after all its predecessors. *)
Lemma free_predecessors order pend u v : occurrences v (pend ++ targets (undone order)) = 0 -> arrow u v -> u ∈ order.
Proof.
  intros H0 [Hs Hv]. apply occurrences_zero in H0. rewrite elem_of_app, targets_elem in H0. destruct (decide (u ∈ order)) as [|Hni]; [done|]. exfalso. apply H0. right.
  exists u. split; [|done]. apply list_elem_of_filter. split; [done|]. apply walk_elem. unfold successors_of in Hs. destruct (nodes_ g !! u); [by eexists|]. by apply elem_of_nil in Hs.
Qed.

Lemma split_snoc (l l1 l2 : list name) v w : l ++ [w] = l1 ++ v :: l2 -> (l2 = [] /\ l1 = l /\ v = w) \/ exists l3, l2 = l3 ++ [w] /\ l = l1 ++ v :: l3.
Proof.
  destruct l2 as [|x l2 _] using rev_ind; intros E; [apply app_inj_tail in E as [-> ->]; by left|]. right. exists l2.
  rewrite app_comm_cons, app_assoc in E. by apply app_inj_tail in E as [-> ->].
Qed.

Lemma kahn_relax d q order w pend : kahn_inv d q order (w :: pend) -> let '(d', q') := relax (d, q) w in kahn_inv d' q' order pend.
Proof.
  intros Hinv. unfold relax. set (deg := default 0 (d !! w) - 1). destruct (decide (is_Some (nodes_ g !! w))) as [Hw|Hw].
  - assert (deg = occurrences w (pend ++ targets (undone order))) as Edeg.
    { subst deg. rewrite (kahn_degree _ _ _ _ Hinv w Hw). cbn [default app]. rewrite occurrences_cons, decide_True by done. cbn [id]. lia. }
    assert (w ∉ order ++ q) as Hni.
    { rewrite (kahn_free _ _ _ _ Hinv w Hw). cbn [app]. rewrite occurrences_cons, decide_True by done. pose proof (occurrences_nonneg w (pend ++ targets (undone order))). lia. }
    destruct Hinv as [I1 I2 I3 I4 I5 I6]. cbn [app] in *. destruct (Z.eqb_spec deg 0) as [E0|E0].
    + split; rewrite ?app_assoc.
      * apply NoDup_app. split; [done|]. split; [intros x Hx ->%list_elem_of_singleton; done|apply NoDup_singleton].
      * intros v [Hv| ->%list_elem_of_singleton]%elem_of_app; [by apply I2|done].
      * intros v Hv. destruct (decide (w = v)) as [->|Hne]; [by rewrite lookup_insert_eq, Edeg|]. rewrite lookup_insert_ne, I3, occurrences_cons, decide_False by done. done.
      * intros v Hv. rewrite elem_of_app, (I4 v Hv), occurrences_cons, list_elem_of_singleton. destruct (decide (w = v)) as [->|Hne]; [split; [lia|auto]|]. split; [intros [?| ->]; [lia|done]|intros; left; lia].
      * intros v Hv. rewrite lookup_insert_ne by (by intros ->). by apply I5.
      * intros l1 v l2 [(-> & -> & ->)|(l3 & -> & E)]%split_snoc u Hu; [|by eapply I6]. apply elem_of_app. left. eapply free_predecessors; [|exact Hu]. by rewrite <- Edeg.
    + split; try done.
      * intros v Hv. destruct (decide (w = v)) as [->|Hne]; [by rewrite lookup_insert_eq, Edeg|]. rewrite lookup_insert_ne, I3, occurrences_cons, decide_False by done. done.
      * intros v Hv. rewrite (I4 v Hv), occurrences_cons. destruct (decide (w = v)) as [->|Hne]; [|lia]. pose proof (occurrences_nonneg v (pend ++ targets (undone order))). lia.
      * intros v Hv. rewrite lookup_insert_ne by (by intros ->). by apply I5.
  - pose proof (kahn_missing _ _ _ _ Hinv w Hw) as Hle. destruct (Z.eqb_spec deg 0) as [E0|E0]; [lia|]. destruct Hinv as [I1 I2 I3 I4 I5 I6]. cbn [app] in *. split; try done.
    + intros v Hv. assert (w <> v) by (by intros ->). rewrite lookup_insert_ne, I3, occurrences_cons, decide_False by done. done.
    + intros v Hv. assert (w <> v) by (by intros ->). rewrite (I4 v Hv), occurrences_cons, decide_False by done. done.
    + intros v Hv. destruct (decide (w = v)) as [->|Hne]; [rewrite lookup_insert_eq; cbn; lia|]. rewrite lookup_insert_ne by done. by apply I5.
Qed.

Lemma kahn_relax_all d q order pend : kahn_inv d q order pend -> let '(d', q') := fold_left relax pend (d, q) in kahn_inv d' q' order [].
Proof.
  revert d q. induction pend as [|w pend IH]; intros d q Hinv; [done|]. cbn [fold_left]. pose proof (kahn_relax d q order w pend Hinv) as H.
  destruct (relax (d, q) w) as [d' q']. by apply IH.
Qed.
#[local] Instance occurrences_perm v : Proper ((≡ₚ) ==> eq) (occurrences v).
Proof. intros l1 l2 H. unfold occurrences, zlen. by rewrite H. Qed.

Lemma walk_nodup : NoDup walk.
Proof. rewrite walk_nodes. apply NoDup_elements. Qed.

Lemma walk_length : length walk = size (nodes_ g).
Proof. rewrite walk_nodes. change (length (elements (dom (nodes_ g)))) with (size (dom (nodes_ g))). apply size_dom. Qed.

(** Taking the next node off the queue. *)
Lemma kahn_pop d nm q order : kahn_inv d (nm :: q) order [] -> kahn_inv d q (order ++ [nm]) (successors_of g nm).
Proof.
  intros [I1 I2 I3 I4 I5 I6]. cbn [app] in *. assert ((order ++ [nm]) ++ q = order ++ nm :: q) as E by (by rewrite <- app_assoc).
  assert (is_Some (nodes_ g !! nm)) as Hnm by (apply I2; rewrite elem_of_app, elem_of_cons; auto). assert (nm ∉ order) as Hni.
  { apply NoDup_app in I1 as (_ & Hd & _). intros Hin. by apply (Hd nm Hin), list_elem_of_here. }
  assert (undone order ≡ₚ nm :: undone (order ++ [nm])) as Hu.
  { unfold undone. apply NoDup_Permutation; [apply NoDup_filter, walk_nodup| |].
    - apply NoDup_cons. split; [|apply NoDup_filter, walk_nodup]. intros [H _]%list_elem_of_filter. apply H, elem_of_app. right. apply list_elem_of_here.
    - intros x. rewrite elem_of_cons, !list_elem_of_filter, elem_of_app, list_elem_of_singleton. split; [intros []; destruct (decide (x = nm)); tauto|].
      intros [->|[? ?]]; [split; [done|by apply walk_elem]|tauto]. }
  assert (targets (undone order) ≡ₚ successors_of g nm ++ targets (undone (order ++ [nm]))) as Ht.
  { unfold targets. rewrite Hu. done. }
  split; rewrite ?E; try done.
  - intros v Hv. by rewrite <- Ht, I3.
  - intros v Hv. by rewrite <- Ht, I4.
Qed.

Lemma kahn_lengths d q order pend : kahn_inv d q order pend -> (length order + length q <= size (nodes_ g))%nat.
Proof.
  intros [I1 I2 _ _ _ _]. rewrite <- length_app, <- walk_length. apply submseteq_length, NoDup_submseteq; [done|]. intros x Hx. by apply walk_elem, I2.
Qed.

(** The loop ends with an empty queue. *)
Lemma kahn_ends fuel d q order : kahn_inv d q order [] -> (fuel + length order = S (size (nodes_ g)))%nat -> exists d', kahn_inv d' [] (kahn fuel g d q order) [].
Proof.
  revert d q order. induction fuel as [|fuel IH]; intros d q order Hinv Hf; pose proof (kahn_lengths _ _ _ _ Hinv) as Hl; [lia|].
  destruct q as [|nm q]; cbn [kahn]; [by exists d|]. pose proof (kahn_pop _ _ _ _ Hinv) as Hpop. assert (fuel + length (order ++ [nm]) = S (size (nodes_ g)))%nat as Hf' by (rewrite length_app; cbn; lia).
  unfold successors_of in Hpop. destruct (nodes_ g !! nm) as [n|]; [|by apply (IH d)]. pose proof (kahn_relax_all _ _ _ _ Hpop) as Hall.
  destruct (fold_left relax (successors n) (d, q)) as [d' q']. by apply (IH d').
Qed.

Lemma kahn_start : kahn_inv (in_degrees walk g) (filter (fun nm => in_degrees walk g !! nm = Some 0) walk_d) [] [].
Proof.
  assert (undone [] = walk) as E.
  { unfold undone. clear. induction walk as [|x l IH]; [done|]. rewrite filter_cons, decide_True, IH; [done|apply not_elem_of_nil]. }
  assert (forall v, v ∈ walk_d <-> is_Some (nodes_ g !! v)) as Hd by (intros v; by rewrite walk_degrees, elem_of_elements, elem_of_dom).
  assert (forall v, v ∈ filter (fun nm => in_degrees walk g !! nm = Some 0) walk_d <-> is_Some (nodes_ g !! v) /\ occurrences v (targets walk) = 0) as Hq.
  { intros v. rewrite list_elem_of_filter, Hd, in_degrees_spec. destruct (decide (is_Some (nodes_ g !! v))); [|naive_solver]. split; [intros [[= ->] ?]; done|intros [? ->]; done]. }
  split; cbn [app]; rewrite ?E.
  - apply NoDup_filter. rewrite walk_degrees. apply NoDup_elements.
  - intros v Hv. by apply Hq in Hv as [? _].
  - intros v Hv. by rewrite in_degrees_spec, decide_True.
  - intros v Hv. rewrite Hq. tauto.
  - intros v Hv. by rewrite in_degrees_spec, decide_False.
  - intros l1 v l2 Eq u Hu. exfalso. assert (v ∈ filter (fun nm => in_degrees walk g !! nm = Some 0) walk_d) as [_ H0]%Hq by (rewrite Eq, elem_of_app, elem_of_cons; auto).
    rewrite <- E in H0. change (targets (undone [])) with ([] ++ targets (undone [])) in H0. by eapply free_predecessors, elem_of_nil in H0.
Qed.
(** *** Cycles *)

Lemma sorted_nodup (R : name -> name -> Prop) l : (forall v, ~ R v v) -> StronglySorted R l -> NoDup l.
Proof.
  intros Hirr. induction 1 as [|x l _ IH Hall]; [constructor|]. apply NoDup_cons. split; [|done]. intros Hin. by apply (Hirr x), (proj1 (Forall_forall _ _) Hall).
Qed.

Lemma backward_chain (X : list name) x k : x ∈ X -> (forall v, v ∈ X -> exists u, u ∈ X /\ arrow u v) ->
  exists l, length l = S k /\ (forall v, v ∈ l -> v ∈ X) /\ StronglySorted (tc arrow) l.
Proof.
  intros Hx Hpred. induction k as [|k (l & Hlen & Hsub & Hs)].
  - exists [x]. split; [done|]. split; [by intros v ->%list_elem_of_singleton|]. repeat constructor.
  - destruct l as [|y l]; [done|]. destruct (Hpred y) as (u & Hu & Huy); [apply Hsub, list_elem_of_here|]. exists (u :: y :: l). split; [cbn in *; lia|].
    split; [intros v [->|Hv]%elem_of_cons; [done|by apply Hsub]|]. constructor; [done|]. apply StronglySorted_inv in Hs as [_ Hy]. constructor; [by apply tc_once|].
    eapply Forall_impl; [exact Hy|]. intros v Hv. by eapply tc_l.
Qed.

(** Where every one of finitely many nodes has a predecessor among them, there is a cycle. *)
Lemma predecessors_cycle (X : list name) x : x ∈ X -> (forall v, v ∈ X -> exists u, u ∈ X /\ arrow u v) -> ~ (forall v, ~ tc arrow v v).
Proof.
  intros Hx Hpred Hirr. destruct (backward_chain X x (length X) Hx Hpred) as (l & Hlen & Hsub & Hs). apply (sorted_nodup _ _ Hirr) in Hs.
  pose proof (submseteq_length _ _ (NoDup_submseteq _ _ Hs Hsub)). lia.
Qed.

(** Along a path the nodes come in the order of the sort, so it has no cycle. *)
Lemma forward_path order u v : (forall l1 v l2, order = l1 ++ v :: l2 -> forall u, arrow u v -> u ∈ l1) -> tc arrow u v -> forall l1 l2, order = l1 ++ v :: l2 -> u ∈ l1.
Proof.
  intros Hf Ht. induction Ht as [u v H|u w v H _ IH]; intros l1 l2 E; [by eapply Hf|]. pose proof (IH l1 l2 E) as Hw.
  apply list_elem_of_split in Hw as (a & b & ->). rewrite <- app_assoc in E. cbn [app] in E. apply elem_of_app. left. by eapply Hf.
Qed.

Lemma topo_sort_order order : topo_sort walk walk_d g = Some order ->
  order ≡ₚ walk /\ (forall l1 v l2, order = l1 ++ v :: l2 -> forall u, arrow u v -> u ∈ l1).
Proof.
  unfold topo_sort. cbn zeta. destruct (kahn_ends (S (size (nodes_ g))) _ _ [] kahn_start) as (d & Hinv); [cbn [length]; lia|].
  set (o := kahn _ _ _ _ _) in *. destruct (Nat.eqb_spec (length o) (size (nodes_ g))) as [El|]; [|done]. intros [= <-]. destruct Hinv as [I1 I2 _ _ _ I6]. rewrite app_nil_r in *.
  split; [|exact I6]. apply submseteq_length_Permutation; [|rewrite walk_length; lia]. apply NoDup_submseteq; [done|]. intros x Hx. by apply walk_elem, I2.
Qed.

Lemma topo_sort_cycle : topo_sort walk walk_d g = None -> ~ (forall v, ~ tc arrow v v).
Proof.
  unfold topo_sort. cbn zeta. destruct (kahn_ends (S (size (nodes_ g))) _ _ [] kahn_start) as (d & Hinv); [cbn [length]; lia|].
  set (o := kahn _ _ _ _ _) in *. destruct (Nat.eqb_spec (length o) (size (nodes_ g))) as [|El]; [done|]. intros _. pose proof (kahn_lengths _ _ _ _ Hinv) as Hl.
  destruct Hinv as [I1 I2 _ I4 _ _]. rewrite app_nil_r in *. cbn [app length] in *. assert (exists x, x ∈ undone o) as [x Hx].
  { destruct (undone o) as [|x r] eqn:E; [|exists x; apply list_elem_of_here]. exfalso. assert (walk ⊆+ o) as Hs%submseteq_length; [|rewrite walk_length in Hs; lia].
    apply NoDup_submseteq; [apply walk_nodup|]. intros y Hy. destruct (decide (y ∈ o)); [done|]. assert (y ∈ undone o) as H by (by apply list_elem_of_filter). rewrite E in H. by apply elem_of_nil in H. }
  apply (predecessors_cycle (undone o) x Hx). intros v [Hni Hv%walk_elem]%list_elem_of_filter. rewrite (I4 v Hv), occurrences_zero, targets_elem in Hni.
  destruct (Exists_exists (fun u => v ∈ successors_of g u) (undone o)) as [Hex _]. destruct (decide (Exists (fun u => v ∈ successors_of g u) (undone o))) as [H|H].
  - destruct (Hex H) as (u & Hu & Hs). by exists u.
  - exfalso. apply Hni. intros (u & Hu & Hs). apply H, Exists_exists. by exists u.
Qed.
End topological.

(** ** Nothing is made up *)

Section soundness.
Context {T C : Type} (g0 : @PipelineGraph T C).

(** The parts of a node that do not change after [start]. *)
Definition shape (n : @NodeImpl T C) := (fn n, successors n, predicates n).

Definition task_ok (P : list (name * @item T C)) (t : @task T C) : Prop :=
  match t with
  | Acting nm x => arrives g0 P nm x
  | Sending nm x | Routing nm x _ => leaves g0 P nm x
  | Merge nm => nm ∈ sinks_ g0
  | Merging nm x => nm ∈ sinks_ g0 /\ leaves g0 P nm x
  | _ => True
  end.

Definition snapshot_ok (n : @NodeImpl T C) : Prop :=
  length (successor_channels n) = length (successors n) /\ forall i w, successor_channels n !! i = Some (Some w) -> successors n !! i = Some w.

Definition node_ok (P : list (name * @item T C)) (nm : name) (n : @NodeImpl T C) : Prop :=
  (exists n0, nodes_ g0 !! nm = Some n0 /\ shape n = shape n0) /\
  snapshot_ok n /\ Forall (arrives g0 P nm) (items (in_channel n)) /\ Forall (leaves g0 P nm) (items (out_channel n)).

Definition output_ok (P : list (name * @item T C)) (y : @item T C) : Prop := exists nm, nm ∈ sinks_ g0 /\ leaves g0 P nm y.

Record sound (s : @net T C) : Prop := {
  sound_nodes : map_Forall (node_ok (pushed s)) (nodes_ (net_graph s));
  sound_tasks : Forall (task_ok (pushed s)) (net_tasks s);
  sound_output : Forall (output_ok (pushed s)) (items (output_channel_ (net_graph s)));
  sound_delivered : Forall (output_ok (pushed s)) (delivered s);
}.

Lemma node_ok_in P nm n c : node_ok P nm n -> Forall (arrives g0 P nm) (items c) -> node_ok P nm (set_in c n).
Proof. intros (H1 & H2 & H3 & H4) Hc. done. Qed.

Lemma node_ok_out P nm n c : node_ok P nm n -> Forall (leaves g0 P nm) (items c) -> node_ok P nm (set_out c n).
Proof. intros (H1 & H2 & H3 & H4) Hc. done. Qed.

Lemma update_ok P nm f g : map_Forall (node_ok P) (nodes_ g) -> (forall n, nodes_ g !! nm = Some n -> node_ok P nm n -> node_ok P nm (f n)) ->
  map_Forall (node_ok P) (nodes_ (update nm f g)).
Proof.
  intros Hall Hf k m. unfold update, set_nodes. cbn [nodes_]. destruct (decide (nm = k)) as [->|Hne].
  - rewrite lookup_alter_eq. destruct (nodes_ g !! k) as [n|] eqn:E; cbn [fmap option_fmap option_map]; [|done]. intros [= <-]. apply (Hf n eq_refl), Hall, E.
  - rewrite lookup_alter_ne by done. apply Hall.
Qed.

Lemma send_items (P : @item T C -> Prop) x c c' : send x c = Some c' -> Forall P (items c) -> P x -> Forall P (items c').
Proof.
  unfold send. destruct (closed c); [by intros [= <-]|]. destruct (cap c <=? zlen (items c)); [done|]. intros [= <-] H Hx. cbn [items]. apply Forall_app. by repeat constructor.
Qed.

Lemma recv_items (P : @item T C -> Prop) r c c' : recv c = Some (r, c') -> Forall P (items c) -> Forall P (items c') /\ match r with Some x => P x | None => True end.
Proof.
  unfold recv. destruct (items c) as [|x rest] eqn:E; [destruct (closed c); [|done]; intros [= <- <-] _; rewrite E; split; [constructor|done]|].
  intros [= <- <-] [Hx Hr]%Forall_cons. done.
Qed.

(** What a step of a coroutine keeps. *)
Definition step_ok (P : list (name * @item T C)) (g' : @PipelineGraph T C) (t' : @task T C) : Prop :=
  map_Forall (node_ok P) (nodes_ g') /\ Forall (output_ok P) (items (output_channel_ g')) /\ task_ok P t'.

Section step.
Context (P : list (name * @item T C)) (g : @PipelineGraph T C).
Hypothesis Hn : map_Forall (node_ok P) (nodes_ g).
Hypothesis Ho : Forall (output_ok P) (items (output_channel_ g)).

Lemma worker_ok nm g' t' : task_step g (Worker nm) = Some (g', t') -> step_ok P g' t'.
Proof.
  intros E. cbn [task_step] in E. apply bind_Some in E as (n & En & E). apply bind_Some in E as ([r c] & Er & E). destruct (Hn nm n En) as (H1 & H2 & H3 & H4).
  destruct (recv_items _ _ _ _ Er H3) as [Hc Hr]. destruct r as [x|]; injection E as <- <-; (split; [apply update_ok; [done|]|split; [done|]]).
  - intros m _ Hm. by apply node_ok_in.
  - done.
  - intros m _ (? & ? & ? & ?). done.
  - by destruct (worker_count n - 1 =? 0).
Qed.

Lemma acting_ok nm x g' t' : task_ok P (Acting nm x) -> task_step g (Acting nm x) = Some (g', t') -> step_ok P g' t'.
Proof.
  intros Ht E. destruct x as [v ctx]. cbn [task_step task_ok] in *. apply bind_Some in E as (n & En & E). injection E as <- <-. split; [done|]. split; [done|].
  destruct (Hn nm n En) as ((n0 & E0 & Es) & _). destruct (fn n v ctx) as [r|] eqn:Ef; [|done]. exists n0, v. split; [done|]. split; [done|]. cbn. by injection Es as <- _ _.
Qed.

Lemma sending_ok nm x g' t' : task_ok P (Sending nm x) -> task_step g (Sending nm x) = Some (g', t') -> step_ok P g' t'.
Proof.
  intros Ht E. cbn [task_step task_ok] in *. apply bind_Some in E as (n & En & E). apply bind_Some in E as (c & Ec & E). injection E as <- <-.
  split; [|done]. apply update_ok; [done|]. intros m Em Hm. apply node_ok_out; [done|]. rewrite En in Em. injection Em as <-. eapply send_items; [done|apply Hm|done].
Qed.

Lemma fanout_ok nm g' t' : task_step g (Fanout nm) = Some (g', t') -> step_ok P g' t'.
Proof.
  intros E. cbn [task_step] in E. apply bind_Some in E as (n & En & E). apply bind_Some in E as ([r c] & Er & E). destruct (Hn nm n En) as (H1 & H2 & H3 & H4).
  destruct (recv_items _ _ _ _ Er H4) as [Hc Hr]. destruct r as [x|]; injection E as <- <-; [|done]. split; [|done]. apply update_ok; [done|]. intros m _ Hm. by apply node_ok_out.
Qed.

Lemma closing_ok nm i g' t' : task_step g (Closing nm i) = Some (g', t') -> step_ok P g' t'.
Proof.
  intros E. cbn [task_step] in E. apply bind_Some in E as (n & En & E). destruct (successor_channels n !! i) as [[s|]|]; injection E as <- <-; try done.
  split; [|done]. apply update_ok; [done|]. intros m _ Hm. apply node_ok_in; [done|]. apply Hm.
Qed.

Lemma routing_ok nm x i g' t' : task_ok P (Routing nm x i) -> task_step g (Routing nm x i) = Some (g', t') -> step_ok P g' t'.
Proof.
  intros Ht E. cbn [task_step task_ok] in *. apply bind_Some in E as (n & En & E). destruct (successor_channels n !! i) as [s|] eqn:Es; [|by injection E as <- <-].
  destruct (match predicates n !! i with Some (Some p) => negb (p (fst x)) | _ => false end) eqn:Ep; [by injection E as <- <-|]. destruct s as [s|]; [|by injection E as <- <-].
  apply bind_Some in E as (m & Em & E). apply bind_Some in E as (c & Ec & E). injection E as <- <-. split; [|done]. apply update_ok; [done|]. intros m' Em' Hm.
  rewrite Em in Em'. injection Em' as <-. apply node_ok_in; [done|]. eapply send_items; [done|apply Hm|]. destruct x as [r ctx], Ht as (n0 & v & E0 & Ha & Ef).
  destruct (Hn nm n En) as ((n0' & E0' & Hsh) & [_ Hsucc] & _). rewrite E0 in E0'. injection E0' as <-. injection Hsh as _ Hs Hp.
  eapply (arrives_routed _ _ nm n0); [done..| |]; [rewrite <- Hs; by apply Hsucc|]. unfold routed. rewrite <- Hp. cbn [fst] in *. destruct (predicates n !! i) as [[p|]|]; try done. by destruct (p r).
Qed.

Lemma ending_ok nm g' t' : task_step g (Ending nm) = Some (g', t') -> step_ok P g' t'.
Proof.
  intros E. cbn [task_step] in E. apply bind_Some in E as (n & En & E). injection E as <- <-. split; [|done]. apply update_ok; [done|]. intros m Em Hm. rewrite En in Em. injection Em as <-. apply node_ok_out; [done|]. apply Hm.
Qed.

Lemma merge_ok nm g' t' : task_ok P (Merge nm) -> task_step g (Merge nm) = Some (g', t') -> step_ok P g' t'.
Proof.
  intros Ht E. cbn [task_step] in E. apply bind_Some in E as (n & En & E). apply bind_Some in E as ([r c] & Er & E). destruct (Hn nm n En) as (H1 & H2 & H3 & H4).
  destruct (recv_items _ _ _ _ Er H4) as [Hc Hr]. destruct r as [x|]; injection E as <- <-; [|done]. split; [|done]. apply update_ok; [done|]. intros m _ Hm. by apply node_ok_out.
Qed.

Lemma merging_ok nm x g' t' : task_ok P (Merging nm x) -> task_step g (Merging nm x) = Some (g', t') -> step_ok P g' t'.
Proof.
  intros [Hnm Hx] E. cbn [task_step] in E. apply bind_Some in E as (c & Ec & E). injection E as <- <-. split; [done|]. split; [|done].
  eapply send_items; [done|done|]. by exists nm.
Qed.

Lemma task_step_ok t g' t' : task_ok P t -> task_step g t = Some (g', t') -> step_ok P g' t'.
Proof.
  destruct t; intros Ht E; [by eapply worker_ok|by eapply acting_ok|by eapply sending_ok|by eapply ending_ok|by eapply fanout_ok|by eapply routing_ok|by eapply closing_ok|by eapply merge_ok|by eapply merging_ok|done].
Qed.
End step.

(** More input only adds arrivals. *)
Lemma arrives_mono P P' nm x : P ⊆ P' -> arrives g0 P nm x -> arrives g0 P' nm x.
Proof. intros Hs. induction 1 as [nm x Hx|u n v ctx r i w _ IH]; [apply arrives_pushed; by apply Hs|by eapply arrives_routed]. Qed.

Lemma leaves_mono P P' nm x : P ⊆ P' -> leaves g0 P nm x -> leaves g0 P' nm x.
Proof. intros Hs (n & v & En & Ha & Ef). exists n, v. split; [done|]. split; [by eapply arrives_mono|done]. Qed.

Lemma output_mono P P' y : P ⊆ P' -> output_ok P y -> output_ok P' y.
Proof. intros Hs (nm & Hnm & Hl). exists nm. split; [done|]. by eapply leaves_mono. Qed.

Lemma node_mono P P' nm n : P ⊆ P' -> node_ok P nm n -> node_ok P' nm n.
Proof.
  intros Hs (H1 & H2 & H3 & H4). split; [done|]. split; [done|]. split; (eapply Forall_impl; [done|]); intros x; cbn; [by apply arrives_mono|by apply leaves_mono].
Qed.

Lemma task_mono P P' t : P ⊆ P' -> task_ok P t -> task_ok P' t.
Proof. intros Hs. destruct t; cbn [task_ok]; try done; try (by apply arrives_mono); try (by apply leaves_mono). intros [? ?]. split; [done|by eapply leaves_mono]. Qed.

Lemma close_in_ok P g nm : map_Forall (node_ok P) (nodes_ g) -> map_Forall (node_ok P) (nodes_ (close_in g nm)).
Proof. intros H. apply update_ok; [done|]. intros n _ Hok. apply node_ok_in; [done|]. apply Hok. Qed.

Lemma close_all_ok P g l : map_Forall (node_ok P) (nodes_ g) -> map_Forall (node_ok P) (nodes_ (fold_left close_in l g)) /\ output_channel_ (fold_left close_in l g) = output_channel_ g.
Proof. revert g. induction l as [|nm l IH]; intros g H; [done|]. cbn [fold_left]. by apply (IH (close_in g nm)), close_in_ok. Qed.

Lemma net_step_sound s s' : sound s -> net_step s s' -> sound s'.
Proof.
  intros [S1 S2 S3 S4] Hst. destruct Hst as [i t g' t' Ei Et|src x n c Hsrc En Ecl Es|src Hsrc|walk g' Eg|walk|x c Er].
  - destruct (task_step_ok _ _ S1 S3 t g' t') as (H1 & H2 & H3); [by eapply Forall_lookup_1|done|]. split; try done. cbn [net_tasks]. by apply Forall_insert.
  - assert (pushed s ⊆ pushed s ++ [(src, x)]) as Hs by (intros y Hy; apply elem_of_app; by left). split; cbn [net_graph net_tasks pushed delivered].
    + apply update_ok; [intros nm m Hm; eapply node_mono; [exact Hs|by apply S1]|]. intros m Em Hm. rewrite En in Em. injection Em as <-. apply node_ok_in; [done|].
      eapply send_items; [done|apply Hm|]. apply arrives_pushed, elem_of_app. right. apply list_elem_of_here.
    + eapply Forall_impl; [exact S2|]. intros t. by apply task_mono.
    + eapply Forall_impl; [exact S3|]. intros y. by apply output_mono.
    + eapply Forall_impl; [exact S4|]. intros y. by apply output_mono.
  - split; try done. by apply close_in_ok.
  - unfold drain_end in Eg. destruct (forallb _ walk); [|done]. injection Eg as <-. by split.
  - destruct (close_all_ok _ _ walk S1) as [H1 H2]. unfold stop. cbn zeta. split; try done. cbn. by rewrite H2.
  - destruct (recv_items _ _ _ _ Er S3) as [Hc Hx]. split; try done. cbn. apply Forall_app. by repeat constructor.
Qed.
End soundness.

(** ** What the builder makes *)

Section built.
Context {T C : Type}.

(** A node before [start]: a predicate per edge, and nothing in its channels. *)
Record pristine (n : @NodeImpl T C) : Prop := {
  pristine_predicates : length (predicates n) = length (successors n);
  pristine_in : items (in_channel n) = [] /\ closed (in_channel n) = false;
  pristine_out : items (out_channel n) = [] /\ closed (out_channel n) = false;
  pristine_count : worker_count n = 0;
}.

Record well_built (g : @PipelineGraph T C) : Prop := {
  built_nodes : map_Forall (fun _ n => pristine n) (nodes_ g);
  built_output : items (output_channel_ g) = [] /\ closed (output_channel_ g) = false;
  built_sources : NoDup (sources_ g);
  built_sinks : NoDup (sinks_ g);
}.

Lemma alter_pristine (f : @NodeImpl T C -> NodeImpl) (nm : name) (m : gmap name (@NodeImpl T C)) : (forall n, pristine n -> pristine (f n)) ->
  map_Forall (fun _ n => pristine n) m -> map_Forall (fun _ n => pristine n) (alter f nm m).
Proof.
  intros Hf Hm k n. destruct (decide (nm = k)) as [->|Hne]; [|rewrite lookup_alter_ne by done; apply Hm]. rewrite lookup_alter_eq.
  destruct (m !! k) as [n0|] eqn:E; [|done]. intros [= <-]. apply Hf, (Hm k n0 E).
Qed.

Lemma add_successor_pristine to p (n : @NodeImpl T C) : pristine n -> pristine (add_successor to p n).
Proof. intros [H1 H2 H3 H4]. split; try done. cbn. rewrite !length_app. cbn. lia. Qed.

Lemma push_new_nodup nm l : NoDup l -> NoDup (push_new nm l).
Proof.
  intros H. unfold push_new. destruct (decide (nm ∈ l)); [done|]. apply NoDup_app. split; [done|]. split; [by intros x Hx ->%list_elem_of_singleton|apply NoDup_singleton].
Qed.

Lemma build_step_ok (g : @PipelineGraph T C) b : well_built g -> well_built (build_step g b).
Proof.
  intros [H1 H2 H3 H4]. destruct b as [nm f w c|from to|from to p|nm|nm]; cbn [build_step]; (split; [|done|..]); cbn; try done; try (by apply push_new_nodup).
  - intros k n. destruct (decide (nm = k)) as [->|Hne]; [rewrite lookup_insert_eq; by intros [= <-]|rewrite lookup_insert_ne by done; apply H1].
  - apply alter_pristine; [by intros n []|]. apply alter_pristine; [apply add_successor_pristine|done].
  - apply alter_pristine; [by intros n []|]. apply alter_pristine; [apply add_successor_pristine|done].
  - apply alter_pristine; [by intros n []|done].
  - apply alter_pristine; [by intros n []|done].
Qed.

Lemma build_ok c (l : list (@builder T C)) : well_built (build c l).
Proof.
  unfold build. assert (well_built (@new_graph T C c)) as H by (split; [apply map_Forall_empty|done|constructor|constructor]). revert H. generalize (@new_graph T C c).
  induction l as [|b l IH]; intros g H; [done|]. cbn [fold_left]. by apply IH, build_step_ok.
Qed.

(** ** What [start] spawns *)

Lemma spawn_sound (g0 : @PipelineGraph T C) order gt : Forall (task_ok g0 []) (snd gt) -> map_Forall (node_ok g0 []) (nodes_ (fst gt)) ->
  let '(g', ts) := fold_left spawn_node order gt in
  Forall (task_ok g0 []) ts /\ map_Forall (node_ok g0 []) (nodes_ g') /\ output_channel_ g' = output_channel_ (fst gt).
Proof.
  revert gt. induction order as [|nm order IH]; intros [g ts] Ht Hn; cbn [fold_left fst snd] in *; [done|]. unfold spawn_node at 2. destruct (nodes_ g !! nm) as [n|] eqn:En; [|by apply IH].
  apply IH; cbn [fst snd].
  - apply Forall_app. split; [done|]. apply Forall_app. split; [by apply Forall_replicate|]. by destruct (successors n); repeat constructor.
  - apply update_ok; [done|]. intros m _ (? & ? & ? & ?). done.
Qed.

Lemma start_sound (g : @PipelineGraph T C) walk walk_d g' ts : well_built g -> start walk walk_d g = (g', ts, true) -> sound g (mkNet g' ts [] []).
Proof.
  intros [H1 [H2 _] _ _] E. unfold start in E. destruct (topo_sort walk walk_d g) as [order|]; [|done].
  pose proof (spawn_sound g order (set_started (resolve g), [])) as Hsp. destruct (fold_left spawn_node order (set_started (resolve g), [])) as [g1 ts1]. injection E as <- <-.
  destruct Hsp as (Ht & Hn & Eo); [constructor| |].
  - intros nm n. cbn. rewrite lookup_fmap. destruct (nodes_ g !! nm) as [n0|] eqn:En; [|done]. intros [= <-]. destruct (H1 nm n0 En) as [_ [Hi _] [Ho _] _].
    split; [by exists n0|]. split; [|cbn; by rewrite Hi, Ho]. split; [apply length_map|]. intros i w. cbn. rewrite list_lookup_fmap. destruct (successors n0 !! i) as [v|]; [|done]. cbn. destruct (is_node g v); [|done]. by intros [= ->].
  - split; cbn [net_graph net_tasks pushed delivered]; [done| | |constructor].
    + apply Forall_app. split; [done|]. apply Forall_map, Forall_forall. intros nm Hnm. by apply list_elem_of_filter in Hnm as [_ ?].
    + rewrite Eo. cbn. by rewrite H2.
Qed.
End built.

Lemma run_sound {T C} chan_cap (l : list (@builder T C)) walk walk_d g ts s : start walk walk_d (build chan_cap l) = (g, ts, true) ->
  rtc net_step (mkNet g ts [] []) s -> sound (build chan_cap l) s.
Proof.
  intros E Hr. pose proof (start_sound _ _ _ _ _ (build_ok chan_cap l) E) as H0. clear E. induction Hr as [|s1 s2 s3 Hst _ IH]; [done|]. apply IH. by eapply net_step_sound.
Qed.

(** C40.  The lists that run in parallel stay so, whatever program builds the graph and whatever
    happens after [start]: every node has one predicate and one resolved channel per edge, so
    the index of the fan-out loop is within both, and a resolved channel belongs to the node
    the edge names. *)
Theorem graph_parallel_lists {T C} chan_cap (l : list (@builder T C)) walk walk_d g ts s nm n : start walk walk_d (build chan_cap l) = (g, ts, true) ->
  rtc net_step (mkNet g ts [] []) s -> nodes_ (net_graph s) !! nm = Some n ->
  length (successor_channels n) = length (successors n) /\ length (predicates n) = length (successors n) /\
  forall i, (i < length (successor_channels n))%nat -> is_Some (predicates n !! i) /\
    forall w, successor_channels n !! i = Some (Some w) -> successors n !! i = Some w.
Proof.
  intros E Hr En. destruct (run_sound _ _ _ _ _ _ _ E Hr) as [Hn _ _ _]. destruct (Hn nm n En) as ((n0 & E0 & Hsh) & [Hl Hs] & _).
  injection Hsh as _ Hsucc Hp. pose proof (pristine_predicates _ (built_nodes _ (build_ok chan_cap l) nm n0 E0)) as Hlen. rewrite <- Hp, <- Hsucc in Hlen.
  split; [done|]. split; [done|]. intros i Hi. split; [apply lookup_lt_is_Some; lia|apply Hs].
Qed.

(** C21.  A graph that was built and started, under any interleaving of its coroutines with
    calls of [push], [try_push], [drain] and [stop] and with its output being read, delivers
    only results of the graph: every item that comes out is the result of the action of a sink
    on an item that arrives there, by the edges and predicates of the graph, from what was put
    into its sources; its context is that of the item put in. *)
Theorem graph_sound {T C} chan_cap (l : list (@builder T C)) walk walk_d g ts s : start walk walk_d (build chan_cap l) = (g, ts, true) ->
  rtc net_step (mkNet g ts [] []) s -> forall y, y ∈ delivered s -> exists nm, nm ∈ sinks_ (build chan_cap l) /\ leaves (build chan_cap l) (pushed s) nm y.
Proof.
  intros E Hr y Hy. destruct (run_sound _ _ _ _ _ _ _ E Hr) as [_ _ _ Hd]. by eapply Forall_forall in Hd.
Qed.

(** C20.  Whatever orders the hash maps are walked in, and also with repeated edges, edges to
    names that are no nodes and loops, [topo_sort] returns a list exactly when the graph has no
    cycle; the list then names every node once, each after all its predecessors. *)
Theorem topo_sort_correct {T C} (g : @PipelineGraph T C) walk walk_d : walk ≡ₚ elements (dom (nodes_ g)) -> walk_d ≡ₚ elements (dom (nodes_ g)) ->
  (is_Some (topo_sort walk walk_d g) <-> forall v, ~ tc (arrow g) v v) /\
  forall order, topo_sort walk walk_d g = Some order ->
    order ≡ₚ elements (dom (nodes_ g)) /\ forall l1 v l2, order = l1 ++ v :: l2 -> forall u, arrow g u v -> u ∈ l1.
Proof.
  intros Hw Hd. split; [split|].
  - intros [order E] v Hv. apply topo_sort_order in E as [Hp Hf]; [|done..]. assert (v ∈ order) as Hin.
    { rewrite Hp, Hw, elem_of_elements, elem_of_dom. clear -Hv. induction Hv as [? ? [_ ?]|]; done. }
    assert (NoDup order) as Hnd by (rewrite Hp, Hw; apply NoDup_elements). apply list_elem_of_split in Hin as (l1 & l2 & E).
    pose proof (forward_path g order v v Hf Hv l1 l2 E) as Hl. rewrite E in Hnd. apply NoDup_app in Hnd as (_ & Hx & _). by apply (Hx v Hl), list_elem_of_here.
  - intros Hac. destruct (topo_sort walk walk_d g) eqn:E; [by eexists|]. exfalso. by apply (topo_sort_cycle g walk walk_d Hw Hd E).
  - intros order E. rewrite <- Hw. by eapply topo_sort_order.
Qed.

(** ** Examples *)

(** Two sources feed one sink: a fan-in. *)
Definition inc (v : Z) (ctx : Z) : option Z := Some (v + 1).
Definition fan_in : list (@builder Z Z) := [Node [65] inc 1 0; Node [66] inc 1 0; Node [67] inc 1 0; Edge [65] [67]; Edge [66] [67]; Source [65]; Source [66]; Sink [67]].

Definition launch (l : list (@builder Z Z)) : @net Z Z :=
  let g := build 2 l in
  let walk := elements (dom (nodes_ g)) in
  let '(g', ts, _) := start walk walk g in mkNet g' ts [] [].

Lemma launch_run l es : let s := launch l in rtc net_step (mkNet (net_graph s) (net_tasks s) [] []) (net_run es s).
Proof.
  assert (mkNet (net_graph (launch l)) (net_tasks (launch l)) [] [] = launch l) as E; [|cbn zeta; rewrite E; apply net_run_steps].
  unfold launch. by destruct (start _ _ (build 2 l)) as [[g ts] b].
Qed.

(** A cycle behind the first node: the sort fails; without the last edge it succeeds. *)
Lemma topo_sort_correct_witness :
  let g := build 2 ([Edge [67] [68]; Edge [67] [67]] ++ fan_in ++ [Edge [67] [70]; Edge [65] [66]]) in
  let walk := elements (dom (nodes_ g)) in
  is_Some (topo_sort walk walk g) /\ forall v, ~ tc (arrow g) v v.
Proof.
  cbn zeta. set (g := build 2 _). pose proof (topo_sort_correct g _ _ (reflexivity _) (reflexivity _)) as [H _].
  assert (is_Some (topo_sort (elements (dom (nodes_ g))) (elements (dom (nodes_ g))) g)) as Hs by (vm_compute; by eexists). split; [exact Hs|by apply H].
Defined.

Lemma graph_sound_witness : let s := net_run ([EPush [65] (1, 9)] ++ concat (replicate 12 (map ERun (seq 0 6))) ++ [ETake]) (launch fan_in) in
  delivered s = [(3, 9)] /\ exists nm, nm ∈ sinks_ (build 2 fan_in) /\ leaves (build 2 fan_in) (pushed s) nm (3, 9).
Proof.
  cbn zeta. set (es := [EPush [65] (1, 9)] ++ _). assert (delivered (net_run es (launch fan_in)) = [(3, 9)]) as E by (vm_compute; reflexivity). split; [exact E|].
  set (g := build 2 fan_in). set (walk := elements (dom (nodes_ g))).
  apply (graph_sound 2 fan_in walk walk (net_graph (launch fan_in)) (net_tasks (launch fan_in)) (net_run es (launch fan_in))); [vm_compute; reflexivity| |rewrite E; by apply list_elem_of_here].
  exact (launch_run fan_in es).
Defined.

Lemma graph_parallel_lists_witness : exists n, nodes_ (net_graph (net_run [EPush [65] (1, 9); ERun 0; ERun 1] (launch fan_in))) !! [65] = Some n /\
  length (successor_channels n) = 1%nat /\ length (predicates n) = 1%nat.
Proof.
  set (s := net_run _ _). assert ((fun n => length (successors n)) <$> nodes_ (net_graph s) !! [65] = Some 1%nat) as E by (vm_compute; reflexivity).
  apply fmap_Some in E as (n & En & El). exists n. split; [exact En|].
  destruct (graph_parallel_lists 2 fan_in (elements (dom (nodes_ (build 2 fan_in)))) (elements (dom (nodes_ (build 2 fan_in)))) (net_graph (launch fan_in)) (net_tasks (launch fan_in)) s [65] n) as (H1 & H2 & _);
    [vm_compute; reflexivity|exact (launch_run fan_in _)|exact En|]. rewrite H1, H2. split; exact (eq_sym El).
Defined.

(** ** Where items are lost *)

(** With a fan-in, the first predecessor to end closes the input of the common successor: an
    item of the other one is dropped, although the graph routes it to the sink.  Everything
    has ended and the channels are empty. *)
Theorem fan_in_loses : exists es, let s := net_run es (launch fan_in) in
  pushed s = [([65], (1, 0)); ([66], (5, 0))] /\ Forall (fun t => t = Done) (net_tasks s) /\ items (output_channel_ (net_graph s)) = [] /\
  delivered s = [(7, 0)] /\ leaves (build 2 fan_in) (pushed s) [67] (3, 0).
Proof.
  exists ([EPush [65] (1, 0); EPush [66] (5, 0); EClose [65]; EClose [66]] ++ concat (replicate 12 [ERun 0; ERun 1; ERun 4; ERun 5]) ++ concat (replicate 12 (map ERun (seq 0 6))) ++ [ETake; ETake]).
  cbn zeta. set (s := net_run _ _). assert (pushed s = [([65], (1, 0)); ([66], (5, 0))]) as Ep by (vm_compute; reflexivity). split; [exact Ep|].
  split; [vm_compute; repeat constructor|]. split; [vm_compute; reflexivity|]. split; [vm_compute; reflexivity|]. rewrite Ep.
  assert ((fun n => (fn n 1 0, successors n, predicates n)) <$> nodes_ (build 2 fan_in) !! [65] = Some (Some 2, [[67]], [None])) as En by (vm_compute; reflexivity).
  assert ((fun n => fn n 2 0) <$> nodes_ (build 2 fan_in) !! [67] = Some (Some 3)) as Em by (vm_compute; reflexivity).
  apply fmap_Some in En as (n & En & Hn), Em as (m & Em & Hm). injection Hn as Ef Es Epr. exists m, 2. split; [exact Em|]. split; [|exact (eq_sym Hm)].
  apply (arrives_routed _ _ [65] n 1 0 2 0%nat [67]); [apply arrives_pushed; left|exact En|exact (eq_sym Ef)|by rewrite <- Es|]. unfold routed. by rewrite <- Epr.
Qed.

(** [drain] closes the output when no worker is left, while [merge_to_output] may still hold
    items of the sink: they are dropped. *)
Theorem drain_loses : exists es, let s := net_run es (launch [Node [65] inc 1 0; Source [65]; Sink [65]]) in
  pushed s = [([65], (1, 0))] /\ Forall (fun t => t = Done) (net_tasks s) /\ items (output_channel_ (net_graph s)) = [] /\ delivered s = [].
Proof.
  exists ([EPush [65] (1, 0); EClose [65]] ++ replicate 5 (ERun 0) ++ [EDrained [[65]]] ++ replicate 5 (ERun 1) ++ [ETake]).
  split; [vm_compute; reflexivity|]. split; [vm_compute; repeat constructor|]. split; vm_compute; reflexivity.
Qed.

(** A sink that also has a successor: its output is read by two coroutines, and an item goes
    to one of them only. *)
Theorem sink_or_successor : exists es, let s := net_run es (launch [Node [65] inc 1 0; Node [66] inc 1 0; Edge [65] [66]; Source [65]; Sink [65]; Sink [66]]) in
  pushed s = [([65], (1, 0))] /\ Forall (fun t => t = Done) (net_tasks s) /\ items (output_channel_ (net_graph s)) = [] /\ delivered s = [(2, 0)].
Proof.
  exists ([EPush [65] (1, 0); EClose [65]] ++ concat (replicate 12 [ERun 0; ERun 3]) ++ concat (replicate 12 (map ERun (seq 0 5))) ++ [ETake; ETake]).
  split; [vm_compute; reflexivity|]. split; [vm_compute; repeat constructor|]. split; vm_compute; reflexivity.
Qed.

(** [validate] accepts a graph with a node that nothing is connected to. *)
Theorem validate_disconnected : let g := build 2 ([Node [90] inc 1 0] ++ fan_in) in
  validate (elements (dom (nodes_ g))) g = true /\ successors_of g [90] = [] /\ forall u, ~ arrow g u [90].
Proof.
  cbn zeta. set (g := build 2 _). split; [vm_compute; reflexivity|]. split; [vm_compute; reflexivity|]. intros u [Hu _].
  assert (map_Forall (fun _ n => [90] ∉ successors n) (nodes_ g)) as Hall by (apply map_Forall_to_list; vm_compute; repeat constructor; set_solver).
  unfold successors_of in Hu. destruct (nodes_ g !! u) as [n|] eqn:E; [by apply (Hall u n E)|by apply elem_of_nil in Hu].
Qed.
