(* ===== verification/Window.v ===== *)
(** * Windowed aggregation: [pipeline/windowed_action.hpp]

    Tumbling, sliding and session windows over event time: the windows of an event, the
    accumulation of an item, the watermark and the emission of completed windows.  Times are
    in nanoseconds since the epoch, the ticks of [system_clock]; durations of the configuration
    are in milliseconds. *)

From stdpp Require Import gmap.
From S2P Require Import Prelude.
#[local] Open Scope Z_scope.

Abbreviation ms := 1000000%Z (only parsing).
Abbreviation time_min := (- 2 ^ 63)%Z (only parsing).
Abbreviation time_max := (2 ^ 63 - 1)%Z (only parsing).

Inductive WindowType := Tumbling | Sliding | Session.

Record WindowDesc := mkDesc { start : Z; end_ : Z }.

(** ** The windows of an event *)

(** [TumblingWindow::window_for]; division of [int64_t] truncates, as does [duration_cast]. *)
Definition window_for (size event_time : Z) : WindowDesc :=
  let epoch_ms := Z.quot event_time ms in
  let bucket := Z.quot epoch_ms size * size in
  mkDesc (bucket * ms) (bucket * ms + size * ms).

(** [for (bucket_ms = first; bucket_ms <= epoch_ms; bucket_ms += step_ms)] *)
Fixpoint buckets (fuel : nat) (bucket epoch_ms step : Z) : list Z :=
  match fuel with
  | O => []
  | S fuel => if bucket <=? epoch_ms then bucket :: buckets fuel (bucket + step) epoch_ms step else []
  end.

(** [SlidingWindow::windows_for]; every turn of its loop is at least a millisecond further. *)
Definition windows_for (size step event_time : Z) : list WindowDesc :=
  let epoch_ms := Z.quot event_time ms in
  let first := (Z.quot (epoch_ms - size) step + 1) * step in
  map (fun b => mkDesc (b * ms) (b * ms + size * ms)) (buckets (S (Z.to_nat (epoch_ms - first))) first epoch_ms step).

(** ** The state *)

Section action.
Context {T K Acc : Type} `{Countable K}.

Record Config := mkConfig { type : WindowType; size : Z; step : Z; gap : Z; key_fn : T -> K; acc_fn : Acc -> T -> Acc; init_acc : Acc }.

Record WindowState := mkWindow { desc : WindowDesc; accs : gmap K Acc; last_event : Z }.

Record State := mkState { windows : list WindowState; watermark : Z }.

Definition tick_interval (cfg : Config) : Z :=
  match type cfg with
  | Tumbling => size cfg
  | Sliding => step cfg
  | Session => let half := Z.quot (gap cfg) 2 in if 0 <? half then half else 1
  end.

Definition same (d d' : WindowDesc) : bool := (start d =? start d') && (end_ d =? end_ d').

(** [find], [emplace] and [acc_fn] on the accumulators of a window *)
Definition add_item (cfg : Config) (item : T) (ws : WindowState) : WindowState :=
  let key := key_fn cfg item in
  mkWindow (desc ws) (<[key := acc_fn cfg (default (init_acc cfg) (accs ws !! key)) item]> (accs ws)) (last_event ws).

(** The item goes to the window [get_or_create_window] returns. *)
Fixpoint add_to_window (cfg : Config) (item : T) (d : WindowDesc) (l : list WindowState) : list WindowState :=
  match l with
  | [] => [add_item cfg item (mkWindow d ∅ (start d))]
  | ws :: l => if same (desc ws) d then add_item cfg item ws :: l else ws :: add_to_window cfg item d l
  end.

(** The first session of the key that the event continues. *)
Fixpoint extend_session (cfg : Config) (item : T) (event_time : Z) (l : list WindowState) : option (list WindowState) :=
  match l with
  | [] => None
  | ws :: l =>
    match accs ws !! key_fn cfg item with
    | Some acc =>
      if event_time <=? last_event ws + gap cfg * ms then
        Some (mkWindow (mkDesc (start (desc ws)) (Z.max (end_ (desc ws)) (event_time + gap cfg * ms)))
                (<[key_fn cfg item := acc_fn cfg acc item]> (accs ws)) (Z.max (last_event ws) event_time) :: l)
      else cons ws <$> extend_session cfg item event_time l
    | None => cons ws <$> extend_session cfg item event_time l
    end
  end.

Definition new_session (cfg : Config) (item : T) (event_time : Z) : WindowState :=
  mkWindow (mkDesc event_time (event_time + gap cfg * ms)) {[ key_fn cfg item := acc_fn cfg (init_acc cfg) item ]} event_time.

Definition accumulate (cfg : Config) (item : T) (event_time : Z) (st : State) : State :=
  let l := match type cfg with
    | Tumbling => add_to_window cfg item (window_for (size cfg) event_time) (windows st)
    | Sliding => fold_left (fun l d => add_to_window cfg item d l) (windows_for (size cfg) (step cfg) event_time) (windows st)
    | Session => match extend_session cfg item event_time (windows st) with Some l => l | None => windows st ++ [new_session cfg item event_time] end
    end in
  mkState l (Z.max (watermark st) event_time).

Definition advance_watermark (wm : Z) (st : State) : State := mkState (windows st) (Z.max (watermark st) wm).

(** The end of the stream, in [input_worker]. *)
Definition end_of_stream (st : State) : State := mkState (windows st) time_max.

Definition complete (cfg : Config) (wm : Z) (ws : WindowState) : bool :=
  if end_ (desc ws) <=? wm then true else match type cfg with Session => last_event ws + gap cfg * ms <=? wm | _ => false end.

(** The results of a window, in the order [walk] in which its hash map of accumulators is
    walked. *)
Definition emission : Type := K * Acc * Z.

Definition emit (walk : list K) (ws : WindowState) : list emission := omap (fun k => (fun acc => (k, acc, start (desc ws))) <$> accs ws !! k) walk.

Definition collect_completed (cfg : Config) (walk : Z -> gset K -> list K) (st : State) : list emission * State :=
  let wm := watermark st in
  (concat (map (fun ws => emit (walk (start (desc ws)) (dom (accs ws))) ws) (filter (fun ws => complete cfg wm ws = true) (windows st))),
   mkState (filter (fun ws => complete cfg wm ws = false) (windows st)) wm).

(** What [input_worker], [ticker] and [advance_watermark] do under the mutex, in the order they
    get it. *)
Inductive op := Item (item : T) (event_time : Z) | Advance (wm : Z) | Eos | Collect (walk : Z -> gset K -> list K).

Definition run_step (cfg : Config) (s : State * list emission) (o : op) : State * list emission :=
  let '(st, out) := s in
  match o with
  | Item item t => (accumulate cfg item t st, out)
  | Advance wm => (advance_watermark wm st, out)
  | Eos => (end_of_stream st, out)
  | Collect walk => let '(results, st') := collect_completed cfg walk st in (st', out ++ results)
  end.

Definition run (cfg : Config) (ops : list op) : State * list emission := fold_left (run_step cfg) ops (mkState [] time_min, []).
End action.

(** ** Windows contain their events *)

Lemma quot_bucket a b : 0 <= a -> 0 < b -> Z.quot a b * b <= a < Z.quot a b * b + b.
Proof. intros Ha Hb. rewrite Z.quot_div_nonneg by lia. pose proof (Z.div_mod a b). pose proof (Z.mod_pos_bound a b). nia. Qed.

(** Below zero the division rounds down where it is exact. *)
Lemma quot_bucket_exact a b : 0 <= a \/ (b | a) -> 0 < b -> Z.quot a b * b <= a < Z.quot a b * b + b.
Proof. intros [Ha|[k ->]] Hb; [by apply quot_bucket|]. rewrite Z.quot_mul by lia. lia. Qed.

(** A window of the given size whose start is a multiple of the step, and that contains the
    time. *)
Definition holds (size step start time : Z) : Prop := (step * ms | start) /\ start <= time < start + size * ms.

#[global] Instance holds_dec size step start time : Decision (holds size step start time).
Proof.
  apply and_dec; [|apply _]. destruct (decide (start mod (step * ms) = 0)) as [E|E]; [left|right].
  - destruct (decide (step * ms = 0)) as [E0|]; [|by apply Z.mod_divide]. rewrite E0, Z.mod_0_r in *. rewrite E. apply Z.divide_refl.
  - intros [k ->]. apply E. apply Z_mod_mult.
Defined.

Lemma millisecond t s : 0 <= t -> s * ms <= t <-> s <= Z.quot t ms.
Proof. intros Ht. pose proof (quot_bucket t ms). lia. Qed.

Lemma window_for_holds size t s : 0 < size -> 0 <= t -> start (window_for size t) = s <-> holds size size s t.
Proof.
  intros Hs Ht. unfold window_for, holds. cbn [start]. assert (0 <= Z.quot t ms) as H0 by (apply Z.quot_pos; lia). pose proof (quot_bucket (Z.quot t ms) size H0 Hs) as Hb.
  pose proof (quot_bucket t ms Ht) as Hm. split.
  - intros <-. split; [exists (Z.quot (Z.quot t ms) size); lia|]. lia.
  - intros [[k ->] Hk]. assert (k = Z.quot (Z.quot t ms) size) as ->; [|lia]. nia.
Qed.

Lemma buckets_elem fuel b e p x : 0 < p -> e - b < Z.of_nat fuel * p -> x ∈ buckets fuel b e p <-> (p | x - b) /\ b <= x <= e.
Proof.
  intros Hp. revert b. induction fuel as [|fuel IH]; intros b Hf; cbn [buckets].
  - split; [by intros ?%elem_of_nil|]. intros [_ ?]. lia.
  - destruct (Z.leb_spec b e) as [Hle|Hgt]; [|split; [by intros ?%elem_of_nil|intros [_ ?]; lia]]. rewrite elem_of_cons, IH by lia. split.
    + intros [->|[[k Hk] Hx]]; [split; [exists 0; lia|lia]|]. split; [exists (k + 1); lia|lia].
    + intros [[k Hk] Hx]. destruct (decide (k = 0)) as [->|Hk0]; [left; lia|right]. split; [exists (k - 1); lia|]. nia.
Qed.

Lemma buckets_nodup fuel b e p : 0 < p -> NoDup (buckets fuel b e p).
Proof.
  intros Hp. revert b. induction fuel as [|fuel IH]; intros b; cbn [buckets]; [constructor|]. destruct (b <=? e); [|constructor]. apply NoDup_cons. split; [|apply IH].
  assert (forall fuel c, b < c -> b ∉ buckets fuel c e p) as H; [|by apply H; lia]. clear -Hp. induction fuel as [|fuel IH]; intros c Hc; cbn [buckets]; [apply not_elem_of_nil|].
  destruct (c <=? e); [|apply not_elem_of_nil]. rewrite elem_of_cons. intros [->|Hin]; [lia|]. by apply (IH (c + p)) in Hin; [|lia].
Qed.

Lemma windows_for_holds size step t s : 0 < size -> 0 < step -> 0 <= t -> size <= Z.quot t ms \/ (step | Z.quot t ms - size) ->
  s ∈ map start (windows_for size step t) <-> holds size step s t.
Proof.
  intros Hs Hp Ht He. unfold windows_for. rewrite map_map. set (e := Z.quot t ms) in *. set (f := (Z.quot (e - size) step + 1) * step).
  assert (0 <= e - size \/ (step | e - size)) as He' by (destruct He; [left; lia|by right]). pose proof (quot_bucket_exact (e - size) step He' Hp) as Hq. pose proof (quot_bucket t ms) as Hm. fold e in Hm. cbn [start]. rewrite list_elem_of_fmap. unfold holds. split.
  - intros (b & -> & Hb). apply buckets_elem in Hb as [[k Hk] Hb]; [|done|nia]. subst f. split; [exists (k + Z.quot (e - size) step + 1); lia|]. lia.
  - intros [[k ->] Hk]. exists (k * step). split; [lia|]. apply buckets_elem; [done|nia|]. subst f. split; [exists (k - Z.quot (e - size) step - 1); lia|].
    assert (Z.quot (e - size) step < k) by nia. split; [nia|]. lia.
Qed.

(** ** Every event is counted once *)

Section exact.
Context {T K : Type} `{Countable K} (tp : WindowType) (sz sp : Z) (key : T -> K).
Hypothesis not_session : tp <> Session.
Hypothesis size_pos : 0 < sz.
Hypothesis step_pos : 0 < sp.

(** The configuration whose accumulator is the list of the items themselves. *)
Definition collecting : @Config T K (list T) := mkConfig tp sz sp 0 key (fun l x => l ++ [x]) [].

Definition pitch : Z := match tp with Tumbling => sz | _ => sp end.

(** The starts of the windows of an event. *)
Definition starts_for (t : Z) : list Z := match tp with Tumbling => [start (window_for sz t)] | _ => map start (windows_for sz sp t) end.

Definition plain (ws : @WindowState K (list T) _ _) : Prop := end_ (desc ws) = start (desc ws) + sz * ms.

Definition win_start (ws : @WindowState K (list T) _ _) : Z := start (desc ws).

Record shape_ok (l : list (@WindowState K (list T) _ _)) : Prop := { shape_plain : Forall plain l; shape_starts : NoDup (map win_start l) }.

(** The items a list of windows holds for a start and a key. *)
Definition held (k : K) (s : Z) (l : list (@WindowState K (list T) _ _)) : list T :=
  concat (map (fun ws => if decide (win_start ws = s) then default [] (accs ws !! k) else []) l).

(** The items of the results for a start and a key. *)
Definition given (k : K) (s : Z) (out : list (@emission K (list T))) : list T :=
  concat (map (fun '(k', l, s') => if decide (k' = k /\ s' = s) then l else []) out).

Lemma held_cons k s ws l : held k s (ws :: l) = (if decide (win_start ws = s) then default [] (accs ws !! k) else []) ++ held k s l.
Proof. done. Qed.

Lemma held_absent k s l : s ∉ map win_start l -> held k s l = [].
Proof.
  induction l as [|ws l IH]; [done|]. cbn [map]. rewrite elem_of_cons. intros Hn. rewrite held_cons, decide_False by (intros E; apply Hn; left; done). apply IH. tauto.
Qed.

Lemma add_to_window_starts x d l : shape_ok l -> end_ d = start d + sz * ms ->
  shape_ok (add_to_window collecting x d l) /\ forall s, s ∈ map win_start (add_to_window collecting x d l) <-> s = start d \/ s ∈ map win_start l.
Proof.
  intros Hl Hd. induction l as [|ws l IH]; cbn [add_to_window].
  - split; [split; cbn; [by repeat constructor|apply NoDup_singleton]|]. intros s. cbn. rewrite elem_of_cons. tauto.
  - destruct Hl as [[Hp Hps]%Forall_cons [Hni Hnd]%NoDup_cons]. cbn [map] in *. unfold same. destruct (Z.eqb_spec (start (desc ws)) (start d)) as [Es|Es]; cbn [andb].
    + replace (end_ (desc ws) =? end_ d) with true by (unfold plain in Hp; lia). split; [split; cbn; [by constructor|by apply NoDup_cons]|]. intros s. cbn [map]. rewrite !elem_of_cons.
      change (win_start (add_item collecting x ws)) with (win_start ws). replace (win_start ws) with (start d) by done. tauto.
    + destruct IH as [[Hp' Hnd'] Hin]; [by split|]. split; [split; [by constructor|]|].
      * cbn [map]. apply NoDup_cons. split; [|done]. rewrite Hin. intros [E|]; [done|done].
      * intros s. cbn [map]. rewrite !elem_of_cons, Hin. tauto.
Qed.

Lemma held_add x d l k s : shape_ok l -> end_ d = start d + sz * ms ->
  held k s (add_to_window collecting x d l) = held k s l ++ (if decide (start d = s /\ key x = k) then [x] else []).
Proof.
  intros Hl Hd. induction l as [|ws l IH]; cbn [add_to_window].
  - rewrite held_cons. cbn. unfold win_start. cbn. rewrite app_nil_r. destruct (decide (start d = s)) as [->|Hne]; [|by rewrite decide_False by tauto].
    destruct (decide (key x = k)) as [<-|Hk]; [rewrite decide_True by done; by rewrite lookup_insert_eq|]. rewrite decide_False by tauto. by rewrite lookup_insert_ne, lookup_empty.
  - destruct Hl as [[Hp Hps]%Forall_cons [Hni Hnd]%NoDup_cons]. unfold same. destruct (Z.eqb_spec (start (desc ws)) (start d)) as [Es|Es]; cbn [andb].
    + replace (end_ (desc ws) =? end_ d) with true by (unfold plain in Hp; lia). rewrite !held_cons.
      change (win_start (add_item collecting x ws)) with (win_start ws). replace (win_start ws) with (start d) by done. cbn [add_item accs].
      destruct (decide (start d = s)) as [E|Hne]; [|by rewrite decide_False, app_nil_r by tauto]. assert (held k s l = []) as -> by (apply held_absent; by rewrite <- E, <- Es).
      rewrite !app_nil_r. destruct (decide (key x = k)) as [<-|Hk]; [rewrite decide_True by done; by rewrite lookup_insert_eq|]. rewrite decide_False by tauto. cbn. by rewrite lookup_insert_ne, app_nil_r.
    + rewrite !held_cons, IH by (by split). by rewrite app_assoc.
Qed.

Lemma held_fold x ds l k s : shape_ok l -> Forall (fun d => end_ d = start d + sz * ms) ds -> NoDup (map start ds) ->
  let l' := fold_left (fun l d => add_to_window collecting x d l) ds l in
  shape_ok l' /\ (forall s, s ∈ map win_start l' <-> s ∈ map start ds \/ s ∈ map win_start l) /\
  held k s l' = held k s l ++ (if decide (s ∈ map start ds /\ key x = k) then [x] else []).
Proof.
  revert l. induction ds as [|d ds IH]; intros l Hl Hds Hnd; cbn [fold_left map].
  - split; [done|]. split; [intros s'; rewrite elem_of_nil; tauto|]. rewrite decide_False by (intros [?%elem_of_nil _]; done). by rewrite app_nil_r.
  - apply Forall_cons in Hds as [Hd Hds]. apply NoDup_cons in Hnd as [Hni Hnd]. destruct (add_to_window_starts x d l Hl Hd) as [Hl' Hst].
    destruct (IH _ Hl' Hds Hnd) as (H1 & H2 & H3). split; [done|]. split; [intros s'; rewrite H2, Hst, elem_of_cons; tauto|]. rewrite H3, held_add, <- app_assoc by done. f_equal.
    destruct (decide (start d = s /\ key x = k)) as [[E Ek]|Hn].
    + rewrite (decide_False (P := s ∈ map start ds /\ _)) by (by rewrite <- E; tauto). rewrite decide_True; [done|]. split; [|done]. rewrite elem_of_cons. auto.
    + cbn [app]. apply decide_ext. rewrite elem_of_cons. split; [tauto|]. intros [[->|?] ?]; tauto.
Qed.
(** *** Emission *)

Definition fair (walk : Z -> gset K -> list K) : Prop := forall s X, walk s X ≡ₚ elements X.

Lemma given_app k s o1 o2 : given k s (o1 ++ o2) = given k s o1 ++ given k s o2.
Proof. unfold given. by rewrite map_app, concat_app. Qed.

Lemma given_emit walk (ws : @WindowState K (list T) _ _) k s : NoDup walk ->
  given k s (emit walk ws) = if decide (win_start ws = s /\ k ∈ walk) then default [] (accs ws !! k) else [].
Proof.
  intros Hnd. induction walk as [|k' walk IH]; [by rewrite decide_False by (intros [_ ?%elem_of_nil]; done)|]. apply NoDup_cons in Hnd as [Hni Hnd]. specialize (IH Hnd). unfold emit in *. cbn [omap list_omap].
  destruct (accs ws !! k') as [l|] eqn:El; cbn [fmap option_fmap option_map].
  - change (given k s ((k', l, start (desc ws)) :: ?r)) with ((if decide (k' = k /\ win_start ws = s) then l else []) ++ given k s r). rewrite IH. destruct (decide (k' = k /\ win_start ws = s)) as [[<- Es]|Hn].
    + rewrite decide_False by tauto. rewrite decide_True by (split; [done|apply list_elem_of_here]). rewrite El. apply app_nil_r.
    + cbn [app]. apply decide_ext. rewrite elem_of_cons. split; [tauto|]. intros [? [->|?]]; tauto.
  - rewrite IH. destruct (decide (k' = k)) as [->|Hne]; [rewrite El; by do 2 destruct (decide _)|]. apply decide_ext. rewrite elem_of_cons. split; [tauto|]. intros [? [->|?]]; tauto.
Qed.

Lemma given_window walk ws k s : fair walk -> given k s (emit (walk (start (desc ws)) (dom (accs ws))) ws) = if decide (win_start ws = s) then default [] (accs ws !! k) else [].
Proof.
  intros Hw. rewrite given_emit by (rewrite (Hw _ _); apply NoDup_elements). destruct (decide (win_start ws = s)) as [Es|Hne]; [|by rewrite decide_False by tauto].
  destruct (decide (k ∈ walk (start (desc ws)) (dom (accs ws)))) as [Hk|Hk]; [by rewrite decide_True by done|]. rewrite decide_False by tauto.
  rewrite (Hw _ _), elem_of_elements, elem_of_dom in Hk. by destruct (accs ws !! k); [exfalso; apply Hk; eexists|].
Qed.

Definition emitted (walk : Z -> gset K -> list K) (l : list (@WindowState K (list T) _ _)) : list (@emission K (list T)) :=
  concat (map (fun ws => emit (walk (start (desc ws)) (dom (accs ws))) ws) l).

Lemma given_absent walk l k s : fair walk -> s ∉ map win_start l -> given k s (emitted walk l) = [].
Proof.
  intros Hw. induction l as [|ws l IH]; [done|]. cbn [map]. rewrite elem_of_cons. intros Hn. change (emitted walk (ws :: l)) with (emit (walk (start (desc ws)) (dom (accs ws))) ws ++ emitted walk l).
  rewrite given_app, given_window, IH by tauto. rewrite decide_False by (intros E; apply Hn; by left). done.
Qed.

Lemma filter_starts (P : @WindowState K (list T) _ _ -> Prop) `{forall w, Decision (P w)} l s : s ∈ map win_start (filter P l) -> s ∈ map win_start l.
Proof. rewrite !list_elem_of_fmap. intros (w & -> & [_ Hw]%list_elem_of_filter). by exists w. Qed.

Lemma filter_starts_nodup (P : @WindowState K (list T) _ _ -> Prop) `{forall w, Decision (P w)} l : NoDup (map win_start l) -> NoDup (map win_start (filter P l)).
Proof.
  induction l as [|w l IH]; [done|]. cbn [map]. intros [Hni Hnd]%NoDup_cons. rewrite filter_cons. destruct (decide (P w)); [|by apply IH]. cbn [map]. apply NoDup_cons.
  split; [by intros ?%filter_starts|by apply IH].
Qed.

(** What is complete is given, the rest is kept. *)
Lemma collect_split walk (P : @WindowState K (list T) _ _ -> bool) l k s : fair walk -> shape_ok l ->
  given k s (emitted walk (filter (fun w => P w = true) l)) ++ held k s (filter (fun w => P w = false) l) = held k s l.
Proof.
  intros Hw Hl. induction l as [|ws l IH]; [done|]. destruct Hl as [[Hp Hps]%Forall_cons [Hni Hnd]%NoDup_cons]. specialize (IH (Build_shape_ok _ Hps Hnd)).
  rewrite !filter_cons, held_cons, <- IH. destruct (P ws).
  - rewrite decide_True, decide_False by done. change (emitted walk (ws :: ?r)) with (emit (walk (start (desc ws)) (dom (accs ws))) ws ++ emitted walk r). by rewrite given_app, given_window, <- app_assoc.
  - rewrite decide_False, decide_True by done. rewrite held_cons, !app_assoc. f_equal. destruct (decide (win_start ws = s)) as [<-|Hne]; [|by rewrite app_nil_r].
    rewrite given_absent by (done || by intros ?%filter_starts). by rewrite app_nil_r.
Qed.
(** *** Runs *)

Definition events (ops : list (@op T K _ _)) : list (T * Z) := omap (fun o => match o with Item x t => Some (x, t) | _ => None end) ops.

(** The times for which the code's truncating divisions round down: from the epoch on; for
    sliding windows, from a window size after the epoch on, or where the division is exact. *)
Definition rounds_down (t : Z) : Prop :=
  0 <= t /\ match tp with Sliding => sz <= Z.quot t ms \/ (sp | Z.quot t ms - sz) | _ => True end.

Definition op_ok (o : @op T K _ _) : Prop :=
  match o with Item _ t => rounds_down t /\ t + sz * ms <= time_max | Collect walk => fair walk | Advance w => w <= time_max | Eos => True end.

(** The items of a key whose event time is in the window that starts at [s]. *)
Definition members (k : K) (s : Z) (evs : list (T * Z)) : list T := (filter (fun e => key e.1 = k /\ holds sz pitch s e.2) evs).*1.

Lemma members_snoc k s evs x t : members k s (evs ++ [(x, t)]) = members k s evs ++ (if decide (key x = k /\ holds sz pitch s t) then [x] else []).
Proof. unfold members. rewrite filter_app, fmap_app. f_equal. rewrite filter_cons. by destruct (decide _). Qed.

Lemma starts_for_holds t s : rounds_down t -> s ∈ starts_for t <-> holds sz pitch s t.
Proof.
  intros [Ht He]. unfold starts_for, pitch. destruct tp; [|by apply windows_for_holds|done]. rewrite <- window_for_holds by lia. rewrite list_elem_of_singleton. split; congruence.
Qed.

Lemma accumulate_windows x t st : let st' := accumulate collecting x t st in
  exists ds, map start ds = starts_for t /\ Forall (fun d => end_ d = start d + sz * ms) ds /\ NoDup (map start ds) /\
    windows st' = fold_left (fun l d => add_to_window collecting x d l) ds (windows st).
Proof.
  unfold accumulate, starts_for. cbn zeta. cbn [type collecting size step]. destruct tp; [| |done]; cbn [windows].
  - exists [window_for sz t]. split; [done|]. split; [by repeat constructor|]. split; [apply NoDup_singleton|done].
  - exists (windows_for sz sp t). split; [done|]. split; [unfold windows_for; cbn zeta; by apply Forall_map, Forall_true|]. split; [|done].
    unfold windows_for. cbn zeta. rewrite map_map. apply NoDup_fmap; [intros a b; cbn; lia|]. by apply buckets_nodup.
Qed.

Record exact_inv (evs : list (T * Z)) (s : @State K (list T) _ _ * list (@emission K (list T))) : Prop := {
  exact_shape : shape_ok (windows s.1);
  exact_from st : st ∈ map win_start (windows s.1) -> exists x t, (x, t) ∈ evs /\ holds sz pitch st t;
  exact_items k st : given k st s.2 ++ held k st (windows s.1) = members k st evs;
}.

Lemma run_step_exact evs s o : exact_inv evs s -> op_ok o -> exact_inv (evs ++ events [o]) (run_step collecting s o).
Proof.
  intros [I1 I2 I3] Ho. destruct s as [st out]. cbn [fst snd] in *. destruct o as [x t|wm| |walk]; cbn [run_step events omap list_omap op_ok] in *; rewrite ?app_nil_r; [| by split..|].
  - destruct Ho as [Ht _]. destruct (accumulate_windows x t st) as (ds & Eds & Hplain & Hnd & Ew). split; cbn [fst snd]; rewrite Ew.
    + by apply (held_fold x ds (windows st) (key x) 0).
    + intros s Hs. destruct (held_fold x ds (windows st) (key x) 0 I1 Hplain Hnd) as (_ & Hst & _). apply Hst in Hs as [Hs|Hs].
      * exists x, t. split; [apply elem_of_app; right; apply list_elem_of_here|]. apply starts_for_holds; [done|]. by rewrite <- Eds.
      * destruct (I2 s Hs) as (x' & t' & Hin & Hh). exists x', t'. split; [apply elem_of_app; by left|done].
    + intros k s. destruct (held_fold x ds (windows st) k s I1 Hplain Hnd) as (_ & _ & ->). rewrite app_assoc, I3, members_snoc. f_equal. apply decide_ext.
      rewrite Eds, (starts_for_holds t s Ht). tauto.
  - unfold collect_completed. cbn zeta. change (concat (map (fun ws => emit (walk (start (desc ws)) (dom (accs ws))) ws) ?l)) with (emitted walk l). destruct I1 as [Hp Hnd]. split; cbn [fst snd windows].
    + split; [|by apply filter_starts_nodup]. apply Forall_forall. intros w [_ Hw]%list_elem_of_filter. by eapply Forall_forall in Hp.
    + intros s Hs%filter_starts. by apply I2.
    + intros k s. rewrite given_app, <- app_assoc, (collect_split walk (complete collecting (watermark st))) by done. apply I3.
Qed.

Lemma run_exact ops : Forall op_ok ops -> exact_inv (events ops) (run collecting ops).
Proof.
  intros Hops. induction ops as [|o ops IH] using rev_ind.
  - split; [split; [constructor|constructor]|by intros s ?%elem_of_nil|done].
  - apply Forall_app in Hops as [Hops [Ho _]%Forall_cons]. unfold run, events. rewrite fold_left_app, omap_app. cbn [fold_left]. by apply run_step_exact, Ho; apply IH.
Qed.
(** *** Without late events *)

Definition slot_of (e : @emission K (list T)) : K * Z := let '(k, _, s) := e in (k, s).

Lemma emit_slots walk (ws : @WindowState K (list T) _ _) : NoDup walk -> NoDup (map slot_of (emit walk ws)) /\ forall k s, (k, s) ∈ map slot_of (emit walk ws) -> k ∈ walk /\ s = win_start ws.
Proof.
  intros Hnd. induction walk as [|k walk IH]; [split; [constructor|by intros k s ?%elem_of_nil]|]. apply NoDup_cons in Hnd as [Hni Hnd]. destruct (IH Hnd) as [H1 H2]. unfold emit in *. cbn [omap list_omap].
  destruct (accs ws !! k) as [l|]; cbn [fmap option_fmap option_map map slot_of].
  - split; [apply NoDup_cons; split; [intros [? _]%H2; done|done]|]. intros k' s' [[= -> ->]|[? ?]%H2]%elem_of_cons; (split; [|done]); [apply list_elem_of_here|by apply list_elem_of_further].
  - split; [done|]. intros k' s' [? ?]%H2. split; [by apply list_elem_of_further|done].
Qed.

Lemma emitted_slots walk l : fair walk -> NoDup (map win_start l) ->
  NoDup (map slot_of (emitted walk l)) /\ forall k s, (k, s) ∈ map slot_of (emitted walk l) -> s ∈ map win_start l.
Proof.
  intros Hw. induction l as [|ws l IH]; [split; [constructor|by intros k s ?%elem_of_nil]|]. cbn [map]. intros [Hni Hnd]%NoDup_cons. destruct (IH Hnd) as [H1 H2].
  destruct (emit_slots (walk (start (desc ws)) (dom (accs ws))) ws) as [H3 H4]; [rewrite (Hw _ _); apply NoDup_elements|].
  change (emitted walk (ws :: l)) with (emit (walk (start (desc ws)) (dom (accs ws))) ws ++ emitted walk l). rewrite map_app. split.
  - apply NoDup_app. split; [done|]. split; [|done]. intros [k s] [_ ->]%H4 ?%H2. done.
  - intros k s [[_ ->]%H4|?%H2]%elem_of_app; [apply list_elem_of_here|by apply list_elem_of_further].
Qed.

Record once_inv (wm : Z) (s : @State K (list T) _ _ * list (@emission K (list T))) : Prop := {
  once_watermark : watermark s.1 = wm;
  once_range : wm <= time_max;
  once_slots : NoDup (map slot_of s.2);
  once_past k st : (k, st) ∈ map slot_of s.2 -> st + sz * ms <= wm /\ st ∉ map win_start (windows s.1);
}.

(** No item comes before the watermark. *)
Definition next_watermark (wm : Z) (o : @op T K _ _) : Z := match o with Item _ t => Z.max wm t | Advance w => Z.max wm w | Eos => time_max | Collect _ => wm end.
Definition op_on_time (wm : Z) (o : @op T K _ _) : Prop := match o with Item _ t => wm <= t | _ => True end.

Fixpoint on_time (wm : Z) (ops : list (@op T K _ _)) : Prop :=
  match ops with [] => True | o :: ops => op_on_time wm o /\ on_time (next_watermark wm o) ops end.

Lemma run_step_once evs wm s o : exact_inv evs s -> op_ok o -> op_on_time wm o -> once_inv wm s -> once_inv (next_watermark wm o) (run_step collecting s o).
Proof.
  intros [I1 I2 I3] Ho Ht [O1 O0 O2 O3]. destruct s as [st out]. cbn [fst snd] in *. destruct o as [x t|w| |walk]; cbn [run_step op_ok op_on_time next_watermark] in *.
  - destruct Ho as [Hsz Hmx]. destruct (accumulate_windows x t st) as (ds & Eds & Hplain & Hnd & Ew). split; cbn [fst snd]; [cbn; by rewrite O1|lia|done|]. intros k s Hs. destruct (O3 k s Hs) as [Hpast Hni].
    split; [lia|]. rewrite Ew. destruct (held_fold x ds (windows st) k s I1 Hplain Hnd) as (_ & Hst & _). rewrite Hst, Eds. intros [Hin|]; [|done].
    apply starts_for_holds in Hin as [_ Hh]; [|done]. lia.
  - split; cbn [fst snd advance_watermark watermark windows]; [by rewrite O1|lia|done|]. intros k s Hs. destruct (O3 k s Hs). split; [lia|done].
  - split; cbn [fst snd end_of_stream watermark windows]; [done|lia|done|]. intros k s Hs. destruct (O3 k s Hs). split; [lia|done].
  - unfold collect_completed. cbn zeta. change (concat (map (fun ws => emit (walk (start (desc ws)) (dom (accs ws))) ws) ?l)) with (emitted walk l). destruct I1 as [Hp Hnd].
    set (ready := filter (fun ws => complete collecting (watermark st) ws = true) (windows st)). destruct (emitted_slots walk ready Ho (filter_starts_nodup _ _ Hnd)) as [E1 E2].
    assert (forall s, s ∈ map win_start ready -> s + sz * ms <= wm /\ s ∉ map win_start (filter (fun ws => complete collecting (watermark st) ws = false) (windows st))) as Hready.
    { intros s (w & -> & [Hc Hw]%list_elem_of_filter)%list_elem_of_fmap. split.
      - unfold complete in Hc. rewrite O1 in Hc. pose proof (proj1 (Forall_forall _ _) Hp w Hw) as Hpl. unfold plain in Hpl. destruct (Z.leb_spec (end_ (desc w)) wm); [unfold win_start; lia|]. cbn in Hc. by destruct tp.
      - intros (w' & Es & [Hc' Hw']%list_elem_of_filter)%list_elem_of_fmap. assert (w = w') as <-; [|congruence]. apply list_elem_of_lookup in Hw as [i Hi], Hw' as [j Hj].
        assert (i = j) as <-; [|congruence]. eapply (NoDup_lookup (map win_start (windows st))); [done|rewrite list_lookup_fmap, Hi; done|rewrite list_lookup_fmap, Hj; cbn; by rewrite Es]. }
    split; cbn [fst snd watermark windows]; [done|done| |].
    + rewrite map_app. apply NoDup_app. split; [done|]. split; [|done]. intros [k s] [_ Hni]%O3 Hs%E2. by apply Hni, (filter_starts _ _ _ Hs).
    + intros k s. rewrite map_app. intros [[Hpast Hni]%O3|Hs%E2]%elem_of_app; [|by apply Hready]. split; [done|]. by intros ?%filter_starts.
Qed.
Lemma run_once ops : Forall op_ok ops -> on_time time_min ops -> NoDup (map slot_of (run collecting ops).2).
Proof.
  intros Hok Hot. assert (forall evs wm s, exact_inv evs s -> once_inv wm s -> on_time wm ops -> NoDup (map slot_of (fold_left (run_step collecting) ops s).2)) as Hrun.
  { clear Hot. induction ops as [|o ops IH]; intros evs wm s He Hs Ht; [apply Hs|]. apply Forall_cons in Hok as [Ho Hok]. destruct Ht as [Ht Hts]. cbn [fold_left].
    eapply IH; [done|by apply run_step_exact|by eapply run_step_once|done]. }
  eapply (Hrun [] time_min); [|split; [done|lia|constructor|by intros k s ?%elem_of_nil]|done]. apply (run_exact []). constructor.
Qed.

(** After the end of the stream nothing is left. *)
Lemma end_collects ops walk : Forall op_ok ops -> windows (run collecting (ops ++ [Eos; Collect walk])).1 = [].
Proof.
  intros Hok. pose proof (run_exact ops Hok) as [I1 I2 _]. unfold run in *. rewrite fold_left_app. set (s := fold_left _ ops _) in *. destruct s as [st out]. cbn [fold_left run_step collect_completed end_of_stream fst snd windows watermark] in *.
  assert (forall l, (forall w, w ∈ l -> complete collecting time_max w = true) -> filter (fun ws => complete collecting time_max ws = false) l = []) as Hf.
  { clear. induction l as [|w l IH]; intros Hl; [done|]. rewrite filter_cons, (Hl w) by apply list_elem_of_here. rewrite decide_False by done. apply IH. intros w' Hw'. apply Hl. by apply list_elem_of_further. }
  apply Hf. intros w Hw. destruct (I2 (win_start w)) as (x & t & Hin & [_ Hh]); [by apply list_elem_of_fmap_2|]. apply list_elem_of_omap in Hin as (o & Ho & Eo).
  destruct o; try done. injection Eo as -> ->. pose proof (proj1 (Forall_forall _ _) Hok _ Ho) as [_ Hmax]. pose proof (proj1 (Forall_forall _ _) (shape_plain _ I1) w Hw) as Hp. unfold plain, win_start in *.
  unfold complete. by rewrite (proj2 (Z.leb_le (end_ (desc w)) time_max)) by lia.
Qed.
End exact.

(** ** Any accumulator *)

(** What the action does with an accumulator is what it does with the list of the items,
    folded. *)
Section accumulator.
Context {T K Acc : Type} `{Countable K} (cfg : @Config T K Acc).
Hypothesis not_session : type cfg <> Session.

Definition free : @Config T K (list T) := collecting (type cfg) (size cfg) (step cfg) (key_fn cfg).

Definition folded (l : list T) : Acc := fold_left (acc_fn cfg) l (init_acc cfg).

Definition fold_window (ws : @WindowState K (list T) _ _) : @WindowState K Acc _ _ := mkWindow (desc ws) (folded <$> accs ws) (last_event ws).

Definition fold_state (st : @State K (list T) _ _) : @State K Acc _ _ := mkState (map fold_window (windows st)) (watermark st).

Definition fold_emission (e : @emission K (list T)) : @emission K Acc := let '(k, l, s) := e in (k, folded l, s).

Lemma fold_add_item x ws : fold_window (add_item free x ws) = add_item cfg x (fold_window ws).
Proof.
  unfold fold_window, add_item. cbn. rewrite fmap_insert. do 2 f_equal. rewrite lookup_fmap. unfold folded. rewrite fold_left_app. cbn. by destruct (accs ws !! key_fn cfg x).
Qed.

Lemma fold_add x d l : map fold_window (add_to_window free x d l) = add_to_window cfg x d (map fold_window l).
Proof.
  induction l as [|ws l IH]; cbn [add_to_window map].
  - rewrite fold_add_item. unfold fold_window. cbn [accs desc last_event]. by rewrite fmap_empty.
  - cbn [fold_window desc]. destruct (same (desc ws) d); cbn [map]; [by rewrite fold_add_item|by rewrite IH].
Qed.

Lemma fold_accumulate x t st : fold_state (accumulate free x t st) = accumulate cfg x t (fold_state st).
Proof.
  unfold accumulate, fold_state, free. cbn [type size step collecting windows watermark]. destruct (type cfg) eqn:Et; [| |done]; f_equal.
  - rewrite <- Et. apply fold_add.
  - rewrite <- Et. fold free. generalize (windows_for (size cfg) (step cfg) t). intros ds. generalize (windows st). induction ds as [|d ds IH]; intros l; [done|]. cbn [fold_left]. by rewrite IH, fold_add.
Qed.

Lemma fold_emit walk ws : emit walk (fold_window ws) = map fold_emission (emit walk ws).
Proof.
  unfold emit. induction walk as [|k walk IH]; [done|]. cbn [omap list_omap]. replace (accs (fold_window ws) !! k) with (folded <$> accs ws !! k) by (symmetry; apply lookup_fmap).
  destruct (accs ws !! k); cbn [fmap option_fmap option_map map]; by rewrite <- IH.
Qed.

Lemma fold_complete wm ws : complete cfg wm (fold_window ws) = complete free wm ws.
Proof. unfold complete. cbn. by destruct (type cfg). Qed.

Lemma fold_filter wm b l : filter (fun ws => complete cfg wm ws = b) (map fold_window l) = map fold_window (filter (fun ws => complete free wm ws = b) l).
Proof. induction l as [|ws l IH]; [done|]. cbn [map]. rewrite !filter_cons, fold_complete, IH. by destruct (decide _). Qed.

Lemma fold_collect walk st : collect_completed cfg walk (fold_state st) = (map fold_emission (collect_completed free walk st).1, fold_state (collect_completed free walk st).2).
Proof.
  unfold collect_completed. cbn [fst snd fold_state windows watermark]. rewrite !fold_filter. f_equal. generalize (filter (fun ws => complete free (watermark st) ws = true) (windows st)).
  intros l. induction l as [|ws l IH]; [done|]. cbn [map concat]. rewrite IH, map_app, fold_emit. f_equal. f_equal. unfold fold_window at 1 2. cbn [desc accs]. by rewrite dom_fmap_L.
Qed.

Lemma fold_run ops : run cfg ops = (fold_state (run free ops).1, map fold_emission (run free ops).2).
Proof.
  unfold run. induction ops as [|o ops IH] using rev_ind; [done|]. rewrite !fold_left_app, IH. destruct (fold_left (run_step free) ops _) as [st out]. cbn [fst snd fold_left].
  destruct o as [x t|wm| |walk]; cbn [run_step]; [by rewrite <- fold_accumulate|done|done|]. rewrite fold_collect. destruct (collect_completed free walk st). cbn [fst snd]. by rewrite map_app.
Qed.
End accumulator.

(** C19.  Tumbling and sliding windows, for any order of items, watermarks and ticks, with late
    items and with any accumulator: when the stream has ended no window is left, and the
    results for a key and a window are folds of parts that, put together, are exactly the items
    of the key whose event time is in the window, each once and in the order they came.  When
    no item comes before the watermark there is one result per key and window.

    Event times are those of [rounds_down]: not before the epoch and, for sliding windows, at
    least a window size after the epoch or at a distance from it that the step divides (for
    other times see [tumbling_before_epoch] and [sliding_after_epoch]); and the end of a
    window that starts at the event is a time of the clock ([op_ok]). *)
Theorem window_exact {T K Acc} `{Countable K} (cfg : @Config T K Acc) ops walk : type cfg <> Session -> 0 < size cfg -> 0 < step cfg ->
  Forall (op_ok (type cfg) (size cfg) (step cfg)) ops -> fair walk ->
  let '(st, out) := run cfg (ops ++ [Eos; Collect walk]) in
  windows st = [] /\
  exists parts, out = map (fold_emission cfg) parts /\
    (forall k s, given k s parts = members (type cfg) (size cfg) (step cfg) (key_fn cfg) k s (events ops)) /\
    (on_time time_min ops -> NoDup (map slot_of parts)).
Proof.
  intros Hns Hs Hp Hok Hw. rewrite fold_run by done. assert (Forall (op_ok (type cfg) (size cfg) (step cfg)) (ops ++ [Eos; Collect walk])) as Hok'. { apply Forall_app. by repeat constructor. }
  pose proof (end_collects _ _ _ (key_fn cfg) Hns Hs Hp ops walk Hok) as Hend. fold (free cfg) in Hend. pose proof (run_exact _ _ _ (key_fn cfg) Hns Hs Hp _ Hok') as [_ _ Hit]. fold (free cfg) in Hit.
  split; [cbn; by rewrite Hend|]. exists (run (free cfg) (ops ++ [Eos; Collect walk])).2. split; [done|]. split.
  - intros k s. specialize (Hit k s). rewrite Hend in Hit. unfold events in *. rewrite omap_app in Hit. cbn in Hit. by rewrite !app_nil_r in Hit.
  - intros Hot. apply (run_once _ _ _ (key_fn cfg) Hns Hs Hp); [done|]. clear -Hot. revert Hot. generalize time_min. induction ops as [|o ops IH]; intros wm; [done|]. intros [Ho Hot]. split; [done|]. by apply IH.
Qed.

(** ** Examples *)

(** Sums per key over a second, every half second; the last item is late for a window that
    was emitted already. *)
Definition sums (tp : WindowType) : @Config (Z * Z) Z Z := mkConfig tp 1000 500 1000 fst (fun acc x => acc + snd x) 0.

Definition keys (_ : Z) (X : gset Z) : list Z := elements X.

Definition late : list (@op (Z * Z) Z _ _) := [Item (1, 5) (500 * ms); Item (1, 10) (2000 * ms); Item (2, 20) (2600 * ms); Item (1, 30) (3100 * ms); Collect keys; Item (1, 40) (2100 * ms)].

Lemma keys_fair : fair keys.
Proof. intros s X. done. Qed.

Lemma window_exact_witness : let '(st, out) := run (sums Sliding) (late ++ [Eos; Collect keys]) in
  windows st = [] /\ filter (fun e => snd e = 2000 * ms) out = [(2, 20, 2000 * ms); (1, 10, 2000 * ms); (1, 40, 2000 * ms)] /\
  exists parts, out = map (fold_emission (sums Sliding)) parts /\ given 1 (2000 * ms) parts = [(1, 10); (1, 40)].
Proof.
  assert (Forall (op_ok Sliding 1000 500) late) as Hok
    by (repeat (apply Forall_cons; split); [..|constructor]; try exact keys_fair; (split; [split; [done|]|done]); vm_compute; (by left) || (right; by exists (-1))).
  pose proof (window_exact (sums Sliding) late keys ltac:(done) ltac:(done) ltac:(done) Hok keys_fair) as Hex.
  set (r := run (sums Sliding) (late ++ [Eos; Collect keys])) in *. assert (filter (fun e => snd e = 2000 * ms) r.2 = [(2, 20, 2000 * ms); (1, 10, 2000 * ms); (1, 40, 2000 * ms)]) as Ef by (vm_compute; reflexivity).
  destruct r as [st out]. destruct Hex as (Hw & parts & Eo & Hp & _). split; [exact Hw|]. split; [exact Ef|]. exists parts. split; [exact Eo|]. rewrite Hp. vm_compute. reflexivity.
Defined.

(** ** Where the windows are not those of the comments *)

(** Division truncates: an event before the epoch is put into a window that starts after it. *)
Theorem tumbling_before_epoch : window_for 1000 (- 1 * ms) = mkDesc 0 (1000 * ms).
Proof. vm_compute. reflexivity. Qed.

(** An event less than the window size after the epoch misses the windows that start before
    the epoch. *)
Theorem sliding_after_epoch : map start (windows_for 1000 500 (100 * ms)) = [0] /\ holds 1000 500 (- 500 * ms) (100 * ms).
Proof. split; [vm_compute; reflexivity|]. split; [by exists (- 1)|lia]. Qed.

(** A session takes in an item of its key that lies any time before it, and its start stays. *)
Theorem session_swallows_past : (run (sums Session) [Item (1, 10) (9000 * ms); Item (1, 20) 0; Eos; Collect keys]).2 = [(1, 30, 9000 * ms)].
Proof. vm_compute. reflexivity. Qed.

(** An item exactly the gap after the last one continues the session, unless a tick came in
    between, which ends the session at that time: the results depend on the ticks. *)
Theorem session_boundary :
  (run (sums Session) [Item (1, 10) 0; Item (2, 0) (1000 * ms); Item (1, 20) (1000 * ms); Eos; Collect keys]).2 = [(1, 30, 0); (2, 0, 1000 * ms)] /\
  (run (sums Session) [Item (1, 10) 0; Item (2, 0) (1000 * ms); Collect keys; Item (1, 20) (1000 * ms); Eos; Collect keys]).2 = [(1, 10, 0); (2, 0, 1000 * ms); (1, 20, 1000 * ms)].
Proof. split; vm_compute; reflexivity. Qed.
