(* ===== verification/Resilience.v ===== *)
(** * Guards around actions: [pipeline/circuit_breaker.hpp], [pipeline/retry_policy.hpp],
    [pipeline/saga.hpp], [pipeline/idempotency.hpp]

    The circuit breaker and the action it guards, the retry loop with its delays, the saga with
    its compensations, and the store and filter of idempotency keys.  Times are in nanoseconds
    of [steady_clock], which an operation reads when it runs. *)

From stdpp Require Import gmap sorting.
From S2P Require Import Prelude.
#[local] Open Scope Z_scope.

(** ** The store of idempotency keys *)

Module Idempotency.

Abbreviation second := 1000000000%Z (only parsing).

Record store := mkStore { map_ : gmap bytes Z; max_entries_ : Z }.

Definition new_store (max_entries : Z) : store := mkStore ∅ (if max_entries =? 0 then 1 else max_entries).

(** [begin] is the key a walk of the hash map meets first. *)
Definition set_if_absent (begin : gmap bytes Z -> bytes) (now : Z) (key : bytes) (ttl : Z) (s : store) : bool * store :=
  let insert (m : gmap bytes Z) := (true, mkStore (<[key := now + ttl * second]> m) (max_entries_ s)) in
  match map_ s !! key with
  | Some expiry => if now <? expiry then (false, s) else insert (map_ s)
  | None =>
    if max_entries_ s <=? Z.of_nat (size (map_ s)) then
      let swept := filter (fun '(_, expiry) => now < expiry) (map_ s) in
      if (max_entries_ s <=? Z.of_nat (size swept)) && negb (Nat.eqb (size swept) 0)
      then insert (delete (begin swept) swept) else insert swept
    else insert (map_ s)
  end.

Definition get (now : Z) (key : bytes) (s : store) : bool * store :=
  match map_ s !! key with
  | None => (false, s)
  | Some expiry => if expiry <=? now then (false, mkStore (delete key (map_ s)) (max_entries_ s)) else (true, s)
  end.

(** [IdempotencyFilter::process]: whether the item is passed on; the key of its context may be
    missing or empty. *)
Definition process (begin : gmap bytes Z -> bytes) (now : Z) (key_slot : option bytes) (ttl : Z) (s : store) : bool * store :=
  match key_slot with
  | None | Some [] => (true, s)
  | Some key => set_if_absent begin now key ttl s
  end.

(** Items with their keys, and lookups, one at a time. *)
Inductive store_op := Process (now : Z) (key_slot : option bytes) | Get (now : Z) (key : bytes).

Definition op_time (o : store_op) : Z := match o with Process t _ | Get t _ => t end.

Definition store_step (begin : gmap bytes Z -> bytes) (ttl : Z) (s : store * list bool) (o : store_op) : store * list bool :=
  let '(st, out) := s in
  let '(r, st') := match o with Process now k => process begin now k ttl st | Get now k => get now k st end in
  (st', out ++ [r]).

Definition store_run (begin : gmap bytes Z -> bytes) (ttl : Z) (ops : list store_op) (s : store) : store * list bool := fold_left (store_step begin ttl) ops (s, []).

(** ** What it promises *)

(** The specification remembers for every key until when it was taken; an item is passed on
    when its key is not taken, and takes it. *)
Definition live (now : Z) (m : gmap bytes Z) : gmap bytes Z := filter (fun '(_, expiry) => now < expiry) m.

Definition spec_step (ttl : Z) (s : gmap bytes Z * list bool) (o : store_op) : gmap bytes Z * list bool :=
  let '(until, out) := s in
  match o with
  | Process now (Some (c :: k)) =>
    if bool_decide (is_Some (live now until !! (c :: k))) then (until, out ++ [false]) else (<[c :: k := now + ttl * second]> until, out ++ [true])
  | Process _ _ => (until, out ++ [true])
  | Get now key => (until, out ++ [bool_decide (is_Some (live now until !! key))])
  end.

Definition spec (ttl : Z) (ops : list store_op) : gmap bytes Z * list bool := fold_left (spec_step ttl) ops (∅, []).

(** Time does not go back, and there is room for another key when one is taken. *)
Definition op_fits (max now : Z) (until : gmap bytes Z) (o : store_op) : Prop :=
  now <= op_time o /\
  match o with
  | Process t (Some (c :: k)) => is_Some (live t until !! (c :: k)) \/ Z.of_nat (size (live t until)) < max
  | _ => True
  end.

Fixpoint fits (ttl max now : Z) (until : gmap bytes Z) (ops : list store_op) : Prop :=
  match ops with
  | [] => True
  | o :: ops => op_fits max now until o /\ fits ttl max (op_time o) (spec_step ttl (until, []) o).1 ops
  end.

Lemma live_lookup now m k e : live now m !! k = Some e <-> m !! k = Some e /\ now < e.
Proof. apply map_lookup_filter_Some. Qed.

Lemma live_later now now' m1 m2 : now <= now' -> live now m1 = live now m2 -> live now' m1 = live now' m2.
Proof.
  intros Hle E. apply map_eq. intros k. apply option_eq. intros e. rewrite !live_lookup. assert (live now m1 !! k = Some e <-> live now m2 !! k = Some e) as H by (by rewrite E).
  rewrite !live_lookup in H. split; intros [? ?]; (split; [apply H; split; [done|lia]|done]).
Qed.

Lemma live_insert now k e m1 m2 : live now m1 = live now m2 -> live now (<[k := e]> m1) = live now (<[k := e]> m2).
Proof.
  intros E. apply map_eq. intros k'. apply option_eq. intros e'. rewrite !live_lookup. destruct (decide (k = k')) as [->|Hne]; [by rewrite !lookup_insert_eq|].
  rewrite !lookup_insert_ne by done. rewrite <- !live_lookup. by rewrite E.
Qed.

Lemma live_idem now m : live now (live now m) = live now m.
Proof. apply map_eq. intros k. apply option_eq. intros e. rewrite !live_lookup. tauto. Qed.

Lemma live_size now m : (size (live now m) <= size m)%nat.
Proof. apply map_subseteq_size, map_filter_subseteq. Qed.

Lemma size_insert_le (k : bytes) (e : Z) (m : gmap bytes Z) : (size (<[k := e]> m) <= S (size m))%nat.
Proof. rewrite map_size_insert. destruct (m !! k); cbn; lia. Qed.

Section store.
Context (begin : gmap bytes Z -> bytes) (begin_in : forall m, m <> ∅ -> is_Some (m !! begin m)).

Definition bounded (s : store) : Prop := 1 <= max_entries_ s /\ Z.of_nat (size (map_ s)) <= max_entries_ s.

Lemma set_if_absent_bounded now key ttl s : bounded s -> bounded (set_if_absent begin now key ttl s).2 /\ max_entries_ (set_if_absent begin now key ttl s).2 = max_entries_ s.
Proof.
  intros [H1 H2]. unfold set_if_absent. cbn zeta. change (filter _ (map_ s)) with (live now (map_ s)). pose proof (live_size now (map_ s)) as Hs. destruct (map_ s !! key) as [e|] eqn:Ek.
  - destruct (now <? e); [done|]. split; [|done]. split; [done|]. cbn. rewrite map_size_insert, Ek. done.
  - destruct (Z.leb_spec (max_entries_ s) (Z.of_nat (size (map_ s)))) as [Hf|Hf]; [destruct (Z.leb_spec (max_entries_ s) (Z.of_nat (size (live now (map_ s))))) as [Hf'|Hf']|]; cbn [andb].
    + destruct (Nat.eqb_spec (size (live now (map_ s))) 0) as [E0|E0]; [lia|]. cbn [negb]. split; [|done]. split; [done|]. cbn.
      destruct (begin_in (live now (map_ s))) as [e He]; [intros E; by rewrite E in E0|]. pose proof (map_size_delete_Some (begin (live now (map_ s))) (live now (map_ s)) (ex_intro _ e He)) as Hd.
      pose proof (size_insert_le key (now + ttl * second) (delete (begin (live now (map_ s))) (live now (map_ s)))). lia.
    + split; [|done]. split; [done|]. cbn. pose proof (size_insert_le key (now + ttl * second) (live now (map_ s))). lia.
    + split; [|done]. split; [done|]. cbn. pose proof (size_insert_le key (now + ttl * second) (map_ s)). lia.
Qed.

Lemma set_if_absent_spec now key ttl s until : live now (map_ s) = live now until -> (is_Some (live now until !! key) \/ Z.of_nat (size (live now until)) < max_entries_ s) ->
  let '(r, s') := set_if_absent begin now key ttl s in
  r = negb (bool_decide (is_Some (live now until !! key))) /\ live now (map_ s') = live now (if r then <[key := now + ttl * second]> until else until).
Proof.
  intros El Hroom. unfold set_if_absent. cbn zeta. change (filter _ (map_ s)) with (live now (map_ s)). rewrite <- El in Hroom |- *. destruct (map_ s !! key) as [e|] eqn:Ek.
  - destruct (Z.ltb_spec now e) as [Hlt|Hge].
    + rewrite bool_decide_eq_true_2; [done|]. exists e. by apply live_lookup.
    + rewrite bool_decide_eq_false_2; [split; [done|by apply live_insert]|]. intros [e' [He' Hlt]%live_lookup]. rewrite Ek in He'. injection He' as ->. lia.
  - assert (~ is_Some (live now (map_ s) !! key)) as Hn by (intros [e [He _]%live_lookup]; congruence). rewrite bool_decide_eq_false_2 by done.
    destruct Hroom as [?|Hroom]; [done|]. destruct (max_entries_ s <=? Z.of_nat (size (map_ s))); [|split; [done|by apply live_insert]].
    rewrite (proj2 (Z.leb_gt (max_entries_ s) _) Hroom). cbn [andb]. split; [done|]. apply live_insert. by rewrite live_idem.
Qed.

Lemma store_get_spec now key s until : live now (map_ s) = live now until ->
  let '(r, s') := get now key s in r = bool_decide (is_Some (live now until !! key)) /\ live now (map_ s') = live now until /\ max_entries_ s' = max_entries_ s /\ (size (map_ s') <= size (map_ s))%nat.
Proof.
  intros El. unfold get. rewrite <- El. destruct (map_ s !! key) as [e|] eqn:Ek; [destruct (Z.leb_spec e now) as [Hle|Hgt]|].
  - split; [symmetry; apply bool_decide_eq_false_2; intros [e' [He' ?]%live_lookup]; rewrite Ek in He'; injection He' as ->; lia|]. cbn. split; [|split; [done|apply map_subseteq_size, delete_subseteq]].
    apply map_eq. intros k. apply option_eq. intros e'. rewrite !live_lookup. destruct (decide (key = k)) as [->|Hne]; [rewrite lookup_delete_eq, Ek|by rewrite lookup_delete_ne].
    split; [by intros [? _]|]. intros [[= ->] ?]. lia.
  - split; [|done]. symmetry. apply bool_decide_eq_true_2. exists e. by apply live_lookup.
  - split; [|done]. symmetry. apply bool_decide_eq_false_2. intros [e [He _]%live_lookup]. congruence.
Qed.

Lemma step_bounded ttl s out o : bounded s -> let s' := (store_step begin ttl (s, out) o).1 in bounded s' /\ max_entries_ s' = max_entries_ s.
Proof.
  intros Hb. cbn zeta. destruct o as [now [[|c k]|]|now key]; cbn [store_step process]; [done| |done|].
  - pose proof (set_if_absent_bounded now (c :: k) ttl s Hb) as H. by destruct (set_if_absent begin now (c :: k) ttl s).
  - pose proof (store_get_spec now key s (map_ s) eq_refl) as H. destruct (get now key s) as [r s']. destruct H as (_ & _ & Hm & Hs), Hb as [H1 H2]. cbn. unfold bounded. rewrite Hm. split; [lia|done].
Qed.

Lemma run_bounded ttl ops s out : bounded s -> bounded (fold_left (store_step begin ttl) ops (s, out)).1 /\ max_entries_ (fold_left (store_step begin ttl) ops (s, out)).1 = max_entries_ s.
Proof.
  revert s out. induction ops as [|o ops IH]; intros s out Hb; [done|]. cbn [fold_left]. destruct (step_bounded ttl s out o Hb) as [Hb' Hm].
  destruct (store_step begin ttl (s, out) o) as [s' out']. cbn [fst] in *. rewrite <- Hm. by apply IH.
Qed.

Lemma spec_out ttl until out o : spec_step ttl (until, out) o = ((spec_step ttl (until, []) o).1, out ++ (spec_step ttl (until, []) o).2).
Proof. destruct o as [now [[|c k]|]|now key]; cbn [spec_step]; try done. by destruct (bool_decide _). Qed.

Lemma store_run_spec ttl ops now s until out : live now (map_ s) = live now until -> fits ttl (max_entries_ s) now until ops ->
  (fold_left (store_step begin ttl) ops (s, out)).2 = (fold_left (spec_step ttl) ops (until, out)).2.
Proof.
  revert now s until out. induction ops as [|o ops IH]; intros now s until out El Hf; [done|]. destruct Hf as [[Ht Hroom] Hf]. cbn [fold_left]. rewrite (spec_out ttl until out o).
  assert (live (op_time o) (map_ s) = live (op_time o) until) as El' by (by eapply live_later).
  destruct o as [t [[|c k]|]|t key]; cbn [op_time store_step process spec_step fst snd] in *; [by eapply IH| |by eapply IH|].
  - pose proof (set_if_absent_spec t (c :: k) ttl s until El' Hroom) as H. assert (max_entries_ (set_if_absent begin t (c :: k) ttl s).2 = max_entries_ s) as Hm.
    { unfold set_if_absent. cbn zeta. repeat case_match; done. }
    destruct (set_if_absent begin t (c :: k) ttl s) as [r s']. destruct H as [-> Hl]. cbn [snd] in Hm. destruct (bool_decide _); cbn [negb fst snd] in *; eapply IH; [exact Hl|by rewrite Hm|exact Hl|by rewrite Hm].
  - pose proof (store_get_spec t key s until El') as H. destruct (get t key s) as [r s']. destruct H as (-> & Hl & Hm & _). eapply IH; [exact Hl|by rewrite Hm].
Qed.
End store.

(** C38.  The store never holds more keys than its bound, whatever keys and times come.  As long
    as the keys that are taken at one time fit in, which may be fewer than all the keys ever
    seen, the filter passes an item on exactly when no item with its key was passed on within
    the time to live, or it has no key; and [get] tells whether the key is taken. *)
Theorem idempotency_exact begin ttl max ops : (forall m, m <> ∅ -> is_Some (m !! begin m)) -> 0 <= max ->
  Z.of_nat (size (map_ (store_run begin ttl ops (new_store max)).1)) <= Z.max 1 max /\
  (fits ttl (Z.max 1 max) 0 ∅ ops -> (store_run begin ttl ops (new_store max)).2 = (spec ttl ops).2).
Proof.
  intros Hbegin Hmax. assert (max_entries_ (new_store max) = Z.max 1 max) as Em by (unfold new_store; cbn; destruct (Z.eqb_spec max 0); lia). split.
  - destruct (run_bounded begin Hbegin ttl ops (new_store max) []) as [[_ Hb] Hm]; [split; [lia|cbn; rewrite map_size_empty; cbn in Em; lia]|]. unfold store_run. lia.
  - intros Hf. unfold store_run, spec. apply (store_run_spec begin ttl ops 0); [done|by rewrite Em].
Qed.

(** Room for two keys; a third comes when the first has expired. *)
Definition first_key (m : gmap bytes Z) : bytes := match map_to_list m with (k, _) :: _ => k | [] => [] end.

Definition arrivals : list store_op :=
  [Process 0 (Some [65]); Process 1 (Some [66]); Process 2 (Some [65]); Process (3 * second) (Some [67]); Get (3 * second) [66]; Process (3 * second) (Some [65]); Process (4 * second) None].

Lemma first_key_in m : m <> ∅ -> is_Some (m !! first_key m).
Proof.
  intros Hm. unfold first_key. destruct (map_to_list m) as [|[k e] l] eqn:E; [by apply map_to_list_empty_iff in E|]. exists e. apply elem_of_map_to_list. rewrite E. apply list_elem_of_here.
Qed.

Lemma idempotency_exact_witness : (forall m, m <> ∅ -> is_Some (m !! first_key m)) /\ fits 2 2 0 ∅ arrivals /\
  (store_run first_key 2 arrivals (new_store 2)).2 = [true; true; false; true; false; true; true].
Proof.
  assert (fits 2 2 0 ∅ arrivals) as Hf.
  { repeat (split; [split; [vm_compute; congruence|first [exact I|right; vm_compute; reflexivity|left; vm_compute; by eexists]]|]). exact I. }
  split; [exact first_key_in|]. split; [exact Hf|]. rewrite (proj2 (idempotency_exact first_key 2 2 arrivals first_key_in ltac:(lia)) Hf). vm_compute. reflexivity.
Defined.

(** A full store drops the key a walk meets first, not the oldest: here the newer one goes, and
    its duplicate passes. *)
Theorem eviction_is_arbitrary :
  (store_run first_key 100 [Process 0 (Some [65]); Process 1 (Some [66]); Process 2 (Some [67]); Process 3 (Some [65]); Process 4 (Some [66])] (new_store 2)).2 = [true; true; true; false; true].
Proof. vm_compute. reflexivity. Qed.
End Idempotency.

(** ** The circuit breaker *)

Module Breaker.

Inductive State := Closed | Open | HalfOpen.

Record Config := mkConfig { failure_threshold : Z; success_threshold : Z; timeout : Z }.

(** [changes] are the calls of [on_state_change]. *)
Record CircuitBreaker := mkBreaker { state_ : State; failures_ : Z; successes_ : Z; opened_at_ : Z; changes : list (State * State) }.

Definition new_breaker : CircuitBreaker := mkBreaker Closed 0 0 0 [].

Definition transition (now : Z) (to : State) (b : CircuitBreaker) : CircuitBreaker :=
  let log := changes b ++ [(state_ b, to)] in
  match to with
  | Open => mkBreaker Open 0 0 now log
  | Closed => mkBreaker Closed 0 0 (opened_at_ b) log
  | HalfOpen => mkBreaker HalfOpen (failures_ b) 0 (opened_at_ b) log
  end.

Definition try_recover (cfg : Config) (now : Z) (b : CircuitBreaker) : CircuitBreaker :=
  match state_ b with
  | Open => if timeout cfg <=? now - opened_at_ b then transition now HalfOpen b else b
  | _ => b
  end.

Definition allow_request (cfg : Config) (now : Z) (b : CircuitBreaker) : bool * CircuitBreaker :=
  match state_ b with
  | Open => let b := try_recover cfg now b in (match state_ b with Open => false | _ => true end, b)
  | _ => (true, b)
  end.

Definition record_success (cfg : Config) (now : Z) (b : CircuitBreaker) : CircuitBreaker :=
  match state_ b with
  | Closed => mkBreaker Closed 0 (successes_ b) (opened_at_ b) (changes b)
  | HalfOpen =>
    let b := mkBreaker HalfOpen (failures_ b) (successes_ b + 1) (opened_at_ b) (changes b) in
    if success_threshold cfg <=? successes_ b then transition now Closed b else b
  | Open => b
  end.

Definition record_failure (cfg : Config) (now : Z) (b : CircuitBreaker) : CircuitBreaker :=
  match state_ b with
  | Closed =>
    let b := mkBreaker Closed (failures_ b + 1) (successes_ b) (opened_at_ b) (changes b) in
    if failure_threshold cfg <=? failures_ b then transition now Open b else b
  | HalfOpen => transition now Open b
  | Open => b
  end.

Definition reset (b : CircuitBreaker) : CircuitBreaker := mkBreaker Closed 0 0 0 (changes b).

(** What workers do with a shared breaker, one call at a time. *)
Inductive breaker_op := Allow (now : Z) | Success (now : Z) | Failure (now : Z) | Reset.

Definition breaker_step (cfg : Config) (b : CircuitBreaker) (o : breaker_op) : CircuitBreaker :=
  match o with
  | Allow now => (allow_request cfg now b).2
  | Success now => record_success cfg now b
  | Failure now => record_failure cfg now b
  | Reset => reset b
  end.

Definition breaker_run (cfg : Config) (ops : list breaker_op) : CircuitBreaker := fold_left (breaker_step cfg) ops new_breaker.

(** [CircuitBreakerAction]: the calls one item makes, and its result; the inner action is run
    only when the breaker allows it. *)
Definition guarded {A} (cfg : Config) (b : CircuitBreaker) (start finish : Z) (inner : result A) : CircuitBreaker * result A * bool :=
  let '(ok, b) := allow_request cfg start b in
  if ok then match inner with Ok _ => (record_success cfg finish b, inner, true) | Err _ => (record_failure cfg finish b, inner, true) end
  else (b, Err connection_refused, false).

(** The failures recorded since the last success or reset. *)
Definition streak_step (n : Z) (o : breaker_op) : Z := match o with Failure _ => n + 1 | Success _ | Reset => 0 | Allow _ => n end.
Definition streak (ops : list breaker_op) : Z := fold_left streak_step ops 0.

(** The failure that opened the breaker. *)
Definition opened (cfg : Config) (ops : list breaker_op) : Prop :=
  exists pre t post, ops = pre ++ Failure t :: post /\ opened_at_ (breaker_run cfg ops) = t /\
    (state_ (breaker_run cfg pre) = HalfOpen \/ state_ (breaker_run cfg pre) = Closed /\ streak (pre ++ [Failure t]) = failure_threshold cfg) /\
    Forall (fun o => match o with Reset => False | Allow now => now < t + timeout cfg | _ => True end) post.

Lemma run_snoc cfg ops o : breaker_run cfg (ops ++ [o]) = breaker_step cfg (breaker_run cfg ops) o.
Proof. unfold breaker_run. by rewrite fold_left_app. Qed.

Lemma streak_snoc ops o : streak (ops ++ [o]) = streak_step (streak ops) o.
Proof. unfold streak. by rewrite fold_left_app. Qed.

Lemma streak_nonneg ops : 0 <= streak ops.
Proof. induction ops as [|o ops IH] using rev_ind; [done|]. rewrite streak_snoc. destruct o; cbn; lia. Qed.

Lemma opened_here cfg ops t : (state_ (breaker_run cfg ops) = HalfOpen \/ state_ (breaker_run cfg ops) = Closed /\ streak (ops ++ [Failure t]) = failure_threshold cfg) ->
  opened_at_ (breaker_run cfg (ops ++ [Failure t])) = t -> opened cfg (ops ++ [Failure t]).
Proof. intros H E. exists ops, t, []. done. Qed.

Lemma opened_kept cfg ops o : opened cfg ops -> opened_at_ (breaker_run cfg (ops ++ [o])) = opened_at_ (breaker_run cfg ops) ->
  match o with Reset => False | Allow now => now < opened_at_ (breaker_run cfg ops) + timeout cfg | _ => True end -> opened cfg (ops ++ [o]).
Proof.
  intros (pre & t & post & E & Et & Hs & Hp) Eo Ho. exists pre, t, (post ++ [o]). split; [rewrite E, <- app_assoc; done|]. split; [congruence|]. split; [done|].
  apply Forall_app. split; [done|]. constructor; [|done]. by rewrite <- Et.
Qed.

(** The state is what the history of calls makes it: closed means that fewer than the threshold
    of failures came in a row; open, that the last failure that counted was one too many, or
    came while half open, and since then there was no reset and no request after the timeout. *)
Theorem breaker_history cfg ops : 0 < failure_threshold cfg -> 0 < success_threshold cfg -> let b := breaker_run cfg ops in
  match state_ b with
  | Closed => failures_ b = streak ops /\ streak ops < failure_threshold cfg
  | Open => opened cfg ops
  | HalfOpen => 0 <= successes_ b < success_threshold cfg
  end.
Proof.
  intros Hf Hs. cbn zeta. induction ops as [|o ops IH] using rev_ind; [cbn; lia|]. rewrite streak_snoc. pose proof (run_snoc cfg ops o) as Er. rewrite Er. pose proof (streak_nonneg ops) as Hn.
  destruct (state_ (breaker_run cfg ops)) eqn:Es.
  - destruct o as [t|t|t|]; cbn [breaker_step streak_step] in *; [|unfold record_success; rewrite Es; cbn; lia| |cbn; lia].
    + unfold allow_request. rewrite Es. cbn. by rewrite Es.
    + unfold record_failure. rewrite Es. cbn [failures_]. destruct (Z.leb_spec (failure_threshold cfg) (failures_ (breaker_run cfg ops) + 1)) as [Hge|Hlt]; [|cbn; lia]. cbn [transition state_].
      apply opened_here; [right; split; [done|rewrite streak_snoc; cbn; lia]|]. rewrite Er. unfold record_failure. rewrite Es. cbn [failures_]. by rewrite (proj2 (Z.leb_le _ _) Hge).
  - destruct o as [t|t|t|]; cbn [breaker_step streak_step] in *; [| | |cbn; lia].
    + unfold allow_request, try_recover in *. rewrite Es in *. destruct (Z.leb_spec (timeout cfg) (t - opened_at_ (breaker_run cfg ops))) as [Hge|Hlt]; cbn [transition state_ snd] in *; [cbn; lia|].
      rewrite Es. apply opened_kept; [done|by rewrite Er|lia].
    + unfold record_success in *. rewrite Es in *. rewrite Es. apply opened_kept; [done|by rewrite Er|done].
    + unfold record_failure in *. rewrite Es in *. rewrite Es. apply opened_kept; [done|by rewrite Er|done].
  - destruct o as [t|t|t|]; cbn [breaker_step streak_step] in *; [| | |cbn; lia].
    + unfold allow_request. rewrite Es. cbn. by rewrite Es.
    + unfold record_success. rewrite Es. cbn [successes_]. destruct (Z.leb_spec (success_threshold cfg) (successes_ (breaker_run cfg ops) + 1)); cbn; lia.
    + unfold record_failure in *. rewrite Es in *. cbn [transition state_]. apply opened_here; [by left|]. by rewrite Er.
Qed.

(** A request is refused exactly while the breaker is open and its timeout has not passed. *)
Theorem breaker_refuses cfg b now : (allow_request cfg now b).1 = false <-> state_ b = Open /\ now < opened_at_ b + timeout cfg.
Proof.
  unfold allow_request, try_recover. destruct (state_ b) eqn:E; cbn; [split; [done|by intros [? _]]| |split; [done|by intros [? _]]].
  destruct (Z.leb_spec (timeout cfg) (now - opened_at_ b)); cbn; rewrite ?E; split; try done; [intros [_ ?]; lia|intros _; split; [done|lia]].
Qed.

(** Half open lets every request through, however many. *)
Theorem half_open_unlimited cfg b now : state_ b = HalfOpen -> allow_request cfg now b = (true, b).
Proof. intros E. unfold allow_request. by rewrite E. Qed.
End Breaker.

(** ** Retries *)

Module Retry.

Inductive BackoffStrategy := Fixed | Exponential | Jitter.

(** Delays in milliseconds. *)
Record RetryConfig := mkRetry { max_attempts : nat; base_delay : Z; max_delay : Z; strategy : BackoffStrategy; is_retriable : errc -> bool }.

(** [long long]: the product is computed at 64 bits. *)
Definition i64 (z : Z) : Z := (z + 2 ^ 63) mod 2 ^ 64 - 2 ^ 63.

(** [tenth] is the conversion of [base_val * 0.1] from floating point, [draw] the number the
    generator gives for the range. *)
Definition compute_delay (cfg : RetryConfig) (tenth draw : Z -> Z) (attempt : Z) : Z :=
  let factor := 2 ^ Z.min attempt 62 in
  let delay := match strategy cfg with
    | Fixed => base_delay cfg
    | Exponential => i64 (base_delay cfg * factor)
    | Jitter =>
      let base_val := i64 (base_delay cfg * factor) in
      let jitter_range := tenth base_val in
      i64 (base_val + (if 0 <? jitter_range then draw jitter_range else 0))
    end in
  if max_delay cfg <? delay then max_delay cfg else delay.

(** The milliseconds given to the timer of the reactor. *)
Definition timer_ms (delay : Z) : Z := Z.min delay (2 ^ 31 - 1).

(** What the surroundings answer at an attempt: whether a stop was requested before the delay
    and after it, and the result of the action. *)
Record answer (A : Type) := mkAnswer { stop_before : bool; stop_after : bool; outcome : result A }.
Arguments mkAnswer {A} stop_before stop_after outcome.
Arguments stop_before {A} a.
Arguments stop_after {A} a.
Arguments outcome {A} a.

(** The loop: its result, the delays it waited and the number of calls of the action. *)
Fixpoint attempts {A} (cfg : RetryConfig) (delay : nat -> Z) (env : nat -> answer A) (n attempt : nat) (last : result A) : result A * list Z * nat :=
  match n with
  | O => (last, [], O)
  | S n =>
    if stop_before (env attempt) then (Err operation_canceled, [], O) else
    let waited := match attempt with O => [] | S a => [delay a] end in
    if match attempt with O => false | S _ => stop_after (env attempt) end then (Err operation_canceled, waited, O) else
    match outcome (env attempt) with
    | Ok v => (Ok v, waited, 1%nat)
    | Err e =>
      if is_retriable cfg e then let '(r, ds, k) := attempts cfg delay env n (S attempt) (Err e) in (r, waited ++ ds, S k)
      else (Err e, waited, 1%nat)
    end
  end.

Definition retry {A} (cfg : RetryConfig) (tenth draw : Z -> Z) (env : nat -> answer A) : result A * list Z * nat :=
  attempts cfg (fun a => compute_delay cfg tenth draw (Z.of_nat a)) env (max_attempts cfg) 0 (Err operation_not_permitted).

Lemma attempts_spec {A} cfg delay (env : nat -> answer A) n attempt last : let '(r, ds, k) := attempts cfg delay env n attempt last in
  (k <= n)%nat /\ (forall i, (i < pred k)%nat -> exists e, outcome (env (attempt + i)%nat) = Err e /\ is_retriable cfg e = true) /\
  match r with
  | Ok v => (0 < k)%nat /\ outcome (env (attempt + pred k)%nat) = Ok v \/ k = 0%nat /\ last = Ok v
  | Err e => e = operation_canceled \/ (0 < k)%nat /\ outcome (env (attempt + pred k)%nat) = Err e /\ (is_retriable cfg e = false \/ k = n) \/ n = 0%nat /\ last = Err e
  end.
Proof.
  revert attempt last. induction n as [|n IH]; intros attempt last; cbn [attempts].
  - split; [lia|]. split; [intros i Hi; cbn in Hi; lia|]. destruct last as [v|e]; [right; done|right; right; done].
  - destruct (stop_before (env attempt)); [split; [lia|]; split; [intros i Hi; cbn in Hi; lia|by left]|].
    destruct (match attempt with O => false | S _ => stop_after (env attempt) end); [split; [lia|]; split; [intros i Hi; cbn in Hi; lia|by left]|].
    destruct (outcome (env attempt)) as [v|e] eqn:Eo; [split; [lia|]; split; [intros i Hi; cbn in Hi; lia|]; left; cbn; rewrite Nat.add_0_r; split; [lia|done]|].
    destruct (is_retriable cfg e) eqn:Er; [|split; [lia|]; split; [intros i Hi; cbn in Hi; lia|]; right; left; cbn; rewrite Nat.add_0_r; split; [lia|]; split; [done|by left]].
    specialize (IH (S attempt) (Err e)). destruct (attempts cfg delay env n (S attempt) (Err e)) as [[r ds] k]. destruct IH as (Hk & Hall & Hr). split; [lia|]. cbn [pred]. split.
    + intros [|i] Hi; [exists e; by rewrite Nat.add_0_r|]. destruct (Hall i) as (e' & He' & Hre'); [lia|]. exists e'. by replace (attempt + S i)%nat with (S attempt + i)%nat by lia.
    + assert ((0 < k)%nat -> (attempt + k)%nat = (S attempt + pred k)%nat) as Hidx by lia. destruct r as [v|e'].
      * destruct Hr as [[Hk0 Ho]|[_ ?]]; [|done]. left. split; [lia|]. by rewrite Hidx.
      * destruct Hr as [->|[(Hk0 & Ho & Hend)|[-> [= <-]]]]; [by left| |].
        -- right. left. split; [lia|]. rewrite Hidx by done. split; [done|]. destruct Hend; [by left|right; lia].
        -- right. left. assert (k = 0%nat) as -> by lia. rewrite Nat.add_0_r. split; [lia|]. split; [done|by right].
Qed.

(** At most [max_attempts] calls are made; the result is the first success, or the error of the
    last call, which was not retriable or the last one allowed, or a cancellation. *)
Theorem retry_result {A} cfg tenth draw (env : nat -> answer A) : let '(r, _, k) := retry cfg tenth draw env in
  (k <= max_attempts cfg)%nat /\ (forall i, (i < pred k)%nat -> exists e, outcome (env i) = Err e /\ is_retriable cfg e = true) /\
  match r with
  | Ok v => (0 < k)%nat /\ outcome (env (pred k)) = Ok v
  | Err e => e = operation_canceled \/ (0 < k)%nat /\ outcome (env (pred k)) = Err e /\ (is_retriable cfg e = false \/ k = max_attempts cfg) \/ max_attempts cfg = 0%nat
  end.
Proof.
  unfold retry. pose proof (attempts_spec cfg (fun a => compute_delay cfg tenth draw (Z.of_nat a)) env (max_attempts cfg) 0 (Err operation_not_permitted)) as H.
  destruct (attempts _ _ _ _ _ _) as [[r ds] k]. destruct H as (H1 & H2 & H3). split; [done|]. split; [done|]. destruct r as [v|e]; [destruct H3 as [?|[_ ?]]; done|]. destruct H3 as [?|[?|[? _]]]; auto.
Qed.

(** The delay doubles up to the cap, as long as the product fits in 64 bits. *)
Theorem exponential_delay cfg tenth draw attempt : strategy cfg = Exponential -> 0 <= attempt -> 0 <= base_delay cfg -> base_delay cfg * 2 ^ Z.min attempt 62 < 2 ^ 63 ->
  compute_delay cfg tenth draw attempt = Z.min (base_delay cfg * 2 ^ Z.min attempt 62) (max_delay cfg).
Proof.
  intros Es Ha Hb Hfit. unfold compute_delay. rewrite Es. assert (0 < 2 ^ Z.min attempt 62) by (apply Z.pow_pos_nonneg; lia). unfold i64. rewrite Z.mod_small by nia.
  destruct (Z.ltb_spec (max_delay cfg) (base_delay cfg * 2 ^ Z.min attempt 62 + 2 ^ 63 - 2 ^ 63)); lia.
Qed.

(** When it does not fit, the cap no longer helps: a hundred milliseconds doubled often enough
    are no delay at all. *)
Theorem exponential_overflow tenth draw : let cfg := mkRetry 100 100 30000 Exponential (fun _ => true) in
  compute_delay cfg tenth draw 56 = 30000 /\ compute_delay cfg tenth draw 57 < 0 /\ compute_delay cfg tenth draw 62 = 0.
Proof. by vm_compute. Qed.
End Retry.

(** ** Sagas *)

Module Saga.

(** What a step's coroutine, or the call that makes it, can do.  [Task] does not hand exceptions
    on ([core/task.hpp]): one thrown inside the coroutine goes to the handler of the process,
    which ends the process when there is none. *)
Inductive undone := Compensated | ThrewOnCall | ThrewInside.

Section saga.
Context {T : Type}.

Record SagaStep := mkStep { name : bytes; execute : T -> option (result T); compensate : T -> undone }.

(** What the steps were asked to do, in order. *)
Inductive event := Executed (s : bytes) (input : T) | Undo (s : bytes) (input : T).

(** [None]: an exception of [execute], or of [compensate] without a handler, ended the process. *)
Record report := mkReport { events : list event; failures : list bytes; returned : option (result T) }.

(** [compensate_steps_]: the steps that were executed, the last one first; [None] as above. *)
Fixpoint compensate_steps_ (handler : bool) (executed : list (SagaStep * T)) : list event * list bytes * bool :=
  match executed with
  | [] => ([], [], true)
  | (s, x) :: rest =>
    let '(es, fs, alive) := compensate_steps_ handler rest in
    match compensate s x with
    | Compensated => (Undo (name s) x :: es, fs, alive)
    | ThrewOnCall => (Undo (name s) x :: es, name s :: fs, alive)
    | ThrewInside => if handler then (Undo (name s) x :: es, fs, alive) else ([Undo (name s) x], [], false)
    end
  end.

(** The loop of [run]; [executed] are the steps done so far with their inputs, newest first. *)
Fixpoint run_from (handler : bool) (steps : list SagaStep) (current : T) (executed : list (SagaStep * T)) : report :=
  match steps with
  | [] => mkReport [] [] (Some (Ok current))
  | s :: rest =>
    match execute s current with
    | None => mkReport [Executed (name s) current] [] None
    | Some (Ok v) => let r := run_from handler rest v ((s, current) :: executed) in mkReport (Executed (name s) current :: events r) (failures r) (returned r)
    | Some (Err e) =>
      let '(es, fs, alive) := compensate_steps_ handler executed in
      mkReport (Executed (name s) current :: es) fs (if alive then Some (Err e) else None)
    end
  end.

Definition run (handler : bool) (steps : list SagaStep) (input : T) : report := run_from handler steps input [].

(** The inputs the steps get, as long as they succeed. *)
Fixpoint chain (steps : list SagaStep) (input : T) : list (SagaStep * T) :=
  match steps with
  | [] => []
  | s :: rest => (s, input) :: match execute s input with Some (Ok v) => chain rest v | _ => [] end
  end.

Definition executed_event (e : SagaStep * T) : event := Executed (name e.1) e.2.
Definition undo_event (e : SagaStep * T) : event := Undo (name e.1) e.2.

(** Nothing throws where it would end the process. *)
Definition safe (handler : bool) (s : SagaStep) : Prop := (forall x, execute s x <> None) /\ (forall x, handler = true \/ compensate s x <> ThrewInside).

Lemma compensate_spec handler l : Forall (fun e => safe handler e.1) l ->
  compensate_steps_ handler l = (map undo_event l, omap (fun e => match compensate e.1 e.2 with ThrewOnCall => Some (name e.1) | _ => None end) l, true).
Proof.
  induction l as [|[s x] l IH]; [done|]. intros [[_ Hc] Hl]%Forall_cons. cbn [compensate_steps_ map omap list_omap fst snd]. rewrite (IH Hl).
  destruct (compensate s x) eqn:E; try done. destruct (Hc x) as [->|?]; [done|done].
Qed.

Lemma run_from_spec handler steps current executed : Forall (safe handler) steps -> Forall (fun e => safe handler e.1) executed ->
  let c := chain steps current in
  match returned (run_from handler steps current executed) with
  | Some (Ok v) => length c = length steps /\ events (run_from handler steps current executed) = map executed_event c /\ failures (run_from handler steps current executed) = []
  | Some (Err e) => exists s x done_, c = done_ ++ [(s, x)] /\ execute s x = Some (Err e) /\
      events (run_from handler steps current executed) = map executed_event c ++ map undo_event (rev done_ ++ executed) /\
      failures (run_from handler steps current executed) = omap (fun e => match compensate e.1 e.2 with ThrewOnCall => Some (name e.1) | _ => None end) (rev done_ ++ executed)
  | None => False
  end.
Proof.
  revert current executed. induction steps as [|s steps IH]; intros current executed Hs He; cbn zeta; [done|]. apply Forall_cons in Hs as [Hsafe Hs]. cbn [run_from chain].
  destruct (execute s current) as [[v|e]|] eqn:Ex; [| |by destruct (proj1 Hsafe current)].
  - specialize (IH v ((s, current) :: executed) Hs). cbn zeta in IH. cbn [returned events failures]. destruct (returned (run_from handler steps v ((s, current) :: executed))) as [[v'|e]|].
    + destruct IH as (H1 & H2 & H3); [by constructor|]. split; [cbn; lia|]. split; [cbn; by rewrite H2|done].
    + destruct IH as (s' & x & d & H1 & H2 & H3 & H4); [by constructor|]. exists s', x, ((s, current) :: d). split; [cbn; by rewrite H1|]. split; [done|]. cbn [rev]. rewrite <- app_assoc. cbn [app map]. split; [by rewrite H3|done].
    + apply IH. by constructor.
  - rewrite (compensate_spec handler executed He). cbn [returned events failures]. exists s, current, []. done.
Qed.

(** A saga executes its steps in order, each on the result of the one before.  When all
    succeed their last result is returned and nothing is undone.  When one fails its error is
    returned, and exactly the steps before it are undone, last first, each on the input it was
    executed with; the names recorded are those whose undoing could not be started. *)
Theorem saga_compensates handler steps input : Forall (safe handler) steps -> let c := chain steps input in let r := run handler steps input in
  match returned r with
  | Some (Ok v) => length c = length steps /\ events r = map executed_event c /\ failures r = []
  | Some (Err e) => exists s x done_, c = done_ ++ [(s, x)] /\ execute s x = Some (Err e) /\
      events r = map executed_event c ++ map undo_event (rev done_) /\
      failures r = omap (fun e => match compensate e.1 e.2 with ThrewOnCall => Some (name e.1) | _ => None end) (rev done_)
  | None => False
  end.
Proof.
  intros Hs. pose proof (run_from_spec handler steps input [] Hs (Forall_nil_2 _)) as H. cbn zeta in *. unfold run. destruct (returned (run_from handler steps input [])) as [[v|e]|]; [done| |done].
  destruct H as (s & x & d & H). rewrite app_nil_r in H. by exists s, x, d.
Qed.
End saga.

(** An exception inside a compensation is not recorded, and without a handler it ends the
    process before the earlier steps are undone. *)
Theorem compensation_throws : let step nm c := mkStep nm (fun x : Z => Some (Ok (x + 1))) c in
  let steps := [step [65] (fun _ => Compensated); step [66] (fun _ => ThrewInside); mkStep [67] (fun _ => Some (Err timed_out)) (fun _ => Compensated)] in
  run true steps 0 = mkReport [Executed [65] 0; Executed [66] 1; Executed [67] 2; Undo [66] 1; Undo [65] 0] [] (Some (Err timed_out)) /\
  run false steps 0 = mkReport [Executed [65] 0; Executed [66] 1; Executed [67] 2; Undo [66] 1] [] None.
Proof. by vm_compute. Qed.
End Saga.
