(* ===== verification/HttpParser.v ===== *)
(** * The HTTP/1.1 request parser: [http/parser.cpp], [http/request.hpp], [codec/http1_codec.hpp]

    [find_header_end] with its AVX2, SSE2, NEON and scalar bodies, the request value,
    the two-phase state machine [HttpParser::parse], the [Http1Codec] wrapper, and the
    path guard of the server.  A [std::string_view] is the list of its bytes;
    [HttpViews] has their places in the buffer. *)

From S2P Require Import Prelude Text Bits Codec.

(** ** Strings *)

Abbreviation SP := 0x20.
Abbreviation CR := 0x0D.
Abbreviation LF := 0x0A.

(** ** [find_header_end] *)

Definition CRLF : bytes := [CR; LF].
Definition CRLFCRLF : bytes := [CR; LF; CR; LF].

(** The scalar loop [for (; i + 3 < len; ++i)], on the bytes from index [i] on. *)
Fixpoint scan_scalar (s : bytes) (i : Z) : option Z :=
  match s with
  | a :: ((b :: c :: d :: _) as rest) =>
      if (a =? CR) && (b =? LF) && (c =? CR) && (d =? LF) then Some i else scan_scalar rest (i + 1)
  | _ => None
  end.

Definition find_header_end (data : bytes) : option Z :=
  if zlen data <? 4 then None else scan_scalar data 0.

(** [_mm256_movemask_epi8(_mm256_cmpeq_epi8(chunk, v_cr))]: bit [k] tells that lane
    [k] is a carriage return. *)
Fixpoint movemask (chunk : bytes) : Z :=
  match chunk with
  | [] => 0
  | b :: chunk => (if b =? CR then 1 else 0) + 2 * movemask chunk
  end.

(** The candidate test at offset [off]. *)
Definition confirm (data : bytes) (off : Z) : bool :=
  (off + 3 <? zlen data) &&
  (at_ data (off + 1) =? LF) && (at_ data (off + 2) =? CR) && (at_ data (off + 3) =? LF).

(** [while (mask != 0)], [mask &= mask - 1]; a turn clears one bit. *)
Fixpoint candidates (fuel : nat) (data : bytes) (i mask : Z) : option Z :=
  match fuel with
  | O => None
  | S fuel =>
      if mask =? 0 then None
      else let off := i + ctz 64 mask in
           if confirm data off then Some off
           else candidates fuel data i (mask .& (mask - 1))
  end.

(** [for (; i + w <= len; i += w)] then the scalar tail; [w] is 32 for AVX2 and 16 for
    SSE2. *)
Fixpoint scan_vector (fuel : nat) (w : Z) (data : bytes) (i : Z) : option Z :=
  match fuel with
  | O => None
  | S fuel =>
      if i + w <=? zlen data then
        match candidates (Z.to_nat w) data i (movemask (ztake w (zdrop i data))) with
        | Some off => Some off
        | None => scan_vector fuel w data (i + w)
        end
      else scan_scalar (zdrop i data) i
  end.

Definition find_header_end_avx2 (data : bytes) : option Z :=
  if zlen data <? 4 then None else scan_vector (S (length data)) 32 data 0.

Definition find_header_end_sse2 (data : bytes) : option Z :=
  if zlen data <? 4 then None else scan_vector (S (length data)) 16 data 0.

(** [vshrn_n_u16(vreinterpretq_u16_u8(cmp), 4)]: lane [k] becomes nibble [k]. *)
Fixpoint nibblemask (chunk : bytes) : Z :=
  match chunk with
  | [] => 0
  | b :: chunk => (if b =? CR then 15 else 0) + 16 * nibblemask chunk
  end.

(** The NEON loop: the lane is [ctz >> 2]; a turn clears one bit of a nibble, so a lane
    is tried four times. *)
Fixpoint candidates_neon (fuel : nat) (data : bytes) (i mask : Z) : option Z :=
  match fuel with
  | O => None
  | S fuel =>
      if mask =? 0 then None
      else let off := i + (ctz 64 mask >> 2) in
           if confirm data off then Some off
           else candidates_neon fuel data i (mask .& (mask - 1))
  end.

Fixpoint scan_neon (fuel : nat) (data : bytes) (i : Z) : option Z :=
  match fuel with
  | O => None
  | S fuel =>
      if i + 16 <=? zlen data then
        match candidates_neon 64 data i (nibblemask (ztake 16 (zdrop i data))) with
        | Some off => Some off
        | None => scan_neon fuel data (i + 16)
        end
      else scan_scalar (zdrop i data) i
  end.

Definition find_header_end_neon (data : bytes) : option Z :=
  if zlen data <? 4 then None else scan_neon (S (length data)) data 0.

(** ** The request *)

Inductive Method := Get | Post | Put | Delete | Patch | Options | Head | Unknown.

Definition string_to_method (m : bytes) : Method :=
  if decide (m = chars "GET") then Get else
  if decide (m = chars "POST") then Post else
  if decide (m = chars "PUT") then Put else
  if decide (m = chars "DELETE") then Delete else
  if decide (m = chars "PATCH") then Patch else
  if decide (m = chars "OPTIONS") then Options else
  if decide (m = chars "HEAD") then Head else Unknown.

Record Request := mkRequest {
  method_ : Method;
  path_ : bytes;
  query_string_ : bytes;
  body_ : bytes;
  headers_flat_ : list (bytes * bytes);
}.

Definition new_request : Request := mkRequest Unknown [] [] [] [].

Abbreviation kMaxInlineHeaders := (32)%Z (only parsing).

(** [header(key)]: the first header with exactly that name. *)
Fixpoint lookup_header (hs : list (bytes * bytes)) (key : bytes) : bytes :=
  match hs with
  | [] => []
  | (k, v) :: hs => if decide (k = key) then v else lookup_header hs key
  end.

Definition header (req : Request) (key : bytes) : bytes := lookup_header (headers_flat_ req) key.

Definition set_method (m : Method) (req : Request) : Request :=
  mkRequest m (path_ req) (query_string_ req) (body_ req) (headers_flat_ req).

Definition set_path (raw : bytes) (req : Request) : Request :=
  match find raw [0x3F] 0 with
  | None => mkRequest (method_ req) raw [] (body_ req) (headers_flat_ req)
  | Some q =>
      mkRequest (method_ req) (substr raw 0 q) (substr raw (q + 1) (zlen raw)) (body_ req)
        (headers_flat_ req)
  end.

Definition set_body (b : bytes) (req : Request) : Request :=
  mkRequest (method_ req) (path_ req) (query_string_ req) b (headers_flat_ req).

Definition add_header (key value : bytes) (req : Request) : Request :=
  if zlen (headers_flat_ req) <? kMaxInlineHeaders
  then mkRequest (method_ req) (path_ req) (query_string_ req) (body_ req)
         (headers_flat_ req ++ [(key, value)])
  else req.

(** ** The parser *)

Inductive State :=
  | SMethod | SPath | SVersion | SHeaderKey | SHeaderValue
  | SBody | SChunkSize | SChunkData | SChunkDataEnd | SComplete | SError.

#[global] Instance State_eq_dec : EqDecision State.
Proof. solve_decision. Defined.

Abbreviation MAX_BODY_SIZE := (1024 * 1024)%Z (only parsing).
Abbreviation MAX_HEADER_SIZE := (8 * 1024)%Z (only parsing).

Record HttpParser := mkParser {
  state_ : State;
  headers_complete_ : bool;
  chunked_ : bool;
  current_header_key_ : bytes;
  body_length_ : Z;
  chunk_remaining_ : Z;
  chunk_body_ : bytes;
  error_status_ : Z;
  header_bytes_ : Z;
}.

Definition new_parser : HttpParser := mkParser SMethod false false [] 0 0 [] 0 0.

Definition set_state (s : State) (p : HttpParser) : HttpParser :=
  mkParser s (headers_complete_ p) (chunked_ p) (current_header_key_ p) (body_length_ p)
    (chunk_remaining_ p) (chunk_body_ p) (error_status_ p) (header_bytes_ p).

Definition set_key (k : bytes) (p : HttpParser) : HttpParser :=
  mkParser (state_ p) (headers_complete_ p) (chunked_ p) k (body_length_ p)
    (chunk_remaining_ p) (chunk_body_ p) (error_status_ p) (header_bytes_ p).

Definition set_header_bytes (n : Z) (p : HttpParser) : HttpParser :=
  mkParser (state_ p) (headers_complete_ p) (chunked_ p) (current_header_key_ p) (body_length_ p)
    (chunk_remaining_ p) (chunk_body_ p) (error_status_ p) n.

Definition set_chunk (remaining : Z) (body : bytes) (p : HttpParser) : HttpParser :=
  mkParser (state_ p) (headers_complete_ p) (chunked_ p) (current_header_key_ p) (body_length_ p)
    remaining body (error_status_ p) (header_bytes_ p).

(** [error_status_ = status; state_ = State::Error]. *)
Definition fail (status : Z) (p : HttpParser) : HttpParser :=
  mkParser SError (headers_complete_ p) (chunked_ p) (current_header_key_ p) (body_length_ p)
    (chunk_remaining_ p) (chunk_body_ p) status (header_bytes_ p).

(** The phase-1 states: the request line and the headers. *)
Definition in_head (s : State) : bool :=
  match s with
  | SBody | SChunkSize | SComplete | SError => false
  | _ => true
  end.

(** A turn of the loop: go on at a position, with the start of the current token, or
    stop with an error. *)
Inductive turn :=
  | Go (pos start : Z) (p : HttpParser) (req : Request)
  | Fail (p : HttpParser) (req : Request).

(** The end of the header section. *)
Definition end_of_headers (pos start : Z) (p : HttpParser) (req : Request) : turn :=
  let p := mkParser (state_ p) true (chunked_ p) (current_header_key_ p) (body_length_ p)
             (chunk_remaining_ p) (chunk_body_ p) (error_status_ p) (header_bytes_ p) in
  let te := header req (chars "Transfer-Encoding") in
  let cl := header req (chars "Content-Length") in
  if negb (zlen te =? 0) && negb (zlen cl =? 0) then Fail (fail 400 p) req
  else if decide (te = chars "chunked") then
    let p := mkParser SChunkSize (headers_complete_ p) true (current_header_key_ p)
               (body_length_ p) (chunk_remaining_ p) (chunk_body_ p) (error_status_ p)
               (header_bytes_ p) in
    Go (pos + 1) (pos + 1) p req
  else if negb (zlen cl =? 0) then
    match from_chars UINT64_MAX cl with
    | None => Fail (fail 400 p) req
    | Some parsed =>
        let p := mkParser (state_ p) (headers_complete_ p) (chunked_ p) (current_header_key_ p)
                   parsed (chunk_remaining_ p) (chunk_body_ p) (error_status_ p) (header_bytes_ p) in
        if MAX_BODY_SIZE <? parsed then Fail (fail 413 p) req
        else Go (pos + 1) (pos + 1) (set_state SBody p) req
    end
  else Go (pos + 1) start (set_state SComplete p) req.

Definition head_turn (data : bytes) (pos start : Z) (p : HttpParser) (req : Request) : turn :=
  let c := at_ data pos in
  match state_ p with
  | SMethod =>
      if c =? SP then
        Go (pos + 1) (pos + 1) (set_state SPath p)
          (set_method (string_to_method (substr data start (pos - start))) req)
      else Go (pos + 1) start p req
  | SPath =>
      if c =? SP then
        Go (pos + 1) (pos + 1) (set_state SVersion p) (set_path (substr data start (pos - start)) req)
      else Go (pos + 1) start p req
  | SVersion =>
      if c =? LF then Go (pos + 1) (pos + 1) (set_state SHeaderKey p) req
      else Go (pos + 1) start p req
  | SHeaderKey =>
      if c =? 0x3A then
        let p := set_state SHeaderValue (set_key (substr data start (pos - start)) p) in
        if (pos + 1 <? zlen data) && (at_ data (pos + 1) =? SP)
        then Go (pos + 2) (pos + 2) p req
        else Go (pos + 1) (pos + 1) p req
      else if c =? LF then end_of_headers pos start p req
      else
        let p := set_header_bytes (header_bytes_ p + 1) p in
        if MAX_HEADER_SIZE <? header_bytes_ p then Fail (fail 400 p) req
        else Go (pos + 1) start p req
  | SHeaderValue =>
      if c =? CR then Go (pos + 1) start p req
      else if c =? LF then
        let value := substr data start (u64 (pos - start - 1)) in
        if existsb (fun ch => (ch =? CR) || (ch =? LF)) value then Fail (fail 400 p) req
        else
          let p := set_header_bytes
                     (header_bytes_ p + zlen (current_header_key_ p) + zlen value + 4) p in
          if MAX_HEADER_SIZE <? header_bytes_ p then Fail (fail 400 p) req
          else Go (pos + 1) (pos + 1) (set_state SHeaderKey p)
                 (add_header (current_header_key_ p) value req)
      else Go (pos + 1) start p req
  | _ => Go (pos + 1) start p req
  end.

(** Phase 1; every turn advances [pos]. *)
Fixpoint head_loop (fuel : nat) (data : bytes) (pos start : Z) (p : HttpParser) (req : Request) : turn :=
  match fuel with
  | O => Go pos start p req
  | S fuel =>
      if (pos <? zlen data) && in_head (state_ p) then
        match head_turn data pos start p req with
        | Go pos start p req => head_loop fuel data pos start p req
        | Fail p req => Fail p req
        end
      else Go pos start p req
  end.

Definition hex_digit (c : Z) : Z :=
  if (0x30 <=? c) && (c <=? 0x39) then c - 0x30 else
  if (0x61 <=? c) && (c <=? 0x66) then c - 0x61 + 10 else
  if (0x41 <=? c) && (c <=? 0x46) then c - 0x41 + 10 else -1.

(** The chunk-size token: its value, or the error status. *)
Fixpoint chunk_size (tok : bytes) (acc : Z) : Z + Z :=
  match tok with
  | [] => inl acc
  | c :: tok =>
      let d := hex_digit c in
      if d <? 0 then inr 400
      else let acc := acc * 16 + d in
           if MAX_BODY_SIZE <? acc then inr 413 else chunk_size tok acc
  end.

(** Phase 2b; every turn that does not return advances [pos]. *)
Fixpoint chunk_loop (fuel : nat) (data : bytes) (pos : Z) (p : HttpParser) (req : Request)
    : option Z * HttpParser * Request :=
  match fuel with
  | O => (Some pos, p, req)
  | S fuel =>
      match state_ p with
      | SComplete => (Some pos, p, req)
      | SError => (None, p, req)
      | SChunkSize =>
          match find data CRLF pos with
          | None => (Some pos, p, req)
          | Some eol =>
              let tok := substr data pos (eol - pos) in
              let tok := match find tok [0x3B] 0 with
                         | None => tok
                         | Some ext => substr tok 0 ext
                         end in
              match chunk_size tok 0 with
              | inr status => (None, fail status p, req)
              | inl n =>
                  let p := set_chunk n (chunk_body_ p) p in
                  let pos := eol + 2 in
                  if n =? 0 then
                    match find data CRLF pos with
                    | None => (Some pos, p, req)
                    | Some trailer_end =>
                        (Some (trailer_end + 2), set_state SComplete p, set_body (chunk_body_ p) req)
                    end
                  else if MAX_BODY_SIZE <? zlen (chunk_body_ p) + n then (None, fail 413 p, req)
                  else chunk_loop fuel data pos (set_state SChunkData p) req
              end
          end
      | SChunkData =>
          let avail := if pos <? zlen data then zlen data - pos else 0 in
          if avail <? chunk_remaining_ p then
            let body := chunk_body_ p ++ substr data pos avail in
            (Some (pos + avail), set_chunk (chunk_remaining_ p - avail) body p, req)
          else
            let body := chunk_body_ p ++ substr data pos (chunk_remaining_ p) in
            chunk_loop fuel data (pos + chunk_remaining_ p)
              (set_state SChunkDataEnd (set_chunk 0 body p)) req
      | _ =>
          if zlen data <? pos + 2 then (Some pos, p, req)
          else if negb (at_ data pos =? CR) || negb (at_ data (pos + 1) =? LF)
          then (None, fail 400 p, req)
          else chunk_loop fuel data (pos + 2) (set_state SChunkSize p) req
      end
  end.

Definition parse (data : bytes) (p : HttpParser) (req : Request) : option Z * HttpParser * Request :=
  let run p :=
    match head_loop (S (length data)) data 0 0 p req with
    | Fail p req => (None, p, req)
    | Go pos start p req =>
        match state_ p with
        | SError => (None, p, req)
        | SComplete => (Some pos, p, req)
        | SBody =>
            let avail := if start <? zlen data then zlen data - start else 0 in
            if avail <? body_length_ p then (Some start, p, req)
            else (Some (start + body_length_ p), set_state SComplete p,
                  set_body (substr data start (body_length_ p)) req)
        | SChunkSize | SChunkData | SChunkDataEnd => chunk_loop (S (length data)) data pos p req
        | _ => (Some pos, p, req)
        end
    end in
  if negb (headers_complete_ p) && in_head (state_ p) then
    match find_header_end data with
    | None =>
        let p := set_header_bytes (header_bytes_ p + zlen data) p in
        if MAX_HEADER_SIZE <? header_bytes_ p then (None, fail 400 p, req)
        else (Some (zlen data), p, req)
    | Some _ => run (set_header_bytes 0 p)
    end
  else run p.

(** ** [Http1Codec] *)

Definition http1_decode (s : HttpParser) (buf : bytes) (out : Request)
    : DecodeStatus Request * bytes * HttpParser * Request :=
  if zlen buf =? 0 then (Incomplete, buf, s, out) else
  match parse buf s out with
  | (None, s, out) => (Error, buf, s, out)
  | (Some consumed, s, out) =>
      if decide (state_ s = SComplete) then (Complete out, zdrop consumed buf, s, out)
      else (Incomplete, [], s, out)
  end.

Definition http1_reset (s : HttpParser) : HttpParser := new_parser.

(** ** The path guard of the server *)

(** [p.find(pat)] as a [size_t]: [npos] is 2^64 - 1. *)
Definition find_npos (p pat : bytes) : Z := default UINT64_MAX (find p pat 0).

Definition path_is_bad (p : bytes) : bool :=
  negb (find_npos p (chars "/../") =? UINT64_MAX) ||
  (find_npos p (chars "/..") =? u64 (zlen p - 3)) ||
  negb (find_npos p (chars "%2e%2e") =? UINT64_MAX) ||
  negb (find_npos p (chars "%2E%2E") =? UINT64_MAX) ||
  negb (find_npos p (chars "%2e.") =? UINT64_MAX) ||
  negb (find_npos p (chars ".%2e") =? UINT64_MAX).

(** ** The vector scanners find what the scalar scanner finds *)

(** The first candidate that is confirmed, from offset [off] on. *)
Fixpoint first_confirmed (data : bytes) (off : Z) (l : list bool) : option Z :=
  match l with
  | [] => None
  | b :: l => if b && confirm data off then Some off else first_confirmed data (off + 1) l
  end.

Lemma candidates_spec fuel data i (k : nat) l :
  (length l <= fuel)%nat -> (k + length l <= 64)%nat ->
  candidates fuel data i (2 ^ Z.of_nat k * bits_val l) = first_confirmed data (i + Z.of_nat k) l.
Proof.
  revert fuel k. induction l as [|b l IH]; intros fuel k Hf Hk; cbn [length] in *.
  { cbn [bits_val first_confirmed]. rewrite Z.mul_0_r. by destruct fuel. }
  rewrite mask_split. cbn [first_confirmed]. destruct b; cbn [andb].
  - destruct fuel as [|fuel]; [lia|]. cbn [candidates].
    pose proof (bits_val_nonneg l). pose proof (Z.pow_pos_nonneg 2 (Z.of_nat k)).
    rewrite (proj2 (Z.eqb_neq _ 0)) by lia. rewrite ctz_spec by lia.
    destruct (confirm data (i + Z.of_nat k)); [done|].
    rewrite clear_lowest, IH by lia. f_equal. lia.
  - rewrite IH by lia. f_equal. lia.
Qed.

(** The same, with four bits per lane. *)
Fixpoint first_confirmed4 (data : bytes) (i k : Z) (l : list bool) : option Z :=
  match l with
  | [] => None
  | b :: l =>
      if b && confirm data (i + k / 4) then Some (i + k / 4) else first_confirmed4 data i (k + 1) l
  end.

Lemma candidates_neon_spec fuel data i (k : nat) l :
  (length l <= fuel)%nat -> (k + length l <= 64)%nat ->
  candidates_neon fuel data i (2 ^ Z.of_nat k * bits_val l) = first_confirmed4 data i (Z.of_nat k) l.
Proof.
  revert fuel k. induction l as [|b l IH]; intros fuel k Hf Hk; cbn [length] in *.
  { cbn [bits_val first_confirmed4]. rewrite Z.mul_0_r. by destruct fuel. }
  rewrite mask_split. cbn [first_confirmed4].
  destruct b; cbn [andb]; [|rewrite IH by lia; f_equal; lia].
  destruct fuel as [|fuel]; [lia|]. cbn [candidates_neon].
  pose proof (bits_val_nonneg l). pose proof (Z.pow_pos_nonneg 2 (Z.of_nat k)).
  rewrite (proj2 (Z.eqb_neq _ 0)) by lia. rewrite ctz_spec by lia.
  rewrite Z.shiftr_div_pow2 by lia. change (2 ^ 2) with 4.
  destruct (confirm data (i + Z.of_nat k / 4)); [done|].
  rewrite clear_lowest, IH by lia. f_equal. lia.
Qed.

Definition is_cr (b : Z) : bool := b =? CR.

Lemma movemask_bits chunk : movemask chunk = bits_val (map is_cr chunk).
Proof. induction chunk as [|b chunk IH]; cbn -[Z.mul]; [done|]. by rewrite IH. Qed.

Lemma nibblemask_bits chunk :
  nibblemask chunk = bits_val (concat (map (fun b => replicate 4 (is_cr b)) chunk)).
Proof.
  induction chunk as [|b chunk IH]; [done|].
  cbn [nibblemask map concat]. rewrite IH.
  change (replicate 4 (is_cr b)) with [is_cr b; is_cr b; is_cr b; is_cr b]. cbn [app bits_val].
  unfold is_cr at 2 3 4 5. destruct (b =? CR); lia.
Qed.

Lemma first_confirmed4_spec data i (j : Z) chunk :
  0 <= j ->
  first_confirmed4 data i (4 * j) (concat (map (fun b => replicate 4 (is_cr b)) chunk)) =
  first_confirmed data (i + j) (map is_cr chunk).
Proof.
  revert j. induction chunk as [|b chunk IH]; intros j Hj; [done|].
  cbn [map concat replicate app first_confirmed4 first_confirmed].
  assert (4 * j / 4 = j /\ (4 * j + 1) / 4 = j /\ (4 * j + 1 + 1) / 4 = j /\ (4 * j + 1 + 1 + 1) / 4 = j)
    as (-> & -> & -> & ->) by (split_and!; Z.div_mod_to_equations; lia).
  destruct (is_cr b && confirm data (i + j)); [done|].
  replace (4 * j + 1 + 1 + 1 + 1) with (4 * (j + 1)) by lia. rewrite IH by lia. f_equal. lia.
Qed.

Lemma scan_step data i a rest :
  0 <= i -> zdrop i data = a :: rest ->
  scan_scalar (a :: rest) i = if is_cr a && confirm data i then Some i else scan_scalar rest (i + 1).
Proof.
  intros Hi E.
  assert (forall j, 0 <= j -> at_ data (i + j) = at_ (a :: rest) j) as Hat.
  { intros j Hj. unfold at_. rewrite <- E. unfold zdrop. rewrite nth_lookup, nth_lookup, lookup_drop.
    do 2 f_equal. lia. }
  assert (zlen data = i + zlen (a :: rest)) as Hlen.
  { rewrite <- E. unfold zlen, zdrop. rewrite length_drop.
    assert (length (drop (Z.to_nat i) data) = length (a :: rest)) as H by (unfold zdrop in E; by rewrite E).
    rewrite length_drop in H. cbn in H. lia. }
  unfold confirm. rewrite Hlen, !Hat by lia. unfold is_cr.
  destruct rest as [|b [|c [|d rest]]]; cbn -[Z.add]; unfold zlen; cbn [length].
  1-3: rewrite (proj2 (Z.ltb_ge _ _)) by lia; rewrite andb_false_r; done.
  rewrite (proj2 (Z.ltb_lt _ _)) by lia. cbn [andb].
  unfold at_. change (Z.to_nat 1) with 1%nat. change (Z.to_nat 2) with 2%nat. change (Z.to_nat 3) with 3%nat.
  cbn [nth]. by destruct (a =? CR), (b =? LF), (c =? CR), (d =? LF).
Qed.

Lemma scan_window (w : nat) data i :
  0 <= i -> i + Z.of_nat w <= zlen data ->
  scan_scalar (zdrop i data) i =
  match first_confirmed data i (map is_cr (ztake (Z.of_nat w) (zdrop i data))) with
  | Some r => Some r
  | None => scan_scalar (zdrop (i + Z.of_nat w) data) (i + Z.of_nat w)
  end.
Proof.
  revert i. induction w as [|w IH]; intros i Hi Hw; [by rewrite Z.add_0_r|].
  destruct (zdrop i data) as [|a rest] eqn:E.
  { exfalso. assert (zlen (zdrop i data) = 0) as H by (by rewrite E). rewrite zlen_zdrop in H; lia. }
  assert (zdrop (i + 1) data = rest) as E' by (rewrite <- zdrop_zdrop, E by lia; done).
  rewrite (scan_step data) by done.
  assert (ztake (Z.of_nat (S w)) (a :: rest) = a :: ztake (Z.of_nat w) rest) as ->
    by (unfold ztake; by rewrite !Nat2Z.id).
  cbn [map first_confirmed]. destruct (is_cr a && confirm data i); [done|].
  rewrite <- E', IH by lia. by replace (i + 1 + Z.of_nat w) with (i + Z.of_nat (S w)) by lia.
Qed.

Lemma length_window w (data : bytes) i :
  0 <= i -> 0 <= w -> i + w <= zlen data -> length (ztake w (zdrop i data)) = Z.to_nat w.
Proof. intros. unfold ztake, zdrop, zlen in *. rewrite length_take, length_drop. lia. Qed.

Lemma scan_vector_spec fuel w data i :
  0 < w <= 63 -> 0 <= i -> zlen data - i < Z.of_nat fuel ->
  scan_vector fuel w data i = scan_scalar (zdrop i data) i.
Proof.
  intros Hw. revert i. induction fuel as [|fuel IH]; intros i Hi Hf.
  { rewrite zdrop_all by lia. done. }
  cbn [scan_vector]. destruct (Z.leb_spec (i + w) (zlen data)); [|done].
  rewrite (scan_window (Z.to_nat w)), Z2Nat.id by lia. rewrite movemask_bits.
  rewrite <- (Z.mul_1_l (bits_val _)). change 1 with (2 ^ Z.of_nat 0) at 1.
  rewrite candidates_spec by (rewrite length_map, length_window; lia).
  rewrite Z.add_0_r. destruct (first_confirmed _ _ _); [done|]. apply IH; lia.
Qed.

Lemma scan_neon_spec fuel data i :
  0 <= i -> zlen data - i < Z.of_nat fuel -> scan_neon fuel data i = scan_scalar (zdrop i data) i.
Proof.
  revert i. induction fuel as [|fuel IH]; intros i Hi Hf.
  { rewrite zdrop_all by lia. done. }
  cbn [scan_neon]. destruct (Z.leb_spec (i + 16) (zlen data)); [|done].
  rewrite (scan_window 16) by lia. change (Z.of_nat 16) with 16. rewrite nibblemask_bits.
  rewrite <- (Z.mul_1_l (bits_val _)). change 1 with (2 ^ Z.of_nat 0) at 1.
  assert (length (concat (map (fun b => replicate 4 (is_cr b)) (ztake 16 (zdrop i data)))) = 64%nat) as Hl.
  { transitivity (4 * length (ztake 16 (zdrop i data)))%nat; [|rewrite length_window; lia].
    clear. induction (ztake 16 (zdrop i data)) as [|b l IH]; [done|]. cbn in *. lia. }
  rewrite candidates_neon_spec by (rewrite Hl; lia).
  pose proof (first_confirmed4_spec data i 0 (ztake 16 (zdrop i data)) ltac:(lia)) as E.
  rewrite Z.mul_0_r, Z.add_0_r in E. change (Z.of_nat 0) with 0. rewrite E.
  destruct (first_confirmed _ _ _); [done|]. apply IH; lia.
Qed.

(** The AVX2, SSE2 and NEON bodies of [find_header_end] return the same offset as
    the portable loop on every input. *)
Theorem find_header_end_simd_equiv data :
  find_header_end_avx2 data = find_header_end data /\
  find_header_end_sse2 data = find_header_end data /\
  find_header_end_neon data = find_header_end data.
Proof.
  unfold find_header_end, find_header_end_avx2, find_header_end_sse2, find_header_end_neon.
  destruct (zlen data <? 4); [done|].
  rewrite !scan_vector_spec, scan_neon_spec by (unfold zlen; lia). done.
Qed.
