(* ===== verification/HttpViews.v ===== *)
(** * The string views of a parsed request: [http/request.hpp], [http/parser.cpp], [qbuem_stack.cpp]

    The fields of a [Request] are views into the receive buffer, and the server erases the
    request from that buffer before the handlers read them.  A view is a place in the buffer;
    [parse_views] computes the views [HttpParser::parse] leaves in the request, and
    [inplace_views] is what they show after [std::string::erase] has moved the rest of the
    buffer to its front in the same storage, as libstdc++ does. *)

From S2P Require Import Prelude Text HttpParser.
#[local] Open Scope Z_scope.

(** ** Views *)

Record view := mkView { place : Z; size : Z }.

(** A default [std::string_view]. *)
Definition no_view : view := mkView 0 0.

(** [data.substr(pos, n)] as a view of [data]. *)
Definition sub_view (data : bytes) (pos n : Z) : view := mkView pos (zlen (substr data pos n)).

(** What a view of the storage [s] shows. *)
Definition shows (s : bytes) (v : view) : bytes := substr s (place v) (size v).

(** The views of a request and of its parser; the body is [None] when it is a view of the
    parser's own [chunk_body_]. *)
Record Views := mkViews {
  path_view : view;
  query_view : view;
  body_view : option view;
  header_views : list (view * view);
  key_view : view;
}.

Definition new_views : Views := mkViews no_view no_view (Some no_view) [] no_view.

Definition set_path_view (data : bytes) (start n : Z) (v : Views) : Views :=
  let raw := substr data start n in
  match find raw [0x3F] 0 with
  | None => mkViews (mkView start (zlen raw)) no_view (body_view v) (header_views v) (key_view v)
  | Some q =>
      mkViews (mkView start (zlen (substr raw 0 q))) (mkView (start + (q + 1)) (zlen (substr raw (q + 1) (zlen raw))))
        (body_view v) (header_views v) (key_view v)
  end.

Definition set_key_view (k : view) (v : Views) : Views :=
  mkViews (path_view v) (query_view v) (body_view v) (header_views v) k.

Definition set_body_view (b : option view) (v : Views) : Views :=
  mkViews (path_view v) (query_view v) b (header_views v) (key_view v).

Definition add_header_view (key value : view) (v : Views) : Views :=
  if zlen (header_views v) <? kMaxInlineHeaders
  then mkViews (path_view v) (query_view v) (body_view v) (header_views v ++ [(key, value)]) (key_view v)
  else v.

(** The views a turn of phase 1 stores. *)
Definition view_turn (data : bytes) (pos start : Z) (p : HttpParser) (v : Views) : Views :=
  let c := at_ data pos in
  match state_ p with
  | SPath => if c =? SP then set_path_view data start (pos - start) v else v
  | SHeaderKey => if c =? 0x3A then set_key_view (sub_view data start (pos - start)) v else v
  | SHeaderValue => if c =? LF then add_header_view (key_view v) (sub_view data start (u64 (pos - start - 1))) v else v
  | _ => v
  end.

(** The views of phase 1, turn by turn with [head_loop]. *)
Fixpoint head_views (fuel : nat) (data : bytes) (pos start : Z) (p : HttpParser) (req : Request) (v : Views) : Views :=
  match fuel with
  | O => v
  | S fuel =>
      if (pos <? zlen data) && in_head (state_ p) then
        let v' := view_turn data pos start p v in
        match head_turn data pos start p req with
        | Go pos start p req => head_views fuel data pos start p req v'
        | Fail _ _ => v
        end
      else v
  end.

(** The views [parse] leaves when a fresh parser is given the whole buffer, as the server does. *)
Definition parse_views (data : bytes) : Views :=
  let v := head_views (S (length data)) data 0 0 new_parser new_request new_views in
  match head_loop (S (length data)) data 0 0 new_parser new_request with
  | Go _ start p _ =>
      match state_ p with
      | SBody => set_body_view (Some (sub_view data start (body_length_ p))) v
      | SChunkSize | SChunkData | SChunkDataEnd => set_body_view None v
      | _ => v
      end
  | Fail _ _ => v
  end.

(** The request as read through its views of the storage [s]. *)
Definition read_views (s : bytes) (v : Views) (req : Request) : Request :=
  mkRequest (method_ req) (shows s (path_view v)) (shows s (query_view v))
    (match body_view v with Some b => shows s b | None => body_ req end)
    (map (fun kv => (shows s (fst kv), shows s (snd kv))) (header_views v)).

(** ** [ctx->buf.erase(0, n)] *)

(** The storage of the string afterwards: the rest is moved to the front, a null character
    ends it, and the bytes behind are as they were. *)
Definition erased (s : bytes) (n : Z) : bytes :=
  if n =? 0 then s else zdrop n s ++ 0 :: zdrop (zlen s - n + 1) s.

(** The request the handlers read, once [n] bytes of the buffer it was parsed from are erased. *)
Definition inplace_views (buf : bytes) (n : Z) (req : Request) : Request :=
  read_views (erased buf n) (parse_views buf) req.

(** ** The views show the request *)

(** No view but an empty one begins at the first byte of the buffer, which the method has. *)
Definition behind (v : view) : Prop := 1 <= place v \/ size v = 0.

Definition all_behind (v : Views) : Prop :=
  behind (path_view v) /\ behind (query_view v) /\ (forall b, body_view v = Some b -> behind b) /\
  Forall (fun kv => behind (fst kv) /\ behind (snd kv)) (header_views v) /\ behind (key_view v).

Record reads_as (data : bytes) (start : Z) (p : HttpParser) (req : Request) (v : Views) : Prop := {
  ra_start : 0 <= start /\ (state_ p = SMethod \/ 1 <= start);
  ra_read : read_views data v req = req;
  ra_key : shows data (key_view v) = current_header_key_ p;
  ra_behind : all_behind v;
}.

Lemma substr_take s pos n : 0 <= pos -> substr s pos n = ztake n (zdrop pos s).
Proof.
  intros Hp. unfold substr. destruct (Z.le_gt_cases n (zlen s - pos)); [by rewrite Z.min_l by lia|].
  assert (zlen (zdrop pos s) <= Z.max 0 (zlen s - pos)) as Hl by (unfold zlen, zdrop in *; rewrite length_drop; lia).
  rewrite Z.min_r by lia. destruct (Z.le_gt_cases pos (zlen s)); [by rewrite !ztake_all by lia|].
  rewrite zdrop_all by lia. unfold ztake. by rewrite !take_nil.
Qed.

Lemma shows_empty s v : size v = 0 -> shows s v = [].
Proof. intros E. unfold shows, substr, ztake. rewrite E. by replace (Z.to_nat _) with 0%nat by lia. Qed.

Lemma shows_prefix s pos x rest : 0 <= pos -> zdrop pos s = x ++ rest -> shows s (mkView pos (zlen x)) = x.
Proof. intros Hp E. unfold shows. cbn [place size]. rewrite substr_take, E by done. by apply ztake_app. Qed.

Lemma shows_sub s pos n : 0 <= pos -> shows s (sub_view s pos n) = substr s pos n.
Proof.
  intros Hp. apply (shows_prefix _ _ _ (zdrop n (zdrop pos s))); [done|]. by rewrite substr_take, ztake_zdrop.
Qed.

(** A view of a view. *)
Lemma shows_inner s start n o k : 0 <= start -> 0 <= o ->
  let x := substr (substr s start n) o k in shows s (mkView (start + o) (zlen x)) = x.
Proof.
  intros Hs Ho x. set (raw := substr s start n) in x.
  assert (zdrop start s = raw ++ zdrop n (zdrop start s)) as E by (unfold raw; by rewrite substr_take, ztake_zdrop).
  destruct (Z.le_gt_cases o (zlen raw)) as [Hle|Hgt].
  - apply (shows_prefix _ _ _ (zdrop k (zdrop o raw) ++ zdrop n (zdrop start s))); [lia|].
    rewrite <- (zdrop_zdrop o start), E, zdrop_app_le, app_assoc by lia. unfold x.
    by rewrite (substr_take raw), ztake_zdrop, <- E.
  - assert (x = []) as -> by (unfold x; rewrite substr_take, zdrop_all by lia; unfold ztake; by rewrite take_nil).
    by apply shows_empty.
Qed.

Lemma read_path data start n v req : 0 <= start -> read_views data v req = req ->
  read_views data (set_path_view data start n v) (set_path (substr data start n) req) = set_path (substr data start n) req.
Proof.
  intros Hs E. unfold set_path_view, set_path. set (raw := substr data start n).
  rewrite <- E. unfold read_views. destruct (find raw [0x3F] 0) as [q|] eqn:Eq; cbn; f_equal.
  - pose proof (shows_inner data start n 0 q Hs) as H. rewrite Z.add_0_r in H. apply H. lia.
  - apply shows_inner; [done|]. rewrite find_0 in Eq. pose proof (find_at_spec [0x3F] raw 0) as H. rewrite Eq in H.
    destruct H as (a & b & _ & -> & _). zlia.
  - by destruct (body_view v).
  - by apply shows_sub.
  - by apply shows_empty.
  - by destruct (body_view v).
Qed.

Lemma read_header data k x v req : read_views data v req = req ->
  read_views data (add_header_view k x v) (add_header (shows data k) (shows data x) req) = add_header (shows data k) (shows data x) req.
Proof.
  intros E. unfold add_header_view, add_header. destruct req as [m pa q b hs]. unfold read_views in E. injection E as E1 E2 E3 E4.
  cbn [headers_flat_ method_ path_ query_string_ body_] in *.
  assert (zlen hs = zlen (header_views v)) as -> by (rewrite <- E4; unfold zlen; by rewrite length_map).
  destruct (_ <? _); unfold read_views; cbn; [rewrite map_app|]; cbn; congruence.
Qed.

Lemma behind_path data start n v : 1 <= start -> all_behind v -> all_behind (set_path_view data start n v).
Proof.
  intros Hs (_ & _ & Hb & Hh & Hk). unfold set_path_view. set (raw := substr data start n).
  destruct (find raw [0x3F] 0) as [q|] eqn:Eq; unfold all_behind, behind, no_view; cbn [path_view query_view body_view header_views key_view place size].
  - rewrite find_0 in Eq. pose proof (find_at_spec [0x3F] raw 0) as H. rewrite Eq in H. destruct H as (a & b & _ & -> & _).
    split_and!; try done; left; zlia.
  - split_and!; try done; [by left|by right].
Qed.

Lemma behind_header k x v : behind k -> behind x -> all_behind v -> all_behind (add_header_view k x v).
Proof.
  intros Hk Hx H. unfold add_header_view. destruct (_ <? _); [|done]. destruct H as (H1 & H2 & H3 & H4 & H5).
  split_and!; try done. apply Forall_app. split; [done|]. by apply Forall_singleton.
Qed.

(** Only the views and the parser's header key matter. *)
Lemma reads_as_same data start p p' req v start' : reads_as data start p req v ->
  current_header_key_ p' = current_header_key_ p -> 1 <= start' \/ (start' = start /\ (state_ p' = state_ p \/ 1 <= start)) -> reads_as data start' p' req v.
Proof.
  intros [[Hs0 Hs] Hr Hk Hb] Ek Hst. constructor; [|done|by rewrite Ek|done].
  destruct Hst as [?|[-> [E|?]]]; [split; [lia|by right]|by rewrite E|split; [lia|by right]].
Qed.

Lemma reads_as_end data pos start p req v pos' start' p' req' : 0 <= pos -> 1 <= start ->
  reads_as data start p req v -> end_of_headers pos start p req = Go pos' start' p' req' -> reads_as data start' p' req' v.
Proof.
  intros Hp Hs H E. unfold end_of_headers in E.
  destruct (_ && _); [done|]. destruct (decide _); [|destruct (negb _); [destruct (from_chars _ _); [|done]; destruct (_ <? _); [done|]|]];
    injection E as <- <- <- <-; apply (reads_as_same _ _ _ _ _ _ _ H); try done; [left; lia|left; lia|by right; split; [|right]].
Qed.

(** A turn of phase 1 keeps the views in step with the request. *)
Lemma reads_as_turn data pos start p req v pos' start' p' req' :
  0 <= pos -> reads_as data start p req v -> head_turn data pos start p req = Go pos' start' p' req' ->
  reads_as data start' p' req' (view_turn data pos start p v).
Proof.
  intros Hp H E. unfold head_turn in E. unfold view_turn. pose proof H as [[Hs0 Hs] Hr Hk Hb].
  destruct (state_ p) eqn:Est; try (injection E as <- <- <- <-; done).
  all: try (destruct Hs as [Hs|Hs]; [discriminate Hs|]).
  - destruct (_ =? SP); injection E as <- <- <- <-; [|done].
    constructor; [split; [lia|right; lia]|by rewrite <- Hr at 2|done|done].
  - destruct (_ =? SP); injection E as <- <- <- <-; [|done].
    constructor; [split; [lia|right; lia]|by apply read_path| |by apply behind_path].
    transitivity (shows data (key_view v)); [|done]. unfold set_path_view. by destruct (find _ _ _).
  - destruct (_ =? LF); injection E as <- <- <- <-; [|done]. apply (reads_as_same _ _ _ _ _ _ _ H); [done|left; lia].
  - destruct (_ =? 0x3A).
    + assert (forall start', 1 <= start' -> reads_as data start' (set_state SHeaderValue (set_key (substr data start (pos - start)) p)) req
        (set_key_view (sub_view data start (pos - start)) v)) as Hset.
      { intros s' Hs'. constructor; [split; [lia|by right]|done|by apply shows_sub|].
        destruct Hb as (? & ? & ? & ? & _). split_and!; try done. by left. }
      destruct (_ && _); injection E as <- <- <- <-; apply Hset; lia.
    + destruct (_ =? LF); [by apply (reads_as_end data pos start p req v pos' start' p' req')|].
      destruct (_ <? _); [done|]. injection E as <- <- <- <-. by apply (reads_as_same _ _ _ _ _ _ _ H); [|right; split; [|left]].
  - destruct (_ =? CR) eqn:Ecr.
    { apply Z.eqb_eq in Ecr. rewrite Ecr. by injection E as <- <- <- <-. }
    destruct (_ =? LF); [|by injection E as <- <- <- <-].
    destruct (existsb _ _); [done|]. destruct (_ <? _); [done|]. injection E as <- <- <- <-.
    rewrite <- Hk. rewrite <- (shows_sub data start (u64 (pos - start - 1))) by lia.
    constructor; [split; [lia|right; lia]|by apply read_header| |].
    + cbn. unfold add_header_view. by destruct (_ <? _).
    + apply behind_header; [apply Hb|by left|done].
Qed.

Lemma head_turn_pos data pos start p req pos' start' p' req' :
  0 <= pos -> head_turn data pos start p req = Go pos' start' p' req' -> 0 <= pos'.
Proof.
  intros Hp E. unfold head_turn, end_of_headers in E. cbn zeta in E.
  repeat (case_match; try (injection E; intros; subst; lia); try discriminate E).
Qed.

Lemma reads_as_loop fuel data pos start p req v pos' start' p' req' :
  0 <= pos -> reads_as data start p req v -> head_loop fuel data pos start p req = Go pos' start' p' req' ->
  reads_as data start' p' req' (head_views fuel data pos start p req v).
Proof.
  revert pos start p req v. induction fuel as [|fuel IH]; intros pos start p req v Hp H E; cbn [head_loop head_views] in *;
    [by injection E as <- <- <- <-|].
  destruct (_ && _); [|by injection E as <- <- <- <-].
  destruct (head_turn data pos start p req) as [pos1 start1 p1 req1|] eqn:Et; [|done].
  apply IH; [by eapply head_turn_pos|by eapply reads_as_turn|done].
Qed.

Lemma chunk_loop_body fuel data pos p req n p' req' :
  chunk_loop fuel data pos p req = (n, p', req') -> req' = set_body (body_ req') req.
Proof.
  assert (req = set_body (body_ req) req) as Hid by by destruct req.
  revert pos p. induction fuel as [|fuel IH]; intros pos p E; cbn [chunk_loop] in E; [by injection E as <- <- <-|].
  cbn zeta in E. repeat (case_match; try (by injection E as <- <- <-); try (by apply IH in E)).
Qed.

(** The views of a complete request show it. *)
Lemma parse_views_read data n p req : parse data new_parser new_request = (Some n, p, req) -> state_ p = SComplete ->
  read_views data (parse_views data) req = req /\ all_behind (parse_views data).
Proof.
  unfold parse, parse_views. change (set_header_bytes 0 new_parser) with new_parser. change (negb _ && _) with true. cbn iota.
  destruct (find_header_end data); [|by destruct (_ <? _); intros [= <- <- <-]].
  assert (reads_as data 0 new_parser new_request new_views) as H0.
  { constructor; [by split; [|left]|unfold read_views; cbn [new_views path_view query_view body_view header_views map]; by rewrite shows_empty|by apply shows_empty|].
    split_and!; try (by right); [|done]. intros b [= <-]. by right. }
  destruct (head_loop _ _ _ _ _ _) as [pos start q rq|] eqn:E; [|done].
  apply (reads_as_loop _ data 0 0 new_parser new_request new_views) in E as [[Hs0 Hs] Hr Hk Hb]; [|lia|done].
  set (v := head_views _ _ _ _ _ _ _) in *. clearbody v. destruct Hb as (H1 & H2 & H3 & H4 & H5).
  assert (forall b, read_views data (set_body_view None v) (set_body b rq) = set_body b rq) as Hchunk.
  { intros b. destruct rq as [m pa qs bo hs]. injection Hr as E1 E2 E3 E4. unfold read_views, set_body. cbn in *. congruence. }
  destruct (state_ q) eqn:Eq; try (intros [= <- <- <-]; congruence);
    try (intros E; apply chunk_loop_body in E; intros _; rewrite E; by split).
  - set (avail := if start <? _ then _ else _). destruct (avail <? body_length_ q); intros [= <- <- <-] Hc; [congruence|].
    split; [|split_and!; try done; intros b [= <-]; left; cbn; by destruct Hs].
    destruct rq as [m pa qs bo hs]. injection Hr as E1 E2 E3 E4. unfold read_views, set_body. cbn in *. rewrite shows_sub by done. congruence.
  - intros [= <- <- <-] _. by split.
Qed.

(** ** Erasing the whole buffer *)

Lemma shows_erased data v : behind v -> shows (erased data (zlen data)) v = shows data v.
Proof.
  intros [Hp|Hz]; [|by rewrite !shows_empty]. unfold shows. rewrite !substr_take by lia. f_equal.
  unfold erased. destruct (_ =? 0); [done|]. rewrite (zdrop_all (zlen data) data) by lia.
  replace (zlen data - zlen data + 1) with 1 by lia.
  assert (place v = 1 + (place v - 1)) as -> by lia. rewrite <- !zdrop_zdrop by lia. done.
Qed.

(** When the request is all the buffer holds, the handlers read the request that was parsed. *)
Lemma inplace_whole data p req : parse data new_parser new_request = (Some (zlen data), p, req) -> state_ p = SComplete ->
  inplace_views data (zlen data) req = req.
Proof.
  intros E Hs. destruct (parse_views_read _ _ _ _ E Hs) as [Hr (H1 & H2 & H3 & H4 & _)].
  rewrite <- Hr at 2. unfold inplace_views, read_views. f_equal; try by apply shows_erased.
  - destruct (body_view _) as [b|]; [|done]. by apply shows_erased, H3.
  - apply map_ext_in. intros [k x] Hin. apply list_elem_of_In in Hin. eapply Forall_forall in H4 as [Hk Hx]; [|done].
    cbn [fst snd] in *. by rewrite !shows_erased.
Qed.

(** When another request follows in the buffer, it is moved under the views of the first. *)
Theorem views_show_next :
  let first := chars "GET /aaaa HTTP/1.1" ++ CRLFCRLF in
  let next := chars "GET /bb HTTP/1.1" ++ CRLFCRLF in
  exists p req, parse (first ++ next) new_parser new_request = (Some (zlen first), p, req) /\ state_ p = SComplete /\
    path_ req = chars "/aaaa" /\ path_ (inplace_views (first ++ next) (zlen first) req) = chars "/bb H".
Proof. vm_compute. eexists _, _. split_and!; reflexivity. Qed.
