(* ===== verification/HttpMessage.v ===== *)
(** * What the HTTP/1.1 parser makes of a message

    The wire form of a request and the theorems that relate it to [HttpParser]: a
    well-formed message is parsed to the request it stands for, bodies and positions
    stay within their bounds, and the inputs on which the parser departs from the
    protocol. *)

From S2P Require Import Prelude Text Codec HttpParser.

#[local] Arguments Z.add : simpl never.
#[local] Arguments Z.sub : simpl never.
#[local] Arguments zlen : simpl never.

(** ** The wire form *)

(** The request line: method, target and version. *)
Definition request_line (m target version : bytes) : bytes :=
  m ++ [SP] ++ target ++ [SP] ++ version ++ CRLF.

Definition header_line (h : bytes * bytes) : bytes := fst h ++ [0x3A; SP] ++ snd h ++ CRLF.

Definition head (m target version : bytes) (hs : list (bytes * bytes)) : bytes :=
  request_line m target version ++ concat (map header_line hs) ++ CRLF.

(** What the parser counts against [MAX_HEADER_SIZE]: a header name twice. *)
Definition header_cost (h : bytes * bytes) : Z := 2 * zlen (fst h) + zlen (snd h) + 4.

Definition headers_cost (hs : list (bytes * bytes)) : Z := foldr (fun h n => header_cost h + n) 0 hs.

Definition header_ok (h : bytes * bytes) : Prop :=
  Forall (fun c => c <> 0x3A /\ c <> LF) (fst h) /\ Forall (fun c => c <> CR /\ c <> LF) (snd h).

Record head_ok (m target version : bytes) (hs : list (bytes * bytes)) : Prop := {
  ok_method : Forall (fun c => c <> SP) m;
  ok_target : Forall (fun c => c <> SP) target;
  ok_version : Forall (fun c => c <> LF) version;
  ok_headers : Forall header_ok hs;
  ok_count : zlen hs <= kMaxInlineHeaders;
  ok_size : headers_cost hs + 1 <= MAX_HEADER_SIZE;
}.

(** ** Positions *)

(** Lists in right-nested form. *)
Ltac napp := repeat (progress (rewrite <- ?app_assoc; cbn [app])).

Lemma at_mid pre c rest : at_ (pre ++ c :: rest) (zlen pre) = c.
Proof. unfold at_, zlen. rewrite Nat2Z.id, app_nth2, Nat.sub_diag by lia. done. Qed.

Lemma substr_mid pre seg rest n :
  n = zlen seg -> substr (pre ++ seg ++ rest) (zlen pre) n = seg.
Proof.
  intros ->. unfold substr. rewrite zdrop_app by done. rewrite !zlen_app.
  pose proof (zlen_nonneg rest). rewrite Z.min_l by lia. by rewrite ztake_app.
Qed.

(** ** The header loop *)

Lemma head_turn_advance data pos start p req pos' start' p' req' :
  head_turn data pos start p req = Go pos' start' p' req' -> pos + 1 <= pos'.
Proof.
  unfold head_turn, end_of_headers. intros H.
  repeat case_match; simplify_eq; lia.
Qed.

Lemma head_loop_fuel n m data pos start p req :
  zlen data - pos < Z.of_nat n -> zlen data - pos < Z.of_nat m -> 
  head_loop n data pos start p req = head_loop m data pos start p req.
Proof.
  revert m pos start p req. induction n as [|n IH]; intros m pos start p req Hn Hm.
  - destruct m; [done|]. cbn. by rewrite (proj2 (Z.ltb_ge _ _)) by lia.
  - destruct m as [|m]; cbn.
    { by rewrite (proj2 (Z.ltb_ge _ _)) by lia. }
    destruct ((pos <? zlen data) && in_head (state_ p)); [|done].
    destruct (head_turn data pos start p req) as [pos' start' p' req'|] eqn:E; [|done].
    apply head_turn_advance in E. apply IH; lia.
Qed.

(** The loop run to its end. *)
Definition head_run (data : bytes) (pos start : Z) (p : HttpParser) (req : Request) : turn :=
  head_loop (S (length data)) data pos start p req.

Lemma head_run_turn data pos start p req pos' start' p' req' :
  0 <= pos < zlen data -> in_head (state_ p) = true ->
  head_turn data pos start p req = Go pos' start' p' req' ->
  head_run data pos start p req = head_run data pos' start' p' req'.
Proof.
  intros Hpos Hs E. unfold head_run at 1. cbn [head_loop].
  rewrite (proj2 (Z.ltb_lt _ _)), Hs, E by lia. cbn [andb].
  apply head_turn_advance in E. apply head_loop_fuel; unfold zlen in *; lia.
Qed.

Lemma head_run_stop data pos start p req :
  in_head (state_ p) = false -> head_run data pos start p req = Go pos start p req.
Proof. intros Hs. unfold head_run. cbn [head_loop]. by rewrite Hs, andb_false_r. Qed.

(** Characters that do not end the current token are passed over. *)
Lemma head_run_skip pre seg rest start p req :
  in_head (state_ p) = true ->
  (forall data pos, at_ data pos ∈ seg -> head_turn data pos start p req = Go (pos + 1) start p req) ->
  head_run (pre ++ seg ++ rest) (zlen pre) start p req =
  head_run (pre ++ seg ++ rest) (zlen pre + zlen seg) start p req.
Proof.
  intros Hs. revert pre. induction seg as [|c seg IH]; intros pre Ht; [by rewrite zlen_nil, Z.add_0_r|].
  pose proof (zlen_nonneg pre). pose proof (zlen_nonneg (seg ++ rest)).
  erewrite head_run_turn; [|rewrite zlen_app, <- app_comm_cons, zlen_cons; lia|done|].
  2: { apply Ht. cbn. rewrite at_mid. left. }
  replace (pre ++ (c :: seg) ++ rest) with ((pre ++ [c]) ++ seg ++ rest) by (by rewrite <- app_assoc).
  replace (zlen pre + 1) with (zlen (pre ++ [c])) by zlia.
  rewrite IH; [|intros data pos Hin; apply Ht; by right]. f_equal. zlia.
Qed.

(** A token up to its delimiter, in the states that read the request line. *)
Lemma run_token pre seg c rest p req s f :
  state_ p = s -> Forall (fun x => x <> c) seg ->
  (s = SMethod /\ c = SP /\ f = fun w r => (set_state SPath p, set_method (string_to_method w) r)) \/
  (s = SPath /\ c = SP /\ f = fun w r => (set_state SVersion p, set_path w r)) \/
  (s = SVersion /\ c = LF /\ f = fun _ r => (set_state SHeaderKey p, r)) ->
  let data := pre ++ seg ++ c :: rest in
  let pos := zlen pre + zlen seg + 1 in
  head_run data (zlen pre) (zlen pre) p req =
  head_run data pos pos (fst (f seg req)) (snd (f seg req)).
Proof.
  intros Hs Hc Hcase. pose proof (zlen_nonneg pre). pose proof (zlen_nonneg seg). pose proof (zlen_nonneg rest).
  assert (in_head (state_ p) = true) as Hin by (destruct Hcase as [(->&_)|[(->&_)|(->&_)]]; by rewrite Hs).
  cbn zeta. rewrite head_run_skip; [|done|].
  2: { intros data pos Hx. rewrite Forall_forall in Hc. apply Hc in Hx. unfold head_turn. rewrite Hs.
       destruct Hcase as [(->&->&_)|[(->&->&_)|(->&->&_)]]; by rewrite (proj2 (Z.eqb_neq _ _)) by done. }
  assert (at_ (pre ++ seg ++ c :: rest) (zlen pre + zlen seg) = c) as Hat.
  { rewrite app_assoc, <- zlen_app. apply at_mid. }
  eapply head_run_turn; [rewrite !zlen_app, zlen_cons; lia|done|]. unfold head_turn. rewrite Hs, Hat.
  replace (zlen pre + zlen seg - zlen pre) with (zlen seg) by lia.
  rewrite (substr_mid pre seg (c :: rest)) by done.
  by destruct Hcase as [(->&->&->)|[(->&->&->)|(->&->&->)]].
Qed.

Lemma run_request_line m target version rest p req :
  state_ p = SMethod -> Forall (fun c => c <> SP) m -> Forall (fun c => c <> SP) target ->
  Forall (fun c => c <> LF) version ->
  let line := request_line m target version in
  head_run (line ++ rest) 0 0 p req =
  head_run (line ++ rest) (zlen line) (zlen line) (set_state SHeaderKey p)
    (set_path target (set_method (string_to_method m) req)).
Proof.
  intros Hs Hm Ht Hv. unfold request_line, CRLF. cbn zeta.
  set (data := _ ++ rest).
  assert (data = [] ++ m ++ SP :: target ++ SP :: (version ++ [CR]) ++ LF :: rest) as E1.
  { subst data. by napp. }
  assert (data = (m ++ [SP]) ++ target ++ SP :: (version ++ [CR]) ++ LF :: rest) as E2.
  { rewrite E1. by napp. }
  assert (data = (m ++ SP :: target ++ [SP]) ++ (version ++ [CR]) ++ LF :: rest) as E3.
  { rewrite E1. by napp. }
  rewrite E1 at 1. change 0 with (zlen (@nil Z)). erewrite run_token by (done || by left). cbn [fst snd].
  rewrite <- E1. replace (zlen [] + zlen m + 1) with (zlen (m ++ [SP])) by zlia.
  rewrite E2 at 1. erewrite run_token by (done || by right; left). cbn [fst snd].
  rewrite <- E2. replace (zlen (m ++ [SP]) + zlen target + 1) with (zlen (m ++ SP :: target ++ [SP])) by zlia.
  rewrite E3 at 1. erewrite run_token; [|done| |by right; right].
  2: { apply Forall_app. split; [done|]. by constructor. }
  cbn [fst snd]. rewrite <- E3. f_equal; zlia.
Qed.

(** The name of a header, counted byte by byte. *)
Lemma run_key pre seg rest start p req :
  state_ p = SHeaderKey -> Forall (fun c => c <> 0x3A /\ c <> LF) seg ->
  header_bytes_ p + zlen seg <= MAX_HEADER_SIZE ->
  head_run (pre ++ seg ++ rest) (zlen pre) start p req =
  head_run (pre ++ seg ++ rest) (zlen pre + zlen seg) start
    (set_header_bytes (header_bytes_ p + zlen seg) p) req.
Proof.
  intros Hs Hc. revert pre p Hs. induction seg as [|c seg IH]; intros pre p Hs Hb.
  { rewrite zlen_nil, !Z.add_0_r. by destruct p. }
  apply Forall_cons in Hc as [[Hc1 Hc2] Hc]. specialize (IH Hc). rewrite zlen_cons in Hb.
  pose proof (zlen_nonneg pre). pose proof (zlen_nonneg seg). pose proof (zlen_nonneg rest).
  erewrite head_run_turn; [|rewrite zlen_app, <- app_comm_cons, zlen_cons, zlen_app; lia|by rewrite Hs|].
  2: { unfold head_turn. rewrite Hs. cbn [app]. rewrite at_mid.
       rewrite (proj2 (Z.eqb_neq c 0x3A)), (proj2 (Z.eqb_neq c LF)) by done. cbn [header_bytes_ set_header_bytes].
       rewrite (proj2 (Z.ltb_ge _ _)) by lia. reflexivity. }
  replace (pre ++ (c :: seg) ++ rest) with ((pre ++ [c]) ++ seg ++ rest) by (by napp).
  replace (zlen pre + 1) with (zlen (pre ++ [c])) by zlia.
  rewrite IH by (done || (cbn; lia)). cbn [header_bytes_ set_header_bytes].
  f_equal; [zlia|]. rewrite zlen_cons. unfold set_header_bytes. cbn. f_equal. lia.
Qed.

Definition at_key (n : Z) (p : HttpParser) : Prop :=
  state_ p = SHeaderKey /\ header_bytes_ p = n /\ headers_complete_ p = false /\ chunk_body_ p = [].

(** One header line. *)
Lemma run_header pre h rest p req n :
  at_key n p -> header_ok h -> 0 <= n -> n + header_cost h <= MAX_HEADER_SIZE ->
  zlen (headers_flat_ req) < kMaxInlineHeaders ->
  let data := pre ++ header_line h ++ rest in
  exists p', at_key (n + header_cost h) p' /\
  head_run data (zlen pre) (zlen pre) p req =
  head_run data (zlen pre + zlen (header_line h)) (zlen pre + zlen (header_line h)) p'
    (add_header (fst h) (snd h) req).
Proof.
  intros (Hs & Hn & Hhc & Hcb) [Hk Hv] Hn0 Hcost Hcnt. destruct h as [k v]. unfold header_cost, header_line in *.
  cbn [fst snd] in *. cbn zeta. pose proof (zlen_nonneg pre). pose proof (zlen_nonneg k).
  pose proof (zlen_nonneg v). pose proof (zlen_nonneg rest).
  set (data := pre ++ (k ++ _ ++ v ++ CRLF) ++ rest).
  assert (zlen data = zlen pre + zlen k + 2 + zlen v + 2 + zlen rest) as Hlen by (unfold data, CRLF; zlia).
  assert (data = pre ++ k ++ 0x3A :: SP :: v ++ CR :: LF :: rest) as E1 by (unfold data, CRLF; by napp).
  assert (data = (pre ++ k) ++ 0x3A :: SP :: v ++ CR :: LF :: rest) as E2 by (rewrite E1; by napp).
  assert (data = (pre ++ k ++ [0x3A]) ++ SP :: v ++ CR :: LF :: rest) as E2' by (rewrite E1; by napp).
  assert (data = (pre ++ k ++ [0x3A; SP]) ++ (v ++ [CR]) ++ LF :: rest) as E3 by (rewrite E1; by napp).
  assert (data = (pre ++ k ++ [0x3A; SP]) ++ v ++ CR :: LF :: rest) as E3' by (rewrite E1; by napp).
  assert (data = (pre ++ k ++ [0x3A; SP] ++ v ++ [CR]) ++ LF :: rest) as E4 by (rewrite E1; by napp).
  eexists. split.
  2: {
  rewrite E1 at 1. rewrite run_key by (done || lia). rewrite <- E1.
  (* the colon and the space after it *)
  erewrite head_run_turn; [|lia|by cbn; rewrite Hs|].
  2: { unfold head_turn. cbn [state_ set_header_bytes]. rewrite Hs.
       assert (at_ data (zlen pre + zlen k) = 0x3A) as -> by (rewrite E2, <- zlen_app; apply at_mid).
       assert (at_ data (zlen pre + zlen k + 1) = SP) as ->.
       { replace (zlen pre + zlen k + 1) with (zlen (pre ++ k ++ [0x3A])) by zlia.
         rewrite E2'. apply at_mid. }
       rewrite (proj2 (Z.ltb_lt _ _)) by lia.
       replace (zlen pre + zlen k - zlen pre) with (zlen k) by lia.
       rewrite E1, substr_mid by done. reflexivity. }
  (* the value and the carriage return *)
  replace (zlen pre + zlen k + 2) with (zlen (pre ++ k ++ [0x3A; SP])) by zlia.
  set (start := zlen (pre ++ k ++ [0x3A; SP])). rewrite E3 at 1. unfold start at 1.
  rewrite head_run_skip; [|done|].
  2: { intros d pos Hin. unfold head_turn. cbn [state_ set_state]. apply elem_of_app in Hin as [Hin|Hin].
       - rewrite Forall_forall in Hv. apply Hv in Hin as [Hx1 Hx2].
         by rewrite (proj2 (Z.eqb_neq _ CR)), (proj2 (Z.eqb_neq _ LF)) by done.
       - apply list_elem_of_singleton in Hin. by rewrite Hin. }
  rewrite <- E3. fold start.
  (* the line feed *)
  erewrite head_run_turn; [|unfold start; zlia|done|].
  2: { unfold head_turn. cbn [state_ set_state].
       assert (at_ data (start + zlen (v ++ [CR])) = LF) as ->.
       { replace (start + zlen (v ++ [CR])) with (zlen (pre ++ k ++ [0x3A; SP] ++ v ++ [CR])) by (unfold start; zlia).
         rewrite E4. apply at_mid. }
       change (LF =? CR) with false. change (LF =? LF) with true. cbn iota.
       assert (substr data start (u64 (start + zlen (v ++ [CR]) - start - 1)) = v) as ->.
       { rewrite E3'. apply substr_mid. rewrite zlen_app, zlen_cons, zlen_nil.
         replace (start + (zlen v + (0 + 1)) - start - 1) with (zlen v) by lia.
         apply wrap_small. rlia. }
       assert (existsb (fun ch => (ch =? CR) || (ch =? LF)) v = false) as ->.
       { apply not_true_iff_false. rewrite existsb_exists. intros (x & Hx & E).
         rewrite Forall_forall in Hv. apply list_elem_of_In, Hv in Hx as [Hx1 Hx2].
         apply orb_true_iff in E as [E|E]; apply Z.eqb_eq in E; done. }
       cbn [header_bytes_ set_header_bytes set_state set_key current_header_key_].
       rewrite (proj2 (Z.ltb_ge _ _)) by lia. reflexivity. }
  f_equal; unfold start, CRLF; zlia. }
  unfold at_key. cbn. split_and!; try done. lia.
Qed.

Lemma run_headers hs pre rest p req n :
  at_key n p -> Forall header_ok hs -> 0 <= n -> n + headers_cost hs <= MAX_HEADER_SIZE ->
  zlen (headers_flat_ req) + zlen hs <= kMaxInlineHeaders ->
  let data := pre ++ concat (map header_line hs) ++ rest in
  let pos := zlen pre + zlen (concat (map header_line hs)) in
  exists p', at_key (n + headers_cost hs) p' /\
  head_run data (zlen pre) (zlen pre) p req =
  head_run data pos pos p'
    (mkRequest (method_ req) (path_ req) (query_string_ req) (body_ req) (headers_flat_ req ++ hs)).
Proof.
  revert pre p req n. induction hs as [|h hs IH]; intros pre p req n Hk Hok Hn Hc Hcnt; cbn zeta.
  { exists p. cbn [map concat headers_cost foldr]. rewrite zlen_nil, !Z.add_0_r, app_nil_r.
    split; [done|]. by destruct req. }
  apply Forall_cons in Hok as [Hh Hok]. cbn [headers_cost foldr] in Hc. fold (headers_cost hs) in Hc.
  assert (0 <= headers_cost hs /\ 0 <= header_cost h) as [Hpos Hpos'].
  { unfold headers_cost, header_cost. pose proof (zlen_nonneg (fst h)). pose proof (zlen_nonneg (snd h)).
    split; [|lia]. clear. induction hs as [|[k v] hs IH]; cbn; [done|]. unfold header_cost. cbn.
    pose proof (zlen_nonneg k). pose proof (zlen_nonneg v). lia. }
  rewrite zlen_cons in Hcnt. pose proof (zlen_nonneg hs). cbn [map concat].
  set (tail := concat (map header_line hs)) in *.
  destruct (run_header pre h (tail ++ rest) p req n Hk Hh Hn ltac:(lia) ltac:(lia)) as (p1 & Hk1 & E1).
  replace (pre ++ (header_line h ++ tail) ++ rest) with (pre ++ header_line h ++ tail ++ rest) by (by napp).
  rewrite E1.
  assert (pre ++ header_line h ++ tail ++ rest = (pre ++ header_line h) ++ tail ++ rest) as -> by (by napp).
  rewrite <- zlen_app.
  destruct (IH (pre ++ header_line h) p1 (add_header (fst h) (snd h) req) _ Hk1 Hok) as (p2 & Hk2 & E2).
  { lia. }
  { lia. }
  { unfold add_header. rewrite (proj2 (Z.ltb_lt _ _)) by lia. cbn [headers_flat_]. zlia. }
  exists p2. split.
  { cbn [headers_cost foldr]. fold (headers_cost hs).
    by replace (n + (header_cost h + headers_cost hs)) with (n + header_cost h + headers_cost hs) by lia. }
  rewrite E2. unfold add_header. rewrite (proj2 (Z.ltb_lt _ _)) by lia.
  cbn [headers_flat_ method_ path_ query_string_ body_]. rewrite <- app_assoc. cbn [app]. destruct h as [k v].
  f_equal; (by napp) || zlia.
Qed.

Lemma scan_finds pre rest i : scan_scalar (pre ++ CRLFCRLF ++ rest) i <> None.
Proof.
  revert i. induction pre as [|a pre IH]; intros i; [discriminate|].
  assert (4 <= length (pre ++ CRLFCRLF ++ rest))%nat as Hl by (rewrite !length_app; cbn; lia).
  cbn [app]. destruct (pre ++ CRLFCRLF ++ rest) as [|b [|c [|d t]]]; cbn in Hl; try lia.
  specialize (IH (i + 1)). cbn [scan_scalar] in *.
  by destruct ((a =? CR) && (b =? LF) && (c =? CR) && (d =? LF)).
Qed.

Lemma end_of_headers_pos pos start p req pos' start' p' req' :
  end_of_headers pos start p req = Go pos' start' p' req' -> pos' = pos + 1.
Proof. unfold end_of_headers. intros H. repeat case_match; by simplify_eq. Qed.

Lemma find_absent s c : Forall (fun x => x <> c) s -> find s [c] 0 = None.
Proof.
  intros Hs. unfold find. rewrite (proj2 (Z.ltb_ge _ _)) by apply zlen_nonneg. rewrite zdrop_0.
  generalize 0. induction Hs as [|x s Hx Hs IH]; intros i; cbn; [done|].
  rewrite (proj2 (Z.eqb_neq x c)) by done. apply IH.
Qed.

Lemma find_at_present s c rest i :
  Forall (fun x => x <> c) s -> find_at [c] (s ++ [c] ++ rest) i = Some (i + zlen s).
Proof.
  intros Hs. revert i. induction Hs as [|x s Hx Hs IH]; intros i; cbn.
  - by rewrite Z.eqb_refl, zlen_nil, Z.add_0_r.
  - rewrite (proj2 (Z.eqb_neq x c)) by done. cbn. rewrite IH, zlen_cons. f_equal. lia.
Qed.

Lemma find_present s c rest :
  Forall (fun x => x <> c) s -> find (s ++ [c] ++ rest) [c] 0 = Some (zlen s).
Proof.
  intros Hs. unfold find. rewrite (proj2 (Z.ltb_ge _ _)) by apply zlen_nonneg. rewrite zdrop_0.
  by rewrite find_at_present.
Qed.

Lemma set_path_split target path query req :
  Forall (fun c => c <> 0x3F) path ->
  (target = path /\ query = [] \/ target = path ++ [0x3F] ++ query) ->
  set_path target req = mkRequest (method_ req) path query (body_ req) (headers_flat_ req).
Proof.
  intros Hp [[-> ->]| ->]; unfold set_path; [by rewrite find_absent|].
  rewrite find_present by done. pose proof (zlen_nonneg path). pose proof (zlen_nonneg query).
  f_equal; unfold substr.
  - rewrite zdrop_0, Z.min_l by zlia. by rewrite ztake_app.
  - replace (path ++ [0x3F] ++ query) with ((path ++ [0x3F]) ++ query) by (by napp).
    rewrite zdrop_app by zlia. apply ztake_all. zlia.
Qed.

(** The empty line after the headers. *)
Lemma run_blank pre tail p req n :
  at_key n p -> n + 1 <= MAX_HEADER_SIZE ->
  let data := pre ++ CRLF ++ tail in
  head_run data (zlen pre) (zlen pre) p req =
  match end_of_headers (zlen pre + 1) (zlen pre) (set_header_bytes (n + 1) p) req with
  | Go pos start p req => head_run data pos start p req
  | Fail p req => Fail p req
  end.
Proof.
  intros (Hs & Hb & _ & _) Hn. cbn zeta. unfold CRLF.
  pose proof (zlen_nonneg pre). pose proof (zlen_nonneg tail).
  assert (zlen (pre ++ [CR; LF] ++ tail) = zlen pre + 2 + zlen tail) as Hd by zlia.
  assert (pre ++ [CR; LF] ++ tail = (pre ++ [CR]) ++ LF :: tail) as E by (by napp).
  erewrite head_run_turn; [|lia|by rewrite Hs|].
  2: { unfold head_turn. rewrite Hs.
       assert (at_ (pre ++ [CR; LF] ++ tail) (zlen pre) = CR) as -> by apply (at_mid pre CR (LF :: tail)).
       change (CR =? 0x3A) with false. change (CR =? LF) with false. cbn iota. cbn [header_bytes_ set_header_bytes].
       rewrite (proj2 (Z.ltb_ge _ _)) by lia. reflexivity. }
  unfold head_run at 1. cbn [head_loop state_ set_header_bytes]. rewrite Hs.
  rewrite (proj2 (Z.ltb_lt _ _)) by lia. cbn [andb in_head]. unfold head_turn at 1.
  cbn [state_ set_header_bytes]. rewrite Hs.
  assert (at_ (pre ++ [CR; LF] ++ tail) (zlen pre + 1) = LF) as ->.
  { replace (zlen pre + 1) with (zlen (pre ++ [CR])) by zlia. rewrite E. apply at_mid. }
  change (LF =? 0x3A) with false. change (LF =? LF) with true. cbn iota. rewrite Hb.
  destruct (end_of_headers _ _ _ _) as [pos start p' req'|] eqn:Ee; [|done].
  apply end_of_headers_pos in Ee. apply head_loop_fuel; unfold zlen in *; lia.
Qed.

(** The header section of a message is read to its last byte. *)
Lemma run_head m target path query version hs tail :
  head_ok m target version hs -> Forall (fun c => c <> 0x3F) path ->
  (target = path /\ query = [] \/ target = path ++ [0x3F] ++ query) ->
  let h := head m target version hs in
  let req := mkRequest (string_to_method m) path query [] hs in
  exists p, state_ p = SHeaderKey /\ chunk_body_ p = [] /\
  head_run (h ++ tail) 0 0 (set_header_bytes 0 new_parser) new_request =
  match end_of_headers (zlen h - 1) (zlen h - 2) p req with
  | Go pos start p req => head_run (h ++ tail) pos start p req
  | Fail p req => Fail p req
  end.
Proof.
  intros [Hm Ht Hv Hh Hc Hs] Hp Hq h req.
  set (line := request_line m target version). set (hl := concat (map header_line hs)).
  assert (h ++ tail = line ++ hl ++ CRLF ++ tail) as E by (unfold h, head; by napp).
  assert (zlen h = zlen line + zlen hl + 2) as Hlen by (unfold h, head, CRLF; fold line hl; zlia).
  rewrite E. unfold line. rewrite run_request_line by done. fold line.
  rewrite (set_path_split target path query) by done.
  destruct (run_headers hs line (CRLF ++ tail)
    (set_state SHeaderKey (set_header_bytes 0 new_parser))
    (mkRequest (string_to_method m) path query [] []) 0) as (p1 & Hk1 & E1); try done; try lia.
  cbn [method_ path_ query_string_ body_ headers_flat_ app set_method new_request] in E1 |- *. fold hl in E1.
  rewrite E1. clear E1. pose proof Hk1 as (Hs1 & Hb1 & _ & Hc1).
  exists (set_header_bytes (0 + headers_cost hs + 1) p1). split_and!; try done.
  rewrite app_assoc, <- zlen_app, (run_blank _ _ _ _ (0 + headers_cost hs)) by (done || lia).
  rewrite zlen_app. by replace (zlen h - 1) with (zlen line + zlen hl + 1) by lia;
    replace (zlen h - 2) with (zlen line + zlen hl) by lia.
Qed.

Lemma head_terminated m target version hs tail :
  find_header_end (head m target version hs ++ tail) <> None.
Proof.
  unfold find_header_end.
  assert (exists pre, head m target version hs ++ tail = pre ++ CRLFCRLF ++ tail) as (pre & ->).
  { unfold head, request_line, CRLF, CRLFCRLF. destruct hs as [|h hs _] using rev_ind.
    - exists (m ++ [SP] ++ target ++ [SP] ++ version). cbn [map concat]. by napp.
    - exists (m ++ [SP] ++ target ++ [SP] ++ version ++ [CR; LF] ++ concat (map header_line hs) ++
        fst h ++ [0x3A; SP] ++ snd h). rewrite map_app, concat_app. cbn [map concat].
      unfold header_line at 2, CRLF. by napp. }
  unfold CRLFCRLF at 1. rewrite (proj2 (Z.ltb_ge _ _)) by zlia. apply scan_finds.
Qed.

(** ** Round trips *)

(** A body of length [len], or none, as the headers announce it. *)
Definition announces (hs : list (bytes * bytes)) (len : Z) : Prop :=
  lookup_header hs (chars "Transfer-Encoding") = [] /\
  (lookup_header hs (chars "Content-Length") = [] /\ len = 0 \/
   from_chars UINT64_MAX (lookup_header hs (chars "Content-Length")) = Some len /\ len <= MAX_BODY_SIZE).

(** After the header section the parser waits until the body is there. *)
Lemma parse_message m target path query version hs len tail :
  head_ok m target version hs -> Forall (fun c => c <> 0x3F) path ->
  (target = path /\ query = [] \/ target = path ++ [0x3F] ++ query) -> announces hs len ->
  let h := head m target version hs in
  exists p, headers_complete_ p = true /\
  if zlen tail <? len
  then state_ p = SBody /\
       parse (h ++ tail) new_parser new_request = (Some (zlen h), p, mkRequest (string_to_method m) path query [] hs)
  else state_ p = SComplete /\
       parse (h ++ tail) new_parser new_request =
       (Some (zlen h + len), p, mkRequest (string_to_method m) path query (ztake len tail) hs).
Proof.
  intros Hok Hp Hq [Hte Hcl] h.
  destruct (run_head m target path query version hs tail Hok Hp Hq) as (p & Hs & Hcb & E).
  pose proof (head_terminated m target version hs tail) as Hend. fold h in E, Hend.
  unfold parse. change (negb (headers_complete_ new_parser) && in_head (state_ new_parser)) with true. cbn iota.
  destruct (find_header_end (h ++ tail)); [|done]. fold (head_run (h ++ tail) 0 0 (set_header_bytes 0 new_parser) new_request).
  rewrite E. unfold end_of_headers, header. cbn [headers_flat_].
  rewrite Hte, zlen_nil, decide_False by done. cbn [Z.eqb negb andb].
  pose proof (zlen_nonneg h). pose proof (zlen_nonneg tail). pose proof (zlen_app h tail) as Hd.
  destruct Hcl as [[Hcl ->]|[Hcl Hmax]].
  - rewrite Hcl, zlen_nil. cbn [Z.eqb negb]. rewrite head_run_stop by done. cbn [state_ set_state].
    rewrite (proj2 (Z.ltb_ge _ _)) by lia. eexists. split; [|split; [|f_equal; f_equal; f_equal; lia]]; done.
  - assert (zlen (lookup_header hs (chars "Content-Length")) <> 0) as Hne
      by (intros Hz%zlen_nil_inv; rewrite Hz in Hcl; done).
    rewrite (proj2 (Z.eqb_neq _ 0)) by done. cbn [negb].
    rewrite Hcl. cbn [body_length_]. rewrite (proj2 (Z.ltb_ge MAX_BODY_SIZE _)) by lia.
    rewrite head_run_stop by done. cbn [state_ set_state body_length_].
    replace (zlen h - 1 + 1) with (zlen h) by lia.
    assert ((if zlen h <? zlen (h ++ tail) then zlen (h ++ tail) - zlen h else 0) = zlen tail) as ->.
    { rewrite Hd. destruct (Z.ltb_spec (zlen h) (zlen h + zlen tail)); lia. }
    destruct (zlen tail <? len) eqn:El; [eexists; split; [|split; [|reflexivity]]; done|]. apply Z.ltb_ge in El.
    unfold substr. rewrite zdrop_app, Hd, Z.min_l by (done || lia).
    eexists. split; [|split; [|reflexivity]]; done.
Qed.

(** C7.  A well-formed request with no body or a [Content-Length] body, followed by
    anything, is parsed to exactly that request: method, path, query, headers in order
    and body, and exactly its bytes are consumed. *)
Theorem http_roundtrip m target path query version hs body rest :
  head_ok m target version hs -> Forall (fun c => c <> 0x3F) path ->
  (target = path /\ query = [] \/ target = path ++ [0x3F] ++ query) ->
  lookup_header hs (chars "Transfer-Encoding") = [] ->
  (lookup_header hs (chars "Content-Length") = [] /\ body = [] \/
   from_chars UINT64_MAX (lookup_header hs (chars "Content-Length")) = Some (zlen body) /\ zlen body <= MAX_BODY_SIZE) ->
  let message := head m target version hs ++ body in
  exists p, state_ p = SComplete /\
  parse (message ++ rest) new_parser new_request =
  (Some (zlen message), p, mkRequest (string_to_method m) path query body hs).
Proof.
  intros Hok Hp Hq Hte Hcl message.
  assert (announces hs (zlen body)) as Ha.
  { split; [done|]. destruct Hcl as [[Hcl ->]|Hcl]; [by left|by right]. }
  destruct (parse_message m target path query version hs (zlen body) (body ++ rest) Hok Hp Hq Ha) as (p & _ & H).
  pose proof (zlen_nonneg rest). rewrite zlen_app, (proj2 (Z.ltb_ge _ _)) in H by lia. destruct H as [Hs E].
  exists p. split; [done|]. unfold message. by rewrite <- app_assoc, E, ztake_app, <- zlen_app.
Qed.

(** *** Chunked bodies *)

(** A chunk on the wire: size token, extension, data. *)
Record chunk := mkChunk { tok : bytes; ext : bytes; piece : bytes }.

Definition size_line (tok ext : bytes) : bytes := tok ++ ext ++ CRLF.

Definition chunk_wire (c : chunk) : bytes := size_line (tok c) (ext c) ++ piece c ++ CRLF.

Definition size_line_ok (tok ext : bytes) : Prop :=
  Forall (fun x => x <> CR /\ x <> 0x3B) tok /\ Forall (fun x => x <> CR) ext /\
  (ext = [] \/ exists e, ext = 0x3B :: e).

Definition chunk_ok (c : chunk) : Prop :=
  size_line_ok (tok c) (ext c) /\ chunk_size (tok c) 0 = inl (zlen (piece c)) /\ piece c <> [].

Lemma find_crlf pre seg rest :
  Forall (fun x => x <> CR) seg ->
  find (pre ++ seg ++ CRLF ++ rest) CRLF (zlen pre) = Some (zlen pre + zlen seg).
Proof.
  intros Hs. unfold find. pose proof (zlen_nonneg (seg ++ CRLF ++ rest)) as Hn.
  rewrite zlen_app, (proj2 (Z.ltb_ge _ _)), zdrop_app by (done || lia). clear Hn.
  generalize (zlen pre). induction Hs as [|x seg Hx Hs IH]; intros i.
  - rewrite zlen_nil, Z.add_0_r. done.
  - cbn. rewrite (proj2 (Z.eqb_neq x CR)) by done. cbn. rewrite IH, zlen_cons. f_equal. lia.
Qed.

(** A size line is read as its token's value. *)
Lemma size_token t e :
  size_line_ok t e ->
  match find (t ++ e) [0x3B] 0 with None => t ++ e | Some k => substr (t ++ e) 0 k end = t.
Proof.
  intros (Ht & _ & He).
  assert (Forall (fun x => x <> 0x3B) t) as Ht' by (eapply Forall_impl; [exact Ht|]; naive_solver).
  destruct He as [->|[e' ->]].
  - by rewrite app_nil_r, find_absent.
  - change (0x3B :: e') with ([0x3B] ++ e'). rewrite find_present by done. unfold substr.
    rewrite zdrop_0. pose proof (zlen_nonneg t). rewrite Z.min_l by zlia. by rewrite ztake_app.
Qed.

Lemma size_line_no_cr t e : size_line_ok t e -> Forall (fun x => x <> CR) (t ++ e).
Proof.
  intros (Ht & He & _). apply Forall_app. split; [|done].
  eapply Forall_impl; [exact Ht|]. naive_solver.
Qed.

Lemma chunk_size_turn pre t e r fuel p req n :
  state_ p = SChunkSize -> size_line_ok t e -> chunk_size t 0 = inl n ->
  let data := pre ++ size_line t e ++ r in
  let pos := zlen (pre ++ size_line t e) in
  let p' := set_chunk n (chunk_body_ p) p in
  chunk_loop (S fuel) data (zlen pre) p req =
  if n =? 0 then
    match find data CRLF pos with
    | None => (Some pos, p', req)
    | Some k => (Some (k + 2), set_state SComplete p', set_body (chunk_body_ p) req)
    end
  else if MAX_BODY_SIZE <? zlen (chunk_body_ p) + n then (None, fail 413 p', req)
  else chunk_loop fuel data pos (set_state SChunkData p') req.
Proof.
  intros Hs Hl Hn. unfold size_line. cbn zeta. cbn [chunk_loop]. rewrite Hs.
  assert (pre ++ (t ++ e ++ CRLF) ++ r = pre ++ (t ++ e) ++ CRLF ++ r) as -> by (by napp).
  rewrite find_crlf by (by apply size_line_no_cr).
  replace (zlen pre + zlen (t ++ e) - zlen pre) with (zlen (t ++ e)) by lia.
  rewrite substr_mid, size_token, Hn by done.
  by replace (zlen (pre ++ t ++ e ++ CRLF)) with (zlen pre + zlen (t ++ e) + 2) by (unfold CRLF; zlia).
Qed.

(** The data of a chunk and the line break after it. *)
Lemma chunk_data_turns pre d r fuel p req :
  state_ p = SChunkData -> chunk_remaining_ p = zlen d ->
  chunk_loop (S (S fuel)) (pre ++ d ++ CRLF ++ r) (zlen pre) p req =
  chunk_loop fuel (pre ++ d ++ CRLF ++ r) (zlen (pre ++ d ++ CRLF))
    (set_state SChunkSize (set_chunk 0 (chunk_body_ p ++ d) p)) req.
Proof.
  intros Hs Hr. unfold CRLF. set (data := pre ++ _). pose proof (zlen_nonneg pre). pose proof (zlen_nonneg d).
  pose proof (zlen_nonneg r). assert (zlen data = zlen pre + zlen d + 2 + zlen r) as Hd by (unfold data; zlia).
  cbn [chunk_loop]. rewrite Hs, Hr, (proj2 (Z.ltb_lt (zlen pre) (zlen data))) by lia.
  rewrite (proj2 (Z.ltb_ge (zlen data - zlen pre) (zlen d))) by lia. cbn [state_ set_state].
  rewrite (proj2 (Z.ltb_ge (zlen data) (zlen pre + zlen d + 2))) by lia.
  assert (at_ data (zlen pre + zlen d) = CR) as ->.
  { rewrite <- zlen_app. unfold data. rewrite app_assoc. apply (at_mid (pre ++ d) CR (LF :: r)). }
  assert (at_ data (zlen pre + zlen d + 1) = LF) as ->.
  { replace (zlen pre + zlen d + 1) with (zlen (pre ++ d ++ [CR])) by zlia.
    assert (data = (pre ++ d ++ [CR]) ++ LF :: r) as -> by (unfold data; by napp). apply at_mid. }
  cbn [Z.eqb Pos.eqb negb orb]. assert (substr data (zlen pre) (zlen d) = d) as -> by (by apply substr_mid).
  by replace (zlen pre + zlen d + 2) with (zlen (pre ++ d ++ [CR; LF])) by zlia.
Qed.

Lemma chunk_loop_chunks cs t0 e0 pre rest fuel p req :
  Forall chunk_ok cs -> size_line_ok t0 e0 -> chunk_size t0 0 = inl 0 ->
  state_ p = SChunkSize -> zlen (chunk_body_ p) + zlen (concat (map piece cs)) <= MAX_BODY_SIZE ->
  (3 * length cs < fuel)%nat ->
  let wire := concat (map chunk_wire cs) ++ size_line t0 e0 ++ CRLF in
  exists p', state_ p' = SComplete /\
  chunk_loop fuel (pre ++ wire ++ rest) (zlen pre) p req =
  (Some (zlen pre + zlen wire), p', set_body (chunk_body_ p ++ concat (map piece cs)) req).
Proof.
  intros Hcs Hl Hz. revert pre fuel p.
  induction Hcs as [|c cs (Hc1 & Hc2 & Hc3) Hcs IH]; intros pre fuel p Hs Hm Hf; cbn zeta;
    cbn [map concat app length] in *.
  - destruct fuel as [|fuel]; [lia|]. rewrite <- !app_assoc, (chunk_size_turn _ _ _ _ _ _ _ 0) by done.
    cbn [Z.eqb]. rewrite app_assoc.
    pose proof (find_crlf (pre ++ size_line t0 e0) [] rest) as F. cbn [app] in F. rewrite F by done.
    rewrite app_nil_r. eexists. split; [|f_equal; f_equal; f_equal; unfold CRLF; zlia]. done.
  - destruct fuel as [|[|[|fuel]]]; [lia..|]. set (tail := size_line t0 e0 ++ CRLF) in *.
    assert (zlen (piece c) <> 0) as Hp by (intros E%zlen_nil_inv; done).
    pose proof (zlen_nonneg (concat (map piece cs))). rewrite zlen_app in Hm.
    set (more := concat (map chunk_wire cs)) in *. unfold chunk_wire.
    assert (pre ++ (((size_line (tok c) (ext c) ++ piece c ++ CRLF) ++ more) ++ tail) ++ rest =
      pre ++ size_line (tok c) (ext c) ++ piece c ++ CRLF ++ more ++ tail ++ rest) as -> by (by napp).
    rewrite (chunk_size_turn _ _ _ _ _ _ _ (zlen (piece c))) by done.
    rewrite (proj2 (Z.eqb_neq _ 0)), (proj2 (Z.ltb_ge _ _)) by lia.
    rewrite app_assoc. rewrite chunk_data_turns by done.
    set (pre' := (pre ++ size_line (tok c) (ext c)) ++ piece c ++ CRLF).
    assert ((pre ++ size_line (tok c) (ext c)) ++ piece c ++ CRLF ++ more ++ tail ++ rest =
      pre' ++ (more ++ tail) ++ rest) as -> by (unfold pre'; by napp).
    match goal with |- context [chunk_loop fuel _ _ ?q _] => set (p2 := q) end.
    assert (chunk_body_ p2 = chunk_body_ p ++ piece c) as Hb by done.
    destruct (IH pre' fuel p2) as (p' & Hp' & ->).
    + done.
    + rewrite Hb. zlia.
    + lia.
    + exists p'. split; [done|]. rewrite Hb, <- app_assoc.
      f_equal. f_equal. f_equal. unfold pre'. zlia.
Qed.

(** C34.  A well-formed request with a chunked body, followed by anything, is parsed to
    the request whose body is the concatenation of the chunks, whatever hex spelling
    and extensions their size lines have, and exactly its bytes are consumed. *)
Theorem http_chunked_roundtrip m target path query version hs cs t0 e0 rest :
  head_ok m target version hs -> Forall (fun c => c <> 0x3F) path ->
  (target = path /\ query = [] \/ target = path ++ [0x3F] ++ query) ->
  lookup_header hs (chars "Transfer-Encoding") = chars "chunked" ->
  lookup_header hs (chars "Content-Length") = [] ->
  Forall chunk_ok cs -> zlen (concat (map piece cs)) <= MAX_BODY_SIZE ->
  size_line_ok t0 e0 -> chunk_size t0 0 = inl 0 ->
  let message := head m target version hs ++
    concat (map chunk_wire cs) ++ size_line t0 e0 ++ CRLF in
  exists p, state_ p = SComplete /\
  parse (message ++ rest) new_parser new_request =
  (Some (zlen message), p, mkRequest (string_to_method m) path query (concat (map piece cs)) hs).
Proof.
  intros Hok Hp Hq Hte Hcl Hcs Hm Hl Hz message. set (wire := concat (map chunk_wire cs) ++ _) in *.
  destruct (run_head m target path query version hs (wire ++ rest) Hok Hp Hq) as (p & Hs & Hcb & E).
  unfold message. rewrite <- app_assoc. unfold parse.
  pose proof (head_terminated m target version hs (wire ++ rest)) as Hend.
  set (h := head m target version hs) in *. set (data := h ++ wire ++ rest) in *.
  change (negb (headers_complete_ new_parser) && in_head (state_ new_parser)) with true. cbn iota.
  destruct (find_header_end data); [|done]. fold (head_run data 0 0 (set_header_bytes 0 new_parser) new_request).
  rewrite E. unfold end_of_headers, header. cbn [headers_flat_].
  rewrite Hte, Hcl, zlen_nil, decide_True by done. cbn [Z.eqb negb andb]. rewrite andb_false_r.
  rewrite head_run_stop by done. cbn [state_]. replace (zlen h - 1 + 1) with (zlen h) by lia.
  set (p1 := mkParser SChunkSize _ _ _ _ _ _ _ _).
  set (req := mkRequest _ _ _ _ _).
  destruct (chunk_loop_chunks cs t0 e0 h rest (S (length data)) p1 req) as (p' & Hp' & E'); try done.
  - cbn. rewrite Hcb, zlen_nil. lia.
  - assert (length cs * 3 <= length wire)%nat; [|unfold data; rewrite !length_app; lia].
    unfold wire. rewrite length_app. clear -Hcs. induction Hcs as [|c cs _ _ IH]; [cbn; lia|].
    assert (3 <= length (chunk_wire c))%nat as Hw.
    { unfold chunk_wire, size_line, CRLF. rewrite !length_app. cbn [length]. lia. }
    cbn [map concat length]. rewrite (length_app (chunk_wire c)). lia.
  - fold wire in E'. fold data in E'. rewrite E'. exists p'. split; [done|].
    unfold p1 at 1. cbn [chunk_body_]. rewrite Hcb. f_equal. f_equal. f_equal. unfold data. zlia.
Qed.

(** ** Bounds *)

Lemma starts_with_len s pat : starts_with s pat = true -> zlen pat <= zlen s.
Proof.
  revert s. induction pat as [|c pat IH]; intros s; [intros _; zlia|]. destruct s as [|x s]; [done|].
  cbn. intros [_ H]%andb_true_iff. apply IH in H. zlia.
Qed.

Lemma find_bounds s pat pos k :
  0 <= pos -> find s pat pos = Some k -> pos <= k /\ k + zlen pat <= zlen s.
Proof.
  intros Hp. unfold find. destruct (Z.ltb_spec (zlen s) pos); [done|].
  assert (forall l i, find_at pat l i = Some k -> i <= k /\ k + zlen pat <= i + zlen l) as Hf.
  { induction l as [|x l IH]; intros i; cbn.
    - destruct (starts_with [] pat) eqn:E; [|done]. apply starts_with_len in E. intros [= <-]. zlia.
    - destruct (starts_with (x :: l) pat) eqn:E; [apply starts_with_len in E; intros [= <-]; zlia|].
      intros H'%IH. zlia. }
  intros H'%Hf. rewrite zlen_zdrop in H' by lia. lia.
Qed.

Lemma zlen_substr s pos n : zlen (substr s pos n) <= Z.max 0 n.
Proof.
  unfold substr, ztake, zlen. rewrite length_take. lia.
Qed.

(** What holds of the header loop of a fresh parser. *)
Record head_inv (data : bytes) (pos start : Z) (p : HttpParser) (req : Request) : Prop := {
  hi_pos : 0 <= start <= pos /\ pos <= zlen data;
  hi_body : body_ req = [] /\ chunk_body_ p = [];
  hi_headers : zlen (headers_flat_ req) <= kMaxInlineHeaders;
  hi_state : match state_ p with
             | SBody => start = pos /\ 0 <= body_length_ p <= MAX_BODY_SIZE
             | SChunkData | SChunkDataEnd | SError => False
             | _ => True
             end;
}.

Definition rejected (p : HttpParser) : Prop :=
  state_ p = SError /\ (error_status_ p = 400 \/ error_status_ p = 413).

Lemma add_header_limit k v req :
  zlen (headers_flat_ req) <= kMaxInlineHeaders -> zlen (headers_flat_ (add_header k v req)) <= kMaxInlineHeaders.
Proof.
  intros H. unfold add_header. destruct (Z.ltb_spec (zlen (headers_flat_ req)) kMaxInlineHeaders); [|done].
  cbn. rewrite zlen_app, zlen_cons, zlen_nil. lia.
Qed.

Lemma end_of_headers_inv data pos start p req :
  head_inv data pos start p req -> pos < zlen data ->
  match end_of_headers pos start p req with
  | Go pos start p req => head_inv data pos start p req
  | Fail p _ => rejected p
  end.
Proof.
  intros [Hp [Hb Hcb] Hh _] Hlt. unfold end_of_headers. repeat case_match; simplify_eq; try (by unfold rejected; auto).
  - constructor; cbn; try done; lia.
  - match goal with H : from_chars _ _ = Some ?n |- _ => pose proof (from_chars_nonneg _ _ _ H) end.
    match goal with H : (_ <? _) = false |- _ => apply Z.ltb_ge in H end.
    constructor; cbn; try done; lia.
  - constructor; cbn; try done; lia.
Qed.

Lemma head_turn_inv data pos start p req :
  head_inv data pos start p req -> pos < zlen data -> in_head (state_ p) = true ->
  match head_turn data pos start p req with
  | Go pos start p req => head_inv data pos start p req
  | Fail p _ => rejected p
  end.
Proof.
  intros I Hlt Hin. pose proof I as [Hp [Hb Hcb] Hh Hs]. unfold head_turn.
  destruct (state_ p) eqn:Est; try done.
  - destruct (_ =? _); constructor; cbn; rewrite ?Est; done || lia.
  - destruct (_ =? _); constructor; cbn; rewrite ?Est; try (done || lia);
      unfold set_path; case_match; done.
  - destruct (_ =? _); constructor; cbn; rewrite ?Est; done || lia.
  - destruct (_ =? 0x3A).
    + destruct (Z.ltb_spec (pos + 1) (zlen data)); cbn [andb].
      * destruct (_ =? SP); constructor; cbn; try (done || lia).
      * constructor; cbn; done || lia.
    + destruct (_ =? LF); [by apply end_of_headers_inv|]. cbn [header_bytes_ set_header_bytes].
      destruct (_ <? _); [by unfold rejected; auto|]. constructor; cbn; rewrite ?Est; done || lia.
  - destruct (_ =? CR); [constructor; cbn; rewrite ?Est; done || lia|].
    destruct (_ =? LF); [|constructor; cbn; rewrite ?Est; done || lia].
    destruct (existsb _ _); [by unfold rejected; auto|]. cbn [header_bytes_ set_header_bytes].
    destruct (_ <? _); [by unfold rejected; auto|]. constructor; cbn; try (done || lia).
    + unfold add_header. by destruct (_ <? _).
    + by apply add_header_limit.
Qed.

Lemma head_loop_inv fuel data pos start p req :
  head_inv data pos start p req ->
  match head_loop fuel data pos start p req with
  | Go pos start p req => head_inv data pos start p req
  | Fail p _ => rejected p
  end.
Proof.
  revert pos start p req. induction fuel as [|fuel IH]; intros pos start p req I; cbn; [done|].
  destruct (Z.ltb_spec pos (zlen data)); [|done]. destruct (in_head (state_ p)) eqn:Hin; [|done]. cbn [andb].
  pose proof (head_turn_inv data pos start p req I ltac:(done) Hin).
  destruct (head_turn data pos start p req); [by apply IH|done].
Qed.

(** What holds of the chunk loop. *)
Record chunk_inv (data : bytes) (pos : Z) (p : HttpParser) (req : Request) : Prop := {
  ci_pos : 0 <= pos <= zlen data;
  ci_headers : zlen (headers_flat_ req) <= kMaxInlineHeaders;
  ci_body : zlen (body_ req) <= MAX_BODY_SIZE;
  ci_acc : zlen (chunk_body_ p) <= MAX_BODY_SIZE;
  ci_rest : state_ p = SChunkData -> 0 <= chunk_remaining_ p /\
              zlen (chunk_body_ p) + chunk_remaining_ p <= MAX_BODY_SIZE;
}.

Lemma chunk_size_nonneg t acc n : 0 <= acc -> chunk_size t acc = inl n -> 0 <= n.
Proof.
  revert acc. induction t as [|c t IH]; intros acc Ha; cbn; [by intros [= <-]|].
  destruct (Z.ltb_spec (hex_digit c) 0); [done|]. destruct (_ <? _); [done|]. apply IH. lia.
Qed.

Lemma chunk_size_error t acc status :
  chunk_size t acc = inr status -> status = 400 \/ status = 413.
Proof.
  revert acc. induction t as [|c t IH]; intros acc; cbn; [done|].
  destruct (_ <? 0); [intros [= <-]; auto|]. destruct (_ <? _); [intros [= <-]; auto|]. apply IH.
Qed.

Lemma chunk_loop_inv fuel data pos p req :
  chunk_inv data pos p req -> rejected p \/ state_ p <> SError ->
  match chunk_loop fuel data pos p req with
  | (Some n, p, req) => 0 <= n <= zlen data /\ zlen (headers_flat_ req) <= kMaxInlineHeaders /\
      zlen (body_ req) <= MAX_BODY_SIZE
  | (None, p, _) => rejected p
  end.
Proof.
  revert pos p. induction fuel as [|fuel IH]; intros pos p [Hp Hh Hb Ha Hr] Hrej; cbn [chunk_loop]; [done|].
  assert (match (if zlen data <? pos + 2 then (Some pos, p, req)
                 else if negb (at_ data pos =? CR) || negb (at_ data (pos + 1) =? LF)
                 then (None, fail 400 p, req)
                 else chunk_loop fuel data (pos + 2) (set_state SChunkSize p) req) with
          | (Some n, p, req) => 0 <= n <= zlen data /\ zlen (headers_flat_ req) <= kMaxInlineHeaders /\
              zlen (body_ req) <= MAX_BODY_SIZE
          | (None, p, _) => rejected p
          end) as Hend.
  { destruct (Z.ltb_spec (zlen data) (pos + 2)); [done|].
    destruct (_ || _); [unfold rejected; cbn; by auto|].
    apply IH; [|by right]. constructor; cbn; try done; lia. }
  destruct (state_ p) eqn:Est; try exact Hend; clear Hend.
  - (* ChunkSize *)
    destruct (find data CRLF pos) as [eol|] eqn:Ef; [|done].
    apply find_bounds in Ef; [|lia]. change (zlen CRLF) with 2 in Ef.
    destruct (chunk_size _ 0) as [n|status] eqn:Ec.
    2: { split; [done|]. by apply chunk_size_error in Ec. }
    apply chunk_size_nonneg in Ec; [|lia].
    destruct (Z.eqb_spec n 0).
    + destruct (find data CRLF (eol + 2)) as [k|] eqn:Ek; [|split_and!; done || lia].
      apply find_bounds in Ek; [|lia]. change (zlen CRLF) with 2 in Ek. cbn. split_and!; done || lia.
    + cbn [chunk_body_ set_chunk]. destruct (Z.ltb_spec MAX_BODY_SIZE (zlen (chunk_body_ p) + n)).
      { unfold rejected. cbn. auto. }
      apply IH; [|by right]. constructor; cbn; try done; lia.
  - (* ChunkData *)
    set (avail := if pos <? zlen data then zlen data - pos else 0).
    assert (avail = zlen data - pos) as Hav by (unfold avail; destruct (Z.ltb_spec pos (zlen data)); lia).
    clearbody avail. destruct (Z.ltb_spec avail (chunk_remaining_ p)); [split_and!; done || lia|].
    specialize (Hr eq_refl). apply IH; [|by right]. constructor; cbn; try done; [lia|].
    pose proof (zlen_substr data pos (chunk_remaining_ p)). rewrite zlen_app. lia.
  - done.
  - by destruct Hrej.
Qed.

(** On every input a fresh parser consumes no more bytes than it was given,
    accepts no body over 1 MiB and keeps at most 32 headers; when it refuses, the
    status is 400 or 413. *)
Theorem parse_bounds data :
  match parse data new_parser new_request with
  | (Some n, p, req) => 0 <= n <= zlen data /\ zlen (headers_flat_ req) <= kMaxInlineHeaders /\
      zlen (body_ req) <= MAX_BODY_SIZE
  | (None, p, _) => state_ p = SError /\ (error_status_ p = 400 \/ error_status_ p = 413)
  end.
Proof.
  unfold parse. pose proof (zlen_nonneg data).
  change (negb (headers_complete_ new_parser) && in_head (state_ new_parser)) with true. cbn iota.
  destruct (find_header_end data).
  2: { destruct (_ <? _); cbn; auto. split_and!; done || lia. }
  pose proof (head_loop_inv (S (length data)) data 0 0 (set_header_bytes 0 new_parser) new_request) as Hi.
  destruct (head_loop _ _ _ _ _ _) as [pos start p req|p req].
  2: { apply Hi. by constructor. }
  destruct Hi as [Hp [Hb Hcb] Hh Hs]; [by constructor|].
  destruct (state_ p) eqn:Est; try done; try (rewrite Hb; split_and!; done || lia).
  - destruct Hs as [-> Hl].
    assert ((if pos <? zlen data then zlen data - pos else 0) = zlen data - pos) as ->
      by (destruct (Z.ltb_spec pos (zlen data)); lia).
    destruct (Z.ltb_spec (zlen data - pos) (body_length_ p)); [rewrite Hb; split_and!; done || lia|].
    cbn. pose proof (zlen_substr data pos (body_length_ p)). split_and!; try done; lia.
  - apply chunk_loop_inv; [|right; by rewrite Est]. constructor; try done; [lia|by rewrite Hb|by rewrite Hcb|].
    by rewrite Est.
Qed.

(** ** Departures from the protocol *)

(** A parser resumed inside a chunk passes over all the data it is given: the
    bytes are counted as consumed and none of them reaches the body. *)
Theorem resumed_chunk_data_lost data p req :
  state_ p = SChunkData -> headers_complete_ p = true -> 0 < chunk_remaining_ p ->
  exists p', parse data p req = (Some (zlen data), p', req) /\ state_ p' = SChunkData /\
    chunk_body_ p' = chunk_body_ p /\ chunk_remaining_ p' = chunk_remaining_ p.
Proof.
  intros Hs Hh Hr. unfold parse. rewrite Hh. cbn [negb andb].
  assert (forall fuel pos, 0 <= pos <= zlen data -> zlen data - pos < Z.of_nat fuel ->
    head_loop fuel data pos 0 p req = Go (zlen data) 0 p req) as Hloop.
  { induction fuel as [|fuel IH]; intros pos Hp Hf; [lia|]. cbn [head_loop]. rewrite Hs. cbn [in_head].
    destruct (Z.ltb_spec pos (zlen data)); cbn [andb]; [|by replace pos with (zlen data) by lia].
    unfold head_turn. rewrite Hs. apply IH; lia. }
  pose proof (zlen_nonneg data). rewrite Hloop by (unfold zlen in *; lia). rewrite Hs. cbn [chunk_loop].
  rewrite Hs, Z.ltb_irrefl, (proj2 (Z.ltb_lt 0 _)) by done.
  eexists. split; [by rewrite Z.add_0_r|]. cbn. rewrite Z.sub_0_r, Hs. split_and!; try done.
  unfold substr. rewrite Z.min_l by lia. apply app_nil_r.
Qed.

(** [Http1Codec] drops a request whose header section arrives in two pieces: the
    first piece is reported incomplete and taken from the buffer, and neither the
    request nor the parser keeps any of it. *)
Theorem http1_codec_drops_partial_head buf :
  buf <> [] -> find_header_end buf = None -> zlen buf <= MAX_HEADER_SIZE ->
  http1_decode new_parser buf new_request =
  (Incomplete, [], set_header_bytes (zlen buf) new_parser, new_request).
Proof.
  intros Hne Hf Hl. unfold http1_decode.
  rewrite (proj2 (Z.eqb_neq (zlen buf) 0)) by (intros E%zlen_nil_inv; done).
  unfold parse. rewrite Hf. cbn -[MAX_HEADER_SIZE]. rewrite Z.add_0_l.
  by rewrite (proj2 (Z.ltb_ge _ _)) by done.
Qed.

(** The path guard refuses every path of two bytes, such as [/a]: the length
    minus three wraps around to [npos], which is what a failed search returns. *)
Theorem path_guard_refuses_two_bytes a b : path_is_bad [a; b] = true.
Proof.
  unfold path_is_bad. rewrite !orb_true_iff. left. left. left. left. right.
  assert (find [a; b] (chars "/..") 0 = None) as E.
  { change (find_at [0x2F; 0x2E; 0x2E] [a; b] 0 = None). cbn [find_at starts_with].
    rewrite !andb_false_r. done. }
  unfold find_npos. rewrite E. done.
Qed.

(** What is left of the input after one request, and that request's body. *)
Definition one_request (data : bytes) : option (bytes * bytes) :=
  match parse data new_parser new_request with
  | (Some n, p, req) =>
      if decide (state_ p = SComplete) then Some (body_ req, zdrop n data) else None
  | (None, _, _) => None
  end.

(** A message given by its lines. *)
Definition lines (ls : list string) : bytes := concat (map (fun l => chars l ++ CRLF) ls).

(** Messages that other HTTP implementations frame differently are accepted: a
    lower-case [content-length], a capitalised [Chunked] and a body behind a line
    without a colon are ignored and the body is left in the buffer as the next request;
    an empty chunk-size line ends a chunked body; a trailer line leaves the final line
    break in the buffer. *)
Theorem lenient_framing :
  one_request (lines ["POST / HTTP/1.1"; "content-length: 5"; ""]%string ++ chars "hello") =
    Some ([], chars "hello") /\
  one_request (lines ["POST / HTTP/1.1"; "Transfer-Encoding: Chunked"; ""; "0"; ""]%string) =
    Some ([], lines ["0"; ""]%string) /\
  one_request (lines ["POST / HTTP/1.1"; "Host"; "Content-Length: 5"; ""]%string ++ chars "hello") =
    Some ([], lines ["Content-Length: 5"; ""]%string ++ chars "hello") /\
  one_request (lines ["POST / HTTP/1.1"; "Transfer-Encoding: chunked"; ""; ""; ""; "5"; "hello"]%string) =
    Some ([], lines ["5"; "hello"]%string) /\
  one_request (lines ["POST / HTTP/1.1"; "Transfer-Encoding: chunked"; ""; "0"; "T: x"; ""]%string) =
    Some ([], CRLF).
Proof. by vm_compute. Qed.

(** ** Witnesses *)

Definition get_head : bytes := head (chars "GET") (chars "/a?x=1") (chars "HTTP/1.1")
  [(chars "Host", chars "h"); (chars "Content-Length", chars "2")].

Lemma http_roundtrip_witness :
  exists p, state_ p = SComplete /\
  parse ((get_head ++ chars "hi") ++ chars "GET") new_parser new_request =
  (Some (zlen (get_head ++ chars "hi")), p,
   mkRequest Get (chars "/a") (chars "x=1") (chars "hi")
     [(chars "Host", chars "h"); (chars "Content-Length", chars "2")]).
Proof.
  refine (http_roundtrip (chars "GET") (chars "/a?x=1") (chars "/a") (chars "x=1") (chars "HTTP/1.1")
    [(chars "Host", chars "h"); (chars "Content-Length", chars "2")] (chars "hi") (chars "GET")
    _ _ (or_intror eq_refl) eq_refl (or_intror (conj eq_refl _))).
  - constructor; vm_compute; repeat constructor; discriminate.
  - vm_compute; repeat constructor; discriminate.
  - by vm_compute.
Defined.

Lemma http_chunked_roundtrip_witness :
  exists p, state_ p = SComplete /\
  parse ((head (chars "PUT") (chars "/") (chars "HTTP/1.1") [(chars "Transfer-Encoding", chars "chunked")] ++
    concat (map chunk_wire [mkChunk (chars "2") (chars ";q") (chars "ab"); mkChunk (chars "01") [] (chars "c")]) ++
    size_line (chars "0") [] ++ CRLF) ++ []) new_parser new_request =
  (Some (zlen (head (chars "PUT") (chars "/") (chars "HTTP/1.1") [(chars "Transfer-Encoding", chars "chunked")] ++
    concat (map chunk_wire [mkChunk (chars "2") (chars ";q") (chars "ab"); mkChunk (chars "01") [] (chars "c")]) ++
    size_line (chars "0") [] ++ CRLF)), p,
   mkRequest Put (chars "/") [] (chars "abc") [(chars "Transfer-Encoding", chars "chunked")]).
Proof.
  refine (http_chunked_roundtrip (chars "PUT") (chars "/") (chars "/") [] (chars "HTTP/1.1")
    [(chars "Transfer-Encoding", chars "chunked")]
    [mkChunk (chars "2") (chars ";q") (chars "ab"); mkChunk (chars "01") [] (chars "c")] (chars "0") [] []
    _ _ (or_introl (conj eq_refl eq_refl)) eq_refl eq_refl _ _ _ eq_refl).
  - constructor; vm_compute; repeat constructor; discriminate.
  - vm_compute; repeat constructor; discriminate.
  - constructor; [|constructor; [|constructor]]; (split; [|by vm_compute]); vm_compute.
    + split; [repeat constructor; discriminate|]. split; [repeat constructor; discriminate|right; by eexists].
    + split; [repeat constructor; discriminate|]. split; [constructor|by left].
  - by vm_compute.
  - split; [vm_compute; repeat constructor; discriminate|]. split; [constructor|by left].
Defined.

Lemma resumed_chunk_data_lost_witness :
  exists p', parse (chars "abc") (mkParser SChunkData true true [] 0 3 [] 0 0) new_request = (Some 3, p', new_request) /\
    chunk_body_ p' = [].
Proof.
  destruct (resumed_chunk_data_lost (chars "abc") (mkParser SChunkData true true [] 0 3 [] 0 0) new_request
    eq_refl eq_refl eq_refl) as (p' & H & _ & H' & _).
  exists p'. split; [exact H|exact H'].
Defined.

Lemma http1_codec_drops_partial_head_witness :
  http1_decode new_parser (chars "GET / HTTP/1.1") new_request =
  (Incomplete, [], set_header_bytes 14 new_parser, new_request).
Proof.
  refine (http1_codec_drops_partial_head (chars "GET / HTTP/1.1") _ eq_refl _); [discriminate|by vm_compute].
Defined.
