(* ===== verification/Router.v ===== *)
(** * Routing: [http/router.hpp], [http/router.cpp]

    The tree of routes, one node per character with a child for a [:name] segment, its
    insertion and its backtracking search, and the router over it: one tree per method
    and a list of prefix routes.  A handler is any value; [std::monostate] is [None].

    The tree is shown to be a table from patterns to handlers, and the search to return
    the handler of the first pattern that matches, literal characters before parameters,
    with the values of its parameters. *)

From stdpp Require Import list gmap sorting.
From S2P Require Import Prelude Text HttpParser.
#[local] Open Scope Z_scope.

Abbreviation COLON := 0x3A.
Abbreviation SLASH := 0x2F.

(** The bytes before and from the next slash. *)
Fixpoint segment (s : bytes) : bytes :=
  match s with
  | [] => []
  | c :: s => if c =? SLASH then [] else c :: segment s
  end.

Fixpoint after_segment (s : bytes) : bytes :=
  match s with
  | [] => []
  | c :: s' => if c =? SLASH then s else after_segment s'
  end.

(** [char] compares as a signed byte. *)
Definition schar (c : Z) : Z := if c <? 128 then c else c - 256.

#[global] Instance method_eq_dec : EqDecision Method.
Proof. solve_decision. Defined.

(** [static_cast<size_t>(method)]. *)
Definition method_index (m : Method) : nat :=
  match m with
  | Get => 0 | Post => 1 | Put => 2 | Delete => 3 | Patch => 4 | Options => 5 | Head => 6 | Unknown => 7
  end.

Section tree.
Context {H : Type}.

(** ** The tree *)

Inductive Node := mkNode {
  children : list (Z * Node);
  param_child : option Node;
  param_name : bytes;
  handler : option H;
}.

Definition new_node : Node := mkNode [] None [] None.

Abbreviation kBinarySearchThreshold := (4)%Z (only parsing).

(** [std::lower_bound] on the keys [first, first + len). *)
Fixpoint lower_bound_loop (fuel : nat) (cs : list (Z * Node)) (first len : Z) (c : Z) : Z :=
  match fuel with
  | O => first
  | S fuel =>
      if len =? 0 then first else
      let half := len / 2 in
      let middle := first + half in
      match cs !! Z.to_nat middle with
      | Some (k, _) =>
          if schar k <? schar c then lower_bound_loop fuel cs (middle + 1) (len - half - 1) c
          else lower_bound_loop fuel cs first half c
      | None => first
      end
  end.

(** Each turn at least halves the range: its length many turns are enough. *)
Definition lower_bound (cs : list (Z * Node)) (c : Z) : Z :=
  lower_bound_loop (S (length cs)) cs 0 (zlen cs) c.

Fixpoint scan_children (cs : list (Z * Node)) (c : Z) : option Node :=
  match cs with
  | [] => None
  | (k, v) :: cs => if k =? c then Some v else scan_children cs c
  end.

Definition find_child (n : Node) (c : Z) : option Node :=
  if kBinarySearchThreshold <? zlen (children n) then
    match children n !! Z.to_nat (lower_bound (children n) c) with
    | Some (k, v) => if k =? c then Some v else None
    | None => None
    end
  else scan_children (children n) c.

Definition set_children (n : Node) (cs : list (Z * Node)) : Node := mkNode cs (param_child n) (param_name n) (handler n).

Definition add_child (n : Node) (c : Z) : Node :=
  let it := lower_bound (children n) c in
  set_children n (ztake it (children n) ++ (c, new_node) :: zdrop it (children n)).

(** The node after its child under [c] was changed to [v]. *)
Definition put_child (n : Node) (c : Z) (v : Node) : Node :=
  set_children n (map (fun p => if fst p =? c then (fst p, v) else p) (children n)).

(** The loop of [insert] from node [curr], where [path] is what is left; every turn
    shortens it. *)
Fixpoint insert_from (fuel : nat) (curr : Node) (path : bytes) (h : option H) : Node :=
  match fuel, path with
  | S fuel, c :: rest =>
      if c =? COLON then
        let '(child, name) :=
          match param_child curr with
          | Some child => (child, param_name curr)
          | None => (new_node, segment rest)
          end in
        mkNode (children curr) (Some (insert_from fuel child (after_segment rest) h)) name (handler curr)
      else
        let '(curr, child) :=
          match find_child curr c with
          | Some child => (curr, child)
          | None => (add_child curr c, new_node)
          end in
        put_child curr c (insert_from fuel child rest h)
  | _, _ => mkNode (children curr) (param_child curr) (param_name curr) h
  end.

Definition insert (root : Node) (path : bytes) (h : option H) : Node := insert_from (length path) root path h.

Abbreviation Params := (gmap bytes bytes).

(** [search_recursive], on the rest of the path from [pos]. *)
Fixpoint search_recursive (fuel : nat) (n : Node) (path : bytes) (params : Params) : option H * Params :=
  match fuel, path with
  | O, _ => (None, params)
  | _, [] => (handler n, params)
  | S fuel, c :: rest =>
      let '(res, params) :=
        match find_child n c with
        | Some child => search_recursive fuel child rest params
        | None => (None, params)
        end in
      match res with
      | Some h => (Some h, params)
      | None =>
          match param_child n with
          | Some p =>
              let params := <[param_name n := segment path]> params in
              let '(res, params) := search_recursive fuel p (after_segment path) params in
              match res with
              | Some h => (Some h, params)
              | None => (None, delete (param_name n) params)
              end
          | None => (None, params)
          end
      end
  end.

(** Every call goes down one level. *)
Fixpoint height (n : Node) : nat :=
  S (Nat.max (max_list (map (fun p => height (snd p)) (children n)))
       match param_child n with Some p => height p | None => 0 end).

Definition search (root : Node) (path : bytes) (params : Params) : option H * Params :=
  search_recursive (height root) root path params.

(** ** The router *)

Record PrefixRoute := mkPrefix { pr_method : Method; prefix_ : bytes; pr_handler : option H }.

Definition kMethodCount : nat := 8.

(** [routes_] is an array indexed by the method. *)
Record Router := mkRouter { routes_ : list Node; prefix_routes_ : list PrefixRoute }.

Definition new_router : Router := mkRouter (replicate kMethodCount new_node) [].

Definition tree_of (r : Router) (m : Method) : Node := nth (method_index m) (routes_ r) new_node.

Definition add_route (r : Router) (m : Method) (path : bytes) (h : option H) : Router :=
  mkRouter (<[method_index m := insert (tree_of r m) path h]> (routes_ r)) (prefix_routes_ r).

Definition add_prefix_route (r : Router) (m : Method) (prefix : bytes) (h : option H) : Router :=
  mkRouter (routes_ r) (prefix_routes_ r ++ [mkPrefix m prefix h]).

Fixpoint match_prefix (prs : list PrefixRoute) (m : Method) (path : bytes) (params : Params) : option H * Params :=
  match prs with
  | [] => (None, params)
  | pr :: prs =>
      if bool_decide (pr_method pr = m) && starts_with path (prefix_ pr) then
        (pr_handler pr, <[chars "**" := zdrop (zlen (prefix_ pr)) path]> params)
      else match_prefix prs m path params
  end.

Definition match_route (r : Router) (m : Method) (path : bytes) (params : Params) : option H * Params :=
  match search (tree_of r m) path params with
  | (Some h, params) => (Some h, params)
  | (None, params) => match_prefix (prefix_routes_ r) m path params
  end.

Definition found {A B} (p : option A * B) : bool := match fst p with Some _ => true | None => false end.

Definition path_exists (r : Router) (path : bytes) : bool :=
  existsb (fun t => found (search t path ∅)) (routes_ r) || existsb (fun pr => starts_with path (prefix_ pr)) (prefix_routes_ r).

End tree.
Arguments Node : clear implicits.
Arguments Router : clear implicits.

Section tree_facts.
Context {H : Type}.
Implicit Types (n : Node H) (cs : list (Z * Node H)) (h : option H).

(** ** Binary search *)

Definition sorted cs : Prop :=
  forall i j x y, (i < j)%nat -> cs !! i = Some x -> cs !! j = Some y -> schar (fst x) < schar (fst y).

Definition below cs (c : Z) (i : Z) : Prop := forall j x, cs !! j = Some x -> Z.of_nat j < i -> schar (fst x) < schar c.
Definition above cs (c : Z) (i : Z) : Prop := forall j x, cs !! j = Some x -> i <= Z.of_nat j -> schar c <= schar (fst x).

Lemma lower_bound_loop_spec fuel cs first len c :
  sorted cs -> 0 <= first -> 0 <= len -> first + len <= zlen cs -> len < Z.of_nat fuel ->
  below cs c first -> above cs c (first + len) ->
  let i := lower_bound_loop fuel cs first len c in 0 <= i <= zlen cs /\ below cs c i /\ above cs c i.
Proof.
  intros Hs. revert first len. induction fuel as [|fuel IH]; intros first len Hf Hl Hb Hfuel Hlo Hhi; [lia|].
  cbn [lower_bound_loop]. destruct (Z.eqb_spec len 0) as [->|Hne]; [rewrite Z.add_0_r in *; split_and!; done || lia|].
  pose proof (Z.div_mod len 2 ltac:(done)). pose proof (Z.mod_pos_bound len 2 ltac:(done)). set (half := len / 2) in *.
  destruct (cs !! Z.to_nat (first + half)) as [[k v]|] eqn:E;
    [|apply lookup_ge_None_1 in E; unfold zlen in *; lia].
  destruct (Z.ltb_spec (schar k) (schar c)) as [Hk|Hk]; apply IH; try lia; try done.
  - intros j x Hx Hj. destruct (decide (j = Z.to_nat (first + half))) as [->|]; [by simplify_eq|].
    pose proof (Hs j (Z.to_nat (first + half)) x (k, v) ltac:(lia) Hx E). cbn in *. lia.
  - by replace (first + half + 1 + (len - half - 1)) with (first + len) by lia.
  - intros j x Hx Hj. destruct (decide (j = Z.to_nat (first + half))) as [->|]; [by simplify_eq|].
    pose proof (Hs (Z.to_nat (first + half)) j (k, v) x ltac:(lia) E Hx). cbn in *. lia.
Qed.

Lemma lower_bound_spec cs c : sorted cs ->
  let i := lower_bound cs c in 0 <= i <= zlen cs /\ below cs c i /\ above cs c i.
Proof.
  intros Hs. apply lower_bound_loop_spec; try done; try (unfold zlen; lia).
  - intros j x _ Hj. lia.
  - intros j x Hx Hj. apply lookup_lt_Some in Hx. unfold zlen in Hj. lia.
Qed.

Lemma scan_children_spec cs c v : sorted cs ->
  scan_children cs c = Some v <-> exists i, cs !! i = Some (c, v).
Proof.
  induction cs as [|[k w] cs IH]; intros Hs; cbn [scan_children].
  - split; [done|]. intros [i Hi]. by rewrite lookup_nil in Hi.
  - assert (sorted cs) as Hs' by (intros i j x y Hij Hx Hy; by apply (Hs (S i) (S j)); [lia|..]).
    destruct (Z.eqb_spec k c) as [->|Hk].
    + split; [intros [= ->]; by exists 0%nat|]. intros [[|i] Hi]; [by injection Hi as ->|].
      pose proof (Hs 0%nat (S i) (c, w) (c, v) ltac:(lia) eq_refl Hi). cbn in *. lia.
    + rewrite IH by done. split; [intros [i Hi]; by exists (S i)|]. intros [[|i] Hi]; [injection Hi; congruence|by exists i].
Qed.

(** The binary search finds what the scan finds. *)
Lemma find_child_scan n c : sorted (children n) -> find_child n c = scan_children (children n) c.
Proof.
  intros Hs. unfold find_child. destruct (_ <? _); [|done].
  destruct (lower_bound_spec (children n) c Hs) as (Hi & Hb & Ha). set (i := lower_bound _ _) in *.
  destruct (scan_children (children n) c) as [v|] eqn:E.
  - apply scan_children_spec in E as [j Hj]; [|done].
    assert (j = Z.to_nat i) as <-; [|by rewrite Hj, Z.eqb_refl].
    destruct (Z.lt_trichotomy (Z.of_nat j) i) as [Hlt|[?|Hgt]]; [|lia|].
    + specialize (Hb j _ Hj Hlt). cbn in Hb. lia.
    + destruct (children n !! Z.to_nat i) as [x|] eqn:Ex; [|apply lookup_ge_None_1 in Ex; apply lookup_lt_Some in Hj; lia].
      specialize (Ha _ _ Ex ltac:(lia)). pose proof (Hs (Z.to_nat i) j x (c, v) ltac:(lia) Ex Hj). cbn in *. lia.
  - destruct (children n !! Z.to_nat i) as [[k v]|] eqn:Ex; [|done]. destruct (Z.eqb_spec k c) as [->|]; [|done].
    assert (scan_children (children n) c = Some v) by (apply scan_children_spec; eauto). congruence.
Qed.

(** ** The tree as a table *)

(** A pattern: characters and parameters. *)
Inductive tok := Lit (c : Z) | Par.

#[global] Instance tok_eq_dec : EqDecision tok.
Proof. solve_decision. Defined.

Fixpoint tokens_from (fuel : nat) (path : bytes) : list tok :=
  match fuel, path with
  | S fuel, c :: rest =>
      if c =? COLON then Par :: tokens_from fuel (after_segment rest) else Lit c :: tokens_from fuel rest
  | _, _ => []
  end.

Definition tokens (path : bytes) : list tok := tokens_from (length path) path.

(** The handler a pattern leads to. *)
Fixpoint get n (ts : list tok) : option H :=
  match ts with
  | [] => handler n
  | Lit c :: ts => match find_child n c with Some v => get v ts | None => None end
  | Par :: ts => match param_child n with Some p => get p ts | None => None end
  end.

Inductive wf : Node H -> Prop :=
  | wf_node cs pc nm h :
      sorted cs -> (forall k v, (k, v) ∈ cs -> 0 <= k < 256 /\ wf v) -> (forall p, pc = Some p -> wf p) ->
      wf (mkNode cs pc nm h).

Lemma wf_new : wf new_node.
Proof.
  constructor; [|intros k v Hk; by apply not_elem_of_nil in Hk|done]. intros i j x y _ Hx. by rewrite lookup_nil in Hx.
Qed.

Lemma get_new ts : get (@new_node H) ts = None.
Proof. by destruct ts as [|[] ?]. Qed.

Lemma wf_sorted n : wf n -> sorted (children n).
Proof. by destruct 1. Qed.

Lemma wf_child n c v : wf n -> find_child n c = Some v -> wf v.
Proof.
  intros Hw E. rewrite find_child_scan in E by by apply wf_sorted.
  destruct Hw as [cs pc nm h Hs Hc Hp]. cbn in E. apply scan_children_spec in E as [i Hi]; [|done].
  by apply (Hc c), (list_elem_of_lookup_2 _ i).
Qed.

Lemma wf_param n p : wf n -> param_child n = Some p -> wf p.
Proof. destruct 1. cbn. auto. Qed.

Lemma schar_inj a b : 0 <= a < 256 -> 0 <= b < 256 -> schar a = schar b -> a = b.
Proof. unfold schar. destruct (Z.ltb_spec a 128), (Z.ltb_spec b 128); lia. Qed.

Lemma scan_app a b c : scan_children (a ++ b) c = match scan_children a c with Some v => Some v | None => @scan_children H b c end.
Proof. induction a as [|[k v] a IH]; cbn; [done|]. by destruct (k =? c). Qed.

Lemma scan_put cs c v c' :
  scan_children (map (fun p => if fst p =? c then (fst p, v) else p) cs) c' =
  if c' =? c then match scan_children cs c with Some _ => Some v | None => None end else scan_children cs c'.
Proof.
  induction cs as [|[k w] cs IH]; cbn; [by destruct (_ =? _)|].
  destruct (Z.eqb_spec k c) as [->|Hk]; cbn; rewrite IH.
  - destruct (Z.eqb_spec c c') as [->|]; [by rewrite Z.eqb_refl|]. destruct (Z.eqb_spec c' c); [congruence|done].
  - destruct (Z.eqb_spec k c') as [->|], (Z.eqb_spec c' c); congruence || done.
Qed.

Lemma put_child_wf n c v : wf n -> wf v -> wf (put_child n c v).
Proof.
  intros Hw Hv. destruct Hw as [cs pc nm h Hs Hc Hp]. constructor; [|intros k w Hk|done].
  - intros i j x y Hij Hx Hy. cbn in Hx, Hy. rewrite list_lookup_fmap in Hx, Hy.
    destruct (cs !! i) as [x'|] eqn:Ex; [|done]. destruct (cs !! j) as [y'|] eqn:Ey; [|done]. injection Hx as <-. injection Hy as <-.
    pose proof (Hs i j x' y' Hij Ex Ey). by destruct (fst x' =? c), (fst y' =? c).
  - cbn in Hk. apply list_elem_of_fmap in Hk as ([k' w'] & E & Hin). specialize (Hc _ _ Hin). cbn in E.
    destruct (k' =? c); injection E as -> ->; [split; [apply Hc|done]|done].
Qed.

Lemma find_put n c v c' : wf n -> wf v ->
  find_child (put_child n c v) c' = if c' =? c then match find_child n c with Some _ => Some v | None => None end else find_child n c'.
Proof.
  intros Hw Hv. rewrite !find_child_scan by (apply wf_sorted; auto using put_child_wf). cbn. apply scan_put.
Qed.

Lemma sorted_insert (a b : list (Z * Node H)) c v : sorted (a ++ b) ->
  (forall j x, a !! j = Some x -> schar (fst x) < schar c) -> (forall j x, b !! j = Some x -> schar c < schar (fst x)) ->
  sorted (a ++ (c, v) :: b).
Proof.
  intros Hs Hlo Hhi j k x y Hjk Hx Hy. apply lookup_app_Some in Hx as [Hx|[Hx1 Hx2]], Hy as [Hy|[Hy1 Hy2]].
  - apply (Hs j k); [done|by apply lookup_app_l_Some..].
  - apply Hlo in Hx. destruct (k - length a)%nat as [|k'] eqn:Ek; cbn in Hy2; [by injection Hy2 as <-|apply Hhi in Hy2; lia].
  - apply lookup_lt_Some in Hy. lia.
  - destruct (j - length a)%nat as [|j'] eqn:Ej, (k - length a)%nat as [|k'] eqn:Ek; cbn in Hx2, Hy2; try lia.
    + injection Hx2 as <-. by apply Hhi in Hy2.
    + assert (forall i z, b !! i = Some z -> (a ++ b) !! (length a + i)%nat = Some z) as Hr.
      { intros i z Hz. rewrite lookup_app_r by lia. by replace (length a + i - length a)%nat with i by lia. }
      apply (Hs (length a + j')%nat (length a + k')%nat); [lia|by apply Hr..].
Qed.

(** A character with no child yet: where it goes. *)
Lemma add_child_split n c : wf n -> 0 <= c < 256 -> find_child n c = None ->
  exists a b, children n = a ++ b /\ children (add_child n c) = a ++ (c, new_node) :: b /\ sorted (a ++ (c, new_node) :: b).
Proof.
  intros Hw Hc Hnone. pose proof (wf_sorted n Hw) as Hs. rewrite find_child_scan in Hnone by done.
  destruct (lower_bound_spec (children n) c Hs) as (Hi & Hb & Ha). unfold add_child. set (i := lower_bound _ _) in *.
  set (a := ztake i (children n)). set (b := zdrop i (children n)).
  assert (children n = a ++ b) as Eab by (symmetry; apply ztake_zdrop).
  assert (zlen a = i) as Ela by (apply zlen_ztake; lia).
  exists a, b. split_and!; [done|done|]. apply sorted_insert; [by rewrite <- Eab|..].
  - intros j x Hx. apply (Hb j); [rewrite Eab; by apply lookup_app_l_Some|]. apply lookup_lt_Some in Hx. unfold zlen in Ela. lia.
  - intros j [k v] Hx. assert (children n !! (length a + j)%nat = Some (k, v)) as Hn.
    { rewrite Eab, lookup_app_r by lia. by replace (length a + j - length a)%nat with j by lia. }
    specialize (Ha _ _ Hn ltac:(unfold zlen in Ela; lia)). cbn in *.
    assert (k <> c) by (intros ->; assert (scan_children (children n) c = Some v) by (apply scan_children_spec; eauto); congruence).
    assert (0 <= k < 256) by (destruct Hw as [cs pc nm h _ Hcs _]; by apply (Hcs k v), (list_elem_of_lookup_2 _ _ _ Hn)).
    destruct (decide (schar k = schar c)) as [E|]; [apply schar_inj in E; lia|lia].
Qed.

Lemma add_child_spec n c : wf n -> 0 <= c < 256 -> find_child n c = None ->
  wf (add_child n c) /\ (forall c', find_child (add_child n c) c' = if c' =? c then Some new_node else find_child n c').
Proof.
  intros Hw Hc Hnone. destruct (add_child_split n c Hw Hc Hnone) as (a & b & Eab & Ech & Hs).
  pose proof (wf_sorted n Hw) as Hsn. rewrite find_child_scan, Eab, scan_app in Hnone by done. split.
  - destruct Hw as [cs pc nm h _ Hcs Hp]. cbn in *. unfold add_child, set_children in *. cbn in *. rewrite Ech. constructor; [done| |done].
    intros k v [Hk|[Hk|Hk]%elem_of_cons]%elem_of_app.
    + apply Hcs. rewrite Eab. apply elem_of_app. by left.
    + injection Hk as -> ->. split; [done|apply wf_new].
    + apply Hcs. rewrite Eab. apply elem_of_app. by right.
  - intros c'. rewrite !find_child_scan by (done || by rewrite Ech). rewrite Ech, Eab, !scan_app. cbn.
    rewrite (Z.eqb_sym c' c). destruct (Z.eqb_spec c c') as [<-|]; [|done]. by destruct (scan_children a c).
Qed.

Lemma after_segment_bytes s : all_bytes s -> all_bytes (after_segment s).
Proof. induction 1 as [|c s Hc Hs IH]; cbn; [constructor|]. destruct (_ =? _); [by constructor|done]. Qed.

Lemma after_segment_length s : (length (after_segment s) <= length s)%nat.
Proof. induction s as [|c s IH]; cbn; [lia|]. destruct (_ =? _); cbn; lia. Qed.

(** The node for a character, made if there is none. *)
Definition child_or_new n (c : Z) : Node H * Node H :=
  match find_child n c with Some v => (n, v) | None => (add_child n c, new_node) end.

Lemma child_or_new_spec n c : wf n -> 0 <= c < 256 ->
  let '(n', v) := child_or_new n c in
  wf n' /\ wf v /\ find_child n' c = Some v /\ (forall c', c' <> c -> find_child n' c' = find_child n c') /\
  (forall ts, get v ts = match find_child n c with Some w => get w ts | None => None end) /\
  handler n' = handler n /\ param_child n' = param_child n.
Proof.
  intros Hw Hc. unfold child_or_new. destruct (find_child n c) as [v|] eqn:E.
  - split_and!; try done. by eapply wf_child.
  - destruct (add_child_spec n c Hw Hc E) as [Hw' Hf]. split_and!; try done.
    + apply wf_new.
    + by rewrite Hf, Z.eqb_refl.
    + intros c' Hc'. rewrite Hf. by apply Z.eqb_neq in Hc' as ->.
    + apply get_new.
Qed.

(** What a turn of the insertion changes: the child under a character, or the parameter. *)
Lemma insert_char fuel n c rest h : c <> COLON -> wf n -> 0 <= c < 256 ->
  (forall v, wf v -> wf (insert_from fuel v rest h)) ->
  let n' := insert_from (S fuel) n (c :: rest) h in
  wf n' /\ (forall c', find_child n' c' = if c' =? c then Some (insert_from fuel (default new_node (find_child n c)) rest h) else find_child n c') /\
  param_child n' = param_child n /\ param_name n' = param_name n /\ handler n' = handler n.
Proof.
  intros Hne Hw Hc Hins. cbn [insert_from]. rewrite (proj2 (Z.eqb_neq _ _) Hne). fold (child_or_new n c).
  pose proof (child_or_new_spec n c Hw Hc) as Hcn. assert (snd (child_or_new n c) = default new_node (find_child n c) /\ param_name (fst (child_or_new n c)) = param_name n) as [Ev En]
    by (unfold child_or_new; by destruct (find_child n c)).
  destruct (child_or_new n c) as [n' v]. cbn [fst snd] in *. subst v. destruct Hcn as (Hw' & Hwv & Hf & Ho & _ & Eh & Ep).
  specialize (Hins _ Hwv). split; [by apply put_child_wf|]. split; [|done]. intros c'. rewrite find_put by done.
  destruct (Z.eqb_spec c' c) as [->|Hc']; [by rewrite Hf|by apply Ho].
Qed.

Lemma insert_colon fuel n rest h :
  let n' := insert_from (S fuel) n (COLON :: rest) h in
  (forall c, find_child n' c = find_child n c) /\
  param_child n' = Some (insert_from fuel (default new_node (param_child n)) (after_segment rest) h) /\
  param_name n' = match param_child n with Some _ => param_name n | None => segment rest end /\
  children n' = children n /\ handler n' = handler n.
Proof. cbn [insert_from]. change (COLON =? COLON) with true. cbn iota. destruct (param_child n); done. Qed.

(** Inserting sets the handler of one pattern and of no other. *)
Lemma insert_get fuel n path h : wf n -> all_bytes path -> (length path <= fuel)%nat ->
  wf (insert_from fuel n path h) /\
  forall ts, get (insert_from fuel n path h) ts = if decide (ts = tokens_from fuel path) then h else get n ts.
Proof.
  revert n path. induction fuel as [|fuel IH]; intros n path Hw Hb Hl.
  { destruct path; [|cbn in Hl; lia]. cbn. destruct Hw. split; [by constructor|]. intros ts. by destruct ts as [|[] ?]. }
  destruct path as [|c rest]; [cbn [insert_from tokens_from]; destruct Hw; (split; [by constructor|]); intros ts; by destruct ts as [|[] ?]|].
  apply Forall_cons in Hb as [Hc Hb]. cbn [length] in Hl. cbn [tokens_from]. destruct (Z.eqb_spec c COLON) as [->|Hne].
  - destruct (insert_colon fuel n rest h) as (Ef & Ep & _ & Ec & Eh). set (n' := insert_from _ n _ h) in *.
    assert (wf (default new_node (param_child n))) as Hwc by (destruct (param_child n) as [p|] eqn:E; [exact (wf_param n p Hw E)|apply wf_new]).
    destruct (IH _ (after_segment rest) Hwc) as [Hw' Hg]; [by apply after_segment_bytes|pose proof (after_segment_length rest); lia|].
    split; [destruct n' as [cs pc nm hh]; cbn in Ec, Ep; subst; destruct Hw; constructor; [done..|]; by intros ? [= <-]|].
    intros [|[c'|] ts]; cbn [get]; [done|by rewrite decide_False, Ef by done|].
    rewrite Ep, Hg. destruct (decide (ts = _)) as [->|Hts]; [by rewrite decide_True|]. rewrite decide_False by congruence.
    destruct (param_child n); [done|]. apply get_new.
  - destruct (insert_char fuel n c rest h Hne Hw Hc) as (Hwi & Hf & Ep & _ & Eh); [intros v Hv; apply IH; [done|done|lia]|].
    split; [done|]. intros [|[c'|] ts]; cbn [get]; [by rewrite Eh| |by rewrite Ep, decide_False by done].
    rewrite Hf. destruct (Z.eqb_spec c' c) as [->|Hc']; [|by rewrite decide_False by congruence].
    assert (wf (default new_node (find_child n c))) as Hwc by (destruct (find_child n c) as [v|] eqn:E; [exact (wf_child n c v Hw E)|apply wf_new]).
    destruct (IH _ rest Hwc Hb ltac:(lia)) as [_ Hg]. rewrite Hg.
    destruct (decide (ts = _)) as [->|Hts]; [by rewrite decide_True|]. rewrite decide_False by congruence. destruct (find_child n c); [done|]. apply get_new.
Qed.

(** ** The names of parameters *)

(** A pattern with its names. *)
Inductive part := Char (c : Z) | Param (name : bytes).

Fixpoint parts_from (fuel : nat) (path : bytes) : list part :=
  match fuel, path with
  | S fuel, c :: rest =>
      if c =? COLON then Param (segment rest) :: parts_from fuel (after_segment rest) else Char c :: parts_from fuel rest
  | _, _ => []
  end.

Definition parts (path : bytes) : list part := parts_from (length path) path.

Definition param_names (ps : list part) : list bytes := omap (fun x => match x with Param nm => Some nm | Char _ => None end) ps.

(** Two patterns give a parameter they share the same name. *)
Fixpoint agree (ps qs : list part) : bool :=
  match ps, qs with
  | Char c :: ps, Char c' :: qs => if c =? c' then agree ps qs else true
  | Param nm :: ps, Param nm' :: qs => bool_decide (nm = nm') && agree ps qs
  | _, _ => true
  end.

(** The names on the way along a pattern: those that are there agree with it; all are there. *)
Fixpoint fits n (ps : list part) : Prop :=
  match ps with
  | [] => True
  | Char c :: ps => match find_child n c with Some v => fits v ps | None => True end
  | Param nm :: ps => match param_child n with Some p => param_name n = nm /\ fits p ps | None => True end
  end.

Fixpoint named n (ps : list part) : Prop :=
  match ps with
  | [] => True
  | Char c :: ps => match find_child n c with Some v => named v ps | None => False end
  | Param nm :: ps => match param_child n with Some p => param_name n = nm /\ named p ps | None => False end
  end.

Lemma fits_new ps : fits (@new_node H) ps.
Proof. by destruct ps as [|[] ?]. Qed.

Lemma fits_default (o : option (Node H)) ps : match o with Some v => fits v ps | None => True end -> fits (default new_node o) ps.
Proof. destruct o; [done|]. intros _. apply fits_new. Qed.

Lemma named_default (o : option (Node H)) ps : named (default new_node o) ps -> ps = [] \/ exists v, o = Some v /\ named v ps.
Proof. destruct o as [v|]; [intros Hn; right; by exists v|]. destruct ps as [|[] ?]; [by left|done..]. Qed.

(** Every node comes from an insertion: what a turn does to the names. *)
Lemma insert_names fuel n path h : wf n -> all_bytes path -> (length path <= fuel)%nat ->
  (forall ps, fits n ps -> agree (parts_from fuel path) ps = true -> fits (insert_from fuel n path h) ps) /\
  (forall ps, named n ps -> named (insert_from fuel n path h) ps) /\
  (fits n (parts_from fuel path) -> named (insert_from fuel n path h) (parts_from fuel path) /\
    forall ps, named (insert_from fuel n path h) ps -> named n ps \/ ps `prefix_of` parts_from fuel path).
Proof.
  revert n path. induction fuel as [|fuel IH]; intros n path Hw Hb Hl.
  { destruct path; [|cbn in Hl; lia]. cbn. split_and!; [by intros [|[] ?]..|]. intros _. split; [done|]. intros [|[] ?]; auto. }
  destruct path as [|c rest]; [cbn; (split_and!; [by intros [|[] ?]..|]); intros _; (split; [done|]); intros [|[] ?]; auto|].
  apply Forall_cons in Hb as [Hc Hb]. cbn [length] in Hl. cbn [parts_from]. destruct (Z.eqb_spec c COLON) as [->|Hne].
  - destruct (insert_colon fuel n rest h) as (Ef & Ep & En & _). set (n' := insert_from _ n _ h) in *.
    assert (wf (default new_node (param_child n))) as Hwc by (destruct (param_child n) as [p|] eqn:E; [exact (wf_param n p Hw E)|apply wf_new]).
    destruct (IH _ (after_segment rest) Hwc) as (I1 & I2 & I3); [by apply after_segment_bytes|pose proof (after_segment_length rest); lia|].
    split_and!.
    + intros [|[c'|nm] ps]; cbn [fits agree]; [done|by rewrite Ef|]. rewrite Ep, En. intros Hf [->%bool_decide_eq_true Ha]%andb_true_iff.
      destruct (param_child n) as [p|]; (split; [by try apply Hf|]); apply I1; [apply Hf|done|apply fits_new|done].
    + intros [|[c'|nm] ps]; cbn [named]; [done|by rewrite Ef|]. rewrite Ep, En. destruct (param_child n) as [p|]; [|done]. intros [-> Hn]. split; [done|by apply I2].
    + cbn [fits named]. rewrite Ep, En. intros Hf. assert (match param_child n with Some _ => param_name n | None => segment rest end = segment rest) as ->
        by (destruct (param_child n); [apply Hf|done]).
      destruct I3 as [I3 I4]; [apply fits_default; destruct (param_child n); [apply Hf|done]|]. split; [done|].
      intros [|[c'|nm] ps]; cbn [named]; [by left|rewrite Ef; by left|]. rewrite Ep, En. intros [<- [Hn|Hn]%I4].
      * apply named_default in Hn as [->|(p & E & Hn)]; [right|left; rewrite E in *; done].
        exists (parts_from fuel (after_segment rest)). cbn. destruct (param_child n); [by destruct Hf as [<- _]|done].
      * right. destruct (param_child n); [destruct Hf as [-> _]|]; by apply prefix_cons.
  - destruct (insert_char fuel n c rest h Hne Hw Hc) as (_ & Hf' & Ep & En & _); [intros v Hv; apply insert_get; [done|done|lia]|].
    set (n' := insert_from _ n _ h) in *.
    assert (wf (default new_node (find_child n c))) as Hwc by (destruct (find_child n c) as [v|] eqn:E; [exact (wf_child n c v Hw E)|apply wf_new]).
    destruct (IH _ rest Hwc Hb ltac:(lia)) as (I1 & I2 & I3). split_and!.
    + intros [|[c'|nm] ps]; cbn [fits agree]; [done| |by rewrite Ep, En]. rewrite Hf', (Z.eqb_sym c c'). destruct (Z.eqb_spec c' c) as [->|]; [|done].
      intros Hf Ha. by apply I1; [apply fits_default|].
    + intros [|[c'|nm] ps]; cbn [named]; [done| |by rewrite Ep, En]. rewrite Hf'. destruct (Z.eqb_spec c' c) as [->|]; [|done].
      destruct (find_child n c) as [v|]; [|done]. apply I2.
    + cbn [fits named]. rewrite Hf', Z.eqb_refl. intros Hf. destruct I3 as [I3 I4]; [by apply fits_default|]. split; [done|].
      intros [|[c'|nm] ps]; cbn [named]; [by left| |rewrite Ep, En; by left]. rewrite Hf'. destruct (Z.eqb_spec c' c) as [->|]; [|by left].
      intros [Hn|Hn]%I4; [|right; by apply prefix_cons].
      apply named_default in Hn as [->|(v & E & Hn)]; [right; by exists (parts_from fuel rest)|left; by rewrite E].
Qed.

(** ** Searching *)

(** A parameter takes the rest of the segment, and needs some path left. *)
Fixpoint matches (ts : list tok) (path : bytes) : Prop :=
  match ts, path with
  | [], [] => True
  | Lit c :: ts, c' :: rest => c = c' /\ matches ts rest
  | Par :: ts, _ :: _ => matches ts (after_segment path)
  | _, _ => False
  end.

(** At the first difference, the first pattern has the character. *)
Fixpoint before (ts ts' : list tok) : Prop :=
  match ts, ts' with
  | x :: ts, y :: ts' => x = y /\ before ts ts' \/ x <> y /\ y = Par
  | _, _ => False
  end.

(** The parameter names below a node, and that no name is met twice on the way down. *)
Fixpoint names n : list bytes :=
  match param_child n with Some p => param_name n :: names p | None => [] end
  ++ concat (map (fun q => names (snd q)) (children n)).

Fixpoint unique_names n : bool :=
  match param_child n with Some p => bool_decide (param_name n ∉ names p) && unique_names p | None => true end
  && forallb (fun q => unique_names (snd q)) (children n).

(** The segments that the parameters of a pattern take on a path. *)
Fixpoint values (ts : list tok) (path : bytes) : list bytes :=
  match ts with
  | [] => []
  | Lit _ :: ts => values ts (zdrop 1 path)
  | Par :: ts => segment path :: values ts (after_segment path)
  end.

(** What the search binds on the way along a pattern, with the names in the tree. *)
Fixpoint bindings n (ts : list tok) (path : bytes) : list (bytes * bytes) :=
  match ts with
  | [] => []
  | Lit c :: ts => match find_child n c with Some v => bindings v ts (zdrop 1 path) | None => [] end
  | Par :: ts =>
      match param_child n with
      | Some p => (param_name n, segment path) :: bindings p ts (after_segment path)
      | None => []
      end
  end.

Lemma find_child_elem n c v : find_child n c = Some v -> (c, v) ∈ children n.
Proof.
  unfold find_child. destruct (_ <? _).
  - destruct (children n !! _) as [[k w]|] eqn:E; [|done]. destruct (Z.eqb_spec k c) as [->|]; [|done].
    intros [= ->]. by eapply list_elem_of_lookup_2.
  - induction (children n) as [|[k w] cs IH]; cbn; [done|]. destruct (Z.eqb_spec k c) as [->|].
    + intros [= ->]. by left.
    + intros E. right. auto.
Qed.

Lemma height_child n c v : find_child n c = Some v -> (height v < height n)%nat.
Proof.
  intros E. apply find_child_elem in E. destruct n as [cs pc nm h]. cbn [children] in E. cbn [height children].
  assert (height v <= max_list (map (fun p => height (snd p)) cs))%nat; [|lia].
  apply max_list_elem_of_le. apply list_elem_of_fmap. by exists (c, v).
Qed.

Lemma height_param n p : param_child n = Some p -> (height p < height n)%nat.
Proof. destruct n as [cs pc nm h]. cbn. intros ->. lia. Qed.

Lemma height_pos n : (0 < height n)%nat.
Proof. destruct n. cbn. lia. Qed.

Lemma names_child n c v x : find_child n c = Some v -> x ∈ names v -> x ∈ names n.
Proof.
  intros E Hx. apply find_child_elem in E. destruct n as [cs pc nm h]. cbn in *. apply elem_of_app. right.
  apply list_elem_of_In, in_concat. exists (names v). split; [|by apply list_elem_of_In].
  apply list_elem_of_In, list_elem_of_fmap. by exists (c, v).
Qed.

Lemma names_param n p x : param_child n = Some p -> x = param_name n \/ x ∈ names p -> x ∈ names n.
Proof. destruct n as [cs pc nm h]. cbn. intros -> Hx. apply elem_of_app. left. apply elem_of_cons. done. Qed.

Lemma unique_child n c v : find_child n c = Some v -> unique_names n = true -> unique_names v = true.
Proof.
  intros E. apply find_child_elem in E. destruct n as [cs pc nm h]. cbn in *. intros [_ Hu]%andb_true_iff.
  rewrite forallb_forall in Hu. apply (Hu (c, v)). by apply list_elem_of_In.
Qed.

Lemma unique_param n p : param_child n = Some p -> unique_names n = true -> (param_name n ∉ names p) /\ unique_names p = true.
Proof.
  destruct n as [cs pc nm h]. cbn. intros ->. intros [[Hb Hu]%andb_true_iff _]%andb_true_iff.
  by apply bool_decide_eq_true in Hb.
Qed.

(** *** The names in the tree are those of the patterns *)

Definition erase (x : part) : tok := match x with Char c => Lit c | Param _ => Par end.

Lemma tokens_parts fuel path : tokens_from fuel path = map erase (parts_from fuel path).
Proof. revert path. induction fuel as [|fuel IH]; intros [|c rest]; cbn; try done. destruct (c =? COLON); cbn; by rewrite IH. Qed.

Lemma bindings_named n (ps : list part) (path : bytes) (out : gmap bytes bytes) : named n ps ->
  Forall (fun b => out !! fst b = Some (snd b)) (bindings n (map erase ps) path) ->
  Forall2 (fun nm v => out !! nm = Some v) (param_names ps) (values (map erase ps) path).
Proof.
  revert n path. induction ps as [|[c|nm] ps IH]; intros n path; cbn [named bindings map erase values].
  - constructor.
  - destruct (find_child n c) as [v|]; [|done]. apply IH.
  - destruct (param_child n) as [p|]; [|done]. intros [<- Hn] [Hb Hbs]%Forall_cons. constructor; [done|]. by apply (IH p).
Qed.

Lemma child_found n c v : wf n -> (c, v) ∈ children n -> find_child n c = Some v.
Proof.
  intros Hw Hin. rewrite find_child_scan by by apply wf_sorted. apply list_elem_of_lookup in Hin as [i Hi].
  apply scan_children_spec; [by apply wf_sorted|]. by exists i.
Qed.

Lemma names_named k : forall n x, (height n <= k)%nat -> wf n -> x ∈ names n -> exists ps, named n ps /\ x ∈ param_names ps.
Proof.
  induction k as [|k IH]; intros n x Hh Hw; [pose proof (height_pos n); lia|]. destruct n as [cs pc nm h] eqn:En. cbn [names param_child children param_name].
  rewrite <- En in *. intros [Hx|Hx]%elem_of_app.
  - destruct pc as [p|]; [|by apply not_elem_of_nil in Hx]. assert (param_child n = Some p) as Ep by by rewrite En. apply elem_of_cons in Hx as [->|Hx].
    + exists [Param nm]. cbn [named]. rewrite Ep, En. split; [done|]. by left.
    + destruct (IH p x) as (ps & Hn & Hps); [apply height_param in Ep; lia|by eapply wf_param|done|].
      exists (Param nm :: ps). cbn [named]. rewrite Ep, En. split; [done|]. by right.
  - apply list_elem_of_In, in_concat in Hx as (l & ([c v] & <- & Hin)%in_map_iff & Hx). apply list_elem_of_In in Hx, Hin.
    assert (find_child n c = Some v) as Ef by (apply child_found; [done|by rewrite En]).
    destruct (IH v x) as (ps & Hn & Hps); [apply height_child in Ef; lia|by eapply wf_child|done|].
    exists (Char c :: ps). cbn [named]. by rewrite Ef.
Qed.

Lemma unique_named k : forall n, (height n <= k)%nat -> wf n -> (forall ps, named n ps -> NoDup (param_names ps)) -> unique_names n = true.
Proof.
  induction k as [|k IH]; intros n Hh Hw Hnd; [pose proof (height_pos n); lia|]. destruct n as [cs pc nm h] eqn:En. cbn [unique_names param_child children param_name].
  rewrite <- En in *. apply andb_true_iff. split.
  - destruct pc as [p|]; [|done]. assert (param_child n = Some p) as Ep by by rewrite En.
    assert (param_name n = nm) as Enm by by rewrite En. pose proof (wf_param _ _ Hw Ep) as Hwp. pose proof (height_param _ _ Ep). apply andb_true_iff. split.
    + apply bool_decide_eq_true. intros (ps & Hn & Hin)%(names_named k); [|lia|done].
      specialize (Hnd (Param nm :: ps)). cbn [named] in Hnd. rewrite Ep in Hnd. specialize (Hnd (conj Enm Hn)). by apply NoDup_cons in Hnd as [? _].
    + apply IH; [lia|done|]. intros ps Hn. specialize (Hnd (Param nm :: ps)). cbn [named] in Hnd. rewrite Ep in Hnd.
      specialize (Hnd (conj Enm Hn)). by apply NoDup_cons in Hnd as [_ ?].
  - apply forallb_forall. intros [c v] Hin%list_elem_of_In. assert (find_child n c = Some v) as Ef by (apply child_found; [done|by rewrite En]).
    apply IH; [apply height_child in Ef; cbn; lia|by eapply wf_child|]. intros ps Hn. apply (Hnd (Char c :: ps)). cbn [named]. by rewrite Ef.
Qed.

(** What the search returns. *)
Definition found_first n (path : bytes) (res : option H) (out : gmap bytes bytes) : Prop :=
  match res with
  | Some h =>
      exists ts, get n ts = Some h /\ matches ts path /\
        (forall ts', get n ts' <> None -> matches ts' path -> ts' = ts \/ before ts ts') /\
        (unique_names n = true -> Forall (fun b => out !! fst b = Some (snd b)) (bindings n ts path))
  | None => forall ts, get n ts <> None -> ~ matches ts path
  end.

Lemma search_params fuel n path params res out x :
  search_recursive fuel n path params = (res, out) -> x ∉ names n -> out !! x = params !! x.
Proof.
  revert n path params res out. induction fuel as [|fuel IH]; intros n path params res out; cbn [search_recursive].
  { by intros [= <- <-]. }
  destruct path as [|c rest]; [by intros [= <- <-]|].
  set (path := c :: rest). intros E Hx.
  destruct (match find_child n c with Some v => search_recursive fuel v rest params | None => (None, params) end) as [res1 params1] eqn:E1.
  assert (params1 !! x = params !! x) as Hp.
  { destruct (find_child n c) as [v|] eqn:Ef; [|by simplify_eq]. apply (IH _ _ _ _ _ E1). intros Hv. apply Hx. by eapply names_child. }
  rewrite <- Hp. clear Hp E1. destruct res1 as [h|]; [by simplify_eq|].
  destruct (param_child n) as [p|] eqn:Ep; [|by simplify_eq].
  assert (param_name n <> x) as Hn by (intros <-; apply Hx; eapply names_param; eauto).
  destruct (search_recursive fuel p (after_segment path) _) as [res2 params2] eqn:E2.
  assert (params2 !! x = params1 !! x) as Hp2.
  { erewrite (IH _ _ _ _ _ E2); [by rewrite lookup_insert_ne|]. intros Hv. apply Hx. eapply names_param; eauto. }
  destruct res2; simplify_eq; [done|]. by rewrite lookup_delete_ne.
Qed.

(** The first two alternatives of a node, given the results below it. *)
Lemma found_child n c v rest a out : find_child n c = Some v ->
  found_first v rest (Some a) out -> found_first n (c :: rest) (Some a) out.
Proof.
  intros Ef (ts & Hg & Hm & Hfirst & Hb). exists (Lit c :: ts). cbn [get matches bindings]. rewrite Ef.
  split_and!; try done.
  - intros [|[c'|] ts']; cbn [get matches before]; [done| |by right; right].
    intros Hg' [-> Hm']. rewrite Ef in Hg'. destruct (Hfirst ts' Hg' Hm') as [->|?]; [by left|right; by left].
  - intros Hu. apply Hb. by eapply unique_child.
Qed.

Lemma found_param n c rest p a out : param_child n = Some p ->
  (forall ts, get n (Lit c :: ts) <> None -> ~ matches ts rest) ->
  (param_name n ∉ names p -> out !! param_name n = Some (segment (c :: rest))) ->
  found_first p (after_segment (c :: rest)) (Some a) out -> found_first n (c :: rest) (Some a) out.
Proof.
  intros Ep Hno Hout (ts & Hg & Hm & Hfirst & Hb). exists (Par :: ts). cbn [get matches bindings]. rewrite Ep.
  split_and!; try done.
  - intros [|[c'|] ts']; cbn [get matches before]; [done| |].
    + intros Hg' [-> Hm']. exfalso. by apply (Hno ts').
    + rewrite Ep. intros Hg' Hm'. destruct (Hfirst ts' Hg' Hm') as [->|?]; [by left|right; by left].
  - intros Hu. destruct (unique_param n p Ep Hu). constructor; [by apply Hout|by apply Hb].
Qed.

Lemma search_first fuel n path params res out : (height n <= fuel)%nat ->
  search_recursive fuel n path params = (res, out) -> found_first n path res out.
Proof.
  revert n path params res out. induction fuel as [|fuel IH]; intros n path params res out Hh; [pose proof (height_pos n); lia|].
  cbn [search_recursive]. destruct path as [|c rest].
  { intros [= <- <-]. destruct (handler n) as [h|] eqn:Eh; cbn.
    - exists []. split_and!; try done. intros [|[] ?]; cbn; auto; done.
    - intros [|[] ?]; cbn; congruence || auto. }
  destruct (match find_child n c with Some v => search_recursive fuel v rest params | None => (None, params) end) as [res1 params1] eqn:E1.
  assert (forall v, find_child n c = Some v -> found_first v rest res1 params1) as Hchild.
  { intros v Ef. rewrite Ef in E1. apply (IH v rest params); [|done]. apply height_child in Ef. lia. }
  destruct res1 as [h|].
  { intros [= <- <-]. destruct (find_child n c) as [v|] eqn:Ef; [|done]. eapply found_child; eauto. }
  assert (forall ts, get n (Lit c :: ts) <> None -> ~ matches ts rest) as Hno.
  { intros ts. cbn. destruct (find_child n c) as [v|]; [|done]. by apply (Hchild v). }
  destruct (param_child n) as [p|] eqn:Ep.
  - destruct (search_recursive fuel p (after_segment (c :: rest)) _) as [res2 params2] eqn:E2. intros E.
    assert (found_first p (after_segment (c :: rest)) res2 params2) as Hp.
    { eapply IH; [|exact E2]. apply height_param in Ep. lia. }
    destruct res2 as [h|]; simplify_eq.
    + eapply found_param; eauto. intros Hu. rewrite (search_params _ _ _ _ _ _ _ E2 Hu). apply lookup_insert_eq.
    + intros [|[c'|] ts]; cbn [get matches]; [by intros _ []| |].
      * intros Hg [-> Hm]. by apply (Hno ts).
      * rewrite Ep. apply Hp.
  - intros [= <- <-] [|[c'|] ts]; cbn [get matches]; [by intros _ []| |by rewrite Ep].
    intros Hg [-> Hm]. by apply (Hno ts).
Qed.

End tree_facts.

(** ** The router *)

Section router.
Context {H : Type}.
Implicit Types (r : Router H) (prs : list (@PrefixRoute H)).

Definition route : Type := Method * bytes * option H.

Definition add_all r (regs : list route) : Router H := foldl (fun r '(m, p, h) => add_route r m p h) r regs.

Definition add_prefixes r prs : Router H := foldl (fun r pr => add_prefix_route r (pr_method pr) (prefix_ pr) (pr_handler pr)) r prs.

(** The handler last registered for a method and a pattern. *)
Definition registered (regs : list route) (m : Method) (ts : list tok) : option H :=
  foldl (fun acc '(m', p, h) => if bool_decide (m' = m /\ tokens p = ts) then h else acc) None regs.

(** The patterns of a method; each uses a name once, and two of them agree on the names of the
    parameters they share. *)
Definition patterns (regs : list route) (m : Method) : list (list part) :=
  omap (fun '(m', p, _) => if decide (m' = m) then Some (parts p) else None) regs.

Definition names_ok (regs : list route) (m : Method) : bool :=
  forallb (fun q => bool_decide (NoDup (param_names q)) && forallb (agree q) (patterns regs m)) (patterns regs m).

Lemma method_index_inj m m' : method_index m = method_index m' -> m = m'.
Proof. by destruct m, m'. Qed.

Record holds r (regs : list route) : Prop := {
  holds_len : length (routes_ r) = kMethodCount;
  holds_wf m : wf (tree_of r m);
  holds_get m ts : get (tree_of r m) ts = registered regs m ts;
}.

Lemma tree_of_add r m p h m' : length (routes_ r) = kMethodCount ->
  tree_of (add_route r m p h) m' = if bool_decide (m = m') then insert (tree_of r m) p h else tree_of r m'.
Proof.
  intros Hl. assert (method_index m < length (routes_ r))%nat as Hm by (rewrite Hl; unfold kMethodCount; destruct m; cbn; lia).
  unfold tree_of at 1. cbn [add_route routes_]. rewrite nth_lookup. case_bool_decide as E.
  - subst m'. by rewrite list_lookup_insert_eq.
  - rewrite list_lookup_insert_ne by (intros ?%method_index_inj; congruence). unfold tree_of. by rewrite nth_lookup.
Qed.

Lemma holds_add r regs m p h : all_bytes p -> holds r regs -> holds (add_route r m p h) (regs ++ [(m, p, h)]).
Proof.
  intros Hp [Hl Hw Hg]. destruct (insert_get (length p) (tree_of r m) p h (Hw m) Hp (le_n _)) as [Hwi Hgi]. split.
  - cbn. by rewrite length_insert.
  - intros m'. rewrite tree_of_add by done. by case_bool_decide.
  - intros m' ts. rewrite tree_of_add by done. unfold registered. rewrite foldl_app. cbn [foldl].
    fold (registered regs m' ts). case_bool_decide as E.
    + subst m'. unfold insert. rewrite Hgi, Hg. unfold tokens.
      destruct (decide (ts = tokens_from (length p) p)) as [->|Hne].
      * by rewrite bool_decide_eq_true_2.
      * rewrite bool_decide_eq_false_2; [done|]. intros [_ <-]. done.
    + rewrite bool_decide_eq_false_2 by naive_solver. apply Hg.
Qed.

Lemma holds_all regs : Forall (fun '(_, p, _) => all_bytes p) regs -> holds (add_all new_router regs) regs.
Proof.
  induction regs as [|[[m p] h] regs IH] using rev_ind; intros Hb.
  - split; [done|..]; intros m; unfold tree_of; cbn [add_all foldl new_router routes_]; rewrite nth_lookup.
    + destruct (replicate _ _ !! _) as [n|] eqn:E; [apply lookup_replicate in E as [-> _]|]; apply wf_new.
    + intros ts. destruct (replicate _ _ !! _) as [n|] eqn:E; [apply lookup_replicate in E as [-> _]|]; apply get_new.
  - apply Forall_app in Hb as [Hb Hp]. rewrite Forall_singleton in Hp. unfold add_all. rewrite foldl_app. apply holds_add; [done|by apply IH].
Qed.

Lemma patterns_in regs m p h : In (m, p, h) regs -> parts p ∈ patterns regs m.
Proof. intros Hin. apply list_elem_of_omap. exists (m, p, h). split; [by apply list_elem_of_In|]. by rewrite decide_True. Qed.

Lemma names_all regs m : Forall (fun '(_, p, _) => all_bytes p) regs ->
  let t := tree_of (add_all new_router regs) m in let Q := patterns regs m in
  (forall ps, (forall q, q ∈ Q -> agree q ps = true) -> fits t ps) /\
  ((forall q q', q ∈ Q -> q' ∈ Q -> agree q q' = true) ->
    (forall q, q ∈ Q -> named t q) /\ forall ps, named t ps -> ps = [] \/ exists q, q ∈ Q /\ ps `prefix_of` q).
Proof.
  induction regs as [|[[m' p] h] regs IH] using rev_ind; intros Hb.
  { cbn zeta. set (t := tree_of _ m). assert (t = new_node) as -> by (unfold t, tree_of; cbn [add_all foldl new_router routes_]; rewrite nth_lookup;
      destruct (replicate _ _ !! _) as [n|] eqn:E; [by apply lookup_replicate in E as [-> _]|done]).
    split; [intros; apply fits_new|]. intros _. split; [by intros q ?%not_elem_of_nil|]. intros [|[] ?]; [by left|done..]. }
  apply Forall_app in Hb as [Hb Hp]. rewrite Forall_singleton in Hp. destruct (IH Hb) as [I1 I2]. destruct (holds_all regs Hb) as [Hl Hw _].
  unfold add_all, patterns. rewrite foldl_app, omap_app. cbn [foldl omap list_omap]. rewrite tree_of_add by done. fold (add_all new_router regs) (patterns regs m).
  case_bool_decide as E; [subst m'; rewrite decide_True by done|rewrite decide_False by done; by rewrite app_nil_r].
  set (t := tree_of (add_all new_router regs) m) in *. destruct (insert_names (length p) t p h (Hw m) Hp (le_n _)) as (J1 & J2 & J3). cbn zeta. split.
  - intros ps Ha. apply J1; [apply I1; intros q Hq|]; apply Ha, elem_of_app; [by left|right; by left].
  - intros Ha. assert (fits t (parts p)) as Hf by (apply I1; intros q Hq; apply Ha; apply elem_of_app; [by left|right; by left]).
    destruct (I2 (fun q q' Hq Hq' => Ha q q' (proj2 (elem_of_app _ _ _) (or_introl Hq)) (proj2 (elem_of_app _ _ _) (or_introl Hq')))) as [K1 K2].
    destruct (J3 Hf) as [J4 J5]. split.
    + intros q [Hq| ->%list_elem_of_singleton]%elem_of_app; [by apply J2, K1|done].
    + intros ps [Hn|Hn]%J5; [|right; exists (parts p); split; [apply elem_of_app; right; by left|done]].
      destruct (K2 ps Hn) as [->|(q & Hq & Hpre)]; [by left|right]. exists q. split; [apply elem_of_app; by left|done].
Qed.

(** With names as they should be the search binds the names of the pattern. *)
Lemma names_bound (regs : list route) (m : Method) (p : bytes) (h : option H) (path : bytes) (out : gmap bytes bytes) : Forall (fun '(_, p, _) => all_bytes p) regs -> In (m, p, h) regs -> names_ok regs m = true ->
  let t := tree_of (add_all new_router regs) m in
  (unique_names t = true -> Forall (fun b => out !! fst b = Some (snd b)) (bindings t (tokens p) path)) ->
  Forall2 (fun nm v => out !! nm = Some v) (param_names (parts p)) (values (tokens p) path).
Proof.
  intros Hb Hin Hok t. unfold names_ok in Hok. rewrite forallb_forall in Hok.
  assert (forall q, q ∈ patterns regs m -> NoDup (param_names q) /\ forall q', q' ∈ patterns regs m -> agree q q' = true) as Hq.
  { intros q Hq%list_elem_of_In. apply Hok, andb_true_iff in Hq as [Hnd%bool_decide_eq_true Ha]. split; [done|]. rewrite forallb_forall in Ha.
    intros q' Hq'%list_elem_of_In. by apply Ha. }
  destruct (names_all regs m Hb) as [_ Hn]. fold t in Hn. destruct Hn as [K1 K2]; [intros q q' H1 H2; by apply Hq|].
  assert (unique_names t = true) as Hu.
  { apply (unique_named (height t)); [done|apply holds_all, Hb|]. intros ps [->|(q & Hin' & l & ->)]%K2; [constructor|].
    destruct (Hq _ Hin') as [Hnd _]. unfold param_names in *. rewrite omap_app in Hnd. by apply NoDup_app in Hnd as [? _]. }
  intros Hbind. specialize (Hbind Hu). unfold tokens in *. rewrite tokens_parts in *. fold (parts p) in *. eapply bindings_named; [|exact Hbind].
  apply K1. by eapply patterns_in.
Qed.

Lemma registered_in regs m ts h : registered regs m ts = Some h -> exists p, In (m, p, Some h) regs /\ tokens p = ts.
Proof.
  induction regs as [|[[m' p] h'] regs IH] using rev_ind; [done|]. unfold registered. rewrite foldl_app. cbn [foldl]. fold (registered regs m ts).
  case_bool_decide as E; [destruct E as [-> <-]; intros ->; exists p; split; [apply in_app_iff; right; by left|done]|].
  intros (q & Hq & ?)%IH. exists q. split; [apply in_app_iff; by left|done].
Qed.

Lemma add_prefixes_spec r prs : routes_ (add_prefixes r prs) = routes_ r /\ prefix_routes_ (add_prefixes r prs) = prefix_routes_ r ++ prs.
Proof.
  revert r. induction prs as [|[m p h] prs IH]; intros r; [cbn; by rewrite app_nil_r|].
  change (add_prefixes r (mkPrefix m p h :: prs)) with (add_prefixes (add_prefix_route r m p h) prs).
  destruct (IH (add_prefix_route r m p h)) as [-> ->]. cbn. by rewrite <- app_assoc.
Qed.

Lemma match_prefix_find prs m path params :
  match_prefix prs m path params =
  match List.find (fun pr => bool_decide (pr_method pr = m) && starts_with path (prefix_ pr)) prs with
  | Some pr => (pr_handler pr, <[chars "**" := zdrop (zlen (prefix_ pr)) path]> params)
  | None => (None, params)
  end.
Proof. induction prs as [|pr prs IH]; cbn; [done|]. by destruct (_ && _). Qed.

Lemma add_all_prefix r regs : prefix_routes_ (add_all r regs) = prefix_routes_ r.
Proof. revert r. induction regs as [|[[m p] h] regs IH]; intros r; cbn; [done|]. unfold add_all in IH. by rewrite IH. Qed.

Lemma search_found (n : Node H) path params : let '(res, out) := search n path params in found_first n path res out.
Proof. destruct (search n path params) as [res out] eqn:E. by eapply search_first. Qed.

Lemma find_found (n : Node H) path : (found (search n path ∅) = true) <-> exists ts, get n ts <> None /\ matches ts path.
Proof.
  pose proof (search_found n path ∅) as Hs. unfold found. destruct (search n path ∅) as [[h|] out]; cbn in *.
  - split; [|done]. intros _. destruct Hs as (ts & Hg & Hm & _). exists ts. by rewrite Hg.
  - split; [done|]. intros (ts & Hg & Hm). exfalso. by apply (Hs ts).
Qed.

Lemma path_exists_spec r regs path : holds r regs -> path_exists r path = true <->
  (exists m ts, registered regs m ts <> None /\ matches ts path) \/
  (exists pr, In pr (prefix_routes_ r) /\ starts_with path (prefix_ pr) = true).
Proof.
  intros [Hl Hw Hg]. unfold path_exists. rewrite orb_true_iff, !existsb_exists.
  assert ((exists t, In t (routes_ r) /\ found (search t path ∅) = true) <->
    exists m ts, registered regs m ts <> None /\ matches ts path) as ->; [|done]. split.
  - intros (t & Hin & Hf). apply find_found in Hf as (ts & Hgt & Hm).
    apply list_elem_of_In, list_elem_of_lookup in Hin as [i Hi].
    assert (exists m, method_index m = i) as [m <-].
    { apply lookup_lt_Some in Hi. rewrite Hl in Hi. unfold kMethodCount in Hi.
      destruct i as [|[|[|[|[|[|[|[|i]]]]]]]]; [by exists Get|by exists Post|by exists Put|by exists Delete|by exists Patch
        |by exists Options|by exists Head|by exists Unknown|lia]. }
    exists m, ts. rewrite <- Hg. unfold tree_of. by rewrite nth_lookup, Hi.
  - intros (m & ts & Hr & Hm). exists (tree_of r m). split; [|apply find_found; exists ts; by rewrite Hg].
    apply list_elem_of_In. unfold tree_of. rewrite nth_lookup. apply list_elem_of_lookup. exists (method_index m).
    destruct (lookup_lt_is_Some_2 (routes_ r) (method_index m)) as [n ->]; [rewrite Hl; unfold kMethodCount; destruct m; cbn; lia|done].
Qed.

(** C31.  The router answers with the handler last registered for the first pattern of
    the method that matches the path, literal characters before parameters.  Each [:name]
    of the pattern is bound to the segment it stands for, when every pattern of the method
    uses a name once and patterns that share a parameter give it the same name ([names_ok];
    [router_param_names] shows what happens otherwise).  If no pattern matches, it answers
    with the first prefix route of the method.  And a path exists exactly when some pattern
    of some method or some prefix matches. *)
Theorem router_first_match regs prs :
  Forall (fun '(_, p, _) => all_bytes p) regs ->
  let r := add_prefixes (add_all new_router regs) prs in
  (forall m path params,
    let '(res, out) := match_route r m path params in
    (exists h p, res = Some h /\ In (m, p, Some h) regs /\ registered regs m (tokens p) = Some h /\ matches (tokens p) path /\
       (forall ts, registered regs m ts <> None -> matches ts path -> ts = tokens p \/ before (tokens p) ts) /\
       (names_ok regs m = true -> Forall2 (fun nm v => out !! nm = Some v) (param_names (parts p)) (values (tokens p) path))) \/
    (forall ts, registered regs m ts <> None -> ~ matches ts path) /\
      match List.find (fun pr => bool_decide (pr_method pr = m) && starts_with path (prefix_ pr)) prs with
      | Some pr => res = pr_handler pr /\ out !! chars "**" = Some (zdrop (zlen (prefix_ pr)) path)
      | None => res = None
      end) /\
  (forall path, path_exists r path = true <->
    (exists m ts, registered regs m ts <> None /\ matches ts path) \/ (exists pr, In pr prs /\ starts_with path (prefix_ pr) = true)).
Proof.
  intros Hb r. destruct (holds_all regs Hb) as [Hl Hw Hg]. destruct (add_prefixes_spec (add_all new_router regs) prs) as [Er Ep].
  fold r in Er, Ep. rewrite add_all_prefix in Ep. cbn in Ep.
  assert (forall m, tree_of r m = tree_of (add_all new_router regs) m) as Et by (intros; unfold tree_of; by rewrite Er).
  assert (holds r regs) as Hr by (split; [by rewrite Er|intros; rewrite Et; auto..]). split.
  - intros m path params. unfold match_route. pose proof (search_found (tree_of r m) path params) as Hs.
    destruct (search (tree_of r m) path params) as [[h|] out]; cbn in Hs.
    + left. destruct Hs as (ts & Hgt & Hm & Hfirst & Hbind). rewrite (holds_get _ _ Hr) in Hgt.
      destruct (registered_in _ _ _ _ Hgt) as (p & Hin & <-). exists h, p. split_and!; try done.
      * intros ts'. rewrite <- (holds_get _ _ Hr). apply Hfirst.
      * intros Hnames. eapply names_bound; try done. by rewrite <- Et.
    + rewrite match_prefix_find, Ep.
      destruct (List.find _ prs) as [pr|]; right; (split; [intros ts; rewrite <- (holds_get _ _ Hr); apply Hs|]); [|done].
      split; [done|]. apply lookup_insert_eq.
  - intros path. rewrite (path_exists_spec r regs) by done. by rewrite Ep.
Qed.

End router.

(** ** Parameter names *)

Definition get_route (p : string) (h : Z) : @route Z := (Get, chars p, Some h).

(** A parameter keeps the name of the first route registered through it; and a failed
    attempt erases the binding of an outer parameter with the same name. *)
Theorem router_param_names :
  (let r := add_all new_router [get_route "/u/:id" 1; get_route "/u/:name/x" 2] in
   match_route r Get (chars "/u/7/x") ∅ = (Some 2, {[ chars "id" := chars "7" ]})) /\
  (let r := add_all new_router [get_route "/:id/a/:id/z" 1; get_route "/:id/:x/c" 2] in
   match_route r Get (chars "/1/a/c") ∅ = (Some 2, {[ chars "x" := chars "a" ]})).
Proof. split; vm_compute; reflexivity. Qed.

(** ** Witnesses *)

Definition sample_routes : list (@route Z) :=
  [get_route "/u/me" 1; get_route "/u/:id" 2; get_route "/u/:id/posts/:p" 3; get_route "/u/m" 4].

Lemma router_first_match_witness :
  let r := add_prefixes (add_all new_router sample_routes) [mkPrefix Get (chars "/s/") (Some 9)] in
  match_route r Get (chars "/u/42/posts/7") ∅ = (Some 3, {[ chars "id" := chars "42"; chars "p" := chars "7" ]}) /\
  path_exists r (chars "/s/a.css") = true /\ names_ok sample_routes Get = true.
Proof.
  assert (Forall (fun '(_, p, _) => all_bytes p) sample_routes) as Hb
    by (repeat (apply Forall_cons; split; [vm_compute; repeat constructor; discriminate|]); by apply Forall_nil).
  destruct (router_first_match sample_routes [mkPrefix Get (chars "/s/") (Some 9)] Hb) as [_ Hex].
  split; [vm_compute; reflexivity|]. split; [|vm_compute; reflexivity]. apply (proj2 (Hex (chars "/s/a.css"))). right. eexists. split; [by left|reflexivity].
Defined.
