(* ===== verification/Url.v ===== *)
(** * Query strings: [url.hpp] and the accessors of [http/request.hpp]

    Percent-encoding and decoding, the scanner behind [cookie] and [form], and the lazy
    cache behind [query].  Pairs written with [url_encode] are read back. *)

From stdpp Require Import gmap.
From S2P Require Import Prelude Text.
#[local] Open Scope Z_scope.
#[local] Open Scope word_scope.

Abbreviation PERCENT := 0x25.
Abbreviation AMP := 0x26.
Abbreviation EQUALS := 0x3D.
Abbreviation SPACE := 0x20.

(** ** Percent-encoding *)

Definition hex_digit (c : Z) : Z :=
  if (0x30 <=? c) && (c <=? 0x39) then c - 0x30 else
  if (0x41 <=? c) && (c <=? 0x46) then c - 0x41 + 10 else
  if (0x61 <=? c) && (c <=? 0x66) then c - 0x61 + 10 else -1.

Fixpoint url_decode (encoded : bytes) : bytes :=
  match encoded with
  | [] => []
  | c :: rest =>
      if c =? 0x2B then SPACE :: url_decode rest
      else if c =? PERCENT then
        match rest with
        | a :: b :: rest' =>
            let hi := hex_digit a in
            let lo := hex_digit b in
            if (0 <=? hi) && (0 <=? lo) then ((hi << 4) .| lo) :: url_decode rest' else c :: url_decode rest
        | _ => c :: url_decode rest
        end
      else c :: url_decode rest
  end.

Definition kHex : bytes := chars "0123456789ABCDEF".

(** [std::isalnum] in the "C" locale. *)
Definition isalnum (c : Z) : bool :=
  (0x30 <=? c) && (c <=? 0x39) || (0x41 <=? c) && (c <=? 0x5A) || (0x61 <=? c) && (c <=? 0x7A).

Definition unreserved (c : Z) : bool :=
  isalnum c || (c =? 0x2D) || (c =? 0x5F) || (c =? 0x2E) || (c =? 0x7E).

Definition encode_char (c : Z) : bytes :=
  if unreserved c then [c] else [PERCENT; at_ kHex ((c >> 4) .& 0x0F); at_ kHex (c .& 0x0F)].

Definition url_encode (raw : bytes) : bytes := concat (map encode_char raw).

(** ** Scanning pairs *)

(** [s.find(sep)] and the parts before and after it. *)
Fixpoint cut (sep : Z) (s : bytes) : bytes * option bytes :=
  match s with
  | [] => ([], None)
  | c :: s =>
      if c =? sep then ([], Some s)
      else let '(a, b) := cut sep s in (c :: a, b)
  end.

Fixpoint skip_spaces (s : bytes) : bytes :=
  match s with
  | c :: s' => if c =? SPACE then skip_spaces s' else s
  | [] => []
  end.

(** [scan_kv]; every turn shortens [src]. *)
Fixpoint scan_loop (fuel : nat) (src : bytes) (sep : Z) (key : bytes) : bytes :=
  match fuel, src with
  | S fuel, _ :: _ =>
      let '(kv, rest) := cut sep (skip_spaces src) in
      let '(k, v) := cut EQUALS kv in
      match v with
      | Some v' => if bool_decide (k = key) then v' else
          match rest with Some src => scan_loop fuel src sep key | None => [] end
      | None => match rest with Some src => scan_loop fuel src sep key | None => [] end
      end
  | _, _ => []
  end.

Definition scan_kv (src : bytes) (sep : Z) (key : bytes) : bytes := scan_loop (length src) src sep key.

Definition cookie (cookie_header : bytes) (key : bytes) : bytes := scan_kv cookie_header 0x3B key.

Definition form (content_type body : bytes) (key : bytes) : bytes :=
  match find content_type (chars "application/x-www-form-urlencoded") 0 with
  | None => []
  | Some _ => scan_kv body AMP key
  end.

Abbreviation kMaxQueryStringBytes := (65536)%Z (only parsing).
Abbreviation kMaxQueryParams := (128)%Z (only parsing).

Abbreviation StringMap := (gmap bytes bytes).

Fixpoint cache_loop (fuel : nat) (src : bytes) (cache : StringMap) : StringMap :=
  match fuel, src with
  | S fuel, _ :: _ =>
      if kMaxQueryParams <=? Z.of_nat (size cache) then cache else
      let '(kv, rest) := cut AMP src in
      let '(k, v) := cut EQUALS kv in
      let cache := match v with Some v' => <[k := v']> cache | None => cache end in
      match rest with Some src => cache_loop fuel src cache | None => cache end
  | _, _ => cache
  end.

(** The query part of a request. *)
Record Query := mkQuery { query_string_ : bytes; query_cache_ : option StringMap }.

Definition ensure_query_cache (q : Query) : Query :=
  match query_cache_ q with
  | Some _ => q
  | None =>
      mkQuery (query_string_ q)
        (Some (if kMaxQueryStringBytes <? zlen (query_string_ q) then ∅
               else cache_loop (length (query_string_ q)) (query_string_ q) ∅))
  end.

Definition query (q : Query) (key : bytes) : bytes * Query :=
  let q := ensure_query_cache q in
  match query_cache_ q with
  | Some cache => (default [] (cache !! key), q)
  | None => ([], q)
  end.

(** ** Decoding what was encoded *)

Lemma plain_char c : 0 <= c < 256 ->
  unreserved c = true -> c <> 0x2B /\ c <> PERCENT /\ c <> AMP /\ c <> EQUALS /\ c <> SPACE.
Proof. intros Hc. by_range c Hc. Qed.

Lemma hex_char c : 0 <= c < 256 ->
  let a := at_ kHex ((c >> 4) .& 0x0F) in let b := at_ kHex (c .& 0x0F) in
  0 <= hex_digit a /\ 0 <= hex_digit b /\ ((hex_digit a << 4) .| hex_digit b) = c /\
  (a <> AMP /\ a <> EQUALS /\ a <> SPACE) /\ (b <> AMP /\ b <> EQUALS /\ b <> SPACE).
Proof. intros Hc. by_range c Hc. Qed.

Lemma decode_char c s : 0 <= c < 256 -> url_decode (encode_char c ++ s) = c :: url_decode s.
Proof.
  intros Hc. unfold encode_char. destruct (unreserved c) eqn:E.
  - destruct (plain_char c Hc E) as (H1 & H2 & _). cbn [app url_decode].
    apply Z.eqb_neq in H1 as ->. by apply Z.eqb_neq in H2 as ->.
  - destruct (hex_char c Hc) as (H1 & H2 & H3 & _). set (a := at_ kHex ((c >> 4) .& 15)) in *. set (b := at_ kHex (c .& 15)) in *.
    cbn [app url_decode]. change (PERCENT =? 0x2B) with false. change (PERCENT =? PERCENT) with true. cbv iota.
    apply Z.leb_le in H1 as ->. apply Z.leb_le in H2 as ->. cbn [andb]. by rewrite H3.
Qed.

Lemma url_decode_encode raw : all_bytes raw -> url_decode (url_encode raw) = raw.
Proof.
  induction 1 as [|c raw Hc _ IH]; [done|]. unfold url_encode in *. cbn [map concat]. by rewrite decode_char, IH.
Qed.

Lemma encode_inj a b : all_bytes a -> all_bytes b -> url_encode a = url_encode b -> a = b.
Proof. intros Ha Hb E. by rewrite <- (url_decode_encode a), E, url_decode_encode. Qed.

Definition safe (c : Z) : Prop := c <> AMP /\ c <> EQUALS /\ c <> SPACE.

Lemma encode_safe raw : all_bytes raw -> Forall safe (url_encode raw).
Proof.
  induction 1 as [|c raw Hc _ IH]; [constructor|]. unfold url_encode in *. cbn [map concat]. apply Forall_app. split; [|done].
  unfold encode_char. destruct (unreserved c) eqn:E.
  - destruct (plain_char c Hc E) as (_ & _ & ?). by apply Forall_singleton.
  - destruct (hex_char c Hc) as (_ & _ & _ & Ha & Hb). by repeat (apply Forall_cons; split).
Qed.

(** ** Pairs *)

Lemma cut_app sep a b : sep ∉ a -> cut sep (a ++ sep :: b) = (a, Some b).
Proof.
  induction a as [|c a IH]; cbn; intros Ha; [by rewrite Z.eqb_refl|]. apply not_elem_of_cons in Ha as [H1 H2].
  destruct (Z.eqb_spec c sep); [congruence|]. by rewrite IH.
Qed.

Lemma cut_none sep a : sep ∉ a -> cut sep a = (a, None).
Proof.
  induction a as [|c a IH]; cbn; intros Ha; [done|]. apply not_elem_of_cons in Ha as [H1 H2].
  destruct (Z.eqb_spec c sep); [congruence|]. by rewrite IH.
Qed.

(** The text of a list of pairs. *)
Definition encode_pair (p : bytes * bytes) : bytes := url_encode (fst p) ++ EQUALS :: url_encode (snd p).

Fixpoint join (ps : list (bytes * bytes)) : bytes :=
  match ps with
  | [] => []
  | [p] => encode_pair p
  | p :: ps => encode_pair p ++ AMP :: join ps
  end.

Definition pair_bytes (p : bytes * bytes) : Prop := all_bytes (fst p) /\ all_bytes (snd p).

Lemma encode_pair_no_amp p : pair_bytes p -> AMP ∉ encode_pair p.
Proof.
  intros [H1 H2]. apply not_elem_of_app. split; [|apply not_elem_of_cons; split; [done|]];
    (eapply not_elem_of_Forall; [by apply encode_safe|]); by intros [? _].
Qed.

Lemma cut_pair p : pair_bytes p -> cut EQUALS (encode_pair p) = (url_encode (fst p), Some (url_encode (snd p))).
Proof.
  intros [H1 _]. apply cut_app. eapply not_elem_of_Forall; [by apply encode_safe|]. by intros (_ & ? & _).
Qed.

Lemma skip_spaces_pair p s : pair_bytes p -> skip_spaces (encode_pair p ++ s) = encode_pair p ++ s.
Proof.
  intros [H1 _]. unfold encode_pair. pose proof (encode_safe _ H1) as Hs. destruct (url_encode (fst p)) as [|c k]; [done|].
  apply Forall_cons in Hs as [(_ & _ & Hc) _]. cbn. by apply Z.eqb_neq in Hc as ->.
Qed.

(** A joined list is its first pair and the rest. *)
Lemma cut_join p ps : pair_bytes p ->
  cut AMP (join (p :: ps)) = (encode_pair p, match ps with [] => None | _ => Some (join ps) end) /\
  skip_spaces (join (p :: ps)) = join (p :: ps) /\ join (p :: ps) <> [].
Proof.
  intros Hp. pose proof (encode_pair_no_amp p Hp) as Hn. destruct ps as [|q ps].
  - change (join [p]) with (encode_pair p). split_and!; [by apply cut_none| |].
    + rewrite <- (app_nil_r (encode_pair p)). by apply skip_spaces_pair.
    + unfold encode_pair. by destruct (url_encode (fst p)).
  - change (join (p :: q :: ps)) with (encode_pair p ++ AMP :: join (q :: ps)).
    split_and!; [by apply cut_app|by apply skip_spaces_pair|]. unfold encode_pair. by destruct (url_encode (fst p)).
Qed.

(** The value of the first and of the last pair with a key. *)
Definition first_value (ps : list (bytes * bytes)) (key : bytes) : bytes :=
  match List.find (fun p => bool_decide (fst p = key)) ps with Some p => snd p | None => [] end.

Definition last_value (ps : list (bytes * bytes)) (key : bytes) : bytes := first_value (rev ps) key.

Lemma key_eq a b : all_bytes a -> all_bytes b -> bool_decide (url_encode a = url_encode b) = bool_decide (a = b).
Proof. intros Ha Hb. apply bool_decide_ext. split; [by apply encode_inj|congruence]. Qed.

Lemma join_length p ps : (length (join ps) < length (join (p :: ps)))%nat.
Proof.
  destruct ps as [|q ps].
  - cbn. unfold encode_pair. rewrite length_app. cbn. lia.
  - change (join (p :: q :: ps)) with (encode_pair p ++ AMP :: join (q :: ps)). rewrite length_app. cbn [length]. lia.
Qed.

Lemma scan_join fuel ps key : Forall pair_bytes ps -> all_bytes key -> (length (join ps) <= fuel)%nat ->
  scan_loop fuel (join ps) AMP (url_encode key) = url_encode (first_value ps key).
Proof.
  intros Hps Hk. revert fuel. induction Hps as [|p ps Hp Hps IH]; intros fuel Hf; [by destruct fuel|].
  destruct (cut_join p ps Hp) as (Ec & Es & Hne). pose proof (join_length p ps) as Hl.
  destruct fuel as [|fuel]; [lia|]. destruct (join (p :: ps)) as [|c s] eqn:Ej; [done|]. rewrite <- Ej in *. clear Ej.
  cbn [scan_loop]. destruct (join (p :: ps)) as [|c' s'] eqn:Ej; [done|]. rewrite <- Ej in *.
  rewrite Es, Ec, cut_pair by done. rewrite key_eq by (apply Hp || done).
  unfold first_value. cbn [List.find]. case_bool_decide; [done|]. destruct ps as [|q ps]; [done|]. apply IH. lia.
Qed.

(** The cache after the pairs, as long as its limit is not reached. *)
Lemma cache_join (fuel : nat) (ps : list (bytes * bytes)) (cache : StringMap) : Forall pair_bytes ps -> (length (join ps) <= fuel)%nat ->
  Z.of_nat (size cache) + zlen ps <= kMaxQueryParams ->
  cache_loop fuel (join ps) cache = foldl (fun m p => <[url_encode (fst p) := url_encode (snd p)]> m) cache ps.
Proof.
  intros Hps. revert fuel cache. induction Hps as [|p ps Hp Hps IH]; intros fuel cache Hf Hm; [by destruct fuel|].
  destruct (cut_join p ps Hp) as (Ec & _ & Hne). pose proof (join_length p ps) as Hl. rewrite zlen_cons in Hm. pose proof (zlen_nonneg ps).
  destruct fuel as [|fuel]; [lia|]. cbn [cache_loop]. destruct (join (p :: ps)) as [|c s] eqn:Ej; [done|]. rewrite <- Ej in *.
  destruct (Z.leb_spec kMaxQueryParams (Z.of_nat (size cache))); [lia|]. rewrite Ec, cut_pair by done. cbn [foldl].
  destruct ps as [|q ps]; [done|]. apply IH; [lia|].
  assert (size (<[url_encode (fst p) := url_encode (snd p)]> cache) <= S (size cache))%nat as Hsz.
  { destruct (cache !! url_encode (fst p)) eqn:E; [rewrite map_size_insert_Some by eauto; lia|rewrite map_size_insert_None by done; lia]. }
  lia.
Qed.

Lemma cache_last ps key : Forall pair_bytes ps -> all_bytes key ->
  default [] (foldl (fun m p => <[url_encode (fst p) := url_encode (snd p)]> m) (∅ : StringMap) ps !! url_encode key) =
  url_encode (last_value ps key).
Proof.
  intros Hps Hk. unfold last_value, first_value. induction ps as [|p ps IH] using rev_ind; [done|].
  apply Forall_app in Hps as [Hps [[Hp1 Hp2] _]%Forall_cons]. rewrite foldl_app, rev_app_distr. cbn [foldl rev app List.find].
  destruct (decide (fst p = key)) as [E|E].
  - rewrite bool_decide_eq_true_2 by done. by rewrite E, lookup_insert_eq.
  - rewrite bool_decide_eq_false_2 by done. rewrite lookup_insert_ne by (intros ?%encode_inj; done). by apply IH.
Qed.

Lemma first_value_bytes ps key : Forall pair_bytes ps -> all_bytes (first_value ps key).
Proof.
  intros Hps. unfold first_value. destruct (List.find _ ps) as [p|] eqn:E; [|constructor].
  apply find_some in E as [Hin _]. rewrite Forall_forall in Hps. apply Hps. by apply list_elem_of_In.
Qed.

(** Any pairs of byte strings, percent-encoded and joined, are read back: [form]
    returns the first value of a key, [query] the last one for up to 128 pairs and 64 KiB,
    a second [query] answers the same from its cache; and decoding undoes encoding. *)
Theorem query_roundtrip ps key content_type :
  Forall pair_bytes ps -> all_bytes key ->
  find content_type (chars "application/x-www-form-urlencoded") 0 <> None ->
  zlen ps <= kMaxQueryParams -> zlen (join ps) <= kMaxQueryStringBytes ->
  url_decode (url_encode key) = key /\
  url_decode (form content_type (join ps) (url_encode key)) = first_value ps key /\
  (let '(v, q) := query (mkQuery (join ps) None) (url_encode key) in
   url_decode v = last_value ps key /\ query q (url_encode key) = (v, q)).
Proof.
  intros Hps Hk Hct Hn Hl. split; [by apply url_decode_encode|]. split.
  - unfold form. destruct (find _ _ 0); [|done]. unfold scan_kv. rewrite scan_join by done. apply url_decode_encode. by apply first_value_bytes.
  - unfold query, ensure_query_cache. cbn [query_cache_ query_string_].
    destruct (Z.ltb_spec kMaxQueryStringBytes (zlen (join ps))); [lia|]. rewrite cache_join by (done || lia).
    rewrite cache_last by done. split; [|done]. apply url_decode_encode, first_value_bytes, Forall_rev, Hps.
Qed.

(** ** Witnesses *)

Lemma query_roundtrip_witness :
  url_decode (url_encode (chars "a b&c")) = chars "a b&c" /\
  url_decode (fst (query (mkQuery (join [(chars "k", chars "1"); (chars "a b&c", chars "x=y"); (chars "k", chars "2")]) None) (url_encode (chars "k")))) = chars "2".
Proof.
  set (ps := [(chars "k", chars "1"); (chars "a b&c", chars "x=y"); (chars "k", chars "2")]).
  assert (Forall pair_bytes ps) as Hps
    by (repeat (apply Forall_cons; split; [split; vm_compute; repeat constructor; discriminate|]); by apply Forall_nil).
  split.
  - eapply (query_roundtrip ps (chars "a b&c") (chars "application/x-www-form-urlencoded")); try done; vm_compute; repeat constructor; discriminate.
  - destruct (query_roundtrip ps (chars "k") (chars "application/x-www-form-urlencoded") Hps) as (_ & _ & H);
      [vm_compute; repeat constructor; discriminate|done|done|done|]. exact (proj1 H).
Defined.
