(* ===== verification/Response.v ===== *)
(** * HTTP responses: [http/response.hpp], [http/response.cpp]

    The response a handler builds and the bytes the server writes for it: status line,
    headers, cookies, a body of known length or chunks with trailers, and the chunks a
    streaming handler flushes while it runs.  [headers_] is walked in the order of the
    standard library's hash table: the argument [order]. *)

From stdpp Require Import gmap.
From S2P Require Import Prelude Text HttpParser.
#[local] Open Scope Z_scope.

(** ** Numbers *)

(** [std::to_string(int)]. *)
Definition int_to_string (z : Z) : bytes := if z <? 0 then 0x2D :: to_string (- z) else to_string z.

Definition hex_char (d : Z) : Z := if d <? 10 then 0x30 + d else 0x61 + (d - 10).

(** [%zx]: the last digit first, in front of [acc]. *)
Fixpoint print_hex (fuel : nat) (z : Z) (acc : bytes) : bytes :=
  match fuel with
  | O => acc
  | S fuel =>
      let acc := hex_char (z mod 16) :: acc in
      if z <? 16 then acc else print_hex fuel (z / 16) acc
  end.

(** ** [Response] *)

Record Response := mkResponse {
  status_code_ : Z;
  headers_ : gmap bytes bytes;
  cookies_ : list bytes;
  body_ : bytes;
  sendfile_path_ : bytes;
  sendfile_size_ : Z;
  chunked_ : bool;
  chunk_buf_ : bytes;
  stream_fd_ : Z;
  header_sent_ : bool;
  streamed_ : bool;
  streamed_bytes_ : Z;
  trailers_ : list (bytes * bytes);
}.

Definition new_response : Response := mkResponse 200 ∅ [] [] [] 0 false [] (-1) false false 0 [].

Definition status (code : Z) (r : Response) : Response :=
  mkResponse code (headers_ r) (cookies_ r) (body_ r) (sendfile_path_ r) (sendfile_size_ r) (chunked_ r)
    (chunk_buf_ r) (stream_fd_ r) (header_sent_ r) (streamed_ r) (streamed_bytes_ r) (trailers_ r).

Definition header (key value : bytes) (r : Response) : Response :=
  mkResponse (status_code_ r) (<[key := value]> (headers_ r)) (cookies_ r) (body_ r) (sendfile_path_ r)
    (sendfile_size_ r) (chunked_ r) (chunk_buf_ r) (stream_fd_ r) (header_sent_ r) (streamed_ r)
    (streamed_bytes_ r) (trailers_ r).

Definition body (b : bytes) (r : Response) : Response :=
  mkResponse (status_code_ r) (headers_ r) (cookies_ r) b (sendfile_path_ r) (sendfile_size_ r) (chunked_ r)
    (chunk_buf_ r) (stream_fd_ r) (header_sent_ r) (streamed_ r) (streamed_bytes_ r) (trailers_ r).

Definition get_header (key : bytes) (r : Response) : bytes := default [] (headers_ r !! key).

(** The frame of one chunk; [sz] has room for the digits of a size below 2^52. *)
Definition chunk_frame (data : bytes) : bytes := print_hex 16 (zlen data) [] ++ CRLF ++ data ++ CRLF.

Definition chunk (data : bytes) (r : Response) : Response :=
  if zlen data =? 0 then r
  else mkResponse (status_code_ r) (headers_ r) (cookies_ r) (body_ r) (sendfile_path_ r) (sendfile_size_ r)
         (chunked_ r) (chunk_buf_ r ++ chunk_frame data) (stream_fd_ r) (header_sent_ r) (streamed_ r)
         (streamed_bytes_ r) (trailers_ r).

Definition end_chunks (r : Response) : Response :=
  mkResponse (status_code_ r) (headers_ r) (cookies_ r) (body_ r) (sendfile_path_ r) (sendfile_size_ r)
    true (chunk_buf_ r ++ chars "0" ++ CRLF) (stream_fd_ r) (header_sent_ r) (streamed_ r)
    (streamed_bytes_ r) (trailers_ r).

Definition trailer (key value : bytes) (r : Response) : Response :=
  if negb (chunked_ r) then r
  else
    let names := match headers_ r !! chars "Trailer" with
                 | None => key
                 | Some v => v ++ chars ", " ++ key
                 end in
    mkResponse (status_code_ r) (<[chars "Trailer" := names]> (headers_ r)) (cookies_ r) (body_ r)
      (sendfile_path_ r) (sendfile_size_ r) (chunked_ r) (chunk_buf_ r) (stream_fd_ r) (header_sent_ r)
      (streamed_ r) (streamed_bytes_ r) (trailers_ r ++ [(key, value)]).

Definition has_trailers (r : Response) : bool := negb (zlen (trailers_ r) =? 0).

(** [key: value\r\n]. *)
Definition field_line (h : bytes * bytes) : bytes := fst h ++ chars ": " ++ snd h ++ CRLF.

Definition encode_trailers (r : Response) : bytes :=
  if zlen (trailers_ r) =? 0 then CRLF else concat (map field_line (trailers_ r)) ++ CRLF.

Record CookieOptions := mkCookie {
  path : bytes;
  domain : bytes;
  same_site : bytes;
  max_age : Z;
  http_only : bool;
  secure : bool;
}.

Definition set_cookie (name value : bytes) (opts : CookieOptions) (r : Response) : Response :=
  let attr (on : bool) (text : bytes) := if on then text else [] in
  let cookie :=
    name ++ chars "=" ++ value ++
    attr (negb (zlen (path opts) =? 0)) (chars "; Path=" ++ path opts) ++
    attr (negb (zlen (domain opts) =? 0)) (chars "; Domain=" ++ domain opts) ++
    attr (0 <=? max_age opts) (chars "; Max-Age=" ++ int_to_string (max_age opts)) ++
    attr (negb (zlen (same_site opts) =? 0)) (chars "; SameSite=" ++ same_site opts) ++
    attr (secure opts) (chars "; Secure") ++
    attr (http_only opts) (chars "; HttpOnly") in
  mkResponse (status_code_ r) (headers_ r) (cookies_ r ++ [cookie]) (body_ r) (sendfile_path_ r)
    (sendfile_size_ r) (chunked_ r) (chunk_buf_ r) (stream_fd_ r) (header_sent_ r) (streamed_ r)
    (streamed_bytes_ r) (trailers_ r).

Definition sendfile_path (p : bytes) (size : Z) (r : Response) : Response :=
  mkResponse (status_code_ r) (headers_ r) (cookies_ r) (body_ r) p size (chunked_ r) (chunk_buf_ r)
    (stream_fd_ r) (header_sent_ r) (streamed_ r) (streamed_bytes_ r) (trailers_ r).

Definition has_sendfile (r : Response) : bool := negb (zlen (sendfile_path_ r) =? 0).

Definition set_stream_fd (fd : Z) (r : Response) : Response :=
  mkResponse (status_code_ r) (headers_ r) (cookies_ r) (body_ r) (sendfile_path_ r) (sendfile_size_ r)
    (chunked_ r) (chunk_buf_ r) fd (header_sent_ r) (streamed_ r) (streamed_bytes_ r) (trailers_ r).

(** A value already in quotes, or weak, is kept. *)
Definition etag (value : bytes) (r : Response) : Response :=
  match value with
  | 0x22 :: _ => header (chars "ETag") value r
  | 0x57 :: 0x2F :: _ => header (chars "ETag") value r
  | _ => header (chars "ETag") ([0x22] ++ value ++ [0x22]) r
  end.

Definition status_to_string (code : Z) : bytes :=
  if code =? 200 then chars "OK" else
  if code =? 201 then chars "Created" else
  if code =? 204 then chars "No Content" else
  if code =? 206 then chars "Partial Content" else
  if code =? 301 then chars "Moved Permanently" else
  if code =? 302 then chars "Found" else
  if code =? 304 then chars "Not Modified" else
  if code =? 400 then chars "Bad Request" else
  if code =? 401 then chars "Unauthorized" else
  if code =? 403 then chars "Forbidden" else
  if code =? 404 then chars "Not Found" else
  if code =? 405 then chars "Method Not Allowed" else
  if code =? 408 then chars "Request Timeout" else
  if code =? 429 then chars "Too Many Requests" else
  if code =? 500 then chars "Internal Server Error" else
  if code =? 502 then chars "Bad Gateway" else
  if code =? 503 then chars "Service Unavailable" else chars "Unknown".

Section serialize.
Context (order : gmap bytes bytes -> list (bytes * bytes)).

Definition serialize_header (r : Response) : bytes :=
  chars "HTTP/1.1 " ++ int_to_string (status_code_ r) ++ [SP] ++ status_to_string (status_code_ r) ++ CRLF ++
  concat (map field_line (order (headers_ r))) ++
  concat (map (fun c => chars "Set-Cookie: " ++ c ++ CRLF) (cookies_ r)) ++
  (if chunked_ r then chars "Transfer-Encoding: chunked" ++ CRLF ++ CRLF
   else chars "Content-Length: " ++
        to_string (if zlen (sendfile_path_ r) =? 0 then zlen (body_ r) else sendfile_size_ r) ++ CRLF ++ CRLF).

Definition serialize (r : Response) : bytes := serialize_header r ++ body_ r.

(** [flush] and [flush_end]: the bytes given to [WriteAll], which reports [ok], and the
    response after it. *)
Definition flush (ok : bool) (r : Response) : Response * bytes :=
  if stream_fd_ r <? 0 then (r, [])
  else
    let announced :=
      mkResponse (status_code_ r) (headers_ r) (cookies_ r) (body_ r) (sendfile_path_ r) (sendfile_size_ r) true
        (chunk_buf_ r) (stream_fd_ r) true true (streamed_bytes_ r) (trailers_ r) in
    let '(r, out) := if header_sent_ r then (r, []) else (announced, serialize_header announced) in
    let out := out ++ chunk_buf_ r in
    let set fd sent := mkResponse (status_code_ r) (headers_ r) (cookies_ r) (body_ r) (sendfile_path_ r)
      (sendfile_size_ r) (chunked_ r) [] fd (header_sent_ r) (streamed_ r) sent (trailers_ r) in
    if zlen out =? 0 then (set (stream_fd_ r) (streamed_bytes_ r), [])
    else if ok then (set (stream_fd_ r) (streamed_bytes_ r + zlen out), out)
    else (set (-1) (streamed_bytes_ r), out).

Definition flush_end (ok : bool) (r : Response) : Response * bytes :=
  if stream_fd_ r <? 0 then (r, [])
  else
    let announced :=
      mkResponse (status_code_ r) (headers_ r) (cookies_ r) (body_ r) (sendfile_path_ r) (sendfile_size_ r) true
        (chunk_buf_ r) (stream_fd_ r) true true (streamed_bytes_ r) (trailers_ r) in
    let '(r, out) := if header_sent_ r then (r, []) else (announced, serialize_header announced) in
    let out := out ++ chunk_buf_ r ++ chars "0" ++ CRLF ++ CRLF in
    (mkResponse (status_code_ r) (headers_ r) (cookies_ r) (body_ r) (sendfile_path_ r) (sendfile_size_ r)
       (chunked_ r) [] (-1) (header_sent_ r) (streamed_ r)
       (if ok then streamed_bytes_ r + zlen out else streamed_bytes_ r) (trailers_ r), out).
End serialize.
