(* ===== verification/Fetch.v ===== *)
(** * The HTTP client: [http/fetch.hpp]

    URLs, the request text, the loop that reads a response from the socket and the parser
    of what it read, and the redirect loop over them.  Name resolution, connecting and
    writing the request are the argument [transport]: an error, or what the reads of the
    connection will return.  A request's header map is walked in the order of the standard
    library's hash table, the argument [order]. *)

From stdpp Require Import gmap.
From S2P Require Import Prelude Text HttpParser Response.
#[local] Open Scope Z_scope.

(** ** Characters and numbers *)

Definition tolower (c : Z) : Z := if (0x41 <=? c) && (c <=? 0x5A) then c + 32 else c.

(** [std::from_chars] on an unsigned type with maximum [max]: the leading digits. *)
Fixpoint leading_digits (s : bytes) (acc : Z) : Z :=
  match s with
  | c :: s => if (0x30 <=? c) && (c <=? 0x39) then leading_digits s (acc * 10 + (c - 0x30)) else acc
  | [] => acc
  end.

Definition from_chars_prefix (max : Z) (s : bytes) : option Z :=
  match s with
  | c :: _ =>
      if (0x30 <=? c) && (c <=? 0x39)
      then let v := leading_digits s 0 in if max <? v then None else Some v
      else None
  | [] => None
  end.

(** The same on [int]: a minus sign is allowed. *)
Definition from_chars_int (s : bytes) : option Z :=
  match s with
  | 0x2D :: s => option_map Z.opp (from_chars_prefix (2 ^ 31) s)
  | _ => from_chars_prefix (2 ^ 31 - 1) s
  end.

(** ** [ParsedUrl] *)

Record ParsedUrl := mkUrl { scheme : bytes; host : bytes; port : Z; path : bytes }.

Definition parse_port (s : bytes) : result Z :=
  match from_chars_prefix (2 ^ 16 - 1) s with Some p => Ok p | None => Err invalid_argument end.

Definition parse_url (url : bytes) : result ParsedUrl :=
  match find url (chars "://") 0 with
  | None => Err invalid_argument
  | Some scheme_end =>
      let scheme := substr url 0 scheme_end in
      let url := zdrop (scheme_end + 3) url in
      if negb (bool_decide (scheme = chars "http")) && negb (bool_decide (scheme = chars "https")) then Err invalid_argument
      else
        let default_port := if decide (scheme = chars "http") then 80 else 443 in
        let '(authority, path) :=
          match find url [0x2F] 0 with
          | None => (url, chars "/")
          | Some path_start => (substr url 0 path_start, zdrop path_start url)
          end in
        let host_port :=
          match authority with
          | 0x5B :: _ =>
              match find authority [0x5D] 0 with
              | None => Err invalid_argument
              | Some bracket =>
                  let host := substr authority 1 (bracket - 1) in
                  match zdrop (bracket + 1) authority with
                  | 0x3A :: port_sv =>
                      match parse_port port_sv with Ok p => Ok (host, p) | Err e => Err e end
                  | _ => Ok (host, default_port)
                  end
              end
          | _ =>
              match find authority [0x3A] 0 with
              | None => Ok (authority, default_port)
              | Some colon =>
                  match parse_port (zdrop (colon + 1) authority) with
                  | Ok p => Ok (substr authority 0 colon, p)
                  | Err e => Err e
                  end
              end
          end in
        match host_port with
        | Err e => Err e
        | Ok (host, port) => if zlen host =? 0 then Err invalid_argument else Ok (mkUrl scheme host port path)
        end
  end.

(** ** [FetchResponse] *)

Record FetchResponse := mkFetch { status_ : Z; fetch_headers_ : gmap bytes bytes; fetch_body_ : bytes }.

(** [add_header]: the key in lower case; the last value is kept. *)
Definition fetch_add_header (k v : bytes) (hs : gmap bytes bytes) : gmap bytes bytes := <[map tolower k := v]> hs.

Definition fetch_header (hs : gmap bytes bytes) (key : bytes) : bytes := default [] (hs !! map tolower key).

(** ** [serialize_request] *)

Definition method_name (m : Method) : bytes :=
  match m with
  | Get => chars "GET" | Post => chars "POST" | Put => chars "PUT" | Delete => chars "DELETE"
  | Patch => chars "PATCH" | Options => chars "OPTIONS" | Head => chars "HEAD" | Unknown => chars "GET"
  end.

(** The value of the [Host] header. *)
Definition host_value (u : ParsedUrl) : bytes :=
  host u ++
  (if (bool_decide (scheme u = chars "http") && negb (port u =? 80)) ||
      (bool_decide (scheme u = chars "https") && negb (port u =? 443))
   then chars ":" ++ to_string (port u) else []).

Section request.
Context (order : gmap bytes bytes -> list (bytes * bytes)).

Definition serialize_request (m : Method) (u : ParsedUrl) (headers : gmap bytes bytes) (body : bytes) (keep_alive : bool) : bytes :=
  method_name m ++ [SP] ++ (if zlen (path u) =? 0 then chars "/" else path u) ++ chars " HTTP/1.1" ++ CRLF ++
  chars "Host: " ++ host_value u ++ CRLF ++
  concat (map field_line (order headers)) ++
  (if zlen body =? 0 then [] else chars "Content-Length: " ++ to_string (zlen body) ++ CRLF) ++
  (if keep_alive then chars "Connection: keep-alive" else chars "Connection: close") ++ CRLF ++
  CRLF ++ body.
End request.

(** ** [parse_response] *)

Fixpoint skip_blanks (s : bytes) : bytes :=
  match s with
  | c :: t => if (c =? 0x20) || (c =? 0x09) then skip_blanks t else s
  | [] => []
  end.

(** The header lines; every turn removes one. *)
Fixpoint parse_fields (fuel : nat) (raw : bytes) (hs : gmap bytes bytes) : result (gmap bytes bytes * bytes) :=
  match fuel with
  | O => Err protocol_error
  | S fuel =>
      match find raw CRLF 0 with
      | None => Err protocol_error
      | Some nl =>
          if nl =? 0 then Ok (hs, zdrop 2 raw)
          else
            let line := substr raw 0 nl in
            let raw := zdrop (nl + 2) raw in
            match find line [0x3A] 0 with
            | None => parse_fields fuel raw hs
            | Some colon =>
                parse_fields fuel raw
                  (fetch_add_header (substr line 0 colon) (skip_blanks (zdrop (colon + 1) line)) hs)
            end
      end
  end.

(** A chunk size in 64 bits; a character that is no digit counts as 0. *)
Definition size_value (s : bytes) : Z :=
  foldl (fun n c =>
    let n := u64 (n << 4) in
    if (0x30 <=? c) && (c <=? 0x39) then n .| (c - 0x30) else
    if (0x61 <=? c) && (c <=? 0x66) then n .| (c - 0x61 + 10) else
    if (0x41 <=? c) && (c <=? 0x46) then n .| (c - 0x41 + 10) else n) 0 s.

(** The chunks; every turn removes a size line. *)
Fixpoint parse_chunks (fuel : nat) (raw acc : bytes) : bytes :=
  match fuel with
  | O => acc
  | S fuel =>
      if zlen raw =? 0 then acc else
      match find raw CRLF 0 with
      | None => acc
      | Some nl =>
          let size_line := substr raw 0 nl in
          let raw := zdrop (nl + 2) raw in
          let size_line := match find size_line [0x3B] 0 with
                           | None => size_line
                           | Some semi => substr size_line 0 semi
                           end in
          let chunk_size := size_value size_line in
          if chunk_size =? 0 then acc
          else if zlen raw <? u64 (chunk_size + 2) then acc
          else parse_chunks fuel (zdrop (u64 (chunk_size + 2)) raw) (acc ++ substr raw 0 chunk_size)
      end
  end.

(** The body: chunked, of a given length, or up to the end. *)
Definition parse_body (hs : gmap bytes bytes) (raw : bytes) : bytes :=
  match find (fetch_header hs (chars "transfer-encoding")) (chars "chunked") 0 with
  | Some _ => parse_chunks (S (length raw)) raw []
  | None =>
      let cl_sv := fetch_header hs (chars "content-length") in
      if zlen cl_sv =? 0 then raw
      else substr raw 0 (default 0 (from_chars_prefix UINT64_MAX cl_sv))
  end.

Definition parse_response (raw : bytes) : result FetchResponse :=
  match find raw CRLF 0 with
  | None => Err protocol_error
  | Some crlf =>
      let status_line := substr raw 0 crlf in
      let raw := zdrop (crlf + 2) raw in
      if (zlen status_line <? 12) || negb (bool_decide (substr status_line 0 5 = chars "HTTP/")) then Err protocol_error
      else
        match from_chars_int (substr status_line 9 3) with
        | None => Err protocol_error
        | Some code =>
            match parse_fields (S (length raw)) raw ∅ with
            | Err e => Err e
            | Ok (hs, raw) => Ok (mkFetch code hs (parse_body hs raw))
            end
        end
  end.

(** ** [read_http_response] *)

Abbreviation kMaxResponseSize := (8 * 1024 * 1024)%Z (only parsing).

(** [npos]. *)
Definition npos : Z := UINT64_MAX.

(** [icase_find]: [needle] is in lower case; the index of the first match. *)
Definition icase_find (haystack needle : bytes) : option Z :=
  if zlen needle =? 0 then None else find (map tolower haystack) needle 0.

(** One turn: the token was found stopped, the read failed, or it returned bytes, none at
    the end of the stream. *)
Inductive read_step := Stopped | ReadError (e : errc) | ReadBytes (b : bytes).

Record reader := mkReader { rd_buf : bytes; header_end : Z; content_length : Z; rd_chunked : bool }.

Definition new_reader : reader := mkReader [] npos npos false.

(** What is known once the blank line has arrived. *)
Definition scan_head (s : reader) : reader :=
  if negb (header_end s =? npos) then s
  else
    match find (rd_buf s) CRLFCRLF 0 with
    | None => s
    | Some pos =>
        let head := ztake (pos + 4) (rd_buf s) in
        let chunked := match icase_find head (chars "transfer-encoding: chunked") with Some _ => true | None => rd_chunked s end in
        let length :=
          if chunked then content_length s
          else match icase_find head (chars "content-length: ") with
               | None => content_length s
               | Some i =>
                   let value := zdrop (i + 16) head in
                   let value := match find value [CR] 0 with Some eol => ztake eol value | None => value end in
                   default (content_length s) (from_chars_prefix UINT64_MAX value)
               end in
        mkReader (rd_buf s) (pos + 4) length chunked
    end.

(** [true]: leave the loop. *)
Definition enough (s : reader) : bool :=
  if header_end s =? npos then false
  else if negb (rd_chunked s) && negb (content_length s =? npos) then
    u64 (header_end s + content_length s) <=? zlen (rd_buf s)
  else if rd_chunked s then
    match find (rd_buf s) (chars "0" ++ CRLFCRLF) 0 with Some _ => true | None => false end
  else false.

(** The loop over the steps to come; [None] when it still waits after them. *)
Fixpoint read_loop (s : reader) (steps : list read_step) : option (result bytes) :=
  match steps with
  | [] => None
  | Stopped :: _ => Some (Err operation_canceled)
  | ReadError e :: _ => Some (Err e)
  | ReadBytes b :: steps =>
      if zlen b =? 0 then Some (Ok (rd_buf s))
      else
        let s := mkReader (rd_buf s ++ b) (header_end s) (content_length s) (rd_chunked s) in
        if kMaxResponseSize <? zlen (rd_buf s) then Some (Err message_size)
        else
          let s := scan_head s in
          if enough s then Some (Ok (rd_buf s)) else read_loop s steps
  end.

Definition read_http_response (steps : list read_step) : option (result bytes) := read_loop new_reader steps.

(** ** [send_one] and [send] *)

Section send.
Context (order : gmap bytes bytes -> list (bytes * bytes)).
Context (transport : ParsedUrl -> bytes -> result (list read_step)).

Definition send_one (m : Method) (headers : gmap bytes bytes) (body url : bytes) : option (result FetchResponse) :=
  match parse_url url with
  | Err e => Some (Err e)
  | Ok parsed =>
      if decide (scheme parsed = chars "https") then Some (Err protocol_not_supported)
      else
        match transport parsed (serialize_request order m parsed headers body false) with
        | Err e => Some (Err e)
        | Ok steps =>
            match read_http_response steps with
            | None => None
            | Some (Err e) => Some (Err e)
            | Some (Ok raw) => Some (parse_response raw)
            end
        end
  end.

(** The redirect loop: [hops] redirects may still be followed. *)
Fixpoint send (hops : nat) (m : Method) (headers : gmap bytes bytes) (body url : bytes) : option (result FetchResponse) :=
  match send_one m headers body url with
  | Some (Ok resp) =>
      let status := status_ resp in
      let is_redirect := (status =? 301) || (status =? 302) || (status =? 303) || (status =? 307) || (status =? 308) in
      let location := fetch_header (fetch_headers_ resp) (chars "location") in
      match hops with
      | S hops =>
          if is_redirect && negb (zlen location =? 0)
          then send hops (if status =? 303 then Get else m) headers body location
          else Some (Ok resp)
      | O => Some (Ok resp)
      end
  | r => r
  end.
End send.
