(* ===== verification/HttpClient.v ===== *)
(** * The client reads what the server writes

    The wire form of a response ([Response]) against the client of [Fetch]: a response of
    known length, cut into any reads, is read to its last byte and parsed to its status,
    headers and body; a streamed response is parsed to the concatenation of its chunks. *)

From stdpp Require Import gmap.
From S2P Require Import Prelude Text HttpParser HttpMessage Response Fetch.
#[local] Open Scope Z_scope.

(** ** Lines *)

Lemma split_first {X} (x : X) c R a T : x ∉ c -> c ++ x :: R = a ++ x :: T ->
  a = c /\ R = T \/ exists a', a = c ++ x :: a' /\ R = a' ++ x :: T.
Proof.
  revert a. induction c as [|y c IH]; intros a Hc E; cbn [app] in E.
  - destruct a as [|z a]; simplify_list_eq; [by left|]. right. by exists a.
  - apply not_elem_of_cons in Hc as [Hy Hc]. destruct a as [|z a]; [simplify_list_eq|]. injection E as <- E.
    destruct (IH a Hc E) as [[-> ->]|(a' & -> & ->)]; [by left|right; by exists a'].
Qed.

(** Lines that are not blank. *)
Definition lines_ok (ls : list bytes) : Prop := Forall (fun c => (LF ∉ c) /\ c <> [CR]) ls.

Definition unlines (ls : list bytes) : bytes := concat (map (fun c => c ++ [LF]) ls).

(** The first blank line is the last line. *)
Lemma blank_line_last ls a b : lines_ok ls -> unlines ls ++ CRLF = a ++ [LF; CR; LF] ++ b -> b = [].
Proof.
  unfold unlines. intros Hls. revert a. induction Hls as [|c ls [Hc Hne] Hls IH]; intros a E; cbn [map concat app] in E.
  { apply (f_equal length) in E. rewrite length_app in E. cbn in E. lia. }
  rewrite <- !app_assoc in E. cbn [app] in E.
  destruct (split_first LF c _ a _ Hc E) as [[-> E']|(a' & -> & E')]; [|by apply (IH a')].
  destruct Hls as [|c' ls [Hc' Hne'] _]; cbn [map concat app] in E'; [by injection E'|].
  destruct c' as [|x [|y c']]; cbn [app] in E'.
  - by injection E'.
  - injection E' as -> _. done.
  - injection E' as -> -> _. exfalso. apply Hc'. by right; left.
Qed.

(** So a message ends at the first blank line, and a strict prefix has none. *)
Lemma blank_line_find ls tail : lines_ok ls -> ls <> [] -> Forall (fun l => last l = Some CR) ls ->
  find ((unlines ls ++ CRLF) ++ tail) CRLFCRLF 0 = Some (zlen (unlines ls ++ CRLF) - 4).
Proof.
  intros Hls Hne Hcr. destruct ls as [|l ls _] using rev_ind; [done|].
  apply Forall_app in Hcr as [_ [Hl _]%Forall_cons]. apply last_Some in Hl as [l' ->].
  assert (unlines (ls ++ [l' ++ [CR]]) ++ CRLF = (unlines ls ++ l') ++ CRLFCRLF) as E.
  { unfold unlines. rewrite map_app, concat_app. cbn [map concat]. unfold CRLF, CRLFCRLF. by rewrite !app_nil_r, <- !app_assoc. }
  apply find_app. rewrite E. replace (zlen _ - 4) with (zlen (unlines ls ++ l')) by (rewrite (zlen_app _ CRLFCRLF); unfold CRLFCRLF; zlia).
  apply (find_first _ _ (unlines ls ++ l') []); [by rewrite app_nil_r|]. intros a b Eab. rewrite <- E in Eab.
  assert (b = []) as -> by (apply (blank_line_last _ (a ++ [CR]) b Hls); rewrite Eab; unfold CRLFCRLF; by rewrite <- app_assoc).
  rewrite app_nil_r, E in Eab. apply app_inv_tail in Eab. by rewrite Eab.
Qed.

Lemma blank_line_prefix ls pre x more : lines_ok ls -> unlines ls ++ CRLF = pre ++ x :: more -> find pre CRLFCRLF 0 = None.
Proof.
  intros Hls E. apply find_none. intros a b Hp.
  assert (b ++ x :: more = []) as Hb; [|by destruct b].
  apply (blank_line_last ls (a ++ [CR]) _ Hls). rewrite E, Hp. unfold CRLFCRLF. by rewrite <- !app_assoc.
Qed.

(** ** The header section of a response *)

Definition no_eol (s : bytes) : Prop := Forall (fun c => c <> CR /\ c <> LF) s.

(** A name without a colon, a value that does not begin with a blank. *)
Definition field_ok (h : bytes * bytes) : Prop :=
  no_eol (fst h) /\ Forall (fun c => c <> 0x3A) (fst h) /\ no_eol (snd h) /\ skip_blanks (snd h) = snd h.

#[global] Instance field_ok_dec h : Decision (field_ok h).
Proof. unfold field_ok, no_eol. apply _. Defined.

Lemma no_eol_cr s : no_eol s -> Forall (fun c => c <> CR) s.
Proof. intros H. eapply Forall_impl; [exact H|]. naive_solver. Qed.

Lemma no_eol_lf s : no_eol s -> LF ∉ s.
Proof. intros H. apply (not_elem_of_Forall LF s H). naive_solver. Qed.

Lemma no_eol_app s t : no_eol s -> no_eol t -> no_eol (s ++ t).
Proof. intros. by apply Forall_app. Qed.

Definition add_fields (hs : list (bytes * bytes)) (acc : gmap bytes bytes) : gmap bytes bytes :=
  foldl (fun m h => fetch_add_header (fst h) (snd h) m) acc hs.

Lemma find_crlf_0 seg rest : Forall (fun x => x <> CR) seg -> find (seg ++ CRLF ++ rest) CRLF 0 = Some (zlen seg).
Proof. intros H. exact (find_crlf [] seg rest H). Qed.

Lemma substr_app a b n : n = zlen a -> substr (a ++ b) 0 n = a.
Proof. intros Hn. exact (substr_mid [] a b n Hn). Qed.

(** The header lines are read to the blank line. *)
Lemma parse_fields_lines hs rest acc fuel : Forall field_ok hs -> (length hs < fuel)%nat ->
  parse_fields fuel (concat (map field_line hs) ++ CRLF ++ rest) acc = Ok (add_fields hs acc, rest).
Proof.
  intros Hok. revert acc fuel. induction Hok as [|[k v] hs (Hk & Hc & Hv & Hb) _ IH]; intros acc fuel Hf;
    (destruct fuel as [|fuel]; [cbn in Hf; lia|]); cbn [fst snd] in *.
  { cbn [map concat parse_fields]. change ([] ++ CRLF ++ rest) with (CRLF ++ rest).
    pose proof (find_crlf_0 [] rest (Forall_nil_2 _)) as E. cbn [app] in E. by rewrite E. }
  cbn [map concat]. unfold field_line at 1. cbn [fst snd parse_fields].
  set (line := k ++ chars ": " ++ v).
  assert ((k ++ chars ": " ++ v ++ CRLF) ++ concat (map field_line hs) = line ++ CRLF ++ concat (map field_line hs)) as ->
    by (unfold line; by rewrite <- !app_assoc).
  rewrite <- !app_assoc. rewrite find_crlf_0 by (repeat (apply Forall_app; split); [by apply no_eol_cr|by repeat constructor|by apply no_eol_cr]).
  assert (zlen line = zlen k + 2 + zlen v) as Hl by (unfold line; change (chars ": ") with [0x3A; SP]; zlia).
  rewrite (proj2 (Z.eqb_neq _ 0)) by zlia. rewrite substr_app by done.
  rewrite app_assoc, (zdrop_app (zlen line + 2)) by (unfold CRLF; zlia).
  unfold line at 1 2 3. change (chars ": ") with ([0x3A] ++ [SP]). rewrite <- app_assoc.
  rewrite find_present by done. rewrite substr_app by done.
  rewrite (app_assoc k), (zdrop_app (zlen k + 1)) by zlia. change (skip_blanks ([SP] ++ v)) with (skip_blanks v). rewrite Hb.
  apply IH. cbn in Hf. lia.
Qed.

(** ** The status line *)

Lemma status_digits code : 100 <= code < 1000 ->
  zlen (int_to_string code) = 3 /\ from_chars_int (int_to_string code) = Some code /\ no_eol (int_to_string code).
Proof.
  intros Hc. assert (0 <= code < 1000) as Hr by lia. revert Hc. unfold no_eol. by_range code Hr.
Qed.

Lemma reason_no_eol code : no_eol (status_to_string code).
Proof. unfold status_to_string. repeat case_match; vm_compute; repeat constructor; discriminate. Qed.

Section wire.
Context (order : gmap bytes bytes -> list (bytes * bytes)).

Definition status_line (r : Response) : bytes :=
  chars "HTTP/1.1 " ++ int_to_string (status_code_ r) ++ [SP] ++ status_to_string (status_code_ r).

(** The line that frames the body. *)
Definition framing (r : Response) : bytes * bytes :=
  if Response.chunked_ r then (chars "Transfer-Encoding", chars "chunked")
  else (chars "Content-Length", to_string (if zlen (sendfile_path_ r) =? 0 then zlen (Response.body_ r) else sendfile_size_ r)).

Definition fields (r : Response) : list (bytes * bytes) :=
  order (headers_ r) ++ map (fun c => (chars "Set-Cookie", c)) (cookies_ r).

Record response_ok (r : Response) : Prop := {
  ro_status : 100 <= status_code_ r < 1000;
  ro_fields : Forall field_ok (fields r);
}.

Lemma serialize_header_fields r :
  serialize_header order r = status_line r ++ CRLF ++ concat (map field_line (fields r ++ [framing r])) ++ CRLF.
Proof.
  assert (forall cs, concat (map (fun c => chars "Set-Cookie: " ++ c ++ CRLF) cs) =
    concat (map field_line (map (fun c => (chars "Set-Cookie", c)) cs))) as Hc by (intros cs; by rewrite map_map).
  unfold serialize_header, status_line, fields, framing. rewrite !map_app, !concat_app, Hc, <- !app_assoc.
  do 7 f_equal. destruct (Response.chunked_ r); cbn [map concat]; unfold field_line; cbn [fst snd]; by rewrite app_nil_r, <- !app_assoc.
Qed.

Lemma to_string_digits z : Forall is_digit (to_string z).
Proof. apply print_digits_are_digits. Qed.

Lemma digits_field (s : bytes) : Forall is_digit s -> no_eol s /\ skip_blanks s = s.
Proof.
  intros H. split; [eapply Forall_impl; [exact H|]; unfold is_digit; intros; lia|].
  destruct H as [|c s [H1 H2] _]; [done|]. cbn [skip_blanks]. by rewrite !(proj2 (Z.eqb_neq _ _)) by lia.
Qed.

Lemma framing_ok r : field_ok (framing r).
Proof.
  unfold framing. destruct (Response.chunked_ r); [by apply (bool_decide_unpack _)|].
  destruct (digits_field (to_string (if zlen (sendfile_path_ r) =? 0 then zlen (Response.body_ r) else sendfile_size_ r)) (to_string_digits _)).
  unfold field_ok. cbn [fst snd]. split_and!; try done; by apply (bool_decide_unpack _).
Qed.

Lemma all_fields_ok r : response_ok r -> Forall field_ok (fields r ++ [framing r]).
Proof. intros [_ H]. apply Forall_app. split; [done|]. apply Forall_singleton, framing_ok. Qed.

Lemma field_lines_length l : (length l <= length (concat (map field_line l)))%nat.
Proof.
  induction l as [|h l IH]; [done|]. cbn [map concat length]. rewrite length_app.
  unfold field_line at 1. rewrite !length_app. cbn. lia.
Qed.

(** A response is parsed to its status, its fields, and the body they frame. *)
Lemma parse_response_head r rest : response_ok r ->
  let hs := add_fields (fields r ++ [framing r]) ∅ in
  parse_response (serialize_header order r ++ rest) = Ok (mkFetch (status_code_ r) hs (parse_body hs rest)).
Proof.
  intros Hok hs. pose proof (all_fields_ok r Hok) as Hf. destruct Hok as [Hs _].
  destruct (status_digits _ Hs) as (Hl & Hd & He). rewrite serialize_header_fields, <- !app_assoc.
  set (line := status_line r).
  assert (Forall (fun c => c <> CR) line) as Hcr.
  { apply no_eol_cr. unfold line, status_line. repeat apply no_eol_app; try done; [by apply (bool_decide_unpack _)..|apply reason_no_eol]. }
  unfold parse_response. rewrite find_crlf_0, substr_app by done.
  rewrite app_assoc, (zdrop_app (zlen line + 2)) by (unfold CRLF; zlia).
  assert (zlen line = 9 + (3 + (1 + zlen (status_to_string (status_code_ r))))) as Hz
    by (unfold line, status_line; rewrite !zlen_app, Hl; done).
  pose proof (zlen_nonneg (status_to_string (status_code_ r))). rewrite (proj2 (Z.ltb_ge _ _)) by lia.
  assert (substr line 0 5 = chars "HTTP/") as -> by (unfold line, status_line; change (chars "HTTP/1.1 ") with (chars "HTTP/" ++ chars "1.1 "); rewrite <- app_assoc; by apply substr_app).
  rewrite bool_decide_true by done. cbn [orb negb].
  unfold line at 1, status_line. change 9 with (zlen (chars "HTTP/1.1 ")). rewrite substr_mid, Hd by done.
  rewrite parse_fields_lines; [done|done|].
  rewrite (length_app (concat _)). pose proof (field_lines_length (fields r ++ [framing r])). lia.
Qed.
End wire.

(** ** Reading a response from the socket *)

(** What the loop knows depends on the bytes received only. *)
Definition reader_of (b : bytes) : reader := scan_head (mkReader b npos npos false).

Lemma rd_buf_scan s : rd_buf (scan_head s) = rd_buf s.
Proof. unfold scan_head. repeat case_match; done. Qed.

Lemma scan_append b t : zlen b <= kMaxResponseSize ->
  let s := reader_of b in
  scan_head (mkReader (rd_buf s ++ t) (header_end s) (content_length s) (rd_chunked s)) = reader_of (b ++ t).
Proof.
  intros Hb s. unfold s, reader_of at 1. rewrite rd_buf_scan. cbn [rd_buf].
  unfold reader_of, scan_head at 2 3 4 5. cbn [header_end rd_buf content_length rd_chunked negb Z.eqb].
  destruct (find b CRLFCRLF 0) as [pos|] eqn:Ef; cbn [header_end rd_buf content_length rd_chunked]; [|done].
  rewrite (find_app b t _ _ Ef). apply find_bounds in Ef as [Hp Hq]; [|lia]. change (zlen CRLFCRLF) with 4 in Hq.
  assert (pos + 4 <> npos) as Hn by (unfold npos, UINT64_MAX in *; lia).
  unfold scan_head at 1. cbn [header_end]. rewrite (proj2 (Z.eqb_neq _ _)) by done. cbn [negb].
  by rewrite ztake_app_le by lia.
Qed.

Section segments.
Context (wire : bytes) (Hmax : zlen wire <= kMaxResponseSize).
Context (Hpart : forall pre x suf, wire = pre ++ x :: suf -> enough (reader_of pre) = false).
Context (Hall : enough (reader_of wire) = true).

Lemma read_loop_segments segs b more : b ++ concat segs = wire -> Forall (fun p => p <> []) segs -> segs <> [] ->
  read_loop (reader_of b) (map ReadBytes segs ++ more) = Some (Ok wire).
Proof.
  revert b. induction segs as [|p segs IH]; intros b E Hne Hn; [done|]. apply Forall_cons in Hne as [Hp Hne].
  cbn [map app read_loop]. rewrite (proj2 (Z.eqb_neq _ 0)) by (intros Hz%zlen_nil_inv; done).
  cbn [concat] in E. rewrite app_assoc in E.
  assert (zlen (b ++ p) <= zlen wire) as Hl by (rewrite <- E, (zlen_app (b ++ p)); pose proof (zlen_nonneg (concat segs)); lia).
  assert (zlen b <= zlen (b ++ p)) by (rewrite zlen_app; pose proof (zlen_nonneg p); lia).
  assert (rd_buf (reader_of b) = b) as Hb by (unfold reader_of; by rewrite rd_buf_scan).
  cbn [rd_buf]. rewrite Hb at 1. rewrite (proj2 (Z.ltb_ge _ _)) by lia. rewrite scan_append by lia.
  destruct (concat segs) as [|x suf] eqn:Es.
  - rewrite app_nil_r in E. rewrite E, Hall. unfold reader_of. by rewrite rd_buf_scan.
  - rewrite (Hpart (b ++ p) x suf) by (by rewrite E). apply IH; [exact E|done|]. by intros ->.
Qed.

Lemma read_segments segs more : concat segs = wire -> Forall (fun p => p <> []) segs -> wire <> [] ->
  read_http_response (map ReadBytes segs ++ more) = Some (Ok wire).
Proof.
  intros E Hne Hw. change new_reader with (reader_of []). unfold read_http_response.
  apply (read_loop_segments segs []); [done|done|]. intros ->. by apply Hw.
Qed.
End segments.

(** ** A response of known length *)

(** A pattern is not found across the end of a line. *)
Lemma find_after P x N rest : x ∉ N -> find (P ++ [x]) N 0 = None ->
  find ((P ++ [x]) ++ N ++ rest) N 0 = Some (zlen (P ++ [x])).
Proof.
  intros Hx Hno. apply (find_first _ N (P ++ [x]) rest); [done|]. intros a b E.
  destruct (decide (zlen (P ++ [x]) <= zlen a)) as [|Hlt]; [done|]. exfalso.
  unfold zlen in Hlt. rewrite length_app in Hlt. cbn in Hlt.
  destruct (decide (length (a ++ N) <= length P + 1)%nat) as [Hin|Hout]; rewrite length_app in *.
  - rewrite find_none in Hno. apply (Hno a (drop (length (a ++ N)) (P ++ [x]))).
    rewrite app_assoc. rewrite <- (take_drop (length (a ++ N)) (P ++ [x])) at 1. f_equal.
    rewrite <- (take_app_le _ (N ++ rest)) by (rewrite !length_app; cbn; lia). rewrite E, app_assoc.
    rewrite take_app_le by lia. by rewrite take_ge by lia.
  - apply Hx, (list_elem_of_lookup_2 _ (length P - length a)).
    rewrite <- (lookup_app_l N b) by lia. rewrite <- lookup_app_r by lia. rewrite <- E, <- app_assoc. cbn [app].
    by apply list_lookup_middle.
Qed.

Lemma last_snoc_lines (l : list (bytes * bytes)) s : exists P, s ++ CRLF ++ concat (map field_line l) = P ++ [LF].
Proof.
  destruct l as [|h l _] using rev_ind; [exists (s ++ [CR]); cbn [map concat]; unfold CRLF; by rewrite <- app_assoc|].
  exists (s ++ CRLF ++ concat (map field_line l) ++ fst h ++ chars ": " ++ snd h ++ [CR]).
  rewrite map_app, concat_app. cbn [map concat]. unfold field_line at 2, CRLF. by rewrite !app_nil_r, <- !app_assoc.
Qed.

Section fixed.
Context (order : gmap bytes bytes -> list (bytes * bytes)).
Context (r : Response) (Hok : response_ok order r).

(** The head as lines. *)
Definition head_lines : list bytes :=
  map (fun l => l ++ [CR]) (status_line r :: map (fun h => fst h ++ chars ": " ++ snd h) (fields order r ++ [framing r])).

Lemma serialize_header_lines : serialize_header order r = unlines head_lines ++ CRLF.
Proof.
  rewrite serialize_header_fields. unfold head_lines, unlines. cbn [map concat]. rewrite <- !app_assoc. unfold CRLF at 1. cbn [app].
  do 3 f_equal. rewrite !map_map. f_equal. f_equal. apply map_ext. intros h. unfold field_line, CRLF. by rewrite <- !app_assoc.
Qed.

Lemma head_lines_ok : lines_ok head_lines /\ Forall (fun l => last l = Some CR) head_lines.
Proof.
  assert (forall ls, Forall (fun l => no_eol l /\ l <> []) ls -> lines_ok (map (fun l => l ++ [CR]) ls) /\
    Forall (fun l => last l = Some CR) (map (fun l => l ++ [CR]) ls)) as H.
  { intros ls Hls. split; apply Forall_map; (eapply Forall_impl; [exact Hls|]); intros l [Hl Hne]; cbn; [|by apply last_snoc].
    split; [|destruct l as [|x [|y l]]; done]. rewrite elem_of_app, list_elem_of_singleton. intros [Hin|[=]].
    by apply (no_eol_lf l) in Hl. }
  apply H. apply Forall_cons. split.
  - destruct (status_digits _ (ro_status _ _ Hok)) as (_ & _ & He). split; [|done]. unfold status_line.
    repeat apply no_eol_app; try done; [by apply (bool_decide_unpack _)..|apply reason_no_eol].
  - apply Forall_map. eapply Forall_impl; [exact (all_fields_ok _ _ Hok)|]. intros [k v] (Hk & _ & Hv & _). cbn [fst snd] in *. split.
    + repeat apply no_eol_app; try done. by apply (bool_decide_unpack _).
    + by destruct k.
Qed.

Lemma header_find tail : find (serialize_header order r ++ tail) CRLFCRLF 0 = Some (zlen (serialize_header order r) - 4).
Proof. rewrite serialize_header_lines. destruct head_lines_ok. by apply blank_line_find. Qed.

Lemma header_prefix pre x more : serialize_header order r = pre ++ x :: more -> find pre CRLFCRLF 0 = None.
Proof. rewrite serialize_header_lines. destruct head_lines_ok. by apply blank_line_prefix. Qed.

(** The part of the head before the framing line, and what the reader looks for in it. *)
Definition preamble : bytes := status_line r ++ CRLF ++ concat (map field_line (fields order r)).

Record fixed_ok : Prop := {
  fx_plain : Response.chunked_ r = false /\ sendfile_path_ r = [];
  fx_size : zlen (serialize order r) <= kMaxResponseSize;
  fx_length : icase_find preamble (chars "content-length: ") = None;
  fx_chunked : icase_find (serialize_header order r) (chars "transfer-encoding: chunked") = None;
  fx_names : Forall (fun h => map tolower (fst h) <> chars "transfer-encoding") (fields order r);
}.

Context (Hfx : fixed_ok).

Lemma framing_length : framing r = (chars "Content-Length", to_string (zlen (Response.body_ r))).
Proof. destruct Hfx as [[Hc Hp] _ _ _ _]. unfold framing. by rewrite Hc, Hp. Qed.

Lemma header_length : icase_find (serialize_header order r) (chars "content-length: ") = Some (zlen preamble) /\
  serialize_header order r = preamble ++ chars "Content-Length: " ++ to_string (zlen (Response.body_ r)) ++ CRLF ++ CRLF.
Proof.
  assert (serialize_header order r = preamble ++ chars "Content-Length: " ++ to_string (zlen (Response.body_ r)) ++ CRLF ++ CRLF) as E.
  { rewrite serialize_header_fields, framing_length. unfold preamble. rewrite map_app, concat_app. cbn [map concat].
    unfold field_line at 2. cbn [fst snd]. by rewrite app_nil_r, <- !app_assoc. }
  split; [|done]. rewrite E. destruct Hfx as [_ _ Hl _ _]. unfold icase_find in *.
  change (zlen (chars "content-length: ") =? 0) with false in *. cbn iota in *.
  destruct (last_snoc_lines (fields order r) (status_line r)) as [P EP]. fold preamble in EP.
  rewrite map_app. rewrite EP, map_app in *. cbn [map] in *. change (tolower LF) with LF in *.
  rewrite map_app. change (map tolower (chars "Content-Length: ")) with (chars "content-length: ").
  rewrite find_after; [|by apply (bool_decide_unpack _)|done]. by rewrite !zlen_app, zlen_map.
Qed.

Lemma leading_digits_app ds c rest acc : Forall is_digit ds -> ~ is_digit c -> 
  leading_digits (ds ++ c :: rest) acc = leading_digits ds acc.
Proof.
  intros Hd Hc. revert acc. induction Hd as [|d ds [H1 H2] _ IH]; intros acc; cbn [app leading_digits].
  - unfold is_digit in Hc. destruct (Z.leb_spec 0x30 c), (Z.leb_spec c 0x39); cbn; try done. lia.
  - rewrite (proj2 (Z.leb_le _ _) H1), (proj2 (Z.leb_le _ _) H2). apply IH.
Qed.

Lemma from_chars_prefix_digits max s z : from_chars max s = Some z -> from_chars_prefix max s = Some z.
Proof.
  assert (forall s acc, digits max s acc = Some z -> leading_digits s acc = z /\ z <= max \/ s = [] /\ acc = z) as H.
  { clear s. induction s as [|c s IH]; intros acc; [cbn; intros [= ->]; by right|]. cbn [digits leading_digits].
    destruct ((0x30 <=? c) && (c <=? 0x39)); [|done]. destruct (Z.ltb_spec max (acc * 10 + (c - 0x30))); [done|].
    intros [Hl|[-> <-]]%IH; [by left|]. cbn. by left. }
  destruct s as [|c s]; [done|]. cbn [from_chars from_chars_prefix]. intros E. destruct (H _ _ E) as [[Hl Hz]|[[=] _]].
  cbn [digits] in E. destruct ((0x30 <=? c) && (c <=? 0x39)); [|done]. cbv zeta. rewrite Hl. by rewrite (proj2 (Z.ltb_ge _ _)) by lia.
Qed.

Lemma body_below : 0 <= zlen (Response.body_ r) < 2 ^ 64 - 1.
Proof.
  destruct Hfx as [_ Hs _ _ _]. unfold serialize in Hs. rewrite zlen_app in Hs.
  pose proof (zlen_nonneg (serialize_header order r)). pose proof (zlen_nonneg (Response.body_ r)). lia.
Qed.

Lemma length_read : from_chars_prefix UINT64_MAX (to_string (zlen (Response.body_ r))) = Some (zlen (Response.body_ r)).
Proof. pose proof body_below. apply from_chars_prefix_digits, from_chars_to_string; unfold UINT64_MAX; lia. Qed.

(** With the whole head the reader knows where the body ends. *)
Lemma reader_of_header tail :
  reader_of (serialize_header order r ++ tail) =
  mkReader (serialize_header order r ++ tail) (zlen (serialize_header order r)) (zlen (Response.body_ r)) false.
Proof.
  unfold reader_of, scan_head. cbn [header_end rd_buf content_length rd_chunked]. change (negb (npos =? npos)) with false. cbn iota.
  rewrite header_find. replace (zlen (serialize_header order r) - 4 + 4) with (zlen (serialize_header order r)) by lia.
  rewrite ztake_app by done. destruct Hfx as [_ _ _ Hc _]. rewrite Hc. destruct header_length as [Hl E]. rewrite Hl.
  assert (zdrop (zlen preamble + 16) (serialize_header order r) = to_string (zlen (Response.body_ r)) ++ CRLF ++ CRLF) as ->
    by (rewrite E, app_assoc; by apply zdrop_app; rewrite zlen_app).
  pose proof (to_string_digits (zlen (Response.body_ r))) as Hd.
  change (CRLF ++ CRLF) with ([CR] ++ LF :: CRLF). rewrite find_present by (eapply Forall_impl; [exact Hd|]; unfold is_digit; intros; lia).
  by rewrite ztake_app, length_read by done.
Qed.

Lemma enough_prefix pre x suf : serialize order r = pre ++ x :: suf -> enough (reader_of pre) = false.
Proof.
  unfold serialize. intros E. destruct (decide (zlen (serialize_header order r) <= zlen pre)) as [Hle|Hlt].
  - assert (exists b, pre = serialize_header order r ++ b) as [b ->].
    { exists (zdrop (zlen (serialize_header order r)) pre). rewrite <- (ztake_zdrop (zlen (serialize_header order r)) pre) at 1. f_equal.
      rewrite <- (ztake_app_le _ pre (x :: suf)), <- E by done. by apply ztake_app. }
    apply (f_equal zlen) in E. rewrite !zlen_app, zlen_cons in E. pose proof (zlen_nonneg suf). pose proof body_below. clear Hle.
    destruct Hfx as [_ Hs _ _ _]. unfold serialize in Hs. rewrite zlen_app in Hs.
    pose proof (zlen_nonneg (serialize_header order r)).
    rewrite reader_of_header. unfold enough. cbn [header_end rd_chunked content_length rd_buf negb andb].
    unfold npos, UINT64_MAX. rewrite !(proj2 (Z.eqb_neq _ _)) by lia. cbn [negb]. rewrite zlen_app.
    rewrite wrap_small by (unfold in_range; lia). apply Z.leb_gt. lia.
  - assert (exists y more, serialize_header order r = pre ++ y :: more) as (y & more & Ey).
    { apply app_eq_app in E as (k & [[E1 E2]|[E1 E2]]).
      - destruct k as [|y k]; [|by exists y, k]. rewrite E1, app_nil_r in Hlt. lia.
      - rewrite E1, zlen_app in Hlt. pose proof (zlen_nonneg k). lia. }
    unfold reader_of, scan_head. cbn [header_end rd_buf]. change (negb (npos =? npos)) with false. cbn iota.
    rewrite (header_prefix _ _ _ Ey). done.
Qed.

Lemma enough_all : enough (reader_of (serialize order r)) = true.
Proof.
  unfold serialize. rewrite reader_of_header. unfold enough. cbn [header_end rd_chunked content_length rd_buf negb andb].
  destruct Hfx as [_ Hs _ _ _]. unfold serialize in Hs. rewrite zlen_app in Hs.
  pose proof (zlen_nonneg (serialize_header order r)). pose proof body_below.
  unfold npos, UINT64_MAX. rewrite !(proj2 (Z.eqb_neq _ _)) by lia. cbn [negb]. rewrite zlen_app.
  rewrite wrap_small by (unfold in_range; lia). apply Z.leb_le. lia.
Qed.

(** The response arrives in any pieces. *)
Lemma read_fixed segs more : concat segs = serialize order r -> Forall (fun p => p <> []) segs ->
  read_http_response (map ReadBytes segs ++ more) = Some (Ok (serialize order r)).
Proof.
  intros E Hne. apply read_segments; try done; [apply fx_size, Hfx|apply enough_prefix|apply enough_all].
Qed.

Lemma add_fields_other l acc k : Forall (fun h => map tolower (fst h) <> k) l -> add_fields l acc !! k = acc !! k.
Proof.
  intros H. revert acc. induction H as [|h l Hh _ IH]; intros acc; [done|]. cbn [add_fields foldl]. etrans; [apply IH|].
  unfold fetch_add_header. by rewrite lookup_insert_ne.
Qed.

Lemma parse_fixed : parse_response (serialize order r) =
  Ok (mkFetch (status_code_ r) (add_fields (fields order r ++ [framing r]) ∅) (Response.body_ r)).
Proof.
  unfold serialize. rewrite parse_response_head by done. do 2 f_equal. unfold parse_body.
  set (hs := add_fields _ _). assert (fetch_header hs (chars "transfer-encoding") = []) as ->.
  { unfold fetch_header. change (map tolower (chars "transfer-encoding")) with (chars "transfer-encoding").
    unfold hs. rewrite add_fields_other; [done|]. apply Forall_app. split; [apply fx_names, Hfx|].
    apply Forall_singleton. rewrite framing_length. done. }
  change (find [] (chars "chunked") 0) with (@None Z). cbn iota.
  assert (fetch_header hs (chars "content-length") = to_string (zlen (Response.body_ r))) as ->.
  { unfold fetch_header, hs. change (map tolower (chars "content-length")) with (chars "content-length").
    unfold add_fields. rewrite foldl_app. cbn [foldl]. rewrite framing_length. cbn [fst snd]. unfold fetch_add_header at 1.
    change (map tolower (chars "Content-Length")) with (chars "content-length"). by rewrite lookup_insert. }
  rewrite length_read. cbn [default]. destruct (Z.eqb_spec (zlen (to_string (zlen (Response.body_ r)))) 0) as [Hz|_].
  - apply zlen_nil_inv in Hz. pose proof length_read as Hl. rewrite Hz in Hl. discriminate Hl.
  - rewrite <- (app_nil_r (Response.body_ r)) at 1. by apply substr_app.
Qed.
End fixed.

(** ** Chunks *)

(** One digit of a chunk size. *)
Definition size_step (n c : Z) : Z :=
  let n := u64 (n << 4) in
  if (0x30 <=? c) && (c <=? 0x39) then n .| (c - 0x30) else
  if (0x61 <=? c) && (c <=? 0x66) then n .| (c - 0x61 + 10) else
  if (0x41 <=? c) && (c <=? 0x46) then n .| (c - 0x41 + 10) else n.

Lemma size_value_steps s : size_value s = foldl size_step 0 s.
Proof. done. Qed.

Lemma hex_char_facts d : 0 <= d < 16 -> hex_char d <> CR /\ hex_char d <> 0x3B /\
  forall x, 0 <= x < 2 ^ 60 -> size_step x (hex_char d) = 16 * x + d.
Proof.
  intros Hd. assert (hex_char d <> CR /\ hex_char d <> 0x3B /\
    ((0x30 <=? hex_char d) && (hex_char d <=? 0x39) = true /\ hex_char d - 0x30 = d \/
     (0x30 <=? hex_char d) && (hex_char d <=? 0x39) = false /\
     (0x61 <=? hex_char d) && (hex_char d <=? 0x66) = true /\ hex_char d - 0x61 + 10 = d)) as (H1 & H2 & H4) by by_range d Hd.
  split_and!; [done|done|]. intros x Hx. unfold size_step.
  assert (u64 (x << 4) .| d = 16 * x + d) as E.
  { rewrite wrap_small by (rewrite Z.shiftl_mul_pow2 by lia; unfold in_range; lia).
    rewrite lor_shiftl_add by (unfold in_range; lia). lia. }
  destruct H4 as [[-> ->]|(-> & -> & ->)]; exact E.
Qed.

Lemma size_value_hex fuel z s : 0 <= z < 2 ^ 64 -> z < 16 ^ Z.of_nat fuel ->
  foldl size_step 0 (print_hex fuel z s) = foldl size_step z s.
Proof.
  revert z s. induction fuel as [|fuel IH]; intros z s Hz Hf.
  { assert (z = 0) as -> by (change (16 ^ Z.of_nat 0) with 1 in Hf; lia). done. }
  pose proof (Z.div_mod z 16 ltac:(done)). pose proof (Z.mod_pos_bound z 16 ltac:(done)) as Hm.
  destruct (hex_char_facts (z mod 16) Hm) as (_ & _ & Hh).
  cbn [print_hex]. destruct (Z.ltb_spec z 16).
  - rewrite Z.mod_small in * by lia. cbn [foldl]. by rewrite Hh, Z.add_0_l by lia.
  - rewrite Nat2Z.inj_succ, Z.pow_succ_r in Hf by lia.
    assert (0 <= z / 16 < 2 ^ 60) by (split; [apply Z.div_pos|apply Z.div_lt_upper_bound]; lia).
    rewrite IH by (lia || (apply Z.div_lt_upper_bound; lia)). cbn [foldl]. rewrite Hh by lia. f_equal. lia.
Qed.

Lemma print_hex_chars fuel z s : Forall (fun c => c <> CR /\ c <> 0x3B) s -> Forall (fun c => c <> CR /\ c <> 0x3B) (print_hex fuel z s).
Proof.
  revert z s. induction fuel as [|fuel IH]; intros z s Hs; [done|]. cbn [print_hex].
  destruct (hex_char_facts (z mod 16) (Z.mod_pos_bound z 16 ltac:(done))) as (H1 & H2 & _).
  destruct (z <? 16); [|apply IH]; by constructor.
Qed.

(** A frame adds its data. *)
Lemma parse_chunks_frame d rest acc fuel : d <> [] -> zlen d < 2 ^ 62 ->
  parse_chunks (S fuel) (chunk_frame d ++ rest) acc = parse_chunks fuel rest (acc ++ d).
Proof.
  intros Hne Hl. pose proof (zlen_nonneg d). assert (zlen d <> 0) as Hz by (intros E%zlen_nil_inv; done).
  pose proof (print_hex_chars 16 (zlen d) [] (Forall_nil_2 _)) as Hc. set (hex := print_hex 16 (zlen d) []) in *.
  unfold chunk_frame. fold hex. rewrite <- !app_assoc. cbn [parse_chunks].
  rewrite (proj2 (Z.eqb_neq (zlen (hex ++ _)) 0)) by (unfold CRLF; zlia).
  rewrite find_crlf_0 by (eapply Forall_impl; [exact Hc|]; naive_solver). rewrite substr_app by done.
  rewrite find_absent by (eapply Forall_impl; [exact Hc|]; naive_solver). cbv zeta.
  assert (size_value hex = zlen d) as -> by (unfold hex; rewrite size_value_steps, size_value_hex by (split_and?; try lia; change (16 ^ Z.of_nat 16) with (2 ^ 64); lia); done).
  rewrite (proj2 (Z.eqb_neq _ 0)) by done. rewrite (app_assoc hex), (zdrop_app (zlen hex + 2)) by (unfold CRLF; zlia).
  rewrite (wrap_small 64) by (unfold in_range; lia). pose proof (zlen_nonneg rest).
  rewrite (proj2 (Z.ltb_ge _ _)) by (unfold CRLF; zlia). rewrite substr_app by done.
  rewrite (app_assoc d), zdrop_app by (unfold CRLF; zlia). done.
Qed.

Definition data_ok (ds : list bytes) : Prop := Forall (fun d => d <> [] /\ zlen d < 2 ^ 62) ds.

Lemma parse_chunks_frames ds tail acc fuel : data_ok ds -> (length ds < fuel)%nat ->
  parse_chunks fuel (concat (map chunk_frame ds) ++ chars "0" ++ CRLF ++ tail) acc = acc ++ concat ds.
Proof.
  intros Hok. revert acc fuel. induction Hok as [|d ds [Hne Hl] _ IH]; intros acc fuel Hf; (destruct fuel as [|fuel]; [cbn in Hf; lia|]).
  { cbn [map concat app]. rewrite app_nil_r. cbn [parse_chunks].
    rewrite (proj2 (Z.eqb_neq _ 0)) by (change (chars "0") with [0x30]; zlia).
    rewrite find_crlf_0, substr_app by (done || by apply (bool_decide_unpack _)). done. }
  cbn [map concat]. rewrite <- app_assoc, parse_chunks_frame, IH, app_assoc by (done || (cbn in Hf; lia)). done.
Qed.

Lemma frames_length ds : data_ok ds -> (length ds <= length (concat (map chunk_frame ds)))%nat.
Proof.
  induction 1 as [|d ds _ _ IH]; [done|]. cbn [map concat length]. rewrite length_app. unfold chunk_frame at 1.
  rewrite !length_app. cbn. lia.
Qed.

(** ** The end mark *)

(** What the client looks for in a chunked response. *)
Definition end_mark : bytes := chars "0" ++ CRLFCRLF.

(** A block that does not start within the line ends of the mark. *)
Definition opens_line (b : bytes) : Prop := exists c l, b = c :: l /\ c <> CR /\ c <> LF.

(** An occurrence that starts in a block before such a one lies in the block. *)
Lemma mark_inside x y a b : opens_line y -> x ++ y = a ++ end_mark ++ b -> (length a < length x)%nat ->
  exists b', x = a ++ end_mark ++ b'.
Proof.
  intros (c & l & -> & Hcr & Hlf) E Ha. destruct (Nat.le_gt_cases (length a + 5) (length x)) as [Hle|Hlt].
  - exists (drop (length a + 5) x). rewrite app_assoc. rewrite <- (take_drop (length a + 5) x) at 1. f_equal.
    rewrite <- (take_app_le x (c :: l)) by done. rewrite E, app_assoc. by rewrite take_app_length' by (rewrite length_app; done).
  - exfalso. assert ((x ++ c :: l) !! length x = Some c) as Hc by (rewrite lookup_app_r, Nat.sub_diag by lia; done).
    rewrite E, lookup_app_r, lookup_app_l in Hc by (cbn; lia). revert Hc. generalize (length x - length a)%nat (ltac:(lia) : (0 < length x - length a < 5)%nat).
    intros n Hn. assert (n = 1 \/ n = 2 \/ n = 3 \/ n = 4)%nat as Hcases by lia.
    by destruct Hcases as [-> |[-> |[-> | ->]]]; intros [= <-].
Qed.

Definition unmarked (b : bytes) : Prop := find b end_mark 0 = None.

(** After blocks without the mark its first occurrence is the one behind them. *)
Lemma blocks_mark blocks : forall x, unmarked x -> Forall (fun b => unmarked b /\ opens_line b) blocks ->
  find (x ++ concat blocks ++ end_mark) end_mark 0 = Some (zlen (x ++ concat blocks)).
Proof.
  intros x Hx Hb. apply (find_first _ _ _ []); [by rewrite app_nil_r, <- app_assoc|]. revert x Hx.
  induction Hb as [|y blocks [Hy Ho] _ IH]; intros x Hx a b E.
  - rewrite app_nil_r. cbn [concat app] in E. destruct (Nat.lt_ge_cases (length a) (length x)) as [Hlt|Hge]; [|unfold zlen; lia].
    destruct (mark_inside x end_mark a b) as [b' Eb]; [by eexists _, _|done|done|]. unfold unmarked in Hx. rewrite find_none in Hx. by destruct (Hx a b').
  - destruct (Nat.lt_ge_cases (length a) (length x)) as [Hlt|Hge].
    { destruct (mark_inside x (concat (y :: blocks) ++ end_mark) a b) as [b' Eb]; [|done|done|].
      - destruct Ho as (c & l & -> & ?). by eexists _, _.
      - unfold unmarked in Hx. rewrite find_none in Hx. by destruct (Hx a b'). }
    assert (a = x ++ drop (length x) a) as Ea.
    { rewrite <- (take_drop (length x) a) at 1. f_equal. rewrite <- (take_app_le a (end_mark ++ b)), <- E by done. apply take_app_length. }
    rewrite Ea, <- app_assoc in E. apply app_inv_head in E. cbn [concat] in *. rewrite <- app_assoc in E. apply (IH y Hy) in E.
    unfold zlen in *. rewrite !length_app, ?length_drop in *. lia.
Qed.

Lemma print_hex_digits fuel z s : Forall (fun c => c <> CR /\ c <> LF) s -> Forall (fun c => c <> CR /\ c <> LF) (print_hex fuel z s).
Proof.
  revert z s. induction fuel as [|fuel IH]; intros z s Hs; [done|]. cbn [print_hex].
  pose proof (Z.mod_pos_bound z 16 ltac:(done)) as Hd. assert (hex_char (z mod 16) <> CR /\ hex_char (z mod 16) <> LF) by (revert Hd; generalize (z mod 16); intros d Hd; by_range d Hd).
  destruct (z <? 16); [|apply IH]; by constructor.
Qed.

Lemma print_hex_nonempty fuel z s : (0 < fuel)%nat \/ s <> [] -> print_hex fuel z s <> [].
Proof.
  revert z s. induction fuel as [|fuel IH]; intros z s Hs; [destruct Hs; [lia|done]|]. cbn [print_hex]. destruct (z <? 16); [done|]. apply IH. by right.
Qed.

Lemma chunk_frame_opens d : opens_line (chunk_frame d).
Proof.
  unfold chunk_frame. pose proof (print_hex_digits 16 (zlen d) [] (Forall_nil_2 _)) as Hf. pose proof (print_hex_nonempty 16 (zlen d) [] ltac:(left; lia)) as Hne.
  destruct (print_hex 16 (zlen d) []) as [|c l]; [done|]. apply Forall_cons in Hf as [[? ?] _]. by eexists _, _.
Qed.

(** ** Streamed responses *)

(** What a streaming handler does before it ends the stream. *)
Inductive stream_op := Chunk (d : bytes) | Flush.

Section stream.
Context (order : gmap bytes bytes -> list (bytes * bytes)).

(** Every write succeeds; the bytes written, in order. *)
Definition stream_step (op : stream_op) (s : Response * bytes) : Response * bytes :=
  match op with
  | Chunk d => (chunk d (fst s), snd s)
  | Flush => let '(r, out) := flush order true (fst s) in (r, snd s ++ out)
  end.

Definition stream (r : Response) (ops : list stream_op) : bytes :=
  let '(r, out) := foldl (fun s op => stream_step op s) (r, []) ops in
  out ++ snd (flush_end order true r).

Definition chunks_of (ops : list stream_op) : list bytes :=
  flat_map (fun op => match op with Chunk d => if zlen d =? 0 then [] else [d] | Flush => [] end) ops.

(** The response as [flush] announces it. *)
Definition announced (r : Response) : Response :=
  mkResponse (status_code_ r) (headers_ r) (cookies_ r) (Response.body_ r) (sendfile_path_ r) (sendfile_size_ r) true
    (chunk_buf_ r) (stream_fd_ r) true true (streamed_bytes_ r) (trailers_ r).

(** What has been written and what waits make up the head and the frames so far. *)
Record streaming (r0 r : Response) (out : bytes) (ds : list bytes) : Prop := {
  sg_fd : 0 <= stream_fd_ r;
  sg_head : serialize_header order (announced r) = serialize_header order (announced r0);
  sg_sent : header_sent_ r = true -> Response.chunked_ r = true;
  sg_out : out ++ (if header_sent_ r then [] else serialize_header order (announced r0)) ++ chunk_buf_ r =
           serialize_header order (announced r0) ++ concat (map chunk_frame ds);
}.

Lemma stream_step_ok r0 op s ds : streaming r0 (fst s) (snd s) ds ->
  streaming r0 (fst (stream_step op s)) (snd (stream_step op s)) (ds ++ chunks_of [op]).
Proof.
  destruct s as [r out]. intros [Hfd Hh Hs Ho]. cbn [fst snd] in *. destruct op as [d|]; cbn [stream_step chunks_of flat_map fst snd app].
  - unfold chunk. destruct (zlen d =? 0); cbn [app]; rewrite ?app_nil_r; [by constructor|]. constructor; [done..|].
    cbn [header_sent_ chunk_buf_]. rewrite map_app, concat_app, (app_assoc (serialize_header _ _)), <- Ho. cbn [map concat].
    by rewrite app_nil_r, <- !app_assoc.
  - rewrite app_nil_r. unfold flush. rewrite (proj2 (Z.ltb_ge _ _)) by done. fold (announced r).
    destruct (header_sent_ r) eqn:Esent; cbn [app] in *.
    + destruct (zlen (chunk_buf_ r) =? 0) eqn:Ez; cbn [fst snd].
      * apply Z.eqb_eq, zlen_nil_inv in Ez. rewrite Ez, app_nil_r in Ho. constructor; cbn; try done; [intros; by apply Hs|]. by rewrite Esent, !app_nil_r.
      * constructor; cbn; try done; [intros; by apply Hs|]. rewrite Esent, app_nil_r. done.
    + assert ((zlen (serialize_header order (announced r) ++ chunk_buf_ (announced r)) =? 0) = false) as ->
        by (apply Z.eqb_neq; unfold serialize_header; change (chars "HTTP/1.1 ") with (0x48 :: chars "TTP/1.1 "); zlia).
      cbn [fst snd]. constructor; cbn [stream_fd_ header_sent_ Response.chunked_ chunk_buf_ announced]; try done.
      by rewrite !app_nil_r, Hh.
Qed.

Lemma streamed_wire r ops : 0 <= stream_fd_ r -> header_sent_ r = false -> chunk_buf_ r = [] ->
  stream r ops = serialize_header order (announced r) ++ concat (map chunk_frame (chunks_of ops)) ++ chars "0" ++ CRLF ++ CRLF.
Proof.
  intros Hfd Hs Hb. unfold stream.
  assert (forall s ds, streaming r (fst s) (snd s) ds -> let s' := foldl (fun s op => stream_step op s) s ops in
    streaming r (fst s') (snd s') (ds ++ chunks_of ops)) as H.
  { unfold chunks_of. induction ops as [|op ops IH]; intros s ds Hst; cbn [foldl flat_map]; [by rewrite app_nil_r|].
    rewrite app_assoc. apply IH. pose proof (stream_step_ok r op s ds Hst) as H. unfold chunks_of in H. cbn [flat_map] in H.
    by rewrite app_nil_r in H. }
  specialize (H (r, []) []). destruct (foldl _ _ ops) as [r' out]. cbn [fst snd app] in H.
  destruct H as [Hfd' Hh' Hs' Ho']; [constructor; cbn [fst snd]; [done|done|by rewrite Hs|by rewrite Hs, Hb]|].
  unfold flush_end. rewrite (proj2 (Z.ltb_ge _ _)) by done. fold (announced r').
  rewrite (app_assoc (serialize_header _ _)), <- Ho'. destruct (header_sent_ r'); cbn [snd app]; [by rewrite <- !app_assoc|].
  rewrite Hh'. by rewrite <- !app_assoc.
Qed.
End stream.

Lemma find_some s pat a b : s = a ++ pat ++ b -> exists k, find s pat 0 = Some k.
Proof.
  intros E. destruct (find s pat 0) as [k|] eqn:Ef; [by exists k|]. rewrite find_none in Ef. by apply Ef in E.
Qed.

Section chunked.
Context (order : gmap bytes bytes -> list (bytes * bytes)).
Context (r : Response) (Hok : response_ok order r) (Hc : Response.chunked_ r = true).

Lemma announces_chunked : exists k, icase_find (serialize_header order r) (chars "transfer-encoding: chunked") = Some k.
Proof.
  rewrite serialize_header_fields. unfold framing. rewrite Hc, map_app, concat_app. cbn [map concat]. unfold field_line at 2.
  cbn [fst snd]. unfold icase_find. change (zlen (chars "transfer-encoding: chunked") =? 0) with false. cbn iota.
  rewrite !map_app, <- !app_assoc. change (map tolower (chars "Transfer-Encoding")) with (chars "transfer-encoding").
  change (map tolower (chars ": ")) with (chars ": "). change (map tolower (chars "chunked")) with (chars "chunked").
  eapply find_some. rewrite (app_assoc (map tolower CRLF)), (app_assoc (map tolower (status_line r))).
  rewrite (app_assoc (chars "transfer-encoding")), (app_assoc (chars "transfer-encoding" ++ _)). reflexivity.
Qed.

(** The head ends in the word of its last field. *)
Lemma header_unmarked : unmarked (serialize_header order r).
Proof.
  unfold unmarked. apply find_none. intros a b E. pose proof (header_find order r Hok []) as Hf. rewrite app_nil_r in Hf.
  assert (serialize_header order r = (a ++ chars "0") ++ CRLFCRLF ++ b) as E' by (rewrite E; unfold end_mark; by rewrite <- !app_assoc).
  pose proof (find_min _ _ _ _ _ Hf E') as Hmin. clear Hf. assert (b = []) as ->.
  { apply zlen_nil_inv. rewrite E, !zlen_app in Hmin. change (zlen end_mark) with 5 in Hmin. change (zlen (chars "0")) with 1 in Hmin. pose proof (zlen_nonneg b). lia. }
  rewrite app_nil_r in E'. revert E'. rewrite serialize_header_fields. unfold framing. rewrite Hc, map_app, concat_app. cbn [map concat]. unfold field_line at 2. cbn [fst snd].
  rewrite app_nil_r. change (chars "chunked") with (chars "chunke" ++ chars "d"). rewrite !app_assoc, <- (app_assoc _ CRLF CRLF).
  intros [E1 _]%app_inj_2; [|done]. apply app_inj_2 in E1 as [_ [=]]. done.
Qed.

Lemma reader_of_chunked tail : zlen (serialize_header order r ++ tail) <= kMaxResponseSize ->
  enough (reader_of (serialize_header order r ++ tail)) =
  match find (serialize_header order r ++ tail) (chars "0" ++ CRLFCRLF) 0 with Some _ => true | None => false end.
Proof.
  intros Hl. rewrite zlen_app in Hl. pose proof (zlen_nonneg tail).
  unfold reader_of, scan_head. cbn [header_end rd_buf content_length rd_chunked]. change (negb (npos =? npos)) with false. cbn iota.
  rewrite header_find by done. replace (zlen (serialize_header order r) - 4 + 4) with (zlen (serialize_header order r)) by lia.
  rewrite ztake_app by done. destruct announces_chunked as [k ->]. unfold enough. cbn [header_end rd_chunked content_length rd_buf negb andb].
  pose proof (zlen_nonneg (serialize_header order r)).
  unfold npos, UINT64_MAX. rewrite (proj2 (Z.eqb_neq _ _)) by lia. done.
Qed.

(** A chunked response in which the end mark occurs at the end only arrives in any pieces. *)
Lemma read_chunked wire tail segs more : wire = serialize_header order r ++ tail -> zlen wire <= kMaxResponseSize ->
  find wire (chars "0" ++ CRLFCRLF) 0 = Some (zlen wire - 5) -> concat segs = wire -> Forall (fun p => p <> []) segs ->
  read_http_response (map ReadBytes segs ++ more) = Some (Ok wire).
Proof.
  intros Ew Hl Hend E Hne. apply read_segments; try done.
  - intros pre x suf Ep. destruct (find pre (chars "0" ++ CRLFCRLF) 0) as [k|] eqn:Ek.
    + exfalso. pose proof (find_app pre (x :: suf) _ _ Ek) as Ek'. rewrite <- Ep, Hend in Ek'. injection Ek' as <-.
      apply find_bounds in Ek as [_ Hk]; [|lia]. change (zlen (chars "0" ++ CRLFCRLF)) with 5 in Hk.
      rewrite Ep, zlen_app, zlen_cons in Hk. pose proof (zlen_nonneg suf). lia.
    + unfold enough, reader_of, scan_head. cbn [header_end rd_buf content_length rd_chunked]. change (negb (npos =? npos)) with false. cbn iota.
      destruct (find pre CRLFCRLF 0) as [pos|] eqn:Ef; [|done].
      assert (pos = zlen (serialize_header order r) - 4) as ->.
      { pose proof (find_app pre (x :: suf) _ _ Ef) as Ef'. rewrite <- Ep, Ew, header_find in Ef' by done. by injection Ef'. }
      assert (zlen (serialize_header order r) <= zlen pre) as Hle
        by (apply find_bounds in Ef as [_ Hb]; [|lia]; change (zlen CRLFCRLF) with 4 in Hb; lia).
      assert (ztake (zlen (serialize_header order r) - 4 + 4) pre = serialize_header order r) as ->.
      { rewrite <- (ztake_app_le _ pre (x :: suf)), <- Ep, Ew by lia. apply ztake_app. lia. }
      destruct announces_chunked as [k ->]. cbn [rd_chunked header_end rd_buf negb andb]. rewrite Ek. by destruct (_ =? _).
  - rewrite Ew in *. rewrite reader_of_chunked by done. by rewrite Hend.
  - rewrite Ew. unfold serialize_header. discriminate.
Qed.

Lemma parse_chunked ds tail : data_ok ds ->
  parse_response (serialize_header order r ++ concat (map chunk_frame ds) ++ chars "0" ++ CRLF ++ tail) =
  Ok (mkFetch (status_code_ r) (add_fields (fields order r ++ [framing r]) ∅) (concat ds)).
Proof.
  intros Hd. rewrite parse_response_head by done. do 2 f_equal. unfold parse_body.
  assert (fetch_header (add_fields (fields order r ++ [framing r]) ∅) (chars "transfer-encoding") = chars "chunked") as ->.
  { unfold fetch_header. change (map tolower (chars "transfer-encoding")) with (chars "transfer-encoding").
    unfold add_fields. rewrite foldl_app. cbn [foldl]. unfold framing. rewrite Hc. cbn [fst snd]. unfold fetch_add_header at 1.
    change (map tolower (chars "Transfer-Encoding")) with (chars "transfer-encoding"). by rewrite lookup_insert. }
  change (find (chars "chunked") (chars "chunked") 0) with (Some 0). cbn iota.
  rewrite parse_chunks_frames; [done|done|]. rewrite length_app. pose proof (frames_length ds Hd). lia.
Qed.
End chunked.

(** A field is found under its name in any case, unless a later one has the same name. *)
Lemma field_found order r l1 k v l2 : fields order r = l1 ++ (k, v) :: l2 ->
  Forall (fun h => map tolower (fst h) <> map tolower k) (l2 ++ [framing r]) ->
  fetch_header (add_fields (fields order r ++ [framing r]) ∅) k = v.
Proof.
  intros -> Hl. rewrite <- app_assoc. cbn [app]. unfold fetch_header, add_fields. rewrite foldl_app. cbn [foldl fst snd].
  pose proof (add_fields_other (l2 ++ [framing r]) (fetch_add_header k v (add_fields l1 ∅)) _ Hl) as E.
  unfold add_fields in E. rewrite E. unfold fetch_add_header. by rewrite lookup_insert_eq.
Qed.

(** The client reads back what the server writes.  A response of known length, whatever
    the order its headers are written in and however it is cut into reads, is read to its last
    byte and no further, and parsed to its status and body; a header is found under its name
    in any case, the last one if several have the name. *)
Theorem response_read_back order r segs more :
  response_ok order r -> fixed_ok order r -> concat segs = serialize order r -> Forall (fun p => p <> []) segs ->
  exists resp,
    match read_http_response (map ReadBytes segs ++ more) with
    | Some (Ok raw) => raw = serialize order r /\ parse_response raw = Ok resp
    | _ => False
    end /\
    status_ resp = status_code_ r /\ fetch_body_ resp = Response.body_ r /\
    forall l1 k v l2, fields order r = l1 ++ (k, v) :: l2 ->
      Forall (fun h => map tolower (fst h) <> map tolower k) (l2 ++ [framing r]) ->
      fetch_header (fetch_headers_ resp) k = v.
Proof.
  intros Hok Hfx E Hne. rewrite (read_fixed order r Hok Hfx segs more E Hne). eexists. split; [split; [done|]|].
  - by apply parse_fixed.
  - split_and!; [done..|]. intros l1 k v l2 Ef Hl. by apply (field_found order r l1 k v l2).
Qed.

(** C30.  Streaming.  A handler that adds chunks and flushes in any order, then ends the
    stream, has written one chunked response: the client reads it, however it is cut, to its
    status and the concatenation of the chunks, provided the end mark it looks for, a zero
    followed by two line ends, occurs in no chunk as it is written (its size in hexadecimal, a
    line end, the data, a line end).  [client_misreads] shows a chunk in which it does.  The
    chunks are not empty, the header fields are well formed ([response_ok]), and all of it is
    within the client's 8 MiB. *)
Theorem stream_read_back order r ops segs more :
  0 <= stream_fd_ r -> header_sent_ r = false -> chunk_buf_ r = [] ->
  response_ok order r -> data_ok (chunks_of ops) -> zlen (stream order r ops) <= kMaxResponseSize ->
  Forall (fun d => find (chunk_frame d) (chars "0" ++ CRLFCRLF) 0 = None) (chunks_of ops) ->
  concat segs = stream order r ops -> Forall (fun p => p <> []) segs ->
  match read_http_response (map ReadBytes segs ++ more) with
  | Some (Ok raw) => exists hs, parse_response raw = Ok (mkFetch (status_code_ r) hs (concat (chunks_of ops)))
  | _ => False
  end.
Proof.
  intros Hfd Hs Hb Hok Hd Hmax Hend E Hne. rewrite (streamed_wire order r ops Hfd Hs Hb) in *.
  assert (response_ok order (announced r)) as Hok' by (destruct Hok; by constructor).
  assert (Forall (fun b => unmarked b /\ opens_line b) (map chunk_frame (chunks_of ops))) as Hbl
    by (apply Forall_map; eapply Forall_impl; [exact Hend|]; intros d Hd'; split; [exact Hd'|apply chunk_frame_opens]).
  pose proof (blocks_mark _ _ (header_unmarked order (announced r) Hok' eq_refl) Hbl) as Hf.
  change (chars "0" ++ CRLF ++ CRLF) with end_mark in *.
  rewrite (read_chunked order (announced r) Hok' eq_refl _ _ segs more eq_refl Hmax); [..|done|done].
  2: { etransitivity; [exact Hf|]. rewrite !zlen_app. change (zlen end_mark) with 5. f_equal. lia. }
  change end_mark with (chars "0" ++ CRLF ++ CRLF).
  eexists. by rewrite (parse_chunked order (announced r) Hok' eq_refl (chunks_of ops) CRLF Hd).
Qed.

(** ** Where client and server disagree *)

(** The bytes the server writes for chunks without trailers stop after the last-chunk line:
    a client that keeps the connection open waits on. *)
Theorem chunks_without_end order segs :
  let r := end_chunks (chunk (chars "hello") new_response) in
  order ∅ = [] -> concat segs = serialize_header order r ++ chunk_buf_ r -> Forall (fun p => p <> []) segs ->
  read_http_response (map ReadBytes segs) = None.
Proof.
  intros r Ho E Hne.
  assert (serialize_header order r ++ chunk_buf_ r = serialize_header (fun _ => []) r ++ chunk_buf_ r) as Ew
    by (unfold serialize_header; change (headers_ r) with (∅ : gmap bytes bytes); by rewrite Ho).
  rewrite Ew in E. clear Ew Ho. set (wire := serialize_header (fun _ => []) r ++ chunk_buf_ r) in *.
  assert (forall pre suf, wire = pre ++ suf -> enough (reader_of pre) = false) as Hno.
  { intros pre suf Ep. assert (forallb (fun n => negb (enough (reader_of (take n wire)))) (seq 0 (S (length wire))) = true) as Hall
      by (vm_compute; reflexivity).
    rewrite forallb_forall in Hall. specialize (Hall (length pre)). rewrite Ep, take_app_length, <- Ep in Hall.
    apply negb_true_iff, Hall, in_seq. rewrite Ep, length_app. lia. }
  assert (zlen wire <= kMaxResponseSize) as Hl by (vm_compute; discriminate).
  clearbody wire. unfold read_http_response. change new_reader with (reader_of []).
  assert (forall segs b, wire = b ++ concat segs -> Forall (fun p => p <> []) segs -> read_loop (reader_of b) (map ReadBytes segs) = None) as H;
    [|by apply H].
  clear segs E Hne. induction segs as [|p segs IH]; intros b E Hne; [done|]. apply Forall_cons in Hne as [Hp Hne].
  cbn [map read_loop]. rewrite (proj2 (Z.eqb_neq _ 0)) by (intros Hz%zlen_nil_inv; done). cbn [concat] in E. rewrite app_assoc in E.
  assert (zlen (b ++ p) <= zlen wire) by (rewrite E, (zlen_app (b ++ p)); pose proof (zlen_nonneg (concat segs)); lia).
  assert (zlen b <= zlen (b ++ p)) by (rewrite zlen_app; pose proof (zlen_nonneg p); lia).
  assert (rd_buf (reader_of b) = b) as Hb by (unfold reader_of; by rewrite rd_buf_scan).
  cbn [rd_buf]. rewrite Hb at 1. rewrite (proj2 (Z.ltb_ge _ _)) by lia. rewrite scan_append by lia.
  rewrite (Hno (b ++ p) (concat segs) E). by apply IH.
Qed.

Definition fetch_text (segs : list bytes) : option (result FetchResponse) :=
  match read_http_response (map ReadBytes segs) with
  | Some (Ok raw) => Some (parse_response raw)
  | Some (Err e) => Some (Err e)
  | None => None
  end.

Definition body_read (segs : list bytes) : option bytes :=
  match fetch_text segs with Some (Ok resp) => Some (fetch_body_ resp) | _ => None end.

(** The client takes the end mark of a chunked body for one inside a chunk, and the length
    from a header whose name only ends in [Content-Length]: the body then depends on how the
    bytes were cut.  A chunk size near 2^64 wraps and the rest counts as the chunk; of several
    cookies the last is kept. *)
Theorem client_misreads :
  (let head := lines ["HTTP/1.1 200 OK"; "Transfer-Encoding: chunked"; ""; "d"]%string in
   let first := chars "10" ++ CRLFCRLF in
   let second := chars "more..." ++ CRLF ++ chars "0" ++ CRLFCRLF in
   body_read [head ++ first ++ second] = Some (first ++ chars "more...") /\
   body_read [head ++ first; second] = Some []) /\
  (let head := lines ["HTTP/1.1 200 OK"; "X-Content-Length: 1"; "Content-Length: 5"; ""]%string in
   body_read [head ++ chars "hello"] = Some (chars "hello") /\
   body_read [head ++ chars "h"; chars "ello"] = Some (chars "h")) /\
  parse_chunks 5 (chars "ffffffffffffffff" ++ CRLF ++ chars "rest") [] = chars "rest" /\
  (let r := set_cookie (chars "b") (chars "2") (mkCookie [] [] [] (-1) false false)
              (set_cookie (chars "a") (chars "1") (mkCookie [] [] [] (-1) false false) new_response) in
   match parse_response (serialize (fun _ => []) r) with
   | Ok resp => fetch_header (fetch_headers_ resp) (chars "Set-Cookie") = chars "b=2"
   | Err _ => False
   end).
Proof. vm_compute. repeat split; reflexivity. Qed.

(** ** Witnesses *)

Definition sample_response : Response :=
  body (chars "pong") (header (chars "Content-Type") (chars "text/plain") (status 201 new_response)).

Lemma sample_ok : response_ok map_to_list sample_response /\ fixed_ok map_to_list sample_response.
Proof.
  split; [constructor; [done|]|constructor; [done|vm_compute; discriminate|vm_compute; reflexivity..|]];
    apply (bool_decide_unpack _); vm_compute; exact I.
Qed.

Lemma response_read_back_witness :
  let wire := serialize map_to_list sample_response in
  exists resp, status_ resp = 201 /\ fetch_body_ resp = chars "pong" /\
    fetch_header (fetch_headers_ resp) (chars "Content-Type") = chars "text/plain" /\
    parse_response wire = Ok resp.
Proof.
  destruct sample_ok as [Hok Hfx]. intros wire.
  destruct (response_read_back map_to_list sample_response [ztake 10 wire; zdrop 10 wire] [] Hok Hfx) as (resp & Hr & Hs & Hb & Hf).
  - cbn [concat]. rewrite app_nil_r. apply ztake_zdrop.
  - repeat constructor; vm_compute; discriminate.
  - exists resp. destruct (read_http_response _) as [[raw|]|]; try done. destruct Hr as [-> Hp]. split_and!; [done|done| |done].
    apply (Hf [] (chars "Content-Type") (chars "text/plain") []); [vm_compute; reflexivity|].
    apply (bool_decide_unpack _). vm_compute. exact I.
Defined.

Definition sample_ops : list stream_op := [Chunk (chars "event 1"); Flush; Flush; Chunk (chars "event 2"); Chunk []; Flush; Chunk (chars "end")].

Lemma stream_read_back_witness :
  let wire := stream map_to_list (set_stream_fd 7 sample_response) sample_ops in
  exists hs, parse_response wire = Ok (mkFetch 201 hs (chars "event 1event 2end")).
Proof.
  intros wire. pose proof (stream_read_back map_to_list (set_stream_fd 7 sample_response) sample_ops [wire] []) as H.
  assert (read_http_response (map ReadBytes [wire] ++ []) = Some (Ok wire)) as E by (vm_compute; reflexivity).
  assert (concat (chunks_of sample_ops) = chars "event 1event 2end") as Ec by reflexivity. rewrite E, Ec in H.
  change (status_code_ (set_stream_fd 7 sample_response)) with 201 in H. apply H.
  - change (0 <= 7). lia.
  - reflexivity.
  - reflexivity.
  - destruct sample_ok as [[H1 H2] _]. by constructor.
  - apply (bool_decide_unpack _). vm_compute. exact I.
  - vm_compute. discriminate.
  - repeat constructor.
  - apply app_nil_r.
  - apply Forall_singleton. vm_compute. discriminate.
Defined.
