(* ===== verification/Server.v ===== *)
(** * The HTTP/1.1 server: [App::listen] of [src/qbuem_stack.cpp]

    One connection: what the server does when it is accepted, when bytes arrive, when one of
    its two timers fires.  A request goes through the parser, the path guard, the WebSocket
    hand-off, the middlewares, the router and the handler to [send_response].

    The state is the connection's context, the reactor's timers and read registration for it,
    the counters of the application, and the log of what was done to the socket.  The
    application is a parameter: its state [A], its router, middlewares and error handler; a
    handler that throws returns no response.  Timers are taken to be registered without error.
    A handler written as a coroutine is only started here ([Spawn]), and routers with
    asynchronous middlewares are not modelled.  The requests handed to the application view
    the receive buffer, from which the bytes of the request are erased before the application
    sees it: what the views show then is the argument [views], given by [HttpViews]. *)

From stdpp Require Import gmap.
From S2P Require Import Prelude Text HttpParser Router Response.
#[local] Open Scope Z_scope.

(** ** Writing *)

(** What a [write], [writev] or the [poll] after it reports: bytes taken, EINTR, EAGAIN and
    the socket is (or is not) writable again within the budget, or another error. *)
Inductive write_step := Took (n : Z) | Eintr | Eagain (writable : bool) | WriteFailed.

(** [write_all]: the bytes sent; the loop ends with the steps at the latest. *)
Fixpoint write_all (data : bytes) (steps : list write_step) : bytes :=
  if zlen data =? 0 then []
  else
    match steps with
    | [] => []
    | Took n :: steps => if n <=? 0 then [] else ztake n data ++ write_all (zdrop n data) steps
    | Eintr :: steps => write_all data steps
    | Eagain true :: steps => write_all data steps
    | Eagain false :: _ | WriteFailed :: _ => []
    end.

(** [writev_response]: the two parts still to be sent; a short write empties the first
    before it shortens the second. *)
Fixpoint writev_response (hdr body : bytes) (steps : list write_step) : bytes :=
  if zlen hdr + zlen body =? 0 then []
  else
    match steps with
    | [] => []
    | Took n :: steps =>
        if n <=? 0 then []
        else if zlen hdr <=? n
        then hdr ++ ztake (n - zlen hdr) body ++ writev_response [] (zdrop (n - zlen hdr) body) steps
        else ztake n hdr ++ writev_response (zdrop n hdr) body steps
    | Eintr :: steps => writev_response hdr body steps
    | Eagain true :: steps => writev_response hdr body steps
    | Eagain false :: _ | WriteFailed :: _ => []
    end.

(** ** The connection *)

Record ConnCtx := mkCtx {
  idle_timer_id : Z;
  read_timer_id : Z;
  handled : Z;
  sent_100 : bool;
  buf : bytes;
  client_ip : bytes;
}.

Abbreviation MAX_REQUESTS := (100)%Z (only parsing).

Inductive timer := IdleTimer | ReadTimer.

Inductive action :=
  | Write (b : bytes)
  | SendFile (path : bytes) (size : Z)
  | Close
  | WsServe (path : bytes)
  | Spawn (params : list (bytes * bytes))
  | AccessLog (method path : bytes) (status : Z) (extra : option (bytes * bytes * bytes)).

(** What a handler is given: the request, its path parameters, the peer's address. *)
Record Call := mkCall { request : Request; params_flat_ : list (bytes * bytes); remote_addr_ : bytes }.

Section server.
Context {A : Type}.

Inductive HandlerVariant :=
  | Handler (f : A -> Call -> Response -> A * option Response)
  | AsyncHandler.

Record App := mkApp {
  router_ : @Router HandlerVariant;
  middlewares_ : list (A -> Call -> Response -> A * Response * bool);
  error_handler_ : option (A -> Call -> Response -> A * Response);
  ws_routes_ : list bytes;
  logger_ : option bool;
}.

Record conn := mkConn {
  ctx : ConnCtx;
  next_timer_id_ : Z;
  timers_by_id_ : gmap Z timer;
  reading : bool;
  app : A;
  cnt_requests_ : Z;
  cnt_errors_ : Z;
  cnt_bytes_sent_ : Z;
  log : list action;
}.

Definition set_ctx (c : ConnCtx) (w : conn) : conn :=
  mkConn c (next_timer_id_ w) (timers_by_id_ w) (reading w) (app w) (cnt_requests_ w) (cnt_errors_ w) (cnt_bytes_sent_ w) (log w).

Definition set_app (a : A) (w : conn) : conn :=
  mkConn (ctx w) (next_timer_id_ w) (timers_by_id_ w) (reading w) a (cnt_requests_ w) (cnt_errors_ w) (cnt_bytes_sent_ w) (log w).

Definition emit (acts : list action) (w : conn) : conn :=
  mkConn (ctx w) (next_timer_id_ w) (timers_by_id_ w) (reading w) (app w) (cnt_requests_ w) (cnt_errors_ w) (cnt_bytes_sent_ w) (log w ++ acts).

Definition set_timers (next : Z) (ts : gmap Z timer) (w : conn) : conn :=
  mkConn (ctx w) next ts (reading w) (app w) (cnt_requests_ w) (cnt_errors_ w) (cnt_bytes_sent_ w) (log w).

(** ** Timers *)

Definition set_idle (id : Z) (w : conn) : conn :=
  let c := ctx w in set_ctx (mkCtx id (read_timer_id c) (handled c) (sent_100 c) (buf c) (client_ip c)) w.

Definition set_read (id : Z) (w : conn) : conn :=
  let c := ctx w in set_ctx (mkCtx (idle_timer_id c) id (handled c) (sent_100 c) (buf c) (client_ip c)) w.

Definition cancel_idle (w : conn) : conn :=
  if idle_timer_id (ctx w) =? -1 then w
  else set_idle (-1) (set_timers (next_timer_id_ w) (delete (idle_timer_id (ctx w)) (timers_by_id_ w)) w).

Definition arm_idle (w : conn) : conn :=
  let w := cancel_idle w in
  let id := next_timer_id_ w in
  set_idle id (set_timers (id + 1) (<[id := IdleTimer]> (timers_by_id_ w)) w).

Definition arm_read_timeout (w : conn) : conn :=
  if negb (read_timer_id (ctx w) =? -1) then w
  else
    let id := next_timer_id_ w in
    set_read id (set_timers (id + 1) (<[id := ReadTimer]> (timers_by_id_ w)) w).

Definition cancel_read_timeout (w : conn) : conn :=
  if read_timer_id (ctx w) =? -1 then w
  else set_read (-1) (set_timers (next_timer_id_ w) (delete (read_timer_id (ctx w)) (timers_by_id_ w)) w).

(** [unregister_event] then [close]. *)
Definition close_conn (w : conn) : conn :=
  mkConn (ctx w) (next_timer_id_ w) (timers_by_id_ w) false (app w) (cnt_requests_ w) (cnt_errors_ w) (cnt_bytes_sent_ w) (log w ++ [Close]).

(** ** [send_response] *)

(** [std::stoul]: blanks, a sign, digits; [None] is an exception. *)
Definition is_space (c : Z) : bool := (c =? 32) || ((9 <=? c) && (c <=? 13)).

Fixpoint digit_prefix (s : bytes) : bytes :=
  match s with
  | c :: s => if (0x30 <=? c) && (c <=? 0x39) then c :: digit_prefix s else []
  | [] => []
  end.

Fixpoint stoul (s : bytes) : option Z :=
  let value s := match digit_prefix s with
                 | [] => None
                 | ds => digits UINT64_MAX ds 0
                 end in
  match s with
  | c :: t =>
      if is_space c then stoul t
      else if c =? 0x2B then value t
      else if c =? 0x2D then option_map (fun v => u64 (- v)) (value t)
      else value s
  | [] => None
  end.

(** The bounds of [bytes=first-last]: [None] unless the header has that form; then the
    bounds, or [None] when they cannot be satisfied. *)
Definition parse_range (range_hdr : bytes) (total : Z) : option (option (Z * Z)) :=
  if negb (bool_decide (substr range_hdr 0 6 = chars "bytes=")) then None
  else
    let spec := zdrop 6 range_hdr in
    match find spec [0x2D] 0 with
    | None => None
    | Some dash =>
        let first_str := substr spec 0 dash in
        let last_str := zdrop (dash + 1) spec in
        let first := if zlen first_str =? 0 then Some 0 else stoul first_str in
        let last := if zlen last_str =? 0 then Some (u64 (total - 1)) else stoul last_str in
        Some match first, last with
             | Some first, Some last =>
                 if (last <? first) || (total <=? first) then None
                 else Some (first, if total <=? last then u64 (total - 1) else last)
             | _, _ => None
             end
    end.

Definition apply_range (rq : Request) (r : Response) : Response :=
  let range_hdr := HttpParser.header rq (chars "Range") in
  if negb (status_code_ r =? 200) then r
  else if zlen range_hdr =? 0 then header (chars "Accept-Ranges") (chars "bytes") r
  else
    let whole := Response.body_ r in
    let total := zlen whole in
    match parse_range range_hdr total with
    | None => r
    | Some (Some (first, last)) =>
        body (substr whole first (last - first + 1))
          (header (chars "Accept-Ranges") (chars "bytes")
            (header (chars "Content-Range")
               (chars "bytes " ++ to_string first ++ chars "-" ++ to_string last ++ chars "/" ++ to_string total)
               (status 206 r)))
    | Some None =>
        body (chars "Range Not Satisfiable")
          (header (chars "Content-Range") (chars "bytes */" ++ to_string total) (status 416 r))
    end.

Definition log_method (m : Method) : bytes :=
  match m with
  | Get => chars "GET" | Post => chars "POST" | Put => chars "PUT" | Delete => chars "DELETE"
  | Patch => chars "PATCH" | Head => chars "HEAD" | Options => chars "OPTIONS" | Unknown => chars "UNKNOWN"
  end.

Definition access_log (logger : option bool) (c : Call) (sc : Z) : list action :=
  let rq := request c in
  match logger with
  | None => []
  | Some false => [AccessLog (log_method (method_ rq)) (path_ rq) sc None]
  | Some true =>
      let b3 := HttpParser.header rq (chars "X-B3-TraceId") in
      let trace_id := if zlen b3 =? 0 then HttpParser.header rq (chars "traceparent") else b3 in
      [AccessLog (log_method (method_ rq)) (path_ rq) sc
         (Some (remote_addr_ c, HttpParser.header rq (chars "X-Request-Id"), trace_id))]
  end.

Context (order : gmap bytes bytes -> list (bytes * bytes)).
(** What the views of a request show once [n] bytes are erased from the buffer they are into:
    [HttpViews.inplace_views] for a [std::string] that erases in place. *)
Context (views : bytes -> Z -> Request -> Request).
Context (a : App).

Definition connection_value (keep_alive : bool) : bytes := if keep_alive then chars "keep-alive" else chars "close".

(** What the [count]-th request of the connection is answered with: the calls on the socket
    and the log, the bytes and the errors to be counted. *)
Definition response_actions (date : bytes) (keep_alive : bool) (count : Z) (c : Call) (r : Response) : list action * Z * Z :=
  let rq := request c in
  if streamed_ r then ([], streamed_bytes_ r, 0)
  else
    let if_none_match := HttpParser.header rq (chars "If-None-Match") in
    let resp_etag := get_header (chars "ETag") r in
    if negb (zlen if_none_match =? 0) && negb (zlen resp_etag =? 0) &&
       (bool_decide (if_none_match = chars "*") || bool_decide (if_none_match = resp_etag))
    then
      let nm := header (chars "Connection") (connection_value keep_alive)
                  (header (chars "Date") date (header (chars "ETag") resp_etag (status 304 new_response))) in
      ([Write (serialize order nm)], 0, 0)
    else
      let r := apply_range rq r in
      let r := header (chars "Connection") (connection_value keep_alive) (header (chars "Date") date r) in
      let r := if keep_alive
               then header (chars "Keep-Alive") (chars "timeout=30, max=" ++ int_to_string (MAX_REQUESTS - count)) r
               else r in
      let hdr := serialize_header order r in
      let body_view := if Response.chunked_ r then chunk_buf_ r else Response.body_ r in
      let '(acts, sent) :=
        if has_sendfile r
        then ([Write hdr; SendFile (sendfile_path_ r) (sendfile_size_ r)], zlen hdr + sendfile_size_ r)
        else ([Write (hdr ++ body_view)], zlen hdr + zlen body_view) in
      let '(acts, sent) :=
        if Response.chunked_ r && has_trailers r
        then (acts ++ [Write (encode_trailers r)], sent + zlen (encode_trailers r))
        else (acts, sent) in
      let sc := status_code_ r in
      (acts ++ access_log (logger_ a) c sc, sent, if 400 <=? sc then 1 else 0).

Definition send_response (date : bytes) (keep_alive : bool) (c : Call) (r : Response) (w : conn) : conn :=
  let '(acts, sent, errors) := response_actions date keep_alive (handled (ctx w)) c r in
  mkConn (ctx w) (next_timer_id_ w) (timers_by_id_ w) (reading w) (app w) (cnt_requests_ w)
    (u64 (cnt_errors_ w + errors)) (u64 (cnt_bytes_sent_ w + sent)) (log w ++ acts).

(** ** One request *)

Definition not_found (path : bytes) (r : Response) : Response :=
  if path_exists (router_ a) path then body (chars "Method Not Allowed") (status 405 r)
  else body (chars "Not Found") (status 404 r).

(** The middlewares in order, until one refuses. *)
Fixpoint run_middlewares (mws : list (A -> Call -> Response -> A * Response * bool)) (st : A) (c : Call) (r : Response) : A * Response * bool :=
  match mws with
  | [] => (st, r, true)
  | mw :: mws =>
      match mw st c r with
      | (st, r, true) => run_middlewares mws st c r
      | (st, r, false) => (st, r, false)
      end
  end.

(** [set_param] keeps sixteen. *)
Abbreviation kMaxInlineParams := (16)%Z (only parsing).

(** The route of a request; HEAD falls back to GET. *)
Definition route (rq : Request) : option HandlerVariant * gmap bytes bytes * bool :=
  let '(h, params) := match_route (router_ a) (method_ rq) (path_ rq) ∅ in
  match h, method_ rq with
  | None, Head =>
      let '(h, params) := match_route (router_ a) Get (path_ rq) params in
      (h, params, match h with Some _ => true | None => false end)
  | _, _ => (h, params, false)
  end.

(** A synchronous handler and what replaces its response when it throws. *)
Definition call_handler (f : A -> Call -> Response -> A * option Response) (head_fallback : bool) (c : Call) (r : Response) (st : A) : A * Response :=
  match f st c r with
  | (st, Some r) => (st, if head_fallback then body [] r else r)
  | (st, None) =>
      match error_handler_ a with
      | Some eh => eh st c new_response
      | None => (st, body (chars "Internal Server Error") (status 500 new_response))
      end
  end.

(** What the application makes of a request: a response, [cont] unless a middleware ended it,
    or a started coroutine. *)
Inductive outcome := Respond (c : Call) (r : Response) (cont : bool) | Start (params : list (bytes * bytes)).

Definition answer (rq : Request) (ip : bytes) (st : A) : A * outcome :=
  let '(h, params, head_fallback) := route rq in
  let c := mkCall rq [] ip in
  let '(st, res, cont) := run_middlewares (middlewares_ a) st c new_response in
  if negb cont then (st, Respond c res false)
  else
    match h with
    | None => (st, Respond c (not_found (path_ rq) res) true)
    | Some (Handler f) =>
        let c := mkCall rq (ztake kMaxInlineParams (order params)) ip in
        let '(st, res) := call_handler f head_fallback c res st in
        (st, Respond c res true)
    | Some AsyncHandler => (st, Start (ztake kMaxInlineParams (order params)))
    end.

(** A refused request closes the connection. *)
Definition dispatch (date : bytes) (keep_alive : bool) (rq : Request) (w : conn) : conn :=
  let '(st, o) := answer rq (client_ip (ctx w)) (app w) in
  let w := set_app st w in
  match o with
  | Respond c r cont =>
      let w := send_response date keep_alive c r w in
      if cont && keep_alive then arm_idle w else close_conn w
  | Start params => emit [Spawn params] w
  end.

(** ** The read callback *)

Definition is_websocket (up : bytes) : bool :=
  bool_decide (map (fun c => if (0x41 <=? c) && (c <=? 0x5A) then c + 32 else c) up = chars "websocket").

(** A complete request of [n] bytes. *)
Definition handle_request (date : bytes) (n : Z) (req : Request) (w : conn) : conn :=
  let w := cancel_read_timeout w in
  let c := ctx w in
  let w := set_ctx (mkCtx (idle_timer_id c) (read_timer_id c) (handled c + 1) false (buf c) (client_ip c)) w in
  let w := mkConn (ctx w) (next_timer_id_ w) (timers_by_id_ w) (reading w) (app w) (u64 (cnt_requests_ w + 1))
             (cnt_errors_ w) (cnt_bytes_sent_ w) (log w) in
  if path_is_bad (path_ req) then
    let err := header (chars "Connection") (chars "close")
                 (header (chars "Date") date (body (chars "Bad Request") (status 400 new_response))) in
    close_conn (emit [Write (serialize order err)] w)
  else if negb (zlen (ws_routes_ a) =? 0) && is_websocket (HttpParser.header req (chars "Upgrade")) &&
          bool_decide (path_ req ∈ ws_routes_ a) then
    let w := cancel_idle (cancel_read_timeout w) in
    mkConn (ctx w) (next_timer_id_ w) (timers_by_id_ w) false (app w) (cnt_requests_ w) (cnt_errors_ w)
      (cnt_bytes_sent_ w) (log w ++ [WsServe (path_ req)])
  else
    let c := ctx w in
    let rest := zdrop n (buf c) in
    let w := set_ctx (mkCtx (idle_timer_id c) (read_timer_id c) (handled c) (sent_100 c) rest (client_ip c)) w in
    let req := views (buf c) n req in
    let keep_alive := negb (bool_decide (HttpParser.header req (chars "Connection") = chars "close")) &&
                      (handled (ctx w) <? MAX_REQUESTS) in
    dispatch date keep_alive req w.

(** [None]: [read] returned 0 or an error. *)
Definition on_read (date : bytes) (data : option bytes) (w : conn) : conn :=
  let w := cancel_idle w in
  match data with
  | None => close_conn (cancel_read_timeout w)
  | Some tmp =>
      let w := if zlen (buf (ctx w)) =? 0 then arm_read_timeout w else w in
      let c := ctx w in
      let w := set_ctx (mkCtx (idle_timer_id c) (read_timer_id c) (handled c) (sent_100 c) (buf c ++ tmp) (client_ip c)) w in
      match parse (buf (ctx w)) new_parser new_request with
      | (None, p, _) =>
          let w := cancel_read_timeout w in
          let st := if error_status_ p =? 0 then 400 else error_status_ p in
          let err := body (if st =? 413 then chars "Payload Too Large" else chars "Bad Request")
                       (header (chars "Date") date (header (chars "Connection") (chars "close") (status st new_response))) in
          close_conn (emit [Write (serialize order err)] w)
      | (Some n, p, req) =>
          if decide (state_ p = SComplete) then handle_request date n req w
          else
            let c := ctx w in
            let w :=
              if headers_complete_ p && negb (sent_100 c) &&
                 bool_decide (HttpParser.header req (chars "Expect") = chars "100-continue")
              then set_ctx (mkCtx (idle_timer_id c) (read_timer_id c) (handled c) true (buf c) (client_ip c))
                     (emit [Write (chars "HTTP/1.1 100 Continue" ++ CRLF ++ CRLF)] w)
              else w in
            arm_idle w
      end
  end.

(** ** The timers' callbacks *)

Definition on_timer (id : Z) (w : conn) : conn :=
  match timers_by_id_ w !! id with
  | None => w
  | Some k =>
      let w := set_timers (next_timer_id_ w) (delete id (timers_by_id_ w)) w in
      match k with
      | IdleTimer => close_conn (set_idle (-1) w)
      | ReadTimer =>
          let tout := body (chars "Request Timeout") (header (chars "Connection") (chars "close") (status 408 new_response)) in
          close_conn (emit [Write (serialize order tout)] (set_read (-1) w))
      end
  end.

(** ** The accept callback *)

Definition kOverload : bytes :=
  chars "HTTP/1.1 503 Service Unavailable" ++ CRLF ++
  chars "Content-Type: application/json" ++ CRLF ++
  chars "Retry-After: 1" ++ CRLF ++
  chars "Content-Length: 37" ++ CRLF ++
  chars "Connection: close" ++ CRLF ++ CRLF ++
  [0x7B; 0x22] ++ chars "error" ++ [0x22; 0x3A; 0x22] ++ chars "too many connections" ++ [0x22; 0x7D] ++ chars "    ".

(** With the counter and limit of the moment; [None]: draining, nothing is accepted. *)
Definition on_accept (draining : bool) (max_connections active : Z) (ip : bytes) (next : Z) (st : A) (requests errors sent : Z) : option conn :=
  if draining then None
  else
    let w := mkConn (mkCtx (-1) (-1) 0 false [] ip) next ∅ false st requests errors sent [] in
    if (0 <? max_connections) && (max_connections <=? active)
    then Some (emit [Write (ztake (zlen kOverload - 4) kOverload); Close] w)
    else
      let w := arm_idle w in
      Some (mkConn (ctx w) (next_timer_id_ w) (timers_by_id_ w) true (app w) (cnt_requests_ w) (cnt_errors_ w) (cnt_bytes_sent_ w) (log w)).
End server.
