(* ===== verification/ServerSession.v ===== *)
(** * What a connection of the HTTP/1.1 server does

    Requests sent one after the other are answered in order, however they are cut into reads
    (with the views of [HttpViews]);
    every write loop sends a prefix, all of it unless the socket fails; the timers; and the
    inputs on which the server departs from what its comments say. *)

From stdpp Require Import gmap.
From S2P Require Import Prelude Text HttpParser HttpViews HttpMessage Router Response Fetch HttpClient Server.
#[local] Open Scope Z_scope.

(** ** Writing *)

(** A step that does not end the loop. *)
Definition goes_on (s : write_step) : Prop :=
  match s with Took n => 0 < n | Eintr | Eagain true => True | Eagain false | WriteFailed => False end.

Definition taken (steps : list write_step) : Z :=
  foldr (fun s n => match s with Took k => k + n | _ => n end) 0 steps.

Lemma writev_write_all hdr body steps : writev_response hdr body steps = write_all (hdr ++ body) steps.
Proof.
  revert hdr body. induction steps as [|s steps IH]; intros hdr body; cbn [writev_response write_all]; rewrite zlen_app; [done|].
  destruct (zlen hdr + zlen body =? 0); [done|]. destruct s as [n| |[]|]; try done.
  destruct (Z.leb_spec n 0); [done|]. destruct (Z.leb_spec (zlen hdr) n).
  - rewrite IH. cbn [app]. rewrite app_assoc. f_equal; [|by rewrite zdrop_app_ge].
    unfold ztake, zlen in *. rewrite take_app_ge by lia. do 2 f_equal. lia.
  - rewrite IH. rewrite ztake_app_le, zdrop_app_le by lia. done.
Qed.

Lemma write_all_prefix data steps : exists rest, data = write_all data steps ++ rest.
Proof.
  revert data. induction steps as [|s steps IH]; intros data; cbn [write_all]; destruct (zlen data =? 0); try (by exists data).
  destruct s as [n| |[]|]; try solve [apply IH|by exists data]. destruct (n <=? 0); [by exists data|].
  destruct (IH (zdrop n data)) as [rest E]. exists rest. rewrite <- app_assoc, <- E. by rewrite ztake_zdrop.
Qed.

Lemma taken_nonneg steps : Forall goes_on steps -> 0 <= taken steps.
Proof. unfold taken. induction 1 as [|s steps Hs _ IH]; [done|]. destruct s as [n| |[]|]; cbn [foldr goes_on] in *; lia. Qed.

Lemma write_all_complete data steps : Forall goes_on steps -> zlen data <= taken steps -> write_all data steps = data.
Proof.
  intros Hg. revert data. induction Hg as [|s steps Hs Hg IH]; intros data Hl; cbn [write_all].
  - cbn in Hl. assert (data = []) as -> by (apply zlen_nil_inv; pose proof (zlen_nonneg data); lia). done.
  - destruct (zlen data =? 0) eqn:Ez; [by apply Z.eqb_eq, zlen_nil_inv in Ez as ->|].
    destruct s as [n| |[]|]; cbn [goes_on taken foldr] in *; try done; [|by apply IH..].
    rewrite (proj2 (Z.leb_gt _ _)) by lia. rewrite IH; [apply ztake_zdrop|].
    pose proof (taken_nonneg steps Hg). unfold zdrop, zlen, taken in *. rewrite length_drop. lia.
Qed.

(** [write_all] and [writev_response] send a prefix of the header and the body in order,
    through short writes, interrupts and full buffers; and all of it when the socket keeps
    accepting. *)
Theorem write_loops hdr body steps :
  writev_response hdr body steps = write_all (hdr ++ body) steps /\
  (exists rest, hdr ++ body = write_all (hdr ++ body) steps ++ rest) /\
  (Forall goes_on steps -> zlen hdr + zlen body <= taken steps -> writev_response hdr body steps = hdr ++ body).
Proof.
  split_and!; [apply writev_write_all|apply write_all_prefix|]. intros Hg Hl. rewrite writev_write_all.
  apply write_all_complete; [done|]. by rewrite zlen_app.
Qed.

(** ** Requests on the wire *)

Record Message := mkMessage {
  verb : bytes;
  target : bytes;
  route_path : bytes;
  query : bytes;
  version : bytes;
  hdrs : list (bytes * bytes);
  payload : bytes;
}.

Definition wire (g : Message) : bytes := head (verb g) (target g) (version g) (hdrs g) ++ payload g.

Definition request_of (g : Message) : Request :=
  mkRequest (string_to_method (verb g)) (route_path g) (query g) (payload g) (hdrs g).

(** A request the server can read: see [head_ok]; its header section fits the limit. *)
Record message_ok (g : Message) : Prop := {
  mo_head : head_ok (verb g) (target g) (version g) (hdrs g);
  mo_path : Forall (fun c => c <> 0x3F) (route_path g);
  mo_target : target g = route_path g /\ query g = [] \/ target g = route_path g ++ [0x3F] ++ query g;
  mo_length : announces (hdrs g) (zlen (payload g));
  mo_line : LF ∉ verb g ++ target g;
  mo_size : zlen (head (verb g) (target g) (version g) (hdrs g)) <= MAX_HEADER_SIZE;
  mo_expect : lookup_header (hdrs g) (chars "Expect") <> chars "100-continue";
}.

Lemma scan_find s i : scan_scalar s i = find_at CRLFCRLF s i.
Proof.
  revert i. induction s as [|x s IH]; intros i; [done|].
  destruct s as [|y [|z [|t u]]]; [cbn; by rewrite ?andb_false_r..|].
  change (scan_scalar (x :: y :: z :: t :: u) i) with
    (if (x =? CR) && (y =? LF) && (z =? CR) && (t =? LF) then Some i else scan_scalar (y :: z :: t :: u) (i + 1)).
  change (find_at CRLFCRLF (x :: y :: z :: t :: u) i) with
    (if (x =? CR) && ((y =? LF) && ((z =? CR) && ((t =? LF) && true))) then Some i else find_at CRLFCRLF (y :: z :: t :: u) (i + 1)).
  rewrite IH, andb_true_r, !andb_assoc. done.
Qed.

Lemma header_end_find data : find data CRLFCRLF 0 = None -> find_header_end data = None.
Proof. rewrite find_0. intros H. unfold find_header_end. destruct (zlen data <? 4); [done|]. by rewrite scan_find. Qed.

Definition request_lines (g : Message) : list bytes :=
  map (fun l => l ++ [CR])
    ((verb g ++ [SP] ++ target g ++ [SP] ++ version g) :: map (fun h => fst h ++ [0x3A; SP] ++ snd h) (hdrs g)).

Lemma head_unlines g : head (verb g) (target g) (version g) (hdrs g) = unlines (request_lines g) ++ CRLF.
Proof.
  assert (concat (map header_line (hdrs g)) =
    concat (map (fun c => c ++ [LF]) (map (fun l => l ++ [CR]) (map (fun h => fst h ++ [0x3A; SP] ++ snd h) (hdrs g))))) as E.
  { rewrite !map_map. f_equal. apply map_ext. intros h. unfold header_line, CRLF. by rewrite <- !app_assoc. }
  unfold head, request_line, request_lines, unlines. cbn [map concat]. rewrite E, <- !app_assoc. done.
Qed.

Lemma request_lines_ok g : message_ok g -> lines_ok (request_lines g).
Proof.
  intros [[_ _ Hv Hh _ _] _ _ _ Hl _ _]. apply Forall_map, Forall_cons. split.
  - split; [|by destruct (verb g) as [|? []]]. rewrite elem_of_app in Hl. apply Decidable.not_or in Hl as [H1 H2].
    assert (LF ∉ version g) by (apply (not_elem_of_Forall LF _ Hv); naive_solver).
    rewrite !elem_of_app, !list_elem_of_singleton. naive_solver.
  - apply Forall_map. eapply Forall_impl; [exact Hh|]. intros [k v] [Hk Hv']. cbn [fst snd] in *. split; [|by destruct k as [|? []]].
    assert (LF ∉ k) by (apply (not_elem_of_Forall LF _ Hk); naive_solver).
    assert (LF ∉ v) by (apply (not_elem_of_Forall LF _ Hv'); naive_solver).
    rewrite !elem_of_app, !elem_of_cons, elem_of_nil. naive_solver.
Qed.

(** Before the last byte the parser waits, and asks for nothing. *)
Lemma parse_partial g pre x suf : message_ok g -> wire g = pre ++ x :: suf ->
  exists n p req, parse pre new_parser new_request = (Some n, p, req) /\ state_ p <> SComplete /\
    headers_complete_ p && bool_decide (HttpParser.header req (chars "Expect") = chars "100-continue") = false.
Proof.
  intros Hg E. unfold wire in E. set (h := head (verb g) (target g) (version g) (hdrs g)) in *.
  destruct (decide (zlen h <= zlen pre)) as [Hle|Hlt].
  - assert (exists b, pre = h ++ b) as [b ->].
    { exists (zdrop (zlen h) pre). rewrite <- (ztake_zdrop (zlen h) pre) at 1. f_equal.
      rewrite <- (ztake_app_le _ pre (x :: suf)), <- E by done. by apply ztake_app. }
    destruct (parse_message (verb g) (target g) (route_path g) (query g) (version g) (hdrs g) (zlen (payload g)) b) as (p & Hc & H);
      [apply Hg..|]. apply (f_equal zlen) in E. rewrite !zlen_app, zlen_cons in E. pose proof (zlen_nonneg suf).
    rewrite (proj2 (Z.ltb_lt _ _)) in H by lia. destruct H as [Hs Hp]. eexists _, p, _. split; [exact Hp|]. rewrite Hs, Hc. split; [done|].
    cbn [andb]. apply bool_decide_eq_false. apply Hg.
  - assert (exists y more, h = pre ++ y :: more) as (y & more & Ey).
    { apply app_eq_app in E as (k & [[E1 E2]|[E1 E2]]).
      - destruct k as [|y k]; [|by exists y, k]. rewrite E1, app_nil_r in Hlt. lia.
      - rewrite E1, zlen_app in Hlt. pose proof (zlen_nonneg k). lia. }
    pose proof (mo_size g Hg) as Hm. fold h in Hm. unfold h in Ey, Hm. rewrite head_unlines in Ey, Hm.
    pose proof (blank_line_prefix _ _ _ _ (request_lines_ok g Hg) Ey) as Hf. apply header_end_find in Hf.
    rewrite Ey, zlen_app, zlen_cons in Hm. pose proof (zlen_nonneg more). pose proof (zlen_nonneg pre).
    unfold parse. change (negb (headers_complete_ new_parser) && in_head (state_ new_parser)) with true. cbn iota. rewrite Hf.
    change (header_bytes_ new_parser) with 0. cbn [header_bytes_ set_header_bytes]. rewrite (proj2 (Z.ltb_ge _ _)) by lia.
    eexists _, _, _. split; [reflexivity|]. done.
Qed.

Lemma parse_whole g : message_ok g -> exists p, state_ p = SComplete /\
  parse (wire g) new_parser new_request = (Some (zlen (wire g)), p, request_of g).
Proof.
  intros Hg. destruct (parse_message (verb g) (target g) (route_path g) (query g) (version g) (hdrs g) (zlen (payload g)) (payload g))
    as (p & _ & H); [apply Hg..|]. rewrite (proj2 (Z.ltb_ge _ _)) in H by lia. destruct H as [Hs E]. exists p. split; [done|].
  unfold wire, request_of. by rewrite E, ztake_all, zlen_app.
Qed.

(** ** A session *)

Section session.
Context {A : Type}.
Context (order : gmap bytes bytes -> list (bytes * bytes)) (a : @App A).

(** What of a connection does not depend on its timers. *)
Definition core (w : @conn A) : Z * bool * bytes * bytes * bool * A * list action :=
  (handled (ctx w), sent_100 (ctx w), buf (ctx w), client_ip (ctx w), reading w, app w, log w).

Lemma core_cancel_idle w : core (cancel_idle w) = core w.
Proof. unfold cancel_idle. by destruct (_ =? _). Qed.

Lemma core_arm_idle w : core (arm_idle w) = core w.
Proof. unfold arm_idle. rewrite <- (core_cancel_idle w). done. Qed.

Lemma core_arm_read w : core (arm_read_timeout w) = core w.
Proof. unfold arm_read_timeout. by destruct (negb _). Qed.

Lemma core_cancel_read w : core (cancel_read_timeout w) = core w.
Proof. unfold cancel_read_timeout. by destruct (_ =? _). Qed.

Lemma core_open w w' : core w = core w' -> reading w = reading w' /\ log w = log w'.
Proof. unfold core. by intros [=]. Qed.

(** The timers' part of a read. *)
Lemma core_started w :
  core (if zlen (buf (ctx (cancel_idle w))) =? 0 then arm_read_timeout (cancel_idle w) else cancel_idle w) = core w.
Proof. destruct (zlen _ =? 0); rewrite ?core_arm_read, core_cancel_idle; done. Qed.

(** Whether the connection stays after the [h]-th request. *)
Definition keeps (rq : Request) (h : Z) : bool :=
  negb (bool_decide (HttpParser.header rq (chars "Connection") = chars "close")) && (h <? MAX_REQUESTS).

(** What the connection does for requests sent one after the other: the application's state,
    the calls on the socket in order, and whether the connection is open at the end. *)
Fixpoint session (h : Z) (ip : bytes) (st : A) (rs : list (bytes * Request)) : A * list action * bool :=
  match rs with
  | [] => (st, [], true)
  | (date, rq) :: rs =>
      match answer order a rq ip st with
      | (st, Respond c r cont) =>
          let acts := fst (fst (response_actions order a date (keeps rq (h + 1)) (h + 1) c r)) in
          if cont && keeps rq (h + 1) then
            let '(st, more, opened) := session (h + 1) ip st rs in (st, acts ++ more, opened)
          else (st, acts ++ [Close], false)
      | (st, Start params) =>
          let '(st, more, opened) := session (h + 1) ip st rs in (st, Spawn params :: more, opened)
      end
  end.

Lemma core_dispatch date ka rq w h s b ip st l :
  core w = (h, s, b, ip, true, st, l) ->
  core (dispatch order a date ka rq w) =
  match answer order a rq ip st with
  | (st, Respond c r cont) =>
      (h, s, b, ip, cont && ka, st,
       l ++ fst (fst (response_actions order a date ka h c r)) ++ if cont && ka then [] else [Close])
  | (st, Start params) => (h, s, b, ip, true, st, l ++ [Spawn params])
  end.
Proof.
  unfold core at 1. intros [= <- <- <- <- Hr <- <-]. unfold dispatch. destruct (answer _ _ _ _ _) as [st' [c r cont|params]].
  - unfold send_response. cbn [ctx set_app]. destruct (response_actions _ _ _ _ _ _ _) as [[acts sent] errs]. cbn [fst].
    destruct (cont && ka); [rewrite core_arm_idle|]; unfold core; cbn; rewrite ?app_nil_r, <- ?app_assoc, ?Hr; done.
  - unfold core. cbn. by rewrite Hr.
Qed.

(** A request that is neither refused by the path guard nor handed to a WebSocket route. *)
Definition ordinary (rq : Request) : Prop :=
  path_is_bad (path_ rq) = false /\
  negb (zlen (ws_routes_ a) =? 0) && is_websocket (HttpParser.header rq (chars "Upgrade")) && bool_decide (path_ rq ∈ ws_routes_ a) = false.

Definition deliver (w : @conn A) (ev : bytes * bytes) : @conn A :=
  if reading w then on_read order inplace_views a (fst ev) (Some (snd ev)) w else w.

(** A read that does not complete the request. *)
Lemma deliver_partial g w ev x suf : message_ok g -> reading w = true -> wire g = (buf (ctx w) ++ snd ev) ++ x :: suf ->
  core (deliver w ev) =
  (handled (ctx w), sent_100 (ctx w), buf (ctx w) ++ snd ev, client_ip (ctx w), true, app w, log w).
Proof.
  intros Hg Hr E. unfold deliver, on_read. rewrite Hr.
  destruct (parse_partial g _ x suf Hg E) as (n & p & req & Hp & Hs & Hex).
  set (w1 := if zlen (buf (ctx (cancel_idle w))) =? 0 then arm_read_timeout (cancel_idle w) else cancel_idle w).
  pose proof (core_started w : core w1 = core w) as Hc.
  unfold core in Hc. rewrite Hr in Hc. injection Hc as H1 H2 H3 H4 H5 H6 H7. cbn [ctx set_ctx buf]. rewrite H3, Hp.
  rewrite decide_False by done. cbn [sent_100].
  assert (headers_complete_ p && negb (sent_100 (ctx w1)) && bool_decide (HttpParser.header req (chars "Expect") = chars "100-continue") = false) as ->.
  { destruct (headers_complete_ p), (bool_decide _); try done; by rewrite andb_false_r. }
  rewrite core_arm_idle. unfold core. cbn. by rewrite H1, H2, H4, H5, H6, H7.
Qed.

(** The read that completes it. *)
Lemma deliver_complete g w ev : message_ok g -> ordinary (request_of g) -> reading w = true -> wire g = buf (ctx w) ++ snd ev ->
  let h := handled (ctx w) + 1 in
  core (deliver w ev) =
  match answer order a (request_of g) (client_ip (ctx w)) (app w) with
  | (st, Respond c r cont) =>
      (h, false, [], client_ip (ctx w), cont && keeps (request_of g) h, st,
       log w ++ fst (fst (response_actions order a (fst ev) (keeps (request_of g) h) h c r)) ++
       if cont && keeps (request_of g) h then [] else [Close])
  | (st, Start params) => (h, false, [], client_ip (ctx w), true, st, log w ++ [Spawn params])
  end.
Proof.
  intros Hg [Hpath Hws] Hr E h. unfold deliver, on_read. rewrite Hr.
  destruct (parse_whole g Hg) as (p & Hs & Hp).
  set (w1 := if zlen (buf (ctx (cancel_idle w))) =? 0 then arm_read_timeout (cancel_idle w) else cancel_idle w).
  pose proof (core_started w : core w1 = core w) as Hc.
  unfold core in Hc. rewrite Hr in Hc. injection Hc as H1 H2 H3 H4 H5 H6 H7. cbn [ctx set_ctx buf]. rewrite H3, <- E, Hp.
  rewrite decide_True by done. unfold handle_request. rewrite Hpath, Hws.
  set (w2 := cancel_read_timeout _). set (w3 := set_ctx _ w1) in w2.
  assert (core w2 = (handled (ctx w), sent_100 (ctx w), wire g, client_ip (ctx w), true, app w, log w)) as Hc2.
  { unfold w2. rewrite core_cancel_read. unfold w3, core. cbn. by rewrite H1, H2, H4, H5, H6, H7. }
  injection Hc2 as K1 K2 K3 K4 K5 K6 K7. cbn [ctx set_ctx buf handled sent_100 client_ip idle_timer_id read_timer_id].
  rewrite K3, zdrop_all, (inplace_whole _ p) by done. rewrite K1. fold h.
  apply core_dispatch. unfold core. cbn. by rewrite K4, K5, K6, K7.
Qed.

(** The bytes of one request, cut into reads; the last read completes it. *)
Lemma deliver_request g w evs : message_ok g -> ordinary (request_of g) -> reading w = true -> wire g = buf (ctx w) ++ concat (map snd evs) ->
  Forall (fun ev => snd ev <> []) evs -> forall date, last (map fst evs) = Some date ->
  let h := handled (ctx w) + 1 in
  core (foldl deliver w evs) =
  match answer order a (request_of g) (client_ip (ctx w)) (app w) with
  | (st, Respond c r cont) =>
      (h, false, [], client_ip (ctx w), cont && keeps (request_of g) h, st,
       log w ++ fst (fst (response_actions order a date (keeps (request_of g) h) h c r)) ++
       if cont && keeps (request_of g) h then [] else [Close])
  | (st, Start params) => (h, false, [], client_ip (ctx w), true, st, log w ++ [Spawn params])
  end.
Proof.
  intros Hg Ho. revert w. induction evs as [|ev [|ev' evs] IH]; intros w Hr E Hne date Hd; [done| |].
  - cbn in Hd. injection Hd as <-. apply deliver_complete; try done. cbn in E. by rewrite app_nil_r in E.
  - cbn [foldl]. inversion Hne as [|? ? Hev Hrest]; subst. inversion Hrest as [|? ? Hev' _]; subst.
    assert (exists x suf, concat (map snd (ev' :: evs)) = x :: suf) as (x & suf & Ex).
    { cbn. destruct (snd ev') as [|x l]; [done|]. by exists x, (l ++ concat (map snd evs)). }
    pose proof (deliver_partial g w ev x suf Hg Hr) as Hc. change (concat (map snd (ev :: ev' :: evs))) with (snd ev ++ concat (map snd (ev' :: evs))) in E.
    rewrite app_assoc, Ex in E. specialize (Hc E). unfold core at 1 in Hc. injection Hc as K1 K2 K3 K4 K5 K6 K7.
    specialize (IH (deliver w ev) K5). rewrite K3, Ex in IH. specialize (IH E Hrest date Hd). cbn [foldl] in IH. by rewrite IH, K1, K4, K6, K7.
Qed.

(** A request and the reads it arrives in, each with the date of the moment. *)
Definition turn := (Message * list (bytes * bytes))%type.

Record turn_ok (t : turn) : Prop := {
  to_message : message_ok (fst t);
  to_ordinary : ordinary (request_of (fst t));
  to_reads : concat (map snd (snd t)) = wire (fst t);
  to_nonempty : Forall (fun ev => snd ev <> []) (snd t);
}.

Definition asked (t : turn) : bytes * Request := (default [] (last (map fst (snd t))), request_of (fst t)).

Lemma deliver_closed w evs : reading w = false -> foldl deliver w evs = w.
Proof. intros Hr. induction evs as [|ev evs IH]; [done|]. cbn [foldl]. unfold deliver at 2. by rewrite Hr. Qed.

Lemma wire_nonempty g : message_ok g -> wire g <> [].
Proof. intros Hg. unfold wire. rewrite head_unlines. unfold CRLF. by destruct (unlines _). Qed.

Lemma turn_core t w : turn_ok t -> reading w = true -> buf (ctx w) = [] ->
  let h := handled (ctx w) + 1 in let '(date, rq) := asked t in
  core (foldl deliver w (snd t)) =
  match answer order a rq (client_ip (ctx w)) (app w) with
  | (st, Respond c r cont) =>
      (h, false, [], client_ip (ctx w), cont && keeps rq h, st,
       log w ++ fst (fst (response_actions order a date (keeps rq h) h c r)) ++ if cont && keeps rq h then [] else [Close])
  | (st, Start params) => (h, false, [], client_ip (ctx w), true, st, log w ++ [Spawn params])
  end.
Proof.
  intros [Hg Ho Hc Hn] Hr Hb h. unfold asked. apply deliver_request; try done; [by rewrite Hb, Hc|].
  destruct (last (map fst (snd t))) eqn:El; [done|]. apply last_None in El. apply map_eq_nil in El.
  rewrite El in Hc. by destruct (wire_nonempty _ Hg).
Qed.

(** C6. HTTP/1.1 keep-alive sessions: when well-formed requests arrive one after the other,
    each cut into reads at any places, the server calls the application once per request, in
    order, and writes exactly the answers of [session] (nothing on an incomplete request);
    the connection is closed right after the first answer that ends it (the client asked for
    [Connection: close], a middleware refused, or the hundredth request) and what comes later
    is not read; otherwise it stays open, with an empty buffer and the count of requests.
    The requests are those of [turn_ok]: within the parser's limits, with a body of announced
    length or none, without [Expect: 100-continue], neither refused by the path guard nor for a
    WebSocket route; a request ends the read it is completed in.  The handlers read the request through its
    views after the buffer is erased, and the erase is libstdc++'s, in place ([inplace_views]);
    a standard library that moves the storage then leaves the views dangling. *)
Theorem server_session (w : conn) (ts : list turn) :
  reading w = true -> buf (ctx w) = [] -> Forall turn_ok ts ->
  let '(st, acts, opened) := session (handled (ctx w)) (client_ip (ctx w)) (app w) (map asked ts) in
  let w' := foldl deliver w (concat (map snd ts)) in
  app w' = st /\ log w' = log w ++ acts /\ reading w' = opened /\
  (opened = true -> buf (ctx w') = [] /\ handled (ctx w') = handled (ctx w) + zlen ts).
Proof.
  revert w. induction ts as [|t ts IH]; intros w Hr Hb Hts.
  - cbn. rewrite app_nil_r, zlen_nil, Z.add_0_r. done.
  - inversion Hts as [|? ? Ht Hrest]; subst. pose proof (turn_core t w Ht Hr Hb) as Hc.
    cbn [map concat session]. rewrite foldl_app. destruct (asked t) as [date rq]. cbn zeta in Hc.
    set (w1 := foldl deliver w (snd t)) in *. rewrite zlen_cons.
    destruct (answer _ _ _ _ _) as [st [c r cont|params]].
    + destruct (cont && keeps rq (handled (ctx w) + 1)); injection Hc as K1 K2 K3 K4 K5 K6 K7.
      * rewrite app_nil_r in K7. specialize (IH w1 K5 K3 Hrest). rewrite K1, K4, K6 in IH.
        destruct (session _ _ _ _) as [[st' more] opened]. rewrite K7, <- app_assoc in IH.
        destruct IH as (? & ? & ? & Ho). repeat (split; [done|]). intros [? ->]%Ho. split; [done|lia].
      * rewrite deliver_closed by done. rewrite K7, <- ?app_assoc. done.
    + injection Hc as K1 K2 K3 K4 K5 K6 K7. specialize (IH w1 K5 K3 Hrest). rewrite K1, K4, K6 in IH.
      destruct (session _ _ _ _) as [[st' more] opened]. rewrite K7, <- app_assoc in IH.
      destruct IH as (? & ? & ? & Ho). repeat (split; [done|]). intros [? ->]%Ho. split; [done|lia].
Qed.
End session.

(** ** The timers *)

Section timers.
Context {A : Type}.
Context (order : gmap bytes bytes -> list (bytes * bytes)) (views : bytes -> Z -> Request -> Request) (a : @App A).

Inductive event := Readable (date : bytes) (data : option bytes) | Fires (id : Z).

Definition on_event (w : @conn A) (ev : event) : conn :=
  match ev with
  | Readable date data => if reading w then on_read order views a date data w else w
  | Fires id => on_timer order id w
  end.

(** The registered timers are the two the context names, and no other. *)
Record timers_ok (w : @conn A) : Prop := {
  tk_next : 0 <= next_timer_id_ w;
  tk_fresh : forall id k, timers_by_id_ w !! id = Some k -> 0 <= id < next_timer_id_ w;
  tk_idle : forall id, timers_by_id_ w !! id = Some IdleTimer <-> id = idle_timer_id (ctx w) /\ id <> -1;
  tk_read : forall id, timers_by_id_ w !! id = Some ReadTimer <-> id = read_timer_id (ctx w) /\ id <> -1;
}.

(** The timers of a connection and what names them. *)
Definition clock (w : @conn A) : gmap Z timer * Z * Z * Z :=
  (timers_by_id_ w, next_timer_id_ w, idle_timer_id (ctx w), read_timer_id (ctx w)).

Lemma timers_ok_clock w w' : clock w = clock w' -> timers_ok w -> timers_ok w'.
Proof. unfold clock. intros [= E1 E2 E3 E4] []. constructor; rewrite <- ?E1, <- ?E2, <- ?E3, <- ?E4; done. Qed.

Lemma cancel_idle_ok w : timers_ok w -> timers_ok (cancel_idle w) /\ idle_timer_id (ctx (cancel_idle w)) = -1.
Proof.
  intros H. unfold cancel_idle. destruct (Z.eqb_spec (idle_timer_id (ctx w)) (-1)) as [E|E]; [done|]. split; [|done].
  destruct H as [Hn Hf Hi Hr]. constructor; cbn; [done|..].
  - intros id k [_ H]%lookup_delete_Some. by eapply Hf.
  - intros id. rewrite lookup_delete_Some, Hi. split; [intros (? & ? & ?)|intros [? ?]]; congruence.
  - intros id. rewrite lookup_delete_Some, Hr. split; [by intros [_ ?]|]. intros Hid. split; [|done]. intros <-.
    pose proof (proj2 (Hr _) Hid) as H1. rewrite (proj2 (Hi _)) in H1 by done. done.
Qed.

Lemma cancel_read_ok w : timers_ok w -> timers_ok (cancel_read_timeout w) /\ read_timer_id (ctx (cancel_read_timeout w)) = -1.
Proof.
  intros H. unfold cancel_read_timeout. destruct (Z.eqb_spec (read_timer_id (ctx w)) (-1)) as [E|E]; [done|]. split; [|done].
  destruct H as [Hn Hf Hi Hr]. constructor; cbn; [done|..].
  - intros id k [_ H]%lookup_delete_Some. by eapply Hf.
  - intros id. rewrite lookup_delete_Some, Hi. split; [by intros [_ ?]|]. intros Hid. split; [|done]. intros <-.
    pose proof (proj2 (Hi _) Hid) as H1. rewrite (proj2 (Hr _)) in H1 by done. done.
  - intros id. rewrite lookup_delete_Some, Hr. split; [intros (? & ? & ?)|intros [? ?]]; congruence.
Qed.

(** A new timer of one kind when none of that kind is there. *)
Lemma arm_ok w w' k : timers_ok w ->
  clock w' = (<[next_timer_id_ w := k]> (timers_by_id_ w), next_timer_id_ w + 1,
              match k with IdleTimer => next_timer_id_ w | ReadTimer => idle_timer_id (ctx w) end,
              match k with IdleTimer => read_timer_id (ctx w) | ReadTimer => next_timer_id_ w end) ->
  match k with IdleTimer => idle_timer_id (ctx w) | ReadTimer => read_timer_id (ctx w) end = -1 ->
  timers_ok w'.
Proof.
  unfold clock. intros [Hn Hf Hi Hr] [= E1 E2 E3 E4] Hk.
  assert (timers_by_id_ w !! next_timer_id_ w = None) as Hnew.
  { destruct (timers_by_id_ w !! next_timer_id_ w) eqn:E; [|done]. apply Hf in E. lia. }
  constructor; rewrite ?E1, ?E2, ?E3, ?E4; [lia|..].
  - intros id k' [[<- _]|[_ H]]%lookup_insert_Some; [lia|]. apply Hf in H. lia.
  - intros id. rewrite lookup_insert_Some. destruct k; rewrite Hi.
    + split; [intros [[? _]|[? [? ?]]]; [lia|congruence]|]. intros [-> _]. by left.
    + split; [intros [[? ?]|[_ ?]]; done|]. intros Hid. right. split; [|done]. intros <-. rewrite (proj2 (Hi _) Hid) in Hnew. done.
  - intros id. rewrite lookup_insert_Some. destruct k; rewrite Hr.
    + split; [intros [[? ?]|[_ ?]]; done|]. intros Hid. right. split; [|done]. intros <-. rewrite (proj2 (Hr _) Hid) in Hnew. done.
    + split; [intros [[? _]|[? [? ?]]]; [lia|congruence]|]. intros [-> _]. by left.
Qed.

Lemma arm_idle_ok w : timers_ok w -> timers_ok (arm_idle w) /\ idle_timer_id (ctx (arm_idle w)) <> -1.
Proof.
  intros H. destruct (cancel_idle_ok w H) as [Hc Hi]. split; [by eapply (arm_ok (cancel_idle w) _ IdleTimer)|].
  pose proof (tk_next _ Hc). unfold arm_idle. cbn. lia.
Qed.

Lemma arm_read_ok w : timers_ok w -> timers_ok (arm_read_timeout w).
Proof.
  intros H. unfold arm_read_timeout. destruct (Z.eqb_spec (read_timer_id (ctx w)) (-1)); [|done].
  by eapply (arm_ok w _ ReadTimer).
Qed.

Lemma no_timers w : timers_ok w -> idle_timer_id (ctx w) = -1 -> read_timer_id (ctx w) = -1 -> timers_by_id_ w = ∅.
Proof.
  intros [_ _ Hi Hr] Ei Er. apply map_empty. intros id. destruct (timers_by_id_ w !! id) as [[]|] eqn:E; [..|done].
  - apply Hi in E as [-> ?]. congruence.
  - apply Hr in E as [-> ?]. congruence.
Qed.

Lemma response_no_close date ka n c r : Close ∉ fst (fst (response_actions order a date ka n c r)).
Proof.
  assert (forall sc, Close ∉ access_log (logger_ a) c sc) as Hl.
  { intros sc. unfold access_log. destruct (logger_ a) as [[]|]; rewrite ?list_elem_of_singleton; [done..|apply not_elem_of_nil]. }
  unfold response_actions. destruct (streamed_ r); [apply not_elem_of_nil|].
  destruct (_ && _ && _); [cbn [fst]; by rewrite list_elem_of_singleton|]. cbn zeta.
  destruct (has_sendfile _), (Response.chunked_ _ && has_trailers _); cbn [fst]; intros [H|H]%elem_of_app; try by eapply Hl.
  all: rewrite ?elem_of_app, ?elem_of_cons, ?elem_of_nil in H; intuition discriminate.
Qed.

(** The state a read leaves: while the connection is open the socket has not been closed and
    the idle timer is armed, unless a coroutine was started; otherwise no timer is left, and
    the last call closed the socket or gave it away. *)
Definition settled (w : @conn A) : Prop :=
  timers_ok w /\
  if reading w then (Close ∉ log w) /\ ((forall ps, Spawn ps ∉ log w) -> idle_timer_id (ctx w) <> -1)
  else idle_timer_id (ctx w) = -1 /\ read_timer_id (ctx w) = -1 /\
       exists l x, log w = l ++ [x] /\ (Close ∉ l) /\ (x = Close \/ exists path, x = WsServe path).

Lemma settled_close w : timers_ok w -> idle_timer_id (ctx w) = -1 -> read_timer_id (ctx w) = -1 -> Close ∉ log w ->
  settled (close_conn w).
Proof.
  intros H Hi Hr Hl. split; [by apply (timers_ok_clock w)|]. cbn. split_and!; [done..|]. exists (log w), Close. auto.
Qed.

Lemma settled_write b w : timers_ok w -> idle_timer_id (ctx w) = -1 -> read_timer_id (ctx w) = -1 -> Close ∉ log w ->
  settled (close_conn (emit [Write b] w)).
Proof.
  intros H Hi Hr Hl. apply settled_close; [by apply (timers_ok_clock w)|done..|]. cbn. rewrite elem_of_app, list_elem_of_singleton. intros []; done.
Qed.

Lemma settled_arm w : timers_ok w -> reading w = true -> Close ∉ log w -> settled (arm_idle w).
Proof.
  intros H Hr Hl. destruct (arm_idle_ok w H) as [H1 H2]. split; [done|].
  destruct (core_open _ _ (core_arm_idle w)) as [-> ->]. by rewrite Hr.
Qed.

Lemma settled_dispatch date ka rq w : timers_ok w -> idle_timer_id (ctx w) = -1 -> read_timer_id (ctx w) = -1 ->
  reading w = true -> Close ∉ log w -> settled (dispatch order a date ka rq w).
Proof.
  intros H Hi Hr Ho Hl. unfold dispatch. destruct (answer _ _ _ _ _) as [st [c r cont|params]].
  - unfold send_response. pose proof (response_no_close date ka (handled (ctx (set_app st w))) c r) as Hn.
    destruct (response_actions _ _ _ _ _ _ _) as [[acts sent] errs]. cbn [fst] in Hn.
    destruct (cont && ka); [apply settled_arm|apply settled_close]; try done; try (by apply (timers_ok_clock w));
      cbn; rewrite elem_of_app; intros []; done.
  - split; [by apply (timers_ok_clock w)|]. cbn. rewrite Ho. split.
    + rewrite elem_of_app, list_elem_of_singleton. intros []; done.
    + intros Hs. destruct (Hs params). rewrite elem_of_app, list_elem_of_singleton. by right.
Qed.

Lemma cancel_read_idle (w : @conn A) : idle_timer_id (ctx (cancel_read_timeout w)) = idle_timer_id (ctx w).
Proof. unfold cancel_read_timeout. by destruct (_ =? _). Qed.

Lemma arm_read_idle (w : @conn A) : idle_timer_id (ctx (arm_read_timeout w)) = idle_timer_id (ctx w).
Proof. unfold arm_read_timeout. by destruct (negb _). Qed.

Lemma settled_request date n req w : timers_ok w -> idle_timer_id (ctx w) = -1 ->
  reading w = true -> Close ∉ log w -> settled (handle_request order views a date n req w).
Proof.
  intros H Hi Ho Hl. destruct (cancel_read_ok w H) as [H1 Hr]. pose proof (cancel_read_idle w) as Hi1. rewrite Hi in Hi1.
  destruct (core_open _ _ (core_cancel_read w)) as [Ho1 Hl1]. rewrite <- Hl1 in Hl. rewrite Ho in Ho1.
  unfold handle_request. set (w1 := cancel_read_timeout w) in *. clearbody w1. cbn zeta.
  match goal with |- context [close_conn (emit _ ?x)] => set (w2 := x) end.
  assert (timers_ok w2) as H2 by by apply (timers_ok_clock w1).
  destruct (path_is_bad _); [by apply settled_write|]. destruct (_ && _ && _).
  - destruct (cancel_read_ok w2 H2) as [H3 Hr3]. pose proof (cancel_read_idle w2) as Hi3.
    destruct (core_open _ _ (core_cancel_read w2)) as [_ Hl3]. set (w3 := cancel_read_timeout w2) in *. clearbody w3.
    destruct (cancel_idle_ok w3 H3) as [H4 Hi4]. destruct (core_open _ _ (core_cancel_idle w3)) as [_ Hl4].
    assert (read_timer_id (ctx (cancel_idle w3)) = read_timer_id (ctx w3)) as Hr4 by (unfold cancel_idle; by destruct (_ =? _)).
    split; [by apply (timers_ok_clock (cancel_idle w3))|]. cbn. split_and!; [done|congruence|].
    exists (log (cancel_idle w3)), (WsServe (path_ req)). split_and!; [done| |by eauto]. by rewrite Hl4, Hl3.
  - apply settled_dispatch; try done. by apply (timers_ok_clock w2).
Qed.

Lemma settled_read date data w : timers_ok w -> reading w = true -> Close ∉ log w -> settled (on_read order views a date data w).
Proof.
  intros H Ho Hl. destruct (cancel_idle_ok w H) as [H1 Hi]. destruct (core_open _ _ (core_cancel_idle w)) as [Ho1 Hl1].
  rewrite <- Hl1 in Hl. rewrite Ho in Ho1. unfold on_read. cbn zeta. set (w1 := cancel_idle w) in *. clearbody w1. destruct data as [tmp|].
  2: { destruct (cancel_read_ok w1 H1) as [H2 Hr]. apply settled_close; try done; [by rewrite cancel_read_idle|].
       by destruct (core_open _ _ (core_cancel_read w1)) as [_ ->]. }
  set (w2 := if zlen (buf (ctx w1)) =? 0 then arm_read_timeout w1 else w1).
  assert (timers_ok w2 /\ idle_timer_id (ctx w2) = -1 /\ reading w2 = true /\ Close ∉ log w2) as (H2 & Hi2 & Ho2 & Hl2).
  { unfold w2. destruct (_ =? 0); [|done]. destruct (core_open _ _ (core_arm_read w1)) as [-> ->].
    split_and!; [by apply arm_read_ok|by rewrite arm_read_idle|done..]. }
  clearbody w2. match goal with |- context [set_ctx ?c w2] => set (w3 := set_ctx c w2) end.
  assert (timers_ok w3) as H3 by by apply (timers_ok_clock w2). assert (Close ∉ log w3) as Hl3 by done.
  assert (idle_timer_id (ctx w3) = -1) as Hi3 by done. assert (reading w3 = true) as Ho3 by done. clearbody w3.
  destruct (parse _ _ _) as [[[n|] p] req].
  - destruct (decide _); [by apply settled_request|]. destruct (_ && _ && _); [|by apply settled_arm].
    apply settled_arm; [by apply (timers_ok_clock w3)|done|]. cbn. rewrite elem_of_app, list_elem_of_singleton. intros []; done.
  - destruct (cancel_read_ok w3 H3) as [H4 Hr4]. apply settled_write; try done; [by rewrite cancel_read_idle|].
    by destruct (core_open _ _ (core_cancel_read w3)) as [_ ->].
Qed.

(** What holds at any time: a timer that fired has closed the socket too. *)
Definition sound (w : @conn A) : Prop := timers_ok w /\ (reading w = true -> settled w).

Lemma fired_ok id w : timers_ok w -> timers_ok (on_timer order id w) /\ (is_Some (timers_by_id_ w !! id) -> reading (on_timer order id w) = false).
Proof.
  intros [Hn Hf Hi Hr]. unfold on_timer. destruct (timers_by_id_ w !! id) as [k|] eqn:E.
  2: { split; [done|]. by intros []. }
  assert (forall id' k', delete id (timers_by_id_ w) !! id' = Some k' -> 0 <= id' < next_timer_id_ w) as Hd.
  { intros id' k' [_ H]%lookup_delete_Some. by eapply Hf. }
  split; [|by destruct k]. destruct k; (constructor; [done|exact Hd|..]); cbn; intros id'; rewrite lookup_delete_Some, ?Hi, ?Hr.
  - apply Hi in E as [-> ?]. split; [intros (? & ? & ?)|intros [? ?]]; congruence.
  - split; [by intros [_ ?]|]. intros Hid. split; [|done]. intros <-. apply Hr in Hid. congruence.
  - split; [by intros [_ ?]|]. intros Hid. split; [|done]. intros <-. apply Hi in Hid. congruence.
  - apply Hr in E as [-> ?]. split; [intros (? & ? & ?)|intros [? ?]]; congruence.
Qed.

Lemma sound_event ev w : sound w -> sound (on_event w ev).
Proof.
  intros [H Hs]. destruct ev as [date data|id]; cbn.
  - destruct (reading w) eqn:Ho; [|by split; rewrite ?Ho]. destruct (Hs eq_refl) as [_ Hl]. rewrite Ho in Hl. destruct Hl as [Hl _].
    pose proof (settled_read date data w H Ho Hl) as Hr. by split; [apply Hr|].
  - destruct (fired_ok id w H) as [H1 H2]. split; [done|]. intros Hr. unfold on_timer in *.
    destruct (timers_by_id_ w !! id) eqn:E; [by rewrite H2 in Hr|]. by apply Hs.
Qed.

Lemma fresh_ok w : 0 <= next_timer_id_ w -> clock w = (∅, next_timer_id_ w, -1, -1) -> timers_ok w.
Proof.
  unfold clock. intros Hn [= E1 E2 E3]. constructor; rewrite ?E1, ?E2, ?E3; [done|by intros id k ?%lookup_empty_Some|..];
    intros id; rewrite lookup_empty; split; [done|lia|done|lia].
Qed.

Lemma sound_accept mx active ip next st rq er se w : 0 <= next ->
  on_accept false mx active ip next st rq er se = Some w -> sound w.
Proof.
  intros Hn. unfold on_accept. set (w0 := mkConn _ _ _ _ _ _ _ _ _). cbn zeta.
  assert (timers_ok w0) as H0 by (apply fresh_ok; [exact Hn|reflexivity]).
  destruct (arm_idle_ok w0 H0) as [H1 H2]. destruct (core_open _ _ (core_arm_idle w0)) as [_ Hl].
  destruct ((0 <? mx) && (mx <=? active)); intros <-%(inj Some).
  - split; [by apply (timers_ok_clock w0)|intros Hr; discriminate Hr].
  - set (w1 := mkConn _ _ _ _ _ _ _ _ _). assert (timers_ok w1) as H3 by by apply (timers_ok_clock (arm_idle w0)).
    split; [done|]. intros _. split; [done|]. change (reading w1) with true. cbn iota. split; [|done].
    change (log w1) with (log (arm_idle w0)). rewrite Hl. apply not_elem_of_nil.
Qed.

(** C29. The timers of a connection, whatever arrives on it and whenever its timers fire: the
    registered timers are exactly the two its context names; an open connection has not been
    closed before and, unless a coroutine answers it, has its idle timer armed, whose firing
    closes it (so a silent client cannot keep it for ever); and a read that ends the
    connection leaves no timer behind, having closed the socket exactly once or given it to
    the WebSocket server. *)
Theorem connection_timers mx active ip next st rq er se w0 evs date data id :
  0 <= next -> on_accept false mx active ip next st rq er se = Some w0 ->
  let w := foldl on_event w0 evs in
  timers_ok w /\
  (is_Some (timers_by_id_ w !! id) -> reading (on_event w (Fires id)) = false) /\
  (reading w = true ->
   (Close ∉ log w) /\
   ((forall ps, Spawn ps ∉ log w) -> timers_by_id_ w !! idle_timer_id (ctx w) = Some IdleTimer) /\
   let w' := on_event w (Readable date data) in
   reading w' = false ->
   timers_by_id_ w' = ∅ /\ exists l x, log w' = l ++ [x] /\ (Close ∉ l) /\ (x = Close \/ exists path, x = WsServe path)).
Proof.
  intros Hn Hw w. assert (sound w) as Hs.
  { unfold w. clear w. apply sound_accept in Hw; [|done]. revert w0 Hw.
    induction evs as [|ev evs IH]; intros w0 Hw; [done|]. cbn [foldl]. by apply IH, sound_event. }
  clearbody w. destruct Hs as [H Hs]. split; [done|]. split; [by apply fired_ok|]. intros Ho.
  destruct (Hs Ho) as [_ Hl]. rewrite Ho in Hl. destruct Hl as [Hl Hi]. split; [done|]. split.
  - intros Hps. apply (tk_idle w H). by split; [|apply Hi].
  - cbn. rewrite Ho. intros Hc. destruct (settled_read date data w H Ho Hl) as [H1 H2]. rewrite Hc in H2.
    destruct H2 as (E1 & E2 & H2). split; [by apply no_timers|done].
Qed.
End timers.

(** ** A small application: it counts the requests for [/count] *)

Definition counting (f : Z -> Response -> Response) : @HandlerVariant Z :=
  Handler (fun n _ r => (n + 1, Some (f (n + 1) r))).

Definition sample_app : @App Z :=
  mkApp (add_route (add_route new_router Get (chars "/count") (Some (counting (fun n => body (to_string n)))))
           Get (chars "/file") (Some (counting (fun _ => sendfile_path (chars "/srv/a.bin") 1000))))
    [] None [] None.

Definition sample_conn : @conn Z :=
  default (mkConn (mkCtx 0 0 0 false [] []) 0 ∅ false 0 0 0 0 []) (on_accept false 0 0 (chars "::1") 0 0 0 0 0).

Definition sample_get (path : string) (hs : list (bytes * bytes)) : Message :=
  mkMessage (chars "GET") (chars path) (chars path) [] (chars "HTTP/1.1") hs [].

(** Sent in reads of [n] bytes. *)
Definition sample_turn (n : Z) (g : Message) : turn :=
  (g, filter (fun ev => snd ev <> [])
    [(chars "d", ztake n (wire g)); (chars "d", ztake n (zdrop n (wire g))); (chars "d", zdrop (2 * n) (wire g))]).

Definition sample_turns : list turn :=
  [sample_turn 5 (sample_get "/count" [(chars "Host", chars "h")]);
   sample_turn 30 (sample_get "/count" [(chars "Host", chars "h"); (chars "Connection", chars "close")]);
   sample_turn 7 (sample_get "/count" [])].

#[local] Instance header_ok_dec h : Decision (header_ok h).
Proof. unfold header_ok. apply _. Defined.

Lemma sample_message_ok path hs : 
  let g := sample_get path hs in
  forallb (fun c => negb (c =? SP) && negb (c =? 0x3F) && negb (c =? LF)) (chars path) = true ->
  bool_decide (Forall header_ok hs /\ zlen hs <= kMaxInlineHeaders /\ headers_cost hs + 1 <= MAX_HEADER_SIZE /\
    lookup_header hs (chars "Transfer-Encoding") = [] /\ lookup_header hs (chars "Content-Length") = [] /\
    zlen (head (verb g) (target g) (version g) hs) <= MAX_HEADER_SIZE /\
    lookup_header hs (chars "Expect") <> chars "100-continue") = true ->
  message_ok g.
Proof.
  intros g Hp Hb. apply bool_decide_eq_true in Hb as (Hh & Hn & Hc & Ht & Hl & Hm & He).
  rewrite forallb_forall in Hp.
  assert (forall c, c ∈ chars path -> c <> SP /\ c <> 0x3F /\ c <> LF) as Hq.
  { intros c Hin. apply list_elem_of_In in Hin. apply Hp in Hin. lia. }
  constructor; try done; [constructor; try done|..].
  - apply (bool_decide_unpack _). vm_compute. exact I.
  - apply Forall_forall. intros c ?. by apply Hq.
  - apply (bool_decide_unpack _). vm_compute. exact I.
  - apply Forall_forall. intros c ?. by apply Hq.
  - by left.
  - split; [done|]. by left.
  - cbn [verb target g]. rewrite elem_of_app. intros [H|H]; [|by apply Hq in H as (_ & _ & ?)].
    revert H. apply (bool_decide_unpack _). vm_compute. exact I.
Qed.

Lemma sample_turns_ok : Forall (turn_ok sample_app) sample_turns.
Proof.
  repeat (apply Forall_cons; split); [..|apply Forall_nil; done].
  all: constructor; [apply sample_message_ok; vm_compute; reflexivity|split; vm_compute; reflexivity|vm_compute; reflexivity|].
  all: apply (bool_decide_unpack _); vm_compute; exact I.
Qed.

Lemma server_session_witness :
  let w := foldl (deliver map_to_list sample_app) sample_conn (concat (map snd sample_turns)) in
  app w = 2 /\ reading w = false.
Proof.
  intros w. pose proof (server_session map_to_list sample_app sample_conn sample_turns eq_refl eq_refl sample_turns_ok) as H.
  destruct (session _ _ _ _ _ _) as [[st acts] opened] eqn:E. vm_compute in E. injection E as <- _ <-.
  destruct H as (Ha & _ & Hr & _). by split.
Defined.

Lemma connection_timers_witness :
  let w := foldl (on_event map_to_list inplace_views sample_app) sample_conn [Readable [] (Some (chars "GET"))] in
  reading w = true /\ timers_by_id_ w !! 2 = Some IdleTimer /\
  reading (on_event map_to_list inplace_views sample_app w (Fires 2)) = false.
Proof.
  intros w.
  destruct (connection_timers map_to_list inplace_views sample_app 0 0 (chars "::1") 0 0 0 0 0 sample_conn
              [Readable [] (Some (chars "GET"))] [] None 2 ltac:(lia) eq_refl) as (_ & Hf & Ho).
  assert (reading w = true) as Hr by (vm_compute; reflexivity).
  assert (log w = []) as Hl by (vm_compute; reflexivity). fold w in Hf, Ho. destruct (Ho Hr) as (_ & Hi & _). split; [done|].
  assert (timers_by_id_ w !! 2 = Some IdleTimer) as H2.
  { change 2 with (idle_timer_id (ctx w)). apply Hi. intros ps. rewrite Hl. apply not_elem_of_nil. }
  split; [done|]. apply Hf. by rewrite H2.
Defined.

(** ** Where the server departs from what it means to do *)

Definition is_close (x : action) : bool := match x with Close => true | _ => false end.

(** What is written begins with, or contains. *)
Definition says (what : bytes) (x : action) : bool :=
  match x with Write b => match find b what 0 with Some _ => true | None => false end | _ => false end.

Definition sample_session (app : @App Z) (evs : list event) : @conn Z := foldl (on_event map_to_list inplace_views app) sample_conn evs.

(** The read timeout closes the socket and leaves the idle timer armed, which closes the
    same descriptor again, by then perhaps another connection's. *)
Theorem timeout_closes_twice :
  map is_close (log (sample_session sample_app [Readable [] (Some (chars "GET /count")); Fires 1; Fires 2])) = [false; true; true].
Proof. vm_compute. reflexivity. Qed.

(** Of two requests in one read the second stays in the buffer until more bytes come, and
    the read timeout does not run for it. *)
Theorem pipelined_waits :
  let g := sample_get "/count" [] in
  let w := sample_session sample_app [Readable [] (Some (wire g ++ wire g))] in
  buf (ctx w) = wire g /\ app w = 1 /\ zlen (log w) = 1 /\ read_timer_id (ctx w) = -1.
Proof. vm_compute. split_and!; reflexivity. Qed.

(** A request followed by another in the same read: the erase moves the second under the
    views of the first, whose handler is not found. *)
Theorem pipelined_misread :
  let w := sample_session sample_app [Readable [] (Some (wire (sample_get "/count" []) ++ wire (sample_get "/file" [])))] in
  map (says (chars "404 Not Found")) (log w) = [true] /\ app w = 0.
Proof. vm_compute. split; reflexivity. Qed.

(** A middleware that refuses: the response promises to keep the connection, which is closed. *)
Theorem refusal_promises_keep_alive :
  let app := mkApp (router_ sample_app) [fun n _ r => (n, status 401 r, false)] None [] None in
  let w := sample_session app [Readable [] (Some (wire (sample_get "/count" [])))] in
  map (says (chars "Connection: keep-alive")) (log w) = [true; false] /\ map is_close (log w) = [false; true].
Proof. vm_compute. split; reflexivity. Qed.

(** The refusal of a connection over the limit announces more than it sends. *)
Theorem overload_is_short :
  match find kOverload CRLFCRLF 0 with
  | Some e => says (chars "Content-Length: 37") (Write kOverload) = true /\ zlen (ztake (zlen kOverload - 4) kOverload) - (e + 4) = 32
  | None => False
  end.
Proof. vm_compute. split; reflexivity. Qed.

(** A range of a file: the status says the range cannot be satisfied, and the whole file
    follows; and a HEAD request that falls back to GET gets the file too. *)
Theorem files_ignore_range_and_head :
  let sent g := log (sample_session sample_app [Readable [] (Some (wire g))]) in
  let ranged := sent (sample_get "/file" [(chars "Range", chars "bytes=0-99")]) in
  let head := sent (mkMessage (chars "HEAD") (chars "/file") (chars "/file") [] (chars "HTTP/1.1") [] []) in
  map (says (chars "HTTP/1.1 416")) ranged = [true; false] /\ last ranged = Some (SendFile (chars "/srv/a.bin") 1000) /\
  last head = Some (SendFile (chars "/srv/a.bin") 1000).
Proof. vm_compute. split_and!; reflexivity. Qed.

(** A suffix range, the last three bytes of a hundred, is read as the first four. *)
Theorem suffix_range_from_start : parse_range (chars "bytes=-3") 100 = Some (Some (0, 3)).
Proof. vm_compute. reflexivity. Qed.
