(* ===== verification/HttpFetch.v ===== *)
(** * The client and the server together

    [FetchClient::send_one] of [http/fetch.hpp] against [App::listen]: what the client
    serialises is a request the server reads back, the application sees the method, path,
    query, headers and body the client was given, and the client returns the application's
    status and body. *)

From stdpp Require Import gmap.
From S2P Require Import Prelude Text HttpParser HttpMessage Router Response Fetch HttpClient Server ServerSession.
#[local] Open Scope Z_scope.

Lemma lookup_other k v hs key : k <> key -> lookup_header ((k, v) :: hs) key = lookup_header hs key.
Proof. intros Hk. unfold lookup_header at 1. by rewrite decide_False. Qed.

Section request.
Context (order : gmap bytes bytes -> list (bytes * bytes)).
Context (m : Method) (u : ParsedUrl) (headers : gmap bytes bytes) (body : bytes).

(** The request line's target, and its path and query. *)
Definition client_target : bytes := if zlen (path u) =? 0 then chars "/" else path u.

Definition target_path : bytes := match find client_target [0x3F] 0 with Some q => ztake q client_target | None => client_target end.

Definition target_query : bytes := match find client_target [0x3F] 0 with Some q => zdrop (q + 1) client_target | None => [] end.

Definition client_headers : list (bytes * bytes) :=
  (chars "Host", host_value u) :: order headers ++
  (if zlen body =? 0 then [] else [(chars "Content-Length", to_string (zlen body))]) ++
  [(chars "Connection", chars "close")].

Definition client_message : Message :=
  mkMessage (method_name m) client_target target_path target_query (chars "HTTP/1.1") client_headers body.

Lemma client_wire : serialize_request order m u headers body false = wire client_message.
Proof.
  unfold serialize_request, wire, head, client_message, request_line. cbn [verb target version hdrs payload].
  unfold client_headers. rewrite map_cons, map_app, map_app. cbn [concat]. rewrite !concat_app. fold client_target.
  change (map header_line [(chars "Connection", chars "close")]) with [chars "Connection: close" ++ CRLF]. cbn [concat].
  destruct (zlen body =? 0); cbn [map concat]; unfold header_line at 1; cbn [fst snd]; rewrite ?app_nil_r, <- !app_assoc; [done|].
  unfold header_line at 2. cbn [fst snd]. rewrite <- !app_assoc. done.
Qed.

(** Headers the client must leave alone for its request to be an ordinary one. *)
Definition reserved : list bytes :=
  [chars "Transfer-Encoding"; chars "Content-Length"; chars "Connection"; chars "Expect"; chars "Upgrade"; chars "Range";
   chars "If-None-Match"].

Record client_ok : Prop := {
  co_target : Forall (fun c => c <> SP /\ c <> LF) (path u);
  co_host : Forall (fun c => c <> CR /\ c <> LF) (host u);
  co_fields : Forall (fun h => header_ok h /\ fst h ∉ reserved) (order headers);
  co_count : zlen (order headers) + 3 <= kMaxInlineHeaders;
  co_size : headers_cost client_headers + 1 <= MAX_HEADER_SIZE /\
            zlen (head (method_name m) client_target (chars "HTTP/1.1") client_headers) <= MAX_HEADER_SIZE;
  co_body : zlen body <= MAX_BODY_SIZE;
}.
Context (Hok : client_ok).

Lemma lookup_reserved k rest : k ∈ reserved -> lookup_header ((chars "Host", host_value u) :: order headers ++ rest) k = lookup_header rest k.
Proof.
  intros Hk. rewrite lookup_other.
  2: { intros <-. revert Hk. apply (bool_decide_unpack _). vm_compute. exact I. }
  pose proof (co_fields Hok) as Hf. induction (order headers) as [|[k' v] l IH]; [done|]. inversion Hf as [|? ? [_ Hk'] Hl]; subst.
  rewrite <- app_comm_cons, lookup_other; [by apply IH|]. cbn [fst] in Hk'. congruence.
Qed.

Lemma target_ok : Forall (fun c => c <> SP /\ c <> LF) client_target.
Proof.
  unfold client_target. destruct (zlen (path u) =? 0); [|apply Hok]. apply (bool_decide_unpack _). vm_compute. exact I.
Qed.

Lemma target_split :
  Forall (fun c => c <> 0x3F) target_path /\
  (client_target = target_path /\ target_query = [] \/ client_target = target_path ++ [0x3F] ++ target_query).
Proof.
  unfold target_path, target_query. rewrite find_0. pose proof (find_at_spec [0x3F] client_target 0) as H.
  destruct (find_at [0x3F] client_target 0) as [k|].
  - destruct H as (x & y & E & -> & Hmin). rewrite Z.add_0_l, E. rewrite ztake_app by done. split.
    + apply Forall_forall. intros c Hc ->. apply list_elem_of_split in Hc as (x1 & x2 & Ex).
      specialize (Hmin x1 (x2 ++ [0x3F] ++ y)). rewrite E, Ex, <- !app_assoc in Hmin. specialize (Hmin eq_refl).
      rewrite zlen_app, zlen_cons in Hmin. pose proof (zlen_nonneg x2). lia.
    + right. do 2 f_equal. rewrite app_assoc, zdrop_app; [done|]. rewrite zlen_app. done.
  - split; [|by left]. apply Forall_forall. intros c Hc ->. apply list_elem_of_split in Hc as (x1 & x2 & Ex). by apply (H x1 x2).
Qed.

Lemma client_fields_ok : Forall header_ok client_headers.
Proof.
  apply Forall_cons. split.
  - split; [apply (bool_decide_unpack _); vm_compute; exact I|]. cbn [snd]. unfold host_value. apply Forall_app. split; [apply Hok|].
    destruct (_ || _); [|apply Forall_nil; done]. apply Forall_app. split; [apply (bool_decide_unpack _); vm_compute; exact I|].
    apply (digits_field _ (to_string_digits _)).
  - apply Forall_app. split; [eapply Forall_impl; [apply Hok|]; by intros h []|]. apply Forall_app. split.
    + destruct (zlen body =? 0); [apply Forall_nil; done|]. apply Forall_singleton. split; [apply (bool_decide_unpack _); vm_compute; exact I|].
      apply (digits_field _ (to_string_digits _)).
    + apply Forall_singleton. split; apply (bool_decide_unpack _); vm_compute; exact I.
Qed.

Lemma client_announces : announces client_headers (zlen body).
Proof.
  unfold announces, client_headers. rewrite !lookup_reserved by (apply (bool_decide_unpack _); vm_compute; exact I).
  pose proof (zlen_nonneg body). destruct (Z.eqb_spec (zlen body) 0) as [E|E].
  - split; [vm_compute; reflexivity|]. left. split; [vm_compute; reflexivity|done].
  - split; [vm_compute; reflexivity|]. right. pose proof (co_body Hok) as Hb.
    split; [|done]. cbn [app]. change (lookup_header _ _) with (to_string (zlen body)). apply from_chars_to_string; unfold UINT64_MAX; lia.
Qed.

(** What the client sends is a request the server can read. *)
Lemma client_message_ok : message_ok client_message.
Proof.
  pose proof target_ok as Ht. destruct target_split as [Hp Hq]. destruct (co_size Hok) as [Hs1 Hs2].
  constructor; cbn [verb target version hdrs payload route_path query client_message]; try done.
  - constructor; [by destruct m; apply (bool_decide_unpack _); vm_compute; exact I| | |by apply client_fields_ok| |done].
    + eapply Forall_impl; [exact Ht|]. by intros c [].
    + apply (bool_decide_unpack _). vm_compute. exact I.
    + unfold client_headers. rewrite zlen_cons, !zlen_app. pose proof (co_count Hok) as Hc.
      change (zlen [(chars "Connection", chars "close")]) with 1. destruct (zlen body =? 0); rewrite ?zlen_cons, zlen_nil; lia.
  - apply client_announces.
  - rewrite elem_of_app. intros [H|H]; [revert H; destruct m; apply (bool_decide_unpack _); vm_compute; exact I|].
    rewrite Forall_forall in Ht. apply Ht in H. lia.
  - unfold client_headers. rewrite lookup_reserved by (apply (bool_decide_unpack _); vm_compute; exact I).
    destruct (zlen body =? 0); vm_compute; discriminate.
Qed.
End request.

(** ** The exchange *)

(** The response as it is sent to a client that asks for the connection to be closed. *)
Definition sent_response (date : bytes) (r : Response) : Response :=
  header (chars "Connection") (chars "close") (header (chars "Date") date
    (if status_code_ r =? 200 then header (chars "Accept-Ranges") (chars "bytes") r else r)).

(** A response with its body in memory, not streamed. *)
Definition in_memory (r : Response) : Prop := streamed_ r = false /\ Response.chunked_ r = false /\ sendfile_path_ r = [].

Definition written (l : list action) : bytes := concat (map (fun x => match x with Write b => b | _ => [] end) l).

Section exchange.
Context {A : Type}.
Context (order : gmap bytes bytes -> list (bytes * bytes)) (a : @App A).
Context (m : Method) (headers : gmap bytes bytes) (body : bytes).

Lemma asks_close u : client_ok order m u headers body ->
  let rq := request_of (client_message order m u headers body) in
  HttpParser.header rq (chars "Connection") = chars "close" /\ HttpParser.header rq (chars "If-None-Match") = [] /\
  HttpParser.header rq (chars "Range") = [].
Proof.
  intros Hok rq. unfold HttpParser.header, rq. cbn [headers_flat_ request_of hdrs client_message]. unfold client_headers.
  rewrite !(lookup_reserved _ _ _ _ _ Hok) by (apply (bool_decide_unpack _); vm_compute; exact I).
  destruct (zlen body =? 0); split_and!; vm_compute; reflexivity.
Qed.

Lemma access_log_silent c sc : written (access_log (logger_ a) c sc) = [].
Proof. unfold access_log. by destruct (logger_ a) as [[]|]. Qed.

Lemma written_app l l' : written (l ++ l') = written l ++ written l'.
Proof. unfold written. by rewrite map_app, concat_app. Qed.

(** What is written for such a request. *)
Lemma response_written date n c r : in_memory r ->
  HttpParser.header (request c) (chars "If-None-Match") = [] -> HttpParser.header (request c) (chars "Range") = [] ->
  written (fst (fst (response_actions order a date false n c r))) = serialize order (sent_response date r).
Proof.
  intros (Hs & Hc & Hp) Hi Hr. unfold response_actions. rewrite Hs, Hi. change (negb (zlen [] =? 0)) with false. cbn [andb].
  unfold apply_range. rewrite Hr. change (zlen [] =? 0) with true. cbn iota.
  replace (if negb (status_code_ r =? 200) then r else _) with
    (if status_code_ r =? 200 then header (chars "Accept-Ranges") (chars "bytes") r else r) by by destruct (_ =? 200).
  cbn zeta. fold (connection_value false). change (connection_value false) with (chars "close"). fold (sent_response date r).
  assert (Response.chunked_ (sent_response date r) = false) as -> by (unfold sent_response; by destruct (_ =? 200)).
  assert (has_sendfile (sent_response date r) = false) as ->.
  { unfold sent_response, has_sendfile. destruct (_ =? 200); cbn [sendfile_path_ header]; by rewrite Hp. }
  cbn [andb fst]. rewrite written_app, access_log_silent, app_nil_r. unfold written. cbn [map concat]. by rewrite app_nil_r.
Qed.

Lemma answer_request rq ip st st' c r cont : answer order a rq ip st = (st', Respond c r cont) -> request c = rq.
Proof.
  unfold answer. destruct (route a rq) as [[h params] fb]. destruct (run_middlewares _ _ _ _) as [[st1 res] ok].
  destruct ok; cbn [negb]; [|by intros [= _ <- _ _]]. destruct h as [[f|]|]; [|done|by intros [= _ <- _ _]].
  destruct (call_handler _ _ _ _ _ _) as [st2 res2]. by intros [= _ <- _ _].
Qed.

(** A connection to the server [w], over which the request and the response are cut into
    reads in any way. *)
Context (cut_request : bytes -> list (bytes * bytes)) (cut_response : bytes -> list bytes).

Definition loopback (w : @conn A) (_ : ParsedUrl) (bytes_sent : bytes) : result (list read_step) :=
  Ok (map ReadBytes (cut_response (written (log (foldl (deliver order a) w (cut_request bytes_sent)))))).

Context (Hcut : forall s, concat (map snd (cut_request s)) = s /\ Forall (fun ev => snd ev <> []) (cut_request s)).
Context (Hcut' : forall s, concat (cut_response s) = s /\ Forall (fun p => p <> []) (cut_response s)).

(** C2. A request over a connection, end to end.  The client's [send_one], connected to a
    fresh connection of the server with requests and responses cut into reads anywhere, has
    the application called once with the method, path, query, headers and body the client was
    given, and returns the status and the body the application answered with; the server has
    closed the connection.  The server runs with a [std::string] whose erase works in place, as
    libstdc++'s does: the application reads the request through views of the erased buffer.

    The URL is plain http, the request is within the server's limits and sets none of the
    [reserved] headers ([client_ok]), and its path is neither refused by the guard nor a
    WebSocket route ([ordinary]).  The answer is not left to a coroutine, is held in memory,
    is within the client's 8 MiB, and none of its header fields looks to the client
    like its framing ([response_ok], [fixed_ok]). *)
Theorem fetch_served url u w st c r cont :
  parse_url url = Ok u -> scheme u = chars "http" -> client_ok order m u headers body ->
  let rq := request_of (client_message order m u headers body) in
  ordinary a rq -> reading w = true -> buf (ctx w) = [] -> log w = [] ->
  answer order a rq (client_ip (ctx w)) (app w) = (st, Respond c r cont) ->
  let reads := cut_request (serialize_request order m u headers body false) in
  let sent := sent_response (default [] (last (map fst reads))) r in
  in_memory r -> response_ok order sent -> fixed_ok order sent ->
  let w' := foldl (deliver order a) w reads in
  app w' = st /\ reading w' = false /\
  exists resp, send_one order (loopback w) m headers body url = Some (Ok resp) /\
    status_ resp = status_code_ r /\ fetch_body_ resp = Response.body_ r.
Proof.
  intros Hu Hsch Hok rq Hord Hr Hb Hl Ha reads sent Hm Hro Hfx w'.
  destruct (asks_close u Hok) as (Hcl & Hinm & Hrg). pose proof (answer_request _ _ _ _ _ _ _ Ha) as Hc.
  assert (keeps rq (handled (ctx w) + 1) = false) as Hk by (unfold keeps, rq; by rewrite Hcl).
  destruct (Hcut (serialize_request order m u headers body false)) as [E1 E2]. rewrite client_wire in E1 at 2.
  pose proof (turn_core order a (client_message order m u headers body, reads) w) as T.
  cbn zeta in T. unfold asked in T. cbn [fst snd] in T. fold rq w' in T. rewrite Ha, Hk, andb_false_r in T.
  assert (core w' = (handled (ctx w) + 1, false, [], client_ip (ctx w), false, st,
    [] ++ fst (fst (response_actions order a (default [] (last (map fst reads))) false (handled (ctx w) + 1) c r)) ++ [Close])) as Hw'.
  { rewrite Hl in T. apply T; [|done..]. by constructor; [apply client_message_ok| | |]. }
  clear T. injection Hw' as _ _ _ _ K5 K6 K7. split; [done|]. split; [done|].
  destruct (Hcut' (serialize order sent)) as [F1 F2].
  assert (loopback w u (serialize_request order m u headers body false) = Ok (map ReadBytes (cut_response (serialize order sent)))) as HL.
  { unfold loopback. fold reads w'. do 3 f_equal. rewrite K7, written_app. change (written [Close]) with (@nil Z). rewrite app_nil_r.
    apply response_written; [done|by rewrite Hc..]. }
  eexists. unfold send_one. rewrite Hu, decide_False by (rewrite Hsch; discriminate). rewrite HL.
  rewrite <- (app_nil_r (map ReadBytes _)), (read_fixed order sent Hro Hfx _ [] F1 F2), (parse_fixed order sent Hro Hfx).
  split; [done|]. cbn [status_ fetch_body_]. unfold sent, sent_response. by destruct (_ =? 200).
Qed.
End exchange.

(** Two reads, the first of at most ten bytes. *)
Definition cut10 (s : bytes) : list bytes := filter (fun p => p <> []) [ztake 10 s; zdrop 10 s].

Lemma cut10_ok s : concat (cut10 s) = s /\ Forall (fun p => p <> []) (cut10 s).
Proof.
  split; [|apply Forall_forall; intros p; by intros []%list_elem_of_filter].
  transitivity (ztake 10 s ++ zdrop 10 s); [|by apply ztake_zdrop]. unfold cut10.
  generalize (ztake 10 s) (zdrop 10 s). intros [|x p] [|y q]; cbn; repeat case_decide; cbn; by rewrite ?app_nil_r.
Qed.

Definition cut10_dated (s : bytes) : list (bytes * bytes) := map (fun p => (chars "now", p)) (cut10 s).

Lemma cut10_dated_ok s : concat (map snd (cut10_dated s)) = s /\ Forall (fun ev => snd ev <> []) (cut10_dated s).
Proof.
  destruct (cut10_ok s) as [H1 H2]. unfold cut10_dated. rewrite map_map, map_id. split; [done|].
  apply Forall_map. eapply Forall_impl; [exact H2|]. done.
Qed.

Definition sample_url : ParsedUrl := mkUrl (chars "http") (chars "h") 8080 (chars "/count?x=1").

Lemma fetch_served_witness :
  let order := map_to_list in let hs := {[chars "Accept" := chars "*/*"]} in
  exists resp,
    send_one order (loopback order sample_app cut10_dated cut10 sample_conn) Get hs [] (chars "http://h:8080/count?x=1") =
      Some (Ok resp) /\ status_ resp = 200 /\ fetch_body_ resp = chars "1".
Proof.
  intros order hs.
  destruct (answer order sample_app (request_of (client_message order Get sample_url hs [])) (chars "::1") 0) as [st [c r cont|ps]] eqn:E.
  2: { vm_compute in E. discriminate E. }
  assert (status_code_ r = 200 /\ Response.body_ r = chars "1" /\ in_memory r /\
    let sent := sent_response (chars "now") r in response_ok order sent /\ fixed_ok order sent) as (<- & <- & Hm & Hro & Hfx).
  { vm_compute in E. injection E as _ _ <- _. split_and!; [reflexivity|reflexivity|by split_and!|..].
    intros sent. split.
    - constructor; [split; [vm_compute; discriminate|reflexivity]|]. apply (bool_decide_unpack _). vm_compute. exact I.
    - constructor; [by split|vm_compute; discriminate|vm_compute; reflexivity|vm_compute; reflexivity|].
      apply (bool_decide_unpack _). vm_compute. exact I. }
  pose proof (fetch_served order sample_app Get hs [] cut10_dated cut10 cut10_dated_ok cut10_ok
    (chars "http://h:8080/count?x=1") sample_url sample_conn st c r cont) as H.
  assert (default [] (last (map fst (cut10_dated (serialize_request order Get sample_url hs [] false)))) = chars "now") as Hd
    by (vm_compute; reflexivity).
  cbn zeta in H. rewrite Hd in H. destruct H as (_ & _ & H).
  - vm_compute. reflexivity.
  - reflexivity.
  - constructor; try (apply (bool_decide_unpack _); vm_compute; exact I).
  - split; vm_compute; reflexivity.
  - reflexivity.
  - reflexivity.
  - reflexivity.
  - exact E.
  - exact Hm.
  - exact Hro.
  - exact Hfx.
  - exact H.
Defined.
