(* ===== verification/Aes.v ===== *)
(** * The AES block cipher: namespace [detail::aes] of [crypto/aes_gcm.hpp]

    FIPS 197 (the S-box from its definition, the key expansion, the cipher), the x86 and ARM
    instructions the code uses by their manuals, and the two backends: key schedules and block
    encryption.  A block, a [__m128i] or a [uint8x16_t] is its sixteen bytes in memory order. *)

From S2P Require Import Prelude.
#[local] Open Scope Z_scope.
#[local] Open Scope word_scope.

Definition slice (v : bytes) (i n : Z) : bytes := ztake n (zdrop i v).

(** ** FIPS 197 *)

(** The product of two bytes modulo x^8 + x^4 + x^3 + x + 1. *)
Definition xtime (b : Z) : Z := u8 (b << 1) .^ (if Z.testbit b 7 then 0x1b else 0).

Fixpoint gf_mul (n : nat) (a b : Z) : Z :=
  match n with
  | O => 0
  | S n => (if Z.odd b then a else 0) .^ gf_mul n (xtime a) (b >> 1)
  end.

Definition aes_mul (a b : Z) : Z := gf_mul 8 a b.

(** The inverse, 0 for 0: the 254th power. *)
Definition aes_inv (x : Z) : Z :=
  let squares := map (fun n => Nat.iter n (fun y => aes_mul y y) x) (seq 1 7) in
  foldl aes_mul 1 squares.

Definition rotl8 (x n : Z) : Z := u8 (x << n) .| (x >> (8 - n)).

Definition fips_sbox (x : Z) : Z :=
  let b := aes_inv x in b .^ rotl8 b 1 .^ rotl8 b 2 .^ rotl8 b 3 .^ rotl8 b 4 .^ 0x63.

Definition Sbox : list Z := Eval vm_compute in map fips_sbox (seqZ 0 256).

Definition sub_bytes (s : bytes) : bytes := map (at_ Sbox) s.

Definition xor_block (a b : bytes) : bytes := zip_with Z.lxor a b.

(** Byte r + 4 c of the state is in row r and column c; row r is rotated by r. *)
Definition shift_rows (s : bytes) : bytes := map (at_ s) [0; 5; 10; 15; 4; 9; 14; 3; 8; 13; 2; 7; 12; 1; 6; 11].

Definition mix_column (s : bytes) (c : Z) : bytes :=
  let a r := at_ s (4 * c + r mod 4) in
  map (fun r => aes_mul 2 (a r) .^ aes_mul 3 (a (r + 1)) .^ a (r + 2) .^ a (r + 3)) [0; 1; 2; 3].

Definition mix_columns (s : bytes) : bytes := concat (map (mix_column s) [0; 1; 2; 3]).

Definition cipher (nr : Z) (rk : Z -> bytes) (block : bytes) : bytes :=
  let s := foldl (fun s r => xor_block (mix_columns (shift_rows (sub_bytes s))) (rk r)) (xor_block block (rk 0)) (seqZ 1 (nr - 1)) in
  xor_block (shift_rows (sub_bytes s)) (rk nr).

(** Words of the key schedule. *)
Definition rot_word (w : bytes) : bytes := map (at_ w) [1; 2; 3; 0].

Definition rcon (j : Z) : bytes := [Nat.iter (Z.to_nat (j - 1)) xtime 1; 0; 0; 0].

Definition word (ws : list bytes) (i : Z) : bytes := nth (Z.to_nat i) ws [].

Definition next_word (nk : Z) (ws : list bytes) (i : Z) : list bytes :=
  let temp := word ws (i - 1) in
  let temp :=
    if i mod nk =? 0 then xor_block (sub_bytes (rot_word temp)) (rcon (i / nk))
    else if (6 <? nk) && (i mod nk =? 4) then sub_bytes temp
    else temp in
  ws ++ [xor_block (word ws (i - nk)) temp].

Definition key_expansion (nk nr : Z) (key : bytes) : list bytes :=
  foldl (next_word nk) (map (fun i => slice key (4 * i) 4) (seqZ 0 nk)) (seqZ nk (4 * (nr + 1) - nk)).

Definition round_key (ws : list bytes) (r : Z) : bytes := concat (map (fun c => word ws (4 * r + c)) [0; 1; 2; 3]).

(** The cipher with a key of [nk] words. *)
Definition AES (nk : Z) (key block : bytes) : bytes :=
  let nr := nk + 6 in cipher nr (round_key (key_expansion nk nr key)) block.

(** ** Instructions *)

Definition dword (v : bytes) (i : Z) : bytes := slice v (4 * i) 4.

Definition aesenc (s k : bytes) : bytes := xor_block (mix_columns (shift_rows (sub_bytes s))) k.
Definition aesenclast (s k : bytes) : bytes := xor_block (shift_rows (sub_bytes s)) k.

Definition aeskeygenassist (v : bytes) (imm : Z) : bytes :=
  let x1 := sub_bytes (dword v 1) in
  let x3 := sub_bytes (dword v 3) in
  x1 ++ xor_block (rot_word x1) [imm; 0; 0; 0] ++ x3 ++ xor_block (rot_word x3) [imm; 0; 0; 0].

Definition shuffle_epi32 (v : bytes) (imm : Z) : bytes :=
  concat (map (fun i => dword v ((imm >> (2 * i)) .& 3)) [0; 1; 2; 3]).

Definition slli_si128 (v : bytes) (n : Z) : bytes := ztake 16 (replicate (Z.to_nat n) 0 ++ v).

(** AESE: AddRoundKey, then ShiftRows and SubBytes; AESMC: MixColumns. *)
Definition vaeseq_u8 (s k : bytes) : bytes := sub_bytes (shift_rows (xor_block s k)).
Definition vaesmcq_u8 (s : bytes) : bytes := mix_columns s.

(** ** Key schedules *)

(** [AES128_KS_STEP]. *)
Definition aes128_ks_step (k : bytes) (imm : Z) : bytes :=
  let t := shuffle_epi32 (aeskeygenassist k imm) 0xFF in
  let k := xor_block k (slli_si128 k 4) in
  let k := xor_block k (slli_si128 k 8) in
  xor_block k t.

Definition keyschedule_128_ni (key : bytes) : list bytes :=
  foldl (fun ks imm => ks ++ [aes128_ks_step (List.last ks []) imm]) [ztake 16 key]
    [0x01; 0x02; 0x04; 0x08; 0x10; 0x20; 0x40; 0x80; 0x1b; 0x36].

Definition key_expand_256a (prev out : bytes) (imm : Z) : bytes :=
  let t := shuffle_epi32 (aeskeygenassist prev imm) 0xFF in
  let k := out in
  let k := xor_block k (slli_si128 k 4) in
  let k := xor_block k (slli_si128 k 8) in
  xor_block k t.

Definition key_expand_256b (prev out : bytes) : bytes :=
  let t := shuffle_epi32 (aeskeygenassist prev 0x00) 0xAA in
  let k := out in
  let k := xor_block k (slli_si128 k 4) in
  let k := xor_block k (slli_si128 k 8) in
  xor_block k t.

(** Calls [key_expand_256a(ks[i], ks[i+1], rcon)] ([Some]) and [key_expand_256b] ([None]) in
    order; the schedule starts zeroed. *)
Definition keyschedule_256_ni (key : bytes) : list bytes :=
  let block ks i := nth i ks [] in
  foldl (fun ks '(i, step) =>
           <[S i := match step with
                    | Some imm => key_expand_256a (block ks i) (block ks (S i)) imm
                    | None => key_expand_256b (block ks i) (block ks (S i))
                    end]> ks)
    (<[1%nat := slice key 16 16]> (<[0%nat := ztake 16 key]> (replicate 15 (replicate 16 0))))
    (zip (seq 1 13) [Some 0x01; None; Some 0x02; None; Some 0x04; None; Some 0x08; None; Some 0x10; None; Some 0x20; None; Some 0x40]).

Definition kSbox : list Z :=
  [0x63; 0x7c; 0x77; 0x7b; 0xf2; 0x6b; 0x6f; 0xc5; 0x30; 0x01; 0x67; 0x2b; 0xfe; 0xd7; 0xab; 0x76;
   0xca; 0x82; 0xc9; 0x7d; 0xfa; 0x59; 0x47; 0xf0; 0xad; 0xd4; 0xa2; 0xaf; 0x9c; 0xa4; 0x72; 0xc0;
   0xb7; 0xfd; 0x93; 0x26; 0x36; 0x3f; 0xf7; 0xcc; 0x34; 0xa5; 0xe5; 0xf1; 0x71; 0xd8; 0x31; 0x15;
   0x04; 0xc7; 0x23; 0xc3; 0x18; 0x96; 0x05; 0x9a; 0x07; 0x12; 0x80; 0xe2; 0xeb; 0x27; 0xb2; 0x75;
   0x09; 0x83; 0x2c; 0x1a; 0x1b; 0x6e; 0x5a; 0xa0; 0x52; 0x3b; 0xd6; 0xb3; 0x29; 0xe3; 0x2f; 0x84;
   0x53; 0xd1; 0x00; 0xed; 0x20; 0xfc; 0xb1; 0x5b; 0x6a; 0xcb; 0xbe; 0x39; 0x4a; 0x4c; 0x58; 0xcf;
   0xd0; 0xef; 0xaa; 0xfb; 0x43; 0x4d; 0x33; 0x85; 0x45; 0xf9; 0x02; 0x7f; 0x50; 0x3c; 0x9f; 0xa8;
   0x51; 0xa3; 0x40; 0x8f; 0x92; 0x9d; 0x38; 0xf5; 0xbc; 0xb6; 0xda; 0x21; 0x10; 0xff; 0xf3; 0xd2;
   0xcd; 0x0c; 0x13; 0xec; 0x5f; 0x97; 0x44; 0x17; 0xc4; 0xa7; 0x7e; 0x3d; 0x64; 0x5d; 0x19; 0x73;
   0x60; 0x81; 0x4f; 0xdc; 0x22; 0x2a; 0x90; 0x88; 0x46; 0xee; 0xb8; 0x14; 0xde; 0x5e; 0x0b; 0xdb;
   0xe0; 0x32; 0x3a; 0x0a; 0x49; 0x06; 0x24; 0x5c; 0xc2; 0xd3; 0xac; 0x62; 0x91; 0x95; 0xe4; 0x79;
   0xe7; 0xc8; 0x37; 0x6d; 0x8d; 0xd5; 0x4e; 0xa9; 0x6c; 0x56; 0xf4; 0xea; 0x65; 0x7a; 0xae; 0x08;
   0xba; 0x78; 0x25; 0x2e; 0x1c; 0xa6; 0xb4; 0xc6; 0xe8; 0xdd; 0x74; 0x1f; 0x4b; 0xbd; 0x8b; 0x8a;
   0x70; 0x3e; 0xb5; 0x66; 0x48; 0x03; 0xf6; 0x0e; 0x61; 0x35; 0x57; 0xb9; 0x86; 0xc1; 0x1d; 0x9e;
   0xe1; 0xf8; 0x98; 0x11; 0x69; 0xd9; 0x8e; 0x94; 0x9b; 0x1e; 0x87; 0xe9; 0xce; 0x55; 0x28; 0xdf;
   0x8c; 0xa1; 0x89; 0x0d; 0xbf; 0xe6; 0x42; 0x68; 0x41; 0x99; 0x2d; 0x0f; 0xb0; 0x54; 0xbb; 0x16].

Definition kRcon : list Z := [0x01; 0x02; 0x04; 0x08; 0x10; 0x20; 0x40; 0x80; 0x1b; 0x36; 0x6c].

(** One turn of [keyschedule_expand]: the word [i] behind the bytes written so far. *)
Definition expand_word (nk : Z) (out : bytes) (i : Z) : bytes :=
  let t0 := at_ out ((i - 1) * 4 + 0) in
  let t1 := at_ out ((i - 1) * 4 + 1) in
  let t2 := at_ out ((i - 1) * 4 + 2) in
  let t3 := at_ out ((i - 1) * 4 + 3) in
  let '(t0, t1, t2, t3) :=
    if i mod nk =? 0 then
      (at_ kSbox t1 .^ at_ kRcon (i / nk - 1), at_ kSbox t2, at_ kSbox t3, at_ kSbox t0)
    else if (6 <? nk) && (i mod nk =? 4) then
      (at_ kSbox t0, at_ kSbox t1, at_ kSbox t2, at_ kSbox t3)
    else (t0, t1, t2, t3) in
  out ++ [at_ out ((i - nk) * 4 + 0) .^ t0; at_ out ((i - nk) * 4 + 1) .^ t1;
          at_ out ((i - nk) * 4 + 2) .^ t2; at_ out ((i - nk) * 4 + 3) .^ t3].

Definition keyschedule_expand (key : bytes) (nk nr : Z) : bytes :=
  foldl (expand_word nk) (ztake (nk * 4) key) (seqZ nk (4 * (nr + 1) - nk)).

(** [keyschedule_128] and [keyschedule_256] of the ARM backend. *)
Definition keyschedule_arm (nk nr : Z) (key : bytes) : list bytes :=
  let buf := keyschedule_expand key nk nr in
  map (fun r => slice buf (r * 16) 16) (seqZ 0 (nr + 1)).

(** ** Block encryption *)

Definition aes_encrypt_block_ni (rounds : Z) (ks : list bytes) (block : bytes) : bytes :=
  let rk i := nth (Z.to_nat i) ks [] in
  let block := foldl (fun b i => aesenc b (rk i)) (xor_block block (rk 0)) (seqZ 1 (rounds - 1)) in
  aesenclast block (rk rounds).

Definition aes_encrypt_block_arm (rounds : Z) (ks : list bytes) (block : bytes) : bytes :=
  let rk i := nth (Z.to_nat i) ks [] in
  let block := foldl (fun b i => vaesmcq_u8 (vaeseq_u8 b (rk i))) block (seqZ 0 (rounds - 1)) in
  xor_block (vaeseq_u8 block (rk (rounds - 1))) (rk rounds).

(** The two backends, and [nk], the number of words of a key: 4 or 8. *)
Inductive backend := AesNi | AesArm.

Definition keyschedule (t : backend) (nk : Z) (key : bytes) : list bytes :=
  match t with
  | AesNi => if nk =? 4 then keyschedule_128_ni key else keyschedule_256_ni key
  | AesArm => keyschedule_arm nk (nk + 6) key
  end.

Definition aes_block (t : backend) (rounds : Z) (ks : list bytes) (block : bytes) : bytes :=
  match t with
  | AesNi => aes_encrypt_block_ni rounds ks block
  | AesArm => aes_encrypt_block_arm rounds ks block
  end.

(** ** The tables *)

Lemma kSbox_fips : kSbox = Sbox.
Proof. reflexivity. Qed.

Lemma Sbox_fips : Sbox = map fips_sbox (seqZ 0 256).
Proof. vm_compute. reflexivity. Qed.

Lemma aes_inv_correct : forallb (fun x => aes_mul x (aes_inv x) =? 1) (seqZ 1 255) = true.
Proof. vm_compute. reflexivity. Qed.

(** The examples of FIPS 197, appendix C. *)
Definition count_bytes (n : Z) : bytes := seqZ 0 n.

Example fips_197_c1 : AES 4 (count_bytes 16) (map (fun i => 0x11 * i) (seqZ 0 16)) =
  [0x69; 0xc4; 0xe0; 0xd8; 0x6a; 0x7b; 0x04; 0x30; 0xd8; 0xcd; 0xb7; 0x80; 0x70; 0xb4; 0xc5; 0x5a].
Proof. vm_compute. reflexivity. Qed.

Example fips_197_c3 : AES 8 (count_bytes 32) (map (fun i => 0x11 * i) (seqZ 0 16)) =
  [0x8e; 0xa2; 0xb7; 0xca; 0x51; 0x67; 0x45; 0xbf; 0xea; 0xfc; 0x49; 0x90; 0x4b; 0x49; 0x60; 0x89].
Proof. vm_compute. reflexivity. Qed.

(** ** Blocks *)

Lemma xor_block_length a b n : length a = n -> length b = n -> length (xor_block a b) = n.
Proof. intros Ha Hb. unfold xor_block. rewrite length_zip_with. lia. Qed.

Lemma shift_rows_length s : length (shift_rows s) = 16%nat.
Proof. done. Qed.

Lemma mix_columns_length s : length (mix_columns s) = 16%nat.
Proof. done. Qed.

Lemma sub_bytes_length s : length (sub_bytes s) = length s.
Proof. apply length_map. Qed.

Lemma at_map f s i : 0 <= i < zlen s -> at_ (map f s) i = f (at_ s i).
Proof.
  intros Hi. unfold at_. rewrite (nth_indep _ 0 (f 0)); [apply map_nth|]. rewrite length_map. unfold zlen in Hi. lia.
Qed.

Lemma sub_shift s : length s = 16%nat -> sub_bytes (shift_rows s) = shift_rows (sub_bytes s).
Proof.
  intros Hs. unfold sub_bytes, shift_rows. rewrite map_map. apply map_ext_in. intros i Hi. symmetry. apply at_map.
  unfold zlen. rewrite Hs. apply list_elem_of_In in Hi. revert i Hi. apply Forall_forall. repeat constructor; lia.
Qed.

(** ** Block encryption *)

Lemma seqZ_next a n : 0 <= n -> seqZ a (n + 1) = seqZ a n ++ [a + n].
Proof. intros Hn. rewrite seqZ_app by lia. f_equal. Qed.

Lemma foldl_ext_in {A B} (f g : A -> B -> A) a l : (forall x y, y ∈ l -> f x y = g x y) -> foldl f a l = foldl g a l.
Proof.
  revert a. induction l as [|y l IH]; intros a H; [done|]. cbn [foldl]. rewrite H by left.
  apply IH. intros x z Hz. apply H. by right.
Qed.

Lemma cipher_ext nr rk rk' block : 0 < nr -> (forall r, 0 <= r <= nr -> rk r = rk' r) -> cipher nr rk block = cipher nr rk' block.
Proof.
  intros Hn He. unfold cipher. rewrite (He 0), (He nr) by lia. do 3 f_equal.
  apply foldl_ext_in. intros b i Ha. rewrite He; [done|]. apply elem_of_seqZ in Ha. lia.
Qed.

(** ARM: the key is added first, and the rows are shifted before the substitution. *)
Lemma arm_rounds rk block m : 0 <= m -> length block = 16%nat -> (forall r, 0 <= r <= m -> length (rk r) = 16%nat) ->
  let b := foldl (fun b i => vaesmcq_u8 (vaeseq_u8 b (rk i))) block (seqZ 0 m) in
  length b = 16%nat /\
  xor_block b (rk m) = foldl (fun s r => xor_block (mix_columns (shift_rows (sub_bytes s))) (rk r)) (xor_block block (rk 0)) (seqZ 1 m).
Proof.
  intros Hm Hb. revert m Hm. apply (natlike_ind (fun m => (forall r, 0 <= r <= m -> length (rk r) = 16%nat) -> _)); [done|].
  intros m Hm IH Hk. rewrite <- Z.add_1_r, !seqZ_next, !foldl_app by done. cbn [foldl].
  destruct IH as [IHl IH]; [intros; apply Hk; lia|]. split; [apply mix_columns_length|].
  replace (1 + m) with (m + 1) by lia. rewrite <- IH. unfold vaesmcq_u8, vaeseq_u8. rewrite Z.add_0_l, sub_shift; [done|].
  apply xor_block_length; [done|]. apply Hk. lia.
Qed.

Lemma encrypt_block_arm nr ks block : 0 < nr -> length block = 16%nat ->
  (forall r, 0 <= r <= nr -> length (nth (Z.to_nat r) ks []) = 16%nat) ->
  aes_encrypt_block_arm nr ks block = cipher nr (fun r => nth (Z.to_nat r) ks []) block.
Proof.
  intros Hn Hb Hk. unfold aes_encrypt_block_arm, cipher.
  destruct (arm_rounds (fun r => nth (Z.to_nat r) ks []) block (nr - 1)) as [Hl E]; [lia|done|intros; apply Hk; lia|].
  rewrite <- E. unfold vaeseq_u8. rewrite sub_shift; [done|]. apply xor_block_length; [done|]. apply Hk. lia.
Qed.

(** ** Key schedules *)

Definition words_ok (ws : list bytes) : Prop := Forall (fun w => length w = 4%nat) ws.

Lemma word_app_l ws ws' i : 0 <= i < zlen ws -> word (ws ++ ws') i = word ws i.
Proof. unfold word, zlen. intros Hi. apply app_nth1. lia. Qed.

Lemma word_app_r ws w ws' i : i = zlen ws -> word (ws ++ w :: ws') i = w.
Proof. unfold word, zlen. intros ->. rewrite Nat2Z.id, app_nth2, Nat.sub_diag by lia. done. Qed.

Lemma word_length ws i : words_ok ws -> 0 <= i < zlen ws -> length (word ws i) = 4%nat.
Proof.
  unfold words_ok, word, zlen. intros Hw Hi. rewrite Forall_forall in Hw. apply Hw, list_elem_of_In, nth_In. lia.
Qed.

Lemma round_key_app ws ws' r : 0 <= r -> 4 * r + 4 <= zlen ws -> round_key (ws ++ ws') r = round_key ws r.
Proof. intros Hr Hl. unfold round_key. cbn [map concat]. rewrite !word_app_l by lia. done. Qed.

Lemma round_key_length ws r : words_ok ws -> 0 <= r -> 4 * r + 4 <= zlen ws -> length (round_key ws r) = 16%nat.
Proof. intros Hw Hr Hl. unfold round_key. cbn [map concat]. rewrite !length_app, !word_length by (done || lia). done. Qed.

(** Four bytes. *)
Lemma word4 (w : bytes) : length w = 4%nat -> exists a b c d, w = [a; b; c; d].
Proof. destruct w as [|a [|b [|c [|d []]]]]; try done. intros _. by exists a, b, c, d. Qed.

(** Equal sums of bytes. *)
Ltac xor_eq :=
  apply Z.bits_inj'; intros ? ?; rewrite ?Z.lxor_spec, ?Z.bits_0;
  repeat match goal with |- context [Z.testbit ?x ?i] => destruct (Z.testbit x i) end; reflexivity.

(** The word that enters at the start of a round. *)
Definition core_word (w : bytes) (imm : Z) : bytes := xor_block (sub_bytes (rot_word w)) [imm; 0; 0; 0].

(** Four words, one from the other: the prefix sums the shifts compute. *)
Definition chain (w0 w1 w2 w3 t : bytes) : list bytes :=
  let n0 := xor_block w0 t in let n1 := xor_block w1 n0 in let n2 := xor_block w2 n1 in [n0; n1; n2; xor_block w3 n2].

Lemma ks_step_chain w0 w1 w2 w3 imm : words_ok [w0; w1; w2; w3] ->
  aes128_ks_step (w0 ++ w1 ++ w2 ++ w3) imm = concat (chain w0 w1 w2 w3 (core_word w3 imm)).
Proof.
  intros H. inversion H as [|? ? H0 Ha]; subst. inversion Ha as [|? ? H1 Hb]; subst. inversion Hb as [|? ? H2 Hc]; subst.
  inversion Hc as [|? ? H3 _]; subst. clear H Ha Hb Hc.
  destruct (word4 _ H0) as (a0 & a1 & a2 & a3 & ->), (word4 _ H1) as (b0 & b1 & b2 & b3 & ->),
    (word4 _ H2) as (c0 & c1 & c2 & c3 & ->), (word4 _ H3) as (d0 & d1 & d2 & d3 & ->).
  unfold aes128_ks_step, aeskeygenassist, chain, core_word, sub_bytes. generalize (at_ Sbox). intros f.
  cbv -[Z.lxor]. repeat (f_equal; [xor_eq|]). f_equal. xor_eq.
Qed.

Lemma rcon_0 j : rcon j = [hd 0 (rcon j); 0; 0; 0].
Proof. done. Qed.

Lemma next_core nk ws i : i mod nk = 0 ->
  next_word nk ws i = ws ++ [xor_block (word ws (i - nk)) (core_word (word ws (i - 1)) (hd 0 (rcon (i / nk))))].
Proof. intros Hi. unfold next_word, core_word. by rewrite Hi, <- rcon_0. Qed.

Lemma next_plain nk ws i : i mod nk <> 0 -> (6 <? nk) && (i mod nk =? 4) = false ->
  next_word nk ws i = ws ++ [xor_block (word ws (i - nk)) (word ws (i - 1))].
Proof. intros Hi Hs. unfold next_word. by rewrite (proj2 (Z.eqb_neq _ _) Hi), Hs. Qed.

Lemma seqZ_4 a : seqZ a 4 = [a; a + 1; a + 2; a + 3].
Proof. rewrite !seqZ_cons by lia. rewrite seqZ_nil by lia. repeat (f_equal; try lia). Qed.

Lemma last_word ws w i : i = zlen ws -> word (ws ++ [w]) i = w.
Proof. apply word_app_r. Qed.

(** One round of FIPS 197 for four-word keys. *)
Lemma expand4 ws j : 1 <= j -> zlen ws = 4 * j ->
  foldl (next_word 4) ws (seqZ (4 * j) 4) =
  ws ++ chain (word ws (4 * j - 4)) (word ws (4 * j - 3)) (word ws (4 * j - 2)) (word ws (4 * j - 1))
          (core_word (word ws (4 * j - 1)) (hd 0 (rcon j))).
Proof.
  intros Hj Hl. rewrite seqZ_4. cbn [foldl]. rewrite (next_core 4 ws (4 * j)) by (rewrite Z.mul_comm; apply Z.mod_mul; lia).
  replace (4 * j / 4) with j by (rewrite Z.mul_comm, Z.div_mul; lia).
  assert (forall acc w c, 0 < c < 4 -> zlen acc + 1 = c ->
    next_word 4 (ws ++ acc ++ [w]) (4 * j + c) = ws ++ (acc ++ [w]) ++ [xor_block (word ws (4 * (j - 1) + c)) w]) as Hn.
  { intros acc w c Hc Ha. assert ((4 * j + c) mod 4 = c) as E by (rewrite Z.add_comm, Z.mul_comm, Z_mod_plus_full; apply Z.mod_small; lia).
    rewrite next_plain by (done || lia). rewrite (word_app_l ws) by lia. replace (4 * j + c - 4) with (4 * (j - 1) + c) by lia.
    rewrite (app_assoc ws acc [w]), word_app_r, <- !app_assoc by (rewrite zlen_app; lia). done. }
  rewrite (Hn [] _ 1 ltac:(lia) eq_refl : next_word 4 (ws ++ [_]) _ = _). cbn [app].
  rewrite (Hn [_] _ 2 ltac:(lia) eq_refl : next_word 4 (ws ++ [_; _]) _ = _). cbn [app].
  rewrite (Hn [_; _] _ 3 ltac:(lia) eq_refl : next_word 4 (ws ++ [_; _; _]) _ = _).
  cbn [app]. unfold chain.
  replace (4 * (j - 1) + 1) with (4 * j - 3) by lia. replace (4 * (j - 1) + 2) with (4 * j - 2) by lia.
  replace (4 * (j - 1) + 3) with (4 * j - 1) by lia. done.
Qed.

Lemma word_app_ge ws ws' i : 0 <= i -> word (ws ++ ws') (zlen ws + i) = word ws' i.
Proof. intros Hi. unfold word, zlen. rewrite app_nth2 by lia. f_equal. lia. Qed.

Lemma round_key_new ws n0 n1 n2 n3 r : zlen ws = 4 * r -> round_key (ws ++ [n0; n1; n2; n3]) r = n0 ++ n1 ++ n2 ++ n3.
Proof. intros Hl. unfold round_key. cbn [map concat]. rewrite <- Hl, !word_app_ge, app_nil_r by lia. done. Qed.

Lemma round_key_chain ws w0 w1 w2 w3 t r : zlen ws = 4 * r -> round_key (ws ++ chain w0 w1 w2 w3 t) r = concat (chain w0 w1 w2 w3 t).
Proof. intros Hl. unfold chain. cbv zeta. rewrite round_key_new by done. cbn [concat]. by rewrite app_nil_r. Qed.

Lemma xor_word a b : length a = 4%nat -> length b = 4%nat -> length (xor_block a b) = 4%nat.
Proof. apply xor_block_length. Qed.

Lemma chain_ok w0 w1 w2 w3 t : words_ok [w0; w1; w2; w3] -> length t = 4%nat -> words_ok (chain w0 w1 w2 w3 t).
Proof.
  intros H Ht. unfold words_ok in *. rewrite !Forall_cons in H. destruct H as (H0 & H1 & H2 & H3 & _). unfold chain. cbv zeta.
  repeat apply Forall_cons_2; try (by apply Forall_nil); repeat apply xor_word; done.
Qed.

Lemma core_word_length w imm : length (core_word w imm) = 4%nat.
Proof. done. Qed.

(** The words of a key. *)
Definition key_words (nk : Z) (key : bytes) : list bytes := map (fun i => slice key (4 * i) 4) (seqZ 0 nk).

Lemma key_words_ok nk key : 0 <= nk -> zlen key = 4 * nk -> words_ok (key_words nk key) /\ zlen (key_words nk key) = nk.
Proof.
  intros Hn Hk. unfold key_words, zlen. rewrite length_map, length_seqZ. split; [|lia].
  apply Forall_map, Forall_forall. intros i Hi. apply elem_of_seqZ in Hi. unfold slice, ztake, zdrop.
  rewrite length_take, length_drop. unfold zlen in Hk. lia.
Qed.

Lemma key_expansion_ok nk ws a n : words_ok ws -> 0 < nk <= a -> zlen ws = a -> 0 <= n ->
  let ws' := foldl (next_word nk) ws (seqZ a n) in words_ok ws' /\ zlen ws' = a + n.
Proof.
  intros Hw Hnk Hl Hn. revert n Hn. apply natlike_ind; [by rewrite seqZ_nil, Z.add_0_r|].
  intros n Hn [IHw IHl]. rewrite <- Z.add_1_r, seqZ_next, foldl_app by done. cbn [foldl]. set (ws' := foldl _ _ _) in *.
  assert (length (word ws' (a + n - 1)) = 4%nat) as H1 by (apply word_length; [done|lia]).
  assert (length (word ws' (a + n - nk)) = 4%nat) as H2 by (apply word_length; [done|lia]).
  unfold next_word. rewrite zlen_app, zlen_cons, zlen_nil. split; [|lia]. apply Forall_app_2; [done|]. apply Forall_singleton.
  apply xor_word; [done|]. destruct (_ =? 0); [done|]. by destruct (_ && _); rewrite ?sub_bytes_length.
Qed.

Lemma key_words_whole key : zlen key = 16 -> round_key (key_words 4 key) 0 = key.
Proof.
  intros Hk. unfold zlen in Hk. do 17 (destruct key as [|? key]; [try discriminate Hk|]); try (cbn in Hk; lia). reflexivity.
Qed.

Lemma map_last {A B} (f : A -> B) l x d : List.last (map f (l ++ [x])) d = f x.
Proof. rewrite map_app. apply last_last. Qed.

Definition ni_rcon : list Z := [0x01; 0x02; 0x04; 0x08; 0x10; 0x20; 0x40; 0x80; 0x1b; 0x36].

Lemma ni128_rounds key m : zlen key = 16 -> (m <= 10)%nat ->
  foldl (fun ks imm => ks ++ [aes128_ks_step (List.last ks []) imm]) [ztake 16 key] (take m ni_rcon) =
  map (round_key (foldl (next_word 4) (key_words 4 key) (seqZ 4 (4 * Z.of_nat m)))) (seqZ 0 (Z.of_nat m + 1)).
Proof.
  intros Hk. destruct (key_words_ok 4 key ltac:(lia) ltac:(lia)) as [Hw Hl]. induction m as [|m IH]; intros Hm.
  { cbn [take foldl]. rewrite Z.mul_0_r, seqZ_nil by lia. change (seqZ 0 (Z.of_nat 0 + 1)) with [0]. cbn [map foldl]. rewrite key_words_whole, ztake_all by (done || lia). done. }
  assert (ni_rcon !! m = Some (hd 0 (rcon (Z.of_nat m + 1)))) as Hr by (do 10 (destruct m as [|m]; [reflexivity|]); lia).
  rewrite (take_S_r _ _ _ Hr), foldl_app, IH by lia. cbn [foldl].
  replace (4 * Z.of_nat (S m)) with (4 * Z.of_nat m + 4) by lia. rewrite (seqZ_app 4 (4 * Z.of_nat m) 4), foldl_app by lia.
  destruct (key_expansion_ok 4 _ 4 (4 * Z.of_nat m) Hw ltac:(lia) Hl ltac:(lia)) as [Hw' Hl'].
  set (ws := foldl _ _ (seqZ 4 (4 * Z.of_nat m))) in *. replace (4 + 4 * Z.of_nat m) with (4 * (Z.of_nat m + 1)) in * by lia.
  rewrite expand4 by lia. set (j := Z.of_nat m + 1) in *. replace (Z.of_nat (S m) + 1) with (j + 1) by lia.
  rewrite (seqZ_next 0 j), map_app by lia. f_equal.
  - apply map_ext_in. intros r Hin. apply list_elem_of_In, elem_of_seqZ in Hin. symmetry. apply round_key_app; lia.
  - cbn [map]. f_equal. rewrite Z.add_0_l, round_key_chain by done. unfold j at 1. rewrite seqZ_next, map_last by lia.
    rewrite Z.add_0_l. unfold round_key. cbn [map concat]. rewrite app_nil_r.
    replace (4 * Z.of_nat m + 0) with (4 * j - 4) by lia. replace (4 * Z.of_nat m + 1) with (4 * j - 3) by lia.
    replace (4 * Z.of_nat m + 2) with (4 * j - 2) by lia. replace (4 * Z.of_nat m + 3) with (4 * j - 1) by lia.
    rewrite ks_step_chain; [done|]. repeat apply Forall_cons_2; try (by apply Forall_nil);
      apply word_length; (done || lia).
Qed.

(** The flat buffer of the ARM schedule holds the words. *)
Lemma concat_at ws i c : words_ok ws -> 0 <= i < zlen ws -> 0 <= c < 4 -> at_ (concat ws) (i * 4 + c) = at_ (word ws i) c.
Proof.
  intros Hw Hi Hc. unfold zlen in Hi. revert i Hi. induction Hw as [|w ws Hw Hws IH]; intros i Hi; [cbn in Hi; lia|].
  cbn [length] in Hi. cbn [concat]. unfold at_, word in *. destruct (decide (i = 0)) as [->|].
  - rewrite app_nth1 by lia. done.
  - rewrite app_nth2 by lia. rewrite Hw. replace (Z.to_nat i) with (S (Z.to_nat (i - 1))) by lia. cbn [nth].
    rewrite <- IH by lia. f_equal. lia.
Qed.

Lemma concat_length ws : words_ok ws -> zlen (concat ws) = 4 * zlen ws.
Proof.
  intros Hw. induction Hw as [|w ws Hw Hws IH]; [done|]. cbn [concat]. rewrite zlen_app, zlen_cons, IH. unfold zlen at 1. lia.
Qed.

Lemma concat_round_key ws r : words_ok ws -> 0 <= r -> 4 * r + 4 <= zlen ws -> slice (concat ws) (r * 16) 16 = round_key ws r.
Proof.
  intros Hw Hr Hl.
  assert (ws = take (4 * Z.to_nat r) ws ++ drop (4 * Z.to_nat r) ws) as E by by rewrite take_drop.
  assert (zlen (take (4 * Z.to_nat r) ws) = 4 * r) as Ht by (unfold zlen in *; rewrite length_take; lia).
  assert (words_ok (take (4 * Z.to_nat r) ws)) as Hwt by by apply Forall_take.
  assert (words_ok (drop (4 * Z.to_nat r) ws)) as Hwd by by apply Forall_drop.
  assert (4 <= zlen (drop (4 * Z.to_nat r) ws)) as Hd by (unfold zlen in *; rewrite length_drop; lia).
  revert E Ht Hwt Hwd Hd. generalize (take (4 * Z.to_nat r) ws) (drop (4 * Z.to_nat r) ws). intros p q -> Ht Hwt Hwd Hd.
  unfold slice. rewrite concat_app, zdrop_app by (rewrite concat_length, Ht by done; lia).
  destruct q as [|n0 [|n1 [|n2 [|n3 q]]]]; try (rewrite ?zlen_cons, zlen_nil in Hd; lia).
  rewrite (app_assoc p [n0; n1; n2; n3] q : p ++ n0 :: n1 :: n2 :: n3 :: q = _), round_key_app;
    [|done|rewrite zlen_app; change (zlen [n0; n1; n2; n3]) with 4; lia].
  rewrite round_key_new by done. unfold words_ok in Hwd. rewrite !Forall_cons in Hwd. destruct Hwd as (H0 & H1 & H2 & H3 & _).
  change (concat (n0 :: n1 :: n2 :: n3 :: q)) with (n0 ++ n1 ++ n2 ++ n3 ++ concat q).
  replace (n0 ++ n1 ++ n2 ++ n3 ++ concat q) with ((n0 ++ n1 ++ n2 ++ n3) ++ concat q) by by rewrite <- !app_assoc.
  apply ztake_app. unfold zlen. rewrite !length_app. lia.
Qed.

Lemma expand_step nk ws i : words_ok ws -> 0 < nk <= i -> zlen ws = i -> i / nk <= 11 ->
  expand_word nk (concat ws) i = concat (next_word nk ws i).
Proof.
  intros Hw Hnk Hl Hq. unfold expand_word, next_word. rewrite !concat_at by (done || lia). rewrite concat_app. f_equal.
  assert (length (word ws (i - 1)) = 4%nat) as H1 by (apply word_length; [done|lia]).
  assert (length (word ws (i - nk)) = 4%nat) as H2 by (apply word_length; [done|lia]).
  destruct (word4 _ H1) as (a & b & c & d & ->), (word4 _ H2) as (e & f & g & h & ->).
  assert (1 <= i / nk) as Hq1 by (apply Z.div_le_lower_bound; lia).
  assert (at_ kRcon (i / nk - 1) = hd 0 (rcon (i / nk))) as ->.
  { revert Hq1 Hq. generalize (i / nk). intros q ? ?. assert (0 <= q < 12) as Hr by lia. by_range q Hr. }
  rewrite kSbox_fips. destruct (i mod nk =? 0); [|destruct ((6 <? nk) && (i mod nk =? 4))]; cbn [concat app xor_block zip_with at_ nth].
  - unfold sub_bytes. generalize (at_ Sbox). intros F. rewrite rcon_0. cbn. by rewrite !Z.lxor_0_r.
  - unfold sub_bytes. generalize (at_ Sbox). intros F. done.
  - done.
Qed.

Lemma expand_words nk ws a n : words_ok ws -> 0 < nk <= a -> zlen ws = a -> 0 <= n -> (a + n) / nk <= 11 ->
  foldl (expand_word nk) (concat ws) (seqZ a n) = concat (foldl (next_word nk) ws (seqZ a n)).
Proof.
  intros Hw Hnk Hl Hn. revert n Hn. apply (natlike_ind (fun n => (a + n) / nk <= 11 -> _)); [by rewrite seqZ_nil|].
  intros n Hn IH Hq. rewrite <- Z.add_1_r, seqZ_next, !foldl_app by done. cbn [foldl].
  assert ((a + n) / nk <= (a + Z.succ n) / nk) by (apply Z.div_le_mono; lia).
  destruct (key_expansion_ok nk ws a n Hw Hnk Hl Hn) as [Hw' Hl']. rewrite IH by lia. apply expand_step; (done || lia).
Qed.

Lemma slice_next key n : 0 <= n -> ztake (4 * n) key ++ slice key (4 * n) 4 = ztake (4 * (n + 1)) key.
Proof.
  intros Hn. unfold slice, ztake, zdrop. replace (Z.to_nat (4 * (n + 1))) with (Z.to_nat (4 * n) + 4)%nat by lia.
  by rewrite take_take_drop.
Qed.

Lemma key_words_concat nk key : 0 <= nk -> concat (key_words nk key) = ztake (4 * nk) key.
Proof.
  revert nk. apply natlike_ind; [done|]. intros n Hn IH. unfold key_words in *.
  rewrite <- Z.add_1_r, seqZ_next, map_app, concat_app, IH by done. cbn [map concat]. rewrite app_nil_r. by apply slice_next.
Qed.

Lemma ni128_schedule key : zlen key = 16 ->
  keyschedule_128_ni key = map (round_key (key_expansion 4 10 key)) (seqZ 0 11).
Proof. intros Hk. exact (ni128_rounds key 10 Hk (le_n _)). Qed.

Lemma arm_schedule nk key : nk = 4 \/ nk = 8 -> zlen key = 4 * nk ->
  keyschedule_arm nk (nk + 6) key = map (round_key (key_expansion nk (nk + 6) key)) (seqZ 0 (nk + 7)).
Proof.
  intros Hnk Hk. destruct (key_words_ok nk key ltac:(lia) Hk) as [Hw Hl].
  destruct (key_expansion_ok nk _ nk (4 * (nk + 6 + 1) - nk) Hw ltac:(lia) Hl ltac:(lia)) as [Hw' Hl'].
  unfold keyschedule_arm, keyschedule_expand, key_expansion. fold (key_words nk key). rewrite (Z.mul_comm nk 4), <- key_words_concat by lia.
  rewrite expand_words by (try done; by destruct Hnk as [-> | ->]).
  replace (nk + 6 + 1) with (nk + 7) in * by lia. apply map_ext_in. intros r Hr. apply list_elem_of_In, elem_of_seqZ in Hr.
  apply concat_round_key; [done|lia|]. rewrite Hl'. lia.
Qed.

(** The backends whose schedule is that of FIPS 197. *)
Definition fips_backend (t : backend) (nk : Z) : Prop := nk = 4 \/ nk = 8 /\ t = AesArm.

Lemma schedule_fips t nk key : fips_backend t nk -> zlen key = 4 * nk ->
  keyschedule t nk key = map (round_key (key_expansion nk (nk + 6) key)) (seqZ 0 (nk + 7)).
Proof.
  intros [-> | [-> ->]] Hk; [destruct t|].
  - by apply ni128_schedule.
  - apply arm_schedule; [by left|done].
  - apply arm_schedule; [by right|done].
Qed.

(** Block encryption on either backend is the cipher of FIPS 197. *)
Lemma aes_block_fips t nk key block : fips_backend t nk -> zlen key = 4 * nk -> length block = 16%nat ->
  aes_block t (nk + 6) (keyschedule t nk key) block = AES nk key block.
Proof.
  intros Ht Hk Hb. rewrite (schedule_fips t nk key Ht Hk). assert (nk = 4 \/ nk = 8) as Hnk by (destruct Ht as [? | [? ?]]; auto).
  set (ws := key_expansion nk (nk + 6) key). set (ks := map (round_key ws) _).
  assert (forall r, 0 <= r <= nk + 6 -> nth (Z.to_nat r) ks [] = round_key ws r) as Hrk.
  { intros r Hr. apply nth_lookup_Some. unfold ks. rewrite list_lookup_fmap, lookup_seqZ_lt by lia. cbn. rewrite Z2Nat.id by lia. done. }
  destruct (key_words_ok nk key ltac:(lia) Hk) as [Hw Hl].
  destruct (key_expansion_ok nk _ nk (4 * (nk + 6 + 1) - nk) Hw ltac:(lia) Hl ltac:(lia)) as [Hw' Hl'].
  unfold AES. fold ws. destruct t.
  - change (cipher (nk + 6) (fun r => nth (Z.to_nat r) ks []) block = cipher (nk + 6) (round_key ws) block). apply cipher_ext; [lia|done].
  - cbn [aes_block]. rewrite encrypt_block_arm; [apply cipher_ext; [lia|done]|lia|done|].
    intros r Hr. rewrite Hrk by done. apply round_key_length; [done|lia|]. unfold ws, key_expansion. fold (key_words nk key). lia.
Qed.

(** The x86 schedule for eight-word keys: the rounds after the first use nothing of the key
    but its last four bytes, since [key_expand_256a] and [key_expand_256b] start from the
    round key they are to compute, still zero, and not from the one two before it. *)
Theorem ks256_ni_weak key key' : length key = 32%nat -> length key' = 32%nat -> zdrop 28 key = zdrop 28 key' ->
  drop 2 (keyschedule_256_ni key) = drop 2 (keyschedule_256_ni key').
Proof.
  intros Hk Hk'. do 32 (destruct key as [|? key]; [discriminate Hk|]). destruct key; [|discriminate Hk].
  do 32 (destruct key' as [|? key']; [discriminate Hk'|]). destruct key'; [|discriminate Hk'].
  intros [= -> -> -> ->]. unfold keyschedule_256_ni, key_expand_256a, key_expand_256b, aeskeygenassist, sub_bytes.
  generalize (at_ Sbox). intros f. cbv -[Z.lxor]. reflexivity.
Qed.
