(* ===== verification/AesGcm.v ===== *)
(** * AES-GCM: [crypto/aes_gcm.hpp]

    The class [AesGcm] over the block cipher of [Aes]: the hash over GF(2^128), the counter
    mode, sealing and opening; and NIST SP 800-38D, which they implement.  The macros and the
    processor decide the backend: [None] where the code was compiled without either. *)

From S2P Require Import Prelude Aes.
#[local] Open Scope Z_scope.
#[local] Open Scope word_scope.

(** ** The field *)

(** One turn of the loop of [gf_mul128]: the running multiple of [H] and the sum. *)
Definition gf_step (Z0 : bytes) '(v, z) (i : Z) : bytes * bytes :=
  let bit := (at_ Z0 (i >> 3) >> (7 - (i .& 7))) .& 1 in
  let mask := u8 (0 - bit) in
  let z := zip_with (fun z v => z .^ u8 (v .& mask)) z v in
  let lsb := at_ v 15 .& 1 in
  let v := map (fun j => if j =? 0 then (at_ v 0 >> 1) .^ u8 (0xe1 .& u32 (0 - lsb))
                         else u8 ((at_ v j >> 1) .| (at_ v (j - 1) << 7))) (seqZ 0 16) in
  (v, z).

Definition gf_mul128 (Z0 H : bytes) : bytes := snd (foldl (gf_step Z0) (H, replicate 16 0) (seqZ 0 128)).

(** ** The context *)

Record AesGcm := mkGcm { KeyWords : Z; ks_ : list bytes; H_ : bytes }.

Definition kRounds (nk : Z) : Z := if nk =? 4 then 10 else 14.

Definition has_aes_ni (hw : option backend) (cpuid : bool) : bool :=
  match hw with Some AesNi => cpuid | Some AesArm => true | None => false end.

Definition init (t : backend) (nk : Z) (key : bytes) : AesGcm :=
  let ks := keyschedule t nk key in
  mkGcm nk ks (aes_block t (kRounds nk) ks (replicate 16 0)).

Definition create (hw : option backend) (cpuid : bool) (nk : Z) (key : bytes) : result (backend * AesGcm) :=
  match hw with
  | Some t => if has_aes_ni hw cpuid then Ok (t, init t nk key) else Err function_not_supported
  | None => Err function_not_supported
  end.

Definition wipe (g : AesGcm) : AesGcm :=
  mkGcm (KeyWords g) (map (fun k => replicate (length k) 0) (ks_ g)) (replicate (length (H_ g)) 0).

(** From byte [i] down to byte 12, until a byte does not wrap to 0. *)
Fixpoint inc_from (n : nat) (i : Z) (ctr : bytes) : bytes :=
  match n with
  | O => ctr
  | S n =>
      let c := u8 (at_ ctr i + 1) in
      let ctr := <[Z.to_nat i := c]> ctr in
      if negb (c =? 0) then ctr else inc_from n (i - 1) ctr
  end.

Definition inc_counter (ctr : bytes) : bytes := inc_from 4 15 ctr.

Definition compute_j0 (nonce : bytes) : bytes := ztake 12 nonce ++ [0; 0; 0; 1].

Definition ghash_update (g : AesGcm) (acc data : bytes) : bytes :=
  let blocks := zlen data / 16 in
  let remainder := zlen data mod 16 in
  let acc := foldl (fun acc b => gf_mul128 (xor_block acc (slice data (b * 16) 16)) (H_ g)) acc (seqZ 0 blocks) in
  if 0 <? remainder
  then gf_mul128 (xor_block acc (slice data (blocks * 16) remainder ++ replicate (Z.to_nat (16 - remainder)) 0)) (H_ g)
  else acc.

(** The bytes of [dst] after the call. *)
Definition gctr (t : backend) (g : AesGcm) (j0 src dst : bytes) : bytes :=
  let ks_block ctr := aes_block t (kRounds (KeyWords g)) (ks_ g) ctr in
  let blocks := zlen src / 16 in
  let remainder := zlen src mod 16 in
  let '(ctr, out) :=
    foldl (fun '(ctr, out) b => (inc_counter ctr, out ++ xor_block (slice src (b * 16) 16) (ks_block ctr)))
      (inc_counter j0, []) (seqZ 0 blocks) in
  let out := if 0 <? remainder then out ++ xor_block (slice src (blocks * 16) remainder) (ks_block ctr) else out in
  out ++ zdrop (zlen src) dst.

Definition compute_tag (t : backend) (g : AesGcm) (acc : bytes) (aad_len ct_len : Z) (j0 : bytes) : bytes :=
  let aad_bits := u64 (aad_len * 8) in
  let ct_bits := u64 (ct_len * 8) in
  let len_block := map (fun i => u8 (aad_bits >> (i * 8))) [7; 6; 5; 4; 3; 2; 1; 0] ++
                   map (fun i => u8 (ct_bits >> (i * 8))) [7; 6; 5; 4; 3; 2; 1; 0] in
  let acc := gf_mul128 (xor_block acc len_block) (H_ g) in
  xor_block (aes_block t (kRounds (KeyWords g)) (ks_ g) j0) acc.

Definition gcm_tag (t : backend) (g : AesGcm) (j0 aad ciphertext : bytes) : bytes :=
  let acc := ghash_update g (replicate 16 0) aad in
  let acc := ghash_update g acc ciphertext in
  compute_tag t g acc (zlen aad) (zlen ciphertext) j0.

(** The ciphertext buffer and the tag. *)
Definition seal (t : backend) (g : AesGcm) (nonce aad plaintext ciphertext : bytes) : bytes * bytes :=
  let j0 := compute_j0 nonce in
  let ciphertext := gctr t g j0 plaintext ciphertext in
  (ciphertext, gcm_tag t g j0 aad ciphertext).

(** The result and the plaintext buffer. *)
Definition open (t : backend) (g : AesGcm) (nonce aad ciphertext tag plaintext : bytes) : result unit * bytes :=
  let j0 := compute_j0 nonce in
  let expected := gcm_tag t g j0 aad ciphertext in
  if negb (ct_diff expected tag =? 0) then (Err bad_message, plaintext)
  else (Ok tt, gctr t g j0 ciphertext plaintext).

(** ** SP 800-38D *)

(** Algorithm 1, on 128-bit numbers whose highest bit is the coefficient of x^0. *)
Definition R : Z := 0xe1 << 120.

Definition times_x (v : Z) : Z := if Z.odd v then (v >> 1) .^ R else v >> 1.

Definition block_mul (x y : Z) : Z :=
  snd (foldl (fun '(v, z) i => (times_x v, if Z.testbit x (127 - i) then z .^ v else z)) (y, 0) (seqZ 0 128)).

(** Algorithm 2, on the blocks of a string of whole blocks. *)
Definition blocks16 (s : bytes) : list bytes := map (fun b => slice s (b * 16) 16) (seqZ 0 (zlen s / 16)).

Definition GHASH (h : Z) (s : bytes) : Z := foldl (fun y b => block_mul (y .^ be_val b) h) 0 (blocks16 s).

Definition inc32 (cb : bytes) : bytes := ztake 12 cb ++ be_bytes 4 (be_val (zdrop 12 cb) + 1).

(** Algorithm 3: block [b] is enciphered with the counter incremented [b] times. *)
Definition GCTR (ciph : bytes -> bytes) (icb x : bytes) : bytes :=
  concat (map (fun b => xor_block (slice x (b * 16) 16) (ciph (Nat.iter (Z.to_nat b) inc32 icb))) (seqZ 0 ((zlen x + 15) / 16))).

Definition pad16 (s : bytes) : bytes := s ++ replicate (Z.to_nat ((- zlen s) mod 16)) 0.

(** Algorithm 4, with a 96-bit IV and a 128-bit tag. *)
Definition GCM_tag (ciph : bytes -> bytes) (iv a c : bytes) : bytes :=
  let h := be_val (ciph (replicate 16 0)) in
  let s := GHASH h (pad16 a ++ pad16 c ++ be_bytes 8 (8 * zlen a) ++ be_bytes 8 (8 * zlen c)) in
  GCTR ciph (iv ++ [0; 0; 0; 1]) (be_bytes 16 s).

Definition GCM_crypt (ciph : bytes -> bytes) (iv x : bytes) : bytes := GCTR ciph (inc32 (iv ++ [0; 0; 0; 1])) x.

(** ** A known answer: test case 4 of the GCM specification *)

Definition tc_key : bytes :=
  [0xfe; 0xff; 0xe9; 0x92; 0x86; 0x65; 0x73; 0x1c; 0x6d; 0x6a; 0x8f; 0x94; 0x67; 0x30; 0x83; 0x08].
Definition tc_iv : bytes :=
  [0xca; 0xfe; 0xba; 0xbe; 0xfa; 0xce; 0xdb; 0xad; 0xde; 0xca; 0xf8; 0x88].
Definition tc_plain : bytes :=
  [0xd9; 0x31; 0x32; 0x25; 0xf8; 0x84; 0x06; 0xe5; 0xa5; 0x59; 0x09; 0xc5; 0xaf; 0xf5; 0x26; 0x9a; 0x86; 0xa7;
   0xa9; 0x53; 0x15; 0x34; 0xf7; 0xda; 0x2e; 0x4c; 0x30; 0x3d; 0x8a; 0x31; 0x8a; 0x72; 0x1c; 0x3c; 0x0c; 0x95;
   0x95; 0x68; 0x09; 0x53; 0x2f; 0xcf; 0x0e; 0x24; 0x49; 0xa6; 0xb5; 0x25; 0xb1; 0x6a; 0xed; 0xf5; 0xaa; 0x0d;
   0xe6; 0x57; 0xba; 0x63; 0x7b; 0x39].
Definition tc_aad : bytes :=
  [0xfe; 0xed; 0xfa; 0xce; 0xde; 0xad; 0xbe; 0xef; 0xfe; 0xed; 0xfa; 0xce; 0xde; 0xad; 0xbe; 0xef; 0xab; 0xad;
   0xda; 0xd2].
Definition tc_cipher : bytes :=
  [0x42; 0x83; 0x1e; 0xc2; 0x21; 0x77; 0x74; 0x24; 0x4b; 0x72; 0x21; 0xb7; 0x84; 0xd0; 0xd4; 0x9c; 0xe3; 0xaa;
   0x21; 0x2f; 0x2c; 0x02; 0xa4; 0xe0; 0x35; 0xc1; 0x7e; 0x23; 0x29; 0xac; 0xa1; 0x2e; 0x21; 0xd5; 0x14; 0xb2;
   0x54; 0x66; 0x93; 0x1c; 0x7d; 0x8f; 0x6a; 0x5a; 0xac; 0x84; 0xaa; 0x05; 0x1b; 0xa3; 0x0b; 0x39; 0x6a; 0x0a;
   0xac; 0x97; 0x3d; 0x58; 0xe0; 0x91].
Definition tc_tag : bytes :=
  [0x5b; 0xc9; 0x4f; 0xbc; 0x32; 0x21; 0xa5; 0xdb; 0x94; 0xfa; 0xe9; 0x5a; 0xe7; 0x12; 0x1a; 0x47].

Example gcm_test_case_4 :
  GCM_crypt (AES 4 tc_key) tc_iv tc_plain = tc_cipher /\ GCM_tag (AES 4 tc_key) tc_iv tc_aad tc_cipher = tc_tag.
Proof. split; vm_compute; reflexivity. Qed.

(** ** Blocks as numbers *)

Lemma lxor_parts n x y a b : 0 <= n -> in_range n a -> in_range n b ->
  (x * 2 ^ n + a) .^ (y * 2 ^ n + b) = (x .^ y) * 2 ^ n + (a .^ b).
Proof.
  intros Hn Ha Hb. pose proof (lxor_range n a b Hn Ha Hb) as Hc. rewrite <- !lor_shiftl_add by done. apply Z.bits_inj'. intros i Hi.
  rewrite Z.lxor_spec, !Z.lor_spec, !Z.shiftl_spec, !Z.lxor_spec by done. destruct (decide (i < n)) as [Hlt|Hge].
  - rewrite !(Z.testbit_neg_r _ (i - n)) by lia. done.
  - rewrite (range_testbit n a), (range_testbit n b) by (done || lia). by rewrite !orb_false_r.
Qed.

Lemma pow256 n : 0 <= n -> 256 ^ n = 2 ^ (8 * n).
Proof. intros Hn. by rewrite Z.pow_mul_r by lia. Qed.

Lemma be_val_in_range bs : all_bytes bs -> in_range (8 * zlen bs) (be_val bs).
Proof. intros Hb. unfold in_range. rewrite <- pow256 by apply zlen_nonneg. by apply be_val_range. Qed.

Lemma be_val_xor a b : all_bytes a -> all_bytes b -> length a = length b -> be_val (xor_block a b) = be_val a .^ be_val b.
Proof.
  intros Ha. revert b. induction Ha as [|x a Hx Ha IH]; intros [|y b] Hb Hl; try done. inversion Hb as [|? ? Hy Hb']; subst.
  injection Hl as Hl. unfold xor_block. cbn [zip_with]. fold (xor_block a b). rewrite !be_val_cons, IH by done.
  assert (zlen b = zlen a) as Eb by (unfold zlen; lia). assert (zlen (xor_block a b) = zlen a) as Ex.
  { unfold zlen. rewrite (xor_block_length a b (length a)); lia. }
  rewrite Eb, Ex, pow256 by apply zlen_nonneg. symmetry. apply lxor_parts; [pose proof (zlen_nonneg a); lia|by apply be_val_in_range|].
  rewrite <- Eb. by apply be_val_in_range.
Qed.

Lemma xor_block_bytes a b : all_bytes a -> all_bytes b -> all_bytes (xor_block a b).
Proof.
  intros Ha. revert b. induction Ha as [|x a Hx Ha IH]; intros [|y b] Hb; try constructor.
  - inversion Hb; subst. by apply lxor_range.
  - inversion Hb; subst. by apply IH.
Qed.

(** Shifting the bytes one bit to the right, with a bit coming in from [c]. *)
Fixpoint shr_bytes (c : Z) (v : bytes) : bytes :=
  match v with
  | [] => []
  | b :: v => u8 ((b >> 1) .| (c << 7)) :: shr_bytes b v
  end.

Lemma shr_byte b c : is_byte b -> is_byte c -> u8 ((b >> 1) .| (c << 7)) = (c mod 2) * 128 + b / 2.
Proof.
  intros Hb Hc. rewrite Z.lor_comm, Z.shiftr_div_pow2 by lia. change (2 ^ 1) with 2.
  rewrite lor_shiftl_add by (lia || (unfold in_range in *; change (2 ^ 7) with 128; change (2 ^ 8) with 256 in *; split;
    [apply Z.div_pos; lia|apply Z.div_lt_upper_bound; lia])).
  unfold wrap, in_range in *. change (2 ^ 8) with 256 in *. change (2 ^ 7) with 128.
  assert (0 <= b / 2 < 128) by (split; [apply Z.div_pos; lia|apply Z.div_lt_upper_bound; lia]).
  pose proof (Z.div_mod c 2 ltac:(lia)). pose proof (Z.mod_pos_bound c 2 ltac:(lia)).
  replace (c * 128 + b / 2) with ((c mod 2 * 128 + b / 2) + (c / 2) * 256) by lia. rewrite Z_mod_plus_full. apply Z.mod_small. lia.
Qed.

Lemma shr_bytes_val v c : is_byte c -> all_bytes v ->
  be_val (shr_bytes c v) = ((c mod 2) * 256 ^ zlen v + be_val v) / 2 /\ all_bytes (shr_bytes c v) /\ length (shr_bytes c v) = length v.
Proof.
  intros Hc Hv. revert c Hc. induction Hv as [|b v Hb Hv IH]; intros c Hc.
  - cbn. rewrite Z.add_0_r, Z.mul_1_r. split; [|by split; constructor]. pose proof (Z.mod_pos_bound c 2 ltac:(lia)). symmetry. apply Z.div_small. lia.
  - destruct (IH b Hb) as (E & Hall & Hl). cbn [shr_bytes]. split_and!.
    + rewrite !be_val_cons, E, shr_byte by done. assert (zlen (shr_bytes b v) = zlen v) as -> by (unfold zlen; lia).
      replace (zlen (b :: v)) with (Z.succ (zlen v)) by (rewrite zlen_cons; lia). rewrite Z.pow_succ_r by apply zlen_nonneg.
      pose proof (Z.div_mod b 2 ltac:(lia)) as Hd. set (p := 256 ^ zlen v).
      replace (c mod 2 * (256 * p) + (b * p + be_val v)) with ((b mod 2 * p + be_val v) + ((c mod 2 * 128 + b / 2) * p) * 2) by nia.
      rewrite Z_div_plus_full by lia. lia.
    + constructor; [apply wrap_range; lia|done].
    + cbn. lia.
Qed.

Lemma be_val_testbit s k : all_bytes s -> 0 <= k < 8 * zlen s ->
  Z.testbit (be_val s) k = Z.testbit (at_ s (zlen s - 1 - k / 8)) (k mod 8).
Proof.
  intros Hs. revert k. induction Hs as [|x s Hx Hs IH]; intros k Hk; [rewrite zlen_nil in Hk; lia|].
  rewrite zlen_cons in *. pose proof (zlen_nonneg s). rewrite be_val_cons, pow256, <- lor_shiftl_add, Z.lor_spec, Z.shiftl_spec
    by (lia || by apply be_val_in_range).
  destruct (decide (k < 8 * zlen s)) as [Hlt|Hge].
  - rewrite (Z.testbit_neg_r _ (k - _)) by lia. cbn [orb]. rewrite IH by lia. f_equal.
    assert (k / 8 < zlen s) by (apply Z.div_lt_upper_bound; lia). assert (0 <= k / 8) by (apply Z.div_pos; lia).
    unfold at_. replace (Z.to_nat (zlen s + 1 - 1 - k / 8)) with (S (Z.to_nat (zlen s - 1 - k / 8))) by lia. done.
  - rewrite (range_testbit _ (be_val s) k (be_val_in_range s Hs)), orb_false_r by lia.
    assert (k / 8 = zlen s) as -> by (symmetry; apply (Z.div_unique k 8 (zlen s) (k - 8 * zlen s)); lia).
    assert (k mod 8 = k - 8 * zlen s) as -> by (symmetry; apply (Z.mod_unique k 8 (zlen s)); lia).
    replace (zlen s + 1 - 1 - zlen s) with 0 by lia. done.
Qed.

Lemma bit_of z : z .& 1 = Z.b2z (Z.testbit z 0).
Proof. rewrite Z.bit0_odd. change 1 with (Z.ones 1). rewrite Z.land_ones by lia. change (2 ^ 1) with 2. by rewrite Zmod_odd; destruct (Z.odd z). Qed.

Lemma selected_bit s i : all_bytes s -> zlen s = 16 -> 0 <= i < 128 ->
  (at_ s (i >> 3) >> (7 - (i .& 7))) .& 1 = Z.b2z (Z.testbit (be_val s) (127 - i)).
Proof.
  intros Hs Hl Hi. rewrite be_val_testbit, Hl by (done || lia). rewrite bit_of, Z.shiftr_spec by lia. do 2 f_equal.
  - f_equal. rewrite Z.shiftr_div_pow2 by lia. change (2 ^ 3) with 8. pose proof (Z.div_mod i 8 ltac:(lia)). pose proof (Z.mod_pos_bound i 8 ltac:(lia)).
    assert ((127 - i) / 8 = 15 - i / 8) as ->; [|lia]. symmetry. apply (Z.div_unique _ _ _ (7 - i mod 8)); lia.
  - rewrite (land_mask 3 i ltac:(lia) : i .& 7 = i mod 8). pose proof (Z.div_mod i 8 ltac:(lia)). pose proof (Z.mod_pos_bound i 8 ltac:(lia)).
    rewrite Z.add_0_l. apply (Z.mod_unique _ _ (15 - i / 8)); lia.
Qed.

(** A block: sixteen bytes. *)
Definition block_ok (v : bytes) : Prop := all_bytes v /\ length v = 16%nat.

Lemma xor_block_ok a b : block_ok a -> block_ok b -> block_ok (xor_block a b).
Proof. intros [] []. split; [by apply xor_block_bytes|by apply xor_block_length]. Qed.

Lemma block_val v : block_ok v -> in_range 128 (be_val v).
Proof. intros [Hv Hl]. pose proof (be_val_in_range v Hv) as H. unfold zlen in H. by rewrite Hl in H. Qed.

Lemma masked_byte b (m : bool) : is_byte b -> u8 (b .& u8 (0 - Z.b2z m)) = if m then b else 0.
Proof.
  intros Hb. destruct m; cbn [Z.b2z].
  - change (u8 (0 - 1)) with 255. rewrite (land_mask 8 b ltac:(lia) : b .& 255 = b mod 2 ^ 8). rewrite Z.mod_small by exact Hb. by apply wrap_small.
  - change (u8 (0 - 0)) with 0. by rewrite Z.land_0_r.
Qed.

Lemma masked_sum z v (m : bool) : all_bytes v -> length z = length v ->
  zip_with (fun z v => z .^ u8 (v .& u8 (0 - Z.b2z m))) z v = if m then xor_block z v else z.
Proof.
  intros Hv. revert z. induction Hv as [|x v Hx Hv IH]; intros [|y z] Hl; [by destruct m|done..|]. injection Hl as Hl.
  cbn [zip_with]. rewrite masked_byte, IH by done. destruct m; [done|]. by rewrite Z.lxor_0_r.
Qed.

Lemma lsb_odd v : block_ok v -> at_ v 15 .& 1 = Z.b2z (Z.odd (be_val v)).
Proof.
  intros [Hv Hl]. rewrite bit_of, <- (Z.bit0_odd (be_val v)), be_val_testbit by (done || (unfold zlen; lia)).
  unfold zlen. rewrite Hl. done.
Qed.

(** The shift of the code, byte by byte, is multiplication by x. *)
Lemma shift_times_x v : block_ok v ->
  let v' := map (fun j => if j =? 0 then (at_ v 0 >> 1) .^ u8 (0xe1 .& u32 (0 - (at_ v 15 .& 1)))
                          else u8 ((at_ v j >> 1) .| (at_ v (j - 1) << 7))) (seqZ 0 16) in
  block_ok v' /\ be_val v' = times_x (be_val v).
Proof.
  intros Hv. rewrite lsb_odd by done. set (o := Z.odd (be_val v)). cbn zeta. set (c := u8 (0xe1 .& u32 (0 - Z.b2z o))).
  destruct (shr_bytes_val v 0 ltac:(done) (proj1 Hv)) as (E & Hb & Hl). set (v' := map _ _).
  assert (c = if o then 0xe1 else 0) as Hc by by destruct o.
  assert (block_ok (c :: replicate 15 0)) as Hcb.
  { split; [|done]. rewrite Hc. apply (bool_decide_unpack _). by destruct o. }
  assert (v' = xor_block (shr_bytes 0 v) (c :: replicate 15 0)) as ->.
  { destruct Hv as [Hv Hlen]. unfold v'. clear v' E Hb Hl Hcb. clearbody c. clear Hc.
    change (seqZ 0 16) with [0; 1; 2; 3; 4; 5; 6; 7; 8; 9; 10; 11; 12; 13; 14; 15].
    do 16 (destruct v as [|? v]; [discriminate Hlen|]). destruct v; [|discriminate Hlen]. inversion Hv as [|? ? H0 _]; subst.
    cbn -[Z.lxor Z.shiftr Z.shiftl Z.lor wrap]. rewrite ?Z.lxor_0_r. f_equal. f_equal. rewrite Z.shiftl_0_l, Z.lor_0_r.
    symmetry. apply wrap_small. rewrite Z.shiftr_div_pow2 by lia. unfold in_range in *. change (2 ^ 8) with 256 in *. change (2 ^ 1) with 2.
    change (Z.to_nat 0) with 0%nat. cbn iota. split; [apply Z.div_pos; lia|apply Z.div_lt_upper_bound; lia]. }
  assert (block_ok (shr_bytes 0 v)) as Hsb by (split; [done|rewrite Hl; apply Hv]).
  split; [by apply xor_block_ok|]. rewrite be_val_xor by (apply Hsb || apply Hcb || (rewrite (proj2 Hsb); done)).
  rewrite E, Z.mul_0_l, Z.add_0_l. unfold times_x. fold o. rewrite Z.shiftr_div_pow2 by lia. change (2 ^ 1) with 2. rewrite Hc.
  destruct o; [done|]. change (be_val (0 :: replicate 15 0)) with 0. apply Z.lxor_0_r.
Qed.

(** [gf_mul128] is Algorithm 1. *)
Lemma gf_mul128_val x y : block_ok x -> block_ok y ->
  block_ok (gf_mul128 x y) /\ be_val (gf_mul128 x y) = block_mul (be_val x) (be_val y).
Proof.
  intros Hx Hy. unfold gf_mul128, block_mul.
  assert (forall l v z, Forall (fun i => 0 <= i < 128) l -> block_ok v -> block_ok z ->
    let r := foldl (gf_step x) (v, z) l in
    block_ok (snd r) /\
    be_val (snd r) = snd (foldl (fun '(v, z) i => (times_x v, if Z.testbit (be_val x) (127 - i) then z .^ v else z)) (be_val v, be_val z) l)) as H.
  { induction l as [|i l IH]; intros v z Hl Hv Hz; [done|]. inversion Hl as [|? ? Hi Hl']; subst. cbn [foldl].
    destruct (shift_times_x v Hv) as [Hv' Ev]. set (v' := map _ _) in *.
    assert (gf_step x (v, z) i = (v', if Z.testbit (be_val x) (127 - i) then xor_block z v else z)) as ->.
    { unfold gf_step. rewrite selected_bit by (apply Hx || done || (unfold zlen; rewrite (proj2 Hx); done)).
      rewrite masked_sum by (apply Hv || (rewrite (proj2 Hz), (proj2 Hv); done)). done. }
    rewrite <- Ev. destruct (Z.testbit _ _).
    - rewrite <- be_val_xor by (apply Hz || apply Hv || (rewrite (proj2 Hz), (proj2 Hv); done)). apply IH; [done..|by apply xor_block_ok].
    - by apply IH. }
  apply (H (seqZ 0 128) y (replicate 16 0)); [|done|by apply (bool_decide_unpack _)].
  apply Forall_forall. intros i Hi. apply elem_of_seqZ in Hi. lia.
Qed.

(** The counter: its last four bytes, with the carry from the last one. *)
Definition inc4 (a b c d : Z) : bytes :=
  if negb (u8 (d + 1) =? 0) then [a; b; c; u8 (d + 1)]
  else if negb (u8 (c + 1) =? 0) then [a; b; u8 (c + 1); u8 (d + 1)]
  else if negb (u8 (b + 1) =? 0) then [a; u8 (b + 1); u8 (c + 1); u8 (d + 1)]
  else [u8 (a + 1); u8 (b + 1); u8 (c + 1); u8 (d + 1)].

Lemma byte_inc b : is_byte b -> b = 255 /\ u8 (b + 1) = 0 \/ u8 (b + 1) = b + 1 /\ is_byte (b + 1) /\ (b + 1 =? 0) = false.
Proof.
  intros Hb. destruct (decide (b = 255)) as [->|]; [by left|]. right. assert (is_byte (b + 1)) as Hr by rlia.
  rewrite wrap_small by done. split_and!; [done..|]. apply Z.eqb_neq. rlia.
Qed.

Lemma be_val_4 a b c d : be_val [a; b; c; d] = ((a * 256 + b) * 256 + c) * 256 + d.
Proof. reflexivity. Qed.

Lemma inc4_val a b c d : all_bytes [a; b; c; d] -> be_bytes 4 (be_val [a; b; c; d] + 1) = inc4 a b c d.
Proof.
  intros H. assert (forall l, all_bytes l -> length l = 4%nat -> be_val [a; b; c; d] + 1 = be_val l -> be_bytes 4 (be_val [a; b; c; d] + 1) = l) as Hl.
  { intros l Hl Hn ->. rewrite <- Hn. by apply be_bytes_be_val. }
  rewrite !Forall_cons in H. destruct H as (Ha & Hb & Hc & Hd & _). unfold inc4. assert (is_byte 0) as H0 by done.
  destruct (byte_inc d Hd) as [[-> ->]|(-> & ? & ->)]; cbn [negb Z.eqb].
  2: { apply Hl; [repeat (apply Forall_cons_2; [done|]); by apply Forall_nil|done|rewrite !be_val_4; lia]. }
  destruct (byte_inc c Hc) as [[-> ->]|(-> & ? & ->)]; cbn [negb Z.eqb].
  2: { apply Hl; [repeat (apply Forall_cons_2; [done|]); by apply Forall_nil|done|rewrite !be_val_4; lia]. }
  destruct (byte_inc b Hb) as [[-> ->]|(-> & ? & ->)]; cbn [negb Z.eqb].
  2: { apply Hl; [repeat (apply Forall_cons_2; [done|]); by apply Forall_nil|done|rewrite !be_val_4; lia]. }
  destruct (byte_inc a Ha) as [[-> ->]|(-> & ? & _)]; [by vm_compute|].
  apply Hl; [repeat (apply Forall_cons_2; [done|]); by apply Forall_nil|done|rewrite !be_val_4; lia].
Qed.

Lemma inc_counter_inc32 ctr : block_ok ctr -> inc_counter ctr = inc32 ctr /\ block_ok (inc32 ctr).
Proof.
  intros [Hb Hl]. split.
  - do 16 (destruct ctr as [|? ctr]; [discriminate Hl|]). destruct ctr; [|discriminate Hl]. unfold inc32.
    change (zdrop 12 _) with [z11; z12; z13; z14]. rewrite inc4_val by (by do 12 apply Forall_inv_tail in Hb).
    unfold inc4, inc_counter. cbn [inc_from]. change (15 - 1) with 14. change (14 - 1) with 13. change (13 - 1) with 12.
    cbv -[wrap Z.add Z.eqb]. by repeat case_match.
  - unfold inc32. split; [apply Forall_app_2; [by apply Forall_ztake|apply be_bytes_range]|].
    rewrite length_app, length_be_bytes. unfold ztake. rewrite length_take, Hl. done.
Qed.

Lemma gf_step_length x v z i : length v = 16%nat -> length z = 16%nat ->
  length (fst (gf_step x (v, z) i)) = 16%nat /\ length (snd (gf_step x (v, z) i)) = 16%nat.
Proof. intros Hv Hz. unfold gf_step. cbn [fst snd]. rewrite length_map, length_seqZ, length_zip_with. lia. Qed.

Lemma gf_steps_length x l v z : length v = 16%nat -> length z = 16%nat -> length (snd (foldl (gf_step x) (v, z) l)) = 16%nat.
Proof.
  revert v z. induction l as [|i l IH]; intros v z Hv Hz; [done|]. cbn [foldl]. destruct (gf_step_length x v z i Hv Hz) as [H1 H2].
  destruct (gf_step x (v, z) i) as [v' z']. by apply IH.
Qed.

Lemma gf_mul128_length x y : length y = 16%nat -> length (gf_mul128 x y) = 16%nat.
Proof. intros Hy. unfold gf_mul128. apply gf_steps_length; [exact Hy|reflexivity]. Qed.

(** ** GHASH *)

#[local] Opaque gf_mul128 block_mul.

Lemma slice_app_l a b i n : 0 <= i -> 0 <= n -> i + n <= zlen a -> slice (a ++ b) i n = slice a i n.
Proof.
  intros Hi Hn Hl. unfold slice. rewrite zdrop_app_le by lia. apply ztake_app_le. rewrite zlen_zdrop by lia. lia.
Qed.

Lemma slice_app_r a b i n : 0 <= i -> slice (a ++ b) (zlen a + i) n = slice b i n.
Proof. intros Hi. unfold slice. f_equal. rewrite zdrop_app_ge by lia. f_equal. lia. Qed.

Lemma slice_bytes s i n : all_bytes s -> all_bytes (slice s i n).
Proof. intros Hs. apply Forall_ztake. by apply Forall_zdrop. Qed.

Lemma slice_length s i n : 0 <= i -> 0 <= n -> i + n <= zlen s -> length (slice s i n) = Z.to_nat n.
Proof. intros Hi Hn Hl. unfold slice, ztake, zdrop, zlen in *. rewrite length_take, length_drop. lia. Qed.

Definition absorb (h y : Z) (b : bytes) : Z := block_mul (y .^ be_val b) h.

Lemma ghash_list H acc bs : block_ok H -> block_ok acc -> Forall block_ok bs ->
  let r := foldl (fun acc b => gf_mul128 (xor_block acc b) H) acc bs in
  block_ok r /\ be_val r = foldl (absorb (be_val H)) (be_val acc) bs.
Proof.
  intros HH Ha Hbs. revert acc Ha. induction Hbs as [|b bs Hb Hbs IH]; intros acc Ha; [done|]. cbn [foldl].
  destruct (gf_mul128_val (xor_block acc b) H) as [H1 H2]; [by apply xor_block_ok|done|].
  destruct (IH _ H1) as [I1 I2]. split; [done|]. rewrite I2, H2. unfold absorb at 3.
  rewrite be_val_xor; [done|apply Ha|apply Hb|]. by rewrite (proj2 Ha), (proj2 Hb).
Qed.

Lemma blocks16_pad s :
  blocks16 (pad16 s) =
  map (fun b => slice s (b * 16) 16) (seqZ 0 (zlen s / 16)) ++
  if 0 <? zlen s mod 16 then [slice s (zlen s / 16 * 16) (zlen s mod 16) ++ replicate (Z.to_nat (16 - zlen s mod 16)) 0] else [].
Proof.
  pose proof (Z.div_mod (zlen s) 16 ltac:(lia)) as Hd. pose proof (Z.mod_pos_bound (zlen s) 16 ltac:(lia)) as Hm.
  pose proof (zlen_nonneg s) as Hs. set (q := zlen s / 16) in *. set (r := zlen s mod 16) in *. assert (0 <= q) by lia.
  unfold blocks16, pad16. destruct (Z.ltb_spec 0 r) as [Hr|Hr].
  - assert ((- zlen s) mod 16 = 16 - r) as ->. { symmetry. apply (Z.mod_unique _ _ (- q - 1)); lia. }
    rewrite zlen_app, zlen_replicate. replace (zlen s + Z.of_nat (Z.to_nat (16 - r))) with ((q + 1) * 16) by lia.
    rewrite Z.div_mul, seqZ_next, map_app by lia. f_equal.
    + apply map_ext_in. intros b Hb. apply list_elem_of_In, elem_of_seqZ in Hb. apply slice_app_l; lia.
    + cbn [map]. f_equal. unfold slice. rewrite Z.add_0_l, zdrop_app_le by lia.
      rewrite (ztake_all r) by (rewrite zlen_zdrop by lia; lia). rewrite ztake_all; [done|].
      rewrite zlen_app, zlen_replicate, zlen_zdrop by lia. lia.
  - assert (r = 0) as Er by lia. assert ((- zlen s) mod 16 = 0) as -> by (symmetry; apply (Z.mod_unique _ _ (- q)); lia).
    cbn [replicate Z.to_nat]. rewrite !app_nil_r. done.
Qed.

Lemma zlen_pad16 s : zlen (pad16 s) mod 16 = 0.
Proof.
  unfold pad16. rewrite zlen_app, zlen_replicate, Z2Nat.id by (apply Z.mod_pos_bound; lia).
  rewrite Zplus_mod_idemp_r, Z.add_opp_diag_r. done.
Qed.

Lemma pad16_blocks s : all_bytes s -> Forall block_ok (blocks16 (pad16 s)).
Proof.
  intros Hs. assert (all_bytes (pad16 s)) as Hp by (apply Forall_app_2; [done|]; by apply Forall_replicate).
  unfold blocks16. apply Forall_map, Forall_forall. intros b Hb. apply elem_of_seqZ in Hb. split; [by apply slice_bytes|].
  rewrite slice_length; [done|lia..|]. pose proof (Z.div_mod (zlen (pad16 s)) 16 ltac:(lia)). rewrite zlen_pad16 in *. lia.
Qed.

Lemma foldl_map {A B C} (f : A -> B -> A) (g : C -> B) a l : foldl f a (map g l) = foldl (fun a c => f a (g c)) a l.
Proof. revert a. induction l as [|c l IH]; intros a; [done|]. cbn. apply IH. Qed.

(** [ghash_update] absorbs the blocks of the padded string. *)
Lemma ghash_update_val g acc s : block_ok (H_ g) -> block_ok acc -> all_bytes s ->
  block_ok (ghash_update g acc s) /\
  be_val (ghash_update g acc s) = foldl (absorb (be_val (H_ g))) (be_val acc) (blocks16 (pad16 s)).
Proof.
  intros HH Ha Hs. rewrite <- (proj2 (ghash_list (H_ g) acc _ HH Ha (pad16_blocks s Hs))).
  assert (ghash_update g acc s = foldl (fun acc b => gf_mul128 (xor_block acc b) (H_ g)) acc (blocks16 (pad16 s))) as ->.
  { rewrite blocks16_pad, foldl_app, foldl_map. unfold ghash_update. by destruct (0 <? _). }
  split; [|done]. by apply ghash_list; [..|apply pad16_blocks].
Qed.

Lemma seqZ_shift a n : seqZ a n = map (Z.add a) (seqZ 0 n).
Proof. change (seqZ a n = Z.add a <$> seqZ 0 n). by rewrite fmap_add_seqZ, Z.add_0_r. Qed.

Lemma blocks16_app s s' : zlen s mod 16 = 0 -> blocks16 (s ++ s') = blocks16 s ++ blocks16 s'.
Proof.
  intros Hm. pose proof (Z.div_mod (zlen s) 16 ltac:(lia)) as Hd. rewrite Hm, Z.add_0_r in Hd. set (q := zlen s / 16) in *.
  pose proof (zlen_nonneg s). pose proof (zlen_nonneg s'). unfold blocks16. fold q. rewrite zlen_app.
  assert ((zlen s + zlen s') / 16 = q + zlen s' / 16) as ->.
  { replace (zlen s + zlen s') with (zlen s' + q * 16) by lia. rewrite Z_div_plus_full by lia. lia. }
  rewrite seqZ_app, map_app, Z.add_0_l by (lia || (apply Z.div_pos; lia)). f_equal.
  - apply map_ext_in. intros b Hb. apply list_elem_of_In, elem_of_seqZ in Hb. apply slice_app_l; lia.
  - rewrite (seqZ_shift q), map_map. apply map_ext_in. intros b Hb. apply list_elem_of_In, elem_of_seqZ in Hb.
    replace ((q + b) * 16) with (zlen s + b * 16) by lia. apply slice_app_r. lia.
Qed.

Lemma blocks16_one b : length b = 16%nat -> blocks16 b = [b].
Proof.
  intros Hb. unfold blocks16. assert (zlen b = 16) as E by (unfold zlen; lia). rewrite E. change (seqZ 0 (16 / 16)) with [0]. cbn [map].
  f_equal. unfold slice. change (zdrop (0 * 16) b) with b. apply ztake_all. lia.
Qed.

(** ** Counter mode *)

Lemma iter_block_ok n cb : block_ok cb -> block_ok (Nat.iter n inc32 cb).
Proof. intros Hc. induction n as [|n IH]; [done|]. cbn. by apply inc_counter_inc32. Qed.

Lemma gctr_loop (ciph : bytes -> bytes) cb x n : block_ok cb -> 0 <= n ->
  foldl (fun '(ctr, out) b => (inc_counter ctr, out ++ xor_block (slice x (b * 16) 16) (ciph ctr))) (cb, []) (seqZ 0 n) =
  (Nat.iter (Z.to_nat n) inc32 cb,
   concat (map (fun b => xor_block (slice x (b * 16) 16) (ciph (Nat.iter (Z.to_nat b) inc32 cb))) (seqZ 0 n))).
Proof.
  intros Hc. revert n. apply natlike_ind; [done|]. intros n Hn IH. rewrite <- Z.add_1_r, seqZ_next, foldl_app, IH by done. cbn [foldl].
  rewrite (proj1 (inc_counter_inc32 _ (iter_block_ok _ _ Hc))), map_app, concat_app, Z.add_0_l. cbn [map concat]. rewrite app_nil_r.
  by replace (Z.to_nat (n + 1)) with (S (Z.to_nat n)) by lia.
Qed.

Lemma gctr_GCTR t g j0 src dst : block_ok j0 ->
  gctr t g j0 src dst = GCTR (aes_block t (kRounds (KeyWords g)) (ks_ g)) (inc32 j0) src ++ zdrop (zlen src) dst.
Proof.
  intros Hj. destruct (inc_counter_inc32 j0 Hj) as [Ej Hj']. unfold gctr, GCTR. rewrite Ej.
  pose proof (Z.div_mod (zlen src) 16 ltac:(lia)) as Hd. pose proof (Z.mod_pos_bound (zlen src) 16 ltac:(lia)) as Hm.
  pose proof (zlen_nonneg src) as Hs. set (q := zlen src / 16) in *. set (r := zlen src mod 16) in *. assert (0 <= q) by lia.
  rewrite gctr_loop by done. f_equal. destruct (Z.ltb_spec 0 r) as [Hr|Hr].
  - assert ((zlen src + 15) / 16 = q + 1) as -> by (symmetry; apply (Z.div_unique _ _ _ (r - 1)); lia).
    rewrite seqZ_next, map_app, concat_app by lia. f_equal. cbn [map concat]. rewrite app_nil_r, Z.add_0_l. f_equal.
    unfold slice. rewrite !ztake_all by (rewrite zlen_zdrop by lia; lia). done.
  - assert ((zlen src + 15) / 16 = q) as -> by (symmetry; apply (Z.div_unique _ _ _ 15); lia). done.
Qed.

(** ** The tag *)

Lemma length_field n : map (fun i => u8 (u64 n >> (i * 8))) [7; 6; 5; 4; 3; 2; 1; 0] = be_bytes 8 n.
Proof.
  assert (forall i, 0 <= i <= 7 -> u8 (u64 n >> (i * 8)) = (n >> (8 * i)) .& 0xFF) as H.
  { intros i Hi. apply Z.bits_inj'. intros k Hk. unfold wrap. rewrite <- !Z.land_ones by lia. change 0xFF with (Z.ones 8).
    rewrite !Z.land_spec, !Z.shiftr_spec, Z.land_spec by lia. rewrite (Z.mul_comm i 8).
    destruct (decide (k < 8)); [|by rewrite (Z.ones_spec_high 8), !andb_false_r by lia].
    rewrite (Z.ones_spec_low 64) by lia. by rewrite andb_true_r. }
  cbn [map be_bytes]. rewrite !H by lia. reflexivity.
Qed.

Lemma xor_block_comm a b : xor_block a b = xor_block b a.
Proof. revert b. induction a as [|x a IH]; intros [|y b]; try done. unfold xor_block in *. cbn. by rewrite IH, Z.lxor_comm. Qed.

Lemma zero_block : block_ok (replicate 16 0).
Proof. by apply (bool_decide_unpack _). Qed.

Lemma j0_ok iv : all_bytes iv -> zlen iv = 12 -> compute_j0 iv = iv ++ [0; 0; 0; 1] /\ block_ok (compute_j0 iv).
Proof.
  intros Hb Hl. unfold compute_j0. rewrite ztake_all by lia. split; [done|]. split.
  - apply Forall_app_2; [done|]. by apply (bool_decide_unpack _).
  - rewrite length_app. unfold zlen in Hl. cbn. lia.
Qed.

Lemma GCTR_one ciph cb x : length x = 16%nat -> GCTR ciph cb x = xor_block x (ciph cb).
Proof.
  intros Hx. unfold GCTR. assert (zlen x = 16) as E by (unfold zlen; lia). rewrite E. change (seqZ 0 ((16 + 15) / 16)) with [0].
  cbn [map concat]. rewrite app_nil_r. f_equal. unfold slice. change (zdrop (0 * 16) x) with x. apply ztake_all. lia.
Qed.

Lemma gcm_tag_spec t g iv aad ct : all_bytes iv -> zlen iv = 12 -> all_bytes aad -> all_bytes ct ->
  let ciph := aes_block t (kRounds (KeyWords g)) (ks_ g) in
  (forall b, block_ok b -> block_ok (ciph b)) -> H_ g = ciph (replicate 16 0) ->
  gcm_tag t g (compute_j0 iv) aad ct = GCM_tag ciph iv aad ct /\ length (gcm_tag t g (compute_j0 iv) aad ct) = 16%nat.
Proof.
  intros Hiv Hl Ha Hc ciph Hciph HH. destruct (j0_ok iv Hiv Hl) as [Ej Hj]. pose proof (Hciph _ zero_block) as Hh. rewrite <- HH in Hh.
  set (len := be_bytes 8 (8 * zlen aad) ++ be_bytes 8 (8 * zlen ct)).
  assert (block_ok len) as Hlen.
  { split; [apply Forall_app_2; apply be_bytes_range|]. unfold len. by rewrite length_app, !length_be_bytes. }
  destruct (ghash_update_val g _ aad Hh zero_block Ha) as [H1 E1]. destruct (ghash_update_val g _ ct Hh H1 Hc) as [H2 E2].
  set (acc := ghash_update g (ghash_update g (replicate 16 0) aad) ct) in *.
  destruct (ghash_list (H_ g) acc [len] Hh H2 (Forall_cons_2 _ _ _ Hlen (Forall_nil_2 _))) as [H3 E3]. cbn [foldl] in H3, E3.
  set (s := gf_mul128 (xor_block acc len) (H_ g)) in *.
  assert (gcm_tag t g (compute_j0 iv) aad ct = xor_block (ciph (compute_j0 iv)) s) as ->.
  { unfold gcm_tag, compute_tag. fold acc ciph. by rewrite !(Z.mul_comm _ 8), !length_field. }
  split; [|by apply xor_block_length; [apply Hciph|apply H3]]. unfold GCM_tag. rewrite <- Ej.
  assert (GHASH (be_val (ciph (replicate 16 0))) (pad16 aad ++ pad16 ct ++ be_bytes 8 (8 * zlen aad) ++ be_bytes 8 (8 * zlen ct)) = be_val s) as ->.
  { fold len. unfold GHASH. rewrite !blocks16_app by apply zlen_pad16. rewrite (blocks16_one len) by apply Hlen.
    rewrite <- HH, !foldl_app, E3, E2, E1. reflexivity. }
  assert (be_bytes 16 (be_val s) = s) as -> by (rewrite <- (proj2 H3) at 1; apply be_bytes_be_val, H3).
  rewrite GCTR_one by apply H3. apply xor_block_comm.
Qed.

(** ** The block cipher yields blocks *)

Lemma Sbox_bytes : all_bytes Sbox.
Proof. apply (bool_decide_unpack _). vm_compute. exact I. Qed.

Lemma sub_bytes_bytes s : all_bytes (sub_bytes s).
Proof. apply Forall_map, Forall_forall. intros x _. apply at_range; [lia|apply Sbox_bytes]. Qed.

Lemma cipher_block nr rk block : all_bytes (rk nr) -> length (rk nr) = 16%nat -> block_ok (cipher nr rk block).
Proof.
  intros Hb Hl. unfold cipher. split; [|by apply xor_block_length]. apply xor_block_bytes; [|done].
  unfold shift_rows. apply Forall_map, Forall_forall. intros i _. apply at_range; [lia|apply sub_bytes_bytes].
Qed.

Lemma word_bytes ws i : Forall all_bytes ws -> all_bytes (word ws i).
Proof.
  intros Hw. unfold word. destruct (nth_in_or_default (Z.to_nat i) ws []) as [H| ->]; [|by apply Forall_nil].
  rewrite Forall_forall in Hw. by apply Hw, list_elem_of_In.
Qed.

Lemma rcon_bytes j : all_bytes (rcon j).
Proof.
  unfold rcon. apply Forall_cons_2; [|by apply (bool_decide_unpack _)]. induction (Z.to_nat (j - 1)) as [|n IH]; [done|]. cbn.
  apply lxor_range; [lia|apply wrap_range; lia|]. by destruct (Z.testbit _ 7).
Qed.

Lemma key_expansion_bytes nk nr key : all_bytes key -> Forall all_bytes (key_expansion nk nr key).
Proof.
  intros Hk. unfold key_expansion. set (l := seqZ nk _). clearbody l.
  assert (Forall all_bytes (map (fun i => slice key (4 * i) 4) (seqZ 0 nk))) as H0.
  { apply Forall_map, Forall_forall. intros i _. by apply slice_bytes. }
  revert H0. generalize (map (fun i => slice key (4 * i) 4) (seqZ 0 nk)). induction l as [|i l IH]; intros ws Hws; [done|]. cbn [foldl].
  apply IH. unfold next_word. apply Forall_app_2; [done|]. apply Forall_singleton. apply xor_block_bytes; [by apply word_bytes|].
  destruct (_ =? 0); [apply xor_block_bytes; [apply sub_bytes_bytes|apply rcon_bytes]|].
  destruct (_ && _); [apply sub_bytes_bytes|by apply word_bytes].
Qed.

Lemma AES_block nk key block : nk = 4 \/ nk = 8 -> all_bytes key -> zlen key = 4 * nk -> block_ok (AES nk key block).
Proof.
  intros Hnk Hb Hk. destruct (key_words_ok nk key ltac:(lia) Hk) as [Hw Hl].
  destruct (key_expansion_ok nk _ nk (4 * (nk + 6 + 1) - nk) Hw ltac:(lia) Hl ltac:(lia)) as [Hw' Hl'].
  unfold AES. apply cipher_block.
  - unfold round_key. pose proof (key_expansion_bytes nk (nk + 6) key Hb). cbn [map concat].
    repeat (apply Forall_app_2; [by apply word_bytes|]). by apply Forall_nil.
  - apply round_key_length; [done|lia|]. unfold key_expansion. fold (key_words nk key). rewrite Hl'. lia.
Qed.

(** ** Counter mode is an involution *)

Lemma xor_block_app a b c d : length a = length c -> xor_block (a ++ b) (c ++ d) = xor_block a c ++ xor_block b d.
Proof. apply zip_with_app. Qed.

Lemma xor_block_short a c d : (length a <= length c)%nat -> xor_block a (c ++ d) = xor_block a c.
Proof.
  revert c. induction a as [|x a IH]; intros [|y c] Hl; try done; [cbn in Hl; lia|]. unfold xor_block in *. cbn. rewrite IH; [done|].
  cbn in Hl. lia.
Qed.

Lemma xor_block_twice a k : (length a <= length k)%nat -> xor_block (xor_block a k) k = a.
Proof.
  revert k. induction a as [|x a IH]; intros [|y k] Hl; try done; [cbn in Hl; lia|]. unfold xor_block in *. cbn. rewrite IH by (cbn in Hl; lia).
  by rewrite Z.lxor_assoc, Z.lxor_nilpotent, Z.lxor_0_r.
Qed.

Section stream.
Context (f : Z -> bytes) (Hf : forall b, length (f b) = 16%nat).

Definition keystream (n : Z) : bytes := concat (map f (seqZ 0 n)).

Lemma keystream_length n : 0 <= n -> zlen (keystream n) = 16 * n.
Proof.
  revert n. apply natlike_ind; [done|]. intros n Hn IH. unfold keystream in *. rewrite <- Z.add_1_r, seqZ_next, map_app, concat_app, zlen_app, IH by done.
  cbn [map concat]. rewrite app_nil_r. unfold zlen at 1. rewrite Hf. lia.
Qed.

Lemma stream_xor n x : 0 <= n -> zlen x <= 16 * n ->
  concat (map (fun b => xor_block (slice x (b * 16) 16) (f b)) (seqZ 0 n)) = xor_block x (keystream n).
Proof.
  intros Hn. revert n Hn x. apply (natlike_ind (fun n => forall x, zlen x <= 16 * n -> _)).
  - intros x Hx. pose proof (zlen_nonneg x). assert (x = []) as -> by (apply zlen_nil_inv; lia). done.
  - intros n Hn IH x Hx. rewrite <- Z.add_1_r, seqZ_next, map_app, concat_app, Z.add_0_l by done. cbn [map concat]. rewrite app_nil_r.
    assert (keystream (n + 1) = keystream n ++ f n) as ->.
    { unfold keystream. rewrite seqZ_next, map_app, concat_app by done. cbn [map concat]. by rewrite app_nil_r, Z.add_0_l. }
    pose proof (keystream_length n Hn) as Hk. destruct (decide (zlen x <= 16 * n)) as [Hle|Hgt].
    + rewrite IH by done. unfold slice. rewrite zdrop_all by lia. rewrite xor_block_short by (unfold zlen in *; lia). apply app_nil_r.
    + replace (xor_block x (keystream n ++ f n)) with (xor_block (ztake (16 * n) x ++ zdrop (16 * n) x) (keystream n ++ f n)) by by rewrite ztake_zdrop.
      rewrite xor_block_app by (unfold ztake, zlen in *; rewrite length_take; lia). f_equal.
      * rewrite <- IH by (rewrite zlen_ztake; lia). f_equal. apply map_ext_in. intros b Hb. apply list_elem_of_In, elem_of_seqZ in Hb.
        f_equal. transitivity (slice (ztake (16 * n) x ++ zdrop (16 * n) x) (b * 16) 16); [by rewrite ztake_zdrop|].
        apply slice_app_l; [lia..|]. rewrite zlen_ztake; lia.
      * f_equal. unfold slice. replace (n * 16) with (16 * n) by lia. apply ztake_all. rewrite zlen_zdrop by lia. lia.
Qed.
End stream.

Lemma GCTR_stream ciph cb x : (forall b, length (ciph b) = 16%nat) ->
  GCTR ciph cb x = xor_block x (keystream (fun b => ciph (Nat.iter (Z.to_nat b) inc32 cb)) ((zlen x + 15) / 16)) /\
  zlen (GCTR ciph cb x) = zlen x /\ GCTR ciph cb (GCTR ciph cb x) = x.
Proof.
  intros Hc. pose proof (zlen_nonneg x) as Hx. pose proof (Z.div_mod (zlen x + 15) 16 ltac:(lia)). pose proof (Z.mod_pos_bound (zlen x + 15) 16 ltac:(lia)).
  set (n := (zlen x + 15) / 16) in *. set (f := fun b => _). assert (forall b, length (f b) = 16%nat) as Hf by (intros b; apply Hc).
  assert (forall y, zlen y = zlen x -> GCTR ciph cb y = xor_block y (keystream f n)) as E.
  { intros y Hy. unfold GCTR. rewrite Hy. fold n. apply (stream_xor f Hf); lia. }
  pose proof (keystream_length f Hf n ltac:(lia)) as Hk. rewrite (E x eq_refl).
  assert (zlen (xor_block x (keystream f n)) = zlen x) as El.
  { unfold zlen, xor_block in *. rewrite length_zip_with. lia. }
  split; [done|]. split; [done|]. rewrite E by done. apply xor_block_twice. unfold zlen in *. lia.
Qed.

(** ** Sealing and opening *)

Lemma ni256_last key : length key = 32%nat -> length (nth 14 (keyschedule_256_ni key) []) = 16%nat.
Proof.
  intros Hk. do 32 (destruct key as [|? key]; [discriminate Hk|]). destruct key; [|discriminate Hk].
  unfold keyschedule_256_ni, key_expand_256a, key_expand_256b, aeskeygenassist, sub_bytes. generalize (at_ Sbox). intros F. reflexivity.
Qed.

(** The rounds of the code. *)
Lemma kRounds_nk nk : nk = 4 \/ nk = 8 -> kRounds nk = nk + 6.
Proof. by intros [-> | ->]. Qed.

Lemma aes_block_length t nk key block : nk = 4 \/ nk = 8 -> zlen key = 4 * nk ->
  length (aes_block t (kRounds nk) (keyschedule t nk key) block) = 16%nat.
Proof.
  intros Hnk Hk.
  assert (length (nth (Z.to_nat (kRounds nk)) (keyschedule t nk key) []) = 16%nat) as Hlast.
  2: { destruct t; cbn [aes_block]; unfold aes_encrypt_block_ni, aes_encrypt_block_arm, aesenclast, vaeseq_u8; apply xor_block_length; done. }
  assert (fips_backend t nk \/ nk = 8 /\ t = AesNi) as [Hf|[-> ->]].
  { destruct Hnk as [-> | ->]; [by left; left|]. destruct t; [by right|]. left. by right. }
  - rewrite (schedule_fips t nk key Hf Hk), kRounds_nk by done.
    destruct (key_words_ok nk key ltac:(lia) Hk) as [Hw Hl].
    destruct (key_expansion_ok nk _ nk (4 * (nk + 6 + 1) - nk) Hw ltac:(lia) Hl ltac:(lia)) as [Hw' Hl'].
    rewrite (nth_lookup_Some _ _ [] (round_key (key_expansion nk (nk + 6) key) (nk + 6))).
    + apply round_key_length; [done|lia|]. unfold key_expansion. fold (key_words nk key). lia.
    + rewrite list_lookup_fmap, lookup_seqZ_lt by lia. cbn. rewrite Z2Nat.id by lia. done.
  - apply ni256_last. unfold zlen in Hk. lia.
Qed.

Lemma tag_length t nk key j0 aad ct : nk = 4 \/ nk = 8 -> zlen key = 4 * nk ->
  length (gcm_tag t (init t nk key) j0 aad ct) = 16%nat.
Proof.
  intros Hnk Hk. unfold gcm_tag, compute_tag. apply xor_block_length; [by apply aes_block_length|].
  apply gf_mul128_length. by apply aes_block_length.
Qed.

(** [open] compares the tag with the one [seal] computes, and only if they are equal
    writes the plaintext; a refused call leaves the buffer as it was.  It inverts [seal], with
    keys of either size on either backend. *)
Theorem aes_gcm_open_exact t nk key nonce aad :
  nk = 4 \/ nk = 8 -> zlen key = 4 * nk -> all_bytes nonce -> zlen nonce = 12 ->
  let g := init t nk key in
  (forall ct tag buf, zlen tag = 16 ->
     open t g nonce aad ct tag buf =
     if bool_decide (tag = gcm_tag t g (compute_j0 nonce) aad ct)
     then (Ok tt, GCTR (aes_block t (nk + 6) (ks_ g)) (inc32 (nonce ++ [0; 0; 0; 1])) ct ++ zdrop (zlen ct) buf)
     else (Err bad_message, buf)) /\
  (forall pt out buf, zlen out = zlen pt ->
     let '(ct, tag) := seal t g nonce aad pt out in
     zlen ct = zlen pt /\ zlen tag = 16 /\ open t g nonce aad ct tag buf = (Ok tt, pt ++ zdrop (zlen pt) buf)).
Proof.
  intros Hnk Hk Hb Hl g. destruct (j0_ok nonce Hb Hl) as [Ej Hj].
  assert (forall block, length (aes_block t (kRounds (KeyWords g)) (ks_ g) block) = 16%nat) as Hlen by (intros; by apply aes_block_length).
  assert (forall ct tag buf, length tag = 16%nat -> open t g nonce aad ct tag buf =
    if bool_decide (tag = gcm_tag t g (compute_j0 nonce) aad ct)
    then (Ok tt, GCTR (aes_block t (nk + 6) (ks_ g)) (inc32 (nonce ++ [0; 0; 0; 1])) ct ++ zdrop (zlen ct) buf)
    else (Err bad_message, buf)) as Hopen.
  { intros ct tag buf Ht. unfold open. rewrite ct_diff_eq by (unfold g; rewrite tag_length by done; lia).
    rewrite gctr_GCTR, Ej by done. change (KeyWords g) with nk. rewrite kRounds_nk by done.
    rewrite (bool_decide_ext (gcm_tag _ _ _ _ _ = tag) (tag = gcm_tag t g (nonce ++ [0; 0; 0; 1]) aad ct)) by (split; congruence).
    by destruct (bool_decide _). }
  split; [intros ct tag buf Ht; apply Hopen; unfold zlen in Ht; lia|].
  intros pt out buf Ho. unfold seal. set (ct := gctr _ _ _ _ _).
  assert (ct = GCTR (aes_block t (nk + 6) (ks_ g)) (inc32 (nonce ++ [0; 0; 0; 1])) pt) as Ec.
  { unfold ct. rewrite gctr_GCTR, Ej, zdrop_all, app_nil_r by (done || lia). change (KeyWords g) with nk. by rewrite kRounds_nk. }
  change (KeyWords g) with nk in Hlen. rewrite kRounds_nk in Hlen by done.
  destruct (GCTR_stream _ (inc32 (nonce ++ [0; 0; 0; 1])) pt Hlen) as (_ & Hz & Hinv). rewrite <- Ec in Hz, Hinv.
  pose proof (tag_length t nk key (compute_j0 nonce) aad ct Hnk Hk) as Htag. fold g in Htag.
  split; [done|]. split; [unfold zlen; lia|]. rewrite Hopen by done. rewrite bool_decide_eq_true_2 by done. by rewrite Hinv, Hz.
Qed.

Lemma GCTR_ext c c' cb x : (forall b, block_ok b -> c b = c' b) -> block_ok cb -> GCTR c cb x = GCTR c' cb x.
Proof. intros Hc Hb. unfold GCTR. f_equal. apply map_ext. intros b. rewrite Hc; [done|]. by apply iter_block_ok. Qed.

Lemma GCTR_bytes c cb x : (forall b, block_ok b -> block_ok (c b)) -> block_ok cb -> all_bytes x -> all_bytes (GCTR c cb x).
Proof.
  intros Hc Hb Hx. unfold GCTR. apply Forall_concat, Forall_map, Forall_forall. intros b _.
  apply xor_block_bytes; [by apply slice_bytes|]. by apply Hc, iter_block_ok.
Qed.

(** C12. AES-GCM of NIST SP 800-38D: with 128-bit keys on x86 and ARM, and with 256-bit keys on
    ARM, [seal] writes the ciphertext and the tag the standard defines over the cipher of FIPS
    197; without the instructions [create] reports it. *)
Theorem aes_gcm_sp800 t cpuid nk key nonce aad pt out :
  fips_backend t nk -> all_bytes key -> zlen key = 4 * nk -> all_bytes nonce -> zlen nonce = 12 ->
  all_bytes aad -> all_bytes pt -> zlen out = zlen pt ->
  create (Some t) cpuid nk key = (if has_aes_ni (Some t) cpuid then Ok (t, init t nk key) else Err function_not_supported) /\
  let ct := GCM_crypt (AES nk key) nonce pt in
  seal t (init t nk key) nonce aad pt out = (ct, GCM_tag (AES nk key) nonce aad ct).
Proof.
  intros Hf Hkb Hk Hnb Hn Ha Hp Ho. split; [done|]. intros ct. assert (nk = 4 \/ nk = 8) as Hnk by (destruct Hf as [? | [? ?]]; auto).
  set (g := init t nk key). destruct (j0_ok nonce Hnb Hn) as [Ej Hj]. destruct (inc_counter_inc32 _ Hj) as [_ Hj'].
  set (E := aes_block t (kRounds (KeyWords g)) (ks_ g)).
  assert (forall b, block_ok b -> E b = AES nk key b) as HE.
  { intros b [_ Hb]. unfold E, g. cbn [KeyWords ks_ init]. rewrite kRounds_nk by done. by apply aes_block_fips. }
  assert (forall b, block_ok b -> block_ok (E b)) as Hok by (intros b Hb; rewrite HE by done; by apply AES_block).
  assert (gctr t g (compute_j0 nonce) pt out = ct) as Hct.
  { rewrite gctr_GCTR, zdrop_all, app_nil_r by (done || lia). unfold ct, GCM_crypt. rewrite <- Ej. by apply GCTR_ext. }
  unfold seal. rewrite Hct. f_equal. assert (all_bytes ct) as Hcb.
  { unfold ct, GCM_crypt. rewrite <- Ej, <- (GCTR_ext E) by done. by apply GCTR_bytes. }
  rewrite (proj1 (gcm_tag_spec t g nonce aad ct Hnb Hn Ha Hcb Hok eq_refl)). fold E. unfold GCM_tag. rewrite (HE _ zero_block), <- Ej.
  by apply GCTR_ext.
Qed.

Lemma tc_bytes : all_bytes tc_key /\ all_bytes tc_iv /\ all_bytes tc_aad /\ all_bytes tc_plain.
Proof. split_and!; apply (bool_decide_unpack _); vm_compute; exact I. Qed.

Lemma aes_gcm_sp800_witness :
  seal AesNi (init AesNi 4 tc_key) tc_iv tc_aad tc_plain (replicate 60 0) = (tc_cipher, tc_tag) /\
  seal AesArm (init AesArm 4 tc_key) tc_iv tc_aad tc_plain (replicate 60 0) = (tc_cipher, tc_tag).
Proof.
  destruct gcm_test_case_4 as [H1 H2]. destruct tc_bytes as (Hk & Hi & Ha & Hp).
  pose proof (fun t => aes_gcm_sp800 t true 4 tc_key tc_iv tc_aad tc_plain (replicate 60 0) (or_introl eq_refl) Hk eq_refl Hi eq_refl Ha Hp eq_refl) as H.
  split; [rewrite (proj2 (H AesNi))|rewrite (proj2 (H AesArm))]; rewrite H1, H2; reflexivity.
Defined.

Lemma aes_gcm_open_exact_witness :
  let g := init AesArm 8 (count_bytes 32) in
  let '(ct, tag) := seal AesArm g (replicate 12 1) [7] [1; 2; 3] [0; 0; 0] in
  open AesArm g (replicate 12 1) [7] ct tag [9; 9; 9; 9] = (Ok tt, [1; 2; 3; 9]).
Proof.
  intros g. destruct (aes_gcm_open_exact AesArm 8 (count_bytes 32) (replicate 12 1) [7] (or_intror eq_refl) eq_refl) as [_ H];
    [by apply (bool_decide_unpack _)|done|]. fold g in H.
  specialize (H [1; 2; 3] [0; 0; 0] [9; 9; 9; 9] eq_refl). destruct (seal AesArm g (replicate 12 1) [7] [1; 2; 3] [0; 0; 0]) as [ct tag]. apply H.
Defined.

(** AES-256 on x86 is not AES: see [ks256_ni_weak]. *)
Theorem aes256_ni_not_fips :
  aes_block AesNi 14 (keyschedule AesNi 8 (count_bytes 32)) (replicate 16 0) <> AES 8 (count_bytes 32) (replicate 16 0).
Proof. vm_compute. discriminate. Qed.
