(* ===== verification/GridScan.v ===== *)
(** * Row scans, masks and rays: the helpers of [buf/grid_bitset.hpp]

    The mask of a range of layers, the vector scans of a row of 64-bit cells with their
    scalar fallback, the square root of the radius queries, and the walk of the ray casts
    with the digital line it follows. *)

From stdpp Require Import list.
From S2P Require Import Prelude Bits.
#[local] Open Scope Z_scope.

(** ** Masks *)

Definition layer_range_mask (from to : Z) : Z :=
  if 63 <=? to then u64 (UINT64_MAX << from) else ((1 << (to - from + 1)) - 1) << from.

(** ** Vector scans *)

Inductive target := Avx512 | Avx2 | Neon | Scalar.

Definition lanes (tgt : target) : Z := match tgt with Avx512 => 8 | Avx2 => 4 | _ => 2 end.

Definition hit (mask v : Z) : bool := negb (v .& mask =? 0).

(** The test of one vector of cells: the mask of [_mm512_test_epi64_mask], the flag of
    [_mm256_testz_si256], or the greatest 32-bit half. *)
Definition vector_any (tgt : target) (chunk : list Z) (mask : Z) : bool :=
  match tgt with
  | Avx512 => negb (bits_val (map (hit mask) chunk) =? 0)
  | Neon => let r := map (fun v => v .& mask) chunk in negb (foldl Z.max 0 (concat (map (fun v => [u32 v; v >> 32]) r)) =? 0)
  | _ => let r := map (fun v => v .& mask) chunk in negb (forallb (fun v => v =? 0) r)
  end.

Fixpoint scan_any (fuel : nat) (tgt : target) (row : list Z) (len mask i : Z) : bool :=
  let rest := existsb (hit mask) (ztake (len - i) (zdrop i row)) in
  match tgt, fuel with
  | Scalar, _ | _, O => rest
  | _, S fuel =>
      if i + lanes tgt <=? len then
        if vector_any tgt (ztake (lanes tgt) (zdrop i row)) mask then true else scan_any fuel tgt row len mask (i + lanes tgt)
      else rest
  end.

Definition scan_row_any (tgt : target) (row : list Z) (len mask : Z) : bool := scan_any (Z.to_nat len) tgt row len mask 0.

Fixpoint count_if {A} (f : A -> bool) (l : list A) : Z :=
  match l with
  | [] => 0
  | x :: l => (if f x then 1 else 0) + count_if f l
  end.

(** [__builtin_popcount], [std::popcount] of a [w]-bit word. *)
Definition popcount (w v : Z) : Z := count_if (Z.testbit v) (seqZ 0 w).

Definition vector_count (tgt : target) (chunk : list Z) (mask : Z) : Z :=
  match tgt with
  | Avx512 => popcount 32 (bits_val (map (hit mask) chunk))
  | Avx2 =>
      let zmask := bits_val (concat (map (fun v => replicate 8 (v .& mask =? 0)) chunk)) in
      popcount 32 (u32 (Z.lnot zmask)) >> 3
  | _ => let r := map (fun v => v .& mask) chunk in (if at_ r 0 =? 0 then 0 else 1) + (if at_ r 1 =? 0 then 0 else 1)
  end.

Fixpoint scan_count (fuel : nat) (tgt : target) (row : list Z) (len mask i count : Z) : Z :=
  let rest := u32 (count + count_if (hit mask) (ztake (len - i) (zdrop i row))) in
  match tgt, fuel with
  | Scalar, _ | _, O => rest
  | _, S fuel =>
      if i + lanes tgt <=? len then
        scan_count fuel tgt row len mask (i + lanes tgt) (u32 (count + vector_count tgt (ztake (lanes tgt) (zdrop i row)) mask))
      else rest
  end.

Definition scan_row_count (tgt : target) (row : list Z) (len mask : Z) : Z := scan_count (Z.to_nat len) tgt row len mask 0 0.

(** ** The square root *)

(** [static_cast<uint32_t>(std::sqrt(static_cast<double>(n)))] for [n] below 2^53, which a
    [double] holds: the root rounded to 53 bits, to the nearest, and then truncated. *)
Definition sqrt_trunc (n : Z) : Z :=
  if n =? 0 then 0 else
  let s := 52 - Z.log2 (Z.sqrt n) in
  let q := Z.sqrt (n << (2 * s)) in
  let r := (n << (2 * s)) - q * q in
  (if q <? r then q + 1 else q) >> s.

(** ** Boxes *)

(** The cells of a box, row by row. *)
Definition row (x1 x2 y : Z) : list (Z * Z) := map (fun x => (x, y)) (seqZ x1 (x2 - x1 + 1)).

Definition box (x1 y1 x2 y2 : Z) : list (Z * Z) := concat (map (row x1 x2) (seqZ y1 (y2 - y1 + 1))).

(** ** The ray *)

(** A value of [int32_t]; arithmetic that leaves the type is undefined. *)
Definition int32 (z : Z) : option Z := if (- 2 ^ 31 <=? z) && (z <? 2 ^ 31) then Some z else None.

(** One step of the walk: the cell and the error. *)
Definition advance (sx sy adx ady : Z) (p : Z * Z * Z) : option (Z * Z * Z) :=
  let '(cx, cy, err) := p in
  e2 ← int32 (2 * err);
  '(cx, err) ← (if - ady <? e2 then err ← int32 (err - ady); cx ← int32 (cx + sx); Some (cx, err) else Some (cx, err));
  if e2 <? adx then err ← int32 (err + adx); cy ← int32 (cy + sy); Some (cx, cy, err) else Some (cx, cy, err).

(** What a ray gives: a hit, none, or an overflow on the way. *)
Inductive ray_result (A : Type) := Hit (h : A) | Miss | Overflow.
Arguments Hit {A} h.
Arguments Miss {A}.
Arguments Overflow {A}.

(** The digital line: after [k] steps along the longer side the other coordinate is the
    nearest one, the lower one of two. *)
Definition nearest (k short long : Z) : Z := (2 * k * short + long - 1) / (2 * long).

Definition line (a b k : Z) : Z * Z := if b <=? a then (k, nearest k b a) else (nearest k a b, k).

(** The cell after [k] steps from a cell in a direction. *)
Definition ray_cell (x0 y0 sx sy a b k : Z) : Z * Z := let '(i, j) := line a b k in (x0 + sx * i, y0 + sy * j).

Definition ray_err (a b k : Z) : Z := let '(i, j) := line a b k in (j + 1) * a - (i + 1) * b.

(** ** Lemmas on masks *)

Lemma bit_spec b k : 0 <= b -> Z.testbit (1 << b) k = bool_decide (k = b).
Proof. intros Hb. rewrite Z.shiftl_1_l. case_bool_decide as E; [subst; by apply Z.pow2_bits_true|]. by apply Z.pow2_bits_false. Qed.

Lemma bit_range w b : 0 <= b < w -> in_range w (1 << b).
Proof. intros Hb. rewrite Z.shiftl_1_l. split; [apply Z.pow_nonneg; lia|]. apply Z.pow_lt_mono_r; lia. Qed.

Lemma layer_range_mask_spec from to k : 0 <= from <= to -> to < 64 -> 0 <= k ->
  Z.testbit (layer_range_mask from to) k = (from <=? k) && (k <=? to).
Proof.
  intros Hf Ht Hk. unfold layer_range_mask. destruct (Z.leb_spec 63 to).
  - rewrite wrap_testbit, Z.shiftl_spec by lia. change UINT64_MAX with (Z.ones 64). destruct (Z.leb_spec from k); cbn [andb].
    + rewrite Z.testbit_ones_nonneg by lia. by case_bool_decide; destruct (Z.leb_spec k to), (Z.ltb_spec (k - from) 64); try lia.
    + by rewrite Z.testbit_neg_r, andb_false_r by lia.
  - rewrite Z.shiftl_spec by lia. replace ((1 << (to - from + 1)) - 1) with (Z.ones (to - from + 1)) by (rewrite Z.ones_equiv, Z.shiftl_1_l; lia).
    destruct (Z.leb_spec from k); cbn [andb].
    + rewrite Z.testbit_ones_nonneg by lia. destruct (Z.ltb_spec (k - from) (to - from + 1)), (Z.leb_spec k to); lia || done.
    + by rewrite Z.testbit_neg_r by lia.
Qed.

Lemma layer_range_mask_nonneg from to : 0 <= from <= to -> to < 64 -> 0 <= layer_range_mask from to.
Proof.
  intros Hf Ht. unfold layer_range_mask. destruct (63 <=? to); [apply (wrap_range 64); lia|]. apply Z.shiftl_nonneg. rewrite Z.shiftl_1_l.
  pose proof (Z.pow_pos_nonneg 2 (to - from + 1)). lia.
Qed.

Lemma hit_spec mask v : 0 <= v -> hit mask v = true <-> exists k, 0 <= k /\ Z.testbit v k = true /\ Z.testbit mask k = true.
Proof.
  intros Hv. unfold hit. rewrite negb_true_iff, Z.eqb_neq. split.
  - intros Hne. assert (0 < v .& mask) as Hpos by (assert (0 <= v .& mask) by (apply Z.land_nonneg; by left); lia).
    exists (Z.log2 (v .& mask)). pose proof (Z.bit_log2 _ Hpos) as Hb. rewrite Z.land_spec, andb_true_iff in Hb. split; [apply Z.log2_nonneg|done].
  - intros (k & Hk & H1 & H2) E. assert (Z.testbit (v .& mask) k = true) as Hb by by rewrite Z.land_spec, H1, H2. by rewrite E, Z.bits_0 in Hb.
Qed.

Lemma hit_range from to v : 0 <= from <= to -> to < 64 -> 0 <= v ->
  hit (layer_range_mask from to) v = true <-> exists k, from <= k <= to /\ Z.testbit v k = true.
Proof.
  intros Hf Ht Hv. rewrite hit_spec by done. split.
  - intros (k & Hk & H1 & H2). rewrite layer_range_mask_spec in H2 by lia. exists k. split; [lia|done].
  - intros (k & Hk & H1). exists k. rewrite layer_range_mask_spec by lia. split_and!; [lia|done|lia].
Qed.

(** ** The scans are the loop over the cells *)

Lemma count_if_app {A} (f : A -> bool) l k : count_if f (l ++ k) = count_if f l + count_if f k.
Proof. induction l as [|x l IH]; cbn; [done|]. rewrite IH. lia. Qed.

Lemma count_if_map {A B} (f : B -> bool) (g : A -> B) l : count_if f (map g l) = count_if (fun x => f (g x)) l.
Proof. induction l as [|x l IH]; cbn; [done|]. by rewrite IH. Qed.

Lemma count_if_ext {A} (f g : A -> bool) l : (forall x, x ∈ l -> f x = g x) -> count_if f l = count_if g l.
Proof.
  induction l as [|x l IH]; intros H; cbn; [done|]. rewrite IH by (intros y Hy; apply H; by right). rewrite (H x) by left. done.
Qed.

Lemma count_if_range {A} (f : A -> bool) l : 0 <= count_if f l <= zlen l.
Proof. induction l as [|x l IH]; cbn [count_if]; [done|]. rewrite zlen_cons. destruct (f x); lia. Qed.

Lemma count_if_filter {A} (f : A -> bool) (xs : list A) : count_if f xs = zlen (base.filter (fun x => f x = true) xs).
Proof.
  induction xs as [|x xs IH]; [done|]. cbn [count_if]. rewrite filter_cons. destruct (f x); [rewrite decide_True, zlen_cons by done|rewrite decide_False by done]; rewrite IH; lia.
Qed.

Lemma count_if_list_filter {A} (f : A -> bool) l : count_if f l = zlen (List.filter f l).
Proof. induction l as [|x l IH]; [done|]. cbn [count_if List.filter]. destruct (f x); rewrite ?zlen_cons, IH; lia. Qed.

Lemma testbit_bits_val l (k : nat) : Z.testbit (bits_val l) (Z.of_nat k) = nth k l false.
Proof.
  revert k. induction l as [|b l IH]; intros k; [rewrite Z.bits_0; by destruct k|]. cbn [bits_val]. destruct k as [|k]; cbn [nth].
  - rewrite Z.bit0_odd, Z.odd_add_mul_2. by destruct b.
  - rewrite Nat2Z.inj_succ, <- IH. replace ((if b then 1 else 0) + 2 * bits_val l) with (2 * bits_val l + Z.b2z b) by (destruct b; cbn [Z.b2z]; lia).
    apply Z.testbit_succ_r. lia.
Qed.

Lemma bits_of_bits_val l : map (Z.testbit (bits_val l)) (seqZ 0 (zlen l)) = l.
Proof.
  apply list_eq. intros k. rewrite list_lookup_fmap. destruct (decide (k < length l)%nat) as [Hk|Hk].
  - rewrite (proj2 (lookup_seqZ 0 (zlen l) k (Z.of_nat k))) by (unfold zlen; lia). cbn. rewrite testbit_bits_val.
    destruct (nth_lookup_or_length l k false) as [E|]; [|lia]. done.
  - rewrite (lookup_seqZ_ge 0 (zlen l) k) by (unfold zlen; lia). symmetry. by apply lookup_ge_None; lia.
Qed.

Lemma popcount_bits_val w l : zlen l <= w -> popcount w (bits_val l) = count_if id l.
Proof.
  intros Hl. unfold popcount. replace w with (zlen l + (w - zlen l)) by lia. rewrite seqZ_app, count_if_app by (pose proof (zlen_nonneg l); lia).
  assert (count_if (Z.testbit (bits_val l)) (seqZ 0 (zlen l)) = count_if id l) as ->.
  { rewrite <- (bits_of_bits_val l) at 3. by rewrite count_if_map. }
  rewrite (count_if_ext (Z.testbit (bits_val l)) (fun _ => false)).
  - assert (forall m : list Z, count_if (fun _ => false) m = 0) as -> by (intros m; induction m; cbn; lia). lia.
  - intros x Hx%elem_of_seqZ. replace x with (Z.of_nat (Z.to_nat x)) by (pose proof (zlen_nonneg l); lia). rewrite testbit_bits_val. apply nth_overflow. unfold zlen in *. lia.
Qed.

Lemma vector_any_spec tgt chunk mask : Forall (in_range 64) chunk -> 0 <= mask -> vector_any tgt chunk mask = existsb (hit mask) chunk.
Proof.
  intros Hc Hm. assert (forall f : Z -> bool, negb (forallb (fun v => v =? 0) (map (fun v => v .& mask) chunk)) = existsb (hit mask) chunk) as Hall.
  { intros _. clear Hc. induction chunk as [|v chunk IH]; cbn [map forallb existsb]; [done|]. rewrite negb_andb, IH. done. }
  destruct tgt; cbn [vector_any]; cbn zeta; try apply (Hall (fun _ => true)); clear Hall.
  - clear Hc. induction chunk as [|v chunk IH]; cbn [map bits_val existsb]; [done|]. rewrite <- IH. pose proof (bits_val_nonneg (map (hit mask) chunk)).
    destruct (hit mask v); cbn [orb]; [rewrite (proj2 (Z.eqb_neq _ _)) by lia; done|]. f_equal.
    destruct (Z.eqb_spec (0 + 2 * bits_val (map (hit mask) chunk)) 0), (Z.eqb_spec (bits_val (map (hit mask) chunk)) 0); lia || done.
  - assert (forall m, 0 <= m -> negb (foldl Z.max m (concat (map (fun v => [u32 v; v >> 32]) (map (fun v => v .& mask) chunk))) =? 0) = negb (m =? 0) || existsb (hit mask) chunk) as H; [|by rewrite H].
    induction Hc as [|v chunk Hv Hc IH]; intros m Hm0; cbn [map concat app foldl existsb]; [by rewrite orb_false_r|].
    assert (in_range 64 (v .& mask)) as Hr by (apply land_range; done || lia). pose proof (wrap_range 32 (v .& mask)) as Hlo. unfold hit at 1. set (r := v .& mask) in *.
    assert (0 <= r >> 32) as Hhi by (apply Z.shiftr_nonneg, Hr). specialize (Hlo ltac:(lia)). assert (r = (r >> 32) * 2 ^ 32 + u32 r) as Er.
    { rewrite Z.shiftr_div_pow2 by lia. unfold wrap. pose proof (Z.div_mod r (2 ^ 32)). lia. }
    rewrite IH by (unfold in_range in Hlo; lia). rewrite orb_assoc. f_equal. unfold in_range in Hlo.
    destruct (Z.eqb_spec (Z.max (Z.max m (u32 r)) (r >> 32)) 0), (Z.eqb_spec m 0), (Z.eqb_spec r 0); cbn; lia || done.
Qed.

Lemma count_lnot l : zlen l = 32 -> popcount 32 (u32 (Z.lnot (bits_val l))) = count_if negb l.
Proof.
  intros Hl. unfold popcount. transitivity (count_if (fun k => negb (Z.testbit (bits_val l) k)) (seqZ 0 32)).
  - apply count_if_ext. intros k Hk%elem_of_seqZ. rewrite wrap_testbit, bool_decide_eq_true_2, Z.lnot_spec by lia. done.
  - rewrite <- (count_if_map negb (Z.testbit (bits_val l))). rewrite <- Hl at 1. by rewrite bits_of_bits_val.
Qed.

Lemma pair_count mask chunk : zlen chunk = 2 ->
  let r := map (fun v => v .& mask) chunk in (if at_ r 0 =? 0 then 0 else 1) + (if at_ r 1 =? 0 then 0 else 1) = count_if (hit mask) chunk.
Proof.
  intros Hl. destruct chunk as [|a [|b [|c chunk]]]; try (unfold zlen in Hl; cbn in Hl; lia). unfold at_. change (Z.to_nat 0) with 0%nat. change (Z.to_nat 1) with 1%nat.
  cbn [map nth count_if]. cbn zeta. unfold hit. by destruct (a .& mask =? 0), (b .& mask =? 0).
Qed.

Lemma vector_count_spec tgt chunk mask : zlen chunk = lanes tgt -> vector_count tgt chunk mask = count_if (hit mask) chunk.
Proof.
  intros Hl. destruct tgt; cbn [vector_count]; cbn zeta.
  - rewrite popcount_bits_val by (rewrite zlen_map, Hl; done). by rewrite count_if_map.
  - assert (forall l : list Z, zlen (concat (map (fun v => replicate 8 (v .& mask =? 0)) l)) = 8 * zlen l /\
      count_if negb (concat (map (fun v => replicate 8 (v .& mask =? 0)) l)) = 8 * count_if (hit mask) l) as H.
    { intros l. induction l as [|v l [IH1 IH2]]; [done|]. cbn [map concat count_if]. rewrite zlen_app, count_if_app, IH1, IH2, zlen_cons, zlen_replicate. split; [lia|].
      unfold hit at 2. destruct (v .& mask =? 0); cbn [negb replicate count_if]; lia. }
    rewrite count_lnot by (destruct (H chunk) as [-> _]; rewrite Hl; done). destruct (H chunk) as [_ ->]. rewrite Z.shiftr_div_pow2 by lia. change (2 ^ 3) with 8.
    rewrite Z.mul_comm, Z.div_mul; lia.
  - by apply pair_count.
  - by apply pair_count.
Qed.

Lemma chunk_split {A} (row : list A) i n len : 0 <= i -> 0 <= n -> i + n <= len ->
  ztake (len - i) (zdrop i row) = ztake n (zdrop i row) ++ ztake (len - (i + n)) (zdrop (i + n) row).
Proof.
  intros Hi Hn Hl. rewrite <- zdrop_zdrop by lia. set (l := zdrop i row). rewrite <- (ztake_zdrop n l) at 1.
  destruct (decide (n <= zlen l)) as [Hle|Hgt].
  - unfold ztake at 1. rewrite take_app. f_equal; [apply take_ge; unfold ztake; rewrite length_take; lia|]. unfold ztake, zdrop, zlen in *. rewrite length_take. f_equal. lia.
  - rewrite (ztake_all n), (zdrop_all n) by lia. rewrite !app_nil_r, ztake_all by lia. unfold ztake. by rewrite take_nil, app_nil_r.
Qed.

Lemma scan_row_any_spec tgt row len mask : Forall (in_range 64) row -> 0 <= mask -> scan_row_any tgt row len mask = existsb (hit mask) (ztake len row).
Proof.
  intros Hr Hm. unfold scan_row_any. assert (forall fuel i, 0 <= i -> scan_any fuel tgt row len mask i = existsb (hit mask) (ztake (len - i) (zdrop i row))) as H.
  { intros fuel. induction fuel as [|fuel IH]; intros i Hi; cbn [scan_any]; [by destruct tgt|]. destruct (Z.leb_spec (i + lanes tgt) len) as [Hle|]; [|by destruct tgt].
    assert (0 <= lanes tgt) by (by destruct tgt). rewrite IH, vector_any_spec by (done || lia || by apply Forall_ztake, Forall_zdrop).
    rewrite (chunk_split row i (lanes tgt) len) by lia. rewrite existsb_app. by destruct tgt; cbn [lanes]; try destruct (existsb (hit mask) (ztake _ _)). }
  rewrite H by lia. by rewrite Z.sub_0_r, zdrop_0.
Qed.

Lemma scan_row_count_spec tgt row len mask : len <= zlen row -> scan_row_count tgt row len mask = u32 (count_if (hit mask) (ztake len row)).
Proof.
  intros Hr. unfold scan_row_count.
  assert (forall fuel i c, 0 <= i -> scan_count fuel tgt row len mask i c = u32 (c + count_if (hit mask) (ztake (len - i) (zdrop i row)))) as H.
  { intros fuel. induction fuel as [|fuel IH]; intros i c Hi; cbn [scan_count]; [by destruct tgt|]. destruct (Z.leb_spec (i + lanes tgt) len) as [Hle|]; [|by destruct tgt].
    assert (0 <= lanes tgt) by (by destruct tgt). rewrite IH, vector_count_spec by (lia || (rewrite zlen_ztake; [done|rewrite zlen_zdrop; lia])).
    rewrite wrap_add_l, (chunk_split row i (lanes tgt) len), count_if_app, Z.add_assoc by lia. by destruct tgt. }
  rewrite H by lia. by rewrite Z.sub_0_r, zdrop_0.
Qed.

(** ** The square root is exact *)

Lemma sqrt_trunc_spec n : 0 <= n < 2 ^ 52 -> sqrt_trunc n = Z.sqrt n.
Proof.
  intros Hn. unfold sqrt_trunc. destruct (Z.eqb_spec n 0) as [->|Hne]; [done|]. set (k := Z.sqrt n). cbn zeta.
  destruct (Z.sqrt_spec n) as [Hk1 Hk2]; [lia|]. fold k in Hk1, Hk2. assert (0 < k) as Hk0 by nia.
  assert (k < 2 ^ 26) as Hk26 by (change (2 ^ 52) with (2 ^ 26 * 2 ^ 26) in Hn; nia).
  assert (0 <= Z.log2 k < 26) as Hlog by (split; [apply Z.log2_nonneg|apply Z.log2_lt_pow2; lia]).
  set (s := 52 - Z.log2 k). assert (27 <= s) as Hs by (unfold s; lia). rewrite Z.shiftl_mul_pow2, Z.shiftr_div_pow2 by lia.
  replace (2 * s) with (s + s) by lia. rewrite Z.pow_add_r by lia. set (t := 2 ^ s). assert (2 ^ 27 <= t) as Ht by (apply Z.pow_le_mono_r; lia).
  destruct (Z.sqrt_spec (n * (t * t))) as [Hq1 Hq2]; [nia|]. set (q := Z.sqrt (n * (t * t))) in *.
  change (2 ^ 26) with 67108864 in *. change (2 ^ 27) with 134217728 in *. clearbody t k q. clear Hlog s Hs.
  assert (k * k * (t * t) <= n * (t * t)) as Hlo by (apply Z.mul_le_mono_nonneg_r; nia).
  assert (n * (t * t) <= ((k + 1) * (k + 1) - 1) * (t * t)) as Hhi by (apply Z.mul_le_mono_nonneg_r; nia).
  assert (k * t < q + 1) as Hq by (apply Z.square_lt_simpl_nonneg; nia).
  assert (q < (k + 1) * t) as Hq3 by (apply Z.square_lt_simpl_nonneg; nia). symmetry.
  destruct (Z.ltb_spec q (n * (t * t) - q * q)).
  - apply Z.div_unique with (q + 1 - k * t); [|lia]. left. split; [lia|]. assert (q + 1 <> (k + 1) * t); [|lia]. intros E. nia.
  - apply Z.div_unique with (q - k * t); [|lia]. left. lia.
Qed.

(** ** The walk follows the digital line *)

Lemma nearest_spec k short long : 0 < long -> - long <= 2 * (nearest k short long * long - k * short) < long.
Proof. intros Hl. unfold nearest. Z.div_mod_to_equations. nia. Qed.

Lemma nearest_unique k short long j : 0 < long -> - long <= 2 * (j * long - k * short) < long -> j = nearest k short long.
Proof. intros Hl Hj. pose proof (nearest_spec k short long Hl). nia. Qed.

(** The step on unbounded integers. *)
Definition advance_Z (sx sy adx ady : Z) (p : Z * Z * Z) : Z * Z * Z :=
  let '(cx, cy, err) := p in
  let e2 := 2 * err in
  let '(cx, err) := if - ady <? e2 then (cx + sx, err - ady) else (cx, err) in
  if e2 <? adx then (cx, cy + sy, err + adx) else (cx, cy, err).

Lemma advance_Z_line x0 y0 sx sy a b k : 0 <= a -> 0 <= b -> 0 < a + b -> 0 <= k ->
  advance_Z sx sy a b (ray_cell x0 y0 sx sy a b k, ray_err a b k) = (ray_cell x0 y0 sx sy a b (k + 1), ray_err a b (k + 1)).
Proof.
  intros Ha Hb Hab Hk. unfold ray_cell, ray_err, line. destruct (Z.leb_spec b a).
  - pose proof (nearest_spec k b a ltac:(lia)) as Hj. set (j := nearest k b a) in *. cbn [advance_Z].
    assert (- b < 2 * ((j + 1) * a - (k + 1) * b)) as Hx.
    { destruct (decide (a = b)) as [<-|]; [|lia]. assert (j = k) as -> by nia. lia. }
    rewrite (proj2 (Z.ltb_lt (- b) _)) by done. destruct (Z.ltb_spec (2 * ((j + 1) * a - (k + 1) * b)) a).
    + rewrite <- (nearest_unique (k + 1) b a (j + 1)) by lia. f_equal; [f_equal; lia|lia].
    + rewrite <- (nearest_unique (k + 1) b a j) by lia. f_equal; [f_equal; lia|lia].
  - pose proof (nearest_spec k a b ltac:(lia)) as Hj. set (i := nearest k a b) in *. cbn [advance_Z].
    rewrite (proj2 (Z.ltb_lt _ a)) by lia. destruct (Z.ltb_spec (- b) (2 * ((k + 1) * a - (i + 1) * b))).
    + rewrite <- (nearest_unique (k + 1) a b (i + 1)) by lia. f_equal; [f_equal; lia|lia].
    + rewrite <- (nearest_unique (k + 1) a b i) by lia. f_equal; [f_equal; lia|lia].
Qed.

Lemma ray_start x0 y0 sx sy a b : 0 <= a -> 0 <= b -> ray_cell x0 y0 sx sy a b 0 = (x0, y0) /\ ray_err a b 0 = a - b.
Proof.
  intros Ha Hb. unfold ray_cell, ray_err, line.
  assert (forall s l, 0 <= l -> nearest 0 s l = 0) as Hz.
  { intros s l Hl. unfold nearest. rewrite Z.mul_0_r, Z.mul_0_l, Z.add_0_l. destruct (decide (l = 0)) as [->|]; [done|]. apply Z.div_small. lia. }
  rewrite !Hz by done. destruct (b <=? a); split; f_equal; lia.
Qed.

(** The error stays below three halves of the longer side: the 32-bit arithmetic does not
    overflow while that side is at most a third of [2 ^ 31]. *)
Abbreviation max_side := 715827882%Z (only parsing).

Lemma ray_err_bound a b k : 0 <= a <= max_side -> 0 <= b <= max_side -> 0 < a + b -> - 2 ^ 31 <= 2 * ray_err a b k < 2 ^ 31.
Proof.
  intros Ha Hb Hab. unfold ray_err, line. change (2 ^ 31) with 2147483648.
  destruct (Z.leb_spec b a).
  - pose proof (nearest_spec k b a ltac:(lia)). nia.
  - pose proof (nearest_spec k a b ltac:(lia)). nia.
Qed.

Lemma int32_in z : - 2 ^ 31 <= z < 2 ^ 31 -> int32 z = Some z.
Proof. intros Hz. unfold int32. by rewrite (proj2 (Z.leb_le _ _)), (proj2 (Z.ltb_lt _ _)) by lia. Qed.

Lemma advance_int32 sx sy a b cx cy err : -1 <= sx <= 1 -> -1 <= sy <= 1 -> 0 <= a <= max_side -> 0 <= b <= max_side ->
  0 <= cx < 2 ^ 31 - 1 -> 0 <= cy < 2 ^ 31 - 1 -> - 2 ^ 31 <= 2 * err < 2 ^ 31 ->
  advance sx sy a b (cx, cy, err) = Some (advance_Z sx sy a b (cx, cy, err)).
Proof.
  intros Hsx Hsy Ha Hb Hx Hy He. change (2 ^ 31) with 2147483648 in *. unfold advance, advance_Z.
  rewrite (int32_in (2 * err)), (int32_in (cx + sx)), (int32_in (cy + sy)) by lia. cbn [mbind option_bind].
  destruct (Z.ltb_spec (- b) (2 * err)).
  - rewrite (int32_in (err - b)) by lia. cbn [mbind option_bind]. destruct (2 * err <? a); [|done]. by rewrite int32_in by lia.
  - cbn [mbind option_bind]. destruct (2 * err <? a); [|done]. by rewrite int32_in by lia.
Qed.

(** On the line and inside a grid the step does not overflow. *)
Lemma advance_line x0 y0 sx sy a b k : -1 <= sx <= 1 -> -1 <= sy <= 1 -> 0 <= a <= max_side -> 0 <= b <= max_side -> 0 < a + b -> 0 <= k ->
  let p := ray_cell x0 y0 sx sy a b k in 0 <= p.1 < 2 ^ 31 - 1 -> 0 <= p.2 < 2 ^ 31 - 1 ->
  advance sx sy a b (p, ray_err a b k) = Some (ray_cell x0 y0 sx sy a b (k + 1), ray_err a b (k + 1)).
Proof.
  intros Hsx Hsy Ha Hb Hab Hk p Hx Hy. rewrite <- advance_Z_line by lia. fold p. destruct p as [cx cy]. apply advance_int32; try done. by apply ray_err_bound.
Qed.

Lemma line_bounds a b k : 0 <= a -> 0 <= b -> 0 <= k <= Z.max a b -> let '(i, j) := line a b k in 0 <= i <= a /\ 0 <= j <= b.
Proof.
  intros Ha Hb Hk. unfold line.
  assert (forall s l, 0 <= s <= l -> 0 <= k <= l -> 0 <= nearest k s l <= s) as H.
  { intros s l Hs Hkl. destruct (decide (l = 0)) as [->|Hne]; [unfold nearest; rewrite Z.mul_0_r, Zdiv_0_r; lia|]. pose proof (nearest_spec k s l ltac:(lia)). nia. }
  destruct (Z.leb_spec b a); [pose proof (H b a)|pose proof (H a b)]; lia.
Qed.

Lemma line_end a b k : 0 <= a -> 0 <= b -> 0 <= k <= Z.max a b -> line a b k = (a, b) <-> k = Z.max a b.
Proof.
  intros Ha Hb Hk. unfold line.
  assert (forall s l, 0 <= s <= l -> nearest l s l = s) as H.
  { intros s l Hs. destruct (decide (l = 0)) as [->|Hne]; [unfold nearest; rewrite Z.mul_0_r, Zdiv_0_r; lia|]. symmetry. apply nearest_unique; lia. }
  destruct (Z.leb_spec b a); (split; [intros [= ]; lia|intros ->]).
  - rewrite Z.max_l, H by lia. done.
  - rewrite Z.max_r, H by lia. done.
Qed.

(** ** Lists of cells *)

Lemma elem_row x1 x2 y p : p ∈ row x1 x2 y <-> x1 <= p.1 <= x2 /\ p.2 = y.
Proof.
  unfold row. rewrite list_elem_of_fmap. destruct p as [x y']. cbn [fst snd]. split.
  - intros (x' & [= -> ->] & Hx%elem_of_seqZ). split; [lia|done].
  - intros [Hx ->]. exists x. split; [done|]. apply elem_of_seqZ. lia.
Qed.

Lemma elem_concat {A} (l : list (list A)) x : x ∈ concat l <-> exists k, k ∈ l /\ x ∈ k.
Proof.
  induction l as [|k l IH]; cbn [concat]; [split; [by intros ?%not_elem_of_nil|by intros (? & ?%not_elem_of_nil & _)]|].
  rewrite elem_of_app, IH. setoid_rewrite elem_of_cons. naive_solver.
Qed.

Lemma elem_box x1 y1 x2 y2 p : p ∈ box x1 y1 x2 y2 <-> x1 <= p.1 <= x2 /\ y1 <= p.2 <= y2.
Proof.
  unfold box. rewrite elem_concat. setoid_rewrite list_elem_of_fmap. split.
  - intros (k & (y & -> & Hy%elem_of_seqZ) & Hp%elem_row). lia.
  - intros [Hx Hy]. exists (row x1 x2 p.2). split; [exists p.2; split; [done|apply elem_of_seqZ; lia]|]. by apply elem_row.
Qed.

Lemma NoDup_concat_map {A B} (f : A -> list B) l : NoDup l -> (forall x, x ∈ l -> NoDup (f x)) ->
  (forall x y b, x ∈ l -> y ∈ l -> b ∈ f x -> b ∈ f y -> x = y) -> NoDup (concat (map f l)).
Proof.
  induction 1 as [|x l Hx Hl IH]; intros Hf Hd; cbn [map concat]; [constructor|]. apply NoDup_app. split_and!.
  - apply Hf. left.
  - intros b Hb (k & (y & -> & Hy)%list_elem_of_fmap & Hb')%elem_concat. apply Hx. rewrite (Hd x y b); [done|left|by right|done|done].
  - apply IH; [intros y Hy; apply Hf; by right|]. intros y z b Hy Hz. apply Hd; by right.
Qed.

Lemma NoDup_box x1 y1 x2 y2 : NoDup (box x1 y1 x2 y2).
Proof.
  apply NoDup_concat_map; [apply NoDup_seqZ| |].
  - intros y _. apply NoDup_fmap_2; [|apply NoDup_seqZ]. by intros a b [= ->].
  - intros y y' p _ _ [_ <-]%elem_row [_ <-]%elem_row. done.
Qed.

Lemma existsb_concat {A} (f : A -> bool) l : existsb f (concat l) = existsb (existsb f) l.
Proof. induction l as [|k l IH]; [done|]. cbn [concat existsb]. by rewrite existsb_app, IH. Qed.

Lemma existsb_map {A B} (f : B -> bool) (h : A -> B) l : existsb f (map h l) = existsb (fun x => f (h x)) l.
Proof. induction l as [|x l IH]; [done|]. cbn. by rewrite IH. Qed.

Lemma existsb_ext {A} (f h : A -> bool) l : (forall x, x ∈ l -> f x = h x) -> existsb f l = existsb h l.
Proof. induction l as [|x l IH]; intros E; [done|]. cbn. rewrite (E x) by left. rewrite IH; [done|]. intros y Hy. apply E. by right. Qed.

Lemma filter_concat {A} (f : A -> bool) l : List.filter f (concat l) = concat (map (List.filter f) l).
Proof. induction l as [|k l IH]; [done|]. cbn [concat map]. by rewrite List.filter_app, IH. Qed.

Lemma filter_all {A} (f : A -> bool) l : (forall x, x ∈ l -> f x = true) -> List.filter f l = l.
Proof. induction l as [|x l IH]; intros E; [done|]. cbn. rewrite (E x) by left. rewrite IH; [done|]. intros y Hy. apply E. by right. Qed.

Lemma filter_none {A} (f : A -> bool) l : (forall x, x ∈ l -> f x = false) -> List.filter f l = [].
Proof. induction l as [|x l IH]; intros E; [done|]. cbn. rewrite (E x) by left. apply IH. intros y Hy. apply E. by right. Qed.

(** The numbers of an interval that satisfy a condition true exactly in a smaller one. *)
Lemma filter_seqZ (f : Z -> bool) a n lo hi : a <= lo -> hi < a + n -> lo <= hi + 1 ->
  (forall x, a <= x < a + n -> f x = true <-> lo <= x <= hi) -> List.filter f (seqZ a n) = seqZ lo (hi - lo + 1).
Proof.
  intros Ha Hn Hl Hf. assert (forall x, a <= x < a + n -> (x < lo \/ hi < x) -> f x = false) as Hf0.
  { intros x Hx Ho. destruct (f x) eqn:E; [|done]. apply Hf in E; lia. }
  replace n with ((lo - a) + ((hi - lo + 1) + (a + n - hi - 1))) by lia. rewrite !seqZ_app by lia. rewrite !List.filter_app.
  rewrite filter_none, (filter_all f (seqZ _ (hi - lo + 1))), filter_none, app_nil_r by (intros x Hx%elem_of_seqZ; first [apply Hf0; lia|apply Hf; lia]).
  cbn [app]. f_equal. lia.
Qed.

Lemma concat_map_filter {A B} (P : A -> bool) (f : A -> list B) l : (forall x, x ∈ l -> P x = false -> f x = []) ->
  concat (map f l) = concat (map f (List.filter P l)).
Proof.
  induction l as [|x l IH]; intros E; [done|]. cbn [map concat List.filter]. rewrite IH by (intros y Hy; apply E; by right).
  destruct (P x) eqn:Hx; [done|]. rewrite (E x) by (done || left). done.
Qed.

(** An array row by row. *)
Lemma array_rows W (g : list Z) n : 0 <= W -> 0 <= n -> concat (map (fun y => ztake W (zdrop (y * W) g)) (seqZ 0 n)) = ztake (n * W) g.
Proof.
  intros HW Hn. pattern n. apply natlike_ind; [done| |done]. clear n Hn. intros n Hn IH.
  replace (Z.succ n) with (n + 1) by lia. rewrite seqZ_app, map_app, concat_app, IH by lia. change (seqZ (0 + n) 1) with [0 + n]. cbn [map concat]. rewrite app_nil_r.
  pose proof (chunk_split g 0 (n * W) ((n + 1) * W)) as Hs. rewrite zdrop_0, Z.sub_0_r, !Z.add_0_l in Hs. rewrite Hs by nia. do 2 f_equal. lia.
Qed.

Lemma array_row W (g : list Z) x1 x2 y : 0 <= x1 -> x1 <= x2 + 1 -> 0 <= y -> 0 <= W -> y * W + x2 < zlen g ->
  ztake (x2 - x1 + 1) (zdrop (y * W + x1) g) = map (fun p => at_ g (p.2 * W + p.1)) (row x1 x2 y).
Proof.
  intros H1 H2 Hy HW Hl. rewrite <- map_at_seqZ by nia. unfold row. rewrite map_map. cbn [fst snd].
  rewrite <- (fmap_add_seqZ (y * W) x1). rewrite map_map. apply map_ext. intros x. done.
Qed.

Lemma array_box W H (g : list Z) : 0 < W -> 0 < H -> zlen g = W * H -> map (fun p => at_ g (p.2 * W + p.1)) (box 0 0 (W - 1) (H - 1)) = g.
Proof.
  intros HW HH Hl. unfold box. rewrite concat_map, map_map. replace (H - 1 - 0 + 1) with H by lia. transitivity (concat (map (fun y => ztake W (zdrop (y * W) g)) (seqZ 0 H))).
  - f_equal. apply map_ext_in. intros y Hy. rewrite <- list_elem_of_In, elem_of_seqZ in Hy. rewrite <- array_row by nia. f_equal; [lia|]. f_equal. lia.
  - rewrite array_rows by lia. apply ztake_all. lia.
Qed.
