(* ===== verification/Grid.v ===== *)
(** * The layered grid: [GridBitset] of [buf/grid_bitset.hpp]

    Each cell of the grid is one 64-bit word, a bit per layer.  The template parameters are
    arguments; the assertions of the code are the preconditions of the theorems.  Every
    write to a cell is one atomic operation, so a sequence of operations below is also any
    interleaving of the single-cell writes of several threads. *)

From stdpp Require Import gmap.
From S2P Require Import Prelude Bits GridScan.
#[local] Open Scope Z_scope.

Section grid.
Context (W H D : Z).

Definition kLayerMask : Z := if D =? 64 then UINT64_MAX else (1 << D) - 1.

Definition kCells : Z := W * H.

Definition flat (x y : Z) : Z := y * W + x.

(** The array [cells_]. *)
Definition new_grid : list Z := replicate (Z.to_nat kCells) 0.

Definition cell (g : list Z) (x y : Z) : Z := at_ g (flat x y).

Definition put (g : list Z) (x y v : Z) : list Z := <[Z.to_nat (flat x y) := v]> g.

Definition fetch_or (g : list Z) (x y m : Z) : list Z := put g x y (cell g x y .| m).
Definition fetch_and (g : list Z) (x y m : Z) : list Z := put g x y (cell g x y .& m).
Definition fetch_xor (g : list Z) (x y m : Z) : list Z := put g x y (cell g x y .^ m).

(** [~m] *)
Definition not64 (m : Z) : Z := u64 (Z.lnot m).

(** ** Writing *)

Definition set (g : list Z) (x y layer : Z) : list Z := fetch_or g x y (1 << layer).

Definition clear (g : list Z) (x y layer : Z) : list Z := fetch_and g x y (not64 (1 << layer)).

Definition set_column (g : list Z) (x y mask : Z) : list Z := fetch_or g x y (mask .& kLayerMask).

Definition store_column (g : list Z) (x y mask : Z) : list Z := put g x y (mask .& kLayerMask).

Definition clear_all (g : list Z) (x y : Z) : list Z := put g x y 0.

Definition reset (g : list Z) : list Z := map (fun _ => 0) g.

Definition toggle (g : list Z) (x y layer : Z) : list Z * bool :=
  let bit := 1 << layer in
  let prev := cell g x y in
  (fetch_xor g x y bit, prev .& bit =? 0).

Definition clear_box (g : list Z) (x1 y1 x2 y2 from to : Z) : list Z :=
  let mask := not64 (layer_range_mask from to) in
  foldl (fun g p => fetch_and g p.1 p.2 mask) g (box x1 y1 x2 y2).

Definition merge_from (g other : list Z) : list Z := zip_with (fun c o => c .| (o .& kLayerMask)) g other.

Definition intersect_with (g other : list Z) : list Z := zip_with (fun c o => let keep := o .& kLayerMask in c .& keep) g other.

Definition diff_from (g other : list Z) : list Z := zip_with (fun c o => let remove := o .& kLayerMask in c .& not64 remove) g other.

(** ** Reading *)

Definition test (g : list Z) (x y layer : Z) : bool := negb ((cell g x y >> layer) .& 1 =? 0).

Definition any_in_range (g : list Z) (x y from to : Z) : bool := negb (cell g x y .& layer_range_mask from to =? 0).

Definition snapshot (g : list Z) (x y : Z) : Z := cell g x y.

Definition any_in_column (g : list Z) (x y : Z) : bool := negb (cell g x y =? 0).

Definition lowest_layer (g : list Z) (x y : Z) : Z :=
  let snap := cell g x y .& kLayerMask in if snap =? 0 then D else ctz 64 snap.

(** [std::countl_zero] of a word that is not zero. *)
Definition countl_zero (v : Z) : Z := 63 - Z.log2 v.

Definition highest_layer (g : list Z) (x y : Z) : Z :=
  let snap := cell g x y .& kLayerMask in if snap =? 0 then D else 63 - countl_zero snap.

Definition count_layers (g : list Z) (x y : Z) : Z := popcount 64 (cell g x y .& kLayerMask).

Definition count_total (g : list Z) : Z := foldl (fun total c => u32 (total + popcount 64 (c .& kLayerMask))) 0 g.

Definition any_in_box (tgt : target) (g : list Z) (x1 y1 x2 y2 from to : Z) : bool :=
  let mask := layer_range_mask from to in
  existsb (fun ry => scan_row_any tgt (zdrop (ry * W + x1) g) (x2 - x1 + 1) mask) (seqZ y1 (y2 - y1 + 1)).

Definition count_in_box (tgt : target) (g : list Z) (x1 y1 x2 y2 from to : Z) : Z :=
  let mask := layer_range_mask from to in
  foldl (fun count ry => u32 (count + scan_row_count tgt (zdrop (ry * W + x1) g) (x2 - x1 + 1) mask)) 0 (seqZ y1 (y2 - y1 + 1)).

(** The rows a circle touches and the cells of one of them. *)
Definition disc_rows (cy r : Z) : list Z :=
  let y_lo := Z.max 0 (cy - r) in
  let y_hi := Z.min (H - 1) (cy + r) in
  seqZ y_lo (y_hi - y_lo + 1).

Definition extent (cx cy r ry : Z) : Z * Z :=
  let r2 := r * r in
  let dy := ry - cy in
  let half := sqrt_trunc (r2 - dy * dy) in
  (Z.max 0 (cx - half), Z.min (W - 1) (cx + half)).

Definition any_in_radius (tgt : target) (g : list Z) (cx cy r from to : Z) : bool :=
  let mask := layer_range_mask from to in
  existsb (fun ry => let '(x_lo, x_hi) := extent cx cy r ry in scan_row_any tgt (zdrop (ry * W + x_lo) g) (x_hi - x_lo + 1) mask) (disc_rows cy r).

Definition count_in_radius (tgt : target) (g : list Z) (cx cy r from to : Z) : Z :=
  let mask := layer_range_mask from to in
  foldl (fun count ry => let '(x_lo, x_hi) := extent cx cy r ry in
           u32 (count + scan_row_count tgt (zdrop (ry * W + x_lo) g) (x_hi - x_lo + 1) mask)) 0 (disc_rows cy r).

(** The calls of [fn], in order. *)
Definition visit (g : list Z) (mask : Z) (cells : list (Z * Z)) : list (Z * Z * Z) :=
  concat (map (fun p => let snap := cell g p.1 p.2 .& mask in if snap =? 0 then [] else [(p, snap)]) cells).

Definition for_each_set (g : list Z) : list (Z * Z * Z) := visit g kLayerMask (box 0 0 (W - 1) (H - 1)).

Definition for_each_set_in_box (g : list Z) (x1 y1 x2 y2 from to : Z) : list (Z * Z * Z) :=
  visit g (layer_range_mask from to) (box x1 y1 x2 y2).

Definition for_each_set_in_radius (g : list Z) (cx cy r from to : Z) : list (Z * Z * Z) :=
  visit g (layer_range_mask from to) (concat (map (fun ry => let '(x_lo, x_hi) := extent cx cy r ry in row x_lo x_hi ry) (disc_rows cy r))).

(** ** Ray casting *)

Record RayHit := mkHit { hit_x : Z; hit_y : Z; layer_mask : Z; hit_steps : Z }.

Definition outside (cx cy : Z) : bool := (cx <? 0) || (cy <? 0) || (W <=? cx) || (H <=? cy).

Fixpoint ray_loop (n : nat) (g : list Z) (range_mask sx sy adx ady : Z) (p : Z * Z * Z) (step : Z) : ray_result RayHit :=
  match n with
  | O => Miss
  | S n =>
      let '(cx, cy, _) := p in
      if outside cx cy then Miss else
      let snap := cell g cx cy .& range_mask in
      if negb (snap =? 0) then Hit (mkHit cx cy snap step) else
      match advance sx sy adx ady p with
      | Some p => ray_loop n g range_mask sx sy adx ady p (step + 1)
      | None => Overflow
      end
  end.

Definition sign (d : Z) : Z := if 0 <? d then 1 else if d <? 0 then -1 else 0.

Definition raycast (g : list Z) (x0 y0 dx dy from to max_steps : Z) : ray_result RayHit :=
  let range_mask := layer_range_mask from to in
  match int32 (if dx <? 0 then - dx else dx), int32 (if dy <? 0 then - dy else dy) with
  | Some adx, Some ady =>
      match int32 (adx - ady) with
      | Some err => ray_loop (Z.to_nat max_steps) g range_mask (sign dx) (sign dy) adx ady (x0, y0, err) 0
      | None => Overflow
      end
  | _, _ => Overflow
  end.

(** ** The set of occupied voxels *)

Definition inside (x y : Z) : Prop := 0 <= x < W /\ 0 <= y < H.

Definition voxels (g : list Z) : gset (Z * Z * Z) :=
  list_to_set (concat (map (fun p => map (pair p) (base.filter (fun l => Z.testbit (cell g p.1 p.2) l = true) (seqZ 0 D))) (box 0 0 (W - 1) (H - 1)))).

Record wf (g : list Z) : Prop := {
  wf_len : zlen g = kCells;
  wf_cells : Forall (in_range D) g;
}.

End grid.

(** ** Cells and voxels *)

Section correctness.
Context (W H D : Z) (HW : 0 < W < 2 ^ 32) (HH : 0 < H < 2 ^ 32) (HD : 1 <= D <= 64).
Implicit Types (g : list Z) (x y l layer : Z).
#[local] Abbreviation cell := (cell W).
#[local] Abbreviation put := (put W).
#[local] Abbreviation wf := (wf W H D).
#[local] Abbreviation inside := (inside W H).
#[local] Abbreviation voxels := (voxels W H D).
#[local] Abbreviation kLayerMask := (kLayerMask D).

Lemma flat_range x y : inside x y -> 0 <= flat W x y < W * H.
Proof. intros [Hx Hy]. unfold flat. nia. Qed.

Lemma flat_inj x y x' y' : inside x y -> inside x' y' -> flat W x y = flat W x' y' -> x = x' /\ y = y'.
Proof. intros [Hx Hy] [Hx' Hy'] E. unfold flat in E. assert (y = y') by nia. subst y'. lia. Qed.

Lemma cell_put g x y v x' y' : wf g -> inside x y -> inside x' y' -> cell (put g x y v) x' y' = if decide ((x', y') = (x, y)) then v else cell g x' y'.
Proof.
  intros [Hlen _] Hi Hi'. pose proof (flat_range x y Hi) as Hr. pose proof (flat_range x' y' Hi') as Hr'. unfold Grid.cell, Grid.put, at_. rewrite !nth_lookup.
  unfold kCells, zlen in Hlen. destruct (decide ((x', y') = (x, y))) as [[= -> ->]|Hne].
  - by rewrite list_lookup_insert_eq by lia.
  - rewrite list_lookup_insert_ne; [done|]. intros E. apply Hne. destruct (flat_inj x y x' y') as [-> ->]; [done|done|lia|done].
Qed.

Lemma wf_put g x y v : wf g -> in_range D v -> wf (put g x y v).
Proof. intros [Hlen Hc] Hv. split; [unfold zlen, Grid.put in *; by rewrite length_insert|]. by apply Forall_insert. Qed.

Lemma cell_range g x y : wf g -> in_range D (cell g x y).
Proof. intros [_ Hc]. apply at_range; [lia|done]. Qed.

Lemma cell_bits g x y k : wf g -> D <= k -> Z.testbit (cell g x y) k = false.
Proof. intros Hg Hk. by apply (range_testbit D), Hk; apply cell_range. Qed.

Lemma kLayerMask_spec k : 0 <= k -> Z.testbit kLayerMask k = bool_decide (k < D).
Proof.
  intros Hk. unfold Grid.kLayerMask. destruct (Z.eqb_spec D 64) as [->|Hne].
  - change UINT64_MAX with (Z.ones 64). rewrite Z.testbit_ones_nonneg by lia. case_bool_decide; [by apply Z.ltb_lt|apply Z.ltb_ge; lia].
  - replace ((1 << D) - 1) with (Z.ones D) by (rewrite Z.ones_equiv, Z.shiftl_1_l; lia). rewrite Z.testbit_ones_nonneg by lia.
    case_bool_decide; [by apply Z.ltb_lt|apply Z.ltb_ge; lia].
Qed.

Lemma land_layers m : 0 <= m -> in_range D (m .& kLayerMask).
Proof.
  intros Hm. apply testbit_range; [lia|apply Z.land_nonneg; by left|]. intros i Hi. rewrite Z.land_spec, kLayerMask_spec, bool_decide_eq_false_2, andb_false_r by lia. done.
Qed.

Lemma cell_layers g x y : wf g -> cell g x y .& kLayerMask = cell g x y.
Proof.
  intros Hg. apply Z.bits_inj'. intros k Hk. rewrite Z.land_spec, kLayerMask_spec by done. case_bool_decide; [by rewrite andb_true_r|].
  rewrite andb_false_r, cell_bits by (done || lia). done.
Qed.

Lemma elem_voxels g p l : (p, l) ∈ voxels g <-> inside p.1 p.2 /\ 0 <= l < D /\ Z.testbit (cell g p.1 p.2) l = true.
Proof.
  unfold Grid.voxels. rewrite elem_of_list_to_set, elem_concat. setoid_rewrite list_elem_of_fmap. split.
  - intros (k & (q & -> & Hq%elem_box) & (l' & [= -> ->] & [Hb Hl%elem_of_seqZ]%list_elem_of_filter)%list_elem_of_fmap). split; [split; lia|]. split; [lia|done].
  - intros (Hi & Hl & Hb). eexists. split; [exists p; split; [done|apply elem_box; destruct Hi; lia]|]. apply list_elem_of_fmap.
    exists l. split; [done|]. apply list_elem_of_filter. split; [done|]. apply elem_of_seqZ. lia.
Qed.

(** ** Writes *)

Lemma put_voxels g x y (v : Z) p l : wf g -> inside x y -> (p, l) ∈ voxels (put g x y v) <->
  if decide (p = (x, y)) then 0 <= l < D /\ Z.testbit v l = true else (p, l) ∈ voxels g.
Proof.
  intros Hg Hi. rewrite elem_voxels. destruct p as [x' y']. cbn [fst snd]. destruct (decide ((x', y') = (x, y))) as [E|E].
  - injection E as -> ->. rewrite cell_put, decide_True by done. naive_solver.
  - rewrite elem_voxels. cbn [fst snd]. split; intros (Hi' & H1 & H2); (split; [done|]); (split; [done|]); rewrite cell_put, decide_False in * by done; done.
Qed.

Lemma fetch_and_all g mask cells : wf g -> 0 <= mask -> Forall (fun p => inside p.1 p.2) cells ->
  let g' := foldl (fun g p => fetch_and W g p.1 p.2 mask) g cells in
  wf g' /\ forall p, inside p.1 p.2 -> cell g' p.1 p.2 = if decide (p ∈ cells) then cell g p.1 p.2 .& mask else cell g p.1 p.2.
Proof.
  intros Hg Hm Hc. revert g Hg. induction Hc as [|q cells Hq Hc IH]; intros g Hg; cbn [foldl]; cbn zeta.
  - split; [done|]. intros p _. rewrite decide_False by apply not_elem_of_nil. done.
  - assert (wf (fetch_and W g q.1 q.2 mask)) as Hg1 by (apply wf_put; [done|]; apply land_range; [lia|by apply cell_range|done]).
    destruct (IH _ Hg1) as [Hg2 H2]. split; [done|]. intros p Hp. rewrite (H2 p Hp). unfold fetch_and. rewrite cell_put by done.
    rewrite <- !surjective_pairing. destruct (decide (p = q)) as [->|Hne].
    + rewrite (decide_True (P := q ∈ q :: cells)) by left. destruct (decide (q ∈ cells)); [|done]. by rewrite <- Z.land_assoc, Z.land_diag.
    + destruct (decide (p ∈ cells)) as [Hin|Hin]; [rewrite decide_True by (by right); done|]. rewrite decide_False; [done|]. by intros [?|?]%elem_of_cons.
Qed.

Lemma cell_zip f g o x y : wf g -> wf o -> inside x y -> cell (zip_with f g o) x y = f (cell g x y) (cell o x y).
Proof.
  intros [Hg _] [Ho _] Hi. pose proof (flat_range x y Hi). unfold Grid.cell, at_, zlen, kCells in *. rewrite !nth_lookup, lookup_zip_with.
  destruct (lookup_lt_is_Some_2 g (Z.to_nat (flat W x y))) as [a ->]; [lia|]. destruct (lookup_lt_is_Some_2 o (Z.to_nat (flat W x y))) as [b ->]; [lia|]. done.
Qed.

Lemma wf_zip f g o : wf g -> wf o -> (forall a b, in_range D a -> in_range D b -> in_range D (f a b)) -> wf (zip_with f g o).
Proof.
  intros [Hg Hcg] [Ho Hco] Hf. unfold zlen in *. split; [unfold zlen; rewrite length_zip_with; lia|]. clear Hg Ho. revert o Hco.
  induction Hcg as [|a g Ha Hcg IH]; intros o Hco; [constructor|]. destruct Hco as [|b o Hb Hco]; [constructor|]. constructor; [by apply Hf|by apply IH].
Qed.

Lemma not64_spec m k : 0 <= k < 64 -> Z.testbit (not64 m) k = negb (Z.testbit m k).
Proof. intros Hk. unfold not64. rewrite wrap_testbit, bool_decide_eq_true_2, Z.lnot_spec by lia. done. Qed.

Lemma not64_nonneg m : 0 <= not64 m.
Proof. apply (wrap_range 64). lia. Qed.
End correctness.

(** ** The operations on sets of voxels *)

Section operations.
Context (W H D : Z).

Inductive op :=
  | Set_ (x y layer : Z) | Clear (x y layer : Z) | SetColumn (x y mask : Z) | StoreColumn (x y mask : Z) | ClearAll (x y : Z) | Reset
  | Toggle (x y layer : Z) | ClearBox (x1 y1 x2 y2 from to : Z) | MergeFrom (other : list Z) | IntersectWith (other : list Z) | DiffFrom (other : list Z).

Definition apply (g : list Z) (o : op) : list Z :=
  match o with
  | Set_ x y layer => set W g x y layer
  | Clear x y layer => clear W g x y layer
  | SetColumn x y mask => set_column W D g x y mask
  | StoreColumn x y mask => store_column W D g x y mask
  | ClearAll x y => clear_all W g x y
  | Reset => reset g
  | Toggle x y layer => (toggle W g x y layer).1
  | ClearBox x1 y1 x2 y2 from to => clear_box W g x1 y1 x2 y2 from to
  | MergeFrom other => merge_from D g other
  | IntersectWith other => intersect_with D g other
  | DiffFrom other => diff_from D g other
  end.

(** The assertions of the code. *)
Definition valid (o : op) : Prop :=
  match o with
  | Set_ x y layer | Clear x y layer | Toggle x y layer => inside W H x y /\ 0 <= layer < D
  | SetColumn x y mask | StoreColumn x y mask => inside W H x y /\ in_range 64 mask
  | ClearAll x y => inside W H x y
  | Reset => True
  | ClearBox x1 y1 x2 y2 from to => inside W H x1 y1 /\ inside W H x2 y2 /\ x1 <= x2 /\ y1 <= y2 /\ 0 <= from <= to /\ to < D
  | MergeFrom other | IntersectWith other | DiffFrom other => wf W H D other
  end.

Definition column (x y mask : Z) : gset (Z * Z * Z) := list_to_set (map (pair (x, y)) (base.filter (fun l => Z.testbit mask l = true) (seqZ 0 D))).

Definition spec (S : gset (Z * Z * Z)) (o : op) : gset (Z * Z * Z) :=
  match o with
  | Set_ x y layer => {[(x, y, layer)]} ∪ S
  | Clear x y layer => S ∖ {[(x, y, layer)]}
  | SetColumn x y mask => column x y mask ∪ S
  | StoreColumn x y mask => column x y mask ∪ base.filter (fun v => v.1 <> (x, y)) S
  | ClearAll x y => base.filter (fun v => v.1 <> (x, y)) S
  | Reset => ∅
  | Toggle x y layer => if decide ((x, y, layer) ∈ S) then S ∖ {[(x, y, layer)]} else {[(x, y, layer)]} ∪ S
  | ClearBox x1 y1 x2 y2 from to => base.filter (fun v => ~ (x1 <= v.1.1 <= x2 /\ y1 <= v.1.2 <= y2 /\ from <= v.2 <= to)) S
  | MergeFrom other => S ∪ voxels W H D other
  | IntersectWith other => S ∩ voxels W H D other
  | DiffFrom other => S ∖ voxels W H D other
  end.
End operations.

Section refinement.
Context (W H D : Z) (HW : 0 < W < 2 ^ 32) (HH : 0 < H < 2 ^ 32) (HD : 1 <= D <= 64).
Implicit Types (g : list Z) (x y l layer : Z).
#[local] Abbreviation cell := (cell W).
#[local] Abbreviation put := (put W).
#[local] Abbreviation wf := (wf W H D).
#[local] Abbreviation inside := (inside W H).
#[local] Abbreviation voxels := (voxels W H D).

Lemma grid_put_spec g x y (v : Z) (S : gset (Z * Z * Z)) : wf g -> inside x y -> in_range D v ->
  (forall p l, (p, l) ∈ S <-> if decide (p = (x, y)) then 0 <= l < D /\ Z.testbit v l = true else (p, l) ∈ voxels g) ->
  wf (put g x y v) /\ voxels (put g x y v) = S.
Proof.
  intros Hg Hi Hv HS. split; [by apply wf_put|]. apply set_eq. intros [p l]. rewrite HS. by apply put_voxels.
Qed.

Lemma elem_column x y mask p l : (p, l) ∈ column D x y mask <-> p = (x, y) /\ 0 <= l < D /\ Z.testbit mask l = true.
Proof.
  unfold column. rewrite elem_of_list_to_set, list_elem_of_fmap. split.
  - intros (l' & [= -> ->] & [Hb Hl%elem_of_seqZ]%list_elem_of_filter). split; [done|]. split; [lia|done].
  - intros (-> & Hl & Hb). exists l. split; [done|]. apply list_elem_of_filter. split; [done|]. apply elem_of_seqZ. lia.
Qed.

Lemma voxels_here g x y l : inside x y -> ((x, y), l) ∈ voxels g <-> 0 <= l < D /\ Z.testbit (cell g x y) l = true.
Proof. intros Hi. rewrite elem_voxels by done. cbn [fst snd]. tauto. Qed.

(** A write to one cell that changes one bit. *)
Lemma one_bit g x y layer (b : bool) (v : Z) (S : gset (Z * Z * Z)) : wf g -> inside x y -> 0 <= layer < D -> in_range D v ->
  (forall l, 0 <= l < D -> Z.testbit v l = if decide (l = layer) then b else Z.testbit (cell g x y) l) ->
  S = (if b then {[(x, y, layer)]} ∪ voxels g else voxels g ∖ {[(x, y, layer)]}) ->
  wf (put g x y v) /\ voxels (put g x y v) = S.
Proof.
  intros Hg Hi Hl Hv Hbits ->. apply grid_put_spec; try done. intros p l. assert ((p, l) = (x, y, layer) <-> p = (x, y) /\ l = layer) as Hpair by naive_solver.
  destruct b; rewrite ?elem_of_union, ?elem_of_difference, elem_of_singleton, Hpair.
  - destruct (decide (p = (x, y))) as [->|]; [|naive_solver]. rewrite voxels_here by done. split.
    + intros [[_ ->]|[Hr Hb]]; (split; [done|]); rewrite Hbits by done; by destruct (decide _).
    + intros [Hr Hb]. rewrite Hbits in Hb by done. destruct (decide (l = layer)); tauto.
  - destruct (decide (p = (x, y))) as [->|]; [|naive_solver]. rewrite voxels_here by done. split.
    + intros [[Hr Hb] Hne]. split; [done|]. rewrite Hbits, decide_False by tauto. done.
    + intros [Hr Hb]. rewrite Hbits in Hb by done. destruct (decide (l = layer)); naive_solver.
Qed.

Lemma set_spec g x y layer : wf g -> inside x y -> 0 <= layer < D ->
  wf (set W g x y layer) /\ voxels (set W g x y layer) = {[(x, y, layer)]} ∪ voxels g.
Proof.
  intros Hg Hi Hl. apply (one_bit g x y layer true); try done; [apply lor_range; [lia|by eapply cell_range|by apply bit_range]|].
  intros l Hr. rewrite Z.lor_spec, bit_spec by lia. destruct (decide (l = layer)); [rewrite bool_decide_eq_true_2, orb_true_r by done|rewrite bool_decide_eq_false_2, orb_false_r by done]; done.
Qed.

Lemma clear_spec g x y layer : wf g -> inside x y -> 0 <= layer < D ->
  wf (clear W g x y layer) /\ voxels (clear W g x y layer) = voxels g ∖ {[(x, y, layer)]}.
Proof.
  intros Hg Hi Hl. apply (one_bit g x y layer false); try done; [apply land_range; [lia|by eapply cell_range|apply not64_nonneg]|].
  intros l Hr. rewrite Z.land_spec, not64_spec, bit_spec by lia. destruct (decide (l = layer)); [rewrite bool_decide_eq_true_2, andb_false_r by done|rewrite bool_decide_eq_false_2, andb_true_r by done]; done.
Qed.

Lemma toggle_spec g x y layer : wf g -> inside x y -> 0 <= layer < D ->
  let was := bool_decide ((x, y, layer) ∈ voxels g) in
  (toggle W g x y layer).2 = negb was /\ wf (toggle W g x y layer).1 /\
  voxels (toggle W g x y layer).1 = if was then voxels g ∖ {[(x, y, layer)]} else {[(x, y, layer)]} ∪ voxels g.
Proof.
  intros Hg Hi Hl. cbn zeta. assert (bool_decide ((x, y, layer) ∈ voxels g) = Z.testbit (cell g x y) layer) as ->.
  { apply eq_true_iff_eq. rewrite bool_decide_eq_true, voxels_here by done. tauto. }
  cbn [toggle fst snd]. unfold toggle. cbn zeta. cbn [fst snd]. split.
  - apply eq_true_iff_eq. rewrite Z.eqb_eq, negb_true_iff. split.
    + intros E. assert (Z.testbit (cell g x y .& (1 << layer)) layer = false) as Hb by by rewrite E, Z.bits_0.
      rewrite Z.land_spec, bit_spec, bool_decide_eq_true_2, andb_true_r in Hb by (done || lia). done.
    + intros E. apply Z.bits_inj'. intros k Hk. rewrite Z.bits_0, Z.land_spec, bit_spec by lia. case_bool_decide; [subst; by rewrite E|by rewrite andb_false_r].
  - apply (one_bit g x y layer (negb (Z.testbit (cell g x y) layer))); try done; [apply lxor_range; [lia|by eapply cell_range|by apply bit_range]| |by destruct (Z.testbit _ _)].
    intros l Hr. rewrite Z.lxor_spec, bit_spec by lia. destruct (decide (l = layer)) as [->|]; [rewrite bool_decide_eq_true_2, xorb_true_r by done|rewrite bool_decide_eq_false_2, xorb_false_r by done]; done.
Qed.

Lemma set_column_spec g x y mask : wf g -> inside x y -> in_range 64 mask ->
  wf (set_column W D g x y mask) /\ voxels (set_column W D g x y mask) = column D x y mask ∪ voxels g.
Proof.
  intros Hg Hi Hm. apply grid_put_spec; try done; [apply lor_range; [lia|by eapply cell_range|apply land_layers; [done|apply Hm]]|].
  intros p l. rewrite elem_of_union, elem_column. destruct (decide (p = (x, y))) as [->|]; [|naive_solver]. rewrite voxels_here by done.
  split; [intros H0|intros [Hl Hb]].
  - split; [naive_solver|]. assert (0 <= l < D) as Hl by naive_solver. rewrite Z.lor_spec, Z.land_spec, kLayerMask_spec, bool_decide_eq_true_2, andb_true_r by (done || lia).
    destruct H0 as [(_ & _ & ->)|[_ ->]]; [by rewrite orb_true_r|done].
  - rewrite Z.lor_spec, Z.land_spec, kLayerMask_spec, bool_decide_eq_true_2, andb_true_r, orb_true_iff in Hb by (done || lia). naive_solver.
Qed.

Lemma store_column_spec g x y mask : wf g -> inside x y -> in_range 64 mask ->
  wf (store_column W D g x y mask) /\ voxels (store_column W D g x y mask) = column D x y mask ∪ base.filter (fun v => v.1 <> (x, y)) (voxels g).
Proof.
  intros Hg Hi Hm. apply grid_put_spec; try done; [apply land_layers; [done|apply Hm]|].
  intros p l. rewrite elem_of_union, elem_column, elem_of_filter. cbn [fst]. destruct (decide (p = (x, y))) as [->|]; [|naive_solver].
  assert (0 <= l < D -> Z.testbit (mask .& kLayerMask D) l = Z.testbit mask l) as E.
  { intros Hl. rewrite Z.land_spec, kLayerMask_spec, bool_decide_eq_true_2, andb_true_r by (done || lia). done. }
  split; [intros [(_ & Hl & Hb)|[? _]]; [|done]|intros [Hl Hb]]; [by rewrite E|]. rewrite E in Hb by done. by left.
Qed.

Lemma clear_all_spec g x y : wf g -> inside x y ->
  wf (clear_all W g x y) /\ voxels (clear_all W g x y) = base.filter (fun v => v.1 <> (x, y)) (voxels g).
Proof.
  intros Hg Hi. apply grid_put_spec; try done; [split; [lia|]; apply Z.pow_pos_nonneg; lia|]. intros p l. rewrite elem_of_filter. cbn [fst].
  destruct (decide (p = (x, y))) as [->|]; [|naive_solver]. rewrite Z.bits_0. naive_solver.
Qed.

Lemma zeros_spec g : zlen g = kCells W H -> Forall (eq 0) g -> wf g /\ voxels g = ∅.
Proof.
  intros Hl Hz. split.
  - split; [done|]. eapply Forall_impl; [exact Hz|]. intros ? <-. split; [lia|]. apply Z.pow_pos_nonneg; lia.
  - apply set_eq. intros [p l]. rewrite elem_voxels by done. assert (cell g p.1 p.2 = 0) as ->.
    { unfold Grid.cell, at_. destruct (nth_in_or_default (Z.to_nat (flat W p.1 p.2)) g 0) as [Hin|E]; [|done]. rewrite <- list_elem_of_In in Hin. rewrite Forall_forall in Hz. symmetry. by apply Hz. }
    rewrite Z.bits_0. split; [by intros (_ & _ & ?)|by intros ?%not_elem_of_empty].
Qed.

Lemma reset_spec g : wf g -> wf (reset g) /\ voxels (reset g) = ∅.
Proof. intros [Hl _]. apply zeros_spec; [unfold reset; by rewrite zlen_map|]. apply Forall_map, Forall_true. done. Qed.

Lemma new_spec : wf (new_grid W H) /\ voxels (new_grid W H) = ∅.
Proof. apply zeros_spec; [unfold new_grid; rewrite zlen_replicate; unfold kCells; nia|]. by apply Forall_replicate. Qed.

Lemma clear_box_spec g x1 y1 x2 y2 from to : wf g -> inside x1 y1 -> inside x2 y2 -> x1 <= x2 -> y1 <= y2 -> 0 <= from <= to -> to < D ->
  wf (clear_box W g x1 y1 x2 y2 from to) /\
  voxels (clear_box W g x1 y1 x2 y2 from to) = base.filter (fun v => ~ (x1 <= v.1.1 <= x2 /\ y1 <= v.1.2 <= y2 /\ from <= v.2 <= to)) (voxels g).
Proof.
  intros Hg [Hx1 Hy1] [Hx2 Hy2] Hx Hy Hf Ht. unfold clear_box. cbn zeta.
  destruct (fetch_and_all W H D HW HH HD g (not64 (layer_range_mask from to)) (box x1 y1 x2 y2) Hg) as [Hw Hc].
  { apply not64_nonneg. }
  { apply Forall_forall. intros p Hp%elem_box. split; lia. }
  split; [done|]. apply set_eq. intros [p l]. rewrite elem_of_filter, !elem_voxels by done. cbn [fst snd]. split.
  - intros (Hi & Hl & Hb). rewrite Hc in Hb by done. destruct (decide (p ∈ box x1 y1 x2 y2)) as [Hp|Hp].
    + rewrite Z.land_spec, not64_spec, layer_range_mask_spec in Hb by lia. apply andb_true_iff in Hb as [Hb Hn]. split; [|done].
      intros (_ & _ & Hr). rewrite (proj2 (Z.leb_le from l)), (proj2 (Z.leb_le l to)) in Hn by lia. done.
    + split; [|done]. rewrite elem_box in Hp. tauto.
  - intros (Hn & Hi & Hl & Hb). split; [done|]. split; [done|]. rewrite Hc by done. destruct (decide (p ∈ box x1 y1 x2 y2)) as [Hp|Hp]; [|done].
    rewrite Z.land_spec, Hb, not64_spec, layer_range_mask_spec by lia. apply elem_box in Hp. cbn [andb]. apply negb_true_iff, andb_false_iff. rewrite !Z.leb_gt. lia.
Qed.

(** The three operations on whole grids. *)
Lemma zip_spec (f : Z -> Z -> Z) (fb : bool -> bool -> bool) g (o : list Z) (S : gset (Z * Z * Z)) : wf g -> wf o ->
  (forall a b, in_range D a -> in_range D b -> in_range D (f a b) /\ forall l, 0 <= l < D -> Z.testbit (f a b) l = fb (Z.testbit a l) (Z.testbit b l)) ->
  (forall v, v ∈ S <-> fb (bool_decide (v ∈ voxels g)) (bool_decide (v ∈ voxels o)) = true) -> fb false false = false ->
  wf (zip_with f g o) /\ voxels (zip_with f g o) = S.
Proof.
  intros Hg Ho Hf HS H0. split; [apply wf_zip; try done; intros a b Ha Hb; by apply Hf|]. apply set_eq. intros [p l]. rewrite HS, elem_voxels by done.
  assert (forall h, wf h -> bool_decide ((p, l) ∈ voxels h) = bool_decide (inside p.1 p.2 /\ 0 <= l < D) && Z.testbit (cell h p.1 p.2) l) as Hbd.
  { intros h Hh. apply eq_true_iff_eq. rewrite andb_true_iff, !bool_decide_eq_true, elem_voxels by done. tauto. }
  rewrite !Hbd by done. destruct (decide (inside p.1 p.2 /\ 0 <= l < D)) as [[Hi Hl]|Hn].
  - rewrite (bool_decide_eq_true_2 (inside p.1 p.2 /\ 0 <= l < D)) by done. cbn [andb]. erewrite cell_zip by done.
    destruct (Hf (cell g p.1 p.2) (cell o p.1 p.2)) as [_ ->]; [by eapply cell_range|by eapply cell_range|tauto|done].
  - rewrite bool_decide_eq_false_2 by done. cbn [andb]. rewrite H0. split; [tauto|done].
Qed.

Lemma bitwise_spec g o : wf g -> wf o ->
  (wf (merge_from D g o) /\ voxels (merge_from D g o) = voxels g ∪ voxels o) /\
  (wf (intersect_with D g o) /\ voxels (intersect_with D g o) = voxels g ∩ voxels o) /\
  (wf (diff_from D g o) /\ voxels (diff_from D g o) = voxels g ∖ voxels o).
Proof.
  intros Hg Ho. assert (forall b l, in_range D b -> 0 <= l < D -> Z.testbit (b .& kLayerMask D) l = Z.testbit b l) as Hm.
  { intros b l _ Hl. rewrite Z.land_spec, kLayerMask_spec, bool_decide_eq_true_2, andb_true_r by (done || lia). done. }
  assert (forall b, in_range D b -> in_range D (b .& kLayerMask D)) as Hk by (intros b Hb; apply land_layers; [done|apply Hb]).
  split; [|split].
  - apply (zip_spec _ orb); try done; [|intros v; by rewrite elem_of_union, orb_true_iff, !bool_decide_eq_true].
    intros a b Ha Hb. split; [apply lor_range; [lia|done|by apply Hk]|]. intros l Hl. by rewrite Z.lor_spec, Hm.
  - apply (zip_spec _ andb); try done; [|intros v; by rewrite elem_of_intersection, andb_true_iff, !bool_decide_eq_true].
    intros a b Ha Hb. split; [apply land_range; [lia|done|by apply Hk]|]. intros l Hl. by rewrite Z.land_spec, Hm.
  - apply (zip_spec _ (fun a b => a && negb b)); try done.
    + intros a b Ha Hb. split; [apply land_range; [lia|done|apply not64_nonneg]|]. intros l Hl. by rewrite Z.land_spec, not64_spec, Hm by (done || lia).
    + intros v. by rewrite elem_of_difference, andb_true_iff, negb_true_iff, bool_decide_eq_true, bool_decide_eq_false.
Qed.

Lemma apply_spec g o : wf g -> valid W H D o -> wf (apply W D g o) /\ voxels (apply W D g o) = spec W H D (voxels g) o.
Proof.
  intros Hg Hv. destruct o; cbn [apply spec]; cbn [valid] in Hv.
  - by destruct Hv; apply set_spec.
  - by destruct Hv; apply clear_spec.
  - by destruct Hv; apply set_column_spec.
  - by destruct Hv; apply store_column_spec.
  - by apply clear_all_spec.
  - by apply reset_spec.
  - destruct (toggle_spec g x y layer Hg (proj1 Hv) (proj2 Hv)) as (_ & Hw & ->). split; [done|]. destruct (decide _); [by rewrite bool_decide_eq_true_2|by rewrite bool_decide_eq_false_2].
  - apply clear_box_spec; tauto.
  - by apply bitwise_spec.
  - by apply bitwise_spec.
  - by apply bitwise_spec.
Qed.

(** ** Queries *)

(** A cell has a voxel on one of the layers. *)
Definition occupied (S : gset (Z * Z * Z)) (from to : Z) (p : Z * Z) : bool := existsb (fun l => bool_decide ((p, l) ∈ S)) (seqZ from (to - from + 1)).

Definition in_disc (cx cy r : Z) (p : Z * Z) : bool := (p.1 - cx) * (p.1 - cx) + (p.2 - cy) * (p.2 - cy) <=? r * r.

(** The cells that were visited, and the layers that were reported with them. *)
Definition visited (S : gset (Z * Z * Z)) (from to : Z) (cells : list (Z * Z)) (visits : list (Z * Z * Z)) : Prop :=
  map fst visits = List.filter (occupied S from to) cells /\
  Forall (fun v => forall l, 0 <= l -> Z.testbit v.2 l = bool_decide (from <= l <= to /\ (v.1, l) ∈ S)) visits.

Lemma occupied_spec S from to p : occupied S from to p = true <-> exists l, from <= l <= to /\ (p, l) ∈ S.
Proof.
  unfold occupied. rewrite existsb_exists. split.
  - intros (l & Hl & Hb). rewrite <- list_elem_of_In in Hl. apply elem_of_seqZ in Hl. apply bool_decide_eq_true in Hb. exists l. split; [lia|done].
  - intros (l & Hl & Hb). exists l. rewrite <- list_elem_of_In, elem_of_seqZ, bool_decide_eq_true. split; [lia|done].
Qed.

Lemma testbit_voxel g p l : wf g -> inside p.1 p.2 -> 0 <= l -> Z.testbit (cell g p.1 p.2) l = bool_decide ((p, l) ∈ voxels g).
Proof.
  intros Hg Hi Hl. apply eq_true_iff_eq. rewrite bool_decide_eq_true, elem_voxels by done. split; [|tauto]. intros Hb. split; [done|].
  split; [|done]. split; [done|]. destruct (decide (l < D)); [done|]. rewrite (cell_bits W H D HD g p.1 p.2) in Hb; [done|done|lia].
Qed.

Lemma cell_hit g p from to : wf g -> inside p.1 p.2 -> 0 <= from <= to -> to < D ->
  hit (layer_range_mask from to) (cell g p.1 p.2) = occupied (voxels g) from to p.
Proof.
  intros Hg Hi Hf Ht. assert (0 <= cell g p.1 p.2) by (eapply cell_range; done). apply eq_true_iff_eq. rewrite hit_range, occupied_spec by lia.
  split; intros (l & Hl & Hb); exists l; (split; [done|]); [rewrite testbit_voxel in Hb by (done || lia); by apply bool_decide_eq_true in Hb|].
  rewrite testbit_voxel by (done || lia). by apply bool_decide_eq_true.
Qed.

(** The cells of a row lie next to each other. *)
Lemma row_cells g x1 x2 y : wf g -> 0 <= x1 -> x1 <= x2 + 1 -> x2 < W -> 0 <= y < H ->
  ztake (x2 - x1 + 1) (zdrop (y * W + x1) g) = map (fun p => cell g p.1 p.2) (row x1 x2 y).
Proof.
  intros [Hl _] H1 H2 H3 Hy. unfold kCells in Hl. apply array_row; nia.
Qed.

(** The loops over the rows, for any cells [rows y] of row [y]. *)
Lemma rows_any tgt g from to (lo hi : Z -> Z) ys : wf g -> 0 <= from <= to -> to < D ->
  Forall (fun y => 0 <= y < H /\ 0 <= lo y /\ lo y <= hi y + 1 /\ hi y < W) ys ->
  existsb (fun y => scan_row_any tgt (zdrop (y * W + lo y) g) (hi y - lo y + 1) (layer_range_mask from to)) ys =
  existsb (occupied (voxels g) from to) (concat (map (fun y => row (lo y) (hi y) y) ys)).
Proof.
  intros Hg Hf Ht Hys. rewrite existsb_concat, existsb_map. apply existsb_ext. intros y Hy. rewrite Forall_forall in Hys. destruct (Hys y Hy) as (H1 & H2 & H3 & H4).
  assert (Forall (in_range 64) g) as H64.
  { eapply Forall_impl; [apply (wf_cells _ _ _ _ Hg)|]. intros c [Hc1 Hc2]. split; [done|]. eapply Z.lt_le_trans; [exact Hc2|]. apply Z.pow_le_mono_r; lia. }
  rewrite scan_row_any_spec by (try apply Forall_zdrop; try apply layer_range_mask_nonneg; done || lia). rewrite row_cells, existsb_map by done.
  apply existsb_ext. intros p [Hp1 Hp2]%elem_row. apply cell_hit; [done|split; lia|done|done].
Qed.

Lemma rows_count tgt g from to (lo hi : Z -> Z) ys c : wf g -> 0 <= from <= to -> to < D ->
  Forall (fun y => 0 <= y < H /\ 0 <= lo y /\ lo y <= hi y + 1 /\ hi y < W) ys ->
  foldl (fun count y => u32 (count + scan_row_count tgt (zdrop (y * W + lo y) g) (hi y - lo y + 1) (layer_range_mask from to))) (u32 c) ys =
  u32 (c + count_if (occupied (voxels g) from to) (concat (map (fun y => row (lo y) (hi y) y) ys))).
Proof.
  intros Hg Hf Ht Hys. revert c. induction Hys as [|y ys (H1 & H2 & H3 & H4) Hys IH]; intros c; cbn [foldl map concat count_if]; [by rewrite Z.add_0_r|].
  rewrite scan_row_count_spec by (pose proof (wf_len _ _ _ _ Hg) as Hl; unfold kCells in Hl; rewrite zlen_zdrop; nia).
  rewrite wrap_add_l, wrap_add_r, IH, count_if_app, row_cells, count_if_map, Z.add_assoc by done. do 3 f_equal.
  apply count_if_ext. intros p [Hp1 Hp2]%elem_row. apply cell_hit; [done|split; lia|done|done].
Qed.

(** A circle is cut into its rows. *)
Lemma radicand cy r y : 0 <= r < 2 ^ 26 -> cy - r <= y <= cy + r -> 0 <= r * r - (y - cy) * (y - cy) < 2 ^ 52.
Proof.
  intros Hr Hy. change (2 ^ 26) with 67108864 in Hr. change (2 ^ 52) with (67108864 * 67108864). set (d := y - cy). pose proof (Z.square_nonneg d).
  pose proof (Z.mul_nonneg_nonneg (r - d) (r + d)). pose proof (Z.mul_lt_mono_nonneg r 67108864 r 67108864). lia.
Qed.

Lemma extent_spec cx cy r y x : inside cx cy -> 0 <= r < 2 ^ 26 -> 0 <= x < W -> cy - r <= y <= cy + r ->
  in_disc cx cy r (x, y) = true <-> (extent W cx cy r y).1 <= x <= (extent W cx cy r y).2.
Proof.
  intros [Hx Hy] Hr Hx' Hy'. unfold in_disc, extent. cbn zeta. cbn [fst snd]. rewrite Z.leb_le.
  pose proof (radicand cy r y Hr Hy') as Hrad. rewrite sqrt_trunc_spec by done. set (m := r * r - (y - cy) * (y - cy)).
  assert (0 <= m) as Hm by apply Hrad. clear Hrad. destruct (Z.sqrt_spec m Hm) as [H1 H2]. pose proof (Z.sqrt_nonneg m). set (h := Z.sqrt m) in *.
  assert ((x - cx) * (x - cx) <= m <-> - h <= x - cx <= h) as E by (split; [intros Hle; split; nia|intros Hle; nia]).
  unfold m in E. lia.
Qed.

Lemma extent_bounds cx cy r y : inside cx cy -> 0 <= r < 2 ^ 26 -> cy - r <= y <= cy + r ->
  0 <= (extent W cx cy r y).1 <= (extent W cx cy r y).2 /\ (extent W cx cy r y).2 < W.
Proof.
  intros [Hx Hy] Hr Hy'. unfold extent. cbn zeta. cbn [fst snd].
  rewrite sqrt_trunc_spec by by apply radicand. pose proof (Z.sqrt_nonneg (r * r - (y - cy) * (y - cy))). lia.
Qed.

Definition disc_cells cx cy r : list (Z * Z) :=
  concat (map (fun y => row (extent W cx cy r y).1 (extent W cx cy r y).2 y) (disc_rows H cy r)).

Lemma disc_rows_spec cx cy r y : inside cx cy -> 0 <= r -> y ∈ disc_rows H cy r <-> 0 <= y < H /\ cy - r <= y <= cy + r.
Proof. intros [Hx Hy] Hr. unfold disc_rows. cbn zeta. rewrite elem_of_seqZ. lia. Qed.

Lemma disc_cells_spec cx cy r : inside cx cy -> 0 <= r < 2 ^ 26 -> disc_cells cx cy r = List.filter (in_disc cx cy r) (box 0 0 (W - 1) (H - 1)).
Proof.
  intros Hi Hr. unfold box. rewrite filter_concat, map_map. replace (W - 1 - 0 + 1) with W by lia. replace (H - 1 - 0 + 1) with H by lia.
  rewrite (concat_map_filter (fun y => (cy - r <=? y) && (y <=? cy + r))).
  - unfold disc_cells. destruct Hi as [Hx Hy]. f_equal. rewrite (filter_seqZ _ 0 H (Z.max 0 (cy - r)) (Z.min (H - 1) (cy + r))); [|lia|lia|lia|intros z Hz; rewrite andb_true_iff, !Z.leb_le; lia].
    unfold disc_rows. cbn zeta. apply map_ext_in. intros y Hy'. rewrite <- list_elem_of_In, elem_of_seqZ in Hy'.
    destruct (extent_bounds cx cy r y) as [Hb1 Hb2]; [done|done|lia|]. unfold row. rewrite <- (filter_seqZ (fun x => in_disc cx cy r (x, y)) 0 W); [|lia|lia|lia|].
    + replace (W - 1 - 0 + 1) with W by lia. induction (seqZ 0 W) as [|x xs IH]; [done|]. cbn [map List.filter]. destruct (in_disc cx cy r (x, y)); cbn [map]; by rewrite IH.
    + intros x Hx'. apply extent_spec; [done|done|lia|lia].
  - intros y _ Hn. apply filter_none. intros p [_ <-]%elem_row. unfold in_disc. apply Z.leb_gt. apply andb_false_iff in Hn. rewrite !Z.leb_gt in Hn.
    pose proof (Z.square_nonneg (p.1 - cx)). set (d := p.2 - cy). assert (r * r < d * d); [|lia]. unfold d. nia.
Qed.

Lemma visit_spec g from to cells : wf g -> Forall (fun p => inside p.1 p.2) cells -> 0 <= from <= to -> to < D ->
  visited (voxels g) from to cells (visit W g (layer_range_mask from to) cells).
Proof.
  intros Hg Hc Hf Ht. unfold visited, visit. induction Hc as [|p cells Hp Hc [IH1 IH2]]; [done|]. cbn [map concat List.filter].
  pose proof (cell_hit g p from to Hg Hp Hf Ht) as Hh. unfold hit in Hh. destruct (Z.eqb_spec (cell g p.1 p.2 .& layer_range_mask from to) 0) as [E|E]; cbn [negb] in Hh; rewrite <- Hh; cbn [app map fst].
  - done.
  - split; [by rewrite IH1|]. constructor; [|done]. cbn [fst snd]. intros l Hl. rewrite Z.land_spec, testbit_voxel, layer_range_mask_spec by (done || lia).
    destruct (decide (from <= l <= to)) as [Hr|Hr].
    + rewrite (proj2 (Z.leb_le from l)), (proj2 (Z.leb_le l to)), andb_true_r by lia. apply bool_decide_ext. tauto.
    + rewrite (bool_decide_eq_false_2 (_ /\ _)) by tauto. assert ((from <=? l) && (l <=? to) = false) as -> by (apply andb_false_iff; rewrite !Z.leb_gt; lia). apply andb_false_r.
Qed.

Lemma kLayerMask_range : kLayerMask D = layer_range_mask 0 (D - 1).
Proof.
  apply Z.bits_inj'. intros k Hk. rewrite kLayerMask_spec, layer_range_mask_spec by (done || lia). rewrite (proj2 (Z.leb_le 0 k)) by done. cbn [andb].
  case_bool_decide; symmetry; [apply Z.leb_le|apply Z.leb_gt]; lia.
Qed.

(** ** Counting *)

Lemma grid_list g : wf g -> map (fun p => cell g p.1 p.2) (box 0 0 (W - 1) (H - 1)) = g.
Proof.
  intros Hg. apply array_box; [lia|lia|apply Hg].
Qed.

Lemma popcount_layers g p : wf g -> popcount 64 (cell g p.1 p.2 .& kLayerMask D) = zlen (base.filter (fun l => Z.testbit (cell g p.1 p.2) l = true) (seqZ 0 D)).
Proof.
  intros Hg. erewrite cell_layers by done. unfold popcount. replace 64 with (D + (64 - D)) by lia. rewrite seqZ_app, count_if_app, count_if_filter by lia.
  rewrite (count_if_ext _ (fun _ => false) (seqZ _ (64 - D))) by (intros k Hk%elem_of_seqZ; eapply cell_bits; [done|done|lia]).
  assert (forall m : list Z, count_if (fun _ => false) m = 0) as -> by (intros m; induction m; cbn; lia). lia.
Qed.

Lemma count_total_spec g : wf g -> count_total D g = u32 (Z.of_nat (size (voxels g))).
Proof.
  intros Hg. unfold Grid.voxels. rewrite size_list_to_set.
  - assert (forall cells a, foldl (fun total c => u32 (total + popcount 64 (c .& kLayerMask D))) (u32 a) (map (fun p => cell g p.1 p.2) cells) =
      u32 (a + Z.of_nat (length (concat (map (fun p => map (pair p) (base.filter (fun l => Z.testbit (cell g p.1 p.2) l = true) (seqZ 0 D))) cells))))) as Hsum.
    { intros cells. induction cells as [|p cells IH]; intros a; cbn [map foldl concat length]; [by rewrite Z.add_0_r|].
      rewrite wrap_add_l, IH, popcount_layers, length_app, length_map by done. f_equal. unfold zlen. lia. }
    specialize (Hsum (box 0 0 (W - 1) (H - 1)) 0). rewrite (grid_list g Hg) in Hsum. exact Hsum.
  - apply NoDup_concat_map; [apply NoDup_box| |].
    + intros p _. apply NoDup_fmap_2; [|apply NoDup_filter, NoDup_seqZ]. by intros a b [= ->].
    + intros p q v _ _ (l & -> & _)%list_elem_of_fmap (l' & E & _)%list_elem_of_fmap. by injection E.
Qed.

Lemma layers_spec g x y : wf g -> inside x y ->
  if occupied (voxels g) 0 (D - 1) (x, y)
  then (x, y, lowest_layer W D g x y) ∈ voxels g /\ (x, y, highest_layer W D g x y) ∈ voxels g /\
       forall l, (x, y, l) ∈ voxels g -> lowest_layer W D g x y <= l <= highest_layer W D g x y
  else lowest_layer W D g x y = D /\ highest_layer W D g x y = D.
Proof.
  intros Hg Hi. rewrite <- (cell_hit g (x, y)) by (done || lia). rewrite <- kLayerMask_range. unfold hit, lowest_layer, highest_layer. cbn zeta. cbn [fst snd].
  erewrite !cell_layers by done. destruct (Z.eqb_spec (cell g x y) 0) as [E|E]; cbn [negb]; [done|].
  pose proof (cell_range W H D HD g x y Hg) as Hr. assert (0 < cell g x y < 2 ^ Z.of_nat 64) as Hc.
  { destruct Hr as [Hr1 Hr2]. split; [lia|]. eapply Z.lt_le_trans; [exact Hr2|]. apply Z.pow_le_mono_r; lia. }
  destruct (ctz_lowest 64 (cell g x y) Hc) as (Hz & Hb & Hlow). unfold countl_zero. replace (63 - (63 - Z.log2 (cell g x y))) with (Z.log2 (cell g x y)) by lia.
  pose proof (Z.bit_log2 (cell g x y) (proj1 Hc)) as Hlog. pose proof (Z.log2_nonneg (cell g x y)) as Hl0.
  assert (forall k, 0 <= k -> (x, y, k) ∈ voxels g <-> Z.testbit (cell g x y) k = true) as Hv.
  { intros k Hk. pose proof (testbit_voxel g (x, y) k Hg Hi Hk) as Ht. cbn [fst snd] in Ht. by rewrite Ht, bool_decide_eq_true. }
  split; [apply Hv; [lia|done]|]. split; [by apply Hv|]. intros l Hl. assert (0 <= l) as Hl1 by (apply voxels_here in Hl; [lia|done]). apply Hv in Hl; [|done]. split.
  - destruct (decide (ctz 64 (cell g x y) <= l)); [done|]. rewrite Hlow in Hl by lia. done.
  - destruct (decide (l <= Z.log2 (cell g x y))); [done|]. rewrite Z.bits_above_log2 in Hl by lia. done.
Qed.

(** ** All the queries *)

Lemma cell_queries g x y : wf g -> inside x y ->
  (forall l, 0 <= l < D -> test W g x y l = bool_decide ((x, y, l) ∈ voxels g) /\ (toggle W g x y l).2 = negb (bool_decide ((x, y, l) ∈ voxels g))) /\
  (forall l, 0 <= l -> Z.testbit (snapshot W g x y) l = bool_decide ((x, y, l) ∈ voxels g)) /\
  (forall from to, 0 <= from <= to -> to < D -> any_in_range W g x y from to = occupied (voxels g) from to (x, y)) /\
  any_in_column W g x y = occupied (voxels g) 0 (D - 1) (x, y) /\
  count_layers W D g x y = count_if (fun l => bool_decide ((x, y, l) ∈ voxels g)) (seqZ 0 D) /\
  if occupied (voxels g) 0 (D - 1) (x, y)
  then (x, y, lowest_layer W D g x y) ∈ voxels g /\ (x, y, highest_layer W D g x y) ∈ voxels g /\
       forall l, (x, y, l) ∈ voxels g -> lowest_layer W D g x y <= l <= highest_layer W D g x y
  else lowest_layer W D g x y = D /\ highest_layer W D g x y = D.
Proof.
  intros Hg Hi. assert (forall l, 0 <= l -> Z.testbit (cell g x y) l = bool_decide ((x, y, l) ∈ voxels g)) as Hbit by (intros l Hl; by apply (testbit_voxel g (x, y))).
  split; [|split; [done|split; [|split; [|split]]]].
  - intros l Hl. split; [|by apply toggle_spec]. rewrite <- Hbit by lia. unfold test. rewrite <- (Z.add_0_l l) at 2. rewrite <- Z.shiftr_spec by lia.
    change 1 with (Z.ones 1). rewrite Z.land_ones, Z.bit0_odd, Zmod_odd by lia. by destruct (Z.odd _).
  - intros from to Hf Ht. by apply (cell_hit g (x, y)).
  - rewrite <- (cell_hit g (x, y)) by (done || lia). rewrite <- kLayerMask_range. unfold hit, any_in_column. cbn [fst snd]. by erewrite cell_layers.
  - transitivity (count_if (Z.testbit (cell g x y)) (seqZ 0 D)); [rewrite count_if_filter; apply (popcount_layers g (x, y) Hg)|]. apply count_if_ext. intros l Hl%elem_of_seqZ. apply Hbit. lia.
  - by apply layers_spec.
Qed.

Lemma box_queries tgt g x1 y1 x2 y2 from to : wf g -> inside x1 y1 -> inside x2 y2 -> x1 <= x2 -> y1 <= y2 -> 0 <= from <= to -> to < D ->
  any_in_box W tgt g x1 y1 x2 y2 from to = existsb (occupied (voxels g) from to) (box x1 y1 x2 y2) /\
  count_in_box W tgt g x1 y1 x2 y2 from to = u32 (count_if (occupied (voxels g) from to) (box x1 y1 x2 y2)) /\
  visited (voxels g) from to (box x1 y1 x2 y2) (for_each_set_in_box W g x1 y1 x2 y2 from to).
Proof.
  intros Hg [Hx1 Hy1] [Hx2 Hy2] Hx Hy Hf Ht.
  assert (Forall (fun y => 0 <= y < H /\ 0 <= x1 /\ x1 <= x2 + 1 /\ x2 < W) (seqZ y1 (y2 - y1 + 1))) as Hrows by (apply Forall_forall; intros y Hy'%elem_of_seqZ; lia).
  split; [|split].
  - by apply (rows_any tgt g from to (fun _ => x1) (fun _ => x2)).
  - by apply (rows_count tgt g from to (fun _ => x1) (fun _ => x2) _ 0).
  - apply visit_spec; try done. apply Forall_forall. intros p Hp%elem_box. split; lia.
Qed.

Lemma disc_queries tgt g cx cy r from to : wf g -> inside cx cy -> 0 <= r < 2 ^ 26 -> 0 <= from <= to -> to < D ->
  let disc := List.filter (in_disc cx cy r) (box 0 0 (W - 1) (H - 1)) in
  any_in_radius W H tgt g cx cy r from to = existsb (occupied (voxels g) from to) disc /\
  count_in_radius W H tgt g cx cy r from to = u32 (count_if (occupied (voxels g) from to) disc) /\
  visited (voxels g) from to disc (for_each_set_in_radius W H g cx cy r from to).
Proof.
  intros Hg Hi Hr Hf Ht. cbn zeta. rewrite <- (disc_cells_spec cx cy r) by done.
  assert (Forall (fun y => 0 <= y < H /\ 0 <= (extent W cx cy r y).1 /\ (extent W cx cy r y).1 <= (extent W cx cy r y).2 + 1 /\ (extent W cx cy r y).2 < W) (disc_rows H cy r)) as Hrows.
  { apply Forall_forall. intros y Hy. apply (disc_rows_spec cx) in Hy; [|done|lia]. destruct (extent_bounds cx cy r y); [done|done|lia|]. lia. }
  split; [|split].
  - unfold disc_cells. rewrite <- (rows_any tgt g from to (fun y => (extent W cx cy r y).1) (fun y => (extent W cx cy r y).2)) by done. done.
  - unfold disc_cells. rewrite <- (Z.add_0_l (count_if _ _)), <- (rows_count tgt g from to (fun y => (extent W cx cy r y).1) (fun y => (extent W cx cy r y).2)) by done. done.
  - apply visit_spec; try done. apply Forall_forall. intros p Hp. rewrite (disc_cells_spec cx cy r) in Hp by done.
    rewrite list_elem_of_In in Hp. apply filter_In in Hp as [Hp _]. rewrite <- list_elem_of_In, elem_box in Hp. split; lia.
Qed.
End refinement.

(** C27.  The grid is a set of voxels: whatever sequence of its eleven operations runs on a new
    grid (writes to one layer or column, toggles, clears of boxes, unions, intersections and
    differences with other grids), the bits set are exactly the set that the operations
    build, and no bit beyond the layers is ever set. *)
Theorem grid_refines_set W H D ops : 0 < W < 2 ^ 32 -> 0 < H < 2 ^ 32 -> 1 <= D <= 64 -> Forall (valid W H D) ops ->
  let g := foldl (apply W D) (new_grid W H) ops in
  wf W H D g /\ voxels W H D g = foldl (spec W H D) ∅ ops.
Proof.
  intros HW HH HD Hops. destruct (new_spec W H D HW HH HD) as [Hw Hv]. rewrite <- Hv. clear Hv. revert Hw. generalize (new_grid W H).
  induction Hops as [|o ops Ho Hops IH]; intros g Hg; cbn [foldl]; [done|]. destruct (apply_spec W H D HW HH HD g o Hg Ho) as [Hg' <-]. by apply IH.
Qed.

(** C24.  Every query answers for that set of voxels, with each of the vector scans: points,
    ranges of layers, lowest and highest layer, boxes (any, number, visits in row order),
    Euclidean circles clipped to the grid (with the floating-point square root, for radii
    below 2^26), totals.  Counts are modulo 2^32. *)
Theorem grid_queries W H D tgt g : 0 < W < 2 ^ 32 -> 0 < H < 2 ^ 32 -> 1 <= D <= 64 -> wf W H D g ->
  let S := voxels W H D g in
  (forall x y, inside W H x y ->
    (forall l, 0 <= l < D -> test W g x y l = bool_decide ((x, y, l) ∈ S) /\ (toggle W g x y l).2 = negb (bool_decide ((x, y, l) ∈ S))) /\
    (forall l, 0 <= l -> Z.testbit (snapshot W g x y) l = bool_decide ((x, y, l) ∈ S)) /\
    (forall from to, 0 <= from <= to -> to < D -> any_in_range W g x y from to = occupied S from to (x, y)) /\
    any_in_column W g x y = occupied S 0 (D - 1) (x, y) /\
    count_layers W D g x y = count_if (fun l => bool_decide ((x, y, l) ∈ S)) (seqZ 0 D) /\
    if occupied S 0 (D - 1) (x, y)
    then (x, y, lowest_layer W D g x y) ∈ S /\ (x, y, highest_layer W D g x y) ∈ S /\ forall l, (x, y, l) ∈ S -> lowest_layer W D g x y <= l <= highest_layer W D g x y
    else lowest_layer W D g x y = D /\ highest_layer W D g x y = D) /\
  (forall x1 y1 x2 y2 from to, inside W H x1 y1 -> inside W H x2 y2 -> x1 <= x2 -> y1 <= y2 -> 0 <= from <= to -> to < D ->
    any_in_box W tgt g x1 y1 x2 y2 from to = existsb (occupied S from to) (box x1 y1 x2 y2) /\
    count_in_box W tgt g x1 y1 x2 y2 from to = u32 (count_if (occupied S from to) (box x1 y1 x2 y2)) /\
    visited S from to (box x1 y1 x2 y2) (for_each_set_in_box W g x1 y1 x2 y2 from to)) /\
  (forall cx cy r from to, W <= 2 ^ 30 -> H <= 2 ^ 30 -> inside W H cx cy -> 0 <= r < 2 ^ 26 -> 0 <= from <= to -> to < D ->
    let disc := List.filter (in_disc cx cy r) (box 0 0 (W - 1) (H - 1)) in
    any_in_radius W H tgt g cx cy r from to = existsb (occupied S from to) disc /\
    count_in_radius W H tgt g cx cy r from to = u32 (count_if (occupied S from to) disc) /\
    visited S from to disc (for_each_set_in_radius W H g cx cy r from to)) /\
  count_total D g = u32 (Z.of_nat (size S)) /\
  visited S 0 (D - 1) (box 0 0 (W - 1) (H - 1)) (for_each_set W H D g).
Proof.
  intros HW HH HD Hg S. split; [|split; [|split; [|split]]].
  - intros x y Hi. apply (cell_queries W H D HW HH HD g x y Hg Hi).
  - intros x1 y1 x2 y2 from to H1 H2 Hx Hy Hf Ht. apply (box_queries W H D HW HH HD tgt g); done.
  - intros cx cy r from to _ _ Hi Hr Hf Ht. apply (disc_queries W H D HW HH HD tgt g); done.
  - by apply count_total_spec.
  - unfold for_each_set. rewrite (kLayerMask_range D HD). apply visit_spec; try done; [|lia|lia]. apply Forall_forall. intros p Hp%elem_box. split; lia.
Qed.

(** ** The ray cast *)

Lemma outside_spec W H x y : outside W H x y = false <-> inside W H x y.
Proof. unfold outside, inside. rewrite !orb_false_iff, !Z.ltb_ge, !Z.leb_gt. lia. Qed.

Section ray.
Context (W H x0 y0 sx sy a b : Z) (HW : W < 2 ^ 31) (HH : H < 2 ^ 31) (Hsx : -1 <= sx <= 1) (Hsy : -1 <= sy <= 1).
Context (Ha : 0 <= a <= max_side) (Hb : 0 <= b <= max_side) (Hab : 0 < a + b) (g : list Z) (mask : Z).
#[local] Abbreviation P := (ray_cell x0 y0 sx sy a b).

Definition free (p : Z * Z) : Prop := inside W H p.1 p.2 /\ cell W g p.1 p.2 .& mask = 0.

Lemma ray_step k : 0 <= k -> inside W H (P k).1 (P k).2 -> advance sx sy a b (P k, ray_err a b k) = Some (P (k + 1), ray_err a b (k + 1)).
Proof. intros Hk [Hx Hy]. apply advance_line; lia. Qed.

Lemma ray_loop_defined n k : 0 <= k -> ray_loop W H n g mask sx sy a b (P k, ray_err a b k) k <> Overflow.
Proof.
  revert k. induction n as [|n IH]; intros k Hk; [done|]. cbn [ray_loop]. destruct (P k) as [cx cy] eqn:EP. rewrite <- EP.
  destruct (outside W H cx cy) eqn:Eo; [done|]. apply outside_spec in Eo. case_match; [done|]. rewrite ray_step by (done || by rewrite EP). apply IH. lia.
Qed.

Lemma ray_loop_spec n k h : 0 <= k -> ray_loop W H n g mask sx sy a b (P k, ray_err a b k) k = Hit h <->
  k <= hit_steps h < k + Z.of_nat n /\ P (hit_steps h) = (hit_x h, hit_y h) /\ inside W H (hit_x h) (hit_y h) /\
  layer_mask h = cell W g (hit_x h) (hit_y h) .& mask /\ layer_mask h <> 0 /\ forall i, k <= i < hit_steps h -> free (P i).
Proof.
  revert k. induction n as [|n IH]; intros k Hk; [split; [done|lia]|]. cbn [ray_loop]. destruct (P k) as [cx cy] eqn:EP. rewrite <- EP.
  destruct (outside W H cx cy) eqn:Eo.
  { split; [done|]. intros (Hs & HP & Hi & _ & _ & Hfree). exfalso. assert (inside W H cx cy) as Hin; [|apply outside_spec in Hin; congruence].
    destruct (decide (hit_steps h = k)) as [E|E]; [rewrite E, EP in HP; inversion HP; by subst|]. destruct (Hfree k) as [Hin _]; [lia|]. by rewrite EP in Hin. }
  apply outside_spec in Eo. destruct (Z.eqb_spec (cell W g cx cy .& mask) 0) as [E0|E0]; cbn [negb].
  - rewrite ray_step, IH by (lia || by rewrite EP). rewrite Nat2Z.inj_succ. assert (free (P k)) as Hk0 by (rewrite EP; by split). split.
    + intros (Hs & HP & Hi & Hm & Hne & Hfree). split_and!; try done; try lia. intros i Hi'. destruct (decide (i = k)) as [->|]; [done|]. apply Hfree. lia.
    + intros (Hs & HP & Hi & Hm & Hne & Hfree). assert (hit_steps h <> k) as Hsk by (intros E; rewrite E, EP in HP; inversion HP; subst; congruence).
      split_and!; try done; try lia. intros i Hi'. apply Hfree. lia.
  - split.
    + intros [= <-]. cbn [hit_steps hit_x hit_y layer_mask]. split_and!; try done; try lia.
    + intros (Hs & HP & Hi & Hm & Hne & Hfree). assert (hit_steps h = k) as Hsk.
      { destruct (decide (hit_steps h = k)) as [|E]; [done|]. destruct (Hfree k) as [_ Hz]; [lia|]. by rewrite EP in Hz. }
      destruct h as [hx hy hm hs]. cbn [hit_steps hit_x hit_y layer_mask] in *. subst hs. rewrite EP in HP. inversion HP; by subst.
Qed.
End ray.

(** The initial values, where they do not overflow. *)
Lemma raycast_unfold W H g x0 y0 dx dy from to max_steps : - max_side <= dx <= max_side -> - max_side <= dy <= max_side ->
  raycast W H g x0 y0 dx dy from to max_steps =
  ray_loop W H (Z.to_nat max_steps) g (layer_range_mask from to) (Z.sgn dx) (Z.sgn dy) (Z.abs dx) (Z.abs dy) (x0, y0, Z.abs dx - Z.abs dy) 0.
Proof.
  intros Hx Hy. unfold raycast. cbn zeta.
  assert (forall d, sign d = Z.sgn d) as Esg by (intros d; unfold sign; destruct (Z.ltb_spec 0 d), (Z.ltb_spec d 0); lia).
  assert (forall d, (if d <? 0 then - d else d) = Z.abs d) as Eabs by (intros d; destruct (Z.ltb_spec d 0); lia).
  by rewrite !Esg, !Eabs, !int32_in by lia.
Qed.

(** C28.  A ray cast reports the first occupied cell on the digital line through the origin in
    the given direction: after [k] steps the line is at the cell nearest to the exact
    direction, it passes through the cell [(dx, dy)] away, and the hit is the first [k] below
    the limit whose cell has a voxel in the range of layers, when all cells before it are
    inside the grid.  The direction has sides of at most a third of 2^31, the grid is less
    than 2^31 wide and high: no arithmetic on [int32_t] overflows then (for longer directions
    see [raycast_overflow]). *)
Theorem raycast_line W H D g x0 y0 dx dy from to max_steps :
  0 < W < 2 ^ 31 -> 0 < H < 2 ^ 31 -> 1 <= D <= 64 -> wf W H D g -> inside W H x0 y0 -> 0 <= from <= to -> to < D ->
  - max_side <= dx <= max_side -> - max_side <= dy <= max_side -> (dx <> 0 \/ dy <> 0) -> in_range 32 max_steps ->
  let S := voxels W H D g in
  let P := ray_cell x0 y0 (Z.sgn dx) (Z.sgn dy) (Z.abs dx) (Z.abs dy) in
  P 0 = (x0, y0) /\ P (Z.max (Z.abs dx) (Z.abs dy)) = (x0 + dx, y0 + dy) /\
  raycast W H g x0 y0 dx dy from to max_steps <> Overflow /\
  forall h, raycast W H g x0 y0 dx dy from to max_steps = Hit h <->
    0 <= hit_steps h < max_steps /\ P (hit_steps h) = (hit_x h, hit_y h) /\ inside W H (hit_x h) (hit_y h) /\
    occupied S from to (hit_x h, hit_y h) = true /\ layer_mask h = cell W g (hit_x h) (hit_y h) .& layer_range_mask from to /\
    forall k, 0 <= k < hit_steps h -> inside W H (P k).1 (P k).2 /\ occupied S from to (P k) = false.
Proof.
  intros HW HH HD Hg Hi Hf Ht Hdx Hdy Hne Hmax S P. destruct (ray_start x0 y0 (Z.sgn dx) (Z.sgn dy) (Z.abs dx) (Z.abs dy)) as [E0 Ee]; [lia|lia|].
  rewrite raycast_unfold by done. rewrite <- Ee, <- E0. split; [done|]. split; [|split].
  - unfold P, ray_cell. rewrite (proj2 (line_end (Z.abs dx) (Z.abs dy) (Z.max (Z.abs dx) (Z.abs dy)) ltac:(lia) ltac:(lia) ltac:(lia)) eq_refl). f_equal; rewrite Z.mul_comm, Z.abs_sgn; done.
  - apply ray_loop_defined; lia.
  - intros h. rewrite ray_loop_spec by lia. rewrite Z2Nat.id by apply Hmax. fold P.
    assert (forall p, inside W H p.1 p.2 -> occupied S from to p = negb (cell W g p.1 p.2 .& layer_range_mask from to =? 0)) as Hocc.
    { intros p Hp. symmetry. by apply (cell_hit W H D ltac:(lia) ltac:(lia) HD g p from to). }
    split; intros (Hs & HP & Hin & H1 & H2 & Hfree); (split; [lia|]); (split; [done|]); (split; [done|]).
    + rewrite (Hocc (hit_x h, hit_y h)) by done. cbn [fst snd]. rewrite <- H1. split; [by apply negb_true_iff, Z.eqb_neq|]. split; [done|].
      intros k Hk. destruct (Hfree k Hk) as [Hk1 Hk2]. split; [done|]. by rewrite Hocc, Hk2.
    + rewrite (Hocc (hit_x h, hit_y h)) in H1 by done. cbn [fst snd] in H1. split; [done|]. split; [rewrite H2; by apply Z.eqb_neq, negb_true_iff|].
      intros k Hk. destruct (Hfree k Hk) as [Hk1 Hk2]. split; [done|]. rewrite Hocc, negb_false_iff, Z.eqb_eq in Hk2 by done. done.
Qed.

(** ** Witnesses *)

(** A 5 by 4 grid of 8 layers with a wall, a door cut into it, and a floating block. *)
Definition sample : list op :=
  [SetColumn 2 0 255; SetColumn 2 1 255; SetColumn 2 2 255; SetColumn 2 3 0x1FF; Clear 2 1 0; ClearBox 2 1 3 1 1 2; Set_ 4 3 6; Toggle 4 3 7].

Lemma sample_valid : Forall (valid 5 4 8) sample.
Proof. repeat constructor; unfold in_range; try lia. Qed.

Lemma grid_refines_set_witness : let g := foldl (apply 5 8) (new_grid 5 4) sample in
  g = [0; 0; 255; 0; 0; 0; 0; 248; 0; 0; 0; 0; 255; 0; 0; 0; 0; 255; 0; 192] /\ voxels 5 4 8 g = foldl (spec 5 4 8) ∅ sample.
Proof. split; [vm_compute; reflexivity|]. apply (grid_refines_set 5 4 8 sample); [lia|lia|lia|apply sample_valid]. Defined.

Lemma sample_wf : wf 5 4 8 [0; 0; 255; 0; 0; 0; 0; 248; 0; 0; 0; 0; 255; 0; 0; 0; 0; 255; 0; 192].
Proof. split; [done|]. repeat constructor; unfold in_range; lia. Qed.

Lemma grid_queries_witness : let g := [0; 0; 255; 0; 0; 0; 0; 248; 0; 0; 0; 0; 255; 0; 0; 0; 0; 255; 0; 192] in
  lowest_layer 5 8 g 2 1 = 3 /\ count_in_box 5 Avx2 g 0 0 4 3 6 7 = 5 /\ count_in_radius 5 4 Neon g 3 2 1 0 7 = 1 /\
  count_total 8 g = 31 /\ Z.of_nat (size (voxels 5 4 8 g)) mod 2 ^ 32 = 31.
Proof.
  intros g. destruct (grid_queries 5 4 8 Avx2 g ltac:(lia) ltac:(lia) ltac:(lia) sample_wf) as (_ & _ & _ & Ht & _).
  split; [reflexivity|]. split; [vm_compute; reflexivity|]. split; [vm_compute; reflexivity|]. split; [vm_compute; reflexivity|].
  transitivity (count_total 8 g); [symmetry; exact Ht|vm_compute; reflexivity].
Defined.

Lemma raycast_line_witness : let g := [0; 0; 255; 0; 0; 0; 0; 248; 0; 0; 0; 0; 255; 0; 0; 0; 0; 255; 0; 192] in
  raycast 5 4 g 0 0 4 3 0 6 100 = Hit (mkHit 2 1 120 2) /\ occupied (voxels 5 4 8 g) 0 6 (2, 1) = true /\ raycast 5 4 g 0 0 4 3 0 2 100 = Miss.
Proof.
  intros g. assert (raycast 5 4 g 0 0 4 3 0 6 100 = Hit (mkHit 2 1 120 2)) as E by (vm_compute; reflexivity). split; [exact E|]. split; [|vm_compute; reflexivity].
  destruct (raycast_line 5 4 8 g 0 0 4 3 0 6 100) as (_ & _ & _ & Hr); [lia|lia|lia|apply sample_wf|unfold inside; lia|lia|lia|lia|lia|left; discriminate|unfold in_range; lia|].
  destruct (proj1 (Hr (mkHit 2 1 120 2)) E) as (_ & _ & _ & Ho & _). exact Ho.
Defined.

(** The error of a long direction overflows in the first step. *)
Theorem raycast_overflow : raycast 5 4 [0; 0; 255; 0; 0; 0; 0; 248; 0; 0; 0; 0; 255; 0; 0; 0; 0; 255; 0; 192] 0 0 (2 ^ 31 - 1) 0 0 7 100 = Overflow.
Proof. vm_compute. reflexivity. Qed.
