(* ===== verification/Grid2D.v ===== *)
(** * The flat grid: [GridBitset2D] of [buf/grid_bitset.hpp]

    Blocks of 8 by 8 cells are packed into 64-bit words, in Morton order inside the block.
    [bmi2] chooses between the two ways the interleaving is compiled. *)

From stdpp Require Import gmap.
From S2P Require Import Prelude Bits GridScan.
#[local] Open Scope Z_scope.

(** ** Morton codes *)

(** [_pdep_u32]: the low bits of [v] go to the positions set in the mask. *)
Fixpoint deposit (mask : list bool) (v : Z -> bool) (j : Z) : list bool :=
  match mask with
  | [] => []
  | true :: mask => v j :: deposit mask v (j + 1)
  | false :: mask => false :: deposit mask v j
  end.

Definition bits32 (v : Z) : list bool := map (Z.testbit v) (seqZ 0 32).

Definition pdep_u32 (v mask : Z) : Z := bits_val (deposit (bits32 mask) (Z.testbit v) 0).

(** [_pext_u32]: the bits of [v] at the positions set in the mask, next to each other. *)
Definition pext_u32 (v mask : Z) : Z := bits_val (map (Z.testbit v) (List.filter (Z.testbit mask) (seqZ 0 32))).

Definition spread16 (v : Z) : Z :=
  let v := v .& 0x0000ffff in
  let v := (v .| u32 (v << 8)) .& 0x00ff00ff in
  let v := (v .| u32 (v << 4)) .& 0x0f0f0f0f in
  let v := (v .| u32 (v << 2)) .& 0x33333333 in
  let v := (v .| u32 (v << 1)) .& 0x55555555 in
  v.

Definition compact (v : Z) : Z :=
  let v := v .& 0x55555555 in
  let v := (v .| (v >> 1)) .& 0x33333333 in
  let v := (v .| (v >> 2)) .& 0x0f0f0f0f in
  let v := (v .| (v >> 4)) .& 0x00ff00ff in
  let v := (v .| (v >> 8)) .& 0x0000ffff in
  v.

Definition morton2d (bmi2 : bool) (x y : Z) : Z :=
  if bmi2 then pdep_u32 x 0x55555555 .| pdep_u32 y 0xAAAAAAAA else spread16 x .| u32 (spread16 y << 1).

Definition morton2d_decode (bmi2 : bool) (m : Z) : Z * Z :=
  if bmi2 then (pext_u32 m 0x55555555, pext_u32 m 0xAAAAAAAA) else (compact m, compact (m >> 1)).

(** ** The grid *)

Abbreviation kSBSize := 8.

Section grid.
Context (bmi2 : bool) (W H : Z).

Definition kSBW : Z := u32 (W + kSBSize - 1) / kSBSize.
Definition kSBH : Z := u32 (H + kSBSize - 1) / kSBSize.
Definition kSBCount : Z := kSBW * kSBH.

(** The array [words_]. *)
Definition new_grid : list Z := replicate (Z.to_nat kSBCount) 0.

(** The word and the bit of a cell. *)
Definition locate (x y : Z) : Z * Z :=
  let sbx := x / kSBSize in
  let sby := y / kSBSize in
  let lx := x mod kSBSize in
  let ly := y mod kSBSize in
  let morton := morton2d bmi2 lx ly in
  (sby * kSBW + sbx, morton .& 63).

Definition super_block_index (x y : Z) : Z := y / kSBSize * kSBW + x / kSBSize.

Definition put (g : list Z) (i v : Z) : list Z := <[Z.to_nat i := v]> g.

Definition set (g : list Z) (x y : Z) : list Z :=
  let '(word_idx, bit_idx) := locate x y in put g word_idx (at_ g word_idx .| (1 << bit_idx)).

Definition clear (g : list Z) (x y : Z) : list Z :=
  let '(word_idx, bit_idx) := locate x y in put g word_idx (at_ g word_idx .& u64 (Z.lnot (1 << bit_idx))).

Definition reset (g : list Z) : list Z := map (fun _ => 0) g.

Definition test (g : list Z) (x y : Z) : bool :=
  let '(word_idx, bit_idx) := locate x y in negb ((at_ g word_idx >> bit_idx) .& 1 =? 0).

Definition any_in_box (g : list Z) (x1 y1 x2 y2 : Z) : bool :=
  existsb (fun p => let '(word_idx, bit_idx) := locate p.1 p.2 in negb ((at_ g word_idx >> bit_idx) .& 1 =? 0)) (box x1 y1 x2 y2).

Definition super_block_snapshot (g : list Z) (x y : Z) : Z := at_ g (super_block_index x y).

Definition toggle (g : list Z) (x y : Z) : list Z * bool :=
  let '(word_idx, bit_idx) := locate x y in
  let bit := 1 << bit_idx in
  let prev := at_ g word_idx in
  (put g word_idx (prev .^ bit), prev .& bit =? 0).

Definition clear_box (g : list Z) (x1 y1 x2 y2 : Z) : list Z := foldl (fun g p => clear g p.1 p.2) g (box x1 y1 x2 y2).

Definition count_all (g : list Z) : Z := foldl (fun total w => u32 (total + popcount 64 w)) 0 g.

Definition count_in_box (g : list Z) (x1 y1 x2 y2 : Z) : Z :=
  foldl (fun n p => if test g p.1 p.2 then u32 (n + 1) else n) 0 (box x1 y1 x2 y2).

(** The loop [while (word)], on the block at [(sbx, sby)]; the calls of [fn]. *)
Fixpoint visit_word (fuel : nat) (sbx sby word : Z) : list (Z * Z) :=
  match fuel with
  | O => []
  | S fuel =>
      if word =? 0 then [] else
      let bit := ctz 64 word in
      let '(lx, ly) := morton2d_decode bmi2 bit in
      let gx := sbx * kSBSize + lx in
      let gy := sby * kSBSize + ly in
      (if (gx <? W) && (gy <? H) then [(gx, gy)] else []) ++ visit_word fuel sbx sby (word .& (word - 1))
  end.

Definition for_each_set (g : list Z) : list (Z * Z) :=
  concat (map (fun p => visit_word 64 p.1 p.2 (at_ g (p.2 * kSBW + p.1))) (box 0 0 (kSBW - 1) (kSBH - 1))).

Definition for_each_set_in_box (g : list Z) (x1 y1 x2 y2 : Z) : list (Z * Z) := List.filter (fun p => test g p.1 p.2) (box x1 y1 x2 y2).

Definition merge_from (g other : list Z) : list Z := zip_with Z.lor g other.

Definition intersect_with (g other : list Z) : list Z := zip_with Z.land g other.

Definition diff_from (g other : list Z) : list Z := zip_with (fun w remove => w .& u64 (Z.lnot remove)) g other.

(** ** The line of sight *)

(** The cast from [uint32_t] to [int32_t]. *)
Definition to_int32 (x : Z) : Z := if x <? 2 ^ 31 then x else x - 2 ^ 32.

Record RayHit := mkHit { hit_x : Z; hit_y : Z; hit_steps : Z }.

Fixpoint ray_loop (n : nat) (g : list Z) (x1 y1 sx sy adx ady : Z) (p : Z * Z * Z) (s : Z) : ray_result RayHit :=
  match n with
  | O => Miss
  | S n =>
      let '(cx, cy, _) := p in
      if test g (u32 cx) (u32 cy) then Hit (mkHit (u32 cx) (u32 cy) s) else
      if (cx =? to_int32 x1) && (cy =? to_int32 y1) then Miss else
      match advance sx sy adx ady p with
      | Some p => ray_loop n g x1 y1 sx sy adx ady p (s + 1)
      | None => Overflow
      end
  end.

(** Every operation on [int32_t] may overflow. *)
Definition ray_setup (x0 y0 x1 y1 : Z) : option (Z * Z * Z * Z * Z * Z) :=
  dx ← int32 (to_int32 x1 - to_int32 x0);
  dy ← int32 (to_int32 y1 - to_int32 y0);
  let sx := if 0 <? dx then 1 else -1 in
  let sy := if 0 <? dy then 1 else -1 in
  adx ← int32 (if dx <? 0 then - dx else dx);
  ady ← int32 (if dy <? 0 then - dy else dy);
  err ← int32 (adx - ady);
  sum ← int32 (adx + ady);
  Some (sx, sy, adx, ady, err, u32 (sum + 1)).

Definition raycast_2d (g : list Z) (x0 y0 x1 y1 : Z) : ray_result RayHit :=
  match ray_setup x0 y0 x1 y1 with
  | Some (sx, sy, adx, ady, err, max_steps) =>
      ray_loop (Z.to_nat max_steps) g x1 y1 sx sy adx ady (to_int32 x0, to_int32 y0, err) 0
  | None => Overflow
  end.

(** ** The set of occupied cells *)

Definition inside (x y : Z) : Prop := 0 <= x < W /\ 0 <= y < H.

Definition padded (x y : Z) : Prop := 0 <= x < 8 * kSBW /\ 0 <= y < 8 * kSBH.

Definition bit_at (g : list Z) (x y : Z) : bool := let '(w, b) := locate x y in Z.testbit (at_ g w) b.

Definition cells (g : list Z) : gset (Z * Z) := list_to_set (base.filter (fun p => bit_at g p.1 p.2 = true) (box 0 0 (W - 1) (H - 1))).

(** The cells that only fill up the last blocks stay clear. *)
Record wf (g : list Z) : Prop := {
  wf_len : zlen g = kSBCount;
  wf_words : Forall (in_range 64) g;
  wf_pad x y : padded x y -> bit_at g x y = true -> inside x y;
}.

End grid.

(** ** Morton codes interleave *)

(** The bits of a step of the interleaving. *)
Definition up (s m : Z) (f : Z -> bool) (k : Z) : bool := Z.testbit m k && (f k || ((s <=? k) && f (k - s))).
Definition down (s m : Z) (f : Z -> bool) (k : Z) : bool := Z.testbit m k && (f k || f (k + s)).

Lemma up_spec s m v k : 0 <= s -> 0 <= k < 32 -> Z.testbit ((v .| u32 (v << s)) .& m) k = up s m (Z.testbit v) k.
Proof.
  intros Hs Hk. unfold up. rewrite Z.land_spec, Z.lor_spec, wrap_testbit, bool_decide_eq_true_2, Z.shiftl_spec by lia. cbn [andb]. rewrite andb_comm. do 2 f_equal.
  destruct (Z.leb_spec s k); [done|]. by rewrite Z.testbit_neg_r by lia.
Qed.

Lemma down_spec s m v k : 0 <= k -> Z.testbit ((v .| (v >> s)) .& m) k = down s m (Z.testbit v) k.
Proof. intros Hk. unfold down. by rewrite Z.land_spec, Z.lor_spec, Z.shiftr_spec, andb_comm. Qed.

Lemma up_ext s m f h k : 0 <= k -> 0 <= s -> (forall j, 0 <= j <= k -> f j = h j) -> up s m f k = up s m h k.
Proof. intros Hk Hs E. unfold up. rewrite (E k) by lia. destruct (Z.leb_spec s k); [by rewrite (E (k - s)) by lia|done]. Qed.

Lemma down_ext s m f h k : (forall j, k <= j -> f j = h j) -> 0 <= s -> down s m f k = down s m h k.
Proof. intros E Hs. unfold down. by rewrite !E by lia. Qed.

Definition spread_bits (f : Z -> bool) : Z -> bool :=
  up 1 0x55555555 (up 2 0x33333333 (up 4 0x0f0f0f0f (up 8 0x00ff00ff (fun k => Z.testbit 0xffff k && f k)))).

Definition compact_bits (f : Z -> bool) : Z -> bool :=
  down 8 0xffff (down 4 0x00ff00ff (down 2 0x0f0f0f0f (down 1 0x33333333 (fun k => Z.testbit 0x55555555 k && f k)))).

Lemma spread16_bits v k : 0 <= k < 32 -> Z.testbit (spread16 v) k = spread_bits (Z.testbit v) k.
Proof.
  intros Hk. unfold spread16, spread_bits. cbn zeta. rewrite up_spec by lia. apply up_ext; [lia|lia|]. intros j1 H1.
  rewrite up_spec by lia. apply up_ext; [lia|lia|]. intros j2 H2. rewrite up_spec by lia. apply up_ext; [lia|lia|]. intros j3 H3.
  rewrite up_spec by lia. apply up_ext; [lia|lia|]. intros j4 H4. by rewrite Z.land_spec, andb_comm.
Qed.

Lemma compact_bits_spec v k : 0 <= k -> Z.testbit (compact v) k = compact_bits (Z.testbit v) k.
Proof.
  intros Hk. unfold compact, compact_bits. cbn zeta. rewrite down_spec by lia. apply down_ext; [|lia]. intros j1 H1.
  rewrite down_spec by lia. apply down_ext; [|lia]. intros j2 H2. rewrite down_spec by lia. apply down_ext; [|lia]. intros j3 H3.
  rewrite down_spec by lia. apply down_ext; [|lia]. intros j4 H4. by rewrite Z.land_spec, andb_comm.
Qed.

(** Checks of boolean functions at the positions below a bound, for any word. *)
Lemma all_below (f : (Z -> bool) -> Z -> bool) (h : (Z -> bool) -> Z -> bool) n v k :
  (forall b, Forall (fun k => f b k = h b k) (seqZ 0 n)) -> 0 <= k < n -> f (Z.testbit v) k = h (Z.testbit v) k.
Proof. intros E Hk. specialize (E (Z.testbit v)). rewrite Forall_forall in E. apply E, elem_of_seqZ. lia. Qed.

#[local] Ltac each_bit b :=
  match goal with |- Forall _ ?l => let l' := eval vm_compute in l in change l with l' end;
  repeat apply Forall_cons_2; [..|exact (Forall_nil_2 _)]; cbv; repeat match goal with |- context [b ?n] => destruct (b n) end; reflexivity.

Lemma spread_even v k : 0 <= k < 32 -> Z.testbit (spread16 v) k = Z.even k && Z.testbit v (k / 2).
Proof. intros Hk. rewrite spread16_bits by done. apply (all_below spread_bits (fun f k => Z.even k && f (k / 2)) 32); [|done]. intros b. each_bit b. Qed.

Lemma compact_even v k : 0 <= k < 16 -> Z.testbit (compact v) k = Z.testbit v (2 * k).
Proof. intros Hk. rewrite compact_bits_spec by lia. apply (all_below compact_bits (fun f k => f (2 * k)) 16); [|done]. intros b. each_bit b. Qed.

Lemma length_deposit m f j : length (deposit m f j) = length m.
Proof. revert j. induction m as [|[] m IH]; intros j; cbn; by rewrite ?IH. Qed.

Lemma testbit_bits_val_Z l k : 0 <= k -> Z.testbit (bits_val l) k = nth (Z.to_nat k) l false.
Proof. intros Hk. rewrite <- testbit_bits_val. by rewrite Z2Nat.id. Qed.

Lemma pdep_bits v k : 0 <= k < 32 ->
  Z.testbit (pdep_u32 v 0x55555555) k = Z.even k && Z.testbit v (k / 2) /\ Z.testbit (pdep_u32 v 0xAAAAAAAA) k = Z.odd k && Z.testbit v (k / 2).
Proof.
  intros Hk. unfold pdep_u32. rewrite !testbit_bits_val_Z by lia. split.
  - apply (all_below (fun f k => nth (Z.to_nat k) (deposit (bits32 0x55555555) f 0) false) (fun f k => Z.even k && f (k / 2)) 32); [|done]. intros b. each_bit b.
  - apply (all_below (fun f k => nth (Z.to_nat k) (deposit (bits32 0xAAAAAAAA) f 0) false) (fun f k => Z.odd k && f (k / 2)) 32); [|done]. intros b. each_bit b.
Qed.

Lemma pext_bits v k : 0 <= k < 16 -> Z.testbit (pext_u32 v 0x55555555) k = Z.testbit v (2 * k) /\ Z.testbit (pext_u32 v 0xAAAAAAAA) k = Z.testbit v (2 * k + 1).
Proof.
  intros Hk. unfold pext_u32. rewrite !testbit_bits_val_Z by lia. split.
  - apply (all_below (fun f k => nth (Z.to_nat k) (map f (List.filter (Z.testbit 0x55555555) (seqZ 0 32))) false) (fun f k => f (2 * k)) 16); [|done]. intros b. each_bit b.
  - apply (all_below (fun f k => nth (Z.to_nat k) (map f (List.filter (Z.testbit 0xAAAAAAAA) (seqZ 0 32))) false) (fun f k => f (2 * k + 1)) 16); [|done]. intros b. each_bit b.
Qed.

Lemma bits_val_above l k : zlen l <= k -> Z.testbit (bits_val l) k = false.
Proof. intros Hk. pose proof (zlen_nonneg l). rewrite testbit_bits_val_Z by lia. apply nth_overflow. unfold zlen in Hk. lia. Qed.

Lemma testbit_above m w v k : in_range w m -> w <= k -> Z.testbit (v .& m) k = false.
Proof. intros Hm Hk. rewrite Z.land_spec, (range_testbit w m k) by done. apply andb_false_r. Qed.

(** Bit [2i] of a code is bit [i] of [x], bit [2i + 1] is bit [i] of [y]. *)
Lemma morton_bits bmi2 x y k : 0 <= k -> Z.testbit (morton2d bmi2 x y) k = bool_decide (k < 32) && if Z.even k then Z.testbit x (k / 2) else Z.testbit y (k / 2).
Proof.
  intros Hk. case_bool_decide as Hlt; cbn [andb]; destruct bmi2; cbn [morton2d]; rewrite Z.lor_spec.
  - destruct (pdep_bits x k) as [-> _]; [lia|]. destruct (pdep_bits y k) as [_ ->]; [lia|]. rewrite <- Z.negb_even. by destruct (Z.even k); cbn; rewrite ?orb_false_r.
  - rewrite spread_even, wrap_testbit, bool_decide_eq_true_2, Z.shiftl_spec by lia. cbn [andb]. destruct (decide (k = 0)) as [->|Hk0].
    { rewrite (Z.testbit_neg_r _ (0 - 1)) by lia. cbn. by rewrite orb_false_r. }
    rewrite spread_even by lia. replace (Z.even (k - 1)) with (negb (Z.even k)) by (rewrite Z.even_sub; by destruct (Z.even k)).
    destruct (Z.even k) eqn:He; cbn [andb negb]; [by rewrite orb_false_r|]. rewrite orb_false_l. f_equal. rewrite <- Z.negb_odd in He. apply negb_false_iff, Z.odd_spec in He as [c ->].
    replace (2 * c + 1 - 1) with (c * 2) by lia. rewrite Z.div_mul by lia. Z.div_mod_to_equations. lia.
  - unfold pdep_u32. rewrite !bits_val_above by (unfold zlen; rewrite length_deposit; change (length (bits32 _)) with 32%nat; lia). done.
  - unfold spread16 at 1. cbn zeta. rewrite (testbit_above _ 32) by (unfold in_range; lia). rewrite wrap_testbit, bool_decide_eq_false_2 by lia. done.
Qed.

Lemma decode_bits bmi2 m k : in_range 32 m -> 0 <= k ->
  Z.testbit (morton2d_decode bmi2 m).1 k = Z.testbit m (2 * k) /\ Z.testbit (morton2d_decode bmi2 m).2 k = Z.testbit m (2 * k + 1).
Proof.
  intros Hm Hk. destruct (decide (k < 16)) as [Hlt|Hge].
  - destruct bmi2; cbn [morton2d_decode fst snd]; [apply pext_bits; lia|]. rewrite !compact_even by lia. split; [done|]. rewrite Z.shiftr_spec by lia. done.
  - rewrite !(range_testbit 32 m) by (done || lia). destruct bmi2; cbn [morton2d_decode fst snd].
    + unfold pext_u32. split; apply bits_val_above; rewrite zlen_map; change (zlen (List.filter _ (seqZ 0 32))) with 16; lia.
    + split; unfold compact; cbn zeta; apply (testbit_above _ 16); unfold in_range; lia.
Qed.

Lemma morton_range bmi2 x y w : 0 <= w -> in_range w x -> in_range w y -> in_range (2 * w) (morton2d bmi2 x y).
Proof.
  intros Hw Hx Hy. apply testbit_range; [lia| |].
  - destruct bmi2; cbn [morton2d]; apply Z.lor_nonneg; [split; apply bits_val_nonneg|]. split; [apply Z.land_nonneg; right; lia|apply (wrap_range 32); lia].
  - intros k Hk. rewrite morton_bits by lia. rewrite (range_testbit w x (k / 2)), (range_testbit w y (k / 2)) by (done || Z.div_mod_to_equations; lia).
    destruct (Z.even k); apply andb_false_r.
Qed.

(** Decoding is the inverse of interleaving, and the two ways to compile them agree. *)
Theorem morton_roundtrip b1 b2 x y m : in_range 16 x -> in_range 16 y -> in_range 32 m ->
  morton2d_decode b1 (morton2d b2 x y) = (x, y) /\ (let '(dx, dy) := morton2d_decode b1 m in morton2d b2 dx dy = m) /\
  morton2d b1 x y = morton2d b2 x y /\ morton2d_decode b1 m = morton2d_decode b2 m.
Proof.
  intros Hx Hy Hm. pose proof (morton_range b2 x y 16 ltac:(lia) Hx Hy) as Hr. change (2 * 16) with 32 in Hr.
  assert (forall a b c, in_range 32 c -> (forall k, 0 <= k -> Z.testbit a k = Z.testbit c (2 * k)) -> (forall k, 0 <= k -> Z.testbit b k = Z.testbit c (2 * k + 1)) ->
    morton2d_decode b1 c = (a, b)) as Hdec.
  { intros a b c Hc Ha Hb. apply injective_projections; cbn [fst snd]; apply Z.bits_inj'; intros k Hk; destruct (decode_bits b1 c k Hc Hk) as [E1 E2]; [rewrite E1, Ha|rewrite E2, Hb]; done. }
  split; [|split; [|split]].
  - apply Hdec; [done| |]; intros k Hk; rewrite morton_bits by lia.
    + rewrite Z.even_mul. cbn [Z.even orb]. replace (2 * k / 2) with k by (Z.div_mod_to_equations; lia). case_bool_decide; [done|]. cbn [andb]. apply (range_testbit 16); [done|lia].
    + replace (Z.even (2 * k + 1)) with false by (rewrite Z.even_add_mul_2 || (rewrite Z.even_add, Z.even_mul); done). replace ((2 * k + 1) / 2) with k by (Z.div_mod_to_equations; lia).
      case_bool_decide; [done|]. cbn [andb]. apply (range_testbit 16); [done|lia].
  - destruct (morton2d_decode b1 m) as [a b] eqn:E. apply Z.bits_inj'. intros k Hk. rewrite morton_bits by done.
    assert (forall j, 0 <= j -> Z.testbit a j = Z.testbit m (2 * j) /\ Z.testbit b j = Z.testbit m (2 * j + 1)) as Hbits by (intros j Hj; pose proof (decode_bits b1 m j Hm Hj) as Hd; by rewrite E in Hd).
    case_bool_decide; [|cbn; symmetry; apply (range_testbit 32); [done|lia]]. cbn [andb]. destruct (Hbits (k / 2)) as [-> ->]; [Z.div_mod_to_equations; lia|].
    destruct (Z.even k) eqn:He; f_equal; [apply Z.even_spec in He as [c ->]|rewrite <- Z.negb_odd in He; apply negb_false_iff, Z.odd_spec in He as [c ->]]; Z.div_mod_to_equations; lia.
  - apply Z.bits_inj'. intros k Hk. by rewrite !morton_bits by done.
  - destruct (morton2d_decode b2 m) as [a b] eqn:E. apply Hdec; [done| |]; intros k Hk; pose proof (decode_bits b2 m k Hm Hk) as Hd; rewrite E in Hd; apply Hd.
Qed.

(** ** Cells and bits *)

Section correctness.
Context (bmi2 : bool) (W H : Z) (HW : 0 < W < 2 ^ 31) (HH : 0 < H < 2 ^ 31).
Implicit Types (g : list Z) (x y w b : Z).
#[local] Abbreviation kSBW := (kSBW W).
#[local] Abbreviation kSBH := (kSBH H).
#[local] Abbreviation locate := (locate bmi2 W).
#[local] Abbreviation padded := (padded W H).
#[local] Abbreviation inside := (inside W H).
#[local] Abbreviation bit_at := (bit_at bmi2 W).
#[local] Abbreviation wf := (wf bmi2 W H).
#[local] Abbreviation cells := (cells bmi2 W H).

Lemma blocks_cover : W <= 8 * kSBW < W + 8 /\ H <= 8 * kSBH < H + 8.
Proof.
  unfold Grid2D.kSBW, Grid2D.kSBH. change (2 ^ 31) with 2147483648 in *. rewrite !wrap_small by (unfold in_range; change (2 ^ 32) with 4294967296; lia).
  Z.div_mod_to_equations. lia.
Qed.

Lemma inside_padded x y : inside x y -> padded x y.
Proof. intros [Hx Hy]. pose proof blocks_cover. split; lia. Qed.

Lemma block_code x y : 0 <= x < 8 -> 0 <= y < 8 -> morton2d bmi2 x y .& 63 = morton2d bmi2 x y /\ 0 <= morton2d bmi2 x y < 64 /\ morton2d_decode bmi2 (morton2d bmi2 x y) = (x, y).
Proof.
  intros Hx Hy. pose proof (morton_range bmi2 x y 3 ltac:(lia) Hx Hy) as Hr. change (2 * 3) with 6 in Hr. change 63 with (Z.ones 6). rewrite Z.land_ones, Z.mod_small by (exact Hr || lia).
  split; [done|]. split; [exact Hr|]. apply (morton_roundtrip bmi2 bmi2 x y 0); unfold in_range; lia.
Qed.

Lemma block_bit b : 0 <= b < 64 -> let '(x, y) := morton2d_decode bmi2 b in 0 <= x < 8 /\ 0 <= y < 8 /\ morton2d bmi2 x y = b.
Proof.
  intros Hb. assert (in_range 32 b) as Hb32 by (unfold in_range; lia). destruct (morton_roundtrip bmi2 bmi2 0 0 b) as (_ & E & _); [done|done|done|].
  destruct (morton2d_decode bmi2 b) as [x y] eqn:Ed.
  assert (forall v, (forall k, 0 <= k -> Z.testbit v k = Z.testbit b (2 * k) \/ Z.testbit v k = Z.testbit b (2 * k + 1)) -> 0 <= v -> 0 <= v < 8) as Hv.
  { intros v Hbits Hv. apply (testbit_range 3); [lia|done|]. intros k Hk. destruct (Hbits k) as [-> | ->]; [lia| |]; apply (range_testbit 6); unfold in_range; lia. }
  assert (0 <= x /\ 0 <= y) as [Hx0 Hy0].
  { destruct bmi2; cbn [morton2d_decode] in Ed; injection Ed as <- <-; split; try apply bits_val_nonneg; unfold compact; cbn zeta; apply Z.land_nonneg; right; lia. }
  split; [|split; [|done]]; apply Hv; try done; intros k Hk; destruct (decode_bits bmi2 b k Hb32 Hk) as [E1 E2]; rewrite Ed in E1, E2; [by left|by right].
Qed.

Lemma locate_range x y : padded x y -> 0 <= (locate x y).1 < kSBCount W H /\ 0 <= (locate x y).2 < 64.
Proof.
  intros [Hx Hy]. unfold Grid2D.locate. cbn zeta. cbn [fst snd]. destruct (block_code (x mod 8) (y mod 8)) as (-> & Hr & _); [apply Z.mod_pos_bound; lia|apply Z.mod_pos_bound; lia|].
  split; [|done]. unfold kSBCount. assert (0 <= x / 8 < kSBW) by (Z.div_mod_to_equations; lia). assert (0 <= y / 8 < kSBH) by (Z.div_mod_to_equations; lia). nia.
Qed.

Lemma locate_inj x y x' y' : padded x y -> padded x' y' -> locate x y = locate x' y' -> (x, y) = (x', y').
Proof.
  intros [Hx Hy] [Hx' Hy'] E. unfold Grid2D.locate in E. cbn zeta in E. injection E as Ew Eb.
  destruct (block_code (x mod 8) (y mod 8)) as (E1 & _ & D1); [apply Z.mod_pos_bound; lia|apply Z.mod_pos_bound; lia|].
  destruct (block_code (x' mod 8) (y' mod 8)) as (E2 & _ & D2); [apply Z.mod_pos_bound; lia|apply Z.mod_pos_bound; lia|].
  rewrite E1, E2 in Eb. rewrite Eb, D2 in D1. injection D1 as Ex Ey.
  assert (0 <= x / 8 < kSBW /\ 0 <= x' / 8 < kSBW) as [Hd Hd'] by (Z.div_mod_to_equations; lia). assert (y / 8 = y' / 8) as Eq by nia.
  rewrite Eq in Ew. assert (x / 8 = x' / 8) as Eq' by lia. f_equal; [rewrite (Z.div_mod x 8), (Z.div_mod x' 8)|rewrite (Z.div_mod y 8), (Z.div_mod y' 8)]; lia.
Qed.

(** The cell of a bit of a word. *)
Definition cell_of (sbx sby b : Z) : Z * Z := let '(lx, ly) := morton2d_decode bmi2 b in (sbx * 8 + lx, sby * 8 + ly).

Lemma locate_cell_of sbx sby b : 0 <= sbx < kSBW -> 0 <= sby < kSBH -> 0 <= b < 64 ->
  let '(x, y) := cell_of sbx sby b in padded x y /\ locate x y = (sby * kSBW + sbx, b).
Proof.
  intros Hx Hy Hb. unfold cell_of. pose proof (block_bit b Hb) as Hd. destruct (morton2d_decode bmi2 b) as [lx ly]. destruct Hd as (Hlx & Hly & E). split; [split; lia|].
  unfold Grid2D.locate. cbn zeta. replace ((sbx * 8 + lx) / 8) with sbx by (Z.div_mod_to_equations; lia). replace ((sby * 8 + ly) / 8) with sby by (Z.div_mod_to_equations; lia).
  replace ((sbx * 8 + lx) mod 8) with lx by (Z.div_mod_to_equations; lia). replace ((sby * 8 + ly) mod 8) with ly by (Z.div_mod_to_equations; lia).
  destruct (block_code lx ly Hlx Hly) as (-> & _). by rewrite E.
Qed.

Lemma elem_cells g p : wf g -> p ∈ cells g <-> padded p.1 p.2 /\ bit_at g p.1 p.2 = true.
Proof.
  intros Hg. unfold Grid2D.cells. rewrite elem_of_list_to_set, list_elem_of_filter, elem_box. split.
  - intros [Hb Hp]. split; [|done]. apply inside_padded. split; lia.
  - intros [Hp Hb]. split; [done|]. destruct (wf_pad _ _ _ _ Hg _ _ Hp Hb). lia.
Qed.

Lemma word_range g w : wf g -> in_range 64 (at_ g w).
Proof. intros Hg. apply at_range; [lia|apply Hg]. Qed.

Lemma at_put2d g w v w' : 0 <= w < zlen g -> 0 <= w' -> at_ (put g w v) w' = if decide (w' = w) then v else at_ g w'.
Proof.
  intros Hw Hw'. unfold put, at_. rewrite !nth_lookup. unfold zlen in Hw. destruct (decide (w' = w)) as [->|]; [by rewrite list_lookup_insert_eq by lia|by rewrite list_lookup_insert_ne by lia].
Qed.

(** A grid made of the bits of another, changed as [c] says: at most cells of the grid are
    set. *)
Lemma from_bits g g' (c : Z * Z -> bool) (S : gset (Z * Z)) : wf g -> zlen g' = kSBCount W H -> Forall (in_range 64) g' ->
  (forall p, padded p.1 p.2 -> bit_at g' p.1 p.2 = c p) -> (forall p, c p = true -> padded p.1 p.2 -> inside p.1 p.2) ->
  (forall p, p ∈ S <-> padded p.1 p.2 /\ c p = true) -> wf g' /\ cells g' = S.
Proof.
  intros Hg Hl Hw Hc Hin HS. assert (wf g') as Hg'.
  { split; [done|done|]. intros x y Hp Hb. apply (Hin (x, y)); [|done]. by rewrite <- (Hc (x, y)). }
  split; [done|]. apply set_eq. intros p. rewrite elem_cells, HS by done. split; intros [Hp Hb]; (split; [done|]); [by rewrite <- Hc|by rewrite Hc].
Qed.

(** Writing one bit. *)
Lemma one_bit2d g x y v (c : bool) : wf g -> inside x y -> in_range 64 v ->
  (forall k, 0 <= k < 64 -> Z.testbit v k = if decide (k = (locate x y).2) then c else Z.testbit (at_ g (locate x y).1) k) ->
  let g' := put g (locate x y).1 v in wf g' /\ cells g' = if c then {[(x, y)]} ∪ cells g else cells g ∖ {[(x, y)]}.
Proof.
  intros Hg Hi Hv Hbits. cbn zeta. pose proof (inside_padded x y Hi) as Hp. destruct (locate_range x y Hp) as [Hw Hb].
  apply (from_bits g _ (fun p => if decide (p = (x, y)) then c else bit_at g p.1 p.2)); try done.
  - unfold zlen, put. rewrite length_insert. apply Hg.
  - apply Forall_insert; [apply Hg|done].
  - intros [x' y'] Hp'. cbn [fst snd] in *. destruct (locate_range x' y' Hp') as [Hw' Hb']. unfold Grid2D.bit_at.
    destruct (locate x' y') as [w' b'] eqn:E'. cbn [fst snd] in *. rewrite at_put2d by (rewrite ?(wf_len _ _ _ _ Hg); lia).
    destruct (decide ((x', y') = (x, y))) as [E|Hne].
    + injection E as -> ->. rewrite E' in *. cbn [fst snd] in *. rewrite decide_True, Hbits, decide_True by done. done.
    + destruct (decide (w' = (locate x y).1)) as [->|]; [|done]. rewrite Hbits by done. rewrite decide_False; [done|]. intros ->. apply Hne, locate_inj; [done|done|]. by rewrite E', <- surjective_pairing.
  - intros p Hc Hpp. destruct (decide (p = (x, y))) as [->|]; [done|]. by apply Hg.
  - intros p. destruct c; rewrite ?elem_of_union, ?elem_of_difference, elem_of_singleton, elem_cells by done; destruct (decide (p = (x, y))) as [->|]; naive_solver.
Qed.

(** ** Writes *)

Lemma set_spec2d g x y : wf g -> inside x y -> wf (set bmi2 W g x y) /\ cells (set bmi2 W g x y) = {[(x, y)]} ∪ cells g.
Proof.
  intros Hg Hi. destruct (locate_range x y (inside_padded x y Hi)) as [_ Hb]. unfold set. rewrite (surjective_pairing (locate x y)).
  apply (one_bit2d g x y _ true); try done; [apply lor_range; [lia|by apply word_range|by apply bit_range]|].
  intros k Hk. rewrite Z.lor_spec, bit_spec by lia. destruct (decide (k = (locate x y).2)); [rewrite bool_decide_eq_true_2, orb_true_r by done|rewrite bool_decide_eq_false_2, orb_false_r by done]; done.
Qed.

Lemma clear_spec2d g x y : wf g -> inside x y -> wf (clear bmi2 W g x y) /\ cells (clear bmi2 W g x y) = cells g ∖ {[(x, y)]}.
Proof.
  intros Hg Hi. destruct (locate_range x y (inside_padded x y Hi)) as [_ Hb]. unfold clear. rewrite (surjective_pairing (locate x y)).
  apply (one_bit2d g x y _ false); try done; [apply land_range; [lia|by apply word_range|apply (wrap_range 64); lia]|].
  intros k Hk. rewrite Z.land_spec, wrap_testbit, bool_decide_eq_true_2, Z.lnot_spec, bit_spec by lia. cbn [andb].
  destruct (decide (k = (locate x y).2)); [rewrite bool_decide_eq_true_2, andb_false_r by done|rewrite bool_decide_eq_false_2, andb_true_r by done]; done.
Qed.

Lemma bit_at_cells g x y : wf g -> padded x y -> bit_at g x y = bool_decide ((x, y) ∈ cells g).
Proof. intros Hg Hp. apply eq_true_iff_eq. rewrite bool_decide_eq_true, elem_cells by done. cbn [fst snd]. tauto. Qed.

Lemma test_spec g x y : wf g -> inside x y -> test bmi2 W g x y = bool_decide ((x, y) ∈ cells g).
Proof.
  intros Hg Hi. pose proof (inside_padded x y Hi) as Hp. rewrite <- bit_at_cells by done. destruct (locate_range x y Hp) as [_ Hb]. unfold test, Grid2D.bit_at.
  destruct (locate x y) as [w b]. cbn [snd] in Hb. rewrite <- (Z.add_0_l b) at 2. rewrite <- Z.shiftr_spec by lia.
  change 1 with (Z.ones 1). rewrite Z.land_ones, Z.bit0_odd, Zmod_odd by lia. by destruct (Z.odd _).
Qed.

Lemma toggle_spec2d g x y : wf g -> inside x y -> let was := bool_decide ((x, y) ∈ cells g) in
  (toggle bmi2 W g x y).2 = negb was /\ wf (toggle bmi2 W g x y).1 /\
  cells (toggle bmi2 W g x y).1 = if was then cells g ∖ {[(x, y)]} else {[(x, y)]} ∪ cells g.
Proof.
  intros Hg Hi. pose proof (inside_padded x y Hi) as Hp. cbn zeta. rewrite <- bit_at_cells by done. destruct (locate_range x y Hp) as [_ Hb].
  unfold toggle, Grid2D.bit_at. rewrite (surjective_pairing (locate x y)). cbn zeta. cbn [fst snd]. set (w := at_ g (locate x y).1) in *. set (b := (locate x y).2) in *. split.
  - apply eq_true_iff_eq. rewrite Z.eqb_eq, negb_true_iff. split.
    + intros E. assert (Z.testbit (w .& (1 << b)) b = false) as Hz by by rewrite E, Z.bits_0. rewrite Z.land_spec, bit_spec, bool_decide_eq_true_2, andb_true_r in Hz by (done || lia). done.
    + intros E. apply Z.bits_inj'. intros k Hk. rewrite Z.bits_0, Z.land_spec, bit_spec by lia. case_bool_decide; [subst k; by rewrite E|by rewrite andb_false_r].
  - destruct (one_bit2d g x y (w .^ (1 << b)) (negb (Z.testbit w b)) Hg Hi) as [Hw Hc]; [apply lxor_range; [lia|by apply word_range|by apply bit_range]| |].
    + intros k Hk. fold b. fold w. rewrite Z.lxor_spec, bit_spec by lia. destruct (decide (k = b)) as [->|]; [rewrite bool_decide_eq_true_2, xorb_true_r by done|rewrite bool_decide_eq_false_2, xorb_false_r by done]; done.
    + split; [exact Hw|]. rewrite Hc. by destruct (Z.testbit w b).
Qed.

Lemma clear_box_spec2d g x1 y1 x2 y2 : wf g -> inside x1 y1 -> inside x2 y2 ->
  wf (clear_box bmi2 W g x1 y1 x2 y2) /\ cells (clear_box bmi2 W g x1 y1 x2 y2) = base.filter (fun p => ~ (x1 <= p.1 <= x2 /\ y1 <= p.2 <= y2)) (cells g).
Proof.
  intros Hg [Hx1 Hy1] [Hx2 Hy2]. unfold clear_box.
  assert (forall ps g, wf g -> Forall (fun p => inside p.1 p.2) ps -> let g' := foldl (fun g p => clear bmi2 W g p.1 p.2) g ps in wf g' /\ cells g' = base.filter (fun p => p ∉ ps) (cells g)) as Hfold.
  { clear g Hg. intros ps. induction ps as [|q ps IH]; intros g Hg Hps; cbn [foldl]; cbn zeta.
    - split; [done|]. apply set_eq. intros p. rewrite elem_of_filter. split; [intros Hp; split; [apply not_elem_of_nil|done]|tauto].
    - apply Forall_cons in Hps as [Hq Hps]. destruct (clear_spec2d g q.1 q.2 Hg Hq) as [Hg1 E1]. destruct (IH _ Hg1 Hps) as [Hg2 E2]. split; [done|].
      apply set_eq. intros p. rewrite E2, E1, !elem_of_filter, elem_of_difference, elem_of_singleton, not_elem_of_cons, <- surjective_pairing. tauto. }
  destruct (Hfold (box x1 y1 x2 y2) g Hg) as [Hw Hc]; [apply Forall_forall; intros p Hp%elem_box; split; lia|]. split; [done|]. rewrite Hc. apply set_eq. intros p. rewrite !elem_of_filter, elem_box. tauto.
Qed.

Lemma zeros_spec2d g : zlen g = kSBCount W H -> Forall (eq 0) g -> wf g /\ cells g = ∅.
Proof.
  intros Hl Hz. assert (forall w, at_ g w = 0) as Hat.
  { intros w. unfold at_. destruct (nth_in_or_default (Z.to_nat w) g 0) as [Hin|E]; [|done]. rewrite <- list_elem_of_In in Hin. rewrite Forall_forall in Hz. symmetry. by apply Hz. }
  assert (forall x y, bit_at g x y = false) as Hb by (intros x y; unfold Grid2D.bit_at; destruct (locate x y); by rewrite Hat, Z.bits_0).
  assert (wf g) as Hg; [|split; [done|]].
  - split; [done| |intros x y _; by rewrite Hb]. eapply Forall_impl; [exact Hz|]. by intros ? <-.
  - apply set_eq. intros p. rewrite elem_cells, Hb by done. split; [by intros [_ ?]|by intros ?%not_elem_of_empty].
Qed.

Lemma zip_spec2d (f : Z -> Z -> Z) (fb : bool -> bool -> bool) g (o : list Z) (S : gset (Z * Z)) : wf g -> wf o ->
  (forall a b, in_range 64 a -> in_range 64 b -> in_range 64 (f a b) /\ forall k, 0 <= k < 64 -> Z.testbit (f a b) k = fb (Z.testbit a k) (Z.testbit b k)) ->
  (forall p, p ∈ S <-> fb (bool_decide (p ∈ cells g)) (bool_decide (p ∈ cells o)) = true) -> fb false false = false ->
  wf (zip_with f g o) /\ cells (zip_with f g o) = S.
Proof.
  intros Hg Ho Hf HS H0. pose proof (wf_len _ _ _ _ Hg) as Lg. pose proof (wf_len _ _ _ _ Ho) as Lo. unfold zlen in Lg, Lo.
  apply (from_bits g _ (fun p => fb (bit_at g p.1 p.2) (bit_at o p.1 p.2))); try done.
  - unfold zlen. rewrite length_zip_with. lia.
  - pose proof (wf_words _ _ _ _ Hg) as Hcg. pose proof (wf_words _ _ _ _ Ho) as Hco. clear -Hf Hcg Hco. revert o Hco.
    induction Hcg as [|a g Ha Hcg IH]; intros o Hco; [constructor|]. destruct Hco as [|b o Hb Hco]; [constructor|]. constructor; [by apply Hf|by apply IH].
  - intros p Hp. destruct (locate_range p.1 p.2 Hp) as [Hw Hb]. unfold Grid2D.bit_at. destruct (locate p.1 p.2) as [w b]. cbn [fst snd] in *. unfold kSBCount in Hw.
    assert (at_ (zip_with f g o) w = f (at_ g w) (at_ o w)) as ->.
    { unfold at_. rewrite !nth_lookup, lookup_zip_with. unfold kSBCount in *. destruct (lookup_lt_is_Some_2 g (Z.to_nat w)) as [u ->]; [lia|]. destruct (lookup_lt_is_Some_2 o (Z.to_nat w)) as [v ->]; [lia|]. done. }
    apply Hf; [by apply word_range|by apply word_range|done].
  - intros p Hc Hp. destruct (bit_at g p.1 p.2) eqn:Eg; [by apply Hg|]. destruct (bit_at o p.1 p.2) eqn:Eo; [by apply Ho|]. congruence.
  - intros p. rewrite HS. assert (forall h, wf h -> bool_decide (p ∈ cells h) = bool_decide (padded p.1 p.2) && bit_at h p.1 p.2) as Hbd.
    { intros h Hh. apply eq_true_iff_eq. rewrite andb_true_iff, !bool_decide_eq_true, elem_cells by done. tauto. }
    rewrite !Hbd by done. case_bool_decide; cbn [andb]; [tauto|]. rewrite H0. split; [done|tauto].
Qed.

Lemma bitwise_spec2d g o : wf g -> wf o ->
  (wf (merge_from g o) /\ cells (merge_from g o) = cells g ∪ cells o) /\
  (wf (intersect_with g o) /\ cells (intersect_with g o) = cells g ∩ cells o) /\
  (wf (diff_from g o) /\ cells (diff_from g o) = cells g ∖ cells o).
Proof.
  intros Hg Ho. split; [|split].
  - apply (zip_spec2d _ orb); try done; [|intros p; by rewrite elem_of_union, orb_true_iff, !bool_decide_eq_true].
    intros a b Ha Hb. split; [by apply lor_range|]. intros k Hk. apply Z.lor_spec.
  - apply (zip_spec2d _ andb); try done; [|intros p; by rewrite elem_of_intersection, andb_true_iff, !bool_decide_eq_true].
    intros a b Ha Hb. split; [apply land_range; [lia|done|apply Hb]|]. intros k Hk. apply Z.land_spec.
  - apply (zip_spec2d _ (fun c d : bool => c && negb d)); try done.
    + intros a b Ha Hb. split; [apply land_range; [lia|done|apply (wrap_range 64); lia]|]. intros k Hk. by rewrite Z.land_spec, wrap_testbit, bool_decide_eq_true_2, Z.lnot_spec by lia.
    + intros p. by rewrite elem_of_difference, andb_true_iff, negb_true_iff, bool_decide_eq_true, bool_decide_eq_false.
Qed.

(** ** Visiting the cells *)

Lemma word_bits v : in_range 64 v -> bits_val (map (Z.testbit v) (seqZ 0 64)) = v.
Proof.
  intros Hv. apply Z.bits_inj'. intros k Hk. rewrite testbit_bits_val_Z by done. destruct (decide (k < 64)) as [Hlt|Hge].
  - rewrite nth_lookup, list_lookup_fmap, (proj2 (lookup_seqZ 0 64 (Z.to_nat k) k)) by lia. done.
  - rewrite nth_overflow, (range_testbit 64 v k) by (done || rewrite ?length_map, ?length_seqZ; lia). done.
Qed.

Definition positions (v : Z) : list Z := List.filter (Z.testbit v) (seqZ 0 64).

(** What the loop over a word visits: the cells of its bits, if they are in the grid. *)
Definition in_grid (p : Z * Z) : bool := (p.1 <? W) && (p.2 <? H).

Lemma visit_loop sbx sby l (k fuel : nat) : (k + length l <= 64)%nat -> (length l <= fuel)%nat ->
  visit_word bmi2 W H fuel sbx sby (2 ^ Z.of_nat k * bits_val l) =
  List.filter in_grid (map (cell_of sbx sby) (List.filter (fun i => nth (Z.to_nat (i - Z.of_nat k)) l false) (seqZ (Z.of_nat k) (zlen l)))).
Proof.
  revert k fuel. induction l as [|c l IH]; intros k fuel Hk Hf.
  { cbn [bits_val]. rewrite Z.mul_0_r. by destruct fuel. }
  cbn [length] in *. destruct fuel as [|fuel]; [lia|]. rewrite mask_split. rewrite zlen_cons, (Z.add_comm (zlen l)), seqZ_app by (pose proof (zlen_nonneg l); lia).
  change (seqZ (Z.of_nat k) 1) with [Z.of_nat k]. rewrite List.filter_app. cbn [List.filter].
  rewrite Z.sub_diag. change (nth (Z.to_nat 0) (c :: l) false) with c.
  assert (List.filter (fun i => nth (Z.to_nat (i - Z.of_nat k)) (c :: l) false) (seqZ (Z.of_nat k + 1) (zlen l)) =
    List.filter (fun i => nth (Z.to_nat (i - Z.of_nat (S k))) l false) (seqZ (Z.of_nat (S k)) (zlen l))) as ->.
  { replace (Z.of_nat k + 1) with (Z.of_nat (S k)) by lia. apply List.filter_ext_in. intros i Hi. rewrite <- list_elem_of_In, elem_of_seqZ in Hi.
    replace (Z.to_nat (i - Z.of_nat k)) with (S (Z.to_nat (i - Z.of_nat (S k)))) by lia. done. }
  destruct c; [|cbn [app]; apply IH; lia].
  assert (0 < 2 ^ Z.of_nat k * (1 + 2 * bits_val l)) as Hpos by (pose proof (bits_val_nonneg l); pose proof (Z.pow_pos_nonneg 2 (Z.of_nat k)); nia).
  cbn [visit_word]. rewrite (proj2 (Z.eqb_neq _ 0)), ctz_spec, clear_lowest, IH by lia. cbn [app map List.filter].
  assert (cell_of sbx sby (Z.of_nat k) = let '(lx, ly) := morton2d_decode bmi2 (Z.of_nat k) in (sbx * 8 + lx, sby * 8 + ly)) as -> by done.
  destruct (morton2d_decode bmi2 (Z.of_nat k)) as [lx ly]. change (in_grid (sbx * 8 + lx, sby * 8 + ly)) with ((sbx * 8 + lx <? W) && (sby * 8 + ly <? H)). by destruct (_ && _).
Qed.

Lemma visit_word_spec sbx sby v : in_range 64 v -> visit_word bmi2 W H 64 sbx sby v = List.filter in_grid (map (cell_of sbx sby) (positions v)).
Proof.
  intros Hv. pose proof (visit_loop sbx sby (map (Z.testbit v) (seqZ 0 64)) 0 64) as E. rewrite word_bits in E by done. change (2 ^ Z.of_nat 0) with 1 in E. rewrite Z.mul_1_l in E.
  rewrite E by (rewrite length_map, length_seqZ; lia). apply (f_equal (fun l => List.filter in_grid (map (cell_of sbx sby) l))).
  rewrite zlen_map. change (zlen (seqZ 0 64)) with 64. apply List.filter_ext_in. intros i Hi.
  rewrite <- list_elem_of_In, elem_of_seqZ in Hi. cbn [Z.of_nat]. rewrite Z.sub_0_r, nth_lookup, list_lookup_fmap, (proj2 (lookup_seqZ 0 64 (Z.to_nat i) i)) by lia. done.
Qed.

Lemma elem_positions v b : b ∈ positions v <-> 0 <= b < 64 /\ Z.testbit v b = true.
Proof. unfold positions. rewrite list_elem_of_In, filter_In, <- list_elem_of_In, elem_of_seqZ. split; intros [? ?]; (split; [lia|done]). Qed.

Lemma NoDup_positions v : NoDup (positions v).
Proof. unfold positions. apply NoDup_ListNoDup, List.NoDup_filter, NoDup_ListNoDup, NoDup_seqZ. Qed.

Lemma popcount_positions v : popcount 64 v = zlen (positions v).
Proof. unfold popcount, positions. apply count_if_list_filter. Qed.

#[local] Opaque positions morton2d_decode morton2d.

(** The cells of the bits set in the word of a block. *)
Definition block_cells g (p : Z * Z) : list (Z * Z) := map (cell_of p.1 p.2) (positions (at_ g (p.2 * kSBW + p.1))).

Lemma block_cells_spec g p : wf g -> p ∈ box 0 0 (kSBW - 1) (kSBH - 1) ->
  NoDup (block_cells g p) /\ forall q, q ∈ block_cells g p -> q ∈ cells g /\ (locate q.1 q.2).1 = p.2 * kSBW + p.1.
Proof.
  intros Hg Hp%elem_box. unfold block_cells. assert (forall b, b ∈ positions (at_ g (p.2 * kSBW + p.1)) -> let q := cell_of p.1 p.2 b in padded q.1 q.2 /\ locate q.1 q.2 = (p.2 * kSBW + p.1, b)) as Hq.
  { intros b [Hb _]%elem_positions. cbn zeta. pose proof (locate_cell_of p.1 p.2 b ltac:(lia) ltac:(lia) Hb) as Hl. by destruct (cell_of p.1 p.2 b). }
  split.
  - apply NoDup_fmap_2_strong; [|apply NoDup_positions].
    intros b b' Hb Hb' E. destruct (Hq b Hb) as [_ E1]. destruct (Hq b' Hb') as [_ E2]. rewrite E, E2 in E1. by injection E1.
  - intros q (b & -> & Hb)%list_elem_of_fmap. destruct (Hq b Hb) as [Hpad E]. rewrite E. split; [|done]. apply elem_cells; [done|]. split; [done|].
    unfold Grid2D.bit_at. rewrite E. apply elem_positions in Hb as [_ Hb]. exact Hb.
Qed.

Lemma for_each_set_blocks g : wf g -> for_each_set bmi2 W H g = concat (map (block_cells g) (box 0 0 (kSBW - 1) (kSBH - 1))).
Proof.
  intros Hg. unfold for_each_set. f_equal. apply map_ext_in. intros p Hp. rewrite <- list_elem_of_In in Hp. rewrite visit_word_spec by by apply word_range.
  apply filter_all. intros q Hq. destruct (block_cells_spec g p Hg Hp) as [_ Hc]. destruct (Hc q Hq) as [Hin _]. apply elem_cells in Hin as [Hpad Hb]; [|done].
  destruct (wf_pad _ _ _ _ Hg _ _ Hpad Hb). unfold in_grid. lia.
Qed.

Lemma for_each_set_spec g : wf g -> NoDup (for_each_set bmi2 W H g) /\ forall q, q ∈ for_each_set bmi2 W H g <-> q ∈ cells g.
Proof.
  intros Hg. rewrite for_each_set_blocks by done. split.
  - apply NoDup_concat_map; [apply NoDup_box|intros p Hp; by apply block_cells_spec|]. intros p p' q Hp Hp' Hq Hq'.
    destruct (block_cells_spec g p Hg Hp) as [_ H1]. destruct (block_cells_spec g p' Hg Hp') as [_ H2]. destruct (H1 q Hq) as [_ E1]. destruct (H2 q Hq') as [_ E2].
    apply elem_box in Hp, Hp'. rewrite E1 in E2. assert (p.2 = p'.2) as E by nia. rewrite E in E2. apply injective_projections; lia.
  - intros q. rewrite elem_concat. setoid_rewrite list_elem_of_fmap. split.
    + intros (k & (p & -> & Hp) & Hq). destruct (block_cells_spec g p Hg Hp) as [_ Hc]. by apply Hc.
    + intros [Hpad Hb]%elem_cells; [|done]. set (p := (q.1 / 8, q.2 / 8)). destruct (locate_range q.1 q.2 Hpad) as [_ Hbit]. destruct Hpad as [Hx Hy].
      exists (block_cells g p). split; [exists p; split; [done|]; apply elem_box; cbn [p fst snd]; Z.div_mod_to_equations; lia|].
      apply list_elem_of_fmap. exists (locate q.1 q.2).2. split.
      * unfold cell_of, Grid2D.locate. cbn zeta. cbn [snd p fst]. destruct (block_code (q.1 mod 8) (q.2 mod 8)) as (-> & _ & ->); [apply Z.mod_pos_bound; lia|apply Z.mod_pos_bound; lia|].
        apply injective_projections; cbn [fst snd]; Z.div_mod_to_equations; lia.
      * apply elem_positions. split; [done|]. unfold Grid2D.bit_at in Hb. rewrite (surjective_pairing (locate q.1 q.2)) in Hb. exact Hb.
Qed.

Lemma count_all_spec g : wf g -> count_all g = u32 (Z.of_nat (size (cells g))).
Proof.
  intros Hg. destruct (for_each_set_spec g Hg) as [Hnd Hel].
  assert (size (cells g) = length (for_each_set bmi2 W H g)) as ->.
  { rewrite <- (size_list_to_set (C := gset (Z * Z)) _ Hnd). f_equal. apply set_eq. intros q. by rewrite elem_of_list_to_set, Hel. }
  rewrite for_each_set_blocks by done. pose proof blocks_cover.
  assert (forall ps a, foldl (fun total w => u32 (total + popcount 64 w)) (u32 a) (map (fun p => at_ g (p.2 * kSBW + p.1)) ps) = u32 (a + Z.of_nat (length (concat (map (block_cells g) ps))))) as Hsum.
  { intros ps. induction ps as [|p ps IH]; intros a; cbn [map foldl concat length]; [by rewrite Z.add_0_r|].
    rewrite wrap_add_l, IH, length_app. unfold block_cells at 2. rewrite length_map, popcount_positions. f_equal. unfold zlen. lia. }
  specialize (Hsum (box 0 0 (kSBW - 1) (kSBH - 1)) 0). rewrite array_box in Hsum by (lia || apply Hg). exact Hsum.
Qed.

Lemma box_queries2d g x1 y1 x2 y2 : wf g -> inside x1 y1 -> inside x2 y2 -> let occupied p := bool_decide (p ∈ cells g) in
  any_in_box bmi2 W g x1 y1 x2 y2 = existsb occupied (box x1 y1 x2 y2) /\
  count_in_box bmi2 W g x1 y1 x2 y2 = u32 (count_if occupied (box x1 y1 x2 y2)) /\
  for_each_set_in_box bmi2 W g x1 y1 x2 y2 = List.filter occupied (box x1 y1 x2 y2).
Proof.
  intros Hg [Hx1 Hy1] [Hx2 Hy2]. cbn zeta. assert (forall p, p ∈ box x1 y1 x2 y2 -> test bmi2 W g p.1 p.2 = bool_decide (p ∈ cells g)) as Ht.
  { intros p Hp%elem_box. rewrite test_spec by (done || split; lia). by rewrite <- surjective_pairing. }
  split; [|split].
  - by apply existsb_ext.
  - unfold count_in_box. change 0 with (u32 0) at 1. rewrite <- (Z.add_0_l (count_if _ _)). revert Ht. generalize (box x1 y1 x2 y2). generalize 0.
    intros a ps. revert a. induction ps as [|p ps IH]; intros a Ht; cbn [foldl count_if]; [by rewrite Z.add_0_r|]. rewrite (Ht p) by left.
    destruct (bool_decide (p ∈ cells g)); [rewrite wrap_add_l|]; rewrite IH by (intros q Hq; apply Ht; by right); f_equal; lia.
  - apply List.filter_ext_in. intros p Hp. apply Ht. by apply list_elem_of_In.
Qed.

(** ** The line of sight *)

Lemma ray_inside x0 y0 x1 y1 k : inside x0 y0 -> inside x1 y1 -> 0 <= k <= Z.max (Z.abs (x1 - x0)) (Z.abs (y1 - y0)) ->
  let p := ray_cell x0 y0 (Z.sgn (x1 - x0)) (Z.sgn (y1 - y0)) (Z.abs (x1 - x0)) (Z.abs (y1 - y0)) k in
  inside p.1 p.2 /\ (p = (x1, y1) <-> k = Z.max (Z.abs (x1 - x0)) (Z.abs (y1 - y0))).
Proof.
  intros [Hx0 Hy0] [Hx1 Hy1] Hk. cbn zeta. unfold ray_cell. pose proof (line_bounds (Z.abs (x1 - x0)) (Z.abs (y1 - y0)) k ltac:(lia) ltac:(lia) Hk) as Hb.
  pose proof (line_end (Z.abs (x1 - x0)) (Z.abs (y1 - y0)) k ltac:(lia) ltac:(lia) Hk) as He. destruct (line _ _ k) as [i j]. cbn [fst snd]. split; [split; nia|].
  rewrite <- He. split; [intros [= Ex Ey]; f_equal; nia|intros [= -> ->]; f_equal; lia].
Qed.

Lemma ray_sign x0 y0 sx sy sx' sy' a b k : 0 <= a -> 0 <= b -> 0 <= k <= Z.max a b -> (a = 0 \/ sx = sx') -> (b = 0 \/ sy = sy') ->
  ray_cell x0 y0 sx sy a b k = ray_cell x0 y0 sx' sy' a b k.
Proof.
  intros Ha Hb Hk Hx Hy. unfold ray_cell. pose proof (line_bounds a b k Ha Hb Hk) as Hl. destruct (line a b k) as [i j]. f_equal.
  - destruct Hx as [E|E]; [assert (i = 0) as -> by lia; lia|by rewrite E].
  - destruct Hy as [E|E]; [assert (j = 0) as -> by lia; lia|by rewrite E].
Qed.

(** The casts and the initial values, for cells of a grid of less than [2 ^ 31] cells a side. *)
Lemma to_int32_small x : x < 2 ^ 31 -> to_int32 x = x.
Proof. intros Hx. unfold to_int32. by rewrite (proj2 (Z.ltb_lt _ _)). Qed.

Lemma ray_setup_spec x0 y0 x1 y1 : let a := Z.abs (x1 - x0) in let b := Z.abs (y1 - y0) in
  inside x0 y0 -> inside x1 y1 -> a <= max_side -> b <= max_side ->
  ray_setup x0 y0 x1 y1 = Some (if 0 <? x1 - x0 then 1 else -1, if 0 <? y1 - y0 then 1 else -1, a, b, a - b, a + b + 1).
Proof.
  intros a b [Hx0 Hy0] [Hx1 Hy1] Ha Hb. unfold ray_setup. rewrite !to_int32_small by lia.
  rewrite (int32_in (x1 - x0)), (int32_in (y1 - y0)) by lia. cbn [mbind option_bind].
  assert ((if x1 - x0 <? 0 then - (x1 - x0) else x1 - x0) = a) as -> by (unfold a; destruct (Z.ltb_spec (x1 - x0) 0); lia).
  assert ((if y1 - y0 <? 0 then - (y1 - y0) else y1 - y0) = b) as -> by (unfold b; destruct (Z.ltb_spec (y1 - y0) 0); lia).
  rewrite (int32_in a), (int32_in b) by lia. cbn [mbind option_bind]. rewrite (int32_in (a - b)), (int32_in (a + b)) by lia. cbn [mbind option_bind].
  by rewrite wrap_small by (split; lia).
Qed.

Lemma ray_loop_spec2d g x0 y0 x1 y1 sx sy a b (n : nat) k h : let P := ray_cell x0 y0 sx sy a b in
  wf g -> -1 <= sx <= 1 -> -1 <= sy <= 1 -> 0 <= a <= max_side -> 0 <= b <= max_side -> inside x1 y1 -> (forall i, 0 <= i <= Z.max a b -> inside (P i).1 (P i).2 /\ (P i = (x1, y1) <-> i = Z.max a b)) ->
  0 <= k <= Z.max a b -> Z.max a b < k + Z.of_nat n ->
  let r := ray_loop bmi2 W n g x1 y1 sx sy a b (P k, ray_err a b k) k in
  r <> Overflow /\ (r = Hit h <->
  k <= hit_steps h <= Z.max a b /\ P (hit_steps h) = (hit_x h, hit_y h) /\ (hit_x h, hit_y h) ∈ cells g /\ forall i, k <= i < hit_steps h -> P i ∉ cells g).
Proof.
  intros P Hg Hsx Hsy Ha Hb [Hx1 Hy1] Hin. revert k. induction n as [|n IH]; intros k Hk Hn; [lia|]. cbn zeta. cbn [ray_loop]. destruct (Hin k Hk) as [Hik Hend].
  destruct (P k) as [cx cy] eqn:EP. cbn [fst snd] in Hik. destruct (Hik) as [Hcx Hcy].
  rewrite <- EP, !to_int32_small, !wrap_small by (lia || split; lia). rewrite test_spec by done.
  case_bool_decide as Hc.
  - split; [done|]. split.
    + intros [= <-]. cbn [hit_steps hit_x hit_y]. split_and!; try done; lia.
    + intros (Hs & HP & Hh & Hfree). assert (hit_steps h = k) as Hsk.
      { destruct (decide (hit_steps h = k)) as [|E]; [done|]. destruct (Hfree k); [lia|]. by rewrite EP. }
      destruct h as [hx hy hs]. cbn [hit_steps hit_x hit_y] in *. subst hs. rewrite EP in HP. by inversion HP.
  - assert ((cx =? x1) && (cy =? y1) = bool_decide (k = Z.max a b)) as ->.
    { apply eq_true_iff_eq. rewrite andb_true_iff, !Z.eqb_eq, bool_decide_eq_true, <- Hend. split; [intros [-> ->]; done|by intros [= -> ->]]. }
    assert (forall s, k <= s -> P s = (hit_x h, hit_y h) -> (hit_x h, hit_y h) ∈ cells g -> s <> k) as Hne.
    { intros s Hs HP Hh ->. rewrite EP in HP. injection HP as -> ->. done. }
    case_bool_decide as Hlast.
    + split; [done|]. split; [done|]. intros (Hs & HP & Hh & _). destruct (Hne (hit_steps h)); [lia|done|done|lia].
    + assert (advance sx sy a b (P k, ray_err a b k) = Some (P (k + 1), ray_err a b (k + 1))) as ->
        by (apply advance_line; try lia; fold P; rewrite EP; cbn [fst snd]; lia).
      destruct (IH (k + 1) ltac:(lia) ltac:(lia)) as [Hdef ->]. split; [done|]. split; intros (Hs & HP & Hh & Hfree).
      * split; [lia|]. split; [done|]. split; [done|]. intros i Hi. destruct (decide (i = k)) as [->|]; [by rewrite EP|]. apply Hfree. lia.
      * pose proof (Hne (hit_steps h) ltac:(lia) HP Hh). split; [lia|]. split; [done|]. split; [done|]. intros i Hi. apply Hfree. lia.
Qed.

Lemma raycast_spec g x0 y0 x1 y1 h : wf g -> inside x0 y0 -> inside x1 y1 ->
  let a := Z.abs (x1 - x0) in let b := Z.abs (y1 - y0) in
  let P := ray_cell x0 y0 (Z.sgn (x1 - x0)) (Z.sgn (y1 - y0)) a b in
  a <= max_side -> b <= max_side ->
  raycast_2d bmi2 W g x0 y0 x1 y1 <> Overflow /\ (raycast_2d bmi2 W g x0 y0 x1 y1 = Hit h <->
  0 <= hit_steps h <= Z.max a b /\ P (hit_steps h) = (hit_x h, hit_y h) /\ (hit_x h, hit_y h) ∈ cells g /\ forall k, 0 <= k < hit_steps h -> P k ∉ cells g).
Proof.
  intros Hg H0 H1. cbn zeta. intros Ha Hb. unfold raycast_2d. rewrite (ray_setup_spec x0 y0 x1 y1) by done. destruct (H0) as [Hx0 Hy0]. rewrite !to_int32_small by lia. set (a := Z.abs (x1 - x0)). set (b := Z.abs (y1 - y0)). set (P := ray_cell x0 y0 (Z.sgn (x1 - x0)) (Z.sgn (y1 - y0)) a b).
  set (sx := if 0 <? x1 - x0 then 1 else -1). set (sy := if 0 <? y1 - y0 then 1 else -1).
  assert (forall k, 0 <= k <= Z.max a b -> ray_cell x0 y0 sx sy a b k = P k) as EP.
  { intros k Hk. apply ray_sign; [lia|lia|done| |]; [unfold sx, a; destruct (Z.ltb_spec 0 (x1 - x0))|unfold sy, b; destruct (Z.ltb_spec 0 (y1 - y0))]; lia. }
  destruct (ray_start x0 y0 sx sy a b) as [E0 Ee]; [lia|lia|]. rewrite <- Ee, <- E0.
  assert (-1 <= sx <= 1 /\ -1 <= sy <= 1) as [Hsx Hsy] by (unfold sx, sy; split; case_match; lia).
  destruct (ray_loop_spec2d g x0 y0 x1 y1 sx sy a b (Z.to_nat (a + b + 1)) 0 h) as [Hdef ->];
    [done|done|done|lia|lia|done|intros i Hi; rewrite EP by done; by apply ray_inside|lia|lia|].
  split; [done|]. split; intros (Hs & HP & Hh & Hfree); (split; [lia|]); [rewrite EP in HP by lia|rewrite EP by lia]; (split; [done|]); (split; [done|]); intros k Hk;
    [rewrite <- EP by lia|rewrite EP by lia]; by apply Hfree.
Qed.

Lemma snapshot_spec g x y b : wf g -> inside x y -> 0 <= b < 64 ->
  Z.testbit (super_block_snapshot W g x y) b = bool_decide (cell_of (x / 8) (y / 8) b ∈ cells g).
Proof.
  intros Hg Hi Hb. destruct (inside_padded x y Hi) as [Hx Hy]. pose proof (locate_cell_of (x / 8) (y / 8) b) as Hl. destruct (cell_of (x / 8) (y / 8) b) as [cx cy].
  destruct Hl as [Hp El]; [Z.div_mod_to_equations; lia|Z.div_mod_to_equations; lia|done|]. rewrite <- bit_at_cells by done. unfold Grid2D.bit_at. by rewrite El.
Qed.

(** ** The operations on sets of cells *)

Inductive op :=
  | Set_ (x y : Z) | Clear (x y : Z) | Reset | Toggle (x y : Z) | ClearBox (x1 y1 x2 y2 : Z)
  | MergeFrom (other : list Z) | IntersectWith (other : list Z) | DiffFrom (other : list Z).

Definition apply (g : list Z) (o : op) : list Z :=
  match o with
  | Set_ x y => set bmi2 W g x y
  | Clear x y => clear bmi2 W g x y
  | Reset => reset g
  | Toggle x y => (toggle bmi2 W g x y).1
  | ClearBox x1 y1 x2 y2 => clear_box bmi2 W g x1 y1 x2 y2
  | MergeFrom other => merge_from g other
  | IntersectWith other => intersect_with g other
  | DiffFrom other => diff_from g other
  end.

Definition valid (o : op) : Prop :=
  match o with
  | Set_ x y | Clear x y | Toggle x y => inside x y
  | Reset => True
  | ClearBox x1 y1 x2 y2 => inside x1 y1 /\ inside x2 y2
  | MergeFrom other | IntersectWith other | DiffFrom other => wf other
  end.

Definition spec (S : gset (Z * Z)) (o : op) : gset (Z * Z) :=
  match o with
  | Set_ x y => {[(x, y)]} ∪ S
  | Clear x y => S ∖ {[(x, y)]}
  | Reset => ∅
  | Toggle x y => if decide ((x, y) ∈ S) then S ∖ {[(x, y)]} else {[(x, y)]} ∪ S
  | ClearBox x1 y1 x2 y2 => base.filter (fun p => ~ (x1 <= p.1 <= x2 /\ y1 <= p.2 <= y2)) S
  | MergeFrom other => S ∪ cells other
  | IntersectWith other => S ∩ cells other
  | DiffFrom other => S ∖ cells other
  end.

Lemma apply_spec2d g o : wf g -> valid o -> wf (apply g o) /\ cells (apply g o) = spec (cells g) o.
Proof.
  intros Hg Hv. destruct o; cbn [apply spec]; cbn [valid] in Hv.
  - by apply set_spec2d.
  - by apply clear_spec2d.
  - apply zeros_spec2d; [unfold reset; rewrite zlen_map; apply Hg|]. by apply Forall_map, Forall_true.
  - destruct (toggle_spec2d g x y Hg Hv) as (_ & Hw & ->). split; [done|]. destruct (decide _); [by rewrite bool_decide_eq_true_2|by rewrite bool_decide_eq_false_2].
  - by destruct Hv; apply clear_box_spec2d.
  - by apply bitwise_spec2d.
  - by apply bitwise_spec2d.
  - by apply bitwise_spec2d.
Qed.

Lemma run_spec ops : Forall valid ops -> wf (foldl apply (new_grid W H) ops) /\ cells (foldl apply (new_grid W H) ops) = foldl spec ∅ ops.
Proof.
  intros Hops. destruct (zeros_spec2d (new_grid W H)) as [Hw Hc].
  { unfold new_grid. rewrite zlen_replicate. pose proof blocks_cover. unfold kSBCount. nia. }
  { by apply Forall_replicate. }
  rewrite <- Hc. clear Hc. revert Hw. generalize (new_grid W H). induction Hops as [|o ops Ho Hops IH]; intros g Hg; cbn [foldl]; [done|].
  destruct (apply_spec2d g o Hg Ho) as [Hg' <-]. by apply IH.
Qed.
End correctness.

(** C23.  Whatever sequence of its eight operations runs on a new grid, the Morton-packed bits
    are exactly the set of cells the operations build, however the interleaving is compiled.
    Point queries, boxes, counts (modulo 2^32), block snapshots and the visits of
    [for_each_set] (each cell once) answer for that set.  [raycast_2d] reports the first
    occupied cell on the digital line between two cells, all of which is inside the grid and
    which ends at the second; no hit means that the whole line is free.  The grid has fewer
    than 2^31 cells a side, and the two cells are at most a third of 2^31 apart in each
    direction: no arithmetic on [int32_t] overflows then ([raycast_2d_overflow] shows one that
    does). *)
Theorem grid2d_refines_set bmi2 W H ops : 0 < W < 2 ^ 31 -> 0 < H < 2 ^ 31 -> Forall (valid bmi2 W H) ops ->
  let g := foldl (apply bmi2 W) (new_grid W H) ops in
  let S := foldl (spec bmi2 W H) ∅ ops in
  let occupied p := bool_decide (p ∈ S) in
  wf bmi2 W H g /\ cells bmi2 W H g = S /\
  (forall x y, inside W H x y ->
    test bmi2 W g x y = occupied (x, y) /\ (toggle bmi2 W g x y).2 = negb (occupied (x, y)) /\
    forall b, 0 <= b < 64 -> Z.testbit (super_block_snapshot W g x y) b = occupied (cell_of bmi2 (x / 8) (y / 8) b)) /\
  (forall x1 y1 x2 y2, inside W H x1 y1 -> inside W H x2 y2 ->
    any_in_box bmi2 W g x1 y1 x2 y2 = existsb occupied (box x1 y1 x2 y2) /\
    count_in_box bmi2 W g x1 y1 x2 y2 = u32 (count_if occupied (box x1 y1 x2 y2)) /\
    for_each_set_in_box bmi2 W g x1 y1 x2 y2 = List.filter occupied (box x1 y1 x2 y2)) /\
  count_all g = u32 (Z.of_nat (size S)) /\
  NoDup (for_each_set bmi2 W H g) /\ (forall q, q ∈ for_each_set bmi2 W H g <-> q ∈ S) /\
  (forall x0 y0 x1 y1, inside W H x0 y0 -> inside W H x1 y1 ->
    let a := Z.abs (x1 - x0) in let b := Z.abs (y1 - y0) in a <= max_side -> b <= max_side ->
    let P := ray_cell x0 y0 (Z.sgn (x1 - x0)) (Z.sgn (y1 - y0)) a b in
    (forall k, 0 <= k <= Z.max a b -> inside W H (P k).1 (P k).2 /\ (P k = (x1, y1) <-> k = Z.max a b)) /\
    raycast_2d bmi2 W g x0 y0 x1 y1 <> Overflow /\
    forall h, raycast_2d bmi2 W g x0 y0 x1 y1 = Hit h <->
      0 <= hit_steps h <= Z.max a b /\ P (hit_steps h) = (hit_x h, hit_y h) /\ (hit_x h, hit_y h) ∈ S /\ forall k, 0 <= k < hit_steps h -> P k ∉ S).
Proof.
  intros HW HH Hops. cbn zeta. destruct (run_spec bmi2 W H HW HH ops Hops) as [Hg <-]. set (g := foldl _ _ ops) in *. split; [done|]. split; [done|]. split; [|split; [|split; [|split; [|split]]]].
  - intros x y Hi. split; [by apply test_spec|]. split; [by apply toggle_spec2d|]. intros b Hb. by apply snapshot_spec.
  - intros x1 y1 x2 y2. by apply box_queries2d.
  - by apply count_all_spec.
  - by apply for_each_set_spec.
  - by apply for_each_set_spec.
  - intros x0 y0 x1 y1 H0 H1 Ha Hb. split; [intros k Hk; by apply ray_inside|].
    split; [by apply (raycast_spec bmi2 W H HW HH g x0 y0 x1 y1 (mkHit 0 0 0))|]. intros h. by apply raycast_spec.
Qed.

(** ** Witness *)

Definition sample : list op := [Set_ 9 0; Set_ 9 9; Set_ 3 4; Toggle 10 7; Set_ 0 0; ClearBox 0 0 1 1].

Lemma sample_valid2d : Forall (valid true 11 10) sample.
Proof. repeat constructor; lia. Qed.

Lemma grid2d_refines_set_witness :
  let g := foldl (apply true 11) (new_grid 11 10) sample in
  g = [137438953472; 70368744177666; 0; 8] /\ raycast_2d true 11 g 10 9 10 0 = Hit (mkHit 10 7 2) /\
  (10, 7) ∈ foldl (spec true 11 10) ∅ sample /\ for_each_set true 11 10 g = [(3, 4); (9, 0); (10, 7); (9, 9)].
Proof.
  intros g. destruct (grid2d_refines_set true 11 10 sample) as (_ & _ & _ & _ & _ & _ & Hel & _); [lia|lia|apply sample_valid2d|].
  split; [vm_compute; reflexivity|]. split; [vm_compute; reflexivity|]. assert (for_each_set true 11 10 g = [(3, 4); (9, 0); (10, 7); (9, 9)]) as E by (vm_compute; reflexivity).
  split; [|exact E]. apply Hel. fold g. rewrite E. right. right. left.
Defined.

(** The ray along the first row of an empty grid of [2 ^ 31 - 1] columns overflows in the first
    step. *)
Theorem raycast_2d_overflow bmi2 g : at_ g 0 = 0 -> raycast_2d bmi2 (2 ^ 31 - 1) g 0 0 (2 ^ 31 - 2) 0 = Overflow.
Proof.
  intros Hg. unfold raycast_2d. assert (ray_setup 0 0 (2 ^ 31 - 2) 0 = Some (1, -1, 2 ^ 31 - 2, 0, 2 ^ 31 - 2, 2 ^ 31 - 1)) as -> by (vm_compute; reflexivity).
  replace (Z.to_nat (2 ^ 31 - 1)) with (S (Z.to_nat (2 ^ 31 - 2))) by lia. cbn [ray_loop].
  assert (test bmi2 (2 ^ 31 - 1) g (u32 (to_int32 0)) (u32 (to_int32 0)) = false) as ->; [|done].
  unfold test. assert (locate bmi2 (2 ^ 31 - 1) (u32 (to_int32 0)) (u32 (to_int32 0)) = (0, 0)) as -> by (destruct bmi2; vm_compute; reflexivity).
  by rewrite Hg.
Qed.
