(* ===== verification/HashMap.v ===== *)
(** * The open-addressing map: [buf/lock_free_hash_map.hpp]

    [LockFreeHashMap] with its operations run one after the other.  Slots are probed from the
    hash of the key on, around the table; a removed entry leaves a tombstone.  The map is a
    finite map as long as a key that is present is not put again after something was
    removed; [removed_entry_returns] shows what happens otherwise.
    The assertions on the key (not 0) and the capacity (at least 2) are left out: the theorem
    needs neither.  Several threads at once are not modelled. *)

From stdpp Require Import gmap.
From S2P Require Import Prelude.
#[local] Open Scope Z_scope.
#[local] Open Scope word_scope.

Inductive state := kEmpty | kBusy | kCommitted | kTombstone.

#[global] Instance state_eq_dec : EqDecision state.
Proof. solve_decision. Defined.

Definition hash (key : Z) : Z :=
  let h := key .^ (key >> 33) in
  let h := u64 (h * 0xff51afd7ed558ccd) in
  let h := h .^ (h >> 33) in
  let h := u64 (h * 0xc4ceb9fe1a85ec53) in
  h .^ (h >> 33).

(** The slots a loop visits, from the hash of the key on: [(start + i) & mask_]. *)
Definition probe (capacity key : Z) : list nat :=
  map (fun i => Z.to_nat (u64 (hash key + i) .& (capacity - 1))) (seqZ 0 capacity).

(** [std::bit_ceil]. *)
Definition bit_ceil (n : Z) : Z := 2 ^ Z.log2_up n.

(** ** Probing *)

Lemma probe_index n key i : 0 <= n <= 64 -> u64 (hash key + i) .& (2 ^ n - 1) = (hash key + i) mod 2 ^ n.
Proof.
  intros Hn. rewrite land_mask by lia. unfold wrap. replace 64 with (n + (64 - n)) by lia. rewrite Z.pow_add_r by lia.
  rewrite Z.rem_mul_r by (try apply Z.pow_nonzero; try apply Z.pow_pos_nonneg; lia). rewrite (Z.mul_comm (2 ^ n)), Z_mod_plus_full.
  apply Z.mod_mod, Z.pow_nonzero; lia.
Qed.

Lemma probe_all n key p : 0 <= n <= 64 -> p ∈ probe (2 ^ n) key <-> (p < Z.to_nat (2 ^ n))%nat.
Proof.
  intros Hn. assert (0 < 2 ^ n) as Hc by (apply Z.pow_pos_nonneg; lia). unfold probe. rewrite list_elem_of_fmap. split.
  - intros (i & -> & Hi). rewrite probe_index by done. pose proof (Z.mod_pos_bound (hash key + i) (2 ^ n) Hc). lia.
  - intros Hp. exists ((Z.of_nat p - hash key) mod 2 ^ n). split; [|apply elem_of_seqZ; pose proof (Z.mod_pos_bound (Z.of_nat p - hash key) (2 ^ n) Hc); lia].
    rewrite probe_index, Zplus_mod_idemp_r by done. replace (hash key + (Z.of_nat p - hash key)) with (Z.of_nat p) by lia.
    rewrite Z.mod_small by lia. lia.
Qed.

Lemma probe_nodup n key : 0 <= n <= 64 -> NoDup (probe (2 ^ n) key).
Proof.
  intros Hn. assert (0 < 2 ^ n) as Hc by (apply Z.pow_pos_nonneg; lia). unfold probe. apply NoDup_fmap_2_strong; [|apply NoDup_seqZ].
  intros i j Hi Hj. apply elem_of_seqZ in Hi, Hj. rewrite !probe_index by done. intros E.
  pose proof (Z.mod_pos_bound (hash key + i) (2 ^ n) Hc). pose proof (Z.mod_pos_bound (hash key + j) (2 ^ n) Hc). apply Z2Nat.inj in E; [|lia..].
  assert ((i - j) mod 2 ^ n = 0) as Hm.
  { replace (i - j) with ((hash key + i) - (hash key + j)) by lia. rewrite Zminus_mod, E, Z.sub_diag. by apply Z.mod_0_l; lia. }
  apply Z.mod_divide in Hm as [q Hq]; [|lia]. assert (q = 0) as -> by nia. lia.
Qed.

Lemma split_unique {A} (x : A) l1 l2 m1 m2 : NoDup (l1 ++ x :: l2) -> l1 ++ x :: l2 = m1 ++ x :: m2 -> l1 = m1.
Proof.
  revert m1. induction l1 as [|y l1 IH]; intros [|z m1]; cbn; [done| | |].
  - intros [Hn _]%NoDup_cons [= <- ->]. destruct Hn. apply elem_of_app. right. by left.
  - intros [Hn _]%NoDup_cons [= -> _]. destruct Hn. apply elem_of_app. right. by left.
  - intros [_ Hd]%NoDup_cons [= -> E]. f_equal. by apply IH.
Qed.

Section map.
Context {V : Type} (v0 : V).

Record Slot := mkSlot { st : state; key : Z; value : V }.

Record LockFreeHashMap := mkMap { capacity_ : Z; slots_ : list Slot }.

Definition new_map (capacity : Z) : LockFreeHashMap :=
  mkMap (bit_ceil capacity) (replicate (Z.to_nat (bit_ceil capacity)) (mkSlot kEmpty 0 v0)).

Definition slot (slots : list Slot) (p : nat) : Slot := nth p slots (mkSlot kEmpty 0 v0).

(** The loops, over the slots still to be visited. *)
Fixpoint put (slots : list Slot) (ps : list nat) (k : Z) (v : V) : bool * list Slot :=
  match ps with
  | [] => (false, slots)
  | p :: ps =>
      match st (slot slots p) with
      | kEmpty | kTombstone => (true, <[p := mkSlot kCommitted k v]> slots)
      | kCommitted =>
          if key (slot slots p) =? k then (true, <[p := mkSlot kCommitted k v]> slots) else put slots ps k v
      | kBusy => put slots ps k v
      end
  end.

Fixpoint get (slots : list Slot) (ps : list nat) (k : Z) : result V :=
  match ps with
  | [] => Err no_such_file_or_directory
  | p :: ps =>
      match st (slot slots p) with
      | kEmpty => Err no_such_file_or_directory
      | kTombstone | kBusy => get slots ps k
      | kCommitted => if key (slot slots p) =? k then Ok (value (slot slots p)) else get slots ps k
      end
  end.

Fixpoint remove (slots : list Slot) (ps : list nat) (k : Z) : bool * list Slot :=
  match ps with
  | [] => (false, slots)
  | p :: ps =>
      match st (slot slots p) with
      | kEmpty => (false, slots)
      | kTombstone | kBusy => remove slots ps k
      | kCommitted =>
          if key (slot slots p) =? k
          then (true, <[p := mkSlot kTombstone (key (slot slots p)) (value (slot slots p))]> slots)
          else remove slots ps k
      end
  end.

(** ** Operations and their specification *)

Inductive op := Put (k : Z) (v : V) | Get (k : Z) | Remove (k : Z).

Inductive answer := Flag (b : bool) | Found (r : result V).

Definition run (m : LockFreeHashMap) (o : op) : answer * LockFreeHashMap :=
  match o with
  | Put k v => let '(b, s) := put (slots_ m) (probe (capacity_ m) k) k v in (Flag b, mkMap (capacity_ m) s)
  | Get k => (Found (get (slots_ m) (probe (capacity_ m) k) k), m)
  | Remove k => let '(b, s) := remove (slots_ m) (probe (capacity_ m) k) k in (Flag b, mkMap (capacity_ m) s)
  end.

Fixpoint run_all (m : LockFreeHashMap) (os : list op) : list answer * LockFreeHashMap :=
  match os with
  | [] => ([], m)
  | o :: os => let '(r, m) := run m o in let '(rs, m) := run_all m os in (r :: rs, m)
  end.

(** A map of at most [cap] entries. *)
Definition spec (cap : Z) (M : gmap Z V) (o : op) : answer * gmap Z V :=
  match o with
  | Put k v =>
      if decide (is_Some (M !! k) \/ Z.of_nat (size M) < cap) then (Flag true, <[k := v]> M) else (Flag false, M)
  | Get k => (Found match M !! k with Some v => Ok v | None => Err no_such_file_or_directory end, M)
  | Remove k => (Flag (bool_decide (is_Some (M !! k))), delete k M)
  end.

Fixpoint spec_all (cap : Z) (M : gmap Z V) (os : list op) : list answer * gmap Z V :=
  match os with
  | [] => ([], M)
  | o :: os => let '(r, M) := spec cap M o in let '(rs, M) := spec_all cap M os in (r :: rs, M)
  end.

(** No key that is present is put after a removal. *)
Fixpoint disciplined (cap : Z) (removed : bool) (M : gmap Z V) (os : list op) : Prop :=
  match os with
  | [] => True
  | o :: os =>
      match o with Put k _ => removed = true -> M !! k = None | _ => True end /\
      disciplined cap (match o with Remove _ => true | _ => removed end) (snd (spec cap M o)) os
  end.

(** ** The loops *)

Definition committed (slots : list Slot) (k : Z) (p : nat) : Prop := st (slot slots p) = kCommitted /\ key (slot slots p) = k.

Lemma get_hit slots l1 p l2 k : Forall (fun q => st (slot slots q) <> kEmpty /\ ~ committed slots k q) l1 -> committed slots k p ->
  get slots (l1 ++ p :: l2) k = Ok (value (slot slots p)) /\
  remove slots (l1 ++ p :: l2) k = (true, <[p := mkSlot kTombstone k (value (slot slots p))]> slots).
Proof.
  intros Hl [Hs Hk]. induction Hl as [|q l1 [Hq Hn] Hl IH]; cbn.
  - by rewrite Hs, Hk, Z.eqb_refl.
  - unfold committed in Hn. destruct (st (slot slots q)); try done. destruct (Z.eqb_spec (key (slot slots q)) k); [naive_solver|done].
Qed.

Lemma get_miss slots ps k : Forall (fun q => ~ committed slots k q) ps ->
  get slots ps k = Err no_such_file_or_directory /\ remove slots ps k = (false, slots).
Proof.
  intros Hl. induction Hl as [|q ps Hn Hl IH]; cbn; [done|].
  unfold committed in Hn. destruct (st (slot slots q)); try done. destruct (Z.eqb_spec (key (slot slots q)) k); [naive_solver|done].
Qed.

Lemma put_hit slots l1 p l2 k v : Forall (fun q => st (slot slots q) = kCommitted /\ key (slot slots q) <> k) l1 ->
  st (slot slots p) <> kBusy -> (st (slot slots p) = kCommitted -> key (slot slots p) = k) ->
  put slots (l1 ++ p :: l2) k v = (true, <[p := mkSlot kCommitted k v]> slots).
Proof.
  intros Hl Hb Hk. induction Hl as [|q l1 [Hq Hn] Hl IH]; cbn.
  - destruct (st (slot slots p)); try done. by rewrite Hk, Z.eqb_refl.
  - rewrite Hq. by destruct (Z.eqb_spec (key (slot slots q)) k).
Qed.

Lemma put_full slots ps k v : Forall (fun q => st (slot slots q) = kCommitted /\ key (slot slots q) <> k) ps ->
  put slots ps k v = (false, slots).
Proof. intros Hl. induction Hl as [|q ps [Hq Hn] Hl IH]; cbn; [done|]. rewrite Hq. by destruct (Z.eqb_spec (key (slot slots q)) k). Qed.

Lemma slot_insert slots p s : (p < length slots)%nat -> slot (<[p := s]> slots) p = s.
Proof. intros Hp. unfold slot. apply nth_lookup_Some. by apply list_lookup_insert_eq. Qed.

Lemma slot_insert_ne slots p q s : p <> q -> slot (<[p := s]> slots) q = slot slots q.
Proof. intros Hpq. unfold slot. by rewrite !nth_lookup, list_lookup_insert_ne. Qed.

(** ** The invariant *)

Record inv (n : Z) (slots : list Slot) : Prop := {
  inv_length : length slots = Z.to_nat (2 ^ n);
  inv_busy : forall p, st (slot slots p) <> kBusy;
  inv_unique : forall p q k, committed slots k p -> committed slots k q -> p = q;
  inv_reach : forall k p l1 l2, committed slots k p -> probe (2 ^ n) k = l1 ++ p :: l2 -> Forall (fun q => st (slot slots q) <> kEmpty) l1;
}.

Lemma slot_lookup slots p s : slots !! p = Some s -> slot slots p = s.
Proof. apply nth_lookup_Some. Qed.

Lemma committed_lookup slots k p : committed slots k p -> slots !! p = Some (slot slots p).
Proof.
  intros [Hs _]. unfold slot in *. rewrite nth_lookup in *. by destruct (slots !! p).
Qed.

Lemma present_split n slots k p : 0 <= n <= 64 -> inv n slots -> committed slots k p ->
  exists l1 l2, probe (2 ^ n) k = l1 ++ p :: l2 /\ Forall (fun q => st (slot slots q) <> kEmpty /\ ~ committed slots k q) l1.
Proof.
  intros Hn Hi Hp. pose proof (lookup_lt_Some _ _ _ (committed_lookup _ _ _ Hp)) as Hlt. rewrite (inv_length _ _ Hi) in Hlt.
  apply (probe_all n k p Hn) in Hlt. apply list_elem_of_split in Hlt as (l1 & l2 & E). exists l1, l2. split; [done|].
  pose proof (inv_reach _ _ Hi k p l1 l2 Hp E) as Hr. pose proof (probe_nodup n k Hn) as Hd. rewrite E in Hd.
  apply NoDup_app in Hd as (_ & Hd & _). rewrite Forall_forall in Hr |- *. intros q Hq. split; [by apply Hr|].
  intros Hc. rewrite (inv_unique _ _ Hi q p k Hc Hp) in Hq. apply (Hd p Hq). by left.
Qed.

(** The entries. *)
Definition entries (slots : list Slot) : list Slot := filter (fun s => st s = kCommitted) slots.

Definition contents (slots : list Slot) : gmap Z V := list_to_map (map (fun s => (key s, value s)) (entries slots)).

Lemma entries_nodup slots : (forall p q k, committed slots k p -> committed slots k q -> p = q) -> NoDup (map key (entries slots)).
Proof.
  unfold entries. induction slots as [|s slots IH]; intros Hu; [constructor|]. rewrite filter_cons.
  assert (NoDup (map key (filter (fun s => st s = kCommitted) slots))) as Hd.
  { apply IH. intros p q k Hp Hq. by injection (Hu (S p) (S q) k Hp Hq). }
  destruct (decide (st s = kCommitted)) as [Hs|]; [|done]. cbn. constructor; [|done]. intros Hin.
  apply list_elem_of_fmap in Hin as (s' & Hk & [Hs' Hin]%list_elem_of_filter). apply list_elem_of_lookup in Hin as [q Hq].
  discriminate (Hu 0%nat (S q) (key s)); [done|]. unfold committed, slot. cbn. fold (slot slots q). by rewrite (slot_lookup _ _ _ Hq).
Qed.

Lemma contents_spec n slots k v : inv n slots -> contents slots !! k = Some v <-> exists p, committed slots k p /\ value (slot slots p) = v.
Proof.
  intros Hi. unfold contents. rewrite <- elem_of_list_to_map.
  2: { assert ((map (fun s => (key s, value s)) (entries slots)).*1 = map key (entries slots)) as -> by (rewrite <- list_fmap_compose; done).
       apply entries_nodup, Hi. }
  rewrite list_elem_of_fmap. split.
  - intros (s & [= -> ->] & [Hs Hin]%list_elem_of_filter). apply list_elem_of_lookup in Hin as [p Hp]. exists p.
    unfold committed. by rewrite (slot_lookup _ _ _ Hp).
  - intros (p & Hp & <-). exists (slot slots p). split; [f_equal; symmetry; apply Hp|]. apply list_elem_of_filter. split; [apply Hp|].
    apply list_elem_of_lookup. exists p. by eapply committed_lookup.
Qed.

Lemma contents_none n slots k : inv n slots -> contents slots !! k = None <-> forall p, ~ committed slots k p.
Proof.
  intros Hi. split.
  - intros Hn p Hp. assert (contents slots !! k = Some (value (slot slots p))) as E by (apply (contents_spec n); [done|]; by exists p).
    congruence.
  - intros Hn. destruct (contents slots !! k) eqn:E; [|done]. apply (contents_spec n) in E as (p & Hp & _); [|done]. by destruct (Hn p).
Qed.

Lemma contents_size n slots : inv n slots -> size (contents slots) = length (entries slots).
Proof.
  intros Hi. unfold contents. rewrite map_size_list_to_map, length_map; [done|].
  assert ((map (fun s => (key s, value s)) (entries slots)).*1 = map key (entries slots)) as -> by (rewrite <- list_fmap_compose; done).
  apply entries_nodup, Hi.
Qed.

(** ** One slot written *)

Definition other (slots : list Slot) (k : Z) (q : nat) : Prop := st (slot slots q) = kCommitted /\ key (slot slots q) <> k.

#[local] Instance other_dec slots k q : Decision (other slots k q).
Proof. unfold other. apply _. Defined.

Lemma committed_insert slots p s k q : (p < length slots)%nat ->
  committed (<[p := s]> slots) k q <-> (q = p /\ st s = kCommitted /\ key s = k) \/ (q <> p /\ committed slots k q).
Proof.
  intros Hp. unfold committed. destruct (decide (q = p)) as [->|Hq]; [rewrite slot_insert by done|rewrite slot_insert_ne by done]; naive_solver.
Qed.

Lemma inv_insert n slots p s : inv n slots -> (p < length slots)%nat -> st s <> kEmpty -> st s <> kBusy ->
  (st s = kCommitted -> (forall q, committed slots (key s) q -> q = p) /\
    forall l1 l2, probe (2 ^ n) (key s) = l1 ++ p :: l2 -> Forall (fun q => st (slot slots q) <> kEmpty) l1) ->
  inv n (<[p := s]> slots).
Proof.
  intros Hi Hp He Hb Hc. split.
  - rewrite length_insert. apply Hi.
  - intros q. destruct (decide (q = p)) as [->|]; [by rewrite slot_insert|]. rewrite slot_insert_ne by done. apply Hi.
  - intros a b k. rewrite !committed_insert by done. intros [(-> & Hs & <-)|[Ha Ha']] [(-> & Hs' & Hk)|[Hb' Hb'']]; [done|..].
    + symmetry. by apply Hc.
    + subst k. by apply Hc.
    + by eapply Hi.
  - intros k q l1 l2 Hq E. assert (Forall (fun q => st (slot slots q) <> kEmpty) l1) as Hl.
    { apply committed_insert in Hq as [(-> & Hs & <-)|[_ Hq]]; [|by eapply Hi|done]. by destruct (Hc Hs) as [_ Hr]; eapply Hr. }
    eapply Forall_impl; [exact Hl|]. intros r Hr. destruct (decide (r = p)) as [->|]; [by rewrite slot_insert|by rewrite slot_insert_ne].
Qed.

Lemma contents_commit n slots p k v : inv n slots -> inv n (<[p := mkSlot kCommitted k v]> slots) -> (p < length slots)%nat ->
  ~ other slots k p -> contents (<[p := mkSlot kCommitted k v]> slots) = <[k := v]> (contents slots).
Proof.
  intros Hi Hi' Hp Ho. apply map_eq. intros j. apply option_eq. intros w. rewrite (contents_spec n) by done.
  destruct (decide (j = k)) as [->|Hj].
  - rewrite lookup_insert_eq. assert (committed (<[p := mkSlot kCommitted k v]> slots) k p) as Hc by (apply committed_insert; [done|by left]).
    split.
    + intros (q & Hq & <-). rewrite (inv_unique _ _ Hi' q p k Hq Hc), slot_insert by done. done.
    + intros [= <-]. exists p. by rewrite slot_insert.
  - rewrite lookup_insert_ne by done. rewrite (contents_spec n) by done. apply exist_proper. intros q. rewrite committed_insert by done. split.
    + intros [[(-> & _ & E)|[Hq Hc]] Hv]; [by destruct Hj|]. by rewrite slot_insert_ne in Hv.
    + intros [Hc Hv]. assert (q <> p) as Hq by (intros ->; apply Ho; destruct Hc as [? ?]; split; congruence).
      rewrite slot_insert_ne by done. split; [by right|done].
Qed.

Lemma contents_tombstone n slots p k w : inv n slots -> inv n (<[p := mkSlot kTombstone k w]> slots) -> committed slots k p ->
  contents (<[p := mkSlot kTombstone k w]> slots) = delete k (contents slots).
Proof.
  intros Hi Hi' Hp. pose proof (lookup_lt_Some _ _ _ (committed_lookup _ _ _ Hp)) as Hlt.
  apply map_eq. intros j. apply option_eq. intros u. rewrite (contents_spec n) by done. destruct (decide (j = k)) as [->|Hj].
  - rewrite lookup_delete_eq. split; [|done]. intros (q & [(_ & [=] & _)|[Hq Hc]]%committed_insert & _); [|done].
    by destruct Hq; eapply Hi.
  - rewrite lookup_delete_ne by done. rewrite (contents_spec n) by done. apply exist_proper. intros q. rewrite committed_insert by done. split.
    + intros [[(_ & [=] & _)|[Hq Hc]] Hv]. by rewrite slot_insert_ne in Hv.
    + intros [Hc Hv]. assert (q <> p) as Hq by (intros ->; destruct Hc, Hp; congruence).
      rewrite slot_insert_ne by done. split; [by right|done].
Qed.

(** ** The operations against the map *)

Lemma first_free slots ps k : Forall (other slots k) ps \/ exists l1 p l2, ps = l1 ++ p :: l2 /\ Forall (other slots k) l1 /\ ~ other slots k p.
Proof.
  induction ps as [|q ps IH]; [by left|]. destruct (decide (other slots k q)) as [Hq|Hq].
  - destruct IH as [IH|(l1 & p & l2 & -> & Hl & Hp)]; [left; by constructor|]. right. exists (q :: l1), p, l2. split; [done|]. split; [by constructor|done].
  - right. by exists [], q, ps.
Qed.

Lemma entries_all slots : Forall (fun s => st s = kCommitted) slots -> entries slots = slots.
Proof. unfold entries. induction 1 as [|s slots Hs _ IH]; [done|]. by rewrite filter_cons_True, IH. Qed.

Lemma full_size n slots k : 0 <= n <= 64 -> inv n slots -> Forall (other slots k) (probe (2 ^ n) k) -> Z.of_nat (size (contents slots)) = 2 ^ n.
Proof.
  intros Hn Hi Hf. rewrite (contents_size n) by done. rewrite entries_all.
  - rewrite (inv_length _ _ Hi). assert (0 < 2 ^ n) by (apply Z.pow_pos_nonneg; lia). lia.
  - apply Forall_lookup. intros p s Hp. rewrite <- (slot_lookup _ _ _ Hp). rewrite Forall_forall in Hf. apply Hf, probe_all; [done|].
    rewrite <- (inv_length _ _ Hi). by eapply lookup_lt_Some.
Qed.

Lemma free_size n slots p : inv n slots -> (p < length slots)%nat -> st (slot slots p) <> kCommitted -> Z.of_nat (size (contents slots)) < 2 ^ n.
Proof.
  intros Hi Hp Hs. rewrite (contents_size n) by done. unfold entries. destruct (lookup_lt_is_Some_2 slots p Hp) as [s E].
  assert (length (filter (fun s => st s = kCommitted) slots) < length slots)%nat as Hlt.
  { eapply length_filter_lt; [by eapply list_elem_of_lookup_2|]. by rewrite <- (slot_lookup _ _ _ E). }
  rewrite (inv_length _ _ Hi) in Hlt. lia.
Qed.

Definition clean (slots : list Slot) : Prop := forall p, st (slot slots p) <> kTombstone.

Lemma clean_insert slots p s : (p < length slots)%nat -> st s <> kTombstone -> clean slots -> clean (<[p := s]> slots).
Proof.
  intros Hp Hs Hc q. destruct (decide (q = p)) as [->|]; [by rewrite slot_insert|]. rewrite slot_insert_ne by done. apply Hc.
Qed.

Definition implements (n : Z) (slots : list Slot) (o : op) (r : answer) (slots' : list Slot) : Prop :=
  inv n slots' /\ spec (2 ^ n) (contents slots) o = (r, contents slots').

Lemma put_at n slots k v l1 p l2 : 0 <= n <= 64 -> inv n slots -> probe (2 ^ n) k = l1 ++ p :: l2 -> Forall (other slots k) l1 ->
  ~ other slots k p -> (forall q, committed slots k q -> q = p) ->
  exists slots', put slots (probe (2 ^ n) k) k v = (true, slots') /\ implements n slots (Put k v) (Flag true) slots' /\ (clean slots -> clean slots').
Proof.
  intros Hn Hi E Hl Hp Hu. exists (<[p := mkSlot kCommitted k v]> slots).
  assert (p < length slots)%nat as Hlt by (rewrite (inv_length _ _ Hi); apply (probe_all n k p Hn); rewrite E; apply elem_of_app; right; by left).
  assert (inv n (<[p := mkSlot kCommitted k v]> slots)) as Hi'.
  { apply inv_insert; try done. intros _. split; [exact Hu|]. cbn. intros m1 m2 E'. pose proof (probe_nodup n k Hn) as Hd. rewrite E in Hd, E'.
    rewrite <- (split_unique _ _ _ _ _ Hd E'). eapply Forall_impl; [exact Hl|]. intros q [Hq _]. by rewrite Hq. }
  assert (is_Some (contents slots !! k) \/ Z.of_nat (size (contents slots)) < 2 ^ n) as Hroom.
  { destruct (decide (st (slot slots p) = kCommitted)) as [Hs|Hs]; [left|right; by eapply free_size].
    exists (value (slot slots p)). apply (contents_spec n); [done|]. exists p. split; [|done]. split; [done|].
    destruct (decide (key (slot slots p) = k)); [done|]. by destruct Hp. }
  split; [|split; [split; [done|]|by apply clean_insert]].
  - rewrite E. apply put_hit; [done|apply Hi|]. intros Hs. destruct (decide (key (slot slots p) = k)); [done|]. by destruct Hp.
  - cbn [spec]. rewrite decide_True by done. by rewrite (contents_commit n).
Qed.

Lemma put_spec n slots k v : 0 <= n <= 64 -> inv n slots -> (~ clean slots -> contents slots !! k = None) ->
  exists b slots', put slots (probe (2 ^ n) k) k v = (b, slots') /\ implements n slots (Put k v) (Flag b) slots' /\ (clean slots -> clean slots').
Proof.
  intros Hn Hi Hdis. destruct (contents slots !! k) as [w|] eqn:Hk.
  - apply (contents_spec n) in Hk as (p & Hp & _); [|done]. destruct (present_split n slots k p Hn Hi Hp) as (l1 & l2 & E & Hl).
    exists true. apply (put_at n slots k v l1 p l2); try done.
    + eapply Forall_impl; [exact Hl|]. intros q [Hq Hc]. pose proof (inv_busy _ _ Hi q).
      destruct (st (slot slots q)) eqn:Hs; [done|done| |].
      * split; [done|]. intros Hkq. by destruct Hc.
      * exfalso. assert (~ clean slots) as Hcl by (intros Hcl; by apply (Hcl q)). by specialize (Hdis Hcl).
    + intros [_ Hne]. by destruct Hp.
    + intros q Hq. by eapply Hi.
  - pose proof (proj1 (contents_none n slots k Hi) Hk) as Hnone. destruct (first_free slots (probe (2 ^ n) k) k) as [Hf|(l1 & p & l2 & E & Hl & Hp)].
    + exists false, slots. split; [by apply put_full|]. split; [|done]. split; [done|]. cbn [spec]. rewrite decide_False; [done|].
      rewrite Hk, (full_size n slots k) by done. intros [[? [=]]|]; lia.
    + exists true. apply (put_at n slots k v l1 p l2); try done. intros q Hq. by destruct (Hnone q).
Qed.

Lemma present_or_absent n slots k : 0 <= n <= 64 -> inv n slots ->
  (contents slots !! k = None /\ Forall (fun q => ~ committed slots k q) (probe (2 ^ n) k)) \/
  exists p l1 l2, contents slots !! k = Some (value (slot slots p)) /\ committed slots k p /\ probe (2 ^ n) k = l1 ++ p :: l2 /\
    Forall (fun q => st (slot slots q) <> kEmpty /\ ~ committed slots k q) l1.
Proof.
  intros Hn Hi. destruct (contents slots !! k) as [w|] eqn:Hk.
  - right. apply (contents_spec n) in Hk as (p & Hp & <-); [|done]. destruct (present_split n slots k p Hn Hi Hp) as (l1 & l2 & E & Hl).
    by exists p, l1, l2.
  - left. split; [done|]. apply Forall_forall. intros q _. by apply (contents_none n).
Qed.

Lemma get_spec n slots k : 0 <= n <= 64 -> inv n slots -> implements n slots (Get k) (Found (get slots (probe (2 ^ n) k) k)) slots.
Proof.
  intros Hn Hi. split; [done|]. cbn [spec]. destruct (present_or_absent n slots k Hn Hi) as [[-> Hm]|(p & l1 & l2 & -> & Hp & -> & Hl)].
  - by destruct (get_miss slots _ k Hm) as [-> _].
  - by destruct (get_hit slots l1 p l2 k Hl Hp) as [-> _].
Qed.

Lemma remove_spec n slots k : 0 <= n <= 64 -> inv n slots ->
  exists b slots', remove slots (probe (2 ^ n) k) k = (b, slots') /\ implements n slots (Remove k) (Flag b) slots'.
Proof.
  intros Hn Hi. unfold implements. cbn [spec]. destruct (present_or_absent n slots k Hn Hi) as [[Hk Hm]|(p & l1 & l2 & Hk & Hp & -> & Hl)].
  - destruct (get_miss slots _ k Hm) as [_ ->]. exists false, slots. by rewrite Hk, delete_id.
  - destruct (get_hit slots l1 p l2 k Hl Hp) as [_ ->]. exists true, (<[p := mkSlot kTombstone k (value (slot slots p))]> slots).
    assert (inv n (<[p := mkSlot kTombstone k (value (slot slots p))]> slots)) as Hi'.
    { apply inv_insert; try done. by eapply lookup_lt_Some, committed_lookup. }
    split; [done|]. split; [done|]. by rewrite Hk, (contents_tombstone n).
Qed.

Lemma run_all_spec n os : 0 <= n <= 64 -> forall removed m, capacity_ m = 2 ^ n -> inv n (slots_ m) -> (removed = false -> clean (slots_ m)) ->
  disciplined (2 ^ n) removed (contents (slots_ m)) os ->
  exists rs m', run_all m os = (rs, m') /\ spec_all (2 ^ n) (contents (slots_ m)) os = (rs, contents (slots_ m')).
Proof.
  intros Hn. induction os as [|o os IH]; intros removed [c slots] Hc Hi Hcl; cbn [capacity_ slots_] in *; subst c; [by exists [], (mkMap (2 ^ n) slots)|].
  cbn [disciplined]. intros [Ho Hd].
  assert (exists r slots', run (mkMap (2 ^ n) slots) o = (r, mkMap (2 ^ n) slots') /\ implements n slots o r slots' /\
    (match o with Remove _ => true | _ => removed end = false -> clean slots')) as (r & slots' & E & [Hi' Hs] & Hcl').
  { unfold run. cbn [capacity_ slots_]. destruct o as [k v|k|k].
    - destruct (put_spec n slots k v Hn Hi) as (b & slots' & -> & Himp & Hc).
      { intros Hnc. apply Ho. destruct removed; [done|]. destruct (Hnc (Hcl eq_refl)). }
      exists (Flag b), slots'. auto.
    - exists (Found (get slots (probe (2 ^ n) k) k)), slots. split; [done|]. split; [by apply get_spec|done].
    - destruct (remove_spec n slots k Hn Hi) as (b & slots' & -> & Himp). by exists (Flag b), slots'. }
  cbn [run_all spec_all]. rewrite E. rewrite Hs in Hd |- *. cbn [snd] in Hd.
  destruct (IH _ (mkMap (2 ^ n) slots') eq_refl Hi' Hcl' Hd) as (rs & m' & -> & Hrs). exists (r :: rs), m'. split; [done|].
  cbn [slots_] in Hrs. by rewrite Hrs.
Qed.

Lemma slot_new c p : slot (slots_ (new_map c)) p = mkSlot kEmpty 0 v0.
Proof. unfold slot, new_map. cbn [slots_]. rewrite nth_lookup. by destruct (replicate _ _ !! p) as [s|] eqn:E; [apply lookup_replicate in E as [-> _]|]. Qed.

Lemma inv_new c n : bit_ceil c = 2 ^ n -> inv n (slots_ (new_map c)).
Proof.
  intros E. split.
  - unfold new_map. cbn [slots_]. by rewrite length_replicate, E.
  - intros p. by rewrite slot_new.
  - intros p q k [Hp _]. by rewrite slot_new in Hp.
  - intros k p l1 l2 [Hp _]. by rewrite slot_new in Hp.
Qed.

Lemma contents_new c : contents (slots_ (new_map c)) = ∅.
Proof.
  unfold contents, entries, new_map. cbn [slots_]. by induction (Z.to_nat (bit_ceil c)) as [|n IH].
Qed.

(** C17. The map is a finite map of at most [bit_ceil capacity] entries: whatever sequence of
    [put], [get] and [remove] is run one after the other on a new map, every answer (the
    value of a key or the error, the flag of a put into a full map, the flag of a removal)
    and the entries left are those of the finite map, as long as no key that is present is
    put again after something was removed. *)
Theorem hash_map_refines capacity os : 1 <= capacity <= 2 ^ 63 -> disciplined (bit_ceil capacity) false ∅ os ->
  let '(rs, m) := run_all (new_map capacity) os in
  spec_all (bit_ceil capacity) ∅ os = (rs, contents (slots_ m)).
Proof.
  intros Hc Hd. assert (0 <= Z.log2_up capacity <= 64) as Hn.
  { split; [apply Z.log2_up_nonneg|]. transitivity (Z.log2_up (2 ^ 63)); [apply Z.log2_up_le_mono, Hc|]. rewrite Z.log2_up_pow2; lia. }
  destruct (run_all_spec (Z.log2_up capacity) os Hn false (new_map capacity)) as (rs & m' & -> & Hs); [done|by apply inv_new| | |].
  - intros _ p. by rewrite slot_new.
  - by rewrite contents_new.
  - by rewrite contents_new in Hs.
Qed.
End map.

Lemma hash_map_refines_witness :
  let os := [Put 1 10; Put 2 20; Put 1 11; Put 3 30; Get 1; Remove 2; Get 2; Put 3 31; Remove 2; Get 3] in
  (let '(rs, m) := run_all 0 (new_map 0 2) os in spec_all (bit_ceil 2) ∅ os = (rs, contents (slots_ m))) /\
  fst (run_all 0 (new_map 0 2) os) =
    [Flag true; Flag true; Flag true; Flag false; Found (Ok 11); Flag true; Found (Err no_such_file_or_directory); Flag true; Flag false; Found (Ok 31)].
Proof.
  split; [|vm_compute; reflexivity]. apply (hash_map_refines 0 2); [lia|].
  repeat split; try (intros [=]); vm_compute; reflexivity.
Defined.

(** [put] takes the first tombstone it meets, before it has looked for the key further on:
    an entry put again after a removal is there twice, and removing it brings back the
    value it had before. *)
Theorem removed_entry_returns :
  fst (run_all 0 (new_map 0 2) [Put 1 10; Put 3 30; Remove 1; Put 3 31; Get 3; Remove 3; Get 3]) =
  [Flag true; Flag true; Flag true; Flag true; Found (Ok 31); Flag true; Found (Ok 30)].
Proof. vm_compute. reflexivity. Qed.
