(* ===== verification/GenerationPool.v ===== *)
(** * The object pool: [buf/generation_pool.hpp]

    [GenerationPool] as steps of several threads: a step is one access to shared memory
    ([head_], the generation of a slot, its [next_free]), and the threads are interleaved in
    any order.  The accesses are taken one after another (the plain member [next_free], which
    [acquire] may read while [release] writes it, like the atomics).  Handles and the head of the free list are the packed 64-bit words of the
    code.  The objects themselves are raw storage and are not modelled: a pointer to the
    storage of a slot is the slot's index. *)

From stdpp Require Import gmap.
From S2P Require Import Prelude.
#[local] Open Scope Z_scope.

(** ** Words *)

Abbreviation kNull := UINT64_MAX.
Abbreviation kNilIdx := UINT32_MAX.

(** Index and generation, or index and tag, in one word. *)
Definition pack (idx hi : Z) : Z := (hi << 32) .| idx.
Definition low (w : Z) : Z := u32 w.
Definition high (w : Z) : Z := u32 (w >> 32).

Record Slot := mkSlot { generation : Z; next_free : Z }.

Record GenerationPool := mkPool { slots_ : list Slot; head_ : Z }.

Definition slot (p : GenerationPool) (i : Z) : Slot := nth (Z.to_nat i) (slots_ p) (mkSlot 0 kNilIdx).

Definition new_pool (capacity : Z) : GenerationPool :=
  mkPool (map (fun i => mkSlot 1 (if i + 1 <? capacity then i + 1 else kNilIdx)) (seqZ 0 capacity)) (pack 0 0).

Definition set_slot (i : Z) (s : Slot) (p : GenerationPool) : GenerationPool := mkPool (<[Z.to_nat i := s]> (slots_ p)) (head_ p).

Definition set_head (h : Z) (p : GenerationPool) : GenerationPool := mkPool (slots_ p) h.

(** ** The operations, step by step *)

(** Where a thread is: the value of [old_head] it has read, and so on. *)
Inductive pc :=
  | Idle
  | AcquireLoaded (old_head : Z)
  | AcquireNext (old_head next : Z)
  | AcquirePopped (idx : Z)
  | AcquireGen (idx gen : Z)
  | ReleaseChecked (handle : Z)
  | ReleaseMarked (idx : Z)
  | ReleaseLoaded (idx old_head : Z)
  | ReleaseLinked (idx old_head : Z).

Inductive progress := At (p : pc) | Acquired (handle : option Z) | Released.

Definition acquire_start (p : GenerationPool) : progress := At (AcquireLoaded (head_ p)).

(** [weak] makes the weak compare-and-swap fail without a reason. *)
Definition acquire_step (weak : bool) (p : GenerationPool) (at_ : pc) : GenerationPool * progress :=
  match at_ with
  | AcquireLoaded old =>
      let idx := low old in
      if idx =? kNilIdx then (p, Acquired None) else (p, At (AcquireNext old (next_free (slot p idx))))
  | AcquireNext old next =>
      let tag := u32 (high old + 1) in
      if (head_ p =? old) && negb weak then (set_head (pack next tag) p, At (AcquirePopped (low old)))
      else (p, At (AcquireLoaded (head_ p)))
  | AcquirePopped idx =>
      let gen := u32 (generation (slot p idx) + 1) .& u32 (Z.lnot 1) in (p, At (AcquireGen idx gen))
  | AcquireGen idx gen => (set_slot idx (mkSlot gen (next_free (slot p idx))) p, Acquired (Some (pack idx gen)))
  | _ => (p, At at_)
  end.

Definition release_start (p : GenerationPool) (handle : Z) : progress :=
  if handle =? kNull then Released else
  if negb (generation (slot p (low handle)) =? high handle) then Released else At (ReleaseChecked handle).

Definition release_step (weak : bool) (p : GenerationPool) (at_ : pc) : GenerationPool * progress :=
  match at_ with
  | ReleaseChecked handle =>
      let idx := low handle in
      let s := slot p idx in
      (set_slot idx (mkSlot (u32 (generation s + 1)) (next_free s)) p, At (ReleaseMarked idx))
  | ReleaseMarked idx => (p, At (ReleaseLoaded idx (head_ p)))
  | ReleaseLoaded idx old => (set_slot idx (mkSlot (generation (slot p idx)) (low old)) p, At (ReleaseLinked idx old))
  | ReleaseLinked idx old =>
      let tag := u32 (high old + 1) in
      if (head_ p =? old) && negb weak then (set_head (pack idx tag) p, Released)
      else (p, At (ReleaseLoaded idx (head_ p)))
  | _ => (p, At at_)
  end.

(** The slot of a live handle; [None] is [nullptr]. *)
Definition resolve (p : GenerationPool) (handle : Z) : option Z :=
  if handle =? kNull then None else
  let idx := low handle in
  if zlen (slots_ p) <=? idx then None else
  let cur_gen := generation (slot p idx) in
  if (cur_gen =? high handle) && (cur_gen .& 1 =? 0) then Some idx else None.

(** The handles [for_each_live] visits. *)
Definition for_each_live (p : GenerationPool) : list Z :=
  concat (map (fun i => let gen := generation (slot p i) in if gen .& 1 =? 0 then [pack i gen] else []) (seqZ 0 (zlen (slots_ p)))).

(** ** Threads and their application *)

(** The threads, the handles the application holds and may release, all the handles it was
    ever given, and the number of steps made. *)
Record system := mkSystem { pool : GenerationPool; threads : list pc; held : list Z; issued : list Z; steps : Z }.

Definition thread_step (weak : bool) (p : GenerationPool) (at_ : pc) : GenerationPool * progress :=
  match at_ with
  | ReleaseChecked _ | ReleaseMarked _ | ReleaseLoaded _ _ | ReleaseLinked _ _ => release_step weak p at_
  | _ => acquire_step weak p at_
  end.

Definition settle (s : system) (i : nat) (p : GenerationPool) (pr : progress) : system :=
  mkSystem p (<[i := match pr with At at_ => at_ | _ => Idle end]> (threads s))
    (match pr with Acquired (Some h) => h :: held s | _ => held s end)
    (match pr with Acquired (Some h) => h :: issued s | _ => issued s end) (steps s + 1).

(** An idle thread may acquire, release a handle the application holds, or release again a
    handle that is not being released just now; a thread in an operation goes on. *)
Inductive step (s : system) : system -> Prop :=
  | step_acquire i : threads s !! i = Some Idle -> step s (settle s i (pool s) (acquire_start (pool s)))
  | step_release i h l1 l2 : threads s !! i = Some Idle -> held s = l1 ++ h :: l2 ->
      step s (settle (mkSystem (pool s) (threads s) (l1 ++ l2) (issued s) (steps s)) i (pool s) (release_start (pool s) h))
  | step_stale i h : threads s !! i = Some Idle -> h ∈ issued s -> h ∉ held s -> ReleaseChecked h ∉ threads s ->
      step s (settle s i (pool s) (release_start (pool s) h))
  | step_run i weak at_ : threads s !! i = Some at_ -> at_ <> Idle ->
      step s (settle s i (fst (thread_step weak (pool s) at_)) (snd (thread_step weak (pool s) at_))).

Definition start (capacity : Z) (n : nat) : system := mkSystem (new_pool capacity) (replicate n Idle) [] [] 0.

(** ** Packed words *)

Lemma pack_val idx hi : in_range 32 idx -> pack idx hi = hi * 2 ^ 32 + idx.
Proof. intros Hi. unfold pack. by rewrite lor_shiftl_add by (done || lia). Qed.

Lemma low_pack idx hi : in_range 32 idx -> low (pack idx hi) = idx.
Proof. intros Hi. unfold low. rewrite pack_val by done. unfold wrap. rewrite Z.add_comm, Z_mod_plus_full. by apply Z.mod_small. Qed.

Lemma high_pack idx hi : in_range 32 idx -> in_range 32 hi -> high (pack idx hi) = hi.
Proof.
  intros Hi Hh. unfold high. rewrite pack_val, Z.shiftr_div_pow2 by (done || lia). rewrite Z.div_add_l, Z.div_small by (done || lia).
  rewrite Z.add_0_r. by apply wrap_small.
Qed.

(** ** The invariant *)

(** The slots linked from index [i] on. *)
Fixpoint chain (p : GenerationPool) (i : Z) (fl : list Z) : Prop :=
  match fl with
  | [] => i = kNilIdx
  | j :: fl => i = j /\ chain p (next_free (slot p j)) fl
  end.

(** The slot a thread has taken out of the list or not yet put back. *)
Definition owned (at_ : pc) : list Z :=
  match at_ with
  | AcquirePopped i | AcquireGen i _ | ReleaseMarked i | ReleaseLoaded i _ | ReleaseLinked i _ => [i]
  | ReleaseChecked h => [low h]
  | _ => []
  end.

Definition gen_of (p : GenerationPool) (i : Z) : Z := generation (slot p i).

Definition handle_ok (cap h : Z) : Prop := exists i g, h = pack i g /\ 0 <= i < cap /\ in_range 32 g /\ Z.even g = true.

Definition old_ok (p : GenerationPool) (old : Z) : Prop := high old <= high (head_ p) /\ (high old = high (head_ p) -> old = head_ p).

Definition pc_ok (p : GenerationPool) (at_ : pc) : Prop :=
  match at_ with
  | Idle => True
  | AcquireLoaded old => old_ok p old
  | AcquireNext old next => old_ok p old /\ low old <> kNilIdx /\ (old = head_ p -> next = next_free (slot p (low old)))
  | AcquirePopped i | ReleaseMarked i => Z.odd (gen_of p i) = true
  | AcquireGen i g => Z.odd (gen_of p i) = true /\ g = gen_of p i + 1
  | ReleaseChecked h => gen_of p (low h) = high h /\ Z.even (high h) = true
  | ReleaseLoaded i old => Z.odd (gen_of p i) = true /\ old_ok p old
  | ReleaseLinked i old => Z.odd (gen_of p i) = true /\ old_ok p old /\ next_free (slot p i) = low old
  end.

Record inv (cap n : Z) (p : GenerationPool) (fl hs : list Z) (ts : list pc) (gone : list Z) : Prop := {
  inv_len : zlen (slots_ p) = cap;
  inv_head : (low (head_ p) = kNilIdx \/ 0 <= low (head_ p) < cap) /\ in_range 32 (high (head_ p)) /\ high (head_ p) <= n;
  inv_chain : chain p (low (head_ p)) fl;
  inv_parts : fl ++ map low hs ++ concat (map owned ts) ≡ₚ seqZ 0 cap;
  inv_free : Forall (fun i => Z.odd (gen_of p i) = true) fl;
  inv_held : Forall (fun h => handle_ok cap h /\ gen_of p (low h) = high h) hs;
  inv_pcs : Forall (pc_ok p) ts;
  inv_checked h : ReleaseChecked h ∈ ts -> handle_ok cap h;
  inv_gens i : 0 <= i < cap -> 0 <= gen_of p i <= n + 1;
  inv_issued h : h ∈ gone -> handle_ok cap h /\ high h <= gen_of p (low h) /\ (high h = gen_of p (low h) -> h ∈ hs \/ ReleaseChecked h ∈ ts);
}.

Lemma pool_slot_set p i s j : 0 <= i < zlen (slots_ p) -> 0 <= j -> slot (set_slot i s p) j = if decide (j = i) then s else slot p j.
Proof.
  intros Hi Hj. unfold slot, set_slot. cbn [slots_]. rewrite !nth_lookup. unfold zlen in Hi. destruct (decide (j = i)) as [->|Hne].
  - by rewrite list_lookup_insert_eq by lia.
  - by rewrite list_lookup_insert_ne by lia.
Qed.

Lemma low_nonneg w : 0 <= low w.
Proof. apply (wrap_range 32). lia. Qed.

Section invariant.
Context (cap n : Z) (Hcap : 1 <= cap < UINT32_MAX) (Hn : 0 <= n < 2 ^ 31).

Lemma pool_idx_range i : 0 <= i < cap -> in_range 32 i.
Proof. unfold in_range, UINT32_MAX in *. lia. Qed.

Lemma handle_parts h : handle_ok cap h -> 0 <= low h < cap /\ Z.even (high h) = true /\ h = pack (low h) (high h) /\ h <> kNull.
Proof.
  intros (i & g & -> & Hi & Hg & He). pose proof (pool_idx_range i Hi). rewrite low_pack, high_pack by done. split_and!; try done; [lia|lia|].
  intros E. assert (low (pack i g) = low kNull) as E' by by rewrite E. rewrite low_pack in E' by done. change (low kNull) with UINT32_MAX in E'. lia.
Qed.

Lemma handle_inj h h' : handle_ok cap h -> handle_ok cap h' -> low h = low h' -> high h = high h' -> h = h'.
Proof. intros (_ & _ & E & _)%handle_parts (_ & _ & E' & _)%handle_parts El Eh. congruence. Qed.

(** The slots of the parts are different ones of the pool. *)
Lemma parts_nodup p fl hs ts gone : inv cap n p fl hs ts gone -> NoDup (fl ++ map low hs ++ concat (map owned ts)).
Proof. intros H. rewrite (inv_parts _ _ _ _ _ _ _ H). apply NoDup_seqZ. Qed.

Lemma parts_range p fl hs ts gone i : inv cap n p fl hs ts gone -> i ∈ fl ++ map low hs ++ concat (map owned ts) -> 0 <= i < cap.
Proof. intros H Hi. rewrite (inv_parts _ _ _ _ _ _ _ H) in Hi. apply elem_of_seqZ in Hi. lia. Qed.

Lemma chain_frame p i s fl j : 0 <= i < zlen (slots_ p) -> i ∉ fl -> Forall (fun k => 0 <= k) fl -> chain p j fl -> chain (set_slot i s p) j fl.
Proof.
  intros Hi Hfl Hpos. revert j. induction Hpos as [|k fl Hk Hpos IH]; intros j; [done|]. cbn [chain]. apply not_elem_of_cons in Hfl as [Hne Hfl].
  rewrite pool_slot_set, decide_False by done. intros [-> Hc]. split; [done|]. by apply IH.
Qed.

Lemma chain_head p j fl : chain p j fl -> j = kNilIdx /\ fl = [] \/ exists fl', fl = j :: fl' /\ chain p (next_free (slot p j)) fl'.
Proof. destruct fl as [|k fl]; cbn [chain]; [by left|]. intros [-> Hc]. right. by exists fl. Qed.

Lemma pc_frame p i s at_ : 0 <= i < zlen (slots_ p) -> i ∉ owned at_ -> Forall (fun k => 0 <= k) (owned at_) -> low (head_ p) <> i -> pc_ok p at_ -> pc_ok (set_slot i s p) at_.
Proof.
  intros Hi Ho Hpos Hh. unfold pc_ok, gen_of, old_ok. change (head_ (set_slot i s p)) with (head_ p).
  destruct at_ as [|old|old next|j|j g|h|j|j old|j old]; cbn [owned] in Ho, Hpos; try done;
    try (rewrite pool_slot_set, decide_False; [done|set_solver|done|by inversion Hpos]).
  intros (Hold & Hnil & Hnext). split_and!; [apply Hold|apply Hold|done|]. intros ->. rewrite pool_slot_set, decide_False by (done || apply low_nonneg). by apply Hnext.
Qed.

(** Going on without touching the pool. *)
Lemma inv_switch p fl hs gone t1 at1 at2 t2 : inv cap n p fl hs (t1 ++ at1 :: t2) gone -> owned at2 = owned at1 ->
  (forall h, at1 <> ReleaseChecked h) -> (forall h, at2 <> ReleaseChecked h) -> pc_ok p at2 -> inv cap (n + 1) p fl hs (t1 ++ at2 :: t2) gone.
Proof.
  intros [Hlen (Hh1 & Hh2 & Hh3) Hchain Hparts Hfree Hheld Hpcs Hchk Hgens Hiss] Ho Hn1 Hn2 Hok.
  assert (forall h, ReleaseChecked h ∈ t1 ++ at2 :: t2 <-> ReleaseChecked h ∈ t1 ++ at1 :: t2) as Hin.
  { intros h. rewrite !elem_of_app, !elem_of_cons. specialize (Hn1 h). specialize (Hn2 h). naive_solver. }
  split; try done.
  - split_and!; [done|done|lia].
  - rewrite map_app, concat_app in *. cbn [map concat] in *. by rewrite Ho.
  - apply Forall_app in Hpcs as [H1 H2]. apply Forall_cons in H2 as [_ H2]. apply Forall_app. split; [done|]. by constructor.
  - intros h Hh. apply Hchk. by rewrite <- Hin.
  - intros i Hi. specialize (Hgens i Hi). lia.
  - intros h Hh. rewrite Hin. by apply Hiss.
Qed.

Lemma pcs_frame p i s ts : 0 <= i < zlen (slots_ p) -> i ∉ concat (map owned ts) -> Forall (fun k => 0 <= k) (concat (map owned ts)) -> low (head_ p) <> i ->
  Forall (pc_ok p) ts -> Forall (pc_ok (set_slot i s p)) ts.
Proof.
  intros Hi Ho Hpos Hh. induction ts as [|at_ ts IH]; [constructor|]. cbn [map concat] in *. apply not_elem_of_app in Ho as [Ho1 Ho2].
  apply Forall_app in Hpos as [Hp1 Hp2]. intros [H1 H2]%Forall_cons. constructor; [by apply pc_frame|by apply IH].
Qed.

(** Writing the slot a thread has for itself. *)
Lemma pool_slot_frame p fl hs gone t1 at1 t2 i s : inv cap n p fl hs (t1 ++ at1 :: t2) gone -> owned at1 = [i] -> let p' := set_slot i s p in
  (0 <= i < cap /\ (i ∉ map low hs) /\ (i ∉ concat (map owned (t1 ++ t2)))) /\ chain p' (low (head_ p)) fl /\
  Forall (fun j => Z.odd (gen_of p' j) = true) fl /\ Forall (fun h => handle_ok cap h /\ gen_of p' (low h) = high h) hs /\ Forall (pc_ok p') (t1 ++ t2) /\
  (forall j, 0 <= j -> gen_of p' j = if decide (j = i) then generation s else gen_of p j).
Proof.
  intros Hinv Ho p'. pose proof (parts_nodup _ _ _ _ _ Hinv) as Hnd. pose proof (parts_range p fl hs (t1 ++ at1 :: t2) gone) as Hrange.
  destruct Hinv as [Hlen Hhead Hchain Hparts Hfree Hheld Hpcs Hchk Hgens Hiss]. 
  assert (fl ++ map low hs ++ concat (map owned (t1 ++ at1 :: t2)) ≡ₚ i :: fl ++ map low hs ++ concat (map owned (t1 ++ t2))) as Hperm.
  { rewrite !map_app, !concat_app. cbn [map concat]. rewrite Ho. cbn [app]. solve_Permutation. }
  rewrite Hperm in Hnd. apply NoDup_cons in Hnd as [Hi _]. rewrite !not_elem_of_app in Hi. destruct Hi as (Hifl & Hihs & Hits).
  assert (forall j, j ∈ i :: fl ++ map low hs ++ concat (map owned (t1 ++ t2)) -> 0 <= j < cap) as Hr.
  { intros j Hj. apply (Hrange j); [by split|]. by rewrite Hperm. }
  assert (forall j, j ∈ fl -> 0 <= j < cap) as Hrf by (intros j Hj; apply Hr; right; apply elem_of_app; by left).
  assert (forall j, j ∈ concat (map owned (t1 ++ t2)) -> 0 <= j < cap) as Hrt by (intros j Hj; apply Hr; right; apply elem_of_app; right; apply elem_of_app; by right).
  assert (0 <= i < cap) as Hi by (apply Hr; by left). assert (0 <= i < zlen (slots_ p)) as Hi' by by rewrite Hlen.
  assert (forall j, 0 <= j -> gen_of p' j = if decide (j = i) then generation s else gen_of p j) as Hgen.
  { intros j Hj. unfold gen_of, p'. rewrite pool_slot_set by done. by destruct (decide (j = i)). }
  assert (low (head_ p) <> i) as Hne by (destruct (chain_head _ _ _ Hchain) as [[-> _]|(fl' & E & _)]; [lia|]; intros Eh; apply Hifl; rewrite E, Eh; by left).
  split; [done|]. split; [|split; [|split; [|split; [|done]]]].
  - apply chain_frame; try done. apply Forall_forall. intros j Hj. by apply Hrf.
  - rewrite Forall_forall in Hfree |- *. intros j Hj. rewrite Hgen, decide_False; [by apply Hfree|by intros ->|]. by apply Hrf.
  - rewrite Forall_forall in Hheld |- *. intros h Hh. rewrite Hgen, decide_False; [by apply Hheld| |apply low_nonneg]. intros <-. apply Hihs.
    apply list_elem_of_fmap. eauto.
  - apply pcs_frame; try done; [apply Forall_forall; intros j Hj; by apply Hrt|].
    apply Forall_app in Hpcs as [H1 [_ H2]%Forall_cons]. by apply Forall_app.
Qed.

Lemma Forall_middle {A} (P : A -> Prop) l1 x l2 : Forall P (l1 ++ l2) -> P x -> Forall P (l1 ++ x :: l2).
Proof. intros [H1 H2]%Forall_app Hx. apply Forall_app. split; [done|]. by constructor. Qed.

Lemma elem_of_middle {A} (y : A) l1 x l2 : y ∈ l1 ++ x :: l2 <-> y = x \/ y ∈ l1 ++ l2.
Proof. rewrite !elem_of_app, elem_of_cons. tauto. Qed.

(** A thread writes its slot, which stays free; the generation does not fall. *)
Lemma inv_slot p fl hs gone t1 at1 at2 t2 i s : inv cap n p fl hs (t1 ++ at1 :: t2) gone -> owned at1 = [i] -> owned at2 = [i] ->
  gen_of p i <= generation s <= gen_of p i + 1 -> Z.odd (generation s) = true -> (forall h, at2 <> ReleaseChecked h) -> pc_ok (set_slot i s p) at2 ->
  inv cap (n + 1) (set_slot i s p) fl hs (t1 ++ at2 :: t2) gone.
Proof.
  intros Hinv Ho1 Ho2 Hg Hodd Hn2 Hok. destruct (pool_slot_frame p fl hs gone t1 at1 t2 i s Hinv Ho1) as ((Hi & Hihs & Hits) & Hchain' & Hfree' & Hheld' & Hpcs' & Hgen).
  destruct Hinv as [Hlen (Hh1 & Hh2 & Hh3) Hchain Hparts Hfree Hheld Hpcs Hchk Hgens Hiss]. split; try done.
  - unfold zlen, set_slot in *. cbn [slots_]. by rewrite length_insert.
  - cbn [set_slot head_]. split_and!; [done|done|lia].
  - rewrite map_app, concat_app in *. cbn [map concat] in *. by rewrite Ho2, <- Ho1.
  - by apply Forall_middle.
  - intros h [E|Hh]%elem_of_middle; [by destruct (Hn2 h)|]. apply Hchk, elem_of_middle. by right.
  - intros j Hj. specialize (Hgens j Hj) as Hgj. rewrite Hgen by lia. destruct (decide (j = i)) as [->|]; lia.
  - intros h Hh. destruct (Hiss h Hh) as (Hhok & Hle & Heq). destruct (handle_parts h Hhok) as (Hlow & Hev & _). split; [done|]. rewrite Hgen by lia.
    destruct (decide (low h = i)) as [<-|Hne].
    + split; [lia|]. intros E. rewrite <- E, <- Z.negb_even, Hev in Hodd. done.
    + split; [done|]. intros [|Hc]%Heq; [by left|]. right. apply elem_of_middle. right. apply elem_of_middle in Hc as [E|]; [|done].
      rewrite <- E in Ho1. cbn [owned] in Ho1. congruence.
Qed.

(** A new head with the next tag: what the threads have read of the old one is stale. *)
Lemma head_frame p w at_ : high w = high (head_ p) + 1 -> pc_ok p at_ -> pc_ok (set_head w p) at_.
Proof.
  intros Hw. assert (forall old, old_ok p old -> old_ok (set_head w p) old /\ old <> w) as Hold.
  { intros old [Hle _]. unfold old_ok. cbn [set_head head_]. split; [split; lia|]. intros ->. lia. }
  destruct at_ as [|old|old next|j|j g|h|j|j old|j old]; cbn [pc_ok]; try done.
  - intros H. by apply Hold.
  - intros (H & Hnil & _). apply Hold in H as [H Hne]. by split_and!; try apply H.
  - intros [Hodd H]. split; [done|]. by apply Hold.
  - intros (Hodd & H & Hl). split; [done|]. split; [by apply Hold|done].
Qed.

Lemma chain_set_head p w j fl : chain p j fl -> chain (set_head w p) j fl.
Proof. revert j. induction fl as [|k fl IH]; intros j; [done|]. intros [-> Hc]. split; [done|]. by apply IH. Qed.

Lemma next_tag p : in_range 32 (high (head_ p)) -> high (head_ p) <= n -> u32 (high (head_ p) + 1) = high (head_ p) + 1 /\ in_range 32 (high (head_ p) + 1).
Proof.
  intros H1 H2. assert (in_range 32 (high (head_ p) + 1)) as H by (unfold in_range in *; change (2 ^ 31) with 2147483648 in *; change (2 ^ 32) with 4294967296 in *; lia).
  split; [by apply wrap_small|done].
Qed.

(** The head moves to [idx], the first slot of [fl']. *)
Lemma inv_head_moves p fl fl' hs gone t1 at1 at2 t2 idx : inv cap n p fl hs (t1 ++ at1 :: t2) gone -> (idx = kNilIdx \/ 0 <= idx < cap) ->
  chain p idx fl' -> fl' ++ owned at2 ≡ₚ fl ++ owned at1 -> Forall (fun i => Z.odd (gen_of p i) = true) fl' ->
  (forall h, at1 <> ReleaseChecked h) -> (forall h, at2 <> ReleaseChecked h) -> (forall q, slots_ q = slots_ p -> pc_ok q at2) ->
  inv cap (n + 1) (set_head (pack idx (u32 (high (head_ p) + 1))) p) fl' hs (t1 ++ at2 :: t2) gone.
Proof.
  intros [Hlen (Hh1 & Hh2 & Hh3) Hchain Hparts Hfree Hheld Hpcs Hchk Hgens Hiss] Hidx Hchain' Hperm Hfree' Hn1 Hn2 Hok.
  destruct (next_tag p Hh2 Hh3) as [-> Ht]. assert (in_range 32 idx) as H32 by (destruct Hidx as [->|]; [done|by apply pool_idx_range]).
  set (w := pack idx _). assert (high w = high (head_ p) + 1) as Hw by by apply high_pack. assert (low w = idx) as Hl by by apply low_pack.
  assert (forall h, ReleaseChecked h ∈ t1 ++ at2 :: t2 <-> ReleaseChecked h ∈ t1 ++ at1 :: t2) as Hin.
  { intros h. rewrite !elem_of_middle. specialize (Hn1 h). specialize (Hn2 h). split; (intros [E|]; [by symmetry in E|by right]). }
  split; cbn [set_head head_ slots_]; try done.
  - rewrite Hl, Hw. split_and!; [done|done|lia].
  - rewrite Hl. by apply chain_set_head.
  - rewrite <- Hparts. rewrite !map_app, !concat_app. cbn [map concat].
    transitivity ((fl' ++ owned at2) ++ map low hs ++ concat (map owned t1) ++ concat (map owned t2)); [|rewrite Hperm]; solve_Permutation.
  - apply Forall_middle; [|by apply Hok]. apply Forall_app in Hpcs as [H1 [_ H2]%Forall_cons]. apply Forall_app.
    split; (eapply Forall_impl; [eassumption|]; intros at_; by apply head_frame).
  - intros h. rewrite Hin. apply Hchk.
  - intros i Hi. specialize (Hgens i Hi). unfold gen_of in *. change (slot (set_head w p) i) with (slot p i). lia.
  - intros h Hh. rewrite Hin. by apply Hiss.
Qed.

(** A slot becomes live: its handle is new. *)
Lemma inv_acquired p fl hs gone t1 i t2 : inv cap n p fl hs (t1 ++ AcquireGen i (gen_of p i + 1) :: t2) gone ->
  let h := pack i (gen_of p i + 1) in
  inv cap (n + 1) (set_slot i (mkSlot (gen_of p i + 1) (next_free (slot p i))) p) fl (h :: hs) (t1 ++ Idle :: t2) (h :: gone).
Proof.
  intros Hinv h. set (s := mkSlot _ _). destruct (pool_slot_frame p fl hs gone t1 _ t2 i s Hinv eq_refl) as ((Hi & Hihs & Hits) & Hchain' & Hfree' & Hheld' & Hpcs' & Hgen).
  destruct Hinv as [Hlen (Hh1 & Hh2 & Hh3) Hchain Hparts Hfree Hheld Hpcs Hchk Hgens Hiss].
  apply Forall_app in Hpcs as [_ [[Hodd _] _]%Forall_cons]. pose proof (Hgens i Hi) as Hgi. pose proof (pool_idx_range i Hi) as H32.
  assert (in_range 32 (gen_of p i + 1)) as Hg by (unfold in_range; change (2 ^ 31) with 2147483648 in *; change (2 ^ 32) with 4294967296; lia).
  assert (handle_ok cap h) as Hok by (exists i, (gen_of p i + 1); split_and!; [done|lia|lia|done|by rewrite Z.even_add, <- Z.negb_odd, Hodd]).
  assert (low h = i) as Hl by by apply low_pack. assert (high h = gen_of p i + 1) as Hhi by by apply high_pack.
  split; try done.
  - unfold zlen, set_slot in *. cbn [slots_]. by rewrite length_insert.
  - cbn [set_slot head_]. split_and!; [done|done|lia].
  - rewrite <- Hparts. rewrite !map_app, !concat_app. cbn [map concat owned app]. rewrite Hl. solve_Permutation.
  - constructor; [|done]. split; [done|]. rewrite Hl, Hgen, decide_True by (done || lia). by rewrite Hhi.
  - by apply Forall_middle.
  - intros h' [E|Hh]%elem_of_middle; [done|]. apply Hchk, elem_of_middle. by right.
  - intros j Hj. specialize (Hgens j Hj) as Hgj. rewrite Hgen by lia. destruct (decide (j = i)) as [->|]; cbn [generation s]; lia.
  - intros h' [->|Hh']%elem_of_cons.
    + split; [done|]. rewrite Hl, Hgen, decide_True by (done || lia). rewrite Hhi. split; [done|]. intros _. left. by left.
    + destruct (Hiss h' Hh') as (Hhok & Hle & Heq). destruct (handle_parts h' Hhok) as (Hlow & _). split; [done|]. rewrite Hgen by lia.
      destruct (decide (low h' = i)) as [E|Hne]; [rewrite E in Hle; cbn [generation s]; split; lia|].
      split; [done|]. intros [|Hc]%Heq; [left; by right|]. right. apply elem_of_middle in Hc as [?|]; [done|]. apply elem_of_middle. by right.
Qed.

(** The application gives a handle it holds back. *)
Lemma inv_release_call p fl l1 h l2 gone t1 t2 : inv cap n p fl (l1 ++ h :: l2) (t1 ++ Idle :: t2) gone ->
  release_start p h = At (ReleaseChecked h) /\ inv cap (n + 1) p fl (l1 ++ l2) (t1 ++ ReleaseChecked h :: t2) gone.
Proof.
  intros [Hlen (Hh1 & Hh2 & Hh3) Hchain Hparts Hfree Hheld Hpcs Hchk Hgens Hiss]. apply Forall_app in Hheld as [Hh1' [[Hok Hg] Hh2']%Forall_cons].
  destruct (handle_parts h Hok) as (Hlow & Hev & _ & Hnull). split.
  - unfold release_start. rewrite (proj2 (Z.eqb_neq h kNull)) by done. unfold gen_of in Hg. by rewrite Hg, Z.eqb_refl.
  - split; try done.
    + split_and!; [done|done|lia].
    + rewrite <- Hparts. rewrite !map_app, !concat_app. cbn [map concat owned app]. solve_Permutation.
    + by apply Forall_app.
    + apply Forall_middle; [|done]. apply Forall_app in Hpcs as [H1 [_ H2]%Forall_cons]. by apply Forall_app.
    + intros h' [[= ->]|Hh]%elem_of_middle; [done|]. apply Hchk, elem_of_middle. by right.
    + intros i Hi. specialize (Hgens i Hi). lia.
    + intros h' Hh'. destruct (Hiss h' Hh') as (Hhok & Hle & Heq). split_and!; [done|done|]. intros [Hin|Hc]%Heq.
      * apply elem_of_middle in Hin as [->|Hin]; [right; apply elem_of_middle; by left|by left].
      * right. apply elem_of_middle in Hc as [?|]; [done|]. apply elem_of_middle. by right.
Qed.

Lemma next_even g : in_range 32 (g + 1) -> Z.odd g = true -> u32 (g + 1) .& u32 (Z.lnot 1) = g + 1.
Proof.
  intros Hr Ho. rewrite wrap_small by done. apply Z.bits_inj'. intros k Hk. rewrite Z.land_spec, wrap_testbit, Z.lnot_spec by lia.
  destruct (decide (k = 0)) as [->|Hk0]; [rewrite Z.bit0_odd, Z.odd_add, Ho; done|].
  assert (Z.testbit 1 k = false) as -> by (apply (range_testbit 1); [done|lia]). cbn [negb]. rewrite andb_true_r.
  case_bool_decide; [by rewrite andb_true_r|]. by rewrite (range_testbit 32) by (done || lia).
Qed.

Lemma old_ok_head p : old_ok p (head_ p).
Proof. done. Qed.

Lemma gen_set p i s : 0 <= i < zlen (slots_ p) -> slot (set_slot i s p) i = s.
Proof. intros Hi. rewrite pool_slot_set by lia. by rewrite decide_True. Qed.

Lemma gen_succ p fl hs ts gone i : inv cap n p fl hs ts gone -> 0 <= i < cap -> in_range 32 (gen_of p i + 1) /\ u32 (gen_of p i + 1) = gen_of p i + 1.
Proof.
  intros Hinv Hi. pose proof (inv_gens _ _ _ _ _ _ _ Hinv i Hi) as Hg.
  assert (in_range 32 (gen_of p i + 1)) as H by (unfold in_range; change (2 ^ 31) with 2147483648 in *; change (2 ^ 32) with 4294967296; lia).
  split; [done|by apply wrap_small].
Qed.

Lemma owned_range p fl hs t1 at_ t2 gone i : inv cap n p fl hs (t1 ++ at_ :: t2) gone -> owned at_ = [i] -> 0 <= i < cap.
Proof.
  intros Hinv Ho. apply (parts_range _ _ _ _ _ _ Hinv). rewrite map_app, concat_app. cbn [map concat]. rewrite Ho. rewrite !elem_of_app. right. right. right. left. by left.
Qed.

(** Each step of an operation keeps the invariant. *)
Lemma inv_acquire_step weak p fl hs gone t1 at_ t2 : inv cap n p fl hs (t1 ++ at_ :: t2) gone ->
  (forall h, at_ <> ReleaseChecked h) -> owned at_ = [] \/ (exists i, at_ = AcquirePopped i) \/ (exists i g, at_ = AcquireGen i g) -> at_ <> Idle ->
  let '(p', pr) := acquire_step weak p at_ in
  exists fl', inv cap (n + 1) p' fl' (match pr with Acquired (Some h) => h :: hs | _ => hs end)
    (t1 ++ match pr with At at_ => at_ | _ => Idle end :: t2) (match pr with Acquired (Some h) => h :: gone | _ => gone end).
Proof.
  intros Hinv Hnc Hkind Hidle. pose proof (inv_pcs _ _ _ _ _ _ _ Hinv) as Hpcs. apply Forall_app in Hpcs as [_ [Hpc _]%Forall_cons].
  destruct at_ as [|old|old next|i|i g|h|i|i old|i old]; try done; try (by destruct Hkind as [?|[[? ?]|(? & ? & ?)]]); cbn [acquire_step]; cbn zeta.
  - destruct (Z.eqb_spec (low old) kNilIdx) as [|Hnil]; (exists fl; eapply inv_switch; [exact Hinv|done|done|done|]); [done|by split_and!; try apply Hpc].
  - destruct (Z.eqb_spec (head_ p) old) as [<-|Hne]; [destruct weak; cbn [andb negb]|cbn [andb]].
    1,3: exists fl; by eapply inv_switch.
    destruct Hpc as (_ & Hnil & Hnext). specialize (Hnext eq_refl). pose proof (inv_chain _ _ _ _ _ _ _ Hinv) as Hchain. pose proof (inv_free _ _ _ _ _ _ _ Hinv) as Hfree.
    destruct (chain_head _ _ _ Hchain) as [[? _]|(fl' & -> & Hchain')]; [done|]. rewrite <- Hnext in Hchain'. apply Forall_cons in Hfree as [Hodd Hfree]. exists fl'.
    apply (inv_head_moves p (low (head_ p) :: fl') fl' hs gone t1 (AcquireNext (head_ p) next)); try done.
    + destruct (chain_head _ _ _ Hchain') as [[-> _]|(fl'' & -> & _)]; [by left|]. right. apply (parts_range _ _ _ _ _ _ Hinv). right. by left.
    + cbn [owned]. rewrite app_nil_r. symmetry. apply Permutation_cons_append.
    + intros q Hq. cbn [pc_ok]. unfold gen_of, slot in *. by rewrite Hq.
  - pose proof (owned_range _ _ _ _ _ _ _ i Hinv eq_refl) as Hi. destruct (gen_succ _ _ _ _ _ i Hinv Hi) as [Hr _]. exists fl. eapply inv_switch; [exact Hinv|done|done|done|].
    split; [done|]. by apply next_even.
  - destruct Hpc as [_ ->]. exists fl. by apply inv_acquired.
Qed.

Lemma inv_release_step weak p fl hs gone t1 at_ t2 : inv cap n p fl hs (t1 ++ at_ :: t2) gone ->
  match at_ with ReleaseChecked _ | ReleaseMarked _ | ReleaseLoaded _ _ | ReleaseLinked _ _ => True | _ => False end ->
  let '(p', pr) := release_step weak p at_ in
  exists fl', inv cap (n + 1) p' fl' hs (t1 ++ match pr with At at_ => at_ | _ => Idle end :: t2) gone /\ match pr with Acquired _ => False | _ => True end.
Proof.
  intros Hinv Hkind. pose proof (inv_pcs _ _ _ _ _ _ _ Hinv) as Hpcs. apply Forall_app in Hpcs as [_ [Hpc _]%Forall_cons]. pose proof (inv_len _ _ _ _ _ _ _ Hinv) as Hlen.
  destruct at_ as [|old|old next|i|i g|h|i|i old|i old]; try done; cbn [release_step]; cbn zeta.
  - pose proof (owned_range _ _ _ _ _ _ _ (low h) Hinv eq_refl) as Hi. destruct (gen_succ _ _ _ _ _ _ Hinv Hi) as [_ Hu]. unfold gen_of in Hu. rewrite Hu.
    destruct Hpc as [Hg Hev]. unfold gen_of in Hg. exists fl. split; [|done]. assert (Z.odd (generation (slot p (low h)) + 1) = true) as Ho by (rewrite Hg, Z.odd_add, <- Z.negb_even, Hev; done).
    apply (inv_slot p fl hs gone t1 (ReleaseChecked h)); try done; [unfold gen_of; cbn [generation]; lia|].
    cbn [pc_ok]. unfold gen_of. rewrite gen_set; [done|by rewrite Hlen].
  - exists fl. split; [|done]. by eapply inv_switch.
  - pose proof (owned_range _ _ _ _ _ _ _ i Hinv eq_refl) as Hi. destruct Hpc as [Hodd Hold]. exists fl. split; [|done].
    apply (inv_slot p fl hs gone t1 (ReleaseLoaded i old)); try done; [unfold gen_of; cbn [generation]; lia|].
    cbn [pc_ok]. unfold gen_of. rewrite gen_set; [done|by rewrite Hlen].
  - pose proof (owned_range _ _ _ _ _ _ _ i Hinv eq_refl) as Hi. destruct Hpc as (Hodd & Hold & Hl). destruct (Z.eqb_spec (head_ p) old) as [<-|Hne]; [destruct weak; cbn [andb negb]|cbn [andb]].
    1,3: exists fl; split; [|done]; by eapply inv_switch.
    exists (i :: fl). split; [|done]. apply (inv_head_moves p fl (i :: fl) hs gone t1 (ReleaseLinked i (head_ p))); try done.
    + by right.
    + split; [done|]. rewrite Hl. apply Hinv.
    + cbn [owned]. rewrite app_nil_r. apply Permutation_cons_append.
    + constructor; [done|]. apply Hinv.
Qed.
End invariant.

(** ** Reachable states *)

Lemma pool_slot_new cap i : 0 <= i < cap -> slot (new_pool cap) i = mkSlot 1 (if i + 1 <? cap then i + 1 else kNilIdx).
Proof.
  intros Hi. unfold slot, new_pool. cbn [slots_]. apply nth_lookup_Some. rewrite list_lookup_fmap.
  rewrite (proj2 (lookup_seqZ 0 cap (Z.to_nat i) i)) by lia. done.
Qed.

Lemma chain_new cap k : 0 <= k <= cap -> chain (new_pool cap) (if cap - k <? cap then cap - k else kNilIdx) (seqZ (cap - k) k).
Proof.
  intros [Hk Hle]. revert Hle. pattern k. apply natlike_ind; [|clear k Hk|done].
  - intros _. cbn. by rewrite Z.sub_0_r, Z.ltb_irrefl.
  - intros k Hk IH Hle. rewrite (proj2 (Z.ltb_lt _ _)) by lia. rewrite (seqZ_cons (cap - Z.succ k)) by lia. split; [done|].
    rewrite pool_slot_new by lia. cbn [next_free]. replace (cap - Z.succ k + 1) with (cap - k) by lia. replace (Z.succ (cap - Z.succ k)) with (cap - k) by lia.
    rewrite Z.pred_succ. apply IH. lia.
Qed.

Lemma inv_start cap k : 1 <= cap < UINT32_MAX -> inv cap 0 (new_pool cap) (seqZ 0 cap) [] (replicate k Idle) [].
Proof.
  intros Hcap. assert (head_ (new_pool cap) = 0) as Hh by done. assert (forall i, 0 <= i < cap -> gen_of (new_pool cap) i = 1) as Hg.
  { intros i Hi. unfold gen_of. by rewrite pool_slot_new. }
  split.
  - unfold zlen, new_pool. cbn [slots_]. rewrite length_map, length_seqZ. lia.
  - rewrite Hh. change (low 0) with 0. change (high 0) with 0. split_and!; [right; lia|done|lia].
  - pose proof (chain_new cap cap ltac:(lia)) as Hc. rewrite Z.sub_diag, (proj2 (Z.ltb_lt _ _)) in Hc by lia. exact Hc.
  - assert (concat (map owned (replicate k Idle)) = []) as -> by (induction k; done). cbn [map app]. by rewrite app_nil_r.
  - apply Forall_forall. intros i Hi. apply elem_of_seqZ in Hi. rewrite Hg by lia. done.
  - constructor.
  - apply Forall_replicate. done.
  - intros h [? _]%elem_of_replicate. done.
  - intros i Hi. rewrite Hg by lia. lia.
  - intros h Hh'. by apply not_elem_of_nil in Hh'.
Qed.

Definition sys_inv (cap : Z) (s : system) : Prop :=
  0 <= steps s /\ (steps s < 2 ^ 31 -> NoDup (issued s) /\ exists fl, inv cap (steps s) (pool s) fl (held s) (threads s) (issued s)).

(** A thread replaced in the list of threads. *)
Lemma thread_split (ts : list pc) i at_ : ts !! i = Some at_ -> exists t1 t2, ts = t1 ++ at_ :: t2 /\ forall x, <[i := x]> ts = t1 ++ x :: t2.
Proof.
  intros Hi. exists (take i ts), (drop (S i) ts). split; [symmetry; by apply take_drop_middle|]. intros x. apply insert_take_drop. by eapply lookup_lt_Some.
Qed.

Lemma fresh_handle cap n p fl hs t1 i g t2 gone : 1 <= cap < UINT32_MAX -> 0 <= n < 2 ^ 31 -> inv cap n p fl hs (t1 ++ AcquireGen i g :: t2) gone -> pack i g ∉ gone.
Proof.
  intros Hcap Hn Hinv Hin. pose proof (owned_range cap n p fl hs t1 (AcquireGen i g) t2 gone i Hinv eq_refl) as Hi.
  pose proof (inv_pcs _ _ _ _ _ _ _ Hinv) as Hpcs. apply Forall_app in Hpcs as [_ [[_ Hg] _]%Forall_cons].
  destruct (gen_succ cap n Hn p fl hs _ gone i Hinv Hi) as [Hr _]. destruct (inv_issued _ _ _ _ _ _ _ Hinv _ Hin) as (_ & Hle & _).
  rewrite Hg, low_pack, high_pack in Hle by (done || by apply (pool_idx_range cap)). lia.
Qed.

Lemma inv_thread_step cap n weak p fl hs t1 at_ t2 gone : 1 <= cap < UINT32_MAX -> 0 <= n < 2 ^ 31 ->
  inv cap n p fl hs (t1 ++ at_ :: t2) gone -> at_ <> Idle ->
  let '(p', pr) := thread_step weak p at_ in
  exists fl', inv cap (n + 1) p' fl' (match pr with Acquired (Some h) => h :: hs | _ => hs end)
    (t1 ++ match pr with At at_ => at_ | _ => Idle end :: t2) (match pr with Acquired (Some h) => h :: gone | _ => gone end) /\
    (forall h, pr = Acquired (Some h) -> h ∉ gone).
Proof.
  intros Hcap Hn Hinv Hidle. destruct (thread_step weak p at_) as [p' pr] eqn:E.
  assert (match at_ with ReleaseChecked _ | ReleaseMarked _ | ReleaseLoaded _ _ | ReleaseLinked _ _ => True | _ => False end \/
    thread_step weak p at_ = acquire_step weak p at_ /\ (forall h, at_ <> ReleaseChecked h) /\
    (owned at_ = [] \/ (exists i, at_ = AcquirePopped i) \/ (exists i g, at_ = AcquireGen i g))) as [Hr|(Ea & Hnc & Hk)] by (destruct at_; eauto 10).
  - pose proof (inv_release_step cap n Hcap Hn weak p fl hs gone t1 at_ t2 Hinv Hr) as H. assert (release_step weak p at_ = (p', pr)) as Er by (by destruct at_).
    rewrite Er in H. destruct H as (fl' & H & Hpr). exists fl'. destruct pr as [| |]; done.
  - pose proof (inv_acquire_step cap n Hcap Hn weak p fl hs gone t1 at_ t2 Hinv Hnc Hk Hidle) as H. rewrite <- Ea, E in H. destruct H as (fl' & H). exists fl'. split; [done|].
    intros h ->. rewrite Ea in E. assert (exists i g, at_ = AcquireGen i g /\ h = pack i g) as (i & g & -> & ->).
    { destruct at_; cbn [acquire_step] in E; cbn zeta in E; repeat case_match; simplify_eq; eauto. }
    by eapply fresh_handle.
Qed.

Lemma pool_step_inv cap s s' : 1 <= cap < UINT32_MAX -> sys_inv cap s -> step s s' -> sys_inv cap s'.
Proof.
  intros Hcap [H0 Hs] Hstep. assert (steps s' = steps s + 1) as Hsteps by by destruct Hstep. split; [lia|]. rewrite Hsteps. intros Hlt.
  destruct Hs as [Hnd (fl & Hinv)]; [lia|]. assert (0 <= steps s < 2 ^ 31) as Hn by lia.
  destruct Hstep as [i Hi|i h l1 l2 Hi Hh|i h Hi Hh Hnh Hnc|i weak at_ Hi Hidle]; destruct (thread_split _ _ _ Hi) as (t1 & t2 & Et & Eins); rewrite Et in Hinv.
  - cbn [settle acquire_start pool threads held issued]. rewrite Eins. split; [done|]. exists fl. by eapply inv_switch.
  - rewrite Hh in Hinv. destruct (inv_release_call cap _ Hcap Hn _ _ _ _ _ _ _ _ Hinv) as [-> Hinv']. cbn [settle pool threads held issued]. rewrite Eins.
    split; [done|]. by exists fl.
  - assert (release_start (pool s) h = Released) as ->.
    { unfold release_start. destruct (inv_issued _ _ _ _ _ _ _ Hinv h Hh) as (Hok & Hle & Heq). destruct (h =? kNull); [done|].
      destruct (Z.eqb_spec (generation (slot (pool s) (low h))) (high h)) as [E|]; [|done]. symmetry in E. destruct (Heq E) as [?|Hc]; [done|]. by rewrite <- Et in Hc. }
    cbn [settle pool threads held issued]. rewrite Eins. split; [done|]. exists fl. by eapply inv_switch.
  - cbn [settle pool threads held issued]. rewrite Eins.
    pose proof (inv_thread_step _ _ weak _ _ _ _ _ _ _ Hcap Hn Hinv Hidle) as H. destruct (thread_step weak (pool s) at_) as [p' pr]. cbn [fst snd].
    destruct H as (fl' & Hinv' & Hfresh). split; [|by exists fl'].
    destruct pr as [|[h|]|]; [done| |done|done]. apply NoDup_cons. by split; [apply Hfresh|].
Qed.

Lemma reachable_inv cap k s : 1 <= cap < UINT32_MAX -> rtc step (start cap k) s -> steps s < 2 ^ 31 ->
  NoDup (issued s) /\ exists fl, inv cap (steps s) (pool s) fl (held s) (threads s) (issued s).
Proof.
  intros Hcap Hr Hlt. assert (sys_inv cap (start cap k)) as H0.
  { split; [cbn; lia|]. intros _. split; [constructor|]. eexists. by apply inv_start. }
  assert (sys_inv cap s) as [_ Hs]; [|by apply Hs]. induction Hr as [|s1 s2 s3 Hst _ IH]; [done|]. apply IH; [done|]. by eapply pool_step_inv.
Qed.

(** ** What the pool promises *)

Lemma resolve_live cap p h : 1 <= cap < UINT32_MAX -> zlen (slots_ p) = cap -> handle_ok cap h ->
  (forall i, resolve p h = Some i <-> i = low h /\ gen_of p (low h) = high h).
Proof.
  intros Hcap Hlen Hok i. destruct (handle_parts cap Hcap h Hok) as (Hr & He & _ & Hnull). unfold resolve, gen_of. cbn zeta.
  rewrite (proj2 (Z.eqb_neq h kNull)), Hlen, (proj2 (Z.leb_gt cap (low h))) by (done || lia).
  destruct (Z.eqb_spec (generation (slot p (low h))) (high h)) as [E|E]; cbn [andb]; [|split; [done|by intros [_ ?]]].
  rewrite E. change (high h .& 1) with (Z.land (high h) (Z.ones 1)). rewrite Z.land_ones, Zmod_even, He by lia. cbn. split; [intros [= <-]; done|by intros [-> _]].
Qed.

Lemma live_spec p (l : list Z) : Forall (fun i => in_range 32 i /\ in_range 32 (gen_of p i)) l -> NoDup l ->
  let live := concat (map (fun i => let gen := generation (slot p i) in if gen .& 1 =? 0 then [pack i gen] else []) l) in
  NoDup live /\ forall h, h ∈ live <-> low h ∈ l /\ Z.even (gen_of p (low h)) = true /\ h = pack (low h) (gen_of p (low h)).
Proof.
  induction l as [|i l IH]; intros Hr Hnd; cbn zeta.
  { split; [constructor|]. intros h. cbn. split; [by intros ?%not_elem_of_nil|by intros [?%not_elem_of_nil _]]. }
  apply Forall_cons in Hr as [[Hi Hg] Hr]. apply NoDup_cons in Hnd as [Hni Hnd]. specialize (IH Hr Hnd). cbn zeta in IH. destruct IH as [IHnd IH]. cbn [map concat].
  assert ((generation (slot p i) .& 1 =? 0) = Z.even (gen_of p i)) as ->.
  { change (generation (slot p i) .& 1) with (Z.land (gen_of p i) (Z.ones 1)). rewrite Z.land_ones, Zmod_even by lia. by destruct (Z.even _). }
  assert (low (pack i (gen_of p i)) = i) as Hlow by by apply low_pack. destruct (Z.even (gen_of p i)) eqn:He; cbn [app].
  - split; [apply NoDup_cons; split; [|done]; rewrite IH, (Hlow : low (pack i (generation (slot p i))) = i); by intros [? _]|].
    intros h. rewrite !elem_of_cons, IH. split.
    + intros [->|?]; [|tauto]. change (generation (slot p i)) with (gen_of p i). rewrite Hlow. tauto.
    + intros ([E|Hin] & Hev & Hp); [|tauto]. left. rewrite Hp, E. done.
  - split; [done|]. intros h. rewrite IH, elem_of_cons. split; [tauto|]. intros ([E|Hin] & Hev & Hp); [|tauto]. rewrite E in Hev. congruence.
Qed.

(** When no operation is under way, [for_each_live] visits the handles that are held. *)
Lemma live_quiescent cap n p fl hs ts gone : 1 <= cap < UINT32_MAX -> 0 <= n < 2 ^ 31 -> inv cap n p fl hs ts gone ->
  Forall (eq Idle) ts -> NoDup hs -> for_each_live p ≡ₚ hs.
Proof.
  intros Hcap Hn Hinv Hidle Hnd. pose proof (inv_len _ _ _ _ _ _ _ Hinv) as Hlen.
  assert (forall i, 0 <= i < cap -> in_range 32 i /\ in_range 32 (gen_of p i)) as Hr.
  { intros i Hi. pose proof (inv_gens _ _ _ _ _ _ _ Hinv i Hi) as H. split; [by apply (pool_idx_range cap)|]. unfold in_range.
    change (2 ^ 31) with 2147483648 in *; change (2 ^ 32) with 4294967296; lia. }
  unfold for_each_live. rewrite Hlen. destruct (live_spec p (seqZ 0 cap)) as [Hl Hin]; [|apply NoDup_seqZ|].
  { apply Forall_forall. intros i Hi%elem_of_seqZ. apply Hr. lia. }
  apply NoDup_Permutation; [done|done|]. intros h. rewrite Hin. pose proof (inv_held _ _ _ _ _ _ _ Hinv) as Hheld. rewrite Forall_forall in Hheld. split.
  - intros (Hi & He & Hp). rewrite <- (inv_parts _ _ _ _ _ _ _ Hinv) in Hi.
    assert (concat (map owned ts) = []) as Eo by (clear -Hidle; induction Hidle as [|? ? <- _ IH]; [done|cbn; by rewrite IH]). rewrite Eo, app_nil_r in Hi.
    apply elem_of_app in Hi as [Hf|(h' & E & Hh')%list_elem_of_fmap].
    + pose proof (inv_free _ _ _ _ _ _ _ Hinv) as Hfree. rewrite Forall_forall in Hfree. specialize (Hfree _ Hf). rewrite <- Z.negb_even, He in Hfree. done.
    + destruct (Hheld h' Hh') as [Hok Hg]. destruct (handle_parts cap Hcap h' Hok) as (_ & _ & Hp' & _). rewrite E, Hg, <- Hp' in Hp. by rewrite Hp.
  - intros Hh. destruct (Hheld h Hh) as [Hok Hg]. destruct (handle_parts cap Hcap h Hok) as (Hr' & He & Hp & _). rewrite Hg. split; [apply elem_of_seqZ; lia|done].
Qed.

(** C22. Several threads acquire and release slots of a pool at once, interleaved between any
    two accesses to shared memory, with compare-and-swaps that fail without a reason and with
    stale handles released again; the pool never hands out the same handle twice and never a
    slot that is held.  A handle resolves, to its own slot, exactly while it is held (or its
    release has not yet marked the slot), and a stale handle never again.  No slot is lost:
    the free list, the held slots and those the threads have in hand are all the slots, each
    once.  At rest [for_each_live] visits the held handles.  The bound on the number of steps
    is the width of the tag and of the generations, which must not wrap around. *)
Theorem pool_safe cap k s : 1 <= cap < UINT32_MAX -> rtc step (start cap k) s -> steps s < 2 ^ 31 ->
  NoDup (issued s) /\ NoDup (map low (held s)) /\
  (forall h, h ∈ held s -> resolve (pool s) h = Some (low h)) /\
  (forall h i, h ∈ issued s -> resolve (pool s) h = Some i <-> i = low h /\ (h ∈ held s \/ ReleaseChecked h ∈ threads s)) /\
  (exists fl, chain (pool s) (low (head_ (pool s))) fl /\ fl ++ map low (held s) ++ concat (map owned (threads s)) ≡ₚ seqZ 0 cap) /\
  (Forall (eq Idle) (threads s) -> for_each_live (pool s) ≡ₚ held s).
Proof.
  intros Hcap Hr Hlt. destruct (reachable_inv cap k s Hcap Hr Hlt) as [Hnd (fl & Hinv)]. pose proof (inv_len _ _ _ _ _ _ _ Hinv) as Hlen.
  pose proof (inv_held _ _ _ _ _ _ _ Hinv) as Hheld. rewrite Forall_forall in Hheld. pose proof (inv_pcs _ _ _ _ _ _ _ Hinv) as Hpcs. rewrite Forall_forall in Hpcs.
  assert (NoDup (map low (held s))) as Hlow.
  { pose proof (NoDup_seqZ 0 cap) as H. rewrite <- (inv_parts _ _ _ _ _ _ _ Hinv), !NoDup_app in H. apply H. }
  assert (0 <= steps s < 2 ^ 31) as Hn.
  { split; [|done]. clear -Hr. assert (forall a b, rtc step a b -> 0 <= steps a -> 0 <= steps b) as H; [|by apply (H _ _ Hr)].
    intros a b Hab. induction Hab as [|x y z Hst _ IH]; [done|]. intros Hx. apply IH. destruct Hst; cbn; lia. }
  split_and!; [done|done| | |exists fl; split; apply Hinv|intros Hidle; eapply live_quiescent; [done|exact Hn|done|done|by eapply NoDup_fmap_1]].
  - intros h Hh. destruct (Hheld h Hh) as [Hok Hg]. by apply (resolve_live cap _ h Hcap Hlen Hok).
  - intros h i Hh. destruct (inv_issued _ _ _ _ _ _ _ Hinv h Hh) as (Hok & _ & Heq). rewrite (resolve_live cap _ h Hcap Hlen Hok i).
    split; [intros [-> Hg]; split; [done|]; by apply Heq|]. intros [-> [Hin|Hin]]; (split; [done|]); [apply Hheld, Hin|apply (Hpcs _ Hin)].
Qed.

(** Two threads race for the two slots of a pool; the first takes slot 0, and the other has
    to read the head again. *)
Definition raced : system :=
  mkSystem (mkPool [mkSlot 2 1; mkSlot 1 kNilIdx] (pack 1 1)) [Idle; AcquireLoaded (pack 1 1)] [pack 0 2] [pack 0 2] 8.

Lemma raced_reached : rtc step (start 2 2) raced.
Proof.
  eapply rtc_l; [by apply (step_acquire _ 0%nat)|]. eapply rtc_l; [by apply (step_acquire _ 1%nat)|].
  do 2 (eapply rtc_l; [by eapply (step_run _ 0%nat false)|]). eapply rtc_l; [by eapply (step_run _ 1%nat false)|].
  do 2 (eapply rtc_l; [by eapply (step_run _ 0%nat false)|]).
  eapply rtc_l; [by eapply (step_run _ 1%nat false)|]. match goal with |- rtc step ?a ?b => assert (a = b) as -> by (by vm_compute) end. done.
Qed.

Lemma pool_safe_witness : resolve (pool raced) (pack 0 2) = Some 0 /\ NoDup (issued raced).
Proof.
  destruct (pool_safe 2 2 raced ltac:(split; reflexivity || done) raced_reached ltac:(reflexivity)) as (H & _ & Hr & _). split; [|exact H].
  apply (Hr (pack 0 2)). left.
Defined.

(** The check of the generation in [release] and the step that changes it are separate: when
    two threads release the same handle at once, both pass the check, the generation ends
    even, so the freed slot looks live, the slot is linked to itself, and the next two
    [acquire] calls are given the same slot. *)
Fixpoint run_alone (n : nat) (p : GenerationPool) (at_ : pc) : GenerationPool * progress :=
  match n with
  | O => (p, At at_)
  | S n => match thread_step false p at_ with (p, At at_) => run_alone n p at_ | r => r end
  end.

Theorem concurrent_double_release :
  let p := pool raced in let h := pack 0 2 in
  release_start p h = At (ReleaseChecked h) /\
  let '(p1, _) := run_alone 4 p (ReleaseChecked h) in
  let '(p2, _) := run_alone 4 p1 (ReleaseChecked h) in
  for_each_live p2 = [pack 0 4] /\ next_free (slot p2 0) = 0 /\
  let '(p3, a1) := run_alone 4 p2 (AcquireLoaded (head_ p2)) in
  let '(_, a2) := run_alone 4 p3 (AcquireLoaded (head_ p3)) in
  a1 = Acquired (Some (pack 0 4)) /\ a2 = Acquired (Some (pack 0 4)).
Proof. vm_compute. tauto. Qed.
