(* ===== verification/Rudp.v ===== *)
(** * Reliable UDP: [net/rudp_socket.hpp]

    The segment header, the two ways to open a connection, sending with the retransmit queue
    and the window, and receiving with the reordering buffer.  The datagrams that arrive are
    an argument of an operation, the datagrams it sends a result; the stop token is never
    triggered and the clock is not modelled ([sent_at] is only written). *)

From stdpp Require Import gmap.
From S2P Require Import Prelude.
#[local] Open Scope Z_scope.

Abbreviation kRudpMtu := 1400.
Abbreviation kRudpWindow := 128.
Abbreviation kRudpMaxNacks := 8.
Abbreviation kRudpHeaderBase := 12.
Abbreviation kRudpHeaderMax := 48.

Abbreviation Syn := 0x01.
Abbreviation Ack := 0x02.
Abbreviation Fin := 0x04.
Abbreviation Data := 0x08.
Abbreviation Nack := 0x10.

(** ** The header *)

Record RudpHeader := mkHeader {
  seq : Z;
  ack : Z;
  flags : Z;
  nack_count : Z;
  window : Z;
  nacks : list Z;  (** [kRudpMaxNacks] of them *)
}.

Definition store32 (v : Z) : bytes := [(v >> 24) .& 0xFF; (v >> 16) .& 0xFF; (v >> 8) .& 0xFF; v .& 0xFF].

Definition load32 (p : bytes) (off : Z) : Z :=
  (at_ p off << 24) .| (at_ p (off + 1) << 16) .| (at_ p (off + 2) << 8) .| at_ p (off + 3).

(** The bytes written to a buffer of [out_size] bytes. *)
Definition encode (h : RudpHeader) (out_size : Z) : bytes :=
  if out_size <? kRudpHeaderBase then [] else
  store32 (seq h) ++ store32 (ack h) ++ [flags h; nack_count h; (window h >> 8) .& 0xFF; window h .& 0xFF] ++
  concat (map store32 (ztake (Z.min (nack_count h) kRudpMaxNacks) (nacks h))).

(** The numbers that [decode] reads: at most [n] and those that are there. *)
Fixpoint load_nacks (n : nat) (p : bytes) (off : Z) : list Z :=
  match n with
  | O => []
  | S n => if off + 4 <=? zlen p then load32 p off :: load_nacks n p (off + 4) else []
  end.

(** The header and the bytes consumed; [None] where the code returns 0. *)
Definition decode (p : bytes) : option (RudpHeader * Z) :=
  if zlen p <? kRudpHeaderBase then None else
  let nack_count := at_ p 9 in
  let found := load_nacks (Z.to_nat (Z.min nack_count kRudpMaxNacks)) p kRudpHeaderBase in
  Some (mkHeader (load32 p 0) (load32 p 4) (at_ p 8) nack_count ((at_ p 10 << 8) .| at_ p 11)
          (found ++ replicate (Z.to_nat kRudpMaxNacks - length found) 0),
        kRudpHeaderBase + 4 * zlen found).

(** ** The socket *)

Record RudpSegment := mkSegment { hdr : RudpHeader; seg_payload : bytes; rto : Z }.

Record RudpSocket := mkSocket {
  send_seq_ : Z;
  recv_seq_ : Z;
  remote_window_ : Z;
  retransmit_q_ : list RudpSegment;
  recv_buf_ : gmap Z bytes;
}.

Definition new_socket (recv_seq : Z) : RudpSocket := mkSocket 0 recv_seq kRudpWindow [] ∅.

(** [static_cast<int32_t>] *)
Definition int32 (z : Z) : Z := if u32 z <? 2 ^ 31 then u32 z else u32 z - 2 ^ 32.

Definition has (h : RudpHeader) (flag : Z) : bool := negb (flags h .& flag =? 0).

(** *** Control segments *)

Definition send_ctrl (s : RudpSocket) (fl : Z) : bytes :=
  encode (mkHeader (send_seq_ s) (recv_seq_ s) fl 0 kRudpWindow (replicate 8 0)) kRudpHeaderBase.

(** The loop that fills [hdr.nacks]. *)
Fixpoint buffered_run (n : nat) (buf : gmap Z bytes) (s : Z) : list Z :=
  match n with
  | O => []
  | S n => match buf !! s with Some _ => s :: buffered_run n buf (u32 (s + 1)) | None => [] end
  end.

Definition send_nack (s : RudpSocket) : bytes :=
  let listed := buffered_run (Z.to_nat kRudpMaxNacks) (recv_buf_ s) (u32 (recv_seq_ s + 1)) in
  encode (mkHeader (send_seq_ s) (recv_seq_ s) (Ack .| Nack) (zlen listed) kRudpWindow
            (listed ++ replicate (8 - length listed) 0)) kRudpHeaderMax.

(** *** Acknowledgements *)

Fixpoint pop_acked (q : list RudpSegment) (a : Z) : list RudpSegment :=
  match q with
  | [] => []
  | seg :: q' => if int32 (seq (hdr seg) - a) <? 0 then pop_acked q' a else q
  end.

Definition process_ack (s : RudpSocket) (h : RudpHeader) : RudpSocket :=
  mkSocket (send_seq_ s) (recv_seq_ s) (window h) (pop_acked (retransmit_q_ s) (ack h)) (recv_buf_ s).

(** The first segment with the listed number gets a timeout of 0. *)
Fixpoint mark_one (q : list RudpSegment) (n : Z) : list RudpSegment :=
  match q with
  | [] => []
  | seg :: q' => if seq (hdr seg) =? n then mkSegment (hdr seg) (seg_payload seg) 0 :: q' else seg :: mark_one q' n
  end.

Definition process_nack (s : RudpSocket) (h : RudpHeader) : RudpSocket :=
  mkSocket (send_seq_ s) (recv_seq_ s) (remote_window_ s)
    (foldl mark_one (retransmit_q_ s) (ztake (Z.min (nack_count h) kRudpMaxNacks) (nacks h))) (recv_buf_ s).

(** *** Sending *)

Definition make_data_segment (s : RudpSocket) (payload : bytes) : RudpSegment * RudpSocket :=
  (mkSegment (mkHeader (send_seq_ s) (recv_seq_ s) (Data .| Ack) 0 kRudpWindow (replicate 8 0)) payload 200,
   mkSocket (u32 (send_seq_ s + 1)) (recv_seq_ s) (remote_window_ s) (retransmit_q_ s) (recv_buf_ s)).

Definition frame (seg : RudpSegment) : bytes := encode (hdr seg) (kRudpHeaderMax + kRudpMtu) ++ seg_payload seg.

Section socket.

(** What [udp_.send_to] answers to a datagram. *)
Context (send_to : bytes -> result unit).

(** The datagram is sent in any case; only a segment that was sent is kept. *)
Definition transmit (s : RudpSocket) (seg : RudpSegment) : result unit * RudpSocket :=
  match send_to (frame seg) with
  | Err e => (Err e, s)
  | Ok _ => (Ok tt, mkSocket (send_seq_ s) (recv_seq_ s) (remote_window_ s) (retransmit_q_ s ++ [seg]) (recv_buf_ s))
  end.

(** How an operation ends: it returns, or it waits for a datagram that does not come. *)
Inductive outcome (A : Type) := Returned (a : A) | Waiting.
Arguments Returned {A} a.
Arguments Waiting {A}.

(** The loop [while (unacked_count() >= remote_window_) drain_acks()]: each turn reads a
    datagram into an empty buffer.  The datagrams that are left, if it ends. *)
Fixpoint wait_window (s : RudpSocket) (incoming : list bytes) : option (list bytes) :=
  if zlen (retransmit_q_ s) <? remote_window_ s then Some incoming else
  match incoming with
  | [] => None
  | _ :: incoming => wait_window s incoming
  end.

(** The outcome, the socket, the datagrams sent and those still to be read; a turn takes at
    least one byte. *)
Fixpoint send_loop (fuel : nat) (s : RudpSocket) (data : bytes) (total : Z) (incoming : list bytes) :
    outcome (result Z) * RudpSocket * list bytes * list bytes :=
  match fuel, data with
  | O, _ | _, [] => (Returned (Ok total), s, [], incoming)
  | S fuel, _ =>
      match wait_window s incoming with
      | None => (Waiting, s, [], [])
      | Some incoming =>
          let chunk := Z.min (zlen data) kRudpMtu in
          let '(seg, s) := make_data_segment s (ztake chunk data) in
          let '(r, s) := transmit s seg in
          match r with
          | Err e => (Returned (Err e), s, [frame seg], incoming)
          | Ok _ =>
              let '(o, s, sent, incoming) := send_loop fuel s (zdrop chunk data) (total + chunk) incoming in
              (o, s, frame seg :: sent, incoming)
          end
      end
  end.

Definition send (s : RudpSocket) (data : bytes) (incoming : list bytes) := send_loop (length data) s data 0 incoming.

(** *** Receiving *)

(** What [recv] does with one datagram: the bytes it returns if it returns, the socket, the
    datagrams sent. *)
Definition on_datagram (s : RudpSocket) (out_size : Z) (dgram : bytes) : option bytes * RudpSocket * list bytes :=
  match decode dgram with
  | None => (None, s, [])
  | Some (h, hlen) =>
      if zlen dgram <? hlen then (None, s, []) else
      let s := if has h Ack then process_ack s h else s in
      let s := if has h Nack then process_nack s h else s in
      if has h Fin then (Some [], s, [send_ctrl s (Fin .| Ack)]) else
      if has h Data then
        let payload := zdrop hlen dgram in
        if seq h =? recv_seq_ s then
          let s := mkSocket (send_seq_ s) (u32 (recv_seq_ s + 1)) (remote_window_ s) (retransmit_q_ s) (recv_buf_ s) in
          (Some (ztake out_size payload), s, [send_ctrl s Ack])
        else if 0 <? int32 (seq h - recv_seq_ s) then
          let s := if u32 (seq h - recv_seq_ s) <? kRudpWindow
                   then mkSocket (send_seq_ s) (recv_seq_ s) (remote_window_ s) (retransmit_q_ s) (<[seq h := payload]> (recv_buf_ s))
                   else s in
          (None, s, [send_nack s])
        else (None, s, [])
      else (None, s, [])
  end.

Fixpoint recv (s : RudpSocket) (out_size : Z) (incoming : list bytes) : outcome bytes * RudpSocket * list bytes * list bytes :=
  match recv_buf_ s !! recv_seq_ s with
  | Some payload =>
      (Returned (ztake out_size payload),
       mkSocket (send_seq_ s) (u32 (recv_seq_ s + 1)) (remote_window_ s) (retransmit_q_ s) (delete (recv_seq_ s) (recv_buf_ s)), [], incoming)
  | None =>
      match incoming with
      | [] => (Waiting, s, [], [])
      | dgram :: incoming =>
          match on_datagram s out_size (ztake (kRudpHeaderMax + kRudpMtu) dgram) with
          | (Some bs, s, sent) => (Returned bs, s, sent, incoming)
          | (None, s, sent) => let '(o, s, sent', incoming) := recv s out_size incoming in (o, s, sent ++ sent', incoming)
          end
      end
  end.

(** *** Opening a connection *)

(** [connect]: the SYN, and the socket once an answer with the ACK flag has come; the rest of
    the zeroed buffer is decoded with it. *)
Definition connect_syn : bytes := send_ctrl (new_socket 0) Syn.

Definition connect (reply : bytes) : result RudpSocket :=
  match send_to connect_syn with
  | Err e => Err e
  | Ok _ =>
      let buf := ztake (kRudpHeaderMax + kRudpMtu) (reply ++ replicate (Z.to_nat (kRudpHeaderMax + kRudpMtu)) 0) in
      match decode buf with
      | Some (h, _) => if negb (has h Ack) then Err connection_refused else Ok (mkSocket 0 0 (window h) [] ∅)
      | None => Err connection_refused
      end
  end.

(** [listen]: the socket and its answer once a SYN has come. *)
Fixpoint listen (incoming : list bytes) : outcome (RudpSocket * bytes) :=
  match incoming with
  | [] => Waiting
  | dgram :: incoming =>
      match decode (ztake (kRudpHeaderMax + kRudpMtu) dgram) with
      | None => listen incoming
      | Some (h, _) =>
          if negb (has h Syn) then listen incoming else
          let s := new_socket (u32 (seq h + 1)) in Returned (s, send_ctrl s (Syn .| Ack))
      end
  end.

End socket.

Arguments Returned {A} a.
Arguments Waiting {A}.

(** ** The wire format *)

Lemma word_le_bytes a b c d : is_byte a -> is_byte b -> is_byte c -> is_byte d ->
  (a << 24) .| (b << 16) .| (c << 8) .| d = be_val [a; b; c; d].
Proof.
  intros Ha Hb Hc Hd. rewrite <- !Z.lor_assoc. rewrite (lor_shiftl_add 8 c d) by (done || lia).
  rewrite (lor_shiftl_add 16 b) by rlia. rewrite (lor_shiftl_add 24 a) by rlia. unfold be_val. cbn [foldl].
  change (2 ^ 24) with 16777216. change (2 ^ 16) with 65536. change (2 ^ 8) with 256. lia.
Qed.

Lemma store32_be v : store32 v = be_bytes 4 v.
Proof. reflexivity. Qed.

Lemma zlen_store32 v : zlen (store32 v) = 4.
Proof. reflexivity. Qed.

Lemma load32_at pre v rest off : in_range 32 v -> off = zlen pre -> load32 (pre ++ store32 v ++ rest) off = v.
Proof.
  intros Hv ->. unfold load32.
  assert (forall k, 0 <= k < 4 -> at_ (pre ++ store32 v ++ rest) (zlen pre + k) = at_ (store32 v) k) as E.
  { intros k Hk. unfold at_, zlen. rewrite app_nth2 by lia. rewrite app_nth1 by (cbn [length store32]; lia). f_equal. lia. }
  replace (zlen pre) with (zlen pre + 0) at 1 by lia. rewrite !E by lia. pose proof (be_bytes_range 4 v) as Hb. rewrite <- store32_be in Hb.
  unfold store32 in *. split_bytes. unfold at_. cbn [Z.to_nat Pos.to_nat Pos.iter_op Init.Nat.add nth]. rewrite word_le_bytes by done.
  change (be_val (be_bytes 4 v) = v). rewrite be_val_be_bytes. by apply Z.mod_small.
Qed.

Record header_ok (h : RudpHeader) : Prop := {
  ok_seq : in_range 32 (seq h);
  ok_ack : in_range 32 (ack h);
  ok_flags : is_byte (flags h);
  ok_window : in_range 16 (window h);
  ok_nacks : exists l, nacks h = l ++ replicate (8 - length l) 0 /\ nack_count h = zlen l /\ (length l <= 8)%nat /\ Forall (in_range 32) l;
}.

Lemma load_nacks_stored l pre rest off : Forall (in_range 32) l -> off = zlen pre ->
  load_nacks (length l) (pre ++ concat (map store32 l) ++ rest) off = l.
Proof.
  intros Hl. revert pre off. induction Hl as [|v l Hv Hl IH]; intros pre off ->; [done|]. cbn [length load_nacks map concat].
  rewrite (proj2 (Z.leb_le _ _)) by (rewrite !zlen_app, zlen_store32; pose proof (zlen_nonneg (concat (map store32 l))); pose proof (zlen_nonneg rest); lia).
  rewrite <- app_assoc, load32_at by done. f_equal. rewrite (app_assoc pre). apply IH. rewrite zlen_app, zlen_store32. lia.
Qed.

Lemma zlen_stored l : zlen (concat (map store32 l)) = 4 * zlen l.
Proof. induction l as [|v l IH]; [done|]. cbn [map concat]. rewrite zlen_app, IH, zlen_store32, zlen_cons. lia. Qed.

(** A header is read back, with the bytes it takes. *)
Lemma packet_decode_encode h n rest : header_ok h -> kRudpHeaderBase <= n ->
  decode (encode h n ++ rest) = Some (h, kRudpHeaderBase + 4 * nack_count h) /\ zlen (encode h n) = kRudpHeaderBase + 4 * nack_count h.
Proof.
  intros [Hs Ha Hf Hw (l & Hn & Hc & Hl & Hr)] Hsize. unfold encode. rewrite (proj2 (Z.ltb_ge _ _)) by lia.
  assert (ztake (Z.min (nack_count h) 8) (nacks h) = l) as -> by (rewrite Hn, Hc; apply ztake_app; unfold zlen; lia).
  set (fixed := [flags h; nack_count h; (window h >> 8) .& 0xFF; window h .& 0xFF]).
  split; [|rewrite !zlen_app, zlen_stored, !zlen_store32, Hc; change (zlen fixed) with 4; lia].
  set (p := _ ++ rest). assert (p = (store32 (seq h) ++ store32 (ack h) ++ fixed) ++ concat (map store32 l) ++ rest) as E by (unfold p; by rewrite <- !app_assoc).
  unfold decode. assert (0 <= zlen (concat (map store32 l) ++ rest)) by apply zlen_nonneg.
  rewrite (proj2 (Z.ltb_ge _ _)) by (rewrite E, zlen_app, !zlen_app, !zlen_store32; change (zlen fixed) with 4; pose proof (zlen_nonneg (concat (map store32 l))); pose proof (zlen_nonneg rest); lia).
  assert (forall k, 0 <= k < 4 -> at_ p (8 + k) = at_ fixed k) as Hat.
  { intros k Hk. rewrite E. rewrite at_app_l by (rewrite !zlen_app, !zlen_store32; change (zlen fixed) with 4; lia). unfold at_. rewrite app_assoc, app_nth2 by (cbn; lia).
    f_equal. rewrite length_app. change (length (store32 (seq h))) with 4%nat. change (length (store32 (ack h))) with 4%nat. lia. }
  change 9 with (8 + 1). change 10 with (8 + 2). change 11 with (8 + 3). replace (at_ p 8) with (at_ p (8 + 0)) by done. rewrite !Hat by lia.
  change (at_ fixed 0) with (flags h). change (at_ fixed 1) with (nack_count h). change (at_ fixed 2) with ((window h >> 8) .& 0xFF).
  change (at_ fixed 3) with (window h .& 0xFF).
  assert (load32 p 0 = seq h) as -> by (apply (load32_at []); done).
  assert (load32 p 4 = ack h) as -> by (rewrite E, <- !app_assoc; apply (load32_at (store32 (seq h))); done).
  rewrite Hc. assert (Z.to_nat (Z.min (zlen l) 8) = length l) as -> by (unfold zlen; lia).
  rewrite E. rewrite load_nacks_stored; [|done|rewrite !zlen_app, !zlen_store32; reflexivity].
  f_equal. f_equal. destruct h as [sq ak fl nc wi na]. cbn [seq ack flags nack_count window nacks] in *. rewrite Hn, Hc. f_equal.
  rewrite lor_shiftl_add by (try lia; rewrite land_255; apply Z.mod_pos_bound; lia). rewrite !land_255, Z.shiftr_div_pow2 by lia.
  unfold in_range in Hw. change (2 ^ 16) with 65536 in Hw. change (2 ^ 8) with 256. Z.div_mod_to_equations. lia.
Qed.

(** ** Sequence numbers *)

Lemma u32_diff b i d : u32 (u32 (b + i) - u32 (b + d)) = u32 (i - d).
Proof. unfold wrap. rewrite Zminus_mod_idemp_l, Zminus_mod_idemp_r. f_equal. lia. Qed.

Lemma int32_diff b i d : - 2 ^ 31 < i - d < 2 ^ 31 -> int32 (u32 (b + i) - u32 (b + d)) = i - d.
Proof.
  intros H. unfold int32. rewrite u32_diff. unfold wrap. change (2 ^ 32) with 4294967296. change (2 ^ 31) with 2147483648 in *.
  destruct (decide (0 <= i - d)).
  - rewrite Z.mod_small by lia. by rewrite (proj2 (Z.ltb_lt _ _)) by lia.
  - assert ((i - d) mod 4294967296 = i - d + 4294967296) as ->.
    { rewrite <- (Z_mod_plus_full _ 1). rewrite Z.mod_small; lia. }
    rewrite (proj2 (Z.ltb_ge _ _)) by lia. lia.
Qed.

Lemma u32_inj b i d : - 2 ^ 31 < i - d < 2 ^ 31 -> u32 (b + i) = u32 (b + d) -> i = d.
Proof. intros H E. pose proof (int32_diff b i d H) as Hd. rewrite E, Z.sub_diag in Hd. change (int32 0) with 0 in Hd. lia. Qed.

Lemma u32_succ b d : u32 (u32 (b + d) + 1) = u32 (b + (d + 1)).
Proof. rewrite wrap_add_l. f_equal. lia. Qed.

(** ** Receiving a stream of segments *)

(** The application calls [recv] until it waits. *)
Fixpoint recv_all (fuel : nat) (s : RudpSocket) (out_size : Z) (incoming : list bytes) : list bytes * RudpSocket :=
  match fuel with
  | O => ([], s)
  | S fuel =>
      match recv s out_size incoming with
      | (Returned bs, s, _, incoming) => let '(got, s) := recv_all fuel s out_size incoming in (bs :: got, s)
      | (Waiting, s, _, _) => ([], s)
      end
  end.

Section transfer.

(** The numbers of a stream start at [b]; segment [i] carries [P i]. *)
Context (b a : Z) (P : Z -> bytes).
Context (Ha : in_range 32 a) (HP : forall i, zlen (P i) <= kRudpMtu).

Definition data_header (i : Z) : RudpHeader := mkHeader (u32 (b + i)) a (Data .| Ack) 0 kRudpWindow (replicate 8 0).

Definition datagram (i : Z) : bytes := frame (mkSegment (data_header i) (P i) 200).

Lemma data_header_ok i : header_ok (data_header i).
Proof.
  split; cbn [seq ack flags window nacks nack_count data_header]; [by apply wrap_range|done|by vm_compute|by vm_compute|].
  exists []. split_and!; [done|done|cbn; lia|constructor].
Qed.

Lemma datagram_decode i : decode (datagram i) = Some (data_header i, 12) /\ zdrop 12 (datagram i) = P i /\ ztake (kRudpHeaderMax + kRudpMtu) (datagram i) = datagram i /\ 12 <= zlen (datagram i).
Proof.
  unfold datagram, frame. cbn [hdr seg_payload]. destruct (packet_decode_encode (data_header i) (kRudpHeaderMax + kRudpMtu) (P i) (data_header_ok i)) as [E Hl]; [lia|].
  change (12 + 4 * nack_count (data_header i)) with 12 in *. rewrite E. pose proof (HP i). pose proof (zlen_nonneg (P i)). split_and!.
  - done.
  - by apply zdrop_app.
  - apply ztake_all. rewrite zlen_app. lia.
  - rewrite zlen_app. lia.
Qed.

Lemma datagram_inj i j : - 2 ^ 31 < i - j < 2 ^ 31 -> datagram i = datagram j -> i = j.
Proof.
  intros Hij E. destruct (datagram_decode i) as [Ei _]. destruct (datagram_decode j) as [Ej _]. rewrite E, Ej in Ei.
  apply (u32_inj b); [done|]. by inversion Ei.
Qed.

(** [d] segments have been returned and those of [B] wait. *)
Record receiving (d : Z) (B : gset Z) (s : RudpSocket) : Prop := {
  rec_seq : recv_seq_ s = u32 (b + d);
  rec_range i : i ∈ B -> d <= i < d + kRudpWindow;
  rec_buf k p : recv_buf_ s !! k = Some p <-> exists i, i ∈ B /\ k = u32 (b + i) /\ p = P i;
}.

Lemma receiving_next d B s : receiving d B s ->
  recv_buf_ s !! recv_seq_ s = if decide (d ∈ B) then Some (P d) else None.
Proof.
  intros [Hs Hr Hb]. destruct (decide (d ∈ B)) as [Hd|Hd]; [apply Hb; exists d; by rewrite Hs|].
  destruct (recv_buf_ s !! recv_seq_ s) as [p|] eqn:E; [|done]. apply Hb in E as (i & Hi & Ek & _). rewrite Hs in Ek.
  pose proof (Hr i Hi). apply u32_inj in Ek; [by subst|]. change (2 ^ 31) with 2147483648. lia.
Qed.

(** A segment from the buffer. *)
Lemma receiving_pop d B s : receiving d B s -> d ∈ B ->
  receiving (d + 1) (B ∖ {[d]}) (mkSocket (send_seq_ s) (u32 (recv_seq_ s + 1)) (remote_window_ s) (retransmit_q_ s) (delete (recv_seq_ s) (recv_buf_ s))).
Proof.
  intros [Hs Hr Hb] Hd. split; cbn [recv_seq_ recv_buf_].
  - rewrite Hs. apply u32_succ.
  - intros i [Hi Hne%not_elem_of_singleton]%elem_of_difference. pose proof (Hr i Hi). lia.
  - intros k p. rewrite lookup_delete_Some, Hb, Hs. split.
    + intros (Hk & i & Hi & -> & ->). exists i. split; [|done]. apply elem_of_difference. split; [done|]. intros ->%elem_of_singleton. done.
    + intros (i & [Hi Hne%not_elem_of_singleton]%elem_of_difference & -> & ->). split; [|by exists i]. intros E. symmetry in E. apply u32_inj in E; [done|].
      pose proof (Hr i Hi). change (2 ^ 31) with 2147483648. lia.
Qed.

Lemma receiving_ext d B s s' : recv_seq_ s' = recv_seq_ s -> recv_buf_ s' = recv_buf_ s -> receiving d B s -> receiving d B s'.
Proof. intros E1 E2 [Hs Hr Hb]. split; [by rewrite E1|done|by rewrite E2]. Qed.

Lemma receiving_in_order d B s s' : recv_seq_ s' = u32 (recv_seq_ s + 1) -> recv_buf_ s' = recv_buf_ s -> d ∉ B -> receiving d B s -> receiving (d + 1) B s'.
Proof.
  intros E1 E2 Hd [Hs Hr Hb]. split; [by rewrite E1, Hs, u32_succ| |by rewrite E2].
  intros i Hi. pose proof (Hr i Hi). assert (i <> d) by (by intros ->). lia.
Qed.

Lemma receiving_buffer d B s s' i : recv_seq_ s' = recv_seq_ s -> recv_buf_ s' = <[u32 (b + i) := P i]> (recv_buf_ s) -> d < i < d + kRudpWindow ->
  receiving d B s -> receiving d ({[i]} ∪ B) s'.
Proof.
  intros E1 E2 Hi [Hs Hr Hb]. split; [by rewrite E1| |].
  - intros j [->%elem_of_singleton|Hj]%elem_of_union; [lia|by apply Hr].
  - intros k p. rewrite E2. destruct (decide (k = u32 (b + i))) as [->|Hk].
    + rewrite lookup_insert_eq. split.
      * intros [= <-]. exists i. split; [set_solver|done].
      * intros (j & Hj & Ej & ->). do 2 f_equal. apply (u32_inj b); [|done]. apply elem_of_union in Hj as [->%elem_of_singleton|Hj]; [lia|].
        pose proof (Hr j Hj). change (2 ^ 31) with 2147483648. lia.
    + rewrite lookup_insert_ne, Hb by done. apply exist_proper. intros j. split; [set_solver|]. intros (Hj & -> & ->). split; [|done].
      apply elem_of_union in Hj as [->%elem_of_singleton|Hj]; done.
Qed.

(** What a segment does to the receiver. *)
Lemma on_segment d B s i out : receiving d B s -> d ∉ B -> - 2 ^ 31 < i - d < 2 ^ 31 -> kRudpMtu <= out ->
  let '(r, s', _) := on_datagram s out (datagram i) in
  if decide (i = d) then r = Some (P d) /\ receiving (d + 1) B s'
  else r = None /\ receiving d (if decide (d < i < d + kRudpWindow) then {[i]} ∪ B else B) s'.
Proof.
  intros Hrec Hd Hi Ho. unfold on_datagram. destruct (datagram_decode i) as (-> & -> & _ & Hl). rewrite (proj2 (Z.ltb_ge _ _)) by lia.
  change (has (data_header i) Ack) with true. change (has (data_header i) Nack) with false. change (has (data_header i) Fin) with false.
  change (has (data_header i) Data) with true. cbn iota zeta. set (s1 := process_ack s (data_header i)).
  assert (receiving d B s1) as Hrec1 by by apply (receiving_ext d B s). assert (recv_seq_ s1 = u32 (b + d)) as Hs1 by apply Hrec1.
  change (seq (data_header i)) with (u32 (b + i)). rewrite Hs1. destruct (decide (i = d)) as [->|Hne].
  - rewrite Z.eqb_refl. split; [by rewrite ztake_all by (pose proof (HP d); lia)|]. apply (receiving_in_order d B s1); try done. cbn [recv_seq_]. by rewrite Hs1.
  - rewrite (proj2 (Z.eqb_neq _ _)) by (intros E; by apply u32_inj in E). rewrite int32_diff by done. destruct (Z.ltb_spec 0 (i - d)) as [Hgt|Hle].
    + rewrite u32_diff. rewrite (wrap_small 32) by (unfold in_range; change (2 ^ 32) with 4294967296; change (2 ^ 31) with 2147483648 in *; lia).
      destruct (Z.ltb_spec (i - d) kRudpWindow).
      * rewrite decide_True by lia. split; [done|]. by apply (receiving_buffer d B s1); [| |lia|].
      * rewrite decide_False by lia. done.
    + rewrite decide_False by lia. done.
Qed.

(** Up to a window of segments: those of [A] have arrived. *)
Record collected (n d : Z) (A : gset Z) (s : RudpSocket) : Prop := {
  col_bound : 0 <= d <= n;
  col_rec : receiving d (filter (fun i => d <= i) A) s;
  col_range i : i ∈ A -> 0 <= i < n;
  col_done i : 0 <= i < d -> i ∈ A;
}.

Lemma collected_arrival n d A s i out : n <= kRudpWindow -> kRudpMtu <= out -> collected n d A s -> d ∉ A -> 0 <= i < n ->
  let '(r, s', _) := on_datagram s out (datagram i) in
  if decide (i = d) then r = Some (P d) /\ collected n (d + 1) ({[i]} ∪ A) s' else r = None /\ collected n d ({[i]} ∪ A) s'.
Proof.
  intros Hn Ho [Hb Hrec Hr Hd] HdA Hi. pose proof (on_segment d _ s i out Hrec) as H. destruct (on_datagram s out (datagram i)) as [[r s'] sent].
  specialize (H ltac:(set_solver) ltac:(change (2 ^ 31) with 2147483648; lia) Ho). destruct (decide (i = d)) as [->|Hne]; destruct H as [-> H].
  - split; [done|]. split; [lia| |set_solver|].
    + replace (filter (fun i => d + 1 <= i) ({[d]} ∪ A)) with (filter (fun i => d <= i) A); [done|]. apply set_eq. intros j.
      rewrite !elem_of_filter, elem_of_union, elem_of_singleton. split; [|intros [? [->|?]]; [lia|split; [lia|done]]].
      intros [Hj HjA]. assert (j <> d) by (by intros ->). split; [lia|by right].
    + intros j Hj. destruct (decide (j = d)); [set_solver|]. apply elem_of_union. right. apply Hd. lia.
  - split; [done|]. split; [lia| |set_solver|set_solver]. destruct (decide (d < i < d + kRudpWindow)) as [Hw|Hw].
    + replace (filter (fun i => d <= i) ({[i]} ∪ A)) with ({[i]} ∪ filter (fun i => d <= i) A); [done|]. apply set_eq. intros j.
      rewrite elem_of_union, !elem_of_filter, elem_of_union, elem_of_singleton. split; [|tauto]. intros [->|]; [split; [lia|by left]|tauto].
    + replace ({[i]} ∪ A) with A; [done|]. assert (i ∈ A) by (apply Hd; lia). set_solver.
Qed.

Lemma collected_pop n d A s : n <= kRudpWindow -> collected n d A s -> d ∈ A ->
  collected n (d + 1) A (mkSocket (send_seq_ s) (u32 (recv_seq_ s + 1)) (remote_window_ s) (retransmit_q_ s) (delete (recv_seq_ s) (recv_buf_ s))).
Proof.
  intros Hn [Hb Hrec Hr Hd] HdA. pose proof (Hr d HdA). split; [lia| |done|].
  - replace (filter (fun i => d + 1 <= i) A) with (filter (fun i => d <= i) A ∖ {[d]}); [apply receiving_pop; [done|by apply elem_of_filter]|].
    apply set_eq. intros j. rewrite elem_of_difference, !elem_of_filter, elem_of_singleton. split; [intros [[? ?] ?]; split; [lia|done]|].
    intros [? ?]. split; [split; [lia|done]|lia].
  - intros j Hj. destruct (decide (j = d)) as [->|]; [done|]. apply Hd. lia.
Qed.

Lemma arrived_cons (A : gset Z) i js : {[i]} ∪ A ∪ list_to_set js = A ∪ list_to_set (i :: js).
Proof. cbn. by rewrite (assoc_L (∪)), (comm_L (∪) A {[i]}). Qed.

(** A call returns the next segment as soon as it has arrived. *)
Lemma recv_collect n d A s js out : n <= kRudpWindow -> kRudpMtu <= out -> collected n d A s -> Forall (fun i => 0 <= i < n) js ->
  exists o s' sent rest A', recv s out (map datagram js) = (o, s', sent, map datagram rest) /\ Forall (fun i => 0 <= i < n) rest /\
    A' ∪ list_to_set rest = A ∪ list_to_set js /\
    (o = Returned (P d) /\ collected n (d + 1) A' s' \/ o = Waiting /\ rest = [] /\ collected n d A' s' /\ d ∉ A').
Proof.
  intros Hn Ho. revert A s. induction js as [|i js IH]; intros A s Hc His; pose proof (receiving_next _ _ _ (col_rec _ _ _ _ Hc)) as Hbuf.
  - destruct (decide (d ∈ A)) as [HdA|HdA].
    + rewrite decide_True in Hbuf by by apply elem_of_filter. cbn [map recv]. rewrite Hbuf. do 3 eexists. exists [], A. split; [reflexivity|]. split; [done|]. split; [done|].
      left. split; [by rewrite ztake_all by (pose proof (HP d); lia)|by apply collected_pop].
    + rewrite decide_False in Hbuf by set_solver. cbn [map recv]. rewrite Hbuf. do 3 eexists. exists [], A. split; [reflexivity|]. split; [done|]. split; [done|]. by right.
  - apply Forall_cons in His as [Hi His]. destruct (decide (d ∈ A)) as [HdA|HdA].
    + rewrite decide_True in Hbuf by by apply elem_of_filter. cbn [map recv]. rewrite Hbuf. do 3 eexists. exists (i :: js), A. split; [reflexivity|]. split; [by constructor|]. split; [done|].
      left. split; [by rewrite ztake_all by (pose proof (HP d); lia)|by apply collected_pop].
    + rewrite decide_False in Hbuf by set_solver. cbn [map recv]. rewrite Hbuf. destruct (datagram_decode i) as (_ & _ & -> & _).
      pose proof (collected_arrival n d A s i out Hn Ho Hc HdA Hi) as H. destruct (on_datagram s out (datagram i)) as [[r s1] sent1].
      destruct (decide (i = d)) as [->|Hne]; destruct H as [-> H].
      * do 3 eexists. exists js, ({[d]} ∪ A). split; [reflexivity|]. split; [done|]. split; [by rewrite arrived_cons|]. by left.
      * destruct (IH _ _ H His) as (o & s' & sent & rest & A' & -> & Hrest & HA & Hor). do 3 eexists. exists rest, A'. split; [reflexivity|].
        split; [done|]. split; [by rewrite HA, arrived_cons|done].
Qed.

Lemma recv_all_collect n fuel d A s js out : n <= kRudpWindow -> kRudpMtu <= out -> collected n d A s -> Forall (fun i => 0 <= i < n) js -> n - d < Z.of_nat fuel ->
  exists d' s', recv_all fuel s out (map datagram js) = (map P (seqZ d (d' - d)), s') /\ d <= d' <= n /\ (d' ∉ A ∪ list_to_set js) /\
    forall j, 0 <= j < d' -> j ∈ A ∪ list_to_set js.
Proof.
  intros Hn Ho. revert d A s js. induction fuel as [|fuel IH]; intros d A s js Hc Hj Hf; [destruct Hc; lia|]. cbn [recv_all].
  destruct (recv_collect n d A s js out Hn Ho Hc Hj) as (o & s1 & sent & rest & A1 & -> & Hrest & HA & [[-> Hc1]|(-> & -> & Hc1 & HdA)]).
  - destruct (IH (d + 1) A1 s1 rest Hc1 Hrest ltac:(lia)) as (d' & s' & -> & Hd' & Hnot & Hall). rewrite HA in Hnot, Hall.
    exists d', s'. split_and!; [|lia|lia|done|done]. rewrite (seqZ_cons d) by lia. cbn [map]. do 4 f_equal; lia.
  - rewrite <- HA. cbn [list_to_set]. rewrite union_empty_r_L. exists d, s1. destruct Hc1 as [Hb _ _ Hd]. split_and!; [|lia|lia|done|done].
    by rewrite Z.sub_diag.
Qed.
End transfer.

(** ** Sending a message *)

Definition chunks (n : Z) : Z := (n + 1399) / kRudpMtu.

Definition chunk_of (data : bytes) (i : Z) : bytes := ztake kRudpMtu (zdrop (kRudpMtu * i) data).

Lemma chunk_shift data i : 0 <= i -> chunk_of (zdrop kRudpMtu data) i = chunk_of data (i + 1).
Proof. intros Hi. unfold chunk_of. rewrite zdrop_zdrop by lia. f_equal. f_equal. lia. Qed.

Lemma concat_chunks data n : 0 <= n -> concat (map (chunk_of data) (seqZ 0 n)) = ztake (kRudpMtu * n) data.
Proof.
  intros Hn. pattern n. apply natlike_ind; [done| |done]. clear n Hn. intros n Hn IH. unfold Z.succ. rewrite (seqZ_app 0 n 1) by lia.
  rewrite map_app, concat_app, IH. cbn [seqZ map concat]. unfold chunk_of, ztake, zdrop.
  replace (seqZ (0 + n) 1) with [n] by done. cbn [map concat]. rewrite app_nil_r.
  replace (Z.to_nat (kRudpMtu * (n + 1))) with (Z.to_nat (kRudpMtu * n) + Z.to_nat kRudpMtu)%nat by lia. by rewrite take_take_drop.
Qed.

Lemma wait_window_open s incoming : zlen (retransmit_q_ s) < remote_window_ s -> wait_window s incoming = Some incoming.
Proof. intros H. destruct incoming; cbn [wait_window]; by rewrite (proj2 (Z.ltb_lt _ _)) by lia. Qed.

Lemma datagram_shift b a data i : 0 <= i -> datagram (u32 (b + 1)) a (chunk_of (zdrop kRudpMtu data)) i = datagram b a (chunk_of data) (1 + i).
Proof.
  intros Hi. unfold datagram, data_header. rewrite wrap_add_l, chunk_shift by done. replace (b + 1 + i) with (b + (1 + i)) by lia.
  by replace (i + 1) with (1 + i) by lia.
Qed.

Lemma chunks_step n : 0 < n -> chunks n = 1 + chunks (Z.max 0 (n - kRudpMtu)).
Proof. intros Hn. unfold chunks. Z.div_mod_to_equations. lia. Qed.

Lemma zlen_zdrop_max {A} n (l : list A) : 0 <= n -> zlen (zdrop n l) = Z.max 0 (zlen l - n).
Proof. intros Hn. unfold zlen, zdrop. rewrite length_drop. lia. Qed.

Section sending.
Context (send_to : bytes -> result unit) (Hok : forall d, send_to d = Ok tt).

Lemma send_loop_chunks fuel s data total incoming : in_range 32 (send_seq_ s) -> zlen data <= Z.of_nat fuel ->
  zlen (retransmit_q_ s) + chunks (zlen data) <= remote_window_ s ->
  exists s', send_loop send_to fuel s data total incoming =
    (Returned (Ok (total + zlen data)), s', map (datagram (send_seq_ s) (recv_seq_ s) (chunk_of data)) (seqZ 0 (chunks (zlen data))), incoming) /\
    zlen (retransmit_q_ s') = zlen (retransmit_q_ s) + chunks (zlen data).
Proof.
  revert s data total. induction fuel as [|fuel IH]; intros s data total Hs Hf Hw.
  - pose proof (zlen_nonneg data). assert (data = []) as -> by (apply zlen_0; lia). exists s. split; [cbn [send_loop]; by rewrite Z.add_0_r|]. change (chunks (zlen (@nil Z))) with 0. lia.
  - destruct data as [|c data']; [exists s; split; [cbn [send_loop]; by rewrite Z.add_0_r|change (chunks (zlen (@nil Z))) with 0; lia]|]. cbn [send_loop].
    set (data := c :: data') in *. assert (0 < zlen data) as Hpos by (unfold data; zlia). rewrite chunks_step in Hw by done.
    set (l := zdrop (Z.min (zlen data) kRudpMtu) data). assert (l = zdrop kRudpMtu data) as El.
    { unfold l. destruct (Z.min_spec (zlen data) kRudpMtu) as [[? ->]|[? ->]]; [|done]. by rewrite !zdrop_all by lia. }
    assert (zlen l = Z.max 0 (zlen data - kRudpMtu)) as Hl by (rewrite El; by apply zlen_zdrop_max).
    assert (0 <= chunks (zlen l)) as Hc by (pose proof (zlen_nonneg l); unfold chunks; Z.div_mod_to_equations; lia).
    rewrite wait_window_open by (rewrite Hl in Hc; lia). cbn [make_data_segment]. unfold transmit. rewrite Hok. cbn iota.
    set (seg := mkSegment _ _ _). set (s1 := mkSocket _ _ _ _ _).
    destruct (IH s1 l (total + Z.min (zlen data) kRudpMtu)) as (s' & E & Hq).
    { by apply wrap_range. } { rewrite Hl. lia. } { unfold s1. cbn [retransmit_q_ remote_window_]. rewrite zlen_app, Hl. change (zlen [seg]) with 1. lia. }
    exists s'. rewrite E. split.
    2: { rewrite Hq, (chunks_step (zlen data)), Hl by done. unfold s1. cbn [retransmit_q_]. rewrite zlen_app. change (zlen [seg]) with 1. lia. }
    rewrite (chunks_step (zlen data)), <- Hl by done. rewrite (seqZ_cons 0 (1 + chunks (zlen l))) by lia. cbn [map].
    replace (Z.pred (1 + chunks (zlen l))) with (chunks (zlen l)) by lia. rewrite <- (fmap_add_seqZ 1 0).
    assert (frame seg = datagram (send_seq_ s) (recv_seq_ s) (chunk_of data) 0) as <-.
    { unfold datagram, data_header, seg. rewrite Z.add_0_r, wrap_small by done. do 2 f_equal. unfold chunk_of. change (kRudpMtu * 0) with 0. rewrite zdrop_0.
      destruct (Z.min_spec (zlen data) kRudpMtu) as [[? ->]|[? ->]]; [|done]. by rewrite !ztake_all by lia. }
    assert (map (datagram (send_seq_ s1) (recv_seq_ s1) (chunk_of l)) (seqZ 0 (chunks (zlen l))) =
            map (datagram (send_seq_ s) (recv_seq_ s) (chunk_of data)) (Z.add 1 <$> seqZ 0 (chunks (zlen l)))) as <-.
    { rewrite El at 1. unfold fmap. rewrite map_map. apply map_ext_in. intros i Hi. apply list_elem_of_In, elem_of_seqZ in Hi. apply datagram_shift. lia. }
    replace (total + Z.min (zlen data) kRudpMtu + zlen l) with (total + zlen data) by lia. done.
Qed.
End sending.

Lemma zlen_chunk_of data i : zlen (chunk_of data i) <= kRudpMtu.
Proof. unfold chunk_of, ztake, zlen. rewrite length_take. lia. Qed.

Lemma datagrams_of {A} (f : Z -> A) n xs : Forall (fun x => x ∈ map f (seqZ 0 n)) xs -> exists js, xs = map f js /\ Forall (fun i => 0 <= i < n) js.
Proof.
  induction 1 as [|x xs Hx _ (js & -> & Hj)]; [by exists []|]. apply list_elem_of_fmap in Hx as (i & -> & Hi). apply elem_of_seqZ in Hi.
  exists (i :: js). split; [done|]. constructor; [lia|done].
Qed.

(** C26.  A message that fits the window is handed to the network as its pieces of at most
    1400 bytes, and [send] returns its length.  Whatever the network does with these
    datagrams (it may lose, repeat and reorder them), the pieces the peer's calls of [recv]
    return are the first [d] ones, each once and in order, where [d] is at least [k] as soon
    as the first [k] datagrams have arrived; all of the message arrives if all of them do.

    This is for two sockets whose numbers agree: the receiver expects the number the sender
    sends next and holds nothing in its reordering buffer.  A listener and the client it
    accepted are such a pair for what the listener sends ([listener_agrees]); for what the
    client sends they are not, and its first message is lost ([first_message_lost]).  The
    system's sends succeed, and the application's buffer takes a whole piece. *)
Theorem rudp_transfer send_to s r data out arrivals :
  (forall d, send_to d = Ok tt) -> in_range 32 (send_seq_ s) -> in_range 32 (recv_seq_ s) ->
  zlen (retransmit_q_ s) + chunks (zlen data) <= Z.min kRudpWindow (remote_window_ s) ->
  recv_seq_ r = send_seq_ s -> recv_buf_ r = ∅ -> kRudpMtu <= out ->
  exists s' sent, send send_to s data [] = (Returned (Ok (zlen data)), s', sent, []) /\
    (Forall (fun x => x ∈ sent) arrivals ->
      exists d, concat (fst (recv_all (S (length sent)) r out arrivals)) = ztake (kRudpMtu * d) data /\
        (forall k, Forall (fun x => x ∈ arrivals) (ztake k sent) -> Z.min k (zlen sent) <= d) /\
        (Forall (fun x => x ∈ arrivals) sent -> concat (fst (recv_all (S (length sent)) r out arrivals)) = data)).
Proof.
  intros Hok Hs Hr Hw Er Eb Hout. destruct (send_loop_chunks send_to Hok (length data) s data 0 []) as (s' & E & Hq); [done|done|lia|].
  set (n := chunks (zlen data)) in *. set (dg := datagram (send_seq_ s) (recv_seq_ s) (chunk_of data)) in *.
  assert (0 <= n <= kRudpWindow) as Hn by (pose proof (zlen_nonneg data); pose proof (zlen_nonneg (retransmit_q_ s)); split; [unfold n, chunks; Z.div_mod_to_equations|]; lia).
  exists s', (map dg (seqZ 0 n)). split; [exact E|]. intros Harr. destruct (datagrams_of _ _ _ Harr) as (js & -> & Hjs).
  rewrite length_map, length_seqZ.
  assert (collected (send_seq_ s) (chunk_of data) n 0 ∅ r) as Hc.
  { split; [lia| |set_solver|lia]. split; [by rewrite Z.add_0_r, wrap_small|set_solver|]. intros k p. rewrite Eb, lookup_empty. split; [done|]. intros (i & Hi & _). set_solver. }
  destruct (recv_all_collect (send_seq_ s) (recv_seq_ s) (chunk_of data) Hr (zlen_chunk_of data) n (S (Z.to_nat n)) 0 ∅ r js out) as (d & r' & Egot & Hd & Hnot & Hall); [lia|done|done|done|lia|].
  fold dg in Egot. rewrite Egot. cbn [fst]. rewrite Z.sub_0_r, concat_chunks by lia. rewrite union_empty_l_L in Hnot, Hall.
  assert (forall k, Forall (fun x => x ∈ map dg js) (ztake k (map dg (seqZ 0 n))) -> Z.min k n <= d) as Hk.
  { intros k HF. destruct (decide (Z.min k n <= d)) as [|Hlt]; [done|]. destruct Hnot. rewrite Forall_forall in HF.
    assert (dg d ∈ map dg js) as Hin.
    { apply HF. unfold ztake. rewrite <- fmap_take. apply list_elem_of_fmap. exists d. split; [done|]. apply list_elem_of_lookup. exists (Z.to_nat d).
      rewrite lookup_take_lt by lia. apply lookup_seqZ. lia. }
    apply list_elem_of_fmap in Hin as (j & Ej & Hj). rewrite Forall_forall in Hjs. pose proof (Hjs j Hj).
    apply datagram_inj in Ej; [subst j; by apply elem_of_list_to_set|done|apply zlen_chunk_of|change (2 ^ 31) with 2147483648; lia]. }
  exists d. split; [done|]. split.
  - intros k HF. unfold zlen. rewrite length_map, length_seqZ. specialize (Hk k HF). lia.
  - intros HF. specialize (Hk n). rewrite ztake_all in Hk by (unfold zlen; rewrite length_map, length_seqZ; lia). specialize (Hk HF).
    apply ztake_all. unfold n, chunks in *. Z.div_mod_to_equations. lia.
Qed.

(** ** The reordering buffer against any peer *)

Record bounded (s : RudpSocket) : Prop := {
  bnd_seq : in_range 32 (recv_seq_ s);
  bnd_keys k : is_Some (recv_buf_ s !! k) -> in_range 32 k /\ u32 (k - recv_seq_ s) < kRudpWindow;
}.

Lemma load32_range p off : all_bytes p -> in_range 32 (load32 p off).
Proof.
  intros Hp. unfold load32. rewrite word_le_bytes by (apply at_range; [lia|done]).
  assert (all_bytes [at_ p off; at_ p (off + 1); at_ p (off + 2); at_ p (off + 3)]) as Hb by (repeat (apply Forall_cons; split; [apply at_range; [lia|done]|]); constructor).
  apply be_val_range in Hb. exact Hb.
Qed.

Lemma decode_seq_range p h n : all_bytes p -> decode p = Some (h, n) -> in_range 32 (seq h).
Proof. intros Hp. unfold decode. destruct (_ <? _); [done|]. intros [= <- _]. by apply load32_range. Qed.

Lemma bounded_ext s s' : recv_seq_ s' = recv_seq_ s -> recv_buf_ s' = recv_buf_ s -> bounded s -> bounded s'.
Proof. intros E1 E2 [Hs Hk]. split; [by rewrite E1|]. by rewrite E2, E1. Qed.

(** The window moves on by one number that is not waited for any more. *)
Lemma bounded_next s s' : recv_seq_ s' = u32 (recv_seq_ s + 1) -> (forall k, recv_buf_ s' !! k = if decide (k = recv_seq_ s) then None else recv_buf_ s !! k) ->
  bounded s -> bounded s'.
Proof.
  intros E1 E2 [Hs Hk]. split; [rewrite E1; by apply wrap_range|]. intros k. rewrite E2, E1. destruct (decide (k = recv_seq_ s)) as [|Hne]; [by intros [? ?]|].
  intros H. apply Hk in H as [Hr Hw]. split; [done|]. unfold wrap, in_range in *. rewrite Zminus_mod_idemp_r. change (2 ^ 32) with 4294967296 in *.
  Z.div_mod_to_equations. lia.
Qed.

Lemma on_datagram_bounded s out p : bounded s -> recv_buf_ s !! recv_seq_ s = None -> all_bytes p -> let '(_, s', _) := on_datagram s out p in bounded s'.
Proof.
  intros Hb Hnone Hp. unfold on_datagram. destruct (decode p) as [[h hlen]|] eqn:E; [|done]. destruct (_ <? hlen); [done|].
  pose proof (decode_seq_range p h hlen Hp E) as Hh. cbn zeta.
  set (s1 := if has h Nack then _ else _). assert (bounded s1 /\ recv_buf_ s1 !! recv_seq_ s1 = None) as [Hb1 Hn1].
  { unfold s1. destruct (has h Ack), (has h Nack); (split; [by apply (bounded_ext s)|done]). }
  clearbody s1. destruct (has h Fin); [done|]. destruct (has h Data); [|done]. destruct (Z.eqb_spec (seq h) (recv_seq_ s1)).
  - apply (bounded_next s1); [done| |done]. intros k. cbn [recv_buf_]. destruct (decide (k = recv_seq_ s1)) as [->|]; done.
  - destruct (_ <? _); [|done]. destruct (Z.ltb_spec (u32 (seq h - recv_seq_ s1)) kRudpWindow); [|done].
    split; [apply Hb1|]. cbn [recv_buf_ recv_seq_]. intros k. destruct (decide (k = seq h)) as [->|Hk]; [done|].
    rewrite lookup_insert_ne by done. apply Hb1.
Qed.

Lemma recv_bounded s out incoming : bounded s -> Forall all_bytes incoming -> let '(_, s', _, rest) := recv s out incoming in bounded s' /\ Forall all_bytes rest.
Proof.
  revert s. induction incoming as [|p incoming IH]; intros s Hb Hi; cbn [recv]; destruct (recv_buf_ s !! recv_seq_ s) eqn:E.
  1,3: split; [|done]; apply (bounded_next s); [done| |done]; intros k; cbn [recv_buf_]; destruct (decide (k = recv_seq_ s)) as [->|];
    [apply lookup_delete_eq|by rewrite lookup_delete_ne].
  - done.
  - apply Forall_cons in Hi as [Hp Hi]. pose proof (on_datagram_bounded s out (ztake (kRudpHeaderMax + kRudpMtu) p) Hb E) as H.
    destruct (on_datagram s out _) as [[[bs|] s1] sent]; specialize (H (Forall_ztake _ _ _ Hp)); [done|].
    specialize (IH s1 H Hi). destruct (recv s1 out incoming) as [[[o s2] sent2] rest]. done.
Qed.

Lemma bounded_size s : bounded s -> (size (recv_buf_ s) <= 128)%nat.
Proof.
  intros [Hs Hk]. rewrite <- size_dom. transitivity (size (list_to_set (map (fun i => u32 (recv_seq_ s + i)) (seqZ 0 kRudpWindow)) : gset Z)).
  - apply subseteq_size. intros k Hd. apply elem_of_dom in Hd. apply Hk in Hd as [Hr Hw]. apply elem_of_list_to_set, list_elem_of_fmap.
    exists (u32 (k - recv_seq_ s)). split; [|apply elem_of_seqZ; unfold wrap in *; pose proof (Z.mod_pos_bound (k - recv_seq_ s) (2 ^ 32)); lia].
    rewrite wrap_add_r. replace (recv_seq_ s + (k - recv_seq_ s)) with k by lia. by rewrite wrap_small.
  - rewrite size_list_to_set; [by rewrite length_map, length_seqZ|]. apply NoDup_fmap_2_strong; [|apply NoDup_seqZ].
    intros i j Hi%elem_of_seqZ Hj%elem_of_seqZ. apply u32_inj. change (2 ^ 31) with 2147483648. lia.
Qed.

(** Against any peer, whatever bytes its datagrams hold, and however often the
    application calls [recv], the reordering buffer of a socket never holds more than 128
    segments, all of them within the window. *)
Theorem rudp_buffer_bounded start out fuel incoming : in_range 32 start -> Forall all_bytes incoming ->
  let s := snd (recv_all fuel (new_socket start) out incoming) in
  (size (recv_buf_ s) <= 128)%nat /\ forall k, is_Some (recv_buf_ s !! k) -> u32 (k - recv_seq_ s) < kRudpWindow.
Proof.
  intros Hs. assert (bounded (new_socket start)) as Hb by (split; [done|]; cbn; intros k [? [=]]). revert incoming Hb. generalize (new_socket start).
  induction fuel as [|fuel IH]; intros s incoming Hb Hi; cbn [recv_all].
  - split; [by apply bounded_size|]. intros k Hk. by apply Hb.
  - pose proof (recv_bounded s out incoming Hb Hi) as H. destruct (recv s out incoming) as [[[[bs|] s1] sent] rest]; destruct H as [Hb1 Hr].
    + specialize (IH s1 rest Hb1 Hr). by destruct (recv_all fuel s1 out rest).
    + split; [by apply bounded_size|]. intros k Hk. by apply Hb1.
Qed.

(** ** What does not work *)

(** A full window is never left: the loop that waits for acknowledgements reads datagrams
    into an empty buffer and does not look at them. *)
Theorem full_window_blocks send_to s data incoming : remote_window_ s <= zlen (retransmit_q_ s) -> data <> [] ->
  send send_to s data incoming = (Waiting, s, [], []).
Proof.
  intros Hw Hd. unfold send. destruct data as [|c data]; [done|]. cbn [length send_loop].
  assert (wait_window s incoming = None) as ->; [|done]. induction incoming as [|p incoming IH]; cbn [wait_window]; by rewrite (proj2 (Z.ltb_ge _ _)).
Qed.

(** The listener expects number 1 first; the client, whose SYN had number 0, sends its first
    segment with number 0, which the listener discards as old. *)
Theorem first_message_lost :
  let ok := fun _ : bytes => Ok tt in
  match listen [connect_syn] with
  | Returned (server, reply) =>
      match connect ok reply with
      | Ok client =>
          let '(_, _, sent, _) := send ok client (chars "hello") [] in
          zlen sent = 1 /\ recv server 1500 sent = (Waiting, server, [], []) /\ recv_seq_ server = 1
      | Err _ => False
      end
  | Waiting => False
  end.
Proof. vm_compute. split_and!; reflexivity. Qed.

(** In the other direction the numbers agree. *)
Theorem listener_agrees :
  match listen [connect_syn] with
  | Returned (server, reply) =>
      match connect (fun _ => Ok tt) reply with
      | Ok client => recv_seq_ client = send_seq_ server /\ recv_buf_ client = ∅ /\ retransmit_q_ server = [] /\ remote_window_ server = kRudpWindow
      | Err _ => False
      end
  | Waiting => False
  end.
Proof. vm_compute. split_and!; reflexivity. Qed.

(** The NACK of a receiver that waits for segment 0 and holds segments 1 and 2 lists 1 and 2. *)
Theorem nack_lists_received :
  let dg i := datagram 0 0 (fun _ => chars "x") i in
  let '(_, s, sent, _) := recv (new_socket 0) 1500 [dg 1; dg 2] in
  recv_seq_ s = 0 /\ match sent with
  | [_; nack] => exists h n, decode nack = Some (h, n) /\ has h Nack = true /\ ztake (nack_count h) (nacks h) = [1; 2]
  | _ => False
  end.
Proof. vm_compute. split; [reflexivity|]. eexists _, _. split_and!; reflexivity. Qed.

(** ** Witnesses *)

Lemma rudp_transfer_witness :
  let s := mkSocket (2 ^ 32 - 1) 7 kRudpWindow [] ∅ in
  let r := new_socket (2 ^ 32 - 1) in
  let data := replicate 1500 65 in
  exists s' p q, send (fun _ => Ok tt) s data [] = (Returned (Ok 1500), s', [p; q], []) /\
    concat (fst (recv_all 3 r 1500 [q; q; p])) = data /\ concat (fst (recv_all 3 r 1500 [q])) = [].
Proof.
  cbn zeta. set (s := mkSocket _ _ _ _ _). set (data := replicate 1500 65). set (p := datagram (2 ^ 32 - 1) 7 (chunk_of data) 0).
  set (q := datagram (2 ^ 32 - 1) 7 (chunk_of data) 1).
  destruct (rudp_transfer (fun _ => Ok tt) s (new_socket (2 ^ 32 - 1)) data 1500 [q; q; p]) as (s' & sent & E & H); [done|done|done|by vm_compute|done|done|lia|].
  exists s', p, q. assert (sent = [p; q]) as -> by (transitivity (snd (fst (send (fun _ => Ok tt) s data []))); [by rewrite E|vm_compute; reflexivity]).
  split; [exact E|]. split; [|vm_compute; reflexivity]. destruct H as (d & _ & _ & Hall); [repeat constructor|]. apply Hall. repeat constructor.
Defined.

Lemma rudp_buffer_bounded_witness :
  let incoming := [datagram 0 0 (fun _ => chars "x") 5; chars "junk"; datagram 0 0 (fun _ => chars "x") 500] in
  (size (recv_buf_ (snd (recv_all 9 (new_socket 0) 1500 incoming))) <= 128)%nat.
Proof.
  intros incoming. apply (rudp_buffer_bounded 0 1500 9 incoming); [done|]. repeat constructor; vm_compute; repeat constructor; discriminate.
Defined.
