(* ===== verification/Gf256.v ===== *)
(** * Arithmetic in GF(2^8): namespace [gf256] of [buf/simd_erasure.hpp]

    The bytes with exclusive or and the product modulo x^8 + x^4 + x^3 + x^2 + 1: the
    shift-and-add product, powers, inverses, the tables and the product through them, and the
    field laws of the latter. *)

From S2P Require Import Prelude.
#[local] Open Scope Z_scope.
#[local] Open Scope word_scope.

Definition kPoly : Z := 0x1d.

(** [for (int i = 0; i < 8; ++i)]. *)
Fixpoint mul_loop (n : nat) (a b result : Z) : Z :=
  match n with
  | O => result
  | S n =>
      let result := result .^ u8 ((- (b .& 1)) .& a) in
      let hbit := a >> 7 in
      let a := u8 (a << 1) in
      let a := a .^ u8 ((- hbit) .& kPoly) in
      mul_loop n a (b >> 1) result
  end.

Definition mul (a b : Z) : Z := mul_loop 8 a b 0.

Definition pow (base exp : Z) : Z := Nat.iter (Z.to_nat exp) (fun r => mul r base) 1.

Definition inv (a : Z) : Z := if a =? 0 then 0 else pow a 254.

Definition make_log_table : list Z :=
  fst (foldl (fun '(t, x) i => (<[Z.to_nat x := u8 i]> t, mul x 0x02)) (replicate 256 0, 1) (seqZ 0 255)).

Definition make_alog_table : list Z :=
  fst (foldl (fun '(t, x) i => (<[Z.to_nat i := x]> t, mul x 0x02)) (replicate 256 0, 1) (seqZ 0 256)).

(** The tables are computed once, at start-up. *)
Definition kLog : list Z := Eval vm_compute in make_log_table.
Definition kAlog : list Z := Eval vm_compute in make_alog_table.

Lemma tables_computed : kLog = make_log_table /\ kAlog = make_alog_table.
Proof. split; vm_compute; reflexivity. Qed.

Definition fast_mul (a b : Z) : Z :=
  if (a =? 0) || (b =? 0) then 0 else at_ kAlog ((at_ kLog a + at_ kLog b) mod 255).

(** Proves [is_byte v -> P v] by trying the 256 values. *)
Ltac by_byte v := let H := fresh in intros H; unfold in_range in H; change (2 ^ 8) with 256 in H; by_range v H.

(** ** The product is bilinear *)

Lemma land_lxor_distr a b c : (a .^ b) .& c = (a .& c) .^ (b .& c).
Proof.
  apply Z.bits_inj'. intros i Hi. rewrite Z.land_spec, !Z.lxor_spec, !Z.land_spec.
  by destruct (Z.testbit a i), (Z.testbit b i), (Z.testbit c i).
Qed.

Lemma wrap_lxor w a b : 0 <= w -> wrap w (a .^ b) = wrap w a .^ wrap w b.
Proof. intros Hw. unfold wrap. rewrite <- !Z.land_ones by done. apply land_lxor_distr. Qed.

Lemma land_1_cases b : b .& 1 = 0 \/ b .& 1 = 1.
Proof.
  assert (b .& 1 = b mod 2) as -> by exact (land_mask 1 b ltac:(lia)). pose proof (Z.mod_pos_bound b 2 ltac:(lia)). lia.
Qed.

Lemma mask_xor_bit x y a : (x = 0 \/ x = 1) -> (y = 0 \/ y = 1) ->
  u8 ((- (x .^ y)) .& a) = u8 ((- x) .& a) .^ u8 ((- y) .& a).
Proof.
  intros [-> | ->] [-> | ->]; cbn [Z.lxor Z.opp]; rewrite ?Z.land_m1_l, ?Z.land_0_l; change (u8 0) with 0;
    by rewrite ?Z.lxor_0_l, ?Z.lxor_0_r, ?Z.lxor_nilpotent.
Qed.

Lemma mask_xor_val x a a' : u8 ((- x) .& (a .^ a')) = u8 ((- x) .& a) .^ u8 ((- x) .& a').
Proof. rewrite <- wrap_lxor by lia. f_equal. rewrite !(Z.land_comm (- x)). apply land_lxor_distr. Qed.

Lemma lxor_swap a b c d : (a .^ b) .^ (c .^ d) = (a .^ c) .^ (b .^ d).
Proof. rewrite !Z.lxor_assoc. f_equal. rewrite <- !Z.lxor_assoc. f_equal. apply Z.lxor_comm. Qed.

Lemma mul_loop_xor_r n : forall a b c r s,
  mul_loop n a (b .^ c) (r .^ s) = mul_loop n a b r .^ mul_loop n a c s.
Proof.
  induction n as [|n IH]; intros a b c r s; [done|]. cbn [mul_loop]. rewrite <- IH. f_equal.
  - apply Z.shiftr_lxor.
  - rewrite land_lxor_distr, mask_xor_bit by apply land_1_cases. apply lxor_swap.
Qed.

Lemma hbit_cases a : is_byte a -> a >> 7 = 0 \/ a >> 7 = 1.
Proof. by_byte a. Qed.

Definition xtime (a : Z) : Z := u8 (a << 1) .^ u8 ((- (a >> 7)) .& kPoly).

Lemma xtime_byte a : is_byte (xtime a).
Proof. apply lxor_range; [lia|apply wrap_range; lia..]. Qed.

Lemma xtime_xor a b : is_byte a -> is_byte b -> xtime (a .^ b) = xtime a .^ xtime b.
Proof.
  intros Ha Hb. unfold xtime. rewrite Z.shiftl_lxor, Z.shiftr_lxor, wrap_lxor by lia.
  rewrite mask_xor_bit by (by apply hbit_cases). apply lxor_swap.
Qed.

Lemma mul_loop_xor_l n : forall a a' b r s, is_byte a -> is_byte a' ->
  mul_loop n (a .^ a') b (r .^ s) = mul_loop n a b r .^ mul_loop n a' b s.
Proof.
  induction n as [|n IH]; intros a a' b r s Ha Ha'; [done|]. cbn [mul_loop]. fold (xtime a) (xtime a') (xtime (a .^ a')).
  rewrite <- IH by apply xtime_byte. rewrite xtime_xor by done. f_equal. rewrite mask_xor_val. apply lxor_swap.
Qed.

Lemma mul_xor_r a b c : mul a (b .^ c) = mul a b .^ mul a c.
Proof. unfold mul. by rewrite <- mul_loop_xor_r. Qed.

Lemma mul_xor_l a b c : is_byte a -> is_byte b -> mul (a .^ b) c = mul a c .^ mul b c.
Proof. intros Ha Hb. unfold mul. by rewrite <- mul_loop_xor_l. Qed.

Lemma mul_loop_byte n : forall a b r, is_byte r -> is_byte (mul_loop n a b r).
Proof. induction n; intros a b r Hr; cbn [mul_loop]; [done|]. apply IHn, lxor_range; [lia|done|apply wrap_range; lia]. Qed.

Lemma mul_byte a b : is_byte (mul a b).
Proof. by apply mul_loop_byte. Qed.

(** ** Additive functions agree where they agree on the powers of two *)

Definition additive (f : Z -> Z) : Prop := forall x y, is_byte x -> is_byte y -> f (x .^ y) = f x .^ f y.

Lemma additive_0 f : additive f -> f 0 = 0.
Proof. intros Hf. pose proof (Hf 0 0 ltac:(done) ltac:(done)) as H. by rewrite !Z.lxor_nilpotent in H. Qed.

Definition sum_bits (x : Z) (f : Z -> Z) (l : list Z) : Z :=
  foldr (fun i acc => (if Z.testbit x i then f (2 ^ i) else 0) .^ acc) 0 l.

Lemma bits_of_byte x : is_byte x -> sum_bits x (fun z => z) (seqZ 0 8) = x.
Proof. by_byte x. Qed.

Lemma additive_bits f x l : additive f -> Forall (fun i => 0 <= i < 8) l ->
  f (sum_bits x (fun z => z) l) = sum_bits x f l /\ is_byte (sum_bits x (fun z => z) l).
Proof.
  intros Hf. induction 1 as [|i l Hi Hl [IH Hb]]; cbn [sum_bits foldr]; [split; [by apply additive_0|done]|].
  assert (is_byte (2 ^ i)) as H2 by (by_range i Hi).
  unfold sum_bits in *. case_match.
  - split; [by rewrite Hf, IH by done|]. apply lxor_range; [lia|done|done].
  - by rewrite !Z.lxor_0_l.
Qed.

Lemma additive_ext f g : additive f -> additive g -> (forall i, 0 <= i < 8 -> f (2 ^ i) = g (2 ^ i)) ->
  forall x, is_byte x -> f x = g x.
Proof.
  intros Hf Hg He x Hx. rewrite <- (bits_of_byte x Hx).
  assert (Forall (fun i => 0 <= i < 8) (seqZ 0 8)) as Hl by (apply Forall_seqZ; intros; lia).
  rewrite (proj1 (additive_bits f x _ Hf Hl)), (proj1 (additive_bits g x _ Hg Hl)). unfold sum_bits.
  induction Hl as [|i l Hi _ IH]; [done|]. cbn [foldr]. by rewrite IH, He.
Qed.

Lemma pow2_byte i : 0 <= i < 8 -> is_byte (2 ^ i).
Proof. intros Hi. by_range i Hi. Qed.

(** ** The ring laws *)

Lemma additive_mul_r a : additive (mul a).
Proof. intros x y _ _. apply mul_xor_r. Qed.

Lemma additive_mul_l b : additive (fun a => mul a b).
Proof. intros x y Hx Hy. by apply mul_xor_l. Qed.

Lemma basis_comm : forallb (fun i => forallb (fun j => mul (2 ^ i) (2 ^ j) =? mul (2 ^ j) (2 ^ i)) (seqZ 0 8)) (seqZ 0 8) = true.
Proof. vm_compute. reflexivity. Qed.

Lemma basis_assoc : forallb (fun i => forallb (fun j => forallb (fun k =>
  mul (mul (2 ^ i) (2 ^ j)) (2 ^ k) =? mul (2 ^ i) (mul (2 ^ j) (2 ^ k))) (seqZ 0 8)) (seqZ 0 8)) (seqZ 0 8) = true.
Proof. vm_compute. reflexivity. Qed.

Lemma forallb_seqZ p n i : forallb p (seqZ 0 n) = true -> 0 <= i < n -> p i = true.
Proof. intros H Hi. rewrite forallb_forall in H. apply H, list_elem_of_In, elem_of_seqZ. lia. Qed.

Lemma mul_comm a b : is_byte a -> is_byte b -> mul a b = mul b a.
Proof.
  intros Ha Hb. revert a Ha. apply additive_ext; [apply additive_mul_l|apply additive_mul_r|]. intros i Hi.
  revert b Hb. apply additive_ext; [apply additive_mul_r|apply additive_mul_l|]. intros j Hj.
  pose proof (forallb_seqZ _ _ i basis_comm Hi) as H. cbv beta in H. by apply (forallb_seqZ _ _ j) in H as H%Z.eqb_eq.
Qed.

Lemma mul_assoc a b c : is_byte a -> is_byte b -> is_byte c -> mul (mul a b) c = mul a (mul b c).
Proof.
  intros Ha Hb Hc. revert a Ha. apply additive_ext.
  { intros x y Hx Hy. rewrite mul_xor_l by done. apply mul_xor_l; apply mul_byte. }
  { apply additive_mul_l. }
  intros i Hi. revert b Hb. apply additive_ext.
  { intros x y Hx Hy. rewrite mul_xor_r. apply mul_xor_l; apply mul_byte. }
  { intros x y Hx Hy. rewrite mul_xor_l by done. apply mul_xor_r. }
  intros j Hj. revert c Hc. apply additive_ext; [apply additive_mul_r| |].
  { intros x y Hx Hy. rewrite mul_xor_r. apply mul_xor_r. }
  intros k Hk. pose proof (forallb_seqZ _ _ i basis_assoc Hi) as H. cbv beta in H.
  apply (forallb_seqZ _ _ j) in H; [|done]. by apply (forallb_seqZ _ _ k) in H as H%Z.eqb_eq.
Qed.

Lemma mul_0_r a : mul a 0 = 0.
Proof. apply (additive_0 _ (additive_mul_r a)). Qed.

Lemma mul_1_r a : is_byte a -> mul a 1 = a.
Proof. by_byte a. Qed.

(** ** Powers of the generator, and the tables *)

Definition g (n : nat) : Z := Nat.iter n (fun r => mul r 2) 1.

Lemma pow_byte base n : is_byte (Nat.iter n (fun r => mul r base) 1).
Proof. destruct n; [done|]. apply mul_byte. Qed.

Lemma g_S n : g (S n) = mul (g n) 2.
Proof. done. Qed.

Lemma g_byte n : is_byte (g n).
Proof. apply pow_byte. Qed.

Lemma g_add n m : mul (g n) (g m) = g (n + m).
Proof.
  induction m as [|m IH]; [rewrite Nat.add_0_r; apply mul_1_r, g_byte|].
  rewrite Nat.add_succ_r, !g_S, <- IH. by rewrite mul_assoc by (apply g_byte || done).
Qed.

Lemma alog_steps : (at_ kAlog 0 =? 1) && (at_ kAlog 255 =? 1) &&
  forallb (fun i => at_ kAlog (i + 1) =? mul (at_ kAlog i) 2) (seqZ 0 255) = true.
Proof. vm_compute. reflexivity. Qed.

Lemma alog_g n : (n < 256)%nat -> at_ kAlog (Z.of_nat n) = g n.
Proof.
  pose proof alog_steps as H. apply andb_true_iff in H as [[H0%Z.eqb_eq _]%andb_true_iff Hs].
  induction n as [|n IH]; intros Hn; [done|]. pose proof (proj1 (Z.eqb_eq _ _) (forallb_seqZ _ _ (Z.of_nat n) Hs ltac:(lia))) as Hs'.
  replace (Z.of_nat (S n)) with (Z.of_nat n + 1) by lia. by rewrite Hs', IH by lia.
Qed.

Lemma g_255 : g 255 = 1.
Proof.
  rewrite <- alog_g by lia. pose proof alog_steps as H. by apply andb_true_iff in H as [[_ H%Z.eqb_eq]%andb_true_iff _].
Qed.

Lemma g_period q : g (255 * q) = 1.
Proof.
  induction q as [|q IH]; [done|]. replace (255 * S q)%nat with (255 * q + 255)%nat by lia.
  by rewrite <- g_add, IH, g_255.
Qed.

Lemma g_mod n : g (n mod 255) = g n.
Proof.
  rewrite (Nat.div_mod n 255) at 2 by lia. rewrite <- g_add, g_period, mul_comm by (apply g_byte || done).
  by rewrite mul_1_r by apply g_byte.
Qed.

Lemma log_alog a : is_byte a -> a = 0 \/ (0 <= at_ kLog a < 255 /\ at_ kAlog (at_ kLog a) = a).
Proof. by_byte a. Qed.

(** Every byte but 0 is a power of the generator, with the exponent of the table. *)
Lemma log_g a : is_byte a -> a <> 0 -> exists n, (n < 255)%nat /\ at_ kLog a = Z.of_nat n /\ a = g n.
Proof.
  intros Ha Hne. destruct (log_alog a Ha) as [|[Hl E]]; [done|]. exists (Z.to_nat (at_ kLog a)).
  split; [lia|]. split; [lia|]. rewrite <- alog_g by lia. by rewrite Z2Nat.id by lia.
Qed.

(** The product by tables is the product. *)
Lemma fast_mul_mul a b : is_byte a -> is_byte b -> fast_mul a b = mul a b.
Proof.
  intros Ha Hb. unfold fast_mul. destruct (Z.eqb_spec a 0) as [->|Ha0]; cbn [orb].
  { by rewrite mul_comm, mul_0_r. }
  destruct (Z.eqb_spec b 0) as [->|Hb0]; [by rewrite mul_0_r|].
  destruct (log_g a Ha Ha0) as (n & Hn & -> & E1), (log_g b Hb Hb0) as (m & Hm & -> & E2).
  rewrite E1, E2, g_add, <- g_mod, <- alog_g by (pose proof (Nat.mod_upper_bound (n + m) 255); lia).
  f_equal. rewrite Nat2Z.inj_mod. f_equal. lia.
Qed.

Lemma pow_g n e : Nat.iter e (fun r => mul r (g n)) 1 = g (e * n).
Proof.
  induction e as [|e IH]; [done|]. change (Nat.iter (S e) ?f 1) with (f (Nat.iter e f 1)). cbv beta.
  rewrite IH, g_add. f_equal. lia.
Qed.

(** ** The field laws of [fast_mul] *)

Lemma fast_mul_byte a b : is_byte a -> is_byte b -> is_byte (fast_mul a b).
Proof. intros. rewrite fast_mul_mul by done. apply mul_byte. Qed.

Lemma fast_mul_comm a b : is_byte a -> is_byte b -> fast_mul a b = fast_mul b a.
Proof. intros. rewrite !fast_mul_mul by done. by apply mul_comm. Qed.

Lemma fast_mul_assoc a b c : is_byte a -> is_byte b -> is_byte c -> fast_mul (fast_mul a b) c = fast_mul a (fast_mul b c).
Proof. intros. rewrite !fast_mul_mul by (done || rewrite fast_mul_mul by done; apply mul_byte). by apply mul_assoc. Qed.

Lemma fast_mul_xor_r a b c : is_byte a -> is_byte b -> is_byte c -> fast_mul a (b .^ c) = fast_mul a b .^ fast_mul a c.
Proof. intros. rewrite !fast_mul_mul by (done || by apply lxor_range). apply mul_xor_r. Qed.

Lemma fast_mul_xor_l a b c : is_byte a -> is_byte b -> is_byte c -> fast_mul (a .^ b) c = fast_mul a c .^ fast_mul b c.
Proof. intros. rewrite !fast_mul_mul by (done || by apply lxor_range). by apply mul_xor_l. Qed.

Lemma fast_mul_0_l a : fast_mul 0 a = 0.
Proof. done. Qed.

Lemma fast_mul_0_r a : fast_mul a 0 = 0.
Proof. unfold fast_mul. by rewrite orb_true_r. Qed.

Lemma fast_mul_1_l a : is_byte a -> fast_mul 1 a = a.
Proof. intros. rewrite fast_mul_mul, mul_comm by done. by apply mul_1_r. Qed.

Lemma inv_byte a : is_byte (inv a).
Proof. unfold inv. case_match; [done|]. apply pow_byte. Qed.

Lemma fast_mul_inv a : is_byte a -> a <> 0 -> fast_mul a (inv a) = 1.
Proof.
  intros Ha Hne. rewrite fast_mul_mul by (done || apply inv_byte). unfold inv. rewrite (proj2 (Z.eqb_neq _ _) Hne).
  destruct (log_g a Ha Hne) as (n & _ & _ & ->). unfold pow. rewrite pow_g, g_add.
  replace (n + Z.to_nat 254 * n)%nat with (255 * n)%nat by lia. apply g_period.
Qed.

Lemma fast_mul_integral a b : is_byte a -> is_byte b -> fast_mul a b = 0 -> a = 0 \/ b = 0.
Proof.
  intros Ha Hb E. destruct (Z.eq_dec a 0) as [|Hne]; [by left|]. right.
  rewrite <- (fast_mul_1_l b Hb), <- (fast_mul_inv a Ha Hne), (fast_mul_comm a), fast_mul_assoc, E by (done || apply inv_byte).
  apply fast_mul_0_r.
Qed.

(** Distinct exponents below 255 give distinct powers. *)
Lemma g_inj n m : (n < 255)%nat -> (m < 255)%nat -> g n = g m -> n = m.
Proof.
  intros Hn Hm E.
  assert (H : forall k, (k < 255)%nat -> at_ kLog (g k) = Z.of_nat k).
  { intros k Hk. rewrite <- (alog_g k) by lia.
    assert (forallb (fun i => at_ kLog (at_ kAlog i) =? i) (seqZ 0 255) = true) as Hc by (vm_compute; reflexivity).
    exact (proj1 (Z.eqb_eq _ _) (forallb_seqZ _ _ (Z.of_nat k) Hc ltac:(lia))). }
  pose proof (H n Hn). pose proof (H m Hm). rewrite E in *. lia.
Qed.
