(* ===== verification/Erasure.v ===== *)
(** * Erasure coding: [buf/simd_erasure.hpp]

    The generator matrix, the multiply-and-add over shards in its scalar, AVX2 and NEON forms,
    [ErasureCoder::encode] and [reconstruct] with its Gauss-Jordan inversion.  Matrices are
    flattened as in the source, shards are the byte lists the spans point to. *)

From S2P Require Import Prelude Gf256.
#[local] Open Scope Z_scope.
#[local] Open Scope word_scope.

Definition put {A} (l : list A) (i : Z) (v : A) : list A := <[Z.to_nat i := v]> l.

(** ** [make_generator_matrix] *)

Definition make_generator_matrix (k m : Z) : list Z :=
  let mat := replicate (Z.to_nat ((k + m) * k)) 0 in
  let mat := foldl (fun mat i => put mat (i * k + i) 1) mat (seqZ 0 k) in
  foldl (fun mat i => foldl (fun mat j => put mat ((k + i) * k + j) (pow (u8 (i + 1)) j)) mat (seqZ 0 k)) mat (seqZ 0 m).

(** ** [gf_mul_add] *)

(** [out[i] ^= fast_mul(coeff, in[i])] over the shorter of the two. *)
Fixpoint mul_add_scalar (coeff : Z) (inp out : bytes) : bytes :=
  match inp, out with
  | x :: inp, o :: out => (o .^ fast_mul coeff x) :: mul_add_scalar coeff inp out
  | _, _ => out
  end.

Definition tbl_lo (coeff : Z) : list Z := map (fun i => fast_mul coeff (u8 i)) (seqZ 0 16).
Definition tbl_hi (coeff : Z) : list Z := map (fun i => fast_mul coeff (u8 (i << 4))) (seqZ 0 16).

(** [_mm256_srli_epi16]: the 16-bit lanes shifted. *)
Fixpoint srli_epi16 (v : bytes) (n : Z) : bytes :=
  match v with
  | a :: b :: v => let lane := (a + 256 * b) >> n in lane mod 256 :: lane / 256 :: srli_epi16 v n
  | _ => []
  end.

(** [_mm256_shuffle_epi8] of a table present in both halves. *)
Definition shuffle_epi8 (tbl idx : bytes) : bytes :=
  map (fun i => if Z.testbit i 7 then 0 else at_ tbl (i .& 0x0F)) idx.

(** One 32-byte step. *)
Definition avx2_step (coeff : Z) (src dst : bytes) : bytes :=
  let lo_nibble := map (fun x => x .& 0x0F) src in
  let hi_nibble := srli_epi16 (map (fun x => Z.ldiff x 0x0F) src) 4 in
  let result := zip_with Z.lxor (shuffle_epi8 (tbl_lo coeff) lo_nibble) (shuffle_epi8 (tbl_hi coeff) hi_nibble) in
  zip_with Z.lxor dst result.

(** [vqtbl1q_u8]: an index of 16 or more gives 0. *)
Definition vqtbl1q_u8 (tbl idx : bytes) : bytes := map (fun i => if 16 <=? i then 0 else at_ tbl i) idx.

(** One 16-byte step. *)
Definition neon_step (coeff : Z) (src dst : bytes) : bytes :=
  let lo_nibble := map (fun x => x .& 0x0F) src in
  let hi_nibble := map (fun x => x >> 4) src in
  let res := zip_with Z.lxor (vqtbl1q_u8 (tbl_lo coeff) lo_nibble) (vqtbl1q_u8 (tbl_hi coeff) hi_nibble) in
  zip_with Z.lxor dst res.

(** [for (; i + w <= n; i += w)], then the scalar tail. *)
Fixpoint mul_add_vectors (fuel : nat) (w : Z) (vec : bytes -> bytes -> bytes) (coeff : Z) (inp out : bytes) : bytes :=
  match fuel with
  | O => mul_add_scalar coeff inp out
  | S fuel =>
      if (w <=? zlen inp) && (w <=? zlen out)
      then vec (ztake w inp) (ztake w out) ++ mul_add_vectors fuel w vec coeff (zdrop w inp) (zdrop w out)
      else mul_add_scalar coeff inp out
  end.

Inductive target := Scalar | Avx2 | Neon.

Definition gf_mul_add (t : target) (coeff : Z) (inp out : bytes) : bytes :=
  match t with
  | Scalar => mul_add_scalar coeff inp out
  | Avx2 => mul_add_vectors (length inp) 32 (avx2_step coeff) coeff inp out
  | Neon => mul_add_vectors (length inp) 16 (neon_step coeff) coeff inp out
  end.

(** ** [ErasureCoder] *)

Record ErasureCoder := mkCoder { k_ : Z; m_ : Z; gmat_ : list Z }.

Definition ErasureCoder_init (k m : Z) : ErasureCoder := mkCoder k m (make_generator_matrix k m).

Definition shard (shards : list bytes) (i : Z) : bytes := nth (Z.to_nat i) shards [].

Definition encode (t : target) (ec : ErasureCoder) (shards : list bytes) : list bytes :=
  let k := k_ ec in
  let shards := foldl (fun sh p => put sh (k + p) (replicate (length (shard sh (k + p))) 0)) shards (seqZ 0 (m_ ec)) in
  foldl (fun sh p =>
    foldl (fun sh d =>
      let coeff := at_ (gmat_ ec) ((k + p) * k + d) in
      if coeff =? 0 then sh else put sh (k + p) (gf_mul_add t coeff (shard sh d) (shard sh (k + p))))
      sh (seqZ 0 k))
    shards (seqZ 0 (m_ ec)).

(** ** [invert_matrix]

    The loops run over both matrices; here each loop is a function of one matrix. *)

Definition swap_rows (n a b : Z) (m : list Z) : list Z :=
  foldl (fun m c => put (put m (a * n + c) (at_ m (b * n + c))) (b * n + c) (at_ m (a * n + c))) m (seqZ 0 n).

Definition scale_row (n r scale : Z) (m : list Z) : list Z :=
  foldl (fun m c => put m (r * n + c) (fast_mul (at_ m (r * n + c)) scale)) m (seqZ 0 n).

Definition add_row (n r p factor : Z) (m : list Z) : list Z :=
  foldl (fun m c => put m (r * n + c) (at_ m (r * n + c) .^ fast_mul factor (at_ m (p * n + c)))) m (seqZ 0 n).

Definition find_pivot (n col : Z) (mat : list Z) : option Z :=
  List.find (fun row => negb (at_ mat (row * n + col) =? 0)) (seqZ col (n - col)).

Definition eliminate (n col row : Z) (mi : list Z * list Z) : list Z * list Z :=
  let '(mat, inv) := mi in
  if row =? col then (mat, inv)
  else
    let factor := at_ mat (row * n + col) in
    if factor =? 0 then (mat, inv) else (add_row n row col factor mat, add_row n row col factor inv).

Definition invert_column (n col : Z) (mi : list Z * list Z) : option (list Z * list Z) :=
  let '(mat, inv) := mi in
  match find_pivot n col mat with
  | None => None
  | Some pivot =>
      let '(mat, inv) := if pivot =? col then (mat, inv) else (swap_rows n col pivot mat, swap_rows n col pivot inv) in
      let scale := Gf256.inv (at_ mat (col * n + col)) in
      let mat := scale_row n col scale mat in
      let inv := scale_row n col scale inv in
      Some (foldl (fun mi row => eliminate n col row mi) (mat, inv) (seqZ 0 n))
  end.

Definition identity (n : Z) : list Z := foldl (fun m i => put m (i * n + i) 1) (replicate (Z.to_nat (n * n)) 0) (seqZ 0 n).

Definition invert_matrix (mat : list Z) (n : Z) : option (list Z) :=
  match foldl (fun acc col => match acc with Some mi => invert_column n col mi | None => None end)
          (Some (mat, identity n)) (seqZ 0 n) with
  | Some (_, inv) => Some inv
  | None => None
  end.

(** ** [reconstruct] *)

Definition is_present (present : list bool) (i : Z) : bool := nth (Z.to_nat i) present false.

(** The first [k] available rows. *)
Definition row_idx (ec : ErasureCoder) (present : list bool) : list Z :=
  ztake (k_ ec) (List.filter (is_present present) (seqZ 0 (k_ ec + m_ ec))).

Definition decode_matrix (ec : ErasureCoder) (rows : list Z) : list Z :=
  concat (map (fun r => map (fun c => at_ (gmat_ ec) (r * k_ ec + c)) (seqZ 0 (k_ ec))) rows).

(** [memset] of the first [n] bytes. *)
Definition zero_prefix (n : Z) (s : bytes) : bytes := replicate (Z.to_nat n) 0 ++ zdrop n s.

Definition reconstruct (t : target) (ec : ErasureCoder) (shards : list bytes) (present : list bool) : result unit * list bytes :=
  let k := k_ ec in
  let avail := zlen (List.filter (fun p => p) present) in
  if avail <? k then (Err not_enough_memory, shards)
  else
    let sz := foldl (fun sz i => if is_present present i && (sz <? zlen (shard shards i)) then zlen (shard shards i) else sz)
                0 (seqZ 0 (k + m_ ec)) in
    let rows := row_idx ec present in
    match invert_matrix (decode_matrix ec rows) k with
    | None => (Err invalid_argument, shards)
    | Some inv =>
        (Ok tt,
         foldl (fun sh d =>
           if is_present present d then sh
           else
             let own := zlen (shard sh d) in
             let sh := put sh d (zero_prefix (if own <? sz then own else sz) (shard sh d)) in
             foldl (fun sh r =>
               let coeff := at_ inv (d * k + r) in
               if coeff =? 0 then sh else put sh d (gf_mul_add t coeff (shard sh (at_ rows r)) (shard sh d)))
               sh (seqZ 0 k))
           shards (seqZ 0 k))
    end.

(** ** The vector forms *)

#[local] Opaque fast_mul.

Definition mac (coeff : Z) (o x : Z) : Z := o .^ fast_mul coeff x.

Lemma mul_add_app coeff a1 a2 b1 b2 : length a1 = length b1 ->
  mul_add_scalar coeff (a1 ++ a2) (b1 ++ b2) = zip_with (mac coeff) b1 a1 ++ mul_add_scalar coeff a2 b2.
Proof.
  revert b1. induction a1 as [|x a1 IH]; intros [|o b1] Hl; try done. cbn [app mul_add_scalar zip_with]. f_equal.
  apply IH. by injection Hl.
Qed.

Lemma at_map_seqZ (f : Z -> Z) n i : 0 <= i < n -> at_ (map f (seqZ 0 n)) i = f i.
Proof.
  intros Hi. unfold at_. rewrite (nth_indep _ 0 (f 0)) by (rewrite length_map, length_seqZ; lia).
  rewrite map_nth. f_equal. apply nth_lookup_Some. rewrite lookup_seqZ. lia.
Qed.

Lemma nibbles x : is_byte x -> 0 <= x .& 0x0F < 16 /\ 0 <= x >> 4 < 16 /\
  (x .& 0x0F) .^ u8 ((x >> 4) << 4) = x /\ u8 (x .& 0x0F) = x .& 0x0F /\ Z.ldiff x 0x0F = 16 * (x >> 4).
Proof. by_byte x. Qed.

(** The product is the sum of the products of the nibbles. *)
Lemma split_mul coeff x : is_byte coeff -> is_byte x ->
  at_ (tbl_lo coeff) (x .& 0x0F) .^ at_ (tbl_hi coeff) (x >> 4) = fast_mul coeff x.
Proof.
  intros Hc Hx. destruct (nibbles x Hx) as (H1 & H2 & E & E1 & _). unfold tbl_lo, tbl_hi.
  rewrite !at_map_seqZ by done. rewrite E1. rewrite <- E at 3. symmetry. apply fast_mul_xor_r; [done|rlia|].
  apply wrap_range. lia.
Qed.

Lemma srli_nibbles src : Nat.Even (length src) -> all_bytes src ->
  srli_epi16 (map (fun x => Z.ldiff x 0x0F) src) 4 = map (fun x => x >> 4) src.
Proof.
  induction src as [src IH] using list_length_ind. destruct src as [|a [|b src]]; intros He Hb.
  { done. }
  { destruct He as [n He]. cbn in He. lia. }
  apply Forall_cons in Hb as [Ha [Hb Hs]%Forall_cons]. cbn [map srli_epi16].
  rewrite IH; [|cbn; lia|destruct He as [n He]; exists (n - 1)%nat; cbn in He; lia|done].
  destruct (nibbles a Ha) as (_ & H1 & _ & _ & ->), (nibbles b Hb) as (_ & H2 & _ & _ & ->).
  set (x := a >> 4) in *. set (y := b >> 4) in *. rewrite Z.shiftr_div_pow2 by lia. change (2 ^ 4) with 16.
  replace (16 * x + 256 * (16 * y)) with ((x + y * 256) * 16) by lia. rewrite Z.div_mul by lia.
  rewrite Z_mod_plus_full, Z.mod_small, Z.div_add, Z.div_small by lia. done.
Qed.

Lemma zip_lxor_map (f g h : Z -> Z) l : Forall (fun x => f x .^ g x = h x) l ->
  zip_with Z.lxor (map f l) (map g l) = map h l.
Proof. induction 1 as [|x l Hx _ IH]; cbn; congruence. Qed.

Lemma zip_mac coeff src dst : zip_with Z.lxor dst (map (fast_mul coeff) src) = zip_with (mac coeff) dst src.
Proof. revert dst. induction src as [|x src IH]; intros [|o dst]; cbn; try done. by rewrite IH. Qed.

Lemma avx2_step_spec coeff src dst : is_byte coeff -> all_bytes src -> Nat.Even (length src) ->
  avx2_step coeff src dst = zip_with (mac coeff) dst src.
Proof.
  intros Hc Hs He. unfold avx2_step. rewrite srli_nibbles by done. cbv zeta. unfold shuffle_epi8. rewrite !map_map.
  rewrite (zip_lxor_map _ _ (fast_mul coeff)); [apply zip_mac|]. eapply Forall_impl; [exact Hs|]. intros x Hx. cbv beta.
  rewrite <- (split_mul coeff x Hc Hx). destruct (nibbles x Hx) as (H1 & H2 & _).
  assert (forall z, 0 <= z < 16 -> Z.testbit z 7 = false /\ z .& 0x0F = z) as Hz by (intros z Hz; by_range z Hz).
  destruct (Hz _ H1) as [-> ->], (Hz _ H2) as [-> ->]. done.
Qed.

Lemma neon_step_spec coeff src dst : is_byte coeff -> all_bytes src ->
  neon_step coeff src dst = zip_with (mac coeff) dst src.
Proof.
  intros Hc Hs. unfold neon_step, vqtbl1q_u8. rewrite !map_map.
  rewrite (zip_lxor_map _ _ (fast_mul coeff)); [apply zip_mac|]. eapply Forall_impl; [exact Hs|]. intros x Hx. cbv beta.
  rewrite <- (split_mul coeff x Hc Hx). destruct (nibbles x Hx) as (H1 & H2 & _).
  by rewrite !(proj2 (Z.leb_gt _ _)) by lia.
Qed.

Lemma mul_add_vectors_spec w vec coeff : 0 < w ->
  (forall src dst, all_bytes src -> zlen src = w -> vec src dst = zip_with (mac coeff) dst src) ->
  forall fuel inp out, all_bytes inp -> mul_add_vectors fuel w vec coeff inp out = mul_add_scalar coeff inp out.
Proof.
  intros Hw Hv. induction fuel as [|fuel IH]; intros inp out Hi; [done|]. cbn [mul_add_vectors].
  destruct (Z.leb_spec w (zlen inp)); [|done]. destruct (Z.leb_spec w (zlen out)); [|done]. cbn [andb].
  rewrite Hv by (by apply Forall_ztake || (apply zlen_ztake; lia)). rewrite IH by by apply Forall_zdrop.
  rewrite <- mul_add_app by (apply Nat2Z.inj; fold (zlen (ztake w inp)) (zlen (ztake w out)); rewrite !zlen_ztake; lia).
  by rewrite !ztake_zdrop.
Qed.

(** The three forms write the same bytes. *)
Lemma gf_mul_add_scalar t coeff inp out : is_byte coeff -> all_bytes inp ->
  gf_mul_add t coeff inp out = mul_add_scalar coeff inp out.
Proof.
  intros Hc Hi. destruct t; [done|..]; cbn [gf_mul_add]; apply mul_add_vectors_spec; try done; intros src dst Hs Hl.
  - apply avx2_step_spec; [done|done|]. exists 16%nat. unfold zlen in Hl. lia.
  - by apply neon_step_spec.
Qed.
