(* ===== verification/GaussJordan.v ===== *)
(** * Matrices over GF(2^8): the inversion of [buf/simd_erasure.hpp]

    Sums of products, the row operations of [ErasureCoder::invert_matrix] on flattened matrices,
    and that the inversion gives a left inverse or the matrix kills a vector; the entries of the
    generator matrix. *)

From S2P Require Import Prelude Gf256 Erasure.
#[local] Open Scope Z_scope.
#[local] Open Scope word_scope.
#[local] Opaque fast_mul.

(** ** Sums *)

Fixpoint gsum (f : Z -> Z) (n : nat) : Z :=
  match n with O => 0 | S n => gsum f n .^ f (Z.of_nat n) end.

Definition byte_fun (f : Z -> Z) : Prop := forall i, is_byte (f i).

Lemma byte_lxor a b : is_byte a -> is_byte b -> is_byte (a .^ b).
Proof. by apply lxor_range. Qed.

Lemma gsum_byte f n : byte_fun f -> is_byte (gsum f n).
Proof. intros Hf. induction n; [done|]. cbn [gsum]. apply byte_lxor; [done|apply Hf]. Qed.

Lemma gsum_ext f h n : (forall i, 0 <= i < Z.of_nat n -> f i = h i) -> gsum f n = gsum h n.
Proof. intros H. induction n; [done|]. cbn [gsum]. rewrite IHn, H by (intros; apply H; lia) || lia. done. Qed.

Lemma gsum_xor f h n : gsum (fun i => f i .^ h i) n = gsum f n .^ gsum h n.
Proof. induction n; [done|]. cbn [gsum]. rewrite IHn. apply lxor_swap. Qed.

Lemma gsum_mul_l a f n : is_byte a -> byte_fun f -> gsum (fun i => fast_mul a (f i)) n = fast_mul a (gsum f n).
Proof.
  intros Ha Hf. induction n; cbn [gsum]; [by rewrite fast_mul_0_r|].
  rewrite IHn, fast_mul_xor_r by (done || by apply gsum_byte || apply Hf). done.
Qed.

Lemma gsum_mul_r a f n : is_byte a -> byte_fun f -> gsum (fun i => fast_mul (f i) a) n = fast_mul (gsum f n) a.
Proof.
  intros Ha Hf. induction n; cbn [gsum]; [by rewrite fast_mul_0_l|].
  rewrite IHn, fast_mul_xor_l by (done || by apply gsum_byte || apply Hf). done.
Qed.

Lemma gsum_0 f n : (forall i, 0 <= i < Z.of_nat n -> f i = 0) -> gsum f n = 0.
Proof. intros H. induction n; [done|]. cbn [gsum]. rewrite IHn by (intros; apply H; lia). by rewrite H by lia. Qed.

Lemma gsum_swap f n m : gsum (fun i => gsum (f i) m) n = gsum (fun j => gsum (fun i => f i j) n) m.
Proof.
  induction n; cbn [gsum]; [symmetry; by apply gsum_0|]. rewrite IHn. by rewrite gsum_xor.
Qed.

(** A sum with one term, and one with two. *)
Lemma gsum_single f n k : 0 <= k < Z.of_nat n -> (forall i, 0 <= i < Z.of_nat n -> i <> k -> f i = 0) -> gsum f n = f k.
Proof.
  intros Hk H. induction n; [lia|]. cbn [gsum]. destruct (Z.eq_dec k (Z.of_nat n)) as [->|Hne].
  - rewrite gsum_0; [apply Z.lxor_0_l|]. intros i Hi. apply H; lia.
  - rewrite IHn, (H (Z.of_nat n)) by (lia || intros; apply H; lia). apply Z.lxor_0_r.
Qed.

Definition delta (r c : Z) : Z := if r =? c then 1 else 0.

Lemma gsum_delta f n r : 0 <= r < Z.of_nat n -> byte_fun f -> gsum (fun i => fast_mul (delta r i) (f i)) n = f r.
Proof.
  intros Hr Hf. rewrite (gsum_single _ _ r Hr); unfold delta.
  - rewrite Z.eqb_refl. apply fast_mul_1_l, Hf.
  - intros i _ Hi. rewrite (proj2 (Z.eqb_neq r i)) by lia. apply fast_mul_0_l.
Qed.

Lemma delta_ne r c : r <> c -> delta r c = 0.
Proof. intros. unfold delta. by rewrite (proj2 (Z.eqb_neq r c)). Qed.

(** ** Flattened matrices *)

Definition get (n : Z) (m : list Z) (r c : Z) : Z := at_ m (r * n + c).

Lemma at_put l i j v : 0 <= i -> 0 <= j < zlen l -> at_ (put l j v) i = if i =? j then v else at_ l i.
Proof.
  intros Hi Hj. unfold at_, put. destruct (Z.eqb_spec i j) as [->|Hne].
  - apply nth_lookup_Some, list_lookup_insert_eq. unfold zlen in Hj. lia.
  - rewrite !nth_lookup. by rewrite list_lookup_insert_ne by lia.
Qed.

Lemma zlen_put {A} (l : list A) i v : zlen (put l i v) = zlen l.
Proof. unfold zlen, put. by rewrite length_insert. Qed.

Lemma put_bytes l i v : all_bytes l -> is_byte v -> all_bytes (put l i v).
Proof. intros. by apply Forall_insert. Qed.

Lemma at_byte l i : all_bytes l -> is_byte (at_ l i).
Proof. apply (at_range 8). lia. Qed.

Lemma get_byte n l r c : all_bytes l -> is_byte (get n l r c).
Proof. apply at_byte. Qed.

Lemma idx_inj n r c r' c' : 0 <= c < n -> 0 <= c' < n -> r * n + c = r' * n + c' -> r = r' /\ c = c'.
Proof. intros Hc Hc' E. assert (r = r') by nia. subst. lia. Qed.

Lemma idx_range n rows r c : 0 <= r < rows -> 0 <= c < n -> 0 <= r * n + c < rows * n.
Proof. nia. Qed.

Lemma get_put n rows l r c v r' c' : zlen l = rows * n -> 0 <= r < rows -> 0 <= c < n -> 0 <= r' < rows -> 0 <= c' < n ->
  get n (put l (r * n + c) v) r' c' = if (r' =? r) && (c' =? c) then v else get n l r' c'.
Proof.
  intros Hl Hr Hc Hr' Hc'. unfold get. rewrite at_put by (rewrite ?Hl; apply (idx_range n rows); done || lia).
  destruct (Z.eqb_spec (r' * n + c') (r * n + c)) as [E|E].
  - apply idx_inj in E as [-> ->]; [|done..]. by rewrite !Z.eqb_refl.
  - destruct (Z.eqb_spec r' r) as [->|]; [|done]. destruct (Z.eqb_spec c' c) as [->|]; [done|done].
Qed.

(** A matrix of [rows] by [n] bytes. *)
Definition is_matrix (rows n : Z) (l : list Z) : Prop := zlen l = rows * n /\ all_bytes l.

(** A loop over the columns that writes row [r], each entry from entries not yet written. *)
Lemma row_loop rows n r (F : list Z -> Z -> Z) l : is_matrix rows n l -> 0 <= r < rows -> 0 <= n ->
  (forall c l', 0 <= c < n -> zlen l' = rows * n ->
    (forall r' c', 0 <= r' < rows -> 0 <= c' < n -> r' <> r \/ c <= c' -> get n l' r' c' = get n l r' c') -> F l' c = F l c) ->
  (forall c, 0 <= c < n -> is_byte (F l c)) ->
  let l' := foldl (fun l c => put l (r * n + c) (F l c)) l (seqZ 0 n) in
  is_matrix rows n l' /\ forall r' c', 0 <= r' < rows -> 0 <= c' < n ->
    get n l' r' c' = if r' =? r then F l c' else get n l r' c'.
Proof.
  intros [Hl Hb] Hr Hn HF HFb. cbv zeta.
  assert (H : forall j : nat, Z.of_nat j <= n ->
    let l' := foldl (fun l c => put l (r * n + c) (F l c)) l (seqZ 0 (Z.of_nat j)) in
    is_matrix rows n l' /\ forall r' c', 0 <= r' < rows -> 0 <= c' < n ->
      get n l' r' c' = if (r' =? r) && (c' <? Z.of_nat j) then F l c' else get n l r' c').
  { induction j as [|j IH]; intros Hj; cbv zeta.
    - split; [done|]. intros r' c' _ Hc'. by rewrite (proj2 (Z.ltb_ge c' (Z.of_nat 0))), andb_false_r by lia.
    - rewrite seqZ_S, foldl_app. cbn [foldl]. rewrite Z.add_0_l. destruct (IH ltac:(lia)) as [[Hl' Hb'] Hg]. clear IH.
      set (l' := foldl _ l (seqZ 0 (Z.of_nat j))) in *.
      assert (E : F l' (Z.of_nat j) = F l (Z.of_nat j)).
      { apply HF; [lia|done|]. intros r' c' Hr' Hc' Ho. rewrite Hg by done.
        destruct (Z.eqb_spec r' r), (Z.ltb_spec c' (Z.of_nat j)); try done; lia. }
      rewrite E. split; [split; [by rewrite zlen_put|apply put_bytes; [done|apply HFb; lia]]|].
      intros r' c' Hr' Hc'. rewrite (get_put n rows) by (done || lia). rewrite Hg by done.
      destruct (Z.eqb_spec r' r), (Z.eqb_spec c' (Z.of_nat j)), (Z.ltb_spec c' (Z.of_nat j)), (Z.ltb_spec c' (Z.of_nat (S j)));
        cbn [andb]; subst; try done; lia. }
  destruct (H (Z.to_nat n) ltac:(lia)) as [Hm Hg]. rewrite Z2Nat.id in Hm, Hg by done. split; [done|].
  intros r' c' Hr' Hc'. rewrite Hg by done. rewrite (proj2 (Z.ltb_lt c' n)), andb_true_r by lia. done.
Qed.

Lemma scale_row_spec n r s l : is_matrix n n l -> 0 <= r < n -> is_byte s ->
  is_matrix n n (scale_row n r s l) /\ forall r' c', 0 <= r' < n -> 0 <= c' < n ->
    get n (scale_row n r s l) r' c' = if r' =? r then fast_mul (get n l r c') s else get n l r' c'.
Proof.
  intros Hm Hr Hs. apply (row_loop n n r (fun l c => fast_mul (at_ l (r * n + c)) s)); try done; [lia|..].
  - intros c l' Hc _ He. fold (get n l' r c) (get n l r c). by rewrite He by (done || lia).
  - intros c _. apply fast_mul_byte; [apply at_byte, Hm|done].
Qed.

Lemma add_row_spec n r p f l : is_matrix n n l -> 0 <= r < n -> 0 <= p < n -> p <> r -> is_byte f ->
  is_matrix n n (add_row n r p f l) /\ forall r' c', 0 <= r' < n -> 0 <= c' < n ->
    get n (add_row n r p f l) r' c' = if r' =? r then get n l r c' .^ fast_mul f (get n l p c') else get n l r' c'.
Proof.
  intros Hm Hr Hp Hne Hf. apply (row_loop n n r (fun l c => at_ l (r * n + c) .^ fast_mul f (at_ l (p * n + c)))); try done; [lia|..].
  - intros c l' Hc _ He. fold (get n l' r c) (get n l r c) (get n l' p c) (get n l p c). by rewrite !He by (done || lia || by left).
  - intros c _. apply byte_lxor; [apply at_byte, Hm|]. apply fast_mul_byte; [done|apply at_byte, Hm].
Qed.

Lemma swap_rows_spec n a b l : is_matrix n n l -> 0 <= a < n -> 0 <= b < n -> a <> b ->
  is_matrix n n (swap_rows n a b l) /\ forall r c, 0 <= r < n -> 0 <= c < n ->
    get n (swap_rows n a b l) r c = if r =? a then get n l b c else if r =? b then get n l a c else get n l r c.
Proof.
  intros Hm Ha Hb Hne.
  assert (H : forall j : nat, Z.of_nat j <= n ->
    let l' := foldl (fun m c => put (put m (a * n + c) (at_ m (b * n + c))) (b * n + c) (at_ m (a * n + c))) l (seqZ 0 (Z.of_nat j)) in
    is_matrix n n l' /\ forall r c, 0 <= r < n -> 0 <= c < n ->
      get n l' r c = if c <? Z.of_nat j then if r =? a then get n l b c else if r =? b then get n l a c else get n l r c
                     else get n l r c).
  { induction j as [|j IH]; intros Hj; cbv zeta.
    - split; [done|]. intros r c _ Hc. by rewrite (proj2 (Z.ltb_ge c (Z.of_nat 0))) by lia.
    - rewrite seqZ_S, foldl_app. cbn [foldl]. rewrite Z.add_0_l. destruct (IH ltac:(lia)) as [[Hl' Hb'] Hg]. clear IH.
      set (l' := foldl _ l (seqZ 0 (Z.of_nat j))) in *.
      split; [split; [by rewrite !zlen_put|repeat apply put_bytes; try done; by apply at_byte]|].
      intros r c Hr Hc. fold (get n l' a (Z.of_nat j)) (get n l' b (Z.of_nat j)).
      rewrite (get_put n n) by (rewrite ?zlen_put; done || lia). rewrite (get_put n n) by (done || lia). rewrite !Hg by (done || lia).
      rewrite Z.ltb_irrefl.
      destruct (Z.eqb_spec r a), (Z.eqb_spec r b), (Z.eqb_spec c (Z.of_nat j)), (Z.ltb_spec c (Z.of_nat j)), (Z.ltb_spec c (Z.of_nat (S j)));
        cbn [andb]; subst; try done; lia. }
  destruct (H (Z.to_nat n) ltac:(lia)) as [Hm' Hg]. rewrite Z2Nat.id in Hm', Hg by lia. split; [done|].
  intros r c Hr Hc. unfold swap_rows. rewrite Hg by done. by rewrite (proj2 (Z.ltb_lt c n)) by lia.
Qed.

(** Ones on the diagonal of a zero matrix. *)
Lemma diagonal_spec rows n : 0 <= n <= rows ->
  let l := foldl (fun m i => put m (i * n + i) 1) (replicate (Z.to_nat (rows * n)) 0) (seqZ 0 n) in
  is_matrix rows n l /\ forall r c, 0 <= r < rows -> 0 <= c < n -> get n l r c = delta r c.
Proof.
  intros Hn.
  assert (H : forall j : nat, Z.of_nat j <= n ->
    let l' := foldl (fun m i => put m (i * n + i) 1) (replicate (Z.to_nat (rows * n)) 0) (seqZ 0 (Z.of_nat j)) in
    is_matrix rows n l' /\ forall r c, 0 <= r < rows -> 0 <= c < n -> get n l' r c = if r <? Z.of_nat j then delta r c else 0).
  { induction j as [|j IH]; intros Hj; cbv zeta.
    - change (seqZ 0 (Z.of_nat 0)) with (@nil Z). cbn [foldl].
      split; [split; [rewrite zlen_replicate; nia|by apply Forall_replicate]|]. intros r c Hr Hc.
      rewrite (proj2 (Z.ltb_ge r (Z.of_nat 0))) by lia. unfold get, at_.
      destruct (nth_in_or_default (Z.to_nat (r * n + c)) (replicate (Z.to_nat (rows * n)) 0) 0) as [Hin|]; [|done].
      by apply list_elem_of_In, elem_of_replicate in Hin as [? _].
    - rewrite seqZ_S, foldl_app. cbn [foldl]. rewrite Z.add_0_l. destruct (IH ltac:(lia)) as [[Hl' Hb'] Hg]. clear IH.
      set (l' := foldl _ _ (seqZ 0 (Z.of_nat j))) in *.
      split; [split; [by rewrite zlen_put|by apply put_bytes]|]. intros r c Hr Hc.
      rewrite (get_put n rows) by (done || lia). rewrite Hg by done. unfold delta.
      destruct (Z.eqb_spec r (Z.of_nat j)), (Z.eqb_spec c (Z.of_nat j)), (Z.ltb_spec r (Z.of_nat j)), (Z.ltb_spec r (Z.of_nat (S j))), (Z.eqb_spec r c);
        cbn [andb]; try done; lia. }
  cbv zeta. destruct (H (Z.to_nat n) ltac:(lia)) as [Hm Hg]. rewrite Z2Nat.id in Hm, Hg by lia. split; [done|].
  intros r c Hr Hc. rewrite Hg by done. destruct (Z.ltb_spec r n); [done|]. by rewrite delta_ne by lia.
Qed.

(** ** Gauss-Jordan elimination *)

Lemma mul_rotate a b c : is_byte a -> is_byte b -> is_byte c -> fast_mul (fast_mul a b) c = fast_mul (fast_mul a c) b.
Proof. intros Ha Hb Hc. rewrite !fast_mul_assoc by done. f_equal. by apply fast_mul_comm. Qed.

Section Elimination.
  Context (n : Z) (A : Z -> Z -> Z).
  Hypothesis n_pos : 0 <= n.
  Hypothesis A_bytes : forall r c, is_byte (A r c).
  #[local] Abbreviation N := (Z.to_nat n).

(** Row [r] of [l] times the columns of [A], and times a vector. *)
Definition times_A (l : list Z) (r c : Z) : Z := gsum (fun j => fast_mul (get n l r j) (A j c)) N.
Definition times_v (l : list Z) (v : Z -> Z) (r : Z) : Z := gsum (fun c => fast_mul (get n l r c) (v c)) N.

(** What every row operation keeps: [inv] times the input is [mat], and [mat] kills no more
    vectors than the input. *)
Record gauss (mat inv : list Z) : Prop := {
  gauss_mat : is_matrix n n mat;
  gauss_inv : is_matrix n n inv;
  gauss_prod : forall r c, 0 <= r < n -> 0 <= c < n -> times_A inv r c = get n mat r c;
  gauss_kernel : forall v, byte_fun v -> (forall r, 0 <= r < n -> times_v mat v r = 0) ->
    forall r, 0 <= r < n -> gsum (fun c => fast_mul (A r c) (v c)) N = 0
}.

Lemma get_fun l r : all_bytes l -> byte_fun (get n l r).
Proof. intros Hl c. by apply get_byte. Qed.

Lemma prod_fun l r (h : Z -> Z) : all_bytes l -> byte_fun h -> byte_fun (fun j => fast_mul (get n l r j) (h j)).
Proof. intros Hl Hh j. apply fast_mul_byte; [by apply get_byte|apply Hh]. Qed.

(** A row whose entries are those of another. *)
Lemma sum_row_ext l l' r r' (h : Z -> Z) : (forall c, 0 <= c < n -> get n l' r' c = get n l r c) ->
  gsum (fun c => fast_mul (get n l' r' c) (h c)) N = gsum (fun c => fast_mul (get n l r c) (h c)) N.
Proof. intros H. apply gsum_ext. intros c Hc. by rewrite H by lia. Qed.

Lemma sum_row_scale l l' r r' s (h : Z -> Z) : all_bytes l -> is_byte s -> byte_fun h ->
  (forall c, 0 <= c < n -> get n l' r' c = fast_mul (get n l r c) s) ->
  gsum (fun c => fast_mul (get n l' r' c) (h c)) N = fast_mul (gsum (fun c => fast_mul (get n l r c) (h c)) N) s.
Proof.
  intros Hl Hs Hh H. rewrite <- gsum_mul_r by (done || by apply prod_fun). apply gsum_ext. intros c Hc.
  rewrite H by lia. apply mul_rotate; [by apply get_byte|done|apply Hh].
Qed.

Lemma sum_row_add l l' r p f (h : Z -> Z) : all_bytes l -> is_byte f -> byte_fun h ->
  (forall c, 0 <= c < n -> get n l' r c = get n l r c .^ fast_mul f (get n l p c)) ->
  gsum (fun c => fast_mul (get n l' r c) (h c)) N =
  gsum (fun c => fast_mul (get n l r c) (h c)) N .^ fast_mul f (gsum (fun c => fast_mul (get n l p c) (h c)) N).
Proof.
  intros Hl Hf Hh H. rewrite <- gsum_mul_l by (done || by apply prod_fun). rewrite <- gsum_xor. apply gsum_ext. intros c Hc.
  rewrite H by lia. rewrite fast_mul_xor_l by (apply Hh || by apply get_byte || (apply fast_mul_byte; [done|by apply get_byte])).
  f_equal. apply fast_mul_assoc; [done|by apply get_byte|apply Hh].
Qed.

Lemma gauss_swap a b mat inv : gauss mat inv -> 0 <= a < n -> 0 <= b < n -> a <> b ->
  gauss (swap_rows n a b mat) (swap_rows n a b inv).
Proof.
  intros [Hm Hi Hp Hk] Ha Hb Hne. destruct (swap_rows_spec n a b mat Hm Ha Hb Hne) as [Hm' Gm].
  destruct (swap_rows_spec n a b inv Hi Ha Hb Hne) as [Hi' Gi]. constructor; [done|done|..].
  - intros r c Hr Hc. rewrite Gm by done. unfold times_A. destruct (Z.eqb_spec r a) as [->|Hra]; [|destruct (Z.eqb_spec r b) as [->|Hrb]].
    + rewrite <- (Hp b c) by done. apply sum_row_ext. intros j Hj. rewrite Gi by done. by rewrite Z.eqb_refl.
    + rewrite <- (Hp a c) by done. apply sum_row_ext. intros j Hj. rewrite Gi by done. by rewrite (proj2 (Z.eqb_neq b a)), Z.eqb_refl by lia.
    + rewrite <- (Hp r c) by done. apply sum_row_ext. intros j Hj. rewrite Gi by done. by rewrite !(proj2 (Z.eqb_neq _ _)) by done.
  - intros v Hv Hs. apply Hk; [done|]. intros r Hr.
    assert (Hrow : forall q, 0 <= q < n -> (forall c, 0 <= c < n -> get n (swap_rows n a b mat) q c = get n mat r c) -> times_v mat v r = 0).
    { intros q Hq He. rewrite <- (Hs q Hq). symmetry. by apply sum_row_ext. }
    destruct (Z.eqb_spec r a) as [->|Hra]; [|destruct (Z.eqb_spec r b) as [->|Hrb]].
    + apply (Hrow b Hb). intros c Hc. rewrite Gm by done. by rewrite (proj2 (Z.eqb_neq b a)), Z.eqb_refl by lia.
    + apply (Hrow a Ha). intros c Hc. rewrite Gm by done. by rewrite Z.eqb_refl.
    + apply (Hrow r Hr). intros c Hc. rewrite Gm by done. by rewrite !(proj2 (Z.eqb_neq _ _)) by done.
Qed.

Lemma gauss_scale p s mat inv : gauss mat inv -> 0 <= p < n -> is_byte s -> s <> 0 ->
  gauss (scale_row n p s mat) (scale_row n p s inv).
Proof.
  intros [Hm Hi Hp Hk] Hr0 Hs Hs0. destruct (scale_row_spec n p s mat Hm Hr0 Hs) as [Hm' Gm].
  destruct (scale_row_spec n p s inv Hi Hr0 Hs) as [Hi' Gi]. constructor; [done|done|..].
  - intros r c Hr Hc. rewrite Gm by done. unfold times_A. destruct (Z.eqb_spec r p) as [->|Hne].
    + rewrite <- (Hp p c) by done. apply sum_row_scale; [apply Hi|done|intros j; apply A_bytes|].
      intros j Hj. rewrite Gi by done. by rewrite Z.eqb_refl.
    + rewrite <- (Hp r c) by done. apply sum_row_ext. intros j Hj. rewrite Gi by done. by rewrite (proj2 (Z.eqb_neq _ _)) by done.
  - intros v Hv Hsol. apply Hk; [done|]. intros r Hr. specialize (Hsol r Hr). unfold times_v in *. destruct (Z.eq_dec r p) as [->|Hne].
    + rewrite (sum_row_scale mat _ p p s) in Hsol; [|apply Hm|done|done|intros c Hc; rewrite Gm by done; by rewrite Z.eqb_refl].
      apply fast_mul_integral in Hsol as [|]; [done|done|apply gsum_byte, prod_fun; [apply Hm|done]|done].
    + rewrite <- Hsol. symmetry. apply sum_row_ext. intros c Hc. rewrite Gm by done. by rewrite (proj2 (Z.eqb_neq _ _)) by done.
Qed.

Lemma gauss_add r0 p f mat inv : gauss mat inv -> 0 <= r0 < n -> 0 <= p < n -> p <> r0 -> is_byte f ->
  gauss (add_row n r0 p f mat) (add_row n r0 p f inv).
Proof.
  intros [Hm Hi Hp Hk] Hr0 Hp0 Hpr Hf. destruct (add_row_spec n r0 p f mat Hm Hr0 Hp0 Hpr Hf) as [Hm' Gm].
  destruct (add_row_spec n r0 p f inv Hi Hr0 Hp0 Hpr Hf) as [Hi' Gi]. constructor; [done|done|..].
  - intros r c Hr Hc. rewrite Gm by done. unfold times_A. destruct (Z.eqb_spec r r0) as [->|Hne].
    + rewrite <- (Hp r0 c), <- (Hp p c) by done. apply sum_row_add; [apply Hi|done|intros j; apply A_bytes|].
      intros j Hj. rewrite Gi by done. by rewrite Z.eqb_refl.
    + rewrite <- (Hp r c) by done. apply sum_row_ext. intros j Hj. rewrite Gi by done. by rewrite (proj2 (Z.eqb_neq _ _)) by done.
  - intros v Hv Hsol. apply Hk; [done|].
    assert (Hother : forall r, 0 <= r < n -> r <> r0 -> times_v mat v r = 0).
    { intros r Hr Hne. rewrite <- (Hsol r Hr). symmetry. apply sum_row_ext. intros c Hc. rewrite Gm by done.
      by rewrite (proj2 (Z.eqb_neq _ _)) by done. }
    intros r Hr. destruct (Z.eq_dec r r0) as [->|Hne]; [|by apply Hother]. specialize (Hsol r0 Hr0). unfold times_v in *.
    rewrite (sum_row_add mat _ r0 p f) in Hsol; [|apply Hm|done|done|intros c Hc; rewrite Gm by done; by rewrite Z.eqb_refl].
    rewrite (Hother p Hp0 Hpr), fast_mul_0_r, Z.lxor_0_r in Hsol. done.
Qed.

(** The columns done so far are those of the identity. *)
Definition units (col : Z) (mat : list Z) : Prop :=
  forall r c, 0 <= r < n -> 0 <= c < col -> get n mat r c = delta r c.

Lemma find_pivot_spec col mat : 0 <= col < n ->
  match find_pivot n col mat with
  | Some p => col <= p < n /\ get n mat p col <> 0
  | None => forall r, col <= r < n -> get n mat r col = 0
  end.
Proof.
  intros Hc. unfold find_pivot. destruct (List.find _ _) as [p|] eqn:E.
  - apply find_some in E as [Hin Hp]. apply list_elem_of_In, elem_of_seqZ in Hin. apply negb_true_iff, Z.eqb_neq in Hp.
    unfold get. split; [lia|done].
  - intros r Hr. pose proof (find_none _ _ E r) as H. cbv beta in H.
    specialize (H ltac:(apply list_elem_of_In, elem_of_seqZ; lia)). by apply negb_false_iff, Z.eqb_eq in H.
Qed.

(** The column below and above the pivot is cleared. *)
Lemma eliminate_rows col mat inv : gauss mat inv -> 0 <= col < n -> units col mat -> get n mat col col = 1 ->
  forall j : nat, Z.of_nat j <= n ->
  let '(mat', inv') := foldl (fun mi row => eliminate n col row mi) (mat, inv) (seqZ 0 (Z.of_nat j)) in
  gauss mat' inv' /\ units col mat' /\ get n mat' col col = 1 /\
  forall r, 0 <= r < Z.of_nat j -> r <> col -> get n mat' r col = 0.
Proof.
  intros Hg Hc Hu H1. induction j as [|j IH]; intros Hj; [split_and!; try done; lia|].
  rewrite seqZ_S, foldl_app. cbn [foldl]. rewrite Z.add_0_l.
  destruct (foldl _ _ _) as [m i] eqn:E. destruct (IH ltac:(lia)) as (Hg' & Hu' & H1' & Hz). clear IH E.
  unfold eliminate. destruct (Z.eqb_spec (Z.of_nat j) col) as [Ej|Ej].
  { split_and!; try done. intros r Hr Hne. apply Hz; lia. }
  fold (get n m (Z.of_nat j) col). destruct (Z.eqb_spec (get n m (Z.of_nat j) col) 0) as [Ez|Ez].
  { split_and!; try done. intros r Hr Hne. destruct (Z.eq_dec r (Z.of_nat j)) as [->|]; [done|]. apply Hz; lia. }
  assert (Hj' : 0 <= Z.of_nat j < n) by lia. pose proof (get_byte n m (Z.of_nat j) col (proj2 (gauss_mat _ _ Hg'))) as Hf.
  split; [by apply gauss_add; [..|congruence|]|].
  destruct (add_row_spec n (Z.of_nat j) col _ m (gauss_mat _ _ Hg') Hj' Hc ltac:(congruence) Hf) as [_ G]. split_and!.
  - intros r c Hr Hc'. rewrite G by (done || lia). destruct (Z.eqb_spec r (Z.of_nat j)) as [->|]; [|by apply Hu'].
    rewrite (Hu' (Z.of_nat j) c), (Hu' col c), (delta_ne col c), fast_mul_0_r by lia. apply Z.lxor_0_r.
  - rewrite G by done. by rewrite (proj2 (Z.eqb_neq col _)) by congruence.
  - intros r Hr Hne. rewrite G by lia. destruct (Z.eqb_spec r (Z.of_nat j)) as [->|]; [|apply Hz; lia].
    rewrite H1', fast_mul_comm, fast_mul_1_l by done. apply Z.lxor_nilpotent.
Qed.

Lemma invert_column_some col mat inv mi : gauss mat inv -> 0 <= col < n -> units col mat ->
  invert_column n col (mat, inv) = Some mi -> gauss (fst mi) (snd mi) /\ units (col + 1) (fst mi).
Proof.
  intros Hg Hc Hu. unfold invert_column. pose proof (find_pivot_spec col mat Hc) as Hpv.
  destruct (find_pivot n col mat) as [p|]; [|done]. destruct Hpv as [Hp Hne].
  set (mi1 := if p =? col then _ else _).
  assert (H1 : gauss (fst mi1) (snd mi1) /\ units col (fst mi1) /\ get n (fst mi1) col col <> 0).
  { unfold mi1. destruct (Z.eqb_spec p col) as [->|Hpc]; [done|]. cbn [fst snd].
    destruct (swap_rows_spec n col p mat (gauss_mat _ _ Hg) Hc ltac:(lia) ltac:(congruence)) as [_ G].
    split_and!; [apply gauss_swap; done || lia || congruence| |].
    - intros r c Hr Hc'. rewrite G by (done || lia). destruct (Z.eqb_spec r col) as [->|]; [|destruct (Z.eqb_spec r p) as [->|]; [|by apply Hu]].
      + rewrite Hu by lia. by rewrite !delta_ne by lia.
      + rewrite Hu by lia. by rewrite !delta_ne by lia.
    - rewrite G by done. by rewrite Z.eqb_refl. }
  destruct mi1 as [m1 i1]. cbn [fst snd] in H1. destruct H1 as (Hg1 & Hu1 & Hne1).
  fold (get n m1 col col). pose proof (get_byte n m1 col col (proj2 (gauss_mat _ _ Hg1))) as Hb.
  set (s := Gf256.inv (get n m1 col col)). assert (Hs0 : s <> 0).
  { intros E. pose proof (fast_mul_inv _ Hb Hne1) as Hi. fold s in Hi. by rewrite E, fast_mul_0_r in Hi. }
  pose proof (gauss_scale col s _ _ Hg1 Hc (inv_byte _) Hs0) as Hg2.
  destruct (scale_row_spec n col s m1 (gauss_mat _ _ Hg1) Hc (inv_byte _)) as [_ G].
  assert (Hu2 : units col (scale_row n col s m1)).
  { intros r c Hr Hc'. rewrite G by (done || lia). destruct (Z.eqb_spec r col) as [->|]; [|by apply Hu1].
    rewrite Hu1 by lia. by rewrite delta_ne, fast_mul_0_l by lia. }
  assert (H11 : get n (scale_row n col s m1) col col = 1) by (rewrite G, Z.eqb_refl by done; by apply fast_mul_inv).
  pose proof (eliminate_rows col _ _ Hg2 Hc Hu2 H11 (Z.to_nat n) ltac:(lia)) as He. rewrite Z2Nat.id in He by lia.
  intros [= <-]. destruct (foldl _ _ _) as [m3 i3]. destruct He as (Hg3 & Hu3 & H13 & Hz3). split; [done|].
  intros r c Hr Hc'. destruct (Z.eq_dec c col) as [->|]; [|apply Hu3; lia].
  unfold delta. destruct (Z.eqb_spec r col) as [->|Hrc]; [done|]. by apply Hz3.
Qed.

(** No pivot: the input kills a vector whose entry [col] is 1. *)
Lemma invert_column_none col mat inv : gauss mat inv -> 0 <= col < n -> units col mat ->
  invert_column n col (mat, inv) = None ->
  exists v, byte_fun v /\ v col = 1 /\ forall r, 0 <= r < n -> gsum (fun c => fast_mul (A r c) (v c)) N = 0.
Proof.
  intros Hg Hc Hu. unfold invert_column. pose proof (find_pivot_spec col mat Hc) as Hpv.
  destruct (find_pivot n col mat) as [p|]; [by destruct (if p =? col then _ else _)|]. intros _.
  set (v := fun c => if c <? col then get n mat c col else delta c col). exists v.
  assert (Hm := gauss_mat _ _ Hg). assert (Hv : byte_fun v).
  { intros c. unfold v, delta. repeat case_match; [apply get_byte, Hm|done|done]. }
  split; [done|]. split; [unfold v, delta; by rewrite Z.ltb_irrefl, Z.eqb_refl|].
  apply (gauss_kernel _ _ Hg v Hv). intros r Hr. unfold times_v.
  set (h1 := fun c => if c <? col then fast_mul (delta r c) (get n mat c col) else 0).
  set (h2 := fun c => if c =? col then get n mat r col else 0).
  rewrite (gsum_ext _ (fun c => h1 c .^ h2 c)).
  2: { intros c Hc'. unfold h1, h2, v. destruct (Z.ltb_spec c col).
       - rewrite (Hu r c), (proj2 (Z.eqb_neq c col)) by lia. by rewrite Z.lxor_0_r.
       - rewrite Z.lxor_0_l. unfold delta. destruct (Z.eqb_spec c col) as [->|]; [|apply fast_mul_0_r].
         rewrite fast_mul_comm by (done || apply get_byte, Hm). apply fast_mul_1_l, get_byte, Hm. }
  rewrite gsum_xor, (gsum_single h2 _ col) by (lia || intros c _ Hne; unfold h2; by rewrite (proj2 (Z.eqb_neq c col))).
  unfold h2. rewrite Z.eqb_refl. destruct (Z.lt_ge_cases r col) as [Hlt|Hge].
  - rewrite (gsum_single h1 _ r).
    + unfold h1, delta. rewrite (proj2 (Z.ltb_lt r col)), Z.eqb_refl, fast_mul_1_l by (done || apply get_byte, Hm). apply Z.lxor_nilpotent.
    + lia.
    + intros c _ Hne. unfold h1. case_match; [|done]. by rewrite delta_ne, fast_mul_0_l by congruence.
  - rewrite (gsum_0 h1), Hpv by lia || (intros c _; unfold h1; destruct (Z.ltb_spec c col); [rewrite delta_ne by lia; apply fast_mul_0_l|done]).
    done.
Qed.

(** *** The whole inversion *)

Lemma identity_spec : is_matrix n n (identity n) /\ forall r c, 0 <= r < n -> 0 <= c < n -> get n (identity n) r c = delta r c.
Proof. apply diagonal_spec. lia. Qed.

Lemma gauss_start mat : is_matrix n n mat -> (forall r c, 0 <= r < n -> 0 <= c < n -> get n mat r c = A r c) -> gauss mat (identity n).
Proof.
  intros Hm HA. destruct identity_spec as [Hi Gi]. constructor; [done|done|..].
  - intros r c Hr Hc. unfold times_A. rewrite HA by done. rewrite <- (gsum_delta (fun j => A j c) N r) by (lia || intros ?; apply A_bytes).
    apply gsum_ext. intros j Hj. by rewrite Gi by lia.
  - intros v Hv Hs r Hr. rewrite <- (Hs r Hr). apply gsum_ext. intros c Hc. by rewrite HA by lia.
Qed.

(** [invert_matrix] gives a left inverse, or the matrix is singular. *)
Lemma invert_matrix_spec mat : is_matrix n n mat -> (forall r c, 0 <= r < n -> 0 <= c < n -> get n mat r c = A r c) ->
  match invert_matrix mat n with
  | Some inv => is_matrix n n inv /\ forall r c, 0 <= r < n -> 0 <= c < n -> times_A inv r c = delta r c
  | None => exists v col, byte_fun v /\ 0 <= col < n /\ v col = 1 /\
      forall r, 0 <= r < n -> gsum (fun c => fast_mul (A r c) (v c)) N = 0
  end.
Proof.
  intros Hm HA. unfold invert_matrix.
  set (F := fun acc col => match acc with Some mi => invert_column n col mi | None => None end).
  set (singular := exists v col, byte_fun v /\ 0 <= col < n /\ v col = 1 /\
      forall r, 0 <= r < n -> gsum (fun c => fast_mul (A r c) (v c)) N = 0).
  assert (H : forall j : nat, Z.of_nat j <= n ->
    match foldl F (Some (mat, identity n)) (seqZ 0 (Z.of_nat j)) with
    | Some (m, i) => gauss m i /\ units (Z.of_nat j) m
    | None => singular
    end).
  { induction j as [|j IH]; intros Hj; [split; [by apply gauss_start|intros r c ? ?; lia]|].
    rewrite seqZ_S, foldl_app. cbn [foldl]. rewrite Z.add_0_l. specialize (IH ltac:(lia)).
    destruct (foldl F _ _) as [[m i]|]; [|done]. destruct IH as [Hg Hu]. unfold F.
    destruct (invert_column n (Z.of_nat j) (m, i)) as [[m' i']|] eqn:E.
    - apply invert_column_some in E as [? ?]; [|done|lia|done]. cbn [fst snd] in *. split; [done|].
      by replace (Z.of_nat (S j)) with (Z.of_nat j + 1) by lia.
    - apply invert_column_none in E as (v & ? & ? & ?); [|done|lia|done]. exists v, (Z.of_nat j). split_and!; try done; lia. }
  specialize (H (Z.to_nat n) ltac:(lia)). rewrite Z2Nat.id in H by lia.
  destruct (foldl F _ _) as [[m i]|]; [|done]. destruct H as [Hg Hu]. split; [apply Hg|].
  intros r c Hr Hc. rewrite (gauss_prod _ _ Hg) by done. by apply Hu.
Qed.
End Elimination.

(** ** The generator matrix *)

Definition coefficient (k r c : Z) : Z := if r <? k then delta r c else pow (u8 (r - k + 1)) c.

Lemma pow_is_byte b e : is_byte (pow b e).
Proof. apply pow_byte. Qed.

Lemma coefficient_byte k r c : is_byte (coefficient k r c).
Proof. unfold coefficient, delta. repeat case_match; done || apply pow_is_byte. Qed.

Lemma generator_spec k m : 0 <= k -> 0 <= m ->
  is_matrix (k + m) k (make_generator_matrix k m) /\
  forall r c, 0 <= r < k + m -> 0 <= c < k -> get k (make_generator_matrix k m) r c = coefficient k r c.
Proof.
  intros Hk Hm. unfold make_generator_matrix. cbv zeta. destruct (diagonal_spec (k + m) k ltac:(lia)) as [H0 G0].
  set (mat0 := foldl _ _ (seqZ 0 k)) in *.
  assert (H : forall j : nat, Z.of_nat j <= m ->
    let l := foldl (fun mat i => foldl (fun mat j => put mat ((k + i) * k + j) (pow (u8 (i + 1)) j)) mat (seqZ 0 k)) mat0 (seqZ 0 (Z.of_nat j)) in
    is_matrix (k + m) k l /\ forall r c, 0 <= r < k + m -> 0 <= c < k ->
      get k l r c = if r <? k + Z.of_nat j then coefficient k r c else 0).
  { induction j as [|j IH]; intros Hj; cbv zeta.
    - split; [done|]. intros r c Hr Hc. change (seqZ 0 (Z.of_nat 0)) with (@nil Z). cbn [foldl]. rewrite G0 by done. unfold coefficient.
      replace (k + Z.of_nat 0) with k by lia. destruct (Z.ltb_spec r k); [done|]. apply delta_ne. lia.
    - rewrite seqZ_S, foldl_app. cbn [foldl]. rewrite Z.add_0_l. destruct (IH ltac:(lia)) as [Hl Hg]. clear IH.
      set (l := foldl _ mat0 _) in *.
      destruct (row_loop (k + m) k (k + Z.of_nat j) (fun _ c => pow (u8 (Z.of_nat j + 1)) c) l Hl ltac:(lia) Hk) as [Hl' Hg'];
        [done|intros; apply pow_is_byte|]. split; [done|]. intros r c Hr Hc. rewrite Hg', Hg by done. unfold coefficient.
      destruct (Z.eqb_spec r (k + Z.of_nat j)) as [->|].
      + rewrite (proj2 (Z.ltb_lt _ _)), (proj2 (Z.ltb_ge _ _)) by lia. do 2 f_equal. lia.
      + destruct (Z.ltb_spec r (k + Z.of_nat j)), (Z.ltb_spec r (k + Z.of_nat (S j))); done || lia. }
  destruct (H (Z.to_nat m) ltac:(lia)) as [Hl Hg]. rewrite Z2Nat.id in Hl, Hg by lia. split; [done|].
  intros r c Hr Hc. rewrite Hg by done. by rewrite (proj2 (Z.ltb_lt _ _)) by lia.
Qed.
