(* ===== verification/ErasureRecovery.v ===== *)
(** * Erasure coding: what [reconstruct] recovers

    Shards encoded by [ErasureCoder::encode], some of them lost: a successful [reconstruct]
    restores the data shards, with one or two parity shards it always succeeds, and with more it
    may fail although enough shards are present. *)

From S2P Require Import Prelude Gf256 Erasure GaussJordan.
#[local] Open Scope Z_scope.
#[local] Open Scope word_scope.
#[local] Opaque fast_mul.

(** ** Shards *)

(** [n] shards of [len] bytes. *)
Record shards_ok (n len : Z) (sh : list bytes) : Prop := {
  shards_count : zlen sh = n;
  shards_len : forall i, 0 <= i < n -> zlen (shard sh i) = len;
  shards_bytes : forall i, all_bytes (shard sh i)
}.

Lemma shard_put sh i j v : 0 <= i -> 0 <= j < zlen sh -> shard (put sh j v) i = if i =? j then v else shard sh i.
Proof.
  intros Hi Hj. unfold shard, put. destruct (Z.eqb_spec i j) as [->|Hne].
  - apply nth_lookup_Some, list_lookup_insert_eq. unfold zlen in Hj. lia.
  - rewrite !nth_lookup. by rewrite list_lookup_insert_ne by lia.
Qed.

Lemma shards_ok_put n len sh j v : shards_ok n len sh -> 0 <= j < n -> zlen v = len -> all_bytes v -> shards_ok n len (put sh j v).
Proof.
  intros [Hc Hl Hb] Hj Hv Hvb. constructor; [by rewrite zlen_put| |].
  - intros i Hi. rewrite shard_put by lia. case_match; [done|by apply Hl].
  - intros i. unfold shard, put. rewrite nth_lookup. destruct (decide (Z.to_nat i = Z.to_nat j)) as [E|E].
    + rewrite E, list_lookup_insert_eq by (unfold zlen in Hc; lia). done.
    + rewrite list_lookup_insert_ne by done. rewrite <- nth_lookup. apply Hb.
Qed.

Lemma mul_add_equal coeff inp out : length inp = length out -> mul_add_scalar coeff inp out = zip_with (mac coeff) out inp.
Proof.
  intros Hl. rewrite <- (app_nil_r inp) at 1. rewrite <- (app_nil_r out) at 1. rewrite mul_add_app by done. by rewrite app_nil_r.
Qed.

Lemma at_zip_mac coeff out inp x : length inp = length out -> 0 <= x < zlen out ->
  at_ (zip_with (mac coeff) out inp) x = at_ out x .^ fast_mul coeff (at_ inp x).
Proof.
  intros Hl Hx. unfold at_, zlen in *. rewrite !nth_lookup, lookup_zip_with.
  destruct (lookup_lt_is_Some_2 out (Z.to_nat x) ltac:(lia)) as [o ->].
  destruct (lookup_lt_is_Some_2 inp (Z.to_nat x) ltac:(lia)) as [y ->]. done.
Qed.

Lemma mac_bytes coeff out inp : is_byte coeff -> all_bytes out -> all_bytes inp -> all_bytes (zip_with (mac coeff) out inp).
Proof.
  intros Hc Ho. revert inp. induction Ho as [|o out Hob Ho IH]; intros [|x inp] Hi; try apply Forall_nil_2.
  apply Forall_cons in Hi as [Hx Hi]. cbn [zip_with]. apply Forall_cons. split; [|by apply IH].
  apply byte_lxor; [done|by apply fast_mul_byte].
Qed.

(** One step of the accumulation. *)
Lemma mul_add_shard t n len sh q p coeff : shards_ok n len sh -> 0 <= q < n -> 0 <= p < n -> is_byte coeff ->
  let v := gf_mul_add t coeff (shard sh p) (shard sh q) in
  zlen v = len /\ all_bytes v /\ forall x, 0 <= x < len -> at_ v x = at_ (shard sh q) x .^ fast_mul coeff (at_ (shard sh p) x).
Proof.
  intros [Hc Hl Hb] Hq Hp Hco. cbv zeta. rewrite gf_mul_add_scalar by (done || apply Hb).
  pose proof (Hl q Hq) as Lq. pose proof (Hl p Hp) as Lp. unfold zlen in Lq, Lp.
  rewrite mul_add_equal by lia. split; [unfold zlen; rewrite length_zip_with; lia|]. split; [by apply mac_bytes|].
  intros x Hx. apply at_zip_mac; [lia|unfold zlen; lia].
Qed.

(** The inner loop of [encode] and [reconstruct]: shard [q] takes up the shards [src r], times
    their coefficients. *)
Lemma accumulate t n len q src co sh : shards_ok n len sh -> 0 <= q < n -> (forall r, is_byte (co r)) ->
  forall j : nat, (forall r, 0 <= r < Z.of_nat j -> 0 <= src r < n /\ src r <> q) ->
  let sh' := foldl (fun sh r => if co r =? 0 then sh else put sh q (gf_mul_add t (co r) (shard sh (src r)) (shard sh q)))
               sh (seqZ 0 (Z.of_nat j)) in
  shards_ok n len sh' /\ (forall i, 0 <= i < n -> i <> q -> shard sh' i = shard sh i) /\
  forall x, 0 <= x < len -> at_ (shard sh' q) x = at_ (shard sh q) x .^ gsum (fun r => fast_mul (co r) (at_ (shard sh (src r)) x)) j.
Proof.
  intros Hok Hq Hco. induction j as [|j IH]; intros Hsrc; cbv zeta.
  { split; [done|]. split; [done|]. intros x Hx. cbn. by rewrite Z.lxor_0_r. }
  rewrite seqZ_S, foldl_app. cbn [foldl gsum]. rewrite Z.add_0_l.
  destruct IH as (Hok' & Hsame & Hsum); [intros r Hr; apply Hsrc; lia|]. set (sh' := foldl _ sh _) in *.
  destruct (Hsrc (Z.of_nat j) ltac:(lia)) as [Hs Hne]. rewrite <- (Hsame _ Hs Hne).
  destruct (Z.eqb_spec (co (Z.of_nat j)) 0) as [E|E].
  { split; [done|]. split; [done|]. intros x Hx. rewrite E, fast_mul_0_l, Z.lxor_0_r. by apply Hsum. }
  destruct (mul_add_shard t n len sh' q _ _ Hok' Hq Hs (Hco (Z.of_nat j))) as (Hlv & Hbv & Hv).
  pose proof (shards_count _ _ _ Hok') as Hcount. split; [by apply shards_ok_put|]. split.
  - intros i Hi Hiq. rewrite shard_put by lia. rewrite (proj2 (Z.eqb_neq i q)) by done. by apply Hsame.
  - intros x Hx. rewrite shard_put, Z.eqb_refl by lia. rewrite Hv, Hsum by done. apply Z.lxor_assoc.
Qed.

(** ** Encoding *)

Lemma at_zeros n x : at_ (replicate n 0) x = 0.
Proof.
  unfold at_. destruct (nth_in_or_default (Z.to_nat x) (replicate n 0) 0) as [Hin|]; [|done].
  by apply list_elem_of_In, elem_of_replicate in Hin as [? _].
Qed.

Lemma zeros_ok n len sh : shards_ok n len sh -> forall i, 0 <= i < n ->
  zlen (replicate (length (shard sh i)) 0) = len /\ all_bytes (replicate (length (shard sh i)) 0).
Proof. intros Hok i Hi. rewrite zlen_replicate. split; [apply (shards_len _ _ _ Hok i Hi)|by apply Forall_replicate]. Qed.

Section Coder.
  Context (k m : Z).
  Hypothesis k_pos : 1 <= k.
  Hypothesis m_pos : 0 <= m.
Definition ec : ErasureCoder := ErasureCoder_init k m.
  #[local] Abbreviation K := (Z.to_nat k).

(** Byte [x] of shard [r] of the codeword of the data shards. *)
Definition code_byte (data : list bytes) (r x : Z) : Z :=
  gsum (fun d => fast_mul (coefficient k r d) (at_ (shard data d) x)) K.

Lemma code_byte_data data r x : (forall i, all_bytes (shard data i)) -> 0 <= r < k -> code_byte data r x = at_ (shard data r) x.
Proof.
  intros Hb Hr. unfold code_byte. rewrite <- (gsum_delta (fun d => at_ (shard data d) x) K r) by (lia || intros i; apply at_byte, Hb).
  apply gsum_ext. intros d Hd. unfold coefficient. by rewrite (proj2 (Z.ltb_lt r k)) by lia.
Qed.

Lemma zero_parity len sh : shards_ok (k + m) len sh -> forall j : nat, Z.of_nat j <= m ->
  let sh' := foldl (fun sh p => put sh (k + p) (replicate (length (shard sh (k + p))) 0)) sh (seqZ 0 (Z.of_nat j)) in
  shards_ok (k + m) len sh' /\ (forall i, 0 <= i < k -> shard sh' i = shard sh i) /\
  forall i x, k <= i < k + Z.of_nat j -> at_ (shard sh' i) x = 0.
Proof.
  intros Hok. induction j as [|j IH]; intros Hj; cbv zeta.
  { split; [done|]. split; [done|]. intros i x Hi. lia. }
  rewrite seqZ_S, foldl_app. cbn [foldl]. rewrite Z.add_0_l.
  destruct IH as (Hok' & Hsame & Hz); [lia|]. set (sh' := foldl _ sh _) in *. pose proof (shards_count _ _ _ Hok') as Hc.
  destruct (zeros_ok _ _ _ Hok' (k + Z.of_nat j) ltac:(lia)) as [Hzl Hzb].
  split; [by apply shards_ok_put; [..|lia| |]|]. split.
  - intros i Hi. rewrite shard_put by lia. rewrite (proj2 (Z.eqb_neq i _)) by lia. by apply Hsame.
  - intros i x Hi. rewrite shard_put by lia. destruct (Z.eqb_spec i (k + Z.of_nat j)); [apply at_zeros|]. apply Hz. lia.
Qed.

Lemma encode_spec t len sh : shards_ok (k + m) len sh ->
  shards_ok (k + m) len (encode t ec sh) /\ (forall i, 0 <= i < k -> shard (encode t ec sh) i = shard sh i) /\
  forall r x, 0 <= r < k + m -> 0 <= x < len -> at_ (shard (encode t ec sh) r) x = code_byte sh r x.
Proof.
  intros Hok. unfold encode. cbn [k_ m_ gmat_ ec ErasureCoder_init]. cbv zeta.
  destruct (zero_parity len sh Hok (Z.to_nat m) ltac:(lia)) as (Hok0 & Hs0 & Hz0). rewrite Z2Nat.id in Hok0, Hs0, Hz0 by lia.
  set (sh0 := foldl _ sh (seqZ 0 m)) in *. destruct (generator_spec k m ltac:(lia) m_pos) as [[_ Hgb] Hg].
  set (gm := make_generator_matrix k m) in *.
  assert (H : forall j : nat, Z.of_nat j <= m ->
    let sh' := foldl (fun sh p => foldl (fun sh d => let coeff := at_ gm ((k + p) * k + d) in
      if coeff =? 0 then sh else put sh (k + p) (gf_mul_add t coeff (shard sh d) (shard sh (k + p)))) sh (seqZ 0 k)) sh0 (seqZ 0 (Z.of_nat j)) in
    shards_ok (k + m) len sh' /\ (forall i, 0 <= i < k -> shard sh' i = shard sh i) /\
    (forall i x, k + Z.of_nat j <= i < k + m -> at_ (shard sh' i) x = 0) /\
    forall r x, k <= r < k + Z.of_nat j -> 0 <= x < len -> at_ (shard sh' r) x = code_byte sh r x).
  { induction j as [|j IH]; intros Hj; cbv zeta.
    { split_and!; [done|done|intros i x Hi; apply Hz0; lia|intros r x Hr; lia]. }
    rewrite seqZ_S, foldl_app. cbn [foldl]. rewrite Z.add_0_l. destruct IH as (Hok' & Hsame & Hz & Hcode); [lia|].
    set (sh' := foldl _ sh0 _) in *. set (q := k + Z.of_nat j). assert (Eq : q = k + Z.of_nat j) by done.
    destruct (accumulate t (k + m) len q (fun d => d) (fun d => at_ gm (q * k + d)) sh' Hok' ltac:(lia) ltac:(intros; by apply at_byte) K)
      as (Hok2 & Hs2 & Hsum2); [intros; lia|]. rewrite Z2Nat.id in Hok2, Hs2, Hsum2 by lia. cbv zeta in *.
    set (sh2 := foldl _ sh' (seqZ 0 k)) in *. split_and!; [done|..].
    - intros i Hi. rewrite Hs2 by lia. by apply Hsame.
    - intros i x Hi. rewrite Hs2 by lia. apply Hz. lia.
    - intros r x Hr Hx. destruct (Z.eq_dec r q) as [->|Hne]; [|rewrite Hs2 by lia; apply Hcode; lia].
      rewrite Hsum2 by done.
      rewrite (Hz q x) by lia. rewrite Z.lxor_0_l. apply gsum_ext. intros d Hd. rewrite Hsame by lia.
      fold (get k gm q d). by rewrite Hg by lia. }
  destruct (H (Z.to_nat m) ltac:(lia)) as (Hok1 & Hs1 & _ & Hc1). rewrite Z2Nat.id in Hok1, Hs1, Hc1 by lia.
  split; [done|]. split; [done|]. intros r x Hr Hx. destruct (Z.lt_ge_cases r k); [|apply Hc1; [lia|done]].
  rewrite Hs1 by lia. symmetry. apply code_byte_data; [|lia]. intros i. apply (shards_bytes _ _ _ Hok).
Qed.

(** ** Reconstruction *)

Definition available (present : list bool) : Z := zlen (List.filter (fun p => p) present).

Lemma filter_map_length {A} (f : A -> bool) l : length (List.filter (fun p => p) (map f l)) = length (List.filter f l).
Proof. induction l as [|x l IH]; [done|]. cbn. case_match; cbn; by rewrite ?IH. Qed.

Lemma map_present present : map (is_present present) (seqZ 0 (zlen present)) = present.
Proof.
  apply list_eq. intros i. change (map (is_present present) ?x) with (is_present present <$> x). rewrite list_lookup_fmap.
  destruct (decide (i < length present)%nat) as [Hi|Hi].
  - rewrite lookup_seqZ_lt by (unfold zlen; lia). cbn [fmap option_fmap option_map]. unfold is_present. rewrite Z.add_0_l, Nat2Z.id.
    destruct (lookup_lt_is_Some_2 present i Hi) as [b Hb]. rewrite Hb. f_equal. by apply nth_lookup_Some.
  - rewrite lookup_seqZ_ge by (unfold zlen; lia). symmetry. apply lookup_ge_None_2. lia.
Qed.

Lemma at_In l i : 0 <= i < zlen l -> In (at_ l i) l.
Proof. intros Hi. apply nth_In. unfold zlen in Hi. lia. Qed.

Lemma In_ztake {A} n (l : list A) x : In x (ztake n l) -> In x l.
Proof. intros H. rewrite <- (ztake_zdrop n l). apply in_app_iff. by left. Qed.

(** The rows used are [k] shards that are present. *)
Lemma row_idx_spec present : zlen present = k + m -> k <= available present ->
  zlen (row_idx ec present) = k /\ NoDup (row_idx ec present) /\
  forall r, 0 <= r < k -> 0 <= at_ (row_idx ec present) r < k + m /\ is_present present (at_ (row_idx ec present) r) = true.
Proof.
  intros Hp Ha. unfold row_idx, ec, ErasureCoder_init. cbn [k_ m_]. rewrite <- Hp.
  set (all := List.filter (is_present present) (seqZ 0 (zlen present))).
  assert (Hl : zlen all = available present).
  { unfold available, zlen, all. by rewrite <- filter_map_length, map_present. }
  assert (Hz : zlen (ztake k all) = k) by (apply zlen_ztake; lia). split; [done|]. split.
  - apply (sublist_NoDup _ all); [|apply sublist_take]. apply NoDup_ListNoDup, List.NoDup_filter, NoDup_ListNoDup, NoDup_seqZ.
  - intros r Hr. pose proof (at_In (ztake k all) r ltac:(lia)) as Hin. apply In_ztake in Hin.
    apply (proj1 (filter_In _ _ _)) in Hin as [Hin Hpr]. apply list_elem_of_In, elem_of_seqZ in Hin. split; [lia|done].
Qed.

Lemma at_app_r l l' i : 0 <= i -> at_ (l ++ l') (zlen l + i) = at_ l' i.
Proof. intros Hi. unfold at_, zlen. rewrite app_nth2 by lia. f_equal. lia. Qed.

Lemma at_concat_rows (f : Z -> list Z) w rows : (forall x, zlen (f x) = w) ->
  forall r c, 0 <= r < zlen rows -> 0 <= c < w -> at_ (concat (map f rows)) (r * w + c) = at_ (f (at_ rows r)) c.
Proof.
  intros Hf. induction rows as [|x rows IH]; intros r c Hr Hc; [unfold zlen in Hr; cbn in Hr; lia|].
  cbn [map concat]. destruct (Z.eq_dec r 0) as [->|Hne].
  - rewrite at_app_l by (rewrite Hf; lia). by rewrite Z.mul_0_l, Z.add_0_l.
  - replace (r * w + c) with (zlen (f x) + ((r - 1) * w + c)) by (rewrite Hf; lia). rewrite at_app_r by nia.
    rewrite zlen_cons in Hr. rewrite IH by lia. by rewrite at_cons_S by lia.
Qed.

Lemma zlen_concat_rows (f : Z -> list Z) w rows : (forall x, zlen (f x) = w) -> zlen (concat (map f rows)) = zlen rows * w.
Proof. intros Hf. induction rows as [|x rows IH]; [done|]. cbn [map concat]. rewrite zlen_app, zlen_cons, Hf, IH. lia. Qed.

Lemma decode_matrix_spec present : zlen present = k + m -> k <= available present ->
  let rows := row_idx ec present in
  is_matrix k k (decode_matrix ec rows) /\
  forall r c, 0 <= r < k -> 0 <= c < k -> get k (decode_matrix ec rows) r c = coefficient k (at_ rows r) c.
Proof.
  intros Hp Ha rows. destruct (row_idx_spec present Hp Ha) as (Hl & _ & Hr). fold rows in Hl, Hr.
  destruct (generator_spec k m ltac:(lia) m_pos) as [[_ Hgb] Hg].
  assert (Hf : forall x, zlen (map (fun c => at_ (gmat_ ec) (x * k + c)) (seqZ 0 k)) = k)
    by (intros x; rewrite zlen_map; unfold zlen; rewrite length_seqZ; lia).
  split; [split|].
  - unfold decode_matrix. cbn [k_ ec ErasureCoder_init]. rewrite (zlen_concat_rows _ k) by exact Hf. by rewrite Hl.
  - apply bytes_concat_map. intros x. apply Forall_map, Forall_forall. intros c _. by apply at_byte.
  - intros r c Hr' Hc. unfold get, decode_matrix. cbn [k_ ec ErasureCoder_init].
    rewrite (at_concat_rows _ k) by (exact Hf || lia). rewrite at_map_seqZ by done.
    destruct (Hr r Hr') as [Hrange _]. exact (Hg _ _ Hrange Hc).
Qed.

(** The size found is that of the shards. *)
Lemma size_found len sh present l s : 0 <= len -> (forall i, In i l -> zlen (shard sh i) = len) -> s = 0 \/ s = len ->
  foldl (fun sz i => if is_present present i && (sz <? zlen (shard sh i)) then zlen (shard sh i) else sz) s l =
  if existsb (is_present present) l then len else s.
Proof.
  intros Hlen. revert s. induction l as [|i l IH]; intros s Hi Hs; [done|]. cbn [foldl existsb].
  rewrite (Hi i) by by left. destruct (is_present present i); cbn [andb orb].
  - rewrite IH; [destruct (existsb _ _); [done|]; destruct (Z.ltb_spec s len); [done|destruct Hs; lia]| |].
    + intros; apply Hi; by right.
    + destruct (Z.ltb_spec s len); [by right|destruct Hs; lia].
  - apply IH; [intros; apply Hi; by right|done].
Qed.

Lemma size_spec len sh present : shards_ok (k + m) len sh -> zlen present = k + m -> k <= available present ->
  foldl (fun sz i => if is_present present i && (sz <? zlen (shard sh i)) then zlen (shard sh i) else sz) 0 (seqZ 0 (k + m)) = len.
Proof.
  intros Hok Hp Ha. destruct (row_idx_spec present Hp Ha) as (_ & _ & Hr). destruct (Hr 0 ltac:(lia)) as [H0 Hpr].
  rewrite (size_found len); [|rewrite <- (shards_len _ _ _ Hok 0) by lia; apply zlen_nonneg| |by left].
  - rewrite (proj2 (existsb_exists _ _)); [done|]. eexists. split; [|exact Hpr]. apply list_elem_of_In, elem_of_seqZ. lia.
  - intros i Hi. apply list_elem_of_In, elem_of_seqZ in Hi. apply (shards_len _ _ _ Hok). lia.
Qed.

(** The combination of the rows used that gives data shard [d]. *)
Lemma combine data inv rows d x : (forall i, all_bytes (shard data i)) -> all_bytes inv -> 0 <= d < k ->
  (forall c, 0 <= c < k -> times_A k (fun r c => coefficient k (at_ rows r) c) inv d c = delta d c) ->
  gsum (fun r => fast_mul (get k inv d r) (code_byte data (at_ rows r) x)) K = at_ (shard data d) x.
Proof.
  intros Hb Hi Hd Hinv. pose proof (fun i => at_byte (shard data i) x (Hb i)) as Hat.
  rewrite <- (gsum_delta (fun c => at_ (shard data c) x) K d) by (lia || exact Hat).
  rewrite (gsum_ext _ (fun r => gsum (fun c => fast_mul (fast_mul (get k inv d r) (coefficient k (at_ rows r) c)) (at_ (shard data c) x)) K)).
  2: { intros r _. unfold code_byte. rewrite <- gsum_mul_l; [|by apply get_byte|intros c; apply fast_mul_byte; [apply coefficient_byte|apply Hat]].
       apply gsum_ext. intros c _. symmetry. apply fast_mul_assoc; [by apply get_byte|apply coefficient_byte|apply Hat]. }
  rewrite gsum_swap. apply gsum_ext. intros c Hc. rewrite <- (Hinv c) by lia.
  apply gsum_mul_r; [apply Hat|]. intros r. apply fast_mul_byte; [by apply get_byte|apply coefficient_byte].
Qed.

Lemma zero_all len s : zlen s = len -> zero_prefix len s = replicate (Z.to_nat len) 0.
Proof. intros Hl. unfold zero_prefix. rewrite zdrop_all by lia. apply app_nil_r. Qed.

(** The loop over the missing data shards. *)
Lemma restore t len data sh present inv : shards_ok (k + m) len sh -> (forall i, all_bytes (shard data i)) ->
  zlen present = k + m -> k <= available present ->
  let rows := row_idx ec present in
  (forall i x, 0 <= i < k + m -> is_present present i = true -> 0 <= x < len -> at_ (shard sh i) x = code_byte data i x) ->
  all_bytes inv ->
  (forall r c, 0 <= r < k -> 0 <= c < k -> times_A k (fun r c => coefficient k (at_ rows r) c) inv r c = delta r c) ->
  forall j : nat, Z.of_nat j <= k ->
  let sh' := foldl (fun sh d =>
    if is_present present d then sh
    else
      let own := zlen (shard sh d) in
      let sh := put sh d (zero_prefix (if own <? len then own else len) (shard sh d)) in
      foldl (fun sh r =>
        let coeff := at_ inv (d * k + r) in
        if coeff =? 0 then sh else put sh d (gf_mul_add t coeff (shard sh (at_ rows r)) (shard sh d)))
        sh (seqZ 0 k)) sh (seqZ 0 (Z.of_nat j)) in
  shards_ok (k + m) len sh' /\
  (forall i, 0 <= i < k + m -> is_present present i = true \/ Z.of_nat j <= i -> shard sh' i = shard sh i) /\
  forall i x, 0 <= i < Z.of_nat j -> 0 <= x < len -> at_ (shard sh' i) x = at_ (shard data i) x.
Proof.
  intros Hok Hdb Hp Ha rows Hcode Hib Hinv. destruct (row_idx_spec present Hp Ha) as (_ & _ & Hrow). fold rows in Hrow.
  induction j as [|j IH]; intros Hj; cbv zeta; [split_and!; [done|done|lia]|].
  rewrite seqZ_S, foldl_app. cbn [foldl]. rewrite Z.add_0_l. destruct IH as (Hok1 & Hs1 & Hd1); [lia|]. cbv zeta in *.
  set (sh1 := foldl _ sh _) in *. set (d := Z.of_nat j) in *. assert (Ed : d = Z.of_nat j) by done.
  destruct (is_present present d) eqn:Epd.
  { split_and!; [done|intros i Hi [?|?]; apply Hs1; auto; lia|]. intros i x Hi Hx. destruct (Z.eq_dec i d) as [->|]; [|apply Hd1; lia].
    rewrite Hs1 by (lia || by left). rewrite Hcode by (done || lia). apply code_byte_data; [done|lia]. }
  pose proof (shards_len _ _ _ Hok1 d ltac:(lia)) as Hld. rewrite Hld, Z.ltb_irrefl, zero_all by done.
  assert (Hok2 : shards_ok (k + m) len (put sh1 d (replicate (Z.to_nat len) 0))).
  { apply shards_ok_put; [done|lia| |by apply Forall_replicate]. rewrite zlen_replicate. pose proof (zlen_nonneg (shard sh1 d)). lia. }
  set (sh2 := put _ _ _) in *. pose proof (shards_count _ _ _ Hok1) as Hc1.
  destruct (accumulate t (k + m) len d (at_ rows) (fun r => at_ inv (d * k + r)) sh2 Hok2 ltac:(lia) ltac:(intros; by apply at_byte) K)
    as (Hok3 & Hs3 & Hsum3).
  { intros r Hr. destruct (Hrow r ltac:(lia)) as [? Hpr]. split; [done|]. intros E. by rewrite E, Epd in Hpr. }
  rewrite Z2Nat.id in Hok3, Hs3, Hsum3 by lia. cbv zeta in *. set (sh3 := foldl _ sh2 _) in *.
  assert (Hs2 : forall i, 0 <= i -> i <> d -> shard sh2 i = shard sh1 i).
  { intros i Hi Hne. unfold sh2. rewrite shard_put by lia. by rewrite (proj2 (Z.eqb_neq i d)). }
  split_and!; [done|..].
  - intros i Hi Ho. destruct (Z.eq_dec i d) as [->|Hne]; [destruct Ho; [congruence|lia]|].
    rewrite Hs3, Hs2 by (done || lia). apply Hs1; [done|]. destruct Ho; [by left|right; lia].
  - intros i x Hi Hx. destruct (Z.eq_dec i d) as [->|Hne]; [|rewrite Hs3, Hs2 by (done || lia); apply Hd1; lia].
    rewrite Hsum3 by done. unfold sh2 at 1. rewrite shard_put, Z.eqb_refl, at_zeros, Z.lxor_0_l by lia.
    rewrite <- (combine data inv rows d x Hdb Hib ltac:(lia) (fun c => Hinv d c ltac:(lia))). apply gsum_ext. intros r Hr.
    destruct (Hrow r ltac:(lia)) as [Hrr Hpr]. unfold get. f_equal. rewrite Hs2, Hs1 by (lia || (by left) || (intros E; congruence)).
    by apply Hcode.
Qed.
End Coder.

Lemma bytes_eq (a b : bytes) len : zlen a = len -> zlen b = len -> (forall x, 0 <= x < len -> at_ a x = at_ b x) -> a = b.
Proof.
  intros Ha Hb H. apply (nth_ext _ _ 0 0); unfold zlen in *; [lia|]. intros x Hx. specialize (H (Z.of_nat x) ltac:(lia)).
  unfold at_ in H. by rewrite Nat2Z.id in H.
Qed.

(** Shards some of which are lost: those that are [present] are as encoded. *)
Definition received (t : target) (k m : Z) (data sh : list bytes) (present : list bool) (len : Z) : Prop :=
  shards_ok (k + m) len data /\ shards_ok (k + m) len sh /\ zlen present = k + m /\
  forall i, 0 <= i < k + m -> is_present present i = true -> shard sh i = shard (encode t (ErasureCoder_init k m) data) i.

Lemma received_code t k m data sh present len : 1 <= k -> 0 <= m -> received t k m data sh present len ->
  forall i x, 0 <= i < k + m -> is_present present i = true -> 0 <= x < len -> at_ (shard sh i) x = code_byte k data i x.
Proof.
  intros Hk Hm (Hd & _ & _ & Hr) i x Hi Hp Hx. rewrite Hr by done.
  by apply (proj2 (proj2 (encode_spec k m Hk Hm t len data Hd))).
Qed.

(** What [reconstruct] returns, by the inverse it finds. *)
Lemma reconstruct_cases t t' k m data sh present len : 1 <= k -> 0 <= m -> received t k m data sh present len ->
  let ec := ErasureCoder_init k m in
  let rows := row_idx ec present in
  if available present <? k then reconstruct t' ec sh present = (Err not_enough_memory, sh)
  else
    (exists out, reconstruct t' ec sh present = (Ok tt, out) /\ zlen out = k + m /\
       (forall d, 0 <= d < k -> shard out d = shard data d) /\ forall i, k <= i < k + m -> shard out i = shard sh i) \/
    (reconstruct t' ec sh present = (Err invalid_argument, sh) /\
     exists v col, byte_fun v /\ 0 <= col < k /\ v col = 1 /\
       forall r, 0 <= r < k -> gsum (fun c => fast_mul (coefficient k (at_ rows r) c) (v c)) (Z.to_nat k) = 0).
Proof.
  intros Hk Hm Hrec ec rows. pose proof (received_code _ _ _ _ _ _ _ Hk Hm Hrec) as Hcode.
  destruct Hrec as (Hd & Hok & Hp & _). unfold reconstruct. cbn [k_ m_ ec ErasureCoder_init]. cbv zeta.
  fold (available present). destruct (Z.ltb_spec (available present) k) as [|Ha]; [done|].
  destruct (decode_matrix_spec k m Hk Hm present Hp Ha) as [Hmat Hget].
  pose proof (invert_matrix_spec k (fun r c => coefficient k (at_ rows r) c) ltac:(lia) (fun r c => coefficient_byte _ _ _) _ Hmat Hget) as Hinv.
  change (decode_matrix (ErasureCoder_init k m) (row_idx (ErasureCoder_init k m) present)) with (decode_matrix (ErasureRecovery.ec k m) (row_idx (ErasureRecovery.ec k m) present)).
  destruct (invert_matrix _ k) as [inv|]; [left|right; split; [done|exact Hinv]]. destruct Hinv as [[_ Hib] Hinv].
  rewrite (size_spec k m Hk len sh present Hok Hp Ha).
  destruct (restore k m Hk Hm t' len data sh present inv Hok (shards_bytes _ _ _ Hd) Hp Ha Hcode Hib Hinv (Z.to_nat k) ltac:(lia))
    as (Hok' & Hs & Hdata). rewrite Z2Nat.id in Hok', Hs, Hdata by lia. eexists. split; [reflexivity|].
  split; [apply (shards_count _ _ _ Hok')|]. split.
  - intros d Hd'. apply (bytes_eq _ _ len); [apply (shards_len _ _ _ Hok'); lia|apply (shards_len _ _ _ Hd); lia|].
    intros x Hx. by apply Hdata.
  - intros i Hi. apply Hs; [lia|by right; lia].
Qed.

(** C8. Reed-Solomon recovery.  Data shards are encoded, any of the shards are lost or
    overwritten, and [reconstruct] is told which are left.  It refuses when fewer than [k] are
    left; when it succeeds, with whichever vector unit on either side, every data shard is what
    it was; when it fails it has changed nothing. *)
Theorem erasure_reconstruct t t' k m data sh present len : 1 <= k -> 0 <= m -> received t k m data sh present len ->
  match reconstruct t' (ErasureCoder_init k m) sh present with
  | (Ok _, out) => k <= available present /\ (forall d, 0 <= d < k -> shard out d = shard data d) /\
      forall i, k <= i < k + m -> shard out i = shard sh i
  | (Err e, out) => out = sh /\ (e = not_enough_memory <-> available present < k)
  end.
Proof.
  intros Hk Hm Hrec. pose proof (reconstruct_cases t t' k m data sh present len Hk Hm Hrec) as H. cbv zeta in H.
  destruct (Z.ltb_spec (available present) k) as [Hlt|Hge]; [by rewrite H|].
  destruct H as [(out & -> & _ & Hd & Hs)|[-> _]]; [done|]. split; [done|]. split; [done|lia].
Qed.

(** ** One or two parity shards *)

Lemma gsum_pair f n a b : 0 <= a < Z.of_nat n -> 0 <= b < Z.of_nat n -> a <> b ->
  (forall i, 0 <= i < Z.of_nat n -> i <> a -> i <> b -> f i = 0) -> gsum f n = f a .^ f b.
Proof.
  intros Ha Hb Hne H.
  rewrite (gsum_ext _ (fun i => (if i =? a then f a else 0) .^ (if i =? b then f b else 0))).
  2: { intros i Hi. destruct (Z.eqb_spec i a) as [Ea|], (Z.eqb_spec i b) as [Eb|]; subst; [done|by rewrite Z.lxor_0_r|by rewrite Z.lxor_0_l|].
       by rewrite H. }
  rewrite gsum_xor, (gsum_single _ _ a), (gsum_single _ _ b), !Z.eqb_refl by (done || (intros i _ ?; by rewrite (proj2 (Z.eqb_neq _ _)))).
  done.
Qed.

(** Data rows not used are no more than the parity rows used. *)
Lemma missing_le k rows l : zlen rows = k -> NoDup rows -> NoDup l ->
  (forall x, In x rows -> 0 <= x) -> (forall x, In x l -> 0 <= x < k /\ ~ In x rows) ->
  (length l <= length (List.filter (fun r => (k <=? r)%Z) rows))%nat.
Proof.
  intros Hk Hnd Hl Hpos Hin. set (D := List.filter (fun r => r <? k) rows).
  assert (Hlen : (length D + length (List.filter (fun r => (k <=? r)%Z) rows) = length rows)%nat).
  { unfold D. clear. induction rows as [|r rows IH]; [done|]. cbn [List.filter].
    destruct (Z.ltb_spec r k), (Z.leb_spec k r); cbn [length]; lia. }
  assert (Hincl : List.incl (l ++ D) (seqZ 0 k)).
  { intros x Hx. apply list_elem_of_In, elem_of_seqZ. apply in_app_iff in Hx as [Hx|Hx]; [specialize (Hin x Hx); lia|].
    apply filter_In in Hx as [Hx Hlt%Z.ltb_lt]. specialize (Hpos x Hx). lia. }
  assert (Hnd' : List.NoDup (l ++ D)).
  { apply NoDup_ListNoDup, NoDup_app. split; [done|]. split.
    - intros x Hx%list_elem_of_In Hx'%list_elem_of_In. apply filter_In in Hx' as [Hx' _]. by apply (Hin x Hx).
    - apply NoDup_ListNoDup, List.NoDup_filter. by apply NoDup_ListNoDup. }
  pose proof (NoDup_incl_length Hnd' Hincl) as Hle. rewrite length_app, length_seqZ in Hle. unfold zlen in Hk. lia.
Qed.

Lemma pow_one e : pow 1 e = 1.
Proof.
  unfold pow. generalize (Z.to_nat e). intros n. induction n as [|n IH]; [done|].
  change (Nat.iter (S n) ?f 1) with (f (Nat.iter n f 1)). cbv beta. by rewrite IH.
Qed.

Lemma g_nonzero n : g n <> 0.
Proof.
  intros E. pose proof (g_mod (n + (255 - n mod 255))) as H1. pose proof (Nat.mod_upper_bound n 255 ltac:(lia)).
  rewrite <- g_add, E in H1. rewrite mul_comm, mul_0_r in H1 by (done || apply g_byte).
  replace ((n + (255 - n mod 255)) mod 255)%nat with 0%nat in H1; [done|].
  rewrite (Nat.div_mod n 255) at 1 by lia. replace (255 * (n / 255) + n mod 255 + (255 - n mod 255))%nat with (0 + (n / 255 + 1) * 255)%nat by lia.
  by rewrite Nat.Div0.mod_add.
Qed.

Lemma parity_coefficient k i c : 0 <= i < 2 -> coefficient k (k + i) c = if i =? 0 then 1 else g (Z.to_nat c).
Proof.
  intros Hi. unfold coefficient. rewrite (proj2 (Z.ltb_ge _ _)) by lia. replace (k + i - k + 1) with (i + 1) by lia.
  assert (i = 0 \/ i = 1) as [-> | ->] by lia; [apply pow_one|done].
Qed.

(** A vector with one entry other than 0 is not killed by a parity row, one with two such
    entries not by both. *)
Lemma one_entry k i v col : 0 <= i < 2 -> byte_fun v -> 0 <= col < k -> v col <> 0 ->
  gsum (fun c => fast_mul (coefficient k (k + i) c) (v c)) (Z.to_nat k) = 0 -> exists b, 0 <= b < k /\ b <> col /\ v b <> 0.
Proof.
  intros Hi Hv Hcol Hne Hs. destruct (existsb (fun b => negb (b =? col) && negb (v b =? 0)) (seqZ 0 k)) eqn:E.
  - apply existsb_exists in E as (b & Hb & [H1 H2]%andb_true_iff). apply list_elem_of_In, elem_of_seqZ in Hb.
    apply negb_true_iff, Z.eqb_neq in H1, H2. exists b. split; [lia|done].
  - exfalso. rewrite (gsum_single _ _ col) in Hs; [|lia|].
    + apply fast_mul_integral in Hs as [Hs|Hs]; [|done|apply coefficient_byte|apply Hv].
      rewrite parity_coefficient in Hs by done. case_match; [done|]. by apply g_nonzero in Hs.
    + intros c Hc Hcne. destruct (Z.eq_dec (v c) 0) as [->|Hvc]; [apply fast_mul_0_r|]. exfalso.
      assert (existsb (fun b => negb (b =? col) && negb (v b =? 0)) (seqZ 0 k) = true) as H; [|congruence].
      apply existsb_exists. exists c. split; [apply list_elem_of_In, elem_of_seqZ; lia|].
      by rewrite (proj2 (Z.eqb_neq c col)), (proj2 (Z.eqb_neq (v c) 0)).
Qed.

Lemma two_entries k v a b : k <= 255 -> byte_fun v -> 0 <= a < k -> 0 <= b < k -> a <> b -> v a <> 0 ->
  (forall c, 0 <= c < k -> c <> a -> c <> b -> v c = 0) ->
  (forall i, 0 <= i < 2 -> gsum (fun c => fast_mul (coefficient k (k + i) c) (v c)) (Z.to_nat k) = 0) -> False.
Proof.
  intros Hk Hv Ha Hb Hne Hva Hz Hs.
  assert (Hp : forall i, 0 <= i < 2 -> fast_mul (coefficient k (k + i) a) (v a) = fast_mul (coefficient k (k + i) b) (v b)).
  { intros i Hi. specialize (Hs i Hi). rewrite (gsum_pair _ _ a b) in Hs; [by apply Z.lxor_eq|lia..|].
    intros c Hc Hca Hcb. rewrite Hz by (done || lia). apply fast_mul_0_r. }
  pose proof (Hp 0 ltac:(lia)) as H0. pose proof (Hp 1 ltac:(lia)) as H1. rewrite !parity_coefficient in H0, H1 by lia.
  cbn [Z.eqb] in H0, H1. rewrite !fast_mul_1_l in H0 by apply Hv. rewrite <- H0 in H1.
  assert (E : fast_mul (g (Z.to_nat a) .^ g (Z.to_nat b)) (v a) = 0)
    by (rewrite fast_mul_xor_l, H1 by (apply g_byte || apply Hv); apply Z.lxor_nilpotent).
  apply fast_mul_integral in E as [E|E]; [|done|apply byte_lxor; apply g_byte|apply Hv].
  apply Z.lxor_eq, g_inj in E; lia.
Qed.

Lemma nodup2 (a b : Z) : b <> a -> NoDup [a; b].
Proof. intros H. apply NoDup_cons. split; [by intros ?%list_elem_of_singleton|apply NoDup_singleton]. Qed.

Lemma nodup3 (a b c : Z) : b <> a -> c <> a -> c <> b -> NoDup [a; b; c].
Proof.
  intros Hb Hc Hcb. apply NoDup_cons. split; [|by apply nodup2]. intros [?|?%list_elem_of_singleton]%elem_of_cons; done.
Qed.

(** With at most two parity rows the rows used kill no vector. *)
Lemma parity_rows_regular k m rows v col : 1 <= k -> m <= 2 -> k + m <= 255 -> zlen rows = k -> NoDup rows ->
  (forall r, 0 <= r < k -> 0 <= at_ rows r < k + m) -> byte_fun v -> 0 <= col < k -> v col = 1 ->
  (forall r, 0 <= r < k -> gsum (fun c => fast_mul (coefficient k (at_ rows r) c) (v c)) (Z.to_nat k) = 0) -> False.
Proof.
  intros Hk Hm Hkm Hlen Hnd Hrange Hv Hcol Hone Hker.
  assert (Hrow : forall x, In x rows -> 0 <= x < k + m /\ gsum (fun c => fast_mul (coefficient k x c) (v c)) (Z.to_nat k) = 0).
  { intros x Hx. apply (In_nth _ _ 0) in Hx as (i & Hi & <-). unfold zlen in Hlen.
    specialize (Hrange (Z.of_nat i) ltac:(lia)). specialize (Hker (Z.of_nat i) ltac:(lia)). unfold at_ in *. by rewrite Nat2Z.id in *. }
  assert (Hmiss : forall c, 0 <= c < k -> v c <> 0 -> ~ In c rows).
  { intros c Hc Hvc Hin. destruct (Hrow c Hin) as [_ Hs]. apply Hvc. rewrite <- Hs. symmetry.
    rewrite <- (gsum_delta v (Z.to_nat k) c) by (done || lia). apply gsum_ext. intros j Hj.
    unfold coefficient. by rewrite (proj2 (Z.ltb_lt c k)) by lia. }
  set (P := List.filter (fun r => k <=? r) rows).
  assert (HP : forall x, In x P -> In x rows /\ exists i, x = k + i /\ 0 <= i < m).
  { intros x Hx. apply filter_In in Hx as [Hx Hge%Z.leb_le]. split; [done|]. exists (x - k). destruct (Hrow x Hx). lia. }
  assert (Hcount : forall l, NoDup l -> (forall x, In x l -> 0 <= x < k /\ v x <> 0) -> (length l <= length P)%nat).
  { intros l Hl Hin. apply missing_le; try done; [by intros x Hx; destruct (Hrow x Hx); lia|].
    intros x Hx. destruct (Hin x Hx). split; [done|]. by apply Hmiss. }
  assert (HPnd : NoDup P) by (apply NoDup_ListNoDup, List.NoDup_filter; by apply NoDup_ListNoDup).
  assert (HPle : (length P <= 2)%nat).
  { apply (NoDup_incl_length (l' := [k; k + 1])); [by apply NoDup_ListNoDup|]. intros x Hx.
    destruct (HP x Hx) as (_ & i & -> & Hi). assert (i = 0 \/ i = 1) as [-> | ->] by lia; [left; lia|by right; left]. }
  assert (Hv1 : v col <> 0) by lia.
  pose proof (Hcount [col] (NoDup_singleton _) ltac:(intros x [<-|[]]; done)) as H1.
  destruct P as [|p P'] eqn:EP; [cbn in H1; lia|]. destruct (HP p (or_introl eq_refl)) as (Hp & i & -> & Hi).
  destruct (one_entry k i v col ltac:(lia) Hv Hcol Hv1 (proj2 (Hrow _ Hp))) as (b & Hb & Hbc & Hvb).
  pose proof (Hcount [col; b] (nodup2 _ _ Hbc) ltac:(intros x [<-|[<-|[]]]; done)) as H2.
  destruct P' as [|p' P'']; [cbn in H2; lia|]. destruct (HP p' (or_intror (or_introl eq_refl))) as (Hp' & i' & -> & Hi').
  apply (two_entries k v col b); try done; [lia| |].
  - intros c Hc Hcc Hcb. destruct (Z.eq_dec (v c) 0) as [|Hvc]; [done|]. exfalso.
    pose proof (Hcount [col; b; c] (nodup3 _ _ _ Hbc Hcc Hcb) ltac:(intros x [<-|[<-|[<-|[]]]]; done)) as H3. cbn in H3, HPle. lia.
  - intros q Hq. apply NoDup_cons in HPnd as [Hnin _]. assert (i <> i') by (intros ->; apply Hnin; apply list_elem_of_here).
    assert (q = i \/ q = i') as [-> | ->] by lia; by apply Hrow.
Qed.

(** C32. One or two parity shards ([m] at most 2, as in RAID 5 and RAID 6): whichever [k] or more
    shards are left, [reconstruct] succeeds and every data shard is restored. *)
Theorem raid_recovers t t' k m data sh present len : 1 <= k -> 0 <= m <= 2 -> k + m <= 255 ->
  received t k m data sh present len -> k <= available present ->
  exists out, reconstruct t' (ErasureCoder_init k m) sh present = (Ok tt, out) /\
    forall d, 0 <= d < k -> shard out d = shard data d.
Proof.
  intros Hk Hm Hkm Hrec Ha. pose proof (reconstruct_cases t t' k m data sh present len Hk ltac:(lia) Hrec) as H. cbv zeta in H.
  rewrite (proj2 (Z.ltb_ge _ _) Ha) in H. destruct H as [(out & E & _ & Hd & _)|(_ & v & col & Hv & Hcol & Hone & Hker)]; [by exists out|].
  exfalso. destruct Hrec as (_ & _ & Hp & _). destruct (row_idx_spec k m Hk present Hp Ha) as (Hl & Hnd & Hr).
  eapply (parity_rows_regular k m); try done; [lia|]. intros r Hr'. by apply Hr.
Qed.

(** ** Three parity shards *)

(** RS(4, 3) with data shards 0, 1 and 3 lost and everything else present: four of seven shards
    are left, as many as there are data shards, and [reconstruct] fails, whatever they hold. *)
Theorem three_losses_fail t sh :
  let present := [false; false; true; false; true; true; true] in
  available present = 4 /\ reconstruct t (ErasureCoder_init 4 3) sh present = (Err invalid_argument, sh).
Proof.
  intros present. split; [done|]. unfold reconstruct. cbv zeta. change (_ <? k_ (ErasureCoder_init 4 3)) with false.
  assert (invert_matrix (decode_matrix (ErasureCoder_init 4 3) (row_idx (ErasureCoder_init 4 3) present)) (k_ (ErasureCoder_init 4 3)) = None)
    as -> by (vm_compute; reflexivity). done.
Qed.

(** ** Witnesses *)

Definition example_data : list bytes := [[1; 2; 3]; [4; 5; 6]; [7; 8; 9]; [0; 0; 0]; [0; 0; 0]].
Definition example_present : list bool := [false; true; false; true; true].
Definition example_shards : list bytes :=
  put (put (encode Scalar (ErasureCoder_init 3 2) example_data) 0 [9; 9; 9]) 2 [9; 9; 9].

Lemma shards_ok_all n len sh : zlen sh = n -> Forall (fun s => zlen s = len /\ all_bytes s) sh -> shards_ok n len sh.
Proof.
  intros Hn Hf. rewrite Forall_forall in Hf. constructor; [done|..].
  - intros i Hi. apply (Hf (shard sh i)), list_elem_of_In, nth_In. unfold zlen in Hn. lia.
  - intros i. destruct (nth_in_or_default (Z.to_nat i) sh []) as [Hin|E]; [|unfold shard; rewrite E; apply Forall_nil_2].
    by apply (Hf (shard sh i)), list_elem_of_In.
Qed.

Lemma example_received : received Scalar 3 2 example_data example_shards example_present 3.
Proof.
  split; [|split; [|split; [done|]]].
  1-2: apply shards_ok_all; [reflexivity|]; apply (bool_decide_unpack _); vm_compute; exact I.
  intros i Hi. assert (i = 0 \/ i = 1 \/ i = 2 \/ i = 3 \/ i = 4) as [-> | [-> | [-> | [-> | ->]]]] by lia; try done; intros _; vm_compute; reflexivity.
Qed.

Lemma erasure_reconstruct_witness :
  match reconstruct Avx2 (ErasureCoder_init 3 2) example_shards example_present with
  | (Ok _, out) => shard out 0 = [1; 2; 3] /\ shard out 2 = [7; 8; 9]
  | (Err _, _) => False
  end.
Proof.
  pose proof (erasure_reconstruct Scalar Avx2 3 2 example_data example_shards example_present 3 ltac:(done) ltac:(done) example_received) as H.
  destruct (reconstruct Avx2 (ErasureCoder_init 3 2) example_shards example_present) as [[u|e] out] eqn:E.
  - destruct H as (_ & Hd & _). split; [apply (Hd 0)|apply (Hd 2)]; split; done.
  - vm_compute in E. discriminate E.
Defined.

Lemma raid_recovers_witness :
  exists out, reconstruct Neon (ErasureCoder_init 3 2) example_shards example_present = (Ok tt, out) /\
    forall d, 0 <= d < 3 -> shard out d = shard example_data d.
Proof.
  apply (raid_recovers Scalar Neon 3 2 example_data example_shards example_present 3); [done|done|done|exact example_received|done].
Defined.
