(* ===== verification/Hpack.v ===== *)
(** * HPACK: the header compression of [server/http2_handler.hpp]

    [HpackDecoder] and [HpackEncoder]: integers and strings of RFC 7541, the static
    table, the five representations.  A position in the input is the bytes from it on.
    The encoder runs over its header map in an order the standard library leaves open: it
    takes the list of pairs in that order. *)

From stdpp Require Import gmap.
From S2P Require Import Prelude.
#[local] Open Scope Z_scope.
#[local] Open Scope word_scope.

Definition entry (n v : string) : bytes * bytes := (chars n, chars v).
Definition name_only (n : string) : bytes * bytes := (chars n, []).

(** Index 0 is unused. *)
Definition STATIC_TABLE : list (bytes * bytes) :=
  [name_only "";
   name_only ":authority";
   entry ":method" "GET";
   entry ":method" "POST";
   entry ":path" "/";
   entry ":path" "/index.html";
   entry ":scheme" "http";
   entry ":scheme" "https";
   entry ":status" "200";
   entry ":status" "204";
   entry ":status" "206";
   entry ":status" "304";
   entry ":status" "400";
   entry ":status" "404";
   entry ":status" "500";
   name_only "accept-charset";
   entry "accept-encoding" "gzip, deflate";
   name_only "accept-language";
   name_only "accept-ranges";
   name_only "accept";
   name_only "access-control-allow-origin";
   name_only "age";
   name_only "allow";
   name_only "authorization";
   name_only "cache-control";
   name_only "content-disposition";
   name_only "content-encoding";
   name_only "content-language";
   name_only "content-length";
   name_only "content-location";
   name_only "content-range";
   name_only "content-type";
   name_only "cookie";
   name_only "date";
   name_only "etag";
   name_only "expect";
   name_only "expires";
   name_only "from";
   name_only "host";
   name_only "if-match";
   name_only "if-modified-since";
   name_only "if-none-match";
   name_only "if-range";
   name_only "if-unmodified-since";
   name_only "last-modified";
   name_only "link";
   name_only "location";
   name_only "max-forwards";
   name_only "proxy-authenticate";
   name_only "proxy-authorization";
   name_only "range";
   name_only "referer";
   name_only "refresh";
   name_only "retry-after";
   name_only "server";
   name_only "set-cookie";
   name_only "strict-transport-security";
   name_only "transfer-encoding";
   name_only "user-agent";
   name_only "vary";
   name_only "via";
   name_only "www-authenticate"].

Definition table (i : Z) : bytes * bytes := nth (Z.to_nat i) STATIC_TABLE ([], []).

Abbreviation Headers := (gmap bytes bytes).

(** ** Decoding *)

(** The continuation bytes of an integer. *)
Fixpoint int_loop (s : bytes) (value64 shift : Z) : Z * bytes :=
  match s with
  | [] => (value64, [])
  | byte :: s =>
      let value64 := u64 (value64 + u64 ((byte .& 0x7F) << shift)) in
      let value64 := if 0xFFFFFFFF <? value64 then 0xFFFFFFFF else value64 in
      let shift := shift + 7 in
      if (byte .& 0x80) =? 0 then (value64, s)
      else if 64 <=? shift then (value64, s)
      else int_loop s value64 shift
  end.

Definition decode_integer (prefix_bits : Z) (s : bytes) : Z * bytes :=
  match s with
  | [] => (0, [])
  | byte :: s =>
      let mask := u8 ((1 << prefix_bits) - 1) in
      let value := byte .& mask in
      if value <? mask then (value, s) else let '(value64, s) := int_loop s value 0 in (u32 value64, s)
  end.

Definition decode_string (s : bytes) : bytes * bytes :=
  match s with
  | [] => ([], [])
  | _ =>
      let '(str_len, s) := decode_integer 7 s in
      let str_len := if zlen s <? str_len then zlen s else str_len in
      (ztake str_len s, zdrop str_len s)
  end.

(** A literal header field, its name index in [prefix_bits] bits. *)
Definition decode_literal (prefix_bits : Z) (s : bytes) : bytes * bytes * bytes :=
  let '(name_index, s) := decode_integer prefix_bits s in
  let '(name, s) :=
    if (0 <? name_index) && (name_index <? 62) then (fst (table name_index), s) else decode_string s in
  let '(value, s) := decode_string s in
  (name, value, s).

(** One turn of [decode] on a non-empty rest: the header it sets, if any, and what is left. *)
Definition decode_field (first : Z) (s : bytes) : option (bytes * bytes) * bytes :=
  if negb ((first .& 0x80) =? 0) then
    let '(index, s) := decode_integer 7 s in
    (if (0 <? index) && (index <? 62) then Some (table index) else None, s)
  else if (first .& 0xC0) =? 0x40 then
    let '(name, value, s) := decode_literal 6 s in (Some (name, value), s)
  else if (first .& 0xF0) =? 0x00 then
    let '(name, value, s) := decode_literal 4 s in (Some (name, value), s)
  else if (first .& 0xF0) =? 0x10 then
    let '(name, value, s) := decode_literal 4 s in (Some (name, value), s)
  else if (first .& 0xE0) =? 0x20 then
    let '(_, s) := decode_integer 5 s in (None, s)
  else (None, zdrop 1 s).

(** Every turn takes at least one byte. *)
Fixpoint decode_loop (fuel : nat) (s : bytes) (headers : Headers) : Headers :=
  match fuel, s with
  | S fuel, first :: _ =>
      let '(h, s) := decode_field first s in
      decode_loop fuel s match h with Some (name, value) => <[name := value]> headers | None => headers end
  | _, _ => headers
  end.

Definition decode (data : bytes) : Headers := decode_loop (length data) data ∅.

(** ** Encoding *)

(** [while (value >= 128)]; five bytes hold 32 bits. *)
Fixpoint encode_tail (fuel : nat) (value : Z) : bytes :=
  match fuel with
  | O => [u8 value]
  | S fuel =>
      if 128 <=? value then u8 ((value .& 0x7F) .| 0x80) :: encode_tail fuel (value >> 7) else [u8 value]
  end.

Definition encode_integer (value prefix_bits prefix_byte : Z) : bytes :=
  let max_prefix := (1 << prefix_bits) - 1 in
  if value <? max_prefix then [u8 (prefix_byte .| value)]
  else u8 (prefix_byte .| max_prefix) :: encode_tail 5 (value - max_prefix).

Definition encode_string (str : bytes) : bytes := encode_integer (u32 (zlen str)) 7 0x00 ++ str.

(** The search loop from index [i]: the full match and the first name match, 0 for none. *)
Fixpoint table_loop (ents : list (bytes * bytes)) (i : Z) (name value : bytes) (name_match : Z) : Z * Z :=
  match ents with
  | [] => (0, name_match)
  | (tname, tvalue) :: ents =>
      if bool_decide (tname = name) then
        let name_match := if name_match =? 0 then i else name_match in
        if bool_decide (tvalue = value) then (i, name_match) else table_loop ents (i + 1) name value name_match
      else table_loop ents (i + 1) name value name_match
  end.

Definition encode_field (h : bytes * bytes) : bytes :=
  let '(name, value) := h in
  let '(full_match_index, name_match_index) := table_loop (zdrop 1 STATIC_TABLE) 1 name value 0 in
  if 0 <? full_match_index then encode_integer full_match_index 7 0x80
  else if 0 <? name_match_index then encode_integer name_match_index 4 0x00 ++ encode_string value
  else 0x00 :: encode_string name ++ encode_string value.

Definition encode (headers : list (bytes * bytes)) : bytes := concat (map encode_field headers).

(** ** Integers and strings round trip *)

Lemma more_byte v : 128 <= v ->
  u8 ((v .& 0x7F) .| 0x80) = v mod 128 + 128 /\
  (v mod 128 + 128) .& 0x7F = v mod 128 /\ (((v mod 128 + 128) .& 0x80) =? 0) = false.
Proof.
  intros H. change 0x7F with (2 ^ 7 - 1). rewrite !land_mask by lia. change (2 ^ 7) with 128.
  pose proof (Z.mod_pos_bound v 128 ltac:(lia)) as Hm.
  revert Hm. generalize (v mod 128). intros z Hz. by_range z Hz.
Qed.

Lemma last_byte v : 0 <= v < 128 -> u8 v = v /\ v .& 0x7F = v /\ ((v .& 0x80) =? 0) = true.
Proof. intros Hv. by_range v Hv. Qed.

(** One continuation byte, its sum within 32 bits. *)
Lemma int_loop_cons b s acc shift : 0 <= acc -> 0 <= b .& 0x7F -> 0 <= shift ->
  acc + (b .& 0x7F) * 2 ^ shift < 2 ^ 32 ->
  int_loop (b :: s) acc shift =
    let v := acc + (b .& 0x7F) * 2 ^ shift in
    if (b .& 0x80) =? 0 then (v, s) else if 64 <=? shift + 7 then (v, s) else int_loop s v (shift + 7).
Proof.
  intros Ha Hb Hs Hv. cbn [int_loop]. rewrite Z.shiftl_mul_pow2 by lia.
  pose proof (Z.pow_nonneg 2 shift ltac:(lia)) as Hp.
  assert (0 <= (b .& 127) * 2 ^ shift) by (apply Z.mul_nonneg_nonneg; lia).
  rewrite (wrap_small 64 ((b .& 127) * 2 ^ shift)), wrap_small by rlia. cbv zeta. by zbool.
Qed.

Lemma int_loop_encode fuel : forall v acc shift rest,
  0 <= v < 2 ^ (7 * (Z.of_nat fuel + 1)) -> 0 <= acc -> 0 <= shift -> acc + v * 2 ^ shift < 2 ^ 32 ->
  int_loop (encode_tail fuel v ++ rest) acc shift = (acc + v * 2 ^ shift, rest).
Proof.
  induction fuel as [|fuel IH]; intros v acc shift rest Hv Ha Hs Hsum; cbn [encode_tail].
  - destruct (last_byte v ltac:(lia)) as (-> & E & E'). cbn [app].
    rewrite int_loop_cons by (rewrite ?E; lia). cbv zeta. by rewrite E, E'.
  - destruct (Z.leb_spec 128 v) as [Hge|Hlt]; cbn [app].
    + destruct (more_byte v Hge) as (-> & E & E').
      pose proof (Z.div_mod v 128 ltac:(lia)) as Hd. pose proof (Z.mod_pos_bound v 128 ltac:(lia)) as Hm.
      assert (0 < 2 ^ shift) by (apply Z.pow_pos_nonneg; lia).
      assert (Hpow : 2 ^ (shift + 7) = 2 ^ shift * 128) by (rewrite Z.pow_add_r by lia; reflexivity).
      assert (shift < 57) by (apply (Z.pow_lt_mono_r_iff 2); [lia|lia|]; nia).
      assert (Hq : v / 128 < 2 ^ (7 * (Z.of_nat fuel + 1))).
      { apply Z.div_lt_upper_bound; [lia|]. replace (7 * (Z.of_nat (S fuel) + 1)) with (7 + 7 * (Z.of_nat fuel + 1)) in Hv by lia.
        rewrite Z.pow_add_r in Hv by lia. lia. }
      rewrite int_loop_cons by (rewrite ?E; nia). cbv zeta. rewrite E, E'. zbool.
      rewrite Z.shiftr_div_pow2 by lia. change (2 ^ 7) with 128.
      rewrite IH by (rewrite ?Hpow; nia). f_equal. rewrite Hpow. nia.
    + destruct (last_byte v ltac:(lia)) as (-> & E & E').
      rewrite int_loop_cons by (rewrite ?E; lia). cbv zeta. by rewrite E, E'.
Qed.

(** The prefixes the encoder uses: 7 bits under either top bit, 4 bits under zeros. *)
Definition used_prefix (bits pat : Z) : Prop := (bits = 7 /\ (pat = 0 \/ pat = 0x80)) \/ (bits = 4 /\ pat = 0).

Lemma prefix_byte_low bits pat v : used_prefix bits pat -> 0 <= v < 2 ^ bits ->
  (u8 (pat .| v) .& u8 ((1 << bits) - 1)) = v /\
  ((u8 (pat .| v) .& 0x80) =? 0) = (pat =? 0) /\ (bits = 4 -> (u8 (pat .| v) .& 0xF0) = 0) /\
  (bits = 4 -> ((u8 (pat .| v) .& 0xC0) =? 0x40) = false).
Proof.
  intros [[-> [-> | ->]]|[-> ->]] Hv; (change (2 ^ 7) with 128 in Hv || change (2 ^ 4) with 16 in Hv).
  all: repeat split; try done; try (intros _); by_range v Hv.
Qed.

(** An integer comes back, and its first byte keeps the pattern. *)
Lemma decode_encode_integer v bits pat rest : used_prefix bits pat -> 0 <= v < 2 ^ 32 ->
  decode_integer bits (encode_integer v bits pat ++ rest) = (v, rest).
Proof.
  intros Hp Hv. unfold encode_integer.
  assert (Hb : bits = 7 \/ bits = 4) by (destruct Hp as [[? _]|[? _]]; auto).
  assert (Hm : (1 << bits) - 1 = 2 ^ bits - 1 /\ u8 ((1 << bits) - 1) = 2 ^ bits - 1 /\ 0 < 2 ^ bits < 256)
    by (destruct Hb as [-> | ->]; done).
  destruct Hm as (Em & Em8 & Hbits).
  destruct (Z.ltb_spec v ((1 << bits) - 1)) as [Hlt|Hge]; cbn [app decode_integer].
  - destruct (prefix_byte_low bits pat v Hp ltac:(lia)) as (-> & _). cbv zeta. rewrite Em8. by zbool.
  - destruct (prefix_byte_low bits pat ((1 << bits) - 1) Hp ltac:(lia)) as (-> & _). cbv zeta. rewrite Em8, Em. zbool.
    rewrite int_loop_encode by (change (7 * (Z.of_nat 5 + 1)) with 42; lia).
    rewrite wrap_small by rlia. f_equal. lia.
Qed.

Lemma decode_encode_string str rest : zlen str < 2 ^ 32 -> decode_string (encode_string str ++ rest) = (str, rest).
Proof.
  intros Hs. unfold encode_string. rewrite <- app_assoc.
  assert (E : exists b s, encode_integer (u32 (zlen str)) 7 0 ++ str ++ rest = b :: s)
    by (unfold encode_integer; case_match; eexists _, _; reflexivity).
  unfold decode_string. destruct E as (b & s & E). rewrite E, <- E.
  rewrite decode_encode_integer; [|left; auto|apply wrap_range; lia].
  rewrite wrap_small by (pose proof (zlen_nonneg str); rlia). rewrite zlen_app. zbool. by rewrite ztake_app, zdrop_app.
Qed.

(** ** Header fields and blocks round trip *)

(** What the search returns: a full match holds the pair, a name match the name. *)
Lemma table_loop_spec ents : forall i name value nm full nm', 0 < i ->
  table_loop ents i name value nm = (full, nm') ->
  (0 < full -> nth_error ents (Z.to_nat (full - i)) = Some (name, value) /\ i <= full) /\
  (nm' = nm \/ (i <= nm' /\ exists v, nth_error ents (Z.to_nat (nm' - i)) = Some (name, v))).
Proof.
  induction ents as [|[tn tv] ents IH]; intros i name value nm full nm' Hi; cbn [table_loop].
  { intros [= <- <-]. split; [lia|auto]. }
  assert (Hshift : forall x, i + 1 <= x -> nth_error ((tn, tv) :: ents) (Z.to_nat (x - i)) = nth_error ents (Z.to_nat (x - (i + 1)))).
  { intros x Hx. replace (Z.to_nat (x - i)) with (S (Z.to_nat (x - (i + 1)))) by lia. done. }
  case_bool_decide as En; [case_bool_decide as Ev|].
  - intros [= <- <-]. subst. rewrite Z.sub_diag. split; [done|]. destruct (Z.eqb_spec nm 0) as [->|]; [|auto].
    right. split; [lia|]. exists value. by rewrite Z.sub_diag.
  - intros E. destruct (IH (i + 1) _ _ _ _ _ ltac:(lia) E) as [Hf Hn]. split.
    { intros Hp. destruct (Hf Hp). rewrite Hshift by lia. split; [done|lia]. }
    destruct Hn as [->|[Hge [v Hn]]]; [|right; split; [lia|exists v; by rewrite Hshift by lia]].
    destruct (Z.eqb_spec nm 0) as [->|]; [|auto]. right. split; [lia|]. exists tv. rewrite Z.sub_diag. by subst.
  - intros E. destruct (IH (i + 1) _ _ _ _ _ ltac:(lia) E) as [Hf Hn]. split.
    { intros Hp. destruct (Hf Hp). rewrite Hshift by lia. split; [done|lia]. }
    destruct Hn as [->|[Hge [v Hn]]]; [auto|right; split; [lia|exists v; by rewrite Hshift by lia]].
Qed.

Lemma static_entry i e : 1 <= i -> nth_error (zdrop 1 STATIC_TABLE) (Z.to_nat (i - 1)) = Some e ->
  table i = e /\ i < 62.
Proof.
  intros Hi E. assert (i < 62).
  { assert (Hl : (Z.to_nat (i - 1) < length (zdrop 1 STATIC_TABLE))%nat) by (apply nth_error_Some; congruence).
    change (length (zdrop 1 STATIC_TABLE)) with 61%nat in Hl. lia. }
  split; [|done]. unfold table. apply nth_error_nth with (d := ([], [])) in E. rewrite <- E.
  replace (Z.to_nat i) with (S (Z.to_nat (i - 1))) by lia. done.
Qed.

Definition sized (h : bytes * bytes) : Prop := zlen (fst h) < 2 ^ 32 /\ zlen (snd h) < 2 ^ 32.

(** The first byte of an encoded integer carries the pattern. *)
Lemma encode_integer_first v bits pat rest : used_prefix bits pat -> 0 <= v ->
  exists b s, encode_integer v bits pat ++ rest = b :: s /\ ((b .& 0x80) =? 0) = (pat =? 0) /\
    (bits = 4 -> (b .& 0xF0) = 0 /\ ((b .& 0xC0) =? 0x40) = false).
Proof.
  intros Hp Hv. unfold encode_integer.
  assert (Hm : (1 << bits) - 1 = 2 ^ bits - 1 /\ 0 < 2 ^ bits) by (destruct Hp as [[-> _]|[-> _]]; done).
  destruct Hm as [Em Hpos].
  destruct (Z.ltb_spec v ((1 << bits) - 1)); cbn [app]; eexists _, _; (split; [reflexivity|]).
  - destruct (prefix_byte_low bits pat v Hp ltac:(lia)) as (_ & ? & ? & ?). auto.
  - destruct (prefix_byte_low bits pat ((1 << bits) - 1) Hp ltac:(lia)) as (_ & ? & ? & ?). auto.
Qed.

Lemma decode_literal_name i value rest : 0 < i < 62 -> zlen value < 2 ^ 32 ->
  decode_literal 4 (encode_integer i 4 0 ++ encode_string value ++ rest) = (fst (table i), value, rest).
Proof.
  intros Hi Hv. unfold decode_literal. rewrite decode_encode_integer by (unfold used_prefix; lia).
  zbool. cbn [andb]. by rewrite decode_encode_string.
Qed.

Lemma decode_literal_new name value rest : zlen name < 2 ^ 32 -> zlen value < 2 ^ 32 ->
  decode_literal 4 (0 :: encode_string name ++ encode_string value ++ rest) = (name, value, rest).
Proof.
  intros Hn Hv. unfold decode_literal. cbn [decode_integer]. change (0 .& u8 ((1 << 4) - 1)) with 0.
  change (0 <? u8 ((1 << 4) - 1)) with true. cbn. by rewrite !decode_encode_string.
Qed.

Lemma decode_encode_field h rest : sized h ->
  exists first s, encode_field h ++ rest = first :: s /\ decode_field first (first :: s) = (Some h, rest).
Proof.
  destruct h as [name value]. intros [Hn Hv]. cbn [fst snd] in *. unfold encode_field.
  destruct (table_loop (zdrop 1 STATIC_TABLE) 1 name value 0) as [full nm] eqn:E.
  destruct (table_loop_spec _ 1 _ _ _ _ _ eq_refl E) as [Hf Hm].
  destruct (Z.ltb_spec 0 full) as [Hp|_]; [|destruct (Z.ltb_spec 0 nm) as [Hp|_]].
  - destruct (Hf Hp) as [Hx Hge]. destruct (static_entry _ _ Hge Hx) as [Ht Hlt].
    destruct (encode_integer_first full 7 128 rest) as (b & s & Eb & Hb & _); [left; auto|lia|].
    exists b, s. split; [done|]. unfold decode_field. rewrite Hb, <- Eb. cbn [negb Z.eqb].
    rewrite decode_encode_integer; [|left; auto|lia]. zbool. cbn [andb]. by rewrite Ht.
  - destruct Hm as [->|[Hge [v Hx]]]; [lia|]. destruct (static_entry _ _ Hge Hx) as [Ht Hlt].
    rewrite <- app_assoc.
    destruct (encode_integer_first nm 4 0 (encode_string value ++ rest)) as (b & s & Eb & Hb & Hb4); [right; auto|lia|].
    destruct (Hb4 eq_refl) as [H0 H1].
    exists b, s. split; [done|]. unfold decode_field. rewrite Hb, H0, H1, <- Eb. cbn [negb Z.eqb].
    rewrite decode_literal_name by lia. by rewrite Ht.
  - exists 0, (encode_string name ++ encode_string value ++ rest).
    split; [cbn [app]; by rewrite <- app_assoc|]. unfold decode_field.
    change (0 .& 128) with 0. change (0 .& 192) with 0. change (0 .& 240) with 0. cbn [negb Z.eqb].
    by rewrite decode_literal_new.
Qed.

Definition insert_pair (m : Headers) (h : bytes * bytes) : Headers := <[fst h := snd h]> m.

Lemma decode_loop_encode hs : forall fuel m, Forall sized hs -> (length (encode hs) <= fuel)%nat ->
  decode_loop fuel (encode hs) m = foldl insert_pair m hs.
Proof.
  induction hs as [|h hs IH]; intros fuel m Hs Hf; [by destruct fuel|].
  apply Forall_cons in Hs as [Hh Hs]. unfold encode in *. cbn [map concat foldl] in *.
  destruct (decode_encode_field h (concat (map encode_field hs)) Hh) as (first & s & E & Hd).
  pose proof (f_equal length E) as Hl. rewrite length_app in Hl, Hf. cbn [length] in Hl.
  rewrite E. destruct fuel as [|fuel]; [lia|]. cbn [decode_loop]. rewrite Hd. destruct h as [name value].
  apply IH; [done|]. destruct (decode_encode_field (name, value) [] Hh) as (b & t & Eb & _).
  apply (f_equal length) in Eb. rewrite length_app in Eb. cbn [length] in Eb. lia.
Qed.

Lemma foldl_insert_pair hs : NoDup hs.*1 -> forall m : Headers, foldl insert_pair m hs = list_to_map hs ∪ m.
Proof.
  induction hs as [|[k v] hs IH]; intros Hnd m; cbn [foldl]; [by rewrite list_to_map_nil, map_empty_union|].
  apply NoDup_cons in Hnd as [Hk Hnd]. rewrite (IH Hnd), list_to_map_cons. unfold insert_pair. cbn [fst snd].
  rewrite <- insert_union_l. rewrite insert_union_r; [done|]. by apply not_elem_of_list_to_map_1.
Qed.

Lemma decode_encode_map (headers : Headers) (order : list (bytes * bytes)) :
  order ≡ₚ map_to_list headers -> Forall sized order -> decode (encode order) = headers.
Proof.
  intros Hp Hs. unfold decode. rewrite (decode_loop_encode order _ ∅ Hs (le_n _)).
  assert (Hnd : NoDup order.*1) by (rewrite Hp; apply NoDup_fst_map_to_list).
  rewrite (foldl_insert_pair _ Hnd), map_union_empty.
  rewrite (list_to_map_proper order (map_to_list headers)) by done. apply list_to_map_to_list.
Qed.

(** C36. HPACK round trip: whatever order the encoder meets the headers of a map in, decoding
    the block it writes gives the map back, static-table entries, indexed names and literal
    names, of any size 32 bits count, alike. *)
Theorem hpack_roundtrip (headers : Headers) (order : list (bytes * bytes)) :
  order ≡ₚ map_to_list headers -> Forall sized order -> decode (encode order) = headers.
Proof. apply decode_encode_map. Qed.

Definition example_headers : list (bytes * bytes) :=
  [entry ":method" "GET"; entry ":path" "/x"; entry "x-id" "7"].

Lemma hpack_roundtrip_witness : decode (encode example_headers) = list_to_map example_headers.
Proof.
  apply (hpack_roundtrip (list_to_map example_headers) example_headers).
  - symmetry. apply map_to_list_to_map, (bool_decide_unpack _). vm_compute. exact I.
  - repeat (apply Forall_cons; split; [split; reflexivity|]). apply Forall_nil.
    exact I.
Defined.

(** A name by its index in the dynamic table, which the server's SETTINGS offer and the decoder
    does not keep: the value is taken for the name, and the next field for the value. *)
Theorem dynamic_name_misread :
  decode ([0x7E; 1; 118] ++ encode [entry ":method" "GET"]) = {[chars "v" := []]}.
Proof. vm_compute. reflexivity. Qed.
