(* ===== verification/Http2.v ===== *)
(** * HTTP/2 connections: [server/http2_handler.hpp]

    [Http2Handler] over frames already cut from the socket: SETTINGS, PING, GOAWAY, HEADERS and
    CONTINUATION, DATA, RST_STREAM and WINDOW_UPDATE on the way in, the frames it queues on the
    way out, its limits and both directions of flow control.

    The state is the object's members.  [calls] records the invocations of the application's
    handler, which runs detached: what it sends is an operation of its own after the frame that
    started it ([Op]).  The order in which [streams_] is walked is the standard library's: the
    argument [order].  The frame queue [outgoing] of a stream is created and not used here.
    [size_t] arithmetic wraps at 64 bits.  Every access to a payload, by index or as a range,
    is partial: one outside it is [Fault]. *)

From stdpp Require Import gmap.
From S2P Require Import Prelude Hpack.
#[local] Open Scope Z_scope.
#[local] Open Scope word_scope.

Inductive Http2FrameType :=
  | DATA | HEADERS | PRIORITY | RST_STREAM | SETTINGS | PUSH_PROMISE | PING | GOAWAY
  | WINDOW_UPDATE | CONTINUATION | UNKNOWN (v : Z).

Record Http2Frame := mkFrame {
  length_ : Z;
  type : Http2FrameType;
  flags : Z;
  stream_id : Z;
  payload : bytes
}.

Abbreviation HTTP2_FLAG_END_STREAM := (0x1)%Z (only parsing).
Abbreviation HTTP2_FLAG_END_HEADERS := (0x4)%Z (only parsing).
Abbreviation HTTP2_FLAG_ACK := (0x1)%Z (only parsing).
Abbreviation HTTP2_FLAG_PADDED := (0x8)%Z (only parsing).
Abbreviation HTTP2_FLAG_PRIORITY := (0x20)%Z (only parsing).

Definition has_flag (frame : Http2Frame) (flag : Z) : bool := negb ((flags frame .& flag) =? 0).

Inductive State := IDLE | OPEN | HALF_CLOSED_LOCAL | HALF_CLOSED_REMOTE | CLOSED.

#[global] Instance State_eq_dec : EqDecision State.
Proof. solve_decision. Defined.

Record Http2Stream := mkStream {
  id : Z;
  state : State;
  request_headers : Headers;
  request_body : bytes;
  send_window : Z;
  recv_window : Z
}.

Abbreviation DEFAULT_HEADER_TABLE_SIZE := (4096)%Z (only parsing).
Abbreviation DEFAULT_MAX_FRAME_SIZE := (16384)%Z (only parsing).
Abbreviation DEFAULT_INITIAL_WINDOW_SIZE := (65535)%Z (only parsing).
Abbreviation SETTINGS_HEADER_TABLE_SIZE := (0x1)%Z (only parsing).
Abbreviation SETTINGS_ENABLE_PUSH := (0x2)%Z (only parsing).
Abbreviation SETTINGS_INITIAL_WINDOW_SIZE := (0x4)%Z (only parsing).
Abbreviation SETTINGS_MAX_FRAME_SIZE := (0x5)%Z (only parsing).
Abbreviation MAX_WINDOW := (0x7FFFFFFF)%Z (only parsing).
Abbreviation MIN_MAX_FRAME_SIZE := (16384)%Z (only parsing).
Abbreviation MAX_ALLOWED_FRAME_SIZE := (16777215)%Z (only parsing).
Abbreviation MAX_CONCURRENT_STREAMS := (128)%Z (only parsing).
Abbreviation MAX_REQUEST_BODY := (8 * 1024 * 1024)%Z (only parsing).
Abbreviation MAX_HEADER_BLOCK := (64 * 1024)%Z (only parsing).
Abbreviation MAX_RST_STREAMS := (200)%Z (only parsing).

(** An invocation of the application's handler: the stream, the headers, the body. *)
Record Call := mkCall { call_stream : Z; call_headers : Headers; call_body : bytes }.

Record Http2Handler := mkHandler {
  handler_ : bool;
  streams_ : gmap Z Http2Stream;
  pending_frames_ : list Http2Frame;
  last_stream_id_ : Z;
  continuation_buffer_ : gmap Z bytes;
  conn_send_window_ : Z;
  conn_recv_window_ : Z;
  peer_initial_window_size_ : Z;
  peer_max_frame_size_ : Z;
  peer_header_table_size_ : Z;
  peer_settings_received_ : bool;
  rst_stream_count_ : Z;
  calls : list Call
}.

Definition Http2Handler_init (handler : bool) : Http2Handler :=
  mkHandler handler ∅ [] 0 ∅ DEFAULT_INITIAL_WINDOW_SIZE DEFAULT_INITIAL_WINDOW_SIZE
    DEFAULT_INITIAL_WINDOW_SIZE DEFAULT_MAX_FRAME_SIZE DEFAULT_HEADER_TABLE_SIZE false 0 [].

(** Assignments to the members. *)
Definition set_streams m st := mkHandler (handler_ st) m (pending_frames_ st) (last_stream_id_ st)
  (continuation_buffer_ st) (conn_send_window_ st) (conn_recv_window_ st) (peer_initial_window_size_ st)
  (peer_max_frame_size_ st) (peer_header_table_size_ st) (peer_settings_received_ st) (rst_stream_count_ st) (calls st).
Definition set_pending q st := mkHandler (handler_ st) (streams_ st) q (last_stream_id_ st)
  (continuation_buffer_ st) (conn_send_window_ st) (conn_recv_window_ st) (peer_initial_window_size_ st)
  (peer_max_frame_size_ st) (peer_header_table_size_ st) (peer_settings_received_ st) (rst_stream_count_ st) (calls st).
Definition set_last sid st := mkHandler (handler_ st) (streams_ st) (pending_frames_ st) sid
  (continuation_buffer_ st) (conn_send_window_ st) (conn_recv_window_ st) (peer_initial_window_size_ st)
  (peer_max_frame_size_ st) (peer_header_table_size_ st) (peer_settings_received_ st) (rst_stream_count_ st) (calls st).
Definition set_continuation m st := mkHandler (handler_ st) (streams_ st) (pending_frames_ st) (last_stream_id_ st)
  m (conn_send_window_ st) (conn_recv_window_ st) (peer_initial_window_size_ st)
  (peer_max_frame_size_ st) (peer_header_table_size_ st) (peer_settings_received_ st) (rst_stream_count_ st) (calls st).
Definition set_conn_send w st := mkHandler (handler_ st) (streams_ st) (pending_frames_ st) (last_stream_id_ st)
  (continuation_buffer_ st) w (conn_recv_window_ st) (peer_initial_window_size_ st)
  (peer_max_frame_size_ st) (peer_header_table_size_ st) (peer_settings_received_ st) (rst_stream_count_ st) (calls st).
Definition set_conn_recv w st := mkHandler (handler_ st) (streams_ st) (pending_frames_ st) (last_stream_id_ st)
  (continuation_buffer_ st) (conn_send_window_ st) w (peer_initial_window_size_ st)
  (peer_max_frame_size_ st) (peer_header_table_size_ st) (peer_settings_received_ st) (rst_stream_count_ st) (calls st).
Definition set_peer iw mf ht ok st := mkHandler (handler_ st) (streams_ st) (pending_frames_ st) (last_stream_id_ st)
  (continuation_buffer_ st) (conn_send_window_ st) (conn_recv_window_ st) iw mf ht ok (rst_stream_count_ st) (calls st).
Definition set_rst n st := mkHandler (handler_ st) (streams_ st) (pending_frames_ st) (last_stream_id_ st)
  (continuation_buffer_ st) (conn_send_window_ st) (conn_recv_window_ st) (peer_initial_window_size_ st)
  (peer_max_frame_size_ st) (peer_header_table_size_ st) (peer_settings_received_ st) n (calls st).
Definition set_calls cs st := mkHandler (handler_ st) (streams_ st) (pending_frames_ st) (last_stream_id_ st)
  (continuation_buffer_ st) (conn_send_window_ st) (conn_recv_window_ st) (peer_initial_window_size_ st)
  (peer_max_frame_size_ st) (peer_header_table_size_ st) (peer_settings_received_ st) (rst_stream_count_ st) cs.

Definition set_stream (sid : Z) (s : Http2Stream) (st : Http2Handler) : Http2Handler :=
  set_streams (<[sid := s]> (streams_ st)) st.
Definition erase_stream (sid : Z) (st : Http2Handler) : Http2Handler := set_streams (delete sid (streams_ st)) st.

Definition set_state x s := mkStream (id s) x (request_headers s) (request_body s) (send_window s) (recv_window s).
Definition set_request_headers m s := mkStream (id s) (state s) m (request_body s) (send_window s) (recv_window s).
Definition set_request_body b s := mkStream (id s) (state s) (request_headers s) b (send_window s) (recv_window s).
Definition set_send_window w s := mkStream (id s) (state s) (request_headers s) (request_body s) w (recv_window s).
Definition set_recv_window w s := mkStream (id s) (state s) (request_headers s) (request_body s) (send_window s) w.

(** What a call gives: the state it leaves and its [Result<void>], or a read outside a payload. *)
Inductive outcome :=
  | Ret (st : Http2Handler) (r : result unit)
  | Fault.

(** [payload[i]], where there is such a byte. *)
Definition payload_at (p : bytes) (i : Z) : option Z := if (0 <=? i) && (i <? zlen p) then Some (at_ p i) else None.

(** The range from [first] to [last] of a payload, where it lies within it. *)
Definition payload_range (p : bytes) (first last : Z) : option bytes :=
  if (0 <=? first) && (first <=? last) && (last <=? zlen p) then Some (ztake (last - first) (zdrop first p)) else None.

(** ** Frames out *)

Definition append_uint16 (v : bytes) (val : Z) : bytes := v ++ [u8 ((val >> 8) .& 0xFF); u8 (val .& 0xFF)].
Definition append_uint32 (v : bytes) (val : Z) : bytes :=
  v ++ [u8 ((val >> 24) .& 0xFF); u8 ((val >> 16) .& 0xFF); u8 ((val >> 8) .& 0xFF); u8 (val .& 0xFF)].

Definition type_byte (t : Http2FrameType) : Z :=
  match t with
  | DATA => 0x0 | HEADERS => 0x1 | PRIORITY => 0x2 | RST_STREAM => 0x3 | SETTINGS => 0x4
  | PUSH_PROMISE => 0x5 | PING => 0x6 | GOAWAY => 0x7 | WINDOW_UPDATE => 0x8 | CONTINUATION => 0x9
  | UNKNOWN v => v
  end.

Definition serialize_frame (frame : Http2Frame) : bytes :=
  let sid := stream_id frame .& 0x7FFFFFFF in
  [u8 ((length_ frame >> 16) .& 0xFF); u8 ((length_ frame >> 8) .& 0xFF); u8 (length_ frame .& 0xFF);
   type_byte (type frame); flags frame;
   u8 ((sid >> 24) .& 0xFF); u8 ((sid >> 16) .& 0xFF); u8 ((sid >> 8) .& 0xFF); u8 (sid .& 0xFF)]
  ++ payload frame.

Definition push (frame : Http2Frame) (st : Http2Handler) : Http2Handler :=
  set_pending (pending_frames_ st ++ [frame]) st.

(** The END_STREAM transition of a stream we finish sending on. *)
Definition end_local (s : Http2Stream) : Http2Stream :=
  match state s with
  | OPEN => set_state HALF_CLOSED_LOCAL s
  | HALF_CLOSED_REMOTE => set_state CLOSED s
  | _ => s
  end.

Definition end_local_at (sid : Z) (end_stream : bool) (st : Http2Handler) : Http2Handler :=
  match streams_ st !! sid with
  | Some s => if end_stream then set_stream sid (end_local s) st else st
  | None => st
  end.

(** [headers]: the map's pairs in its iteration order. *)
Definition send_headers (st : Http2Handler) (sid : Z) (headers : list (bytes * bytes)) (end_stream : bool) : outcome :=
  let encoded := encode headers in
  let fl := if end_stream then HTTP2_FLAG_END_HEADERS .| HTTP2_FLAG_END_STREAM else HTTP2_FLAG_END_HEADERS in
  let st := push (mkFrame (u32 (zlen encoded)) HEADERS fl sid encoded) st in
  Ret (end_local_at sid end_stream st) (Ok tt).

Definition send_data (st : Http2Handler) (sid : Z) (data : bytes) (end_stream : bool) : outcome :=
  let spent := zlen data in
  let stream_win := match streams_ st !! sid with Some s => send_window s | None => MAX_WINDOW end in
  if (conn_send_window_ st <? spent) || (stream_win <? spent) then Ret st (Err operation_would_block)
  else
    let frame := mkFrame (u32 spent) DATA (if end_stream then HTTP2_FLAG_END_STREAM else 0) sid data in
    let st := set_conn_send (conn_send_window_ st - spent) st in
    let st := match streams_ st !! sid with
              | Some s => set_stream sid (set_send_window (send_window s - spent) s) st
              | None => st
              end in
    let st := push frame st in
    Ret (end_local_at sid end_stream st) (Ok tt).

Definition drain_pending_frames (st : Http2Handler) : list Http2Frame * Http2Handler :=
  (pending_frames_ st, set_pending [] st).

Definition send_settings (ack : bool) (st : Http2Handler) : Http2Handler :=
  if ack then push (mkFrame 0 SETTINGS HTTP2_FLAG_ACK 0 []) st
  else
    let p := append_uint32 (append_uint16 [] 0x1) DEFAULT_HEADER_TABLE_SIZE in
    let p := append_uint32 (append_uint16 p 0x5) DEFAULT_MAX_FRAME_SIZE in
    let p := append_uint32 (append_uint16 p 0x4) DEFAULT_INITIAL_WINDOW_SIZE in
    push (mkFrame (u32 (zlen p)) SETTINGS 0 0 p) st.

(** [for (int i = 7; i >= 0; --i)]: the bytes from the last to the first. *)
Fixpoint ping_bytes (n : nat) (opaque_data : Z) (after : bytes) : bytes :=
  match n with
  | O => after
  | S n => ping_bytes n (opaque_data >> 8) (u8 (opaque_data .& 0xFF) :: after)
  end.

Definition send_ping (ack : bool) (opaque_data : Z) (st : Http2Handler) : Http2Handler :=
  push (mkFrame 8 PING (if ack then HTTP2_FLAG_ACK else 0) 0 (ping_bytes 8 opaque_data [])) st.

Definition send_goaway (last_stream_id error_code : Z) (message : bytes) (st : Http2Handler) : Http2Handler :=
  let p := append_uint32 [] (last_stream_id .& 0x7FFFFFFF) in
  let p := append_uint32 p error_code in
  let p := match message with [] => p | _ => p ++ message end in
  push (mkFrame (u32 (zlen p)) GOAWAY 0 0 p) st.

Definition send_rst_stream (sid error_code : Z) (st : Http2Handler) : Http2Handler :=
  push (mkFrame 4 RST_STREAM 0 sid (append_uint32 [] error_code)) st.

Definition send_window_update (sid increment : Z) (st : Http2Handler) : Http2Handler :=
  push (mkFrame 4 WINDOW_UPDATE 0 sid (append_uint32 [] (increment .& 0x7FFFFFFF))) st.

Definition send_connection_preface (st : Http2Handler) : outcome := Ret (send_settings false st) (Ok tt).

(** The window by reference: its new value, and the state with the frame queued. *)
Definition maybe_replenish_recv_window (sid window : Z) (st : Http2Handler) : Z * Http2Handler :=
  let target := DEFAULT_INITIAL_WINDOW_SIZE in
  if window <? target / 2 then
    let incr := u32 (target - window) in
    (window + incr, send_window_update sid incr st)
  else (window, st).

(** ** Frames in *)

(** GOAWAY with a message, and the error the method returns. *)
Definition refuse (error_code : Z) (message : string) (e : errc) (st : Http2Handler) : outcome :=
  Ret (send_goaway (last_stream_id_ st) error_code (chars message) st) (Err e).

(** [for (auto& [sid, s] : streams_)] of SETTINGS: the streams' windows, up to one that overflows. *)
Fixpoint adjust_windows (sids : list Z) (delta : Z) (st : Http2Handler) : Http2Handler * bool :=
  match sids with
  | [] => (st, true)
  | sid :: sids =>
      match streams_ st !! sid with
      | None => adjust_windows sids delta st
      | Some s =>
          let s := set_send_window (send_window s + delta) s in
          let st := set_stream sid s st in
          if MAX_WINDOW <? send_window s then (st, false) else adjust_windows sids delta st
      end
  end.

Section Incoming.
  Variable order : gmap Z Http2Stream -> list Z.

(** One 6-byte entry. *)
Definition apply_setting (ident val : Z) (st : Http2Handler) : outcome :=
  if ident =? SETTINGS_ENABLE_PUSH then
    if 1 <? val then refuse 0x1 "ENABLE_PUSH must be 0 or 1" protocol_error st else Ret st (Ok tt)
  else if ident =? SETTINGS_INITIAL_WINDOW_SIZE then
    if MAX_WINDOW <? val then refuse 0x3 "INITIAL_WINDOW_SIZE exceeds 2^31-1" protocol_error st
    else
      let delta := val - peer_initial_window_size_ st in
      let '(st, fits) := adjust_windows (order (streams_ st)) delta st in
      if fits then
        Ret (set_peer val (peer_max_frame_size_ st) (peer_header_table_size_ st) (peer_settings_received_ st) st) (Ok tt)
      else refuse 0x3 "stream SEND window overflow on SETTINGS" protocol_error st
  else if ident =? SETTINGS_MAX_FRAME_SIZE then
    if (val <? MIN_MAX_FRAME_SIZE) || (MAX_ALLOWED_FRAME_SIZE <? val) then
      refuse 0x1 "MAX_FRAME_SIZE out of range" protocol_error st
    else Ret (set_peer (peer_initial_window_size_ st) val (peer_header_table_size_ st) (peer_settings_received_ st) st) (Ok tt)
  else if ident =? SETTINGS_HEADER_TABLE_SIZE then
    Ret (set_peer (peer_initial_window_size_ st) (peer_max_frame_size_ st) val (peer_settings_received_ st) st) (Ok tt)
  else Ret st (Ok tt).

Definition be32 (b0 b1 b2 b3 : Z) : Z := (b0 << 24) .| (b1 << 16) .| (b2 << 8) .| b3.

(** The six bytes at [off]: the identifier and the value. *)
Definition setting_at (p : bytes) (off : Z) : option (Z * Z) :=
  match payload_at p off, payload_at p (off + 1), payload_at p (off + 2), payload_at p (off + 3),
        payload_at p (off + 4), payload_at p (off + 5) with
  | Some i0, Some i1, Some v0, Some v1, Some v2, Some v3 => Some (u16 ((i0 << 8) .| i1), be32 v0 v1 v2 v3)
  | _, _, _, _, _, _ => None
  end.

(** [for (off = 0; off + 6 <= size; off += 6)]; a payload has fewer entries than bytes. *)
Fixpoint apply_settings (fuel : nat) (p : bytes) (off : Z) (st : Http2Handler) : outcome :=
  match fuel with
  | O => Fault
  | S fuel =>
      if off + 6 <=? zlen p then
        match setting_at p off with
        | Some (ident, val) =>
            match apply_setting ident val st with
            | Ret st (Ok _) => apply_settings fuel p (off + 6) st
            | out => out
            end
        | None => Fault
        end
      else Ret st (Ok tt)
  end.

Definition handle_settings (st : Http2Handler) (frame : Http2Frame) : outcome :=
  if negb (stream_id frame =? 0) then refuse 0x1 "SETTINGS with non-zero stream ID" protocol_error st
  else if has_flag frame HTTP2_FLAG_ACK then
    if negb (zlen (payload frame) =? 0) then refuse 0x6 "SETTINGS ACK with payload" protocol_error st
    else Ret st (Ok tt)
  else if negb (zlen (payload frame) mod 6 =? 0) then
    refuse 0x6 "SETTINGS length not a multiple of 6" protocol_error st
  else
    match apply_settings (S (length (payload frame))) (payload frame) 0 st with
    | Ret st (Ok _) =>
        let st := set_peer (peer_initial_window_size_ st) (peer_max_frame_size_ st) (peer_header_table_size_ st) true st in
        Ret (send_settings true st) (Ok tt)
    | out => out
    end.

(** [for (int i = 0; i < 8; ++i)]. *)
Fixpoint read_opaque (n : nat) (p : bytes) (i opaque : Z) : option Z :=
  match n with
  | O => Some opaque
  | S n =>
      match payload_at p i with
      | Some b => read_opaque n p (i + 1) (u64 (opaque << 8) .| b)
      | None => None
      end
  end.

Definition handle_ping (st : Http2Handler) (frame : Http2Frame) : outcome :=
  if has_flag frame HTTP2_FLAG_ACK then Ret st (Ok tt)
  else
    match (if 8 <=? zlen (payload frame) then read_opaque 8 (payload frame) 0 0 else Some 0) with
    | Some opaque => Ret (send_ping true opaque st) (Ok tt)
    | None => Fault
    end.

Definition handle_goaway (st : Http2Handler) (_ : Http2Frame) : outcome := Ret st (Err connection_aborted).

Definition get_or_create_stream (sid : Z) (st : Http2Handler) : Http2Stream * Http2Handler :=
  match streams_ st !! sid with
  | Some s => (s, st)
  | None =>
      let s := mkStream sid IDLE ∅ [] (peer_initial_window_size_ st) DEFAULT_INITIAL_WINDOW_SIZE in
      (s, set_stream sid s st)
  end.

(** END_STREAM received: the state, and the handler's invocation. *)
Definition finish_request (sid : Z) (s : Http2Stream) (st : Http2Handler) : Http2Handler :=
  let s := set_state HALF_CLOSED_REMOTE s in
  let st := set_stream sid s st in
  if handler_ st then set_calls (calls st ++ [mkCall sid (request_headers s) (request_body s)]) st else st.

(** The span over [n] bytes of the payload from [o], where it lies within it. *)
Definition span (p : bytes) (o n : Z) : option bytes := if o + n <=? zlen p then Some (ztake n (zdrop o p)) else None.

(** [for (auto& [k, v] : decoded) request_headers[k] = v]. *)
Definition merge_headers (block : bytes) (s : Http2Stream) : Http2Stream :=
  set_state OPEN (set_request_headers (decode block ∪ request_headers s) s).

(** The header block is decoded, or kept for CONTINUATION; [block] is [None] where the span
    [size] bytes long leaves the payload. *)
Definition take_block (sid : Z) (end_headers : bool) (size : Z) (block : option bytes) (s : Http2Stream)
    (st : Http2Handler) : Http2Stream * outcome :=
  if end_headers then
    match block with
    | Some block => let s := merge_headers block s in (s, Ret (set_stream sid s st) (Ok tt))
    | None => (s, Fault)
    end
  else
    let cbuf := default [] (continuation_buffer_ st !! sid) in
    if MAX_HEADER_BLOCK <? u64 (zlen cbuf + size) then
      (s, refuse 0xb "Header block too large" message_size
            (set_continuation (delete sid (continuation_buffer_ st)) st))
    else
      match block with
      | Some block => (s, Ret (set_continuation (<[sid := cbuf ++ block]> (continuation_buffer_ st)) st) (Ok tt))
      | None => (s, Fault)
      end.

(** The PRIORITY fields and the padding length precede the block. *)
Definition header_block_offset (frame : Http2Frame) : Z :=
  (if has_flag frame HTTP2_FLAG_PRIORITY then 5 else 0) + (if has_flag frame HTTP2_FLAG_PADDED then 1 else 0).
Definition pad_length (frame : Http2Frame) : option Z :=
  if has_flag frame HTTP2_FLAG_PADDED then payload_at (payload frame) 0 else Some 0.

Definition handle_headers (st : Http2Handler) (frame : Http2Frame) : outcome :=
  let sid := stream_id frame in
  let size := zlen (payload frame) in
  if sid =? 0 then refuse 0x1 "HEADERS with stream_id == 0" protocol_error st
  else if bool_decide (streams_ st !! sid = None) && (MAX_CONCURRENT_STREAMS <=? Z.of_nat (base.size (streams_ st))) then
    Ret (send_rst_stream sid 0x7 st) (Ok tt)
  else
    let '(s, st) := get_or_create_stream sid st in
    if has_flag frame HTTP2_FLAG_PADDED && (size =? 0) then Ret st (Err protocol_error)
    else
      match pad_length frame with
      | None => Fault
      | Some pad =>
          let o := header_block_offset frame in
          if size <? o then Ret st (Err protocol_error)
          else
            let payload_end := u64 (size - pad) in
            if payload_end <? o then Ret st (Err protocol_error)
            else
              let n := payload_end - o in
              match take_block sid (has_flag frame HTTP2_FLAG_END_HEADERS) n (span (payload frame) o n) s st with
              | (s, Ret st (Ok _)) =>
                  let st := if has_flag frame HTTP2_FLAG_END_STREAM then finish_request sid s st else st in
                  Ret (set_last sid st) (Ok tt)
              | (_, out) => out
              end
      end.

Definition handle_continuation (st : Http2Handler) (frame : Http2Frame) : outcome :=
  let sid := stream_id frame in
  match continuation_buffer_ st !! sid with
  | None => refuse 0x1 "Unexpected CONTINUATION frame" protocol_error st
  | Some buf =>
      if MAX_HEADER_BLOCK <? zlen buf + zlen (payload frame) then
        refuse 0xb "Header block too large" message_size (set_continuation (delete sid (continuation_buffer_ st)) st)
      else
        let buf := buf ++ payload frame in
        let st := set_continuation (<[sid := buf]> (continuation_buffer_ st)) st in
        if has_flag frame HTTP2_FLAG_END_HEADERS then
          let st := match streams_ st !! sid with
                    | Some s => set_stream sid (merge_headers buf s) st
                    | None => st
                    end in
          Ret (set_continuation (delete sid (continuation_buffer_ st)) st) (Ok tt)
        else Ret st (Ok tt)
  end.

(** Where the bytes of a DATA payload lie: from [data_offset] to [data_end]; the frame is
    malformed; or the padding length lies outside the payload. *)
Inductive Range := Within (data_offset data_end : Z) | Malformed | Outside.

Definition data_range (frame : Http2Frame) : Range :=
  let data_end := zlen (payload frame) in
  if has_flag frame HTTP2_FLAG_PADDED then
    if data_end =? 0 then Malformed
    else
      match payload_at (payload frame) 0 with
      | None => Outside
      | Some pad => if data_end <? u64 (pad + 1) then Malformed else Within 1 (u64 (data_end - pad))
      end
  else Within 0 data_end.

Definition data_bytes (frame : Http2Frame) : option bytes :=
  match data_range frame with Within o e => payload_range (payload frame) o e | _ => None end.

Definition handle_data (st : Http2Handler) (frame : Http2Frame) : outcome :=
  let sid := stream_id frame in
  if sid =? 0 then refuse 0x1 "DATA with stream_id == 0" protocol_error st
  else
    match streams_ st !! sid with
    | None => Ret (send_rst_stream sid 0x1 st) (Ok tt)
    | Some s =>
        let fc_len := zlen (payload frame) in
        let st := set_conn_recv (conn_recv_window_ st - fc_len) st in
        let s := set_recv_window (recv_window s - fc_len) s in
        let st := set_stream sid s st in
        if conn_recv_window_ st <? 0 then refuse 0x3 "connection receive window underflow" protocol_error st
        else if recv_window s <? 0 then Ret (erase_stream sid (send_rst_stream sid 0x3 st)) (Ok tt)
        else
          let '(w, st) := maybe_replenish_recv_window 0 (conn_recv_window_ st) st in
          let st := set_conn_recv w st in
          match data_range frame with
          | Outside => Fault
          | Malformed => Ret st (Err protocol_error)
          | Within data_offset data_end =>
              let add := if data_offset <? data_end then data_end - data_offset else 0 in
              if MAX_REQUEST_BODY <? u64 (zlen (request_body s) + add) then
                Ret (send_rst_stream sid 0xb (erase_stream sid st)) (Ok tt)
              else
                match payload_range (payload frame) data_offset data_end with
                | None => Fault
                | Some data =>
                    let s := set_request_body (request_body s ++ data) s in
                    if has_flag frame HTTP2_FLAG_END_STREAM then Ret (finish_request sid s st) (Ok tt)
                    else
                      let '(w, st) := maybe_replenish_recv_window sid (recv_window s) st in
                      Ret (set_stream sid (set_recv_window w s) st) (Ok tt)
                end
          end
    end.

Definition handle_rst_stream (st : Http2Handler) (frame : Http2Frame) : outcome :=
  let sid := stream_id frame in
  let st := erase_stream sid st in
  let st := set_continuation (delete sid (continuation_buffer_ st)) st in
  let st := set_rst (u32 (rst_stream_count_ st + 1)) st in
  if MAX_RST_STREAMS <? rst_stream_count_ st then
    refuse 0xb "Excessive RST_STREAM (rapid reset)" connection_aborted st
  else Ret st (Ok tt).

(** [handle_window_update] once the increment is read. *)
Definition apply_increment (sid incr : Z) (st : Http2Handler) : outcome :=
  if incr =? 0 then
    if sid =? 0 then refuse 0x1 "WINDOW_UPDATE increment 0" protocol_error st
    else Ret (send_rst_stream sid 0x1 st) (Ok tt)
  else if sid =? 0 then
    let st := set_conn_send (conn_send_window_ st + incr) st in
    if MAX_WINDOW <? conn_send_window_ st then refuse 0x3 "connection SEND window overflow" protocol_error st
    else Ret st (Ok tt)
  else
    match streams_ st !! sid with
    | None => Ret st (Ok tt)
    | Some s =>
        let s := set_send_window (send_window s + incr) s in
        let st := set_stream sid s st in
        if MAX_WINDOW <? send_window s then Ret (erase_stream sid (send_rst_stream sid 0x3 st)) (Ok tt)
        else Ret st (Ok tt)
    end.

Definition handle_window_update (st : Http2Handler) (frame : Http2Frame) : outcome :=
  let p := payload frame in
  if negb (zlen p =? 4) then refuse 0x6 "WINDOW_UPDATE length != 4" protocol_error st
  else
    match payload_at p 0, payload_at p 1, payload_at p 2, payload_at p 3 with
    | Some b0, Some b1, Some b2, Some b3 => apply_increment (stream_id frame) (be32 b0 b1 b2 b3 .& 0x7FFFFFFF) st
    | _, _, _, _ => Fault
    end.

Definition handle_frame (st : Http2Handler) (frame : Http2Frame) : outcome :=
  match type frame with
  | SETTINGS => handle_settings st frame
  | PING => handle_ping st frame
  | GOAWAY => handle_goaway st frame
  | HEADERS => handle_headers st frame
  | CONTINUATION => handle_continuation st frame
  | DATA => handle_data st frame
  | RST_STREAM => handle_rst_stream st frame
  | WINDOW_UPDATE => handle_window_update st frame
  | PRIORITY | PUSH_PROMISE | UNKNOWN _ => Ret st (Ok tt)
  end.

(** ** Runs *)

Inductive Op :=
  | Receive (frame : Http2Frame)
  | SendHeaders (sid : Z) (headers : list (bytes * bytes)) (end_stream : bool)
  | SendData (sid : Z) (data : bytes) (end_stream : bool)
  | Drain.

(** The state, and the frames handed to the socket's writer. *)
Definition step (o : Op) (st : Http2Handler) : outcome * list Http2Frame :=
  match o with
  | Receive frame => (handle_frame st frame, [])
  | SendHeaders sid headers es => (send_headers st sid headers es, [])
  | SendData sid data es => (send_data st sid data es, [])
  | Drain => let '(out, st) := drain_pending_frames st in (Ret st (Ok tt), out)
  end.

(** A send that would block is retried by the application: the connection goes on.  An error of
    [handle_frame] ends it. *)
Definition goes_on (o : Op) (r : result unit) : bool :=
  match o, r with SendData _ _ _, _ => true | _, r => has_value r end.

(** The run of a connection: the state and the frames written, [None] where it ended. *)
Fixpoint run (ops : list Op) (st : Http2Handler) : option (Http2Handler * list Http2Frame) :=
  match ops with
  | [] => Some (st, [])
  | o :: ops =>
      match step o st with
      | (Ret st r, out) =>
          if goes_on o r then
            match run ops st with Some (st, out') => Some (st, out ++ out') | None => None end
          else None
      | (Fault, _) => None
      end
  end.
(** ** Accesses within the payload *)

Lemma payload_at_in p i : 0 <= i < zlen p -> payload_at p i = Some (at_ p i).
Proof. intros Hi. unfold payload_at. by rewrite (proj2 (Z.leb_le _ _)), (proj2 (Z.ltb_lt _ _)) by lia. Qed.

Lemma payload_range_in p first last : 0 <= first <= last -> last <= zlen p ->
  payload_range p first last = Some (ztake (last - first) (zdrop first p)).
Proof. intros Hf Hl. unfold payload_range. by rewrite !(proj2 (Z.leb_le _ _)) by lia. Qed.

Lemma payload_range_inv p first last d : payload_range p first last = Some d ->
  0 <= first <= last /\ last <= zlen p /\ zlen d = last - first.
Proof.
  unfold payload_range. case_match eqn:E; [|done]. intros [= <-].
  apply andb_true_iff in E as [[?%Z.leb_le ?%Z.leb_le]%andb_true_iff ?%Z.leb_le].
  rewrite zlen_ztake; [lia|]. rewrite zlen_zdrop; lia.
Qed.

Lemma read_opaque_in n : forall p i o, 0 <= i -> i + Z.of_nat n <= zlen p -> is_Some (read_opaque n p i o).
Proof.
  induction n as [|n IH]; intros p i o Hi Hn; cbn [read_opaque]; [done|].
  rewrite payload_at_in by lia. apply IH; lia.
Qed.

(** The entries of a SETTINGS payload, one by one. *)
Fixpoint apply_entries (p : bytes) (st : Http2Handler) : outcome :=
  match p with
  | i0 :: i1 :: v0 :: v1 :: v2 :: v3 :: p =>
      match apply_setting (u16 ((i0 << 8) .| i1)) (be32 v0 v1 v2 v3) st with
      | Ret st (Ok _) => apply_entries p st
      | out => out
      end
  | _ => Ret st (Ok tt)
  end.

Lemma setting_at_app pre i0 i1 v0 v1 v2 v3 p :
  setting_at (pre ++ i0 :: i1 :: v0 :: v1 :: v2 :: v3 :: p) (zlen pre) = Some (u16 ((i0 << 8) .| i1), be32 v0 v1 v2 v3).
Proof.
  unfold setting_at. pose proof (zlen_nonneg pre). pose proof (zlen_nonneg p).
  rewrite !payload_at_in by (rewrite zlen_app, !zlen_cons; lia). unfold at_, zlen.
  rewrite !Z2Nat.inj_add, !Nat2Z.id by lia. by rewrite !app_nth2_plus, <- (Nat.add_0_r (length pre)), app_nth2_plus.
Qed.

(** The loop of [handle_settings] applies the entries in order and reads nothing else. *)
Lemma apply_settings_entries fuel : forall pre p st, (length p < fuel)%nat ->
  apply_settings fuel (pre ++ p) (zlen pre) st = apply_entries p st.
Proof.
  induction fuel as [|fuel IH]; intros pre p st Hf; [lia|]. cbn [apply_settings]. rewrite zlen_app.
  destruct p as [|i0 [|i1 [|v0 [|v1 [|v2 [|v3 p]]]]]];
    try (rewrite (proj2 (Z.leb_gt _ _)) by (rewrite ?zlen_cons, zlen_nil; lia); done).
  pose proof (zlen_nonneg p). rewrite (proj2 (Z.leb_le _ _)) by (rewrite !zlen_cons; lia). rewrite setting_at_app.
  cbn [apply_entries]. destruct (apply_setting _ _ _) as [st' [[]|]|]; [|done..].
  rewrite <- (IH (pre ++ [i0; i1; v0; v1; v2; v3]) p) by (cbn in Hf; lia). rewrite <- (assoc_L app), zlen_app. done.
Qed.

Lemma apply_settings_all p st : apply_settings (S (length p)) p 0 st = apply_entries p st.
Proof. apply (apply_settings_entries _ []). lia. Qed.
End Incoming.

Lemma window_update_bytes st f : handle_window_update st f =
  match payload f with
  | [b0; b1; b2; b3] => apply_increment (stream_id f) (be32 b0 b1 b2 b3 .& 0x7FFFFFFF) st
  | _ => refuse 0x6 "WINDOW_UPDATE length != 4" protocol_error st
  end.
Proof.
  unfold handle_window_update. cbv zeta. destruct (payload f) as [|b0 [|b1 [|b2 [|b3 [|b4 p]]]]]; try done.
  pose proof (zlen_nonneg p). rewrite (proj2 (Z.eqb_neq _ _)) by (rewrite !zlen_cons; lia). done.
Qed.
