(* ===== verification/Http2Limits.v ===== *)
(** * HTTP/2: limits, flow control and memory safety of a connection

    What holds of every state a connection reaches ([inv]), the credit account of the sending
    side, and exactly which frames make [handle_headers] read outside its payload. *)

From stdpp Require Import gmap.
From S2P Require Import Prelude Hpack Http2.
#[local] Open Scope Z_scope.
#[local] Open Scope word_scope.

Create HintDb h2 discriminated.

(** ** The invariant *)

Definition HALF_WINDOW : Z := DEFAULT_INITIAL_WINDOW_SIZE / 2.

Record stream_inv (initial : Z) (s : Http2Stream) : Prop := {
  stream_recv : 0 <= recv_window s <= DEFAULT_INITIAL_WINDOW_SIZE;
  stream_body : zlen (request_body s) <= MAX_REQUEST_BODY;
  stream_send : initial - MAX_WINDOW <= send_window s <= MAX_WINDOW
}.

Record inv (st : Http2Handler) : Prop := {
  inv_count : Z.of_nat (size (streams_ st)) <= MAX_CONCURRENT_STREAMS;
  inv_streams : map_Forall (fun _ s => stream_inv (peer_initial_window_size_ st) s) (streams_ st);
  inv_blocks : map_Forall (fun _ b => zlen b <= MAX_HEADER_BLOCK) (continuation_buffer_ st);
  inv_conn_recv : 0 <= conn_recv_window_ st <= DEFAULT_INITIAL_WINDOW_SIZE;
  inv_conn_send : 0 <= conn_send_window_ st <= MAX_WINDOW;
  inv_initial : 0 <= peer_initial_window_size_ st <= MAX_WINDOW;
  inv_max_frame : MIN_MAX_FRAME_SIZE <= peer_max_frame_size_ st <= MAX_ALLOWED_FRAME_SIZE;
  inv_rst : 0 <= rst_stream_count_ st <= MAX_RST_STREAMS
}.

Ltac h2consts := unfold HALF_WINDOW in *;
  change (65535 / 2) with 32767 in *.

Lemma inv_init h : inv (Http2Handler_init h).
Proof.
  constructor; try (intros ? ? E; discriminate E); try (split; discriminate). discriminate.
Qed.

(** *** Each assignment keeps it *)

Lemma inv_pending q st : inv st -> inv (set_pending q st).
Proof. intros []. by constructor. Qed.

Lemma inv_push f st : inv st -> inv (push f st).
Proof. apply inv_pending. Qed.

Lemma inv_last sid st : inv st -> inv (set_last sid st).
Proof. intros []. by constructor. Qed.

Lemma inv_calls cs st : inv st -> inv (set_calls cs st).
Proof. intros []. by constructor. Qed.

Lemma inv_set_conn_recv w st : 0 <= w <= DEFAULT_INITIAL_WINDOW_SIZE -> inv st -> inv (set_conn_recv w st).
Proof. intros Hw []. by constructor. Qed.

Lemma inv_set_conn_send w st : 0 <= w <= MAX_WINDOW -> inv st -> inv (set_conn_send w st).
Proof. intros Hw []. by constructor. Qed.

Lemma inv_set_rst n st : 0 <= n <= MAX_RST_STREAMS -> inv st -> inv (set_rst n st).
Proof. intros Hn []. by constructor. Qed.

Lemma inv_erase sid st : inv st -> inv (erase_stream sid st).
Proof.
  intros []. constructor; try done; cbn.
  - destruct (streams_ st !! sid) eqn:E; [rewrite (map_size_delete_Some _ _ (mk_is_Some _ _ E)); lia|].
    by rewrite delete_id.
  - by apply map_Forall_delete.
Qed.

Lemma inv_erase_block sid st : inv st -> inv (set_continuation (delete sid (continuation_buffer_ st)) st).
Proof. intros []. constructor; try done; cbn. by apply map_Forall_delete. Qed.

Lemma inv_set_block sid b st : zlen b <= MAX_HEADER_BLOCK -> inv st ->
  inv (set_continuation (<[sid := b]> (continuation_buffer_ st)) st).
Proof. intros Hb []. constructor; try done; cbn. by apply map_Forall_insert_2. Qed.

(** A stream of the map is replaced, or one is added below the limit. *)
Lemma inv_set_stream sid s st : stream_inv (peer_initial_window_size_ st) s ->
  is_Some (streams_ st !! sid) \/ Z.of_nat (size (streams_ st)) < MAX_CONCURRENT_STREAMS ->
  inv st -> inv (set_stream sid s st).
Proof.
  intros Hs Hsid []. constructor; try done; cbn; [|by apply map_Forall_insert_2].
  destruct (streams_ st !! sid) eqn:E.
  - by rewrite (map_size_insert_Some _ _ _ (mk_is_Some _ _ E)).
  - destruct Hsid as [[? ?]|?]; [done|]. rewrite map_size_insert_None by done. lia.
Qed.

Lemma inv_lookup st sid s : inv st -> streams_ st !! sid = Some s -> stream_inv (peer_initial_window_size_ st) s.
Proof. intros H E. exact (inv_streams _ H _ _ E). Qed.

#[export] Hint Resolve inv_push inv_last inv_calls inv_erase inv_erase_block : h2.

(** ** Frames in *)

(** A call that returned success left the invariant. *)
Definition kept (out : outcome) : Prop := match out with Ret st (Ok _) => inv st | _ => True end.

Lemma be32_range b0 b1 b2 b3 : all_bytes [b0; b1; b2; b3] -> 0 <= be32 b0 b1 b2 b3.
Proof.
  intros H. repeat (apply Forall_cons in H as [? H]). unfold be32.
  rewrite !Z.lor_nonneg, !Z.shiftl_nonneg. rlia.
Qed.

(** *** SETTINGS *)

Definition adjusted (delta : Z) (s : Http2Stream) : Http2Stream := set_send_window (send_window s + delta) s.

Lemma adjust_windows_spec sids delta : forall st st', NoDup sids -> adjust_windows sids delta st = (st', true) ->
  st' = set_streams (streams_ st') st /\
  forall k, streams_ st' !! k = (if bool_decide (k ∈ sids) then adjusted delta <$> streams_ st !! k else streams_ st !! k) /\
    (k ∈ sids -> forall s, streams_ st' !! k = Some s -> send_window s <= MAX_WINDOW).
Proof.
  induction sids as [|sid sids IH]; intros st st' Hnd; cbn [adjust_windows].
  { intros [= <-]. split; [by destruct st|]. intros k. rewrite bool_decide_false by apply not_elem_of_nil.
    split; [done|]. by intros ?%not_elem_of_nil. }
  apply NoDup_cons in Hnd as [Hsid Hnd]. destruct (streams_ st !! sid) as [s|] eqn:Es.
  - destruct (Z.ltb_spec MAX_WINDOW (send_window (set_send_window (send_window s + delta) s))) as [|Hle]; [done|].
    intros E. destruct (IH _ _ Hnd E) as [Est Hk]. split; [by rewrite Est|]. intros k.
    destruct (Hk k) as [Hl Hm]. cbn [set_stream set_streams streams_] in Hl. destruct (decide (k = sid)) as [->|Hne].
    + rewrite bool_decide_false, lookup_insert_eq in Hl by done. rewrite bool_decide_true by set_solver.
      rewrite Hl, Es. split; [done|]. by intros _ ? [= <-].
    + rewrite lookup_insert_ne in Hl by done. rewrite Hl.
      rewrite (bool_decide_ext (k ∈ sid :: sids) (k ∈ sids)) by set_solver.
      split; [done|]. intros Hin. rewrite <- Hl. apply Hm. set_solver.
  - intros E. destruct (IH _ _ Hnd E) as [Est Hk]. split; [done|]. intros k. destruct (Hk k) as [Hl Hm].
    destruct (decide (k = sid)) as [->|Hne].
    + rewrite Hl, bool_decide_false, bool_decide_true, Es by set_solver. done.
    + rewrite (bool_decide_ext (k ∈ sid :: sids) (k ∈ sids)) by set_solver. split; [done|].
      intros Hin. apply Hm. set_solver.
Qed.

Section WithOrder.
  Context (order : gmap Z Http2Stream -> list Z).
  Hypothesis order_keys : forall m, order m ≡ₚ (map_to_list m).*1.

Lemma order_nodup m : NoDup (order m).
Proof. rewrite order_keys. apply NoDup_fst_map_to_list. Qed.

Lemma elem_of_order m k : k ∈ order m <-> is_Some (m !! k).
Proof.
  rewrite order_keys, list_elem_of_fmap. split.
  - intros ([k' s] & -> & Hin). apply elem_of_map_to_list in Hin. by exists s.
  - intros [s Hs]. exists (k, s). split; [done|]. by apply elem_of_map_to_list.
Qed.

(** Every stream's window moves by the change of the initial window. *)
Lemma adjust_order delta st st' : adjust_windows (order (streams_ st)) delta st = (st', true) ->
  st' = set_streams (adjusted delta <$> streams_ st) st /\
  map_Forall (fun _ s => send_window s <= MAX_WINDOW) (adjusted delta <$> streams_ st).
Proof.
  intros E. destruct (adjust_windows_spec _ _ _ _ (order_nodup _) E) as [Est Hk].
  assert (Em : streams_ st' = adjusted delta <$> streams_ st).
  { apply map_eq. intros k. rewrite (proj1 (Hk k)), lookup_fmap. case_bool_decide as Hin; [done|].
    rewrite elem_of_order in Hin. apply eq_None_not_Some in Hin. by rewrite Hin. }
  split; [by rewrite Est, Em|]. rewrite <- Em. intros k s Hs. apply (proj2 (Hk k)); [|done].
  apply elem_of_order. rewrite Em, lookup_fmap in Hs. destruct (streams_ st !! k); done || eauto.
Qed.

Lemma inv_adjust val st : inv st -> 0 <= val <= MAX_WINDOW ->
  let m := adjusted (val - peer_initial_window_size_ st) <$> streams_ st in
  map_Forall (fun _ s => send_window s <= MAX_WINDOW) m ->
  forall mf ht ok, MIN_MAX_FRAME_SIZE <= mf <= MAX_ALLOWED_FRAME_SIZE -> inv (set_peer val mf ht ok (set_streams m st)).
Proof.
  intros [] Hv m Hm mf ht ok Hmf. constructor; try done; cbn; [by unfold m; rewrite map_size_fmap|].
  intros k s Hs. pose proof (Hm _ _ Hs) as Hle. unfold m in Hs. rewrite lookup_fmap in Hs.
  destruct (streams_ st !! k) as [s0|] eqn:E; [|done]. injection Hs as <-.
  destruct (inv_streams0 _ _ E) as [? ? ?]. constructor; try done. cbn in *. lia.
Qed.

Lemma inv_set_peer mf ht ok st : MIN_MAX_FRAME_SIZE <= mf <= MAX_ALLOWED_FRAME_SIZE -> inv st ->
  inv (set_peer (peer_initial_window_size_ st) mf ht ok st).
Proof. intros Hmf []. by constructor. Qed.

Lemma kept_apply_setting ident val st : 0 <= val -> inv st -> kept (apply_setting order ident val st).
Proof.
  intros Hv Hi. unfold apply_setting.
  destruct (ident =? _); [by destruct (1 <? val)|]. destruct (ident =? _).
  { destruct (Z.ltb_spec MAX_WINDOW val); [done|]. destruct (adjust_windows _ _ _) as [st' []] eqn:E; [|done].
    destruct (adjust_order _ _ _ E) as [-> Hm]. cbn [kept]. apply inv_adjust; [done|lia|done|apply Hi]. }
  destruct (ident =? _); [|destruct (ident =? _); [apply inv_set_peer; [apply Hi|done]|done]].
  destruct (Z.ltb_spec val MIN_MAX_FRAME_SIZE), (Z.ltb_spec MAX_ALLOWED_FRAME_SIZE val); try done.
  by apply inv_set_peer.
Qed.

Lemma list_ind6 {A} (P : list A -> Prop) : (forall l, (length l < 6)%nat -> P l) ->
  (forall a b c d e f l, P l -> P (a :: b :: c :: d :: e :: f :: l)) -> forall l, P l.
Proof.
  intros Hb Hs. apply list_length_ind. intros l IH.
  destruct l as [|a [|b [|c [|d [|e [|f l]]]]]]; try (apply Hb; cbn; lia).
  apply Hs, IH. cbn. lia.
Qed.

Lemma kept_apply_entries p : forall st, all_bytes p -> inv st -> kept (apply_entries order p st).
Proof.
  induction p as [p Hl|i0 i1 v0 v1 v2 v3 p IH] using list_ind6; intros st Hp Hi.
  { do 6 (destruct p; [done|]). cbn in Hl. lia. }
  cbn [apply_entries]. change (i0 :: i1 :: v0 :: v1 :: v2 :: v3 :: p) with ([i0; i1] ++ [v0; v1; v2; v3] ++ p) in Hp.
  apply Forall_app in Hp as [_ [Hv Hp]%Forall_app].
  pose proof (kept_apply_setting (u16 ((i0 << 8) .| i1)) _ st (be32_range _ _ _ _ Hv) Hi) as Hk.
  destruct (apply_setting _ _ _ _) as [st' [[]|]|]; try done. by apply IH.
Qed.

Lemma kept_settings st f : all_bytes (payload f) -> inv st -> kept (handle_settings order st f).
Proof.
  intros Hp Hi. unfold handle_settings. rewrite apply_settings_all. repeat (case_match; try done).
  pose proof (kept_apply_entries _ st Hp Hi) as Hk. simplify_eq.
  match goal with E : apply_entries _ _ _ = Ret _ _ |- _ => rewrite E in Hk end.
  apply inv_push, inv_set_peer; [apply Hk|done].
Qed.
End WithOrder.

(** *** Header blocks *)

Lemma inv_merge block s i : stream_inv i s -> stream_inv i (merge_headers block s).
Proof. intros []. by constructor. Qed.

Lemma inv_finish sid s st : stream_inv (peer_initial_window_size_ st) s -> is_Some (streams_ st !! sid) ->
  inv st -> inv (finish_request sid s st).
Proof.
  intros Hs Hsid Hi. unfold finish_request. cbv zeta.
  assert (inv (set_stream sid (set_state HALF_CLOSED_REMOTE s) st))
    by (apply inv_set_stream; [by destruct Hs|auto|done]).
  case_match; auto with h2.
Qed.

(** The new or found stream is in the map. *)
Lemma get_or_create_inv sid st s st' : inv st ->
  bool_decide (streams_ st !! sid = None) && (MAX_CONCURRENT_STREAMS <=? Z.of_nat (size (streams_ st))) = false ->
  get_or_create_stream sid st = (s, st') -> inv st' /\ streams_ st' !! sid = Some s.
Proof.
  intros Hi Hlim. unfold get_or_create_stream. destruct (streams_ st !! sid) as [s0|] eqn:E; intros [= <- <-]; [done|].
  rewrite bool_decide_true, andb_true_l in Hlim by done. apply Z.leb_gt in Hlim. split.
  - apply inv_set_stream; [|auto|done]. destruct (inv_initial _ Hi).
    constructor; cbn [recv_window request_body send_window]; rewrite ?zlen_nil; h2consts; lia.
  - cbn. apply lookup_insert_eq.
Qed.

Lemma kept_take_block sid eh n b s st s' out : 0 <= n -> (forall x, b = Some x -> n = zlen x) ->
  n < 2 ^ 63 \/ b = None -> inv st -> streams_ st !! sid = Some s -> take_block sid eh n b s st = (s', out) ->
  kept out /\ match out with Ret st' (Ok _) => streams_ st' !! sid = Some s' | _ => True end.
Proof.
  intros Hn Hb Hbig Hi Es. unfold take_block. destruct eh.
  - destruct b; intros [= <- <-]; [|done]. split; [|cbn; apply lookup_insert_eq].
    apply inv_set_stream; [by apply inv_merge, (inv_lookup _ sid)|eauto|done].
  - destruct (Z.ltb_spec MAX_HEADER_BLOCK (u64 (zlen (default [] (continuation_buffer_ st !! sid)) + n))) as [|Hle];
      [intros [= <- <-]; done|].
    destruct b as [x|]; intros [= <- <-]; [|done]. split; [|done]. apply inv_set_block; [|done].
    assert (Hc : zlen (default [] (continuation_buffer_ st !! sid)) <= MAX_HEADER_BLOCK).
    { destruct (continuation_buffer_ st !! sid) eqn:Ec; [exact (inv_blocks _ Hi _ _ Ec)|by cbn]. }
    destruct Hbig as [Hbig|]; [|done]. specialize (Hb x eq_refl). subst n.
    rewrite wrap_small in Hle by (pose proof (zlen_nonneg (default [] (continuation_buffer_ st !! sid))); h2consts; rlia).
    by rewrite zlen_app.
Qed.

(** A frame as the 24-bit length and the 31-bit stream field carry it. *)
Record frame_ok (f : Http2Frame) : Prop := {
  frame_bytes : all_bytes (payload f);
  frame_len : zlen (payload f) < 2 ^ 24;
  frame_sid : 0 <= stream_id f < 2 ^ 31
}.

Lemma span_len p o n x : 0 <= o -> 0 <= n -> span p o n = Some x -> n = zlen x.
Proof.
  unfold span. intros Ho Hn. destruct (Z.leb_spec (o + n) (zlen p)); [|done]. intros [= <-].
  rewrite zlen_ztake; [done|]. rewrite zlen_zdrop; lia.
Qed.

Lemma span_small p o n : 0 <= o -> zlen p < 2 ^ 24 -> n < 2 ^ 63 \/ span p o n = None.
Proof. intros Ho Hp. unfold span. destruct (Z.leb_spec (o + n) (zlen p)); [left; lia|auto]. Qed.

Lemma kept_headers st f : frame_ok f -> inv st -> kept (handle_headers st f).
Proof.
  intros [_ Hl _] Hi. unfold handle_headers. cbv zeta. case_match; [done|].
  destruct (bool_decide (streams_ st !! stream_id f = None) && _) eqn:Hlim; [by apply inv_push|].
  destruct (get_or_create_stream (stream_id f) st) as [s st1] eqn:Eg.
  destruct (get_or_create_inv _ _ _ _ Hi Hlim Eg) as [Hi1 Hs1].
  case_match; [done|]. destruct (pad_length f) as [pad|]; [|done]. case_match; [done|].
  set (o := header_block_offset f).
  assert (Ho : 0 <= o) by (unfold o, header_block_offset; repeat case_match; lia).
  case_match eqn:Hend; [done|]. apply Z.ltb_ge in Hend.
  set (n := _ - o). assert (Hn : 0 <= n) by (unfold n; lia). destruct (take_block _ _ _ _ _ _) as [s' out] eqn:Et.
  destruct (kept_take_block _ _ _ _ _ _ _ _ Hn (fun x => span_len (payload f) o n x Ho Hn)
    (span_small _ o n Ho Hl) Hi1 Hs1 Et) as [Hk Hs].
  destruct out as [st2 [[]|]|]; try done. cbn [kept] in *. apply inv_last. case_match; [|done].
  apply inv_finish; eauto using inv_lookup.
Qed.

Lemma kept_continuation st f : inv st -> kept (handle_continuation st f).
Proof.
  intros Hi. unfold handle_continuation. cbv zeta. case_match; [|done].
  case_match eqn:Hle; [done|]. apply Z.ltb_ge in Hle.
  assert (Hi1 := inv_set_block (stream_id f) (l ++ payload f) st ltac:(by rewrite zlen_app) Hi).
  case_match; [|done]. cbn [kept]. apply inv_erase_block. case_match; [|done].
  apply inv_set_stream; [|eauto|done]. eapply inv_merge, inv_lookup; [|done]. done.
Qed.

(** *** DATA *)

Lemma replenish_spec sid w st w' st' : 0 <= w <= DEFAULT_INITIAL_WINDOW_SIZE ->
  maybe_replenish_recv_window sid w st = (w', st') ->
  HALF_WINDOW <= w' <= DEFAULT_INITIAL_WINDOW_SIZE /\ (st' = st \/ exists f, st' = push f st /\ type f = WINDOW_UPDATE).
Proof.
  intros Hw. unfold maybe_replenish_recv_window. destruct (Z.ltb_spec w (DEFAULT_INITIAL_WINDOW_SIZE / 2)); intros [= <- <-].
  - rewrite wrap_small by (h2consts; rlia). split; [h2consts; lia|]. right. by eexists.
  - split; [h2consts; lia|auto].
Qed.

(** The range of a DATA payload is never outside it. *)
Lemma data_range_spec f : frame_ok f -> data_range f = Malformed \/
  exists o e, data_range f = Within o e /\ 0 <= o <= e /\ e <= zlen (payload f).
Proof.
  intros [Hb Hl _]. unfold data_range. pose proof (zlen_nonneg (payload f)) as Hz. cbv zeta.
  case_match; [|right; exists 0, (zlen (payload f)); (split; [done|lia])].
  destruct (Z.eqb_spec (zlen (payload f)) 0) as [|Hne]; [by left|]. rewrite payload_at_in by lia.
  pose proof (at_range 8 _ 0 ltac:(lia) Hb) as Hp. rewrite (wrap_small 64) by rlia.
  destruct (Z.ltb_spec (zlen (payload f)) (at_ (payload f) 0 + 1)); [by left|]. right.
  eexists _, _. split; [done|]. rewrite wrap_small by rlia. rlia.
Qed.

(** The size added to a body. *)
Lemma if_sub o e : o <= e -> (if o <? e then e - o else 0) = e - o.
Proof. intros Ho. destruct (Z.ltb_spec o e); lia. Qed.

Lemma erase_push sid f st : erase_stream sid (push f st) = push f (erase_stream sid st).
Proof. done. Qed.

Lemma erase_set_stream sid s st : erase_stream sid (set_stream sid s st) = erase_stream sid st.
Proof. unfold erase_stream, set_stream, set_streams. cbn. by rewrite delete_insert_eq. Qed.

(** The state once both windows are debited and the connection's is refilled. *)
Lemma debit_inv st sid s w r st1 : inv st -> streams_ st !! sid = Some s -> 0 <= r <= DEFAULT_INITIAL_WINDOW_SIZE ->
  st1 = set_stream sid (set_recv_window r s) (set_conn_recv (conn_recv_window_ st - w) st) ->
  0 <= w -> 0 <= conn_recv_window_ st - w ->
  forall w' st2, maybe_replenish_recv_window 0 (conn_recv_window_ st - w) st1 = (w', st2) ->
    inv (set_conn_recv w' st2) /\ streams_ (set_conn_recv w' st2) !! sid = Some (set_recv_window r s).
Proof.
  intros Hi Es Hr -> Hw Hconn w' st2 E. destruct (inv_conn_recv _ Hi).
  apply replenish_spec in E as [Hw' Hst]; [|lia].
  assert (Hi' : inv (set_stream sid (set_recv_window r s) (set_conn_recv w' st))).
  { apply inv_set_stream; [|cbn; eauto|apply inv_set_conn_recv; [h2consts; lia|done]].
    destruct (inv_lookup _ _ _ Hi Es). by constructor. }
  destruct Hst as [->|(f & -> & _)]; (split; [|cbn; apply lookup_insert_eq]).
  - exact Hi'.
  - exact (inv_push f _ Hi').
Qed.

Lemma kept_data st f : frame_ok f -> inv st -> kept (handle_data st f).
Proof.
  intros Hf Hi. unfold handle_data. cbv zeta. case_match; [done|]. case_match eqn:Es; [|by apply inv_push].
  pose proof (zlen_nonneg (payload f)) as Hlen. destruct (inv_conn_recv _ Hi) as [Hc1 Hc2].
  pose proof (inv_lookup _ _ _ Hi Es) as [[Hr1 Hr2] Hb Hw].
  case_match eqn:Hconn; [done|]. apply Z.ltb_ge in Hconn. cbn [set_stream set_streams set_conn_recv conn_recv_window_] in Hconn.
  cbn [set_recv_window recv_window]. destruct (Z.ltb_spec (recv_window h - zlen (payload f)) 0) as [|Hstr].
  { cbn [kept]. unfold send_rst_stream. rewrite erase_push, erase_set_stream.
    apply inv_push, inv_erase, inv_set_conn_recv; [lia|done]. }
  destruct (maybe_replenish_recv_window 0 _ _) as [w' st2] eqn:Er.
  assert (Hr : 0 <= recv_window h - zlen (payload f) <= DEFAULT_INITIAL_WINDOW_SIZE) by lia.
  destruct (debit_inv st (stream_id f) h _ _ _ Hi Es Hr eq_refl Hlen Hconn _ _ Er) as [Hi2 Hs2].
  destruct (data_range_spec f Hf) as [->|(o & e & -> & Ho & He)]; [done|]. rewrite (if_sub o e) by lia.
  case_match eqn:Hbody; [by apply inv_push, inv_erase|]. apply Z.ltb_ge in Hbody.
  destruct (payload_range (payload f) o e) as [d|] eqn:Ed; [|done].
  destruct (payload_range_inv _ _ _ _ Ed) as (_ & _ & Hd).
  cbn [set_recv_window request_body] in Hbody. pose proof (zlen_nonneg (request_body h)).
  rewrite wrap_small in Hbody by (h2consts; destruct Hf; rlia).
  set (s2 := set_request_body _ _).
  assert (Hs2' : stream_inv (peer_initial_window_size_ (set_conn_recv w' st2)) s2).
  { destruct (inv_lookup _ _ _ Hi2 Hs2). constructor; try done. cbn. rewrite zlen_app. lia. }
  case_match; [apply inv_finish; eauto|].
  destruct (maybe_replenish_recv_window (stream_id f) _ _) as [w3 st3] eqn:Er3.
  apply replenish_spec in Er3 as [Hw3 Hst3]; [|done]. cbn [kept].
  apply inv_set_stream; [..|by destruct Hst3 as [->|(? & -> & _)]; auto with h2].
  - destruct Hst3 as [->|(? & -> & _)]; destruct Hs2'; constructor; cbn in *; try done; h2consts; lia.
  - left. destruct Hst3 as [->|(? & -> & _)]; eauto.
Qed.

(** *** RST_STREAM, WINDOW_UPDATE, and the sends *)

Lemma kept_rst st f : inv st -> kept (handle_rst_stream st f).
Proof.
  intros Hi. unfold handle_rst_stream, refuse. cbv zeta. case_match eqn:E; [done|]. apply Z.ltb_ge in E.
  destruct (inv_rst _ Hi). apply inv_set_rst; [|by apply inv_erase_block, inv_erase].
  cbn in *. rewrite wrap_small in * by (h2consts; rlia). lia.
Qed.

Lemma inv_set_send sid s w st : inv st -> streams_ st !! sid = Some s ->
  peer_initial_window_size_ st - MAX_WINDOW <= w <= MAX_WINDOW -> inv (set_stream sid (set_send_window w s) st).
Proof.
  intros Hi Es Hw. apply inv_set_stream; [|eauto|done]. destruct (inv_lookup _ _ _ Hi Es). by constructor.
Qed.

Lemma land_nonneg_mask z m : 0 <= m -> 0 <= z .& m.
Proof. intros. apply Z.land_nonneg. auto. Qed.

Lemma kept_window_update st f : inv st -> kept (handle_window_update st f).
Proof.
  intros Hi. rewrite window_update_bytes. unfold apply_increment. cbv zeta.
  destruct (payload f) as [|b0 [|b1 [|b2 [|b3 [|]]]]]; try done.
  pose proof (land_nonneg_mask (be32 b0 b1 b2 b3) 0x7FFFFFFF ltac:(done)) as Hn.
  do 2 (case_match; try done; try by apply inv_push).
  - case_match eqn:E; [done|]. apply Z.ltb_ge in E. cbn in E. destruct (inv_conn_send _ Hi).
    apply inv_set_conn_send; [lia|done].
  - destruct (streams_ st !! stream_id f) as [s|] eqn:Es; [|done]. case_match eqn:E.
    + cbn [kept]. unfold send_rst_stream. rewrite erase_push, erase_set_stream. auto with h2.
    + apply Z.ltb_ge in E. cbn in E. destruct (inv_lookup _ _ _ Hi Es) as [_ _ [? ?]]. apply inv_set_send; [done|done|lia].
Qed.

Lemma inv_end_local sid es st : inv st -> inv (end_local_at sid es st).
Proof.
  intros Hi. unfold end_local_at. case_match eqn:Es; [|done]. case_match; [|done].
  apply inv_set_stream; [|eauto|done]. destruct (inv_lookup _ _ _ Hi Es). unfold end_local. case_match; by constructor.
Qed.

Lemma inv_send_data st sid data es st' r : inv st -> send_data st sid data es = Ret st' r -> inv st'.
Proof.
  intros Hi. unfold send_data. cbv zeta. case_match eqn:E; intros [= <- <-]; [done|].
  apply orb_false_iff in E as [E1%Z.ltb_ge E2%Z.ltb_ge]. pose proof (zlen_nonneg data). destruct (inv_conn_send _ Hi), (inv_initial _ Hi).
  assert (Hi1 : inv (set_conn_send (conn_send_window_ st - zlen data) st)) by (apply inv_set_conn_send; [lia|done]).
  apply inv_end_local, inv_push. cbn [set_conn_send streams_]. destruct (streams_ st !! sid) as [s|] eqn:Es; [|done].
  destruct (inv_lookup _ _ _ Hi Es) as [_ _ [? ?]]. apply inv_set_send; [done|done|cbn; lia].
Qed.

(** ** Runs *)

Definition op_ok (o : Op) : Prop := match o with Receive f => frame_ok f | _ => True end.

Section Runs.
  Context (order : gmap Z Http2Stream -> list Z).
  Hypothesis order_keys : forall m, order m ≡ₚ (map_to_list m).*1.

Lemma kept_frame st f : frame_ok f -> inv st -> kept (handle_frame order st f).
Proof.
  intros Hf Hi. unfold handle_frame. case_match; try done.
  - by apply kept_data.
  - by apply kept_headers.
  - by apply kept_rst.
  - apply kept_settings; [done|apply Hf|done].
  - unfold handle_ping. repeat case_match; try done; by apply inv_push.
  - by apply kept_window_update.
  - by apply kept_continuation.
Qed.

Lemma step_inv o st st' r out : op_ok o -> inv st -> step order o st = (Ret st' r, out) -> goes_on o r = true -> inv st'.
Proof.
  intros Ho Hi. destruct o as [f|sid hs es|sid d es|]; cbn [step].
  - pose proof (kept_frame st f Ho Hi) as Hk. intros [= E <-]. rewrite E in Hk. by destruct r.
  - intros [= <- <- <-] _. by apply inv_end_local, inv_push.
  - intros [= E <-] _. by eapply inv_send_data.
  - intros [= <- <- <-] _. by apply inv_pending.
Qed.

Lemma run_inv ops : forall st st' out, Forall op_ok ops -> inv st -> run order ops st = Some (st', out) -> inv st'.
Proof.
  induction ops as [|o ops IH]; intros st st' out Hops Hi; cbn [run]; [by intros [= <- <-]|].
  apply Forall_cons in Hops as [Ho Hops]. destruct (step order o st) as [[st1 r|] out1] eqn:Es; [|done].
  destruct (goes_on o r) eqn:Eg; [|done]. destruct (run order ops st1) as [[st2 out2]|] eqn:Er; [|done].
  intros [= <- <-]. eapply IH; [done| |done]. by eapply step_inv.
Qed.
End Runs.

(** C9. The limits of a connection.  Whatever frames a peer sends and whatever the application
    sends in between, as long as no frame is answered by an error: at most 128 streams, at most
    8 MiB of body on each, at most 64 KiB in each header block, receive windows between zero and
    what was advertised, send windows within the RFC's bounds (a stream's below zero only by a
    SETTINGS change), peer settings within their legal ranges, at most 200 RST_STREAM. *)
Theorem http2_limits (order : gmap Z Http2Stream -> list Z) (handler : bool) (ops : list Op) st out :
  (forall m, order m ≡ₚ (map_to_list m).*1) -> Forall op_ok ops ->
  run order ops (Http2Handler_init handler) = Some (st, out) -> inv st.
Proof. intros Ho Hops. apply run_inv; [done|done|apply inv_init]. Qed.

(** ** The sending side's credit *)

Definition is_data (f : Http2Frame) : bool := match type f with DATA => true | _ => false end.

(** The DATA bytes among frames sent. *)
Definition data_out (fs : list Http2Frame) : Z :=
  foldr (fun f acc => (if is_data f then zlen (payload f) else 0) + acc) 0 fs.

(** The connection credit an operation's frame grants. *)
Definition granted (o : Op) : Z :=
  match o with
  | Receive f =>
      match type f, payload f with
      | WINDOW_UPDATE, [b0; b1; b2; b3] => if stream_id f =? 0 then be32 b0 b1 b2 b3 .& 0x7FFFFFFF else 0
      | _, _ => 0
      end
  | _ => 0
  end.

Definition total_granted (ops : list Op) : Z := foldr (fun o acc => granted o + acc) 0 ops.

Lemma data_out_app xs ys : data_out (xs ++ ys) = data_out xs + data_out ys.
Proof. unfold data_out. induction xs as [|f xs IH]; [done|]. cbn [app foldr]. rewrite IH. lia. Qed.

(** Neither the connection's send window nor the DATA bytes queued change. *)
Definition quiet (st st' : Http2Handler) : Prop :=
  conn_send_window_ st' = conn_send_window_ st /\ data_out (pending_frames_ st') = data_out (pending_frames_ st).

Lemma quiet_refl st : quiet st st.
Proof. done. Qed.

Lemma quiet_push f st st' : is_data f = false -> quiet st st' -> quiet st (push f st').
Proof. intros Hf [? Hd]. split; [done|]. cbn. rewrite data_out_app, Hd. cbn. rewrite Hf. lia. Qed.

Lemma quiet_set_streams m st st' : quiet st st' -> quiet st (set_streams m st').
Proof. by intros []. Qed.
Lemma quiet_set_last sid st st' : quiet st st' -> quiet st (set_last sid st').
Proof. by intros []. Qed.
Lemma quiet_set_continuation m st st' : quiet st st' -> quiet st (set_continuation m st').
Proof. by intros []. Qed.
Lemma quiet_set_conn_recv w st st' : quiet st st' -> quiet st (set_conn_recv w st').
Proof. by intros []. Qed.
Lemma quiet_set_peer a b c d st st' : quiet st st' -> quiet st (set_peer a b c d st').
Proof. by intros []. Qed.
Lemma quiet_set_rst n st st' : quiet st st' -> quiet st (set_rst n st').
Proof. by intros []. Qed.
Lemma quiet_set_calls cs st st' : quiet st st' -> quiet st (set_calls cs st').
Proof. by intros []. Qed.

Lemma quiet_finish sid s st st' : quiet st st' -> quiet st (finish_request sid s st').
Proof. intros Hq. unfold finish_request. case_match; [by apply quiet_set_calls, quiet_set_streams|by apply quiet_set_streams]. Qed.

Lemma quiet_adjust sids delta : forall st st' st'' b, adjust_windows sids delta st' = (st'', b) -> quiet st st' -> quiet st st''.
Proof.
  induction sids as [|sid sids IH]; intros st st' st'' b; cbn [adjust_windows]; [by intros [= <- _]|].
  repeat case_match; intros E Hq; simplify_eq; eauto using quiet_set_streams.
Qed.

Lemma quiet_replenish sid w st st' w' st'' : maybe_replenish_recv_window sid w st' = (w', st'') -> quiet st st' -> quiet st st''.
Proof.
  unfold maybe_replenish_recv_window. case_match; intros [= _ <-]; [|done]. by apply quiet_push.
Qed.

#[export] Hint Resolve quiet_refl quiet_push quiet_set_streams quiet_set_last quiet_set_continuation quiet_set_conn_recv
  quiet_set_peer quiet_set_rst quiet_set_calls quiet_finish : h2.

Definition quiet_out (st : Http2Handler) (out : outcome) : Prop := match out with Ret st' _ => quiet st st' | Fault => True end.

Lemma quiet_refuse c m e st st' : quiet st st' -> quiet_out st (refuse c m e st').
Proof. intros. by apply quiet_push. Qed.
#[export] Hint Resolve quiet_refuse : h2.

Lemma quiet_setting order ident val st st' : quiet st st' -> quiet_out st (apply_setting order ident val st').
Proof.
  intros Hq. unfold apply_setting. repeat case_match; auto with h2; cbn [quiet_out]; 
    eauto using quiet_set_peer, quiet_adjust with h2.
Qed.

Lemma quiet_apply_entries order p : forall st st', quiet st st' -> quiet_out st (apply_entries order p st').
Proof.
  induction p as [p Hl|i0 i1 v0 v1 v2 v3 p IH] using list_ind6; intros st st' Hq.
  { do 6 (destruct p; [done|]). cbn in Hl. lia. }
  cbn [apply_entries]. pose proof (quiet_setting order (u16 ((i0 << 8) .| i1)) (be32 v0 v1 v2 v3) st st' Hq) as Hs.
  repeat case_match; simplify_eq; auto.
Qed.

Lemma quiet_settings order st f : quiet_out st (handle_settings order st f).
Proof.
  unfold handle_settings. rewrite apply_settings_all. repeat (case_match; try done; auto with h2); cbn [quiet_out];
    pose proof (quiet_apply_entries order (payload f) st st (quiet_refl st)) as Hq;
    match goal with E : apply_entries _ _ _ = _ |- _ => rewrite E in Hq end; auto with h2.
  apply quiet_push; auto with h2.
Qed.

Lemma quiet_take_block sid eh n b s st st' : quiet st st' -> quiet_out st (snd (take_block sid eh n b s st')).
Proof. intros Hq. unfold take_block. repeat case_match; cbn [snd quiet_out]; auto with h2. all: by apply quiet_set_streams. Qed.

Lemma quiet_headers st f : quiet_out st (handle_headers st f).
Proof.
  unfold handle_headers, get_or_create_stream. cbv zeta. case_match; [auto with h2|]. case_match; [by apply quiet_push|].
  set (p := match streams_ st !! stream_id f with Some _ => _ | None => _ end). 
  assert (Hp : quiet st (snd p)) by (unfold p; case_match; [done|]; by apply quiet_set_streams).
  destruct p as [s st1]. cbn [snd] in Hp. case_match; [done|]. destruct (pad_length f); [|done]. do 2 (case_match; [done|]).
  match goal with |- context [take_block ?a ?b ?c ?d ?e ?g] => pose proof (quiet_take_block a b c d e st g Hp) as Ht;
    destruct (take_block a b c d e g) as [s' out] end.
  cbn [snd] in Ht. destruct out as [st2 [[]|]|]; try done. cbn [quiet_out] in *. repeat case_match; auto with h2.
Qed.

Lemma quiet_continuation st f : quiet_out st (handle_continuation st f).
Proof.
  unfold handle_continuation. cbv zeta. repeat case_match; cbn [quiet_out]; auto with h2.
  apply quiet_set_continuation, quiet_set_streams. auto with h2.
Qed.

Lemma quiet_data st f : quiet_out st (handle_data st f).
Proof.
  unfold handle_data, set_stream, erase_stream, send_rst_stream. cbv zeta.
  repeat case_match; cbn [quiet_out]; auto 7 with h2;
    repeat match goal with E : maybe_replenish_recv_window _ _ _ = _ |- _ =>
      apply (quiet_replenish _ _ st) in E; [|solve [auto 7 with h2]] end; auto 7 with h2.
Qed.

Lemma quiet_rst st f : quiet_out st (handle_rst_stream st f).
Proof. unfold handle_rst_stream, erase_stream. cbv zeta. case_match; cbn [quiet_out]; auto 7 with h2. Qed.

(** The account of an operation: what the window and the DATA bytes sent make together grows by
    what the peer granted. *)
Definition account (st : Http2Handler) : Z := conn_send_window_ st + data_out (pending_frames_ st).

Lemma quiet_account st st' : quiet st st' -> account st' = account st.
Proof. intros [E1 E2]. unfold account. lia. Qed.

Lemma account_window_update st f st' r : type f = WINDOW_UPDATE -> handle_window_update st f = Ret st' r ->
  has_value r = true -> account st' = account st + granted (Receive f).
Proof.
  intros Ht. rewrite window_update_bytes. unfold apply_increment. cbn [granted]. rewrite Ht.
  destruct (payload f) as [|b0 [|b1 [|b2 [|b3 [|]]]]]; try (by intros [= <- <-]).
  repeat case_match; intros [= <- <-] Hr; try done; unfold send_rst_stream, erase_stream, set_stream, push, account;
    cbn [set_streams set_pending set_conn_send conn_send_window_ pending_frames_]; rewrite ?data_out_app; cbn; lia.
Qed.

Lemma account_send_data st sid data es st' r : send_data st sid data es = Ret st' r -> account st' = account st.
Proof.
  unfold send_data, end_local_at. cbv zeta. repeat case_match; intros [= <- <-]; unfold account, push, set_stream;
    cbn [set_streams set_pending set_conn_send conn_send_window_ pending_frames_]; rewrite ?data_out_app; cbn; lia.
Qed.

Lemma account_step order o st st' r out : step order o st = (Ret st' r, out) -> goes_on o r = true ->
  account st' + data_out out = account st + granted o.
Proof.
  destruct o as [f|sid hs es|sid d es|]; cbn [step].
  - intros [= E <-] Hr. cbn [data_out foldr]. rewrite Z.add_0_r.
    destruct (type f) eqn:Et; unfold handle_frame in E; rewrite Et in E;
      try (by eapply account_window_update); cbn [granted]; rewrite Et, Z.add_0_r; apply quiet_account;
      try (injection E as <- _; apply quiet_refl).
    + pose proof (quiet_data st f) as H. by rewrite E in H.
    + pose proof (quiet_headers st f) as H. by rewrite E in H.
    + pose proof (quiet_rst st f) as H. by rewrite E in H.
    + pose proof (quiet_settings order st f) as H. by rewrite E in H.
    + unfold handle_ping in E. repeat case_match; try done; injection E as <- _; (apply quiet_refl || by apply quiet_push).
    + pose proof (quiet_continuation st f) as H. by rewrite E in H.
  - intros [= <- _ <-] _. cbn [granted data_out foldr]. rewrite !Z.add_0_r. apply quiet_account.
    unfold end_local_at. repeat case_match; [apply quiet_set_streams|..]; by apply quiet_push.
  - intros [= E <-] _. cbn. rewrite !Z.add_0_r. by eapply account_send_data.
  - intros [= <- _ <-] _. unfold account. cbn. lia.
Qed.

Lemma account_run order ops : forall st st' out, run order ops st = Some (st', out) ->
  account st' + data_out out = account st + total_granted ops.
Proof.
  induction ops as [|o ops IH]; intros st st' out; cbn [run]; [intros [= <- <-]; cbn; lia|].
  destruct (step order o st) as [[st1 r|] out1] eqn:Es; [|done].
  destruct (goes_on o r) eqn:Eg; [|done]. destruct (run order ops st1) as [[st2 out2]|] eqn:Er; [|done].
  intros [= <- <-]. pose proof (account_step _ _ _ _ _ _ Es Eg). pose proof (IH _ _ _ Er).
  rewrite data_out_app. cbn [total_granted foldr]. unfold total_granted in *. lia.
Qed.

(** C33. Flow control of the sending side.  At every moment of a connection the DATA bytes it
    wrote or queued, over all streams, are exactly the initial 65535 and what the peer granted
    by WINDOW_UPDATE, less the credit that is left, which is never negative: no byte of DATA is
    sent that the peer had not allowed, and no credit is lost. *)
Theorem http2_send_credit (order : gmap Z Http2Stream -> list Z) (handler : bool) (ops : list Op) st out :
  (forall m, order m ≡ₚ (map_to_list m).*1) -> Forall op_ok ops ->
  run order ops (Http2Handler_init handler) = Some (st, out) ->
  data_out (out ++ pending_frames_ st) = DEFAULT_INITIAL_WINDOW_SIZE + total_granted ops - conn_send_window_ st /\
  0 <= conn_send_window_ st.
Proof.
  intros Ho Hops Hr. split; [|eapply inv_conn_send, run_inv; [done|done|apply inv_init|done]].
  pose proof (account_run _ _ _ _ _ Hr) as Ha. unfold account in Ha. rewrite data_out_app.
  change (conn_send_window_ (Http2Handler_init handler)) with DEFAULT_INITIAL_WINDOW_SIZE in Ha.
  change (data_out (pending_frames_ (Http2Handler_init handler))) with 0 in Ha. lia.
Qed.

(** ** Reads outside a payload *)

Definition refused (st : Http2Handler) (sid : Z) : bool :=
  bool_decide (streams_ st !! sid = None) && (MAX_CONCURRENT_STREAMS <=? Z.of_nat (size (streams_ st))).

Definition buffered (st : Http2Handler) (sid : Z) : Z := zlen (default [] (continuation_buffer_ st !! sid)).

(** A HEADERS frame whose padding is longer than the frame, where the code goes on with it. *)
Definition overlong_padding (st : Http2Handler) (f : Http2Frame) : Prop :=
  type f = HEADERS /\ stream_id f <> 0 /\ refused st (stream_id f) = false /\
  has_flag f HTTP2_FLAG_PADDED = true /\ header_block_offset f <= zlen (payload f) < at_ (payload f) 0 /\
  (has_flag f HTTP2_FLAG_END_HEADERS = true \/
   at_ (payload f) 0 + header_block_offset f <= zlen (payload f) + buffered st (stream_id f)).

Lemma take_block_fault sid eh n b s st : snd (take_block sid eh n b s st) = Fault <->
  b = None /\ (eh = true \/ u64 (buffered st sid + n) <= MAX_HEADER_BLOCK).
Proof.
  unfold take_block, buffered, refuse. destruct eh.
  - destruct b; cbn; naive_solver.
  - case_match eqn:E; [apply Z.ltb_lt in E|apply Z.ltb_ge in E]; destruct b; cbn; naive_solver lia.
Qed.

Lemma get_or_create_buffers sid st : continuation_buffer_ (snd (get_or_create_stream sid st)) = continuation_buffer_ st.
Proof. unfold get_or_create_stream. by case_match. Qed.

Lemma buffered_range st sid : inv st -> 0 <= buffered st sid <= MAX_HEADER_BLOCK.
Proof.
  intros Hi. unfold buffered. split; [apply zlen_nonneg|].
  destruct (continuation_buffer_ st !! sid) eqn:E; [exact (inv_blocks _ Hi _ _ E)|by cbn].
Qed.

Definition pad_of (f : Http2Frame) : Z := if has_flag f HTTP2_FLAG_PADDED then at_ (payload f) 0 else 0.

Lemma pad_length_read f : has_flag f HTTP2_FLAG_PADDED && (zlen (payload f) =? 0) = false -> pad_length f = Some (pad_of f).
Proof.
  unfold pad_length, pad_of. case_match; [|done]. intros E%Z.eqb_neq. pose proof (zlen_nonneg (payload f)).
  apply payload_at_in. lia.
Qed.

(** The span leaves the payload exactly when the padding is longer than the frame. *)
Lemma span_fault f : frame_ok f -> header_block_offset f <= zlen (payload f) ->
  let e := u64 (zlen (payload f) - pad_of f) in
  header_block_offset f <= e -> (span (payload f) (header_block_offset f) (e - header_block_offset f) = None <->
    zlen (payload f) < pad_of f) /\ (zlen (payload f) < pad_of f -> e = 2 ^ 64 + zlen (payload f) - pad_of f).
Proof.
  intros Hf Ho e He. pose proof (zlen_nonneg (payload f)) as Hz. destruct Hf as [Hb Hl _].
  assert (Hp : 0 <= pad_of f < 256).
  { unfold pad_of. case_match; [|lia]. apply (at_range 8 _ 0 ltac:(lia) Hb). }
  destruct (Z.lt_ge_cases (zlen (payload f)) (pad_of f)) as [Hlt|Hge].
  - assert (Ee : e = 2 ^ 64 + zlen (payload f) - pad_of f).
    { unfold e, wrap. rewrite <- (Z_mod_plus_full _ 1), Z.mod_small by lia. lia. }
    unfold span. rewrite (proj2 (Z.leb_gt _ _)) by lia. done.
  - assert (Ee : e = zlen (payload f) - pad_of f) by (apply wrap_small; rlia).
    unfold span. rewrite (proj2 (Z.leb_le _ _)) by lia. split; [|lia]. split; [done|lia].
Qed.

Lemma wrap_buffer b size pad o : 0 <= b <= MAX_HEADER_BLOCK -> 0 <= size < pad -> pad < 256 -> 0 <= o <= 6 ->
  u64 (b + (2 ^ 64 + size - pad - o)) <= MAX_HEADER_BLOCK <-> pad + o <= size + b.
Proof.
  intros Hb Hs Hp Ho. h2consts. unfold wrap. destruct (Z.le_gt_cases (pad + o) (size + b)).
  - rewrite <- (Z_mod_plus_full _ (-1)), Z.mod_small by lia. lia.
  - rewrite Z.mod_small by lia. lia.
Qed.

(** [handle_headers] from the header block on. *)
Lemma block_fault st st1 f s (k : Http2Stream -> Http2Handler -> Http2Handler) : frame_ok f -> inv st ->
  continuation_buffer_ st1 = continuation_buffer_ st -> header_block_offset f <= zlen (payload f) ->
  let o := header_block_offset f in
  let e := u64 (zlen (payload f) - pad_of f) in
  (if e <? o then Ret st1 (Err protocol_error)
   else match take_block (stream_id f) (has_flag f HTTP2_FLAG_END_HEADERS) (e - o) (span (payload f) o (e - o)) s st1 with
        | (s, Ret st (Ok _)) => Ret (k s st) (Ok tt)
        | (_, out) => out
        end) = Fault <->
  zlen (payload f) < pad_of f /\
  (has_flag f HTTP2_FLAG_END_HEADERS = true \/ pad_of f + o <= zlen (payload f) + buffered st (stream_id f)).
Proof.
  intros Hf Hi Hc Ho o e. pose proof (zlen_nonneg (payload f)) as Hz.
  assert (Hp : 0 <= pad_of f < 256).
  { unfold pad_of. case_match; [|lia]. apply (at_range 8 _ 0 ltac:(lia) (frame_bytes _ Hf)). }
  assert (Ho6 : 0 <= o <= 6) by (unfold o, header_block_offset; repeat case_match; lia).
  destruct (Z.ltb_spec e o) as [Hlt|Hge].
  { split; [done|]. intros [Hs _]. unfold e, wrap in Hlt.
    rewrite <- (Z_mod_plus_full _ 1), Z.mod_small in Hlt by (destruct Hf; lia). lia. }
  destruct (span_fault f Hf Ho Hge) as [Hsp He]. fold o e in Hsp, He.
  match goal with |- context [take_block ?a ?b ?c ?d ?g ?h] => pose proof (take_block_fault a b c d g h) as Hk;
    destruct (take_block a b c d g h) as [s' out] end.
  assert (Hb : buffered st1 (stream_id f) = buffered st (stream_id f)) by (unfold buffered; by rewrite Hc).
  cbn [snd] in Hk. rewrite Hb, Hsp in Hk.
  transitivity (out = Fault); [destruct out as [? [[]|]|]; naive_solver|]. rewrite Hk.
  assert (Hw : zlen (payload f) < pad_of f -> u64 (buffered st (stream_id f) + (e - o)) <= MAX_HEADER_BLOCK <->
    pad_of f + o <= zlen (payload f) + buffered st (stream_id f)).
  { intros Hlt. rewrite (He Hlt). apply wrap_buffer; [by apply buffered_range|lia..]. }
  naive_solver.
Qed.

Lemma headers_fault st f : frame_ok f -> inv st -> type f = HEADERS ->
  handle_headers st f = Fault <-> overlong_padding st f.
Proof.
  intros Hf Hi Ht. unfold handle_headers, overlong_padding. cbv zeta. fold (refused st (stream_id f)).
  destruct (Z.eqb_spec (stream_id f) 0) as [E0|Hsid]; [unfold refuse; naive_solver|].
  destruct (refused st (stream_id f)) eqn:Hr; [naive_solver|].
  pose proof (get_or_create_buffers (stream_id f) st) as Hc.
  destruct (get_or_create_stream (stream_id f) st) as [s st1]. cbn [snd] in Hc.
  pose proof (zlen_nonneg (payload f)) as Hz.
  assert (Ho1 : has_flag f HTTP2_FLAG_PADDED = true -> 1 <= header_block_offset f)
    by (unfold header_block_offset; intros ->; case_match; lia).
  destruct (has_flag f HTTP2_FLAG_PADDED && (zlen (payload f) =? 0)) eqn:Ep.
  { apply andb_true_iff in Ep as [Ep Es%Z.eqb_eq]. split; [done|]. intros (_ & _ & _ & _ & Hx & _). specialize (Ho1 Ep). lia. }
  rewrite (pad_length_read f Ep).
  destruct (Z.ltb_spec (zlen (payload f)) (header_block_offset f)) as [|Hos]; [split; [done|]; naive_solver lia|].
  rewrite (block_fault st st1 f s (fun s st => set_last (stream_id f)
    (if has_flag f HTTP2_FLAG_END_STREAM then finish_request (stream_id f) s st else st)) Hf Hi Hc Hos).
  unfold pad_of. destruct (has_flag f HTTP2_FLAG_PADDED); naive_solver lia.
Qed.

Lemma apply_entries_returns order p : forall st, apply_entries order p st <> Fault.
Proof.
  induction p as [p Hl|i0 i1 v0 v1 v2 v3 p IH] using list_ind6; intros st.
  { do 6 (destruct p; [done|]). cbn in Hl. lia. }
  cbn [apply_entries]. destruct (apply_setting _ _ _ _) as [st' [[]|]|] eqn:E; [apply IH|done|].
  unfold apply_setting, refuse in E. repeat case_match; done.
Qed.

Lemma ping_returns st f : handle_ping st f <> Fault.
Proof.
  unfold handle_ping. case_match; [done|]. destruct (Z.leb_spec 8 (zlen (payload f))) as [H8|]; [|done].
  by destruct (read_opaque_in 8 (payload f) 0 0 ltac:(done) H8) as [o ->].
Qed.

Lemma data_returns st f : frame_ok f -> handle_data st f <> Fault.
Proof.
  intros Hf. unfold handle_data. cbv zeta. unfold refuse. do 4 (case_match; try done).
  destruct (maybe_replenish_recv_window 0 _ _) as [w st1].
  destruct (data_range_spec f Hf) as [->|(o & e & -> & Ho & He)]; [done|].
  rewrite payload_range_in by lia. repeat case_match; done.
Qed.

(** C10. Memory safety of [handle_frame], exactly, for the accesses the handlers make to the
    payload: the entries of SETTINGS, the data of PING, the increment of WINDOW_UPDATE, the
    padding lengths, and the ranges handed to the HPACK decoder, to the header buffer and to
    the request body.  (What the decoder reads of the span it is given is its own.)  Of all the
    frames a peer can send, the only ones that make one of them leave the payload are HEADERS
    frames with the PADDED flag whose padding length exceeds the frame: the end of the block is
    computed below zero and wraps, and its comparison with the start passes.  They do so when END_HEADERS is set, or
    when enough of an earlier block is buffered for the size check to wrap as well. *)
Theorem http2_payload_safety (order : gmap Z Http2Stream -> list Z) st f : frame_ok f -> inv st ->
  handle_frame order st f = Fault <-> overlong_padding st f.
Proof.
  intros Hf Hi. destruct (type f) eqn:Et.
  2: { rewrite <- headers_fault by done. unfold handle_frame. by rewrite Et. }
  all: split; [|intros (E & _); congruence]; unfold handle_frame; rewrite Et; try done.
  - intros E; by apply data_returns in E.
  - unfold handle_rst_stream, refuse. cbv zeta. by case_match.
  - unfold handle_settings, refuse. rewrite apply_settings_all. pose proof (apply_entries_returns order (payload f) st). repeat case_match; done.
  - intros E. by apply ping_returns in E.
  - rewrite window_update_bytes. unfold apply_increment, refuse. cbv zeta. repeat case_match; done.
  - unfold handle_continuation, refuse. cbv zeta. repeat case_match; done.
Qed.

(** ** Witnesses *)

Definition keys_order (m : gmap Z Http2Stream) : list Z := (map_to_list m).*1.

Definition frame (t : Http2FrameType) (fl sid : Z) (p : bytes) : Http2Frame := mkFrame (zlen p) t fl sid p.

(** A request in two frames, its answer, and credit in between. *)
Definition example_ops : list Op :=
  [Receive (frame SETTINGS 0 0 [0; 4; 0; 1; 0; 0]);
   Receive (frame HEADERS 0x4 1 (encode [entry ":method" "POST"; entry "x-id" "7"]));
   Receive (frame DATA 0x9 1 [2; 104; 105; 0; 0]);
   SendHeaders 1 [entry ":status" "200"] false;
   Drain;
   Receive (frame WINDOW_UPDATE 0 0 [0; 0; 1; 0]);
   SendData 1 [111; 107] true].

Lemma example_ops_ok : Forall op_ok example_ops.
Proof.
  repeat (apply Forall_cons; split); try apply Forall_nil_2; try exact I; (constructor; [|reflexivity|done]).
  all: apply (bool_decide_unpack _); vm_compute; exact I.
Qed.

Lemma http2_limits_witness :
  match run keys_order example_ops (Http2Handler_init true) with Some (st, _) => inv st | None => False end.
Proof.
  destruct (run keys_order example_ops (Http2Handler_init true)) as [[st out]|] eqn:E.
  - apply (http2_limits keys_order true example_ops st out (fun m => reflexivity _) example_ops_ok E).
  - vm_compute in E. discriminate E.
Defined.

Lemma http2_send_credit_witness :
  match run keys_order example_ops (Http2Handler_init true) with
  | Some (st, out) => data_out (out ++ pending_frames_ st) = 65535 + 256 - conn_send_window_ st
  | None => False
  end.
Proof.
  destruct (run keys_order example_ops (Http2Handler_init true)) as [[st out]|] eqn:E.
  - apply (http2_send_credit keys_order true example_ops st out (fun m => reflexivity _) example_ops_ok E).
  - vm_compute in E. discriminate E.
Defined.

Lemma http2_payload_safety_witness :
  handle_frame keys_order (Http2Handler_init true) (frame HEADERS 0xC 1 [9; 0x82]) = Fault.
Proof.
  apply (http2_payload_safety keys_order (Http2Handler_init true) (frame HEADERS 0xC 1 [9; 0x82])).
  - constructor; [apply (bool_decide_unpack _); exact I|reflexivity|done].
  - apply inv_init.
  - repeat split; try reflexivity; try done. by left.
Defined.
