(* ===== verification/Http2Requests.v ===== *)
(** * HTTP/2: requests on multiplexed streams

    A request sent as HEADERS and DATA frames reaches the application's handler once, with the
    headers HPACK carried and the body the frames carried, whatever is interleaved on other
    streams; and the sequences of frames for which that fails. *)

From stdpp Require Import gmap.
From S2P Require Import Prelude Hpack Http2 Http2Limits.
#[local] Open Scope Z_scope.
#[local] Open Scope word_scope.

(** ** Frames of other streams *)

(** The part of a stream that makes its request. *)
Definition view (sid : Z) (st : Http2Handler) : option (Headers * bytes * Z) :=
  (fun s => (request_headers s, request_body s, recv_window s)) <$> streams_ st !! sid.

Definition calls_of (sid : Z) (st : Http2Handler) : list Call := filter (fun c => call_stream c = sid) (calls st).

(** A step that leaves the request of [sid] as it was. *)
Definition apart (sid : Z) (st st' : Http2Handler) : Prop :=
  view sid st' = view sid st /\ calls_of sid st' = calls_of sid st /\ handler_ st' = handler_ st.

Lemma apart_refl sid st : apart sid st st.
Proof. done. Qed.

Lemma apart_trans sid st1 st2 st3 : apart sid st1 st2 -> apart sid st2 st3 -> apart sid st1 st3.
Proof. intros (? & ? & ?) (? & ? & ?). repeat split; congruence. Qed.

Lemma apart_push sid f st st' : apart sid st st' -> apart sid st (push f st').
Proof. done. Qed.
Lemma apart_pending sid q st st' : apart sid st st' -> apart sid st (set_pending q st').
Proof. done. Qed.
Lemma apart_last sid k st st' : apart sid st st' -> apart sid st (set_last k st').
Proof. done. Qed.
Lemma apart_continuation sid m st st' : apart sid st st' -> apart sid st (set_continuation m st').
Proof. done. Qed.
Lemma apart_conn_send sid w st st' : apart sid st st' -> apart sid st (set_conn_send w st').
Proof. done. Qed.
Lemma apart_conn_recv sid w st st' : apart sid st st' -> apart sid st (set_conn_recv w st').
Proof. done. Qed.
Lemma apart_peer sid a b c d st st' : apart sid st st' -> apart sid st (set_peer a b c d st').
Proof. done. Qed.
Lemma apart_rst sid n st st' : apart sid st st' -> apart sid st (set_rst n st').
Proof. done. Qed.

Lemma apart_set_stream sid k s st st' : k <> sid -> apart sid st st' -> apart sid st (set_stream k s st').
Proof. intros Hk (Hv & ? & ?). repeat split; [|done..]. rewrite <- Hv. unfold view. cbn. by rewrite lookup_insert_ne. Qed.

Lemma apart_erase sid k st st' : k <> sid -> apart sid st st' -> apart sid st (erase_stream k st').
Proof. intros Hk (Hv & ? & ?). repeat split; [|done..]. rewrite <- Hv. unfold view. cbn. by rewrite lookup_delete_ne. Qed.

Lemma apart_finish sid k s st st' : k <> sid -> apart sid st st' -> apart sid st (finish_request k s st').
Proof.
  intros Hk Ha. pose proof (apart_set_stream sid k (set_state HALF_CLOSED_REMOTE s) _ _ Hk Ha) as Ha'.
  unfold finish_request. cbv zeta. case_match; [|done].
  destruct Ha' as (Hv & Hc & Hh). split; [done|]. split; [|done]. rewrite <- Hc.
  unfold calls_of. cbn. rewrite filter_app, filter_cons_False by done. by rewrite app_nil_r.
Qed.

(** A stream rewritten with its request as it was. *)
Lemma apart_same sid k s s' st st' : streams_ st' !! k = Some s -> request_headers s' = request_headers s ->
  request_body s' = request_body s -> recv_window s' = recv_window s -> apart sid st st' -> apart sid st (set_stream k s' st').
Proof.
  intros Es E1 E2 E3 (Hv & ? & ?). repeat split; [|done..]. rewrite <- Hv. unfold view. cbn.
  destruct (decide (k = sid)) as [->|]; [|by rewrite lookup_insert_ne].
  rewrite lookup_insert_eq, Es. cbn. by rewrite E1, E2, E3.
Qed.

Create HintDb apart discriminated.
#[export] Hint Resolve apart_refl apart_push apart_pending apart_last apart_continuation apart_conn_send apart_conn_recv
  apart_peer apart_rst apart_set_stream apart_erase apart_finish : apart.

Lemma apart_adjust sid sids delta : forall st st' st'' b, adjust_windows sids delta st' = (st'', b) ->
  apart sid st st' -> apart sid st st''.
Proof.
  induction sids as [|k sids IH]; intros st st' st'' b; cbn [adjust_windows]; [by intros [= <- _]|].
  destruct (streams_ st' !! k) as [s|] eqn:Es; [|by apply IH]. intros E Ha.
  assert (apart sid st (set_stream k (set_send_window (send_window s + delta) s) st')) by by eapply apart_same.
  case_match; [by injection E as <- _|by eapply IH].
Qed.

Definition apart_out (sid : Z) (st : Http2Handler) (out : outcome) : Prop :=
  match out with Ret st' _ => apart sid st st' | Fault => True end.

Lemma apart_refuse sid c m e st st' : apart sid st st' -> apart_out sid st (refuse c m e st').
Proof. done. Qed.
#[export] Hint Resolve apart_refuse : apart.

Lemma apart_setting order sid ident val st st' : apart sid st st' -> apart_out sid st (apply_setting order ident val st').
Proof.
  intros Ha. unfold apply_setting. repeat case_match; try done; cbn [apart_out].
  - apply apart_peer. by eapply apart_adjust.
  - apply apart_push. by eapply apart_adjust.
Qed.

Lemma apart_settings_loop order sid p : forall st st', apart sid st st' -> apart_out sid st (apply_entries order p st').
Proof.
  induction p as [p Hl|i0 i1 v0 v1 v2 v3 p IH] using list_ind6; intros st st' Ha.
  { do 6 (destruct p; [done|]). cbn in Hl. lia. }
  cbn [apply_entries]. pose proof (apart_setting order sid (u16 ((i0 << 8) .| i1)) (be32 v0 v1 v2 v3) st st' Ha) as Hs.
  destruct (apply_setting _ _ _ _) as [st1 [[]|]|]; [by apply IH|done..].
Qed.

Lemma apart_settings order sid st f : apart_out sid st (handle_settings order st f).
Proof.
  unfold handle_settings. rewrite apply_settings_all. repeat (case_match; try done; auto with apart);
    pose proof (apart_settings_loop order sid (payload f) st st (apart_refl sid st)) as Ha;
    match goal with E : apply_entries _ _ _ = _ |- _ => rewrite E in Ha end; auto with apart.
Qed.

Lemma apart_replenish sid k w st st' w' st'' : maybe_replenish_recv_window k w st' = (w', st'') ->
  apart sid st st' -> apart sid st st''.
Proof. unfold maybe_replenish_recv_window. case_match; by intros [= _ <-]. Qed.

Lemma apart_headers sid st f : stream_id f <> sid -> apart_out sid st (handle_headers st f).
Proof.
  intros Hne. unfold handle_headers, get_or_create_stream. cbv zeta. case_match; [done|]. case_match; [done|].
  set (p := match streams_ st !! stream_id f with Some _ => _ | None => _ end).
  assert (Hp : apart sid st (snd p)) by (unfold p; case_match; [done|]; by apply apart_set_stream).
  destruct p as [s st1]. cbn [snd] in Hp. case_match; [done|]. destruct (pad_length f); [|done].
  do 2 (case_match; [done|]). unfold take_block, refuse.
  repeat case_match; simplify_eq; cbn [apart_out]; auto 7 with apart.
Qed.

Lemma apart_continuation_frame sid st f : stream_id f <> sid -> apart_out sid st (handle_continuation st f).
Proof. intros Hne. unfold handle_continuation. cbv zeta. repeat case_match; cbn [apart_out]; auto 7 with apart. Qed.

Lemma apart_data sid st f : stream_id f <> sid -> apart_out sid st (handle_data st f).
Proof.
  intros Hne. unfold handle_data, send_rst_stream. cbv zeta. repeat case_match; cbn [apart_out]; auto 7 with apart;
    repeat match goal with E : maybe_replenish_recv_window _ _ _ = _ |- _ =>
      apply (apart_replenish sid _ _ st) in E; [|solve [auto 7 with apart]] end; auto 7 with apart.
Qed.

Lemma apart_window_update sid st f : stream_id f <> sid -> apart_out sid st (handle_window_update st f).
Proof.
  intros Hne. rewrite window_update_bytes. unfold apply_increment, send_rst_stream. cbv zeta. repeat case_match; auto with apart; cbn [apart_out]; auto 7 with apart.
Qed.

Lemma apart_frame order sid st f : stream_id f <> sid -> apart_out sid st (handle_frame order st f).
Proof.
  intros Hne. unfold handle_frame. case_match; try done.
  - by apply apart_data.
  - by apply apart_headers.
  - unfold handle_rst_stream. cbv zeta. case_match; auto 7 with apart; cbn [apart_out]; auto 7 with apart.
  - apply apart_settings.
  - unfold handle_ping. by repeat case_match.
  - by apply apart_window_update.
  - by apply apart_continuation_frame.
Qed.

Lemma apart_end_local sid k es st st' : apart sid st st' -> apart sid st (end_local_at k es st').
Proof.
  intros Ha. unfold end_local_at. case_match eqn:Es; [|done]. case_match; [|done].
  eapply apart_same; [done|unfold end_local; by case_match..|done].
Qed.

(** What the application sends never touches a request, of its own stream either. *)
Lemma apart_send_data sid st k data es st' r : send_data st k data es = Ret st' r -> apart sid st st'.
Proof.
  unfold send_data. cbv zeta. case_match; intros [= <- <-]; [done|].
  apply apart_end_local, apart_push. cbn [set_conn_send streams_]. case_match eqn:Es; [|done].
  by eapply apart_same.
Qed.

Definition on_stream (sid : Z) (o : Op) : bool := match o with Receive f => stream_id f =? sid | _ => false end.

Lemma apart_step order sid o st st' r out : on_stream sid o = false -> step order o st = (Ret st' r, out) -> apart sid st st'.
Proof.
  destruct o as [f|k hs es|k d es|]; cbn [step on_stream].
  - intros Hne%Z.eqb_neq [= E _]. pose proof (apart_frame order sid st f Hne) as Ha. by rewrite E in Ha.
  - intros _ [= <- _ _]. by apply apart_end_local.
  - intros _ [= E _]. by eapply apart_send_data.
  - by intros _ [= <- _ _].
Qed.

(** ** Frames of the request *)

(** The request of [sid] is being received: its headers, the body so far, a window that still
    takes a frame of the size the server advertises. *)
Definition receiving (sid : Z) (m : Headers) (body : bytes) (st : Http2Handler) : Prop :=
  handler_ st = true /\ exists w, view sid st = Some (m, body, w) /\ HALF_WINDOW <= w <= DEFAULT_INITIAL_WINDOW_SIZE.

Lemma receiving_apart sid m body st st' : apart sid st st' -> receiving sid m body st -> receiving sid m body st'.
Proof. intros (Hv & _ & Hh) (? & w & Hw & ?). split; [congruence|]. exists w. split; [congruence|done]. Qed.

(** A HEADERS frame that opens a request with a body. *)
Record opens (sid : Z) (order : list (bytes * bytes)) (f : Http2Frame) : Prop := {
  opens_type : type f = HEADERS;
  opens_flags : flags f = HTTP2_FLAG_END_HEADERS;
  opens_stream : stream_id f = sid;
  opens_payload : payload f = encode order;
  opens_size : zlen (payload f) < 2 ^ 24
}.

(** A DATA frame of the request, padded or not, that carries [c]. *)
Record carries (sid : Z) (last : bool) (f : Http2Frame) (c : bytes) : Prop := {
  carries_type : type f = DATA;
  carries_stream : stream_id f = sid;
  carries_bytes : data_bytes f = Some c;
  carries_size : zlen (payload f) <= DEFAULT_MAX_FRAME_SIZE;
  carries_last : has_flag f HTTP2_FLAG_END_STREAM = last
}.

Lemma open_step order sid hs m f st : sid <> 0 -> opens sid hs f -> decode (encode hs) = m ->
  handler_ st = true -> streams_ st !! sid = None -> Z.of_nat (size (streams_ st)) < MAX_CONCURRENT_STREAMS ->
  exists st', handle_frame order st f = Ret st' (Ok tt) /\ receiving sid m [] st' /\ calls st' = calls st /\
    conn_recv_window_ st' = conn_recv_window_ st.
Proof.
  intros Hsid [Ht Hfl Hs Hp Hl] Hm Hh Hnone Hroom. pose proof (zlen_nonneg (payload f)) as Hz.
  assert (Hpad : has_flag f HTTP2_FLAG_PADDED = false) by (unfold has_flag; by rewrite Hfl).
  assert (Hprio : has_flag f HTTP2_FLAG_PRIORITY = false) by (unfold has_flag; by rewrite Hfl).
  assert (Heh : has_flag f HTTP2_FLAG_END_HEADERS = true) by (unfold has_flag; by rewrite Hfl).
  assert (Hes : has_flag f HTTP2_FLAG_END_STREAM = false) by (unfold has_flag; by rewrite Hfl).
  unfold handle_frame, handle_headers, get_or_create_stream, header_block_offset, pad_length.
  rewrite Ht, Hs, Hpad, Hprio, Heh, Hes. cbv zeta. rewrite Hnone. cbn [andb].
  rewrite (proj2 (Z.eqb_neq _ _) Hsid), (proj2 (Z.leb_gt _ _) Hroom), andb_false_r, Z.sub_0_r, wrap_small by rlia.
  change (0 + 0) with 0. rewrite (proj2 (Z.ltb_ge _ _) Hz), Z.sub_0_r. unfold span. rewrite Z.add_0_l, Z.leb_refl, zdrop_0, ztake_all by lia.
  cbn [take_block]. eexists. split; [reflexivity|]. split; [|done]. split; [done|].
  exists DEFAULT_INITIAL_WINDOW_SIZE. split; [|h2consts; lia]. unfold view. cbn. rewrite lookup_insert_eq. cbn.
  rewrite Hp, Hm. by rewrite map_union_empty.
Qed.

Lemma view_lookup sid st m body w : view sid st = Some (m, body, w) -> exists s, streams_ st !! sid = Some s /\
  (request_headers s, request_body s, recv_window s) = (m, body, w).
Proof. unfold view. destruct (streams_ st !! sid) as [s|]; [|done]. cbn. intros [= <- <- <-]. by exists s. Qed.

(** A DATA frame is taken unless it would exceed the connection's window. *)
Lemma data_step order sid m body last f c st : sid <> 0 -> carries sid last f c -> receiving sid m body st ->
  zlen body + zlen c <= MAX_REQUEST_BODY -> zlen (payload f) <= conn_recv_window_ st <= DEFAULT_INITIAL_WINDOW_SIZE ->
  exists st', handle_frame order st f = Ret st' (Ok tt) /\
    HALF_WINDOW <= conn_recv_window_ st' <= DEFAULT_INITIAL_WINDOW_SIZE /\
    (if last then calls st' = calls st ++ [mkCall sid m (body ++ c)]
     else receiving sid m (body ++ c) st' /\ calls st' = calls st).
Proof.
  intros Hsid [Ht Hs Hd Hl Hlast] (Hh & w & Hv & Hw) Hbody Hconn. pose proof (zlen_nonneg (payload f)) as Hz.
  destruct (view_lookup _ _ _ _ _ Hv) as (s & Es & [= Em Eb Ew]).
  unfold handle_frame, handle_data. rewrite Ht, Hs, Es. cbv zeta. rewrite (proj2 (Z.eqb_neq _ _) Hsid).
  cbn [set_stream set_streams set_conn_recv set_recv_window recv_window conn_recv_window_ request_body].
  rewrite Ew, Eb. h2consts. zbool.
  destruct (maybe_replenish_recv_window 0 _ _) as [w1 st1] eqn:E1.
  unfold data_bytes in Hd. destruct (data_range f) as [o e| |]; [|done..].
  destruct (payload_range_inv _ _ _ _ Hd) as (Ho & He & Hc). rewrite if_sub, <- Hc, Hd by lia.
  pose proof (zlen_nonneg body). rewrite (wrap_small 64) by (h2consts; rlia). zbool.
  apply replenish_spec in E1 as [Hw1 Hst1]; [|h2consts; lia].
  assert (Hst1' : calls st1 = calls st /\ handler_ st1 = true) by (destruct Hst1 as [->|(? & -> & _)]; done).
  destruct Hst1' as [Hc1 Hh1]. rewrite Hlast. destruct last.
  - eexists. split; [reflexivity|]. unfold finish_request. cbv zeta.
    cbn [set_stream set_streams set_conn_recv handler_]. rewrite Hh1. cbn. h2consts. by rewrite Hc1, Em.
  - cbn [set_request_body set_recv_window recv_window]. destruct (maybe_replenish_recv_window sid _ _) as [w2 st2] eqn:E2.
    apply replenish_spec in E2 as [Hw2 Hst2]; [|h2consts; lia]. eexists. split; [reflexivity|].
    assert (Hst2' : calls st2 = calls st /\ handler_ st2 = true /\ conn_recv_window_ st2 = w1)
      by (destruct Hst2 as [->|(? & -> & _)]; done).
    destruct Hst2' as (Hc2 & Hh2 & Hr2). cbn [set_stream set_streams conn_recv_window_ calls]. rewrite Hr2.
    split; [h2consts; lia|]. split; [|done]. split; [done|]. exists w2. split; [|done].
    unfold view. cbn. rewrite lookup_insert_eq. cbn. by rewrite Em.
Qed.

(** ** Requests *)

(** The frames a run receives on a stream. *)
Fixpoint frames_on (sid : Z) (ops : list Op) : list Http2Frame :=
  match ops with
  | [] => []
  | Receive f :: ops => if stream_id f =? sid then f :: frames_on sid ops else frames_on sid ops
  | _ :: ops => frames_on sid ops
  end.

Lemma frames_on_cons sid o ops :
  (on_stream sid o = false /\ frames_on sid (o :: ops) = frames_on sid ops) \/
  exists f, o = Receive f /\ frames_on sid (o :: ops) = f :: frames_on sid ops.
Proof.
  destruct o as [f|k hs es|k d es|]; cbn; [|by left..]. destruct (stream_id f =? sid) eqn:E; [right; by exists f|by left].
Qed.

(** The step of a run. *)
Lemma run_cons order o ops st st' out : run order (o :: ops) st = Some (st', out) ->
  exists st1 r out1 out2, step order o st = (Ret st1 r, out1) /\ goes_on o r = true /\ run order ops st1 = Some (st', out2).
Proof.
  cbn [run]. destruct (step order o st) as [[st1 r|] out1] eqn:Es; [|done].
  destruct (goes_on o r) eqn:Eg; [|done]. destruct (run order ops st1) as [[st2 out2]|] eqn:Er; [|done].
  intros [= <- <-]. by exists st1, r, out1, out2.
Qed.

Lemma run_apart order sid ops : forall st st' out, frames_on sid ops = [] -> run order ops st = Some (st', out) -> apart sid st st'.
Proof.
  induction ops as [|o ops IH]; intros st st' out Hf; [by intros [= <- <-]|].
  intros (st1 & r & out1 & out2 & Es & _ & Er)%run_cons.
  destruct (frames_on_cons sid o ops) as [[Ho E]|(f & _ & E)]; rewrite E in Hf; [|done].
  eapply apart_trans; [by eapply apart_step|by eapply IH].
Qed.

(** The DATA frames of a request, the last with END_STREAM. *)
Definition data_frames (sid : Z) (ds : list Http2Frame) (cs : list bytes) (l : Http2Frame) (c : bytes) : Prop :=
  Forall2 (carries sid false) ds cs /\ carries sid true l c /\ zlen (concat cs ++ c) <= MAX_REQUEST_BODY.

(** A frame that was taken did not exceed the window: [data_step] describes it. *)
Lemma data_taken order sid m body last f c st st' : sid <> 0 -> carries sid last f c -> receiving sid m body st ->
  zlen body + zlen c <= MAX_REQUEST_BODY -> conn_recv_window_ st <= DEFAULT_INITIAL_WINDOW_SIZE ->
  handle_frame order st f = Ret st' (Ok tt) ->
  HALF_WINDOW <= conn_recv_window_ st' <= DEFAULT_INITIAL_WINDOW_SIZE /\
    (if last then calls st' = calls st ++ [mkCall sid m (body ++ c)]
     else receiving sid m (body ++ c) st' /\ calls st' = calls st).
Proof.
  intros Hsid Hc Hr Hb Hconn E. destruct (Z.le_gt_cases (zlen (payload f)) (conn_recv_window_ st)).
  - destruct (data_step order sid m body last f c st Hsid Hc Hr Hb) as (st1 & E1 & ?); [done|]. rewrite E in E1.
    by injection E1 as ->.
  - exfalso. destruct Hc as [Ht Hs _ _ _], Hr as (_ & w & Hv & _).
    destruct (view_lookup _ _ _ _ _ Hv) as (s & Es & _).
    unfold handle_frame, handle_data in E. rewrite Ht, Hs, Es in E. cbv zeta in E. rewrite (proj2 (Z.eqb_neq _ _) Hsid) in E.
    cbn [set_stream set_streams set_conn_recv conn_recv_window_] in E. rewrite (proj2 (Z.ltb_lt _ _)) in E by lia. done.
Qed.

Lemma goes_on_receive f r : goes_on (Receive f) r = true -> r = Ok tt.
Proof. by destruct r as [[]|]. Qed.

Section Requests.
  Context (order : gmap Z Http2Stream -> list Z) (sid : Z) (m : Headers).
  Hypothesis order_keys : forall k, order k ≡ₚ (map_to_list k).*1.
  Hypothesis sid_ok : sid <> 0.

Lemma body_run ops : forall st st' out body ds cs l c, Forall op_ok ops -> inv st -> receiving sid m body st ->
  Forall2 (carries sid false) ds cs -> carries sid true l c -> zlen (body ++ concat cs ++ c) <= MAX_REQUEST_BODY ->
  frames_on sid ops = ds ++ [l] -> run order ops st = Some (st', out) ->
  calls_of sid st' = calls_of sid st ++ [mkCall sid m (body ++ concat cs ++ c)].
Proof.
  induction ops as [|o ops IH]; intros st st' out body ds cs l c Hok Hi Hr Hds Hl Hsz Hf; [by destruct ds|].
  intros (st1 & r & out1 & out2 & Es & Eg & Er)%run_cons. apply Forall_cons in Hok as [Ho Hok].
  pose proof (step_inv order order_keys _ _ _ _ _ Ho Hi Es Eg) as Hi1.
  destruct (frames_on_cons sid o ops) as [[Hon E]|(f & -> & E)]; rewrite E in Hf.
  { pose proof (apart_step _ _ _ _ _ _ _ Hon Es) as Ha.
    rewrite <- (proj1 (proj2 Ha)).
    eapply IH; try done. by eapply receiving_apart. }
  apply goes_on_receive in Eg as ->. cbn [step] in Es. injection Es as Es <-.
  pose proof (zlen_nonneg (concat cs)). rewrite !zlen_app in Hsz. pose proof (zlen_nonneg c).
  destruct Hds as [|d x ds cs Hd Hds]; injection Hf as -> Hf.
  - pose proof (data_taken order sid m body true l c st st1 sid_ok Hl Hr Hsz (proj2 (inv_conn_recv _ Hi)) Es) as [_ Hcall].
    destruct (run_apart order sid ops _ _ _ Hf Er) as (_ & -> & _).
    unfold calls_of. rewrite Hcall, filter_app, filter_cons_True by done. done.
  - cbn [concat] in *. rewrite zlen_app in *. pose proof (zlen_nonneg (concat cs)).
    assert (Hx : zlen body + zlen x <= MAX_REQUEST_BODY) by lia.
    pose proof (data_taken order sid m body false d x st st1 sid_ok Hd Hr Hx (proj2 (inv_conn_recv _ Hi)) Es) as [_ [Hr1 Hc1]].
    replace (calls_of sid st) with (calls_of sid st1) by (unfold calls_of; by rewrite Hc1).
    rewrite <- (app_assoc x), (app_assoc body). eapply IH; try done. rewrite !zlen_app. lia.
Qed.

(** The same frames with nothing in between are all taken. *)
Lemma body_served : forall ds cs body st l c, receiving sid m body st -> Forall2 (carries sid false) ds cs ->
  carries sid true l c -> zlen (body ++ concat cs ++ c) <= MAX_REQUEST_BODY ->
  HALF_WINDOW <= conn_recv_window_ st <= DEFAULT_INITIAL_WINDOW_SIZE ->
  exists st', run order (map Receive (ds ++ [l])) st = Some (st', []) /\
    calls st' = calls st ++ [mkCall sid m (body ++ concat cs ++ c)].
Proof.
  induction ds as [|d ds IH]; intros cs body st l c Hr Hds Hl Hsz Hconn;
    pose proof (zlen_nonneg (concat cs)); rewrite !zlen_app in Hsz; pose proof (zlen_nonneg c).
  - apply Forall2_nil_inv_l in Hds as ->.
    destruct (data_step order sid m body true l c st sid_ok Hl Hr Hsz) as (st' & E & _ & Hc).
    { pose proof (carries_size _ _ _ _ Hl). h2consts. lia. }
    exists st'. cbn [app map run step]. by rewrite E.
  - apply Forall2_cons_inv_l in Hds as (x & cs' & Hd & Hds & ->). cbn [concat] in *. rewrite zlen_app in Hsz.
    pose proof (zlen_nonneg (concat cs')).
    destruct (data_step order sid m body false d x st sid_ok Hd Hr ltac:(lia)) as (st1 & E & Hconn1 & Hr1 & Hc1).
    { pose proof (carries_size _ _ _ _ Hd). h2consts. lia. }
    destruct (IH cs' (body ++ x) st1 l c Hr1 Hds Hl) as (st' & E' & Hc'); [rewrite !zlen_app; lia|done|].
    exists st'. cbn [app map run step]. rewrite E. cbn [goes_on has_value]. rewrite E'. split; [done|].
    by rewrite Hc', Hc1, <- !app_assoc.
Qed.
End Requests.

(** What a connection needs to take a new request. *)
Record ready (sid : Z) (st : Http2Handler) : Prop := {
  ready_inv : inv st;
  ready_handler : handler_ st = true;
  ready_fresh : streams_ st !! sid = None;
  ready_room : Z.of_nat (size (streams_ st)) < MAX_CONCURRENT_STREAMS
}.

(** C1. Requests on multiplexed streams.  A stream is opened by a HEADERS frame that encodes a
    header map in any order; DATA frames follow, padded or not, of at most the advertised frame
    size and 8 MiB in all, the last with END_STREAM.  Whatever frames of other streams and of
    the connection, and whatever sends of the application, come in between and after: when the
    connection lives through them, the handler was invoked for that stream exactly once, with
    that map and with the bytes of the frames in order. *)
Theorem http2_request_multiplexed (order : gmap Z Http2Stream -> list Z) sid m hs h ds cs l c ops st st' out :
  (forall k, order k ≡ₚ (map_to_list k).*1) -> sid <> 0 -> ready sid st ->
  hs ≡ₚ map_to_list m -> Forall sized hs -> opens sid hs h -> data_frames sid ds cs l c ->
  frames_on sid ops = ds ++ [l] -> Forall op_ok (Receive h :: ops) ->
  run order (Receive h :: ops) st = Some (st', out) ->
  calls_of sid st' = calls_of sid st ++ [mkCall sid m (concat cs ++ c)].
Proof.
  intros Hord Hsid [Hi Hh Hf Hr] Hp Hs Ho (Hds & Hl & Hsz) Hfr Hok.
  intros (st1 & r & out1 & out2 & Es & Eg & Er)%run_cons. apply Forall_cons in Hok as [Hh' Hok].
  pose proof (step_inv order Hord _ _ _ _ _ Hh' Hi Es Eg) as Hi1.
  destruct (open_step order sid hs m h st Hsid Ho (decode_encode_map _ _ Hp Hs) Hh Hf Hr) as (st2 & E & Hrec & Hc & _).
  cbn [step] in Es. rewrite E in Es. injection Es as <- <- <-.
  replace (calls_of sid st) with (calls_of sid st2) by (unfold calls_of; by rewrite Hc).
  by apply (body_run order sid m Hord Hsid ops st2 st' out2 [] ds cs l c).
Qed.

(** A request on a connection that is ready is served: no frame of it is answered by an
    error, whatever came before, as long as the connection's receive window is at least half
    open, and the handler is invoked with the map and the whole body. *)
Theorem http2_request_served (order : gmap Z Http2Stream -> list Z) sid m hs h ds cs l c st :
  sid <> 0 -> ready sid st -> HALF_WINDOW <= conn_recv_window_ st ->
  hs ≡ₚ map_to_list m -> Forall sized hs -> opens sid hs h -> data_frames sid ds cs l c ->
  exists st', run order (Receive h :: map Receive (ds ++ [l])) st = Some (st', []) /\
    calls st' = calls st ++ [mkCall sid m (concat cs ++ c)].
Proof.
  intros Hsid [Hi Hh Hf Hr] Hw Hp Hs Ho (Hds & Hl & Hsz).
  destruct (open_step order sid hs m h st Hsid Ho (decode_encode_map _ _ Hp Hs) Hh Hf Hr) as (st1 & E & Hrec & Hc & Hw1).
  destruct (body_served order sid m Hsid ds cs [] st1 l c Hrec Hds Hl Hsz) as (st' & E' & Hc').
  { rewrite Hw1. destruct (inv_conn_recv _ Hi). lia. }
  exists st'. cbn [run step]. rewrite E. cbn [goes_on has_value]. rewrite E', Hc', Hc. done.
Qed.

(** ** Witnesses *)

Definition example_map : list (bytes * bytes) := [entry ":method" "POST"; entry "x-id" "7"].
Definition example_open : Http2Frame := frame HEADERS 0x4 1 (encode example_map).
Definition example_data : Http2Frame := frame DATA 0x8 1 [1; 104; 0].
Definition example_last : Http2Frame := frame DATA 0x1 1 [105].

(** The request on stream 1, with another stream and SETTINGS in between. *)
Definition example_mux : list Op :=
  [Receive (frame HEADERS 0x5 3 (encode [entry ":method" "GET"])); Receive example_data;
   SendHeaders 3 [entry ":status" "200"] true; Receive (frame SETTINGS 0 0 [0; 4; 0; 1; 0; 0]); Receive example_last].

Lemma ready_init : ready 1 (Http2Handler_init true).
Proof. constructor; [apply inv_init|done|done|done]. Qed.

Lemma example_order : example_map ≡ₚ map_to_list (list_to_map example_map : Headers).
Proof. symmetry. apply map_to_list_to_map, (bool_decide_unpack _). vm_compute. exact I. Qed.

Lemma example_sized : Forall sized example_map.
Proof. repeat (apply Forall_cons; split; [split; reflexivity|]). apply Forall_nil. exact I. Qed.

Lemma example_opens : opens 1 example_map example_open.
Proof. by constructor. Qed.

Lemma example_data_frames : data_frames 1 [example_data] [[104]] example_last [105].
Proof.
  split; [repeat constructor|split; [by constructor|]]; try reflexivity; done.
Qed.

Lemma example_mux_ok : Forall op_ok (Receive example_open :: example_mux).
Proof.
  repeat (apply Forall_cons; split); try apply Forall_nil_2; try exact I; (constructor; [|reflexivity|done]).
  all: apply (bool_decide_unpack _); vm_compute; exact I.
Qed.

Lemma http2_request_multiplexed_witness :
  match run keys_order (Receive example_open :: example_mux) (Http2Handler_init true) with
  | Some (st, _) => calls_of 1 st = [mkCall 1 (list_to_map example_map) [104; 105]]
  | None => False
  end.
Proof.
  destruct (run keys_order (Receive example_open :: example_mux) (Http2Handler_init true)) as [[st out]|] eqn:E.
  - apply (http2_request_multiplexed keys_order 1 (list_to_map example_map) example_map example_open [example_data] [[104]]
      example_last [105] example_mux (Http2Handler_init true) st out (fun k => reflexivity _) ltac:(done) ready_init example_order
      example_sized example_opens example_data_frames eq_refl example_mux_ok E).
  - vm_compute in E. discriminate E.
Defined.

Lemma http2_request_served_witness :
  exists st', run keys_order (Receive example_open :: map Receive [example_data; example_last]) (Http2Handler_init true) = Some (st', []) /\
    calls st' = [mkCall 1 (list_to_map example_map) [104; 105]].
Proof.
  apply (http2_request_served keys_order 1 (list_to_map example_map) example_map example_open [example_data] [[104]]
    example_last [105] (Http2Handler_init true) ltac:(done) ready_init ltac:(done) example_order example_sized example_opens
    example_data_frames).
Defined.

(** ** Sequences that are not served *)

Definition calls_after (ops : list Op) : option (list Call) :=
  match run keys_order ops (Http2Handler_init true) with Some (st, _) => Some (calls st) | None => None end.

(** A request without a body whose header block continues in a CONTINUATION frame: the handler
    runs before the block is complete, without headers, and not again once it is. *)
Theorem continued_headers_lost :
  calls_after [Receive (frame HEADERS 0x1 1 [0x82]); Receive (frame CONTINUATION 0x4 1 [0x84])] = Some [mkCall 1 ∅ []].
Proof. vm_compute. reflexivity. Qed.

(** DATA after END_STREAM is accepted: the handler runs a second time. *)
Theorem data_after_end_stream :
  calls_after [Receive (frame HEADERS 0x4 1 []); Receive (frame DATA 0x1 1 [104]); Receive (frame DATA 0x1 1 [105])] =
  Some [mkCall 1 ∅ [104]; mkCall 1 ∅ [104; 105]].
Proof. vm_compute. reflexivity. Qed.

(** [n] requests without a body on streams 1, 3, 5, ..., each answered in full. *)
Fixpoint exchanges (n : nat) (sid : Z) : list Op :=
  match n with
  | O => []
  | S n => Receive (frame HEADERS 0x5 sid []) :: SendHeaders sid [] true :: exchanges n (sid + 2)
  end.

(** A finished stream keeps its slot: once 128 requests were answered, every further one on
    the connection is refused, with no stream open. *)
Theorem finished_streams_refuse :
  match run keys_order (exchanges 128 1 ++ [Drain]) (Http2Handler_init true) with
  | Some (st, _) => forallb (fun p => bool_decide (state (snd p) = CLOSED)) (map_to_list (streams_ st)) = true /\
      handle_frame keys_order st (frame HEADERS 0x5 257 []) = Ret (send_rst_stream 257 0x7 st) (Ok tt)
  | None => False
  end.
Proof. vm_compute. split; reflexivity. Qed.
